(* ===== verification/_CoqProject ===== *)
-Q . S2P
Prelude.v
Abi.v
Ring.v
RingConc.v
ChunkTable.v
ChunkTableProofs.v
ChunkTableSpec.v
ChunkTableMap.v
Grid.v
ProcMaps.v
RegionMap.v
HeatMap.v
HeatMapProofs.v
Cursor.v
ChunkReader.v
HeapWalker.v
HeapWalkerProofs.v
ShmCleanup.v
Fragmentation.v
Framebuffer.v
Capabilities.v
Renderer.v
RendererProofs.v
Layout.v
Theme.v
Panel.v
Metrics.v
Snapshot.v
HeatColor.v
MapView.v
MapViewProofs.v
Inspector.v
InspectorProofs.v
Session.v
HeapApp.v
HeapAppProofs.v
LiveSet.v
Watching.v
HeapDraw.v
HeapDrawProofs.v
EventLoop.v
EventLoopProofs.v
AppLoop.v
Printf.v
Clean.v
HeapShows.v
DemoHeap.v
TermCheck.v
TermCheckProofs.v
Terminal.v
TerminalProofs.v
FloatColor.v
FloatBounds.v
FloatColorProofs.v
Preload.v
PreloadProofs.v
HookConc.v
ResolveConc.v
Workload.v
Pipeline.v
Launch.v
Report.v
Program.v
ProgramProofs.v
Churn.v
Watched.v
