(* ===== verification/Prelude.v ===== *)
(** * heapviz: a verification of the live heap profiler

    heapviz shows the heap of a running program.  A library preloaded into the
    target (src/src/preload/preload.c) interposes the allocator and publishes one
    packet per allocation and release into a shared-memory ring
    (src/src/common); a terminal program (src/src/tui) drains the ring, keeps the
    live chunks in a hash table, aggregates them into a map of the address space
    and draws it.  A process without the library is watched from outside: its
    memory is read and the allocator's chunk headers are walked.

    The development is a shallow embedding: machine integers are [Z] with their
    wrap-around written out ([u8] to [u64], [⊞] and [⊟] below), objects are
    records, a method is a function from the object to the object and its result,
    and what the operating system answers (clock, polls, reads and writes, file
    system, process list, the real allocator) is an argument.  Byte strings are
    lists of [Z].

    ** Files

    The shared ring.
    - Abi: the packet, the header, their C layout (heapviz_abi.h).
    - Ring, RingConc: push, drain and the claim protocol (heapviz_ring.h), as
      functions and as atomic steps of any number of producers and the consumer.
      In every interleaving the drained events are a prefix of the claimed ones,
      unaltered; no two writers share a slot; a drain empties a quiescent ring.

    The interceptor.
    - Preload, PreloadProofs: bootstrap arena, symbol resolution, every hook,
      set-up, handshake, teardown, fork (preload.c).  The hooks return what the
      real allocator returns and leave it as it would be; the events they push,
      folded by the application, are exactly the allocator's live blocks; the
      arena's blocks are disjoint and inside it; the ring set up is one the
      consumer accepts.
    - HookConc: the hooks of several threads interleaved at their calls of the
      real allocator and their pushes.
    - ResolveConc: the first calls of any number of threads, interleaved access by
      access with the lookups of the real functions and with the requests those
      lookups make: only the latter live in the arena.
    - Workload: programs as their calls of the allocator, with a weakest
      precondition over the blocks they own; threads of such programs are a
      correct target in any interleaving and leave nothing behind.
    - Churn: the two example targets (src/examples) as such programs.

    From end to end.
    - Watching: the passes, keys and resizes of the application leave the live
      set, what is staged and the source alone.
    - Pipeline: the threads' hooks, every push and every drain cut at its accesses
      of the ring, and the application that folds what it gets, as one system
      simulated by the hooks of HookConc: with nothing refused, the application
      shows the heap a prefix of the history describes, and at rest, after as many
      frames as the backlog needs, the allocator's blocks.
    - Watched: the programs of Workload run by the threads of the pipeline; churn
      is then a correct target of it, and ends with an empty heap shown.

    The model of the heap.
    - ChunkTable, ChunkTableProofs, ChunkTableSpec, ChunkTableMap: the Robin Hood
      table (chunk_table.cpp), its invariant, its specification as a bounded store
      of live and freed records, the refinement and the bounds of its probe loops.
    - Grid, RegionMap, ProcMaps: address bucketing, the packed address space, the
      parser and scanner of /proc/<pid>/maps (grid.cpp, region_map.cpp,
      proc_maps.cpp).
    - HeatMap, HeatMapProofs: cells kept event by event and rebuilt from the table
      agree, up to release stamps of addresses used again (heatmap.cpp).
    - Fragmentation, Snapshot, Inspector, InspectorProofs: the passes over the
      table, each against a declarative definition of what it counts: the bytes
      spanned, held and trapped; the live chunks from the mark on; the largest
      chunks of a cell.
    - Cursor: movement over the grid (cursor.cpp).

    Memory read from outside.
    - ChunkReader, HeapWalker, HeapWalkerProofs: chunk headers and the walk along
      them (chunk_reader.cpp, heap_walker.cpp): safe on any bytes; exact on an
      arena whose chain of headers stands out, the probe that finds where it
      starts included.
    - ShmCleanup: which segments are stale (shm_cleanup.cpp): a cleanup removes
      those of processes that do not exist and nothing else.

    The screen.
    - Framebuffer, Capabilities, Renderer, RendererProofs: the double-buffered
      grid and its differential rendering; a terminal fed a frame's bytes shows the
      back buffer.
    - Layout, Theme, Panel, Metrics, HeatColor, MapView, MapViewProofs: the parts
      of the screen; the areas lie inside it and tile it, each part stays in its
      own, and every position of the map's area shows what it should.
    - FloatColor, FloatBounds, FloatColorProofs: the colour arithmetic of heat_color.cpp,
      theme.cpp and map_view.cpp in IEEE arithmetic, the instance of the class
      [ColorMath] the drawing is written against; a channel's encoding is the
      count of the thresholds it reaches, whatever its guess; no table is read
      outside its bounds.
    - Terminal, TerminalProofs: the guard around the terminal and its signal
      handlers (terminal.cpp), as sequences of accesses a signal may interrupt
      anywhere: the terminal is given back however the program ends.

    The program.
    - Session, Launch: attaching, claiming and releasing; starting a target
      (session.cpp): the step that failed is told and nothing is left behind.
    - HeapApp, HeapAppProofs, LiveSet, HeapDraw, HeapDrawProofs: the application
      (heap_app.cpp), written against the class [EventSource] whose laws
      [EventQueue] a ring session satisfies: every event is applied once and in
      order through pauses; the live set is that of the plain heap; a death is
      recorded once; no part of a frame overdraws another.
    - EventLoop, EventLoopProofs: frames, the wait, statistics (event_loop.cpp),
      against the class [LoopApp]: the terminal shows the front buffer however the
      loop is left, the wait ends at the first turn with a reason and loses no
      key, and the counters are those of the history since they started.
    - AppLoop: the application as an instance of [LoopApp].
    - Printf, Clean, HeapShows: the printed doubles; the text and the one-column
      cells a frame may hold, kept by every drawing operation; and the composition
      of loop, renderer and application: the terminal shows what the application
      drew.
    - DemoHeap, TermCheck, TermCheckProofs: the hand-check --term-check and the
      synthetic heap it draws (demo_heap.cpp, main.cpp), a second instance of
      [LoopApp].
    - Report: version, usage, the cleanup report and the refusal of a terminal
      that is too small.
    - Program, ProgramProofs: the command line and the session from attach to
      release (main.cpp): the ring claimed is given back however it ends, as far
      as the one weak exchange of the release goes.

    ** Fuel and bounds

    A loop the source leaves unbounded takes fuel, given by the caller in the
    model from a quantity of the source, and a theorem says that it is enough:
    one round of the slots for the probe loops of the table
    ([ChunkTableMap.table_loops_terminate]); 64 turns for the logarithm; the
    block's bytes over the smallest chunk, and the source's own ceiling on blocks,
    for the walk ([HeapWalkerProofs.walk_safe]); the length of the text for the
    parsers.  A loop that depends on what the system answers (attaching, waiting,
    delivering, the frames themselves) consumes the list of those answers and
    returns nothing when the list is too short; [Session.attach_ends] and
    [EventLoopProofs.wait_ends] say how long a list always decides.

    ** What is not modelled

    - The wording of most messages of main.cpp, kept as the call and its arguments;
      a failed [setenv]; [strerror] texts.
    - Of the example targets, what they write into their blocks, their output,
      their sleeping and their clock, and what the C library allocates for them.
    - In Pipeline, snapshot mode: it replaces the live set by a sample of its own
      ([LiveSet.adopt_walk_exact]).
    - Floating point is rounded operation by operation: an implementation that
      contracts a product and a sum into one rounding computes other last bits.
      [pow] and [cbrt], whose results no standard fixes, are the class [LibM].
    - Relaxed memory: interleavings are sequentially consistent, the order of the
      writing steps standing for the acquire and release pairs.
    - The target's name and its command line are printed as they are, control
      characters and wide characters included, and its last output line keeps what
      is not ASCII, so [HeapShows] speaks of targets whose name and first word are
      printable ASCII and whose output is ASCII
      ([HeapDrawProofs.name_reaches_terminal] and [HeapShows.wide_output_drawn] are
      why).  The terminal of [RendererProofs] gives every code point one column.
    - Tests. *)

From Stdlib Require Export ZArith Lia.
From Stdlib Require Ascii String.
From stdpp Require Export base tactics numbers list sorting gmap.

#[export] Set Default Goal Selector "!".
Open Scope Z_scope.

(** ** Machine integers

    A [w]-bit unsigned integer is a [Z]; every operation of the source that
    can wrap is followed by the reduction of its type. *)

Definition u8 (x : Z) : Z := x mod 2 ^ 8.
Definition u16 (x : Z) : Z := x mod 2 ^ 16.
Definition u32 (x : Z) : Z := x mod 2 ^ 32.
Definition u64 (x : Z) : Z := x mod 2 ^ 64.

Arguments u8 : simpl never.
Arguments u16 : simpl never.
Arguments u32 : simpl never.
Arguments u64 : simpl never.

Definition UINT16_MAX : Z := 65535.
Definition UINT32_MAX : Z := 4294967295.
Definition UINT64_MAX : Z := 18446744073709551615.

Declare Scope hv_scope.
Delimit Scope hv_scope with hv.
Notation "x ⊞ y" := (u64 (x + y)) (at level 50, left associativity) : hv_scope.
Notation "x ⊟ y" := (u64 (x - y)) (at level 50, left associativity) : hv_scope.
Notation "x ⊠ y" := (u64 (x * y)) (at level 40, left associativity) : hv_scope.
Notation "x ⊞₃₂ y" := (u32 (x + y)) (at level 50, left associativity) : hv_scope.
Notation "x ⊟₃₂ y" := (u32 (x - y)) (at level 50, left associativity) : hv_scope.
Open Scope hv_scope.

(** [is_u64 x] says that [x] is a value of the type. *)
Definition is_u8 (x : Z) : Prop := 0 <= x < 2 ^ 8.
Definition is_u32 (x : Z) : Prop := 0 <= x < 2 ^ 32.
Definition is_u64 (x : Z) : Prop := 0 <= x < 2 ^ 64.

(** Powers of two as literals, for [lia]. *)
Lemma pow2_8 : 2 ^ 8 = 256.
Proof. reflexivity. Qed.
Lemma pow2_16 : 2 ^ 16 = 65536.
Proof. reflexivity. Qed.
Lemma pow2_32 : 2 ^ 32 = 4294967296.
Proof. reflexivity. Qed.
Lemma pow2_64 : 2 ^ 64 = 18446744073709551616.
Proof. reflexivity. Qed.

(** [usimpl] unfolds the machine-integer layer, [ulia] decides the rest. *)
Ltac usimpl :=
  unfold u8, u16, u32, u64, is_u8, is_u32, is_u64,
         UINT16_MAX, UINT32_MAX, UINT64_MAX in *;
  rewrite ?pow2_8, ?pow2_16, ?pow2_32, ?pow2_64 in *.
Ltac ulia := usimpl; Z.div_mod_to_equations; lia.

(** Case analysis on every boolean test of the goal, as propositions. *)
Ltac tests :=
  repeat match goal with
  | |- context [if ?b then _ else _] =>
      match type of b with bool => destruct b eqn:? end
  | H : context [if ?b then _ else _] |- _ =>
      match type of b with bool => destruct b eqn:? end
  end.
Ltac bprop :=
  repeat match goal with
  | H : _ && _ = true |- _ => apply andb_true_iff in H as [? ?]
  | H : _ && _ = false |- _ => apply andb_false_iff in H
  | H : _ || _ = true |- _ => apply orb_true_iff in H
  | H : _ || _ = false |- _ => apply orb_false_iff in H as [? ?]
  | H : negb _ = true |- _ => apply negb_true_iff in H
  | H : negb _ = false |- _ => apply negb_false_iff in H
  | H : (_ <? _) = true |- _ => apply Z.ltb_lt in H
  | H : (_ <? _) = false |- _ => apply Z.ltb_ge in H
  | H : (_ <=? _) = true |- _ => apply Z.leb_le in H
  | H : (_ <=? _) = false |- _ => apply Z.leb_gt in H
  | H : (_ =? _) = true |- _ => apply Z.eqb_eq in H
  | H : (_ =? _) = false |- _ => apply Z.eqb_neq in H
  end.

Lemma u64_range x : is_u64 (u64 x).
Proof. apply Z.mod_pos_bound. reflexivity. Qed.
Lemma u32_range x : is_u32 (u32 x).
Proof. apply Z.mod_pos_bound. reflexivity. Qed.
Lemma u8_range x : is_u8 (u8 x).
Proof. apply Z.mod_pos_bound. reflexivity. Qed.

Lemma u64_small x : is_u64 x -> u64 x = x.
Proof. apply Z.mod_small. Qed.
Lemma u32_small x : is_u32 x -> u32 x = x.
Proof. apply Z.mod_small. Qed.
Lemma u8_small x : is_u8 x -> u8 x = x.
Proof. apply Z.mod_small. Qed.

Lemma u64_u64 x : u64 (u64 x) = u64 x.
Proof. apply u64_small, u64_range. Qed.

Lemma u64_add_l x y : u64 (u64 x + y) = u64 (x + y).
Proof. apply Zplus_mod_idemp_l. Qed.
Lemma u64_add_r x y : u64 (x + u64 y) = u64 (x + y).
Proof. apply Zplus_mod_idemp_r. Qed.
Lemma u64_sub_l x y : u64 (u64 x - y) = u64 (x - y).
Proof. apply Zminus_mod_idemp_l. Qed.
Lemma u64_sub_r x y : u64 (x - u64 y) = u64 (x - y).
Proof. apply Zminus_mod_idemp_r. Qed.

Create HintDb uint discriminated.
#[export] Hint Resolve u64_range u32_range u8_range : uint.
Create Rewrite HintDb uint_push.
#[export] Hint Rewrite u64_u64 u64_add_l u64_add_r u64_sub_l u64_sub_r : uint_push.

(** ** Power-of-two arithmetic *)

Definition is_pow2 (n : Z) : Prop := exists k, 0 <= k /\ n = 2 ^ k.

(** A mask of a power of two minus one is a remainder. *)
Lemma land_mask x k : 0 <= k -> Z.land x (2 ^ k - 1) = x mod 2 ^ k.
Proof.
  intros Hk. rewrite <- Z.land_ones by done. f_equal.
  rewrite Z.ones_equiv. lia.
Qed.

Lemma pow2_divide_64 k : 0 <= k <= 64 -> (2 ^ k | 2 ^ 64).
Proof.
  intros Hk. exists (2 ^ (64 - k)). rewrite <- Z.pow_add_r by lia.
  f_equal. lia.
Qed.

(** Reducing to 64 bits before a smaller power of two loses nothing. *)
Lemma u64_mod_pow2 x k : 0 <= k <= 64 -> u64 x mod 2 ^ k = x mod 2 ^ k.
Proof.
  intros Hk. unfold u64.
  rewrite Z.mod_mod_divide; [done|by apply pow2_divide_64].
Qed.

Lemma land_mask_u64 x k : 0 <= k <= 64 -> Z.land (u64 x) (2 ^ k - 1) = x mod 2 ^ k.
Proof. intros. rewrite land_mask by lia. by apply u64_mod_pow2. Qed.

Lemma testbit_u64 x i : 0 <= i < 64 -> Z.testbit (u64 x) i = Z.testbit x i.
Proof. intros. unfold u64. by rewrite Z.mod_pow2_bits_low by lia. Qed.

(** Testing one bit with a mask, and clearing the low three. *)
Lemma land_bit x k : 0 <= k -> negb (Z.land x (2 ^ k) =? 0) = Z.testbit x k.
Proof.
  intros Hk. destruct (Z.testbit x k) eqn:E.
  - apply negb_true_iff, Z.eqb_neq. intros H0.
    assert (Z.testbit (Z.land x (2 ^ k)) k = true) as Hb.
    { rewrite Z.land_spec, E, Z.pow2_bits_true by done. done. }
    rewrite H0, Z.bits_0 in Hb. done.
  - apply negb_false_iff, Z.eqb_eq, Z.bits_inj'. intros i Hi.
    rewrite Z.land_spec, Z.bits_0, Z.pow2_bits_eqb by done.
    destruct (Z.eqb_spec k i) as [->|]; [by rewrite E|by rewrite andb_false_r].
Qed.

Lemma land_not7 x : is_u64 x -> Z.land x (u64 (Z.lnot 7)) = 8 * (x / 8).
Proof.
  intros Hx. unfold u64. rewrite <- Z.land_ones by lia.
  rewrite (Z.land_comm (Z.lnot 7)), Z.land_assoc, Z.land_ones by lia.
  rewrite Z.mod_small by done. rewrite <- Z.ldiff_land.
  change 7 with (Z.ones 3). rewrite Z.ldiff_ones_r by lia.
  rewrite Z.shiftr_div_pow2, Z.shiftl_mul_pow2 by lia. change (2 ^ 3) with 8. lia.
Qed.

(** [std::bit_ceil], for arguments whose result fits. *)
Definition bit_ceil (n : Z) : Z := if n <=? 1 then 1 else 2 ^ Z.log2_up n.

Lemma bit_ceil_pow2 n : is_pow2 (bit_ceil n).
Proof.
  unfold bit_ceil. destruct (n <=? 1); [by exists 0|].
  exists (Z.log2_up n). split; [apply Z.log2_up_nonneg|done].
Qed.

Lemma bit_ceil_ge n : n <= bit_ceil n.
Proof.
  unfold bit_ceil. destruct (Z.leb_spec n 1); [done|].
  pose proof (Z.log2_up_spec n). lia.
Qed.

Lemma bit_ceil_lt n : 1 < n -> bit_ceil n < 2 * n.
Proof.
  intros Hn. unfold bit_ceil. destruct (Z.leb_spec n 1); [lia|].
  pose proof (Z.log2_up_spec n Hn) as [Hlo _].
  replace (Z.log2_up n) with (Z.succ (Z.pred (Z.log2_up n))) by lia.
  rewrite Z.pow_succ_r; [lia|]. pose proof (Z.log2_up_pos n Hn). lia.
Qed.

(** [std::countr_zero] of a power of two is its logarithm. *)
Definition countr_zero (n : Z) : Z := Z.log2 n.

Lemma countr_zero_pow2 k : 0 <= k -> countr_zero (2 ^ k) = k.
Proof. apply Z.log2_pow2. Qed.

(** ** Lists *)

(** Sums of a measure over a list. *)
Definition sum_by {A} (f : A -> Z) (l : list A) : Z := foldr (fun a s => f a + s) 0 l.

Section Sums.
Context {A : Type}.
Implicit Types (f g : A -> Z) (l : list A).

Lemma sum_by_cons f a l : sum_by f (a :: l) = f a + sum_by f l.
Proof. done. Qed.

Lemma sum_by_app f l1 l2 : sum_by f (l1 ++ l2) = sum_by f l1 + sum_by f l2.
Proof. induction l1 as [|a l1 IH]; [done|]. cbn [app]. rewrite !sum_by_cons. lia. Qed.

#[export] Instance sum_by_perm f : Proper ((≡ₚ) ==> (=)) (sum_by f).
Proof. induction 1; rewrite ?sum_by_cons; lia. Qed.

Lemma sum_by_nonneg f l : (forall a, a ∈ l -> 0 <= f a) -> 0 <= sum_by f l.
Proof.
  induction l as [|a l IH]; intros H; [done|]. rewrite sum_by_cons.
  assert (0 <= f a) by (apply H; set_solver).
  assert (0 <= sum_by f l) by (apply IH; set_solver). lia.
Qed.

Lemma sum_by_ext f g l : (forall a, a ∈ l -> f a = g a) -> sum_by f l = sum_by g l.
Proof.
  induction l as [|a l IH]; intros H; [done|]. rewrite !sum_by_cons.
  rewrite (H a) by set_solver. rewrite IH by set_solver. done.
Qed.

Lemma sum_by_snoc f l a : sum_by f (l ++ [a]) = sum_by f l + f a.
Proof. rewrite sum_by_app, sum_by_cons. cbn. lia. Qed.

Lemma sum_by_plus f g l : sum_by (fun a => f a + g a) l = sum_by f l + sum_by g l.
Proof. induction l as [|a l IH]; [done|]. rewrite !sum_by_cons. lia. Qed.

Lemma sum_by_zero f l : (forall a, a ∈ l -> f a = 0) -> sum_by f l = 0.
Proof.
  induction l as [|a l IH]; intros H; [done|]. rewrite sum_by_cons, (H a), IH; [done| |by left].
  intros. apply H. by right.
Qed.
End Sums.

Lemma filter_snoc {A} (P : A -> Prop) `{!forall a, Decision (P a)} l a :
  filter P (l ++ [a]) = filter P l ++ (if decide (P a) then [a] else []).
Proof. rewrite filter_app. by rewrite filter_cons, filter_nil. Qed.

(** A list with its [i]-th element replaced: the old element leaves the
    multiset and the new one joins it. *)
Lemma insert_perm {A} (l : list A) (i : nat) x y :
  l !! i = Some x -> x :: <[i:=y]> l ≡ₚ y :: l.
Proof.
  intros Hi. rewrite <- (take_drop_middle l i x Hi) at 2.
  rewrite insert_take_drop by (by eapply lookup_lt_Some).
  solve_Permutation.
Qed.

Lemma filter_insert_perm {A} (P : A -> Prop) `{!forall a, Decision (P a)}
    (l : list A) (i : nat) x y :
  l !! i = Some x ->
  (if decide (P x) then [x] else []) ++ filter P (<[i:=y]> l) ≡ₚ
  (if decide (P y) then [y] else []) ++ filter P l.
Proof.
  intros Hi. pose proof (insert_perm l i x y Hi) as Hp.
  apply (filter_Permutation P) in Hp. rewrite !filter_cons in Hp.
  by repeat case_decide.
Qed.

(** Options as booleans. *)
Definition is_some {A} (o : option A) : bool :=
  match o with Some _ => true | None => false end.

(** ** Characters and decimal text

    A C string is the list of its character codes. *)

Definition str (s : String.string) : list Z :=
  (fun a => Z.of_N (Ascii.N_of_ascii a)) <$> String.list_ascii_of_string s.

(** Lengths of literal strings, as numerals. *)
Ltac str_lengths :=
  repeat match goal with
  | |- context [length (str ?s)] =>
      let n := eval vm_compute in (length (str s)) in change (length (str s)) with n
  end.

Definition is_digit (c : Z) : bool := (48 <=? c) && (c <=? 57).

(** The digit loop [do { *p++ = '0' + v % 10; v /= 10; } while (v != 0);],
    least significant digit first. *)
Fixpoint dec_loop (fuel : nat) (v : Z) : list Z :=
  match fuel with
  | O => []
  | S fuel =>
      let v' := v / 10 in
      (48 + v mod 10) :: (if v' =? 0 then [] else dec_loop fuel v')
  end.

Definition dec_string (fuel : nat) (v : Z) : list Z := reverse (dec_loop fuel v).

(** The value a digit string denotes. *)
Definition dec_value (l : list Z) : Z := foldl (fun v c => v * 10 + (c - 48)) 0 l.

Lemma dec_value_snoc l c : dec_value (l ++ [c]) = dec_value l * 10 + (c - 48).
Proof. unfold dec_value. by rewrite foldl_app. Qed.

Lemma dec_string_S fuel v :
  dec_string (S fuel) v =
  (if v / 10 =? 0 then [] else dec_string fuel (v / 10)) ++ [48 + v mod 10].
Proof.
  unfold dec_string. cbn [dec_loop]. rewrite reverse_cons.
  by destruct (v / 10 =? 0).
Qed.

Lemma dec_string_value fuel v :
  0 <= v < 10 ^ Z.of_nat fuel -> dec_value (dec_string fuel v) = v.
Proof.
  revert v. induction fuel as [|fuel IH]; intros v Hv.
  { cbn in *. change (10 ^ 0) with 1 in Hv. assert (v = 0) as -> by lia. done. }
  rewrite dec_string_S, dec_value_snoc.
  assert (0 <= v / 10 < 10 ^ Z.of_nat fuel).
  { rewrite Nat2Z.inj_succ, Z.pow_succ_r in Hv by lia.
    split; [apply Z.div_pos; lia|]. apply Z.div_lt_upper_bound; lia. }
  destruct (Z.eqb_spec (v / 10) 0) as [E|E].
  - cbn. Z.div_mod_to_equations; lia.
  - rewrite IH by done. Z.div_mod_to_equations; lia.
Qed.

Lemma dec_loop_digits fuel v :
  0 <= v -> Forall (fun c => is_digit c = true) (dec_loop fuel v).
Proof.
  revert v. induction fuel as [|fuel IH]; intros v Hv; cbn [dec_loop]; [done|].
  constructor.
  - unfold is_digit. apply andb_true_intro.
    rewrite !Z.leb_le. Z.div_mod_to_equations; lia.
  - destruct (v / 10 =? 0); [done|]. apply IH. apply Z.div_pos; lia.
Qed.

Lemma dec_string_digits fuel v :
  0 <= v -> Forall (fun c => is_digit c = true) (dec_string fuel v).
Proof. intros. unfold dec_string. rewrite Forall_reverse. by apply dec_loop_digits. Qed.

Lemma dec_string_nonempty fuel v : dec_string (S fuel) v <> [].
Proof. rewrite dec_string_S. by destruct (_ ++ [_]) eqn:E; [apply app_nil in E as [_ ?]|]. Qed.

Lemma dec_string_length fuel v : (length (dec_string fuel v) <= fuel)%nat.
Proof.
  unfold dec_string. rewrite length_reverse.
  revert v. induction fuel as [|fuel IH]; intros v; cbn [dec_loop]; [done|].
  destruct (v / 10 =? 0); cbn; [lia|]. specialize (IH (v / 10)). lia.
Qed.

(** More precisely, a value below [10 ^ n] prints in at most [n] digits. *)
Lemma dec_string_length_le fuel n v :
  (0 < n)%nat -> 0 <= v < 10 ^ Z.of_nat n -> (length (dec_string fuel v) <= n)%nat.
Proof.
  intros Hn. unfold dec_string. rewrite length_reverse.
  revert n v Hn. induction fuel as [|fuel IH]; intros n v Hn Hv; cbn [dec_loop]; [cbn; lia|].
  destruct (Z.eqb_spec (v / 10) 0); cbn; [lia|].
  destruct n as [|[|n]]; [lia| |].
  - exfalso. change (10 ^ Z.of_nat 1) with 10 in Hv. apply n0. by apply Z.div_small.
  - enough (length (dec_loop fuel (v / 10)) <= S n)%nat by lia.
    apply IH; [lia|]. rewrite Nat2Z.inj_succ, Z.pow_succ_r in Hv by lia.
    split; [apply Z.div_pos; lia|]. apply Z.div_lt_upper_bound; lia.
Qed.

(** [snprintf] of a finished text into [n] bytes: what the buffer holds before
    the NUL, and the length returned, which counts the characters cut off. *)
Definition snprintf (n : Z) (text : list Z) : list Z * Z :=
  (take (Z.to_nat (n - 1)) text, Z.of_nat (length text)).

(** [%llu] and [%u]: a 64-bit value has at most twenty digits. *)
Definition dec (v : Z) : list Z := dec_string 20 v.

Lemma dec_length v n : (0 < n)%nat -> 0 <= v < 10 ^ Z.of_nat n -> (length (dec v) <= n)%nat.
Proof. apply dec_string_length_le. Qed.

(** ** Binary search

    The search the scanner and the packed map share: over records with a lower
    and an upper key, halving [lo, hi) until the key falls inside a record. *)

Fixpoint bsearch {A} (fuel : nat) (lo_key hi_key : A -> Z) (l : list A) (key : Z)
    (lo hi : nat) : option (option A) :=
  match fuel with
  | O => None
  | S fuel =>
      if (lo <? hi)%nat then
        let mid := (lo + (hi - lo) / 2)%nat in
        match l !! mid with
        | Some a =>
            if key <? lo_key a then bsearch fuel lo_key hi_key l key lo mid
            else if hi_key a <=? key then bsearch fuel lo_key hi_key l key (S mid) hi
            else Some (Some a)
        | None => None
        end
      else Some None
  end.

(** Ascending and disjoint: each record ends before the next begins. *)
Definition ascending {A} (lo_key hi_key : A -> Z) (l : list A) : Prop :=
  forall i j a b, l !! i = Some a -> l !! j = Some b -> (i < j)%nat -> hi_key a <= lo_key b.

Section Bsearch.
Context {A : Type} (lo_key hi_key : A -> Z) (l : list A).
Hypothesis Hasc : ascending lo_key hi_key l.
Hypothesis Hord : Forall (fun a => lo_key a <= hi_key a) l.

Lemma bsearch_spec fuel key lo hi :
  (hi <= length l)%nat -> (hi - lo < fuel)%nat ->
  (forall i a, l !! i = Some a -> lo_key a <= key < hi_key a -> (lo <= i < hi)%nat) ->
  exists r, bsearch fuel lo_key hi_key l key lo hi = Some r /\
    match r with
    | Some a => a ∈ l /\ lo_key a <= key < hi_key a
    | None => forall a, a ∈ l -> ~ (lo_key a <= key < hi_key a)
    end.
Proof.
  revert lo hi. induction fuel as [|fuel IH]; intros lo hi Hhi Hf Hin; [lia|].
  cbn [bsearch]. destruct (Nat.ltb_spec lo hi) as [Hlt|Hge].
  2: { eexists. split; [done|]. intros a Ha Hk. apply list_elem_of_lookup in Ha as [i Hi].
       specialize (Hin i a Hi Hk). lia. }
  assert (lo <= lo + (hi - lo) / 2 < hi)%nat as Hmid.
  { split; [lia|]. assert ((hi - lo) / 2 < hi - lo)%nat by (apply Nat.div_lt; lia). lia. }
  set (mid := (lo + (hi - lo) / 2)%nat) in *.
  destruct (lookup_lt_is_Some_2 l mid) as [a Ha]; [lia|]. rewrite Ha.
  assert (lo_key a <= hi_key a) as Hab.
  { rewrite Forall_lookup in Hord. by eapply Hord. }
  destruct (Z.ltb_spec key (lo_key a)) as [Hl|Hl]; [|destruct (Z.leb_spec (hi_key a) key) as [Hr|Hr]].
  - apply IH; [lia|lia|]. intros i b Hi Hk. pose proof (Hin i b Hi Hk). split; [lia|].
    destruct (decide (i < mid)%nat) as [|Hnlt]; [done|exfalso].
    destruct (decide (i = mid)) as [->|]; [simplify_eq; lia|].
    pose proof (Hasc mid i a b Ha Hi ltac:(lia)). lia.
  - apply IH; [lia|lia|]. intros i b Hi Hk. pose proof (Hin i b Hi Hk). split; [|lia].
    destruct (decide (mid < i)%nat) as [|Hnlt]; [lia|exfalso].
    destruct (decide (i = mid)) as [->|]; [simplify_eq; lia|].
    pose proof (Hasc i mid b a Hi Ha ltac:(lia)).
    assert (lo_key a < hi_key a \/ lo_key a = hi_key a) as [|] by lia; lia.
  - eexists. split; [done|]. split; [by eapply list_elem_of_lookup_2|lia].
Qed.

(** At most one record covers a key. *)
Lemma ascending_unique key a b :
  a ∈ l -> b ∈ l -> lo_key a <= key < hi_key a -> lo_key b <= key < hi_key b -> a = b.
Proof.
  intros Ha Hb Hka Hkb.
  apply list_elem_of_lookup in Ha as [i Hi]. apply list_elem_of_lookup in Hb as [j Hj].
  destruct (decide (i = j)) as [->|Hne]; [congruence|exfalso].
  destruct (decide (i < j)%nat).
  - pose proof (Hasc i j a b Hi Hj ltac:(lia)). lia.
  - pose proof (Hasc j i b a Hj Hi ltac:(lia)). lia.
Qed.

(** The whole search finds the record covering the key exactly when one does. *)
Lemma bsearch_all key a :
  bsearch (S (length l)) lo_key hi_key l key 0 (length l) = Some (Some a) <->
  a ∈ l /\ lo_key a <= key < hi_key a.
Proof.
  destruct (bsearch_spec (S (length l)) key 0 (length l)) as (r & E & Hr); [lia|lia| |].
  { intros i b Hi _. apply lookup_lt_Some in Hi. lia. }
  rewrite E. split.
  - intros [= ->]. exact Hr.
  - intros [Ha Hk]. f_equal. destruct r as [b|]; [|by destruct (Hr a Ha)].
    f_equal. destruct Hr as [Hb Hkb]. by eapply ascending_unique.
Qed.

Lemma bsearch_total key : bsearch (S (length l)) lo_key hi_key l key 0 (length l) <> None.
Proof.
  destruct (bsearch_spec (S (length l)) key 0 (length l)) as (r & -> & _); [lia|lia| |done].
  intros i b Hi _. apply lookup_lt_Some in Hi. lia.
Qed.
End Bsearch.
