(* ===== verification/Abi.v ===== *)
(** * The shared-memory ABI (src/src/common/heapviz_abi.h)

    The event packet and ring header that both halves of heapviz map, the
    sizing helpers, the slot address of a sequence number and the name of the
    shared-memory segment.  The C layout rules are modelled too, so that the
    offsets the header asserts statically are theorems here. *)

From Stdlib Require Import String.
From S2P Require Import Prelude.

Definition HEAPVIZ_ABI_MAGIC : Z := 0x48505A5631000000.
Definition HEAPVIZ_ABI_VERSION : Z := 3.
Definition HV_CACHELINE : Z := 64.

(** ** Operation codes and the publication flags of the [op] byte *)

Definition HV_OP_MALLOC : Z := 0.
Definition HV_OP_FREE : Z := 1.
Definition HV_OP_CALLOC : Z := 2.
Definition HV_OP_REALLOC : Z := 3.
Definition HV_OP_MEMALIGN : Z := 4.
Definition HV_OP__COUNT : Z := 5.

Definition HV_OP_MASK : Z := 0x3F.
Definition HV_OP_PARITY_BIT : Z := 0x40.
Definition HV_OP_COMMIT_BIT : Z := 0x80.

(** ** The event packet *)

Record HvEvent := mkHvEvent {
  ev_timestamp : Z;
  ev_ptr : Z;
  ev_size : Z;
  ev_usable : Z;
  ev_tid0 : Z;
  ev_tid1 : Z;
  ev_tid2 : Z;
  ev_op : Z
}.

#[export] Instance HvEvent_eq_dec : EqDecision HvEvent.
Proof. solve_decision. Defined.

Definition zero_event : HvEvent := mkHvEvent 0 0 0 0 0 0 0 0.
#[export] Instance HvEvent_inhabited : Inhabited HvEvent := populate zero_event.

Definition hv_event_set_tid (e : HvEvent) (tid : Z) : HvEvent :=
  mkHvEvent (ev_timestamp e) (ev_ptr e) (ev_size e) (ev_usable e)
    (u8 (Z.land tid 0xFF))
    (u8 (Z.land (Z.shiftr tid 8) 0xFF))
    (u8 (Z.land (Z.shiftr tid 16) 0xFF))
    (ev_op e).

Definition hv_event_get_tid (e : HvEvent) : Z :=
  Z.lor (Z.lor (ev_tid0 e) (u32 (Z.shiftl (ev_tid1 e) 8)))
        (u32 (Z.shiftl (ev_tid2 e) 16)).

(** ** The ring header

    [comm] is the sixteen-byte NUL-padded command name. *)

Record HvRingHeader := mkHvRingHeader {
  h_magic : Z;
  h_abi_version : Z;
  h_event_size : Z;
  h_capacity : Z;
  h_pid : Z;
  h_flags : Z;
  h_start_time_ns : Z;
  h_comm : list Z;
  h_capacity_log2 : Z;
  h_reserved0 : Z;
  h_head : Z;
  h_tail : Z;
  h_dropped : Z;
  h_total_events : Z;
  h_producer_exited : Z;
  h_consumer_pid : Z
}.

(** ** Layout

    A member is a size and an alignment; members are placed in order at the
    next multiple of their alignment, and the struct is padded to the largest
    alignment of its members. *)

Record Member := mkMember { m_size : Z; m_align : Z }.

Definition align_up (off align : Z) : Z := (off + align - 1) / align * align.

Fixpoint offsets_from (off : Z) (ms : list Member) : list Z * Z :=
  match ms with
  | [] => ([], off)
  | m :: ms =>
      let at_ := align_up off (m_align m) in
      let '(rest, stop) := offsets_from (at_ + m_size m) ms in
      (at_ :: rest, stop)
  end.

Definition struct_align (ms : list Member) : Z :=
  foldr (fun m a => Z.max (m_align m) a) 1 ms.

Definition offsets (ms : list Member) : list Z := (offsets_from 0 ms).1.
Definition sizeof (ms : list Member) : Z :=
  align_up (offsets_from 0 ms).2 (struct_align ms).

(** [timestamp], [ptr], [size], [usable], [tid[3]], [op]. *)
Definition HvEvent_members : list Member :=
  [mkMember 8 8; mkMember 8 8; mkMember 8 8; mkMember 4 4; mkMember 3 1; mkMember 1 1].

(** The header's members in declaration order; the first member of each of
    the four blocks carries [HV_ALIGNAS(HV_CACHELINE)]. *)
Definition HvRingHeader_members : list Member :=
  [mkMember 8 HV_CACHELINE;                 (* magic *)
   mkMember 4 4; mkMember 4 4; mkMember 8 8; (* abi_version event_size capacity *)
   mkMember 4 4; mkMember 4 4; mkMember 8 8; (* pid flags start_time_ns *)
   mkMember 16 1; mkMember 4 4; mkMember 4 4; (* comm capacity_log2 reserved0 *)
   mkMember 8 HV_CACHELINE;                 (* head *)
   mkMember 8 HV_CACHELINE;                 (* tail *)
   mkMember 8 HV_CACHELINE;                 (* dropped *)
   mkMember 8 8; mkMember 4 4; mkMember 4 4]. (* total_events producer_exited consumer_pid *)

Definition sizeof_HvEvent : Z := 32.
Definition sizeof_HvRingHeader : Z := 256.

(** ** Sizing helpers *)

Definition HV_DEFAULT_CAPACITY : Z := Z.shiftl 1 20.

Definition hv_is_pow2 (v : Z) : bool :=
  negb (v =? 0) && (Z.land v (v ⊟ 1) =? 0).

(** [while ((v >>= 1) != 0) n++;] *)
Fixpoint hv_log2_loop (fuel : nat) (v n : Z) : Z :=
  match fuel with
  | O => n
  | S fuel =>
      let v := Z.shiftr v 1 in
      if v =? 0 then n else hv_log2_loop fuel v (u32 (n + 1))
  end.

Definition hv_log2_pow2 (v : Z) : Z := hv_log2_loop 64 v 0.

Definition hv_mapping_size (capacity page_size : Z) : Z :=
  let raw := sizeof_HvRingHeader ⊞ (capacity ⊠ sizeof_HvEvent) in
  Z.land (raw ⊞ page_size ⊟ 1) (Z.lnot (page_size ⊟ 1)).

(** The index of the slot; its address is [sizeof header + 32 * index]. *)
Definition hv_ring_slot (capacity seq : Z) : Z := Z.land seq (capacity ⊟ 1).

(** ** The shared-memory name

    The result is the buffer's contents up to and including the NUL the
    function writes, and the length it returns. *)

Definition HV_SHM_NAME_PREFIX : list Z := str "/heapviz_shm_".
Definition HV_SHM_NAME_MAX : Z := 32.

Definition hv_shm_name (buflen pid : Z) : list Z * Z :=
  if buflen <? HV_SHM_NAME_MAX then
    ((if 0 <? buflen then [0] else []), 0)
  else
    let v := if pid <? 0 then 0 else pid in
    let text := HV_SHM_NAME_PREFIX ++ dec_string 16 v in
    (text ++ [0], Z.of_nat (length text)).

(** ** Lemmas *)
Lemma land_255 x : Z.land x 255 = x mod 2 ^ 8.
Proof. apply (land_mask x 8). lia. Qed.

(** The three little-endian [tid] bytes hold exactly the low 24 bits of the
    thread id: reading back what [hv_event_set_tid] stored gives [tid mod 2^24],
    whatever the packet held before. *)
Lemma tid_round_trip e tid :
  0 <= tid -> hv_event_get_tid (hv_event_set_tid e tid) = tid mod 2 ^ 24.
Proof.
  intros Ht. unfold hv_event_get_tid, hv_event_set_tid. cbn [ev_tid0 ev_tid1 ev_tid2].
  rewrite !land_255. unfold u8, u32. rewrite !Z.mod_mod by lia.
  rewrite !(Z.mod_small (Z.shiftl _ _)).
  - apply Z.bits_inj'. intros i Hi.
    rewrite !Z.lor_spec, !Z.shiftl_spec by lia.
    destruct (decide (i < 8)) as [H8|H8].
    + rewrite !Z.mod_pow2_bits_low by lia.
      rewrite !(Z.testbit_neg_r _ (i - _)) by lia. by rewrite !orb_false_r.
    + rewrite (Z.mod_pow2_bits_high _ 8 i) by lia.
      destruct (decide (i < 16)) as [H16|H16].
      * rewrite (Z.mod_pow2_bits_low _ 8 (i - 8)), Z.shiftr_spec by lia.
        rewrite (Z.testbit_neg_r _ (i - 16)) by lia.
        rewrite Z.mod_pow2_bits_low by lia. rewrite orb_false_r. cbn. f_equal. lia.
      * rewrite (Z.mod_pow2_bits_high _ 8 (i - 8)) by lia. cbn.
        destruct (decide (i < 24)) as [H24|H24].
        -- rewrite !Z.mod_pow2_bits_low, Z.shiftr_spec by lia. f_equal. lia.
        -- by rewrite !Z.mod_pow2_bits_high by lia.
  - rewrite Z.shiftl_mul_pow2 by lia. Z.div_mod_to_equations; lia.
  - rewrite Z.shiftl_mul_pow2 by lia. Z.div_mod_to_equations; lia.
Qed.

Lemma tid_round_trip_witness :
  hv_event_get_tid (hv_event_set_tid zero_event 16909060) = 16909060 mod 2 ^ 24.
Proof. apply (tid_round_trip zero_event 16909060). lia. Defined.

Lemma hv_is_pow2_true k : 0 <= k < 64 -> hv_is_pow2 (2 ^ k) = true.
Proof.
  intros Hk. unfold hv_is_pow2.
  assert (0 < 2 ^ k) by (apply Z.pow_pos_nonneg; lia).
  assert (2 ^ k < 2 ^ 64) by (apply Z.pow_lt_mono_r; lia).
  rewrite (u64_small (2 ^ k - 1)) by (unfold is_u64; lia).
  rewrite land_mask, Z.mod_same by lia.
  by destruct (Z.eqb_spec (2 ^ k) 0); [lia|].
Qed.

Lemma hv_is_pow2_pow2 v : is_u64 v -> hv_is_pow2 v = true -> v = 2 ^ Z.log2 v.
Proof.
  unfold hv_is_pow2. intros Hv H. bprop.
  assert (0 < v) by (unfold is_u64 in Hv; lia).
  rewrite u64_small in * by (unfold is_u64 in *; lia).
  pose proof (Z.log2_spec v) as [Hlo Hhi]; [lia|].
  destruct (decide (v = 2 ^ Z.log2 v)) as [|Hne]; [done|exfalso].
  assert (Z.log2 (v - 1) = Z.log2 v) as Hl.
  { apply Z.log2_unique; [apply Z.log2_nonneg|lia]. }
  assert (0 < v - 1) by (pose proof (Z.pow_pos_nonneg 2 (Z.log2 v)); pose proof (Z.log2_nonneg v); lia).
  assert (Z.testbit (Z.land v (v - 1)) (Z.log2 v) = true) as Hb.
  { rewrite Z.land_spec, Z.bit_log2 by lia. rewrite <- Hl. by rewrite Z.bit_log2 by lia. }
  match goal with E : Z.land _ _ = 0 |- _ => rewrite E, Z.bits_0 in Hb end. done.
Qed.

(** [hv_is_pow2] decides exactly the powers of two among the 64-bit values
    (zero is not one), including at the top of the range where [v - 1] is
    taken modulo [2^64]. *)
Theorem hv_is_pow2_spec v :
  is_u64 v -> hv_is_pow2 v = true <-> exists k, 0 <= k < 64 /\ v = 2 ^ k.
Proof.
  intros Hv. split.
  - intros H. pose proof (hv_is_pow2_pow2 v Hv H) as E.
    exists (Z.log2 v). split; [|done]. split; [apply Z.log2_nonneg|].
    apply (Z.pow_lt_mono_r_iff 2); [lia..|]. rewrite <- E. apply Hv.
  - intros (k & Hk & ->). by apply hv_is_pow2_true.
Qed.

Lemma hv_is_pow2_spec_witness :
  hv_is_pow2 1048576 = true <-> exists k, 0 <= k < 64 /\ 1048576 = 2 ^ k.
Proof. apply (hv_is_pow2_spec 1048576). unfold is_u64. lia. Defined.

Lemma hv_log2_loop_pow2 fuel k n :
  0 <= k < Z.of_nat fuel -> 0 <= n -> n + k < 2 ^ 32 ->
  hv_log2_loop fuel (2 ^ k) n = n + k.
Proof.
  revert k n. induction fuel as [|fuel IH]; intros k n Hk Hn Hb; [lia|].
  cbn [hv_log2_loop]. destruct (decide (k = 0)) as [->|].
  { change (Z.shiftr (2 ^ 0) 1) with 0. rewrite Z.eqb_refl. lia. }
  rewrite Z.shiftr_div_pow2 by lia.
  replace (2 ^ k / 2 ^ 1) with (2 ^ (k - 1)).
  2: { rewrite Z.pow_sub_r by lia. done. }
  assert (0 < 2 ^ (k - 1)) by (apply Z.pow_pos_nonneg; lia).
  destruct (Z.eqb_spec (2 ^ (k - 1)) 0); [lia|].
  rewrite u32_small by (unfold is_u32; lia). rewrite IH by lia. lia.
Qed.

(** On a power of two [hv_log2_pow2] returns its exponent; the loop body
    runs at most 63 times on a 64-bit value, within the fuel of the model. *)
Theorem hv_log2_pow2_spec k : 0 <= k < 64 -> hv_log2_pow2 (2 ^ k) = k.
Proof. intros. unfold hv_log2_pow2. rewrite hv_log2_loop_pow2; lia. Qed.

Lemma hv_log2_pow2_spec_witness : hv_log2_pow2 (2 ^ 20) = 20.
Proof. apply hv_log2_pow2_spec. lia. Defined.

(** Rounding up to a multiple of a power of two with a mask. *)
Lemma round_up_mask x k :
  0 <= k < 64 -> 0 <= x -> x + 2 ^ k <= 2 ^ 64 ->
  Z.land (u64 (u64 (x + 2 ^ k) - 1)) (Z.lnot (u64 (2 ^ k - 1))) =
  (x + 2 ^ k - 1) / 2 ^ k * 2 ^ k.
Proof.
  intros Hk Hx Hb.
  assert (0 < 2 ^ k) by (apply Z.pow_pos_nonneg; lia).
  rewrite u64_sub_l. rewrite !u64_small by (unfold is_u64; lia).
  replace (2 ^ k - 1) with (Z.ones k) by (rewrite Z.ones_equiv; lia).
  rewrite <- Z.ldiff_land, Z.ldiff_ones_r by lia.
  by rewrite Z.shiftl_mul_pow2, Z.shiftr_div_pow2 by lia.
Qed.

(** The mapping is the smallest whole number of pages that holds the header
    and every slot, whenever the size fits 64 bits. *)
Theorem hv_mapping_size_spec capacity k :
  0 <= k < 64 -> 0 <= capacity ->
  sizeof_HvRingHeader + capacity * sizeof_HvEvent + 2 ^ k <= 2 ^ 64 ->
  let bytes := hv_mapping_size capacity (2 ^ k) in
  (2 ^ k | bytes) /\
  sizeof_HvRingHeader + capacity * sizeof_HvEvent <= bytes <
  sizeof_HvRingHeader + capacity * sizeof_HvEvent + 2 ^ k.
Proof.
  intros Hk Hc Hb bytes. subst bytes. unfold hv_mapping_size.
  assert (0 < 2 ^ k) by (apply Z.pow_pos_nonneg; lia).
  unfold sizeof_HvRingHeader, sizeof_HvEvent in *.
  rewrite (u64_small (capacity * 32)) by (unfold is_u64; lia).
  rewrite (u64_small (256 + _)) by (unfold is_u64; lia).
  rewrite round_up_mask by lia.
  split; [by exists ((256 + capacity * 32 + 2 ^ k - 1) / 2 ^ k)|].
  pose proof (Z.div_mod (256 + capacity * 32 + 2 ^ k - 1) (2 ^ k)).
  pose proof (Z.mod_pos_bound (256 + capacity * 32 + 2 ^ k - 1) (2 ^ k)). lia.
Qed.

Lemma hv_mapping_size_spec_witness :
  let bytes := hv_mapping_size 1048576 (2 ^ 12) in
  (2 ^ 12 | bytes) /\
  sizeof_HvRingHeader + 1048576 * sizeof_HvEvent <= bytes <
  sizeof_HvRingHeader + 1048576 * sizeof_HvEvent + 2 ^ 12.
Proof. apply (hv_mapping_size_spec 1048576 12); [lia|lia|by vm_compute]. Defined.

(** The slot of a sequence number is its remainder, also after the free-running
    counter has wrapped. *)
Lemma hv_ring_slot_mod k seq :
  0 <= k < 64 -> hv_ring_slot (2 ^ k) (u64 seq) = seq mod 2 ^ k.
Proof.
  intros Hk. unfold hv_ring_slot.
  assert (0 < 2 ^ k) by (apply Z.pow_pos_nonneg; lia).
  assert (2 ^ k < 2 ^ 64) by (apply Z.pow_lt_mono_r; lia).
  rewrite (u64_small (2 ^ k - 1)) by (unfold is_u64; lia).
  apply land_mask_u64. lia.
Qed.

(** The struct layouts the C and C++ compilers give the two shared structs
    satisfy every static assertion of the header: the sizes, each offset, and
    [head] and [tail] at least a cache line apart. *)
Lemma abi_layout :
  sizeof HvEvent_members = sizeof_HvEvent /\
  offsets HvEvent_members = [0; 8; 16; 24; 28; 31] /\
  sizeof HvRingHeader_members = sizeof_HvRingHeader /\
  offsets HvRingHeader_members =
    [0; 8; 12; 16; 24; 28; 32; 40; 56; 60; 64; 128; 192; 200; 208; 212] /\
  HV_CACHELINE <= 128 - 64 /\
  sizeof_HvRingHeader mod HV_CACHELINE = 0 /\
  HV_CACHELINE mod sizeof_HvEvent = 0 /\ HV_OP__COUNT <= HV_OP_MASK.
Proof. repeat split; vm_compute; congruence. Qed.
