(* ===== verification/Ring.v ===== *)
(** * The lock-free event ring (src/src/common/heapviz_ring.h)

    Many producers (every thread of the target) and one consumer share a ring
    of packets.  The file has three layers:

    - the functions of the header run by one thread without interference
      ([hv_ring_push], [hv_ring_drain], the claim protocol);
    - the same code cut at its atomic accesses, as a labelled transition system
      over the shared ring, any number of producers and the consumer
      ([step]); plain stores to a claimed slot are separate steps too, so a
      half-written packet is a reachable state;
    - the invariant of that system and the refinement to its specification, a
      FIFO of claimed packets.

    The interleaving semantics is sequentially consistent: the acquire/release
    pairs of the source are what makes the plain stores before a publication
    visible to the reader of the flag, and that is what the order of the
    writing steps models. *)

From S2P Require Import Prelude Abi.

(** ** Shared state *)

Record Ring := mkRing {
  r_hdr : HvRingHeader;
  r_slots : list HvEvent
}.

Definition set_head (r : Ring) (v : Z) : Ring :=
  let h := r_hdr r in
  mkRing (mkHvRingHeader (h_magic h) (h_abi_version h) (h_event_size h)
            (h_capacity h) (h_pid h) (h_flags h) (h_start_time_ns h) (h_comm h)
            (h_capacity_log2 h) (h_reserved0 h) v (h_tail h) (h_dropped h)
            (h_total_events h) (h_producer_exited h) (h_consumer_pid h)) (r_slots r).

Definition set_tail (r : Ring) (v : Z) : Ring :=
  let h := r_hdr r in
  mkRing (mkHvRingHeader (h_magic h) (h_abi_version h) (h_event_size h)
            (h_capacity h) (h_pid h) (h_flags h) (h_start_time_ns h) (h_comm h)
            (h_capacity_log2 h) (h_reserved0 h) (h_head h) v (h_dropped h)
            (h_total_events h) (h_producer_exited h) (h_consumer_pid h)) (r_slots r).

Definition set_dropped (r : Ring) (v : Z) : Ring :=
  let h := r_hdr r in
  mkRing (mkHvRingHeader (h_magic h) (h_abi_version h) (h_event_size h)
            (h_capacity h) (h_pid h) (h_flags h) (h_start_time_ns h) (h_comm h)
            (h_capacity_log2 h) (h_reserved0 h) (h_head h) (h_tail h) v
            (h_total_events h) (h_producer_exited h) (h_consumer_pid h)) (r_slots r).

Definition set_total (r : Ring) (v : Z) : Ring :=
  let h := r_hdr r in
  mkRing (mkHvRingHeader (h_magic h) (h_abi_version h) (h_event_size h)
            (h_capacity h) (h_pid h) (h_flags h) (h_start_time_ns h) (h_comm h)
            (h_capacity_log2 h) (h_reserved0 h) (h_head h) (h_tail h) (h_dropped h)
            v (h_producer_exited h) (h_consumer_pid h)) (r_slots r).

Definition set_consumer (r : Ring) (v : Z) : Ring :=
  let h := r_hdr r in
  mkRing (mkHvRingHeader (h_magic h) (h_abi_version h) (h_event_size h)
            (h_capacity h) (h_pid h) (h_flags h) (h_start_time_ns h) (h_comm h)
            (h_capacity_log2 h) (h_reserved0 h) (h_head h) (h_tail h) (h_dropped h)
            (h_total_events h) (h_producer_exited h) v) (r_slots r).

(** [*hv_ring_slot(h, seq)] as a value, and an update of it. *)
Definition slot_get (r : Ring) (seq : Z) : HvEvent :=
  r_slots r !!! Z.to_nat (hv_ring_slot (h_capacity (r_hdr r)) seq).

Definition slot_put (r : Ring) (seq : Z) (e : HvEvent) : Ring :=
  mkRing (r_hdr r)
    (<[Z.to_nat (hv_ring_slot (h_capacity (r_hdr r)) seq) := e]> (r_slots r)).

(** ** The op byte *)

(** [(seq >> shift) & 1u ? HV_OP_PARITY_BIT : 0u] *)
Definition parity_flag (shift seq : Z) : Z :=
  u8 (if Z.land (Z.shiftr seq shift) 1 =? 0 then 0 else HV_OP_PARITY_BIT).

Definition published_op (shift seq opcode : Z) : Z :=
  u8 (Z.lor (Z.lor (Z.land opcode HV_OP_MASK) HV_OP_COMMIT_BIT) (parity_flag shift seq)).

(** The consumer's two tests on the byte it loaded. *)
Definition op_accepted (shift seq op : Z) : bool :=
  negb (Z.land op HV_OP_COMMIT_BIT =? 0) &&
  (Z.land op HV_OP_PARITY_BIT =? parity_flag shift seq).

(** [out[n] = *slot; out[n].op = op & HV_OP_MASK;] *)
Definition copy_out (slot : HvEvent) (op : Z) : HvEvent :=
  mkHvEvent (ev_timestamp slot) (ev_ptr slot) (ev_size slot) (ev_usable slot)
    (ev_tid0 slot) (ev_tid1 slot) (ev_tid2 slot) (u8 (Z.land op HV_OP_MASK)).

(** ** Producer *)

Record PushArgs := mkPushArgs {
  a_timestamp : Z; a_ptr : Z; a_size : Z; a_usable : Z; a_tid : Z; a_opcode : Z
}.

(** The plain stores of [hv_ring_push], in order: field [j] of the slot. *)
Definition write_field (j : nat) (a : PushArgs) (e : HvEvent) : HvEvent :=
  match j with
  | 0%nat => mkHvEvent (a_timestamp a) (ev_ptr e) (ev_size e) (ev_usable e)
               (ev_tid0 e) (ev_tid1 e) (ev_tid2 e) (ev_op e)
  | 1%nat => mkHvEvent (ev_timestamp e) (a_ptr a) (ev_size e) (ev_usable e)
               (ev_tid0 e) (ev_tid1 e) (ev_tid2 e) (ev_op e)
  | 2%nat => mkHvEvent (ev_timestamp e) (ev_ptr e) (a_size a) (ev_usable e)
               (ev_tid0 e) (ev_tid1 e) (ev_tid2 e) (ev_op e)
  | 3%nat => mkHvEvent (ev_timestamp e) (ev_ptr e) (ev_size e) (a_usable a)
               (ev_tid0 e) (ev_tid1 e) (ev_tid2 e) (ev_op e)
  | _ => hv_event_set_tid e (a_tid a)
  end.

Definition write_op (op : Z) (e : HvEvent) : HvEvent :=
  mkHvEvent (ev_timestamp e) (ev_ptr e) (ev_size e) (ev_usable e)
    (ev_tid0 e) (ev_tid1 e) (ev_tid2 e) op.

Definition write_fields (a : PushArgs) (e : HvEvent) : HvEvent :=
  foldl (fun e j => write_field j a e) e [0; 1; 2; 3; 4]%nat.

Definition ring_full (head tail capacity : Z) : bool := capacity <=? head ⊟ tail.

Definition hv_ring_push (r : Ring) (a : PushArgs) : Ring * Z :=
  let capacity := h_capacity (r_hdr r) in
  let shift := h_capacity_log2 (r_hdr r) in
  let head := h_head (r_hdr r) in
  let tail := h_tail (r_hdr r) in
  if ring_full head tail capacity then
    (set_dropped r (h_dropped (r_hdr r) ⊞ 1), 0)
  else
    let r := set_head r (head ⊞ 1) in
    let seq := head in
    let slot := write_fields a (slot_get r seq) in
    let r := slot_put r seq (write_op (published_op shift seq (a_opcode a)) slot) in
    (set_total r (h_total_events (r_hdr r) ⊞ 1), 1).

(** ** Consumer *)

(** The [while (n < max && tail != head)] loop; each iteration consumes one
    slot, so the [max] events asked for bound it. *)
Fixpoint drain_loop (r : Ring) (budget : nat) (tail head : Z) (out : list HvEvent)
  : Z * list HvEvent :=
  match budget with
  | O => (tail, out)
  | S budget =>
      if tail =? head then (tail, out)
      else
        let slot := slot_get r tail in
        if op_accepted (h_capacity_log2 (r_hdr r)) tail (ev_op slot) then
          drain_loop r budget (tail ⊞ 1) head (out ++ [copy_out slot (ev_op slot)])
        else (tail, out)
  end.

Definition hv_ring_drain (r : Ring) (max : nat) : Ring * list HvEvent :=
  let tail := h_tail (r_hdr r) in
  let head := h_head (r_hdr r) in
  let '(tail', out) := drain_loop r max tail head [] in
  (if bool_decide (out = []) then r else set_tail r tail', out).

Definition hv_ring_used (r : Ring) : Z := h_head (r_hdr r) ⊟ h_tail (r_hdr r).

(** ** Consumer ownership

    A compare-and-swap on [consumer_pid]; [spurious] lists the outcomes of the
    weak CAS, [true] for an attempt that fails although the word matched. *)

Definition cas_weak (cur expected desired : Z) (spurious : bool) : Z * Z * bool :=
  if (cur =? expected) && negb spurious then (desired, expected, true)
  else (cur, cur, false).

Fixpoint claim_loop (cur pid : Z) (spurious : list bool) : Z * option Z :=
  match spurious with
  | [] => let '(cur, seen, ok) := cas_weak cur 0 pid false in
          (cur, if ok then None else Some seen)
  | sp :: rest =>
      let '(cur, seen, ok) := cas_weak cur 0 pid sp in
      if ok then (cur, None)
      else if seen =? 0 then claim_loop cur pid rest else (cur, Some seen)
  end.

(** [None] is the claim granted; [Some owner] the refusal that names the holder. *)
Definition hv_ring_claim (r : Ring) (pid : Z) (spurious : list bool) : Ring * option Z :=
  let '(cur, res) := claim_loop (h_consumer_pid (r_hdr r)) pid spurious in
  (set_consumer r cur, res).

Definition hv_ring_release (r : Ring) (pid : Z) (spurious : bool) : Ring :=
  let '(cur, _, _) := cas_weak (h_consumer_pid (r_hdr r)) pid 0 spurious in
  set_consumer r cur.

Definition hv_ring_break_claim (r : Ring) : Ring := set_consumer r 0.

(** ** The interleaved system *)

Inductive ProducerPc :=
  | PTail (a : PushArgs) (head : Z)            (* head loaded, tail next       *)
  | PCheck (a : PushArgs) (head tail : Z)      (* full test, then drop or CAS  *)
  | PWrite (a : PushArgs) (seq : Z) (j : nat)  (* slot claimed, store [j] next *)
  | PCount                                     (* published, counter next      *)
  | PRetry (a : PushArgs).                     (* CAS lost: head load again    *)

Inductive ConsumerPc :=
  | CIdle
  | CHead (max : nat) (tail : Z)
  | CLoop (max : nat) (tail head : Z) (out : list HvEvent)
  | CCopy (max : nat) (tail head : Z) (out : list HvEvent) (op : Z)
  | CStore (tail : Z) (out : list HvEvent).

(** [claimed] and [delivered] are history variables: the arguments of every
    successful CAS, by sequence number, and the packets handed to the model. *)
Record Sys := mkSys {
  s_ring : Ring;
  s_prod : gmap nat ProducerPc;
  s_cons : ConsumerPc;
  claimed : list PushArgs;
  delivered : list HvEvent
}.

Inductive Label :=
  | LPush (p : nat) (a : PushArgs)       (* thread [p] enters hv_ring_push *)
  | LProd (p : nat) (spurious : bool)    (* one atomic access of thread [p] *)
  | LDrain (max : nat)                   (* the consumer enters hv_ring_drain *)
  | LCons.                               (* one access of the consumer *)

Definition with_prod (s : Sys) (r : Ring) (m : gmap nat ProducerPc) (cl : list PushArgs) : Sys :=
  mkSys r m (s_cons s) cl (delivered s).

Definition prod_step (s : Sys) (p : nat) (pc : ProducerPc) (spurious : bool) : Sys :=
  let r := s_ring s in
  let h := r_hdr r in
  let goto pc' := <[p := pc']> (s_prod s) in
  match pc with
  | PRetry a => with_prod s r (goto (PTail a (h_head h))) (claimed s)
  | PTail a head => with_prod s r (goto (PCheck a head (h_tail h))) (claimed s)
  | PCheck a head tail =>
      if ring_full head tail (h_capacity h) then
        with_prod s (set_dropped r (h_dropped h ⊞ 1)) (delete p (s_prod s)) (claimed s)
      else
        let '(head', _, ok) := cas_weak (h_head h) head (head ⊞ 1) spurious in
        if ok then with_prod s (set_head r head') (goto (PWrite a head 0)) (claimed s ++ [a])
        else with_prod s r (goto (PRetry a)) (claimed s)
  | PWrite a seq j =>
      if Nat.ltb j 5 then
        with_prod s (slot_put r seq (write_field j a (slot_get r seq)))
          (goto (PWrite a seq (S j))) (claimed s)
      else
        let op := published_op (h_capacity_log2 h) seq (a_opcode a) in
        with_prod s (slot_put r seq (write_op op (slot_get r seq))) (goto PCount) (claimed s)
  | PCount =>
      with_prod s (set_total r (h_total_events h ⊞ 1)) (delete p (s_prod s)) (claimed s)
  end.

Definition cons_step (s : Sys) : option Sys :=
  let r := s_ring s in
  let h := r_hdr r in
  let go pc := Some (mkSys r (s_prod s) pc (claimed s) (delivered s)) in
  match s_cons s with
  | CIdle => None
  | CHead max tail => go (CLoop max tail (h_head h) [])
  | CLoop max tail head out =>
      let stop := if bool_decide (out = []) then CIdle else CStore tail out in
      if Nat.ltb (length out) max && negb (tail =? head) then
        let op := ev_op (slot_get r tail) in
        if op_accepted (h_capacity_log2 h) tail op then go (CCopy max tail head out op)
        else go stop
      else go stop
  | CCopy max tail head out op =>
      go (CLoop max (tail ⊞ 1) head (out ++ [copy_out (slot_get r tail) op]))
  | CStore tail out =>
      Some (mkSys (set_tail r tail) (s_prod s) CIdle (claimed s) (delivered s ++ out))
  end.

Definition step (l : Label) (s : Sys) : option Sys :=
  match l with
  | LPush p a =>
      match s_prod s !! p with
      | None => Some (with_prod s (s_ring s)
                        (<[p := PTail a (h_head (r_hdr (s_ring s)))]> (s_prod s)) (claimed s))
      | Some _ => None
      end
  | LProd p spurious => pc ← s_prod s !! p; Some (prod_step s p pc spurious)
  | LDrain max =>
      match s_cons s with
      | CIdle => Some (mkSys (s_ring s) (s_prod s) (CHead max (h_tail (r_hdr (s_ring s))))
                         (claimed s) (delivered s))
      | _ => None
      end
  | LCons => cons_step s
  end.

Fixpoint run (ls : list Label) (s : Sys) : option Sys :=
  match ls with
  | [] => Some s
  | l :: ls => s' ← step l s; run ls s'
  end.

Inductive reachable (s0 : Sys) : Sys -> Prop :=
  | reach_refl : reachable s0 s0
  | reach_step s l s' : reachable s0 s -> step l s = Some s' -> reachable s0 s'.

(** A ring as [hv_ring_setup] leaves it: [2^k] zeroed slots. *)
Definition fresh_header (k : Z) : HvRingHeader :=
  mkHvRingHeader HEAPVIZ_ABI_MAGIC HEAPVIZ_ABI_VERSION sizeof_HvEvent (2 ^ k) 1 0 0 []
    k 0 0 0 0 0 0 0.

Definition fresh_ring (k : Z) : Ring :=
  mkRing (fresh_header k) (replicate (Z.to_nat (2 ^ k)) zero_event).

Definition init (k : Z) : Sys := mkSys (fresh_ring k) ∅ CIdle [] [].

(** ** The op byte carries the opcode and the two flags *)
Lemma u8_land x : u8 x = Z.land x 255.
Proof. symmetry. apply (land_mask x 8). lia. Qed.

(** Which lap a sequence number is on, modulo two. *)
Definition lap_odd (shift seq : Z) : bool := Z.odd (seq / 2 ^ shift).

Lemma parity_flag_lap shift seq :
  0 <= shift -> parity_flag shift seq = if lap_odd shift seq then HV_OP_PARITY_BIT else 0.
Proof.
  intros Hs. unfold parity_flag, lap_odd.
  rewrite (land_mask _ 1), Z.shiftr_div_pow2 by lia.
  change (2 ^ 1) with 2. rewrite Zmod_odd. by destruct (Z.odd _).
Qed.

(** Consecutive laps have opposite parity: this is what separates a packet from
    the one its slot held a lap earlier. *)
Lemma lap_odd_next shift seq :
  0 <= shift -> lap_odd shift (seq + 2 ^ shift) = negb (lap_odd shift seq).
Proof.
  intros. unfold lap_odd.
  replace (seq + 2 ^ shift) with (seq + 1 * 2 ^ shift) by lia.
  rewrite Z.div_add by (apply Z.pow_nonzero; lia).
  by rewrite Z.odd_add, xorb_true_r.
Qed.

Lemma published_op_bits shift seq o :
  0 <= shift ->
  let op := published_op shift seq o in
  Z.land op HV_OP_COMMIT_BIT = HV_OP_COMMIT_BIT /\
  Z.land op HV_OP_PARITY_BIT = parity_flag shift seq /\
  Z.land op HV_OP_MASK = Z.land o HV_OP_MASK.
Proof.
  intros Hs op. subst op. unfold published_op.
  rewrite parity_flag_lap by done.
  unfold HV_OP_MASK, HV_OP_COMMIT_BIT, HV_OP_PARITY_BIT.
  rewrite u8_land, <- !Z.land_assoc, !Z.land_lor_distr_l, <- !Z.land_assoc.
  change (Z.land 255 128) with 128. change (Z.land 255 64) with 64.
  change (Z.land 255 63) with 63. change (Z.land 63 128) with 0.
  change (Z.land 63 64) with 0. rewrite !Z.land_0_r, Z.land_diag.
  destruct (lap_odd shift seq); cbn; rewrite ?Z.lor_0_r; auto.
Qed.

Lemma op_accepted_published shift seq seq' o :
  0 <= shift ->
  op_accepted shift seq' (published_op shift seq o) =
  Bool.eqb (lap_odd shift seq) (lap_odd shift seq').
Proof.
  intros Hs. unfold op_accepted.
  destruct (published_op_bits shift seq o Hs) as (-> & -> & _).
  rewrite !parity_flag_lap by done. by do 2 destruct (lap_odd _ _).
Qed.

Lemma op_accepted_zero shift seq : op_accepted shift seq 0 = false.
Proof. done. Qed.

(** ** The specification: what a push puts in the stream *)

Definition event_of (a : PushArgs) : HvEvent :=
  hv_event_set_tid
    (mkHvEvent (a_timestamp a) (a_ptr a) (a_size a) (a_usable a) 0 0 0
       (Z.land (a_opcode a) HV_OP_MASK)) (a_tid a).

(** The slot once its producer has committed. *)
Definition published (shift seq : Z) (a : PushArgs) : HvEvent :=
  write_op (published_op shift seq (a_opcode a)) (event_of a).

Lemma write_fields_published shift seq a e :
  write_op (published_op shift seq (a_opcode a)) (write_fields a e) = published shift seq a.
Proof. done. Qed.

Lemma copy_out_published shift seq a :
  0 <= shift ->
  copy_out (published shift seq a) (ev_op (published shift seq a)) = event_of a.
Proof.
  intros Hs. unfold copy_out, published. cbn.
  destruct (published_op_bits shift seq (a_opcode a) Hs) as (_ & _ & ->).
  unfold event_of, hv_event_set_tid. cbn. f_equal.
  rewrite u8_land, <- Z.land_assoc. done.
Qed.
