(* ===== verification/RingConc.v ===== *)
(** * The ring under concurrency

    The invariant of the interleaved system of [Ring], by induction on its
    steps, and what it gives: the packets the consumer hands on are exactly the
    claimed ones, whole, once each and in claim order. *)

From S2P Require Import Prelude Abi Ring.

(** ** Slots *)
Lemma slot_index k q : 0 <= k < 64 -> hv_ring_slot (2 ^ k) q = q mod 2 ^ k.
Proof.
  intros Hk. unfold hv_ring_slot.
  assert (0 < 2 ^ k) by (apply Z.pow_pos_nonneg; lia).
  assert (2 ^ k < 2 ^ 64) by (apply Z.pow_lt_mono_r; lia).
  rewrite (u64_small (2 ^ k - 1)) by (unfold is_u64; lia).
  apply land_mask. lia.
Qed.

(** Two sequence numbers less than a lap apart use different slots. *)
Lemma slot_apart n lo q q' :
  0 < n -> lo <= q < lo + n -> lo <= q' < lo + n -> q mod n = q' mod n -> q = q'.
Proof.
  intros Hn Hq Hq' E.
  pose proof (Z.div_mod q n). pose proof (Z.div_mod q' n).
  destruct (Z.lt_trichotomy (q / n) (q' / n)) as [|[]]; nia.
Qed.

Section Slots.
Context (k : Z) (r : Ring) (Hk : 0 <= k < 64)
        (Hcap : h_capacity (r_hdr r) = 2 ^ k)
        (Hlen : length (r_slots r) = Z.to_nat (2 ^ k)).

Lemma slot_get_put_eq q e : slot_get (slot_put r q e) q = e.
Proof.
  unfold slot_get, slot_put. cbn. rewrite Hcap, slot_index by done.
  apply list_lookup_total_insert_eq. rewrite Hlen.
  pose proof (Z.mod_pos_bound q (2 ^ k)). lia.
Qed.

Lemma slot_get_put_ne q q' e :
  q mod 2 ^ k <> q' mod 2 ^ k -> slot_get (slot_put r q e) q' = slot_get r q'.
Proof.
  intros Hne. unfold slot_get, slot_put. cbn. rewrite Hcap, !slot_index by done.
  apply list_lookup_total_insert_ne.
  pose proof (Z.mod_pos_bound q (2 ^ k)). pose proof (Z.mod_pos_bound q' (2 ^ k)). lia.
Qed.
End Slots.

Lemma write_field_op j a e : ev_op (write_field j a e) = ev_op e.
Proof. by do 4 (destruct j as [|j]; [done|]). Qed.

(** ** The invariant *)

(** The first [j] plain stores of a push have been done on [e]. *)
Definition fields_done (j : nat) (a : PushArgs) (e : HvEvent) : Prop :=
  exists e0, e = foldl (fun e i => write_field i a e) e0 (seq 0 j).

Definition head_of (s : Sys) : Z := Z.of_nat (length (claimed s)).
Definition tail_of (s : Sys) : Z := Z.of_nat (length (delivered s)).

(** First sequence number the consumer has not yet accepted. *)
Definition cursor (s : Sys) : Z :=
  match s_cons s with
  | CIdle | CHead _ _ => tail_of s
  | CLoop _ t _ _ | CStore t _ => t
  | CCopy _ t _ _ _ => t + 1
  end.

Definition prod_ok (k : Z) (s : Sys) (pc : ProducerPc) : Prop :=
  match pc with
  | PRetry _ | PCount => True
  | PTail _ h => 0 <= h <= head_of s
  | PCheck _ h t => 0 <= h <= head_of s /\ 0 <= t <= tail_of s
  | PWrite a q j =>
      cursor s <= q /\ claimed s !! Z.to_nat q = Some a /\ (j <= 5)%nat /\
      fields_done j a (slot_get (s_ring s) q) /\
      op_accepted k q (ev_op (slot_get (s_ring s) q)) = false
  end.

(** The packets accepted so far by the drain in progress. *)
Definition out_ok (s : Sys) (t : Z) (out : list HvEvent) : Prop :=
  t = tail_of s + Z.of_nat (length out) /\ t <= head_of s /\
  out = event_of <$> take (length out) (drop (length (delivered s)) (claimed s)).

Definition cons_ok (k : Z) (s : Sys) : Prop :=
  match s_cons s with
  | CIdle => True
  | CHead _ t => t = tail_of s
  | CLoop _ t hd out => out_ok s t out /\ t <= hd <= head_of s
  | CCopy _ t hd out op =>
      out_ok s t out /\ t < hd <= head_of s /\
      exists a, claimed s !! Z.to_nat t = Some a /\ op = published_op k t (a_opcode a)
  | CStore t out => out_ok s t out
  end.

Record Inv (k : Z) (s : Sys) : Prop := {
  inv_cap : h_capacity (r_hdr (s_ring s)) = 2 ^ k;
  inv_log2 : h_capacity_log2 (r_hdr (s_ring s)) = k;
  inv_len : length (r_slots (s_ring s)) = Z.to_nat (2 ^ k);
  inv_head : h_head (r_hdr (s_ring s)) = head_of s;
  inv_tail : h_tail (r_hdr (s_ring s)) = tail_of s;
  inv_room : tail_of s <= head_of s <= tail_of s + 2 ^ k;
  inv_prod : forall p pc, s_prod s !! p = Some pc -> prod_ok k s pc;
  inv_uniq : forall p1 p2 a1 a2 q j1 j2,
    s_prod s !! p1 = Some (PWrite a1 q j1) ->
    s_prod s !! p2 = Some (PWrite a2 q j2) -> p1 = p2;
  inv_slots : forall q a,
    tail_of s <= q -> claimed s !! Z.to_nat q = Some a ->
    (exists p j, s_prod s !! p = Some (PWrite a q j)) \/
    slot_get (s_ring s) q = published k q a;
  inv_free : forall q, head_of s <= q < tail_of s + 2 ^ k ->
    op_accepted k q (ev_op (slot_get (s_ring s) q)) = false;
  inv_delivered : delivered s = event_of <$> take (length (delivered s)) (claimed s);
  inv_cons : cons_ok k s
}.

Lemma cursor_ge k s : Inv k s -> tail_of s <= cursor s.
Proof.
  intros H. pose proof (inv_cons k s H) as Hc. unfold cons_ok, out_ok, cursor in *.
  destruct (s_cons s); lia.
Qed.

(** A claimed sequence number is below the head. *)
Lemma claimed_lt s q a : 0 <= q -> claimed s !! Z.to_nat q = Some a -> q < head_of s.
Proof. intros Hq H%lookup_lt_Some. unfold head_of. lia. Qed.

(** Nothing is being written below the consumer's cursor, so a claimed slot
    there is a published one. *)
Lemma settled k s q a :
  Inv k s -> tail_of s <= q < cursor s -> claimed s !! Z.to_nat q = Some a ->
  slot_get (s_ring s) q = published k q a.
Proof.
  intros H Hq Ha. destruct (inv_slots k s H q a) as [(p & j & Hp)|]; [lia|done| |done].
  pose proof (inv_prod k s H p _ Hp) as (? & _). lia.
Qed.

Lemma inv_init k : 0 <= k < 64 -> Inv k (init k).
Proof.
  intros Hk. assert (0 < 2 ^ k) by (apply Z.pow_pos_nonneg; lia).
  constructor; cbn; try done; unfold head_of, tail_of; cbn; try lia.
  - by rewrite length_replicate.
  - intros q Hq. unfold slot_get. cbn. rewrite slot_index by done.
    rewrite (list_lookup_total_alt _ _), lookup_replicate_2; [done|].
    pose proof (Z.mod_pos_bound q (2 ^ k)). lia.
Qed.

(** ** Producer steps *)

Definition same_view (r r' : Ring) : Prop :=
  r_slots r' = r_slots r /\ h_capacity (r_hdr r') = h_capacity (r_hdr r) /\
  h_capacity_log2 (r_hdr r') = h_capacity_log2 (r_hdr r) /\
  h_head (r_hdr r') = h_head (r_hdr r) /\ h_tail (r_hdr r') = h_tail (r_hdr r).

Lemma same_view_slot r r' q : same_view r r' -> slot_get r' q = slot_get r q.
Proof. intros (E1 & E2 & _). unfold slot_get. by rewrite E1, E2. Qed.

Definition is_write (pc : ProducerPc) : bool :=
  match pc with PWrite _ _ _ => true | _ => false end.

(** A step of one thread that neither touches the slots nor starts or ends a
    write keeps the invariant. *)
Lemma inv_quiet k s r' p o :
  Inv k s -> same_view (s_ring s) r' ->
  (forall pc, s_prod s !! p = Some pc -> is_write pc = false) ->
  (forall pc, o = Some pc -> is_write pc = false /\ prod_ok k s pc) ->
  Inv k (with_prod s r' (partial_alter (fun _ => o) p (s_prod s)) (claimed s)).
Proof.
  intros H V Hold Hnew. pose proof V as (_ & V2 & V3 & V4 & V5).
  assert (forall p' a q j,
    partial_alter (fun _ => o) p (s_prod s) !! p' = Some (PWrite a q j) <->
    s_prod s !! p' = Some (PWrite a q j)) as Hw.
  { intros p' a q j. destruct (decide (p = p')) as [<-|].
    - rewrite lookup_partial_alter_eq. split; intros E.
      + by apply Hnew in E as [? _].
      + by apply Hold in E.
    - by rewrite lookup_partial_alter_ne. }
  destruct H. constructor; cbn; rewrite ?V2, ?V3, ?V4, ?V5; try done.
  - by destruct V as [-> _].
  - intros p' pc E.
    assert (prod_ok k s pc) as Hok.
    { destruct (decide (p = p')) as [<-|].
      - rewrite lookup_partial_alter_eq in E. by apply Hnew in E as [_ ?].
      - rewrite lookup_partial_alter_ne in E by done. eauto. }
    destruct pc; cbn in *; auto. rewrite (same_view_slot (s_ring s)) by done. exact Hok.
  - intros p1 p2 a1 a2 q j1 j2. rewrite !Hw. eauto.
  - intros q a Hq Ha. rewrite (same_view_slot (s_ring s)) by done.
    destruct (inv_slots0 q a Hq Ha) as [(p' & j & E)|]; [left|by right].
    exists p', j. by rewrite Hw.
  - intros q Hq. rewrite (same_view_slot (s_ring s)) by done. auto.
Qed.

Lemma insert_as_alter {A} (m : gmap nat A) p x :
  <[p := x]> m = partial_alter (fun _ => Some x) p m.
Proof. done. Qed.
Lemma delete_as_alter {A} (m : gmap nat A) p :
  delete p m = partial_alter (fun _ => None) p m.
Proof. done. Qed.

Lemma lookup_snoc_old {A} (l : list A) x q a :
  l !! q = Some a -> (l ++ [x]) !! q = Some a.
Proof. intros H. by apply lookup_app_l_Some. Qed.

Lemma out_ok_snoc s t out (s' : Sys) a :
  claimed s' = claimed s ++ [a] -> delivered s' = delivered s ->
  out_ok s t out -> out_ok s' t out.
Proof.
  intros Ec Ed (E1 & E2 & E3). unfold out_ok, head_of, tail_of in *.
  rewrite Ec, Ed, length_app. split_and!; [lia..|].
  rewrite drop_app_le, take_app_le; [done|rewrite length_drop; lia|lia].
Qed.

(** Winning the CAS: the slot of the old head is now owned by this thread. *)
Lemma inv_claim k s p a h t :
  0 <= k < 64 -> Inv k s -> s_prod s !! p = Some (PCheck a h t) ->
  ring_full h t (2 ^ k) = false -> h = head_of s -> head_of s + 1 < 2 ^ 64 ->
  Inv k (with_prod s (set_head (s_ring s) (h ⊞ 1))
           (<[p := PWrite a h 0]> (s_prod s)) (claimed s ++ [a])).
Proof.
  intros Hk H Hp Hfull -> Hbig.
  pose proof (inv_prod k s H p _ Hp) as [Hh Ht].
  pose proof (cursor_ge k s H) as Hcur.
  set (s' := with_prod _ _ _ _).
  assert (head_of s' = head_of s + 1) as Eh.
  { subst s'. unfold head_of. cbn. rewrite length_app. cbn. lia. }
  assert (tail_of s' = tail_of s) as Et by done.
  assert (cursor s' = cursor s) as Ecur by done.
  assert (head_of s < tail_of s + 2 ^ k) as Hroom.
  { unfold ring_full in Hfull. apply Z.leb_gt in Hfull. pose proof (inv_room k s H).
    rewrite u64_small in Hfull; [lia|]. unfold is_u64. lia. }
  assert (cursor s <= head_of s) as Hch.
  { pose proof (inv_cons k s H) as Hc. pose proof (inv_room k s H).
    unfold cons_ok, out_ok, cursor in *. destruct (s_cons s); lia. }
  assert (forall q, slot_get (s_ring s') q = slot_get (s_ring s) q) as Eslot by done.
  assert (forall p' a' q j, p' <> p -> s_prod s' !! p' = Some (PWrite a' q j) ->
          s_prod s !! p' = Some (PWrite a' q j) /\ q < head_of s) as Hold.
  { intros p' a' q j Hne E. subst s'. cbn in E. rewrite lookup_insert_ne in E by done.
    split; [done|]. destruct (inv_prod k s H _ _ E) as (? & ? & _).
    pose proof (Nat2Z.is_nonneg (length (delivered s))) as Hnn. fold (tail_of s) in Hnn.
    eapply claimed_lt; [lia|done]. }
  assert (s_prod s' !! p = Some (PWrite a (head_of s) 0)) as Hp'.
  { subst s'. cbn. by rewrite lookup_insert_eq. }
  constructor; rewrite ?Eh, ?Et; try apply H.
  - rewrite <- Eh. subst s'. cbn. rewrite Eh. apply u64_small.
    unfold is_u64. unfold head_of in *. lia.
  - lia.
  - intros p' pc E. destruct (decide (p' = p)) as [->|Hne].
    + rewrite Hp' in E. injection E as <-. cbn. rewrite Ecur, Eslot.
      split_and!; [lia| |lia|by eexists|apply (inv_free k s H); lia].
      unfold head_of. rewrite Nat2Z.id. by apply list_lookup_middle.
    + subst s'. cbn in E. rewrite lookup_insert_ne in E by done.
      pose proof (inv_prod k s H _ _ E) as Hok. destruct pc; cbn in *; try done; try lia.
      destruct Hok as (? & ? & ? & ? & ?). split_and!; [done|by apply lookup_snoc_old|done..].
  - intros p1 p2 a1 a2 q j1 j2 E1 E2.
    destruct (decide (p1 = p)) as [->|N1], (decide (p2 = p)) as [->|N2]; try done.
    + rewrite Hp' in E1. injection E1 as <- <- <-. apply Hold in E2 as [_ ?]; [lia|done].
    + rewrite Hp' in E2. injection E2 as <- <- <-. apply Hold in E1 as [_ ?]; [lia|done].
    + apply Hold in E1 as [? _]; [|done]. apply Hold in E2 as [? _]; [|done].
      by eapply (inv_uniq k s H).
  - intros q b Hq Hb. rewrite Eslot. change (claimed s') with (claimed s ++ [a]) in Hb.
    apply lookup_app_Some in Hb as [Hb|[Hlen Hb]].
    + destruct (inv_slots k s H q b Hq Hb) as [(p' & j & E)|]; [left|by right].
      exists p', j. subst s'. cbn. rewrite lookup_insert_ne; [done|].
      intros ->. congruence.
    + left. exists p, 0%nat. rewrite Hp'. apply list_lookup_singleton_Some in Hb as [? ->].
      repeat f_equal. unfold head_of. lia.
  - intros q Hq. rewrite Eslot. apply (inv_free k s H). lia.
  - change (delivered s') with (delivered s). change (claimed s') with (claimed s ++ [a]).
    rewrite take_app_le; [apply H|]. pose proof (inv_room k s H).
    unfold head_of, tail_of in *. lia.
  - pose proof (inv_cons k s H) as Hc. unfold cons_ok in *. rewrite ?Eh.
    change (s_cons s') with (s_cons s).
    pose proof (fun t out => out_ok_snoc s t out s' a eq_refl eq_refl).
    destruct (s_cons s); [done|done| | |by auto].
    + destruct Hc as [? ?]. split; [auto|lia].
    + destruct Hc as (? & ? & b & ? & ?). split; [auto|]. split; [lia|].
      exists b. split; [by apply lookup_snoc_old|done].
Qed.

(** A store into the claimed slot: a plain field, or the publishing byte. *)
Lemma inv_store k s p a q j e pc :
  0 <= k < 64 -> Inv k s -> s_prod s !! p = Some (PWrite a q j) ->
  (exists j', pc = PWrite a q j' /\ (j' <= 5)%nat /\ fields_done j' a e /\
              op_accepted k q (ev_op e) = false) \/
  (pc = PCount /\ e = published k q a) ->
  Inv k (with_prod s (slot_put (s_ring s) q e) (<[p := pc]> (s_prod s)) (claimed s)).
Proof.
  intros Hk H Hp Hpc.
  pose proof (inv_prod k s H p _ Hp) as (Hq & Ha & _).
  pose proof (cursor_ge k s H) as Hcur. pose proof (inv_room k s H) as Hroom.
  assert (0 <= tail_of s) by (unfold tail_of; lia).
  assert (q < head_of s) as Hqh by (eapply claimed_lt; [lia|done]).
  assert (slot_get (slot_put (s_ring s) q e) q = e) as Eeq.
  { eapply slot_get_put_eq; [done|apply H..]. }
  assert (forall q', tail_of s <= q' < tail_of s + 2 ^ k -> q' <> q ->
          slot_get (slot_put (s_ring s) q e) q' = slot_get (s_ring s) q') as Ene.
  { intros q' Hq' Hne. eapply slot_get_put_ne; [done|apply H|apply H|].
    intros E. apply Hne. symmetry. eapply (slot_apart (2 ^ k) (tail_of s)); [|lia..|done].
    apply Z.pow_pos_nonneg; lia. }
  set (s' := with_prod _ _ _ _).
  assert (forall p' a' q' j', p' <> p -> s_prod s !! p' = Some (PWrite a' q' j') ->
          q' <> q /\ tail_of s <= q' < tail_of s + 2 ^ k) as Hother.
  { intros p' a' q' j' Hne E. split; [intros ->; apply Hne; by eapply (inv_uniq k s H)|].
    destruct (inv_prod k s H _ _ E) as (? & Hc & _).
    assert (q' < head_of s) by (eapply claimed_lt; [lia|done]). lia. }
  constructor; try apply H.
  - cbn. rewrite length_insert. apply H.
  - intros p' pc' E. cbn in E. destruct (decide (p' = p)) as [->|Hne].
    + rewrite lookup_insert_eq in E. injection E as <-.
      destruct Hpc as [(j' & -> & ? & ? & ?)|[-> _]]; [|done].
      cbn. change (cursor s') with (cursor s). by rewrite Eeq.
    + rewrite lookup_insert_ne in E by done. pose proof (inv_prod k s H _ _ E) as Hok.
      destruct pc'; cbn in *; try done. change (cursor s') with (cursor s).
      rewrite Ene by (eapply Hother; done). exact Hok.
  - intros p1 p2 a1 a2 q' j1 j2 E1 E2. cbn in E1, E2.
    assert (forall p' a' q' j', <[p:=pc]> (s_prod s) !! p' = Some (PWrite a' q' j') ->
            exists j'', s_prod s !! p' = Some (PWrite a' q' j'')) as Hback.
    { intros p' a' q0 j0. destruct (decide (p' = p)) as [->|].
      - rewrite lookup_insert_eq. intros [= ->].
        destruct Hpc as [(? & [= -> -> ->] & _)|[? _]]; eauto; done.
      - rewrite lookup_insert_ne by done. eauto. }
    apply Hback in E1 as [? ?]. apply Hback in E2 as [? ?]. by eapply (inv_uniq k s H).
  - intros q' b Hq' Hb. cbn. destruct (decide (q' = q)) as [->|Hne].
    + change (claimed s') with (claimed s) in Hb. rewrite Ha in Hb. injection Hb as <-.
      destruct Hpc as [(j' & -> & _)|[-> ->]].
      * left. exists p, j'. by rewrite lookup_insert_eq.
      * right. by rewrite Eeq.
    + assert (q' < head_of s) by (eapply claimed_lt; [|done]; change (tail_of s') with (tail_of s) in *; lia).
      change (tail_of s') with (tail_of s) in Hq'. rewrite Ene by lia.
      destruct (inv_slots k s H q' b Hq' Hb) as [(p' & j' & E)|]; [left|by right].
      exists p', j'. rewrite lookup_insert_ne; [done|]. intros ->. congruence.
  - intros q' Hq'. cbn. change (head_of s') with (head_of s) in Hq'.
    change (tail_of s') with (tail_of s) in Hq'. rewrite Ene by lia. by apply (inv_free k s H).
Qed.

(** ** Consumer steps *)
Lemma inv_cons_move k s pc :
  let s' := mkSys (s_ring s) (s_prod s) pc (claimed s) (delivered s) in
  Inv k s -> cons_ok k s' ->
  (forall p a q j, s_prod s !! p = Some (PWrite a q j) -> cursor s' <= q) ->
  Inv k s'.
Proof.
  intros s' H Hc Hcur. constructor; try apply H; [|done].
  intros p pc' E. pose proof (inv_prod k s H p pc' E) as Hok.
  destruct pc'; try exact Hok. destruct Hok as (? & ?). split; [by eapply Hcur|done].
Qed.

(** A consumer step that does not move the cursor. *)
Lemma inv_cons_stay k s pc :
  let s' := mkSys (s_ring s) (s_prod s) pc (claimed s) (delivered s) in
  Inv k s -> cons_ok k s' -> cursor s' <= cursor s -> Inv k s'.
Proof.
  intros s' H Hc Hcur. apply inv_cons_move; [done..|].
  intros p a q j E. pose proof (inv_prod k s H p _ E) as (? & _). fold s'. lia.
Qed.

(** Accepting a slot: its byte can only be the one its own producer published. *)
Lemma accept_published k s max t hd out :
  Inv k s -> s_cons s = CLoop max t hd out -> t < hd ->
  op_accepted k t (ev_op (slot_get (s_ring s) t)) = true ->
  (exists a, claimed s !! Z.to_nat t = Some a /\ slot_get (s_ring s) t = published k t a) /\
  (forall p a q j, s_prod s !! p = Some (PWrite a q j) -> t + 1 <= q).
Proof.
  intros H Ec Hlt Hacc. pose proof (inv_cons k s H) as Hc. unfold cons_ok in Hc.
  rewrite Ec in Hc. destruct Hc as [(Et & _) Hhd].
  assert (forall p a q j, s_prod s !! p = Some (PWrite a q j) -> t + 1 <= q) as Hw.
  { intros p a q j E. pose proof (inv_prod k s H p _ E) as (Hq & _ & _ & _ & Hna).
    unfold cursor in Hq. rewrite Ec in Hq. destruct (decide (q = t)) as [->|]; [|lia].
    congruence. }
  split; [|done].
  destruct (lookup_lt_is_Some_2 (claimed s) (Z.to_nat t)) as [a Ha].
  { unfold head_of, tail_of in *. lia. }
  exists a. split; [done|].
  destruct (inv_slots k s H t a) as [(p & j & E)|]; [unfold tail_of in *; lia|done| |done].
  apply Hw in E. lia.
Qed.

Lemma inv_consume k s s' :
  0 <= k < 64 -> Inv k s -> head_of s < 2 ^ 64 -> cons_step s = Some s' -> Inv k s'.
Proof.
  intros Hk H Hbig E. pose proof (inv_cons k s H) as Hc. unfold cons_ok in Hc.
  unfold cons_step in E. rewrite (inv_log2 k s H) in E.
  destruct (s_cons s) as [|max t|max t hd out|max t hd out op|t out] eqn:Ec; [done|..].
  - injection E as <-. apply inv_cons_stay; [done| |unfold cursor; rewrite Ec; cbn; unfold tail_of in *; cbn in *; lia].
    pose proof (inv_room k s H). rewrite (inv_head k s H).
    unfold cons_ok, out_ok, head_of, tail_of in *. cbn in *. split_and!; [lia|lia|done|lia|lia].
  - assert (Inv k (mkSys (s_ring s) (s_prod s)
       (if bool_decide (out = []) then CIdle else CStore t out) (claimed s) (delivered s))) as Hstop.
    { apply inv_cons_stay; [done|by case_bool_decide; [|destruct Hc]|].
      unfold cursor. rewrite Ec. cbn. case_bool_decide as Eo; [subst out|lia].
      destruct Hc as [(Et & _) _]. unfold tail_of in *. cbn in *. lia. }
    destruct (_ && _) eqn:Eg; [|by injection E as <-]. bprop.
    destruct (op_accepted _ _ _) eqn:Eacc; [|by injection E as <-]. injection E as <-.
    destruct Hc as [Ho Hhd].
    destruct (accept_published k s max t hd out) as [(a & Ha & Es) Hw]; [done|done|lia|done|].
    apply inv_cons_move; [done| |].
    + unfold cons_ok. cbn. split; [exact Ho|]. split; [unfold head_of in *; cbn; lia|].
      exists a. by rewrite Es.
    + intros p a' q j E. by eapply Hw.
  - injection E as <-. destruct Hc as (Ho & Hhd & a & Ha & ->).
    destruct Ho as (Et & Hle & Eo).
    assert (slot_get (s_ring s) t = published k t a) as Es.
    { eapply settled; [done| |done]. unfold cursor. rewrite Ec. lia. }
    rewrite Es. change (published_op k t (a_opcode a)) with (ev_op (published k t a)).
    rewrite copy_out_published by lia.
    rewrite (u64_small (t + 1)) by (unfold is_u64, tail_of in *; lia).
    apply inv_cons_stay; [done| |unfold cursor; rewrite Ec; cbn; lia].
    unfold cons_ok, out_ok, head_of, tail_of in *. cbn in *. rewrite length_app. cbn.
    split_and!; [lia|lia| |lia|lia].
    rewrite Eo at 1. rewrite Nat.add_1_r, <- (fmap_app event_of _ [a]).
    f_equal. symmetry. apply take_S_r. rewrite lookup_drop. by rewrite <- Ha; f_equal; lia.
  - injection E as <-. destruct Hc as (Et & Hle & Eo). set (s' := mkSys _ _ _ _ _).
    assert (tail_of s' = t) as Et'. { subst s'. unfold tail_of in *. cbn. rewrite length_app. lia. }
    assert (forall q, slot_get (s_ring s') q = slot_get (s_ring s) q) as Eslot by done.
    assert (0 <= tail_of s) by (unfold tail_of; lia).
    assert (cursor s = t) as Ecur by (unfold cursor; by rewrite Ec).
    constructor; rewrite ?Et'; try apply H; try done.
    + pose proof (inv_room k s H). change (head_of s') with (head_of s). lia.
    + intros p pc E. pose proof (inv_prod k s H p _ E) as Hok. destruct pc; try done.
      * cbn in *. change (head_of s') with (head_of s). lia.
      * destruct Hok as (? & ?). split; [|done]. unfold cursor. cbn. lia.
    + intros q a Hq Ha. rewrite Eslot. apply (inv_slots k s H); [lia|done].
    + intros q Hq. rewrite Eslot. change (head_of s') with (head_of s) in Hq.
      destruct (decide (q < tail_of s + 2 ^ k)); [apply (inv_free k s H); lia|].
      assert (slot_get (s_ring s) q = slot_get (s_ring s) (q - 2 ^ k)) as ->.
      { unfold slot_get. rewrite (inv_cap k s H), !slot_index by done.
        replace (q - 2 ^ k) with (q + -1 * 2 ^ k) by lia. by rewrite Z_mod_plus_full. }
      destruct (lookup_lt_is_Some_2 (claimed s) (Z.to_nat (q - 2 ^ k))) as [a Ha].
      { unfold head_of in *. lia. }
      rewrite (settled k s _ a H) by (done || lia).
      cbn. rewrite op_accepted_published by lia.
      replace q with (q - 2 ^ k + 2 ^ k) at 2 by lia. rewrite lap_odd_next by lia.
      by destruct (lap_odd _ _).
    + subst s'. cbn. rewrite (inv_delivered k s H) at 1. rewrite Eo at 1.
      rewrite <- fmap_app. f_equal. rewrite length_app.
      apply take_take_drop.
Qed.

(** ** Every step *)
Lemma step_claimed l s s' :
  step l s = Some s' -> exists ext, claimed s' = claimed s ++ ext.
Proof.
  intros E. unfold step, cons_step, prod_step, with_prod, cas_weak in E.
  repeat (case_match || simplify_option_eq || (injection E as <-)); cbn;
    try (by exists []; rewrite app_nil_r); by eexists.
Qed.

Lemma inv_produce k s p pc sp :
  0 <= k < 64 -> Inv k s -> s_prod s !! p = Some pc ->
  Z.of_nat (length (claimed (prod_step s p pc sp))) < 2 ^ 64 ->
  Inv k (prod_step s p pc sp).
Proof.
  intros Hk H Hp Hbig. pose proof (inv_prod k s H p pc Hp) as Hok.
  pose proof (inv_room k s H) as Hroom. assert (0 <= tail_of s) by (unfold tail_of; lia).
  assert (forall r' o, same_view (s_ring s) r' -> is_write pc = false ->
    (forall pc, o = Some pc -> is_write pc = false /\ prod_ok k s pc) ->
    Inv k (with_prod s r' (partial_alter (fun _ => o) p (s_prod s)) (claimed s))) as Hquiet.
  { intros r' o V Hw Ho. apply inv_quiet; [done|done| |done]. intros pc' E. congruence. }
  destruct pc as [a h|a h t|a q j| |a]; unfold prod_step in *.
  - apply (Hquiet _ (Some _)); [done|done|]. intros ? [= <-]. split; [done|].
    cbn in *. rewrite (inv_tail k s H). lia.
  - rewrite (inv_cap k s H) in *. destruct (ring_full h t (2 ^ k)) eqn:Hf.
    { by apply (Hquiet _ None). }
    unfold cas_weak in *. rewrite (inv_head k s H) in *.
    destruct (_ && _) eqn:Ec; cbn in Hbig |- *.
    + bprop. rewrite length_app in Hbig. cbn in Hbig.
      eapply inv_claim; [done..| |]; unfold head_of in *; [congruence|lia].
    + by apply (Hquiet _ (Some _)); [| |intros ? [= <-]].
  - destruct Hok as (Hq & Ha & Hj & (e0 & Hf) & Hna).
    destruct (Nat.ltb_spec j 5) as [Hj5|Hj5].
    + eapply inv_store; [done..|left]. exists (S j). split_and!; [done|lia| |].
      * exists e0. rewrite seq_S, foldl_app, <- Hf. done.
      * by rewrite write_field_op.
    + eapply inv_store; [done..|right]. split; [done|].
      rewrite (inv_log2 k s H). assert (j = 5)%nat as -> by lia.
      rewrite Hf. apply (write_fields_published k q a e0).
  - by apply (Hquiet _ None).
  - apply (Hquiet _ (Some _)); [done|done|]. intros ? [= <-]. split; [done|].
    cbn. rewrite (inv_head k s H). lia.
Qed.

Lemma inv_step k l s s' :
  0 <= k < 64 -> Inv k s -> step l s = Some s' ->
  Z.of_nat (length (claimed s')) < 2 ^ 64 -> Inv k s'.
Proof.
  intros Hk H E Hbig.
  assert (head_of s < 2 ^ 64) as Hs.
  { destruct (step_claimed _ _ _ E) as [ext Ex]. rewrite Ex, length_app in Hbig.
    unfold head_of. lia. }
  pose proof (inv_room k s H) as Hroom. assert (0 <= tail_of s) by (unfold tail_of; lia).
  destruct l as [p a|p sp|max|]; cbn [step] in E.
  - destruct (s_prod s !! p) eqn:Hp; [done|]. injection E as <-.
    apply (inv_quiet k s _ p (Some _)); [done|done|congruence|].
    intros ? [= <-]. split; [done|]. cbn. rewrite (inv_head k s H). lia.
  - destruct (s_prod s !! p) as [pc|] eqn:Hp; [|done]. cbn in E. injection E as <-.
    by apply inv_produce.
  - destruct (s_cons s) eqn:Ec; try done. injection E as <-.
    apply inv_cons_stay; [done| |unfold cursor; rewrite Ec; cbn; unfold tail_of; cbn; lia].
    unfold cons_ok. cbn. apply (inv_tail k s H).
  - by eapply inv_consume.
Qed.

(** The invariant holds in every reachable state, for as long as the free-running
    64-bit head has not wrapped around (2^64 events). *)
Lemma reachable_inv k s :
  0 <= k < 64 -> reachable (init k) s ->
  Z.of_nat (length (claimed s)) < 2 ^ 64 -> Inv k s.
Proof.
  intros Hk Hr. induction Hr as [|s l s' Hr IH E]; intros Hbig; [by apply inv_init|].
  eapply inv_step; [done| |done|done]. apply IH.
  destruct (step_claimed _ _ _ E) as [ext Ex]. rewrite Ex, length_app in Hbig. lia.
Qed.

Lemma run_reachable ls s0 s s' :
  reachable s0 s -> run ls s = Some s' -> reachable s0 s'.
Proof.
  revert s. induction ls as [|l ls IH]; intros s Hr E; cbn in E; [by injection E as <-|].
  destruct (step l s) as [s1|] eqn:E1; [|done]. cbn in E.
  eapply IH; [|done]. by eapply reach_step.
Qed.

(** ** Theorems *)

(** C1: Refinement of the ring to a FIFO, under every interleaving of any number
    of producers with the consumer and every spurious CAS failure: what the
    consumer has handed on is exactly the prefix of the claimed packets, in
    claim order, each once, whole and with the flag bits removed; the header's
    cursors count the two ends and never drift more than a capacity apart. *)
Theorem ring_refines_fifo k s :
  0 <= k < 64 -> reachable (init k) s -> Z.of_nat (length (claimed s)) < 2 ^ 64 ->
  delivered s = event_of <$> take (length (delivered s)) (claimed s) /\
  h_head (r_hdr (s_ring s)) = Z.of_nat (length (claimed s)) /\
  h_tail (r_hdr (s_ring s)) = Z.of_nat (length (delivered s)) /\
  (length (delivered s) <= length (claimed s))%nat /\
  hv_ring_used (s_ring s) <= 2 ^ k.
Proof.
  intros Hk Hr Hbig. pose proof (reachable_inv k s Hk Hr Hbig) as H.
  pose proof (inv_room k s H) as Hroom. unfold hv_ring_used.
  rewrite (inv_head k s H), (inv_tail k s H). unfold head_of, tail_of in *.
  split_and!; [apply H|done|done|lia|].
  rewrite u64_small; [lia|]. unfold is_u64. lia.
Qed.

(** Two threads push at once: the second claims and commits first, the consumer
    is held up by the unfinished first slot, then drains both in claim order. *)
Definition demo_a : PushArgs := mkPushArgs 10 0x5000 24 24 7 HV_OP_MALLOC.
Definition demo_b : PushArgs := mkPushArgs 11 0x6000 40 40 70000 HV_OP_CALLOC.
Definition demo_trace : list Label :=
  [LPush 0 demo_a; LPush 1 demo_b; LProd 0 false; LProd 0 false; LProd 1 false; LProd 1 false]
  ++ [LProd 1 false; LProd 1 false]
  ++ replicate 8 (LProd 1 false)
  ++ [LDrain 8; LCons; LCons]
  ++ replicate 7 (LProd 0 false)
  ++ [LDrain 8] ++ replicate 7 LCons.

Lemma ring_refines_fifo_witness :
  exists s, run demo_trace (init 10) = Some s /\ length (delivered s) = 2%nat /\
    delivered s = event_of <$> take (length (delivered s)) (claimed s) /\
    h_head (r_hdr (s_ring s)) = Z.of_nat (length (claimed s)) /\
    h_tail (r_hdr (s_ring s)) = Z.of_nat (length (delivered s)) /\
    (length (delivered s) <= length (claimed s))%nat /\
    hv_ring_used (s_ring s) <= 2 ^ 10.
Proof.
  destruct (run demo_trace (init 10)) as [s|] eqn:E; [|vm_compute in E; discriminate].
  exists s. split; [done|]. split.
  - vm_compute in E. injection E as <-. reflexivity.
  - apply (ring_refines_fifo 10 s); [lia| |].
    + eapply run_reachable; [apply reach_refl|exact E].
    + vm_compute in E. injection E as <-. reflexivity.
Defined.

(** Slot exclusivity: a thread storing into its claimed slot shares that slot
    with no other writer and with no packet still waiting to be drained. *)
Theorem writer_owns_slot k s p a q j :
  0 <= k < 64 -> reachable (init k) s -> Z.of_nat (length (claimed s)) < 2 ^ 64 ->
  s_prod s !! p = Some (PWrite a q j) ->
  h_tail (r_hdr (s_ring s)) <= q < h_head (r_hdr (s_ring s)) /\
  forall q', h_tail (r_hdr (s_ring s)) <= q' < h_head (r_hdr (s_ring s)) -> q' <> q ->
    hv_ring_slot (2 ^ k) q' <> hv_ring_slot (2 ^ k) q.
Proof.
  intros Hk Hr Hbig Hp. pose proof (reachable_inv k s Hk Hr Hbig) as H.
  pose proof (inv_prod k s H p _ Hp) as (Hq & Ha & _).
  pose proof (cursor_ge k s H). pose proof (inv_room k s H).
  rewrite (inv_head k s H), (inv_tail k s H).
  assert (0 <= tail_of s) by (unfold tail_of; lia).
  assert (q < head_of s) by (eapply claimed_lt; [lia|done]).
  split; [lia|]. intros q' Hq' Hne. rewrite !slot_index by done. intros E. apply Hne.
  eapply (slot_apart (2 ^ k) (tail_of s)); [apply Z.pow_pos_nonneg; lia|lia|lia|done].
Qed.

Definition demo_write_trace : list Label :=
  [LPush 0 demo_a; LPush 1 demo_b] ++ replicate 3 (LProd 0 false) ++ replicate 5 (LProd 1 false).

Lemma writer_owns_slot_witness :
  exists s, run demo_write_trace (init 10) = Some s /\
    h_tail (r_hdr (s_ring s)) <= 0 < h_head (r_hdr (s_ring s)) /\
    forall q', h_tail (r_hdr (s_ring s)) <= q' < h_head (r_hdr (s_ring s)) -> q' <> 0 ->
      hv_ring_slot (2 ^ 10) q' <> hv_ring_slot (2 ^ 10) 0.
Proof.
  destruct (run demo_write_trace (init 10)) as [s|] eqn:E; [|vm_compute in E; discriminate].
  exists s. split; [done|]. apply (writer_owns_slot 10 s 0 demo_a 0 1); [lia| | |].
  - eapply run_reachable; [apply reach_refl|exact E].
  - vm_compute in E. injection E as <-. reflexivity.
  - vm_compute in E. injection E as <-. reflexivity.
Defined.

(** ** The uninterrupted functions *)
Lemma fmap_take_snoc (cl : list PushArgs) (i : nat) a n :
  cl !! i = Some a ->
  event_of a :: (event_of <$> take n (drop (S i) cl)) = event_of <$> take (S n) (drop i cl).
Proof. intros Ha. by rewrite (drop_S cl a i Ha). Qed.

Lemma drain_loop_quiet k s n t out :
  Inv k s -> s_prod s = ∅ -> head_of s < 2 ^ 64 ->
  tail_of s <= t <= head_of s ->
  let m := Nat.min n (Z.to_nat (head_of s - t)) in
  drain_loop (s_ring s) n t (head_of s) out =
  (t + Z.of_nat m, out ++ (event_of <$> take m (drop (Z.to_nat t) (claimed s)))).
Proof.
  intros H Hq Hbig. assert (0 <= tail_of s) by (unfold tail_of; lia).
  revert t out. induction n as [|n IH]; intros t out Ht; cbn [drain_loop Nat.min].
  { rewrite Z.add_0_r. cbn. by rewrite app_nil_r. }
  destruct (Z.eqb_spec t (head_of s)) as [->|Hne].
  { rewrite Z.sub_diag. cbn. by rewrite Z.add_0_r, app_nil_r. }
  destruct (lookup_lt_is_Some_2 (claimed s) (Z.to_nat t)) as [a Ha].
  { unfold head_of in *. lia. }
  destruct (inv_slots k s H t a) as [(p & j & E)|Es]; [lia|done| |].
  { by rewrite Hq, lookup_empty in E. }
  rewrite (inv_log2 k s H), Es.
  change (ev_op (published k t a)) with (published_op k t (a_opcode a)) at 1.
  assert (0 <= k) by (pose proof (inv_log2 k s H); destruct (decide (0 <= k)); [done|
    pose proof (inv_room k s H); rewrite Z.pow_neg_r in * by lia; lia]).
  rewrite op_accepted_published, Bool.eqb_reflx by done.
  rewrite copy_out_published by done.
  rewrite u64_small by (unfold is_u64; lia). rewrite IH by lia.
  replace (Z.to_nat (head_of s - t)) with (S (Z.to_nat (head_of s - (t + 1)))) by lia.
  cbn [Nat.min]. f_equal; [lia|]. rewrite <- app_assoc. f_equal. cbn [app].
  replace (Z.to_nat (t + 1)) with (S (Z.to_nat t)) by lia. by apply fmap_take_snoc.
Qed.

(** What a drain of the ring hands out once no push is in flight. *)
Lemma drain_quiet k s max : Inv k s -> s_prod s = ∅ -> head_of s < 2 ^ 64 ->
  let m := Nat.min max (length (claimed s) - length (delivered s)) in
  drain_loop (s_ring s) max (h_tail (r_hdr (s_ring s))) (h_head (r_hdr (s_ring s))) [] =
    (tail_of s + Z.of_nat m, event_of <$> take m (drop (length (delivered s)) (claimed s))).
Proof.
  intros H Hq Hbig m. pose proof (inv_room k s H). rewrite (inv_head k s H), (inv_tail k s H).
  rewrite (drain_loop_quiet k s) by (done || unfold head_of in *; lia).
  replace (Z.to_nat (tail_of s)) with (length (delivered s)) by (unfold tail_of; lia).
  replace (Z.to_nat (head_of s - tail_of s)) with (length (claimed s) - length (delivered s))%nat
    by (unfold head_of, tail_of in *; lia). done.
Qed.

(** C19: Nothing is lost to the consumer: once no push is in flight, a drain
    returns the oldest undelivered packets, as many as there are up to [max],
    and moves [tail] past exactly those. *)
Theorem drain_complete k s max :
  0 <= k < 64 -> reachable (init k) s -> Z.of_nat (length (claimed s)) < 2 ^ 64 ->
  s_prod s = ∅ ->
  let m := Nat.min max (length (claimed s) - length (delivered s)) in
  let '(r', out) := hv_ring_drain (s_ring s) max in
  out = event_of <$> take m (drop (length (delivered s)) (claimed s)) /\
  h_tail (r_hdr r') = Z.of_nat (length (delivered s) + m).
Proof.
  intros Hk Hr Hbig Hq m. pose proof (reachable_inv k s Hk Hr Hbig) as H. unfold hv_ring_drain.
  rewrite (drain_quiet k s) by done. fold m.
  split; [done|]. case_bool_decide as E.
  - rewrite (inv_tail k s H). unfold tail_of. f_equal.
    apply fmap_nil_inv, (f_equal length) in E. rewrite length_take, length_drop in E.
    cbn in E. subst m. lia.
  - cbn. unfold tail_of. lia.
Qed.

Lemma drain_complete_witness :
  exists s, run (LPush 0 demo_a :: replicate 9 (LProd 0 false)) (init 10) = Some s /\
    let '(r', out) := hv_ring_drain (s_ring s) 64 in
    out = event_of <$> take 1 (drop 0 (claimed s)) /\ h_tail (r_hdr r') = 1.
Proof.
  destruct (run _ (init 10)) as [s|] eqn:E; [|vm_compute in E; discriminate].
  exists s. split; [done|].
  assert (length (delivered s) = 0%nat /\ length (claimed s) = 1%nat /\ s_prod s = ∅) as (E1 & E2 & E3).
  { vm_compute in E. injection E as <-. split_and!; reflexivity. }
  pose proof (drain_complete 10 s 64) as T. rewrite E1, E2 in T.
  apply T; [lia| |done|done].
  eapply run_reachable; [apply reach_refl|exact E].
Defined.

(** Successive stores to one slot are one store. *)
Lemma slot_put_put r q e e' : slot_put (slot_put r q e) q e' = slot_put r q e'.
Proof. unfold slot_put. cbn. by rewrite list_insert_insert_eq. Qed.

Lemma slot_put_hdr r q e : r_hdr (slot_put r q e) = r_hdr r.
Proof. done. Qed.

(** The step machine runs the source's function: a thread left alone takes
    [hv_ring_push] to completion in at most nine further accesses, with the
    ring the function returns and itself gone from the producers; its retry
    loop therefore ends as soon as no other thread interferes. *)
Theorem push_alone k s p a :
  0 <= k < 64 -> h_capacity (r_hdr (s_ring s)) = 2 ^ k ->
  length (r_slots (s_ring s)) = Z.to_nat (2 ^ k) -> s_prod s !! p = None ->
  exists n s', (n <= 9)%nat /\
    run (LPush p a :: replicate n (LProd p false)) s = Some s' /\
    s_ring s' = (hv_ring_push (s_ring s) a).1 /\ s_prod s' = s_prod s.
Proof.
  intros Hk Hcap Hlen Hp. unfold hv_ring_push.
  destruct (ring_full (h_head (r_hdr (s_ring s))) (h_tail (r_hdr (s_ring s)))
              (h_capacity (r_hdr (s_ring s)))) eqn:Hf.
  - exists 2%nat. eexists. split; [lia|].
    cbn [replicate run]. cbn [step]. rewrite Hp. cbn.
    repeat (progress rewrite ?lookup_insert_eq, ?insert_insert_eq, ?Hf; cbn).
    split_and!; [reflexivity|done|]. cbn. by rewrite delete_insert_id.
  - exists 9%nat. eexists. split; [lia|].
    cbn [replicate run]. cbn [step]. rewrite Hp. cbn.
    repeat (progress rewrite ?lookup_insert_eq, ?insert_insert_eq, ?Hf; cbn).
    unfold cas_weak. rewrite Z.eqb_refl. cbn.
    repeat (progress rewrite ?lookup_insert_eq, ?insert_insert_eq, ?slot_put_put,
      ?(slot_get_put_eq k) by done; cbn -[slot_get slot_put]).
    split_and!; [reflexivity| |cbn; by rewrite delete_insert_id].
    cbn -[slot_get slot_put]. done.
Qed.

Lemma push_alone_witness :
  exists n s', (n <= 9)%nat /\
    run (LPush 3 demo_a :: replicate n (LProd 3 false)) (init 10) = Some s' /\
    s_ring s' = (hv_ring_push (s_ring (init 10)) demo_a).1 /\ s_prod s' = s_prod (init 10).
Proof. apply (push_alone 10 (init 10) 3 demo_a); [lia|reflexivity..]. Defined.

(** The consumer's steps left alone run the source's loop: what it has accepted
    so far goes on as [drain_loop] does, and the drain ends. *)
Definition drain_end (s : Sys) (t' : Z) (out' : list HvEvent) : Sys :=
  mkSys (if bool_decide (out' = []) then s_ring s else set_tail (s_ring s) t') (s_prod s) CIdle (claimed s) (delivered s ++ out').

Lemma loop_alone b : forall s max t h out, s_cons s = CLoop max t h out -> (length out + b)%nat = max ->
  exists n, (0 < n <= 2 * b + 2)%nat /\ run (replicate n LCons) s =
    Some (let '(t', out') := drain_loop (s_ring s) b t h out in drain_end s t' out').
Proof.
  assert (forall s max t h out, s_cons s = CLoop max t h out ->
    cons_step s = Some (mkSys (s_ring s) (s_prod s) (if bool_decide (out = []) then CIdle else CStore t out) (claimed s) (delivered s)) ->
    exists n, (0 < n <= 2)%nat /\ run (replicate n LCons) s = Some (drain_end s t out)) as Hstop.
  { intros s max t h out Ec Es. unfold drain_end. destruct (bool_decide_reflect (out = [])) as [->|Hne].
    - exists 1%nat. split; [lia|]. cbn [replicate run step]. rewrite Es. cbn. by rewrite app_nil_r.
    - exists 2%nat. split; [lia|]. cbn [replicate run step]. rewrite Es. done. }
  induction b as [|b IH]; intros s max t h out Ec Hl; cbn [drain_loop].
  - destruct (Hstop s max t h out Ec) as (n & Hn & Hr); [|exists n; split; [lia|exact Hr]].
    unfold cons_step. rewrite Ec, (proj2 (Nat.ltb_ge _ _)) by lia. cbn [andb]. done.
  - destruct (Z.eqb_spec t h) as [->|Hne].
    { destruct (Hstop s max h h out Ec) as (n & Hn & Hr); [|exists n; split; [lia|exact Hr]].
      unfold cons_step. rewrite Ec, Z.eqb_refl, andb_false_r. done. }
    assert (Nat.ltb (length out) max = true) as Hlt by (apply Nat.ltb_lt; lia). apply Z.eqb_neq in Hne.
    destruct (op_accepted (h_capacity_log2 (r_hdr (s_ring s))) t (ev_op (slot_get (s_ring s) t))) eqn:Ea.
    2:{ destruct (Hstop s max t h out Ec) as (n & Hn & Hr); [|exists n; split; [lia|exact Hr]].
        unfold cons_step. rewrite Ec, Hlt, Hne. cbn [andb negb]. by rewrite Ea. }
    set (e := copy_out _ _). set (s1 := mkSys (s_ring s) (s_prod s) (CLoop max (t ⊞ 1) h (out ++ [e])) (claimed s) (delivered s)).
    destruct (IH s1 max (t ⊞ 1) h (out ++ [e]) eq_refl) as (n & Hn & Hr); [rewrite length_app; cbn; lia|].
    exists (S (S n)). split; [lia|]. cbn [replicate run step].
    assert (cons_step s = Some (mkSys (s_ring s) (s_prod s) (CCopy max t h out (ev_op (slot_get (s_ring s) t))) (claimed s) (delivered s)))
      as -> by (unfold cons_step; rewrite Ec, Hlt, Hne; cbn [andb negb]; by rewrite Ea).
    exact Hr.
Qed.

Lemma drain_alone s max : s_cons s = CIdle -> exists n, (1 < n <= 2 * max + 3)%nat /\
  run (LDrain max :: replicate n LCons) s =
    Some (let '(t', out) := drain_loop (s_ring s) max (h_tail (r_hdr (s_ring s))) (h_head (r_hdr (s_ring s))) [] in drain_end s t' out).
Proof.
  intros Ec. set (s1 := mkSys (s_ring s) (s_prod s) (CLoop max (h_tail (r_hdr (s_ring s))) (h_head (r_hdr (s_ring s))) []) (claimed s) (delivered s)).
  destruct (loop_alone max s1 max _ _ [] eq_refl) as (n & Hn & Hr); [done|].
  exists (S n). split; [lia|]. cbn [replicate run step]. rewrite Ec. cbn [mbind option_bind run step cons_step]. exact Hr.
Qed.

(** [head] and [tail] are loaded separately, so a producer that is overtaken
    between the two loads sees a tail beyond its head; the 64-bit difference
    wraps, the full test succeeds and the event is dropped although the ring
    is empty. *)
Theorem drop_on_empty_ring :
  exists ls s, run ls (init 10) = Some s /\
    h_dropped (r_hdr (s_ring s)) = 1 /\ hv_ring_used (s_ring s) = 0 /\
    length (claimed s) = 1%nat /\ h_capacity (r_hdr (s_ring s)) = 1024.
Proof.
  exists ([LPush 0 demo_a; LPush 1 demo_b] ++ replicate 9 (LProd 1 false)
          ++ [LDrain 8] ++ replicate 5 LCons ++ replicate 2 (LProd 0 false)).
  eexists. split; [vm_compute; reflexivity|]. split_and!; reflexivity.
Qed.

(** ** Consumer ownership *)
Lemma claim_loop_free pid sps : claim_loop 0 pid sps = (pid, None).
Proof.
  induction sps as [|[] sps IH]; cbn; [done| |done]. exact IH.
Qed.

Lemma claim_loop_held cur pid sps : cur <> 0 -> claim_loop cur pid sps = (cur, Some cur).
Proof.
  intros Hc. unfold claim_loop, cas_weak.
  destruct sps as [|sp sps]; apply Z.eqb_neq in Hc; rewrite Hc; cbn; [done|].
  by rewrite Hc.
Qed.

(** Single-consumer enforcement: whatever the spurious failures of the weak
    CAS, a claim succeeds exactly when nobody holds the ring, and then the
    ring is the caller's; otherwise the holder is reported and kept. *)
Theorem claim_exclusive r pid sps :
  let '(r', res) := hv_ring_claim r pid sps in
  (h_consumer_pid (r_hdr r) = 0 -> res = None /\ h_consumer_pid (r_hdr r') = pid) /\
  (h_consumer_pid (r_hdr r) <> 0 ->
     res = Some (h_consumer_pid (r_hdr r)) /\
     h_consumer_pid (r_hdr r') = h_consumer_pid (r_hdr r)).
Proof.
  unfold hv_ring_claim. destruct (decide (h_consumer_pid (r_hdr r) = 0)) as [E|E].
  - rewrite E, claim_loop_free. cbn. split; [done|lia].
  - rewrite claim_loop_held by done. cbn. split; [lia|done].
Qed.

(** A release by a process that is not the holder changes nothing, and one by
    the holder frees the ring, unless its only (weak) CAS fails spuriously:
    then the ring stays claimed by a consumer that has detached. *)
Theorem release_spec r pid sp :
  let r' := hv_ring_release r pid sp in
  (h_consumer_pid (r_hdr r) <> pid -> r' = r) /\
  (h_consumer_pid (r_hdr r) = pid ->
     h_consumer_pid (r_hdr r') = if sp then pid else 0).
Proof.
  unfold hv_ring_release, cas_weak. split; intros E.
  - apply Z.eqb_neq in E. rewrite E. cbn. by destruct r as [[] ?].
  - subst pid. rewrite Z.eqb_refl. by destruct sp.
Qed.
