(* ===== verification/ChunkTable.v ===== *)
(** * The live chunk table (src/src/tui/chunk_table.h, chunk_table.cpp)

    A Robin Hood hash table from pointers to chunk records, with backward-shift
    deletion, growth at 85% load and a bounded-memory policy that evicts freed
    records only.  The probe loops carry fuel and return [None] when it runs
    out; [ChunkTableProofs] shows that they never do. *)

From S2P Require Import Prelude.

(** ** Data *)

Inductive ChunkState := kChunkEmpty | kChunkLive | kChunkFreed.
#[export] Instance ChunkState_eq_dec : EqDecision ChunkState.
Proof. solve_decision. Defined.

Definition kChunkFlagNone : Z := 0.
Definition kChunkFlagRefined : Z := 1.
Definition kChunkFlagMmapped : Z := 2.
Definition kChunkFlagNonMain : Z := 4.
Definition kHeaderFlagMask : Z := Z.lor kChunkFlagMmapped kChunkFlagNonMain.

Record Chunk := mkChunk {
  c_key : Z;
  c_size : Z;
  c_usable : Z;
  c_alloc_ms : Z;
  c_free_ms : Z;
  c_tid : Z;
  c_state : ChunkState;
  c_flags : Z;
  c_overhead_exact : Z
}.
#[export] Instance Chunk_eq_dec : EqDecision Chunk.
Proof. solve_decision. Defined.

Definition kEmptySlot : Chunk := mkChunk 0 0 0 0 0 0 kChunkEmpty 0 0.
#[export] Instance Chunk_inhabited : Inhabited Chunk := populate kEmptySlot.

Record ChunkTableStats := mkStats {
  st_inserts : Z;
  st_updates : Z;
  st_erases : Z;
  st_rehashes : Z;
  st_evictions : Z;
  st_drops : Z;
  st_max_probe : Z
}.

Record ChunkTable := mkTable {
  slots_ : list Chunk;
  size_ : Z;
  mask_ : Z;
  shift_ : Z;
  max_entries_ : Z;
  freed_fifo_ : list Z;
  freed_head_ : Z;
  freed_tail_ : Z;
  stats_ : ChunkTableStats
}.

(** Field assignments. *)
Definition with_slots (t : ChunkTable) (l : list Chunk) : ChunkTable :=
  mkTable l (size_ t) (mask_ t) (shift_ t) (max_entries_ t)
    (freed_fifo_ t) (freed_head_ t) (freed_tail_ t) (stats_ t).
Definition with_size (t : ChunkTable) (n : Z) : ChunkTable :=
  mkTable (slots_ t) n (mask_ t) (shift_ t) (max_entries_ t)
    (freed_fifo_ t) (freed_head_ t) (freed_tail_ t) (stats_ t).
Definition with_max (t : ChunkTable) (n : Z) : ChunkTable :=
  mkTable (slots_ t) (size_ t) (mask_ t) (shift_ t) n
    (freed_fifo_ t) (freed_head_ t) (freed_tail_ t) (stats_ t).
Definition with_fifo (t : ChunkTable) (f : list Z) (h tl : Z) : ChunkTable :=
  mkTable (slots_ t) (size_ t) (mask_ t) (shift_ t) (max_entries_ t)
    f h tl (stats_ t).
Definition with_stats (t : ChunkTable) (s : ChunkTableStats) : ChunkTable :=
  mkTable (slots_ t) (size_ t) (mask_ t) (shift_ t) (max_entries_ t)
    (freed_fifo_ t) (freed_head_ t) (freed_tail_ t) s.

(** Statistics increments. *)
Definition count_insert (s : ChunkTableStats) : ChunkTableStats :=
  mkStats (st_inserts s ⊞ 1) (st_updates s) (st_erases s) (st_rehashes s)
    (st_evictions s) (st_drops s) (st_max_probe s).
Definition count_update (s : ChunkTableStats) : ChunkTableStats :=
  mkStats (st_inserts s) (st_updates s ⊞ 1) (st_erases s) (st_rehashes s)
    (st_evictions s) (st_drops s) (st_max_probe s).
Definition count_erase (s : ChunkTableStats) : ChunkTableStats :=
  mkStats (st_inserts s) (st_updates s) (st_erases s ⊞ 1) (st_rehashes s)
    (st_evictions s) (st_drops s) (st_max_probe s).
Definition count_rehash (s : ChunkTableStats) : ChunkTableStats :=
  mkStats (st_inserts s) (st_updates s) (st_erases s) (st_rehashes s ⊞ 1)
    (st_evictions s) (st_drops s) (st_max_probe s).
Definition count_eviction (s : ChunkTableStats) : ChunkTableStats :=
  mkStats (st_inserts s) (st_updates s) (st_erases s) (st_rehashes s)
    (st_evictions s ⊞ 1) (st_drops s) (st_max_probe s).
Definition count_drop (s : ChunkTableStats) : ChunkTableStats :=
  mkStats (st_inserts s) (st_updates s) (st_erases s) (st_rehashes s)
    (st_evictions s) (st_drops s ⊞ 1) (st_max_probe s).
Definition note_probe (s : ChunkTableStats) (p : Z) : ChunkTableStats :=
  mkStats (st_inserts s) (st_updates s) (st_erases s) (st_rehashes s)
    (st_evictions s) (st_drops s) p.

(** ** Construction and geometry *)

Definition kFibonacci : Z := 0x9E3779B97F4A7C15.
Definition kMinCapacity : Z := 16.
Definition kLoadNumerator : Z := 85.
Definition kLoadDenominator : Z := 100.

Definition round_capacity (n : Z) : Z :=
  if n <=? kMinCapacity then kMinCapacity else bit_ceil n.

Definition shift_of (cap : Z) : Z := 64 - countr_zero cap.

Definition new_table (initial_capacity : Z) : ChunkTable :=
  let cap := round_capacity initial_capacity in
  mkTable (replicate (Z.to_nat cap) kEmptySlot) 0 (cap ⊟ 1) (shift_of cap) 0
    [] 0 0 (mkStats 0 0 0 0 0 0 0).

Definition capacity (t : ChunkTable) : Z := Z.of_nat (length (slots_ t)).

Definition slot_at (l : list Chunk) (i : Z) : Chunk := l !!! Z.to_nat i.
Definition slot_set (l : list Chunk) (i : Z) (c : Chunk) : list Chunk :=
  <[Z.to_nat i := c]> l.

Definition ideal_slot (shift key : Z) : Z := Z.shiftr (key ⊠ kFibonacci) shift.

Definition probe_distance (mask shift : Z) (l : list Chunk) (slot : Z) : Z :=
  Z.land (slot ⊟ ideal_slot shift (c_key (slot_at l slot))) mask.

Definition next_slot (mask slot : Z) : Z := Z.land (slot ⊞ 1) mask.

Definition is_empty_slot (c : Chunk) : bool :=
  bool_decide (c_state c = kChunkEmpty).

(** ** Lookup *)

Fixpoint find_loop (fuel : nat) (mask shift : Z) (l : list Chunk)
    (key slot dist : Z) : option (option Z) :=
  match fuel with
  | O => None
  | S fuel =>
      let cur := slot_at l slot in
      if is_empty_slot cur then Some None
      else if c_key cur =? key then Some (Some slot)
      else if probe_distance mask shift l slot <? dist then Some None
      else find_loop fuel mask shift l key (next_slot mask slot) (dist ⊞ 1)
  end.

(** The pointer the C++ returns, as the index of the slot it points to. *)
Definition find (t : ChunkTable) (key : Z) : option Z :=
  if (key =? 0) || (capacity t =? 0) then None
  else default None
         (find_loop (length (slots_ t)) (mask_ t) (shift_ t) (slots_ t)
            key (ideal_slot (shift_ t) key) 0).

(** The record behind that pointer. *)
Definition lookup_chunk (t : ChunkTable) (key : Z) : option Chunk :=
  slot_at (slots_ t) <$> find t key.

(** ** Robin Hood placement *)

Fixpoint place_loop (fuel : nat) (mask shift : Z) (l : list Chunk) (rec : Chunk)
    (slot dist max_probe : Z) : option (list Chunk * Z) :=
  match fuel with
  | O => None
  | S fuel =>
      let cur := slot_at l slot in
      if is_empty_slot cur then
        Some (slot_set l slot rec, if max_probe <? dist then dist else max_probe)
      else
        let cur_dist := probe_distance mask shift l slot in
        let '(l, rec, dist) :=
          if cur_dist <? dist then (slot_set l slot rec, cur, cur_dist)
          else (l, rec, dist) in
        let slot := next_slot mask slot in
        let dist := dist ⊞ 1 in
        let max_probe := if max_probe <? dist then dist else max_probe in
        place_loop fuel mask shift l rec slot dist max_probe
  end.

Definition place (t : ChunkTable) (rec : Chunk) : ChunkTable :=
  match place_loop (length (slots_ t)) (mask_ t) (shift_ t) (slots_ t) rec
          (ideal_slot (shift_ t) (c_key rec)) 0 (st_max_probe (stats_ t)) with
  | Some (l, mp) => with_stats (with_slots t l) (note_probe (stats_ t) mp)
  | None => t
  end.

(** ** Growth *)

Definition grow_to (t : ChunkTable) (new_capacity : Z) : ChunkTable * bool :=
  let cap := round_capacity new_capacity in
  if cap <=? capacity t then (t, true)
  else
    let old := slots_ t in
    let fresh := mkTable (replicate (Z.to_nat cap) kEmptySlot) (size_ t)
                   (cap ⊟ 1) (shift_of cap) (max_entries_ t)
                   (freed_fifo_ t) (freed_head_ t) (freed_tail_ t) (stats_ t) in
    let t := foldl (fun t c => if is_empty_slot c then t else place t c) fresh old in
    (with_stats t (count_rehash (stats_ t)), true).

Definition reserve (t : ChunkTable) (entries : Z) : ChunkTable * bool :=
  let needed := (entries ⊠ kLoadDenominator) / kLoadNumerator ⊞ 1 in
  if needed <=? capacity t then (t, true)
  else grow_to t (round_capacity needed).

Definition clear (t : ChunkTable) : ChunkTable :=
  with_fifo
    (with_size (with_slots t ((fun _ => kEmptySlot) <$> slots_ t)) 0)
    (freed_fifo_ t) 0 0.

(** ** Backward-shift deletion *)

Fixpoint erase_loop (fuel : nat) (mask shift : Z) (l : list Chunk) (i : Z)
    : option (list Chunk * Z) :=
  match fuel with
  | O => None
  | S fuel =>
      let j := next_slot mask i in
      if is_empty_slot (slot_at l j) then Some (l, i)
      else if probe_distance mask shift l j =? 0 then Some (l, i)
      else erase_loop fuel mask shift (slot_set l i (slot_at l j)) j
  end.

Definition erase (t : ChunkTable) (key : Z) : ChunkTable * bool :=
  match find t key with
  | None => (t, false)
  | Some i =>
      match erase_loop (length (slots_ t)) (mask_ t) (shift_ t) (slots_ t) i with
      | Some (l, i) =>
          let t := with_slots t (slot_set l i kEmptySlot) in
          let t := with_size t (size_ t ⊟ 1) in
          (with_stats t (count_erase (stats_ t)), true)
      | None => (t, true)
      end
  end.

(** ** The eviction queue *)

Definition push_freed (t : ChunkTable) (key : Z) : ChunkTable :=
  let n := Z.of_nat (length (freed_fifo_ t)) in
  if n =? 0 then t
  else
    let f := <[Z.to_nat (freed_tail_ t) := key]> (freed_fifo_ t) in
    let tail := (freed_tail_ t ⊞ 1) mod n in
    let head := if tail =? freed_head_ t then (freed_head_ t ⊞ 1) mod n
                else freed_head_ t in
    with_fifo t f head tail.

Fixpoint pop_loop (fuel : nat) (t : ChunkTable) : option (ChunkTable * bool) :=
  match fuel with
  | O => None
  | S fuel =>
      if freed_head_ t =? freed_tail_ t then Some (t, false)
      else
        let key := freed_fifo_ t !!! Z.to_nat (freed_head_ t) in
        let head := (freed_head_ t ⊞ 1) mod Z.of_nat (length (freed_fifo_ t)) in
        let t := with_fifo t (freed_fifo_ t) head (freed_tail_ t) in
        match lookup_chunk t key with
        | Some c =>
            if decide (c_state c = kChunkFreed) then
              let t := (erase t key).1 in
              Some (with_stats t (count_eviction (stats_ t)), true)
            else pop_loop fuel t
        | None => pop_loop fuel t
        end
  end.

Definition pop_evictable (t : ChunkTable) : ChunkTable * bool :=
  default (t, false) (pop_loop (S (length (freed_fifo_ t))) t).

(** [std::pair]'s ordering. *)
Definition pair_le (p q : Z * Z) : Prop := p.1 < q.1 \/ (p.1 = q.1 /\ p.2 <= q.2).
#[export] Instance pair_le_dec p q : Decision (pair_le p q).
Proof. unfold pair_le. solve_decision. Defined.

Definition freed_pairs (l : list Chunk) : list (Z * Z) :=
  (fun c => (c_free_ms c, c_key c)) <$> filter (fun c => c_state c = kChunkFreed) l.

Definition refill_freed_queue (t : ChunkTable) : ChunkTable :=
  match freed_fifo_ t with
  | [] => t
  | _ =>
      let freed := merge_sort pair_le (freed_pairs (slots_ t)) in
      let t := with_fifo t (freed_fifo_ t) 0 0 in
      let room := (length (freed_fifo_ t) - 1)%nat in
      foldl (fun t p => push_freed t p.2) t (take (Nat.min (length freed) room) freed)
  end.

Definition make_room (t : ChunkTable) : ChunkTable * bool :=
  let '(t, ok) := pop_evictable t in
  if ok then (t, true) else pop_evictable (refill_freed_queue t).

(** [while (size_ > max_entries_ && make_room()) {}] *)
Fixpoint shrink_loop (fuel : nat) (t : ChunkTable) : option ChunkTable :=
  match fuel with
  | O => None
  | S fuel =>
      if max_entries_ t <? size_ t then
        let '(t, ok) := make_room t in
        if ok then shrink_loop fuel t else Some t
      else Some t
  end.

Definition set_max_entries (t : ChunkTable) (n : Z) : ChunkTable :=
  let t := with_max t n in
  if n =? 0 then with_fifo t [] 0 0
  else
    let t := with_fifo t (replicate (Z.to_nat (n ⊞ 1)) 0) 0 0 in
    let t := refill_freed_queue t in
    default t (shrink_loop (S (Z.to_nat (size_ t))) t).

(** ** Updates *)

(** A live record written over an existing one keeps its flags and its exact
    overhead: only the assigned fields change. *)
Definition revive (c : Chunk) (size usable alloc_ms tid : Z) : Chunk :=
  mkChunk (c_key c) size usable alloc_ms 0 tid kChunkLive (c_flags c)
    (c_overhead_exact c).

Definition live_record (key size usable alloc_ms tid : Z) : Chunk :=
  mkChunk key size usable alloc_ms 0 tid kChunkLive 0 0.

Definition insert_live (t : ChunkTable) (key size usable alloc_ms tid : Z)
    : ChunkTable * bool :=
  if key =? 0 then (t, false)
  else
    match find t key with
    | Some i =>
        let c := revive (slot_at (slots_ t) i) size usable alloc_ms tid in
        let t := with_slots t (slot_set (slots_ t) i c) in
        (with_stats t (count_update (stats_ t)), true)
    | None =>
        let '(t, ok) :=
          if negb (max_entries_ t =? 0) && (max_entries_ t <=? size_ t)
          then make_room t else (t, true) in
        if negb ok then (with_stats t (count_drop (stats_ t)), false)
        else
          let '(t, ok) :=
            if capacity t ⊠ kLoadNumerator <? (size_ t ⊞ 1) ⊠ kLoadDenominator
            then grow_to t (capacity t ⊠ 2) else (t, true) in
          if negb ok then (with_stats t (count_drop (stats_ t)), false)
          else
            let t := place t (live_record key size usable alloc_ms tid) in
            let t := with_size t (size_ t ⊞ 1) in
            (with_stats t (count_insert (stats_ t)), true)
    end.

Definition refine_record (c : Chunk) (exact_overhead header_flags : Z) : Chunk :=
  mkChunk (c_key c) (c_size c) (c_usable c) (c_alloc_ms c) (c_free_ms c) (c_tid c)
    (c_state c)
    (u8 (Z.lor (Z.lor (c_flags c) kChunkFlagRefined)
               (Z.land header_flags kHeaderFlagMask)))
    (u16 exact_overhead).

Definition mark_refined (t : ChunkTable) (key exact_overhead header_flags : Z)
    : ChunkTable * bool :=
  if UINT16_MAX <? exact_overhead then (t, false)
  else
    match find t key with
    | None => (t, false)
    | Some i =>
        let c := refine_record (slot_at (slots_ t) i) exact_overhead header_flags in
        (with_slots t (slot_set (slots_ t) i c), true)
    end.

Definition unrefine_record (c : Chunk) : Chunk :=
  let keep := u8 (Z.lnot (Z.lor kChunkFlagRefined kHeaderFlagMask)) in
  mkChunk (c_key c) (c_size c) (c_usable c) (c_alloc_ms c) (c_free_ms c) (c_tid c)
    (c_state c) (u8 (Z.land (c_flags c) keep)) 0.

Definition clear_refined (t : ChunkTable) : ChunkTable :=
  with_slots t (unrefine_record <$> slots_ t).

Definition free_record (c : Chunk) (free_ms : Z) : Chunk :=
  mkChunk (c_key c) (c_size c) (c_usable c) (c_alloc_ms c) free_ms (c_tid c)
    kChunkFreed (c_flags c) (c_overhead_exact c).

Definition mark_freed (t : ChunkTable) (key free_ms : Z) : ChunkTable * bool :=
  match find t key with
  | None => (t, false)
  | Some i =>
      let c := free_record (slot_at (slots_ t) i) free_ms in
      let t := with_slots t (slot_set (slots_ t) i c) in
      (push_freed t key, true)
  end.
