(* ===== verification/ChunkTableProofs.v ===== *)
(** * Correctness of the chunk table

    The Robin Hood invariant, the behaviour of the three probe loops (with
    their termination), and the refinement of every operation of [ChunkTable]
    to an operation on a finite map from pointers to records. *)

From S2P Require Import Prelude ChunkTable.

(** ** Geometry: what the loops rely on

    A table of [n] slots whose mask and shift agree with [n]: the probe
    distance is the circular distance from home, and the successor wraps. *)

Class Geometry (n mask shift : Z) : Prop := {
  geo_size : 3 <= n < 2 ^ 58;
  geo_home key : 0 <= ideal_slot shift key < n;
  geo_dist l i : 0 <= i < n ->
    probe_distance mask shift l i =
    (i - ideal_slot shift (c_key (slot_at l i))) mod n;
  geo_next i : 0 <= i < n -> next_slot mask i = (i + 1) mod n
}.

Lemma geometry_pow2 k :
  4 <= k <= 57 -> Geometry (2 ^ k) (2 ^ k ⊟ 1) (shift_of (2 ^ k)).
Proof.
  intros Hk.
  assert (2 ^ 4 <= 2 ^ k) by (apply Z.pow_le_mono_r; lia).
  assert (2 ^ k < 2 ^ 58) by (apply Z.pow_lt_mono_r; lia).
  change (2 ^ 4) with 16 in *. change (2 ^ 58) with 288230376151711744 in *.
  rewrite u64_small by (unfold is_u64; rewrite pow2_64; lia).
  unfold shift_of. rewrite countr_zero_pow2 by lia.
  split.
  - change (2 ^ 58) with 288230376151711744. lia.
  - intros key. unfold ideal_slot. rewrite Z.shiftr_div_pow2 by lia.
    pose proof (u64_range (key * kFibonacci)) as [Hlo Hhi].
    assert (0 < 2 ^ (64 - k)) by (apply Z.pow_pos_nonneg; lia).
    split; [apply Z.div_pos; lia|]. apply Z.div_lt_upper_bound; [lia|].
    rewrite <- Z.pow_add_r by lia. replace (64 - k + k) with 64 by lia. done.
  - intros l i Hi. unfold probe_distance. apply land_mask_u64. lia.
  - intros i Hi. unfold next_slot. apply land_mask_u64. lia.
Qed.

(** ** Circular indices *)

Section Circular.
Context (n : Z) (Hn : 2 <= n).

Lemma mod_range i : 0 <= i mod n < n.
Proof. apply Z.mod_pos_bound. lia. Qed.

Lemma mod_id i : 0 <= i < n -> i mod n = i.
Proof. apply Z.mod_small. Qed.

Lemma mod_add_ne i d : 0 < d < n -> (i + d) mod n <> i mod n.
Proof.
  intros Hd E. assert (d mod n = 0) as E0.
  { replace d with ((i + d) - i) by lia. by rewrite Zminus_mod, E, Z.sub_diag, Z.mod_0_l by lia. }
  rewrite Z.mod_small in E0; lia.
Qed.

Lemma mod_step i h : (i - h) mod n + 1 < n -> (i + 1 - h) mod n = (i - h) mod n + 1.
Proof.
  intros. pose proof (mod_range (i - h)).
  replace (i + 1 - h) with ((i - h) + 1) by lia.
  rewrite <- Zplus_mod_idemp_l. rewrite mod_id; lia.
Qed.

Lemma mod_unstep i h : 0 < (i + 1 - h) mod n -> (i - h) mod n = (i + 1 - h) mod n - 1.
Proof.
  intros. pose proof (mod_range (i + 1 - h)).
  replace (i - h) with ((i + 1 - h) - 1) by lia.
  rewrite <- Zminus_mod_idemp_l. rewrite mod_id; lia.
Qed.

Lemma mod_sub_mod i h : (i mod n - h) mod n = (i - h) mod n.
Proof. apply Zminus_mod_idemp_l. Qed.

Lemma mod_add_mod i d : (i mod n + d) mod n = (i + d) mod n.
Proof. apply Zplus_mod_idemp_l. Qed.

Lemma mod_sub_0 q p : (q - p) mod n = 0 -> p mod n = q mod n.
Proof.
  intros H0. pose proof (Z.div_mod (q - p) n ltac:(lia)).
  replace p with (q + (- ((q - p) / n)) * n) by lia. apply Z_mod_plus_full.
Qed.

(** The distance ahead to [q] shrinks by one at every step. *)
Lemma mod_ahead q p : (q - p) mod n <> 0 -> (q - (p + 1)) mod n = (q - p) mod n - 1.
Proof.
  intros Hne. pose proof (mod_range (q - p)).
  pose proof (mod_unstep (q - (p + 1)) 0) as Hu. rewrite !Z.sub_0_r in Hu.
  replace (q - (p + 1) + 1) with (q - p) in Hu by lia. lia.
Qed.
End Circular.

(** ** The slots as a periodic function *)

Section RobinHood.
Context {n mask shift : Z} `{G : !Geometry n mask shift}.
Implicit Types (l : list Chunk) (c rec : Chunk) (i p q : Z).

Definition sized (n : Z) l : Prop := Z.of_nat (length l) = n.

Definition at_ (n : Z) l i : Chunk := slot_at l (i mod n).
Definition home (shift : Z) c : Z := ideal_slot shift (c_key c).
Definition dist (n shift : Z) l i : Z := (i - home shift (at_ n l i)) mod n.
Definition occupied (n : Z) l i : Prop := c_state (at_ n l i) <> kChunkEmpty.

(** A displaced record sits behind an occupied slot whose record is at most
    one step closer to its own home. *)
Definition robin_hood_at (n shift : Z) l i : Prop :=
  occupied n l (i + 1) -> 0 < dist n shift l (i + 1) ->
  occupied n l i /\ dist n shift l (i + 1) <= dist n shift l i + 1.
Definition robin_hood (n shift : Z) l : Prop := forall i, robin_hood_at n shift l i.

Local Abbreviation at' := (at_ n).
Local Abbreviation dist' := (dist n shift).
Local Abbreviation occ := (occupied n).

Lemma n_ge_2 : 2 <= n.
Proof. pose proof (geo_size (Geometry := G)). lia. Qed.
Hint Resolve n_ge_2 : core.

Lemma dist_range l i : 0 <= dist' l i < n.
Proof. apply mod_range; auto. Qed.

Lemma at_mod l i j : i mod n = j mod n -> at' l i = at' l j.
Proof. unfold at_. by intros ->. Qed.

Lemma dist_mod l i j : i mod n = j mod n -> dist' l i = dist' l j.
Proof.
  intros E. unfold dist. rewrite (at_mod _ _ _ E).
  rewrite <- (mod_sub_mod n i), <- (mod_sub_mod n j). by rewrite E.
Qed.

Lemma occ_mod l i j : i mod n = j mod n -> occ l i -> occ l j.
Proof. intros E. unfold occupied. by rewrite (at_mod _ _ _ E). Qed.

Lemma probe_distance_dist l i : probe_distance mask shift l (i mod n) = dist' l i.
Proof.
  rewrite geo_dist by (apply mod_range; auto).
  unfold dist, home. rewrite mod_sub_mod. done.
Qed.

Lemma next_slot_mod i : next_slot mask (i mod n) = (i + 1) mod n.
Proof. rewrite geo_next by (apply mod_range; auto). apply mod_add_mod. Qed.

Lemma slot_set_length l i c : length (slot_set l i c) = length l.
Proof. apply length_insert. Qed.

Lemma sized_set l i c : sized n l -> sized n (slot_set l i c).
Proof. unfold sized. by rewrite slot_set_length. Qed.

Lemma at_set_eq l p i c :
  sized n l -> i mod n = p mod n -> at' (slot_set l (p mod n) c) i = c.
Proof.
  intros Hs E. unfold at_, slot_at, slot_set. rewrite E.
  apply list_lookup_total_insert_eq.
  pose proof (mod_range n n_ge_2 p). unfold sized in Hs. lia.
Qed.

Lemma at_set_ne l p i c :
  i mod n <> p mod n -> at' (slot_set l (p mod n) c) i = at' l i.
Proof.
  intros E. unfold at_, slot_at, slot_set.
  apply list_lookup_total_insert_ne.
  pose proof (mod_range n n_ge_2 p). pose proof (mod_range n n_ge_2 i). lia.
Qed.

Lemma dist_set_ne l p i c :
  i mod n <> p mod n -> dist' (slot_set l (p mod n) c) i = dist' l i.
Proof. intros E. unfold dist. by rewrite at_set_ne. Qed.

Lemma occ_set_ne l p i c :
  i mod n <> p mod n -> occ (slot_set l (p mod n) c) i <-> occ l i.
Proof. intros E. unfold occupied. by rewrite at_set_ne. Qed.

Lemma succ_ne i : (i + 1) mod n <> i mod n.
Proof. apply mod_add_ne; [auto|]. pose proof n_ge_2. lia. Qed.
Lemma succ2_ne i : (i + 1 + 1) mod n <> i mod n.
Proof. replace (i + 1 + 1) with (i + 2) by lia. apply mod_add_ne; [auto|]. pose proof (geo_size (Geometry := G)). lia. Qed.

(** The invariant at a congruent index. *)
Lemma robin_hood_at_mod l i j :
  i mod n = j mod n -> robin_hood_at n shift l i -> robin_hood_at n shift l j.
Proof.
  intros E. assert ((i + 1) mod n = (j + 1) mod n) as E1.
  { rewrite <- (mod_add_mod n i), <- (mod_add_mod n j). by rewrite E. }
  unfold robin_hood_at, occupied.
  by rewrite (at_mod l _ _ E), (at_mod l _ _ E1), (dist_mod l _ _ E), (dist_mod l _ _ E1).
Qed.

(** Changing one slot only disturbs the two pairs it belongs to. *)
Lemma robin_hood_set l p c :
  (forall i, i mod n <> p mod n -> (i + 1) mod n <> p mod n -> robin_hood_at n shift l i) ->
  robin_hood_at n shift (slot_set l (p mod n) c) (p - 1) ->
  robin_hood_at n shift (slot_set l (p mod n) c) p ->
  robin_hood n shift (slot_set l (p mod n) c).
Proof.
  intros Ho Hpre Hpost i.
  destruct (decide (i mod n = p mod n)) as [E|E].
  { by eapply robin_hood_at_mod; [symmetry|]. }
  destruct (decide ((i + 1) mod n = p mod n)) as [E1|E1].
  { eapply robin_hood_at_mod; [|exact Hpre].
    replace i with (i + 1 - 1) by lia.
    rewrite <- (Zminus_mod_idemp_l p), <- (Zminus_mod_idemp_l (i + 1)). by rewrite E1. }
  unfold robin_hood_at. rewrite !occ_set_ne, !dist_set_ne by done. by apply Ho.
Qed.

(** Walking home from a record finds only occupied slots, whose records are
    at least as displaced as the remaining walk. *)
Lemma walk_home l i (j : nat) :
  robin_hood n shift l -> occ l i -> Z.of_nat j <= dist' l i ->
  occ l (i - Z.of_nat j) /\ dist' l i - Z.of_nat j <= dist' l (i - Z.of_nat j).
Proof.
  intros Hrh Hi. induction j as [|j IH]; intros Hj.
  { rewrite !Z.sub_0_r. split; [done|lia]. }
  destruct IH as [Ho Hd]; [lia|].
  specialize (Hrh (i - Z.of_nat (S j))).
  unfold robin_hood_at in Hrh.
  replace (i - Z.of_nat (S j) + 1) with (i - Z.of_nat j) in Hrh by lia.
  destruct Hrh as [Ho' Hd']; [done|lia|]. split; [done|lia].
Qed.

(** With a free slot somewhere no record is displaced all the way round. *)
Lemma dist_lt_pred l i q :
  robin_hood n shift l -> occ l i -> c_state (at' l q) = kChunkEmpty ->
  dist' l i + 1 < n.
Proof.
  intros Hrh Hi Hq. pose proof (dist_range l i).
  destruct (decide (dist' l i + 1 < n)) as [|Hge]; [done|exfalso].
  destruct (walk_home l i (Z.to_nat ((i - q) mod n)) Hrh Hi) as [Ho _].
  { pose proof (mod_range n n_ge_2 (i - q)). lia. }
  apply Ho. rewrite Z2Nat.id by (apply mod_range; auto).
  erewrite at_mod; [exact Hq|].
  rewrite Zminus_mod_idemp_r. f_equal. lia.
Qed.

(** ** Lookup *)
Lemma find_loop_step fuel l key p d :
  find_loop (S fuel) mask shift l key (p mod n) d =
  if is_empty_slot (at' l p) then Some None
  else if c_key (at' l p) =? key then Some (Some (p mod n))
  else if dist' l p <? d then Some None
  else find_loop fuel mask shift l key ((p + 1) mod n) (d ⊞ 1).
Proof. cbn [find_loop]. fold (at' l p). by rewrite probe_distance_dist, next_slot_mod. Qed.

Lemma is_empty_slot_true c : is_empty_slot c = true <-> c_state c = kChunkEmpty.
Proof. apply bool_decide_eq_true. Qed.
Lemma is_empty_slot_false c : is_empty_slot c = false <-> c_state c <> kChunkEmpty.
Proof. apply bool_decide_eq_false. Qed.

Lemma dist_add h (d : Z) : 0 <= d < n -> (h + d - h) mod n = d.
Proof. intros. replace (h + d - h) with d by lia. by apply mod_id. Qed.

Lemma small_u64 d : 0 <= d <= n -> u64 d = d.
Proof.
  intros. apply u64_small. pose proof (geo_size : 3 <= n < 2 ^ 58). unfold is_u64.
  change (2 ^ 58) with 288230376151711744 in *. rewrite pow2_64. lia.
Qed.

(** A key that is present is found at its slot.  [d] counts the steps already
    taken from home. *)
Lemma find_loop_present fuel l key i d :
  robin_hood n shift l -> occ l i -> c_key (at' l i) = key ->
  (forall j, occ l j -> c_key (at' l j) = key -> j mod n = i mod n) ->
  0 <= d <= dist' l i -> dist' l i - d < Z.of_nat fuel ->
  find_loop fuel mask shift l key ((i - dist' l i + d) mod n) d = Some (Some (i mod n)).
Proof.
  intros Hrh Hi Hkey Huniq. revert d.
  induction fuel as [|fuel IH]; intros d Hd Hf; [lia|].
  rewrite find_loop_step.
  destruct (walk_home l i (Z.to_nat (dist' l i - d)) Hrh Hi) as [Ho Hdd]; [lia|].
  rewrite !Z2Nat.id in * by lia.
  replace (i - (dist' l i - d)) with (i - dist' l i + d) in * by lia.
  rewrite (proj2 (is_empty_slot_false _) Ho).
  destruct (Z.eqb_spec (c_key (at' l (i - dist' l i + d))) key) as [E|E].
  { by rewrite (Huniq _ Ho E). }
  destruct (Z.ltb_spec (dist' l (i - dist' l i + d)) d); [lia|].
  assert (d <> dist' l i).
  { intros ->. apply E. rewrite <- Hkey. f_equal. apply at_mod. f_equal. lia. }
  pose proof (dist_range l i).
  rewrite (small_u64 (d + 1)) by lia.
  replace (i - dist' l i + d + 1) with (i - dist' l i + (d + 1)) by lia.
  apply IH; lia.
Qed.

(** A key that is absent is not found; the walk ends at a free slot at the
    latest. *)
Lemma find_loop_absent fuel l key p d q :
  (forall j, occ l j -> c_key (at' l j) <> key) ->
  c_state (at' l q) = kChunkEmpty -> (q - p) mod n < Z.of_nat fuel ->
  find_loop fuel mask shift l key (p mod n) d = Some None.
Proof.
  intros Habs Hq. revert p d. induction fuel as [|fuel IH]; intros p d Hf.
  { pose proof (mod_range n n_ge_2 (q - p)). lia. }
  rewrite find_loop_step.
  destruct (is_empty_slot (at' l p)) eqn:E; [done|].
  apply is_empty_slot_false in E.
  destruct (Z.eqb_spec (c_key (at' l p)) key) as [E'|_]; [by apply Habs in E'|].
  destruct (_ <? d); [done|]. apply IH.
  assert ((q - p) mod n <> 0) as Hne.
  { intros H0. apply E. rewrite <- Hq. f_equal. apply at_mod, mod_sub_0; auto. }
  rewrite mod_ahead by auto. lia.
Qed.

(** ** Placement *)

Definition contents l : list Chunk := filter (fun c => c_state c <> kChunkEmpty) l.

Lemma at_lookup l p : sized n l -> l !! Z.to_nat (p mod n) = Some (at' l p).
Proof.
  intros Hs. unfold at_, slot_at. apply list_lookup_lookup_total_lt.
  pose proof (mod_range n n_ge_2 p). unfold sized in Hs. lia.
Qed.

Lemma contents_set l p c :
  sized n l ->
  (if decide (occ l p) then [at' l p] else []) ++ contents (slot_set l (p mod n) c) ≡ₚ
  (if decide (c_state c <> kChunkEmpty) then [c] else []) ++ contents l.
Proof.
  intros Hs.
  exact (filter_insert_perm (fun c => c_state c <> kChunkEmpty) l _ _ c (at_lookup l p Hs)).
Qed.

Lemma contents_fill l p c :
  sized n l -> c_state (at' l p) = kChunkEmpty -> c_state c <> kChunkEmpty ->
  contents (slot_set l (p mod n) c) ≡ₚ c :: contents l.
Proof.
  intros Hs Hp Hc. pose proof (contents_set l p c Hs) as H.
  rewrite decide_False in H by (intros Ho; by apply Ho).
  by rewrite decide_True in H.
Qed.

Lemma contents_swap l p c :
  sized n l -> occ l p -> c_state c <> kChunkEmpty ->
  at' l p :: contents (slot_set l (p mod n) c) ≡ₚ c :: contents l.
Proof.
  intros Hs Hp Hc. pose proof (contents_set l p c Hs) as H.
  by rewrite !decide_True in H.
Qed.

Lemma contents_clear l p :
  sized n l -> occ l p ->
  at' l p :: contents (slot_set l (p mod n) kEmptySlot) ≡ₚ contents l.
Proof.
  intros Hs Hp. pose proof (contents_set l p kEmptySlot Hs) as H.
  rewrite decide_True in H by done.
  by rewrite decide_False in H by (intros Ho; by apply Ho).
Qed.

(** [pending l rec p d]: [rec] is carried to slot [p], [d] steps from its
    home, without having passed a record it should have displaced. *)
Definition pending l rec p d : Prop :=
  d = (p - home shift rec) mod n /\
  (d = 0 \/ (occ l (p - 1) /\ d <= dist' l (p - 1) + 1)).

Lemma pred_ne p : (p - 1) mod n <> p mod n.
Proof. intros E. apply (succ_ne (p - 1)). by replace (p - 1 + 1) with p by lia. Qed.

Lemma dist_set_eq l p c :
  sized n l -> dist' (slot_set l (p mod n) c) p = (p - home shift c) mod n.
Proof. intros. unfold dist. by rewrite at_set_eq. Qed.

(** Writing the carried record keeps the invariant when the record that was
    there, if any, was closer to its home. *)
Lemma robin_hood_write l rec p d :
  sized n l -> robin_hood n shift l -> c_state rec <> kChunkEmpty ->
  pending l rec p d -> (occ l p -> dist' l p <= d) ->
  robin_hood n shift (slot_set l (p mod n) rec).
Proof.
  intros Hs Hrh Hrec [Hd Hpend] Hcur.
  apply robin_hood_set; [by intros i _ _|..]; intros Ho Hpos.
  - replace (p - 1 + 1) with p in * by lia.
    rewrite dist_set_eq in * by done. rewrite <- Hd in *.
    rewrite occ_set_ne, dist_set_ne by apply pred_ne.
    destruct Hpend as [->|Hpend]; [lia|]. exact Hpend.
  - rewrite occ_set_ne in Ho by apply succ_ne.
    rewrite dist_set_ne in * by apply succ_ne.
    rewrite dist_set_eq by done. rewrite <- Hd.
    split; [by unfold occupied; rewrite at_set_eq|].
    destruct (Hrh p Ho Hpos) as [Hop Hle]. specialize (Hcur Hop). lia.
Qed.

Lemma place_loop_step fuel l rec p d mp :
  place_loop (S fuel) mask shift l rec (p mod n) d mp =
  if is_empty_slot (at' l p) then
    Some (slot_set l (p mod n) rec, if mp <? d then d else mp)
  else
    let '(l', rec', d') :=
      if dist' l p <? d then (slot_set l (p mod n) rec, at' l p, dist' l p)
      else (l, rec, d) in
    place_loop fuel mask shift l' rec' ((p + 1) mod n) (d' ⊞ 1)
      (if mp <? d' ⊞ 1 then d' ⊞ 1 else mp).
Proof.
  cbn [place_loop]. fold (at' l p). rewrite probe_distance_dist, next_slot_mod.
  destruct (is_empty_slot (at' l p)); [done|]. by destruct (dist' l p <? d).
Qed.

Lemma place_loop_spec fuel l rec p d mp q :
  sized n l -> robin_hood n shift l -> c_state rec <> kChunkEmpty ->
  c_state (at' l q) = kChunkEmpty -> pending l rec p d ->
  (q - p) mod n < Z.of_nat fuel ->
  exists l' mp', place_loop fuel mask shift l rec (p mod n) d mp = Some (l', mp') /\
    sized n l' /\ robin_hood n shift l' /\ contents l' ≡ₚ rec :: contents l /\ mp <= mp'.
Proof.
  revert l rec p d mp. induction fuel as [|fuel IH];
    intros l rec p d mp Hs Hrh Hrec Hq Hpend Hf.
  { pose proof (mod_range n n_ge_2 (q - p)). lia. }
  rewrite place_loop_step. destruct (is_empty_slot (at' l p)) eqn:E.
  { apply is_empty_slot_true in E. do 2 eexists. split; [done|].
    split_and!; [by apply sized_set| |by apply contents_fill|by destruct (Z.ltb_spec mp d); lia].
    eapply robin_hood_write; [done..|]. intros Ho. by destruct (Ho E). }
  apply is_empty_slot_false in E.
  assert (dist' l p + 1 < n) as Hlt by (by eapply dist_lt_pred).
  pose proof (dist_range l p) as Hr.
  assert ((q - p) mod n <> 0) as Hne.
  { intros H0. apply E. rewrite <- Hq. f_equal. apply at_mod, mod_sub_0; auto. }
  assert ((q - (p + 1)) mod n < Z.of_nat fuel) as Hf' by (rewrite mod_ahead by auto; lia).
  destruct (Z.ltb_spec (dist' l p) d) as [Hlo|Hhi]; cbn [fst snd].
  - rewrite small_u64 by lia.
    set (l1 := slot_set l (p mod n) rec).
    edestruct (IH l1 (at' l p) (p + 1) (dist' l p + 1)) as (l' & mp' & He & Hs' & Hrh' & Hc & Hmp).
    + by apply sized_set.
    + eapply robin_hood_write; [done..|]. intros _. lia.
    + done.
    + unfold l1. rewrite at_set_ne; [done|]. intros E'. apply E. rewrite <- Hq.
      f_equal. by apply at_mod.
    + split; [unfold dist; rewrite mod_step; [done|auto|exact Hlt]|]. right.
      replace (p + 1 - 1) with p by lia. unfold l1. rewrite dist_set_eq by done.
      destruct Hpend as [<- _]. split; [|lia]. unfold occupied. by rewrite at_set_eq.
    + done.
    + do 2 eexists. split; [exact He|]. split_and!; [done|done| |destruct (mp <? _) eqn:?; bprop; lia].
      rewrite Hc. by apply contents_swap.
  - rewrite small_u64 by (destruct Hpend as [-> _]; pose proof (mod_range n n_ge_2 (p - home shift rec)); lia).
    edestruct (IH l rec (p + 1) (d + 1)) as (l' & mp' & He & Hs' & Hrh' & Hc & Hmp); [done..| |done|].
    + destruct Hpend as [-> _]. split; [rewrite mod_step; [done|auto|lia]|].
      right. replace (p + 1 - 1) with p by lia. split; [done|lia].
    + do 2 eexists. split; [exact He|]. split_and!; [done|done|done|destruct (mp <? _) eqn:?; bprop; lia].
Qed.

(** ** Deletion

    [hole l i b]: the invariant everywhere but around slot [i], whose record
    is to be dropped; [b] bounds how displaced the next record may be. *)
Definition hole l i b : Prop :=
  (forall x, x mod n <> i mod n -> (x + 1) mod n <> i mod n -> robin_hood_at n shift l x) /\
  (b = 0 \/ (occ l (i - 1) /\ b <= dist' l (i - 1) + 1)) /\
  (occ l (i + 1) -> 0 < dist' l (i + 1) -> dist' l (i + 1) <= b + 1).

Lemma robin_hood_hole l i : robin_hood n shift l -> occ l i -> hole l i (dist' l i).
Proof.
  intros Hrh Hi. pose proof (dist_range l i). split_and!; [by intros x _ _| |].
  - destruct (decide (dist' l i = 0)); [by left|right].
    specialize (Hrh (i - 1)). unfold robin_hood_at in Hrh.
    replace (i - 1 + 1) with i in Hrh by lia. apply Hrh; [done|lia].
  - intros Ho Hd. by apply Hrh.
Qed.

(** Filling the hole from its right neighbour moves the hole one step on. *)
Lemma hole_shift l i b :
  sized n l -> hole l i b -> occ l (i + 1) -> 0 < dist' l (i + 1) ->
  hole (slot_set l (i mod n) (at' l (i + 1))) (i + 1) (dist' l (i + 1)).
Proof.
  intros Hs (Ho & Hpre & Hpost) Hj Hd.
  specialize (Hpost Hj Hd).
  assert (dist' (slot_set l (i mod n) (at' l (i + 1))) i = dist' l (i + 1) - 1) as Hdi.
  { rewrite dist_set_eq by done. by rewrite mod_unstep by auto. }
  split_and!.
  - intros x Hx1 Hx2. destruct (decide ((x + 1) mod n = i mod n)) as [E|E].
    + intros Hox Hdx. rewrite (dist_mod _ _ _ E), Hdi in *.
      assert (x mod n = (i - 1) mod n) as Ex.
      { replace x with (x + 1 - 1) by lia.
        rewrite <- (Zminus_mod_idemp_l (x + 1)), E. apply Zminus_mod_idemp_l. }
      assert (x mod n <> i mod n) as Hxi by (rewrite Ex; apply pred_ne).
      rewrite occ_set_ne, dist_set_ne by done. rewrite (dist_mod l _ _ Ex).
      destruct Hpre as [->|[Hop Hb]]; [lia|].
      split; [by eapply occ_mod|lia].
    + assert (x mod n <> i mod n) as Hxi.
      { intros E'. apply Hx2. rewrite <- (mod_add_mod n x), <- (mod_add_mod n i). by rewrite E'. }
      unfold robin_hood_at. rewrite !occ_set_ne, !dist_set_ne by done. by apply Ho.
  - right. replace (i + 1 - 1) with i by lia. rewrite Hdi. split; [|lia].
    unfold occupied. by rewrite at_set_eq.
  - rewrite occ_set_ne, dist_set_ne by apply succ2_ne.
    intros Ho2 Hd2. apply Ho; [apply succ_ne|apply succ2_ne|done|done].
Qed.

Lemma erase_loop_step fuel l i :
  erase_loop (S fuel) mask shift l (i mod n) =
  if is_empty_slot (at' l (i + 1)) then Some (l, i mod n)
  else if dist' l (i + 1) =? 0 then Some (l, i mod n)
  else erase_loop fuel mask shift (slot_set l (i mod n) (at' l (i + 1))) ((i + 1) mod n).
Proof.
  cbn [erase_loop]. rewrite next_slot_mod, probe_distance_dist. done.
Qed.

Lemma erase_stop l i b :
  sized n l -> hole l i b -> (occ l (i + 1) -> dist' l (i + 1) = 0) ->
  robin_hood n shift (slot_set l (i mod n) kEmptySlot).
Proof.
  intros Hs (Ho & _ & _) Hstop. apply robin_hood_set; [done|..]; intros Hox Hdx.
  - replace (i - 1 + 1) with i in * by lia. exfalso. apply Hox. by rewrite at_set_eq.
  - rewrite occ_set_ne in Hox by apply succ_ne. rewrite dist_set_ne in Hdx by apply succ_ne.
    specialize (Hstop Hox). lia.
Qed.

Lemma erase_loop_spec fuel l i b q :
  sized n l -> occ l i -> hole l i b -> c_state (at' l q) = kChunkEmpty ->
  (q - (i + 1)) mod n < Z.of_nat fuel ->
  exists l' i', erase_loop fuel mask shift l (i mod n) = Some (l', i') /\
    let l'' := slot_set l' i' kEmptySlot in
    sized n l'' /\ robin_hood n shift l'' /\ at' l i :: contents l'' ≡ₚ contents l.
Proof.
  revert l i b. induction fuel as [|fuel IH]; intros l i b Hs Hi Hh Hq Hf.
  { pose proof (mod_range n n_ge_2 (q - (i + 1))). lia. }
  assert ((occ l (i + 1) -> dist' l (i + 1) = 0) ->
    let l'' := slot_set l (i mod n) kEmptySlot in
    sized n l'' /\ robin_hood n shift l'' /\ at' l i :: contents l'' ≡ₚ contents l) as Hdone.
  { intros Hstop. split_and!; [by apply sized_set|by eapply erase_stop|by apply contents_clear]. }
  rewrite erase_loop_step. destruct (is_empty_slot (at' l (i + 1))) eqn:E.
  { apply is_empty_slot_true in E. do 2 eexists. split; [done|]. apply Hdone.
    intros Ho. by destruct (Ho E). }
  apply is_empty_slot_false in E.
  destruct (Z.eqb_spec (dist' l (i + 1)) 0) as [E0|E0].
  { do 2 eexists. split; [done|]. by apply Hdone. }
  pose proof (dist_range l (i + 1)).
  set (l1 := slot_set l (i mod n) (at' l (i + 1))).
  assert (at' l1 (i + 1) = at' l (i + 1)) as Hj by apply at_set_ne, succ_ne.
  edestruct (IH l1 (i + 1) (dist' l (i + 1))) as (l' & i' & He & Hs' & Hrh' & Hc).
  - by apply sized_set.
  - unfold occupied. by rewrite Hj.
  - apply (hole_shift l i b); [done..|lia].
  - unfold l1. rewrite at_set_ne; [done|]. intros E'.
    apply Hi. rewrite <- Hq. f_equal. by apply at_mod.
  - rewrite mod_ahead; [lia|auto|]. intros H0. apply E. rewrite <- Hq. f_equal.
    apply at_mod, mod_sub_0; auto.
  - do 2 eexists. split; [exact He|]. split_and!; [done|done|].
    apply (Permutation_cons_inv (a := at' l (i + 1))).
    rewrite <- (contents_swap l i (at' l (i + 1)) Hs Hi E). fold l1.
    rewrite <- Hc, Hj. apply Permutation_swap.
Qed.
End RobinHood.
