(* ===== verification/ChunkTableSpec.v ===== *)
(** * The chunk table as a finite map

    The well-formedness invariant of the table, its abstraction to a map from
    pointers to records, and the effect of every operation on that map. *)

From S2P Require Import Prelude ChunkTable ChunkTableProofs.

(** ** Lists with distinct keys *)
Lemma NoDup_filter_index {A B} (P : A -> Prop) `{!forall a, Decision (P a)} (f : A -> B)
    (l : list A) (i j : nat) a b :
  NoDup (f <$> filter P l) -> l !! i = Some a -> l !! j = Some b ->
  P a -> P b -> f a = f b -> i = j.
Proof.
  revert i j. induction l as [|x l IH]; intros i j Hnd Hi Hj Ha Hb E; [done|].
  assert (forall y m, l !! m = Some y -> P y -> f y ∈ f <$> filter P l) as Hin.
  { intros y m Hy Hp. apply list_elem_of_fmap. exists y. split; [done|].
    apply list_elem_of_filter. split; [done|]. by eapply list_elem_of_lookup_2. }
  destruct i as [|i], j as [|j]; cbn in Hi, Hj; simplify_eq.
  - done.
  - rewrite filter_cons, decide_True in Hnd by done. cbn in Hnd.
    apply NoDup_cons in Hnd as [Hx _]. destruct Hx. rewrite E. by eapply Hin.
  - rewrite filter_cons, decide_True in Hnd by done. cbn in Hnd.
    apply NoDup_cons in Hnd as [Hx _]. destruct Hx. rewrite <- E. by eapply Hin.
  - f_equal. eapply IH; [|done..]. rewrite filter_cons in Hnd.
    case_decide; [|done]. cbn in Hnd. by apply NoDup_cons in Hnd as [_ ?].
Qed.

Lemma filter_short_witness {A} (P : A -> Prop) `{!forall a, Decision (P a)} (l : list A) :
  (length (filter P l) < length l)%nat -> exists i a, l !! i = Some a /\ ~ P a.
Proof.
  induction l as [|x l IH]; [cbn; lia|]. rewrite filter_cons. intros Hlt.
  case_decide as Hx; [|by exists 0%nat, x].
  destruct IH as (i & a & Hi & Ha); [cbn in Hlt; lia|]. by exists (S i), a.
Qed.

(** ** Well-formed tables *)

(** The part of the invariant the probe loops need. *)
Record table_ok (t : ChunkTable) : Prop := {
  ok_geo : exists k, 4 <= k <= 57 /\ capacity t = 2 ^ k /\
                     mask_ t = 2 ^ k ⊟ 1 /\ shift_ t = shift_of (2 ^ k);
  ok_rh : robin_hood (capacity t) (shift_ t) (slots_ t);
  ok_nodup : NoDup (c_key <$> contents (slots_ t));
  ok_nonnull : Forall (fun c => c_key c <> 0) (contents (slots_ t));
  ok_room : Z.of_nat (length (contents (slots_ t))) < capacity t
}.

(** The eviction ring is allocated exactly when a cap is set. *)
Definition fifo_ok (t : ChunkTable) : Prop :=
  let len := Z.of_nat (length (freed_fifo_ t)) in
  (max_entries_ t = 0 /\ freed_fifo_ t = []) \/
  (0 < max_entries_ t /\ len = max_entries_ t + 1 /\ len < 2 ^ 64 /\
   0 <= freed_head_ t < len /\ 0 <= freed_tail_ t < len).

Record wf (t : ChunkTable) : Prop := {
  wf_table : table_ok t;
  wf_size : size_ t = Z.of_nat (length (contents (slots_ t)));
  wf_load : size_ t * kLoadDenominator <= capacity t * kLoadNumerator;
  wf_fifo : fifo_ok t
}.

(** The map a table represents. *)
Definition entries (l : list Chunk) : list (Z * Chunk) := (fun c => (c_key c, c)) <$> l.
Definition abs (t : ChunkTable) : gmap Z Chunk := list_to_map (entries (contents (slots_ t))).

Lemma entries_keys l : (entries l).*1 = c_key <$> l.
Proof. unfold entries. rewrite <- list_fmap_compose. done. Qed.

Lemma table_geometry t : table_ok t -> Geometry (capacity t) (mask_ t) (shift_ t).
Proof.
  intros H. destruct (ok_geo t H) as (k & Hk & -> & -> & ->). by apply geometry_pow2.
Qed.
#[export] Hint Resolve table_geometry : typeclass_instances.

Lemma at_capacity t i :
  0 <= i < capacity t -> at_ (capacity t) (slots_ t) i = slot_at (slots_ t) i.
Proof. intros. unfold at_. by rewrite Z.mod_small. Qed.

Lemma slot_lookup t i :
  0 <= i < capacity t -> slots_ t !! Z.to_nat i = Some (slot_at (slots_ t) i).
Proof.
  intros Hi. unfold slot_at. apply list_lookup_lookup_total_lt. unfold capacity in Hi. lia.
Qed.

Lemma lookup_slot t (i : nat) c :
  slots_ t !! i = Some c -> 0 <= Z.of_nat i < capacity t /\ slot_at (slots_ t) (Z.of_nat i) = c.
Proof.
  intros Hi. pose proof (lookup_lt_Some _ _ _ Hi). split; [unfold capacity; lia|].
  unfold slot_at. rewrite Nat2Z.id. by apply list_lookup_total_correct.
Qed.

Lemma elem_of_contents c l : c ∈ contents l <-> c_state c <> kChunkEmpty /\ c ∈ l.
Proof. exact (list_elem_of_filter (fun c => c_state c <> kChunkEmpty) l c). Qed.

(** A free slot exists. *)
Lemma free_slot t :
  table_ok t -> exists q, 0 <= q < capacity t /\
    c_state (at_ (capacity t) (slots_ t) q) = kChunkEmpty.
Proof.
  intros Hok. pose proof (ok_room t Hok) as Hr.
  destruct (filter_short_witness (fun c => c_state c <> kChunkEmpty) (slots_ t))
    as (i & a & Hi & Ha).
  { unfold capacity, contents in Hr. lia. }
  apply lookup_slot in Hi as [Hr' E]. exists (Z.of_nat i). split; [done|].
  rewrite at_capacity, E by done. destruct (c_state a) eqn:?; [done|exfalso; apply Ha; done..].
Qed.

(** Two occupied slots with the same key are the same slot. *)
Lemma key_slot_unique t i j :
  table_ok t -> 0 <= i < capacity t -> 0 <= j < capacity t ->
  c_state (slot_at (slots_ t) i) <> kChunkEmpty ->
  c_state (slot_at (slots_ t) j) <> kChunkEmpty ->
  c_key (slot_at (slots_ t) i) = c_key (slot_at (slots_ t) j) -> i = j.
Proof.
  intros Hok Hi Hj Hoi Hoj E.
  pose proof (NoDup_filter_index _ c_key _ _ _ _ _ (ok_nodup t Hok)
    (slot_lookup t i Hi) (slot_lookup t j Hj) Hoi Hoj E). lia.
Qed.

(** The loop of [find] with the fuel the model gives it. *)
Definition find_run (t : ChunkTable) (key : Z) : option (option Z) :=
  find_loop (length (slots_ t)) (mask_ t) (shift_ t) (slots_ t)
    key (ideal_slot (shift_ t) key) 0.

Lemma find_run_present t i :
  table_ok t -> 0 <= i < capacity t -> c_state (slot_at (slots_ t) i) <> kChunkEmpty ->
  find_run t (c_key (slot_at (slots_ t) i)) = Some (Some i).
Proof.
  intros Hok Hi Ho. set (c := slot_at (slots_ t) i). pose proof (table_geometry t Hok) as G.
  unfold find_run.
  pose proof (geo_home (Geometry := G) (c_key c)) as Hh.
  pose proof (dist_range (n := capacity t) (shift := shift_ t) (slots_ t) i) as Hd.
  rewrite <- (at_capacity t i Hi) in Ho.
  pose proof (find_loop_present (length (slots_ t)) (slots_ t) (c_key c) i 0
    (ok_rh t Hok) Ho) as HF.
  rewrite Z.add_0_r in HF.
  replace ((i - dist (capacity t) (shift_ t) (slots_ t) i) mod capacity t)
    with (ideal_slot (shift_ t) (c_key c)) in HF.
  - rewrite HF; [by rewrite Z.mod_small|by rewrite at_capacity| |lia|unfold capacity in *; lia].
    intros j Hoj Ej. unfold occupied, at_ in Hoj, Ej.
    pose proof (geo_size (Geometry := G)) as Hn.
    rewrite (Z.mod_small i) by done. apply (key_slot_unique t); [done| |done|done| |done].
    + apply Z.mod_pos_bound. lia.
    + rewrite at_capacity in Ho by done. exact Ho.
  - unfold dist, home. rewrite Zminus_mod_idemp_r, at_capacity by done. fold c.
    replace (i - (i - _)) with (ideal_slot (shift_ t) (c_key c)) by lia.
    by rewrite Z.mod_small.
Qed.

Lemma find_run_absent t key :
  table_ok t -> key ∉ c_key <$> contents (slots_ t) -> find_run t key = Some None.
Proof.
  intros Hok Habs. pose proof (table_geometry t Hok) as G.
  destruct (free_slot t Hok) as (q & Hq & Eq). unfold find_run.
  pose proof (geo_home (Geometry := G) key) as Hh.
  rewrite <- (Z.mod_small (ideal_slot (shift_ t) key) (capacity t)) by done.
  pose proof (geo_size (Geometry := G)) as Hn.
  eapply (find_loop_absent _ _ _ _ _ q); [|done|].
  - intros j Hoj Ej. apply Habs. apply list_elem_of_fmap.
    exists (at_ (capacity t) (slots_ t) j). split; [done|]. apply elem_of_contents.
    split; [done|]. eapply list_elem_of_lookup_2. apply (slot_lookup t (j mod capacity t)).
    apply Z.mod_pos_bound. lia.
  - pose proof (Z.mod_pos_bound (q - ideal_slot (shift_ t) key) (capacity t)).
    unfold capacity in *. lia.
Qed.

(** Either the key has a slot, and [find] returns it, or it has none. *)
Lemma find_cases t key :
  table_ok t ->
  (exists i, find t key = Some i /\ 0 <= i < capacity t /\
     c_state (slot_at (slots_ t) i) <> kChunkEmpty /\ c_key (slot_at (slots_ t) i) = key) \/
  (find t key = None /\ key ∉ c_key <$> contents (slots_ t)).
Proof.
  intros Hok. pose proof (geo_size (Geometry := table_geometry t Hok)) as Hn.
  destruct (decide (key ∈ c_key <$> contents (slots_ t))) as [Hin|Hout].
  - left. apply list_elem_of_fmap in Hin as (c & -> & Hc).
    pose proof Hc as Hc'. apply elem_of_contents in Hc' as [Ho Hl].
    apply list_elem_of_lookup in Hl as [i Hi]. apply lookup_slot in Hi as [Hi <-].
    exists (Z.of_nat i). split_and!; [|lia..|done|done]. unfold find.
    pose proof (ok_nonnull t Hok) as Hnn. rewrite Forall_forall in Hnn.
    specialize (Hnn _ Hc). destruct (Z.eqb_spec (c_key (slot_at (slots_ t) (Z.of_nat i))) 0); [done|].
    destruct (Z.eqb_spec (capacity t) 0); [lia|]. cbn [orb].
    fold (find_run t (c_key (slot_at (slots_ t) (Z.of_nat i)))).
    by rewrite find_run_present.
  - right. split; [|done]. unfold find.
    destruct ((key =? 0) || (capacity t =? 0)); [done|]. fold (find_run t key).
    by rewrite find_run_absent.
Qed.

Lemma abs_lookup_slot t i :
  table_ok t -> 0 <= i < capacity t -> c_state (slot_at (slots_ t) i) <> kChunkEmpty ->
  abs t !! c_key (slot_at (slots_ t) i) = Some (slot_at (slots_ t) i).
Proof.
  intros Hok Hi Ho. apply elem_of_list_to_map; [rewrite entries_keys; apply Hok|].
  apply list_elem_of_fmap. eexists. split; [done|]. apply elem_of_contents.
  split; [done|]. by eapply list_elem_of_lookup_2, slot_lookup.
Qed.

Lemma abs_lookup_none t key :
  key ∉ c_key <$> contents (slots_ t) -> abs t !! key = None.
Proof. intros H. apply not_elem_of_list_to_map_1. by rewrite entries_keys. Qed.

Lemma abs_Some_key t key c : abs t !! key = Some c -> c_key c = key /\ c ∈ contents (slots_ t).
Proof.
  intros H. apply elem_of_list_to_map_2, list_elem_of_fmap in H as (c' & E & Hc).
  by simplify_eq.
Qed.

(** Lookup is lookup in the map. *)
Lemma lookup_chunk_abs t key : table_ok t -> lookup_chunk t key = abs t !! key.
Proof.
  intros Hok. unfold lookup_chunk.
  destruct (find_cases t key Hok) as [(i & -> & Hi & Ho & <-)|[-> Habs]]; cbn.
  - symmetry. by apply abs_lookup_slot.
  - symmetry. by apply abs_lookup_none.
Qed.

(** ** From contents to maps *)

Definition map_of (L : list Chunk) : gmap Z Chunk := list_to_map (entries L).

Lemma map_of_perm L1 L2 : NoDup (c_key <$> L1) -> L1 ≡ₚ L2 -> map_of L1 = map_of L2.
Proof.
  intros Hnd Hp. apply list_to_map_proper; [by rewrite entries_keys|].
  unfold entries. by rewrite Hp.
Qed.

Lemma map_of_cons c L : map_of (c :: L) = <[c_key c := c]> (map_of L).
Proof. done. Qed.

Lemma map_of_fresh key L : key ∉ c_key <$> L -> map_of L !! key = None.
Proof. intros H. apply not_elem_of_list_to_map_1. by rewrite entries_keys. Qed.

(** Replacing a record by one under the same key. *)
Lemma map_of_replace L L' old c :
  NoDup (c_key <$> L) -> old :: L' ≡ₚ c :: L -> old ∈ L -> c_key c = c_key old ->
  NoDup (c_key <$> L') /\ map_of L' = <[c_key c := c]> (map_of L) /\ length L' = length L.
Proof.
  intros Hnd Hp Hin Ek.
  apply elem_of_Permutation in Hin as [rest HL].
  assert (L' ≡ₚ c :: rest) as HL'.
  { apply (Permutation_cons_inv (a := old)). rewrite Hp, HL. apply Permutation_swap. }
  pose proof (f_equal (fun x => x) Ek). rewrite HL in Hnd. cbn in Hnd.
  assert (NoDup (c_key <$> c :: rest)) as Hnd' by (cbn; by rewrite Ek).
  split_and!.
  - by rewrite HL'.
  - rewrite (map_of_perm L (old :: rest)) by (by rewrite ?HL).
    rewrite (map_of_perm L' (c :: rest)) by (by rewrite ?HL').
    by rewrite !map_of_cons, Ek, insert_insert_eq.
  - by rewrite HL, HL'.
Qed.

(** Removing a record. *)
Lemma map_of_remove L L' old :
  NoDup (c_key <$> L) -> old :: L' ≡ₚ L ->
  NoDup (c_key <$> L') /\ map_of L' = delete (c_key old) (map_of L) /\
  length L = S (length L').
Proof.
  intros Hnd Hp. rewrite <- Hp in Hnd. cbn in Hnd. apply NoDup_cons in Hnd as [Hfresh Hnd].
  split_and!; [done| |by rewrite <- Hp].
  rewrite <- (map_of_perm (old :: L') L) by (try done; cbn; by apply NoDup_cons).
  rewrite map_of_cons, delete_insert_id; [done|]. by apply map_of_fresh.
Qed.

(** ** Updates in place *)
Lemma robin_hood_ext n shift l l' :
  (forall i, c_key (at_ n l' i) = c_key (at_ n l i)) ->
  (forall i, c_state (at_ n l' i) = kChunkEmpty <-> c_state (at_ n l i) = kChunkEmpty) ->
  robin_hood n shift l -> robin_hood n shift l'.
Proof.
  intros Hk Ho Hrh i. specialize (Hrh i).
  unfold robin_hood_at, occupied, dist, home in *. by rewrite !Hk, !Ho.
Qed.

Lemma capacity_with_slots t l : length l = length (slots_ t) -> capacity (with_slots t l) = capacity t.
Proof. unfold capacity. cbn. by intros ->. Qed.

Lemma update_slot_ok t i c :
  table_ok t -> 0 <= i < capacity t -> c_state (slot_at (slots_ t) i) <> kChunkEmpty ->
  c_key c = c_key (slot_at (slots_ t) i) -> c_state c <> kChunkEmpty ->
  let t' := with_slots t (slot_set (slots_ t) i c) in
  table_ok t' /\ abs t' = <[c_key c := c]> (abs t) /\
  length (contents (slots_ t')) = length (contents (slots_ t)).
Proof.
  intros Hok Hi Ho Hk Hc. pose proof (table_geometry t Hok) as G.
  assert (capacity (with_slots t (slot_set (slots_ t) i c)) = capacity t) as Ecap
    by apply capacity_with_slots, slot_set_length.
  assert (sized (capacity t) (slots_ t)) as Hs by done.
  pose proof (contents_swap (n := capacity t) (slots_ t) i c Hs) as Hp.
  unfold occupied in Hp. rewrite (Z.mod_small i), at_capacity in Hp by done.
  specialize (Hp Ho Hc).
  assert (slot_at (slots_ t) i ∈ contents (slots_ t)) as Hin.
  { apply elem_of_contents. split; [done|]. by eapply list_elem_of_lookup_2, slot_lookup. }
  destruct (map_of_replace _ _ _ _ (ok_nodup t Hok) Hp Hin Hk) as (Hnd & Habs & Hlen).
  cbn zeta. split_and!; [|exact Habs|exact Hlen].
  assert (forall j, at_ (capacity t) (slot_set (slots_ t) i c) j =
    if decide (j mod capacity t = i) then c else at_ (capacity t) (slots_ t) j) as Hat.
  { intros j. rewrite <- (Z.mod_small i (capacity t)) at 1 by done. case_decide as E.
    - apply at_set_eq; [done|]. by rewrite (Z.mod_small i).
    - apply at_set_ne. by rewrite (Z.mod_small i). }
  split.
  - rewrite Ecap. apply (ok_geo t Hok).
  - rewrite Ecap. eapply robin_hood_ext; [| |exact (ok_rh t Hok)]; intros j; cbn.
    + rewrite Hat. case_decide as E; [|done]. unfold at_. by rewrite E.
    + rewrite Hat. case_decide as E; [|done]. unfold at_. rewrite E. done.
  - exact Hnd.
  - cbn. pose proof (ok_nonnull t Hok) as Hnn. rewrite Forall_forall in *.
    intros x Hx. assert (x ∈ slot_at (slots_ t) i :: contents (slot_set (slots_ t) i c)) as Hx'
      by (by right).
    rewrite Hp in Hx'. apply elem_of_cons in Hx' as [->|Hx']; [rewrite Hk|]; by apply Hnn.
  - rewrite Ecap. pose proof (ok_room t Hok) as Hr. rewrite <- Hlen in Hr. exact Hr.
Qed.

(** ** Placement and growth *)
Lemma table_ok_eq t t' :
  slots_ t' = slots_ t -> mask_ t' = mask_ t -> shift_ t' = shift_ t ->
  table_ok t -> table_ok t'.
Proof.
  intros E1 E2 E3 [Hg Hr Hn Hk Hm]. unfold capacity in *.
  split; unfold capacity; by rewrite ?E1, ?E2, ?E3.
Qed.

(** The loop of [place] with the fuel the model gives it. *)
Definition place_run (t : ChunkTable) (rec : Chunk) : option (list Chunk * Z) :=
  place_loop (length (slots_ t)) (mask_ t) (shift_ t) (slots_ t) rec
    (ideal_slot (shift_ t) (c_key rec)) 0 (st_max_probe (stats_ t)).

Lemma place_run_spec t rec :
  table_ok t -> c_state rec <> kChunkEmpty ->
  exists l mp, place_run t rec = Some (l, mp) /\
    length l = length (slots_ t) /\ robin_hood (capacity t) (shift_ t) l /\
    contents l ≡ₚ rec :: contents (slots_ t) /\ st_max_probe (stats_ t) <= mp.
Proof.
  intros Hok Hrec. pose proof (table_geometry t Hok) as G.
  destruct (free_slot t Hok) as (q & Hq & Eq).
  pose proof (geo_home (Geometry := G) (c_key rec)) as Hh.
  pose proof (geo_size (Geometry := G)) as Hn.
  destruct (place_loop_spec (length (slots_ t)) (slots_ t) rec (ideal_slot (shift_ t) (c_key rec))
    0 (st_max_probe (stats_ t)) q) as (l & mp & He & Hs & Hrh & Hc & Hmp); [done|apply Hok|done|done| | |].
  - split; [|by left]. unfold home. by rewrite Z.sub_diag.
  - pose proof (Z.mod_pos_bound (q - ideal_slot (shift_ t) (c_key rec)) (capacity t)).
    unfold capacity in *. lia.
  - exists l, mp. rewrite Z.mod_small in He by done. split; [exact He|].
    split_and!; [unfold sized, capacity in Hs; lia|done..].
Qed.

Lemma place_ok t rec :
  table_ok t -> c_state rec <> kChunkEmpty -> c_key rec <> 0 ->
  c_key rec ∉ c_key <$> contents (slots_ t) ->
  Z.of_nat (length (contents (slots_ t))) + 1 < capacity t ->
  let t' := place t rec in
  table_ok t' /\ contents (slots_ t') ≡ₚ rec :: contents (slots_ t) /\
  abs t' = <[c_key rec := rec]> (abs t) /\ capacity t' = capacity t.
Proof.
  intros Hok Hrec Hk Hfresh Hroom t'.
  destruct (place_run_spec t rec Hok Hrec) as (l & mp & He & Hl & Hrh & Hc & _).
  assert (slots_ t' = l /\ mask_ t' = mask_ t /\ shift_ t' = shift_ t) as (E1 & E2 & E3).
  { unfold t', place. fold (place_run t rec). by rewrite He. }
  assert (capacity t' = capacity t) as Ecap by (unfold capacity; by rewrite E1, Hl).
  assert (NoDup (c_key <$> contents l)) as Hnd.
  { rewrite Hc. cbn. apply NoDup_cons. split; [done|apply Hok]. }
  split_and!; [|by rewrite E1| |done].
  - split; rewrite ?Ecap, ?E1, ?E2, ?E3; [apply Hok|done|done| |].
    + rewrite Hc. constructor; [done|apply Hok].
    + rewrite Hc. cbn [length]. lia.
  - unfold abs. rewrite E1. fold (map_of (contents l)).
    rewrite (map_of_perm (contents l) (rec :: contents (slots_ t))) by done. done.
Qed.

(** Every field [place] leaves alone. *)
Lemma place_frame t rec :
  size_ (place t rec) = size_ t /\ max_entries_ (place t rec) = max_entries_ t /\
  freed_fifo_ (place t rec) = freed_fifo_ t /\ freed_head_ (place t rec) = freed_head_ t /\
  freed_tail_ (place t rec) = freed_tail_ t.
Proof. unfold place. destruct place_loop as [[? ?]|]; done. Qed.

Lemma contents_cons c L :
  contents (c :: L) = if decide (c_state c = kChunkEmpty) then contents L else c :: contents L.
Proof.
  unfold contents. rewrite filter_cons. destruct (decide (c_state c = kChunkEmpty)) as [E|E].
  - rewrite decide_False; [done|]. intros Hn. by apply Hn.
  - by rewrite decide_True.
Qed.

Lemma contents_replicate m : contents (replicate m kEmptySlot) = [].
Proof. induction m as [|m IH]; [done|]. exact IH. Qed.

Lemma contents_none l : Forall (fun c => c_state c = kChunkEmpty) l -> contents l = [].
Proof.
  induction 1 as [|c l Hc _ IH]; [done|]. by rewrite contents_cons, decide_True.
Qed.

Lemma robin_hood_none n shift l : contents l = [] -> robin_hood n shift l.
Proof.
  intros H i Ho. exfalso.
  assert (at_ n l (i + 1) ∈ contents l) as Hin; [|rewrite H in Hin; by apply elem_of_nil in Hin].
  apply elem_of_contents. split; [done|]. unfold occupied, at_, slot_at in *.
  destruct (l !! Z.to_nat ((i + 1) mod n)) as [c|] eqn:E.
  - rewrite (list_lookup_total_correct _ _ _ E) in *. by eapply list_elem_of_lookup_2.
  - rewrite list_lookup_total_alt, E in Ho. by destruct Ho.
Qed.

(** A table with no records and consistent geometry. *)
Lemma empty_table_ok t k :
  4 <= k <= 57 -> capacity t = 2 ^ k -> mask_ t = 2 ^ k ⊟ 1 -> shift_ t = shift_of (2 ^ k) ->
  contents (slots_ t) = [] -> table_ok t.
Proof.
  intros Hk Hc Hm Hs He. split.
  - by exists k.
  - by apply robin_hood_none.
  - rewrite He. constructor.
  - rewrite He. constructor.
  - rewrite He, Hc. apply Z.pow_pos_nonneg; lia.
Qed.

Lemma round_capacity_pow2 n :
  n <= 2 ^ 57 -> exists k, 4 <= k <= 57 /\ round_capacity n = 2 ^ k.
Proof.
  intros Hn. unfold round_capacity, kMinCapacity. destruct (Z.leb_spec n 16) as [|Hlt].
  { by exists 4. }
  unfold bit_ceil. destruct (Z.leb_spec n 1); [lia|].
  exists (Z.log2_up n). split; [|done]. split.
  - apply (Z.log2_up_le_mono 16 n). lia.
  - rewrite <- (Z.log2_up_pow2 57) by lia. by apply Z.log2_up_le_mono.
Qed.

Lemma round_capacity_ge n : n <= round_capacity n.
Proof.
  unfold round_capacity. destruct (Z.leb_spec n kMinCapacity); [done|]. apply bit_ceil_ge.
Qed.

Definition same_queue (t t' : ChunkTable) : Prop :=
  max_entries_ t' = max_entries_ t /\ freed_fifo_ t' = freed_fifo_ t /\
  freed_head_ t' = freed_head_ t /\ freed_tail_ t' = freed_tail_ t.

Lemma same_queue_fifo_ok t t' : same_queue t t' -> fifo_ok t -> fifo_ok t'.
Proof. unfold same_queue, fifo_ok. by intros (-> & -> & -> & ->). Qed.

Lemma place_all_ok L t :
  table_ok t -> NoDup (c_key <$> contents L ++ contents (slots_ t)) ->
  Forall (fun c => c_key c <> 0) (contents L) ->
  Z.of_nat (length (contents L ++ contents (slots_ t))) < capacity t ->
  let t' := foldl (fun t c => if is_empty_slot c then t else place t c) t L in
  table_ok t' /\ contents (slots_ t') ≡ₚ contents L ++ contents (slots_ t) /\
  capacity t' = capacity t /\ size_ t' = size_ t /\ same_queue t t'.
Proof.
  revert t. induction L as [|c L IH]; intros t Hok Hnd Hnn Hroom t'; subst t'; cbn [foldl].
  { by split_and!. }
  rewrite contents_cons in *.
  unfold is_empty_slot. destruct (decide (c_state c = kChunkEmpty)) as [E|E].
  { rewrite bool_decide_eq_true_2 by done. by apply IH. }
  rewrite bool_decide_eq_false_2 by done.
  cbn [app fmap list_fmap length] in Hnd, Hroom. apply Forall_cons in Hnn as [Hc0 Hnn].
  apply NoDup_cons in Hnd as [Hfresh Hnd].
  rewrite fmap_app, elem_of_app, length_app in *.
  destruct (place_ok t c Hok E Hc0) as (Hok' & Hp & _ & Hcap).
  { intros Hin. apply Hfresh. by right. }
  { lia. }
  destruct (place_frame t c) as (Hsz & Hq).
  destruct (IH (place t c)) as (Hok2 & Hp2 & Hcap2 & Hsz2 & Hq2); [done| |done| |].
  - rewrite Hp. rewrite fmap_app. cbn [fmap list_fmap].
    rewrite <- Permutation_middle. apply NoDup_cons. by rewrite elem_of_app.
  - rewrite Hp, Hcap, length_app. cbn [length]. lia.
  - split_and!; [done| |by etrans|by etrans|].
    + rewrite Hp2, Hp. symmetry. apply Permutation_middle.
    + unfold same_queue in *. destruct Hq as (<- & <- & <- & <-). exact Hq2.
Qed.

Lemma capacity_replicate m a b c d e f g h :
  0 <= m -> capacity (mkTable (replicate (Z.to_nat m) kEmptySlot) a b c d e f g h) = m.
Proof. intros. unfold capacity. cbn. rewrite length_replicate. lia. Qed.

(** Rehashing keeps every record. *)
Lemma grow_to_ok t nc :
  table_ok t -> nc <= 2 ^ 57 ->
  let '(t', ok) := grow_to t nc in
  ok = true /\ table_ok t' /\ contents (slots_ t') ≡ₚ contents (slots_ t) /\ abs t' = abs t /\
  capacity t' = Z.max (capacity t) (round_capacity nc) /\
  size_ t' = size_ t /\ same_queue t t'.
Proof.
  intros Hok Hnc. unfold grow_to.
  destruct (Z.leb_spec (round_capacity nc) (capacity t)) as [Hle|Hgt].
  { split_and!; try done. lia. }
  destruct (round_capacity_pow2 nc Hnc) as (k & Hk & Ek). rewrite Ek in *.
  assert (0 < 2 ^ k) by (apply Z.pow_pos_nonneg; lia).
  set (fresh := mkTable _ _ _ _ _ _ _ _ _).
  assert (contents (slots_ fresh) = []) as Hce by apply contents_replicate.
  assert (capacity fresh = 2 ^ k) as Hcf by (apply capacity_replicate; lia).
  destruct (place_all_ok (slots_ t) fresh) as (Hok' & Hp & Hcap & Hsz & Hq).
  - by apply (empty_table_ok _ k).
  - rewrite Hce, app_nil_r. apply Hok.
  - apply Hok.
  - rewrite Hce, app_nil_r, Hcf. pose proof (ok_room t Hok). lia.
  - rewrite Hce, app_nil_r in Hp.
    split_and!; [done|by eapply table_ok_eq; [..|exact Hok']|done| | |done|exact Hq].
    + apply map_of_perm; [|done]. apply Hok'.
    + change (capacity (with_stats ?t _)) with (capacity t).
      rewrite <- Hcf in Hgt |- *. transitivity (capacity fresh); [exact Hcap|lia].
Qed.

(** ** Deletion *)

Definition erase_run (t : ChunkTable) (i : Z) : option (list Chunk * Z) :=
  erase_loop (length (slots_ t)) (mask_ t) (shift_ t) (slots_ t) i.

Lemma erase_run_spec t i :
  table_ok t -> 0 <= i < capacity t -> c_state (slot_at (slots_ t) i) <> kChunkEmpty ->
  exists l j, erase_run t i = Some (l, j) /\
    let l' := slot_set l j kEmptySlot in
    length l' = length (slots_ t) /\ robin_hood (capacity t) (shift_ t) l' /\
    slot_at (slots_ t) i :: contents l' ≡ₚ contents (slots_ t).
Proof.
  intros Hok Hi Ho. pose proof (table_geometry t Hok) as G.
  destruct (free_slot t Hok) as (q & Hq & Eq).
  rewrite <- (at_capacity t i Hi) in Ho.
  pose proof (robin_hood_hole (slots_ t) i (ok_rh t Hok) Ho) as Hh.
  pose proof (geo_size (Geometry := G)) as Hn.
  destruct (erase_loop_spec (n := capacity t) (length (slots_ t)) (slots_ t) i _ q eq_refl Ho Hh Eq)
    as (l & j & He & Hs & Hrh & Hc).
  { pose proof (Z.mod_pos_bound (q - (i + 1)) (capacity t)). unfold capacity in *. lia. }
  rewrite Z.mod_small in He by done. rewrite at_capacity in Hc by done.
  exists l, j. split; [exact He|]. split_and!; [|done..].
  unfold sized, capacity in Hs. lia.
Qed.

Lemma wf_capacity t : wf t -> 16 <= capacity t <= 2 ^ 57.
Proof.
  intros Hwf. destruct (ok_geo t (wf_table t Hwf)) as (k & Hk & -> & _).
  split; [apply (Z.pow_le_mono_r 2 4 k)|apply (Z.pow_le_mono_r 2 k 57)]; lia.
Qed.

(** Size figures stay far from the ends of the machine range. *)
Lemma wf_size_range t : wf t -> 0 <= size_ t < capacity t.
Proof.
  intros Hwf. pose proof (wf_capacity t Hwf). rewrite (wf_size t Hwf).
  pose proof (ok_room t (wf_table t Hwf)). lia.
Qed.

Lemma u64_below x : 0 <= x <= 2 ^ 58 -> u64 x = x.
Proof. intros. apply u64_small. unfold is_u64. rewrite pow2_64. change (2 ^ 58) with 288230376151711744 in *. lia. Qed.

Lemma erase_ok t key :
  wf t ->
  let '(t', ok) := erase t key in
  (ok = false /\ t' = t /\ abs t !! key = None) \/
  (ok = true /\ wf t' /\ is_Some (abs t !! key) /\ abs t' = delete key (abs t) /\
   size_ t' = size_ t - 1 /\ capacity t' = capacity t /\ same_queue t t').
Proof.
  intros Hwf. pose proof (wf_table t Hwf) as Hok. unfold erase.
  destruct (find_cases t key Hok) as [(i & -> & Hi & Ho & Ek)|[-> Habs]];
    [|left; split_and!; [done..|by apply abs_lookup_none]].
  fold (erase_run t i).
  destruct (erase_run_spec t i Hok Hi Ho) as (l & j & -> & Hl & Hrh & Hc). right.
  destruct (map_of_remove _ _ _ (ok_nodup t Hok) Hc) as (Hnd & Hmap & Hlen).
  set (t' := with_stats _ _).
  assert (slots_ t' = slot_set l j kEmptySlot) as Es by done.
  assert (capacity t' = capacity t) as Ecap by (unfold capacity; by rewrite Es, Hl).
  assert (size_ t' = size_ t - 1) as Esz.
  { cbn. pose proof (wf_size_range t Hwf). pose proof (wf_capacity t Hwf) as [_ Hc57].
    pose proof (wf_size t Hwf). rewrite Hlen in *.
    change (2 ^ 57) with 144115188075855872 in *. apply u64_below.
    change (2 ^ 58) with 288230376151711744. lia. }
  split_and!; [done| |rewrite <- Ek, abs_lookup_slot by done; by eexists| |done|done|done].
  - pose proof (wf_size t Hwf) as Hsz. split.
    + split; rewrite ?Ecap, ?Es; [apply Hok|done|done| |].
      * pose proof (ok_nonnull t Hok) as Hnn. rewrite <- Hc in Hnn. by apply Forall_cons in Hnn as [_ ?].
      * pose proof (ok_room t Hok). lia.
    + rewrite Esz, Es, Hsz. lia.
    + rewrite Esz, Ecap. pose proof (wf_load t Hwf). unfold kLoadDenominator, kLoadNumerator in *. lia.
    + exact (wf_fifo t Hwf).
  - unfold abs. rewrite Es. rewrite <- Ek. exact Hmap.
Qed.

(** ** The eviction queue *)

Definition same_table (t t' : ChunkTable) : Prop :=
  slots_ t' = slots_ t /\ size_ t' = size_ t /\ mask_ t' = mask_ t /\
  shift_ t' = shift_ t /\ max_entries_ t' = max_entries_ t.

#[export] Instance same_table_refl : Reflexive same_table.
Proof. by intros t. Qed.
#[export] Instance same_table_trans : Transitive same_table.
Proof. intros a b c (?&?&?&?&?) (?&?&?&?&?). split_and!; congruence. Qed.

(** Well-formedness looks at the queue only through [fifo_ok]. *)
Lemma wf_requeue t t' :
  slots_ t' = slots_ t -> size_ t' = size_ t -> mask_ t' = mask_ t -> shift_ t' = shift_ t ->
  fifo_ok t' -> wf t -> wf t'.
Proof.
  intros E1 E2 E3 E4 Hf [Hok Hs Hl _].
  split; [by eapply table_ok_eq|..]; unfold capacity; rewrite ?E1, ?E2; done.
Qed.

Lemma same_table_wf t t' : same_table t t' -> fifo_ok t' -> wf t -> wf t'.
Proof. intros (E1 & E2 & E3 & E4 & E5). by apply wf_requeue. Qed.

Lemma same_table_abs t t' : same_table t t' -> abs t' = abs t.
Proof. intros (E & _). unfold abs. by rewrite E. Qed.

Lemma push_freed_same t key : same_table t (push_freed t key).
Proof. unfold push_freed. by destruct (_ =? 0). Qed.

Lemma push_freed_fifo_ok t key : fifo_ok t -> fifo_ok (push_freed t key).
Proof.
  unfold fifo_ok, push_freed. cbn zeta. intros [[Hm Hf]|(Hm & Hl & Hb & Hh & Ht)].
  { left. by rewrite Hf. }
  right. destruct (Z.eqb_spec (Z.of_nat (length (freed_fifo_ t))) 0); [lia|].
  cbn [with_fifo freed_fifo_ freed_head_ freed_tail_ max_entries_]. rewrite length_insert.
  pose proof (Z.mod_pos_bound (freed_tail_ t ⊞ 1) (Z.of_nat (length (freed_fifo_ t)))).
  pose proof (Z.mod_pos_bound (freed_head_ t ⊞ 1) (Z.of_nat (length (freed_fifo_ t)))).
  split_and!; try done; try lia; destruct (_ =? freed_head_ t); lia.
Qed.

(** Pushing into a queue with room to spare appends. *)
Lemma push_all t (ks : list Z) (i : nat) :
  fifo_ok t -> freed_head_ t = 0 -> freed_tail_ t = Z.of_nat i ->
  (i + length ks < length (freed_fifo_ t))%nat ->
  let t' := foldl push_freed t ks in
  same_table t t' /\ fifo_ok t' /\ freed_head_ t' = 0 /\
  freed_tail_ t' = Z.of_nat (i + length ks) /\
  length (freed_fifo_ t') = length (freed_fifo_ t) /\
  (forall j, (j < i)%nat -> freed_fifo_ t' !! j = freed_fifo_ t !! j) /\
  (forall j, (j < length ks)%nat -> freed_fifo_ t' !! (i + j)%nat = ks !! j).
Proof.
  revert t i. induction ks as [|x ks IH]; intros t i Hf Hh Ht Hroom t'; subst t'; cbn [foldl length] in *.
  { rewrite Nat.add_0_r. split_and!; try done. intros; lia. }
  set (t1 := push_freed t x).
  assert (Z.of_nat (length (freed_fifo_ t)) < 2 ^ 64) as Hb.
  { destruct Hf as [[_ E]|(_ & _ & ? & _)]; [rewrite E in Hroom; cbn in Hroom; lia|done]. }
  assert (freed_fifo_ t1 = <[i := x]> (freed_fifo_ t) /\ freed_head_ t1 = 0 /\
          freed_tail_ t1 = Z.of_nat (S i)) as (Ef & Eh & Et).
  { unfold t1, push_freed. destruct (Z.eqb_spec (Z.of_nat (length (freed_fifo_ t))) 0); [lia|].
    cbn. rewrite Ht, Hh. rewrite (u64_small (Z.of_nat i + 1)) by (unfold is_u64; lia).
    rewrite Z.mod_small by lia. destruct (Z.eqb_spec (Z.of_nat i + 1) 0); [lia|].
    rewrite Nat2Z.id. split_and!; [done..|lia]. }
  destruct (IH t1 (S i)) as (Hs & Hf' & Hh' & Ht' & Hl & Hlo & Hhi);
    [by apply push_freed_fifo_ok|done|done|rewrite Ef, length_insert; lia|].
  rewrite Ef, length_insert in Hl.
  split_and!; [|done|done|by rewrite Ht'; f_equal; lia|done| |].
  - etrans; [apply (push_freed_same t x)|]. exact Hs.
  - intros j Hj. rewrite Hlo, Ef by lia. by rewrite list_lookup_insert_ne by lia.
  - intros [|j] Hj.
    + rewrite Nat.add_0_r, Hlo, Ef by lia. rewrite list_lookup_insert_eq by lia. done.
    + replace (i + S j)%nat with (S i + j)%nat by lia. rewrite Hhi by lia. done.
Qed.

(** What one round of eviction may do: drop exactly one freed record. *)
Definition evicts (t t' : ChunkTable) (key : Z) : Prop :=
  wf t' /\ (exists c, abs t !! key = Some c /\ c_state c = kChunkFreed) /\
  abs t' = delete key (abs t) /\ size_ t' = size_ t - 1 /\
  capacity t' = capacity t /\ max_entries_ t' = max_entries_ t.

Lemma pop_loop_spec fuel t :
  wf t -> 0 < max_entries_ t ->
  (freed_tail_ t - freed_head_ t) mod Z.of_nat (length (freed_fifo_ t)) < Z.of_nat fuel ->
  exists t' ok, pop_loop fuel t = Some (t', ok) /\
    if ok then exists key, evicts t t' key
    else wf t' /\ same_table t t' /\ freed_fifo_ t' = freed_fifo_ t.
Proof.
  revert t. induction fuel as [|fuel IH]; intros t Hwf Hmax Hf.
  { destruct (wf_fifo t Hwf) as [[? _]|(_ & ? & _)]; [lia|].
    pose proof (Z.mod_pos_bound (freed_tail_ t - freed_head_ t) (Z.of_nat (length (freed_fifo_ t)))). lia. }
  cbn [pop_loop]. destruct (Z.eqb_spec (freed_head_ t) (freed_tail_ t)) as [E|E].
  { do 2 eexists. split; [done|]. by split. }
  set (h' := (freed_head_ t ⊞ 1) mod _). set (t1 := with_fifo t _ h' _).
  set (key := freed_fifo_ t !!! Z.to_nat (freed_head_ t)).
  destruct (wf_fifo t Hwf) as [[? _]|(_ & Hlen & Hb & Hh & Ht)]; [lia|].
  assert (h' = (freed_head_ t + 1) mod Z.of_nat (length (freed_fifo_ t))) as Eh.
  { unfold h'. rewrite u64_small; [done|]. unfold is_u64. lia. }
  assert (same_table t t1) as Hsame by done.
  assert (wf t1) as Hwf1.
  { apply (same_table_wf t); [done| |done]. right.
    unfold t1; cbn. split_and!; try lia;
      pose proof (Z.mod_pos_bound (freed_head_ t ⊞ 1) (Z.of_nat (length (freed_fifo_ t)))); unfold h'; lia. }
  assert ((freed_tail_ t1 - freed_head_ t1) mod Z.of_nat (length (freed_fifo_ t1)) < Z.of_nat fuel) as Hf1.
  { unfold t1. cbn [with_fifo freed_head_ freed_tail_ freed_fifo_]. rewrite Eh, Zminus_mod_idemp_r.
    set (len := Z.of_nat (length (freed_fifo_ t))) in *.
    assert (2 <= len) by lia. rewrite mod_ahead; [lia|done|].
    intros H0. apply mod_sub_0 in H0; [|done]. by rewrite !Z.mod_small in H0 by done. }
  assert (lookup_chunk t1 key = abs t !! key) as El.
  { rewrite lookup_chunk_abs by apply Hwf1. by rewrite (same_table_abs t). }
  assert (exists t' ok, pop_loop fuel t1 = Some (t', ok) /\
    if ok then exists key, evicts t t' key
    else wf t' /\ same_table t t' /\ freed_fifo_ t' = freed_fifo_ t) as Hnext.
  { destruct (IH t1 Hwf1 Hmax Hf1) as (t' & ok & He & Hok). exists t', ok. split; [done|].
    destruct ok; [exact Hok|]. destruct Hok as (? & ? & ?). split_and!; [done|by etrans|done]. }
  rewrite El. destruct (abs t !! key) as [c|] eqn:Ec; [|exact Hnext].
  destruct (decide (c_state c = kChunkFreed)) as [Ef|Ef]; [|exact Hnext].
  do 2 eexists. split; [done|]. exists key.
  pose proof (erase_ok t1 key Hwf1) as He. destruct (erase t1 key) as [t2 ok] eqn:E2. cbn [fst].
  rewrite (same_table_abs t t1 Hsame) in He.
  destruct He as [(_ & _ & He)|(_ & Hwf2 & _ & Habs & Hsz & Hcap & Hq)]; [congruence|].
  split_and!; [|by exists c|exact Habs|done|done|].
  - apply (same_table_wf t2); [done| |done]. exact (wf_fifo t2 Hwf2).
  - destruct Hq as [Hq _]. exact Hq.
Qed.

(** A queue whose head is a freed record always gives one up: that one. *)
Lemma pop_loop_head fuel t c :
  wf t -> freed_head_ t <> freed_tail_ t ->
  abs t !! (freed_fifo_ t !!! Z.to_nat (freed_head_ t)) = Some c -> c_state c = kChunkFreed ->
  exists t', pop_loop (S fuel) t = Some (t', true) /\
    abs t' = delete (freed_fifo_ t !!! Z.to_nat (freed_head_ t)) (abs t).
Proof.
  intros Hwf Hne Hc Hst. cbn [pop_loop].
  destruct (Z.eqb_spec (freed_head_ t) (freed_tail_ t)) as [|_]; [done|].
  set (h' := (freed_head_ t ⊞ 1) mod _). set (t1 := with_fifo t _ h' _).
  set (key := freed_fifo_ t !!! Z.to_nat (freed_head_ t)) in *.
  assert (wf t1) as Hwf1.
  { apply (same_table_wf t); [done| |done].
    destruct (wf_fifo t Hwf) as [[Hm Hf]|(Hm & Hlen & Hb & Hh & Ht)].
    - left. by split.
    - right. unfold t1; cbn. split_and!; try lia;
        pose proof (Z.mod_pos_bound (freed_head_ t ⊞ 1) (Z.of_nat (length (freed_fifo_ t)))); unfold h'; lia. }
  assert (lookup_chunk t1 key = Some c) as ->.
  { rewrite lookup_chunk_abs by apply Hwf1. by rewrite (same_table_abs t). }
  rewrite decide_True by done. eexists. split; [done|].
  pose proof (erase_ok t1 key Hwf1) as He. destruct (erase t1 key) as [t2 ok].
  rewrite (same_table_abs t t1) in He by done.
  destruct He as [(_ & _ & He)|(_ & _ & _ & Habs & _)]; [congruence|]. exact Habs.
Qed.

Lemma pop_fuel t :
  fifo_ok t -> 0 < max_entries_ t ->
  (freed_tail_ t - freed_head_ t) mod Z.of_nat (length (freed_fifo_ t)) <
  Z.of_nat (S (length (freed_fifo_ t))).
Proof.
  intros [[? _]|(_ & ? & _)] Hm; [lia|].
  pose proof (Z.mod_pos_bound (freed_tail_ t - freed_head_ t) (Z.of_nat (length (freed_fifo_ t)))). lia.
Qed.

Lemma pop_evictable_spec t :
  wf t -> 0 < max_entries_ t ->
  let '(t', ok) := pop_evictable t in
  if ok then exists key, evicts t t' key
  else wf t' /\ same_table t t' /\ freed_fifo_ t' = freed_fifo_ t.
Proof.
  intros Hwf Hm. unfold pop_evictable.
  destruct (pop_loop_spec _ t Hwf Hm (pop_fuel t (wf_fifo t Hwf) Hm)) as (t' & ok & -> & Hok).
  exact Hok.
Qed.

#[export] Instance pair_le_total : Total pair_le.
Proof. intros [a b] [c d]. unfold pair_le. cbn. lia. Qed.
#[export] Instance pair_le_trans : Transitive pair_le.
Proof. intros [a b] [c d] [e f]. unfold pair_le. cbn. lia. Qed.

Lemma refill_spec t :
  wf t -> 0 < max_entries_ t ->
  let t' := refill_freed_queue t in
  let freed := merge_sort pair_le (freed_pairs (slots_ t)) in
  same_table t t' /\ wf t' /\ length (freed_fifo_ t') = length (freed_fifo_ t) /\
  freed_head_ t' = 0 /\
  freed_tail_ t' = Z.of_nat (Nat.min (length freed) (length (freed_fifo_ t) - 1)) /\
  (forall j, (j < Nat.min (length freed) (length (freed_fifo_ t) - 1))%nat ->
     freed_fifo_ t' !! j = snd <$> freed !! j).
Proof.
  intros Hwf Hm t' freed. subst t'. unfold refill_freed_queue. fold freed.
  destruct (wf_fifo t Hwf) as [[? _]|(_ & Hlen & Hb & Hh & Ht)]; [lia|].
  destruct (freed_fifo_ t) as [|x f] eqn:Ef; [cbn in Hlen; lia|].
  cbn zeta. set (t0 := with_fifo t (x :: f) 0 0).
  change (length (freed_fifo_ t0)) with (length (x :: f)).
  set (m := Nat.min (length freed) (length (x :: f) - 1)).
  assert (foldl (fun t p => push_freed t p.2) t0 (take m freed)
          = foldl push_freed t0 (snd <$> take m freed)) as ->.
  { generalize (take m freed). generalize t0. intros u L. revert u.
    induction L as [|p L IH]; intros u; [done|]. apply IH. }
  assert (length (snd <$> take m freed) = m) as Hlm.
  { rewrite length_fmap, length_take. lia. }
  assert (fifo_ok t0) as Hf0.
  { right. unfold t0. cbn [with_fifo freed_fifo_ freed_head_ freed_tail_ max_entries_].
    split_and!; lia. }
  destruct (push_all t0 (snd <$> take m freed) 0) as (Hs & Hf & Hh' & Ht' & Hl & _ & Hi); [done..| |].
  { rewrite Hlm. cbn in *. lia. }
  rewrite Hlm in *. split_and!; try done.
  - by apply (same_table_wf t0); [..|apply (same_table_wf t)].
  - intros j Hj. specialize (Hi j Hj). cbn in Hi. rewrite Hi.
    rewrite list_lookup_fmap, lookup_take_lt by done. done.
Qed.

Lemma freed_pairs_elem p l :
  p ∈ freed_pairs l <-> exists c, c ∈ l /\ c_state c = kChunkFreed /\ p = (c_free_ms c, c_key c).
Proof.
  unfold freed_pairs. rewrite list_elem_of_fmap. setoid_rewrite list_elem_of_filter.
  split; [intros (c & -> & ? & ?)|intros (c & ? & ? & ->)]; eauto.
Qed.

(** No freed record is left. *)
Definition none_freed (m : gmap Z Chunk) : Prop :=
  forall key c, m !! key = Some c -> c_state c <> kChunkFreed.

(** The freed record that sorts first, by release time and then address. *)
Definition oldest_freed (m : gmap Z Chunk) (key : Z) : Prop :=
  exists c, m !! key = Some c /\ c_state c = kChunkFreed /\
    forall key' c', m !! key' = Some c' -> c_state c' = kChunkFreed ->
      pair_le (c_free_ms c, key) (c_free_ms c', key').

Lemma abs_elem t c : table_ok t -> c ∈ slots_ t -> c_state c <> kChunkEmpty -> abs t !! c_key c = Some c.
Proof.
  intros Hok Hin Hst. apply list_elem_of_lookup in Hin as [i Hi].
  apply lookup_slot in Hi as [Hi <-]. by apply abs_lookup_slot.
Qed.

(** After a refill, either there is nothing to evict or the oldest freed record
    is at the head of the queue. *)
Lemma refill_head t :
  wf t -> 0 < max_entries_ t ->
  let t' := refill_freed_queue t in
  none_freed (abs t) \/
  (freed_head_ t' <> freed_tail_ t' /\
   oldest_freed (abs t) (freed_fifo_ t' !!! Z.to_nat (freed_head_ t'))).
Proof.
  intros Hwf Hm t'. destruct (refill_spec t Hwf Hm) as (_ & _ & Hl & Hh & Ht & Hi).
  fold t' in Hl, Hh, Ht, Hi. pose proof (wf_table t Hwf) as Hok.
  set (freed := merge_sort pair_le (freed_pairs (slots_ t))) in *.
  assert (freed ≡ₚ freed_pairs (slots_ t)) as Hp by apply merge_sort_Permutation.
  assert (Sorted pair_le freed) as Hsort by (apply Sorted_merge_sort; apply _).
  destruct freed as [|[ms key] rest] eqn:Ef.
  - left. intros k c Hc Hst. apply abs_Some_key in Hc as [_ Hc]. apply elem_of_contents in Hc as [_ Hc].
    assert ((c_free_ms c, c_key c) ∈ freed_pairs (slots_ t)) as Hin
      by (apply freed_pairs_elem; by exists c).
    rewrite <- Hp in Hin. by apply elem_of_nil in Hin.
  - right. destruct (wf_fifo t Hwf) as [[? _]|(_ & Hlen & _)]; [lia|].
    cbn [length] in *. rewrite Hh, Ht. split; [lia|].
    specialize (Hi 0%nat ltac:(lia)). cbn in Hi.
    change (Z.to_nat 0) with 0%nat. rewrite (list_lookup_total_correct _ _ _ Hi).
    assert ((ms, key) ∈ freed_pairs (slots_ t)) as Hin by (rewrite <- Hp; left).
    apply freed_pairs_elem in Hin as (c & Hc & Hst & [= -> ->]). cbn.
    exists c. split_and!; [apply abs_elem; [done|done|by rewrite Hst]|done|].
    intros key' c' Hc' Hst'. apply abs_Some_key in Hc' as [<- Hc'].
    apply elem_of_contents in Hc' as [_ Hc'].
    assert ((c_free_ms c', c_key c') ∈ freed_pairs (slots_ t)) as Hin'
      by (apply freed_pairs_elem; by exists c').
    rewrite <- Hp in Hin'. apply elem_of_cons in Hin' as [E|Hin'].
    + rewrite E. right. cbn. lia.
    + apply Sorted_StronglySorted in Hsort; [|apply _].
      inversion Hsort as [|? ? _ Hall]. subst. rewrite Forall_forall in Hall. by apply Hall.
Qed.

Lemma make_room_spec t :
  wf t -> 0 < max_entries_ t ->
  let '(t', ok) := make_room t in
  if ok then exists key, evicts t t' key
  else wf t' /\ same_table t t' /\ none_freed (abs t).
Proof.
  intros Hwf Hm. unfold make_room. pose proof (pop_evictable_spec t Hwf Hm) as H1.
  destruct (pop_evictable t) as [t1 [|]]; [exact H1|].
  destruct H1 as (Hwf1 & Hs1 & Hf1).
  assert (0 < max_entries_ t1) as Hm1 by (destruct Hs1 as (_ & _ & _ & _ & ->); done).
  destruct (refill_spec t1 Hwf1 Hm1) as (Hs2 & Hwf2 & _ & _).
  pose proof (refill_head t1 Hwf1 Hm1) as Hhead. cbn zeta in Hhead.
  set (t2 := refill_freed_queue t1) in *.
  assert (same_table t t2) as Hs by (by etrans).
  assert (abs t1 = abs t) as Ea by (by apply same_table_abs).
  assert (abs t2 = abs t) as Ea2 by (by apply same_table_abs).
  assert (0 < max_entries_ t2) as Hm2 by (destruct Hs as (_ & _ & _ & _ & ->); done).
  pose proof (pop_evictable_spec t2 Hwf2 Hm2) as H3.
  destruct (pop_evictable t2) as [t3 ok] eqn:E3. destruct ok.
  - destruct H3 as (key & ? & ? & ? & ? & ? & ?). exists key. unfold evicts. rewrite <- Ea2.
    destruct Hs as (E1 & E2 & _ & _ & E5). rewrite <- E2, <- E5.
    replace (capacity t) with (capacity t2) by (unfold capacity; by rewrite E1). done.
  - destruct H3 as (Hwf3 & Hs3 & _). split_and!; [done|by etrans|].
    rewrite <- Ea. destruct Hhead as [Hn|(Hne & c & Hc & Hst & _)]; [done|exfalso].
    rewrite Ea, <- Ea2 in Hc. unfold pop_evictable in E3.
    destruct (pop_loop_head (length (freed_fifo_ t2)) t2 c Hwf2 Hne Hc Hst) as (t' & He & _).
    rewrite He in E3. done.
Qed.
