(* ===== verification/ChunkTableMap.v ===== *)
(** * The chunk table refines a finite map

    Every public operation of [ChunkTable] on a well-formed table keeps it well
    formed and acts on [abs t : gmap Z Chunk] as the header file promises. *)

From S2P Require Import Prelude ChunkTable ChunkTableProofs ChunkTableSpec.

(** ** Construction, growth, clearing *)
Lemma new_table_wf cap : cap <= 2 ^ 57 -> wf (new_table cap) /\ abs (new_table cap) = ∅.
Proof.
  intros Hc. destruct (round_capacity_pow2 cap Hc) as (k & Hk & Ek).
  assert (0 < 2 ^ k) by (apply Z.pow_pos_nonneg; lia).
  assert (contents (slots_ (new_table cap)) = []) as He by apply contents_replicate.
  assert (capacity (new_table cap) = 2 ^ k) as Hcap.
  { unfold new_table. rewrite Ek. apply capacity_replicate. lia. }
  split; [split|].
  - apply (empty_table_ok _ k); [done|done|unfold new_table; by rewrite Ek..|done].
  - by rewrite He.
  - rewrite Hcap. unfold kLoadDenominator, kLoadNumerator. cbn [new_table size_]. lia.
  - by left.
  - unfold abs. by rewrite He.
Qed.

(** [clear] takes every well-formed table back to the empty map, keeping its
    capacity and a usable eviction queue. *)
Lemma clear_acts t :
  wf t -> wf (clear t) /\ abs (clear t) = ∅ /\ capacity (clear t) = capacity t.
Proof.
  intros Hwf.
  assert (contents (slots_ (clear t)) = []) as He.
  { apply contents_none, Forall_fmap, Forall_forall. done. }
  assert (capacity (clear t) = capacity t) as Hcap.
  { unfold capacity. cbn. by rewrite length_fmap. }
  destruct (ok_geo t (wf_table t Hwf)) as (k & Hk & Ec & Em & Es).
  split_and!; [split|unfold abs; by rewrite He|done].
  - by apply (empty_table_ok _ k); [done|rewrite Hcap|..].
  - by rewrite He.
  - cbn [clear with_fifo with_size size_]. rewrite Hcap. pose proof (wf_capacity t Hwf).
    unfold kLoadDenominator, kLoadNumerator. lia.
  - destruct (wf_fifo t Hwf) as [[Hm Hf]|(Hm & Hl & Hb & _)]; [by left|right].
    cbn. split_and!; try done; lia.
Qed.

Lemma grow_to_wf t nc :
  wf t -> nc <= 2 ^ 57 ->
  let '(t', ok) := grow_to t nc in
  ok = true /\ wf t' /\ abs t' = abs t /\
  capacity t' = Z.max (capacity t) (round_capacity nc) /\
  size_ t' = size_ t /\ same_queue t t'.
Proof.
  intros Hwf Hnc. pose proof (grow_to_ok t nc (wf_table t Hwf) Hnc) as H.
  destruct (grow_to t nc) as [t' ok].
  destruct H as (Hok & Ht & Hp & Ha & Hcap & Hsz & Hq). split_and!; try done.
  split; [done| | |by eapply same_queue_fifo_ok; [|apply (wf_fifo t Hwf)]].
  - rewrite Hsz, Hp. apply Hwf.
  - rewrite Hsz, Hcap. pose proof (wf_load t Hwf). unfold kLoadDenominator, kLoadNumerator in *. lia.
Qed.

(** [reserve n] keeps every record and leaves the table large enough that
    holding [n] records stays within the 85% load limit, so none of the next
    inserts up to [n] rehashes. *)
Lemma reserve_acts t n :
  wf t -> 0 <= n <= 2 ^ 50 ->
  let '(t', ok) := reserve t n in
  ok = true /\ wf t' /\ max_entries_ t' = max_entries_ t /\ abs t' = abs t /\
  capacity t <= capacity t' /\ n * kLoadDenominator <= capacity t' * kLoadNumerator.
Proof.
  intros Hwf Hn. unfold reserve. change (2 ^ 50) with 1125899906842624 in Hn.
  unfold kLoadDenominator, kLoadNumerator.
  assert (0 <= n * 100 / 85 <= 2 * n).
  { split; [apply Z.div_pos; lia|]. apply Z.div_le_upper_bound; lia. }
  rewrite (u64_below (n * 100)) by (change (2 ^ 58) with 288230376151711744; lia).
  rewrite (u64_below (_ + 1)) by (change (2 ^ 58) with 288230376151711744; lia).
  set (needed := n * 100 / 85 + 1) in *.
  assert (n * 100 < needed * 85) as Hneed.
  { unfold needed. pose proof (Z.mul_succ_div_gt (n * 100) 85). lia. }
  destruct (Z.leb_spec needed (capacity t)); [split_and!; try done; lia|].
  assert (round_capacity needed < 2 * needed + 32) as Hr.
  { unfold round_capacity, kMinCapacity. destruct (Z.leb_spec needed 16); [lia|].
    pose proof (bit_ceil_lt needed). lia. }
  pose proof (grow_to_wf t (round_capacity needed) Hwf) as Hg.
  destruct (grow_to t (round_capacity needed)) as [t' ok].
  destruct Hg as (-> & Hwf' & Ha & Hcap & _ & Hmax & _);
    [change (2 ^ 57) with 144115188075855872; unfold needed in *; lia|].
  pose proof (round_capacity_ge needed). pose proof (round_capacity_ge (round_capacity needed)).
  split_and!; try done; lia.
Qed.

(** ** Lookup *)

(** On a well-formed table [find] always terminates (no probe exhausts one
    round of the table) and returns the slot of exactly the record the map holds
    under the key, or null when there is none. *)
Theorem find_refines_map t key :
  wf t -> find_run t key <> None /\ lookup_chunk t key = abs t !! key.
Proof.
  intros Hwf. pose proof (wf_table t Hwf) as Hok. split; [|by apply lookup_chunk_abs].
  destruct (decide (key ∈ c_key <$> contents (slots_ t))) as [Hin|Hout].
  - apply list_elem_of_fmap in Hin as (c & -> & Hc). apply elem_of_contents in Hc as [Ho Hl].
    apply list_elem_of_lookup in Hl as [i Hi]. apply lookup_slot in Hi as [Hi <-].
    by rewrite find_run_present.
  - by rewrite find_run_absent.
Qed.

(** ** In-place updates *)
Lemma update_slot_wf t i c :
  wf t -> 0 <= i < capacity t -> c_state (slot_at (slots_ t) i) <> kChunkEmpty ->
  c_key c = c_key (slot_at (slots_ t) i) -> c_state c <> kChunkEmpty ->
  let t' := with_slots t (slot_set (slots_ t) i c) in
  wf t' /\ abs t' = <[c_key c := c]> (abs t).
Proof.
  intros Hwf Hi Ho Hk Hc.
  destruct (update_slot_ok t i c (wf_table t Hwf) Hi Ho Hk Hc) as (Hok & Ha & Hl).
  split; [|done]. split; [done| | |apply (wf_fifo t Hwf)].
  - rewrite Hl. apply Hwf.
  - unfold capacity. cbn [with_slots slots_]. rewrite slot_set_length. apply (wf_load t Hwf).
Qed.

(** The same through [find]: the shape shared by the four keyed updates. *)
Lemma update_found t key (f : Chunk -> Chunk) :
  wf t -> (forall c, c_key (f c) = c_key c) ->
  (forall c, c_state c <> kChunkEmpty -> c_state (f c) <> kChunkEmpty) ->
  match find t key with
  | Some i =>
      let t' := with_slots t (slot_set (slots_ t) i (f (slot_at (slots_ t) i))) in
      wf t' /\ abs t !! key = Some (slot_at (slots_ t) i) /\
      abs t' = <[key := f (slot_at (slots_ t) i)]> (abs t)
  | None => abs t !! key = None
  end.
Proof.
  intros Hwf Hk Hs. pose proof (wf_table t Hwf) as Hok.
  destruct (find_cases t key Hok) as [(i & -> & Hi & Ho & <-)|[-> Habs]]; [|by apply abs_lookup_none].
  destruct (update_slot_wf t i (f (slot_at (slots_ t) i)) Hwf Hi Ho (Hk _) (Hs _ Ho)) as [Hwf' Ha].
  split_and!; [done|by apply abs_lookup_slot|]. by rewrite Ha, Hk.
Qed.

Lemma abs_occupied t key c : abs t !! key = Some c -> c_state c <> kChunkEmpty.
Proof. intros H. apply abs_Some_key in H as [_ H]. by apply elem_of_contents in H as [? _]. Qed.

(** [mark_freed] on a known pointer moves exactly that record to the freed
    state with the given release time and changes nothing else; on an unknown
    pointer it reports so and leaves the table as it was. *)
Lemma mark_freed_acts t key ms :
  wf t ->
  let '(t', ok) := mark_freed t key ms in
  wf t' /\ max_entries_ t' = max_entries_ t /\
  match abs t !! key with
  | Some c => ok = true /\ abs t' = <[key := free_record c ms]> (abs t) /\ size_ t' = size_ t
  | None => ok = false /\ t' = t
  end.
Proof.
  intros Hwf. unfold mark_freed.
  pose proof (update_found t key (fun c => free_record c ms) Hwf (fun _ => eq_refl)) as H.
  destruct (find t key) as [i|].
  - destruct H as (Hwf' & -> & Ha); [done|].
    set (t1 := with_slots _ _) in *. pose proof (push_freed_same t1 key) as Hs.
    split_and!; [| |done| |].
    + eapply same_table_wf; [exact Hs| |done]. apply push_freed_fifo_ok, Hwf'.
    + by destruct Hs as (_ & _ & _ & _ & ->).
    + by rewrite (same_table_abs _ _ Hs).
    + by destruct Hs as (_ & -> & _).
  - rewrite H by done. done.
Qed.

(** [mark_refined] records an exact overhead of at most 16 bits on a known
    pointer, sets the refined bit and adds only header bits from the mask; a
    larger figure, or an unknown pointer, changes nothing. *)
Lemma mark_refined_acts t key exact flags :
  wf t ->
  let '(t', ok) := mark_refined t key exact flags in
  wf t' /\ max_entries_ t' = max_entries_ t /\
  match abs t !! key with
  | Some c =>
      if exact <=? UINT16_MAX
      then ok = true /\ abs t' = <[key := refine_record c exact flags]> (abs t)
      else ok = false /\ t' = t
  | None => ok = false /\ t' = t
  end.
Proof.
  intros Hwf. unfold mark_refined.
  destruct (Z.ltb_spec UINT16_MAX exact) as [Hgt|Hle].
  { destruct (Z.leb_spec exact UINT16_MAX); [lia|]. by destruct (abs t !! key). }
  destruct (Z.leb_spec exact UINT16_MAX); [|lia].
  pose proof (update_found t key (fun c => refine_record c exact flags) Hwf (fun _ => eq_refl)) as Hf.
  destruct (find t key) as [i|].
  - destruct Hf as (Hwf' & -> & Ha); done.
  - rewrite Hf by done. done.
Qed.

(** Mapping a record transformer that keeps key and emptiness over all slots. *)
Lemma map_slots_wf t (f : Chunk -> Chunk) :
  wf t -> (forall c, c_key (f c) = c_key c) -> (forall c, c_state (f c) = c_state c) ->
  let t' := with_slots t (f <$> slots_ t) in wf t' /\ abs t' = f <$> abs t.
Proof.
  intros Hwf Hk Hs t'. pose proof (wf_table t Hwf) as Hok.
  assert (contents (f <$> slots_ t) = f <$> contents (slots_ t)) as Hc.
  { induction (slots_ t) as [|c l IH]; [done|]. cbn [fmap list_fmap].
    rewrite !contents_cons, Hs. fold (f <$> l). rewrite IH. by case_decide. }
  assert (c_key <$> (f <$> contents (slots_ t)) = c_key <$> contents (slots_ t)) as Hkeys.
  { rewrite <- list_fmap_compose. apply list_fmap_ext. intros i c _. apply Hk. }
  assert (capacity t' = capacity t) as Hcap by (apply capacity_with_slots, length_fmap).
  pose proof (wf_capacity t Hwf) as Hcb.
  assert (forall i, at_ (capacity t) (f <$> slots_ t) i = f (at_ (capacity t) (slots_ t) i)) as Hat.
  { intros i. unfold at_, slot_at. apply list_lookup_total_correct.
    rewrite list_lookup_fmap. rewrite list_lookup_lookup_total_lt; [done|].
    pose proof (Z.mod_pos_bound i (capacity t)). unfold capacity in *. lia. }
  split; [split|].
  - split; rewrite ?Hcap; change (slots_ t') with (f <$> slots_ t);
      rewrite ?Hc, ?Hkeys, ?length_fmap; try apply Hok.
    + eapply robin_hood_ext; [| |apply (ok_rh t Hok)]; intros i; rewrite Hat; [apply Hk|by rewrite Hs].
    + apply Forall_fmap. eapply Forall_impl; [apply (ok_nonnull t Hok)|]. cbn. intros c. by rewrite Hk.
  - change (slots_ t') with (f <$> slots_ t). rewrite Hc, length_fmap. apply (wf_size t Hwf).
  - rewrite Hcap. apply (wf_load t Hwf).
  - apply (wf_fifo t Hwf).
  - unfold abs. change (slots_ t') with (f <$> slots_ t). rewrite Hc. generalize (contents (slots_ t)). intros L.
    change (map_of (f <$> L) = f <$> map_of L).
    induction L as [|c L IH]; [symmetry; apply fmap_empty|].
    cbn [fmap list_fmap]. rewrite !map_of_cons, fmap_insert, Hk. by f_equal.
Qed.

(** [clear_refined] takes the refinement mark, the header bits and the exact
    overhead off every record at once and keeps everything else: afterwards no
    record of the table is marked refined. *)
Lemma clear_refined_acts t :
  wf t ->
  wf (clear_refined t) /\ abs (clear_refined t) = unrefine_record <$> abs t /\
  (forall key c, abs (clear_refined t) !! key = Some c ->
     Z.land (c_flags c) (Z.lor kChunkFlagRefined kHeaderFlagMask) = 0 /\ c_overhead_exact c = 0).
Proof.
  intros Hwf.
  destruct (map_slots_wf t unrefine_record Hwf (fun _ => eq_refl) (fun _ => eq_refl)) as [Hwf' Ha].
  split_and!; [done..|]. intros key c Hc.
  assert (abs (clear_refined t) = unrefine_record <$> abs t) as E by done.
  rewrite E, lookup_fmap in Hc. destruct (abs t !! key) as [c0|]; [|done].
  cbn in Hc. simplify_eq. cbn. split; [|done].
  change (u8 (Z.lnot _)) with 248. change (Z.lor kChunkFlagRefined kHeaderFlagMask) with 7.
  unfold u8. rewrite <- Z.land_ones by lia.
  rewrite <- !Z.land_assoc. change (Z.land 248 (Z.land (Z.ones 8) 7)) with 0. apply Z.land_0_r.
Qed.

(** ** Insertion *)
Lemma abs_none_fresh t key : table_ok t -> abs t !! key = None -> key ∉ c_key <$> contents (slots_ t).
Proof.
  intros Hok Hn Hin. apply list_elem_of_fmap in Hin as (c & -> & Hc).
  apply elem_of_contents in Hc as [Ho Hc]. by rewrite (abs_elem t c) in Hn.
Qed.

(** The tail of [insert_live]: place the record and count it. *)
Lemma insert_tail t rec s :
  wf t -> (size_ t + 1) * kLoadDenominator <= capacity t * kLoadNumerator ->
  c_state rec <> kChunkEmpty -> c_key rec <> 0 -> abs t !! c_key rec = None ->
  let t1 := place t rec in
  let t' := with_stats (with_size t1 (size_ t1 ⊞ 1)) s in
  wf t' /\ max_entries_ t' = max_entries_ t /\ abs t' = <[c_key rec := rec]> (abs t) /\
  size_ t' = size_ t + 1 /\ capacity t' = capacity t.
Proof.
  intros Hwf Hload Hst Hk Hfresh t1 t'. pose proof (wf_table t Hwf) as Hok.
  pose proof (wf_capacity t Hwf) as Hcb. pose proof (wf_size_range t Hwf) as Hsr.
  unfold kLoadDenominator, kLoadNumerator in *.
  destruct (place_ok t rec Hok Hst Hk) as (Hok' & Hp & Ha & Hcap).
  { by apply abs_none_fresh. }
  { rewrite <- (wf_size t Hwf). lia. }
  destruct (place_frame t rec) as (Hsz & Hq). fold t1 in Hok', Hp, Ha, Hcap, Hsz, Hq.
  assert (size_ t' = size_ t + 1) as Esz.
  { cbn. rewrite Hsz. apply u64_below.
    change (2 ^ 57) with 144115188075855872 in *. change (2 ^ 58) with 288230376151711744. lia. }
  split_and!; [split|apply Hq|exact Ha|done|exact Hcap].
  - by eapply table_ok_eq; [..|exact Hok'].
  - rewrite Esz. change (slots_ t') with (slots_ t1). rewrite Hp, (wf_size t Hwf). cbn [length]. lia.
  - rewrite Esz. change (capacity t') with (capacity t1). rewrite Hcap. exact Hload.
  - eapply same_queue_fifo_ok; [|apply (wf_fifo t Hwf)]. exact Hq.
Qed.

(** Growth step of [insert_live]. *)
Lemma grow_if_needed t :
  wf t -> capacity t <= 2 ^ 56 ->
  let '(t', ok) :=
    if capacity t ⊠ kLoadNumerator <? (size_ t ⊞ 1) ⊠ kLoadDenominator
    then grow_to t (capacity t ⊠ 2) else (t, true) in
  ok = true /\ wf t' /\ max_entries_ t' = max_entries_ t /\ abs t' = abs t /\
  (size_ t' + 1) * kLoadDenominator <= capacity t' * kLoadNumerator /\
  size_ t' = size_ t /\ capacity t' <= Z.max (capacity t) (5 * (size_ t + 1)).
Proof.
  intros Hwf Hc. pose proof (wf_size_range t Hwf). pose proof (wf_capacity t Hwf).
  change (2 ^ 56) with 72057594037927936 in *. unfold kLoadDenominator, kLoadNumerator in *.
  rewrite (u64_small (capacity t * 85)), (u64_small (size_ t + 1)), (u64_small (_ * 100)),
    (u64_small (capacity t * 2)) by (unfold is_u64; rewrite ?pow2_64; lia).
  destruct (Z.ltb_spec (capacity t * 85) ((size_ t + 1) * 100)) as [Hgt|Hle].
  - pose proof (grow_to_wf t (capacity t * 2) Hwf) as Hg. destruct (grow_to t _) as [t' ok].
    destruct Hg as (-> & Hwf' & Ha & Hcap & Hsz & Hmax & _).
    { change (2 ^ 57) with 144115188075855872. lia. }
    rewrite Hsz, Hcap. pose proof (wf_load t Hwf).
    unfold kLoadDenominator, kLoadNumerator in *. pose proof (round_capacity_ge (capacity t * 2)).
    split_and!; [done..|lia|done|]. unfold round_capacity, kMinCapacity in *. destruct (Z.leb_spec (capacity t * 2) 16); [lia|].
    pose proof (bit_ceil_lt (capacity t * 2)). lia.
  - split_and!; try done. lia.
Qed.

(** The records kept when a new one is admitted: all of them, or all but one
    freed record when the cap is reached. *)
Definition admits (t : ChunkTable) (m : gmap Z Chunk) : Prop :=
  ((max_entries_ t = 0 \/ size_ t < max_entries_ t) /\ m = abs t) \/
  (0 < max_entries_ t <= size_ t /\ exists victim c,
     abs t !! victim = Some c /\ c_state c = kChunkFreed /\ m = delete victim (abs t)).

(** The cap check of [insert_live]. *)
Lemma room_step t :
  wf t ->
  let '(t', ok) :=
    if negb (max_entries_ t =? 0) && (max_entries_ t <=? size_ t)
    then make_room t else (t, true) in
  wf t' /\ capacity t' = capacity t /\ max_entries_ t' = max_entries_ t /\
  if ok then admits t (abs t')
  else 0 < max_entries_ t <= size_ t /\ none_freed (abs t) /\ abs t' = abs t.
Proof.
  intros Hwf. assert (0 <= max_entries_ t) as Hm0.
  { destruct (wf_fifo t Hwf) as [[-> _]|(? & _)]; lia. }
  destruct (Z.eqb_spec (max_entries_ t) 0) as [E|E]; cbn [negb andb].
  { split_and!; [done..|]. left. split; [by left|done]. }
  destruct (Z.leb_spec (max_entries_ t) (size_ t)) as [Hle|Hgt].
  2: { split_and!; [done..|]. left. split; [by right|done]. }
  pose proof (make_room_spec t Hwf ltac:(lia)) as Hmr.
  destruct (make_room t) as [t' [|]].
  - destruct Hmr as (key & Hwf' & (c & Hc & Hst) & Ha & _ & Hcap & Hmax).
    split_and!; [done..|]. right. split; [lia|]. by exists key, c.
  - destruct Hmr as (Hwf' & Hs & Hnf). split_and!; [done| | |lia..|done|by apply same_table_abs].
    + destruct Hs as (Es & _). unfold capacity. by rewrite Es.
    + by destruct Hs as (_ & _ & _ & _ & ->).
Qed.

(** [insert_live] is insertion into the map: over a known pointer it
    replaces the record in place; a new pointer is added, after evicting at most
    one record, and that one freed, when the table is at its cap; it is refused
    exactly when the pointer is null, or the cap is reached and no freed record
    is left to give up.  Well-formedness is kept, through any rehash. *)
Lemma insert_live_acts t key size usable ms tid :
  wf t -> capacity t <= 2 ^ 56 ->
  let '(t', ok) := insert_live t key size usable ms tid in
  wf t' /\ max_entries_ t' = max_entries_ t /\
  if key =? 0 then ok = false /\ t' = t
  else match abs t !! key with
  | Some c => ok = true /\ abs t' = <[key := revive c size usable ms tid]> (abs t)
  | None =>
      if ok then exists m, admits t m /\ abs t' = <[key := live_record key size usable ms tid]> m
      else 0 < max_entries_ t <= size_ t /\ none_freed (abs t) /\ abs t' = abs t
  end.
Proof.
  intros Hwf Hc. unfold insert_live. destruct (Z.eqb_spec key 0) as [|Hk]; [done|].
  pose proof (update_found t key (fun c => revive c size usable ms tid) Hwf (fun _ => eq_refl)) as Hf.
  destruct (find t key) as [i|].
  { destruct Hf as (Hwf' & -> & Ha); [done|]. split_and!; [|done|done|exact Ha].
    by eapply same_table_wf; [..|exact Hwf']; [|apply (wf_fifo _ Hwf')]. }
  rewrite Hf by done.
  pose proof (room_step t Hwf) as Hr. destruct (if negb _ && _ then _ else _) as [t1 ok1].
  destruct Hr as (Hwf1 & Hcap1 & Hmax1 & Hr). destruct ok1; cbn [negb].
  2: { split_and!; [|exact Hmax1|apply Hr..].
       by eapply same_table_wf; [..|exact Hwf1]; [|apply (wf_fifo _ Hwf1)]. }
  pose proof (grow_if_needed t1 Hwf1 ltac:(lia)) as Hg.
  destruct (if _ <? _ then _ else _) as [t2 ok2]. destruct Hg as (-> & Hwf2 & Hmax2 & Ha2 & Hload & _).
  cbn [negb].
  assert (abs t1 !! key = None) as Hn.
  { destruct Hr as [[_ ->]|(_ & v & c & _ & _ & ->)]; [by apply Hf|].
    apply lookup_delete_None. right. by apply Hf. }
  destruct (insert_tail t2 (live_record key size usable ms tid)
    (count_insert (stats_ (place t2 (live_record key size usable ms tid)))) Hwf2 Hload)
    as (Hwf3 & Hmax3 & Ha3 & _); [done|done|by rewrite Ha2|].
  split_and!; [exact Hwf3|etrans; [exact Hmax3|congruence]|]. exists (abs t1). split; [done|]. rewrite Ha2 in Ha3. exact Ha3.
Qed.

(** Growth is paid for by records: the capacity stays within a constant factor
    of the entries, past the capacity the table had. *)
Lemma insert_live_grows t key size usable ms tid :
  wf t -> capacity t <= 2 ^ 56 -> max_entries_ t = 0 ->
  let t' := (insert_live t key size usable ms tid).1 in
  size_ t <= size_ t' <= size_ t + 1 /\ capacity t' <= Z.max (capacity t) (5 * size_ t').
Proof.
  intros Hwf Hc Hmax. unfold insert_live. destruct (Z.eqb_spec key 0) as [|Hk]; [cbn; lia|].
  pose proof (update_found t key (fun c => revive c size usable ms tid) Hwf (fun _ => eq_refl)) as Hf.
  destruct (find t key) as [i|].
  { cbn. unfold capacity. cbn. unfold slot_set. rewrite length_insert. lia. }
  rewrite Hmax. cbn [Z.eqb negb andb].
  pose proof (grow_if_needed t Hwf Hc) as Hg.
  destruct (if _ <? _ then _ else _) as [t2 ok2]. destruct Hg as (-> & Hwf2 & Hmax2 & Ha2 & Hload & Hsz & Hcap).
  cbn [negb fst].
  destruct (insert_tail t2 (live_record key size usable ms tid)
    (count_insert (stats_ (place t2 (live_record key size usable ms tid)))) Hwf2 Hload)
    as (_ & _ & _ & Es & Ec); [done|done|by rewrite Ha2; apply Hf|].
  cbn zeta in Es, Ec. set (t3 := with_stats _ _) in *.
  change (with_stats _ _) with t3. rewrite Es, Ec. lia.
Qed.

(** Records other than the inserted one survive unless freed. *)
Lemma admits_live t m key c :
  admits t m -> abs t !! key = Some c -> c_state c = kChunkLive -> m !! key = Some c.
Proof.
  intros [[_ ->]|(_ & v & cv & Hv & Hst & ->)] Hc Hl; [done|].
  apply lookup_delete_Some. split; [|done]. intros ->. congruence.
Qed.

(** ** The bounded-memory policy *)
Lemma abs_size t : wf t -> size_ t = Z.of_nat (size (abs t)).
Proof.
  intros Hwf. rewrite (wf_size t Hwf). unfold abs.
  rewrite map_size_list_to_map by (rewrite entries_keys; apply (wf_table t Hwf)).
  unfold entries. by rewrite length_fmap.
Qed.

(** [m'] is [m] less some freed records. *)
Definition evicted (m m' : gmap Z Chunk) : Prop :=
  m' ⊆ m /\ forall key c, m !! key = Some c -> c_state c <> kChunkFreed -> m' !! key = Some c.

#[export] Instance evicted_refl : Reflexive evicted.
Proof. by intros m. Qed.
#[export] Instance evicted_trans : Transitive evicted.
Proof. intros a b c [H1 H2] [H3 H4]. split; [by etrans|]. intros. by apply H4; [apply H2|]. Qed.

Lemma evicts_evicted t t' key : evicts t t' key -> evicted (abs t) (abs t').
Proof.
  intros (_ & (c & Hc & Hst) & -> & _). split; [apply delete_subseteq|].
  intros k c' Hc' Hs. apply lookup_delete_Some. split; [|done]. intros ->. congruence.
Qed.

Lemma shrink_loop_spec fuel t :
  wf t -> 0 < max_entries_ t -> (Z.to_nat (size_ t) < fuel)%nat ->
  exists t', shrink_loop fuel t = Some t' /\ wf t' /\ max_entries_ t' = max_entries_ t /\
    capacity t' = capacity t /\
    evicted (abs t) (abs t') /\ (size_ t' <= max_entries_ t \/ none_freed (abs t')) /\
    (size_ t <= max_entries_ t -> abs t' = abs t).
Proof.
  revert t. induction fuel as [|fuel IH]; intros t Hwf Hm Hf; [lia|]. cbn [shrink_loop].
  destruct (Z.ltb_spec (max_entries_ t) (size_ t)) as [Hgt|Hle].
  2: { eexists. split; [done|]. split_and!; try done. by left. }
  pose proof (make_room_spec t Hwf Hm) as Hmr. destruct (make_room t) as [t1 [|]].
  - destruct Hmr as (key & He). pose proof (evicts_evicted _ _ _ He) as Hev.
    destruct He as (Hwf1 & _ & _ & Hsz & Hcap & Hmax).
    pose proof (wf_size_range t1 Hwf1).
    destruct (IH t1 Hwf1) as (t' & -> & Hwf' & Hmax' & Hcap' & Hev' & Hend & _); [lia..|].
    eexists. split; [done|]. split_and!; [done|congruence|congruence|by etrans| |lia].
    by rewrite <- Hmax.
  - destruct Hmr as (Hwf1 & Hs & Hnf). eexists. split; [done|].
    rewrite (same_table_abs _ _ Hs). destruct Hs as (Es & _ & _ & _ & Em).
    split_and!; try done; [unfold capacity; by rewrite Es|by right].
Qed.

Lemma set_max_entries_acts t n :
  wf t -> 0 <= n < 2 ^ 60 ->
  let t' := set_max_entries t n in
  wf t' /\ max_entries_ t' = n /\ capacity t' = capacity t /\ evicted (abs t) (abs t') /\
  (n = 0 \/ size_ t' <= n \/ none_freed (abs t')) /\
  (n = 0 \/ size_ t <= n -> abs t' = abs t).
Proof.
  intros Hwf Hn t'. subst t'. unfold set_max_entries.
  destruct (Z.eqb_spec n 0) as [->|Hn0].
  { split_and!; try done; [|by left]. apply (wf_requeue t); [done..| |done]. by left. }
  change (2 ^ 60) with 1152921504606846976 in Hn.
  rewrite (u64_small (n + 1)) by (unfold is_u64; rewrite pow2_64; lia).
  set (t1 := with_fifo (with_max t n) _ 0 0).
  assert (length (freed_fifo_ t1) = Z.to_nat (n + 1)) as Hlen by apply length_replicate.
  assert (wf t1) as Hwf1.
  { apply (wf_requeue t); [done..| |done]. right. rewrite Hlen. cbn. rewrite pow2_64.
    split_and!; lia. }
  assert (0 < max_entries_ t1) as Hm by (cbn; lia).
  destruct (refill_spec t1 Hwf1 Hm) as (Hs2 & Hwf2 & _).
  set (t2 := refill_freed_queue t1) in *.
  assert (abs t2 = abs t) as Ea by (rewrite (same_table_abs _ _ Hs2); done).
  assert (max_entries_ t2 = n /\ size_ t2 = size_ t /\ capacity t2 = capacity t) as (Em & Esz & Ec).
  { destruct Hs2 as (E1 & E2 & _ & _ & E5). unfold capacity. by rewrite E1, E2, E5. }
  destruct (shrink_loop_spec (S (Z.to_nat (size_ t2))) t2 Hwf2)
    as (t3 & -> & Hwf3 & Hm3 & Hc3 & Hev & Hend & Hkeep); [lia|lia|]. cbn [default from_option].
  rewrite Ea, Em in *. split_and!; [done|done|cbn; congruence|done|by right|].
  intros [?|?]; [done|]. by apply Hkeep; rewrite Esz.
Qed.

(** ** The abstract specification

    A bounded store: a map and a cap (zero for none), with the transitions the
    header file describes.  The table simulates it. *)

Inductive TableOp :=
  | OpInsert (key size usable ms tid : Z)
  | OpFree (key ms : Z)
  | OpErase (key : Z)
  | OpRefine (key exact flags : Z)
  | OpClearRefined
  | OpClear
  | OpReserve (n : Z)
  | OpSetMax (n : Z).

Definition apply_op (t : ChunkTable) (op : TableOp) : ChunkTable * bool :=
  match op with
  | OpInsert key size usable ms tid => insert_live t key size usable ms tid
  | OpFree key ms => mark_freed t key ms
  | OpErase key => erase t key
  | OpRefine key exact flags => mark_refined t key exact flags
  | OpClearRefined => (clear_refined t, true)
  | OpClear => (clear t, true)
  | OpReserve n => reserve t n
  | OpSetMax n => (set_max_entries t n, true)
  end.

Definition Store : Type := gmap Z Chunk * Z.

Definition full (s : Store) : Prop := 0 < s.2 <= Z.of_nat (size s.1).

Inductive store_step : Store -> TableOp -> Store -> bool -> Prop :=
  | ss_insert_null s size usable ms tid :
      store_step s (OpInsert 0 size usable ms tid) s false
  | ss_insert_known m cap key size usable ms tid c :
      key <> 0 -> m !! key = Some c ->
      store_step (m, cap) (OpInsert key size usable ms tid)
        (<[key := revive c size usable ms tid]> m, cap) true
  | ss_insert_new m cap key size usable ms tid :
      key <> 0 -> m !! key = None -> ~ full (m, cap) ->
      store_step (m, cap) (OpInsert key size usable ms tid)
        (<[key := live_record key size usable ms tid]> m, cap) true
  | ss_insert_evict m cap key size usable ms tid victim c :
      key <> 0 -> m !! key = None -> full (m, cap) ->
      m !! victim = Some c -> c_state c = kChunkFreed ->
      store_step (m, cap) (OpInsert key size usable ms tid)
        (<[key := live_record key size usable ms tid]> (delete victim m), cap) true
  | ss_insert_refuse m cap key size usable ms tid :
      key <> 0 -> m !! key = None -> full (m, cap) -> none_freed m ->
      store_step (m, cap) (OpInsert key size usable ms tid) (m, cap) false
  | ss_free m cap key ms c :
      m !! key = Some c ->
      store_step (m, cap) (OpFree key ms) (<[key := free_record c ms]> m, cap) true
  | ss_free_unknown m cap key ms :
      m !! key = None -> store_step (m, cap) (OpFree key ms) (m, cap) false
  | ss_erase m cap key :
      is_Some (m !! key) -> store_step (m, cap) (OpErase key) (delete key m, cap) true
  | ss_erase_unknown m cap key :
      m !! key = None -> store_step (m, cap) (OpErase key) (m, cap) false
  | ss_refine m cap key exact flags c :
      m !! key = Some c -> exact <= UINT16_MAX ->
      store_step (m, cap) (OpRefine key exact flags)
        (<[key := refine_record c exact flags]> m, cap) true
  | ss_refine_not m cap key exact flags :
      m !! key = None \/ UINT16_MAX < exact ->
      store_step (m, cap) (OpRefine key exact flags) (m, cap) false
  | ss_clear_refined m cap :
      store_step (m, cap) OpClearRefined (unrefine_record <$> m, cap) true
  | ss_clear m cap : store_step (m, cap) OpClear (∅, cap) true
  | ss_reserve s n : store_step s (OpReserve n) s true
  | ss_set_max m cap n m' :
      evicted m m' -> (n = 0 \/ Z.of_nat (size m') <= n \/ none_freed m') ->
      (n = 0 \/ Z.of_nat (size m) <= n -> m' = m) ->
      store_step (m, cap) (OpSetMax n) (m', n) true.

Definition store_of (t : ChunkTable) : Store := (abs t, max_entries_ t).

(** The machine limits under which an operation's arithmetic does not wrap. *)
Definition op_fits (t : ChunkTable) (op : TableOp) : Prop :=
  match op with
  | OpInsert _ _ _ _ _ => capacity t <= 2 ^ 56
  | OpReserve n => 0 <= n <= 2 ^ 50
  | OpSetMax n => 0 <= n < 2 ^ 60
  | _ => True
  end.

Lemma full_iff t : wf t -> full (store_of t) <-> 0 < max_entries_ t <= size_ t.
Proof. intros Hwf. unfold full, store_of. cbn. by rewrite (abs_size t Hwf). Qed.

Lemma insert_simulates t key size usable ms tid :
  wf t -> capacity t <= 2 ^ 56 ->
  let '(t', ok) := insert_live t key size usable ms tid in
  wf t' /\ store_step (store_of t) (OpInsert key size usable ms tid) (store_of t') ok.
Proof.
  intros Hwf Hc. pose proof (insert_live_acts t key size usable ms tid Hwf Hc) as H.
  destruct (insert_live t key size usable ms tid) as [t' ok]. destruct H as (Hwf' & Hm & H).
  split; [done|]. unfold store_of. rewrite Hm. destruct (Z.eqb_spec key 0) as [->|Hk].
  { destruct H as [-> ->]. constructor. }
  destruct (abs t !! key) as [c|] eqn:Ec.
  { destruct H as [-> ->]. by constructor. }
  destruct ok.
  - destruct H as (m & [[Hroom ->]|(Hfull & v & c & Hv & Hst & ->)] & ->).
    + constructor; [done..|]. rewrite (full_iff t Hwf). lia.
    + eapply ss_insert_evict; [done..| |done|done]. by apply (full_iff t Hwf).
  - destruct H as (Hfull & Hnf & ->). constructor; [done..| |done]. by apply (full_iff t Hwf).
Qed.

Lemma op_simulates t op :
  wf t -> op_fits t op ->
  let '(t', ok) := apply_op t op in
  wf t' /\ store_step (store_of t) op (store_of t') ok.
Proof.
  intros Hwf Hfit. destruct op as [key size usable ms tid|key ms|key|key exact flags| | |n|n];
    cbn [apply_op op_fits] in *.
  - by apply insert_simulates.
  - pose proof (mark_freed_acts t key ms Hwf) as H. destruct (mark_freed t key ms) as [t' ok].
    destruct H as (Hwf' & Hm & H). split; [done|]. unfold store_of. rewrite Hm.
    destruct (abs t !! key) as [c|] eqn:Ec.
    + destruct H as (-> & -> & _). by constructor.
    + destruct H as (-> & ->). by constructor.
  - pose proof (erase_ok t key Hwf) as H. destruct (erase t key) as [t' ok]. unfold store_of.
    destruct H as [(-> & -> & H)|(-> & Hwf' & Hs & -> & _ & _ & Hq & _)].
    + split; [done|]. by constructor.
    + split; [done|]. rewrite Hq. by constructor.
  - pose proof (mark_refined_acts t key exact flags Hwf) as H.
    destruct (mark_refined t key exact flags) as [t' ok].
    destruct H as (Hwf' & Hm & H). split; [done|]. unfold store_of. rewrite Hm.
    destruct (abs t !! key) as [c|] eqn:Ec.
    + destruct (Z.leb_spec exact UINT16_MAX); destruct H as (-> & ->); constructor; auto.
    + destruct H as (-> & ->). constructor. by left.
  - destruct (clear_refined_acts t Hwf) as (Hwf' & Ha & _). split; [done|].
    unfold store_of. rewrite Ha. constructor.
  - destruct (clear_acts t Hwf) as (Hwf' & Ha & _). split; [done|].
    unfold store_of. rewrite Ha. constructor.
  - pose proof (reserve_acts t n Hwf Hfit) as H. destruct (reserve t n) as [t' ok].
    destruct H as (-> & Hwf' & Hm & Ha & _). split; [done|]. unfold store_of.
    rewrite Hm, Ha. constructor.
  - destruct (set_max_entries_acts t n Hwf Hfit) as (Hwf' & Hm & _ & Hev & Hend & Hkeep).
    split; [done|]. unfold store_of. rewrite Hm.
    rewrite (abs_size _ Hwf') in Hend. rewrite (abs_size t Hwf) in Hkeep. by constructor.
Qed.

(** Sequences of operations, with their results. *)
Fixpoint run_ops (t : ChunkTable) (ops : list TableOp) : ChunkTable * list bool :=
  match ops with
  | [] => (t, [])
  | op :: ops =>
      let '(t, ok) := apply_op t op in
      let '(t, oks) := run_ops t ops in (t, ok :: oks)
  end.

Fixpoint ops_fit (t : ChunkTable) (ops : list TableOp) : Prop :=
  match ops with
  | [] => True
  | op :: ops => op_fits t op /\ ops_fit (apply_op t op).1 ops
  end.

Inductive store_run : Store -> list TableOp -> list bool -> Store -> Prop :=
  | sr_nil s : store_run s [] [] s
  | sr_cons s op s1 ok ops oks s2 :
      store_step s op s1 ok -> store_run s1 ops oks s2 ->
      store_run s (op :: ops) (ok :: oks) s2.

Lemma run_simulates t ops :
  wf t -> ops_fit t ops ->
  let '(t', oks) := run_ops t ops in
  wf t' /\ store_run (store_of t) ops oks (store_of t').
Proof.
  revert t. induction ops as [|op ops IH]; intros t Hwf Hfit; cbn [run_ops].
  { split; [done|]. constructor. }
  destruct Hfit as [Hop Hops]. pose proof (op_simulates t op Hwf Hop) as H.
  destruct (apply_op t op) as [t1 ok]. destruct H as [Hwf1 Hs].
  specialize (IH t1 Hwf1 Hops). destruct (run_ops t1 ops) as [t2 oks].
  destruct IH as [Hwf2 Hr]. split; [done|]. by econstructor.
Qed.

(** C4: The chunk table refines the bounded store: from a freshly constructed
    table, any sequence of the public operations (insertions with their growth
    and evictions, frees, erasures, refinements, clears, reservations and cap
    changes) gives results and contents the abstract store allows, and the
    table stays well formed. *)
Theorem chunk_table_refines_store cap ops :
  cap <= 2 ^ 57 -> ops_fit (new_table cap) ops ->
  let '(t', oks) := run_ops (new_table cap) ops in
  wf t' /\ store_run (∅, 0) ops oks (store_of t') /\
  forall key, lookup_chunk t' key = (store_of t').1 !! key.
Proof.
  intros Hc Hfit. destruct (new_table_wf cap Hc) as [Hwf Ha].
  pose proof (run_simulates _ _ Hwf Hfit) as H.
  destruct (run_ops (new_table cap) ops) as [t' oks]. destruct H as [Hwf' Hr].
  unfold store_of in Hr at 1. rewrite Ha in Hr. split_and!; [done|exact Hr|].
  intros key. apply lookup_chunk_abs, Hwf'.
Qed.

Definition demo_ops : list TableOp :=
  [OpSetMax 2; OpInsert 4096 24 24 1 7; OpInsert 8192 100 104 2 7; OpFree 4096 9;
   OpInsert 12288 5 24 10 7; OpInsert 16384 5 24 10 7].

Lemma chunk_table_refines_store_witness :
  let '(t', oks) := run_ops (new_table 16) demo_ops in
  wf t' /\ store_run (∅, 0) demo_ops oks (store_of t') /\
  forall key, lookup_chunk t' key = (store_of t').1 !! key.
Proof.
  apply (chunk_table_refines_store 16 demo_ops); [done|].
  repeat split; vm_compute; congruence.
Defined.

(** C21: A live record is never lost to make room: whatever [insert_live] does
    (growing, evicting, refusing), every live record under another pointer is
    found afterwards exactly as before. *)
Theorem live_never_evicted t key size usable ms tid other c :
  wf t -> capacity t <= 2 ^ 56 -> other <> key ->
  lookup_chunk t other = Some c -> c_state c = kChunkLive ->
  lookup_chunk (insert_live t key size usable ms tid).1 other = Some c.
Proof.
  intros Hwf Hc Hne Hl Hst. rewrite lookup_chunk_abs in Hl by apply Hwf.
  pose proof (insert_live_acts t key size usable ms tid Hwf Hc) as H.
  destruct (insert_live t key size usable ms tid) as [t' ok]. destruct H as (Hwf' & _ & H).
  cbn [fst]. rewrite lookup_chunk_abs by apply Hwf'.
  destruct (key =? 0); [by destruct H as [_ ->]|].
  destruct (abs t !! key); [destruct H as [_ ->]; by rewrite lookup_insert_ne|].
  destruct ok; [|by destruct H as (_ & _ & ->)].
  destruct H as (m & Hm & ->). rewrite lookup_insert_ne by done. by eapply admits_live.
Qed.

Definition demo_full : ChunkTable := (run_ops (new_table 16) (take 4 demo_ops)).1.

Lemma demo_full_wf : wf demo_full.
Proof.
  destruct (new_table_wf 16) as [Hwf _]; [done|].
  pose proof (run_simulates (new_table 16) (take 4 demo_ops) Hwf) as H.
  unfold demo_full. destruct (run_ops (new_table 16) (take 4 demo_ops)).
  apply H. repeat split; vm_compute; congruence.
Qed.

Lemma live_never_evicted_witness :
  lookup_chunk (insert_live demo_full 12288 5 24 10 7).1 8192 =
  Some (live_record 8192 100 104 2 7).
Proof.
  apply (live_never_evicted demo_full 12288 5 24 10 7 8192);
    [apply demo_full_wf|by vm_compute|done|by vm_compute|done].
Defined.

(** Insert then look up: an accepted [insert_live] leaves a live record with
    exactly the given size, usable size, time and thread under the pointer; it
    is refused only for the null pointer, or at the cap with no freed record to
    give up, and then the table's contents are unchanged. *)
Theorem insert_then_find t key size usable ms tid :
  wf t -> capacity t <= 2 ^ 56 ->
  let '(t', ok) := insert_live t key size usable ms tid in
  if ok then exists c, lookup_chunk t' key = Some c /\ c_state c = kChunkLive /\
    c_key c = key /\ c_size c = size /\ c_usable c = usable /\ c_alloc_ms c = ms /\
    c_free_ms c = 0 /\ c_tid c = tid
  else (key = 0 \/ (lookup_chunk t key = None /\ 0 < max_entries_ t <= size_ t /\
                    none_freed (abs t))) /\
       forall k, lookup_chunk t' k = lookup_chunk t k.
Proof.
  intros Hwf Hc. pose proof (insert_live_acts t key size usable ms tid Hwf Hc) as H.
  destruct (insert_live t key size usable ms tid) as [t' ok]. destruct H as (Hwf' & _ & H).
  assert (forall k, lookup_chunk t' k = abs t' !! k) as L' by (intros; apply lookup_chunk_abs, Hwf').
  assert (forall k, lookup_chunk t k = abs t !! k) as L by (intros; apply lookup_chunk_abs, Hwf).
  destruct (Z.eqb_spec key 0) as [->|Hk].
  { destruct H as [-> ->]. split; [by left|done]. }
  rewrite L. destruct (abs t !! key) as [c|] eqn:Ec.
  { destruct H as [-> Ha]. eexists. rewrite L', Ha, lookup_insert_eq. split; [done|].
    apply abs_Some_key in Ec as [Ec _]. by split_and!. }
  destruct ok.
  - destruct H as (m & _ & Ha). eexists. rewrite L', Ha, lookup_insert_eq. split; [done|]. by split_and!.
  - destruct H as (Hfull & Hnf & Ha). split; [by right|]. intros k. by rewrite L, L', Ha.
Qed.

Lemma insert_then_find_witness :
  let '(t', ok) := insert_live demo_full 12288 5 24 10 7 in
  if ok then exists c, lookup_chunk t' 12288 = Some c /\ c_state c = kChunkLive /\
    c_key c = 12288 /\ c_size c = 5 /\ c_usable c = 24 /\ c_alloc_ms c = 10 /\
    c_free_ms c = 0 /\ c_tid c = 7
  else (12288 = 0 \/ (lookup_chunk demo_full 12288 = None /\
          0 < max_entries_ demo_full <= size_ demo_full /\ none_freed (abs demo_full))) /\
       forall k, lookup_chunk t' k = lookup_chunk demo_full k.
Proof. apply (insert_then_find demo_full 12288 5 24 10 7); [apply demo_full_wf|by vm_compute]. Defined.

Lemma find_refines_map_witness :
  find_run demo_full 8192 <> None /\ lookup_chunk demo_full 8192 = abs demo_full !! 8192.
Proof. apply (find_refines_map demo_full 8192), demo_full_wf. Defined.

(** C20: Every unbounded loop of the table terminates on a well-formed table: a
    lookup, a placement (so also each rehash step), a backward-shift deletion
    and an eviction scan all finish within the fuel of the model, one round of
    the table or of the queue. *)
Theorem table_loops_terminate t :
  wf t ->
  (forall key, find_run t key <> None) /\
  (forall rec, c_state rec <> kChunkEmpty -> place_run t rec <> None) /\
  (forall key i, find t key = Some i -> erase_run t i <> None) /\
  (0 < max_entries_ t -> pop_loop (S (length (freed_fifo_ t))) t <> None) /\
  (0 < max_entries_ t -> shrink_loop (S (Z.to_nat (size_ t))) t <> None).
Proof.
  intros Hwf. pose proof (wf_table t Hwf) as Hok. split_and!.
  - intros key. destruct (decide (key ∈ c_key <$> contents (slots_ t))) as [Hin|Hout].
    + apply list_elem_of_fmap in Hin as (c & -> & Hc). apply elem_of_contents in Hc as [Ho Hl].
      apply list_elem_of_lookup in Hl as [i Hi]. apply lookup_slot in Hi as [Hi <-].
      by rewrite find_run_present.
    + by rewrite find_run_absent.
  - intros rec Hst. by destruct (place_run_spec t rec Hok Hst) as (l & mp & -> & _).
  - intros key i Hf. destruct (find_cases t key Hok) as [(j & E & Hj & Ho & _)|[E _]]; [|congruence].
    assert (j = i) as -> by congruence.
    by destruct (erase_run_spec t i Hok Hj Ho) as (l & k & -> & _).
  - intros Hm. by destruct (pop_loop_spec _ t Hwf Hm (pop_fuel t (wf_fifo t Hwf) Hm)) as (t' & ok & -> & _).
  - intros Hm. by destruct (shrink_loop_spec (S (Z.to_nat (size_ t))) t Hwf Hm ltac:(lia)) as (t' & -> & _).
Qed.

Lemma table_loops_terminate_witness :
  (forall key, find_run demo_full key <> None) /\
  (forall rec, c_state rec <> kChunkEmpty -> place_run demo_full rec <> None) /\
  (forall key i, find demo_full key = Some i -> erase_run demo_full i <> None) /\
  (0 < max_entries_ demo_full ->
     pop_loop (S (length (freed_fifo_ demo_full))) demo_full <> None) /\
  (0 < max_entries_ demo_full ->
     shrink_loop (S (Z.to_nat (size_ demo_full))) demo_full <> None).
Proof. apply (table_loops_terminate demo_full), demo_full_wf. Defined.

Lemma store_step_cap s op s' ok :
  store_step s op s' ok -> (forall n, op <> OpSetMax n) ->
  s'.2 = s.2 /\ (0 < s.2 -> Z.of_nat (size s.1) <= s.2 -> Z.of_nat (size s'.1) <= s'.2).
Proof.
  intros Hs Hop. split; [destruct Hs; try done; by destruct (Hop n)|].
  destruct Hs as [| | m cap key x1 x2 x3 x4 Hk Hn Hf| m cap key x1 x2 x3 x4 v c Hk Hn Hf Hv Hst
    | | | |m cap key Hs| | | | | | |]; cbn [fst snd] in *; intros Hpos Hle; try done;
    try (by destruct (Hop n)).
  - by rewrite map_size_insert_Some.
  - rewrite map_size_insert_None by done. unfold full in Hf. cbn in Hf. lia.
  - rewrite map_size_insert_None by (apply lookup_delete_None; by right).
    rewrite map_size_delete_Some by done.
    assert (size m <> 0%nat) by (apply (map_size_ne_0_lookup_2 m v); by eexists). lia.
  - by rewrite map_size_insert_Some.
  - rewrite map_size_delete. destruct (m !! key); cbn; lia.
  - by rewrite map_size_insert_Some.
  - by rewrite map_size_fmap.
  - rewrite map_size_empty. lia.
Qed.

(** Under a cap the table never outgrows it: if at most [max_entries]
    records are held, every operation other than a change of the cap leaves at
    most [max_entries], with the cap itself unchanged. *)
Theorem cap_respected t op :
  wf t -> op_fits t op -> (forall n, op <> OpSetMax n) ->
  0 < max_entries_ t -> size_ t <= max_entries_ t ->
  let t' := (apply_op t op).1 in
  max_entries_ t' = max_entries_ t /\ size_ t' <= max_entries_ t'.
Proof.
  intros Hwf Hfit Hop Hpos Hle. pose proof (op_simulates t op Hwf Hfit) as H.
  destruct (apply_op t op) as [t' ok]. destruct H as [Hwf' Hs]. cbn [fst].
  destruct (store_step_cap _ _ _ _ Hs Hop) as [Hm Hsz]. cbn in Hm, Hsz.
  rewrite (abs_size t Hwf) in Hle. rewrite (abs_size t' Hwf'). split; [done|]. by apply Hsz.
Qed.

Lemma cap_respected_witness :
  let t' := (apply_op demo_full (OpInsert 12288 5 24 10 7)).1 in
  max_entries_ t' = max_entries_ demo_full /\ size_ t' <= max_entries_ t'.
Proof.
  apply (cap_respected demo_full (OpInsert 12288 5 24 10 7));
    [apply demo_full_wf|by vm_compute|done|by vm_compute|by vm_compute].
Defined.

(** Lowering the cap below the number of live records does not bring the
    table under it: with two live records and a cap of one the table keeps both,
    so [size() <= max_entries()] is not an invariant of the cap alone. *)
Theorem cap_below_live_not_enforced :
  let t := (run_ops (new_table 16) [OpInsert 4096 24 24 1 7; OpInsert 8192 24 24 1 7]).1 in
  let t' := set_max_entries t 1 in
  max_entries_ t' = 1 /\ size_ t' = 2.
Proof. by vm_compute. Qed.

(** When the queue of hints is rebuilt from the table, the next record
    evicted is the oldest freed one, by release time and then by address. *)
Theorem refill_evicts_oldest t :
  wf t -> 0 < max_entries_ t ->
  none_freed (abs t) \/
  exists key, oldest_freed (abs t) key /\
    let '(t', ok) := pop_evictable (refill_freed_queue t) in
    ok = true /\ abs t' = delete key (abs t).
Proof.
  intros Hwf Hm. destruct (refill_head t Hwf Hm) as [Hn|(Hne & Hold)]; [by left|right].
  destruct (refill_spec t Hwf Hm) as (Hs & Hwf' & _).
  eexists. split; [exact Hold|]. destruct Hold as (c & Hc & Hst & _).
  rewrite <- (same_table_abs _ _ Hs) in Hc |- *. unfold pop_evictable.
  destruct (pop_loop_head (length (freed_fifo_ (refill_freed_queue t))) _ c Hwf' Hne Hc Hst)
    as (t' & -> & Ha). done.
Qed.

Lemma refill_evicts_oldest_witness :
  none_freed (abs demo_full) \/
  exists key, oldest_freed (abs demo_full) key /\
    let '(t', ok) := pop_evictable (refill_freed_queue demo_full) in
    ok = true /\ abs t' = delete key (abs demo_full).
Proof. apply (refill_evicts_oldest demo_full); [apply demo_full_wf|by vm_compute]. Defined.

(** A recycled pointer keeps the refinement of the chunk that was there
    before: re-inserting over a refined record leaves the refined mark and the
    old exact overhead on the new, never-read chunk. *)
Theorem recycled_keeps_refinement t key size usable ms tid c :
  wf t -> capacity t <= 2 ^ 56 -> lookup_chunk t key = Some c -> c_key c <> 0 ->
  exists c', lookup_chunk (insert_live t key size usable ms tid).1 key = Some c' /\
    c_flags c' = c_flags c /\ c_overhead_exact c' = c_overhead_exact c.
Proof.
  intros Hwf Hc Hl Hk. rewrite lookup_chunk_abs in Hl by apply Hwf.
  pose proof (insert_live_acts t key size usable ms tid Hwf Hc) as H.
  destruct (insert_live t key size usable ms tid) as [t' ok]. destruct H as (Hwf' & _ & H).
  cbn [fst]. rewrite lookup_chunk_abs by apply Hwf'.
  destruct (abs_Some_key _ _ _ Hl) as [Ek _]. rewrite Ek in Hk.
  destruct (Z.eqb_spec key 0); [done|]. rewrite Hl in H. destruct H as [_ ->].
  rewrite lookup_insert_eq. by eexists.
Qed.

Definition demo_refined : ChunkTable := (apply_op demo_full (OpRefine 4096 40 2)).1.

Lemma recycled_keeps_refinement_witness :
  exists c', lookup_chunk (insert_live demo_refined 4096 64 72 11 7).1 4096 = Some c' /\
    c_flags c' = 3 /\ c_overhead_exact c' = 40.
Proof.
  apply (recycled_keeps_refinement demo_refined 4096 64 72 11 7
    (mkChunk 4096 24 24 1 9 7 kChunkFreed 3 40)); [|by vm_compute|by vm_compute|done].
  pose proof (op_simulates demo_full (OpRefine 4096 40 2) demo_full_wf I) as H.
  unfold demo_refined. destruct (apply_op demo_full (OpRefine 4096 40 2)). apply H.
Defined.
