(* ===== verification/Grid.v ===== *)
(** * The address bucketizer (src/src/tui/grid.h, grid.cpp)

    Every cell of the map stands for a power-of-two span of addresses.  The
    granularity, the address-to-cell conversion with its inverse, the coverage
    test, and the two formatters of the legend and the gutter. *)

From Stdlib Require Import String.
From S2P Require Import Prelude.

Definition kMinCellBytes : Z := 64.
Definition kMaxCellBytes : Z := Z.shiftl 1 30.
Definition kGutterWidth : Z := 7.

Record Grid := mkGrid {
  base_ : Z;
  end_ : Z;
  cell_bytes_ : Z;
  log2_cell_bytes_ : Z;
  cols_ : Z;
  rows_ : Z;
  valid_ : bool
}.

Definition new_grid : Grid := mkGrid 0 0 kMinCellBytes 6 0 0 false.

Definition clamped_pow2 (v : Z) : Z :=
  if v <=? kMinCellBytes then kMinCellBytes
  else if kMaxCellBytes <=? v then kMaxCellBytes
  else bit_ceil v.

(** [g] does not enter: every field is assigned on both paths. *)
Definition configure (base end' cols rows : Z) : Grid * bool :=
  let cols := if 0 <? cols then cols else 0 in
  let rows := if 0 <? rows then rows else 0 in
  if (end' <=? base) || (cols =? 0) || (rows =? 0) then
    (mkGrid base end' kMinCellBytes (countr_zero kMinCellBytes) cols rows false, false)
  else
    let span := end' ⊟ base in
    let cells := cols ⊠ rows in
    let per_cell := span / cells in
    let per_cell := if span mod cells =? 0 then per_cell else per_cell ⊞ 1 in
    let cell := clamped_pow2 per_cell in
    (mkGrid base end' cell (countr_zero cell) cols rows true, true).

Definition set_bounds (g : Grid) (base end' : Z) : Grid * bool :=
  configure base end' (cols_ g) (rows_ g).
Definition set_viewport (g : Grid) (cols rows : Z) : Grid * bool :=
  configure (base_ g) (end_ g) cols rows.

Definition span (g : Grid) : Z := end_ g ⊟ base_ g.

Definition cell_count (g : Grid) : Z :=
  if (cols_ g <=? 0) || (rows_ g <=? 0) then 0 else cols_ g ⊠ rows_ g.

Definition index_of (g : Grid) (addr : Z) : option Z :=
  if negb (valid_ g) || (addr <? base_ g) then None
  else
    let index := Z.shiftr (addr ⊟ base_ g) (log2_cell_bytes_ g) in
    if cell_count g <=? index then None else Some index.

Definition row_of (g : Grid) (index : Z) : Z :=
  if cols_ g <=? 0 then 0 else index / cols_ g.
Definition col_of (g : Grid) (index : Z) : Z :=
  if cols_ g <=? 0 then 0 else index mod cols_ g.

Definition offset_of_row (g : Grid) (row : Z) : Z :=
  if negb (valid_ g) || (row <? 0) then 0
  else (row ⊠ cols_ g) ⊠ cell_bytes_ g.
Definition addr_of_row (g : Grid) (row : Z) : Z := base_ g ⊞ offset_of_row g row.

Definition covers_whole_span (g : Grid) : bool :=
  if negb (valid_ g) then false
  else
    let cells := cell_count g in
    let needed := span g / cell_bytes_ g ⊞
                  (if span g mod cell_bytes_ g =? 0 then 0 else 1) in
    needed <=? cells.

(** ** Formatting *)

Definition kUnits : list (list Z) :=
  [str "B"; str "KB"; str "MB"; str "GB"; str "TB"; str "PB"; str "EB"].

(** [while (v >= 1024 && unit < last) { rem = v % 1024; v /= 1024; ++unit; }] *)
Fixpoint scale_loop (fuel : nat) (v rem unit : Z) : Z * Z * Z :=
  match fuel with
  | O => (v, rem, unit)
  | S fuel =>
      if (1024 <=? v) && (unit <? 6)
      then scale_loop fuel (v / 1024) (v mod 1024) (unit + 1)
      else (v, rem, unit)
  end.

(** The scaled value, its tenths and the unit index. *)
Definition scale_bytes (bytes : Z) : Z * Z * Z :=
  let '(v, rem, unit) := scale_loop 7 bytes 0 0 in
  (v, if (0 <? unit) && (v <? 10) then (rem ⊠ 10) / 1024 else 0, unit).

Definition unit_name (unit : Z) : list Z := kUnits !!! Z.to_nat unit.

Definition format_byte_size (n bytes : Z) : list Z * Z :=
  if n =? 0 then ([], 0)
  else
    let '(whole, tenths, unit) := scale_bytes bytes in
    let text := if negb (tenths =? 0)
                then dec whole ++ str "." ++ dec tenths ++ str " " ++ unit_name unit
                else dec whole ++ str " " ++ unit_name unit in
    snprintf n text.

Definition offset_body (offset : Z) : list Z :=
  let '(whole, tenths, unit) := scale_bytes offset in
  if negb (tenths =? 0)
  then dec whole ++ str "." ++ dec tenths ++ unit_name unit
  else dec whole ++ unit_name unit.

Definition format_offset (n offset : Z) : list Z * Z :=
  if n <? kGutterWidth + 1 then ([], 0)
  else
    let '(body, len) := snprintf 32 (offset_body offset) in
    let body_len := if kGutterWidth <? len then kGutterWidth else len in
    let pad := kGutterWidth - body_len in
    (replicate (Z.to_nat pad) 32 ++ take (Z.to_nat body_len) body, kGutterWidth).

(** ** Well-formed grids *)

(** What [configure] establishes; [int] values below [2^31]. *)
Record grid_ok (g : Grid) : Prop := {
  go_cell : exists k, 6 <= k <= 30 /\ cell_bytes_ g = 2 ^ k /\ log2_cell_bytes_ g = k;
  go_dims : 0 <= cols_ g < 2 ^ 31 /\ 0 <= rows_ g < 2 ^ 31;
  go_addr : is_u64 (base_ g) /\ is_u64 (end_ g);
  go_valid : valid_ g = true -> base_ g < end_ g /\ 0 < cols_ g /\ 0 < rows_ g
}.

Lemma clamped_pow2_spec v :
  exists k, 6 <= k <= 30 /\ clamped_pow2 v = 2 ^ k /\
    (v <= 2 ^ 30 -> v <= 2 ^ k) /\ (6 < k -> 2 ^ (k - 1) < v).
Proof.
  unfold clamped_pow2, kMinCellBytes, kMaxCellBytes. change (Z.shiftl 1 30) with (2 ^ 30).
  destruct (Z.leb_spec v 64) as [Hlo|Hlo].
  { exists 6. change (2 ^ 6) with 64. split_and!; lia. }
  destruct (Z.leb_spec (2 ^ 30) v) as [Hhi|Hhi].
  { exists 30. split_and!; lia. }
  unfold bit_ceil. destruct (Z.leb_spec v 1); [lia|].
  pose proof (Z.log2_up_spec v ltac:(lia)) as [H1 H2].
  exists (Z.log2_up v). split_and!.
  - apply (Z.log2_up_le_mono 64 v). lia.
  - rewrite <- (Z.log2_up_pow2 30) by lia. apply Z.log2_up_le_mono. lia.
  - done.
  - lia.
  - intros _. by rewrite Z.sub_1_r.
Qed.

Lemma configure_ok base end' cols rows :
  is_u64 base -> is_u64 end' -> cols < 2 ^ 31 -> rows < 2 ^ 31 ->
  grid_ok (configure base end' cols rows).1.
Proof.
  intros Hb He Hc Hr. unfold configure.
  set (cols' := if 0 <? cols then cols else 0).
  set (rows' := if 0 <? rows then rows else 0).
  assert (0 <= cols' < 2 ^ 31) by (unfold cols'; destruct (Z.ltb_spec 0 cols); lia).
  assert (0 <= rows' < 2 ^ 31) by (unfold rows'; destruct (Z.ltb_spec 0 rows); lia).
  destruct ((end' <=? base) || (cols' =? 0) || (rows' =? 0)) eqn:E.
  - split; cbn; try done. by exists 6.
  - bprop. split; cbn; try done; [|intros _; lia].
    destruct (clamped_pow2_spec (if (end' ⊟ base) mod (cols' ⊠ rows') =? 0
      then (end' ⊟ base) / (cols' ⊠ rows') else (end' ⊟ base) / (cols' ⊠ rows') ⊞ 1))
      as (k & Hk & Ek & _).
    exists k. split_and!; [lia|lia|done|]. rewrite Ek. apply countr_zero_pow2. lia.
Qed.

Lemma new_grid_ok : grid_ok new_grid.
Proof. split; cbn; try done. by exists 6. Qed.

Lemma cell_count_exact g :
  grid_ok g -> cell_count g = cols_ g * rows_ g.
Proof.
  intros Hg. destruct (go_dims g Hg) as [Hc Hr]. unfold cell_count.
  destruct (Z.leb_spec (cols_ g) 0); [cbn; nia|].
  destruct (Z.leb_spec (rows_ g) 0); [cbn; nia|]. cbn [orb].
  apply u64_small. unfold is_u64. rewrite pow2_64.
  change (2 ^ 31) with 2147483648 in *. nia.
Qed.

Lemma span_exact g : grid_ok g -> valid_ g = true -> span g = end_ g - base_ g.
Proof.
  intros Hg Hv. destruct (go_addr g Hg) as [Hb He]. destruct (go_valid g Hg Hv) as [Hlt _].
  unfold span. apply u64_small. unfold is_u64 in *. lia.
Qed.

Lemma index_of_nonneg g addr i : index_of g addr = Some i -> 0 <= i.
Proof. unfold index_of. intros Hi. tests; simplify_eq. apply Z.shiftr_nonneg, u64_range. Qed.

Lemma index_of_exact g addr i :
  grid_ok g -> is_u64 addr ->
  index_of g addr = Some i <->
  valid_ g = true /\ 0 <= i < cols_ g * rows_ g /\
  base_ g + i * cell_bytes_ g <= addr < base_ g + (i + 1) * cell_bytes_ g.
Proof.
  intros Hg Ha. destruct (go_cell g Hg) as (k & Hk & Ec & El).
  destruct (go_addr g Hg) as [Hb _]. unfold index_of.
  assert (0 < 2 ^ k) by (apply Z.pow_pos_nonneg; lia).
  destruct (valid_ g) eqn:Hv; cbn [negb orb]; [|by split; [|intros (? & _)]].
  destruct (Z.ltb_spec addr (base_ g)) as [Hlt|Hge].
  { split; [done|]. intros (_ & Hi & Hx). nia. }
  rewrite cell_count_exact, El, Ec, Z.shiftr_div_pow2 by (done || lia).
  rewrite (u64_small (addr - base_ g)) by (unfold is_u64 in *; lia).
  pose proof (Z.div_mod (addr - base_ g) (2 ^ k) ltac:(lia)) as Hdm.
  pose proof (Z.mod_pos_bound (addr - base_ g) (2 ^ k) ltac:(lia)) as Hm.
  assert (0 <= (addr - base_ g) / 2 ^ k) by (apply Z.div_pos; lia).
  destruct (Z.leb_spec (cols_ g * rows_ g) ((addr - base_ g) / 2 ^ k)) as [Hle|Hgt].
  - split; [done|]. intros (_ & Hi & Hx). exfalso.
    assert ((addr - base_ g) / 2 ^ k < i + 1) by (apply Z.div_lt_upper_bound; lia). lia.
  - split.
    + intros [= <-]. split_and!; [done|lia|lia|lia|lia].
    + intros (_ & Hi & Hx). f_equal. symmetry. apply (Z.div_unique _ _ _ (addr - base_ g - i * 2 ^ k)); lia.
Qed.

(** [index_of] inverts the bucketing exactly: an address gets cell [i] if and
    only if it lies in the half-open span of cell [i] of a valid grid, without
    wrap-around for any 64-bit base; addresses below the base or past the last
    cell get no cell. *)
Theorem index_of_spec base end' cols rows addr i :
  is_u64 base -> is_u64 end' -> cols < 2 ^ 31 -> rows < 2 ^ 31 -> is_u64 addr ->
  let g := (configure base end' cols rows).1 in
  index_of g addr = Some i <->
  valid_ g = true /\ 0 <= i < cols_ g * rows_ g /\
  base_ g + i * cell_bytes_ g <= addr < base_ g + (i + 1) * cell_bytes_ g.
Proof. intros. apply index_of_exact; [by apply configure_ok|done]. Qed.

Lemma index_of_spec_witness :
  let g := (configure 4096 69632 80 20).1 in
  index_of g 8192 = Some 64 <->
  valid_ g = true /\ 0 <= 64 < cols_ g * rows_ g /\
  base_ g + 64 * cell_bytes_ g <= 8192 < base_ g + (64 + 1) * cell_bytes_ g.
Proof. apply (index_of_spec 4096 69632 80 20 8192 64); by vm_compute. Defined.

(** A configured grid stays legal whatever the input: the cell size is a
    power of two between 64 bytes and 1 GiB and the shift is its logarithm, also
    for the degenerate spans and viewports that make it invalid; it is valid
    exactly for a non-empty span and a viewport with cells. *)
Theorem configure_legal base end' cols rows :
  is_u64 base -> is_u64 end' -> cols < 2 ^ 31 -> rows < 2 ^ 31 ->
  let '(g, ok) := configure base end' cols rows in
  grid_ok g /\ ok = valid_ g /\ (valid_ g = true <-> base < end' /\ 0 < cols /\ 0 < rows).
Proof.
  intros Hb He Hc Hr. pose proof (configure_ok base end' cols rows Hb He Hc Hr) as Hg.
  unfold configure in *.
  destruct (Z.ltb_spec 0 cols), (Z.ltb_spec 0 rows);
    destruct ((end' <=? base) || _ || _) eqn:E; bprop; cbn [fst] in *;
    (split_and!; [done|done|]); cbn; split; try done; try lia;
    intros; exfalso; repeat match goal with H : _ \/ _ |- _ => destruct H; bprop end; lia.
Qed.

Lemma configure_legal_witness :
  let '(g, ok) := configure 4096 69632 80 20 in
  grid_ok g /\ ok = valid_ g /\ (valid_ g = true <-> 4096 < 69632 /\ 0 < 80 /\ 0 < 20).
Proof. apply (configure_legal 4096 69632 80 20); by vm_compute. Defined.

(** ** Coverage *)
Lemma ceil_div a b : 0 <= a -> 0 < b -> a / b + (if a mod b =? 0 then 0 else 1) = (a + b - 1) / b.
Proof.
  intros Ha Hb. pose proof (Z.div_mod a b ltac:(lia)). pose proof (Z.mod_pos_bound a b ltac:(lia)).
  destruct (Z.eqb_spec (a mod b) 0) as [E|E].
  - apply (Z.div_unique _ _ _ (b - 1)); lia.
  - apply (Z.div_unique _ _ _ (a mod b - 1)); lia.
Qed.

Lemma covers_exact g :
  grid_ok g -> valid_ g = true ->
  covers_whole_span g = true <-> end_ g - base_ g <= cell_bytes_ g * (cols_ g * rows_ g).
Proof.
  intros Hg Hv. destruct (go_cell g Hg) as (k & Hk & Ec & El).
  destruct (go_addr g Hg) as [Hb He]. destruct (go_valid g Hg Hv) as (Hlt & Hc0 & Hr0).
  unfold covers_whole_span. rewrite Hv. cbn [negb].
  rewrite cell_count_exact, span_exact by done.
  assert (64 <= 2 ^ k) by (apply (Z.pow_le_mono_r 2 6 k); lia). rewrite Ec.
  assert (0 <= (end_ g - base_ g) / 2 ^ k <= (end_ g - base_ g) / 1).
  { split; [apply Z.div_pos; lia|]. apply Z.div_le_compat_l; lia. }
  rewrite Z.div_1_r in *.
  assert ((end_ g - base_ g) / 2 ^ k < 2 ^ 63).
  { apply Z.div_lt_upper_bound; [lia|]. unfold is_u64 in *. rewrite pow2_64 in *.
    change (2 ^ 63) with 9223372036854775808. lia. }
  rewrite u64_small.
  2: { unfold is_u64. rewrite pow2_64. change (2 ^ 63) with 9223372036854775808 in *.
       destruct (_ =? 0); lia. }
  rewrite ceil_div by lia. rewrite Z.leb_le. split; intros Hx.
  - pose proof (Z.mul_succ_div_gt (end_ g - base_ g + 2 ^ k - 1) (2 ^ k)). nia.
  - apply Z.lt_succ_r. apply Z.div_lt_upper_bound; lia.
Qed.

(** The cell size of a valid grid is the clamped power of two of the ceiling
    of span over cells. *)
Lemma configure_cells base end' cols rows :
  is_u64 base -> is_u64 end' -> cols < 2 ^ 31 -> rows < 2 ^ 31 ->
  let g := (configure base end' cols rows).1 in
  valid_ g = true ->
  exists p, cell_bytes_ g = clamped_pow2 p /\
    end' - base <= p * (cols_ g * rows_ g) /\ (p - 1) * (cols_ g * rows_ g) < end' - base.
Proof.
  intros Hb He Hc Hr. unfold configure.
  set (c := if 0 <? cols then cols else 0). set (r := if 0 <? rows then rows else 0).
  assert (0 <= c < 2 ^ 31) by (unfold c; destruct (Z.ltb_spec 0 cols); lia).
  assert (0 <= r < 2 ^ 31) by (unfold r; destruct (Z.ltb_spec 0 rows); lia).
  destruct ((end' <=? base) || (c =? 0) || (r =? 0)) eqn:E; [done|]. bprop. cbn. intros _.
  change (2 ^ 31) with 2147483648 in *.
  rewrite (u64_small (c * r)) by (unfold is_u64; rewrite pow2_64; nia).
  rewrite (u64_small (end' - base)) by (unfold is_u64 in *; lia).
  assert (0 < c * r) as Hcr by nia. generalize dependent (c * r). intros n Hn.
  pose proof (Z.div_mod (end' - base) n ltac:(lia)).
  pose proof (Z.mod_pos_bound (end' - base) n ltac:(lia)).
  assert (0 <= (end' - base) / n <= end' - base).
  { split; [apply Z.div_pos; lia|]. apply Z.div_le_upper_bound; nia. }
  eexists. split; [done|]. destruct (Z.eqb_spec ((end' - base) mod n) 0) as [E0|E0]; [lia|].
  rewrite u64_small; [lia|]. unfold is_u64 in *. split; [lia|].
  destruct (decide (n = 1)) as [->|]; [by rewrite Z.mod_1_r in E0|].
  assert ((end' - base) / n < end' - base) by (apply Z.div_lt; lia). lia.
Qed.

(** [covers_whole_span] answers the exact question without overflow: it is
    true if and only if cell size times cell count reaches the span, and then
    every address of the span has a cell.  A grid whose clamp did not bite
    always covers its span, and its cells are the smallest legal power of two
    that does. *)
Theorem covers_whole_span_spec base end' cols rows :
  is_u64 base -> is_u64 end' -> cols < 2 ^ 31 -> rows < 2 ^ 31 ->
  let g := (configure base end' cols rows).1 in
  valid_ g = true ->
  (covers_whole_span g = true <-> end' - base <= cell_bytes_ g * (cols_ g * rows_ g)) /\
  (covers_whole_span g = true ->
     forall addr, base <= addr < end' -> is_Some (index_of g addr)) /\
  (end' - base <= 2 ^ 30 * (cols_ g * rows_ g) -> covers_whole_span g = true) /\
  (kMinCellBytes < cell_bytes_ g -> cell_bytes_ g / 2 * (cols_ g * rows_ g) < end' - base).
Proof.
  intros Hb He Hc Hr g Hv. pose proof (configure_ok base end' cols rows Hb He Hc Hr) as Hg.
  fold g in Hg. pose proof (covers_exact g Hg Hv) as Hcov.
  destruct (go_valid g Hg Hv) as (Hlt & Hc0 & Hr0). destruct (go_dims g Hg) as [Hcd Hrd].
  assert (base_ g = base /\ end_ g = end') as [Eb Ee].
  { unfold g, configure. by destruct (_ || _ || _). }
  pose proof (configure_cells base end' cols rows Hb He Hc Hr Hv) as Hp. fold g in Hp.
  rewrite Eb, Ee in *. split_and!; [apply Hcov..| | |].
  - intros Ht%Hcov addr Ha. destruct (go_cell g Hg) as (k & Hk & Ec & _).
    assert (0 < 2 ^ k) by (apply Z.pow_pos_nonneg; lia).
    exists ((addr - base) / cell_bytes_ g). apply index_of_exact; [done|unfold is_u64 in *; lia|].
    rewrite Ec, Eb in *.
    pose proof (Z.div_mod (addr - base) (2 ^ k) ltac:(lia)).
    pose proof (Z.mod_pos_bound (addr - base) (2 ^ k) ltac:(lia)).
    split_and!; [done|apply Z.div_pos; lia|apply Z.div_lt_upper_bound; lia|lia|lia].
  - intros Hspan. apply Hcov.
    destruct Hp as (p & -> & H1 & H2). destruct (clamped_pow2_spec p) as (k & Hk & -> & Hcl & _).
    assert (p <= 2 ^ 30) by nia. specialize (Hcl ltac:(lia)). nia.
  - intros Hbig. destruct Hp as (p & Ep & H1 & H2). rewrite Ep in *.
    destruct (clamped_pow2_spec p) as (k & Hk & Ek & _ & Hmin). rewrite Ek in *.
    assert (6 < k).
    { apply (Z.pow_lt_mono_r_iff 2); [lia..|]. exact Hbig. }
    specialize (Hmin ltac:(lia)).
    replace (2 ^ k / 2) with (2 ^ (k - 1)) by (by rewrite Z.pow_sub_r by lia). nia.
Qed.

Lemma covers_whole_span_spec_witness :
  let g := (configure 4096 69632 80 20).1 in
  (covers_whole_span g = true <-> 69632 - 4096 <= cell_bytes_ g * (cols_ g * rows_ g)) /\
  (covers_whole_span g = true ->
     forall addr, 4096 <= addr < 69632 -> is_Some (index_of g addr)) /\
  (69632 - 4096 <= 2 ^ 30 * (cols_ g * rows_ g) -> covers_whole_span g = true) /\
  (kMinCellBytes < cell_bytes_ g -> cell_bytes_ g / 2 * (cols_ g * rows_ g) < 69632 - 4096).
Proof. apply (covers_whole_span_spec 4096 69632 80 20); by vm_compute. Defined.

(** ** Rows and columns *)
Lemma row_col_spec g i :
  grid_ok g -> 0 <= i < cols_ g * rows_ g ->
  i = row_of g i * cols_ g + col_of g i /\ 0 <= row_of g i < rows_ g /\ 0 <= col_of g i < cols_ g.
Proof.
  intros Hg Hi. destruct (go_dims g Hg) as [Hc Hr]. unfold row_of, col_of.
  destruct (Z.leb_spec (cols_ g) 0); [nia|].
  pose proof (Z.div_mod i (cols_ g) ltac:(lia)).
  pose proof (Z.mod_pos_bound i (cols_ g) ltac:(lia)).
  split_and!; [lia|apply Z.div_pos; lia|apply Z.div_lt_upper_bound; lia|lia|lia].
Qed.

(** The gutter and the map agree: the address labelling a row of a valid grid
    is the first address of that row's first cell, so looking it up gives back
    the row, whenever the row starts inside the 64-bit address space. *)
Theorem gutter_labels_row g row :
  grid_ok g -> valid_ g = true -> 0 <= row < rows_ g ->
  base_ g + row * cols_ g * cell_bytes_ g < 2 ^ 64 ->
  addr_of_row g row = base_ g + row * cols_ g * cell_bytes_ g /\
  index_of g (addr_of_row g row) = Some (row * cols_ g) /\
  row_of g (row * cols_ g) = row /\ col_of g (row * cols_ g) = 0.
Proof.
  intros Hg Hv Hrow Hb. destruct (go_valid g Hg Hv) as (Hlt & Hc0 & Hr0).
  destruct (go_dims g Hg) as [Hc Hr]. destruct (go_addr g Hg) as [Hba _].
  destruct (go_cell g Hg) as (k & Hk & Ec & _).
  assert (64 <= cell_bytes_ g) by (rewrite Ec; apply (Z.pow_le_mono_r 2 6 k); lia).
  assert (0 <= row * cols_ g) by nia.
  assert (row * cols_ g <= row * cols_ g * cell_bytes_ g) by nia.
  unfold is_u64 in Hba.
  assert (addr_of_row g row = base_ g + row * cols_ g * cell_bytes_ g) as Ea.
  { unfold addr_of_row, offset_of_row. rewrite Hv. cbn [negb orb].
    destruct (Z.ltb_spec row 0); [lia|].
    rewrite (u64_small (row * cols_ g)) by (unfold is_u64; lia).
    rewrite (u64_small (row * cols_ g * cell_bytes_ g)) by (unfold is_u64; lia).
    apply u64_small. unfold is_u64. lia. }
  split_and!; [done| |unfold row_of|unfold col_of].
  - rewrite Ea. apply index_of_exact; [done|unfold is_u64; lia|].
    split_and!; [done|lia|nia|lia|lia].
  - destruct (Z.leb_spec (cols_ g) 0); [lia|]. apply Z.div_mul. lia.
  - destruct (Z.leb_spec (cols_ g) 0); [lia|]. apply Z.mod_mul. lia.
Qed.

Lemma gutter_labels_row_witness :
  let g := (configure 4096 69632 80 20).1 in
  addr_of_row g 5 = base_ g + 5 * cols_ g * cell_bytes_ g /\
  index_of g (addr_of_row g 5) = Some (5 * cols_ g) /\
  row_of g (5 * cols_ g) = 5 /\ col_of g (5 * cols_ g) = 0.
Proof.
  apply (gutter_labels_row (configure 4096 69632 80 20).1 5);
    [apply configure_ok; by vm_compute|by vm_compute..].
Defined.

(** ** Formatting *)

(** The scaling loop divides by 1024 a number of times; [r] is what the last
    division left over. *)
Lemma scale_loop_spec fuel v rem unit :
  0 <= v -> 0 <= unit <= 6 -> 6 - unit < Z.of_nat fuel -> v < 1024 ^ (7 - unit) ->
  let '(v', rem', unit') := scale_loop fuel v rem unit in
  unit <= unit' <= 6 /\ 0 <= v' < 1024 /\
  (unit' = unit -> v' = v /\ rem' = rem) /\
  (unit < unit' -> 0 <= rem' < 1024 /\
     (v' * 1024 + rem') * 1024 ^ (unit' - unit - 1) <= v <
     (v' * 1024 + rem' + 1) * 1024 ^ (unit' - unit - 1)).
Proof.
  revert v rem unit. induction fuel as [|fuel IH]; intros v rem unit Hv Hu Hf Hb; [lia|].
  cbn [scale_loop]. destruct (Z.leb_spec 1024 v) as [Hge|Hlt]; cbn [andb].
  2: { split_and!; try lia; done. }
  destruct (Z.ltb_spec unit 6) as [Hu6|Hu6].
  2: { assert (unit = 6) as -> by lia. change (1024 ^ (7 - 6)) with 1024 in Hb. lia. }
  pose proof (Z.div_mod v 1024 ltac:(lia)) as Hdm.
  pose proof (Z.mod_pos_bound v 1024 ltac:(lia)) as Hm.
  assert (0 <= v / 1024) by (apply Z.div_pos; lia).
  assert (v / 1024 < 1024 ^ (7 - (unit + 1))) as Hb'.
  { apply Z.div_lt_upper_bound; [lia|]. replace (7 - unit) with (Z.succ (7 - (unit + 1))) in Hb by lia.
    by rewrite Z.pow_succ_r in Hb by lia. }
  specialize (IH (v / 1024) (v mod 1024) (unit + 1) ltac:(lia) ltac:(lia) ltac:(lia) Hb').
  destruct (scale_loop fuel (v / 1024) (v mod 1024) (unit + 1)) as [[v' rem'] unit'].
  destruct IH as (Hu' & Hv' & Hsame & Hmore). split_and!; try lia. intros _.
  destruct (decide (unit' = unit + 1)) as [->|Hne].
  - destruct (Hsame eq_refl) as [-> ->].
    replace (unit + 1 - unit - 1) with 0 by lia. rewrite Z.pow_0_r. lia.
  - destruct (Hmore ltac:(lia)) as (Hr & Hlo & Hhi). split; [done|].
    replace (unit' - unit - 1) with (Z.succ (unit' - (unit + 1) - 1)) by lia.
    rewrite Z.pow_succ_r by lia. nia.
Qed.

(** The scaled figure of the legend and the gutter is the byte count rounded
    down: at most three digits and a unit up to EB, below ten with one decimal,
    whole units otherwise.  The decimal never overstates; it is taken from the
    last remainder only, so it can fall short by one unit of the next scale. *)
Lemma scale_bytes_spec bytes :
  is_u64 bytes ->
  let '(whole, tenths, unit) := scale_bytes bytes in
  0 <= unit <= 6 /\ 0 <= whole < 1024 /\ 0 <= tenths <= 9 /\
  whole * 1024 ^ unit <= bytes < (whole + 1) * 1024 ^ unit /\
  (0 < unit -> whole < 10 ->
     (whole * 10 + tenths) * 1024 ^ unit <= bytes * 10 <
     (whole * 10 + tenths + 1) * 1024 ^ unit + 10 * 1024 ^ (unit - 1)) /\
  (unit = 0 \/ 10 <= whole -> tenths = 0).
Proof.
  intros Hb. unfold scale_bytes.
  pose proof (scale_loop_spec 7 bytes 0 0 ltac:(apply Hb) ltac:(lia) ltac:(lia)) as H.
  destruct (scale_loop 7 bytes 0 0) as [[v rem] unit].
  destruct H as (Hu & Hv & Hsame & Hmore).
  { assert (2 ^ 64 < 1024 ^ (7 - 0)) by done. destruct Hb. lia. }
  destruct (decide (unit = 0)) as [->|Hne].
  { destruct (Hsame eq_refl) as [-> ->]. cbn. split_and!; lia. }
  destruct (Hmore ltac:(lia)) as (Hr & Hlo & Hhi). clear Hmore Hsame.
  destruct (Z.ltb_spec 0 unit); [|lia]. cbn [andb].
  assert (0 < 1024 ^ (unit - 0 - 1)) by (apply Z.pow_pos_nonneg; lia).
  replace (1024 ^ unit) with (1024 * 1024 ^ (unit - 0 - 1))
    by (rewrite <- Z.pow_succ_r by lia; f_equal; lia).
  replace (1024 ^ (unit - 1)) with (1024 ^ (unit - 0 - 1)) by (f_equal; lia).
  generalize dependent (1024 ^ (unit - 0 - 1)). intros q Hlo Hhi Hq. cbv beta iota.
  assert (0 <= v * q) by nia. assert (0 <= rem * q <= 1023 * q) by nia.
  destruct (Z.ltb_spec v 10) as [Hv10|Hv10].
  - rewrite u64_small by (unfold is_u64; rewrite pow2_64; lia).
    pose proof (Z.mod_pos_bound (rem * 10) 1024 ltac:(lia)).
    pose proof (Z.div_mod (rem * 10) 1024 ltac:(lia)).
    assert (0 <= rem * 10 / 1024 <= 9).
    { split; [apply Z.div_pos; lia|]. apply Z.lt_succ_r, Z.div_lt_upper_bound; lia. }
    generalize dependent (rem * 10 / 1024). generalize dependent (rem * 10 mod 1024).
    intros m Hm t Ht Ht9. assert (1024 * (t * q) <= 10 * (rem * q) <= 1024 * (t * q) + 1023 * q) by nia.
    split_and!; lia.
  - split_and!; lia.
Qed.

Lemma unit_name_length unit : 0 <= unit <= 6 -> (length (unit_name unit) <= 2)%nat.
Proof.
  intros Hu. assert (unit ∈ [0; 1; 2; 3; 4; 5; 6]) as Hin.
  { rewrite !elem_of_cons. lia. }
  rewrite !elem_of_cons in Hin.
  repeat (destruct Hin as [->|Hin]; [vm_compute; lia|]). by apply elem_of_nil in Hin.
Qed.

Lemma offset_body_length offset :
  is_u64 offset -> (length (offset_body offset) <= 6)%nat.
Proof.
  intros Ho. unfold offset_body. pose proof (scale_bytes_spec offset Ho) as H.
  destruct (scale_bytes offset) as [[whole tenths] unit].
  destruct H as (Hu & Hw & Ht & _ & _ & Hz). pose proof (unit_name_length unit Hu).
  destruct (Z.eqb_spec tenths 0) as [->|Hne]; cbn [negb]; rewrite !length_app.
  - pose proof (dec_length whole 4 ltac:(lia)). change (10 ^ Z.of_nat 4) with 10000 in *. lia.
  - assert (whole < 10) by lia.
    pose proof (dec_length whole 1 ltac:(lia)). pose proof (dec_length tenths 1 ltac:(lia)).
    change (10 ^ Z.of_nat 1) with 10 in *. change (length (str ".")) with 1%nat. lia.
Qed.

(** A gutter label is always exactly seven columns wide and never cut: the
    buffer holds the scaled text right-aligned behind spaces for every 64-bit
    offset, so the map cannot shift sideways as the heap grows.  A buffer that
    is too small gets the empty string and length zero. *)
Theorem format_offset_spec n offset :
  is_u64 offset ->
  format_offset n offset =
    (if n <? 8 then ([], 0)
     else (replicate (7 - length (offset_body offset)) 32 ++ offset_body offset, 7)) /\
  (n < 8 \/ length (format_offset n offset).1 = 7%nat).
Proof.
  intros Ho. pose proof (offset_body_length offset Ho) as Hl. unfold format_offset, kGutterWidth.
  change (7 + 1) with 8. destruct (Z.ltb_spec n 8) as [|Hge]; [split; [done|by left]|].
  cbn [snprintf fst snd]. unfold snprintf.
  destruct (Z.ltb_spec 7 (Z.of_nat (length (offset_body offset)))); [lia|].
  rewrite (take_ge (offset_body offset)) by lia.
  rewrite take_ge by lia.
  replace (Z.to_nat (7 - Z.of_nat (length (offset_body offset))))
    with (7 - length (offset_body offset))%nat by lia.
  split; [done|]. right. cbn [fst]. rewrite length_app, length_replicate. lia.
Qed.

Lemma format_offset_spec_witness :
  format_offset 8 1588 =
    (if 8 <? 8 then ([], 0)
     else (replicate (7 - length (offset_body 1588)) 32 ++ offset_body 1588, 7)) /\
  (8 < 8 \/ length (format_offset 8 1588).1 = 7%nat).
Proof. apply (format_offset_spec 8 1588). by vm_compute. Defined.
