(* ===== verification/ProcMaps.v ===== *)
(** * The address-space scanner (src/src/tui/proc_maps.h, proc_maps.cpp)

    The parser of one line of /proc/<pid>/maps, the classification of regions,
    the scanner's state with its bounds, arena counts and re-scan timer, and the
    lookup of the region covering an address.  Reading the file is driven by the
    results of [open] and [read], which are inputs of the model. *)

From Stdlib Require Import String.
From S2P Require Import Prelude.

Definition kRescanIntervalMs : Z := 500.
Definition kThreadArenaAlign : Z := Z.shiftl 64 20.
Definition kArenaLabelMax : Z := 32.

Definition kPermRead : Z := 1.
Definition kPermWrite : Z := 2.
Definition kPermExec : Z := 4.
Definition kPermPrivate : Z := 8.

Inductive RegionKind := Heap | Anon | Stack | File | Other.
#[export] Instance RegionKind_eq_dec : EqDecision RegionKind.
Proof. solve_decision. Defined.

Inductive ScanStatus := Ok | TargetGone | Denied | ReadFailed.
#[export] Instance ScanStatus_eq_dec : EqDecision ScanStatus.
Proof. solve_decision. Defined.

Record Region := mkRegion {
  r_start : Z;
  r_end : Z;
  r_file_offset : Z;
  r_inode : Z;
  r_kind : RegionKind;
  r_perms : Z;
  r_thread_arena : bool
}.

Definition region_size (r : Region) : Z := r_end r ⊟ r_start r.
Definition contains (r : Region) (addr : Z) : bool := (r_start r <=? addr) && (addr <? r_end r).
Definition allocatable (r : Region) : bool :=
  bool_decide (r_kind r = Heap) || bool_decide (r_kind r = Anon).

Record AddrRange := mkRange { ar_base : Z; ar_end : Z }.
Definition range_empty (b : AddrRange) : bool := ar_end b <=? ar_base b.
Definition range_span (b : AddrRange) : Z :=
  if range_empty b then 0 else ar_end b ⊟ ar_base b.

(** ** Field parsers

    A cursor into the line is the text still to be read. *)

Definition hex_digit (c : Z) : option Z :=
  if (48 <=? c) && (c <=? 57) then Some (c - 48)
  else if (97 <=? c) && (c <=? 102) then Some (c - 97 + 10)
  else if (65 <=? c) && (c <=? 70) then Some (c - 65 + 10)
  else None.

(** [n] is [i - start]; the result carries how many digits were consumed. *)
Fixpoint hex_loop (s : list Z) (n v : Z) : option (Z * list Z * Z) :=
  match s with
  | [] => Some (v, [], n)
  | c :: s' =>
      match hex_digit c with
      | None => Some (v, s, n)
      | Some d =>
          if 16 <=? n then None
          else hex_loop s' (n + 1) (Z.lor (u64 (Z.shiftl v 4)) d)
      end
  end.

Definition parse_hex (s : list Z) : option (Z * list Z) :=
  match hex_loop s 0 0 with
  | Some (v, rest, n) => if n =? 0 then None else Some (v, rest)
  | None => None
  end.

Fixpoint dec_run (s : list Z) (n v : Z) : option (Z * list Z * Z) :=
  match s with
  | [] => Some (v, [], n)
  | c :: s' =>
      if is_digit c then
        if (UINT64_MAX - 9) / 10 <? v then None
        else dec_run s' (n + 1) (v ⊠ 10 ⊞ (c - 48))
      else Some (v, s, n)
  end.

Definition parse_dec (s : list Z) : option (Z * list Z) :=
  match dec_run s 0 0 with
  | Some (v, rest, n) => if n =? 0 then None else Some (v, rest)
  | None => None
  end.

Fixpoint drop_spaces (s : list Z) : list Z :=
  match s with
  | 32 :: s' => drop_spaces s'
  | _ => s
  end.

(** [skip_spaces] fails when there was no space. *)
Definition skip_spaces (s : list Z) : option (list Z) :=
  match s with
  | 32 :: s' => Some (drop_spaces s')
  | _ => None
  end.

Definition expect (c : Z) (s : list Z) : option (list Z) :=
  match s with
  | c' :: s' => if c' =? c then Some s' else None
  | [] => None
  end.

Definition classify (path : list Z) (inode perms : Z) : RegionKind :=
  if decide (path = str "[heap]") then Heap
  else if decide (path = str "[stack]") then Stack
  else if bool_decide (head path = Some 91) then Other
  else if negb (bool_decide (path = [])) || negb (inode =? 0) then File
  else
    let kWant := Z.lor (Z.lor kPermRead kPermWrite) kPermPrivate in
    if Z.land perms kWant =? kWant then Anon else Other.

Definition kLetters : list Z := str "rwxp".
Definition kBits : list Z := [kPermRead; kPermWrite; kPermExec; kPermPrivate].

(** The four permission characters; the last may also be 's'. *)
Fixpoint perms_loop (spec : list (Z * Z)) (s : list Z) (perms : Z) : option (Z * list Z) :=
  match spec, s with
  | [], _ => Some (perms, s)
  | (letter, bit) :: spec', c :: s' =>
      if c =? letter then perms_loop spec' s' (u8 (Z.lor perms bit))
      else if c =? 45 then perms_loop spec' s' perms
      else if bool_decide (spec' = []) && (c =? 115) then perms_loop spec' s' perms
      else None
  | _, [] => None
  end.

Definition parse_perms (s : list Z) : option (Z * list Z) :=
  if (length s <? 4)%nat then None else perms_loop (zip kLetters kBits) s 0.

Definition is_eol (c : Z) : bool := (c =? 10) || (c =? 13).

Fixpoint strip_front (s : list Z) : list Z :=
  match s with
  | c :: s' => if is_eol c then strip_front s' else s
  | [] => []
  end.
(** [while (!line.empty() && back is an end of line) line.remove_suffix(1)] *)
Definition strip_eol (s : list Z) : list Z := reverse (strip_front (reverse s)).

Definition parse_maps_line (line : list Z) : option Region :=
  let line := strip_eol line in
  '(start, s) ← parse_hex line;
  s ← expect 45 s;
  '(end', s) ← parse_hex s;
  if end' <? start then None
  else
    s ← skip_spaces s;
    '(perms, s) ← parse_perms s;
    s ← skip_spaces s;
    '(off, s) ← parse_hex s;
    s ← skip_spaces s;
    '(dev_major, s) ← parse_hex s;
    s ← expect 58 s;
    '(dev_minor, s) ← parse_hex s;
    s ← skip_spaces s;
    '(inode, s) ← parse_dec s;
    let path := default s (skip_spaces s) in
    let kind := classify path inode perms in
    let arena := bool_decide (kind = Anon) &&
                 (Z.land start (kThreadArenaAlign ⊟ 1) =? 0) &&
                 (end' ⊟ start <=? kThreadArenaAlign) in
    Some (mkRegion start end' off inode kind perms arena).

Definition region_kind_str (k : RegionKind) : list Z :=
  match k with
  | Heap => str "heap"
  | Anon => str "anon"
  | Stack => str "stack"
  | File => str "file"
  | Other => str "other"
  end.

Definition scan_status_str (s : ScanStatus) : list Z :=
  match s with
  | Ok => str "ok"
  | TargetGone => str "target exited"
  | Denied => str "permission denied"
  | ReadFailed => str "read failed"
  end.

Definition arena_label_text (main_arena : bool) (thread_arenas : Z) : list Z :=
  let threads := dec thread_arenas ++ str " thread" ++
                 (if thread_arenas =? 1 then [] else str "s") in
  if main_arena && (thread_arenas =? 0) then str "Main"
  else if main_arena then str "Main + " ++ threads
  else if negb (thread_arenas =? 0) then threads
  else str "None".

Definition format_arena_label (n : Z) (main_arena : bool) (thread_arenas : Z) : list Z * Z :=
  if n =? 0 then ([], 0)
  else
    let '(text, len) := snprintf n (arena_label_text main_arena thread_arenas) in
    if n <=? len then ([], 0) else (text, len).

(** ** Reading the file *)

Inductive Errno := ENOENT | ESRCH | EACCES | EPERM | EINTR | EOTHER.
#[export] Instance Errno_eq_dec : EqDecision Errno.
Proof. solve_decision. Defined.

Inductive ReadResult := ReadBytes (bytes : list Z) | ReadErr (e : Errno).

Definition errno_status (e : Errno) : ScanStatus :=
  match e with
  | ENOENT | ESRCH => TargetGone
  | EACCES | EPERM => Denied
  | _ => ReadFailed
  end.

(** The read loop over the kernel's answers; [None] when they run out before
    the loop has ended. *)
Fixpoint read_loop (answers : list ReadResult) (out : list Z) : option (ScanStatus * list Z) :=
  match answers with
  | [] => None
  | ReadErr EINTR :: rest => read_loop rest out
  | ReadErr e :: _ => Some (errno_status e, out)
  | ReadBytes [] :: _ => Some (Ok, out)
  | ReadBytes bytes :: rest => read_loop rest (out ++ bytes)
  end.

(** A failed [open] leaves the buffer alone. *)
Definition read_all (opened : option Errno) (answers : list ReadResult) (out : list Z)
    : option (ScanStatus * list Z) :=
  match opened with
  | Some e => Some (errno_status e, out)
  | None => read_loop answers []
  end.

(** ** The scanner *)

Record MapsScanner := mkScanner {
  pid_ : Z;
  text_ : list Z;
  regions_ : list Region;
  bounds_ : AddrRange;
  status_ : ScanStatus;
  last_scan_ms_ : Z;
  forced_ : bool;
  main_arena_ : bool;
  thread_arenas_ : Z;
  scans_ : Z;
  malformed_ : Z
}.

Definition new_scanner (pid : Z) : MapsScanner :=
  mkScanner pid [] [] (mkRange 0 0) Ok 0 true false 0 0 0.

(** The body of [rebuild]'s loop. *)
Definition widen (b : AddrRange) (r : Region) : AddrRange :=
  if negb (allocatable r) || (region_size r =? 0) then b
  else if range_empty b then mkRange (r_start r) (r_end r)
  else mkRange (Z.min (ar_base b) (r_start r)) (Z.max (ar_end b) (r_end r)).

Definition rebuild (m : MapsScanner) (now_ms : Z) : MapsScanner :=
  mkScanner (pid_ m) (text_ m) (regions_ m) (foldl widen (mkRange 0 0) (regions_ m))
    (status_ m) now_ms false (main_arena_ m) (thread_arenas_ m) (scans_ m ⊞ 1) (malformed_ m).

(** The first line of a text and what follows its newline. *)
Fixpoint cut_line (s : list Z) : list Z * list Z :=
  match s with
  | [] => ([], [])
  | c :: s' => if c =? 10 then ([], s') else let '(l, rest) := cut_line s' in (c :: l, rest)
  end.

Definition add_line (m : MapsScanner) (line : list Z) : MapsScanner :=
  match line with
  | [] => m
  | _ =>
      match parse_maps_line line with
      | None =>
          mkScanner (pid_ m) (text_ m) (regions_ m) (bounds_ m) (status_ m) (last_scan_ms_ m)
            (forced_ m) (main_arena_ m) (thread_arenas_ m) (scans_ m) (malformed_ m ⊞ 1)
      | Some r =>
          mkScanner (pid_ m) (text_ m) (regions_ m ++ [r]) (bounds_ m) (status_ m)
            (last_scan_ms_ m) (forced_ m)
            (if decide (r_kind r = Heap) then true else main_arena_ m)
            (if r_thread_arena r then u32 (thread_arenas_ m + 1) else thread_arenas_ m)
            (scans_ m) (malformed_ m)
      end
  end.

Fixpoint scan_loop (fuel : nat) (m : MapsScanner) (text : list Z) : MapsScanner :=
  match fuel, text with
  | S fuel, _ :: _ =>
      let '(line, rest) := cut_line text in
      scan_loop fuel (add_line m line) rest
  | _, _ => m
  end.

Definition scan_text (m : MapsScanner) (text : list Z) (now_ms : Z) : MapsScanner * ScanStatus :=
  let m := mkScanner (pid_ m) (text_ m) [] (bounds_ m) (status_ m) (last_scan_ms_ m)
             (forced_ m) false 0 (scans_ m) (malformed_ m) in
  let m := scan_loop (length text) m text in
  let m := mkScanner (pid_ m) (text_ m) (regions_ m) (bounds_ m) Ok (last_scan_ms_ m)
             (forced_ m) (main_arena_ m) (thread_arenas_ m) (scans_ m) (malformed_ m) in
  (rebuild m now_ms, Ok).

(** [scan] after [read_all] has answered [(st, text)]. *)
Definition scan (m : MapsScanner) (st : ScanStatus) (text : list Z) (now_ms : Z)
    : MapsScanner * ScanStatus :=
  let m := mkScanner (pid_ m) text (regions_ m) (bounds_ m) (status_ m) (last_scan_ms_ m)
             (forced_ m) (main_arena_ m) (thread_arenas_ m) (scans_ m) (malformed_ m) in
  let st := if decide (st = Ok) then (match text with [] => TargetGone | _ => Ok end) else st in
  if decide (st = Ok) then scan_text m text now_ms
  else
    (mkScanner (pid_ m) (text_ m) (regions_ m) (bounds_ m) st now_ms false
       (main_arena_ m) (thread_arenas_ m) (scans_ m) (malformed_ m), st).

Definition due (m : MapsScanner) (now_ms : Z) : bool :=
  forced_ m || (kRescanIntervalMs <=? now_ms ⊟₃₂ last_scan_ms_ m).

Definition set_forced (m : MapsScanner) : MapsScanner :=
  mkScanner (pid_ m) (text_ m) (regions_ m) (bounds_ m) (status_ m) (last_scan_ms_ m)
    true (main_arena_ m) (thread_arenas_ m) (scans_ m) (malformed_ m).

Definition note_address (m : MapsScanner) (addr : Z) : MapsScanner :=
  if forced_ m then m
  else if decide (status_ m = TargetGone) then m
  else if range_empty (bounds_ m) || (addr <? ar_base (bounds_ m)) || (ar_end (bounds_ m) <=? addr)
  then set_forced m else m.

Definition find (m : MapsScanner) (addr : Z) : option Region :=
  default None
    (bsearch (S (length (regions_ m))) r_start r_end (regions_ m) addr 0 (length (regions_ m))).

(** ** The fields parse what they denote *)
Lemma lor_nibble v d : 0 <= d < 16 -> Z.lor (Z.shiftl v 4) d = v * 16 + d.
Proof.
  intros Hd. rewrite <- Z.add_nocarry_lor; [by rewrite Z.shiftl_mul_pow2 by lia|].
  apply Z.bits_inj'. intros i Hi. rewrite Z.land_spec, Z.bits_0.
  destruct (decide (i < 4)).
  - by rewrite Z.shiftl_spec_low by lia.
  - rewrite <- (Z.mod_small d (2 ^ 4)) by done. by rewrite Z.mod_pow2_bits_high, andb_false_r by lia.
Qed.

Lemma hex_digit_range c d : hex_digit c = Some d -> 0 <= d < 16.
Proof. unfold hex_digit. intros H. tests; simplify_eq; bprop; lia. Qed.

Definition is_hex (c : Z) : bool := is_some (hex_digit c).
Definition hex_value (ds : list Z) : Z :=
  foldl (fun v c => v * 16 + default 0 (hex_digit c)) 0 ds.

(** The text after a field does not continue it. *)
Definition stops (p : Z -> bool) (rest : list Z) : Prop :=
  match rest with [] => True | c :: _ => p c = false end.

Lemma hex_loop_run ds rest n v :
  Forall (fun c => is_hex c = true) ds -> stops is_hex rest ->
  0 <= n -> n + Z.of_nat (length ds) <= 16 -> 0 <= v < 16 ^ n ->
  hex_loop (ds ++ rest) n v =
    Some (foldl (fun v c => v * 16 + default 0 (hex_digit c)) v ds, rest,
          n + Z.of_nat (length ds)).
Proof.
  intros Hds Hrest. revert n v. induction Hds as [|c ds Hc _ IH]; intros n v Hn Hlen Hv.
  - cbn. rewrite Z.add_0_r. destruct rest as [|c rest]; [done|]. cbn in *.
    unfold is_hex in Hrest. by destruct (hex_digit c).
  - cbn [app hex_loop foldl length] in *. unfold is_hex in Hc.
    destruct (hex_digit c) as [d|] eqn:Ed; [|done]. cbn [default from_option].
    pose proof (hex_digit_range c d Ed) as Hd.
    destruct (Z.leb_spec 16 n); [lia|].
    assert (v * 16 + d < 16 ^ (n + 1)) by (rewrite Z.pow_add_r by lia; lia).
    assert (16 ^ (n + 1) <= 16 ^ 16) by (apply Z.pow_le_mono_r; lia).
    change (16 ^ 16) with (2 ^ 64) in *.
    assert (u64 (Z.shiftl v 4) = Z.shiftl v 4) as ->.
    { apply u64_small. unfold is_u64. rewrite Z.shiftl_mul_pow2 by lia. change (2 ^ 4) with 16. lia. }
    rewrite lor_nibble by done. rewrite IH by lia. f_equal. f_equal. lia.
Qed.

Lemma parse_hex_run ds rest :
  ds <> [] -> (length ds <= 16)%nat -> Forall (fun c => is_hex c = true) ds ->
  stops is_hex rest -> parse_hex (ds ++ rest) = Some (hex_value ds, rest).
Proof.
  intros Hne Hl Hds Hr. unfold parse_hex. rewrite hex_loop_run by (done || lia).
  destruct (Z.eqb_spec (0 + Z.of_nat (length ds)) 0) as [E|_]; [|done].
  destruct ds; [done|cbn in E; lia].
Qed.

Lemma dec_run_run ds rest n v :
  Forall (fun c => is_digit c = true) ds -> stops is_digit rest -> 0 <= n -> 0 <= v ->
  foldl (fun v c => v * 10 + (c - 48)) v ds <= UINT64_MAX - 6 ->
  dec_run (ds ++ rest) n v =
    Some (foldl (fun v c => v * 10 + (c - 48)) v ds, rest, n + Z.of_nat (length ds)).
Proof.
  intros Hds Hrest. revert n v. induction Hds as [|c ds Hc Hds IH]; intros n v Hn Hv Hb.
  - cbn. rewrite Z.add_0_r. destruct rest as [|c rest]; [done|]. cbn in *. by rewrite Hrest.
  - cbn [app dec_run foldl length] in *. rewrite Hc.
    unfold is_digit in Hc. bprop.
    assert (forall ds w, Forall (fun c => is_digit c = true) ds -> 0 <= w ->
      w <= foldl (fun v c => v * 10 + (c - 48)) w ds) as Hmono.
    { clear. induction ds as [|c ds IH]; intros w Hds Hw; [done|]. apply Forall_cons in Hds as [Hc Hds].
      cbn. unfold is_digit in Hc. bprop. etrans; [|apply IH; [done|lia]]. lia. }
    pose proof (Hmono ds (v * 10 + (c - 48)) Hds ltac:(lia)).
    unfold UINT64_MAX in *. change ((18446744073709551615 - 9) / 10) with 1844674407370955160.
    destruct (Z.ltb_spec 1844674407370955160 v); [lia|].
    rewrite (u64_small (v * 10)), (u64_small (v * 10 + _)) by (unfold is_u64; rewrite pow2_64; lia).
    rewrite IH by lia. f_equal. f_equal. lia.
Qed.

Lemma parse_dec_run ds rest :
  ds <> [] -> Forall (fun c => is_digit c = true) ds -> stops is_digit rest ->
  dec_value ds <= UINT64_MAX - 6 -> parse_dec (ds ++ rest) = Some (dec_value ds, rest).
Proof.
  intros Hne Hds Hr Hb. unfold parse_dec. rewrite dec_run_run by (done || lia).
  destruct (Z.eqb_spec (0 + Z.of_nat (length ds)) 0) as [E|_]; [|done].
  destruct ds; [done|cbn in E; lia].
Qed.

Lemma drop_spaces_run n rest :
  stops (Z.eqb 32) rest -> drop_spaces (replicate n 32 ++ rest) = rest.
Proof.
  intros Hr. induction n as [|n IH]; [|done]. destruct rest as [|c rest]; [done|].
  unfold stops in Hr. destruct c as [|p|p]; try done.
  do 6 (destruct p as [p|p|]; try done).
Qed.

Lemma skip_spaces_run n rest :
  stops (Z.eqb 32) rest -> skip_spaces (replicate (S n) 32 ++ rest) = Some rest.
Proof. intros Hr. cbn. f_equal. by apply drop_spaces_run. Qed.

Lemma strip_front_eols eols s :
  Forall (fun c => is_eol c = true) eols -> stops is_eol s -> strip_front (eols ++ s) = s.
Proof.
  intros He Hs. induction He as [|c eols Hc _ IH]; cbn.
  - destruct s as [|c s]; [done|]. cbn in *. by rewrite Hs.
  - by rewrite Hc.
Qed.

Lemma strip_eol_run s eols :
  Forall (fun c => is_eol c = true) eols -> stops is_eol (reverse s) -> strip_eol (s ++ eols) = s.
Proof.
  intros He Hs. unfold strip_eol. rewrite reverse_app, strip_front_eols; [apply reverse_involutive| |done].
  by apply Forall_reverse.
Qed.

(** ** The line format

    [fs/proc/task_mmu.c] prints [start-end perms offset major:minor inode path]
    with runs of spaces between the columns. *)

Record MapsLine := mkLine {
  ml_start : list Z; ml_end : list Z;
  ml_r : bool; ml_w : bool; ml_x : bool; ml_p : bool;
  ml_off : list Z; ml_major : list Z; ml_minor : list Z;
  ml_inode : list Z; ml_pad : nat; ml_path : list Z
}.

Definition perm_chars (m : MapsLine) : list Z :=
  [if ml_r m then 114 else 45; if ml_w m then 119 else 45; if ml_x m then 120 else 45;
   if ml_p m then 112 else 115].
Definition perm_bits (m : MapsLine) : Z :=
  (if ml_r m then 1 else 0) + (if ml_w m then 2 else 0) + (if ml_x m then 4 else 0) +
  (if ml_p m then 8 else 0).

Definition render (m : MapsLine) : list Z :=
  ml_start m ++ [45] ++ ml_end m ++ [32] ++ perm_chars m ++ [32] ++ ml_off m ++ [32] ++
  ml_major m ++ [58] ++ ml_minor m ++ [32] ++ ml_inode m ++
  replicate (ml_pad m) 32 ++ ml_path m.

Definition hex_field (ds : list Z) : Prop :=
  ds <> [] /\ (length ds <= 16)%nat /\ Forall (fun c => is_hex c = true) ds.

Record line_ok (m : MapsLine) : Prop := {
  lo_start : hex_field (ml_start m);
  lo_end : hex_field (ml_end m);
  lo_order : hex_value (ml_start m) <= hex_value (ml_end m);
  lo_off : hex_field (ml_off m);
  lo_major : hex_field (ml_major m);
  lo_minor : hex_field (ml_minor m);
  lo_inode : ml_inode m <> [] /\ Forall (fun c => is_digit c = true) (ml_inode m) /\
             dec_value (ml_inode m) <= UINT64_MAX - 6;
  lo_path : (ml_path m = [] \/ (0 < ml_pad m)%nat) /\
            stops (Z.eqb 32) (ml_path m) /\ stops is_eol (reverse (ml_path m))
}.

Definition denotes (m : MapsLine) : Region :=
  let start := hex_value (ml_start m) in
  let end' := hex_value (ml_end m) in
  let kind := classify (ml_path m) (dec_value (ml_inode m)) (perm_bits m) in
  mkRegion start end' (hex_value (ml_off m)) (dec_value (ml_inode m)) kind (perm_bits m)
    (bool_decide (kind = Anon) && (Z.land start (kThreadArenaAlign ⊟ 1) =? 0) &&
     (end' ⊟ start <=? kThreadArenaAlign)).

Lemma parse_perms_run m rest :
  parse_perms (perm_chars m ++ rest) = Some (perm_bits m, rest).
Proof.
  unfold parse_perms, perm_chars, perm_bits.
  destruct (ml_r m), (ml_w m), (ml_x m), (ml_p m); by destruct rest as [|? [|? ?]].
Qed.

Lemma stops_digit_space n path :
  (path = [] \/ (0 < n)%nat) -> stops is_digit (replicate n 32 ++ path).
Proof. intros [->|Hn]; destruct n; cbn; done || lia. Qed.

Lemma default_skip n path :
  (path = [] \/ (0 < n)%nat) -> stops (Z.eqb 32) path ->
  default (replicate n 32 ++ path) (skip_spaces (replicate n 32 ++ path)) = path.
Proof.
  intros Hn Hp. destruct n as [|n]; [destruct Hn as [->|?]; [done|lia]|].
  by rewrite skip_spaces_run.
Qed.

Lemma render_no_eol m : line_ok m -> stops is_eol (reverse (render m)).
Proof.
  intros H. destruct (lo_path m H) as (Hp1 & _ & Hp2).
  destruct (lo_inode m H) as (Hi1 & Hi2 & _). unfold render.
  rewrite !app_assoc. rewrite reverse_app.
  destruct (decide (ml_path m = [])) as [->|Hne].
  2: { destruct (reverse (ml_path m)) as [|c l] eqn:E; [|exact Hp2].
       exfalso. apply Hne. rewrite <- (reverse_involutive (ml_path m)), E. done. }
  cbn [reverse app]. rewrite reverse_nil, app_nil_l, reverse_app.
  destruct (ml_pad m) as [|n].
  - cbn [replicate]. rewrite reverse_nil, app_nil_l, reverse_app.
    destruct (reverse (ml_inode m)) as [|c l] eqn:E.
    { exfalso. apply Hi1. rewrite <- (reverse_involutive (ml_inode m)), E. done. }
    cbn. apply Forall_reverse in Hi2. rewrite E in Hi2. apply Forall_cons in Hi2 as [Hc _].
    unfold is_digit in Hc. unfold is_eol. bprop.
    destruct (Z.eqb_spec c 10), (Z.eqb_spec c 13); [lia..|done].
  - rewrite reverse_replicate. done.
Qed.

Lemma expect_here c s : expect c ([c] ++ s) = Some s.
Proof. cbn. by rewrite Z.eqb_refl. Qed.

(** C35: The parser reads every line of the kernel's format: for any hexadecimal
    and decimal fields of legal width (whatever their zero padding and letter
    case), permissions, run of padding and path with inner spaces, with or
    without trailing newlines, the parsed region has exactly the values the
    fields denote and the classification of its path. *)
Theorem parse_maps_line_complete m eols :
  line_ok m -> Forall (fun c => is_eol c = true) eols ->
  parse_maps_line (render m ++ eols) = Some (denotes m).
Proof.
  intros H He. unfold parse_maps_line.
  rewrite strip_eol_run by (done || by apply render_no_eol).
  destruct (lo_start m H) as (? & ? & ?), (lo_end m H) as (? & ? & ?),
    (lo_off m H) as (? & ? & ?), (lo_major m H) as (? & ? & ?), (lo_minor m H) as (? & ? & ?),
    (lo_inode m H) as (? & ? & ?), (lo_path m H) as (? & ? & ?).
  assert (forall ds rest, ds <> [] -> Forall (fun c => is_hex c = true) ds ->
    skip_spaces ([32] ++ ds ++ rest) = Some (ds ++ rest)) as Hskip.
  { intros ds rest Hne Hds. apply (skip_spaces_run 0). destruct ds as [|c ds]; [done|].
    apply Forall_cons in Hds as [Hc _]. change ((32 =? c) = false).
    by destruct (Z.eqb_spec 32 c) as [<-|]. }
  unfold render. rewrite parse_hex_run by done. cbn [mbind option_bind].
  rewrite expect_here. cbn [mbind option_bind]. rewrite (parse_hex_run (ml_end m)) by done. cbn [mbind option_bind].
  destruct (Z.ltb_spec (hex_value (ml_end m)) (hex_value (ml_start m))); [pose proof (lo_order m H); lia|].
  change [32] with (replicate 1 32) at 1.
  rewrite (skip_spaces_run 0) by (cbn; by destruct (ml_r m)). cbn [mbind option_bind].
  rewrite parse_perms_run. cbn [mbind option_bind].
  rewrite Hskip by done. cbn [mbind option_bind].
  rewrite (parse_hex_run (ml_off m)) by done. cbn [mbind option_bind].
  rewrite Hskip by done. cbn [mbind option_bind].
  rewrite (parse_hex_run (ml_major m)) by done. cbn [mbind option_bind].
  rewrite expect_here. cbn [mbind option_bind]. rewrite (parse_hex_run (ml_minor m)) by done. cbn [mbind option_bind].
  rewrite Hskip; [|done|].
  2: { eapply Forall_impl; [eassumption|]. cbn. intros c Hc. unfold is_hex, hex_digit.
       unfold is_digit in Hc. by rewrite Hc. }
  cbn [mbind option_bind]. rewrite parse_dec_run by (done || by apply stops_digit_space).
  cbn [mbind option_bind]. rewrite default_skip by done. done.
Qed.

Definition demo_line : MapsLine :=
  mkLine (str "55a4c8e00000") (str "55a4c8e21000") true true false true
    (str "00000000") (str "00") (str "00") (str "0") 26 (str "[heap]").

Lemma parse_maps_line_complete_witness :
  parse_maps_line (render demo_line ++ [10]) = Some (denotes demo_line).
Proof.
  apply (parse_maps_line_complete demo_line [10]); [|by repeat constructor].
  split; try (split_and!; [done|vm_compute; lia|by repeat constructor]).
  - by vm_compute.
  - split_and!; [done|by repeat constructor|by vm_compute].
  - split_and!; [right; vm_compute; lia|done|done].
Defined.

(** ** What a parsed region always satisfies *)

Record region_ok (r : Region) : Prop := {
  rok_range : 0 <= r_start r <= r_end r /\ r_end r < 2 ^ 64;
  rok_arena : r_thread_arena r = true -> r_kind r = Anon /\ (kThreadArenaAlign | r_start r) /\
              r_end r - r_start r <= kThreadArenaAlign
}.

Lemma hex_loop_range s n v r rest n' :
  0 <= n -> 0 <= v < 16 ^ n -> n <= 16 -> hex_loop s n v = Some (r, rest, n') -> 0 <= r < 2 ^ 64.
Proof.
  revert n v. induction s as [|c s IH]; intros n v Hn Hv Hn16; cbn [hex_loop].
  - intros [= <- _ _]. assert (16 ^ n <= 16 ^ 16) by (apply Z.pow_le_mono_r; lia).
    change (16 ^ 16) with (2 ^ 64) in *. lia.
  - destruct (hex_digit c) as [d|] eqn:Ed.
    + destruct (Z.leb_spec 16 n); [done|]. pose proof (hex_digit_range c d Ed).
      assert (v * 16 + d < 16 ^ (n + 1)) by (rewrite Z.pow_add_r by lia; lia).
      assert (16 ^ (n + 1) <= 16 ^ 16) by (apply Z.pow_le_mono_r; lia).
      change (16 ^ 16) with (2 ^ 64) in *.
      rewrite u64_small.
      2: { unfold is_u64. rewrite Z.shiftl_mul_pow2 by lia. change (2 ^ 4) with 16. lia. }
      rewrite lor_nibble by done. apply IH; lia.
    + intros [= <- _ _]. assert (16 ^ n <= 16 ^ 16) by (apply Z.pow_le_mono_r; lia).
      change (16 ^ 16) with (2 ^ 64) in *. lia.
Qed.

Lemma parse_hex_range s v rest : parse_hex s = Some (v, rest) -> 0 <= v < 2 ^ 64.
Proof.
  unfold parse_hex. destruct (hex_loop s 0 0) as [[[w r] n]|] eqn:E; [|done].
  destruct (n =? 0); [done|]. intros [= <- _].
  eapply (hex_loop_range s 0 0 w r n); [lia|split; reflexivity || lia|lia|done].
Qed.

Ltac bind_inv H :=
  repeat match type of H with
  | context [mbind _ ?o] => destruct o as [?|] eqn:?; cbn [mbind option_bind] in H; [|done]
  | (let '(_, _) := ?p in _) = _ => destruct p
  | match ?p with (_, _) => _ end = _ => destruct p
  end.

Lemma parse_maps_line_ok line r : parse_maps_line line = Some r -> region_ok r.
Proof.
  unfold parse_maps_line. intros H.
  destruct (parse_hex (strip_eol line)) as [[start s1]|] eqn:E1; cbn in H; [|done].
  destruct (expect 45 s1) as [s2|]; cbn in H; [|done].
  destruct (parse_hex s2) as [[end' s3]|] eqn:E2; cbn in H; [|done].
  destruct (Z.ltb_spec end' start) as [|Hle]; [done|].
  apply parse_hex_range in E1, E2.
  bind_inv H. injection H as <-. split; cbn; [lia|].
  intros Ha. bprop. split_and!.
  - by apply bool_decide_eq_true in H.
  - assert (Z.land start (2 ^ 26 - 1) = 0) as Hz by assumption.
    rewrite land_mask in Hz by lia. by apply Z.mod_divide.
  - rewrite u64_small in * by (unfold is_u64; lia). done.
Qed.

(** ** Scanning *)
Lemma cut_line_length s : (length (cut_line s).2 <= length s - 1)%nat.
Proof.
  induction s as [|c s IH]; [done|]. cbn. destruct (c =? 10); cbn; [lia|].
  destruct (cut_line s) as [l rest]. cbn in *. destruct s; cbn in *; [lia|lia].
Qed.

(** The lines of a text, as the loop cuts them. *)
Fixpoint text_lines (fuel : nat) (text : list Z) : list (list Z) :=
  match fuel, text with
  | S fuel, _ :: _ => let '(line, rest) := cut_line text in line :: text_lines fuel rest
  | _, _ => []
  end.

(** The regions a list of lines yields. *)
Definition parse_lines (ls : list (list Z)) : list Region :=
  omap (fun l => if decide (l = []) then None else parse_maps_line l) ls.

Lemma scan_loop_regions fuel m text :
  let m' := scan_loop fuel m text in
  regions_ m' = regions_ m ++ parse_lines (text_lines fuel text) /\
  main_arena_ m' = main_arena_ m || existsb (fun r => bool_decide (r_kind r = Heap))
                                       (parse_lines (text_lines fuel text)) /\
  scans_ m' = scans_ m /\ status_ m' = status_ m.
Proof.
  revert m text. induction fuel as [|fuel IH]; intros m text; cbn [scan_loop text_lines].
  { cbn. by rewrite app_nil_r, orb_false_r. }
  destruct text as [|c text]; [cbn; by rewrite app_nil_r, orb_false_r|].
  destruct (cut_line (c :: text)) as [line rest].
  destruct (IH (add_line m line) rest) as (E1 & E2 & E3 & E4). cbn zeta.
  rewrite E1, E2, E3, E4. unfold parse_lines. cbn [omap list_omap].
  unfold add_line. destruct line as [|x line]; [by rewrite decide_True|].
  rewrite decide_False by done. destruct (parse_maps_line (x :: line)) as [r|]; cbn; [|done].
  rewrite <- app_assoc. split_and!; try done.
  rewrite orb_assoc. f_equal. case_decide as Hk.
  - by rewrite bool_decide_eq_true_2, orb_true_r.
  - by rewrite bool_decide_eq_false_2, orb_false_r.
Qed.

Lemma scan_text_regions m text now :
  regions_ (scan_text m text now).1 = parse_lines (text_lines (length text) text).
Proof.
  unfold scan_text. cbn [fst rebuild regions_].
  by destruct (scan_loop_regions (length text) (mkScanner (pid_ m) (text_ m) [] (bounds_ m)
    (status_ m) (last_scan_ms_ m) (forced_ m) false 0 (scans_ m) (malformed_ m)) text) as [-> _].
Qed.

Lemma parse_lines_ok ls : Forall region_ok (parse_lines ls).
Proof.
  apply Forall_forall. intros r Hr. apply list_elem_of_omap in Hr as (l & _ & Hl).
  case_decide; [done|]. by eapply parse_maps_line_ok.
Qed.

Lemma contains_iff r addr : contains r addr = true <-> r_start r <= addr < r_end r.
Proof. unfold contains. rewrite andb_true_iff, Z.leb_le, Z.ltb_lt. done. Qed.

(** After a scan of an address space whose lines are in ascending, disjoint
    order, as the kernel prints them, [find] terminates and returns exactly the
    region containing the address, and null when no region does. *)
Theorem find_spec m text now addr r :
  let m' := (scan_text m text now).1 in
  ascending r_start r_end (regions_ m') ->
  find m' addr = Some r <-> r ∈ regions_ m' /\ contains r addr = true.
Proof.
  intros m' Hasc.
  assert (Forall (fun r => r_start r <= r_end r) (regions_ m')) as Hord.
  { unfold m'. rewrite scan_text_regions. eapply Forall_impl; [apply parse_lines_ok|].
    intros x [Hx _]. lia. }
  rewrite contains_iff, <- (bsearch_all r_start r_end _ Hasc Hord).
  pose proof (bsearch_total r_start r_end _ Hasc Hord addr) as Ht. unfold find.
  destruct (bsearch _ _ _ _ _ _ _) as [[a|]|]; cbn; split; congruence.
Qed.

Definition demo_text : list Z :=
  str "1000-3000 rw-p 00000000 00:00 0 [heap]" ++ [10] ++
  str "garbled" ++ [10] ++
  str "8000-9000 rw-p 00000000 00:00 0" ++ [10] ++
  str "a000-b000 r-xp 00000000 08:02 77 /usr/lib/libc.so" ++ [10].

Lemma demo_ascending : ascending r_start r_end (regions_ (scan_text (new_scanner 1) demo_text 7).1).
Proof.
  intros i j a b Hi Hj Hlt.
  assert (regions_ (scan_text (new_scanner 1) demo_text 7).1 =
    [mkRegion 4096 12288 0 0 Heap 11 false; mkRegion 32768 36864 0 0 Anon 11 false;
     mkRegion 40960 45056 0 77 File 13 false]) as E by (by vm_compute).
  rewrite E in Hi, Hj. clear E. destruct i as [|[|[|i]]], j as [|[|[|j]]]; cbn in Hi, Hj; simplify_eq; cbn; lia.
Qed.

Lemma find_spec_witness :
  find (scan_text (new_scanner 1) demo_text 7).1 33000 = Some (mkRegion 32768 36864 0 0 Anon 11 false) <->
  mkRegion 32768 36864 0 0 Anon 11 false ∈ regions_ (scan_text (new_scanner 1) demo_text 7).1 /\
  contains (mkRegion 32768 36864 0 0 Anon 11 false) 33000 = true.
Proof. apply (find_spec (new_scanner 1) demo_text 7 33000), demo_ascending. Defined.

(** ** Bounds *)

Definition useful (r : Region) : Prop := allocatable r = true /\ r_start r < r_end r.

Lemma widen_skip b r : region_ok r -> ~ useful r -> widen b r = b.
Proof.
  intros [Hr _] Hu. unfold widen, region_size, useful in *.
  rewrite u64_small by (unfold is_u64; lia).
  destruct (allocatable r); cbn [negb orb]; [|done].
  destruct (Z.eqb_spec (r_end r - r_start r) 0); [done|]. destruct Hu. split; [done|lia].
Qed.

Lemma widen_useful b r :
  region_ok r -> useful r -> widen b r =
    if range_empty b then mkRange (r_start r) (r_end r)
    else mkRange (Z.min (ar_base b) (r_start r)) (Z.max (ar_end b) (r_end r)).
Proof.
  intros [Hr _] [Ha Hlt]. unfold widen, region_size. rewrite Ha. cbn [negb orb].
  rewrite u64_small by (unfold is_u64; lia).
  destruct (Z.eqb_spec (r_end r - r_start r) 0); [lia|done].
Qed.

(** [b] is the hull of the useful regions seen so far. *)
Definition hull (l : list Region) (b : AddrRange) : Prop :=
  (range_empty b = true <-> forall r, r ∈ l -> ~ useful r) /\
  (forall r, r ∈ l -> useful r -> ar_base b <= r_start r /\ r_end r <= ar_end b) /\
  (range_empty b = false ->
     (exists r, r ∈ l /\ useful r /\ ar_base b = r_start r) /\
     (exists r, r ∈ l /\ useful r /\ ar_end b = r_end r)).

Lemma hull_snoc l b r : region_ok r -> hull l b -> hull (l ++ [r]) (widen b r).
Proof.
  intros Hok (Hem & Hin & Hex).
  destruct (decide (allocatable r = true /\ r_start r < r_end r)) as [Hu|Hu].
  2: { rewrite widen_skip by done. split_and!.
       - rewrite Hem. setoid_rewrite elem_of_app. setoid_rewrite list_elem_of_singleton.
         split; [intros H x [?| ->]; eauto|eauto].
       - intros x [?|Hx]%elem_of_app; [eauto|]. apply list_elem_of_singleton in Hx as ->. done.
       - intros Hne. destruct (Hex Hne) as [(x & ? & ? & ?) (y & ? & ? & ?)].
         split; [exists x|exists y]; rewrite elem_of_app; eauto. }
  rewrite widen_useful by done. pose proof Hu as [_ Hlt].
  assert (r ∈ l ++ [r]) as Hr by (apply elem_of_app; right; by apply list_elem_of_singleton).
  destruct (range_empty b) eqn:Eb.
  - assert (forall x, x ∈ l ++ [r] -> useful x -> x = r) as Honly.
    { intros x [Hx|Hx]%elem_of_app Hux; [by destruct (proj1 Hem eq_refl x Hx)|].
      by apply list_elem_of_singleton in Hx. }
    split_and!; unfold range_empty; cbn [ar_base ar_end].
    + split; [intros H%Z.leb_le; lia|]. intros H. by destruct (H r Hr).
    + intros x Hx Hux. rewrite (Honly x Hx Hux). lia.
    + intros _. split; exists r; done.
  - unfold range_empty in Eb. apply Z.leb_gt in Eb.
    destruct (Hex eq_refl) as [(x & Hx1 & Hx2 & Hx3) (y & Hy1 & Hy2 & Hy3)].
    split_and!; unfold range_empty; cbn [ar_base ar_end].
    + split; [intros H%Z.leb_le; lia|]. intros H. by destruct (H r Hr).
    + intros z [Hz|Hz]%elem_of_app Huz; [destruct (Hin z Hz Huz); lia|].
      apply list_elem_of_singleton in Hz as ->. lia.
    + intros _. split.
      * destruct (Z.min_spec (ar_base b) (r_start r)) as [[_ ->]|[_ ->]]; 
          [exists x; rewrite elem_of_app; eauto|by exists r].
      * destruct (Z.max_spec (ar_end b) (r_end r)) as [[_ ->]|[_ ->]]; 
          [by exists r|exists y; rewrite elem_of_app; eauto].
Qed.

Lemma hull_fold l done' b :
  Forall region_ok l -> hull done' b -> hull (done' ++ l) (foldl widen b l).
Proof.
  intros Hl. revert done' b. induction Hl as [|r l Hr _ IH]; intros d b Hb; cbn [foldl].
  { by rewrite app_nil_r. }
  rewrite cons_middle, app_assoc. by apply IH, hull_snoc.
Qed.

(** The bounds after a scan are the exact hull of the regions an allocation
    can come from: empty when there is none, otherwise from the lowest start to
    the highest end, both attained; other mappings never widen them. *)
Theorem scan_bounds_hull m text now :
  let m' := (scan_text m text now).1 in hull (regions_ m') (bounds_ m').
Proof.
  intros m'. unfold m'. rewrite scan_text_regions.
  assert (bounds_ (scan_text m text now).1 =
    foldl widen (mkRange 0 0) (parse_lines (text_lines (length text) text))) as ->.
  { rewrite <- (scan_text_regions m text now). done. }
  apply (hull_fold _ [] (mkRange 0 0)); [apply parse_lines_ok|].
  split_and!; [|intros r Hr; by apply elem_of_nil in Hr|done].
  split; [|done]. intros _ r Hr. by apply elem_of_nil in Hr.
Qed.

(** ** Failure and cadence *)

(** A scan that fails (the target is gone, access is denied, the read
    breaks, or the file of an unreaped process reads as empty) keeps the last
    regions, bounds and arena counts for display, records the status, and is
    not owed again before the next interval: no address noted from a gone
    target and no clock value within 500 ms makes it due. *)
Theorem failed_scan_keeps_display m st text now :
  st <> Ok \/ text = [] ->
  let '(m', st') := scan m st text now in
  st' = (if decide (st = Ok) then TargetGone else st) /\ status_ m' = st' /\
  regions_ m' = regions_ m /\ bounds_ m' = bounds_ m /\ main_arena_ m' = main_arena_ m /\
  thread_arenas_ m' = thread_arenas_ m /\
  (forall d, 0 <= d < kRescanIntervalMs -> due m' (u32 (now + d)) = false) /\
  (st' = TargetGone -> forall addr, note_address m' addr = m').
Proof.
  intros Hfail. unfold scan.
  assert (exists st', st' <> Ok /\
    (if decide (st = Ok) then (match text with [] => TargetGone | _ => Ok end) else st) = st' /\
    st' = (if decide (st = Ok) then TargetGone else st)) as (st' & Hne & -> & Est).
  { destruct (decide (st = Ok)) as [->|Hst]; [|by exists st].
    destruct Hfail as [?| ->]; [done|]. by exists TargetGone. }
  rewrite (decide_False _ _ Hne). split_and!; try done.
  - intros d Hd. unfold due, kRescanIntervalMs in *. cbn. apply Z.leb_gt.
    unfold u32. rewrite Zminus_mod_idemp_l. replace (now + d - now) with d by lia.
    rewrite Z.mod_small by (rewrite pow2_32; lia). lia.
  - intros -> addr. done.
Qed.

Lemma failed_scan_keeps_display_witness :
  let '(m', st') := scan (scan_text (new_scanner 1) demo_text 7).1 ReadFailed [] 4294967295 in
  st' = (if decide (ReadFailed = Ok) then TargetGone else ReadFailed) /\ status_ m' = st' /\
  regions_ m' = regions_ (scan_text (new_scanner 1) demo_text 7).1 /\
  bounds_ m' = bounds_ (scan_text (new_scanner 1) demo_text 7).1 /\
  main_arena_ m' = main_arena_ (scan_text (new_scanner 1) demo_text 7).1 /\
  thread_arenas_ m' = thread_arenas_ (scan_text (new_scanner 1) demo_text 7).1 /\
  (forall d, 0 <= d < kRescanIntervalMs -> due m' (u32 (4294967295 + d)) = false) /\
  (st' = TargetGone -> forall addr, note_address m' addr = m').
Proof.
  apply (failed_scan_keeps_display (scan_text (new_scanner 1) demo_text 7).1 ReadFailed [] 4294967295).
  by left.
Defined.

(** The timer survives the wrap of the 32-bit millisecond clock. *)
Lemma due_elapsed m t d :
  forced_ m = false -> last_scan_ms_ m = u32 t -> 0 <= d < 2 ^ 32 ->
  due m (u32 (t + d)) = (kRescanIntervalMs <=? d).
Proof.
  intros Hf Hl Hd. unfold due. rewrite Hf, Hl. cbn [orb]. f_equal. unfold u32.
  rewrite <- Zminus_mod. replace (t + d - t) with d by lia. by apply Z.mod_small.
Qed.

Lemma arena_label_length main n : 0 <= n < 2 ^ 32 -> (length (arena_label_text main n) < 32)%nat.
Proof.
  intros Hn. pose proof (dec_length n 10 ltac:(lia)) as Hd.
  change (10 ^ Z.of_nat 10) with 10000000000 in Hd. rewrite pow2_32 in Hn. specialize (Hd ltac:(lia)).
  unfold arena_label_text. destruct main, (n =? 0); cbn [andb negb]; try (cbn; lia);
    rewrite !length_app; destruct (n =? 1); str_lengths; cbn [length]; lia.
Qed.

(** A 32-byte buffer always holds the arena label: for every count of thread
    arenas the text is written whole, never replaced by the empty string. *)
Theorem arena_label_fits main n :
  is_u32 n ->
  format_arena_label kArenaLabelMax main n =
    (arena_label_text main n, Z.of_nat (length (arena_label_text main n))).
Proof.
  intros Hn. pose proof (arena_label_length main n Hn) as Hl. unfold format_arena_label, kArenaLabelMax.
  cbn [Z.eqb]. unfold snprintf. cbv beta iota.
  destruct (Z.leb_spec 32 (Z.of_nat (length (arena_label_text main n)))); [lia|].
  rewrite take_ge by lia. done.
Qed.

Lemma arena_label_fits_witness :
  format_arena_label kArenaLabelMax true 4294967295 =
    (arena_label_text true 4294967295, Z.of_nat (length (arena_label_text true 4294967295))).
Proof. apply (arena_label_fits true 4294967295). by vm_compute. Defined.
