(* ===== verification/RegionMap.v ===== *)
(** * The packed address space (src/src/tui/region_map.h, region_map.cpp)

    The allocatable regions of a scan laid end to end, so that the map shows
    memory rather than holes: the repacking with its change detection, the two
    conversions and the boundary test. *)

From S2P Require Import Prelude ProcMaps.

Record Span := mkSpan {
  s_start : Z;
  s_end : Z;
  s_flat : Z;
  s_kind : RegionKind;
  s_thread_arena : bool
}.

Definition span_size (s : Span) : Z := s_end s ⊟ s_start s.
Definition contains_addr (s : Span) (a : Z) : bool := (s_start s <=? a) && (a <? s_end s).
Definition contains_flat (s : Span) (f : Z) : bool :=
  (s_flat s <=? f) && (f <? s_flat s ⊞ span_size s).

Record RegionMap := mkRegionMap { spans_ : list Span; total_ : Z; repacks_ : Z }.

Definition new_map : RegionMap := mkRegionMap [] 0 0.

(** The loop state of [rebuild]: the vector being overwritten, the change flag,
    the write index and the running offset. *)
Record Packing := mkPacking { pk_spans : list Span; pk_changed : bool; pk_i : nat; pk_flat : Z }.

Definition pack_step (p : Packing) (r : Region) : Packing :=
  if negb (allocatable r) || (region_size r =? 0) then p
  else
    let s := mkSpan (r_start r) (r_end r) (pk_flat p) (r_kind r) (r_thread_arena r) in
    let '(spans, changed) :=
      match pk_spans p !! pk_i p with
      | Some old =>
          (<[pk_i p := s]> (pk_spans p),
           if negb (s_start old =? s_start s) || negb (s_end old =? s_end s) ||
              negb (s_flat old =? s_flat s) then true else pk_changed p)
      | None => (pk_spans p ++ [s], true)
      end in
    mkPacking spans changed (S (pk_i p)) (pk_flat p ⊞ span_size s).

Definition rebuild (m : RegionMap) (regions : list Region) : RegionMap * bool :=
  let p := foldl pack_step (mkPacking (spans_ m) false 0 0) regions in
  let '(spans, changed) :=
    if (pk_i p <? length (pk_spans p))%nat then (take (pk_i p) (pk_spans p), true)
    else (pk_spans p, pk_changed p) in
  (mkRegionMap spans (pk_flat p) (if changed then repacks_ m ⊞ 1 else repacks_ m), changed).

Definition clear (m : RegionMap) : RegionMap := mkRegionMap [] 0 (repacks_ m).

Definition span_at_addr (m : RegionMap) (addr : Z) : option Span :=
  default None
    (bsearch (S (length (spans_ m))) s_start s_end (spans_ m) addr 0 (length (spans_ m))).

Definition flat_end (s : Span) : Z := s_flat s ⊞ span_size s.

Definition span_at_flat (m : RegionMap) (flat : Z) : option Span :=
  default None
    (bsearch (S (length (spans_ m))) s_flat flat_end (spans_ m) flat 0 (length (spans_ m))).

Definition to_flat (m : RegionMap) (addr : Z) : option Z :=
  match span_at_addr m addr with
  | None => None
  | Some s => Some (s_flat s ⊞ (addr ⊟ s_start s))
  end.

Definition to_addr (m : RegionMap) (flat : Z) : option Z :=
  match span_at_flat m flat with
  | None => None
  | Some s => Some (s_start s ⊞ (flat ⊟ s_flat s))
  end.

Definition is_boundary (m : RegionMap) (flat : Z) : bool :=
  if flat =? 0 then false else existsb (fun s => s_flat s =? flat) (spans_ m).

(** ** The packed layout, stated directly *)

#[export] Instance useful_dec r : Decision (useful r).
Proof. unfold useful. solve_decision. Defined.

Fixpoint layout (flat : Z) (regions : list Region) : list Span :=
  match regions with
  | [] => []
  | r :: rs =>
      mkSpan (r_start r) (r_end r) flat (r_kind r) (r_thread_arena r) ::
      layout (flat + (r_end r - r_start r)) rs
  end.

Definition region_bytes (r : Region) : Z := r_end r - r_start r.
Definition kept (regions : list Region) : list Region := filter useful regions.

(** Two layouts place the same addresses at the same offsets. *)
Definition geometry_of (l : list Span) : list (Z * Z * Z) :=
  (fun s => (s_start s, s_end s, s_flat s)) <$> l.

Lemma layout_length flat rs : length (layout flat rs) = length rs.
Proof. revert flat. induction rs as [|r rs IH]; intros flat; cbn; [done|]. by rewrite IH. Qed.

Lemma layout_app flat rs r :
  layout flat (rs ++ [r]) =
  layout flat rs ++ [mkSpan (r_start r) (r_end r) (flat + sum_by region_bytes rs)
                       (r_kind r) (r_thread_arena r)].
Proof.
  revert flat. induction rs as [|x rs IH]; intros flat; cbn [app layout].
  { by rewrite Z.add_0_r. }
  rewrite IH, sum_by_cons. unfold region_bytes at 1. by rewrite Z.add_assoc.
Qed.

(** ** Repacking computes the layout *)
Lemma pack_step_skip p r : region_ok r -> ~ useful r -> pack_step p r = p.
Proof.
  intros [Hr _] Hu. unfold pack_step, region_size. rewrite u64_small by (unfold is_u64; lia).
  destruct (allocatable r) eqn:Ha; cbn [negb orb]; [|done].
  destruct (Z.eqb_spec (r_end r - r_start r) 0); [done|]. destruct Hu. split; [done|lia].
Qed.

(** Invariant of the loop after [rs] kept regions over the old spans [old]. *)
Definition packed (old : list Span) (rs : list Region) (p : Packing) : Prop :=
  pk_i p = length rs /\ pk_flat p = sum_by region_bytes rs /\
  pk_spans p = layout 0 rs ++ drop (length rs) old /\
  (pk_changed p = false <-> geometry_of (layout 0 rs) = geometry_of (take (length rs) old)).

Lemma triple_eqb (o : Span) a b c :
  negb (s_start o =? a) || negb (s_end o =? b) || negb (s_flat o =? c) = false <->
  (a, b, c) = (s_start o, s_end o, s_flat o).
Proof.
  destruct (Z.eqb_spec (s_start o) a), (Z.eqb_spec (s_end o) b), (Z.eqb_spec (s_flat o) c); cbn;
    split; intros; try done; congruence.
Qed.

Lemma pack_step_keep old rs p r :
  region_ok r -> useful r -> packed old rs p ->
  sum_by region_bytes (rs ++ [r]) < 2 ^ 64 -> 0 <= sum_by region_bytes rs ->
  packed old (rs ++ [r]) (pack_step p r).
Proof.
  intros [Hr _] [Ha Hlt] (Hi & Hf & Hs & Hc) Hb Hnn.
  rewrite sum_by_app, sum_by_cons in Hb. unfold region_bytes at 2 in Hb. cbn in Hb.
  unfold pack_step, region_size. rewrite Ha, u64_small by (unfold is_u64; lia). cbn [negb orb].
  destruct (Z.eqb_spec (r_end r - r_start r) 0); [lia|].
  rewrite Hi, Hf, Hs. unfold span_size. cbn [s_start s_end s_flat].
  rewrite (u64_small (r_end r - r_start r)) by (unfold is_u64; lia).
  set (s := mkSpan _ _ _ _ _).
  assert (layout 0 (rs ++ [r]) = layout 0 rs ++ [s]) as El by (rewrite layout_app; done).
  assert (length (rs ++ [r]) = S (length rs)) as Eln by (rewrite length_app; cbn; lia).
  assert (sum_by region_bytes rs ⊞ (r_end r - r_start r) = sum_by region_bytes (rs ++ [r])) as Esum.
  { rewrite sum_by_app, sum_by_cons. unfold region_bytes at 3. cbn. rewrite Z.add_0_r.
    apply u64_small. unfold is_u64. lia. }
  rewrite lookup_app_r by (rewrite layout_length; lia). rewrite layout_length, Nat.sub_diag.
  unfold packed. rewrite El, Eln. unfold geometry_of in *. rewrite fmap_app.
  destruct (old !! length rs) as [o|] eqn:Eo.
  - rewrite (drop_S old o) by done. cbn [lookup list_lookup].
    rewrite (take_S_r old (length rs) o) by done. rewrite fmap_app. cbn [fmap list_fmap].
    cbn [pk_i pk_flat pk_spans pk_changed].
    split_and!; [done|done| |].
    + rewrite insert_app_r_alt by (rewrite layout_length; lia).
      rewrite layout_length, Nat.sub_diag. cbn. rewrite <- app_assoc. done.
    + destruct (negb (s_start o =? r_start r) || _ || _) eqn:E.
      * split; [done|]. intros Heq. apply app_inj_2 in Heq as [_ Heq]; [|done].
        exfalso. assert ((r_start r, r_end r, sum_by region_bytes rs) = (s_start o, s_end o, s_flat o))
          as Ht by (cbn in Heq; congruence). apply triple_eqb in Ht. congruence.
      * apply triple_eqb in E. rewrite Hc. split; [intros ->; by do 2 f_equal|].
        intros Heq. by apply app_inj_2 in Heq as [? _].
  - rewrite drop_ge by (by apply lookup_ge_None). cbn [lookup list_lookup].
    cbn [pk_i pk_flat pk_spans pk_changed]. rewrite app_nil_r.
    apply lookup_ge_None in Eo.
    split_and!; [done|done|rewrite drop_ge by lia; by rewrite app_nil_r|].
    split; [done|]. intros Heq. apply (f_equal length) in Heq.
    rewrite length_app, !length_fmap, layout_length, length_take in Heq.
    cbn [length] in Heq. lia.
Qed.

Lemma sum_useful_nonneg l : 0 <= sum_by region_bytes (kept l).
Proof.
  apply sum_by_nonneg. intros a Ha. apply list_elem_of_filter in Ha as [[_ Hlt] _].
  unfold region_bytes. lia.
Qed.

Lemma pack_fold old l rs p :
  Forall region_ok l -> packed old (kept rs) p ->
  sum_by region_bytes (kept (rs ++ l)) < 2 ^ 64 ->
  packed old (kept (rs ++ l)) (foldl pack_step p l).
Proof.
  intros Hl. revert rs p. induction Hl as [|r l Hr Hl IH]; intros rs p Hp Hb; cbn [foldl].
  { by rewrite app_nil_r. }
  rewrite cons_middle, app_assoc in Hb |- *. apply IH; [|done].
  assert (kept (rs ++ [r]) = kept rs ++ (if decide (useful r) then [r] else [])) as Ek.
  { unfold kept. rewrite filter_app, filter_cons. by case_decide. }
  rewrite Ek. destruct (decide (useful r)) as [Hu|Hu].
  2: { rewrite pack_step_skip by done. by rewrite app_nil_r. }
  apply pack_step_keep; [done..| |apply sum_useful_nonneg].
  revert Hb. unfold kept. rewrite !filter_app. fold (kept rs) (kept l).
  pose proof (sum_useful_nonneg l). rewrite filter_cons, decide_True by done.
  rewrite filter_nil. rewrite (sum_by_app _ (_ ++ _)). lia.
Qed.

Lemma rebuild_layout m l :
  Forall region_ok l -> sum_by region_bytes (kept l) < 2 ^ 64 ->
  let '(m', changed) := rebuild m l in
  spans_ m' = layout 0 (kept l) /\ total_ m' = sum_by region_bytes (kept l) /\
  (changed = false <-> geometry_of (layout 0 (kept l)) = geometry_of (spans_ m)) /\
  repacks_ m' = (if changed then repacks_ m ⊞ 1 else repacks_ m).
Proof.
  intros Hl Hb. unfold rebuild.
  assert (packed (spans_ m) (kept []) (mkPacking (spans_ m) false 0 0)) as H0 by done.
  pose proof (pack_fold (spans_ m) l [] _ Hl H0 Hb) as (Hi & Hf & Hs & Hc). cbn [app] in *.
  set (p := foldl _ _ _) in *. rewrite Hi, Hf, Hs. rewrite length_app, layout_length, length_drop.
  destruct (Nat.ltb_spec (length (kept l)) (length (kept l) + (length (spans_ m) - length (kept l))))
    as [Hlt|Hge]; cbn.
  - split_and!; [|done| |done].
    + rewrite take_app_le by (rewrite layout_length; lia). by rewrite take_ge by (rewrite layout_length; lia).
    + split; [done|]. intros Heq. apply (f_equal length) in Heq. unfold geometry_of in Heq.
      rewrite !length_fmap, layout_length in Heq. lia.
  - split_and!; [|done| |done].
    + by rewrite drop_ge, app_nil_r by lia.
    + rewrite Hc, take_ge by lia. done.
Qed.

(** ** The layout of ascending regions *)
Lemma ascending_filter {A} (lo hi : A -> Z) (P : A -> Prop) `{!forall a, Decision (P a)} l :
  ascending lo hi l -> ascending lo hi (filter P l).
Proof.
  intros Hasc i j a b Hi Hj Hlt. revert i j Hi Hj Hlt Hasc.
  induction l as [|x l IH]; intros i j Hi Hj Hlt Hasc; [done|].
  assert (ascending lo hi l) as Hasc'.
  { intros i' j' a' b' Hi' Hj' Hl'. apply (Hasc (S i') (S j')); [done..|lia]. }
  rewrite filter_cons in Hi, Hj. case_decide as HP; [|by eapply IH].
  destruct i as [|i], j as [|j]; cbn in Hi, Hj; simplify_eq; try lia.
  - apply list_elem_of_lookup_2, list_elem_of_filter in Hj as [_ Hj].
    apply list_elem_of_lookup in Hj as [j' Hj']. apply (Hasc 0%nat (S j')); [done..|lia].
  - eapply IH; [done..|lia|done].
Qed.

Definition span_of (flat : Z) (r : Region) : Span :=
  mkSpan (r_start r) (r_end r) flat (r_kind r) (r_thread_arena r).

Lemma layout_lookup flat rs i :
  layout flat rs !! i = (fun r => span_of (flat + sum_by region_bytes (take i rs)) r) <$> rs !! i.
Proof.
  revert flat i. induction rs as [|r rs IH]; intros flat [|i]; cbn [layout lookup list_lookup]; try done.
  - cbn. unfold span_of. by rewrite Z.add_0_r.
  - rewrite IH. destruct (rs !! i); [|done]. cbn [fmap option_fmap option_map take]. f_equal. f_equal.
    rewrite sum_by_cons. unfold region_bytes. lia.
Qed.

Lemma region_bytes_eq r : region_bytes r = r_end r - r_start r.
Proof. done. Qed.

Section Packed.
Context (rs : list Region).
Hypothesis Hasc : ascending r_start r_end rs.
Hypothesis Hok : Forall region_ok rs.
Hypothesis Huse : Forall useful rs.

Local Abbreviation flat_at i := (sum_by region_bytes (take i rs)).

Lemma rs_range i r : rs !! i = Some r -> 0 <= r_start r < r_end r /\ r_end r < 2 ^ 64.
Proof.
  intros Hi. rewrite Forall_lookup in Hok, Huse.
  destruct (Hok i r Hi) as [Hr _]. destruct (Huse i r Hi) as [_ Hlt]. lia.
Qed.

Lemma flat_at_S i r : rs !! i = Some r -> flat_at (S i) = flat_at i + region_bytes r.
Proof.
  intros Hi. rewrite (take_S_r rs i r) by done. rewrite sum_by_app, sum_by_cons. cbn. lia.
Qed.

Lemma flat_at_nonneg i : 0 <= flat_at i.
Proof.
  apply sum_by_nonneg. intros r Hr. apply elem_of_take in Hr as (j & Hj & _).
  pose proof (rs_range j r Hj). rewrite region_bytes_eq. lia.
Qed.

Lemma flat_at_mono i j : (i <= j)%nat -> flat_at i <= flat_at j.
Proof.
  induction 1 as [|j _ IH]; [done|]. destruct (rs !! j) as [r|] eqn:Ej.
  - rewrite (flat_at_S j r Ej). pose proof (rs_range j r Ej). rewrite region_bytes_eq. lia.
  - apply lookup_ge_None in Ej. by rewrite (take_ge rs (S j)), (take_ge rs j) in * by lia.
Qed.

(** Packing never moves a region up, so no offset can wrap. *)
Lemma flat_at_le_start i r : rs !! i = Some r -> flat_at i <= r_start r.
Proof.
  revert r. induction i as [|i IH]; intros r Hi.
  { apply rs_range in Hi. change (flat_at 0) with 0. lia. }
  destruct (lookup_lt_is_Some_2 rs i) as [r' Hi']; [apply lookup_lt_Some in Hi; lia|].
  rewrite (flat_at_S i r' Hi'). pose proof (IH r' Hi').
  pose proof (Hasc i (S i) r' r Hi' Hi ltac:(lia)). rewrite region_bytes_eq. lia.
Qed.

Lemma total_fits : sum_by region_bytes rs < 2 ^ 64.
Proof.
  destruct (decide (rs = [])) as [->|Hne]; [done|].
  destruct (lookup_lt_is_Some_2 rs (length rs - 1)) as [r Hr]; [destruct rs; [done|cbn; lia]|].
  pose proof (flat_at_S _ r Hr) as E. rewrite take_ge in E by lia. rewrite E.
  pose proof (flat_at_le_start _ r Hr). pose proof (rs_range _ r Hr). rewrite region_bytes_eq. lia.
Qed.

Lemma layout_elem s :
  s ∈ layout 0 rs <-> exists i r, rs !! i = Some r /\ s = span_of (flat_at i) r.
Proof.
  rewrite list_elem_of_lookup. setoid_rewrite layout_lookup. split.
  - intros (i & Hi). destruct (rs !! i) as [r|] eqn:E; [|done]. cbn in Hi. simplify_eq.
    exists i, r. by rewrite Z.add_0_l.
  - intros (i & r & Hi & ->). exists i. rewrite Hi. cbn. by rewrite Z.add_0_l.
Qed.

Lemma span_of_size i r : rs !! i = Some r -> span_size (span_of (flat_at i) r) = region_bytes r.
Proof.
  intros Hi. pose proof (rs_range i r Hi). unfold span_size. cbn [span_of s_start s_end].
  rewrite region_bytes_eq. apply u64_small. unfold is_u64. lia.
Qed.

Lemma span_of_flat_end i r : rs !! i = Some r -> flat_end (span_of (flat_at i) r) = flat_at (S i).
Proof.
  intros Hi. unfold flat_end. rewrite (span_of_size i r Hi), (flat_at_S i r Hi).
  cbn [span_of s_flat]. apply u64_small. pose proof (flat_at_nonneg i). pose proof (flat_at_le_start i r Hi).
  pose proof (rs_range i r Hi). rewrite region_bytes_eq. unfold is_u64. lia.
Qed.

Lemma layout_ascending_addr : ascending s_start s_end (layout 0 rs).
Proof.
  intros i j a b Hi Hj Hlt. rewrite layout_lookup in Hi, Hj.
  destruct (rs !! i) as [ri|] eqn:Ei, (rs !! j) as [rj|] eqn:Ej; cbn in *; simplify_eq.
  by apply (Hasc i j).
Qed.

Lemma layout_ascending_flat : ascending s_flat flat_end (layout 0 rs).
Proof.
  intros i j a b Hi Hj Hlt. rewrite layout_lookup in Hi, Hj.
  destruct (rs !! i) as [ri|] eqn:Ei, (rs !! j) as [rj|] eqn:Ej; cbn in Hi, Hj; simplify_eq.
  rewrite !Z.add_0_l. rewrite (span_of_flat_end i ri Ei). cbn [span_of s_flat]. apply flat_at_mono. lia.
Qed.

Lemma layout_ordered :
  Forall (fun s => s_start s <= s_end s) (layout 0 rs) /\
  Forall (fun s => s_flat s <= flat_end s) (layout 0 rs).
Proof.
  split; apply Forall_forall; intros s Hs; apply layout_elem in Hs as (i & r & Hi & ->).
  - pose proof (rs_range i r Hi). cbn [span_of s_start s_end]. lia.
  - rewrite (span_of_flat_end i r Hi). cbn [span_of s_flat]. apply flat_at_mono. lia.
Qed.

(** Every offset below the total lies in some span. *)
Lemma layout_covers f :
  0 <= f < sum_by region_bytes rs -> exists i r, rs !! i = Some r /\ flat_at i <= f < flat_at (S i).
Proof.
  intros Hf. assert (forall n, (n <= length rs)%nat -> f < flat_at n ->
    exists i r, rs !! i = Some r /\ flat_at i <= f < flat_at (S i)) as Hn.
  { induction n as [|n IH]; intros Hn Hlt; [change (flat_at 0) with 0 in Hlt; lia|].
    destruct (decide (f < flat_at n)); [apply IH; [lia|done]|].
    destruct (lookup_lt_is_Some_2 rs n) as [r Hr]; [lia|]. exists n, r. split; [done|lia]. }
  apply (Hn (length rs)); [lia|]. rewrite take_ge by lia. apply Hf.
Qed.

(** The two searches over this layout. *)
Context (m : RegionMap) (Hm : spans_ m = layout 0 rs).

Lemma span_at_addr_spec a s :
  span_at_addr m a = Some s <-> s ∈ layout 0 rs /\ s_start s <= a < s_end s.
Proof.
  unfold span_at_addr. rewrite Hm. destruct layout_ordered as [Ho _].
  rewrite <- (bsearch_all s_start s_end _ layout_ascending_addr Ho).
  pose proof (bsearch_total s_start s_end _ layout_ascending_addr Ho a) as Ht.
  destruct (bsearch _ _ _ _ _ _ _) as [[x|]|]; cbn; split; congruence.
Qed.

Lemma span_at_flat_spec f s :
  span_at_flat m f = Some s <-> s ∈ layout 0 rs /\ s_flat s <= f < flat_end s.
Proof.
  unfold span_at_flat. rewrite Hm. destruct layout_ordered as [_ Ho].
  rewrite <- (bsearch_all s_flat flat_end _ layout_ascending_flat Ho).
  pose proof (bsearch_total s_flat flat_end _ layout_ascending_flat Ho f) as Ht.
  destruct (bsearch _ _ _ _ _ _ _) as [[x|]|]; cbn; split; congruence.
Qed.

(** [to_flat] and [to_addr] translate within one region. *)
Lemma to_flat_spec a f :
  to_flat m a = Some f <->
  exists i r, rs !! i = Some r /\ r_start r <= a < r_end r /\ f = flat_at i + (a - r_start r).
Proof.
  assert (forall i r, rs !! i = Some r -> r_start r <= a < r_end r ->
    flat_at i ⊞ (a ⊟ r_start r) = flat_at i + (a - r_start r)) as Harith.
  { intros i r Hi Ha. pose proof (rs_range i r Hi). pose proof (flat_at_nonneg i).
    pose proof (flat_at_le_start i r Hi). rewrite (u64_small (a - _)) by (unfold is_u64; lia).
    apply u64_small. unfold is_u64. lia. }
  unfold to_flat. split.
  - destruct (span_at_addr m a) as [s|] eqn:E; [|done]. intros [= <-].
    apply span_at_addr_spec in E as [Hs Ha]. apply layout_elem in Hs as (i & r & Hi & ->).
    exists i, r. split_and!; [done|apply Ha..|by apply Harith].
  - intros (i & r & Hi & Ha & ->).
    assert (span_at_addr m a = Some (span_of (flat_at i) r)) as ->.
    { apply span_at_addr_spec. split; [apply layout_elem; eauto|done]. }
    cbn. by rewrite Harith.
Qed.

Lemma to_addr_spec a f :
  to_addr m f = Some a <->
  exists i r, rs !! i = Some r /\ flat_at i <= f < flat_at (S i) /\ a = r_start r + (f - flat_at i).
Proof.
  assert (forall i r, rs !! i = Some r -> flat_at i <= f < flat_at (S i) ->
    r_start r ⊞ (f ⊟ flat_at i) = r_start r + (f - flat_at i)) as Harith.
  { intros i r Hi Hf. pose proof (rs_range i r Hi). pose proof (flat_at_nonneg i).
    pose proof (flat_at_S i r Hi). rewrite region_bytes_eq in *.
    rewrite (u64_small (f - _)) by (unfold is_u64; lia). apply u64_small. unfold is_u64. lia. }
  unfold to_addr. split.
  - destruct (span_at_flat m f) as [s|] eqn:E; [|done]. intros [= <-].
    apply span_at_flat_spec in E as [Hs Hf]. apply layout_elem in Hs as (i & r & Hi & ->).
    rewrite (span_of_flat_end i r Hi) in Hf.
    exists i, r. split_and!; [done|apply Hf..|by apply Harith].
  - intros (i & r & Hi & Hf & ->).
    assert (span_at_flat m f = Some (span_of (flat_at i) r)) as ->.
    { apply span_at_flat_spec. split; [apply layout_elem; eauto|].
      rewrite (span_of_flat_end i r Hi). done. }
    cbn. by rewrite Harith.
Qed.

Lemma to_addr_to_flat f :
  0 <= f < sum_by region_bytes rs -> exists a, to_addr m f = Some a /\ to_flat m a = Some f.
Proof.
  intros Hf. destruct (layout_covers f Hf) as (i & r & Hi & Hr).
  pose proof (flat_at_S i r Hi). rewrite region_bytes_eq in *.
  eexists. rewrite to_addr_spec. split; [by exists i, r|].
  apply to_flat_spec. exists i, r. split_and!; [done|lia..].
Qed.

Lemma to_flat_to_addr a f :
  to_flat m a = Some f -> to_addr m f = Some a /\ 0 <= f < sum_by region_bytes rs.
Proof.
  intros (i & r & Hi & Ha & ->)%to_flat_spec.
  pose proof (flat_at_S i r Hi) as ES. rewrite region_bytes_eq in ES.
  pose proof (flat_at_nonneg i). split.
  - apply to_addr_spec. exists i, r. split_and!; [done|lia..].
  - split; [lia|]. apply lookup_lt_Some in Hi.
    pose proof (flat_at_mono (S i) (length rs) ltac:(lia)) as Hmono.
    rewrite (take_ge rs (length rs)) in Hmono by lia. lia.
Qed.
End Packed.

Lemma kept_ok l : Forall region_ok l -> Forall region_ok (kept l).
Proof.
  rewrite !Forall_forall. intros H x Hx. apply H. by apply list_elem_of_filter in Hx as [_ ?].
Qed.
Lemma kept_useful l : Forall useful (kept l).
Proof. apply Forall_forall. intros x Hx. by apply list_elem_of_filter in Hx as [? _]. Qed.

(** C34: The packed space is a faithful picture of the address space: after
    repacking a scan in ascending order, [to_flat] and [to_addr] are inverse to
    each other, the packed offsets are exactly [0, total), and an address has an
    offset if and only if it lies in one of the allocatable regions. *)
Theorem packing_inverse m l :
  Forall region_ok l -> ascending r_start r_end l ->
  let m' := (rebuild m l).1 in
  (forall a f, to_flat m' a = Some f -> to_addr m' f = Some a /\ 0 <= f < total_ m') /\
  (forall f, 0 <= f < total_ m' -> exists a, to_addr m' f = Some a /\ to_flat m' a = Some f) /\
  (forall a, is_Some (to_flat m' a) <-> exists r, r ∈ l /\ useful r /\ contains r a = true).
Proof.
  intros Hok Hasc. pose proof (ascending_filter _ _ useful l Hasc) as Hasck. fold (kept l) in Hasck.
  pose proof (kept_ok l Hok) as Hokk. pose proof (kept_useful l) as Huse.
  pose proof (rebuild_layout m l Hok (total_fits _ Hasck Hokk Huse)) as H.
  destruct (rebuild m l) as [m' changed]. destruct H as (Hs & Ht & _). cbn [fst].
  rewrite Ht. split_and!.
  - intros a f. by apply to_flat_to_addr.
  - intros f. by apply to_addr_to_flat.
  - intros a. split.
    + intros [f Hf]. apply (to_flat_spec _ Hasck Hokk Huse m' Hs) in Hf as (i & r & Hi & Ha & _).
      apply list_elem_of_lookup_2, list_elem_of_filter in Hi as [Hu Hin].
      exists r. by rewrite contains_iff.
    + intros (r & Hin & Hu & Ha). apply contains_iff in Ha.
      assert (r ∈ kept l) as Hk by (by apply list_elem_of_filter).
      apply list_elem_of_lookup in Hk as [i Hi]. eexists.
      apply (to_flat_spec _ Hasck Hokk Huse m' Hs). by exists i, r.
Qed.

Definition demo_regions : list Region := regions_ (scan_text (new_scanner 1) demo_text 7).1.

Lemma demo_regions_ok : Forall region_ok demo_regions.
Proof. unfold demo_regions. rewrite scan_text_regions. apply parse_lines_ok. Qed.

Lemma packing_inverse_witness :
  let m' := (rebuild new_map demo_regions).1 in
  (forall a f, to_flat m' a = Some f -> to_addr m' f = Some a /\ 0 <= f < total_ m') /\
  (forall f, 0 <= f < total_ m' -> exists a, to_addr m' f = Some a /\ to_flat m' a = Some f) /\
  (forall a, is_Some (to_flat m' a) <-> exists r, r ∈ demo_regions /\ useful r /\ contains r a = true).
Proof. apply (packing_inverse new_map demo_regions); [apply demo_regions_ok|apply demo_ascending]. Defined.

(** Repacking reports a change exactly when some region's start, end or
    packed offset differs from the previous layout or the number of regions
    does; it counts a repack exactly then, and repacking the same scan again
    changes nothing. *)
Theorem repack_detects_change m l :
  Forall region_ok l -> ascending r_start r_end l ->
  let '(m', changed) := rebuild m l in
  (changed = false <-> geometry_of (spans_ m') = geometry_of (spans_ m)) /\
  repacks_ m' = (if changed then repacks_ m ⊞ 1 else repacks_ m) /\
  total_ m' = sum_by region_bytes (kept l) /\
  rebuild m' l = (m', false).
Proof.
  intros Hok Hasc. pose proof (ascending_filter _ _ useful l Hasc) as Hasck. fold (kept l) in Hasck.
  pose proof (total_fits _ Hasck (kept_ok l Hok) (kept_useful l)) as Hfit.
  pose proof (rebuild_layout m l Hok Hfit) as H. destruct (rebuild m l) as [m1 changed].
  destruct H as (Hs & Ht & Hc & Hr). split_and!; [by rewrite Hs|done|done|].
  pose proof (rebuild_layout m1 l Hok Hfit) as H. destruct (rebuild m1 l) as [m2 ch2].
  destruct H as (Hs2 & Ht2 & Hc2 & Hr2). rewrite Hs in Hc2.
  assert (ch2 = false) as -> by (by apply Hc2). f_equal.
  destruct m1, m2; cbn in *. congruence.
Qed.

Lemma repack_detects_change_witness :
  let '(m', changed) := rebuild new_map demo_regions in
  (changed = false <-> geometry_of (spans_ m') = geometry_of (spans_ new_map)) /\
  repacks_ m' = (if changed then repacks_ new_map ⊞ 1 else repacks_ new_map) /\
  total_ m' = sum_by region_bytes (kept demo_regions) /\
  rebuild m' demo_regions = (m', false).
Proof.
  apply (repack_detects_change new_map demo_regions); [apply demo_regions_ok|apply demo_ascending].
Defined.

(** A seam is drawn exactly where a region after the first begins. *)
Lemma is_boundary_spec m flat :
  is_boundary m flat = true <-> flat <> 0 /\ exists s, s ∈ spans_ m /\ s_flat s = flat.
Proof.
  unfold is_boundary. destruct (Z.eqb_spec flat 0) as [->|Hne].
  { split; [done|]. by intros [? _]. }
  rewrite existsb_exists. split.
  - intros (s & Hs & E%Z.eqb_eq). split; [done|]. exists s. by rewrite list_elem_of_In.
  - intros (_ & s & Hs & E). exists s. rewrite list_elem_of_In in Hs. by rewrite Z.eqb_eq.
Qed.
