(* ===== verification/HeatMap.v ===== *)
(** * Per-cell aggregation (src/src/tui/heatmap.h, heatmap.cpp)

    What each cell of the map holds, kept up to date event by event and
    recomputable from the chunk table; the precedence rule that turns a cell and
    the clock into a displayed state. *)

From Stdlib Require Import String.
From S2P Require Import Prelude ChunkTable ChunkTableProofs ChunkTableSpec ChunkTableMap.
From S2P Require Import ProcMaps RegionMap Grid.

Definition kNoTime : Z := 0xFFFFFFFF.

Record HeatTimings := mkTimings {
  malloc_pulse_ms : Z;
  malloc_fade_ms : Z;
  free_flash_ms : Z;
  free_fade_ms : Z
}.
Definition kDefaultTimings : HeatTimings := mkTimings 200 800 300 2000.

Inductive CellState := CsEmpty | CsOverhead | CsLive | CsRecentMalloc | CsRecentFree.
#[export] Instance CellState_eq_dec : EqDecision CellState.
Proof. solve_decision. Defined.

Record CellAggregate := mkCell {
  live_bytes : Z;
  n_live : Z;
  overhead_bytes : Z;
  last_alloc_ms : Z;
  last_free_ms : Z
}.
Definition kEmptyAggregate : CellAggregate := mkCell 0 0 0 kNoTime kNoTime.
#[export] Instance CellAggregate_inhabited : Inhabited CellAggregate := populate kEmptyAggregate.

Definition cell_occupied (a : CellAggregate) : bool :=
  negb (n_live a =? 0) || negb (overhead_bytes a =? 0).

(** The region map is the one [HeapApp] owns and the map points to. *)
Record HeatMap := mkHeatMap {
  hm_regions : option RegionMap;
  hm_grid : Grid;
  hm_cells : list CellAggregate;
  hm_timings : HeatTimings;
  hm_total_live_bytes : Z;
  hm_total_live : Z;
  hm_rebuilds : Z
}.

Definition new_heatmap : HeatMap := mkHeatMap None new_grid [] kDefaultTimings 0 0 0.

Definition with_cells (h : HeatMap) (cells : list CellAggregate) (bytes live : Z) : HeatMap :=
  mkHeatMap (hm_regions h) (hm_grid h) cells (hm_timings h) bytes live (hm_rebuilds h).

Definition bump (slot value : Z) : Z :=
  if (slot =? kNoTime) || (slot <? value) then value else slot.

Definition overhead_of (size usable : Z) : Z := if size <? usable then usable ⊟₃₂ size else 0.

Definition within (stamp now window : Z) : bool :=
  if stamp =? kNoTime then false else now ⊟₃₂ stamp <? window.

Definition cell_state_str (s : CellState) : list Z :=
  match s with
  | CsEmpty => str "empty"
  | CsOverhead => str "overhead"
  | CsLive => str "live"
  | CsRecentMalloc => str "recent malloc"
  | CsRecentFree => str "recent free"
  end.

Definition same_geometry (a b : Grid) : bool :=
  eqb (valid_ a) (valid_ b) && (base_ a =? base_ b) && (cell_bytes_ a =? cell_bytes_ b) &&
  (cols_ a =? cols_ b) && (rows_ a =? rows_ b).

Definition configure (h : HeatMap) (g : Grid) : HeatMap * bool :=
  if same_geometry (hm_grid h) g && (Z.of_nat (length (hm_cells h)) =? cell_count g)
  then (h, false)
  else (mkHeatMap (hm_regions h) g (replicate (Z.to_nat (cell_count g)) kEmptyAggregate)
          (hm_timings h) 0 0 (hm_rebuilds h), true).

Definition coordinate_of (h : HeatMap) (ptr : Z) : option Z :=
  match hm_regions h with
  | None => Some ptr
  | Some r => to_flat r ptr
  end.

(** The cell an address falls in. *)
Definition cell_index (h : HeatMap) (ptr : Z) : option Z :=
  match coordinate_of h ptr with
  | None => None
  | Some coord => index_of (hm_grid h) coord
  end.

(** One record of the table, as the loop of [rebuild] folds it in. *)
Definition absorb_cell (c : Chunk) (cell : CellAggregate) : CellAggregate :=
  let alloc := bump (last_alloc_ms cell) (c_alloc_ms c) in
  if decide (c_state c = kChunkLive) then
    mkCell (live_bytes cell ⊞ c_usable c) (n_live cell ⊞₃₂ 1)
      (overhead_bytes cell ⊞₃₂ overhead_of (c_size c) (c_usable c)) alloc (last_free_ms cell)
  else
    mkCell (live_bytes cell) (n_live cell) (overhead_bytes cell) alloc
      (bump (last_free_ms cell) (c_free_ms c)).

Definition absorb (h : HeatMap) (c : Chunk) : HeatMap :=
  if decide (c_state c = kChunkEmpty) then h
  else
    match cell_index h (c_key c) with
    | None => h
    | Some i =>
        with_cells h (alter (absorb_cell c) (Z.to_nat i) (hm_cells h))
          (if decide (c_state c = kChunkLive) then hm_total_live_bytes h ⊞ c_usable c
           else hm_total_live_bytes h)
          (if decide (c_state c = kChunkLive) then hm_total_live h ⊞ 1 else hm_total_live h)
    end.

(** The cells zeroed, before the table is walked. *)
Definition blank (h : HeatMap) : HeatMap :=
  mkHeatMap (hm_regions h) (hm_grid h) ((fun _ => kEmptyAggregate) <$> hm_cells h)
    (hm_timings h) 0 0 (hm_rebuilds h ⊞ 1).

Definition rebuild (h : HeatMap) (t : ChunkTable) : HeatMap :=
  let h := blank h in
  if negb (valid_ (hm_grid h)) then h else foldl absorb h (slots_ t).

Definition cell_for (h : HeatMap) (ptr : Z) : option nat :=
  match cell_index h ptr with
  | None => None
  | Some i => if Z.of_nat (length (hm_cells h)) <=? i then None else Some (Z.to_nat i)
  end.

Definition on_alloc (h : HeatMap) (ptr size usable now_ms : Z) : HeatMap :=
  match cell_for h ptr with
  | None => h
  | Some i =>
      with_cells h
        (alter (fun cell =>
           mkCell (live_bytes cell ⊞ usable) (n_live cell ⊞₃₂ 1)
             (overhead_bytes cell ⊞₃₂ overhead_of size usable)
             (bump (last_alloc_ms cell) now_ms) (last_free_ms cell)) i (hm_cells h))
        (hm_total_live_bytes h ⊞ usable) (hm_total_live h ⊞ 1)
  end.

(** [x -= (x >= y) ? y : x] *)
Definition sat_sub (x y : Z) : Z := x - (if y <=? x then y else x).

Definition on_free (h : HeatMap) (ptr size usable now_ms : Z) : HeatMap :=
  match cell_for h ptr with
  | None => h
  | Some i =>
      let cell := hm_cells h !!! i in
      let '(cell, bytes, live) :=
        if 0 <? n_live cell then
          (mkCell (sat_sub (live_bytes cell) usable) (n_live cell - 1)
             (sat_sub (overhead_bytes cell) (overhead_of size usable))
             (last_alloc_ms cell) (last_free_ms cell),
           sat_sub (hm_total_live_bytes h) usable,
           if 0 <? hm_total_live h then hm_total_live h - 1 else hm_total_live h)
        else (cell, hm_total_live_bytes h, hm_total_live h) in
      let cell := mkCell (live_bytes cell) (n_live cell) (overhead_bytes cell)
                    (last_alloc_ms cell) (bump (last_free_ms cell) now_ms) in
      with_cells h (<[i := cell]> (hm_cells h)) bytes live
  end.

Definition refine_overhead (h : HeatMap) (ptr from to : Z) : HeatMap * bool :=
  match cell_for h ptr with
  | None => (h, false)
  | Some i =>
      (with_cells h
         (alter (fun cell =>
            mkCell (live_bytes cell) (n_live cell)
              (sat_sub (overhead_bytes cell) from ⊞₃₂ to)
              (last_alloc_ms cell) (last_free_ms cell)) i (hm_cells h))
         (hm_total_live_bytes h) (hm_total_live h), true)
  end.

Definition cell_state (a : CellAggregate) (t : HeatTimings) (now_ms : Z) : CellState :=
  if within (last_free_ms a) now_ms (free_flash_ms t) then CsRecentFree
  else if within (last_alloc_ms a) now_ms (malloc_pulse_ms t) then CsRecentMalloc
  else if 0 <? n_live a then CsLive
  else if 0 <? overhead_bytes a then CsOverhead
  else CsEmpty.

Definition at_cell (h : HeatMap) (index : Z) : CellAggregate :=
  if Z.of_nat (length (hm_cells h)) <=? index then kEmptyAggregate
  else hm_cells h !!! Z.to_nat index.

Definition state_at (h : HeatMap) (index now_ms : Z) : CellState :=
  if Z.of_nat (length (hm_cells h)) <=? index then CsEmpty
  else cell_state (hm_cells h !!! Z.to_nat index) (hm_timings h) now_ms.
