(* ===== verification/HeatMapProofs.v ===== *)
(** * The incremental heat map agrees with a rebuild

    The order in which a rebuild walks the table does not matter, so its result
    is a function of the map the table represents; folding one event into the
    cells then commutes with applying that event to the table. *)

From S2P Require Import Prelude ChunkTable ChunkTableProofs ChunkTableSpec ChunkTableMap.
From S2P Require Import ProcMaps RegionMap Grid HeatMap.

(** ** Order of the walk *)
Lemma foldl_perm {A B} (f : B -> A -> B) (P : A -> Prop) l1 l2 b :
  (forall b x y, P x -> P y -> f (f b x) y = f (f b y) x) ->
  l1 ≡ₚ l2 -> Forall P l1 -> foldl f b l1 = foldl f b l2.
Proof.
  intros Hcomm Hp. revert b.
  induction Hp as [|x l l' Hp IH|x y l|l l' l'' Hp1 IH1 Hp2 IH2]; intros b HP; cbn [foldl].
  - done.
  - apply Forall_cons in HP as [_ HP]. by apply IH.
  - apply Forall_cons in HP as [Hy HP]. apply Forall_cons in HP as [Hx HP]. by rewrite Hcomm.
  - rewrite IH1 by done. apply IH2. by rewrite <- Hp1.
Qed.

(** Timestamps that occur in a session. *)
Definition stamped (c : Chunk) : Prop := 0 <= c_alloc_ms c < kNoTime /\ 0 <= c_free_ms c < kNoTime.

Lemma bump_max s a : bump s a = if s =? kNoTime then a else Z.max s a.
Proof.
  unfold bump. destruct (Z.eqb_spec s kNoTime); cbn [orb]; [done|].
  destruct (Z.ltb_spec s a); lia.
Qed.

Lemma bump_bump s a b :
  a < kNoTime -> bump (bump s a) b = if s =? kNoTime then Z.max a b else Z.max s (Z.max a b).
Proof.
  intros Ha. rewrite !bump_max. destruct (Z.eqb_spec s kNoTime).
  - destruct (Z.eqb_spec a kNoTime); lia.
  - destruct (Z.eqb_spec (Z.max s a) kNoTime); lia.
Qed.

Lemma bump_comm s a b : a < kNoTime -> b < kNoTime -> bump (bump s a) b = bump (bump s b) a.
Proof. intros. rewrite !bump_bump by done. by rewrite (Z.max_comm a b). Qed.

Lemma u32_add_comm x a b : u32 (u32 (x + a) + b) = u32 (u32 (x + b) + a).
Proof. unfold u32. rewrite !Zplus_mod_idemp_l. f_equal. lia. Qed.
Lemma u64_add_comm x a b : u64 (u64 (x + a) + b) = u64 (u64 (x + b) + a).
Proof. rewrite !u64_add_l. f_equal. lia. Qed.

Lemma absorb_cell_comm a b cell :
  stamped a -> stamped b ->
  absorb_cell b (absorb_cell a cell) = absorb_cell a (absorb_cell b cell).
Proof.
  intros [Ha1 Ha2] [Hb1 Hb2]. unfold absorb_cell.
  destruct (decide (c_state a = kChunkLive)), (decide (c_state b = kChunkLive));
    cbn [live_bytes n_live overhead_bytes last_alloc_ms last_free_ms].
  - rewrite (u64_add_comm _ (c_usable a)), (u32_add_comm (overhead_bytes cell)),
      (bump_comm _ (c_alloc_ms a)) by lia. done.
  - by rewrite (bump_comm _ (c_alloc_ms a)) by lia.
  - by rewrite (bump_comm _ (c_alloc_ms a)) by lia.
  - rewrite (bump_comm _ (c_alloc_ms a)), (bump_comm _ (c_free_ms a)) by lia. done.
Qed.

Lemma absorb_index h c ptr : cell_index (absorb h c) ptr = cell_index h ptr.
Proof.
  unfold absorb. destruct (decide _); [done|]. by destruct (cell_index h (c_key c)).
Qed.

Lemma absorb_comm h a b :
  stamped a -> stamped b -> absorb (absorb h a) b = absorb (absorb h b) a.
Proof.
  intros Ha Hb. unfold absorb at 1 3. rewrite !absorb_index.
  destruct (decide (c_state a = kChunkEmpty)) as [Ea|Ea],
    (decide (c_state b = kChunkEmpty)) as [Eb|Eb]; try done;
    unfold absorb; rewrite ?(decide_True _ _ Ea), ?(decide_True _ _ Eb),
      ?(decide_False _ _ Ea), ?(decide_False _ _ Eb); try done.
  destruct (cell_index h (c_key a)) as [i|], (cell_index h (c_key b)) as [j|]; try done.
  unfold with_cells.
  cbn [hm_regions hm_grid hm_cells hm_timings hm_total_live_bytes hm_total_live hm_rebuilds].
  f_equal.
  - destruct (decide (Z.to_nat i = Z.to_nat j)) as [->|Hne]; [|by apply list_alter_alter_ne].
    rewrite !list_alter_alter_eq. apply list_alter_ext; [|done].
    intros x _. by apply absorb_cell_comm.
  - destruct (decide (c_state a = kChunkLive)), (decide (c_state b = kChunkLive)); try done.
    apply u64_add_comm.
  - destruct (decide (c_state a = kChunkLive)), (decide (c_state b = kChunkLive)); done.
Qed.

Lemma absorb_slots h l : foldl absorb h l = foldl absorb h (contents l).
Proof.
  revert h. induction l as [|c l IH]; intros h; [done|]. rewrite contents_cons. cbn [foldl].
  destruct (decide (c_state c = kChunkEmpty)) as [E|E].
  - rewrite IH. unfold absorb at 2. by rewrite decide_True.
  - cbn [foldl]. apply IH.
Qed.

(** A rebuild depends on the table only through its map. *)
Lemma rebuild_contents h t l :
  valid_ (hm_grid h) = true -> contents (slots_ t) ≡ₚ l -> Forall stamped l ->
  rebuild h t = foldl absorb (blank h) l.
Proof.
  intros Hv Hp Hst. unfold rebuild. cbn [blank hm_grid]. rewrite Hv. cbn [negb].
  rewrite absorb_slots. apply (foldl_perm _ stamped); [intros; by apply absorb_comm|done|].
  by rewrite Hp.
Qed.

Lemma contents_abs t : table_ok t -> contents (slots_ t) ≡ₚ (map_to_list (abs t)).*2.
Proof.
  intros Hok. unfold abs. rewrite map_to_list_to_map by (rewrite entries_keys; apply Hok).
  unfold entries. rewrite <- list_fmap_compose. by rewrite list_fmap_id.
Qed.

(** ** Shape and bounds *)

(** There is one aggregate per cell of the grid. *)
Definition shaped (h : HeatMap) : Prop :=
  Z.of_nat (length (hm_cells h)) = cell_count (hm_grid h).

Lemma cell_for_shaped h ptr i :
  shaped h -> cell_index h ptr = Some i -> 0 <= i ->
  cell_for h ptr = Some (Z.to_nat i) /\ (Z.to_nat i < length (hm_cells h))%nat.
Proof.
  intros Hs Hi H0. unfold cell_for. rewrite Hi. unfold shaped in Hs.
  assert (i < cell_count (hm_grid h)) as Hlt.
  { unfold cell_index in Hi. destruct (coordinate_of h ptr) as [coord|]; [|done].
    unfold index_of in Hi. tests; simplify_eq. by apply Z.leb_gt. }
  destruct (Z.leb_spec (Z.of_nat (length (hm_cells h))) i); [lia|]. split; [done|lia].
Qed.

Lemma cell_index_nonneg h ptr i : grid_ok (hm_grid h) -> cell_index h ptr = Some i -> 0 <= i.
Proof.
  intros Hg. unfold cell_index. destruct (coordinate_of h ptr) as [coord|]; [|done].
  apply index_of_nonneg.
Qed.

(** Machine-word fields of a record. *)
Definition sane (c : Chunk) : Prop := stamped c /\ is_u32 (c_size c) /\ is_u32 (c_usable c).

Definition chunk_overhead (c : Chunk) : Z := overhead_of (c_size c) (c_usable c).

Lemma chunk_overhead_range c : sane c -> 0 <= chunk_overhead c.
Proof.
  intros (_ & Hs & Hu). unfold chunk_overhead, overhead_of.
  destruct (Z.ltb_spec (c_size c) (c_usable c)); [apply u32_range|lia].
Qed.

(** No counter of [h] exceeds the given totals. *)
Record bounded (h : HeatMap) (n bytes over : Z) : Prop := {
  bd_cells : Forall (fun cell => 0 <= n_live cell <= n /\ 0 <= live_bytes cell <= bytes /\
                                 0 <= overhead_bytes cell <= over) (hm_cells h);
  bd_live : 0 <= hm_total_live h <= n;
  bd_bytes : 0 <= hm_total_live_bytes h <= bytes
}.

Lemma bounded_blank h : bounded (blank h) 0 0 0.
Proof.
  split; cbn [blank hm_cells hm_total_live hm_total_live_bytes]; [|lia|lia].
  apply Forall_fmap, Forall_forall. intros x _. cbn. lia.
Qed.

Lemma absorb_cell_bounded c cell n bytes over :
  sane c -> n + 1 < 2 ^ 32 -> bytes + c_usable c < 2 ^ 64 -> over + chunk_overhead c < 2 ^ 32 ->
  0 <= n_live cell <= n /\ 0 <= live_bytes cell <= bytes /\ 0 <= overhead_bytes cell <= over ->
  let cell' := absorb_cell c cell in
  0 <= n_live cell' <= n + 1 /\ 0 <= live_bytes cell' <= bytes + c_usable c /\
  0 <= overhead_bytes cell' <= over + chunk_overhead c.
Proof.
  intros Hc Hn Hb Ho (H1 & H2 & H3). pose proof (chunk_overhead_range c Hc).
  destruct Hc as (_ & _ & Hu). unfold is_u32 in Hu. unfold absorb_cell.
  destruct (decide (c_state c = kChunkLive)); cbn [n_live live_bytes overhead_bytes]; [|lia].
  fold (chunk_overhead c).
  rewrite (u32_small (n_live cell + 1)), (u64_small (live_bytes cell + _)),
    (u32_small (overhead_bytes cell + _)) by (unfold is_u32, is_u64; lia). lia.
Qed.

Lemma absorb_bounded h c n bytes over :
  sane c -> n + 1 < 2 ^ 32 -> bytes + c_usable c < 2 ^ 64 -> over + chunk_overhead c < 2 ^ 32 ->
  bounded h n bytes over ->
  bounded (absorb h c) (n + 1) (bytes + c_usable c) (over + chunk_overhead c).
Proof.
  intros Hc Hn Hb Ho [H1 H2 H3]. pose proof (chunk_overhead_range c Hc).
  pose proof Hc as (_ & _ & Hu). unfold is_u32 in Hu.
  assert (bounded h (n + 1) (bytes + c_usable c) (over + chunk_overhead c)) as Hweak.
  { split; [|lia|lia]. eapply Forall_impl; [exact H1|]. cbn. intros x (? & ? & ?). lia. }
  unfold absorb. destruct (decide (c_state c = kChunkEmpty)); [done|].
  destruct (cell_index h (c_key c)) as [i|]; [|done].
  split; cbn [with_cells hm_cells hm_total_live hm_total_live_bytes].
  - apply Forall_alter; [apply Hweak|]. intros x Hx _.
    apply absorb_cell_bounded; try done. rewrite Forall_lookup in H1. by eapply H1.
  - destruct (decide (c_state c = kChunkLive)); [|lia]. rewrite u64_small by (unfold is_u64; lia). lia.
  - destruct (decide (c_state c = kChunkLive)); [|lia]. rewrite u64_small by (unfold is_u64; lia). lia.
Qed.

(** The totals of a list of records fit the counters' widths. *)
Definition totals_fit (l : list Chunk) : Prop :=
  Z.of_nat (length l) < 2 ^ 32 /\ sum_by c_usable l < 2 ^ 64 /\ sum_by chunk_overhead l < 2 ^ 32.

Lemma totals_fit_tail c l : sane c -> totals_fit (c :: l) -> totals_fit l.
Proof.
  intros Hc. unfold totals_fit. rewrite !sum_by_cons. cbn [length].
  pose proof (chunk_overhead_range c Hc). destruct Hc as (_ & _ & Hu). unfold is_u32 in Hu. lia.
Qed.

Lemma absorb_all_bounded l h n bytes over :
  Forall sane l -> 0 <= n -> 0 <= bytes -> 0 <= over ->
  n + Z.of_nat (length l) < 2 ^ 32 -> bytes + sum_by c_usable l < 2 ^ 64 ->
  over + sum_by chunk_overhead l < 2 ^ 32 ->
  bounded h n bytes over ->
  bounded (foldl absorb h l) (n + Z.of_nat (length l)) (bytes + sum_by c_usable l)
    (over + sum_by chunk_overhead l).
Proof.
  intros Hl. revert h n bytes over. induction Hl as [|c l Hc Hl IH]; intros h n bytes over Hn Hb Ho H1 H2 H3 Hbd.
  { cbn [foldl length sum_by foldr]. by rewrite !Z.add_0_r. }
  cbn [foldl length] in *. rewrite !sum_by_cons in *.
  pose proof (chunk_overhead_range c Hc). pose proof Hc as (_ & _ & Hu). unfold is_u32 in Hu.
  assert (0 <= sum_by c_usable l /\ 0 <= sum_by chunk_overhead l).
  { rewrite Forall_forall in Hl. split; apply sum_by_nonneg; intros a Ha.
    - destruct (Hl a Ha) as (_ & _ & [? _]). done.
    - by apply chunk_overhead_range, Hl. }
  replace (n + Z.of_nat (S (length l))) with (n + 1 + Z.of_nat (length l)) by lia.
  rewrite !Z.add_assoc. apply IH; try lia. apply absorb_bounded; try done; lia.
Qed.

Lemma absorb_all_shape l h :
  length (hm_cells (foldl absorb h l)) = length (hm_cells h) /\
  hm_grid (foldl absorb h l) = hm_grid h /\ hm_regions (foldl absorb h l) = hm_regions h /\
  hm_timings (foldl absorb h l) = hm_timings h.
Proof.
  revert h. induction l as [|c l IH]; intros h; [done|]. cbn [foldl].
  destruct (IH (absorb h c)) as (-> & -> & -> & ->). unfold absorb.
  destruct (decide _); [done|]. destruct (cell_index h (c_key c)); [|done].
  cbn. by rewrite length_alter.
Qed.

(** ** One event *)

(** Everything but the count of rebuilds. *)
Definition norm (h : HeatMap) : HeatMap :=
  mkHeatMap (hm_regions h) (hm_grid h) (hm_cells h) (hm_timings h)
    (hm_total_live_bytes h) (hm_total_live h) 0.

Lemma norm_absorb h c : norm (absorb h c) = absorb (norm h) c.
Proof.
  unfold absorb. destruct (decide _); [done|]. change (cell_index (norm h)) with (cell_index h).
  by destruct (cell_index h (c_key c)).
Qed.

Lemma norm_absorb_all h l : norm (foldl absorb h l) = foldl absorb (norm h) l.
Proof. revert h. induction l as [|c l IH]; intros h; [done|]. cbn. by rewrite IH, norm_absorb. Qed.

Lemma norm_on_alloc h p s u ms : norm (on_alloc h p s u ms) = on_alloc (norm h) p s u ms.
Proof.
  unfold on_alloc. change (cell_for (norm h) p) with (cell_for h p). by destruct (cell_for h p).
Qed.

Lemma norm_on_free h p s u ms : norm (on_free h p s u ms) = on_free (norm h) p s u ms.
Proof.
  unfold on_free. change (cell_for (norm h) p) with (cell_for h p). destruct (cell_for h p); [|done].
  change (hm_cells (norm h)) with (hm_cells h). by destruct (0 <? n_live _).
Qed.

(** Folding in a live record is what [on_alloc] does. *)
Lemma on_alloc_absorb h key size usable ms tid :
  shaped h -> grid_ok (hm_grid h) ->
  on_alloc h key size usable ms = absorb h (live_record key size usable ms tid).
Proof.
  intros Hs Hg. unfold on_alloc, absorb. cbn [live_record c_state c_key].
  rewrite decide_False by done. destruct (cell_index h key) as [i|] eqn:Ei.
  - destruct (cell_for_shaped h key i Hs Ei (cell_index_nonneg _ _ _ Hg Ei)) as [-> _].
    rewrite !decide_True by done. done.
  - unfold cell_for. by rewrite Ei.
Qed.

Lemma sat_sub_exact x y : 0 <= x -> sat_sub (x + y) y = x.
Proof. intros. unfold sat_sub. destruct (Z.leb_spec y (x + y)); lia. Qed.

(** Freeing a folded-in live record leaves what folding in the freed one gives. *)
Lemma on_free_absorb h c ms n bytes over :
  shaped h -> grid_ok (hm_grid h) -> c_state c = kChunkLive -> sane c ->
  bounded h n bytes over ->
  n + 1 < 2 ^ 32 -> bytes + c_usable c < 2 ^ 64 -> over + chunk_overhead c < 2 ^ 32 ->
  on_free (absorb h c) (c_key c) (c_size c) (c_usable c) ms = absorb h (free_record c ms).
Proof.
  intros Hs Hg Hl Hc [Hb1 Hb2 Hb3] Hn Hby Hov.
  pose proof (chunk_overhead_range c Hc) as Ho0. pose proof Hc as (_ & _ & Hu). unfold is_u32 in Hu.
  unfold on_free, absorb. cbn [free_record c_state c_key c_alloc_ms c_free_ms].
  rewrite Hl. rewrite !(decide_False (P := kChunkLive = kChunkEmpty)) by done.
  rewrite (decide_False (P := kChunkFreed = kChunkEmpty)) by done.
  destruct (cell_index h (c_key c)) as [i|] eqn:Ei.
  2: { unfold cell_for. by rewrite Ei. }
  destruct (cell_for_shaped h (c_key c) i Hs Ei (cell_index_nonneg _ _ _ Hg Ei)) as [Ef Hlt].
  set (h1 := with_cells h _ _ _).
  assert (cell_for h1 (c_key c) = Some (Z.to_nat i)) as ->.
  { rewrite <- Ef. unfold cell_for, cell_index, coordinate_of, h1. cbn [with_cells hm_regions hm_grid hm_cells].
    by rewrite length_alter. }
  destruct (lookup_lt_is_Some_2 (hm_cells h) (Z.to_nat i) Hlt) as [cell Ecell].
  rewrite Forall_lookup in Hb1. destruct (Hb1 _ _ Ecell) as (Hc1 & Hc2 & Hc3).
  assert (hm_cells h1 !!! Z.to_nat i = absorb_cell c cell) as ->.
  { apply list_lookup_total_correct. unfold h1. cbn [with_cells hm_cells].
    rewrite list_lookup_alter_eq, Ecell. done. }
  unfold absorb_cell at 1 2 3 4 5 6 7. rewrite Hl, decide_True by done.
  cbn [n_live live_bytes overhead_bytes last_alloc_ms last_free_ms].
  rewrite (u32_small (n_live cell + 1)) by (unfold is_u32; lia).
  destruct (Z.ltb_spec 0 (n_live cell + 1)); [|lia]. cbn [n_live live_bytes overhead_bytes last_alloc_ms last_free_ms].
  fold (chunk_overhead c).
  rewrite (u64_small (live_bytes cell + _)), (u32_small (overhead_bytes cell + _))
    by (unfold is_u32, is_u64; lia).
  unfold h1, with_cells.
  cbn [hm_regions hm_grid hm_cells hm_timings hm_total_live_bytes hm_total_live hm_rebuilds].
  rewrite !(decide_True (P := kChunkLive = kChunkLive)) by done.
  rewrite !(decide_False (P := kChunkFreed = kChunkLive)) by done.
  rewrite (u64_small (hm_total_live_bytes h + _)), (u64_small (hm_total_live h + 1)) by (unfold is_u64; lia).
  destruct (Z.ltb_spec 0 (hm_total_live h + 1)); [|lia].
  rewrite !sat_sub_exact by lia. replace (n_live cell + 1 - 1) with (n_live cell) by lia.
  replace (hm_total_live h + 1 - 1) with (hm_total_live h) by lia.
  f_equal. apply list_eq. intros k. destruct (decide (k = Z.to_nat i)) as [->|Hk].
  - rewrite list_lookup_insert_eq by (by rewrite length_alter).
    rewrite list_lookup_alter_eq, Ecell. cbn. f_equal.
  - rewrite list_lookup_insert_ne, !list_lookup_alter_ne by done. done.
Qed.

(** ** Sequences of events *)

Inductive HeapEvent :=
  | EvAlloc (key size usable ms tid : Z)
  | EvFree (key ms : Z).

(** Table and cells kept in step, as the event path of the application does. *)
Definition track (s : ChunkTable * HeatMap) (e : HeapEvent) : ChunkTable * HeatMap :=
  let '(t, h) := s in
  match e with
  | EvAlloc key size usable ms tid =>
      ((insert_live t key size usable ms tid).1, on_alloc h key size usable ms)
  | EvFree key ms =>
      match lookup_chunk t key with
      | Some c => ((mark_freed t key ms).1, on_free h key (c_size c) (c_usable c) ms)
      | None => (t, h)
      end
  end.

(** The table stays within the counters' widths. *)
Definition table_fits (t : ChunkTable) : Prop :=
  Forall sane (contents (slots_ t)) /\ totals_fit (contents (slots_ t)).

(** An allocation at an address that is not live, no earlier than the one it may
    have been recycled from, or a free of a live one. *)
Definition admissible (t : ChunkTable) (e : HeapEvent) : Prop :=
  match e with
  | EvAlloc key size usable ms tid =>
      key <> 0 /\ (forall c, lookup_chunk t key = Some c -> c_state c = kChunkFreed /\ c_alloc_ms c <= ms) /\
      capacity t <= 2 ^ 56 /\ max_entries_ t = 0 /\ 0 <= ms < kNoTime /\ is_u32 size /\ is_u32 usable
  | EvFree key ms =>
      0 <= ms < kNoTime /\ exists c, lookup_chunk t key = Some c /\ c_state c = kChunkLive
  end.

Fixpoint admissible_run (s : ChunkTable * HeatMap) (es : list HeapEvent) : Prop :=
  table_fits s.1 /\
  match es with
  | [] => True
  | e :: es => admissible s.1 e /\ admissible_run (track s e) es
  end.

(** No allocation recycles the address of a freed record. *)
Fixpoint fresh_run (s : ChunkTable * HeatMap) (es : list HeapEvent) : Prop :=
  match es with
  | [] => True
  | e :: es => (match e with EvAlloc key _ _ _ _ => lookup_chunk s.1 key = None | EvFree _ _ => True end) /\ fresh_run (track s e) es
  end.

(** The cells are those a rebuild would compute. *)
Definition in_step (t : ChunkTable) (h : HeatMap) : Prop := norm h = norm (rebuild h t).

(** The cells of [h] zeroed, without the rebuild count. *)
Definition base_of (h : HeatMap) : HeatMap := norm (blank h).

Record good (t : ChunkTable) (h : HeatMap) : Prop := {
  gd_wf : wf t;
  gd_shape : shaped h;
  gd_grid : grid_ok (hm_grid h);
  gd_valid : valid_ (hm_grid h) = true;
  gd_fits : table_fits t
}.

Lemma sane_stamped l : Forall sane l -> Forall stamped l.
Proof. intros H. eapply Forall_impl; [exact H|]. by intros c [? _]. Qed.

Lemma in_step_iff t h l :
  valid_ (hm_grid h) = true -> contents (slots_ t) ≡ₚ l -> Forall sane l ->
  in_step t h <-> norm h = foldl absorb (base_of h) l.
Proof.
  intros Hv Hp Hl. unfold in_step, base_of.
  rewrite (rebuild_contents h t l Hv Hp (sane_stamped l Hl)). by rewrite norm_absorb_all.
Qed.

Lemma const_cells (l l' : list CellAggregate) :
  length l' = length l -> (fun _ => kEmptyAggregate) <$> l' = (fun _ => kEmptyAggregate) <$> l.
Proof.
  revert l'. induction l as [|x l IH]; intros [|x' l'] E; cbn in *; try done. f_equal. apply IH. lia.
Qed.

Lemma base_of_same h h' :
  hm_regions h' = hm_regions h -> hm_grid h' = hm_grid h -> hm_timings h' = hm_timings h ->
  length (hm_cells h') = length (hm_cells h) -> base_of h' = base_of h.
Proof.
  intros E1 E2 E3 E4. unfold base_of, norm, blank. cbn. rewrite E1, E2, E3. f_equal.
  by apply const_cells.
Qed.

Lemma on_alloc_shape h p s u ms :
  let h' := on_alloc h p s u ms in
  hm_regions h' = hm_regions h /\ hm_grid h' = hm_grid h /\ hm_timings h' = hm_timings h /\
  length (hm_cells h') = length (hm_cells h).
Proof. unfold on_alloc. destruct (cell_for h p); cbn; [by rewrite length_alter|done]. Qed.

Lemma on_free_shape h p s u ms :
  let h' := on_free h p s u ms in
  hm_regions h' = hm_regions h /\ hm_grid h' = hm_grid h /\ hm_timings h' = hm_timings h /\
  length (hm_cells h') = length (hm_cells h).
Proof.
  unfold on_free. destruct (cell_for h p); [|done]. destruct (0 <? n_live _); cbn; by rewrite length_insert.
Qed.

Lemma shaped_same h h' :
  hm_grid h' = hm_grid h -> length (hm_cells h') = length (hm_cells h) -> shaped h -> shaped h'.
Proof. unfold shaped. by intros -> ->. Qed.

(** ** Records lost to recycling

    An allocation at a freed record's address overwrites the record, and with it
    the stamps a rebuild would read; the cells keep what the record gave them. *)

(** The records of the table after an admissible allocation: [gone] is the
    overwritten one. *)
Lemma alloc_contents t key size usable ms tid :
  wf t -> admissible t (EvAlloc key size usable ms tid) ->
  let t' := (insert_live t key size usable ms tid).1 in
  wf t' /\ exists rest gone r,
    contents (slots_ t) ≡ₚ rest ++ gone /\ contents (slots_ t') ≡ₚ rest ++ [r] /\
    (forall h, absorb h r = absorb h (live_record key size usable ms tid)) /\ c_key r = key /\ c_alloc_ms r = ms /\
    (forall f, f ∈ gone -> c_state f = kChunkFreed /\ c_key f = key /\ c_alloc_ms f <= ms) /\
    (lookup_chunk t key = None -> gone = []).
Proof.
  intros Hwf (Hk & Hold & Hc & Hm & _). rewrite lookup_chunk_abs in Hold by apply Hwf.
  rewrite lookup_chunk_abs by apply Hwf.
  pose proof (insert_live_acts t key size usable ms tid Hwf Hc) as H.
  destruct (insert_live t key size usable ms tid) as [t' ok]. destruct H as (Hwf' & _ & H).
  destruct (Z.eqb_spec key 0); [done|]. cbn [fst]. split; [done|].
  destruct (abs t !! key) as [f|] eqn:Ef.
  - destruct H as [_ Ha]. destruct (abs_Some_key _ _ _ Ef) as [Ek _]. destruct (Hold f eq_refl) as [Hf Hms].
    exists ((map_to_list (delete key (abs t))).*2), [f], (revive f size usable ms tid). split_and!; try done.
    + rewrite (contents_abs t (wf_table t Hwf)), <- (insert_delete_id (abs t) key f Ef) at 1.
      rewrite map_to_list_insert by apply lookup_delete_eq. apply Permutation_cons_append.
    + rewrite (contents_abs t' (wf_table t' Hwf')), Ha, <- insert_delete_eq.
      rewrite map_to_list_insert by apply lookup_delete_eq. apply Permutation_cons_append.
    + intros h. unfold absorb, revive, live_record. cbn. by rewrite Ek.
    + by intros g ->%list_elem_of_singleton.
  - destruct ok; [|lia]. destruct H as (m & [[_ ->]|(? & _)] & Ha); [|lia].
    exists (contents (slots_ t)), [], (live_record key size usable ms tid). rewrite app_nil_r. split_and!; try done; [|set_solver].
    rewrite (contents_abs t' (wf_table t' Hwf')), (contents_abs t (wf_table t Hwf)), Ha.
    rewrite map_to_list_insert by done. cbn. apply Permutation_cons_append.
Qed.

Lemma free_contents t key ms c :
  wf t -> lookup_chunk t key = Some c ->
  let t' := (mark_freed t key ms).1 in
  wf t' /\ exists rest, contents (slots_ t) ≡ₚ rest ++ [c] /\
    contents (slots_ t') ≡ₚ rest ++ [free_record c ms] /\ c_key c = key.
Proof.
  intros Hwf Hc. rewrite lookup_chunk_abs in Hc by apply Hwf.
  pose proof (mark_freed_acts t key ms Hwf) as H. destruct (mark_freed t key ms) as [t' ok].
  destruct H as (Hwf' & _ & H). rewrite Hc in H. destruct H as (_ & Ha & _). cbn [fst].
  split; [done|]. destruct (abs_Some_key _ _ _ Hc) as [Ek _].
  exists ((map_to_list (delete key (abs t))).*2). split_and!; [| |done].
  - rewrite (contents_abs t (wf_table t Hwf)). rewrite <- (insert_delete_id (abs t) key c Hc) at 1.
    rewrite map_to_list_insert by apply lookup_delete_eq. cbn. apply Permutation_cons_append.
  - rewrite (contents_abs t' (wf_table t' Hwf')), Ha, <- insert_delete_eq.
    rewrite map_to_list_insert by apply lookup_delete_eq. cbn. apply Permutation_cons_append.
Qed.

(** The lost records, each outlived by one of the table at its address. *)
Definition lost_ok (t : ChunkTable) (lost : list Chunk) : Prop :=
  Forall (fun f => sane f /\ c_state f = kChunkFreed /\
    exists c, c ∈ contents (slots_ t) /\ c_key c = c_key f /\ c_alloc_ms f <= c_alloc_ms c) lost.
(** The cells hold the table's records and the lost ones. *)
Definition holds_all (t : ChunkTable) (h : HeatMap) (lost : list Chunk) : Prop :=
  norm h = foldl absorb (base_of h) (contents (slots_ t) ++ lost).

Lemma holds_all_nil t h : valid_ (hm_grid h) = true -> Forall sane (contents (slots_ t)) -> in_step t h <-> holds_all t h [].
Proof. intros Hv Hs. unfold holds_all. rewrite app_nil_r. by apply in_step_iff. Qed.

Lemma lost_stamped t lost : lost_ok t lost -> Forall stamped lost.
Proof. intros H. eapply Forall_impl; [exact H|]. by intros f ([? _] & _). Qed.

(** The order the records are folded in does not matter. *)
Lemma fold_perm h l1 l2 : l1 ≡ₚ l2 -> Forall stamped l1 -> foldl absorb h l1 = foldl absorb h l2.
Proof. intros Hp Hs. apply (foldl_perm _ stamped); [intros; by apply absorb_comm|done|done]. Qed.

Lemma lost_ok_over t t' lost : (forall c, c ∈ contents (slots_ t) -> exists c', c' ∈ contents (slots_ t') /\ c_key c' = c_key c /\ c_alloc_ms c <= c_alloc_ms c') ->
  lost_ok t lost -> lost_ok t' lost.
Proof.
  intros Hc H. eapply Forall_impl; [exact H|]. intros f (Hs & Hf & c & Hin & Ek & Hle).
  destruct (Hc c Hin) as (c' & Hin' & Ek' & Hle'). split; [done|]. split; [done|]. exists c'. split; [done|]. split; [congruence|lia].
Qed.

Lemma alloc_holds t h key size usable ms tid lost :
  good t h -> holds_all t h lost -> lost_ok t lost -> admissible t (EvAlloc key size usable ms tid) ->
  let t' := (insert_live t key size usable ms tid).1 in
  let h' := on_alloc h key size usable ms in
  table_fits t' -> good t' h' /\ exists lost', holds_all t' h' lost' /\ lost_ok t' lost' /\ (lookup_chunk t key = None -> lost' = lost).
Proof.
  intros [Hwf Hsh Hg Hv [Hsane Hfit]] Hin Hlost Hadm t' h' [Hsane' Hfit'].
  destruct (alloc_contents t key size usable ms tid Hwf Hadm) as (Hwf' & rest & gone & r & Hp & Hp' & Hr & Ekr & Emr & Hgone & Hnil).
  fold t' in Hwf', Hp'. destruct (on_alloc_shape h key size usable ms) as (E1 & E2 & E3 & E4). fold h' in E1, E2, E3, E4.
  split; [split; rewrite ?E2; try done; by eapply shaped_same|]. exists (gone ++ lost). split.
  - unfold holds_all. rewrite (base_of_same h h') by done. unfold h'. rewrite norm_on_alloc.
    rewrite (on_alloc_absorb (norm h) key size usable ms tid) by done. rewrite Hin, <- Hr.
    change (foldl absorb (foldl absorb (base_of h) (contents (slots_ t) ++ lost)) [r] = foldl absorb (base_of h) (contents (slots_ t') ++ gone ++ lost)).
    rewrite <- foldl_app. apply fold_perm.
    + rewrite Hp, Hp'. solve_Permutation.
    + apply Forall_app. split; [apply Forall_app; split; [by apply sane_stamped|by eapply lost_stamped]|].
      apply sane_stamped. rewrite Hp' in Hsane'. by apply Forall_app in Hsane' as [_ ?].
  - split; [|intros Hn; by rewrite (Hnil Hn)]. apply Forall_app. split.
    + apply Forall_forall. intros f Hf. destruct (Hgone f Hf) as (Hf1 & Hf2 & Hf3). split.
      * rewrite Forall_forall in Hsane. apply Hsane. rewrite Hp. set_solver.
      * split; [done|]. exists r. rewrite Hp'. split; [set_solver|]. split; [congruence|lia].
    + eapply lost_ok_over; [|exact Hlost]. intros c. rewrite Hp, elem_of_app. intros [Hc|Hc].
      * exists c. rewrite Hp'. split; [set_solver|done].
      * exists r. rewrite Hp'. destruct (Hgone c Hc) as (_ & ? & ?). split; [set_solver|]. split; [congruence|lia].
Qed.

Lemma absorb_freed_bounded h c n bytes over : c_state c = kChunkFreed -> bounded h n bytes over -> bounded (absorb h c) n bytes over.
Proof.
  intros Hc [H1 H2 H3]. unfold absorb. rewrite Hc, decide_False by done. destruct (cell_index h (c_key c)) as [i|]; [|done].
  split; cbn [with_cells hm_cells hm_total_live hm_total_live_bytes]; [|done|done].
  apply Forall_alter; [done|]. intros x Hx _. unfold absorb_cell. rewrite Hc, decide_False by done. cbn.
  rewrite Forall_lookup in H1. by eapply H1.
Qed.
Lemma absorb_lost_bounded l h n bytes over : Forall (fun f => c_state f = kChunkFreed) l -> bounded h n bytes over -> bounded (foldl absorb h l) n bytes over.
Proof. intros Hl. revert h. induction Hl as [|c l Hc Hl IH]; intros h Hb; [done|]. by apply IH, absorb_freed_bounded. Qed.

Lemma free_holds t h key ms c lost :
  good t h -> holds_all t h lost -> lost_ok t lost -> lookup_chunk t key = Some c -> c_state c = kChunkLive ->
  let t' := (mark_freed t key ms).1 in
  let h' := on_free h key (c_size c) (c_usable c) ms in
  table_fits t' -> good t' h' /\ holds_all t' h' lost /\ lost_ok t' lost.
Proof.
  intros [Hwf Hsh Hg Hv [Hsane Hfit]] Hin Hlost Hc Hl t' h' [Hsane' Hfit'].
  destruct (free_contents t key ms c Hwf Hc) as (Hwf' & rest & Hp & Hp' & Ek). fold t' in Hwf', Hp'.
  destruct (on_free_shape h key (c_size c) (c_usable c) ms) as (E1 & E2 & E3 & E4). fold h' in E1, E2, E3, E4.
  split; [split; rewrite ?E2; try done; by eapply shaped_same|]. rewrite Hp in Hsane. rewrite Hp' in Hsane'.
  assert (totals_fit (rest ++ [c])) as Hf.
  { destruct Hfit as (F1 & F2 & F3). unfold totals_fit. by rewrite <- Hp. }
  pose proof (lost_stamped t lost Hlost) as Hls. split.
  2: { eapply lost_ok_over; [|exact Hlost]. intros d. rewrite Hp, elem_of_app, list_elem_of_singleton. intros [Hd| ->].
       - exists d. rewrite Hp'. split; [set_solver|done].
       - exists (free_record c ms). rewrite Hp'. split; [set_solver|done]. }
  unfold holds_all. rewrite (base_of_same h h') by done. unfold h'. rewrite norm_on_free, Hin.
  assert (forall l d b, contents l ≡ₚ rest ++ [d] -> Forall sane (rest ++ [d]) ->
    foldl absorb b (contents l ++ lost) = absorb (foldl absorb b (rest ++ lost)) d) as Hlast.
  { intros l d b Hpl Hsl. change (absorb (foldl absorb b (rest ++ lost)) d) with (foldl absorb (foldl absorb b (rest ++ lost)) [d]).
    rewrite <- foldl_app. apply fold_perm; [rewrite Hpl; solve_Permutation|]. apply Forall_app. split; [|done].
    apply sane_stamped. by rewrite Hpl. }
  rewrite (Hlast _ c _ Hp Hsane), (Hlast _ (free_record c ms) _ Hp' Hsane'). clear Hlast.
  apply Forall_app in Hsane as [Hr Hcs]. apply Forall_cons in Hcs as [Hcs _].
  destruct Hf as (F1 & F2 & F3). rewrite length_app in F1. cbn in F1.
  rewrite sum_by_app, sum_by_cons in F2, F3. cbn in F2, F3.
  destruct (absorb_all_shape (rest ++ lost) (base_of h)) as (S1 & S2 & _).
  rewrite <- Ek. eapply (on_free_absorb _ c ms (Z.of_nat (length rest)) (sum_by c_usable rest)
    (sum_by chunk_overhead rest)); [..|lia|lia|lia].
  - unfold shaped. rewrite S1, S2. cbn. rewrite length_fmap. exact Hsh.
  - rewrite S2. exact Hg.
  - exact Hl.
  - exact Hcs.
  - rewrite foldl_app. apply absorb_lost_bounded; [eapply Forall_impl; [exact Hlost|]; by intros f (_ & ? & _)|].
    assert (0 <= c_usable c /\ 0 <= chunk_overhead c).
    { split; [by destruct Hcs as (_ & _ & [? _])|by apply chunk_overhead_range]. }
    apply (absorb_all_bounded rest (base_of h) 0 0 0); try lia; [done|].
    destruct (bounded_blank h). by split.
Qed.

(** ** What a rebuild loses *)

(** A free stamp the rebuilt cell has, or an older one, or none. *)
Definition stamp_lags (s s' : Z) : Prop := s = s' \/ s' <> kNoTime /\ (s = kNoTime \/ s <= s').
Record cell_lags (a b : CellAggregate) : Prop := {
  cl_live : n_live a = n_live b;
  cl_bytes : live_bytes a = live_bytes b;
  cl_over : overhead_bytes a = overhead_bytes b;
  cl_alloc : last_alloc_ms a = last_alloc_ms b;
  cl_free : stamp_lags (last_free_ms a) (last_free_ms b)
}.
(** [r] is [h] but for free stamps that may be older. *)
Record lags (r h : HeatMap) : Prop := {
  lg_cells : Forall2 cell_lags (hm_cells r) (hm_cells h);
  lg_live : hm_total_live r = hm_total_live h;
  lg_bytes : hm_total_live_bytes r = hm_total_live_bytes h;
  lg_frame : hm_grid r = hm_grid h /\ hm_regions r = hm_regions h /\ hm_timings r = hm_timings h
}.

Lemma cell_lags_refl a : cell_lags a a.
Proof. split; try done. by left. Qed.
Lemma stamp_lags_bump s s' m : m < kNoTime -> stamp_lags s s' -> stamp_lags s (bump s' m).
Proof.
  intros Hm Hs. rewrite bump_max. unfold stamp_lags in *. destruct (Z.eqb_spec s' kNoTime); [|lia].
  destruct Hs as [->|[? _]]; [|done]. right. split; [lia|by left].
Qed.

(** A lost record whose allocation is no news to its cell moves a free stamp at most. *)
Definition covers (h : HeatMap) (f : Chunk) : Prop := forall i cell,
  cell_index h (c_key f) = Some i -> hm_cells h !! Z.to_nat i = Some cell ->
  last_alloc_ms cell <> kNoTime /\ c_alloc_ms f <= last_alloc_ms cell.

Lemma absorb_lost_lags g h f : lags g h -> covers g f -> stamped f -> c_state f = kChunkFreed -> lags g (absorb h f).
Proof.
  intros [Hcells H2 H3 (H4 & H5 & H6)] Hcov [_ Hst] Hf.
  assert (forall p, cell_index h p = cell_index g p) as Eix by (intros p; unfold cell_index, coordinate_of; by rewrite H4, H5).
  unfold absorb. rewrite Hf, decide_False by done. rewrite Eix. destruct (cell_index g (c_key f)) as [i|] eqn:Ei; [|by split].
  rewrite !decide_False by done. split; cbn; try done. apply Forall2_same_length_lookup. rewrite length_alter.
  split; [by eapply Forall2_length|]. intros j a b Ha Hb.
  destruct (decide (j = Z.to_nat i)) as [->|Hne].
  - rewrite list_lookup_alter_eq in Hb. destruct (hm_cells h !! Z.to_nat i) as [b0|] eqn:Eb; [|done]. injection Hb as <-.
    pose proof (Forall2_lookup_lr _ _ _ _ _ _ Hcells Ha Eb) as [C1 C2 C3 C4 C5]. destruct (Hcov i a Ei Ha) as [Hn Hle].
    unfold absorb_cell. rewrite Hf, decide_False by done. split; cbn; try done; [|apply stamp_lags_bump; [lia|done]].
    rewrite bump_max, <- C4. destruct (Z.eqb_spec (last_alloc_ms a) kNoTime); lia.
  - rewrite list_lookup_alter_ne in Hb by done. by eapply Forall2_lookup_lr.
Qed.

Lemma absorb_all_lags g lost : Forall (fun f => covers g f /\ stamped f /\ c_state f = kChunkFreed) lost -> lags g (foldl absorb g lost).
Proof.
  intros Hl. assert (forall h, lags g h -> lags g (foldl absorb h lost)) as H.
  { induction Hl as [|f lost (H1 & H2 & H3) Hl IH]; intros h Hh; [done|]. by apply IH, absorb_lost_lags. }
  apply H. split; try done. apply Forall_Forall2_diag, Forall_forall. intros. apply cell_lags_refl.
Qed.

(** The record that outlived a lost one covers it. *)
Lemma outlived_covers base l f c : Forall stamped l -> c ∈ l -> c_state c <> kChunkEmpty -> c_key c = c_key f ->
  c_alloc_ms f <= c_alloc_ms c -> covers (foldl absorb base l) f.
Proof.
  intros Hs Hc Hst Ek Hle i cell Ei Ecell. apply list_elem_of_split in Hc as (l1 & l2 & ->).
  assert (stamped c) as [Hca _] by (rewrite Forall_forall in Hs; apply Hs; set_solver).
  assert (foldl absorb base (l1 ++ c :: l2) = absorb (foldl absorb base (l1 ++ l2)) c) as E.
  { change (absorb (foldl absorb base (l1 ++ l2)) c) with (foldl absorb (foldl absorb base (l1 ++ l2)) [c]).
    rewrite <- foldl_app. apply fold_perm; [solve_Permutation|done]. }
  rewrite E in Ei, Ecell. set (h0 := foldl absorb base (l1 ++ l2)) in *. clearbody h0. clear E.
  rewrite absorb_index, <- Ek in Ei. unfold absorb in Ecell. rewrite decide_False, Ei in Ecell by done.
  cbn [with_cells hm_cells] in Ecell. rewrite list_lookup_alter_eq in Ecell.
  destruct (hm_cells _ !! Z.to_nat i) as [cell0|]; [|done]. injection Ecell as <-.
  assert (last_alloc_ms (absorb_cell c cell0) = bump (last_alloc_ms cell0) (c_alloc_ms c)) as -> by (unfold absorb_cell; by destruct (decide _)).
  rewrite bump_max. destruct (Z.eqb_spec (last_alloc_ms cell0) kNoTime); lia.
Qed.

Lemma holds_all_lags t h lost : good t h -> holds_all t h lost -> lost_ok t lost -> lags (rebuild h t) h.
Proof.
  intros [_ _ _ Hv [Hsane _]] Hin Hlost.
  assert (lags (foldl absorb (base_of h) (contents (slots_ t))) (norm h)) as Hl.
  { rewrite Hin, foldl_app. apply absorb_all_lags. eapply Forall_impl; [exact Hlost|].
    intros f ([Hst _] & Hf & c & Hc & Ek & Hle). split; [|done]. apply (outlived_covers _ _ f c); [by apply sane_stamped|done| |done|done].
    by apply elem_of_contents in Hc as [? _]. }
  assert (foldl absorb (base_of h) (contents (slots_ t)) = norm (rebuild h t)) as E.
  { rewrite (rebuild_contents h t (contents (slots_ t)) Hv (reflexivity _) (sane_stamped _ Hsane)). unfold base_of. by rewrite norm_absorb_all. }
  rewrite E in Hl. destruct Hl as [H1 H2 H3 H4]. by split.
Qed.

Lemma track_holds t h lost es : good t h -> holds_all t h lost -> lost_ok t lost -> admissible_run (t, h) es ->
  let '(t', h') := foldl track (t, h) es in
  good t' h' /\ exists lost', holds_all t' h' lost' /\ lost_ok t' lost' /\ (fresh_run (t, h) es -> lost' = lost).
Proof.
  revert t h lost. induction es as [|e es IH]; intros t h lost Hg Hin Hlost Hrun; [by split; [|exists lost]|].
  destruct Hrun as (Hf & Hadm & Hrun). cbn [foldl fresh_run].
  assert (table_fits (track (t, h) e).1) as Hfit' by (destruct es; apply Hrun).
  assert (good (track (t, h) e).1 (track (t, h) e).2 /\ exists lost', holds_all (track (t, h) e).1 (track (t, h) e).2 lost' /\
    lost_ok (track (t, h) e).1 lost' /\ (match e with EvAlloc key _ _ _ _ => lookup_chunk t key = None | EvFree _ _ => True end -> lost' = lost))
    as (Hg1 & lost1 & Hin1 & Hl1 & Hn1).
  { destruct e as [key size usable ms tid|key ms]; cbn [track] in *.
    - by apply alloc_holds.
    - destruct Hadm as (_ & c & Hc & Hl). cbn [fst] in Hc. rewrite Hc in *.
      destruct (free_holds t h key ms c lost Hg Hin Hlost Hc Hl Hfit') as (H1 & H2 & H3). split; [done|]. by exists lost. }
  destruct (track (t, h) e) as [t1 h1]. cbn [fst snd] in *. pose proof (IH t1 h1 lost1 Hg1 Hin1 Hl1 Hrun) as Hrest.
  destruct (foldl track (t1, h1) es) as [t2 h2]. destruct Hrest as (Hg2 & lost2 & Hin2 & Hl2 & Hn2).
  split; [done|]. exists lost2. split; [done|]. split; [done|]. intros [He Hfr]. by rewrite (Hn2 Hfr), (Hn1 He).
Qed.

(** C15: The cells updated event by event are what a full rebuild from the chunk
    table computes.  Along any sequence of allocations at addresses that are not
    live, recycled ones included, and frees of live ones, stamped in order and
    within the counters' widths, with no ceiling on the records: every cell's live
    count, live bytes, overhead and last allocation, and the map's totals, agree
    with a recomputation, whatever order the table is walked in; its free stamp
    agrees too or, where a freed address was allocated again, may be an older one
    or none in the recomputation.  When no allocation recycles the address of a
    freed record the two are equal outright. *)
Theorem incremental_equals_rebuild t h es :
  good t h -> in_step t h -> admissible_run (t, h) es ->
  let '(t', h') := foldl track (t, h) es in
  good t' h' /\ lags (rebuild h' t') h' /\ (fresh_run (t, h) es -> in_step t' h').
Proof.
  intros Hg Hin Hrun. apply holds_all_nil in Hin; [|apply Hg|apply Hg].
  pose proof (track_holds t h [] es Hg Hin ltac:(constructor) Hrun) as H. destruct (foldl track (t, h) es) as [t' h'].
  destruct H as (Hg' & lost & Hin' & Hl & Hn). split; [done|]. split; [by eapply holds_all_lags|]. intros Hf.
  rewrite (Hn Hf) in Hin'. apply holds_all_nil; [apply Hg'|apply Hg'|done].
Qed.

Definition demo_heatmap : HeatMap := (configure new_heatmap (Grid.configure 4096 69632 80 20).1).1.
Definition demo_events : list HeapEvent :=
  [EvAlloc 4096 20 24 1 7; EvAlloc 4224 100 104 2 7; EvFree 4096 9; EvAlloc 4096 30 40 11 7].

Lemma demo_good : good (new_table 16) demo_heatmap.
Proof.
  split.
  - by apply new_table_wf.
  - by vm_compute.
  - change (hm_grid demo_heatmap) with (Grid.configure 4096 69632 80 20).1.
    apply configure_ok; by vm_compute.
  - by vm_compute.
  - split; [constructor|by vm_compute].
Qed.

(** [table_fits], decided. *)
Definition fits_b (t : ChunkTable) : bool :=
  let l := contents (slots_ t) in
  forallb (fun c => (0 <=? c_alloc_ms c) && (c_alloc_ms c <? kNoTime) && (0 <=? c_free_ms c) &&
    (c_free_ms c <? kNoTime) && (0 <=? c_size c) && (c_size c <? 2 ^ 32) &&
    (0 <=? c_usable c) && (c_usable c <? 2 ^ 32)) l &&
  (Z.of_nat (length l) <? 2 ^ 32) && (sum_by c_usable l <? 2 ^ 64) &&
  (sum_by chunk_overhead l <? 2 ^ 32).

Lemma fits_b_sound t : fits_b t = true -> table_fits t.
Proof.
  unfold fits_b, table_fits, totals_fit. generalize (contents (slots_ t)). intros l H. bprop.
  split; [|done]. apply Forall_forall. intros c Hc. apply list_elem_of_In in Hc.
  rewrite forallb_forall in H. specialize (H c Hc). cbn beta in H. bprop.
  unfold sane, stamped, is_u32. lia.
Qed.

Lemma demo_admissible : admissible_run (new_table 16, demo_heatmap) demo_events.
Proof.
  cbn [admissible_run demo_events]. split; [apply fits_b_sound; by vm_compute|].
  split; [split_and!; by vm_compute|]. split; [apply fits_b_sound; by vm_compute|].
  split; [split_and!; by vm_compute|]. split; [apply fits_b_sound; by vm_compute|].
  split; [split; [done|]; exists (live_record 4096 20 24 1 7); split; by vm_compute|].
  split; [apply fits_b_sound; by vm_compute|]. split; [|split; [apply fits_b_sound; by vm_compute|done]].
  split; [done|]. split; [|split_and!; by vm_compute]. intros c Hc.
  assert (Some c = Some (free_record (live_record 4096 20 24 1 7) 9)) as [= ->] by (rewrite <- Hc; vm_compute; reflexivity). vm_compute. split; [reflexivity|discriminate].
Qed.

Lemma incremental_equals_rebuild_witness :
  let '(t', h') := foldl track (new_table 16, demo_heatmap) demo_events in
  good t' h' /\ lags (rebuild h' t') h' /\ last_free_ms (at_cell h' 0) = 9.
Proof.
  assert (in_step (new_table 16) demo_heatmap) as H0 by (vm_compute; reflexivity).
  pose proof (incremental_equals_rebuild (new_table 16) demo_heatmap demo_events demo_good H0 demo_admissible) as H.
  assert (last_free_ms (at_cell (foldl track (new_table 16, demo_heatmap) demo_events).2 0) = 9) as E by (by vm_compute).
  destruct (foldl track (new_table 16, demo_heatmap) demo_events) as [t' h']. destruct H as (H1 & H2 & _). split; [exact H1|].
  split; [exact H2|exact E].
Defined.

(** A rebuild forgets the release of a recycled address: when a freed chunk's
    address is allocated again, the incrementally kept cell still shows the free
    stamp, and a rebuild from the same table drops it. *)
Theorem recycled_free_stamp_lost :
  let t := (run_ops (new_table 16) [OpInsert 4096 20 24 1 7; OpFree 4096 9; OpInsert 4096 20 24 11 7]).1 in
  let h := on_alloc (on_free (on_alloc demo_heatmap 4096 20 24 1) 4096 20 24 9) 4096 20 24 11 in
  last_free_ms (at_cell h 0) = 9 /\ last_free_ms (at_cell (rebuild h t) 0) = kNoTime.
Proof. by vm_compute. Qed.

(** Being handed a grid that differs only in its end leaves the old grid in
    place: the heap can grow by pages without the map's own idea of where the
    heap ends following it, as long as the granularity does not change. *)
Theorem configure_keeps_stale_end h g :
  same_geometry (hm_grid h) g = true -> shaped h -> cell_count (hm_grid h) = cell_count g ->
  let '(h', changed) := configure h g in
  changed = false /\ end_ (hm_grid h') = end_ (hm_grid h).
Proof.
  intros Hg Hs Hc. unfold configure, shaped in *. rewrite Hg, Hs, Hc, Z.eqb_refl. done.
Qed.

Lemma configure_keeps_stale_end_witness :
  let '(h', changed) := configure demo_heatmap (Grid.configure 4096 73728 80 20).1 in
  changed = false /\ end_ (hm_grid h') = end_ (hm_grid demo_heatmap).
Proof.
  apply (configure_keeps_stale_end demo_heatmap (Grid.configure 4096 73728 80 20).1); by vm_compute.
Defined.

(** ** The displayed state *)
Lemma within_elapsed t d window :
  0 <= t < kNoTime -> 0 <= d < 2 ^ 32 -> within t (u32 (t + d)) window = (d <? window).
Proof.
  intros Ht Hd. unfold within. destruct (Z.eqb_spec t kNoTime); [lia|]. f_equal.
  unfold u32. rewrite Zminus_mod_idemp_l. replace (t + d - t) with d by lia. by apply Z.mod_small.
Qed.

(** The state of a cell is decided by the clock alone: [d] milliseconds after
    its last free, with the last allocation no later than that, it shows the
    free flash exactly while [d] is inside the flash window, then the
    allocation pulse while that lasts, and once both windows have passed
    exactly what it holds (live, overhead or empty), with no update in between
    and across a wrap of the 32-bit clock. *)
Theorem cell_state_decays a tm d e :
  0 <= last_free_ms a < kNoTime -> 0 <= d < 2 ^ 31 -> 0 <= e < 2 ^ 31 ->
  last_alloc_ms a = last_free_ms a - e -> 0 <= last_alloc_ms a ->
  cell_state a tm (u32 (last_free_ms a + d)) =
    if d <? free_flash_ms tm then CsRecentFree
    else if d + e <? malloc_pulse_ms tm then CsRecentMalloc
    else if 0 <? n_live a then CsLive
    else if 0 <? overhead_bytes a then CsOverhead else CsEmpty.
Proof.
  intros Hf Hd He Ha Ha0. unfold cell_state. change (2 ^ 31) with 2147483648 in *.
  rewrite within_elapsed by (rewrite ?pow2_32; lia).
  replace (last_free_ms a + d) with (last_alloc_ms a + (d + e)) by lia.
  rewrite within_elapsed by (rewrite ?pow2_32; lia). done.
Qed.

Lemma cell_state_decays_witness :
  cell_state (mkCell 24 1 0 100 150) kDefaultTimings (u32 (150 + 400)) =
    if 400 <? free_flash_ms kDefaultTimings then CsRecentFree
    else if 400 + 50 <? malloc_pulse_ms kDefaultTimings then CsRecentMalloc
    else if 0 <? n_live (mkCell 24 1 0 100 150) then CsLive
    else if 0 <? overhead_bytes (mkCell 24 1 0 100 150) then CsOverhead else CsEmpty.
Proof. apply (cell_state_decays (mkCell 24 1 0 100 150) kDefaultTimings 400 50); by vm_compute. Defined.
