(* ===== verification/Cursor.v ===== *)
(** * The spatial cursor (src/src/tui/cursor.h, cursor.cpp)

    A coordinate that survives changes of the grid, the twelve movements over
    the cells, and the re-clamping after the geometry has moved. *)

From S2P Require Import Prelude ChunkTable RegionMap Grid HeatMap.

Definition kCursorJump : Z := 10.

Inductive CursorMove :=
  | CmLeft | CmRight | CmUp | CmDown | CmLeftFar | CmRightFar | CmUpFar | CmDownFar
  | CmStart | CmEnd | CmNextLive | CmPrevLive.

#[export] Instance CursorMove_eq_dec : EqDecision CursorMove.
Proof. solve_decision. Defined.

(** The keys h l k j H L K J g G n N. *)
Definition cursor_move_for_key (byte : Z) : option CursorMove :=
  if byte =? 104 then Some CmLeft
  else if byte =? 108 then Some CmRight
  else if byte =? 107 then Some CmUp
  else if byte =? 106 then Some CmDown
  else if byte =? 72 then Some CmLeftFar
  else if byte =? 76 then Some CmRightFar
  else if byte =? 75 then Some CmUpFar
  else if byte =? 74 then Some CmDownFar
  else if byte =? 103 then Some CmStart
  else if byte =? 71 then Some CmEnd
  else if byte =? 110 then Some CmNextLive
  else if byte =? 78 then Some CmPrevLive
  else None.

Definition coord_of_cell (g : Grid) (i : Z) : Z :=
  base_ g ⊞ u64 (Z.shiftl i (log2_cell_bytes_ g)).

Definition last_heap_cell (g : Grid) : Z :=
  let n := cell_count g in
  if negb (valid_ g) || (n =? 0) then 0
  else
    let last := Z.shiftr (span g ⊟ 1) (log2_cell_bytes_ g) in
    if n <=? last then n - 1 else last.

(** The cursor is its coordinate. *)
Definition cursor_index (coord : Z) (g : Grid) : Z :=
  if negb (valid_ g) then 0
  else
    let last := last_heap_cell g in
    match index_of g coord with
    | None => if coord <=? base_ g then 0 else last
    | Some i => if i <? last then i else last
    end.

Definition cursor_row (coord : Z) (g : Grid) : Z := row_of g (cursor_index coord g).
Definition cursor_col (coord : Z) (g : Grid) : Z := col_of g (cursor_index coord g).

(** [for (i = from + 1; i <= end; ++i) if (occupied) return i;] over a count. *)
Fixpoint next_live (h : HeatMap) (fuel : nat) (i to : Z) : Z :=
  match fuel with
  | O => to
  | S fuel => if cell_occupied (at_cell h i) then i else next_live h fuel (i + 1) to
  end.

(** [for (i = from; i-- > 0;) if (i < n && occupied) return i;] *)
Fixpoint prev_live (h : HeatMap) (i : nat) (to : Z) : Z :=
  match i with
  | O => to
  | S i =>
      if (Z.of_nat i <? Z.of_nat (length (hm_cells h))) && cell_occupied (at_cell h (Z.of_nat i))
      then Z.of_nat i else prev_live h i to
  end.

(** The switch of [move]: the cell a movement goes to. *)
Definition move_target (h : HeatMap) (m : CursorMove) (from : Z) : Z :=
  let g := hm_grid h in
  let last := last_heap_cell g in
  let cols := cols_ g in
  let n := Z.of_nat (length (hm_cells h)) in
  match m with
  | CmLeft => if 0 <? from then from - 1 else from
  | CmRight => if from <? last then from ⊞ 1 else from
  | CmLeftFar => if kCursorJump <? from then from - kCursorJump else 0
  | CmRightFar => if kCursorJump <? last ⊟ from then from ⊞ kCursorJump else last
  | CmUp | CmUpFar =>
      let step := match m with CmUp => 1 | _ => kCursorJump end in
      let rows_above := from / cols in
      from ⊟ (cols ⊠ (if step <? rows_above then step else rows_above))
  | CmDown | CmDownFar =>
      let step := match m with CmDown => 1 | _ => kCursorJump end in
      let rows_below := (last ⊟ from) / cols in
      from ⊞ (cols ⊠ (if step <? rows_below then step else rows_below))
  | CmStart => 0
  | CmEnd => last
  | CmNextLive =>
      let end' := if last <? n then last else (if n =? 0 then 0 else n - 1) in
      if n =? 0 then from else next_live h (Z.to_nat (end' - from)) (from ⊞ 1) from
  | CmPrevLive => if n =? 0 then from else prev_live h (Z.to_nat from) from
  end.

Definition move (coord : Z) (h : HeatMap) (m : CursorMove) : Z * bool :=
  let g := hm_grid h in
  if negb (valid_ g) || (cols_ g <=? 0) then (coord, false)
  else
    let from := cursor_index coord g in
    let to := move_target h m from in
    if to =? from then (coord, false) else (coord_of_cell g to, true).

Definition refit (coord : Z) (g : Grid) : Z * bool :=
  if negb (valid_ g) then (coord, false)
  else
    match index_of g coord with
    | Some i => if i <=? last_heap_cell g then (coord, false)
                else (coord_of_cell g (cursor_index coord g), true)
    | None => (coord_of_cell g (cursor_index coord g), true)
    end.

Definition set_coord (was : Z) (g : Grid) (coord : Z) : Z * bool :=
  if negb (valid_ g) then (was, false)
  else
    let coord := coord_of_cell g (cursor_index coord g) in
    (coord, negb (coord =? was)).

(** ** Positions *)

Section Valid.
Context (g : Grid) (Hg : grid_ok g) (Hv : valid_ g = true).

Lemma last_heap_cell_spec :
  0 <= last_heap_cell g < cols_ g * rows_ g /\
  last_heap_cell g * cell_bytes_ g <= end_ g - base_ g - 1.
Proof.
  destruct (go_cell g Hg) as (k & Hk & Ec & El). destruct (go_valid g Hg Hv) as (Hlt & Hc & Hr).
  destruct (go_addr g Hg) as [[Hb _] [_ He]].
  unfold last_heap_cell. rewrite Hv. cbn [negb orb].
  rewrite cell_count_exact, span_exact by done.
  destruct (Z.eqb_spec (cols_ g * rows_ g) 0); [nia|].
  rewrite (u64_small (end_ g - base_ g - 1)) by (unfold is_u64; lia).
  rewrite El, Z.shiftr_div_pow2 by lia. rewrite Ec.
  assert (0 < 2 ^ k) by (apply Z.pow_pos_nonneg; lia).
  pose proof (Z.div_mod (end_ g - base_ g - 1) (2 ^ k) ltac:(lia)).
  pose proof (Z.mod_pos_bound (end_ g - base_ g - 1) (2 ^ k) ltac:(lia)).
  assert (0 <= (end_ g - base_ g - 1) / 2 ^ k) by (apply Z.div_pos; lia).
  assert (0 < cols_ g * rows_ g) by nia.
  destruct (Z.leb_spec (cols_ g * rows_ g) ((end_ g - base_ g - 1) / 2 ^ k)); [|lia].
  split; [lia|]. nia.
Qed.

Lemma coord_of_cell_exact i :
  0 <= i <= last_heap_cell g -> coord_of_cell g i = base_ g + i * cell_bytes_ g /\
  base_ g + i * cell_bytes_ g < end_ g.
Proof.
  intros Hi. pose proof last_heap_cell_spec as [_ Hl].
  destruct (go_cell g Hg) as (k & Hk & Ec & El). destruct (go_addr g Hg) as [[Hb _] [_ He]].
  assert (0 < 2 ^ k) by (apply Z.pow_pos_nonneg; lia).
  assert (0 <= i * cell_bytes_ g <= end_ g - base_ g - 1) as Hx by (rewrite Ec in *; nia).
  unfold coord_of_cell. rewrite El, Z.shiftl_mul_pow2, <- Ec by lia.
  rewrite (u64_small (i * cell_bytes_ g)) by (unfold is_u64; lia).
  split; [apply u64_small; unfold is_u64|]; lia.
Qed.

Lemma index_of_coord i : 0 <= i <= last_heap_cell g -> index_of g (coord_of_cell g i) = Some i.
Proof.
  intros Hi. destruct (coord_of_cell_exact i Hi) as [E Hlt]. rewrite E.
  destruct (go_addr g Hg) as [[Hb _] [_ He]]. pose proof last_heap_cell_spec as [Hl _].
  destruct (go_cell g Hg) as (k & Hk & Ec & _).
  assert (0 < 2 ^ k) by (apply Z.pow_pos_nonneg; lia).
  apply index_of_exact; [done|unfold is_u64; rewrite Ec in *; nia|].
  split_and!; [done|lia|lia|lia|rewrite Ec; nia].
Qed.

Lemma cursor_index_coord i : 0 <= i <= last_heap_cell g -> cursor_index (coord_of_cell g i) g = i.
Proof.
  intros Hi. unfold cursor_index. rewrite Hv. cbn [negb]. rewrite index_of_coord by done.
  destruct (Z.ltb_spec i (last_heap_cell g)); lia.
Qed.

Lemma cursor_index_range coord : 0 <= cursor_index coord g <= last_heap_cell g.
Proof.
  pose proof last_heap_cell_spec as [Hl _]. unfold cursor_index. rewrite Hv. cbn [negb].
  destruct (index_of g coord) as [i|] eqn:E.
  - assert (0 <= i).
    { by apply index_of_nonneg in E. }
    destruct (Z.ltb_spec i (last_heap_cell g)); lia.
  - destruct (Z.leb_spec coord (base_ g)); lia.
Qed.

Lemma small_cells : last_heap_cell g + cols_ g + kCursorJump < 2 ^ 64.
Proof.
  pose proof last_heap_cell_spec as [Hl _]. destruct (go_dims g Hg) as [Hc Hr].
  unfold kCursorJump. change (2 ^ 31) with 2147483648 in *. rewrite pow2_64. nia.
Qed.
End Valid.

(** ** Searching for live cells *)
Lemma next_live_spec h fuel i to :
  (exists j, next_live h fuel i to = j /\ i <= j < i + Z.of_nat fuel /\
     cell_occupied (at_cell h j) = true /\
     forall k, i <= k < j -> cell_occupied (at_cell h k) = false) \/
  (next_live h fuel i to = to /\
     forall k, i <= k < i + Z.of_nat fuel -> cell_occupied (at_cell h k) = false).
Proof.
  revert i. induction fuel as [|fuel IH]; intros i; cbn [next_live].
  { right. split; [done|lia]. }
  destruct (cell_occupied (at_cell h i)) eqn:E.
  { left. exists i. split_and!; [done|lia|lia|done|lia]. }
  assert (forall b, (forall k, i + 1 <= k < b -> cell_occupied (at_cell h k) = false) ->
    forall k, i <= k < b -> cell_occupied (at_cell h k) = false) as Hext.
  { intros b Hb k Hk. destruct (decide (k = i)) as [->|]; [done|]. apply Hb. lia. }
  destruct (IH (i + 1)) as [(j & Hj & Hr & Ho & Hn)|[Ht Hn]]; [left|right].
  - exists j. split_and!; [done|lia|lia|done|by apply Hext].
  - split; [done|]. apply Hext. intros k Hk. apply Hn. lia.
Qed.

Lemma prev_live_spec h i to :
  (exists j, prev_live h i to = j /\ 0 <= j < Z.of_nat i /\
     cell_occupied (at_cell h j) = true /\
     forall k, j < k < Z.of_nat i -> cell_occupied (at_cell h k) = false) \/
  (prev_live h i to = to /\
     forall k, 0 <= k < Z.of_nat i -> cell_occupied (at_cell h k) = false).
Proof.
  induction i as [|i IH]; cbn [prev_live].
  { right. split; [done|lia]. }
  assert ((Z.of_nat i <? Z.of_nat (length (hm_cells h))) && cell_occupied (at_cell h (Z.of_nat i)) =
    cell_occupied (at_cell h (Z.of_nat i))) as ->.
  { destruct (Z.ltb_spec (Z.of_nat i) (Z.of_nat (length (hm_cells h)))) as [|Hge]; [done|].
    unfold at_cell. destruct (Z.leb_spec (Z.of_nat (length (hm_cells h))) (Z.of_nat i)); [done|lia]. }
  destruct (cell_occupied (at_cell h (Z.of_nat i))) eqn:E.
  { left. exists (Z.of_nat i). split_and!; [done|lia|lia|done|lia]. }
  assert (forall b, (forall k, b < k < Z.of_nat i -> cell_occupied (at_cell h k) = false) ->
    forall k, b < k < Z.of_nat (S i) -> cell_occupied (at_cell h k) = false) as Hext.
  { intros b Hb k Hk. destruct (decide (k = Z.of_nat i)) as [->|]; [done|]. apply Hb. lia. }
  destruct IH as [(j & Hj & Hr & Ho & Hn)|[Ht Hn]]; [left|right].
  - exists j. split_and!; [done|lia|lia|done|by apply Hext].
  - split; [done|]. intros k Hk. apply (Hext (-1)); [|lia]. intros k' Hk'. apply Hn. lia.
Qed.

(** The moves in plain arithmetic: nothing wraps. *)
Definition move_plain (h : HeatMap) (m : CursorMove) (from : Z) : Z :=
  let g := hm_grid h in
  let last := last_heap_cell g in
  let cols := cols_ g in
  match m with
  | CmLeft => Z.max 0 (from - 1)
  | CmRight => Z.min last (from + 1)
  | CmLeftFar => Z.max 0 (from - 10)
  | CmRightFar => Z.min last (from + 10)
  | CmUp => from - cols * Z.min 1 (from / cols)
  | CmUpFar => from - cols * Z.min 10 (from / cols)
  | CmDown => from + cols * Z.min 1 ((last - from) / cols)
  | CmDownFar => from + cols * Z.min 10 ((last - from) / cols)
  | CmStart => 0
  | CmEnd => last
  | _ => move_target h m from
  end.

Section Moves.
Context (h : HeatMap) (Hg : grid_ok (hm_grid h)) (Hv : valid_ (hm_grid h) = true).
Local Abbreviation g := (hm_grid h).
Local Abbreviation last := (last_heap_cell (hm_grid h)).

Lemma row_step from step :
  0 <= step -> 0 <= from ->
  0 <= cols_ g * Z.min step (from / cols_ g) <= from.
Proof.
  intros Hs Hf. destruct (go_valid g Hg Hv) as (_ & Hc & _).
  pose proof (Z.mul_div_le from (cols_ g) Hc).
  assert (0 <= from / cols_ g) by (apply Z.div_pos; lia). nia.
Qed.

Lemma move_target_plain m from : 0 <= from <= last -> move_target h m from = move_plain h m from.
Proof.
  intros Hf. pose proof (small_cells g Hg Hv) as Hsm. unfold kCursorJump in Hsm.
  destruct (go_valid g Hg Hv) as (_ & Hc & _).
  assert (forall s a, (if s <? a then s else a) = Z.min s a) as Hmin.
  { intros s a. destruct (Z.ltb_spec s a); lia. }
  assert (forall step, 0 <= step -> cols_ g ⊠ Z.min step (from / cols_ g) =
    cols_ g * Z.min step (from / cols_ g)) as Hup.
  { intros step Hs. pose proof (row_step from step Hs ltac:(lia)). apply u64_small. unfold is_u64. lia. }
  assert (forall step, 0 <= step -> cols_ g ⊠ Z.min step ((last - from) / cols_ g) =
    cols_ g * Z.min step ((last - from) / cols_ g)) as Hdown.
  { intros step Hs. pose proof (row_step (last - from) step Hs ltac:(lia)). apply u64_small. unfold is_u64. lia. }
  unfold move_target, move_plain, kCursorJump. cbn zeta. rewrite ?Hmin.
  destruct m; try done.
  - destruct (Z.ltb_spec 0 from); lia.
  - destruct (Z.ltb_spec from last); [|lia]. rewrite u64_small by (unfold is_u64; lia). lia.
  - rewrite Hup by lia. pose proof (row_step from 1 ltac:(lia) ltac:(lia)).
    apply u64_small. unfold is_u64. lia.
  - rewrite (u64_small (last - from)) by (unfold is_u64; lia). rewrite Hdown by lia.
    pose proof (row_step (last - from) 1 ltac:(lia) ltac:(lia)). apply u64_small. unfold is_u64. lia.
  - destruct (Z.ltb_spec 10 from); lia.
  - rewrite (u64_small (last - from)) by (unfold is_u64; lia).
    destruct (Z.ltb_spec 10 (last - from)); [|lia]. rewrite u64_small by (unfold is_u64; lia). lia.
  - rewrite Hup by lia. pose proof (row_step from 10 ltac:(lia) ltac:(lia)).
    apply u64_small. unfold is_u64. lia.
  - rewrite (u64_small (last - from)) by (unfold is_u64; lia). rewrite Hdown by lia.
    pose proof (row_step (last - from) 10 ltac:(lia) ltac:(lia)). apply u64_small. unfold is_u64. lia.
Qed.

(** [n] goes to the nearest occupied cell after the cursor, up to the end of the
    heap, and stays when there is none. *)
Definition nearest_next (from to : Z) : Prop :=
  (from < to <= last /\ cell_occupied (at_cell h to) = true /\
   forall k, from < k < to -> cell_occupied (at_cell h k) = false) \/
  (to = from /\ forall k, from < k <= last -> cell_occupied (at_cell h k) = false).
Definition nearest_prev (from to : Z) : Prop :=
  (0 <= to < from /\ cell_occupied (at_cell h to) = true /\
   forall k, to < k < from -> cell_occupied (at_cell h k) = false) \/
  (to = from /\ forall k, 0 <= k < from -> cell_occupied (at_cell h k) = false).

Lemma at_cell_beyond k : Z.of_nat (length (hm_cells h)) <= k -> cell_occupied (at_cell h k) = false.
Proof.
  intros Hk. unfold at_cell. by destruct (Z.leb_spec (Z.of_nat (length (hm_cells h))) k); [|lia].
Qed.

Lemma next_target_spec from : 0 <= from <= last -> nearest_next from (move_target h CmNextLive from).
Proof.
  intros Hf. pose proof (small_cells g Hg Hv) as Hsm. unfold kCursorJump in Hsm.
  destruct (go_valid g Hg Hv) as (_ & Hc & _).
  unfold move_target. cbn zeta. set (n := Z.of_nat (length (hm_cells h))).
  rewrite (u64_small (from + 1)) by (unfold is_u64; lia).
  destruct (Z.eqb_spec n 0) as [E0|E0].
  { right. split; [done|]. intros k Hk. apply at_cell_beyond. fold n. lia. }
  set (end' := if last <? n then last else n - 1).
  assert (end' <= last /\ forall k, end' < k <= last -> cell_occupied (at_cell h k) = false) as [He Hbeyond].
  { unfold end'. destruct (Z.ltb_spec last n); [split; [lia|lia]|].
    split; [lia|]. intros k Hk. apply at_cell_beyond. fold n. lia. }
  destruct (next_live_spec h (Z.to_nat (end' - from)) (from + 1) from)
    as [(j & -> & Hr & Ho & Hn)|[-> Hn]].
  - left. split_and!; [lia|lia|done|]. intros k Hk. apply Hn. lia.
  - right. split; [done|]. intros k Hk. destruct (decide (k <= end')); [|apply Hbeyond; lia].
    apply Hn. lia.
Qed.

Lemma prev_target_spec from : 0 <= from <= last -> nearest_prev from (move_target h CmPrevLive from).
Proof.
  intros Hf. unfold move_target. cbn zeta. set (n := Z.of_nat (length (hm_cells h))).
  destruct (Z.eqb_spec n 0) as [E0|E0].
  { right. split; [done|]. intros k Hk. apply at_cell_beyond. fold n. lia. }
  destruct (prev_live_spec h (Z.to_nat from) from) as [(j & -> & Hr & Ho & Hn)|[-> Hn]].
  - left. split_and!; [lia|lia|done|]. intros k Hk. apply Hn. lia.
  - right. split; [done|]. intros k Hk. apply Hn. lia.
Qed.

Lemma move_target_range m from : 0 <= from <= last -> 0 <= move_target h m from <= last.
Proof.
  intros Hf. destruct (go_valid g Hg Hv) as (_ & Hc & _).
  assert (0 <= last - from) by lia.
  destruct (decide (m = CmNextLive)) as [->|]; [destruct (next_target_spec from Hf) as [?|[-> _]]; lia|].
  destruct (decide (m = CmPrevLive)) as [->|]; [destruct (prev_target_spec from Hf) as [?|[-> _]]; lia|].
  rewrite move_target_plain by done.
  pose proof (row_step from 1 ltac:(lia) ltac:(lia)). pose proof (row_step from 10 ltac:(lia) ltac:(lia)).
  pose proof (row_step (last - from) 1 ltac:(lia) ltac:(lia)).
  pose proof (row_step (last - from) 10 ltac:(lia) ltac:(lia)).
  destruct m; cbn; try done; lia.
Qed.
End Moves.

(** The cursor always stands on memory the target has: on a valid grid every
    movement lands on a cell between the first and the last heap cell, at an
    address below the end of the heap, and reports a move exactly when the cell
    changed; the movements saturate at the ends in plain arithmetic, and the
    vertical ones keep the column. *)
Theorem cursor_moves coord h m :
  grid_ok (hm_grid h) -> valid_ (hm_grid h) = true ->
  let g := hm_grid h in
  let from := cursor_index coord g in
  let '(coord', moved) := move coord h m in
  let to := cursor_index coord' g in
  to = move_plain h m from /\ 0 <= to <= last_heap_cell g /\
  moved = negb (to =? from) /\ (moved = false -> coord' = coord) /\
  (moved = true -> base_ g <= coord' < end_ g) /\
  (m = CmUp \/ m = CmDown \/ m = CmUpFar \/ m = CmDownFar -> col_of g to = col_of g from).
Proof.
  intros Hg Hv g from. unfold move. fold g. destruct (go_valid g Hg Hv) as (_ & Hc & _).
  fold g in Hv. rewrite Hv. cbn [negb orb].
  destruct (Z.leb_spec (cols_ g) 0); [lia|]. fold from.
  pose proof (cursor_index_range g Hg Hv coord) as Hf. fold from in Hf.
  pose proof (move_target_range h Hg Hv m from Hf) as Ht.
  assert (m = CmUp \/ m = CmDown \/ m = CmUpFar \/ m = CmDownFar ->
    col_of g (move_plain h m from) = col_of g from) as Hcol.
  { assert (forall k, (from + k * cols_ g) mod cols_ g = from mod cols_ g) as Hmod
      by (intros; apply Z_mod_plus_full).
    unfold col_of. destruct (Z.leb_spec (cols_ g) 0); [done|]. intros Hm.
    destruct Hm as [-> | [-> | [-> | ->]]]; cbn; fold g.
    - rewrite <- (Hmod (- Z.min 1 (from / cols_ g))). f_equal. lia.
    - rewrite <- (Hmod (Z.min 1 ((last_heap_cell g - from) / cols_ g))). f_equal. lia.
    - rewrite <- (Hmod (- Z.min 10 (from / cols_ g))). f_equal. lia.
    - rewrite <- (Hmod (Z.min 10 ((last_heap_cell g - from) / cols_ g))). f_equal. lia. }
  rewrite (move_target_plain h Hg Hv m from Hf) in *.
  destruct (Z.eqb_spec (move_plain h m from) from) as [E|E].
  - fold from. rewrite E in *. rewrite Z.eqb_refl. split_and!; done || lia.
  - rewrite (cursor_index_coord g Hg Hv _ Ht).
    destruct (coord_of_cell_exact g Hg Hv _ Ht) as [Ec He]. rewrite Ec.
    destruct (go_cell g Hg) as (k & Hk & Eb & _).
    assert (0 <= move_plain h m from * cell_bytes_ g).
    { apply Z.mul_nonneg_nonneg; [lia|]. rewrite Eb. apply Z.pow_nonneg. lia. }
    apply Z.eqb_neq in E. cbn zeta. rewrite E.
    split_and!; [done|apply Ht|apply Ht|done|done|intros _; lia|exact Hcol].
Qed.

Definition cursor_demo : HeatMap :=
  on_alloc (configure new_heatmap (Grid.configure 4096 69632 80 20).1).1 12288 20 24 5.

Lemma cursor_demo_ok : grid_ok (hm_grid cursor_demo).
Proof.
  change (hm_grid cursor_demo) with (Grid.configure 4096 69632 80 20).1.
  apply configure_ok; by vm_compute.
Qed.

Lemma cursor_moves_witness :
  let g := hm_grid cursor_demo in
  let from := cursor_index 4096 g in
  let '(coord', moved) := move 4096 cursor_demo CmDown in
  let to := cursor_index coord' g in
  to = move_plain cursor_demo CmDown from /\ 0 <= to <= last_heap_cell g /\
  moved = negb (to =? from) /\ (moved = false -> coord' = 4096) /\
  (moved = true -> base_ g <= coord' < end_ g) /\
  (CmDown = CmUp \/ CmDown = CmDown \/ CmDown = CmUpFar \/ CmDown = CmDownFar ->
     col_of g to = col_of g from).
Proof. apply (cursor_moves 4096 cursor_demo CmDown); [apply cursor_demo_ok|by vm_compute]. Defined.

(** The live-cell jumps find the nearest one: [n] and [N] go to the closest
    occupied cell in their direction within the heap, skipping only empty
    cells, and stay put when there is none. *)
Theorem live_jumps_nearest coord h :
  grid_ok (hm_grid h) -> valid_ (hm_grid h) = true ->
  let g := hm_grid h in
  let from := cursor_index coord g in
  nearest_next h from (cursor_index (move coord h CmNextLive).1 g) /\
  nearest_prev h from (cursor_index (move coord h CmPrevLive).1 g).
Proof.
  intros Hg Hv g from. destruct (go_valid g Hg Hv) as (_ & Hc & _).
  pose proof (cursor_index_range g Hg Hv coord) as Hf. fold from in Hf.
  assert (forall m, cursor_index (move coord h m).1 g = move_target h m from) as Hm.
  { intros m. unfold move. fold g. fold g in Hv. rewrite Hv. cbn [negb orb].
    destruct (Z.leb_spec (cols_ g) 0); [lia|]. fold from.
    destruct (Z.eqb_spec (move_target h m from) from) as [E|E]; cbn [fst].
    - by rewrite E.
    - apply cursor_index_coord; [done..|]. by apply move_target_range. }
  rewrite !Hm. split; [by apply next_target_spec|by apply prev_target_spec].
Qed.

Lemma live_jumps_nearest_witness :
  let g := hm_grid cursor_demo in
  let from := cursor_index 4096 g in
  nearest_next cursor_demo from (cursor_index (move 4096 cursor_demo CmNextLive).1 g) /\
  nearest_prev cursor_demo from (cursor_index (move 4096 cursor_demo CmPrevLive).1 g).
Proof. apply (live_jumps_nearest 4096 cursor_demo); [apply cursor_demo_ok|by vm_compute]. Defined.

(** Re-fitting after a resize never drifts: the coordinate is left alone
    whenever it still lies on a heap cell of the new grid, otherwise it moves to
    the nearest end; afterwards it is on the heap, so re-fitting again does
    nothing. *)
Theorem refit_stable coord g :
  grid_ok g -> valid_ g = true ->
  let '(coord', pulled) := refit coord g in
  (pulled = false <-> exists i, index_of g coord = Some i /\ i <= last_heap_cell g) /\
  (pulled = false -> coord' = coord) /\
  cursor_index coord' g = cursor_index coord g /\
  refit coord' g = (coord', false).
Proof.
  intros Hg Hv. pose proof (cursor_index_range g Hg Hv coord) as Hr. unfold refit. rewrite Hv. cbn [negb].
  assert (refit (coord_of_cell g (cursor_index coord g)) g =
    (coord_of_cell g (cursor_index coord g), false)) as Hagain.
  { unfold refit. rewrite Hv. cbn [negb]. rewrite index_of_coord by done.
    destruct (Z.leb_spec (cursor_index coord g) (last_heap_cell g)); [done|lia]. }
  unfold refit in Hagain. rewrite Hv in Hagain. cbn [negb] in Hagain.
  destruct (index_of g coord) as [i|] eqn:Ei.
  - destruct (Z.leb_spec i (last_heap_cell g)) as [Hle|Hgt].
    + rewrite Ei. destruct (Z.leb_spec i (last_heap_cell g)); [|lia].
      split_and!; try done. split; [intros _; by exists i|done].
    + split_and!; [|done|by apply cursor_index_coord|exact Hagain].
      split; [done|]. intros (j & [= <-] & Hj). lia.
  - split_and!; [|done|by apply cursor_index_coord|exact Hagain].
    split; [done|]. intros (j & ? & _). done.
Qed.

Lemma refit_stable_witness :
  let g := (Grid.configure 4096 69632 80 20).1 in
  let '(coord', pulled) := refit 100000 g in
  (pulled = false <-> exists i, index_of g 100000 = Some i /\ i <= last_heap_cell g) /\
  (pulled = false -> coord' = 100000) /\
  cursor_index coord' g = cursor_index 100000 g /\
  refit coord' g = (coord', false).
Proof.
  apply (refit_stable 100000 (Grid.configure 4096 69632 80 20).1); [apply configure_ok|]; by vm_compute.
Defined.
