(* ===== verification/ChunkReader.v ===== *)
(** * Chunk headers read out of the target (src/src/tui/chunk_reader.h, chunk_reader.cpp)

    The decoder that turns two words of the target's memory into a chunk or
    refuses them, and the batched gather that reads the headers of many
    pointers with few system calls.  The system call itself is a parameter:
    [process_vm_readv] takes the remote vectors and answers with an error number
    or with the bytes it moved, which fill the local vectors in order. *)

From Stdlib Require Import String.
From S2P Require Import Prelude.

Definition kChunkPrevInUse : Z := 1.
Definition kChunkIsMmapped : Z := 2.
Definition kChunkNonMainArena : Z := 4.
Definition kChunkSizeMask : Z := u64 (Z.lnot 7).
Definition kMinChunkBytes : Z := 32.
Definition kChunkAlign : Z := 16.
Definition kChunkHeaderBytes : Z := 2 * 8.
Definition kChunkMinOverheadBytes : Z := 8.
Definition kMaxChunkBytes : Z := Z.shiftl 64 30.

Record RawChunkHeader := mkRaw { raw_prev_size : Z; raw_size : Z }.
Definition kZeroHeader : RawChunkHeader := mkRaw 0 0.

Record ChunkInfo := mkInfo {
  user_ptr : Z;
  chunk_size : Z;
  overhead : Z;
  mmapped : bool;
  non_main_arena : bool;
  prev_in_use : bool;
  info_valid : bool
}.
Definition kNoInfo : ChunkInfo := mkInfo 0 0 0 false false false false.

Inductive ReadStatus := RsOk | RsDenied | RsTargetGone | RsPartial | RsFailed.
#[export] Instance ReadStatus_eq_dec : EqDecision ReadStatus.
Proof. solve_decision. Defined.

Definition read_status_str (s : ReadStatus) : list Z :=
  match s with
  | RsOk => str "ok"
  | RsDenied => str "ptrace denied: overhead unavailable"
  | RsTargetGone => str "target exited"
  | RsPartial => str "partial read"
  | RsFailed => str "read failed"
  end.

(** ** The decoder

    [None] is the [return false] of the source, which leaves [out] alone. *)
Definition decode_chunk (raw : RawChunkHeader) (ptr requested region_span : Z) : option ChunkInfo :=
  let size := Z.land (raw_size raw) kChunkSizeMask in
  if size <? kMinChunkBytes then None
  else if negb (Z.land size (kChunkAlign - 1) =? 0) then None
  else if kMaxChunkBytes <? size then None
  else if negb (region_span =? 0) && (region_span <? size) then None
  else if negb (requested =? 0) && (size <? requested ⊞ kChunkMinOverheadBytes) then None
  else Some (mkInfo ptr size
    (if negb (requested =? 0) && (requested <=? size) then
       let over := size ⊟ requested in if UINT32_MAX <? over then UINT32_MAX else over
     else 0)
    (negb (Z.land (raw_size raw) kChunkIsMmapped =? 0))
    (negb (Z.land (raw_size raw) kChunkNonMainArena =? 0))
    (negb (Z.land (raw_size raw) kChunkPrevInUse =? 0))
    true).

(** ** The system call *)

Inductive ReadReply := ReplyErrno (errno : Z) | ReplyBytes (bytes : list Z).
Definition EPERM : Z := 1.
Definition ESRCH : Z := 3.
Definition EACCES : Z := 13.
Definition EFAULT : Z := 14.

(** A [ReadFn] with its process fixed: the number of the call (the target runs
    between calls) and the remote vectors, as address and length. *)
Definition ReadFn : Type := Z -> list (Z * Z) -> ReadReply.

(** Little-endian words in a byte buffer. *)
Definition le_word (bytes : list Z) : Z := foldr (fun b v => b + 256 * v) 0 bytes.
Definition header_of_bytes (bytes : list Z) : RawChunkHeader :=
  mkRaw (le_word (take 8 bytes)) (le_word (take 8 (drop 8 bytes))).

(** ** The reader *)

Definition kMaxVectors : nat := 1024.

Record ChunkReader := mkReader {
  cr_pid : Z;
  cr_denied : bool;
  cr_gone : bool;
  cr_buf : list RawChunkHeader;
  cr_reads : Z;
  cr_headers : Z;
  cr_rejected : Z
}.
Definition new_reader (pid : Z) : ChunkReader := mkReader pid false false [] 0 0 0.

Definition with_buf (rd : ChunkReader) (buf : list RawChunkHeader) : ChunkReader :=
  mkReader (cr_pid rd) (cr_denied rd) (cr_gone rd) buf (cr_reads rd) (cr_headers rd) (cr_rejected rd).
Definition with_flags (rd : ChunkReader) (denied gone : bool) : ChunkReader :=
  mkReader (cr_pid rd) denied gone (cr_buf rd) (cr_reads rd) (cr_headers rd) (cr_rejected rd).
Definition count_read (rd : ChunkReader) : ChunkReader :=
  mkReader (cr_pid rd) (cr_denied rd) (cr_gone rd) (cr_buf rd) (cr_reads rd ⊞ 1)
    (cr_headers rd) (cr_rejected rd).

Definition available (rd : ChunkReader) : bool := negb (cr_denied rd).

Definition hint (rd : ChunkReader) : option (list Z) :=
  if cr_denied rd then Some (str "ptrace denied: overhead unavailable")
  else if cr_gone rd then Some (str "target exited: chunk detail frozen")
  else None.

(** The vectors of one batch: the slot of [buf_] each fills and the address it
    is read from.  Pointers below their own header are skipped. *)
Fixpoint vectors (slot : nat) (ptrs : list Z) : list (nat * Z) :=
  match ptrs with
  | [] => []
  | p :: ptrs =>
      if p <? kChunkHeaderBytes then vectors (S slot) ptrs
      else (slot, p - kChunkHeaderBytes) :: vectors (S slot) ptrs
  end.

(** The bytes the call moved, sixteen to a vector, into slots that were zero. *)
Fixpoint scatter (buf : list RawChunkHeader) (vs : list (nat * Z)) (bytes : list Z)
    : list RawChunkHeader :=
  match vs with
  | [] => buf
  | (slot, _) :: vs =>
      scatter (<[slot := header_of_bytes (take 16 bytes)]> buf) vs (drop 16 bytes)
  end.

(** How a pass ends: an early return, or the end of the gathering loop. *)
Inductive PassEnd := PassReturned (s : ReadStatus) | PassDone (s : ReadStatus).

Fixpoint gather_loop (read_fn : ReadFn) (fuel : nat) (rd : ChunkReader) (ptrs : list Z)
    (done : nat) (status : ReadStatus) : ChunkReader * PassEnd :=
  match fuel with
  | O => (rd, PassDone status)
  | S fuel =>
      if (done <? length ptrs)%nat then
        let left := (length ptrs - done)%nat in
        let batch := if (left <? kMaxVectors)%nat then left else kMaxVectors in
        let vs := vectors done (take batch (drop done ptrs)) in
        if (length vs =? 0)%nat then gather_loop read_fn fuel rd ptrs (done + batch) status
        else
          let reply := read_fn (cr_reads rd) ((fun v => (v.2, 16)) <$> vs) in
          let rd := count_read rd in
          match reply with
          | ReplyErrno e =>
              if (e =? EPERM) || (e =? EACCES) then
                (with_flags rd true (cr_gone rd), PassReturned RsDenied)
              else if e =? ESRCH then
                (with_flags rd (cr_denied rd) true, PassReturned RsTargetGone)
              else if e =? EFAULT then
                gather_loop read_fn fuel rd ptrs (done + batch) RsPartial
              else (rd, PassReturned RsFailed)
          | ReplyBytes bytes =>
              gather_loop read_fn fuel (with_buf rd (scatter (cr_buf rd) vs bytes)) ptrs
                (done + batch)
                (if (length bytes <? length vs * 16)%nat then RsPartial else status)
          end
      else (rd, PassDone status)
  end.

Definition want (requested : option (list Z)) (i : nat) : Z :=
  match requested with Some r => r !!! i | None => 0 end.

(** The decoding loop: the caller's array, and both counters. *)
Fixpoint decode_loop (rd : ChunkReader) (requested : option (list Z)) (i : nat)
    (bufs : list RawChunkHeader) (ptrs : list Z) : ChunkReader * list ChunkInfo :=
  match bufs, ptrs with
  | raw :: bufs, p :: ptrs =>
      let d := decode_chunk raw p (want requested i) 0 in
      let rd' :=
        if is_some d then
          mkReader (cr_pid rd) (cr_denied rd) (cr_gone rd) (cr_buf rd) (cr_reads rd)
            (cr_headers rd ⊞ 1) (cr_rejected rd)
        else
          mkReader (cr_pid rd) (cr_denied rd) (cr_gone rd) (cr_buf rd) (cr_reads rd)
            (cr_headers rd) (cr_rejected rd ⊞ 1) in
      let '(rd'', infos) := decode_loop rd' requested (S i) bufs ptrs in
      (rd'', default kNoInfo d :: infos)
  | _, _ => (rd, [])
  end.

(** [ptrs] is the caller's array, [None] a null pointer; [out] likewise. *)
Definition read (read_fn : ReadFn) (rd : ChunkReader) (ptrs : option (list Z))
    (requested : option (list Z)) (out : option (list ChunkInfo))
    : ChunkReader * ReadStatus * option (list ChunkInfo) :=
  match ptrs, out with
  | Some ptrs, Some old =>
      let n := length ptrs in
      if (n =? 0)%nat then (rd, RsOk, out)
      else if cr_denied rd then (rd, RsDenied, out)
      else if cr_gone rd then (rd, RsTargetGone, out)
      else
        let rd := with_buf rd (replicate n kZeroHeader) in
        match gather_loop read_fn n rd ptrs 0 RsOk with
        | (rd, PassReturned s) => (rd, s, Some (replicate n kNoInfo ++ drop n old))
        | (rd, PassDone s) =>
            let '(rd, infos) := decode_loop rd requested 0 (cr_buf rd) ptrs in
            (rd, s, Some (infos ++ drop n old))
        end
  | _, _ => (rd, RsOk, out)
  end.

(** ** What the decoder accepts *)

(** The shapes a real chunk can have. *)
Definition plausible (size requested region_span : Z) : Prop :=
  kMinChunkBytes <= size <= kMaxChunkBytes /\ size mod kChunkAlign = 0 /\
  (region_span = 0 \/ size <= region_span) /\
  (requested = 0 \/ u64 (requested + kChunkMinOverheadBytes) <= size).

(** What the accepted chunk reports. *)
Definition decoded (raw : RawChunkHeader) (ptr size requested : Z) : ChunkInfo :=
  mkInfo ptr size
    (if negb (requested =? 0) && (requested <=? size)
     then Z.min (size - requested) UINT32_MAX else 0)
    (Z.testbit (raw_size raw) 1) (Z.testbit (raw_size raw) 2) (Z.testbit (raw_size raw) 0) true.

Lemma decode_cases raw ptr requested span :
  is_u64 (raw_size raw) -> is_u64 requested ->
  let size := 8 * (raw_size raw / 8) in
  (plausible size requested span /\
   decode_chunk raw ptr requested span = Some (decoded raw ptr size requested)) \/
  (~ plausible size requested span /\ decode_chunk raw ptr requested span = None).
Proof.
  intros Hr Hq size. unfold decode_chunk, plausible, kChunkSizeMask.
  rewrite (land_not7 _ Hr). fold size.
  change (kChunkAlign - 1) with (2 ^ 4 - 1). rewrite land_mask by lia. change (2 ^ 4) with kChunkAlign.
  assert (0 <= size) by (unfold size; ulia).
  assert (size <= raw_size raw) by (unfold size; Z.div_mod_to_equations; lia).
  change kChunkIsMmapped with (2 ^ 1). change kChunkNonMainArena with (2 ^ 2).
  change kChunkPrevInUse with (2 ^ 0). rewrite !land_bit by lia.
  unfold decoded. clearbody size.
  assert (kMinChunkBytes = 32) as Em by done. assert (kMaxChunkBytes = 68719476736) as EM by done.
  assert (kChunkMinOverheadBytes = 8) as Eo by done.
  repeat match goal with
  | |- context [if ?b then None else _] => destruct b eqn:?; [right|]
  end; bprop.
  1-5: split; [|done]; lia.
  left. split; [lia|]. f_equal. f_equal.
  destruct (requested =? 0) eqn:E0; [done|]. destruct (requested <=? size) eqn:E1; [|done].
  cbn [negb andb]. bprop. rewrite u64_small by ulia.
  destruct (Z.ltb_spec UINT32_MAX (size - requested)); lia.
Qed.

(** ** ptmalloc's own headers decode to themselves

    The chunk ptmalloc allots to a request: one word of overhead, rounded up to
    sixteen, and never less than the minimum. *)
Definition request2size (r : Z) : Z := Z.max kMinChunkBytes (16 * ((r + 8 + 15) / 16)).

Lemma testbit_low_flags size flags i :
  size mod 16 = 0 -> 0 <= flags < 8 -> 0 <= i < 3 ->
  Z.testbit (size + flags) i = Z.testbit flags i.
Proof.
  intros Hs Hf Hi. rewrite <- (Z.mod_pow2_bits_low (size + flags) 3), <- (Z.mod_pow2_bits_low flags 3) by lia.
  f_equal. change (2 ^ 3) with 8. Z.div_mod_to_equations; lia.
Qed.

(** Every header ptmalloc writes is accepted and read back exactly: for a
    request that fits the largest chunk believed, with any of the eight flag
    combinations, the decoder returns the chunk's size, its flags, and as
    overhead what the chunk costs beyond the request, between one word and
    31 bytes. *)
Theorem decode_ptmalloc prev r flags ptr :
  0 < r -> request2size r <= kMaxChunkBytes -> 0 <= flags < 8 ->
  decode_chunk (mkRaw prev (request2size r + flags)) ptr r 0 =
    Some (mkInfo ptr (request2size r) (request2size r - r)
            (Z.testbit flags 1) (Z.testbit flags 2) (Z.testbit flags 0) true) /\
  8 <= request2size r - r <= 31.
Proof.
  intros Hr Hmax Hf.
  assert (kMinChunkBytes = 32) as Em by done. assert (kMaxChunkBytes = 68719476736) as EM by done.
  assert (request2size r mod 16 = 0 /\ 8 <= request2size r - r <= 31 /\ 32 <= request2size r) as (Ha & Hov & Hge).
  { unfold request2size. Z.div_mod_to_equations; lia. }
  split; [|done].
  assert (8 * ((request2size r + flags) / 8) = request2size r) as Es by (Z.div_mod_to_equations; lia).
  destruct (decode_cases (mkRaw prev (request2size r + flags)) ptr r 0) as [[_ E]|[Hn _]];
    cbn [raw_size] in *; [ulia|ulia| |].
  - rewrite E, Es. unfold decoded. cbn [raw_size].
    rewrite !testbit_low_flags by lia.
    destruct (Z.eqb_spec r 0); [lia|]. destruct (Z.leb_spec r (request2size r)); [|lia].
    cbn [negb andb]. do 2 f_equal. ulia.
  - exfalso. apply Hn. rewrite Es. unfold plausible, kChunkAlign, kChunkMinOverheadBytes.
    rewrite u64_small by ulia. lia.
Qed.

Lemma decode_ptmalloc_witness :
  decode_chunk (mkRaw 7 (32 + 1)) 4112 24 0 = Some (mkInfo 4112 32 8 false false true true).
Proof. apply (decode_ptmalloc 7 24 1 4112); vm_compute; intuition congruence. Defined.

(** ** The gathering pass *)

(** The bytes of a header in memory. *)
Fixpoint le_bytes (n : nat) (v : Z) : list Z :=
  match n with O => [] | S n => v mod 256 :: le_bytes n (v / 256) end.
Definition header_bytes (h : RawChunkHeader) : list Z :=
  le_bytes 8 (raw_prev_size h) ++ le_bytes 8 (raw_size h).
Definition header_u64 (h : RawChunkHeader) : Prop := is_u64 (raw_prev_size h) /\ is_u64 (raw_size h).

Lemma le_bytes_length n v : length (le_bytes n v) = n.
Proof. revert v. induction n as [|n IH]; intros v; cbn; [done|]. by rewrite IH. Qed.

Lemma le_word_bytes n v : 0 <= v < 256 ^ Z.of_nat n -> le_word (le_bytes n v) = v.
Proof.
  revert v. induction n as [|n IH]; intros v Hv.
  { change (256 ^ Z.of_nat 0) with 1 in Hv. cbn. lia. }
  rewrite Nat2Z.inj_succ, Z.pow_succ_r in Hv by lia. unfold le_word. cbn [le_bytes foldr].
  fold (le_word (le_bytes n (v / 256))). rewrite IH; [Z.div_mod_to_equations; lia|].
  split; [apply Z.div_pos; lia|apply Z.div_lt_upper_bound; lia].
Qed.

Lemma header_of_bytes_bytes h : header_u64 h -> header_of_bytes (header_bytes h) = h.
Proof.
  unfold header_u64, is_u64. intros [Hp Hs]. unfold header_of_bytes, header_bytes.
  rewrite take_app_length' by (by rewrite le_bytes_length).
  rewrite drop_app_length' by (by rewrite le_bytes_length).
  rewrite take_ge by (by rewrite le_bytes_length).
  change (2 ^ 64) with (256 ^ Z.of_nat 8) in *.
  rewrite !le_word_bytes by done.
  by destruct h.
Qed.

Lemma header_bytes_length h : length (header_bytes h) = 16%nat.
Proof. unfold header_bytes. by rewrite length_app, !le_bytes_length. Qed.

Lemma elem_of_vectors s ptrs i a :
  (i, a) ∈ vectors s ptrs <->
  exists j p, ptrs !! j = Some p /\ i = (s + j)%nat /\ kChunkHeaderBytes <= p /\ a = p - kChunkHeaderBytes.
Proof.
  revert s. induction ptrs as [|q ptrs IH]; intros s; cbn [vectors].
  { split; [by intros ?%elem_of_nil|by intros (? & ? & ? & ?)]. }
  assert ((i, a) ∈ vectors (S s) ptrs <->
    exists j p, (q :: ptrs) !! S j = Some p /\ i = (s + S j)%nat /\
      kChunkHeaderBytes <= p /\ a = p - kChunkHeaderBytes) as IH'.
  { rewrite IH. cbn. split; intros (j & p & ? & ? & ?); exists j, p; intuition lia. }
  destruct (Z.ltb_spec q kChunkHeaderBytes) as [Hq|Hq]; [|rewrite elem_of_cons]; rewrite IH'; clear IH IH'.
  - split; [by intros (j & p & ?); exists (S j), p|].
    intros ([|j] & p & Hj & ?); cbn in Hj; [simplify_eq; lia|by exists j, p].
  - split.
    + intros [[= -> ->] | (j & p & ?)]; [exists 0%nat, q; cbn; intuition lia|by exists (S j), p].
    + intros ([|j] & p & Hj & -> & ? & ->).
      * left. cbn in Hj. simplify_eq. f_equal. lia.
      * right. exists j, p. cbn in *. intuition lia.
Qed.

Lemma vectors_nodup s ptrs : NoDup (vectors s ptrs).*1.
Proof.
  revert s. induction ptrs as [|q ptrs IH]; intros s; cbn [vectors]; [constructor|].
  destruct (q <? kChunkHeaderBytes); [apply IH|]. rewrite fmap_cons. constructor; [|apply IH].
  intros ((i & a) & ? & H)%list_elem_of_fmap. cbn in *. subst. apply elem_of_vectors in H as (j & _ & _ & ? & _). lia.
Qed.

(** What the system call promises: whole vectors, from the first on, each with
    the bytes at its address when the call was made. *)
Definition kernel_reads (read_fn : ReadFn) (mem : Z -> Z -> RawChunkHeader) : Prop :=
  (forall c a, header_u64 (mem c a)) /\
  forall c vs bytes, read_fn c vs = ReplyBytes bytes ->
    exists k, bytes = concat ((fun v => header_bytes (mem c v.1)) <$> take k vs).

Section Pass.
Context (mem : Z -> RawChunkHeader) (Hmem : forall a, header_u64 (mem a)).

(** The bytes of the first [k] vectors. *)
Definition moved (k : nat) (vs : list (nat * Z)) : list Z :=
  concat ((fun v => header_bytes (mem v.2)) <$> take k vs).

Lemma scatter_length buf vs bytes : length (scatter buf vs bytes) = length buf.
Proof.
  revert buf bytes. induction vs as [|[s a] vs IH]; intros buf bytes; cbn [scatter]; [done|].
  by rewrite IH, length_insert.
Qed.

Lemma scatter_other buf vs bytes i :
  i ∉ vs.*1 -> scatter buf vs bytes !! i = buf !! i.
Proof.
  revert buf bytes. induction vs as [|[s a] vs IH]; intros buf bytes Hi; cbn [scatter]; [done|].
  rewrite fmap_cons, not_elem_of_cons in Hi. destruct Hi as [Hne Hi]. cbn in Hne.
  rewrite IH by done. by apply list_lookup_insert_ne.
Qed.

Lemma scatter_head s a vs k :
  header_of_bytes (take 16 (moved k ((s, a) :: vs))) = (if k is S _ then mem a else kZeroHeader) /\
  drop 16 (moved k ((s, a) :: vs)) = moved (pred k) vs.
Proof.
  unfold moved. destruct k as [|k]; [done|].
  cbn [take fmap list_fmap concat pred snd].
  rewrite take_app_length', drop_app_length' by (by rewrite header_bytes_length).
  by rewrite header_of_bytes_bytes.
Qed.

Lemma scatter_slot buf vs k i a :
  NoDup vs.*1 -> (i < length buf)%nat -> (i, a) ∈ vs ->
  scatter buf vs (moved k vs) !! i = Some kZeroHeader /\ (k < length vs)%nat \/
  scatter buf vs (moved k vs) !! i = Some (mem a).
Proof.
  revert buf k. induction vs as [|[s b] vs IH]; intros buf k Hnd Hi Hin; [by apply elem_of_nil in Hin|].
  rewrite fmap_cons, NoDup_cons in Hnd. destruct Hnd as [Hs Hnd]. cbn [fst] in Hs.
  cbn [scatter]. destruct (scatter_head s b vs k) as [-> ->].
  apply elem_of_cons in Hin as [[= -> ->] | Hin].
  - rewrite scatter_other by done. rewrite list_lookup_insert_eq by done.
    destruct k; [left; cbn; split; [done|lia]|by right].
  - destruct (IH (<[s := if k is S _ then mem b else kZeroHeader]> buf) (pred k)) as [[E Hk]|E];
      [done|by rewrite length_insert|done|left|by right].
    rewrite E. split; [done|]. cbn. lia.
Qed.

Lemma moved_short vs k : (length (moved k vs) <? length vs * 16)%nat = (k <? length vs)%nat.
Proof.
  assert (length (moved k vs) = length (take k vs) * 16)%nat as E.
  { unfold moved. generalize (take k vs). intros l. induction l as [|v l IH]; [done|].
    rewrite fmap_cons. cbn [concat]. rewrite length_app, header_bytes_length, IH. cbn. lia. }
  rewrite E, length_take. destruct (Nat.ltb_spec k (length vs)); [apply Nat.ltb_lt|apply Nat.ltb_ge]; lia.
Qed.
End Pass.

Section Gather.
Context (read_fn : ReadFn) (mem : Z -> Z -> RawChunkHeader) (Hk : kernel_reads read_fn mem).
Context (ptrs : list Z) (r0 : Z) (Hr0 : 0 <= r0) (Hfit : r0 + Z.of_nat (length ptrs) < 2 ^ 64).

(** Slot [i] holds the header of its own pointer, read during this pass. *)
Definition fresh (upto : Z) (i : nat) (h : RawChunkHeader) : Prop :=
  exists c p, r0 <= c < upto /\ ptrs !! i = Some p /\ kChunkHeaderBytes <= p /\
    h = mem c (p - kChunkHeaderBytes).

Lemma fresh_mono u v i h : u <= v -> fresh u i h -> fresh v i h.
Proof. intros ? (c & p & ? & ?). exists c, p. split; [lia|done]. Qed.

Record gathered (rd0 rd : ChunkReader) (done : nat) (status : ReadStatus) : Prop := {
  ga_len : length (cr_buf rd) = length ptrs;
  ga_done : (done <= length ptrs)%nat;
  ga_reads : r0 <= cr_reads rd <= r0 + Z.of_nat done;
  ga_slots : forall i h, cr_buf rd !! i = Some h -> h = kZeroHeader \/ fresh (cr_reads rd) i h;
  ga_status : status = RsOk \/ status = RsPartial;
  ga_all : status = RsOk -> forall i p h, (i < done)%nat -> ptrs !! i = Some p ->
    kChunkHeaderBytes <= p -> cr_buf rd !! i = Some h -> fresh (cr_reads rd) i h;
  ga_frame : cr_denied rd = cr_denied rd0 /\ cr_gone rd = cr_gone rd0 /\
    cr_headers rd = cr_headers rd0 /\ cr_rejected rd = cr_rejected rd0
}.

(** A batch without a readable pointer only moves on. *)
Lemma gathered_skip rd0 rd done batch status :
  gathered rd0 rd done status -> (done + batch <= length ptrs)%nat ->
  vectors done (take batch (drop done ptrs)) = [] -> gathered rd0 rd (done + batch) status.
Proof.
  intros [Hl Hd Hr Hs Hst Ha Hf] Hle Hv. split; [done|done|lia|done|done| |done].
  intros HOk i p h Hi Hp Hpge Hh. destruct (decide (i < done)%nat); [by eapply Ha|].
  exfalso. apply (not_elem_of_nil (i, p - kChunkHeaderBytes)). rewrite <- Hv.
  apply elem_of_vectors. exists (i - done)%nat, p. rewrite lookup_take_lt, lookup_drop by lia.
  replace (done + (i - done))%nat with i by lia. done.
Qed.

(** A failed call leaves the batch zero and the pass partial. *)
Lemma gathered_fault rd0 rd done batch status :
  gathered rd0 rd done status -> (0 < batch)%nat -> (done + batch <= length ptrs)%nat ->
  gathered rd0 (count_read rd) (done + batch) RsPartial.
Proof.
  intros [Hl Hd Hr Hs Hst Ha Hf] Hb Hle. cbn [count_read].
  split; cbn; [done|done| | |by right|done|done].
  - rewrite u64_small by (unfold is_u64; lia). lia.
  - intros i h Hh. destruct (Hs i h Hh) as [|Hfr]; [by left|right].
    eapply fresh_mono; [|done]. rewrite u64_small by (unfold is_u64; lia). lia.
Qed.

(** A call that moved bytes fills its batch. *)
Lemma gathered_fill rd0 rd done batch status vs bytes :
  gathered rd0 rd done status -> (0 < batch)%nat -> (done + batch <= length ptrs)%nat ->
  vs = vectors done (take batch (drop done ptrs)) ->
  read_fn (cr_reads rd) ((fun v => (v.2, 16)) <$> vs) = ReplyBytes bytes ->
  gathered rd0 (with_buf (count_read rd) (scatter (cr_buf rd) vs bytes)) (done + batch)
    (if (length bytes <? length vs * 16)%nat then RsPartial else status).
Proof.
  intros [Hl Hd Hr Hs Hst Ha Hf] Hb Hle Hvs Hreply.
  destruct Hk as [Hu Hbytes]. apply Hbytes in Hreply as [k Hmoved].
  rewrite <- fmap_take, <- list_fmap_compose in Hmoved. unfold compose in Hmoved. cbn [fst] in Hmoved.
  change (bytes = moved (mem (cr_reads rd)) k vs) in Hmoved.
  assert (cr_reads rd ⊞ 1 = cr_reads rd + 1) as Er by (apply u64_small; unfold is_u64; lia).
  assert (forall i a, (i, a) ∈ vs -> (i < length ptrs)%nat /\
    exists p, ptrs !! i = Some p /\ kChunkHeaderBytes <= p /\ a = p - kChunkHeaderBytes) as Hin.
  { intros i a. rewrite Hvs. intros (j & p & Hj & -> & Hp & ->)%elem_of_vectors.
    apply lookup_take_Some in Hj as [Hj ?]. rewrite lookup_drop in Hj.
    split; [by eapply lookup_lt_Some|by exists p]. }
  assert (NoDup vs.*1) as Hnd by (rewrite Hvs; apply vectors_nodup).
  assert (forall i h, i ∈ vs.*1 -> scatter (cr_buf rd) vs bytes !! i = Some h ->
    (h = kZeroHeader /\ (k < length vs)%nat) \/ fresh (cr_reads rd + 1) i h) as Hslot.
  { intros i h ([i' a] & -> & Hia)%list_elem_of_fmap Hh. cbn [fst] in *.
    destruct (Hin _ _ Hia) as (Hlt & p & Hp & Hge & ->). rewrite <- Hl in Hlt.
    subst bytes. destruct (scatter_slot (mem (cr_reads rd)) (Hu _) _ _ k _ _ Hnd Hlt Hia) as [[E ?]|E];
      rewrite E in Hh; simplify_eq; [by left|right]. exists (cr_reads rd), p. split; [lia|done]. }
  split; cbn [cr_buf cr_reads cr_denied cr_gone cr_headers cr_rejected with_buf count_read].
  - by rewrite scatter_length.
  - done.
  - rewrite Er. lia.
  - intros i h Hh. rewrite Er. destruct (decide (i ∈ vs.*1)) as [Hi|Hi].
    + destruct (Hslot i h Hi Hh) as [[? _]|?]; [by left|by right].
    + rewrite scatter_other in Hh by done. destruct (Hs i h Hh) as [|Hfr]; [by left|right].
      eapply fresh_mono; [|done]. lia.
  - destruct (length bytes <? length vs * 16)%nat; [by right|done].
  - intros HOk i p h Hi Hp Hpge Hh. rewrite Er.
    subst bytes. rewrite moved_short in HOk. destruct (Nat.ltb_spec k (length vs)) as [|Hkl]; [done|].
    destruct (decide (i ∈ vs.*1)) as [Hiv|Hiv].
    { destruct (Hslot i h Hiv Hh) as [[_ ?]|?]; [lia|done]. }
    rewrite scatter_other in Hh by done.
    destruct (decide (i < done)%nat) as [Hlt|Hge]; [eapply fresh_mono; [|by eapply Ha]; lia|].
    exfalso. apply Hiv, list_elem_of_fmap. exists (i, p - kChunkHeaderBytes). split; [done|].
    rewrite Hvs. apply elem_of_vectors. exists (i - done)%nat, p.
    rewrite lookup_take_lt, lookup_drop by lia. by replace (done + (i - done))%nat with i by lia.
  - done.
Qed.

Lemma batch_bounds done :
  (done < length ptrs)%nat ->
  let left := (length ptrs - done)%nat in
  let batch := if (left <? kMaxVectors)%nat then left else kMaxVectors in
  (0 < batch)%nat /\ (done + batch <= length ptrs)%nat.
Proof.
  intros Hd. unfold kMaxVectors. cbn zeta.
  destruct (Nat.ltb_spec (length ptrs - done) 1024); lia.
Qed.

(** The whole loop: it ends at the last pointer, or returns with an error whose
    flag is latched. *)
Lemma gather_loop_spec rd0 fuel rd done status rd' e :
  gathered rd0 rd done status -> (length ptrs - done <= fuel)%nat ->
  cr_denied rd0 = false -> cr_gone rd0 = false ->
  gather_loop read_fn fuel rd ptrs done status = (rd', e) ->
  match e with
  | PassDone s => gathered rd0 rd' (length ptrs) s
  | PassReturned s =>
      (s = RsDenied \/ s = RsTargetGone \/ s = RsFailed) /\
      cr_denied rd' = bool_decide (s = RsDenied) /\ cr_gone rd' = bool_decide (s = RsTargetGone) /\
      cr_headers rd' = cr_headers rd0 /\ cr_rejected rd' = cr_rejected rd0
  end.
Proof.
  intros Hg Hfuel Hden Hgone. revert rd done status Hg Hfuel.
  induction fuel as [|fuel IH]; intros rd done status Hg Hfuel Hl; cbn [gather_loop] in Hl.
  { injection Hl as <- <-. pose proof (ga_done _ _ _ _ Hg). by replace (length ptrs) with done by lia. }
  destruct (Nat.ltb_spec done (length ptrs)) as [Hlt|Hge].
  2: { injection Hl as <- <-. pose proof (ga_done _ _ _ _ Hg). by replace (length ptrs) with done by lia. }
  destruct (batch_bounds done Hlt) as [Hb Hle]. cbn zeta in *.
  set (batch := if (_ <? kMaxVectors)%nat then _ else _) in *. clearbody batch.
  set (vs := vectors done (take batch (drop done ptrs))) in *.
  destruct (Nat.eqb_spec (length vs) 0) as [Hz|Hz].
  { eapply IH; [| |exact Hl]; [|lia]. apply gathered_skip; [done|done|]. by apply nil_length_inv. }
  destruct (read_fn (cr_reads rd) ((fun v => (v.2, 16)) <$> vs)) as [err|bytes] eqn:Hr.
  - destruct (ga_frame _ _ _ _ Hg) as (Hfd & Hfg & Hfh & Hfr).
    destruct ((err =? EPERM) || (err =? EACCES)); [injection Hl as <- <-; cbn; rewrite Hfg, Hgone; tauto|].
    destruct (err =? ESRCH); [injection Hl as <- <-; cbn; rewrite Hfd, Hden; tauto|].
    destruct (err =? EFAULT).
    + eapply IH; [| |exact Hl]; [|lia]. by eapply gathered_fault.
    + injection Hl as <- <-. cbn. rewrite Hfd, Hfg, Hden, Hgone. tauto.
  - change (cr_buf (count_read rd)) with (cr_buf rd) in Hl.
    eapply IH; [| |exact Hl]; [|lia]. by apply gathered_fill.
Qed.

Lemma gathered_start rd :
  cr_reads rd = r0 -> gathered rd (with_buf rd (replicate (length ptrs) kZeroHeader)) 0 RsOk.
Proof.
  intros <-. split; cbn; [by rewrite length_replicate|lia|lia| |by left|intros; lia|done].
  intros i h Hh. apply lookup_replicate in Hh as [-> _]. by left.
Qed.
End Gather.

(** ** The decoding loop *)
Lemma decode_valid raw p w span : info_valid (default kNoInfo (decode_chunk raw p w span)) =
  is_some (decode_chunk raw p w span).
Proof. unfold decode_chunk. by repeat case_match. Qed.

Definition n_valid (v : bool) (infos : list ChunkInfo) : Z :=
  sum_by (fun c => if eqb (info_valid c) v then 1 else 0) infos.

Lemma decode_loop_spec requested bufs ptrs rd i rd' infos :
  decode_loop rd requested i bufs ptrs = (rd', infos) -> length bufs = length ptrs ->
  is_u64 (cr_headers rd) -> is_u64 (cr_rejected rd) ->
  length infos = length ptrs /\
  (forall j raw p, bufs !! j = Some raw -> ptrs !! j = Some p ->
     infos !! j = Some (default kNoInfo (decode_chunk raw p (want requested (i + j)) 0))) /\
  cr_headers rd' = cr_headers rd ⊞ n_valid true infos /\
  cr_rejected rd' = cr_rejected rd ⊞ n_valid false infos /\
  cr_denied rd' = cr_denied rd /\ cr_gone rd' = cr_gone rd /\ cr_reads rd' = cr_reads rd.
Proof.
  revert bufs rd i rd' infos.
  induction ptrs as [|p ptrs IH]; intros [|raw bufs] rd i rd' infos Hd Hlen Hh Hrj; try done.
  { injection Hd as <- <-. unfold n_valid. cbn [sum_by foldr].
    rewrite !Z.add_0_r, !u64_small by done. done. }
  cbn [decode_loop] in Hd.
  set (d := decode_chunk raw p (want requested i) 0) in *.
  set (rd1 := if is_some d then _ else _) in Hd.
  destruct (decode_loop rd1 requested (S i) bufs ptrs) as [rd2 infos'] eqn:E.
  injection Hd as <- <-.
  assert (is_u64 (cr_headers rd1) /\ is_u64 (cr_rejected rd1)) as [Hh1 Hr1].
  { subst rd1. destruct (is_some d); cbn; auto with uint. }
  destruct (IH bufs rd1 (S i) rd2 infos' E) as (Hl & Hi & Hc & Hr & Hf & Hg & Hn);
    [by injection Hlen|done|done|].
  split; [cbn; by rewrite Hl|]. split.
  { intros [|j] raw' p' Hj Hp; [cbn in *; simplify_eq; by rewrite Nat.add_0_r|].
    pose proof (Hi j raw' p' Hj Hp) as Hij. rewrite Nat.add_succ_comm in Hij. exact Hij. }
  unfold n_valid in *. rewrite !sum_by_cons. assert (info_valid (default kNoInfo d) = is_some d) as -> by apply decode_valid.
  rewrite Hc, Hr, Hf, Hg, Hn. subst rd1.
  destruct (is_some d); cbn [cr_headers cr_rejected cr_denied cr_gone cr_reads eqb];
    rewrite ?u64_add_l; repeat split; f_equal; lia.
Qed.

(** A batched read never misattributes a header and loses none silently.
    With the system call keeping its documented promise (whole vectors, in
    order), whatever the target does between calls: every entry reported valid
    is the decoding of two words read during this pass from just before its own
    pointer; a pass that returns Ok has decoded such a header for every pointer
    with room for one; entries and counters account for each pointer exactly
    once; and a denied or gone target is latched while the entries stay
    invalid. *)
Theorem read_faithful read_fn mem rd ptrs requested old rd' status out :
  kernel_reads read_fn mem -> ptrs <> [] -> length old = length ptrs ->
  cr_denied rd = false -> cr_gone rd = false ->
  is_u64 (cr_headers rd) -> is_u64 (cr_rejected rd) ->
  0 <= cr_reads rd -> cr_reads rd + Z.of_nat (length ptrs) < 2 ^ 64 ->
  read read_fn rd (Some ptrs) requested (Some old) = (rd', status, Some out) ->
  length out = length ptrs /\
  (forall i c, out !! i = Some c -> info_valid c = true ->
     exists t p, cr_reads rd <= t < cr_reads rd' /\ ptrs !! i = Some p /\ kChunkHeaderBytes <= p /\
       decode_chunk (mem t (p - kChunkHeaderBytes)) p (want requested i) 0 = Some c) /\
  (status = RsOk -> forall i p, ptrs !! i = Some p -> kChunkHeaderBytes <= p ->
     exists t, cr_reads rd <= t < cr_reads rd' /\
       out !! i = Some (default kNoInfo
         (decode_chunk (mem t (p - kChunkHeaderBytes)) p (want requested i) 0))) /\
  (cr_denied rd' = bool_decide (status = RsDenied) /\
   cr_gone rd' = bool_decide (status = RsTargetGone)) /\
  (status = RsOk \/ status = RsPartial ->
     cr_headers rd' = cr_headers rd ⊞ n_valid true out /\
     cr_rejected rd' = cr_rejected rd ⊞ n_valid false out).
Proof.
  intros Hk Hne Hold Hden Hgone Hh Hrj Hr0 Hfit. unfold read.
  destruct (Nat.eqb_spec (length ptrs) 0) as [Hz|_]; [by apply nil_length_inv in Hz|].
  rewrite Hden, Hgone, drop_ge, !app_nil_r by lia.
  pose proof (gathered_start mem ptrs _ Hr0 Hfit rd eq_refl) as Hstart.
  destruct (gather_loop _ _ _ _ _ _) as [rd1 [s|s]] eqn:Hl;
    apply (gather_loop_spec read_fn mem Hk ptrs _ Hr0 Hfit rd) in Hl; try done; try lia.
  - destruct Hl as (Hs & Hd & Hg & _). intros [= <- <- <-].
    split; [apply length_replicate|]. split.
    { intros i c Hi Hv. apply lookup_replicate in Hi as [-> _]. done. }
    split; [intros ->; by intuition|]. split; [done|]. intros [-> | ->]; by intuition.
  - destruct (decode_loop rd1 requested 0 (cr_buf rd1) ptrs) as [rd2 infos] eqn:E.
    intros [= <- <- <-]. rewrite app_nil_r. destruct Hl as [Hbl _ Hreads Hslots Hst Hall (Hfd & Hfg & Hfh & Hfr)].
    apply decode_loop_spec in E as (Hlen & Hinfo & Hch & Hcr & Hcd & Hcg & Hcn); [|done|by rewrite Hfh|by rewrite Hfr].
    rewrite Hcn, Hcd, Hcg, Hfd, Hfg, Hden, Hgone.
    split; [done|]. split; [|split; [|split]].
    + intros i c Hi Hv.
      assert (i < length ptrs)%nat as Hlt by (rewrite <- Hlen; by eapply lookup_lt_Some).
      destruct (lookup_lt_is_Some_2 ptrs i Hlt) as [p Hp].
      destruct (lookup_lt_is_Some_2 (cr_buf rd1) i) as [raw Hraw]; [lia|].
      rewrite (Hinfo i raw p Hraw Hp), Nat.add_0_l in Hi. injection Hi as <-.
      rewrite decode_valid in Hv.
      destruct (Hslots i raw Hraw) as [-> |(t & p' & Ht & Hp' & Hge & ->)].
      { by destruct (want requested i =? 0); vm_compute in Hv. }
      simplify_eq. exists t, p. split; [done|]. split; [done|]. split; [done|].
      by destruct (decode_chunk _ _ _ _).
    + intros -> i p Hp Hge.
      destruct (lookup_lt_is_Some_2 (cr_buf rd1) i) as [raw Hraw];
        [rewrite Hbl; by eapply lookup_lt_Some|].
      destruct (Hall eq_refl i p raw) as (t & p' & Ht & Hp' & _ & ->); [by eapply lookup_lt_Some|done..|].
      simplify_eq. exists t. split; [done|]. by rewrite (Hinfo i _ p Hraw Hp).
    + destruct Hst as [-> | ->]; done.
    + intros _. rewrite Hch, Hcr, Hfh, Hfr. done.
Qed.

(** A target whose every header is a 32-byte chunk with its predecessor in use. *)
Definition demo_mem (_ _ : Z) : RawChunkHeader := mkRaw 0 33.
Definition demo_read_fn : ReadFn :=
  fun c vs => ReplyBytes (concat ((fun v => header_bytes (demo_mem c v.1)) <$> vs)).

Lemma demo_kernel : kernel_reads demo_read_fn demo_mem.
Proof.
  split; [by intros|]. intros c vs bytes [= <-]. exists (length vs). by rewrite take_ge.
Qed.

Lemma read_faithful_witness :
  exists t p, 0 <= t < 1 /\ [4112; 8] !! 0%nat = Some p /\ kChunkHeaderBytes <= p /\
    decode_chunk (demo_mem t (p - kChunkHeaderBytes)) p (want (Some [24; 0]) 0) 0 =
    Some (mkInfo 4112 32 8 false false true true).
Proof.
  refine (proj1 (proj2 (read_faithful demo_read_fn demo_mem (new_reader 7) [4112; 8]
    (Some [24; 0]) [kNoInfo; kNoInfo]
    (mkReader 7 false false [mkRaw 0 33; kZeroHeader] 1 1 1) RsOk
    [mkInfo 4112 32 8 false false true true; kNoInfo]
    demo_kernel _ _ _ _ _ _ _ _ _)) 0%nat _ _ _); by vm_compute.
Defined.
