(* ===== verification/HeapWalker.v ===== *)
(** * Walking an uninstrumented heap (src/src/tui/heap_walker.h, heap_walker.cpp)

    A region is read block by block and the chain of chunk headers is followed
    inside each block; a chunk is judged by its successor's in-use bit.  The
    system call is the parameter of [ChunkReader]. *)

From Stdlib Require Import String.
From S2P Require Import Prelude ProcMaps ChunkReader.

Definition kWalkBlockBytes : Z := 256 * 1024.
Definition kMaxChunksPerRegion : Z := Z.shiftl 4 20.
Definition kMaxBlocksPerRegion : Z := 8192.
Definition kWalkMinChunk : Z := 32.
Definition kWalkAlign : Z := 16.

Record WalkedChunk := mkWalked { wc_user_ptr : Z; wc_chunk_size : Z; wc_usable : Z }.

Inductive WalkStatus := WsOk | WsDenied | WsTargetGone | WsFailed.

Definition walk_status_str (s : WalkStatus) : list Z :=
  match s with
  | WsOk => str "ok"
  | WsDenied => str "ptrace denied"
  | WsTargetGone => str "target exited"
  | WsFailed => str "read failed"
  end.

Record WalkResult := mkResult {
  wr_status : WalkStatus;
  wr_chunks : Z;
  wr_bytes : Z;
  wr_free_chunks : Z;
  wr_free_bytes : Z;
  wr_opaque_bytes : Z;
  wr_truncated : bool
}.
Definition new_result : WalkResult := mkResult WsOk 0 0 0 0 0 false.

Definition with_status (w : WalkResult) (s : WalkStatus) : WalkResult :=
  mkResult s (wr_chunks w) (wr_bytes w) (wr_free_chunks w) (wr_free_bytes w)
    (wr_opaque_bytes w) (wr_truncated w).
Definition set_truncated (w : WalkResult) : WalkResult :=
  mkResult (wr_status w) (wr_chunks w) (wr_bytes w) (wr_free_chunks w) (wr_free_bytes w)
    (wr_opaque_bytes w) true.
Definition count_used (w : WalkResult) (usable : Z) : WalkResult :=
  mkResult (wr_status w) (wr_chunks w ⊞ 1) (wr_bytes w ⊞ usable) (wr_free_chunks w)
    (wr_free_bytes w) (wr_opaque_bytes w) (wr_truncated w).
Definition count_free (w : WalkResult) (size : Z) : WalkResult :=
  mkResult (wr_status w) (wr_chunks w) (wr_bytes w) (wr_free_chunks w ⊞ 1)
    (wr_free_bytes w ⊞ size) (wr_opaque_bytes w) (wr_truncated w).
Definition count_opaque (w : WalkResult) (n : Z) : WalkResult :=
  mkResult (wr_status w) (wr_chunks w) (wr_bytes w) (wr_free_chunks w) (wr_free_bytes w)
    (wr_opaque_bytes w ⊞ n) (wr_truncated w).

Record HeapWalker := mkWalker {
  hw_pid : Z;
  hw_denied : bool;
  hw_gone : bool;
  hw_reads : Z;
  hw_blocks : Z;
  hw_cursor_start : Z;
  hw_block : list Z
}.
Definition new_walker (pid : Z) : HeapWalker :=
  mkWalker pid false false 0 0 0 (replicate (Z.to_nat kWalkBlockBytes) 0).

Definition walker_available (w : HeapWalker) : bool := negb (hw_denied w).

Definition walker_hint (w : HeapWalker) : option (list Z) :=
  if hw_denied w then
    Some (str "cannot read this process: raise ptrace_scope or grant cap_sys_ptrace")
  else if hw_gone w then Some (str "target exited: heap frozen")
  else None.

(** The bytes moved replace the front of the block; the result is the count, or
    -1 with the error latched. *)
Definition read_block (read_fn : ReadFn) (w : HeapWalker) (addr len : Z) : HeapWalker * Z :=
  let reply := read_fn (hw_reads w) [(addr, len)] in
  let reads := hw_reads w ⊞ 1 in
  match reply with
  | ReplyErrno e =>
      (mkWalker (hw_pid w)
         (hw_denied w || (e =? EPERM) || (e =? EACCES))
         (hw_gone w || (e =? ESRCH)) reads (hw_blocks w) (hw_cursor_start w) (hw_block w), -1)
  | ReplyBytes bytes =>
      (mkWalker (hw_pid w) (hw_denied w) (hw_gone w) reads (hw_blocks w) (hw_cursor_start w)
         (bytes ++ drop (length bytes) (hw_block w)), Z.of_nat (length bytes))
  end.

Definition kMinChainProbe : Z := 4.
Definition kMaxProbeBytes : Z := 8 * 1024.

(** The size word of the header at [off] of the block. *)
Definition size_field (block : list Z) (off : Z) : Z :=
  le_word (take 8 (drop (Z.to_nat (off + 8)) block)).

(** At most 64 headers are followed: the fuel is the loop's own bound. *)
Fixpoint score_loop (fuel : nat) (block : list Z) (avail off region_span n : Z) : Z :=
  match fuel with
  | O => n
  | S fuel =>
      if off + 16 <=? avail then
        let size := Z.land (size_field block off) (u64 (Z.lnot 7)) in
        if (size <? kWalkMinChunk) || negb (Z.land size (kWalkAlign - 1) =? 0) ||
           (region_span <? size)
        then n
        else score_loop fuel block avail (off ⊞ size) region_span (n + 1)
      else n
  end.
Definition score_chain (block : list Z) (avail off region_span : Z) : Z :=
  score_loop 64 block avail off region_span 0.

(** The candidates, in order, with the best so far. *)
Fixpoint probe_loop (fuel : nat) (block : list Z) (avail limit region_span off best_off best_score : Z)
    : Z * Z :=
  match fuel with
  | O => (best_off, best_score)
  | S fuel =>
      if off + 16 <=? limit then
        let score := score_chain block avail off region_span in
        if best_score <? score then
          if 64 <=? score then (off, score)
          else probe_loop fuel block avail limit region_span (off + kWalkAlign) off score
        else probe_loop fuel block avail limit region_span (off + kWalkAlign) best_off best_score
      else (best_off, best_score)
  end.

(** [None] is the source's [size_t(-1)]. *)
Definition find_chain_start (block : list Z) (avail region_span : Z) : option Z :=
  let limit := if avail <? kMaxProbeBytes then avail else kMaxProbeBytes in
  let '(best_off, best_score) := probe_loop 512 block avail limit region_span 0 0 0 in
  if kMinChainProbe <=? best_score then Some best_off else None.

(** ** One region

    What the two loops of [walk_region] carry: the chunk awaiting a verdict, how
    many chunks this region gave, the caller's array and the summary. *)
Record Walk := mkWalk {
  wk_prev : option (Z * Z);
  wk_found : Z;
  wk_out : list WalkedChunk;
  wk_sum : WalkResult
}.

(** The verdict on the previous chunk; the boolean is false at the chunk
    ceiling. *)
Definition judge (k : Walk) (prev_in_use : bool) : Walk * bool :=
  match wk_prev k with
  | None => (k, true)
  | Some (prev_addr, prev_size) =>
      if prev_in_use then
        let c := mkWalked (prev_addr ⊞ 16) prev_size (prev_size ⊟ 8) in
        let found := wk_found k + 1 in
        let sum := count_used (wk_sum k) (wc_usable c) in
        if kMaxChunksPerRegion <=? found then
          (mkWalk (wk_prev k) found (wk_out k ++ [c]) (set_truncated sum), false)
        else (mkWalk None found (wk_out k ++ [c]) sum, true)
      else (mkWalk None (wk_found k) (wk_out k) (count_free (wk_sum k) prev_size), true)
  end.

(** One turn of the inner loop at the header at [here]: the verdict, then the
    checks.  The result is the size to move on by; [None] is a [break] with
    [block_ok] cleared, at the ceiling or at a bad header. *)
Definition header_step (start end' here field : Z) (k : Walk) : Walk * option Z :=
  let size := Z.land field (u64 (Z.lnot 7)) in
  let prev_in_use := negb (Z.land field 1 =? 0) in
  let '(k, ok) := judge k prev_in_use in
  if ok then
    if (size <? kWalkMinChunk) || negb (Z.land size (kWalkAlign - 1) =? 0) ||
       (end' <? here ⊞ size) || (end' - start <? size)
    then (k, None)
    else (mkWalk (Some (here, size)) (wk_found k) (wk_out k) (wk_sum k), Some size)
  else (k, None).

(** The headers of one block; every turn moves on by at least 32 bytes, so the
    fuel covers the block. *)
Fixpoint block_loop (fuel : nat) (start end' cursor : Z) (block : list Z) (avail off : Z) (k : Walk)
    : Walk * Z * bool :=
  match fuel with
  | O => (k, off, true)
  | S fuel =>
      if off + 16 <=? avail then
        match header_step start end' (cursor ⊞ off) (size_field block off) k with
        | (k, None) => (k, off, false)
        | (k, Some size) => block_loop fuel start end' cursor block avail (off ⊞ size) k
        end
      else (k, off, true)
  end.
Definition block_fuel : nat := Z.to_nat (kWalkBlockBytes / 32 + 1).

Definition count_block (w : HeapWalker) : HeapWalker :=
  mkWalker (hw_pid w) (hw_denied w) (hw_gone w) (hw_reads w) (hw_blocks w ⊞ 1)
    (hw_cursor_start w) (hw_block w).
Definition truncate_walk (k : Walk) : Walk :=
  mkWalk (wk_prev k) (wk_found k) (wk_out k) (set_truncated (wk_sum k)).

Fixpoint region_loop (read_fn : ReadFn) (fuel : nat) (w : HeapWalker) (start end' cursor blocks : Z)
    (k : Walk) : HeapWalker * Walk :=
  match fuel with
  | O => (w, k)
  | S fuel =>
      if cursor ⊞ 16 <=? end' then
        let blocks := blocks + 1 in
        if kMaxBlocksPerRegion <? blocks then (w, truncate_walk k)
        else
          let remaining := end' - cursor in
          let want := if remaining <? kWalkBlockBytes then remaining else kWalkBlockBytes in
          let '(w, got) := read_block read_fn w cursor want in
          if got <=? 0 then (w, k)
          else
            let w := count_block w in
            let '(k, off, block_ok) := block_loop block_fuel start end' cursor (hw_block w) got 0 k in
            if negb block_ok then (w, k)
            else if off =? 0 then (w, k)
            else region_loop read_fn fuel w start end' (cursor ⊞ off) blocks k
      else (w, k)
  end.
Definition region_fuel : nat := Z.to_nat (kMaxBlocksPerRegion + 1).

Definition set_cursor_start (w : HeapWalker) (c : Z) : HeapWalker :=
  mkWalker (hw_pid w) (hw_denied w) (hw_gone w) (hw_reads w) (hw_blocks w) c (hw_block w).

Definition walk_region (read_fn : ReadFn) (w : HeapWalker) (r : Region) (out : list WalkedChunk)
    (sum : WalkResult) : HeapWalker * list WalkedChunk * WalkResult * bool :=
  let start := r_start r in
  let end' := r_end r in
  if (end' <=? start) || (end' - start <? kWalkMinChunk) then (w, out, sum, false)
  else
    let span := end' - start in
    let probe_len := if span <? kWalkBlockBytes then span else kWalkBlockBytes in
    let '(w, got) := read_block read_fn w start probe_len in
    if got <=? 0 then (w, out, sum, false)
    else
      match find_chain_start (hw_block w) got span with
      | None => (w, out, sum, false)
      | Some off =>
          let w := set_cursor_start w (start ⊞ off) in
          let '(w, k) := region_loop read_fn region_fuel w start end' (hw_cursor_start w) 0
                           (mkWalk None 0 out sum) in
          (w, wk_out k, wk_sum k, 0 <? wk_found k)
      end.

(** ** The pass *)

(** What the chunks found so far account for inside one region. *)
Definition accounted (r : Region) (out : list WalkedChunk) : Z :=
  foldl (fun acc c =>
    if (r_start r <=? wc_user_ptr c) && (wc_user_ptr c <? r_end r)
    then acc ⊞ wc_chunk_size c else acc) 0 out.

Fixpoint walk_loop (read_fn : ReadFn) (w : HeapWalker) (regions : list Region)
    (out : list WalkedChunk) (sum : WalkResult) : HeapWalker * list WalkedChunk * WalkResult :=
  match regions with
  | [] => (w, out, sum)
  | r :: regions =>
      if negb (allocatable r) then walk_loop read_fn w regions out sum
      else if Z.land (r_perms r) kPermRead =? 0 then walk_loop read_fn w regions out sum
      else
        let '(w, out, sum, chained) := walk_region read_fn w r out sum in
        if hw_denied w then (w, out, with_status sum WsDenied)
        else if hw_gone w then (w, out, with_status sum WsTargetGone)
        else
          let acc := accounted r out in
          let span := r_end r ⊟ r_start r in
          let opaque := if chained then (if acc <? span then span - acc else 0) else span in
          walk_loop read_fn w regions out (count_opaque sum opaque)
  end.

Definition walk (read_fn : ReadFn) (w : HeapWalker) (regions : list Region)
    : HeapWalker * list WalkedChunk * WalkResult :=
  let sum := new_result in
  if hw_denied w then (w, [], with_status sum WsDenied)
  else if hw_gone w then (w, [], with_status sum WsTargetGone)
  else walk_loop read_fn w regions [] sum.
