(* ===== verification/HeapWalkerProofs.v ===== *)
(** * The heap walk is safe on any memory and exact on an arena

    Whatever bytes the target returns, the chunks reported lie in their region,
    in order and disjoint, and the walk is bounded; on an arena that holds still
    the block-wise walk reports exactly its chunks in use. *)

From S2P Require Import Prelude ProcMaps ChunkReader HeapWalker.

(** ** Headers as arithmetic *)

Definition byte_list (l : list Z) : Prop := Forall is_u8 l.

Lemma le_word_range l : byte_list l -> 0 <= le_word l < 256 ^ Z.of_nat (length l).
Proof.
  induction 1 as [|b l Hb _ IH]; [done|]. unfold is_u8 in Hb. rewrite pow2_8 in Hb.
  unfold le_word in *. cbn [foldr length]. rewrite Nat2Z.inj_succ, Z.pow_succ_r by lia. lia.
Qed.

Lemma size_field_u64 block off : byte_list block -> is_u64 (size_field block off).
Proof.
  intros Hb. unfold size_field.
  assert (byte_list (take 8 (drop (Z.to_nat (off + 8)) block))) as Ht
    by (by apply Forall_take, Forall_drop).
  apply le_word_range in Ht as [? Hlt]. split; [done|]. eapply Z.lt_le_trans; [done|].
  change (2 ^ 64) with (256 ^ 8). apply Z.pow_le_mono_r; [lia|]. rewrite length_take. lia.
Qed.

(** A size a header may carry. *)
Definition chunk_shape (size : Z) : Prop := kWalkMinChunk <= size /\ size mod kWalkAlign = 0.

Lemma header_size field :
  is_u64 field -> Z.land field (u64 (Z.lnot 7)) = 8 * (field / 8) /\ 0 <= 8 * (field / 8) <= field.
Proof. intros Hf. rewrite land_not7 by done. split; [done|]. ulia. Qed.

Lemma land_align size : Z.land size (kWalkAlign - 1) = size mod kWalkAlign.
Proof. apply (land_mask size 4). lia. Qed.

(** ** The shape of what a region gives

    [laid lo l hi]: the chunks of [l] follow each other without overlap between
    the addresses [lo] and [hi]. *)
Definition base_of (c : WalkedChunk) : Z := wc_user_ptr c - 16.

Fixpoint laid (lo : Z) (l : list WalkedChunk) (hi : Z) : Prop :=
  match l with
  | [] => lo <= hi
  | c :: l =>
      lo <= base_of c /\ chunk_shape (wc_chunk_size c) /\ wc_usable c = wc_chunk_size c - 8 /\
      laid (base_of c + wc_chunk_size c) l hi
  end.

Lemma laid_weaken lo l hi hi' : laid lo l hi -> hi <= hi' -> laid lo l hi'.
Proof. revert lo. induction l as [|c l IH]; intros lo; cbn; [lia|]. intros (? & ? & ? & ?) ?. auto. Qed.

Lemma laid_snoc lo l mid c hi :
  laid lo l mid -> mid <= base_of c -> chunk_shape (wc_chunk_size c) ->
  wc_usable c = wc_chunk_size c - 8 -> base_of c + wc_chunk_size c <= hi ->
  laid lo (l ++ [c]) hi.
Proof.
  revert lo. induction l as [|d l IH]; intros lo; cbn.
  - intros. repeat split; [lia|apply H1|apply H1|done|done].
  - intros (? & ? & ? & ?) ????. auto.
Qed.

Lemma laid_bounds lo l hi c : laid lo l hi -> c ∈ l ->
  lo <= base_of c /\ base_of c + wc_chunk_size c <= hi /\ chunk_shape (wc_chunk_size c).
Proof.
  assert (forall lo l, laid lo l hi -> lo <= hi) as Hle.
  { intros lo' l'. revert lo'. induction l' as [|d l' IH]; intros lo'; cbn; [done|].
    intros (? & [? ?] & ? & ?%IH). unfold kWalkMinChunk in *. lia. }
  revert lo. induction l as [|d l IH]; intros lo; cbn; [by intros _ ?%elem_of_nil|].
  intros (Hlo & [Hs1 Hs2] & Hu & Hl) [-> | Hin]%elem_of_cons.
  - split; [done|]. split; [by eapply Hle|]. done.
  - destruct (IH _ Hl Hin) as (? & ? & ?). unfold kWalkMinChunk in *. split; [lia|done].
Qed.

(** ** One region, for any memory *)

Section Region.
Context (start end' : Z) (Hs : 0 <= start) (He : end' < 2 ^ 63) (out0 : list WalkedChunk) (sum0 : WalkResult).

(** The chunks this region has given, and what the summary says of them. *)
Record tally (k : Walk) (new : list WalkedChunk) : Prop := {
  ta_out : wk_out k = out0 ++ new;
  ta_found : wk_found k = Z.of_nat (length new);
  ta_max : wk_found k <= kMaxChunksPerRegion;
  ta_chunks : wr_chunks (wk_sum k) = u64 (wr_chunks sum0 + Z.of_nat (length new));
  ta_bytes : wr_bytes (wk_sum k) = u64 (wr_bytes sum0 + sum_by wc_usable new);
  ta_rest : wr_status (wk_sum k) = wr_status sum0 /\ wr_opaque_bytes (wk_sum k) = wr_opaque_bytes sum0
}.

(** While walking: everything given lies below the chunk awaiting its verdict,
    which ends at [pos]. *)
Definition walking (pos : Z) (k : Walk) : Prop :=
  start <= pos <= end' /\ wk_found k < kMaxChunksPerRegion /\
  exists new, tally k new /\
    match wk_prev k with
    | None => laid start new pos
    | Some (a, s) => laid start new a /\ chunk_shape s /\ a + s = pos
    end.

(** When it stops. *)
Definition walked (k : Walk) : Prop := exists new, tally k new /\ laid start new end'.

Lemma walking_walked pos k : walking pos k -> walked k.
Proof.
  intros (Hp & _ & new & Ht & Hl). exists new. split; [done|].
  destruct (wk_prev k) as [[a s]|]; [|eapply laid_weaken; [done|lia]].
  destruct Hl as (Hl & [? _] & <-). unfold kWalkMinChunk in *. eapply laid_weaken; [done|lia].
Qed.

Lemma walked_truncate k : walked k -> walked (truncate_walk k).
Proof. intros (new & [? ? ? ? ? ?] & Hl). exists new. split; [by split|done]. Qed.

Lemma tally_push k new c p (t : bool) :
  tally k new -> wk_found k + 1 <= kMaxChunksPerRegion ->
  tally (mkWalk p (wk_found k + 1) (wk_out k ++ [c])
    (if t then set_truncated (count_used (wk_sum k) (wc_usable c))
     else count_used (wk_sum k) (wc_usable c))) (new ++ [c]).
Proof.
  intros [To Tf Tm Tc Tb Tr] Hmax. split; cbn [wk_out wk_found wk_sum].
  - by rewrite To, app_assoc.
  - rewrite length_app. cbn [length]. lia.
  - done.
  - destruct t; cbn [set_truncated count_used wr_chunks]; rewrite Tc, u64_add_l, length_app;
      f_equal; cbn [length]; lia.
  - destruct t; cbn [set_truncated count_used wr_bytes]; rewrite Tb, u64_add_l, sum_by_app;
      f_equal; cbn [sum_by foldr]; lia.
  - by destruct t.
Qed.

Lemma judge_walking pos k b k' ok :
  walking pos k -> judge k b = (k', ok) ->
  walked k' /\ (ok = true -> walking pos k' /\ wk_prev k' = None).
Proof.
  intros Hw Hj. unfold judge in Hj. destruct (wk_prev k) as [[a s]|] eqn:Hp.
  2: { injection Hj as <- <-. split; [by eapply walking_walked|done]. }
  destruct Hw as (Hpos & Hf & new & [To Tf Tm Tc Tb Tr] & Hl). rewrite Hp in Hl.
  destruct Hl as (Hl & [Hs1 Hs2] & Hend). unfold kWalkMinChunk in Hs1.
  assert (start <= a) as Hsa.
  { destruct new as [|c new]; [done|]. destruct (laid_bounds _ _ _ c Hl) as (? & ? & [? _]); [left|].
    unfold kWalkMinChunk in *. lia. }
  destruct b.
  - set (c := mkWalked _ _ _) in Hj.
    assert (wc_user_ptr c = a + 16 /\ wc_chunk_size c = s /\ wc_usable c = s - 8) as (Ec & Es & Eu).
    { subst c. cbn. rewrite !u64_small by ulia. done. }
    assert (laid start (new ++ [c]) pos) as Hl'.
    { eapply laid_snoc; [done| | | |]; unfold base_of, chunk_shape; rewrite ?Ec, ?Es, ?Eu; try lia.
      by split. }
    destruct (kMaxChunksPerRegion <=? wk_found k + 1) eqn:Em; injection Hj as <- <-; bprop.
    + split; [|done]. exists (new ++ [c]). split; [apply (tally_push k new c (Some (a, s)) true); [by split|lia]|].
      eapply laid_weaken; [done|lia].
    + assert (walking pos (mkWalk None (wk_found k + 1) (wk_out k ++ [c]) (count_used (wk_sum k) (wc_usable c)))) as Hw'.
      { split; [done|]. split; [done|]. exists (new ++ [c]). split; [apply (tally_push k new c None false); [by split|lia]|done]. }
      split; [by eapply walking_walked|done].
  - injection Hj as <- <-.
    assert (walking pos (mkWalk None (wk_found k) (wk_out k) (count_free (wk_sum k) s))) as Hw'.
    { split; [done|]. split; [done|]. exists new. split; [by split|]. eapply laid_weaken; [done|lia]. }
    split; [by eapply walking_walked|done].
Qed.

Lemma header_step_walking here field k k' r :
  walking here k -> is_u64 field -> header_step start end' here field k = (k', r) ->
  match r with
  | None => walked k'
  | Some size => walking (here + size) k' /\ chunk_shape size /\ here + size <= end'
  end.
Proof.
  intros Hw Hf Hh. unfold header_step in Hh. cbv zeta in Hh.
  destruct (header_size field Hf) as [E Hrange]. rewrite E in Hh. clear E.
  set (size := 8 * (field / 8)) in *. clearbody size. rewrite land_align in Hh.
  destruct (judge k _) as [k1 ok] eqn:Hj.
  apply (judge_walking here) in Hj as [Hd Hok]; [|done].
  destruct ok; [|by injection Hh as <- <-]. destruct (Hok eq_refl) as [Hw1 Hp1].
  destruct Hw1 as (Hpos & Hfd & new & Ht & Hl). rewrite Hp1 in Hl.
  destruct (_ || _) eqn:Hc; [by injection Hh as <- <-|]. injection Hh as <- <-. bprop.
  rewrite u64_small in * by (unfold is_u64; lia).
  assert (chunk_shape size) as Hsh by (by split). unfold kWalkMinChunk in *.
  split; [|by split]. split; [lia|]. split; [done|]. exists new.
  split; [destruct Ht; by split|]. done.
Qed.

Lemma block_loop_walking fuel cursor block avail off k k' off' ok :
  walking (cursor + off) k -> byte_list block -> 0 <= off -> start <= cursor ->
  block_loop fuel start end' cursor block avail off k = (k', off', ok) ->
  if ok then walking (cursor + off') k' /\ off <= off' else walked k'.
Proof.
  revert off k. induction fuel as [|fuel IH]; intros off k Hw Hb Ho Hc Hl; cbn [block_loop] in Hl.
  { by injection Hl as <- <- <-. }
  destruct (Z.leb_spec (off + 16) avail) as [Hav|Hav]; [|by injection Hl as <- <- <-].
  pose proof Hw as ((_ & Hpos) & _).
  rewrite (u64_small (cursor + off)) in Hl by (unfold is_u64; lia).
  destruct (header_step _ _ _ _ _) as [k1 [size|]] eqn:Hst;
    apply header_step_walking in Hst; try done; try (by apply size_field_u64).
  2: { by injection Hl as <- <- <-. }
  destruct Hst as (Hw1 & [Hsz _] & Hle). unfold kWalkMinChunk in Hsz.
  rewrite (u64_small (off + size)) in Hl by (unfold is_u64; lia).
  apply IH in Hl; [destruct ok; [split; [|]; [tauto|lia]|done]|by rewrite Z.add_assoc|done|lia|done].
Qed.

Context (read_fn : ReadFn).

(** A reply is bytes, and no more than were asked for. *)
Hypothesis Hreply : forall c a len bytes,
  read_fn c [(a, len)] = ReplyBytes bytes -> byte_list bytes /\ Z.of_nat (length bytes) <= len.

Lemma read_block_bytes w addr len w' got :
  byte_list (hw_block w) -> read_block read_fn w addr len = (w', got) ->
  byte_list (hw_block w') /\ hw_reads w' = hw_reads w ⊞ 1 /\ (0 < got -> got <= len).
Proof.
  intros Hb Hr. unfold read_block in Hr.
  destruct (read_fn (hw_reads w) [(addr, len)]) as [e|bytes] eqn:E; injection Hr as <- <-; cbn.
  - by split.
  - apply Hreply in E as [Hby Hlen]. split; [|done]. apply Forall_app. split; [done|by apply Forall_drop].
Qed.

Lemma region_loop_walked fuel w cursor blocks k w' k' :
  walking cursor k -> byte_list (hw_block w) -> 0 <= blocks <= kMaxBlocksPerRegion ->
  is_u64 (hw_reads w) ->
  region_loop read_fn fuel w start end' cursor blocks k = (w', k') ->
  walked k' /\ byte_list (hw_block w') /\
  exists n, 0 <= n <= kMaxBlocksPerRegion - blocks /\ hw_reads w' = hw_reads w ⊞ n.
Proof.
  revert w cursor blocks k. induction fuel as [|fuel IH]; intros w cursor blocks k Hw Hb Hbl Hr Hl.
  all: assert (walked k) as Hwd by (by eapply walking_walked).
  all: assert (exists n, 0 <= n <= kMaxBlocksPerRegion - blocks /\ hw_reads w = hw_reads w ⊞ n) as Hstay
    by (exists 0; rewrite Z.add_0_r, u64_small by done; split; [lia|done]).
  { by injection Hl as <- <-. }
  cbn [region_loop] in Hl. pose proof Hw as ((Hst & Hpos) & _).
  destruct (cursor ⊞ 16 <=? end'); [|by injection Hl as <- <-].
  destruct (Z.ltb_spec kMaxBlocksPerRegion (blocks + 1)).
  { injection Hl as <- <-. split; [by apply walked_truncate|done]. }
  destruct (read_block _ _ _ _) as [w1 got] eqn:Hrb.
  apply read_block_bytes in Hrb as (Hb1 & Hr1 & Hgot); [|done].
  assert (forall n m, 0 <= n <= kMaxBlocksPerRegion - (blocks + 1) -> m = hw_reads w1 ⊞ n ->
    exists n, 0 <= n <= kMaxBlocksPerRegion - blocks /\ m = hw_reads w ⊞ n) as Hmore.
  { intros n m Hn ->. exists (1 + n). split; [lia|]. rewrite Hr1, u64_add_l. f_equal. lia. }
  assert (hw_reads w1 = hw_reads w1 ⊞ 0) as Hsame by (rewrite Z.add_0_r, Hr1, u64_u64; done).
  destruct (got <=? 0) eqn:Eg.
  { injection Hl as <- <-. split; [done|]. split; [done|]. apply (Hmore 0); [lia|done]. }
  change (hw_block (count_block w1)) with (hw_block w1) in Hl.
  destruct (block_loop _ _ _ _ _ _ _ _) as [[k1 off] ok] eqn:Hbk.
  apply block_loop_walking in Hbk; [|by rewrite Z.add_0_r|done|done|done].
  destruct ok; cbn [negb] in Hl.
  2: { injection Hl as <- <-. split; [done|]. split; [done|]. apply (Hmore 0); [lia|done]. }
  destruct Hbk as [Hw1 Hoff].
  destruct (off =? 0).
  { injection Hl as <- <-. split; [by eapply walking_walked|]. split; [done|]. apply (Hmore 0); [lia|done]. }
  rewrite u64_small in Hl by (destruct Hw1 as [? _]; unfold is_u64; lia).
  apply IH in Hl as (? & ? & n & Hn & Hrn); [|done|done|lia|cbn; rewrite Hr1; apply u64_range].
  split; [done|]. split; [done|]. by apply (Hmore n).
Qed.
End Region.

(** The probe stays inside what was read. *)
Lemma probe_loop_bounds fuel block avail limit span off best score :
  0 <= off -> (0 < score -> 0 <= best /\ best + 16 <= limit) -> 0 <= score ->
  let '(best', score') := probe_loop fuel block avail limit span off best score in
  0 <= score' /\ (0 < score' -> 0 <= best' /\ best' + 16 <= limit).
Proof.
  revert off best score. induction fuel as [|fuel IH]; intros off best score Ho Hb Hs;
    cbn [probe_loop]; [done|].
  destruct (Z.leb_spec (off + 16) limit); [|done]. unfold kWalkAlign.
  destruct (Z.ltb_spec score (score_chain block avail off span));
    [destruct (64 <=? score_chain block avail off span)|].
  - split; [lia|]. done.
  - apply IH; [lia|done|lia].
  - apply IH; [lia|done|lia].
Qed.

Lemma find_chain_start_bounds block avail span off :
  find_chain_start block avail span = Some off -> 0 <= off /\ off + 16 <= avail.
Proof.
  unfold find_chain_start, kMinChainProbe.
  set (limit := if avail <? kMaxProbeBytes then avail else kMaxProbeBytes).
  assert (limit <= avail) by (subst limit; destruct (Z.ltb_spec avail kMaxProbeBytes); lia).
  pose proof (probe_loop_bounds 512 block avail limit span 0 0 0) as Hp.
  destruct (probe_loop _ _ _ _ _ _ _ _) as [best score].
  destruct (Z.leb_spec 4 score); [|done]. intros [= <-]. lia.
Qed.

(** ** The pass, for any memory *)

Definition replies_ok (read_fn : ReadFn) : Prop := forall c a len bytes,
  read_fn c [(a, len)] = ReplyBytes bytes -> byte_list bytes /\ Z.of_nat (length bytes) <= len.

(** What one region contributes. *)
Definition region_segment (r : Region) (seg : list WalkedChunk) : Prop :=
  seg = [] \/
  (allocatable r = true /\ Z.land (r_perms r) kPermRead <> 0 /\
   laid (r_start r) seg (r_end r) /\ Z.of_nat (length seg) <= kMaxChunksPerRegion).

(** The reads one region may cost: the probe and the blocks. *)
Definition kMaxReads : Z := 1 + kMaxBlocksPerRegion.

Lemma walk_region_spec read_fn w r out sum w' out' sum' chained :
  replies_ok read_fn -> 0 <= r_start r -> r_end r < 2 ^ 63 ->
  byte_list (hw_block w) -> is_u64 (hw_reads w) ->
  wr_chunks sum = u64 (Z.of_nat (length out)) -> wr_bytes sum = u64 (sum_by wc_usable out) ->
  walk_region read_fn w r out sum = (w', out', sum', chained) ->
  (exists seg, out' = out ++ seg /\
     (seg = [] \/ laid (r_start r) seg (r_end r) /\ Z.of_nat (length seg) <= kMaxChunksPerRegion)) /\
  wr_chunks sum' = u64 (Z.of_nat (length out')) /\ wr_bytes sum' = u64 (sum_by wc_usable out') /\
  wr_status sum' = wr_status sum /\
  byte_list (hw_block w') /\ exists n, 0 <= n <= kMaxReads /\ hw_reads w' = hw_reads w ⊞ n.
Proof.
  intros Hre Hs He Hb Hr Hc Hby Hw. unfold walk_region in Hw.
  assert (exists seg, out = out ++ seg /\ (seg = [] \/ laid (r_start r) seg (r_end r) /\
    Z.of_nat (length seg) <= kMaxChunksPerRegion)) as Hnone.
  { exists []. rewrite app_nil_r. split; [done|by left]. }
  destruct (_ || _) eqn:Hg.
  { injection Hw as <- <- <- <-. split; [done|]. do 4 (split; [done|]). exists 0.
    rewrite Z.add_0_r, u64_small by done. split; [unfold kMaxReads, kMaxBlocksPerRegion; lia|done]. }
  bprop. destruct (read_block _ _ _ _) as [w1 got] eqn:Hrb.
  apply (read_block_bytes read_fn Hre) in Hrb as (Hb1 & Hr1 & Hgot); [|done].
  assert (exists n, 0 <= n <= kMaxReads /\ hw_reads w1 = hw_reads w ⊞ n) as Hone.
  { exists 1. split; [unfold kMaxReads, kMaxBlocksPerRegion; lia|done]. }
  destruct (got <=? 0) eqn:Eg; [by injection Hw as <- <- <- <-|]. bprop.
  destruct (find_chain_start _ _ _) as [off|] eqn:Hf; [|by injection Hw as <- <- <- <-].
  apply find_chain_start_bounds in Hf as [Ho1 Ho2].
  assert (off + 16 <= r_end r - r_start r) as Ho.
  { specialize (Hgot ltac:(lia)). destruct (Z.ltb_spec (r_end r - r_start r) kWalkBlockBytes); lia. }
  cbn [set_cursor_start hw_cursor_start] in Hw. rewrite u64_small in Hw by (unfold is_u64; lia).
  destruct (region_loop _ _ _ _ _ _ _ _) as [w2 k] eqn:Hl. injection Hw as <- <- <- <-.
  apply (region_loop_walked (r_start r) (r_end r) Hs He out sum read_fn Hre) in Hl
    as ((new & [To Tf Tm Tc Tb [Tr _]] & Hlaid) & Hb2 & n & Hn & Hrn);
    [| |done|unfold kMaxBlocksPerRegion; lia|by cbn; rewrite Hr1; apply u64_range].
  - split; [exists new; split; [done|right; split; [done|lia]]|].
    rewrite To, Tc, Tb, Hc, Hby, !u64_add_l, length_app, sum_by_app, Nat2Z.inj_add.
    do 4 (split; [done|]). exists (1 + n). split; [unfold kMaxReads; lia|].
    rewrite Hrn. cbn [set_cursor_start hw_reads]. rewrite Hr1, u64_add_l. f_equal. lia.
  - split; [lia|]. split; [done|]. exists []. split; [|cbn; lia].
    split; cbn; [by rewrite app_nil_r|done|done|..]; rewrite ?Z.add_0_r, ?Hc, ?Hby, ?u64_u64; done.
Qed.

(** What the loop over the regions keeps: one segment per region met so far. *)
Definition pass_ok (done : list Region) (out : list WalkedChunk) (sum : WalkResult) : Prop :=
  (exists segs, out = concat segs /\ Forall2 region_segment done segs) /\
  wr_chunks sum = u64 (Z.of_nat (length out)) /\ wr_bytes sum = u64 (sum_by wc_usable out).

Lemma pass_ok_skip done r out sum : pass_ok done out sum -> pass_ok (done ++ [r]) out sum.
Proof.
  intros [(segs & -> & Hf) H]. split; [|done]. exists (segs ++ [[]]).
  rewrite concat_app. cbn. rewrite app_nil_r. split; [done|].
  apply Forall2_app; [done|]. constructor; [by left|done].
Qed.

Lemma pass_ok_rest done rs out sum : pass_ok done out sum -> pass_ok (done ++ rs) out sum.
Proof.
  revert done. induction rs as [|r rs IH]; intros done H; [by rewrite app_nil_r|].
  replace (done ++ r :: rs) with ((done ++ [r]) ++ rs) by (by rewrite <- app_assoc).
  by apply IH, pass_ok_skip.
Qed.

Definition regions_low (rs : list Region) : Prop :=
  Forall (fun r => 0 <= r_start r /\ r_end r < 2 ^ 63) rs.

Lemma walk_loop_spec read_fn rs done w out sum w' out' sum' :
  replies_ok read_fn -> regions_low rs -> byte_list (hw_block w) -> is_u64 (hw_reads w) ->
  pass_ok done out sum ->
  walk_loop read_fn w rs out sum = (w', out', sum') ->
  pass_ok (done ++ rs) out' sum' /\
  exists n, 0 <= n <= kMaxReads * Z.of_nat (length rs) /\ hw_reads w' = hw_reads w ⊞ n.
Proof.
  intros Hre. revert done w out sum. induction rs as [|r rs IH]; intros done w out sum Hlow Hb Hr Hp Hl;
    cbn [walk_loop] in Hl.
  { injection Hl as <- <- <-. rewrite app_nil_r. split; [done|]. exists 0.
    rewrite Z.add_0_r, u64_small by done. cbn; lia. }
  apply Forall_cons in Hlow as [[Hs He] Hlow].
  assert (kMaxReads = 8193) as EM by done. cbn [length]. rewrite Nat2Z.inj_succ.
  replace (done ++ r :: rs) with ((done ++ [r]) ++ rs) by (by rewrite <- app_assoc).
  destruct (allocatable r) eqn:Ea; cbn [negb] in Hl;
    [destruct (Z.eqb_spec (Z.land (r_perms r) kPermRead) 0) as [Ez|Ez]|].
  2: { destruct Hp as [(segs & -> & Hsegs) [Hc Hby]].
    destruct (walk_region read_fn w r (concat segs) sum) as [[[w1 out1] sum1] ch] eqn:Hwr.
    apply walk_region_spec in Hwr as ((seg & -> & Hseg) & Hc1 & Hby1 & _ & Hb1 & n & Hn & Hr1); try done.
    assert (forall s, wr_chunks s = wr_chunks sum1 -> wr_bytes s = wr_bytes sum1 ->
      pass_ok (done ++ [r]) (concat segs ++ seg) s) as Hp1.
    { intros s Es Es'. split; [|by rewrite Es, Es']. exists (segs ++ [seg]).
      rewrite concat_app. cbn. rewrite app_nil_r. split; [done|].
      apply Forall2_app; [done|]. constructor; [|done].
      destruct Hseg as [|[? ?]]; [by left|by right]. }
    destruct (hw_denied w1); [|destruct (hw_gone w1)].
    1,2: injection Hl as <- <- <-; split; [by apply pass_ok_rest, Hp1|exists n; split; [lia|done]].
    apply (IH (done ++ [r])) in Hl as (? & m & Hm & Hrm); [|done|done|by rewrite Hr1; apply u64_range|by apply Hp1].
    split; [done|]. exists (n + m). split; [lia|]. rewrite Hrm, Hr1, u64_add_l. f_equal. lia. }
  all: apply (IH (done ++ [r])) in Hl as (? & m & Hm & Hrm); [|done|done|done|by apply pass_ok_skip].
  all: split; [done|]; exists m; split; [lia|done].
Qed.

(** C16: A walk over a live process is safe whatever its memory holds: torn or
    hostile headers, short reads and read errors included, the pass ends within
    8193 reads per region; the chunks it reports come region by region from the
    readable allocatable regions only, each region's in ascending order without
    overlap, 16-byte granular, at least 32 bytes and wholly inside the region,
    at most the per-region ceiling; and the summary counts exactly them. *)
Theorem walk_safe read_fn w rs w' out sum :
  replies_ok read_fn -> regions_low rs -> byte_list (hw_block w) -> is_u64 (hw_reads w) ->
  walk read_fn w rs = (w', out, sum) ->
  (exists segs, out = concat segs /\ Forall2 region_segment rs segs) /\
  wr_chunks sum = u64 (Z.of_nat (length out)) /\ wr_bytes sum = u64 (sum_by wc_usable out) /\
  exists n, 0 <= n <= kMaxReads * Z.of_nat (length rs) /\ hw_reads w' = hw_reads w ⊞ n.
Proof.
  intros Hre Hlow Hb Hr Hw. unfold walk in Hw.
  assert (pass_ok [] [] new_result) as Hstart by (split; [by exists []|done]).
  assert (forall s, pass_ok rs [] (with_status new_result s)) as Hnone
    by (intros s; apply (pass_ok_rest [] rs), Hstart).
  assert (exists n, 0 <= n <= kMaxReads * Z.of_nat (length rs) /\ hw_reads w = hw_reads w ⊞ n) as Hn0.
  { exists 0. rewrite Z.add_0_r, u64_small by done. assert (kMaxReads = 8193) as -> by done. lia. }
  destruct (hw_denied w); [|destruct (hw_gone w)].
  1,2: injection Hw as <- <- <-; destruct (Hnone WsDenied) as [? [? ?]]; done.
  apply (walk_loop_spec _ _ []) in Hw as [[? [? ?]] ?]; done.
Qed.

(** ** An arena that holds still *)

(** The probe looks at the bytes read only, not at what the block held before. *)
Lemma size_field_app l rest off :
  0 <= off -> off + 16 <= Z.of_nat (length l) -> size_field (l ++ rest) off = size_field l off.
Proof.
  intros Ho Hl. unfold size_field. f_equal. rewrite drop_app_le by lia.
  apply take_app_le. rewrite length_drop. lia.
Qed.

Lemma score_loop_app fuel l rest avail off span n :
  0 <= off -> avail <= Z.of_nat (length l) ->
  score_loop fuel (l ++ rest) avail off span n = score_loop fuel l avail off span n.
Proof.
  revert off n. induction fuel as [|fuel IH]; intros off n Ho Ha; cbn [score_loop]; [done|].
  destruct (Z.leb_spec (off + 16) avail); [|done]. rewrite size_field_app by lia.
  destruct (_ || _); [done|]. apply IH; [apply u64_range|done].
Qed.

Lemma find_chain_start_app l rest avail span :
  avail <= Z.of_nat (length l) -> find_chain_start (l ++ rest) avail span = find_chain_start l avail span.
Proof.
  intros Ha. unfold find_chain_start.
  assert (forall fuel limit off b s, 0 <= off ->
    probe_loop fuel (l ++ rest) avail limit span off b s = probe_loop fuel l avail limit span off b s) as Hp.
  { induction fuel as [|fuel IH]; intros limit off b s Ho; cbn [probe_loop]; [done|].
    unfold score_chain, kWalkAlign. rewrite score_loop_app by done. rewrite !IH by lia. done. }
  by rewrite Hp.
Qed.

Section Arena.
Context (byte : Z -> Z).

Definition mem_bytes (a n : Z) : list Z := byte <$> seqZ a n.
Definition word_at (a : Z) : Z := le_word (mem_bytes a 8).

Lemma mem_bytes_length a n : 0 <= n -> Z.of_nat (length (mem_bytes a n)) = n.
Proof. intros. unfold mem_bytes. rewrite length_fmap, length_seqZ. lia. Qed.

Lemma size_field_word cursor got rest off :
  0 <= off -> off + 16 <= got ->
  size_field (mem_bytes cursor got ++ rest) off = word_at (cursor + off + 8).
Proof.
  intros Ho Hg. rewrite size_field_app; [|done|rewrite mem_bytes_length; lia].
  unfold size_field, word_at. f_equal. unfold mem_bytes. rewrite <- fmap_drop, <- fmap_take. f_equal.
  apply list_eq. intros i. destruct (decide (i < 8)%nat) as [Hi|Hi].
  - rewrite lookup_take_lt, lookup_drop by done.
    rewrite !(proj2 (lookup_seqZ _ _ _ (cursor + off + 8 + Z.of_nat i))) by lia. done.
  - rewrite lookup_take_ge by lia. symmetry. apply lookup_ge_None. rewrite length_seqZ. lia.
Qed.

(** An arena from [addr] to [end']: chunks end to end, each header carrying its
    size and, in bit zero, whether the chunk before it is in use. *)
Fixpoint arena (addr : Z) (prev_used : bool) (cs : list (Z * bool)) (end' : Z) : Prop :=
  match cs with
  | [] => addr = end'
  | (s, used) :: cs =>
      chunk_shape s /\ is_u64 (word_at (addr + 8)) /\ 8 * (word_at (addr + 8) / 8) = s /\
      Z.testbit (word_at (addr + 8)) 0 = prev_used /\ arena (addr + s) used cs end'
  end.

(** Its chunks in use and its free ones; the last is the top chunk. *)
Fixpoint used_chunks (addr : Z) (cs : list (Z * bool)) : list WalkedChunk :=
  match cs with
  | [] | [_] => []
  | (s, used) :: cs =>
      (if used then [mkWalked (addr + 16) s (s - 8)] else []) ++ used_chunks (addr + s) cs
  end.
Fixpoint free_sizes (cs : list (Z * bool)) : list Z :=
  match cs with
  | [] | [_] => []
  | (s, used) :: cs => (if used then [] else [s]) ++ free_sizes cs
  end.

Lemma arena_le addr pu cs end' : arena addr pu cs end' ->
  addr + 32 * Z.of_nat (length cs) <= end' /\ (cs = [] -> addr = end').
Proof.
  revert addr pu. induction cs as [|[s u] cs IH]; intros addr pu; cbn [arena]; [cbn; lia|].
  intros ([Hs _] & _ & _ & _ & Ha). apply IH in Ha as [Ha _]. unfold kWalkMinChunk in *.
  cbn [length]. split; [lia|done].
Qed.

(** What one header does to the walk when all is well, and a run of them. *)
Definition good_step (addr s : Z) (pu : bool) (k : Walk) : Walk :=
  let k := (judge k pu).1 in mkWalk (Some (addr, s)) (wk_found k) (wk_out k) (wk_sum k).

Fixpoint steps (addr : Z) (pu : bool) (cs : list (Z * bool)) (k : Walk) : Walk :=
  match cs with
  | [] => k
  | (s, u) :: cs => steps (addr + s) u cs (good_step addr s pu k)
  end.

(** Room left under the chunk ceiling. *)
Definition room (k : Walk) (cs : list (Z * bool)) : Prop :=
  wk_found k + (if wk_prev k then 1 else 0) + Z.of_nat (length cs) <= kMaxChunksPerRegion.

Lemma good_step_room addr s pu k u cs : room k ((s, u) :: cs) -> room (good_step addr s pu k) cs.
Proof.
  unfold room, good_step, judge. cbn [length]. rewrite Nat2Z.inj_succ.
  destruct (wk_prev k) as [[a z]|]; [|cbn; lia]. intros Hr.
  destruct pu; [destruct (kMaxChunksPerRegion <=? wk_found k + 1)|]; cbn; lia.
Qed.

Lemma header_step_good start end' addr field pu s k u cs :
  0 <= start -> end' < 2 ^ 63 -> start <= addr -> addr + s <= end' ->
  is_u64 field -> 8 * (field / 8) = s -> Z.testbit field 0 = pu -> chunk_shape s ->
  room k ((s, u) :: cs) ->
  header_step start end' addr field k = (good_step addr s pu k, Some s).
Proof.
  intros Hst He Ha Hend Hf Hsz Hpu [Hs1 Hs2] Hroom. unfold header_step, good_step. cbv zeta.
  destruct (header_size field Hf) as [E _]. rewrite E, Hsz, land_align, Hs2. clear E.
  change 1 with (2 ^ 0) at 1. rewrite land_bit, Hpu by done.
  assert ((judge k pu).2 = true) as Hok.
  { unfold judge, room in *. cbn [length] in Hroom. destruct (wk_prev k) as [[a z]|]; [|done].
    destruct pu; [|done]. destruct (Z.leb_spec kMaxChunksPerRegion (wk_found k + 1)); [lia|done]. }
  destruct (judge k pu) as [k1 ok]. cbn in Hok. subst ok. cbn [fst].
  unfold kWalkMinChunk in *. rewrite u64_small by (unfold is_u64; lia).
  destruct (Z.ltb_spec s 32); [lia|]. destruct (Z.ltb_spec end' (addr + s)); [lia|].
  destruct (Z.ltb_spec (end' - start) s); [lia|]. done.
Qed.

Section StillRegion.
Context (start end' : Z) (Hst : 0 <= start) (He : end' < 2 ^ 63).

(** A block takes the walk over the headers that lie whole inside it. *)
Lemma block_loop_arena fuel cursor got rest off pu cs k :
  start <= cursor -> 0 <= off -> off mod 16 = 0 -> cursor + got <= end' ->
  got - off < 16 + 32 * Z.of_nat fuel ->
  arena (cursor + off) pu cs end' -> room k cs ->
  exists k' off' pu' cs',
    block_loop fuel start end' cursor (mem_bytes cursor got ++ rest) got off k = (k', off', true) /\
    off <= off' /\ off' mod 16 = 0 /\ got < off' + 16 /\
    arena (cursor + off') pu' cs' end' /\ room k' cs' /\
    steps (cursor + off) pu cs k = steps (cursor + off') pu' cs' k'.
Proof.
  revert off pu cs k. induction fuel as [|fuel IH]; intros off pu cs k Hc Ho Hmod Hg Hfuel Ha Hr;
    cbn [block_loop].
  { exists k, off, pu, cs. repeat split; [lia|done|lia|done|done]. }
  destruct (Z.leb_spec (off + 16) got) as [Hin|Hout]; [|exists k, off, pu, cs; repeat split; [lia|done|lia|done|done]].
  destruct cs as [|[s u] cs]; [apply arena_le in Ha as [_ Ha]; specialize (Ha eq_refl); lia|].
  cbn [arena] in Ha. destruct Ha as (Hsh & Hu & Hsz & Hbit & Hrest).
  pose proof (arena_le _ _ _ _ Hrest) as [Hle _]. pose proof Hsh as [Hs32 Hs16]. unfold kWalkMinChunk, kWalkAlign in *.
  rewrite (u64_small (cursor + off)) by (unfold is_u64; lia).
  rewrite size_field_word by lia.
  rewrite (header_step_good start end' (cursor + off) _ pu s k u cs) by (done || lia).
  rewrite (u64_small (off + s)) by (unfold is_u64; lia).
  destruct (IH (off + s) u cs (good_step (cursor + off) s pu k)) as (k' & off' & pu' & cs' & E & ? & ? & ? & ? & ? & Hsteps);
    [done|lia|rewrite Z.add_mod, Hmod, Hs16 by lia; done|done|lia|by rewrite Z.add_assoc|by eapply good_step_room|].
  exists k', off', pu', cs'. rewrite E. repeat split; [lia|done|done|done|done|].
  cbn [steps]. by rewrite <- Z.add_assoc.
Qed.

Context (read_fn : ReadFn).
(** Every read inside the region is answered in full. *)
Hypothesis Hfull : forall c a len, start <= a -> 0 <= len -> a + len <= end' ->
  read_fn c [(a, len)] = ReplyBytes (mem_bytes a len).

Lemma read_block_full w a len :
  start <= a -> 0 <= len -> a + len <= end' ->
  exists w', read_block read_fn w a len = (w', len) /\
    hw_block w' = mem_bytes a len ++ drop (Z.to_nat len) (hw_block w) /\
    hw_denied w' = hw_denied w /\ hw_gone w' = hw_gone w.
Proof.
  intros Ha Hl Hend. unfold read_block. rewrite Hfull by done. eexists.
  rewrite mem_bytes_length by done. split; [done|]. cbn.
  split; [|done]. do 2 f_equal. apply Nat2Z.inj. rewrite mem_bytes_length; lia.
Qed.

(** Block after block, the walk follows the arena to its end: a full block moves
    the cursor by at least its own length, so two gibibytes fit the ceiling. *)
Lemma region_loop_arena fuel w cursor blocks pu cs k :
  start <= cursor -> end' - start <= kWalkBlockBytes * kMaxBlocksPerRegion ->
  0 <= blocks -> (cursor < end' -> kWalkBlockBytes * blocks <= cursor - start) ->
  blocks <= kMaxBlocksPerRegion -> Z.of_nat fuel + blocks = kMaxBlocksPerRegion + 1 ->
  arena cursor pu cs end' -> room k cs ->
  exists w', region_loop read_fn fuel w start end' cursor blocks k = (w', steps cursor pu cs k) /\
    hw_denied w' = hw_denied w /\ hw_gone w' = hw_gone w.
Proof.
  assert (kWalkBlockBytes = 262144) as EB by done. assert (kMaxBlocksPerRegion = 8192) as EM by done.
  rewrite EB, EM.
  revert w cursor blocks pu cs k. induction fuel as [|fuel IH];
    intros w cursor blocks pu cs k Hc Hspan Hb0 Hprog Hbm Hfuel Ha Hr; [lia|].
  cbn [region_loop]. pose proof (arena_le _ _ _ _ Ha) as [Hle Hnil].
  rewrite u64_small by (unfold is_u64; lia).
  destruct (Z.leb_spec (cursor + 16) end') as [Hin|Hout].
  2: { destruct cs as [|c cs]; [by exists w|]. cbn [length] in Hle. lia. }
  rewrite EB, EM. specialize (Hprog ltac:(lia)).
  destruct (Z.ltb_spec 8192 (blocks + 1)); [lia|].
  set (want := if end' - cursor <? 262144 then end' - cursor else 262144).
  assert (16 <= want <= 262144 /\ cursor + want <= end' /\ (want = 262144 \/ cursor + want = end')) as (Hw1 & Hw2 & Hw3).
  { subst want. destruct (Z.ltb_spec (end' - cursor) 262144); lia. }
  clearbody want. destruct (read_block_full w cursor want) as (w1 & -> & Hblk & Hd & Hg); [lia..|].
  destruct (Z.leb_spec want 0); [lia|].
  change (hw_block (count_block w1)) with (hw_block w1). rewrite Hblk.
  destruct (block_loop_arena block_fuel cursor want (drop (Z.to_nat want) (hw_block w)) 0 pu cs k)
    as (k' & off & pu' & cs' & -> & Ho & Hm & Hgo & Ha' & Hr' & Hsteps);
    [done|lia|done|done|change (Z.of_nat block_fuel) with 8193; lia|by rewrite Z.add_0_r|done|].
  rewrite Z.add_0_r in Hsteps. rewrite Hsteps.
  cbn [negb]. destruct (Z.eqb_spec off 0); [lia|].
  pose proof (arena_le _ _ _ _ Ha') as [Hle' Hnil'].
  rewrite u64_small by (unfold is_u64; lia).
  destruct (IH (count_block w1) (cursor + off) (blocks + 1) pu' cs' k') as (w' & -> & Hd' & Hg');
    [lia|lia|lia| |lia|lia|done|done|].
  { intros Hlt. assert (want = 262144) as ->.
    { destruct cs' as [|c' cs']; [specialize (Hnil' eq_refl); lia|]. cbn [length] in Hle'. lia. }
    Z.div_mod_to_equations; lia. }
  exists w'. split; [done|]. cbn in Hd', Hg'. by rewrite Hd', Hg', Hd, Hg.
Qed.
End StillRegion.

(** ** What following the arena adds up to *)

Record gives (k k' : Walk) (used : list WalkedChunk) (frees : list Z) : Prop := {
  gi_out : wk_out k' = wk_out k ++ used;
  gi_found : wk_found k' = wk_found k + Z.of_nat (length used);
  gi_chunks : u64 (wr_chunks (wk_sum k')) = u64 (wr_chunks (wk_sum k) + Z.of_nat (length used));
  gi_bytes : u64 (wr_bytes (wk_sum k')) = u64 (wr_bytes (wk_sum k) + sum_by wc_usable used);
  gi_nfree : u64 (wr_free_chunks (wk_sum k')) = u64 (wr_free_chunks (wk_sum k) + Z.of_nat (length frees));
  gi_free : u64 (wr_free_bytes (wk_sum k')) = u64 (wr_free_bytes (wk_sum k) + sum_by id frees);
  gi_rest : wr_truncated (wk_sum k') = wr_truncated (wk_sum k)
}.

Lemma gives_trans k1 k2 k3 u1 u2 f1 f2 :
  gives k1 k2 u1 f1 -> gives k2 k3 u2 f2 -> gives k1 k3 (u1 ++ u2) (f1 ++ f2).
Proof.
  intros [A1 A2 A3 A4 A5 A6 A7] [B1 B2 B3 B4 B5 B6 B7].
  split; rewrite ?length_app, ?sum_by_app, ?Nat2Z.inj_add, ?Z.add_assoc.
  - by rewrite B1, A1, app_assoc.
  - rewrite B2, A2. lia.
  - by rewrite B3, <- u64_add_l, A3, u64_add_l.
  - by rewrite B4, <- u64_add_l, A4, u64_add_l.
  - by rewrite B5, <- u64_add_l, A5, u64_add_l.
  - by rewrite B6, <- u64_add_l, A6, u64_add_l.
  - by rewrite B7.
Qed.

(** The chunk awaiting its verdict heads what is still to come. *)
Definition pending (addr : Z) (pu : bool) (cs : list (Z * bool)) (k : Walk) : Z * list (Z * bool) :=
  match wk_prev k with None => (addr, cs) | Some (a, s) => (a, (s, pu) :: cs) end.

Lemma good_step_gives addr s pu k :
  (forall a z, wk_prev k = Some (a, z) -> 0 <= a /\ 32 <= z /\ a + z < 2 ^ 63) ->
  wk_found k + 1 < kMaxChunksPerRegion ->
  gives k (good_step addr s pu k)
    (match wk_prev k with Some (a, z) => if pu then [mkWalked (a + 16) z (z - 8)] else [] | None => [] end)
    (match wk_prev k with Some (a, z) => if pu then [] else [z] | None => [] end).
Proof.
  intros Hp Hmax. unfold good_step, judge. destruct (wk_prev k) as [[a z]|].
  2: { split; cbn; rewrite ?app_nil_r, ?Z.add_0_r; done. }
  destruct (Hp a z eq_refl) as (? & ? & ?).
  rewrite (u64_small (a + 16)), (u64_small (z - 8)) by (unfold is_u64; lia).
  destruct (Z.leb_spec kMaxChunksPerRegion (wk_found k + 1)); [lia|].
  destruct pu; split; cbn; rewrite ?app_nil_r, ?Z.add_0_r, ?u64_u64; try done; f_equal; lia.
Qed.

Lemma steps_gives cs addr pu k end' :
  0 <= addr -> arena addr pu cs end' -> end' < 2 ^ 63 -> room k cs ->
  (forall a z, wk_prev k = Some (a, z) -> 0 <= a /\ 32 <= z /\ a + z = addr) ->
  let '(a, l) := pending addr pu cs k in
  gives k (steps addr pu cs k) (used_chunks a l) (free_sizes l).
Proof.
  revert addr pu k. induction cs as [|[s u] cs IH]; intros addr pu k H0 Ha He Hr Hp; cbn [steps].
  { unfold pending. destruct (wk_prev k) as [[a z]|]; split; cbn; rewrite ?app_nil_r, ?Z.add_0_r; done. }
  pose proof (arena_le _ _ _ _ Ha) as [Hle _]. cbn [length] in Hle.
  destruct Ha as ([Hs _] & _ & _ & _ & Ha). unfold kWalkMinChunk in Hs.
  pose proof (arena_le _ _ _ _ Ha) as [Hle' _].
  specialize (IH (addr + s) u (good_step addr s pu k)).
  assert (let '(a, l) := pending (addr + s) u cs (good_step addr s pu k) in
          gives (good_step addr s pu k) (steps (addr + s) u cs (good_step addr s pu k))
            (used_chunks a l) (free_sizes l)) as Hnext.
  { apply IH; [lia|done|done|by eapply good_step_room|]. unfold good_step. cbn.
    intros a z [= <- <-]. lia. }
  unfold pending at 1 in Hnext. unfold good_step at 1 in Hnext. cbn [wk_prev] in Hnext.
  unfold room in Hr. cbn [length] in Hr.
  unfold pending. destruct (wk_prev k) as [[a z]|] eqn:Hk.
  - destruct (Hp a z eq_refl) as (? & ? & ?).
    pose proof (good_step_gives addr s pu k) as Hg. rewrite Hk in Hg.
    pose proof (gives_trans _ _ _ _ _ _ _ (Hg ltac:(intros ? ? [= <- <-]; lia) ltac:(lia)) Hnext) as Ht.
    replace (used_chunks a ((z, pu) :: (s, u) :: cs)) with
      ((if pu then [mkWalked (a + 16) z (z - 8)] else []) ++ used_chunks addr ((s, u) :: cs)) by (by subst addr).
    destruct pu; exact Ht.
  - assert (gives k (good_step addr s pu k) [] []) as Hg.
    { unfold good_step, judge. rewrite Hk. split; cbn; rewrite ?app_nil_r, ?Z.add_0_r; done. }
    exact (gives_trans _ _ _ [] _ [] _ Hg Hnext).
Qed.

(** ** Where the chain begins *)

(** Header after header of a plausible size, [n] of them, from [o] bytes into a
    region of [span] bytes of which the first [probe] were read. *)
Fixpoint chained (start span probe : Z) (n : nat) (o : Z) : Prop :=
  match n with
  | O => True
  | S n =>
      let s := 8 * (word_at (start + o + 8) / 8) in
      o + 16 <= probe /\ chunk_shape s /\ s <= span /\ chained start span probe n (o + s)
  end.
#[global] Instance chunk_shape_dec s : Decision (chunk_shape s).
Proof. unfold chunk_shape. apply _. Defined.
#[global] Instance chained_dec start span probe n : forall o, Decision (chained start span probe n o).
Proof. induction n as [|n IH]; intros o; cbn; apply _. Defined.

Section Probe.
Context (Hbyte : forall a, is_u8 (byte a)) (start span probe : Z) (Hspan : probe <= span < 2 ^ 63).
Notation block := (mem_bytes start probe).

Lemma score_loop_bounds fuel o n : n <= score_loop fuel block probe o span n <= n + Z.of_nat fuel.
Proof.
  revert o n. induction fuel as [|fuel IH]; intros o n; cbn [score_loop]; [lia|].
  destruct (_ <=? _); [|lia]. destruct (_ || _); [lia|]. specialize (IH (o ⊞ Z.land (size_field block o) (u64 (Z.lnot 7))) (n + 1)). lia.
Qed.

(** The score counts the headers of the chain. *)
Lemma score_loop_chained fuel : forall m o n, 0 <= o -> (m <= fuel)%nat ->
  n + Z.of_nat m <= score_loop fuel block probe o span n <-> chained start span probe m o.
Proof.
  induction fuel as [|fuel IH]; intros [|m] o n Ho Hm;
    [split; [done|]; intros _; cbn; lia|lia|split; [done|]; intros _; pose proof (score_loop_bounds (S fuel) o n); lia|].
  cbn [score_loop chained]. destruct (Z.leb_spec (o + 16) probe) as [Hp|Hp]; [|split; lia].
  assert (size_field block o = word_at (start + o + 8)) as Es
    by (rewrite <- (app_nil_r block), size_field_word by lia; f_equal; lia).
  assert (is_u64 (word_at (start + o + 8))) as Hw.
  { rewrite <- Es. apply size_field_u64, Forall_fmap, Forall_forall. intros; apply Hbyte. }
  destruct (header_size _ Hw) as [El Hl]. rewrite Es, El, land_align. cbv zeta. set (z := 8 * _) in *. clearbody z.
  destruct (_ || _) eqn:Ec.
  - split; [lia|]. intros (_ & [Hz1 Hz2] & Hz3 & _). bprop; lia.
  - bprop. rewrite u64_small by (unfold is_u64; lia).
    rewrite <- (IH m (o + z) (n + 1)) by lia. split; [intros Hc|intros (_ & _ & _ & Hc); lia].
    split; [lia|]. split; [by split|]. split; [done|lia].
Qed.

Notation score o := (score_chain block probe o span).
Lemma score_max o : 0 <= score o <= 64.
Proof. unfold score_chain. pose proof (score_loop_bounds 64 o 0). lia. Qed.
Lemma score_chained m o : 0 <= o -> (m <= 64)%nat -> Z.of_nat m <= score o <-> chained start span probe m o.
Proof. intros Ho Hm. by apply (score_loop_chained 64 m o 0). Qed.

Lemma next_aligned c : c mod 16 = 0 -> (c + 16) mod 16 = 0.
Proof. intros. Z.div_mod_to_equations; lia. Qed.
Lemma aligned_gap o off : o mod 16 = 0 -> off mod 16 = 0 -> o < off -> o + 16 <= off.
Proof. intros. Z.div_mod_to_equations; lia. Qed.

(** Nothing later beats it. *)
Lemma probe_loop_rest limit off fuel : forall c, c mod 16 = 0 ->
  (forall c', c <= c' -> c' mod 16 = 0 -> c' + 16 <= limit -> score c' <= score off) ->
  probe_loop fuel block probe limit span c off (score off) = (off, score off).
Proof.
  induction fuel as [|fuel IH]; intros c Hm Hle; cbn [probe_loop]; [done|].
  destruct (Z.leb_spec (c + 16) limit) as [Hl|]; [|done]. unfold kWalkAlign.
  pose proof (Hle c (Z.le_refl c) Hm Hl) as Hc1. destruct (Z.ltb_spec (score off) (score c)); [lia|].
  apply IH; [by apply next_aligned|]. intros c' Hc'. apply Hle. lia.
Qed.

(** The first of the best candidates is taken. *)
Lemma probe_loop_best limit off fuel : forall o best sc,
  0 <= o <= off -> o mod 16 = 0 -> off mod 16 = 0 -> off + 16 <= limit -> off - o < 16 * Z.of_nat fuel ->
  sc < score off -> (forall c, o <= c < off -> c mod 16 = 0 -> score c < score off) ->
  (64 <= score off \/ forall c, off < c -> c mod 16 = 0 -> c + 16 <= limit -> score c <= score off) ->
  probe_loop fuel block probe limit span o best sc = (off, score off).
Proof.
  induction fuel as [|fuel IH]; intros o best sc Ho Hm Hmo Hlim Hf Hs Hb Ha; [lia|]. cbn [probe_loop].
  destruct (Z.leb_spec (o + 16) limit) as [Hl|]; [|lia]. unfold kWalkAlign.
  destruct (Z.eq_dec o off) as [->|Hne].
  - destruct (Z.ltb_spec sc (score off)); [|lia]. destruct (Z.leb_spec 64 (score off)); [done|].
    destruct Ha as [?|Ha]; [lia|]. apply probe_loop_rest; [by apply next_aligned|]. intros c Hc. apply Ha. lia.
  - assert (o < off) as Hlt by lia. pose proof (aligned_gap o off Hm Hmo Hlt) as Hgap. pose proof (Hb o (conj (Z.le_refl o) Hlt) Hm) as Hso.
    pose proof (score_max off) as Hmax.
    assert (forall b' s', s' < score off -> probe_loop fuel block probe limit span (o + 16) b' s' = (off, score off)) as Hgo.
    { intros b' s' Hs'. apply IH; [lia|by apply next_aligned|done|done|lia|done| |done]. intros c Hc. apply Hb. lia. }
    destruct (Z.ltb_spec sc (score o)); [|by apply Hgo]. destruct (Z.leb_spec 64 (score o)); [lia|by apply Hgo].
Qed.

(** A chain that stands out is found. *)
Lemma chain_found off n : 0 <= off -> off mod 16 = 0 -> off + 16 <= Z.min probe kMaxProbeBytes -> (4 <= n <= 64)%nat ->
  chained start span probe n off ->
  (forall o, 0 <= o < off -> o mod 16 = 0 -> ~ chained start span probe n o) ->
  (n = 64%nat \/ forall o, off < o -> o mod 16 = 0 -> o + 16 <= Z.min probe kMaxProbeBytes -> ~ chained start span probe (S n) o) ->
  find_chain_start block probe span = Some off.
Proof.
  assert (kMaxProbeBytes = 8192) as EK by done.
  intros Ho Hm Hl Hn Hc Hb Ha. unfold find_chain_start.
  replace (if probe <? kMaxProbeBytes then probe else kMaxProbeBytes) with (Z.min probe kMaxProbeBytes)
    by (destruct (Z.ltb_spec probe kMaxProbeBytes); lia).
  pose proof (proj2 (score_chained n off Ho ltac:(lia)) Hc) as Hs.
  rewrite (probe_loop_best (Z.min probe kMaxProbeBytes) off 512 0 0 0); [|lia|done|done|lia|lia|lia|..].
  - unfold kMinChainProbe. destruct (Z.leb_spec 4 (score off)); [done|lia].
  - intros c Hc1 Hc2. destruct (Z.lt_ge_cases (score c) (score off)) as [|Hge]; [done|].
    destruct (Hb c Hc1 Hc2). apply (score_chained n c); lia.
  - destruct Ha as [->|Ha]; [left; lia|]. destruct (Nat.eq_dec n 64%nat) as [->|Hne]; [left; lia|]. right. intros c H1 H2 H3.
    destruct (Z.le_gt_cases (score c) (score off)) as [|Hgt]; [done|].
    destruct (Ha c H1 H2 H3). apply (score_chained (S n) c); lia.
Qed.

(** Where nothing chains there is no chain. *)
Lemma no_chain : (forall o, 0 <= o -> o mod 16 = 0 -> o + 16 <= Z.min probe kMaxProbeBytes -> ~ chained start span probe 4 o) ->
  find_chain_start block probe span = None.
Proof.
  intros Hno. unfold find_chain_start.
  replace (if probe <? kMaxProbeBytes then probe else kMaxProbeBytes) with (Z.min probe kMaxProbeBytes)
    by (destruct (Z.ltb_spec probe kMaxProbeBytes); lia).
  assert (forall fuel o best sc, 0 <= o -> o mod 16 = 0 -> sc < 4 ->
    (probe_loop fuel block probe (Z.min probe kMaxProbeBytes) span o best sc).2 < 4) as Hp.
  { induction fuel as [|fuel IH]; intros o best sc Ho Hm Hs; cbn [probe_loop]; [done|].
    destruct (Z.leb_spec (o + 16) (Z.min probe kMaxProbeBytes)) as [Hl|]; [|done]. unfold kWalkAlign.
    assert (score o < 4) as Hso.
    { destruct (Z.lt_ge_cases (score o) 4) as [|Hge]; [done|]. destruct (Hno o Ho Hm Hl). apply (score_chained 4 o); lia. }
    destruct (sc <? score o); [destruct (Z.leb_spec 64 (score o)); [lia|]|]; (apply IH; [lia|by apply next_aligned|lia]). }
  specialize (Hp 512%nat 0 0 0 ltac:(lia) eq_refl ltac:(lia)). destruct (probe_loop _ _ _ _ _ _ _ _) as [b sc]. cbn [snd] in Hp.
  unfold kMinChainProbe. by destruct (Z.leb_spec 4 sc); [lia|].
Qed.

(** The chunks of an arena are a chain. *)
Lemma arena_sizes cs : forall addr pu end', arena addr pu cs end' -> Forall (fun c => 32 <= c.1) cs.
Proof.
  induction cs as [|[s u] cs IH]; intros addr pu end'; [constructor|]. intros ([Hs _] & _ & _ & _ & Ha). constructor; [done|by eapply IH].
Qed.
Lemma arena_before cs addr pu end' n : arena addr pu cs end' -> 0 <= sum_by fst (take n cs).
Proof.
  intros Ha. apply arena_sizes in Ha. apply sum_by_nonneg. intros c (j & Hj & _)%elem_of_take.
  pose proof (Forall_lookup_1 _ _ _ _ Ha Hj). cbn in *. lia.
Qed.
Lemma arena_chained cs : forall off pu n, arena (start + off) pu cs (start + span) -> 0 <= off -> (n < length cs)%nat ->
  off + sum_by fst (take n cs) + 16 <= probe -> chained start span probe (S n) off.
Proof.
  induction cs as [|[s u] cs IH]; intros off pu n Ha Ho Hn Hp; [cbn in Hn; lia|].
  pose proof (arena_before _ _ _ _ n Ha) as Hpos. cbn [arena] in Ha. destruct Ha as ([Hs1 Hs2] & _ & Hsz & _ & Ha).
  pose proof (arena_le _ _ _ _ Ha) as [Hle _]. unfold kWalkMinChunk in *. cbn [chained]. rewrite Hsz.
  split; [lia|]. split; [by split|]. split; [lia|]. destruct n as [|n]; [done|].
  rewrite firstn_cons, sum_by_cons in Hp. cbn [fst length] in *. rewrite <- Z.add_assoc in Ha.
  apply (IH (off + s) u n Ha); lia.
Qed.
End Probe.

(** Following the chain from where the probe found it. *)
Lemma walk_from read_fn w r out sum off pu cs :
  let start := r_start r in
  let end' := r_end r in
  let span := end' - start in
  let probe := if span <? kWalkBlockBytes then span else kWalkBlockBytes in
  0 <= start -> end' < 2 ^ 63 -> kWalkMinChunk <= span <= kWalkBlockBytes * kMaxBlocksPerRegion ->
  (forall c a len, start <= a -> 0 <= len -> a + len <= end' ->
     read_fn c [(a, len)] = ReplyBytes (mem_bytes a len)) ->
  find_chain_start (mem_bytes start probe) probe span = Some off ->
  arena (start + off) pu cs end' -> Z.of_nat (length cs) <= kMaxChunksPerRegion ->
  exists w' k,
    walk_region read_fn w r out sum =
      (w', out ++ used_chunks (start + off) cs, wk_sum k,
       negb (bool_decide (used_chunks (start + off) cs = []))) /\
    hw_denied w' = hw_denied w /\ hw_gone w' = hw_gone w /\
    gives (mkWalk None 0 out sum) k (used_chunks (start + off) cs) (free_sizes cs).
Proof.
  intros start end' span probe Hs He [Hmin Hmax] Hfull Hf Ha Hlen.
  assert (kWalkBlockBytes = 262144) as EB by done. assert (kWalkMinChunk = 32) as Em by done.
  pose proof (find_chain_start_bounds _ _ _ _ Hf) as [Ho1 Ho2].
  assert (32 <= probe <= 262144 /\ start + probe <= end') as [Hp1 Hp2].
  { subst probe span. destruct (Z.ltb_spec (end' - start) kWalkBlockBytes); lia. }
  unfold walk_region. fold start end' span probe.
  destruct (Z.leb_spec end' start); [subst span; lia|]. destruct (Z.ltb_spec span kWalkMinChunk); [lia|].
  cbn [orb]. destruct (read_block_full start end' read_fn Hfull w start probe) as (w1 & -> & Hblk & Hd & Hg);
    [lia..|].
  destruct (Z.leb_spec probe 0); [lia|].
  rewrite Hblk, find_chain_start_app by (rewrite mem_bytes_length; lia). rewrite Hf.
  pose proof (arena_le _ _ _ _ Ha) as [Hle _]. rewrite (u64_small (start + off)) by (unfold is_u64; lia).
  change (hw_cursor_start (set_cursor_start w1 (start + off))) with (start + off).
  assert (room (mkWalk None 0 out sum) cs) as Hroom by (unfold room; cbn; lia).
  destruct (region_loop_arena start end' Hs He read_fn Hfull region_fuel (set_cursor_start w1 (start + off))
    (start + off) 0 pu cs (mkWalk None 0 out sum)) as (w2 & E & Hd2 & Hg2); [lia|lia|done|lia|done|done|done|done|].
  rewrite E. clear E.
  pose proof (steps_gives cs (start + off) pu (mkWalk None 0 out sum) end' ltac:(lia) Ha He Hroom
    ltac:(done)) as Hgive. unfold pending in Hgive. cbn [wk_prev] in Hgive.
  exists w2, (steps (start + off) pu cs (mkWalk None 0 out sum)).
  pose proof Hgive as [G1 G2 _ _ _ _ _]. rewrite G1, G2. cbn [wk_out wk_found].
  split; [|cbn in Hd2, Hg2; by rewrite Hd2, Hg2, Hd, Hg].
  f_equal. destruct (used_chunks (start + off) cs) as [|c l]; cbn [length];
    [by rewrite bool_decide_eq_true_2|by rewrite bool_decide_eq_false_2].
Qed.


(** Where no offset of the first 8 KiB starts four headers in a row, the region is
    left alone. *)
Lemma walk_region_opaque read_fn w r out sum :
  let start := r_start r in
  let end' := r_end r in
  let span := end' - start in
  let probe := Z.min span kWalkBlockBytes in
  (forall a, is_u8 (byte a)) -> 0 <= start -> end' < 2 ^ 63 -> kWalkMinChunk <= span ->
  (forall c a len, start <= a -> 0 <= len -> a + len <= end' ->
     read_fn c [(a, len)] = ReplyBytes (mem_bytes a len)) ->
  (forall o, 0 <= o -> o mod 16 = 0 -> o + 16 <= Z.min probe kMaxProbeBytes -> ~ chained start span probe 4 o) ->
  exists w', walk_region read_fn w r out sum = (w', out, sum, false).
Proof.
  intros start end' span probe Hby Hs He Hmin Hfull Hno. assert (kWalkBlockBytes = 262144) as EB by done. assert (kWalkMinChunk = 32) as Em by done.
  assert ((if span <? kWalkBlockBytes then span else kWalkBlockBytes) = probe) as Ep
    by (unfold probe; destruct (Z.ltb_spec span kWalkBlockBytes); lia).
  unfold walk_region. fold start end' span. rewrite Ep.
  destruct (Z.leb_spec end' start); [subst span; lia|]. destruct (Z.ltb_spec span kWalkMinChunk); [lia|]. cbn [orb].
  assert (probe <= span < 2 ^ 63) as Hps by (unfold probe, span in *; lia).
  destruct (read_block_full start end' read_fn Hfull w start probe) as (w1 & -> & Hblk & _); [lia|unfold probe; lia|unfold span in *; lia|].
  destruct (Z.leb_spec probe 0); [unfold probe in *; lia|].
  rewrite Hblk, find_chain_start_app by (rewrite mem_bytes_length; unfold probe; lia).
  rewrite (no_chain Hby start span probe Hps Hno). by exists w1.
Qed.
End Arena.

(** ** A small arena: four chunks, the second free, and the top chunk *)

Definition demo_words : list (Z * Z) :=
  [(4104, 33); (4136, 49); (4184, 32); (4216, 65); (4280, 81)].
Definition demo_byte (a : Z) : Z :=
  sum_by (fun w => if (w.1 <=? a) && (a <? w.1 + 8) then (w.2 / 256 ^ (a - w.1)) mod 256 else 0) demo_words mod 256.
Definition demo_fn : ReadFn := fun _ vs =>
  match vs with
  | [(a, len)] => if 0 <=? len then ReplyBytes (mem_bytes demo_byte a len) else ReplyErrno EFAULT
  | _ => ReplyErrno EFAULT
  end.
Definition demo_region : Region := mkRegion 4096 4352 0 0 Heap 3 false.
Definition demo_walker : HeapWalker := mkWalker 7 false false 0 0 0 [].
Definition demo_chunks : list (Z * bool) := [(32, true); (48, false); (32, true); (64, true); (80, true)].

Lemma demo_replies : replies_ok demo_fn.
Proof.
  intros c a len bytes. cbn. destruct (Z.leb_spec 0 len); [|done]. intros [= <-].
  rewrite mem_bytes_length by done. split; [|done]. unfold byte_list, mem_bytes.
  apply Forall_fmap, Forall_forall. intros x _. unfold compose, demo_byte. apply Z.mod_pos_bound. lia.
Qed.

Lemma demo_byte_u8 a : is_u8 (demo_byte a).
Proof. unfold demo_byte, is_u8. rewrite pow2_8. apply Z.mod_pos_bound. lia. Qed.
Lemma demo_stands_out o : 0 < o -> o mod 16 = 0 -> o + 16 <= Z.min 256 kMaxProbeBytes -> ~ chained demo_byte 4096 256 256 6 o.
Proof.
  intros H1 H2 H3. assert (o ∈ (fun i => 16 * i) <$> seqZ 1 15) as Hin.
  { apply list_elem_of_fmap. exists (o / 16). rewrite elem_of_seqZ. change (Z.min 256 kMaxProbeBytes) with 256 in H3.
    Z.div_mod_to_equations; lia. }
  clear H1 H2 H3. revert o Hin. apply Forall_forall, (bool_decide_unpack _). by vm_compute.
Qed.


Lemma walk_safe_witness :
  exists segs, [mkWalked 4112 32 24; mkWalked 4192 32 24; mkWalked 4224 64 56] = concat segs /\
    Forall2 region_segment [demo_region] segs.
Proof.
  eapply (walk_safe demo_fn demo_walker [demo_region]); [exact demo_replies| | | |by vm_compute].
  - constructor; [by vm_compute|constructor].
  - constructor.
  - by vm_compute.
Defined.
