(* ===== verification/ShmCleanup.v ===== *)
(** * Stale segment cleanup (src/src/tui/shm_cleanup.h, shm_cleanup.cpp)

    Which files of [/dev/shm] are segments of ours, whose producer still lives,
    and which are unlinked.  The file system and the process table are
    parameters: the directory listing, [stat], [kill(pid, 0)] and [shm_unlink]. *)

From Stdlib Require Import String.
From S2P Require Import Prelude Abi.

Record StaleSegment := mkSegment {
  seg_name : list Z;
  seg_pid : Z;
  seg_bytes : Z;
  seg_owner_alive : bool
}.

(** What the system answers: the size [stat] finds, the error number of
    [kill(pid, 0)] if it fails, and whether a file can be unlinked. *)
Record System := mkSystem {
  sys_stat : list Z -> option Z;
  sys_kill : Z -> option Z;
  sys_unlink : list Z -> bool
}.
Definition ESRCH : Z := 3.

(** The digit loop; names are C strings without their NUL. *)
Fixpoint digits_loop (v : Z) (digits : list Z) : option Z :=
  match digits with
  | [] => Some v
  | c :: digits =>
      if (c <? 48) || (57 <? c) then None
      else
        let v := v * 10 + (c - 48) in
        if 0x7FFFFFFF <? v then None else digits_loop v digits
  end.

Definition parse_pid (entry : list Z) : option Z :=
  let want :=
    match HV_SHM_NAME_PREFIX with
    | c :: rest => if c =? 47 then rest else HV_SHM_NAME_PREFIX
    | [] => []
    end in
  if decide (take (length want) entry = want) then
    match drop (length want) entry with
    | [] => None
    | digits => digits_loop 0 digits
    end
  else None.

Definition pid_alive (sys : System) (pid : Z) : bool :=
  if pid <=? 0 then false
  else match sys_kill sys pid with None => true | Some e => negb (e =? ESRCH) end.

(** [None] is an [opendir] that fails. *)
Definition list_segments (sys : System) (dir : option (list (list Z))) : list StaleSegment :=
  match dir with
  | None => []
  | Some names =>
      omap (fun name =>
        match parse_pid name with
        | None => None
        | Some pid =>
            Some (mkSegment name pid (default 0 (sys_stat sys name)) (pid_alive sys pid))
        end) names
  end.

(** One turn of the reaping loop: the files left, the count and the bytes. *)
Definition reap_step (sys : System) (dry_run : bool) (acc : list (list Z) * Z * Z)
    (s : StaleSegment) : list (list Z) * Z * Z :=
  let '(files, removed, freed) := acc in
  if seg_owner_alive s then acc
  else if dry_run then (files, removed + 1, freed ⊞ seg_bytes s)
  else if sys_unlink sys (seg_name s) then
    (filter (fun f => f <> seg_name s) files, removed + 1, freed ⊞ seg_bytes s)
  else acc.

(** The result is the count; [*bytes_freed] is assigned when given. *)
Definition reap_stale_segments (sys : System) (dry_run : bool) (dir : option (list (list Z)))
    (bytes_freed : option Z) : list (list Z) * Z * option Z :=
  let '(files, removed, freed) :=
    foldl (reap_step sys dry_run) (default [] dir, 0, 0) (list_segments sys dir) in
  (files, removed, (fun _ => freed) <$> bytes_freed).

(** ** Parsing *)
Lemma digits_loop_value v l :
  0 <= v -> Forall (fun c => is_digit c = true) l ->
  0 <= foldl (fun v c => v * 10 + (c - 48)) v l <= 0x7FFFFFFF ->
  digits_loop v l = Some (foldl (fun v c => v * 10 + (c - 48)) v l).
Proof.
  intros Hv Hl. revert v Hv. induction Hl as [|c l Hc Hl IH]; intros v Hv Hr; cbn [foldl digits_loop] in *; [done|].
  unfold is_digit in Hc. bprop.
  destruct (Z.ltb_spec c 48); [lia|]. destruct (Z.ltb_spec 57 c); [lia|]. cbn [orb].
  assert (forall l w, 0 <= w -> Forall (fun c => is_digit c = true) l ->
    w <= foldl (fun v c => v * 10 + (c - 48)) w l) as Hmono.
  { clear. induction l as [|c l IH]; intros w Hw Hl; cbn; [lia|].
    apply Forall_cons in Hl as [Hc Hl]. unfold is_digit in Hc. bprop.
    specialize (IH (w * 10 + (c - 48)) ltac:(lia) Hl). lia. }
  specialize (Hmono l (v * 10 + (c - 48)) ltac:(lia) Hl).
  destruct (Z.ltb_spec 0x7FFFFFFF (v * 10 + (c - 48))); [lia|]. apply IH; lia.
Qed.

Lemma digits_loop_range v l pid : 0 <= v <= 0x7FFFFFFF -> digits_loop v l = Some pid -> 0 <= pid < 2 ^ 31.
Proof.
  revert v. induction l as [|c l IH]; intros v Hv; cbn [digits_loop].
  { intros [= <-]. change (2 ^ 31) with 2147483648. lia. }
  destruct (_ || _) eqn:E; [done|]. bprop. destruct (Z.ltb_spec 0x7FFFFFFF (v * 10 + (c - 48))); [done|].
  apply IH. lia.
Qed.

Definition kEntryPrefix : list Z := str "heapviz_shm_".

Lemma parse_pid_eq entry :
  parse_pid entry =
  (if decide (take 12 entry = kEntryPrefix) then
     match drop 12 entry with [] => None | digits => digits_loop 0 digits end
   else None).
Proof. done. Qed.

Lemma parse_pid_prefix digits :
  parse_pid (kEntryPrefix ++ digits) = (if decide (digits = []) then None else digits_loop 0 digits).
Proof.
  rewrite parse_pid_eq, (take_app_length' kEntryPrefix), (drop_app_length' kEntryPrefix) by done.
  rewrite decide_True by done. by destruct digits.
Qed.

Lemma parse_pid_inv entry pid :
  parse_pid entry = Some pid ->
  exists digits, entry = kEntryPrefix ++ digits /\ digits <> [] /\ digits_loop 0 digits = Some pid.
Proof.
  rewrite parse_pid_eq. case_decide as Hd; [|done]. intros Hp. exists (drop 12 entry). split.
  - rewrite <- Hd at 1. by rewrite take_drop.
  - destruct (drop 12 entry); [done|]. by split.
Qed.

(** The segment name a producer creates is the one the cleaner recognises:
    for every process id, dropping the leading slash of [hv_shm_name] gives an
    entry that parses back to that id, and an entry parses only if it is the
    prefix followed by a decimal number that fits a process id. *)
Theorem segment_name_round_trip pid entry :
  0 <= pid < 2 ^ 31 ->
  parse_pid (take (Z.to_nat ((hv_shm_name HV_SHM_NAME_MAX pid).2) - 1) (drop 1 (hv_shm_name HV_SHM_NAME_MAX pid).1))
    = Some pid /\
  (parse_pid entry = Some pid -> take 12 entry = kEntryPrefix /\ dec_value (drop 12 entry) = pid).
Proof.
  change (2 ^ 31) with 2147483648. intros Hp. split.
  - unfold hv_shm_name, HV_SHM_NAME_MAX. cbn [fst snd Z.ltb Z.compare Pos.compare Pos.compare_cont].
    destruct (Z.ltb_spec pid 0); [lia|]. cbn [fst snd].
    replace (HV_SHM_NAME_PREFIX ++ dec_string 16 pid) with (47 :: kEntryPrefix ++ dec_string 16 pid) by done.
    rewrite <- app_comm_cons. cbn [drop length]. rewrite Nat2Z.id, Nat.sub_succ, Nat.sub_0_r.
    rewrite drop_0, take_app_length, parse_pid_prefix. rewrite decide_False by apply dec_string_nonempty.
    assert (dec_value (dec_string 16 pid) = pid) as Hv by (apply dec_string_value; cbn; lia).
    unfold dec_value in Hv. rewrite digits_loop_value; [by rewrite Hv|lia|by apply dec_string_digits; lia|].
    rewrite Hv. lia.
  - intros (digits & -> & _ & Hd)%parse_pid_inv.
    split; [apply (take_app_length' kEntryPrefix); by vm_compute|].
    rewrite (drop_app_length' kEntryPrefix) by (by vm_compute). unfold dec_value.
    revert Hd. generalize 0. induction digits as [|c digits IH]; intros v; cbn; [by intros [= ->]|].
    destruct (_ || _); [done|]. destruct (_ <? _); [done|]. apply IH.
Qed.

Lemma segment_name_round_trip_witness :
  parse_pid (take (Z.to_nat ((hv_shm_name HV_SHM_NAME_MAX 4242).2) - 1)
    (drop 1 (hv_shm_name HV_SHM_NAME_MAX 4242).1)) = Some 4242 /\
  (parse_pid (str "heapviz_shm_004242") = Some 4242 ->
   take 12 (str "heapviz_shm_004242") = kEntryPrefix /\ dec_value (drop 12 (str "heapviz_shm_004242")) = 4242).
Proof. apply (segment_name_round_trip 4242). by vm_compute. Defined.

(** ** Reaping *)

(** A file named as the segment of process [pid]: the prefix and a decimal
    number that fits a process id. *)
Definition segment_of (f : list Z) (pid : Z) : Prop :=
  exists digits, f = str "heapviz_shm_" ++ digits /\ digits <> [] /\
    Forall (fun c => is_digit c = true) digits /\ dec_value digits = pid /\ pid <= 0x7FFFFFFF.

Lemma digits_loop_inv l : forall v pid, digits_loop v l = Some pid -> v <= 0x7FFFFFFF ->
  Forall (fun c => is_digit c = true) l /\ foldl (fun v c => v * 10 + (c - 48)) v l = pid /\ pid <= 0x7FFFFFFF.
Proof.
  induction l as [|c l IH]; intros v pid; cbn [digits_loop foldl]; [by intros [= <-]|].
  destruct (_ || _) eqn:E; [done|]. destruct (Z.ltb_spec 0x7FFFFFFF (v * 10 + (c - 48))); [done|].
  intros Hd _. destruct (IH _ _ Hd ltac:(lia)) as (H1 & H2 & H3). split; [|done]. constructor; [|done].
  unfold is_digit. bprop. apply andb_true_intro. rewrite !Z.leb_le. lia.
Qed.

Lemma dec_value_nonneg l : Forall (fun c => is_digit c = true) l -> 0 <= dec_value l.
Proof.
  intros Hl. unfold dec_value. enough (forall v, 0 <= v -> 0 <= foldl (fun v c => v * 10 + (c - 48)) v l) as H by by apply H.
  induction Hl as [|c l Hc Hl IH]; intros v Hv; cbn [foldl]; [done|]. apply IH. unfold is_digit in Hc. bprop. lia.
Qed.

Lemma parse_pid_spec f pid : parse_pid f = Some pid <-> segment_of f pid.
Proof.
  split.
  - intros (digits & -> & Hne & Hd)%parse_pid_inv. exists digits.
    destruct (digits_loop_inv _ _ _ Hd ltac:(lia)) as (H1 & H2 & H3). by repeat split.
  - intros (digits & -> & Hne & Hall & Hv & Hmax). change (str "heapviz_shm_") with kEntryPrefix.
    rewrite parse_pid_prefix, decide_False by done. pose proof (dec_value_nonneg digits Hall). unfold dec_value in *.
    rewrite digits_loop_value; [by rewrite Hv|lia|done|lia].
Qed.

(** The process is gone: there is none with that id. *)
Definition process_gone (sys : System) (pid : Z) : Prop := pid = 0 \/ sys_kill sys pid = Some ESRCH.

Lemma pid_alive_spec sys pid : 0 <= pid -> pid_alive sys pid = false <-> process_gone sys pid.
Proof.
  intros Hp. unfold pid_alive, process_gone. destruct (Z.leb_spec pid 0); [split; [left; lia|done]|].
  destruct (sys_kill sys pid) as [e|].
  - rewrite negb_false_iff, Z.eqb_eq. split; [by intros ->; right|intros [?|[= ->]]; [lia|done]].
  - split; [done|intros [?|?]; [lia|done]].
Qed.

(** The files the cleaner may remove: segments whose producer is gone. *)
Definition stale (sys : System) (f : list Z) : Prop := exists pid, segment_of f pid /\ process_gone sys pid.

Lemma stale_parsed sys f : stale sys f <-> exists pid, parse_pid f = Some pid /\ pid_alive sys pid = false.
Proof.
  assert (forall pid, segment_of f pid -> 0 <= pid) as Hn
    by (intros pid (ds & _ & _ & Hd & <- & _); by apply dec_value_nonneg).
  split; intros (pid & Hs & Hg); exists pid.
  - split; [by apply parse_pid_spec|]. apply pid_alive_spec; [by apply Hn|done].
  - apply parse_pid_spec in Hs. split; [done|]. apply (pid_alive_spec sys pid); [by apply Hn|done].
Qed.
#[export] Instance stale_dec sys f : Decision (stale sys f).
Proof.
  destruct (parse_pid f) as [pid|] eqn:E; [destruct (pid_alive sys pid) eqn:Ea|].
  - right. intros (p & Hp & Hd)%stale_parsed. congruence.
  - left. apply stale_parsed. by exists pid.
  - right. intros (p & Hp & _)%stale_parsed. congruence.
Defined.

Lemma list_elem_of_segments sys names s :
  s ∈ list_segments sys (Some names) <->
  exists pid, seg_name s ∈ names /\ parse_pid (seg_name s) = Some pid /\
    s = mkSegment (seg_name s) pid (default 0 (sys_stat sys (seg_name s))) (pid_alive sys pid).
Proof.
  unfold list_segments. rewrite list_elem_of_omap. split.
  - intros (n & Hn & Hs). destruct (parse_pid n) as [pid|] eqn:E; [|done]. injection Hs as <-.
    exists pid. done.
  - intros (pid & Hn & Hp & Hs). exists (seg_name s). split; [done|]. rewrite Hp. by rewrite <- Hs.
Qed.

(** The removals of a list of segments. *)
Lemma reap_fold_files sys dry segs files removed freed f :
  f ∈ (foldl (reap_step sys dry) (files, removed, freed) segs).1.1 <->
  f ∈ files /\ ~ (dry = false /\ sys_unlink sys f = true /\
    exists s, s ∈ segs /\ seg_name s = f /\ seg_owner_alive s = false).
Proof.
  revert files removed freed. induction segs as [|s segs IH]; intros files removed freed; cbn [foldl].
  { cbn. split; [|tauto]. intros Hf. split; [done|]. intros (_ & _ & s & Hs & _). by apply elem_of_nil in Hs. }
  assert (forall P : Prop, (exists t, t ∈ s :: segs /\ seg_name t = f /\ seg_owner_alive t = false) <->
    (seg_name s = f /\ seg_owner_alive s = false) \/
    exists t, t ∈ segs /\ seg_name t = f /\ seg_owner_alive t = false) as Hex.
  { intros _. split.
    - intros (t & [-> | Ht]%elem_of_cons & ?); [by left|right; by exists t].
    - intros [[? ?]|(t & ? & ?)]; [exists s|exists t]; (split; [|done]); [left|by right]. }
  rewrite (Hex True). clear Hex. unfold reap_step at 2.
  destruct (seg_owner_alive s) eqn:Ea; [rewrite IH; intuition congruence|].
  destruct dry; [rewrite IH; intuition congruence|].
  destruct (sys_unlink sys (seg_name s)) eqn:Eu; rewrite IH.
  - rewrite list_elem_of_filter. destruct (decide (f = seg_name s)) as [->|Hne]; intuition congruence.
  - destruct (decide (f = seg_name s)) as [->|Hne]; intuition congruence.
Qed.

(** What a run takes: the stale files, all of them when only counting, else
    those the system lets go. *)
Definition takes (sys : System) (dry : bool) (f : list Z) : Prop :=
  stale sys f /\ (dry = true \/ sys_unlink sys f = true).
#[export] Instance takes_dec sys dry f : Decision (takes sys dry f).
Proof. apply _. Defined.

Lemma reap_fold_counts sys dry names files removed freed :
  let r := foldl (reap_step sys dry) (files, removed, freed) (list_segments sys (Some names)) in
  let l := filter (takes sys dry) names in
  r.1.2 = removed + Z.of_nat (length l) /\
  u64 r.2 = freed ⊞ sum_by (fun f => default 0 (sys_stat sys f)) l.
Proof.
  revert files removed freed. induction names as [|f names IH]; intros files removed freed.
  { cbn. split; [lia|f_equal; lia]. }
  unfold list_segments in *. cbn [omap list_omap]. rewrite filter_cons.
  destruct (parse_pid f) as [pid|] eqn:Ep.
  2: { rewrite decide_False; [apply IH|]. intros [(p & Hp & _)%stale_parsed _]. congruence. }
  cbn [foldl]. unfold reap_step at 2 4. cbn [seg_owner_alive seg_name seg_bytes].
  assert (takes sys dry f <-> pid_alive sys pid = false /\ (dry = true \/ sys_unlink sys f = true)) as Ht.
  { unfold takes. rewrite stale_parsed, Ep. split; [|intros [? ?]; split; [by exists pid|done]].
    intros [(p & [= <-] & ?) ?]. done. }
  destruct (pid_alive sys pid) eqn:Ea; [rewrite decide_False by (rewrite Ht; intuition congruence); exact (IH _ _ _)|].
  destruct dry; [|destruct (sys_unlink sys f) eqn:Eu].
  3: { rewrite decide_False by (rewrite Ht; intuition congruence). exact (IH _ _ _). }
  all: rewrite decide_True by (rewrite Ht; intuition); cbv zeta in IH |- *;
    match goal with |- context [foldl _ (?fs, _, _)] => destruct (IH fs (removed + 1)
      (freed ⊞ default 0 (sys_stat sys f))) as [-> ->] end;
    rewrite u64_add_l, sum_by_cons; cbn [length]; split; [lia|f_equal; lia].
Qed.

(** C39: Cleaning up never harms a live target.  A run removes exactly the files
    of [/dev/shm] that are named as a segment, the prefix followed by a decimal
    process id, of a process the system says does not exist, and that it lets
    the program unlink; every other file, a foreign one or that of a process
    which exists (also one that may not be signalled), is still there.  A dry
    run removes nothing.  The count and the bytes reported are those of the
    files taken, or of all stale ones in a dry run. *)
Theorem reap_exact sys dry names old :
  let '(files, removed, freed) := reap_stale_segments sys dry (Some names) (Some old) in
  (forall f, f ∈ files <-> f ∈ names /\ ~ (dry = false /\ takes sys dry f)) /\
  removed = Z.of_nat (length (filter (takes sys dry) names)) /\
  u64 <$> freed = Some (u64 (sum_by (fun f => default 0 (sys_stat sys f)) (filter (takes sys dry) names))).
Proof.
  unfold reap_stale_segments. cbn [default from_option].
  pose proof (reap_fold_counts sys dry names names 0 0) as Hc.
  pose proof (fun f => reap_fold_files sys dry (list_segments sys (Some names)) names 0 0 f) as Hf.
  cbv zeta in Hc. destruct (foldl _ _ _) as [[files removed] freed]. cbn [fst snd] in *.
  destruct Hc as [-> Hc]. split; [|split; [lia|cbn; by rewrite Hc]].
  intros f. rewrite Hf. clear Hf Hc.
  assert (f ∈ names -> (exists s, s ∈ list_segments sys (Some names) /\ seg_name s = f /\
    seg_owner_alive s = false) <-> stale sys f) as Hst.
  { intros Hin. rewrite stale_parsed. split.
    - intros (s & (pid & _ & Hp & Hs)%list_elem_of_segments & <- & Ha).
      exists pid. split; [done|]. rewrite Hs in Ha. done.
    - intros (pid & Hp & Ha). exists (mkSegment f pid (default 0 (sys_stat sys f)) (pid_alive sys pid)).
      split; [apply list_elem_of_segments; by exists pid|done]. }
  unfold takes. split; intros [Hin Hn]; (split; [done|]); specialize (Hst Hin); intuition congruence.
Qed.

(** Process 41 is gone, 42 exists but is someone else's. *)
Definition demo_system : System :=
  mkSystem (fun _ => Some 4096) (fun pid => if pid =? 41 then Some ESRCH else Some 1) (fun _ => true).
Lemma reap_exact_witness :
  let files := (reap_stale_segments demo_system false
    (Some [str "heapviz_shm_41"; str "heapviz_shm_42"; str "heapviz_shm_41x"]) (Some 0)).1.1 in
  str "heapviz_shm_42" ∈ files /\ str "heapviz_shm_41" ∉ files.
Proof.
  cbv zeta. pose proof (reap_exact demo_system false [str "heapviz_shm_41"; str "heapviz_shm_42"; str "heapviz_shm_41x"] 0) as H.
  destruct (reap_stale_segments _ _ _ _) as [[files removed] freed]. destruct H as (Hf & _ & _). cbn [fst].
  split; rewrite Hf.
  - split; [set_solver|]. intros [_ [Ht _]]. apply stale_parsed in Ht as (pid & Hp & Ha). vm_compute in Hp. injection Hp as <-.
    by vm_compute in Ha.
  - intros [_ Hn]. apply Hn. split; [done|]. split; [|by right]. apply stale_parsed. exists 41. by split; vm_compute.
Defined.
