(* ===== verification/Fragmentation.v ===== *)
(** * External fragmentation (src/src/tui/fragmentation.h, fragmentation.cpp)

    A pass over the chunk table on a timer: per region the span the live chunks
    cover and the bytes they use, the share of holes, and the largest hole
    between two neighbours of one region. *)

From S2P Require Import Prelude ChunkTable ProcMaps RegionMap ChunkReader.

Definition kFragIntervalMs : Z := 250.
Definition kFragMaxSorted : Z := Z.shiftl 1 18.

Record FragReport := mkFrag {
  fr_span_bytes : Z;
  fr_used_bytes : Z;
  fr_gap_bytes : Z;
  fr_largest_gap : Z;
  fr_chunks : Z;
  fr_outside : Z;
  fr_regions : Z;
  fr_largest_gap_known : bool;
  fr_percent : Z
}.
Definition kNoReport : FragReport := mkFrag 0 0 0 0 0 0 0 false (-1).

Record RegionAcc := mkAcc { a_lo : Z; a_hi : Z; a_used : Z; a_chunks : Z }.
Definition kNoAcc : RegionAcc := mkAcc 0 0 0 0.

Record Extent := mkExtent { x_start : Z; x_end : Z }.
#[export] Instance Extent_eq_dec : EqDecision Extent.
Proof. solve_decision. Defined.
#[export] Instance Span_eq_dec : EqDecision Span.
Proof. solve_decision. Defined.

Record FragAnalyzer := mkAnalyzer {
  fa_report : FragReport;
  fa_interval_ms : Z;
  fa_last_ms : Z;
  fa_ran : bool;
  fa_max_sorted : Z;
  fa_acc : list RegionAcc;
  fa_extents : list Extent
}.
Definition new_analyzer : FragAnalyzer :=
  mkAnalyzer kNoReport kFragIntervalMs 0 false kFragMaxSorted [] [].

Definition set_interval (fa : FragAnalyzer) (ms : Z) : FragAnalyzer :=
  mkAnalyzer (fa_report fa) ms (fa_last_ms fa) (fa_ran fa) (fa_max_sorted fa) (fa_acc fa) (fa_extents fa).
Definition set_max_sorted (fa : FragAnalyzer) (n : Z) : FragAnalyzer :=
  mkAnalyzer (fa_report fa) (fa_interval_ms fa) (fa_last_ms fa) (fa_ran fa) n (fa_acc fa) (fa_extents fa).

Definition due (fa : FragAnalyzer) (now_ms : Z) : bool :=
  if negb (fa_ran fa) then true else fa_interval_ms fa <=? now_ms ⊟₃₂ fa_last_ms fa.

(** The position of a span in the vector it points into. *)
Definition span_index (m : RegionMap) (s : Span) : nat :=
  match list_find (fun x => x = s) (spans_ m) with Some (i, _) => i | None => 0 end.

(** A region's totals after one more extent. *)
Definition acc_add (a : RegionAcc) (e : Extent) : RegionAcc :=
  let used := a_used a ⊞ (x_end e ⊟ x_start e) in
  let n := a_chunks a ⊞ 1 in
  if a_chunks a =? 0 then mkAcc (x_start e) (x_end e) used n
  else
    mkAcc (if x_start e <? a_lo a then x_start e else a_lo a)
      (if a_hi a <? x_end e then x_end e else a_hi a) used n.

(** The counters and vectors the walk over the slots writes. *)
Record Pass := mkPass { p_chunks : Z; p_outside : Z; p_acc : list RegionAcc; p_extents : list Extent }.

Definition measure (m : RegionMap) (collect : bool) (p : Pass) (c : Chunk) : Pass :=
  if negb (bool_decide (c_state c = kChunkLive)) || (c_key c =? 0) then p
  else
    match span_at_addr m (c_key c) with
    | None => mkPass (p_chunks p) (p_outside p ⊞ 1) (p_acc p) (p_extents p)
    | Some s =>
        let ri := span_index m s in
        let start := c_key c in
        let end0 := start ⊞ c_usable c ⊞ kChunkMinOverheadBytes in
        let end' := if s_end s <? end0 then s_end s else end0 in
        if end' <=? start then p
        else
          mkPass (p_chunks p ⊞ 1) (p_outside p)
            (alter (fun a => acc_add a (mkExtent start end')) ri (p_acc p))
            (if collect then p_extents p ++ [mkExtent start end'] else p_extents p)
    end.

(** The sums over the regions that hold a chunk. *)
Definition sum_region (acc : Z * Z * Z) (a : RegionAcc) : Z * Z * Z :=
  let '(regions, span, used) := acc in
  if a_chunks a =? 0 then acc
  else (regions + 1, span ⊞ (a_hi a ⊟ a_lo a), used ⊞ a_used a).

(** The ordered walk; the cursor [ri] is the suffix of the spans it stands at. *)
Fixpoint skip_spans (spans : list Span) (addr : Z) : list Span :=
  match spans with
  | [] => []
  | s :: rest => if s_end s <=? addr then skip_spans rest addr else spans
  end.

Fixpoint gap_loop (spans : list Span) (exts : list Extent) (largest : Z) : Z :=
  match exts with
  | a :: ((b :: _) as rest) =>
      match skip_spans spans (x_start a) with
      | [] => largest
      | (s :: _) as spans =>
          if s_end s <=? x_start b then gap_loop spans rest largest
          else
            gap_loop spans rest
              (if x_end a <? x_start b then
                 let hole := x_start b ⊟ x_end a in if largest <? hole then hole else largest
               else largest)
      end
  | _ => largest
  end.

Definition by_start (a b : Extent) : Prop := x_start a <= x_start b.
#[export] Instance by_start_dec : RelDecision by_start.
Proof. intros a b. unfold by_start. apply _. Defined.
#[export] Instance by_start_total : Total by_start.
Proof. intros a b. unfold by_start. lia. Qed.
#[export] Instance by_start_trans : Transitive by_start.
Proof. intros a b c. unfold by_start. lia. Qed.

Definition analyze (fa : FragAnalyzer) (t : ChunkTable) (m : RegionMap) (now_ms : Z)
    : FragAnalyzer * bool :=
  if negb (due fa now_ms) then (fa, false)
  else
    let prev := fa_report fa in
    let nr := length (spans_ m) in
    let collect := negb (nr =? 0)%nat && (size_ t <=? fa_max_sorted fa) in
    let p := foldl (measure m collect)
               (mkPass 0 0 (replicate nr kNoAcc) (if collect then [] else fa_extents fa)) (slots_ t) in
    let '(regions, span, used) := foldl sum_region (0, 0, 0) (p_acc p) in
    let gap := if used <? span then span - used else 0 in
    let percent := if negb (span =? 0) then (gap ⊠ 100) / span else -1 in
    let sorted := if collect then merge_sort by_start (p_extents p) else p_extents p in
    let known := collect && negb (length (p_extents p) =? 0)%nat in
    let largest := if known then gap_loop (spans_ m) sorted 0 else 0 in
    let report := mkFrag span used gap largest (p_chunks p) (p_outside p) regions known percent in
    (mkAnalyzer report (fa_interval_ms fa) now_ms true (fa_max_sorted fa) (p_acc p) sorted,
     negb (percent =? fr_percent prev) || negb (largest =? fr_largest_gap prev) ||
     negb (eqb known (fr_largest_gap_known prev))).

(** ** Disjoint extents *)

Definition x_len (e : Extent) : Z := x_end e - x_start e.
Definition apart (a b : Extent) : Prop := x_end a <= x_start b \/ x_end b <= x_start a.
Definition all_apart (l : list Extent) : Prop := forall a b, a ∈ l -> b ∈ l -> a <> b -> apart a b.

Lemma all_apart_perm l l' : l ≡ₚ l' -> all_apart l -> all_apart l'.
Proof. intros Hp H a b. rewrite <- !Hp. apply H. Qed.

Lemma all_apart_tail e l : all_apart (e :: l) -> all_apart l.
Proof. intros H a b ? ?. apply H; by right. Qed.

(** Disjoint extents inside a range use no more than the range. *)
Lemma apart_fit l lo hi :
  NoDup l -> all_apart l -> lo <= hi ->
  Forall (fun e => lo <= x_start e /\ x_start e < x_end e /\ x_end e <= hi) l ->
  sum_by x_len l <= hi - lo.
Proof.
  intros Hnd Ha Hle Hf.
  pose proof (merge_sort_Permutation by_start l) as Hp.
  pose proof (StronglySorted_merge_sort by_start l) as Hs.
  rewrite <- Hp in Hnd |- *. apply (all_apart_perm _ _ (symmetry Hp)) in Ha. rewrite <- Hp in Hf.
  clear Hp. revert lo Hle Hf. induction Hs as [|e s Hs IH He]; intros lo Hle Hf; [cbn; lia|].
  apply NoDup_cons in Hnd as [Hni Hnd]. apply Forall_cons in Hf as [(H1 & H2 & H3) Hf].
  rewrite sum_by_cons. enough (sum_by x_len s <= hi - x_end e) by (unfold x_len at 1; lia).
  apply IH; [done|by eapply all_apart_tail|done|].
  rewrite Forall_forall in *. intros b Hb. destruct (Hf b Hb) as (? & ? & ?). split; [|done].
  specialize (He b Hb). unfold by_start in He.
  destruct (Ha e b) as [|]; [left|by right|intros ->; by apply Hni|lia|lia].
Qed.

(** A hole between two of them that no other enters fits as well. *)
Lemma apart_fit_hole l lo hi x y :
  NoDup l -> all_apart l -> lo <= hi ->
  Forall (fun e => lo <= x_start e /\ x_start e < x_end e /\ x_end e <= hi) l ->
  x ∈ l -> y ∈ l -> x_end x < x_start y ->
  (forall e, e ∈ l -> x_start e <= x_start x \/ x_start y <= x_start e) ->
  sum_by x_len l + (x_start y - x_end x) <= hi - lo.
Proof.
  intros Hnd Hap Hle Hf Hx Hy Hxy Hbetween.
  assert (forall e, e ∈ l -> apart (mkExtent (x_end x) (x_start y)) e) as Hsep.
  { rewrite Forall_forall in Hf. intros e He. unfold apart. cbn.
    destruct (Hbetween e He) as [Hlo|Hhi]; [right|by left].
    destruct (decide (e = x)) as [->|Hnx]; [lia|]. pose proof (Hf e He). pose proof (Hf x Hx).
    destruct (Hap e x He Hx Hnx); lia. }
  enough (sum_by x_len (mkExtent (x_end x) (x_start y) :: l) <= hi - lo) as Hh.
  { rewrite sum_by_cons in Hh. unfold x_len at 1 in Hh. cbn in Hh. lia. }
  apply apart_fit; [| |done|].
  - constructor; [|done]. intros Hin'. destruct (Hsep _ Hin'); cbn in *; lia.
  - intros p q [-> | Hp]%elem_of_cons [-> | Hq]%elem_of_cons Hpq; [done|by apply Hsep| |by apply Hap].
    destruct (Hsep p Hp); [by right|by left].
  - constructor; [|done]. cbn. rewrite Forall_forall in Hf. pose proof (Hf x Hx). pose proof (Hf y Hy). lia.
Qed.

(** ** What a pass measures *)

(** The region index and the extent of a chunk that counts. *)
Definition extent_in (m : RegionMap) (c : Chunk) : option (nat * Extent) :=
  if negb (bool_decide (c_state c = kChunkLive)) || (c_key c =? 0) then None
  else
    match span_at_addr m (c_key c) with
    | None => None
    | Some s =>
        let end0 := c_key c ⊞ c_usable c ⊞ kChunkMinOverheadBytes in
        let end' := if s_end s <? end0 then s_end s else end0 in
        if end' <=? c_key c then None
        else Some (span_index m s, mkExtent (c_key c) end')
    end.

Definition measured (m : RegionMap) (l : list Chunk) : list (nat * Extent) := omap (extent_in m) l.
Definition in_region (i : nat) (E : list (nat * Extent)) : list Extent :=
  (filter (fun p => p.1 = i) E).*2.
Definition acc_of (l : list Extent) : RegionAcc := foldl acc_add kNoAcc l.

Lemma measure_fold m collect x0 l p :
  p = foldl (measure m collect) (mkPass 0 0 (replicate (length (spans_ m)) kNoAcc) x0) l ->
  let E := measured m l in
  p_chunks p = u64 (Z.of_nat (length E)) /\
  length (p_acc p) = length (spans_ m) /\
  (forall i a, p_acc p !! i = Some a -> a = acc_of (in_region i E)) /\
  (collect = true -> p_extents p = x0 ++ E.*2).
Proof.
  revert p. induction l as [|c l IH] using rev_ind; intros p ->.
  { cbn. rewrite length_replicate, app_nil_r. repeat split.
    intros i a Hi. by apply lookup_replicate in Hi as [-> _]. }
  rewrite foldl_app. cbn [foldl]. set (p0 := foldl _ _ l) in *.
  destruct (IH p0 eq_refl) as (Hc & Hl & Ha & Hx). clear IH. clearbody p0.
  unfold measured in *. rewrite omap_app. cbn [omap list_omap].
  set (E := omap (extent_in m) l) in *. clearbody E. unfold measure, extent_in.
  destruct (negb _ || _); [by rewrite app_nil_r|].
  destruct (span_at_addr m (c_key c)) as [s|]; [|cbn; by rewrite app_nil_r].
  cbv zeta. set (e' := if s_end s <? _ then _ else _). destruct (e' <=? c_key c); [by rewrite app_nil_r|].
  cbn [p_chunks p_acc p_extents]. rewrite length_alter. split; [|split; [done|split]].
  - rewrite Hc, u64_add_l, length_app. f_equal. cbn. lia.
  - intros i a Hi. unfold in_region. rewrite filter_app, fmap_app, filter_cons, filter_nil. cbn [fst].
    destruct (decide (span_index m s = i)) as [<-|Hne].
    + rewrite list_lookup_alter_eq in Hi. destruct (p_acc p0 !! span_index m s) as [a0|] eqn:E0; [|done].
      injection Hi as <-. rewrite (Ha _ _ E0). unfold acc_of. rewrite foldl_app. done.
    + rewrite list_lookup_alter_ne in Hi by done. cbn. rewrite app_nil_r. by apply Ha.
  - intros ->. rewrite (Hx eq_refl), fmap_app, app_assoc. done.
Qed.

(** The totals of a region are the hull and the sum of its extents. *)
Lemma acc_of_spec l :
  Z.of_nat (length l) < 2 ^ 64 -> Forall (fun e => 0 <= x_start e < x_end e /\ x_end e < 2 ^ 64) l ->
  let a := acc_of l in
  a_chunks a = Z.of_nat (length l) /\ a_used a = u64 (sum_by x_len l) /\
  Forall (fun e => a_lo a <= x_start e /\ x_end e <= a_hi a) l /\
  (l <> [] -> (exists e, e ∈ l /\ x_start e = a_lo a) /\ exists e, e ∈ l /\ x_end e = a_hi a).
Proof.
  induction l as [|e l IH] using rev_ind; intros Hlen Hf; [by cbn|].
  rewrite length_app in Hlen. cbn in Hlen. rewrite Nat2Z.inj_add in Hlen.
  apply Forall_app in Hf as [Hf [[He1 He2] _]%Forall_cons].
  destruct (IH ltac:(lia) Hf) as (Hc & Hu & Hb & Hex). clear IH. unfold acc_of in *. rewrite foldl_app.
  cbn [foldl]. set (a := foldl acc_add kNoAcc l) in *. clearbody a.
  assert (u64 (a_used a + u64 (x_end e - x_start e)) = u64 (sum_by x_len (l ++ [e]))) as Eu.
  { rewrite u64_add_r, Hu, u64_add_l, sum_by_app, sum_by_cons. cbn. unfold x_len at 3. f_equal. lia. }
  unfold acc_add. rewrite Hc, length_app, Nat2Z.inj_add. cbn [length].
  rewrite (u64_small (Z.of_nat (length l) + 1)) by (unfold is_u64; lia).
  destruct (Z.eqb_spec (Z.of_nat (length l)) 0) as [Hz|Hz].
  - destruct l; [|cbn in Hz; lia]. cbn [app a_chunks a_used a_lo a_hi].
    split; [done|]. split; [exact Eu|]. split; [by constructor|].
    intros _. split; exists e; (split; [left|done]).
  - cbn [a_chunks a_used a_lo a_hi]. split; [done|]. split; [done|].
    destruct Hex as [(e1 & Hin1 & E1) (e2 & Hin2 & E2)]; [by intros ->|].
    split.
    + apply Forall_app. split; [|constructor; [|done]].
      * eapply Forall_impl; [done|]. intros b [? ?].
        destruct (Z.ltb_spec (x_start e) (a_lo a)), (Z.ltb_spec (a_hi a) (x_end e)); lia.
      * destruct (Z.ltb_spec (x_start e) (a_lo a)), (Z.ltb_spec (a_hi a) (x_end e)); lia.
    + intros _. split.
      * destruct (Z.ltb_spec (x_start e) (a_lo a)); [exists e|exists e1]; set_solver.
      * destruct (Z.ltb_spec (a_hi a) (x_end e)); [exists e|exists e2]; set_solver.
Qed.

(** ** The ordered walk finds the largest hole *)

Section Spans.
Context (m : RegionMap).
Hypothesis Hasc : ascending s_start s_end (spans_ m).
Hypothesis Hspans : Forall (fun s => 0 <= s_start s < s_end s /\ s_end s < 2 ^ 64) (spans_ m).

Lemma spans_ordered : Forall (fun s => s_start s <= s_end s) (spans_ m).
Proof. eapply Forall_impl; [exact Hspans|]. cbn. lia. Qed.

Lemma span_found a s :
  span_at_addr m a = Some s <-> s ∈ spans_ m /\ s_start s <= a < s_end s.
Proof.
  unfold span_at_addr. rewrite <- (bsearch_all s_start s_end _ Hasc spans_ordered).
  pose proof (bsearch_total s_start s_end _ Hasc spans_ordered a) as Ht.
  destruct (bsearch _ _ _ _ _ _ _) as [[x|]|]; cbn; split; congruence.
Qed.

Lemma span_index_lookup s : s ∈ spans_ m -> spans_ m !! span_index m s = Some s.
Proof.
  intros Hs. unfold span_index. destruct (list_find _ _) as [[i x]|] eqn:E.
  - apply list_find_Some in E as (Hi & -> & _). done.
  - apply list_find_None in E. rewrite Forall_forall in E. by destruct (E s Hs).
Qed.

(** Both starts lie in one span. *)
Definition same_span (a b : Extent) : Prop :=
  exists s, s ∈ spans_ m /\ s_start s <= x_start a < s_end s /\ x_start b < s_end s.

(** The first span whose end is above an address inside a span is that span. *)
Lemma skip_spans_at pre sp a s :
  spans_ m = pre ++ sp -> Forall (fun t => s_end t <= a) pre ->
  s ∈ spans_ m -> s_start s <= a < s_end s ->
  exists pre' rest, skip_spans sp a = s :: rest /\ spans_ m = pre' ++ s :: rest /\
    Forall (fun t => s_end t <= a) pre'.
Proof.
  revert pre. induction sp as [|t sp IH]; intros pre Hp Hpre Hs Ha.
  { exfalso. rewrite Hp, app_nil_r in Hs. rewrite Forall_forall in Hpre. specialize (Hpre s Hs). lia. }
  cbn [skip_spans]. destruct (Z.leb_spec (s_end t) a) as [Hle|Hgt].
  - apply (IH (pre ++ [t])); [by rewrite <- app_assoc|by apply Forall_app; split; [|constructor]|done|done].
  - exists pre, sp. enough (t = s) as -> by done.
    assert (spans_ m !! length pre = Some t) as Ht by (by rewrite Hp, list_lookup_middle).
    apply list_elem_of_lookup in Hs as [j Hj].
    destruct (decide (j < length pre)%nat) as [Hlt|Hge].
    { rewrite Hp, lookup_app_l in Hj by done. apply list_elem_of_lookup_2 in Hj.
      rewrite Forall_forall in Hpre. specialize (Hpre s Hj). lia. }
    destruct (decide (j = length pre)) as [->|Hne]; [congruence|].
    pose proof (Hasc (length pre) j t s Ht Hj ltac:(lia)). lia.
Qed.

Lemma gap_loop_cons sp a b X g :
  gap_loop sp (a :: b :: X) g =
  match skip_spans sp (x_start a) with
  | [] => g
  | (s :: _) as sp =>
      if s_end s <=? x_start b then gap_loop sp (b :: X) g
      else
        gap_loop sp (b :: X)
          (if x_end a <? x_start b then
             let hole := x_start b ⊟ x_end a in if g <? hole then hole else g
           else g)
  end.
Proof. done. Qed.

Definition adjacent (X : list Extent) (a b : Extent) : Prop := exists l1 l2, X = l1 ++ a :: b :: l2.

Lemma adjacent_cons a b X x y :
  adjacent (a :: b :: X) x y <-> (x = a /\ y = b) \/ adjacent (b :: X) x y.
Proof.
  split.
  - intros ([|z l1] & l2 & E); cbn in E; injection E as ?; [by left; simplify_eq|right].
    by exists l1, l2.
  - intros [[-> ->] | (l1 & l2 & E)]; [by exists [], X|]. exists (a :: l1), l2. by rewrite E.
Qed.

Definition hole_between (a b : Extent) : Prop := same_span a b /\ x_end a < x_start b.

Lemma gap_loop_spec X pre sp g :
  spans_ m = pre ++ sp ->
  (forall a, head X = Some a -> Forall (fun t => s_end t <= x_start a) pre) ->
  StronglySorted by_start X ->
  Forall (fun e => 0 <= x_start e < x_end e /\ exists s, s ∈ spans_ m /\ s_start s <= x_start e /\ x_end e <= s_end s) X ->
  let r := gap_loop sp X g in
  g <= r /\
  (forall a b, adjacent X a b -> hole_between a b -> x_start b - x_end a <= r) /\
  (r = g \/ exists a b, adjacent X a b /\ hole_between a b /\ r = x_start b - x_end a).
Proof.
  revert pre sp g. induction X as [|a X IH]; intros pre sp g Hp Hpre Hs Hf.
  { cbn. split; [lia|]. split; [by intros a b ([|] & ? & ?)|by left]. }
  destruct X as [|b X].
  { cbn. split; [lia|]. split; [by intros x y ([|? [|]] & ? & ?)|by left]. }
  apply StronglySorted_inv in Hs as [Hs Hab]. apply Forall_cons in Hab as [Hab _]. unfold by_start in Hab.
  apply Forall_cons in Hf as [[Ha (s & Hin & Hs1 & Hs2)] Hf].
  pose proof Hf as Hb. apply Forall_cons in Hb as [[Hb (sb & Hbin & Hb1 & Hb2)] _].
  destruct (skip_spans_at pre sp (x_start a) s Hp (Hpre a eq_refl) Hin ltac:(lia))
    as (pre' & rest & Esk & Hp' & Hpre').
  assert (forall x, head (b :: X) = Some x -> Forall (fun t => s_end t <= x_start x) pre') as Hnext.
  { intros x [= <-]. eapply Forall_impl; [done|]. cbn. lia. }
  rewrite gap_loop_cons, Esk.
  assert (hole_between a b <-> x_start b < s_end s /\ x_end a < x_start b) as Hhole.
  { unfold hole_between, same_span. split; intros [H1 H2]; (split; [|done]).
    - destruct H1 as (t & Ht & Hta & Htb). enough (t = s) as -> by done.
      by eapply (ascending_unique s_start s_end _ Hasc); [exact Ht|exact Hin|exact Hta|lia].
    - exists s. split; [done|lia]. }
  rewrite Forall_forall in Hspans. pose proof (Hspans sb Hbin) as Hsb. rewrite <- Forall_forall in Hspans.
  destruct (Z.leb_spec (s_end s) (x_start b)) as [Hfar|Hnear].
  - destruct (IH pre' (s :: rest) g Hp' Hnext Hs Hf) as (I1 & I2 & I3).
    split; [done|]. split.
    + intros x y [[-> ->] | Had]%adjacent_cons Hh; [apply Hhole in Hh; lia|by apply I2].
    + destruct I3 as [E3|(x & y & Had & ?)]; [left; exact E3|right; exists x, y; split; [|done]].
      apply adjacent_cons. by right.
  - set (g' := if x_end a <? x_start b then _ else g).
    destruct (IH pre' (s :: rest) g' Hp' Hnext Hs Hf) as (I1 & I2 & I3).
    assert (g <= g' /\ (x_end a < x_start b -> x_start b - x_end a <= g') /\
      (g' = g \/ x_end a < x_start b /\ g' = x_start b - x_end a)) as (G1 & G2 & G3).
    { subst g'. destruct (Z.ltb_spec (x_end a) (x_start b)) as [Hgap|]; [|split; [lia|split; [lia|by left]]].
      rewrite u64_small by (unfold is_u64; lia). cbv zeta.
      destruct (Z.ltb_spec g (x_start b - x_end a)); (split; [lia|split; [lia|]]); [by right|by left]. }
    split; [exact (Z.le_trans _ _ _ G1 I1)|]. split.
    + intros x y [[-> ->] | Had]%adjacent_cons Hh; [|by apply I2].
      apply Hhole in Hh as [_ Hh]. exact (Z.le_trans _ _ _ (G2 Hh) I1).
    + destruct I3 as [E3|(x & y & Had & ?)].
      * destruct G3 as [G3|[? G3]]; [left; exact (eq_trans E3 G3)|right]. exists a, b.
        split; [apply adjacent_cons; by left|]. split; [by apply Hhole|exact (eq_trans E3 G3)].
      * right. exists x, y. split; [|done]. apply adjacent_cons. by right.
Qed.

(** ** Live chunks with disjoint footprints *)

Definition live (c : Chunk) : Prop := c_state c = kChunkLive /\ c_key c <> 0.
Definition footprint_end (c : Chunk) : Z := c_key c + c_usable c + kChunkMinOverheadBytes.

(** Addresses in range, and no two live chunks share a byte. *)
Definition footprints_ok (l : list Chunk) : Prop :=
  Forall (fun c => live c -> 0 <= c_key c /\ 0 <= c_usable c /\ footprint_end c < 2 ^ 64) l /\
  forall i j c d, l !! i = Some c -> l !! j = Some d -> i <> j -> live c -> live d ->
    footprint_end c <= c_key d \/ footprint_end d <= c_key c.

Lemma footprints_ok_tail c l : footprints_ok (c :: l) -> footprints_ok l.
Proof.
  intros [Hf Hd]. split; [by apply Forall_cons in Hf as [_ Hf]|].
  intros i j x y Hi Hj Hne. apply (Hd (S i) (S j)); [done|done|congruence].
Qed.

Lemma extent_in_spec c i e :
  (live c -> 0 <= c_key c /\ 0 <= c_usable c /\ footprint_end c < 2 ^ 64) ->
  extent_in m c = Some (i, e) ->
  live c /\ x_start e = c_key c /\ x_start e < x_end e /\ x_end e <= footprint_end c /\
  exists s, spans_ m !! i = Some s /\ s_start s <= x_start e /\ x_end e <= s_end s.
Proof.
  intros Hc. unfold extent_in. destruct (_ || _) eqn:Eg; [done|]. bprop.
  match goal with H : bool_decide _ = true |- _ => apply bool_decide_eq_true in H end.
  assert (live c) as Hl by (by split). destruct (Hc Hl) as (Hk & Hu & Hfp).
  unfold footprint_end, kChunkMinOverheadBytes in *.
  destruct (span_at_addr m (c_key c)) as [s|] eqn:Es; [|done].
  apply span_found in Es as [Hin Hs].
  rewrite u64_add_l, u64_small by (unfold is_u64; lia). cbv zeta.
  destruct (Z.ltb_spec (s_end s) (c_key c + c_usable c + 8)) as [Hcl|Hcl].
  all: case_match eqn:Ele; [done|]; bprop; intros [= <- <-]; cbn [x_start x_end].
  all: split; [done|]; split; [done|]; split; [lia|]; split; [lia|]; exists s; split; [by apply span_index_lookup|lia].
Qed.

Lemma measured_elem l i e :
  footprints_ok l -> (i, e) ∈ measured m l ->
  0 <= x_start e < x_end e /\ x_end e < 2 ^ 64 /\
  exists s, spans_ m !! i = Some s /\ s_start s <= x_start e /\ x_end e <= s_end s.
Proof.
  intros [Hf _] (c & Hc & He)%list_elem_of_omap. rewrite Forall_forall in Hf. specialize (Hf c Hc).
  destruct (extent_in_spec c i e Hf He) as (Hl & ? & ? & ? & Hs).
  destruct (Hf Hl) as (? & ? & ?). split; [lia|]. split; [lia|done].
Qed.

Lemma measured_apart l :
  footprints_ok l -> NoDup (measured m l).*2 /\ all_apart (measured m l).*2.
Proof.
  unfold measured. induction l as [|c l IH]; intros Hok.
  { split; [constructor|by intros a b ?%elem_of_nil]. }
  destruct (IH (footprints_ok_tail _ _ Hok)) as [Hnd Hap]. clear IH. cbn [omap list_omap].
  destruct (extent_in m c) as [[i e]|] eqn:Ee; [|done]. rewrite fmap_cons. cbn [snd].
  destruct Hok as [Hf Hd]. apply Forall_cons in Hf as [Hc Hf].
  destruct (extent_in_spec c i e Hc Ee) as (Hl & Hs & Hlt & He & _).
  assert (forall b, b ∈ (omap (extent_in m) l).*2 -> apart e b /\ e <> b) as Hb.
  { intros b ([j b'] & -> & (d & Hd' & Ed)%list_elem_of_omap)%list_elem_of_fmap. cbn [snd].
    rewrite Forall_forall in Hf. destruct (extent_in_spec d j b' (Hf d Hd') Ed) as (Hl' & Hs' & Hlt' & He' & _).
    apply list_elem_of_lookup in Hd' as [k Hk].
    destruct (Hd 0%nat (S k) c d eq_refl Hk ltac:(done) Hl Hl'); unfold apart; split; try lia;
      intros ->; lia. }
  split.
  - constructor; [|done]. intros Hin. by destruct (Hb e Hin).
  - intros a b [-> | Ha]%elem_of_cons [-> | Hb']%elem_of_cons Hne; [done|by apply Hb| |by apply Hap].
    destruct (Hb a Ha) as [[|] _]; [by right|by left].
Qed.

(** ** The sums *)

Definition hull_of (a : RegionAcc) : Z := if a_chunks a =? 0 then 0 else a_hi a - a_lo a.
Definition used_of (a : RegionAcc) : Z := if a_chunks a =? 0 then 0 else a_used a.

Lemma sum_regions_spec l n s u :
  Forall (fun a => 0 <= used_of a <= hull_of a /\ (a_chunks a <> 0 -> 0 <= a_hi a - a_lo a)) l ->
  0 <= u <= s -> s + sum_by hull_of l < 2 ^ 64 ->
  exists k, foldl sum_region (n, s, u) l = (k, s + sum_by hull_of l, u + sum_by used_of l) /\
    0 <= sum_by used_of l <= sum_by hull_of l.
Proof.
  intros Hf. revert n s u. induction Hf as [|a l [Ha Hh] Hf IH]; intros n s u Hsu Hlt.
  { exists n. cbn. rewrite !Z.add_0_r. split; [done|lia]. }
  assert (0 <= sum_by hull_of l) as Hnn.
  { apply sum_by_nonneg. rewrite Forall_forall in Hf. intros b Hb. destruct (Hf b Hb) as [? _]. lia. }
  rewrite !sum_by_cons in *. cbn [foldl]. unfold sum_region at 2.
  assert (hull_of a = if a_chunks a =? 0 then 0 else a_hi a - a_lo a) as Eh by done.
  assert (used_of a = if a_chunks a =? 0 then 0 else a_used a) as Eu by done.
  rewrite Eh, Eu in *. clear Eh Eu. destruct (Z.eqb_spec (a_chunks a) 0) as [Hz|Hz].
  - destruct (IH n s u) as (k & -> & ?); [done|lia|]. exists k. rewrite !Z.add_0_l. done.
  - specialize (Hh Hz).
    rewrite (u64_small (a_hi a - a_lo a)) by (unfold is_u64; lia).
    rewrite (u64_small (s + _)), (u64_small (u + _)) by (unfold is_u64; lia).
    destruct (IH (n + 1) (s + (a_hi a - a_lo a)) (u + a_used a)) as (k & -> & ?); [lia|lia|].
    exists k. split; [f_equal; [f_equal|]; lia|lia].
Qed.

Lemma sum_by_ge {A} (f : A -> Z) l a : a ∈ l -> (forall b, b ∈ l -> 0 <= f b) -> f a <= sum_by f l.
Proof.
  induction l as [|b l IH]; intros Hin Hnn; [by apply elem_of_nil in Hin|]. rewrite sum_by_cons.
  assert (0 <= f b) by (apply Hnn; left).
  assert (0 <= sum_by f l) by (apply sum_by_nonneg; intros c Hc; apply Hnn; by right).
  apply elem_of_cons in Hin as [-> |Hin]; [lia|]. specialize (IH Hin).
  assert (f a <= sum_by f l) by (apply IH; intros c Hc; apply Hnn; by right). lia.
Qed.

(** The extents of one region. *)
Lemma in_region_sub i (E : list (nat * Extent)) : in_region i E `sublist_of` E.*2.
Proof. unfold in_region. apply fmap_sublist, sublist_filter. Qed.

Lemma in_region_elem i (E : list (nat * Extent)) e : e ∈ in_region i E <-> (i, e) ∈ E.
Proof.
  unfold in_region. rewrite list_elem_of_fmap. split.
  - intros ([j x] & -> & [? ?]%list_elem_of_filter). cbn in *. by subst.
  - intros He. exists (i, e). split; [done|]. by apply list_elem_of_filter.
Qed.

Section Regions.
Context (l : list Chunk) (Hok : footprints_ok l) (Hlen : Z.of_nat (length l) < 2 ^ 64).
Local Abbreviation E := (measured m l).

Lemma measured_length : Z.of_nat (length E) < 2 ^ 64.
Proof.
  eapply Z.le_lt_trans; [|exact Hlen]. apply inj_le. unfold measured. clear.
  induction l as [|c l' IH]; cbn; [done|]. destruct (extent_in m c); cbn; lia.
Qed.

(** What the totals of a region say of its extents. *)
Definition region_sound (L : list Extent) (s : Span) (a : RegionAcc) : Prop :=
  (a_chunks a = 0 <-> L = []) /\ used_of a = sum_by x_len L /\
  0 <= used_of a <= hull_of a /\ hull_of a <= s_end s - s_start s /\
  (L <> [] -> 0 < hull_of a) /\
  (forall x y, x ∈ L -> y ∈ L -> x_end x < x_start y ->
     (forall e, e ∈ L -> x_start e <= x_start x \/ x_start y <= x_start e) ->
     x_start y - x_end x <= hull_of a - used_of a).

Lemma acc_sound L s :
  NoDup L -> all_apart L -> Z.of_nat (length L) < 2 ^ 64 -> s_start s <= s_end s ->
  Forall (fun e => 0 <= x_start e < x_end e /\ x_end e < 2 ^ 64 /\
    s_start s <= x_start e /\ x_end e <= s_end s) L ->
  region_sound L s (acc_of L).
Proof.
  intros Hnd Hap Hlen' Hs Hf.
  destruct (acc_of_spec L) as (Hc & Hu & Hin & Hex); [done|eapply Forall_impl; [done|cbn; lia]|].
  set (a := acc_of L) in *. clearbody a.
  destruct (decide (L = [])) as [->|Hne].
  { unfold region_sound, used_of, hull_of. rewrite Hc.
    change (Z.of_nat (length []) =? 0) with true. cbv iota.
    split; [done|]. split; [done|]. split; [lia|]. split; [lia|]. split; [intros []; done|]. by intros x y ?%elem_of_nil. }
  assert (a_chunks a <> 0) as Hcne by (rewrite Hc; destruct L; [done|cbn; lia]).
  destruct (Hex Hne) as [(e1 & Hin1 & E1) (e2 & Hin2 & E2)].
  assert (Forall (fun e => a_lo a <= x_start e /\ x_start e < x_end e /\ x_end e <= a_hi a) L) as Hb.
  { rewrite !Forall_forall in *. intros e He. specialize (Hf e He). specialize (Hin e He). lia. }
  rewrite Forall_forall in Hf, Hin. pose proof (Hf e1 Hin1). pose proof (Hf e2 Hin2). pose proof (Hin e1 Hin1).
  assert (0 <= sum_by x_len L) as Hnn.
  { apply sum_by_nonneg. intros e He. specialize (Hf e He). unfold x_len. lia. }
  pose proof (apart_fit L (a_lo a) (a_hi a) Hnd Hap ltac:(lia) Hb) as Hle.
  unfold region_sound, used_of, hull_of. destruct (Z.eqb_spec (a_chunks a) 0); [done|].
  rewrite Hu, u64_small by (unfold is_u64; lia).
  split; [done|]. split; [done|]. split; [lia|]. split; [lia|]. split; [lia|].
  intros x y Hx Hy Hxy Hbetween.
  pose proof (apart_fit_hole L (a_lo a) (a_hi a) x y Hnd Hap ltac:(lia) Hb Hx Hy Hxy Hbetween). lia.
Qed.

Lemma region_acc_sound i s :
  spans_ m !! i = Some s -> region_sound (in_region i E) s (acc_of (in_region i E)).
Proof.
  intros Hs. destruct (measured_apart l Hok) as [Hnd Hap].
  pose proof (in_region_sub i E) as Hsub. apply acc_sound.
  - by eapply sublist_NoDup.
  - assert (forall x, x ∈ in_region i E -> x ∈ E.*2) as Hin.
    { intros x Hx. eapply elem_of_submseteq; [done|by apply sublist_submseteq]. }
    intros x y Hx Hy. apply Hap; by apply Hin.
  - eapply Z.le_lt_trans; [|exact measured_length]. apply inj_le. unfold in_region.
    rewrite length_fmap. apply length_filter.
  - rewrite Forall_lookup in Hspans. specialize (Hspans i s Hs). lia.
  - apply Forall_forall. intros e He%in_region_elem.
    destruct (measured_elem l i e Hok He) as (? & ? & s' & Hs' & ?). simplify_eq. lia.
Qed.

(** All regions together. *)
Definition accs : list RegionAcc := (fun i => acc_of (in_region i E)) <$> seq 0 (length (spans_ m)).

Lemma sum_seq_indicator (n i : nat) v : (i < n)%nat ->
  sum_by (fun j => if decide (i = j) then v else 0) (seq 0 n) = v.
Proof.
  assert (forall k, sum_by (fun j => if decide (i = j) then v else 0) (seq k n) =
    if decide (k <= i < k + n)%nat then v else 0) as H.
  { induction n as [|n IH]; intros k; cbn [seq]; [rewrite decide_False by lia; done|].
    rewrite sum_by_cons, IH. repeat case_decide; try lia. }
  intros Hi. rewrite H, decide_True by lia. done.
Qed.

Lemma sum_by_add {A} (f g : A -> Z) x : sum_by (fun a => f a + g a) x = sum_by f x + sum_by g x.
Proof. induction x as [|a x IH]; [done|]. rewrite !sum_by_cons, IH. lia. Qed.

(** Every measured extent is in exactly one region. *)
Lemma sum_partition (D : list (nat * Extent)) n :
  Forall (fun p => (p.1 < n)%nat) D ->
  sum_by (fun i => sum_by x_len (in_region i D)) (seq 0 n) = sum_by x_len D.*2.
Proof.
  induction 1 as [|[i e] D Hi _ IH].
  { cbn. clear. induction (seq 0 n) as [|a q IHq]; [done|]. by rewrite sum_by_cons, IHq. }
  rewrite fmap_cons, sum_by_cons, <- IH. cbn [snd fst] in *.
  rewrite <- (sum_seq_indicator n i (x_len e) Hi), <- sum_by_add.
  apply sum_by_ext. intros j _. unfold in_region. rewrite filter_cons. cbn [fst].
  case_decide; [rewrite fmap_cons, sum_by_cons; done|done].
Qed.

Lemma sum_by_fmap {A B} (f : B -> Z) (g : A -> B) x : sum_by f (g <$> x) = sum_by (fun a => f (g a)) x.
Proof. induction x as [|a x IH]; [done|]. rewrite fmap_cons, !sum_by_cons, IH. done. Qed.

Lemma accs_elem a : a ∈ accs -> exists i s, spans_ m !! i = Some s /\ a = acc_of (in_region i E) /\
  region_sound (in_region i E) s a.
Proof.
  intros (i & -> & Hi%elem_of_seq)%list_elem_of_fmap.
  destruct (lookup_lt_is_Some_2 (spans_ m) i) as [s Hs]; [lia|].
  exists i, s. split; [done|]. split; [done|]. by apply region_acc_sound.
Qed.

Lemma accs_used : sum_by used_of accs = sum_by x_len E.*2.
Proof.
  rewrite <- (sum_partition E (length (spans_ m))).
  - unfold accs. rewrite sum_by_fmap. apply sum_by_ext. intros i Hi%elem_of_seq.
    destruct (lookup_lt_is_Some_2 (spans_ m) i) as [s Hs]; [lia|].
    by destruct (region_acc_sound i s Hs) as (_ & -> & _).
  - apply Forall_forall. intros [i e] He.
    destruct (measured_elem l i e Hok He) as (_ & _ & s & Hs & _). by eapply lookup_lt_Some.
Qed.

Lemma accs_hull_le : sum_by hull_of accs <= sum_by (fun s => s_end s - s_start s) (spans_ m).
Proof.
  assert (forall k (sp : list Span), (forall j s, sp !! j = Some s -> spans_ m !! (k + j)%nat = Some s) ->
    sum_by hull_of ((fun i => acc_of (in_region i E)) <$> seq k (length sp)) <=
    sum_by (fun s => s_end s - s_start s) sp) as H.
  { intros k sp. revert k. induction sp as [|s sp IH]; intros k Hsp; [done|].
    cbn [length seq]. rewrite fmap_cons, !sum_by_cons.
    assert (spans_ m !! k = Some s) as Hk by (rewrite <- (Nat.add_0_r k); by apply Hsp).
    destruct (region_acc_sound k s Hk) as (_ & _ & _ & ? & _).
    specialize (IH (S k)). enough (sum_by hull_of ((fun i => acc_of (in_region i E)) <$> seq (S k) (length sp)) <=
      sum_by (fun s => s_end s - s_start s) sp) by lia.
    apply IH. intros j t Hj. rewrite Nat.add_succ_comm. by apply Hsp. }
  by apply (H 0%nat).
Qed.

Lemma accs_hull_pos : E <> [] -> 0 < sum_by hull_of accs.
Proof.
  intros HE. destruct E as [|[i e] D] eqn:HE'; [done|]. rewrite <- HE' in *. clear HE.
  assert ((i, e) ∈ E) as Hin by (rewrite HE'; left).
  destruct (measured_elem l i e Hok Hin) as (_ & _ & s & Hs & _).
  destruct (region_acc_sound i s Hs) as (_ & _ & _ & _ & Hp & _).
  assert (0 < hull_of (acc_of (in_region i E))) as Hpos.
  { apply Hp. apply in_region_elem in Hin. intros E0. rewrite E0 in Hin. by apply elem_of_nil in Hin. }
  eapply Z.lt_le_trans; [exact Hpos|]. apply sum_by_ge.
  - unfold accs. apply list_elem_of_fmap. exists i. split; [done|]. apply elem_of_seq.
    apply lookup_lt_Some in Hs. lia.
  - intros b Hb. destruct (accs_elem b Hb) as (j & t & _ & _ & _ & _ & ? & _). lia.
Qed.

(** The neighbours of one region with nothing in between. *)
Definition hole_in (a b : Extent) : Prop :=
  a ∈ E.*2 /\ b ∈ E.*2 /\ hole_between a b /\
  forall e, e ∈ E.*2 -> x_start e <= x_start a \/ x_start b <= x_start e.

Lemma hole_le_gap a b : hole_in a b -> x_start b - x_end a <= sum_by hull_of accs - sum_by used_of accs.
Proof.
  intros (([i a'] & -> & Ha)%list_elem_of_fmap & ([j b'] & -> & Hb)%list_elem_of_fmap &
    [(s & Hs & Hsa & Hsb) Hab] & Hbetween). cbn [snd] in *.
  destruct (measured_elem l i a' Hok Ha) as (? & ? & s1 & Hs1 & ?).
  destruct (measured_elem l j b' Hok Hb) as (? & ? & s2 & Hs2 & ?).
  assert (i = j) as <-.
  { assert (s1 = s) as -> by (eapply (ascending_unique s_start s_end _ Hasc (x_start a'));
      [by eapply list_elem_of_lookup_2|done|lia|lia]).
    destruct (decide (i = j)) as [|Hne]; [done|exfalso].
    destruct (decide (i < j)%nat) as [Hlt|Hge].
    - pose proof (Hasc i j s s2 Hs1 Hs2 Hlt). lia.
    - pose proof (Hasc j i s2 s Hs2 Hs1 ltac:(lia)). lia. }
  destruct (region_acc_sound i s1 Hs1) as (_ & _ & _ & _ & _ & Hhole).
  assert (x_start b' - x_end a' <= hull_of (acc_of (in_region i E)) - used_of (acc_of (in_region i E))) as Hle.
  { apply Hhole; [by apply in_region_elem|by apply in_region_elem|done|].
    intros e He%in_region_elem. apply Hbetween. apply list_elem_of_fmap. by exists (i, e). }
  etransitivity; [exact Hle|].
  pose proof (sum_by_ge (fun a => hull_of a + - used_of a) accs (acc_of (in_region i E))) as Hge.
  rewrite sum_by_add in Hge.
  assert (sum_by (fun a => - used_of a) accs = - sum_by used_of accs) as Hneg.
  { clear. induction accs as [|a q IH]; [done|]. rewrite !sum_by_cons, IH. lia. }
  rewrite Hneg in Hge. cbv beta in Hge. enough (hull_of (acc_of (in_region i E)) + - used_of (acc_of (in_region i E)) <=
    sum_by hull_of accs + - sum_by used_of accs) by lia.
  apply Hge.
  - unfold accs. apply list_elem_of_fmap. exists i. split; [done|]. apply elem_of_seq.
    apply lookup_lt_Some in Hs1. lia.
  - intros c Hc. destruct (accs_elem c Hc) as (k & t & _ & _ & _ & _ & ? & _). lia.
Qed.

(** In address order the neighbours are next to each other. *)
Lemma adjacent_hole X a b :
  X ≡ₚ E.*2 -> StronglySorted by_start X ->
  adjacent X a b /\ hole_between a b <-> hole_in a b.
Proof.
  intros HX Hs. unfold hole_in. setoid_rewrite <- HX.
  assert (forall e, e ∈ X -> x_start e < x_end e) as Hpos.
  { intros e. rewrite HX. intros ([k e'] & -> & He)%list_elem_of_fmap.
    destruct (measured_elem l k e' Hok He) as (? & _). cbn. lia. }
  destruct (measured_apart l Hok) as [_ Hap]. apply (all_apart_perm _ _ (symmetry HX)) in Hap.
  split.
  - intros [(l1 & l2 & ->) Hh]. split; [set_solver|]. split; [set_solver|]. split; [done|].
    apply StronglySorted_app in Hs as (Hlt & _ & Hs2). apply StronglySorted_inv in Hs2 as [Hs2 _].
    apply StronglySorted_inv in Hs2 as [_ Hb]. rewrite Forall_forall in Hb. unfold by_start in *.
    intros e [He|[->|[->|He]%elem_of_cons]%elem_of_cons]%elem_of_app;
      [left; apply Hlt; [done|left]|left; lia|right; lia|right; by apply Hb].
  - intros (Ha & Hb & Hh & Hbetween). split; [|done].
    apply list_elem_of_split in Ha as (l1 & l2 & ->).
    pose proof (Hpos a ltac:(set_solver)). destruct Hh as [_ Hab].
    apply StronglySorted_app in Hs as (Hlt & _ & Hs2). apply StronglySorted_inv in Hs2 as [Hs2 Hal].
    assert (b ∈ l2) as Hb2.
    { apply elem_of_app in Hb as [Hb|[->|Hb]%elem_of_cons]; [|lia|done].
      specialize (Hlt b a Hb ltac:(left)). unfold by_start in Hlt. lia. }
    destruct l2 as [|c l2]; [by apply elem_of_nil in Hb2|].
    destruct (decide (c = b)) as [->|Hcb]; [by exists l1, l2|exfalso].
    apply StronglySorted_inv in Hs2 as [_ Hcl]. rewrite Forall_forall in Hcl, Hal. unfold by_start in *.
    assert (b ∈ l2) as Hb3 by set_solver. specialize (Hcl b Hb3). specialize (Hal c ltac:(left)).
    pose proof (Hpos c ltac:(set_solver)). pose proof (Hpos b Hb).
    destruct (Hbetween c ltac:(set_solver)) as [Hc|Hc].
    + destruct (decide (c = a)) as [->|Hca].
      * (* a second [a] behind the first would have to come before [b] *)
        destruct (measured_apart l Hok) as [Hnd _]. rewrite <- HX in Hnd.
        apply NoDup_app in Hnd as (_ & _ & Hnd). apply NoDup_cons in Hnd as [Hnd _]. apply Hnd. left.
      * destruct (Hap c a ltac:(set_solver) ltac:(set_solver) Hca); lia.
    + destruct (Hap c b ltac:(set_solver) Hb Hcb); lia.
Qed.

Lemma accs_hull_zero : E = [] -> sum_by hull_of accs = 0.
Proof.
  intros HE. rewrite (sum_by_ext _ (fun _ => 0)).
  - clear. induction accs as [|a q IH]; [done|]. by rewrite sum_by_cons, IH.
  - intros a Ha. destruct (accs_elem a Ha) as (i & s & _ & _ & [_ H0] & _). unfold hull_of.
    rewrite H0; [done|]. unfold in_region. by rewrite HE.
Qed.

Lemma used_pos : E <> [] -> 0 < sum_by x_len E.*2.
Proof.
  assert (forall e, e ∈ E.*2 -> 0 < x_len e) as Hp.
  { intros e ([i e'] & -> & He)%list_elem_of_fmap. destruct (measured_elem l i e' Hok He) as (? & _).
    unfold x_len. cbn. lia. }
  destruct E as [|p D]; [done|]. intros _. rewrite fmap_cons, sum_by_cons in *.
  assert (0 < x_len p.2) by (apply Hp; left).
  assert (0 <= sum_by x_len D.*2); [|lia].
  apply sum_by_nonneg. intros a Ha. apply Z.lt_le_incl, Hp. by right.
Qed.

(** The sorted walk over all spans. *)
Lemma largest_hole X :
  X ≡ₚ E.*2 -> StronglySorted by_start X ->
  let g := gap_loop (spans_ m) X 0 in
  (forall a b, hole_in a b -> x_start b - x_end a <= g) /\
  (g = 0 \/ exists a b, hole_in a b /\ g = x_start b - x_end a).
Proof.
  intros HX Hs. destruct (gap_loop_spec X [] (spans_ m) 0 eq_refl) as (_ & G2 & G3);
    [by constructor|done| |].
  { rewrite HX. apply Forall_forall. intros e ([i e'] & -> & He)%list_elem_of_fmap. cbn [snd].
    destruct (measured_elem l i e' Hok He) as (? & ? & s & Hs' & ?). split; [lia|].
    exists s. split; [by eapply list_elem_of_lookup_2|done]. }
  split.
  - intros a b Hh. apply (adjacent_hole X a b HX Hs) in Hh as [Had Hh]. by apply G2.
  - destruct G3 as [->|(a & b & Had & Hh & E3)]; [by left|right].
    exists a, b. split; [|done]. by apply (adjacent_hole X a b HX Hs).
Qed.

(** ** Byte by byte

    What the pass measures, said address by address: a byte of a region is
    occupied when a live chunk's footprint holds it, spanned when it lies between
    the region's first live chunk and its last, and trapped when it is the one
    without the other. *)

Definition within (s : Span) (c : Chunk) : Prop := live c /\ s_start s <= c_key c < s_end s.
(** A footprint ends with its region at the latest. *)
Definition clamped_end (s : Span) (c : Chunk) : Z := Z.min (s_end s) (footprint_end c).
Definition occupied (s : Span) (a : Z) : Prop := Exists (fun c => within s c /\ c_key c <= a < clamped_end s c) l.
Definition spanned (s : Span) (a : Z) : Prop :=
  Exists (fun c => within s c /\ c_key c <= a) l /\ Exists (fun c => within s c /\ a < clamped_end s c) l.
Definition trapped (s : Span) (a : Z) : Prop := spanned s a /\ ~ occupied s a.
#[global] Instance live_dec c : Decision (live c).
Proof. unfold live. apply _. Defined.
#[global] Instance within_dec s c : Decision (within s c).
Proof. unfold within. apply _. Defined.
#[global] Instance occupied_dec s a : Decision (occupied s a).
Proof. unfold occupied. apply _. Defined.
#[global] Instance spanned_dec s a : Decision (spanned s a).
Proof. unfold spanned. apply _. Defined.
#[global] Instance trapped_dec s a : Decision (trapped s a).
Proof. unfold trapped. apply _. Defined.

(** How many addresses of the regions there are of a kind. *)
Definition bytes_of (P : Span -> Z -> Prop) `{!forall s a, Decision (P s a)} : Z :=
  sum_by (fun s => sum_by (fun a => if decide (P s a) then 1 else 0) (seqZ (s_start s) (s_end s - s_start s))) (spans_ m).

(** A maximal run of trapped bytes, or a part of one. *)
Definition hole (s : Span) (x y : Z) : Prop := s ∈ spans_ m /\ x < y /\ forall a, x <= a < y -> s_start s <= a < s_end s /\ trapped s a.

Lemma count_interval lo n x y : 0 <= n -> lo <= x -> x <= y -> y <= lo + n ->
  sum_by (fun a => if decide (x <= a < y) then 1 else 0) (seqZ lo n) = y - x.
Proof.
  intros Hn Hlo Hxy Hhi. assert (forall k lo, sum_by (fun a => if decide (x <= a < y) then 1 else 0) (seqZ lo (Z.of_nat k)) =
    Z.max 0 (Z.min y (lo + Z.of_nat k) - Z.max x lo)) as H.
  { induction k as [|k IH]; intros lo'; [rewrite seqZ_nil by lia; change (sum_by _ []) with 0; lia|]. rewrite seqZ_cons by lia. rewrite sum_by_cons.
    replace (Z.pred (Z.of_nat (S k))) with (Z.of_nat k) by lia. rewrite IH. case_decide; [|]. all: lia. }
  specialize (H (Z.to_nat n) lo). rewrite Z2Nat.id in H by done. rewrite H. lia.
Qed.

Lemma sum_swap {A B} (f : A -> B -> Z) (la : list A) (lb : list B) :
  sum_by (fun a => sum_by (f a) lb) la = sum_by (fun b => sum_by (fun a => f a b) la) lb.
Proof.
  induction la as [|a la IH]; [cbn; clear; induction lb as [|b lb IH]; [done|by rewrite sum_by_cons, <- IH]|].
  rewrite sum_by_cons, IH, <- sum_by_add. apply sum_by_ext. intros b _. by rewrite sum_by_cons.
Qed.

(** Extents that do not meet hold each address once. *)
Lemma indicator_apart L a : NoDup L -> all_apart L ->
  sum_by (fun e => if decide (x_start e <= a < x_end e) then 1 else 0) L = if decide (Exists (fun e => x_start e <= a < x_end e) L) then 1 else 0.
Proof.
  induction L as [|e L IH]; intros Hnd Hap; [by rewrite decide_False by by intros ?%Exists_nil|].
  apply NoDup_cons in Hnd as [Hni Hnd]. rewrite sum_by_cons, (IH Hnd (all_apart_tail _ _ Hap)).
  destruct (decide (x_start e <= a < x_end e)) as [He|He].
  - rewrite (decide_False (P := Exists _ L)), decide_True by (by left || (intros (e' & Hin & He')%Exists_exists;
      destruct (Hap e e') as [|]; [by left|by right|by intros ->|lia|lia])). done.
  - rewrite Z.add_0_l. apply decide_ext. rewrite Exists_cons. tauto.
Qed.

Lemma span_at i s : spans_ m !! i = Some s -> span_index m s = i.
Proof.
  intros Hs. pose proof (span_index_lookup s (list_elem_of_lookup_2 _ _ _ Hs)) as Hj.
  destruct (Nat.lt_trichotomy (span_index m s) i) as [Hlt|[?|Hlt]]; [|done|];
    rewrite Forall_lookup in Hspans; pose proof (Hspans i s Hs); exfalso;
    [pose proof (Hasc _ _ _ _ Hj Hs Hlt)|pose proof (Hasc _ _ _ _ Hs Hj Hlt)]; lia.
Qed.

(** A chunk of a region is measured as its clamped footprint, any other is not. *)
Lemma extent_within c i e : c ∈ l -> extent_in m c = Some (i, e) <->
  exists s, spans_ m !! i = Some s /\ within s c /\ e = mkExtent (c_key c) (clamped_end s c).
Proof.
  intros Hc. destruct Hok as [Hf _]. rewrite Forall_forall in Hf. specialize (Hf c Hc). split.
  - intros H. destruct (extent_in_spec c i e Hf H) as (Hl & Hst & Hlt & _ & s & Hs & Hs1 & Hs2). exists s. split; [done|].
    assert (within s c) as Hw by (split; [done|lia]). split; [done|]. destruct (Hf Hl) as (Hk & Hu & Hfp).
    assert (span_at_addr m (c_key c) = Some s) as Hat by (apply span_found; split; [by eapply list_elem_of_lookup_2|apply Hw]).
    revert H. unfold extent_in. rewrite Hat. destruct (_ || _); [done|]. cbv zeta.
    unfold clamped_end, footprint_end, kChunkMinOverheadBytes in *. rewrite u64_add_l, u64_small by (unfold is_u64; lia).
    case_match; [done|]. intros [= _ <-]. f_equal. destruct (Z.ltb_spec (s_end s) (c_key c + c_usable c + 8)); lia.
  - intros (s & Hs & [[Hl0 Hl1] Hk] & ->). destruct (Hf ltac:(by split)) as (Hk0 & Hu & Hfp).
    assert (span_at_addr m (c_key c) = Some s) as Hat by (apply span_found; split; [by eapply list_elem_of_lookup_2|done]).
    unfold extent_in. rewrite Hat, (span_at i s Hs), (bool_decide_eq_true_2 _ Hl0). destruct (Z.eqb_spec (c_key c) 0); [done|]. cbn [negb orb]. cbv zeta.
    unfold clamped_end, footprint_end, kChunkMinOverheadBytes in *. rewrite u64_add_l, u64_small by (unfold is_u64; lia).
    destruct (Z.ltb_spec (s_end s) (c_key c + c_usable c + 8)); case_match; bprop; [lia|do 3 f_equal; lia|lia|do 3 f_equal; lia].
Qed.

Lemma region_extents i s e : spans_ m !! i = Some s ->
  e ∈ in_region i E <-> exists c, c ∈ l /\ within s c /\ x_start e = c_key c /\ x_end e = clamped_end s c.
Proof.
  intros Hs. rewrite in_region_elem. unfold measured. rewrite list_elem_of_omap. split; intros (c & Hc & H); exists c; (split; [done|]).
  - apply extent_within in H as (s' & Hs' & Hw & ->); [|done]. simplify_eq. by split.
  - apply extent_within; [done|]. exists s. destruct H as (Hw & <- & <-). split; [done|]. split; [done|]. by destruct e.
Qed.

(** The live chunks in a region. *)
Definition counted : list Chunk := filter (fun c => Exists (fun s => within s c) (spans_ m)) l.
Lemma counted_measured : length E = length counted.
Proof.
  assert (forall l0, (forall c, c ∈ l0 -> c ∈ l) -> length (omap (extent_in m) l0) =
    length (filter (fun c => Exists (fun s => within s c) (spans_ m)) l0)) as H; [|by apply H].
  induction l0 as [|c l0 IH]; intros Hsub; [done|]. specialize (IH ltac:(intros d Hd; apply Hsub; by right)).
  cbn [omap list_omap]. rewrite filter_cons. destruct (extent_in m c) as [[i e]|] eqn:Ee.
  - apply extent_within in Ee as (s & Hs & Hw & _); [|apply Hsub; left]. rewrite decide_True; [cbn; by rewrite <- IH|].
    apply Exists_exists. exists s. split; [by eapply list_elem_of_lookup_2|done].
  - rewrite decide_False; [done|]. intros (s & [i Hs]%list_elem_of_lookup & Hw)%Exists_exists.
    pose proof (proj2 (extent_within c i (mkExtent (c_key c) (clamped_end s c)) ltac:(apply Hsub; left)) (ex_intro _ s (conj Hs (conj Hw eq_refl)))).
    congruence.
Qed.

Section Region.
Context (i : nat) (s : Span) (Hs : spans_ m !! i = Some s).
Notation L := (in_region i E).
Notation addresses := (seqZ (s_start s) (s_end s - s_start s)).

Lemma chunk_extent c : c ∈ l -> within s c -> mkExtent (c_key c) (clamped_end s c) ∈ L.
Proof. intros Hc Hw. apply (region_extents i s _ Hs). by exists c. Qed.

Lemma extents_range e : e ∈ L -> s_start s <= x_start e < x_end e /\ x_end e <= s_end s.
Proof. intros He%in_region_elem. destruct (measured_elem l i e Hok He) as (? & _ & s' & Hs' & ?). simplify_eq. lia. Qed.

Lemma occupied_extent a : occupied s a <-> Exists (fun e => x_start e <= a < x_end e) L.
Proof.
  unfold occupied. rewrite !Exists_exists. split.
  - intros (c & Hc & Hw & Ha). exists (mkExtent (c_key c) (clamped_end s c)). split; [by apply chunk_extent|done].
  - intros (e & He & Ha). apply (region_extents i s e Hs) in He as (c & Hc & Hw & E1 & E2). exists c. rewrite <- E1, <- E2. by split.
Qed.
Lemma spanned_extent a : spanned s a <-> Exists (fun e => x_start e <= a) L /\ Exists (fun e => a < x_end e) L.
Proof.
  unfold spanned. rewrite !Exists_exists. split.
  - intros [(c & Hc & Hw & Ha) (d & Hd & Hw' & Ha')]. split.
    + exists (mkExtent (c_key c) (clamped_end s c)). split; [by apply chunk_extent|done].
    + exists (mkExtent (c_key d) (clamped_end s d)). split; [by apply chunk_extent|done].
  - intros [(e & He & Ha) (e' & He' & Ha')]. apply (region_extents i s e Hs) in He as (c & Hc & Hw & E1 & E2).
    apply (region_extents i s e' Hs) in He' as (d & Hd & Hw' & E1' & E2'). split; [exists c|exists d]; by rewrite <- ?E1, <- ?E2'.
Qed.
Lemma occupied_spanned a : occupied s a -> spanned s a.
Proof.
  intros (c & Hc & Hw & H1 & H2)%Exists_exists. split; apply Exists_exists; exists c; by split.
Qed.

Lemma sum_zero {A} (f : A -> Z) (x : list A) : (forall a, a ∈ x -> f a = 0) -> sum_by f x = 0.
Proof. induction x as [|a x IH]; intros H; [done|]. rewrite sum_by_cons, IH, (H a); [done|left|intros b Hb; apply H; by right]. Qed.

Lemma span_range : 0 <= s_start s < s_end s /\ s_end s < 2 ^ 64.
Proof. pose proof Hspans as Hsp. rewrite Forall_lookup in Hsp. by apply (Hsp i). Qed.

Lemma region_spanned : sum_by (fun a => if decide (spanned s a) then 1 else 0) addresses = hull_of (acc_of L).
Proof.
  destruct (acc_of_spec L) as (Hc & _ & Hb & Hex).
  { eapply Z.le_lt_trans; [|exact measured_length]. apply inj_le. unfold in_region. rewrite length_fmap. apply length_filter. }
  { apply Forall_forall. intros e He. pose proof (extents_range e He). pose proof span_range. lia. }
  unfold hull_of. rewrite Hc. destruct (decide (L = [])) as [HL|Hne].
  { rewrite HL. change (Z.of_nat (length []) =? 0) with true. apply sum_zero. intros a _. apply decide_False.
    intros [H _]%spanned_extent. rewrite HL in H. by apply Exists_nil in H. }
  destruct (Z.eqb_spec (Z.of_nat (length L)) 0) as [E0|_]; [destruct L; [done|cbn in E0; lia]|].
  destruct (Hex Hne) as [(e1 & H1 & E1) (e2 & H2 & E2)]. pose proof (extents_range e1 H1). pose proof (extents_range e2 H2).
  rewrite Forall_forall in Hb. pose proof (Hb e1 H1). pose proof (Hb e2 H2).
  rewrite <- (count_interval (s_start s) (s_end s - s_start s) (a_lo (acc_of L)) (a_hi (acc_of L))) by lia.
  apply sum_by_ext. intros a _. apply decide_ext. rewrite spanned_extent, !Exists_exists. split.
  - intros [(e & He & Hle) (e' & He' & Hlt)]. pose proof (Hb e He). pose proof (Hb e' He'). lia.
  - intros Ha. split; [exists e1|exists e2]; (split; [done|lia]).
Qed.

Lemma region_occupied : sum_by (fun a => if decide (occupied s a) then 1 else 0) addresses = sum_by x_len L.
Proof.
  destruct (measured_apart l Hok) as [Hnd Hap]. pose proof (in_region_sub i E) as Hsub. pose proof span_range as Hsr.
  transitivity (sum_by (fun a => sum_by (fun e => if decide (x_start e <= a < x_end e) then 1 else 0) L) addresses).
  - apply sum_by_ext. intros a _. rewrite indicator_apart; [apply decide_ext, occupied_extent|by eapply sublist_NoDup|].
    intros x y Hx Hy. apply Hap; (eapply elem_of_submseteq; [done|by apply sublist_submseteq]).
  - rewrite sum_swap. apply sum_by_ext. intros e He. pose proof (extents_range e He). apply count_interval; lia.
Qed.

Lemma region_trapped : sum_by (fun a => if decide (trapped s a) then 1 else 0) addresses = hull_of (acc_of L) - sum_by x_len L.
Proof.
  rewrite <- region_spanned, <- region_occupied. clear -Hspans Hasc Hok. induction addresses as [|a q IH]; [done|].
  rewrite !sum_by_cons, IH. unfold trapped. pose proof (occupied_spanned a).
  repeat case_decide; try tauto; lia.
Qed.

(** A run of trapped bytes lies between two neighbours. *)
Lemma list_argmin {A} (f : A -> Z) (P : A -> Prop) `{!forall a, Decision (P a)} (x : list A) :
  Exists P x -> exists a, a ∈ x /\ P a /\ forall b, b ∈ x -> P b -> f a <= f b.
Proof.
  induction x as [|a x IH]; intros Hex; [by apply Exists_nil in Hex|].
  destruct (decide (Exists P x)) as [Hx|Hx].
  - destruct (IH Hx) as (b & Hb & HPb & Hmin). destruct (decide (P a /\ f a < f b)) as [[HPa Hlt]|Hn].
    + exists a. split; [left|]. split; [done|]. intros c [->|Hc]%elem_of_cons HPc; [done|]. specialize (Hmin c Hc HPc). lia.
    + exists b. split; [by right|]. split; [done|]. intros c [->|Hc]%elem_of_cons HPc; [|by apply Hmin].
      destruct (Z.le_gt_cases (f b) (f a)); [done|]. destruct Hn. split; [done|lia].
  - apply Exists_cons in Hex as [HPa|?]; [|done]. exists a. split; [left|]. split; [done|].
    intros c [->|Hc]%elem_of_cons HPc; [done|]. destruct Hx. apply Exists_exists. by exists c.
Qed.

Lemma hole_neighbours x y : hole s x y -> exists a b, hole_in a b /\ x_end a <= x /\ y <= x_start b.
Proof.
  intros (Hin & Hxy & Hall). destruct (Hall x ltac:(lia)) as [Hxs [Hsx Hox]]. destruct (Hall (y - 1) ltac:(lia)) as [Hys [Hsy Hoy]].
  apply spanned_extent in Hsx as [Hsx _]. apply spanned_extent in Hsy as [_ Hsy].
  destruct (list_argmin (fun e => - x_start e) _ L Hsx) as (a & Ha & Hax & Hamax).
  destruct (list_argmin x_start _ L Hsy) as (b & Hb & Hby & Hbmin).
  assert (forall z e, e ∈ L -> x <= z < y -> ~ (x_start e <= z < x_end e)) as Hno.
  { intros z e He Hz Hcov. destruct (Hall z Hz) as [_ [_ Hoz]]. apply Hoz, occupied_extent, Exists_exists. by exists e. }
  pose proof (Hno x a Ha ltac:(lia)). pose proof (Hno (y - 1) b Hb ltac:(lia)).
  pose proof (extents_range a Ha). pose proof (extents_range b Hb). exists a, b. split; [|lia].
  assert (forall e, e ∈ L -> e ∈ E.*2) as Hsub
    by (intros e He; eapply elem_of_submseteq; [exact He|apply sublist_submseteq, in_region_sub]).
  split; [by apply Hsub|]. split; [by apply Hsub|]. split; [split; [exists s; split; [done|lia]|lia]|].
  intros e He. destruct (Z.le_gt_cases (x_start e) (x_start a)) as [|Hgt]; [by left|]. right.
  destruct (Z.le_gt_cases (x_start b) (x_start e)) as [|Hlt]; [done|exfalso].
  apply list_elem_of_fmap in He as ([j e'] & -> & He). cbn [snd] in *.
  destruct (measured_elem l j e' Hok He) as (Hpos & _ & t & Ht & Ht1 & Ht2).
  assert (t = s) as -> by (eapply (ascending_unique s_start s_end _ Hasc (x_start e')); [by eapply list_elem_of_lookup_2|done|lia|lia]).
  assert (j = i) as ->.
  { destruct (Nat.lt_trichotomy j i) as [Hl|[?|Hl]]; [|done|]; exfalso; pose proof span_range;
      [pose proof (Hasc _ _ _ _ Ht Hs Hl)|pose proof (Hasc _ _ _ _ Hs Ht Hl)]; lia. }
  apply in_region_elem in He. destruct (Z.le_gt_cases (x_start e') x) as [Hle|Hgx]; [specialize (Hamax e' He Hle); lia|].
  destruct (Z.le_gt_cases (x_end e') (y - 1)) as [Hle|Hgy]; [|specialize (Hbmin e' He Hgy); lia].
  apply (Hno (x_start e') e' He); lia.
Qed.

Lemma neighbours_hole a b : a ∈ L -> b ∈ L -> hole_in a b -> hole s (x_end a) (x_start b).
Proof.
  intros Ha Hb (_ & _ & [_ Hab] & Hbetween). pose proof (extents_range a Ha). pose proof (extents_range b Hb).
  split; [by eapply list_elem_of_lookup_2|]. split; [done|]. intros z Hz. split; [lia|]. split.
  - apply spanned_extent. split; apply Exists_exists; [exists a|exists b]; (split; [done|lia]).
  - intros (e & He & Hcov)%occupied_extent%Exists_exists. destruct (measured_apart l Hok) as [_ Hap].
    assert (forall e, e ∈ L -> e ∈ E.*2) as Hsub
      by (intros e' He'; eapply elem_of_submseteq; [exact He'|apply sublist_submseteq, in_region_sub]).
    destruct (Hbetween e (Hsub e He)) as [Hle|Hge]; [|lia]. pose proof (extents_range e He).
    destruct (decide (e = a)) as [->|Hne]; [lia|]. destruct (Hap e a (Hsub e He) (Hsub a Ha) Hne); lia.
Qed.
End Region.

Lemma sum_spans (f : nat -> Z) (g : Span -> Z) : (forall i s, spans_ m !! i = Some s -> f i = g s) ->
  sum_by f (seq 0 (length (spans_ m))) = sum_by g (spans_ m).
Proof.
  intros H. assert (forall (sp : list Span) k, (forall j s, sp !! j = Some s -> f (k + j)%nat = g s) -> sum_by f (seq k (length sp)) = sum_by g sp) as Hg;
    [|by apply Hg].
  induction sp as [|s sp IH]; intros k Hk; [done|]. cbn [length seq]. rewrite !sum_by_cons, (IH (S k)).
  - rewrite <- (Hk 0%nat s eq_refl). by rewrite Nat.add_0_r.
  - intros j t Hj. rewrite Nat.add_succ_comm. by apply Hk.
Qed.

Lemma spanned_total : sum_by hull_of accs = bytes_of spanned.
Proof. unfold accs. rewrite sum_by_fmap. apply sum_spans. intros i s Hs. symmetry. by apply region_spanned. Qed.
Lemma occupied_total : sum_by x_len E.*2 = bytes_of occupied.
Proof.
  rewrite <- accs_used. unfold accs. rewrite sum_by_fmap. apply sum_spans. intros i s Hs.
  destruct (region_acc_sound i s Hs) as (_ & -> & _). symmetry. by apply region_occupied.
Qed.
Lemma trapped_total : bytes_of trapped = bytes_of spanned - bytes_of occupied.
Proof.
  unfold bytes_of. assert (forall sp, (forall s, s ∈ sp -> s ∈ spans_ m) ->
    sum_by (fun s => sum_by (fun a => if decide (trapped s a) then 1 else 0) (seqZ (s_start s) (s_end s - s_start s))) sp =
    sum_by (fun s => sum_by (fun a => if decide (spanned s a) then 1 else 0) (seqZ (s_start s) (s_end s - s_start s))) sp -
    sum_by (fun s => sum_by (fun a => if decide (occupied s a) then 1 else 0) (seqZ (s_start s) (s_end s - s_start s))) sp) as H; [|by apply H].
  induction sp as [|s sp IH]; intros Hsub; [done|]. rewrite !sum_by_cons, IH by (intros t Ht; apply Hsub; by right).
  destruct (proj1 (list_elem_of_lookup _ _) (Hsub s ltac:(left))) as [i Hs].
  rewrite (region_trapped i s Hs), (region_spanned i s Hs), (region_occupied i s Hs). lia.
Qed.

(** The walk finds the longest hole. *)
Lemma longest_hole X : X ≡ₚ E.*2 -> StronglySorted by_start X ->
  let g := gap_loop (spans_ m) X 0 in
  (forall s x y, hole s x y -> y - x <= g) /\ (g = 0 \/ exists s x y, hole s x y /\ g = y - x).
Proof.
  intros HX Hs. destruct (largest_hole X HX Hs) as [G1 G2]. split.
  - intros s x y Hh. pose proof Hh as (Hin & _). apply list_elem_of_lookup in Hin as [i Hi].
    destruct (hole_neighbours i s Hi x y Hh) as (a & b & Hab & Ha & Hb). pose proof (G1 a b Hab). cbv zeta in *. lia.
  - destruct G2 as [->|(a & b & Hab & ->)]; [by left|right].
    pose proof Hab as (Ha & Hb & [(s & Hin & Hsa & Hsb) Hlt] & _). apply list_elem_of_lookup in Hin as [i Hi].
    assert (forall e, e ∈ E.*2 -> s_start s <= x_start e < s_end s -> e ∈ in_region i E) as Hreg.
    { intros e ([j e'] & -> & He)%list_elem_of_fmap Hr. cbn [snd] in *. apply in_region_elem.
      destruct (measured_elem l j e' Hok He) as (Hpos & _ & t & Ht & Ht1 & Ht2).
      assert (t = s) as -> by (eapply (ascending_unique s_start s_end _ Hasc (x_start e')); [by eapply list_elem_of_lookup_2|by eapply list_elem_of_lookup_2|lia|lia]).
      by rewrite <- (span_at i s Hi), (span_at j s Ht). }
    assert (forall e, e ∈ E.*2 -> x_start e < x_end e) as Hpos
      by (intros e ([j e'] & -> & He)%list_elem_of_fmap; destruct (measured_elem l j e' Hok He) as (? & _); cbn; lia).
    pose proof (Hpos a Ha). exists s, (x_end a), (x_start b). split; [|done].
    apply (neighbours_hole i s Hi a b); [apply Hreg; [done|lia]|apply Hreg; [done|lia]|done].
Qed.
End Regions.
End Spans.

(** C17: The fragmentation figures are those of the definitions, byte by byte.  When
    no two live chunks share a byte (a chunk being its usable bytes and the word
    below them) and the regions are those of an ascending scan, a due pass reports
    as the span the bytes from each region's first live chunk to its last, as used
    the bytes a live chunk holds, and as gaps the bytes of the span no live chunk
    holds, so free space at a region's ends is none; it counts the live chunks in a
    region; the percentage is the truncated share of the gaps, below 100, and
    missing only when nothing was counted; and when the records are few enough the
    largest gap is the length of the longest run of such bytes within one region. *)
Theorem fragmentation_exact m fa t now :
  ascending s_start s_end (spans_ m) ->
  Forall (fun s => 0 <= s_start s < s_end s /\ s_end s < 2 ^ 64) (spans_ m) ->
  sum_by (fun s => s_end s - s_start s) (spans_ m) <= 2 ^ 57 ->
  footprints_ok (slots_ t) -> Z.of_nat (length (slots_ t)) < 2 ^ 64 ->
  due fa now = true ->
  let r := fa_report (analyze fa t m now).1 in
  let l := slots_ t in
  fr_span_bytes r = bytes_of m (spanned l) /\ fr_used_bytes r = bytes_of m (occupied l) /\
  fr_gap_bytes r = bytes_of m (trapped l) /\
  fr_chunks r = Z.of_nat (length (counted m l)) /\
  (counted m l = [] -> fr_percent r = -1) /\
  (counted m l <> [] -> fr_percent r = fr_gap_bytes r * 100 / fr_span_bytes r /\ 0 <= fr_percent r < 100) /\
  fr_largest_gap_known r = (size_ t <=? fa_max_sorted fa) && negb (bool_decide (counted m l = [])) /\
  (fr_largest_gap_known r = true ->
     fr_largest_gap r <= fr_gap_bytes r /\
     (forall s x y, hole m l s x y -> y - x <= fr_largest_gap r) /\
     (fr_largest_gap r = 0 \/ exists s x y, hole m l s x y /\ fr_largest_gap r = y - x)).
Proof.
  intros Hasc Hsp Htot Hok Hlen Hdue r l.
  set (E := (measured m l).*2).
  pose proof (measured_length m l Hlen) as HlenE. rewrite <- (length_fmap snd) in HlenE.
  rewrite (trapped_total m Hasc Hsp l Hok Hlen), <- (spanned_total m Hasc Hsp l Hok Hlen), <- (occupied_total m Hasc Hsp l Hok Hlen).
  pose proof (counted_measured m Hasc Hsp l Hok) as Hcount.
  assert (counted m l = [] <-> measured m l = []) as HE0 by (split; intros H0; rewrite H0 in Hcount; by apply length_zero_iff_nil).
  subst r. unfold analyze. rewrite Hdue. cbn [negb]. fold l.
  set (collect := negb (length (spans_ m) =? 0)%nat && (size_ t <=? fa_max_sorted fa)).
  destruct (measure_fold m collect (if collect then [] else fa_extents fa) l _ eq_refl) as (Hc & Hl & Ha & Hx).
  set (p := foldl (measure m collect) _ l) in *. clearbody p. cbv zeta.
  assert (p_acc p = accs m l) as ->.
  { apply list_eq. intros i. destruct (p_acc p !! i) as [a|] eqn:Ei.
    - rewrite (Ha i a Ei). apply lookup_lt_Some in Ei. unfold accs.
      rewrite list_lookup_fmap, lookup_seq_lt by lia. done.
    - symmetry. apply lookup_ge_None. unfold accs. rewrite length_fmap, length_seq, <- Hl.
      by apply lookup_ge_None. }
  pose proof (accs_hull_le m Hasc Hsp l Hok Hlen) as Hhull.
  destruct (sum_regions_spec (accs m l) 0 0 0) as (k & -> & Hused).
  { apply Forall_forall. intros a Hin.
    destruct (accs_elem m Hasc Hsp l Hok Hlen a Hin) as (j & s & _ & _ & _ & _ & Hu & _).
    split; [done|]. intros Hne. unfold hull_of in Hu. destruct (Z.eqb_spec (a_chunks a) 0); [done|lia]. }
  { lia. } { change (2 ^ 64) with (128 * 2 ^ 57). lia. }
  rewrite !Z.add_0_l. cbn [fst fa_report fr_used_bytes fr_gap_bytes fr_span_bytes fr_chunks fr_percent
    fr_largest_gap fr_largest_gap_known].
  pose proof (accs_hull_pos m Hasc Hsp l Hok Hlen) as Hpos.
  pose proof (accs_hull_zero m Hasc Hsp l Hok Hlen) as Hzero.
  pose proof (used_pos m Hasc Hsp l Hok) as Hupos.
  pose proof (fun a b => hole_le_gap m Hasc Hsp l Hok Hlen a b) as Hgap.
  rewrite (accs_used m Hasc Hsp l Hok Hlen) in *. fold E in Hused, Hupos, Hgap |- *.
  set (H := sum_by hull_of (accs m l)) in *. set (U := sum_by x_len E) in *.
  assert ((if U <? H then H - U else 0) = H - U) as -> by (destruct (Z.ltb_spec U H); lia).
  split; [done|]. split; [done|]. split; [lia|].
  split; [rewrite Hc, <- Hcount, <- (length_fmap snd); apply u64_small; split; [lia|done]|].
  assert (E = [] <-> measured m l = []) as HE by (subst E; split; [apply fmap_nil_inv|by intros ->]).
  split; [intros H0%HE0; by rewrite (Hzero H0)|]. split.
  { intros Hne. rewrite HE0 in Hne. specialize (Hpos Hne). specialize (Hupos Hne). destruct (Z.eqb_spec H 0); [lia|]. cbn [negb].
    rewrite u64_small by (unfold is_u64; change (2 ^ 64) with (128 * 2 ^ 57); lia).
    split; [done|]. split; [apply Z.div_pos; lia|apply Z.div_lt_upper_bound; lia]. }
  assert (collect = true -> collect && negb (length (p_extents p) =? 0)%nat = negb (bool_decide (counted m l = []))) as Hknown.
  { intros Ec. rewrite Ec in Hx |- *. rewrite (Hx eq_refl). cbn [app andb]. f_equal. destruct (Nat.eqb_spec (length (measured m l).*2) 0) as [E0|E0].
    - symmetry. apply bool_decide_eq_true_2, HE0, HE. by apply length_zero_iff_nil.
    - symmetry. apply bool_decide_eq_false_2. rewrite HE0, <- HE. intros E1. apply E0. unfold E in E1. by rewrite E1. }
  split.
  { destruct collect eqn:Ec; [rewrite (Hknown eq_refl)|]; unfold collect in Ec; apply andb_true_iff in Ec || apply andb_false_iff in Ec.
    - by destruct Ec as [_ ->].
    - destruct Ec as [Ec| ->]; [|done]. rewrite (bool_decide_eq_true_2 (counted m l = [])), andb_false_r; [done|].
      apply negb_false_iff, Nat.eqb_eq, length_zero_iff_nil in Ec. unfold counted. rewrite Ec. clear.
      induction l as [|c l IH]; [done|]. rewrite filter_cons_False; [done|]. intros ?%Exists_nil. done. }
  destruct collect; [|done]. rewrite (Hx eq_refl). fold E. cbn [andb app].
  destruct (Nat.eqb_spec (length E) 0); [done|]. cbn [negb]. intros _.
  pose proof (longest_hole m Hasc Hsp l Hok Hlen (merge_sort by_start E)
    (merge_sort_Permutation by_start E) (StronglySorted_merge_sort by_start E)) as [G1 G2].
  split; [|done]. destruct G2 as [->|(s & x & y & Hh & ->)]; [lia|].
  pose proof Hh as (Hin & _). apply list_elem_of_lookup in Hin as [i Hi].
  destruct (hole_neighbours m Hasc Hsp l Hok i s Hi x y Hh) as (a' & b' & Hab & ? & ?). specialize (Hgap a' b' Hab). lia.
Qed.

(** Three chunks in two regions: a hole of 24 bytes between the first two. *)
Definition demo_map : RegionMap :=
  mkRegionMap [mkSpan 4096 8192 0 Heap false; mkSpan 16384 20480 4096 Anon true] 8192 1.
Definition demo_table : ChunkTable :=
  mkTable [mkChunk 4112 24 24 1 0 7 kChunkLive 0 0; mkChunk 4168 40 40 2 0 7 kChunkLive 0 0;
           mkChunk 16400 8 24 3 0 8 kChunkLive 0 0] 3 3 62 0 [] 0 0 (mkStats 3 0 0 0 0 0 0).

Lemma demo_footprints : footprints_ok (slots_ demo_table).
Proof.
  split.
  - repeat constructor; by vm_compute.
  - intros [|[|[|i]]] [|[|[|j]]] c d Hi Hj Hne _ _; cbn in Hi, Hj; simplify_eq; try done;
      vm_compute; (left; discriminate) || (right; discriminate).
Qed.

Lemma fragmentation_exact_witness :
  let r := fa_report (analyze new_analyzer demo_table demo_map 5).1 in
  fr_gap_bytes r = bytes_of demo_map (trapped (slots_ demo_table)) /\
  fr_largest_gap r = 24 /\ exists s x y, hole demo_map (slots_ demo_table) s x y /\ 24 = y - x.
Proof.
  cbv zeta. assert (fr_largest_gap (fa_report (analyze new_analyzer demo_table demo_map 5).1) = 24) as E by (by vm_compute).
  assert (fr_largest_gap_known (fa_report (analyze new_analyzer demo_table demo_map 5).1) = true) as K by (by vm_compute).
  destruct (fragmentation_exact demo_map new_analyzer demo_table 5) as (_ & _ & Hgap & _ & _ & _ & _ & Hknown).
  - intros [|[|i]] [|[|j]] a b Ha Hb Hij; cbn in Ha, Hb; simplify_eq; try lia. by vm_compute.
  - repeat constructor; by vm_compute.
  - by vm_compute.
  - exact demo_footprints.
  - by vm_compute.
  - by vm_compute.
  - split; [exact Hgap|]. split; [exact E|]. destruct (Hknown K) as (_ & _ & Hh). rewrite E in Hh. destruct Hh as [?|Hh]; [discriminate|exact Hh].
Defined.
