(* ===== verification/Framebuffer.v ===== *)
(** * The cell grid (src/src/tui/framebuffer.h, framebuffer.cpp)

    Two buffers of cells behind two pointers; every drawing operation writes the
    back one and clips to the grid.  UTF-8 text is decoded as it is drawn. *)

From S2P Require Import Prelude.

Definition kAttrNone : Z := 0.
Definition kAttrBold : Z := Z.shiftl 1 0.
Definition kAttrDim : Z := Z.shiftl 1 1.
Definition kAttrUnderline : Z := Z.shiftl 1 2.
Definition kAttrReverse : Z := Z.shiftl 1 3.

Record Cell := mkCell { glyph : Z; fg : Z; bg : Z; attrs : Z }.
#[export] Instance Cell_eq_dec : EqDecision Cell.
Proof. solve_decision. Defined.

Definition cell_eq (a b : Cell) : bool :=
  (glyph a =? glyph b) && (fg a =? fg b) && (bg a =? bg b) && (attrs a =? attrs b).

Definition kDefaultFg : Z := 0x00C0C0C0.
Definition kDefaultBg : Z := 0x00000000.
Definition empty_cell : Cell := mkCell 32 kDefaultFg kDefaultBg kAttrNone.
#[export] Instance Cell_inhabited : Inhabited Cell := populate empty_cell.

Record Rect := mkRect { rx : Z; ry : Z; rw : Z; rh : Z }.
#[export] Instance Rect_eq_dec : EqDecision Rect.
Proof. solve_decision. Defined.
Definition kNoRect : Rect := mkRect 0 0 0 0.

Inductive BoxStyle := Light | Heavy | Rounded | AsciiBox.
#[export] Instance BoxStyle_eq_dec : EqDecision BoxStyle.
Proof. solve_decision. Defined.

Definition kMaxCells : Z := Z.shiftl 4 20.
Definition kReplacement : Z := 0xFFFD.

Record BoxGlyphs := mkGlyphs { g_h : Z; g_v : Z; g_tl : Z; g_tr : Z; g_bl : Z; g_br : Z }.

Definition box_glyphs_for (s : BoxStyle) : BoxGlyphs :=
  match s with
  | Light => mkGlyphs 0x2500 0x2502 0x250C 0x2510 0x2514 0x2518
  | Heavy => mkGlyphs 0x2501 0x2503 0x250F 0x2513 0x2517 0x251B
  | Rounded => mkGlyphs 0x2500 0x2502 0x256D 0x256E 0x2570 0x256F
  | AsciiBox => mkGlyphs 45 124 43 43 43 43
  end.

(** The code point at the head of the remaining bytes and how many it takes.
    [cont] and [bits] are the two lambdas of the source. *)
Definition utf8_decode (s : list Z) : Z * Z :=
  match s with
  | [] => (kReplacement, 1)
  | b0 :: rest =>
      let cont (k : nat) := match rest !! (k - 1)%nat with Some b => Z.land b 0xC0 =? 0x80 | None => false end in
      let bits (k : nat) := match rest !! (k - 1)%nat with Some b => Z.land b 0x3F | None => 0 end in
      if b0 <? 0x80 then (b0, 1)
      else if (b0 <? 0xC2) || (0xF4 <? b0) then (kReplacement, 1)
      else if b0 <? 0xE0 then
        if negb (cont 1%nat) then (kReplacement, 1)
        else (Z.lor (Z.shiftl (Z.land b0 0x1F) 6) (bits 1%nat), 2)
      else if b0 <? 0xF0 then
        if negb (cont 1%nat) || negb (cont 2%nat) then (kReplacement, 1)
        else
          let v := Z.lor (Z.lor (Z.shiftl (Z.land b0 0x0F) 12) (Z.shiftl (bits 1%nat) 6)) (bits 2%nat) in
          if (v <? 0x800) || ((0xD800 <=? v) && (v <=? 0xDFFF)) then (kReplacement, 1)
          else (v, 3)
      else if negb (cont 1%nat) || negb (cont 2%nat) || negb (cont 3%nat) then (kReplacement, 1)
      else
        let v := Z.lor (Z.lor (Z.lor (Z.shiftl (Z.land b0 0x07) 18) (Z.shiftl (bits 1%nat) 12))
                          (Z.shiftl (bits 2%nat) 6)) (bits 3%nat) in
        if (v <? 0x10000) || (0x10FFFF <? v) then (kReplacement, 1) else (v, 4)
  end.

(** The intersection with a [w] by [h] grid. *)
Definition clip_rect (r : Rect) (w h : Z) : option Rect :=
  if (rw r <=? 0) || (rh r <=? 0) || (w <=? 0) || (h <=? 0) then None
  else
    let x0 := Z.max (rx r) 0 in
    let y0 := Z.max (ry r) 0 in
    let x1 := Z.min (rx r + rw r) w in
    let y1 := Z.min (ry r + rh r) h in
    if (x1 <=? x0) || (y1 <=? y0) then None
    else Some (mkRect x0 y0 (x1 - x0) (y1 - y0)).

(** [front_is_a] says which buffer [front_] points to; [back_] is the other. *)
Record Framebuffer := mkFb { fb_a : list Cell; fb_b : list Cell; front_is_a : bool; fb_w : Z; fb_h : Z }.
Definition new_fb : Framebuffer := mkFb [] [] true 0 0.

Definition front (f : Framebuffer) : list Cell := if front_is_a f then fb_a f else fb_b f.
Definition back (f : Framebuffer) : list Cell := if front_is_a f then fb_b f else fb_a f.
Definition set_back (f : Framebuffer) (l : list Cell) : Framebuffer :=
  if front_is_a f then mkFb (fb_a f) l true (fb_w f) (fb_h f)
  else mkFb l (fb_b f) false (fb_w f) (fb_h f).

Definition fb_empty (f : Framebuffer) : bool := (fb_w f <=? 0) || (fb_h f <=? 0).
Definition fb_contains (f : Framebuffer) (x y : Z) : bool :=
  (0 <=? x) && (0 <=? y) && (x <? fb_w f) && (y <? fb_h f).
Definition fb_index (f : Framebuffer) (x y : Z) : nat := Z.to_nat (y * fb_w f + x).
Definition at_front (f : Framebuffer) (x y : Z) : Cell := front f !!! fb_index f x y.
Definition at_back (f : Framebuffer) (x y : Z) : Cell := back f !!! fb_index f x y.

Definition resize (f : Framebuffer) (w h : Z) : Framebuffer * bool :=
  if (w <=? 0) || (h <=? 0) then (f, false)
  else if kMaxCells <? w * h then (f, false)
  else
    (mkFb (replicate (Z.to_nat (w * h)) empty_cell) (replicate (Z.to_nat (w * h)) empty_cell)
       (front_is_a f) w h, true).

Definition clear (f : Framebuffer) (c : Cell) : Framebuffer :=
  set_back f ((fun _ => c) <$> back f).

Definition put (f : Framebuffer) (x y : Z) (c : Cell) : Framebuffer :=
  if negb (fb_contains f x y) then f else set_back f (<[fb_index f x y := c]> (back f)).

(** The text loop; every turn consumes at least one byte. *)
Fixpoint text_loop (fuel : nat) (f : Framebuffer) (col y : Z) (s : list Z) (fgc bgc at' : Z)
    (written : Z) : Framebuffer * Z :=
  match fuel with
  | O => (f, written)
  | S fuel =>
      if (0 <? Z.of_nat (length s)) && (col <? fb_w f) then
        let '(cp, n) := utf8_decode s in
        let s := drop (Z.to_nat n) s in
        if 0 <=? col then
          text_loop fuel (set_back f (<[fb_index f col y := mkCell cp fgc bgc at']> (back f)))
            (col + 1) y s fgc bgc at' (written + 1)
        else text_loop fuel f (col + 1) y s fgc bgc at' written
      else (f, written)
  end.

Definition text (f : Framebuffer) (x y : Z) (s : list Z) (fgc bgc at' : Z) : Framebuffer * Z :=
  if (y <? 0) || (fb_h f <=? y) || (fb_w f <=? 0) then (f, 0)
  else text_loop (length s) f x y s fgc bgc at' 0.

(** [std::fill] of one row's segment. *)
Definition fill_row (l : list Cell) (i n : nat) (c : Cell) : list Cell :=
  take i l ++ replicate n c ++ drop (i + n) l.

Definition fill (f : Framebuffer) (r : Rect) (c : Cell) : Framebuffer :=
  match clip_rect r (fb_w f) (fb_h f) with
  | None => f
  | Some r =>
      foldl (fun f y => set_back f (fill_row (back f) (fb_index f (rx r) y) (Z.to_nat (rw r)) c))
        f (seqZ (ry r) (rh r))
  end.

Definition hline (f : Framebuffer) (x y len g fgc bgc at' : Z) : Framebuffer :=
  fill f (mkRect x y len 1) (mkCell g fgc bgc at').
Definition vline (f : Framebuffer) (x y len g fgc bgc at' : Z) : Framebuffer :=
  fill f (mkRect x y 1 len) (mkCell g fgc bgc at').

(** The two edge loops over an inclusive range.  The casts back to [int] of a far
    edge beyond the type are negative, outside the grid like the edge itself. *)
Definition range (lo hi : Z) : list Z := seqZ lo (hi - lo + 1).

Definition put_if (b : bool) (f : Framebuffer) (x y : Z) (c : Cell) : Framebuffer :=
  if b then put f x y c else f.
Definition hedge_step (y0 y1 : Z) (tall : bool) (c : Cell) (f : Framebuffer) (x : Z) : Framebuffer :=
  put_if tall (put f x y0 c) x y1 c.
Definition vedge_step (x0 x1 : Z) (wide : bool) (c : Cell) (f : Framebuffer) (y : Z) : Framebuffer :=
  put_if wide (put f x0 y c) x1 y c.

Definition box (f : Framebuffer) (r : Rect) (style : BoxStyle) (fgc bgc at' : Z) : Framebuffer :=
  if (rw r <=? 0) || (rh r <=? 0) || fb_empty f then f
  else
    let g := box_glyphs_for style in
    let cell ch := mkCell ch fgc bgc at' in
    let x0 := rx r in
    let y0 := ry r in
    let x1 := rx r + rw r - 1 in
    let y1 := ry r + rh r - 1 in
    let wide := negb (x1 =? x0) in
    let tall := negb (y1 =? y0) in
    let xs := range (Z.max (x0 + 1) 0) (Z.min (x1 - 1) (fb_w f - 1)) in
    let ys := range (Z.max (y0 + 1) 0) (Z.min (y1 - 1) (fb_h f - 1)) in
    let f := foldl (hedge_step y0 y1 tall (cell (g_h g))) f xs in
    let f := foldl (vedge_step x0 x1 wide (cell (g_v g))) f ys in
    let f := put f x0 y0 (cell (g_tl g)) in
    let f := put_if wide f x1 y0 (cell (g_tr g)) in
    let f := put_if tall f x0 y1 (cell (g_bl g)) in
    put_if (wide && tall) f x1 y1 (cell (g_br g)).

Definition swap (f : Framebuffer) (fill_with : Cell) : Framebuffer :=
  let f := mkFb (fb_a f) (fb_b f) (negb (front_is_a f)) (fb_w f) (fb_h f) in
  set_back f ((fun _ => fill_with) <$> back f).

(** ** Shape and addressing *)

Record fb_ok (f : Framebuffer) : Prop := {
  ok_dims : 0 <= fb_w f /\ 0 <= fb_h f;
  ok_a : Z.of_nat (length (fb_a f)) = fb_w f * fb_h f;
  ok_b : Z.of_nat (length (fb_b f)) = fb_w f * fb_h f
}.

(** A position of the grid. *)
Definition on_grid (f : Framebuffer) (x y : Z) : Prop := 0 <= x < fb_w f /\ 0 <= y < fb_h f.

Lemma fb_contains_spec f x y : fb_contains f x y = true <-> on_grid f x y.
Proof. unfold fb_contains, on_grid. rewrite !andb_true_iff, !Z.leb_le, !Z.ltb_lt. lia. Qed.

Lemma back_length f : fb_ok f -> Z.of_nat (length (back f)) = fb_w f * fb_h f.
Proof. intros [_ ? ?]. unfold back. by destruct (front_is_a f). Qed.

Lemma index_lt f x y : fb_ok f -> on_grid f x y -> (fb_index f x y < length (back f))%nat.
Proof. intros Hok [? ?]. unfold fb_index. apply Nat2Z.inj_lt. rewrite Z2Nat.id, back_length by (done || nia). nia. Qed.

Lemma index_inj f x y x' y' :
  on_grid f x y -> on_grid f x' y' -> fb_index f x y = fb_index f x' y' -> x = x' /\ y = y'.
Proof.
  unfold fb_index, on_grid. intros [? ?] [? ?] He. apply Z2Nat.inj in He; [|nia|nia].
  assert (y = y') as <- by nia. split; lia.
Qed.

Lemma set_back_dims f l : fb_w (set_back f l) = fb_w f /\ fb_h (set_back f l) = fb_h f /\
  front (set_back f l) = front f /\ back (set_back f l) = l.
Proof. unfold set_back, front, back. by destruct (front_is_a f) eqn:E; rewrite ?E. Qed.

Lemma set_back_ok f l : fb_ok f -> length l = length (back f) -> fb_ok (set_back f l).
Proof.
  intros Hok Hl. pose proof (back_length f Hok) as Hb. destruct Hok as [Hd Ha Hb'].
  unfold set_back, back in *. destruct (front_is_a f); split; cbn; try done; by rewrite Hl.
Qed.

(** Two framebuffers of one size that show the same front. *)
Record same_front (f g : Framebuffer) : Prop := {
  sf_w : fb_w g = fb_w f; sf_h : fb_h g = fb_h f; sf_front : front g = front f; sf_ok : fb_ok g }.

Lemma same_front_refl f : fb_ok f -> same_front f f.
Proof. by split. Qed.
Lemma same_front_trans f g h : same_front f g -> same_front g h -> same_front f h.
Proof. intros [? ? ? ?] [? ? ? ?]. split; congruence || done. Qed.
Lemma same_front_set_back f l : fb_ok f -> length l = length (back f) -> same_front f (set_back f l).
Proof. intros Hok Hl. destruct (set_back_dims f l) as (? & ? & ? & ?). split; try done. by apply set_back_ok. Qed.

Lemma on_grid_same f g x y : same_front f g -> on_grid g x y <-> on_grid f x y.
Proof. intros [Hw Hh _ _]. unfold on_grid. by rewrite Hw, Hh. Qed.

Lemma fb_index_set_back f l x y : fb_index (set_back f l) x y = fb_index f x y.
Proof. unfold fb_index. by destruct (set_back_dims f l) as (-> & _). Qed.

Lemma at_back_set_back f l x y : at_back (set_back f l) x y = l !!! fb_index f x y.
Proof. unfold at_back. rewrite fb_index_set_back. by destruct (set_back_dims f l) as (_ & _ & _ & ->). Qed.

(** ** Single cells *)
Lemma put_spec f x y c :
  fb_ok f -> same_front f (put f x y c) /\
  forall x' y', on_grid f x' y' ->
    at_back (put f x y c) x' y' = if decide (x' = x /\ y' = y) then c else at_back f x' y'.
Proof.
  intros Hok. unfold put. destruct (fb_contains f x y) eqn:E; cbn [negb].
  - apply fb_contains_spec in E. split; [apply same_front_set_back; [done|by rewrite length_insert]|].
    intros x' y' Hin. rewrite at_back_set_back.
    case_decide as Hd.
    + destruct Hd as [-> ->]. apply list_lookup_total_insert_eq. by apply index_lt.
    + apply list_lookup_total_insert_ne. intros He. apply Hd. by destruct (index_inj f x y x' y' E Hin He).
  - split; [by apply same_front_refl|]. intros x' y' Hin. rewrite decide_False; [done|].
    intros [-> ->]. apply fb_contains_spec in Hin. congruence.
Qed.

(** ** Filling *)
Lemma fill_row_lookup l i n c j :
  (i + n <= length l)%nat ->
  fill_row l i n c !!! j = if decide (i <= j < i + n)%nat then c else l !!! j.
Proof.
  intros Hl. unfold fill_row. rewrite !list_lookup_total_alt.
  destruct (decide (j < i)%nat) as [H1|H1].
  { rewrite lookup_app_l by (rewrite length_take; lia). rewrite lookup_take_lt by done.
    by rewrite decide_False by lia. }
  rewrite lookup_app_r by (rewrite length_take; lia). rewrite length_take, Nat.min_l by lia.
  destruct (decide (j < i + n)%nat) as [H2|H2].
  - rewrite lookup_app_l by (rewrite length_replicate; lia).
    rewrite lookup_replicate_2 by lia. by rewrite decide_True by lia.
  - rewrite lookup_app_r by (rewrite length_replicate; lia). rewrite length_replicate, lookup_drop.
    rewrite decide_False by lia. replace (i + n + (j - i - n))%nat with j by lia. done.
Qed.

Lemma fill_row_length l i n c : (i + n <= length l)%nat -> length (fill_row l i n c) = length l.
Proof. intros. unfold fill_row. rewrite !length_app, length_take, length_replicate, length_drop. lia. Qed.

Definition in_rect (r : Rect) (x y : Z) : Prop := rx r <= x < rx r + rw r /\ ry r <= y < ry r + rh r.
#[export] Instance in_rect_dec r x y : Decision (in_rect r x y).
Proof. unfold in_rect. apply _. Defined.

Lemma clip_rect_spec r w h :
  match clip_rect r w h with
  | None => forall x y, 0 <= x < w -> 0 <= y < h -> ~ in_rect r x y
  | Some q => 0 <= rx q /\ 0 < rw q /\ rx q + rw q <= w /\ 0 <= ry q /\ 0 < rh q /\ ry q + rh q <= h /\
      forall x y, in_rect q x y <-> in_rect r x y /\ 0 <= x < w /\ 0 <= y < h
  end.
Proof.
  unfold clip_rect, in_rect. destruct (_ || _) eqn:E.
  { bprop. intros x y ? ? [? ?]. repeat (match goal with H : _ \/ _ |- _ => destruct H end; bprop); lia. }
  bprop. cbv zeta. destruct (_ || _) eqn:E'.
  { bprop. intros x y ? ? [? ?]. repeat (match goal with H : _ \/ _ |- _ => destruct H end; bprop); lia. }
  bprop. cbn. repeat split; try lia.
Qed.

(** A run of one row, by index. *)
Lemma row_run w x y n x' y' :
  0 <= x -> 0 < n -> x + n <= w -> 0 <= x' < w -> 0 <= y -> 0 <= y' ->
  (Z.to_nat (y * w + x) <= Z.to_nat (y' * w + x') < Z.to_nat (y * w + x) + Z.to_nat n)%nat <->
  x <= x' < x + n /\ y' = y.
Proof.
  intros. rewrite <- Z2Nat.inj_add, <- Z2Nat.inj_le, <- Z2Nat.inj_lt by nia. split.
  - intros [Hlo Hhi]. assert (y' = y) as -> by nia. lia.
  - intros [? ->]. lia.
Qed.

Definition fill_step (q : Rect) (c : Cell) (f : Framebuffer) (y : Z) : Framebuffer :=
  set_back f (fill_row (back f) (fb_index f (rx q) y) (Z.to_nat (rw q)) c).

Lemma fill_step_spec q c g y :
  0 <= rx q -> 0 < rw q -> rx q + rw q <= fb_w g -> 0 <= y < fb_h g -> fb_ok g ->
  same_front g (fill_step q c g y) /\
  forall x' y', on_grid g x' y' ->
    at_back (fill_step q c g y) x' y' =
    if decide (rx q <= x' < rx q + rw q /\ y' = y) then c else at_back g x' y'.
Proof.
  intros H1 H2 H3 Hy Hg. unfold fill_step.
  assert (fb_index g (rx q) y + Z.to_nat (rw q) <= length (back g))%nat as Hfit.
  { apply Nat2Z.inj_le. rewrite Nat2Z.inj_add, back_length by done. unfold fb_index.
    rewrite !Z2Nat.id by nia. nia. }
  split; [apply same_front_set_back; [done|by apply fill_row_length]|].
  intros x' y' [Hx' Hy']. rewrite at_back_set_back, fill_row_lookup by done. unfold at_back, fb_index.
  apply decide_ext. apply row_run; lia.
Qed.

(** Filling a rectangle paints exactly its part on the screen: every position
    of the grid inside the rectangle, wherever the rectangle lies and however far
    it reaches past the edges, gets the cell; every other position and the whole
    front buffer keep theirs, and the buffers keep their size. *)
Lemma fill_exact f r c :
  fb_ok f ->
  same_front f (fill f r c) /\
  forall x y, on_grid f x y ->
    at_back (fill f r c) x y = if decide (in_rect r x y) then c else at_back f x y.
Proof.
  intros Hok. unfold fill. pose proof (clip_rect_spec r (fb_w f) (fb_h f)) as Hc.
  destruct (clip_rect r (fb_w f) (fb_h f)) as [q|].
  2: { split; [by apply same_front_refl|]. intros x y [Hx Hy]. by rewrite decide_False by (by apply Hc). }
  destruct Hc as (H1 & H2 & H3 & H4 & H5 & H6 & Hin).
  change (fun f y => set_back f _) with (fill_step q c).
  assert (forall l g, fb_w g = fb_w f -> fb_h g = fb_h f -> fb_ok g -> (forall y, y ∈ l -> y ∈ seqZ (ry q) (rh q)) ->
    same_front g (foldl (fill_step q c) g l) /\ forall x y, on_grid g x y ->
      at_back (foldl (fill_step q c) g l) x y =
      if decide (rx q <= x < rx q + rw q /\ y ∈ l) then c else at_back g x y) as Hfold.
  { induction l as [|y l IH]; intros g Hw Hh Hg Hl; cbn [foldl].
    { split; [by apply same_front_refl|]. intros x y _. rewrite decide_False; [done|].
      by intros [_ ?%elem_of_nil]. }
    destruct (fill_step_spec q c g y) as [Hsf Hat]; [lia|lia|lia| |done|].
    { specialize (Hl y ltac:(left)). apply elem_of_seqZ in Hl. lia. }
    pose proof Hsf as [Sw Sh _ Sok].
    destruct (IH (fill_step q c g y)) as [Hsf' Hat']; [congruence|congruence|done|intros; apply Hl; by right|].
    split; [by eapply same_front_trans|]. intros x y' Hg'.
    rewrite Hat' by (by apply (on_grid_same _ _ _ _ Hsf)). rewrite (Hat x y' Hg').
    assert (y' ∈ y :: l <-> y' = y \/ y' ∈ l) as Hc by apply elem_of_cons.
    repeat case_decide; try done; exfalso; tauto. }
  destruct (Hfold (seqZ (ry q) (rh q)) f eq_refl eq_refl Hok ltac:(done)) as [Hsf Hat].
  split; [done|]. intros x y Hg. rewrite Hat by done. apply decide_ext. rewrite elem_of_seqZ.
  destruct Hg as [Hx Hy]. specialize (Hin x y). unfold in_rect in *. lia.
Qed.

(** ** Boxes *)

(** The outline of a rectangle, and the glyph each of its positions gets. *)
Definition on_border (r : Rect) (x y : Z) : Prop :=
  in_rect r x y /\ (x = rx r \/ x = rx r + rw r - 1 \/ y = ry r \/ y = ry r + rh r - 1).
#[export] Instance on_border_dec r x y : Decision (on_border r x y).
Proof. unfold on_border. apply _. Defined.

Definition border_glyph (g : BoxGlyphs) (r : Rect) (x y : Z) : Z :=
  let x1 := rx r + rw r - 1 in
  let y1 := ry r + rh r - 1 in
  if decide (y = ry r) then
    if decide (x = rx r) then g_tl g else if decide (x = x1) then g_tr g else g_h g
  else if decide (y = y1) then
    if decide (x = rx r) then g_bl g else if decide (x = x1) then g_br g else g_h g
  else g_v g.

(** [paints f g P c]: [g] is [f] with the cell [c] wherever [P] holds. *)
Definition paints (f g : Framebuffer) (P : Z -> Z -> Prop) (c : Cell) : Prop :=
  same_front f g /\
  forall x y, on_grid f x y -> (P x y /\ at_back g x y = c) \/ (~ P x y /\ at_back g x y = at_back f x y).

Lemma paints_put f x y c : fb_ok f -> paints f (put f x y c) (fun x' y' => x' = x /\ y' = y) c.
Proof.
  intros Hok. destruct (put_spec f x y c Hok) as [S A]. split; [done|]. intros x' y' Hg.
  rewrite A by done. case_decide; [by left|by right].
Qed.

Lemma paints_put_if (b : bool) f x y c :
  fb_ok f -> paints f (put_if b f x y c) (fun x' y' => b = true /\ x' = x /\ y' = y) c.
Proof.
  intros Hok. destruct b; cbn [put_if].
  - destruct (paints_put f x y c Hok) as [S A]. split; [done|]. intros x' y' Hg.
    destruct (A x' y' Hg) as [[? ?]|[? ?]]; [left|right]; intuition.
  - split; [by apply same_front_refl|]. intros x' y' Hg. right. split; [by intros [? _]|done].
Qed.

Lemma paints_both f g h P Q c : paints f g P c -> paints g h Q c -> paints f h (fun x y => P x y \/ Q x y) c.
Proof.
  intros [S1 A1] [S2 A2]. split; [by eapply same_front_trans|]. intros x y Hg.
  assert (on_grid g x y) as Hg' by (by apply (on_grid_same _ _ _ _ S1)).
  destruct (A1 x y Hg) as [[? E1]|[? E1]], (A2 x y Hg') as [[? E2]|[? E2]];
    [left|left|left|right]; rewrite E2, ?E1; intuition.
Qed.

Lemma paints_fold {A} (step : Framebuffer -> A -> Framebuffer) (P : A -> Z -> Z -> Prop) c l f :
  (forall f a, fb_ok f -> paints f (step f a) (P a) c) -> fb_ok f ->
  paints f (foldl step f l) (fun x y => exists a, a ∈ l /\ P a x y) c.
Proof.
  intros Hstep. revert f. induction l as [|a l IH]; intros f Hok; cbn [foldl].
  { split; [by apply same_front_refl|]. intros x y _. right. split; [|done]. by intros (? & ?%elem_of_nil & _). }
  pose proof (Hstep f a Hok) as H1. pose proof (IH _ (sf_ok _ _ (proj1 H1))) as H2.
  destruct (paints_both _ _ _ _ _ _ H1 H2) as [S A']. split; [done|]. intros x y Hg.
  destruct (A' x y Hg) as [[[?|(b & ? & ?)] ?]|[Hn ?]]; [left..|right].
  - split; [exists a; split; [left|done]|done].
  - split; [exists b; split; [by right|done]|done].
  - split; [|done]. intros (b & [-> | Hb]%elem_of_cons & Hp); apply Hn; [by left|right; by exists b].
Qed.

Lemma elem_of_range lo hi a : a ∈ range lo hi <-> lo <= a <= hi.
Proof. unfold range. rewrite elem_of_seqZ. lia. Qed.

(** Decide every comparison of the goal by arithmetic. *)
Ltac decides := repeat first [rewrite decide_True by lia | rewrite decide_False by lia].

(** A box draws its outline and nothing else: each position of the grid on
    the rectangle's border, also of a box one cell wide or tall or reaching past
    the screen, gets the style's glyph for its place (corners winning over
    edges); the interior, everything outside and the front buffer are left
    alone. *)
Lemma box_exact f r style fgc bgc at' :
  fb_ok f -> 0 < rw r -> 0 < rh r ->
  same_front f (box f r style fgc bgc at') /\
  forall x y, on_grid f x y ->
    at_back (box f r style fgc bgc at') x y =
    if decide (on_border r x y)
    then mkCell (border_glyph (box_glyphs_for style) r x y) fgc bgc at'
    else at_back f x y.
Proof.
  intros Hok Hw Hh. unfold box.
  destruct (fb_empty f) eqn:Hemp.
  { rewrite orb_true_r. split; [by apply same_front_refl|]. unfold fb_empty in Hemp. intros x y [? ?].
    bprop. exfalso. destruct Hemp; bprop; lia. }
  destruct (Z.leb_spec (rw r) 0); [lia|]. destruct (Z.leb_spec (rh r) 0); [lia|]. cbn [orb]. cbv zeta.
  set (g := box_glyphs_for style).
  set (x1 := rx r + rw r - 1). set (y1 := ry r + rh r - 1).
  set (wide := negb (x1 =? rx r)). set (tall := negb (y1 =? ry r)).
  assert (wide = true <-> x1 <> rx r) as Hwide by (subst wide; rewrite negb_true_iff; apply Z.eqb_neq).
  assert (tall = true <-> y1 <> ry r) as Htall by (subst tall; rewrite negb_true_iff; apply Z.eqb_neq).
  set (xs := range _ _). set (ys := range _ _).
  assert (forall a, a ∈ xs <-> Z.max (rx r + 1) 0 <= a <= Z.min (x1 - 1) (fb_w f - 1)) as Hxs by apply elem_of_range.
  assert (forall a, a ∈ ys <-> Z.max (ry r + 1) 0 <= a <= Z.min (y1 - 1) (fb_h f - 1)) as Hys by apply elem_of_range.
  assert (rx r + rw r = x1 + 1 /\ ry r + rh r = y1 + 1 /\ rx r <= x1 /\ ry r <= y1) as (Ex & Ey & Hx & Hy)
    by (unfold x1, y1; lia).
  clearbody xs ys wide tall x1 y1 g.
  pose proof (paints_fold (hedge_step (ry r) y1 tall (mkCell (g_h g) fgc bgc at')) _ _ xs f
    (fun f x Hf => let P1 := paints_put f x (ry r) _ Hf in
       paints_both _ _ _ _ _ _ P1 (paints_put_if tall _ x y1 _ (sf_ok _ _ (proj1 P1)))) Hok) as [S1 A1].
  set (f1 := foldl _ f xs) in *. clearbody f1.
  pose proof (paints_fold (vedge_step (rx r) x1 wide (mkCell (g_v g) fgc bgc at')) _ _ ys f1
    (fun f y Hf => let P1 := paints_put f (rx r) y _ Hf in
       paints_both _ _ _ _ _ _ P1 (paints_put_if wide _ x1 y _ (sf_ok _ _ (proj1 P1)))) (sf_ok _ _ S1)) as [S2 A2].
  set (f2 := foldl _ f1 ys) in *. clearbody f2.
  destruct (paints_put f2 (rx r) (ry r) (mkCell (g_tl g) fgc bgc at') (sf_ok _ _ S2)) as [S3 A3].
  set (f3 := put f2 _ _ _) in *. clearbody f3.
  destruct (paints_put_if wide f3 x1 (ry r) (mkCell (g_tr g) fgc bgc at') (sf_ok _ _ S3)) as [S4 A4].
  set (f4 := put_if wide f3 _ _ _) in *. clearbody f4.
  destruct (paints_put_if tall f4 (rx r) y1 (mkCell (g_bl g) fgc bgc at') (sf_ok _ _ S4)) as [S5 A5].
  set (f5 := put_if tall f4 _ _ _) in *. clearbody f5.
  destruct (paints_put_if (wide && tall) f5 x1 y1 (mkCell (g_br g) fgc bgc at') (sf_ok _ _ S5)) as [S6 A6].
  set (f6 := put_if (wide && tall) f5 _ _ _) in *. clearbody f6.
  pose proof (same_front_trans _ _ _ S1 S2) as T2. pose proof (same_front_trans _ _ _ T2 S3) as T3.
  pose proof (same_front_trans _ _ _ T3 S4) as T4. pose proof (same_front_trans _ _ _ T4 S5) as T5.
  split; [by eapply same_front_trans|]. intros x y Hg.
  specialize (A1 x y Hg). specialize (A2 x y (proj2 (on_grid_same _ _ x y S1) Hg)).
  specialize (A3 x y (proj2 (on_grid_same _ _ x y T2) Hg)).
  specialize (A4 x y (proj2 (on_grid_same _ _ x y T3) Hg)).
  specialize (A5 x y (proj2 (on_grid_same _ _ x y T4) Hg)).
  specialize (A6 x y (proj2 (on_grid_same _ _ x y T5) Hg)).
  rewrite andb_true_iff in A6. rewrite Hwide, Htall in *. setoid_rewrite Htall in A1. setoid_rewrite Hwide in A2.
  assert ((exists a, a ∈ xs /\ (x = a /\ y = ry r \/ y1 <> ry r /\ x = a /\ y = y1)) <->
    (rx r < x < x1 /\ (y = ry r \/ y1 <> ry r /\ y = y1))) as H1.
  { setoid_rewrite Hxs. clear - Hg. destruct Hg. split.
    - intros (a & ? & ?). lia.
    - intros ?. exists x. lia. }
  assert ((exists a, a ∈ ys /\ (x = rx r /\ y = a \/ x1 <> rx r /\ x = x1 /\ y = a)) <->
    (ry r < y < y1 /\ (x = rx r \/ x1 <> rx r /\ x = x1))) as H2.
  { setoid_rewrite Hys. clear - Hg. destruct Hg. split.
    - intros (a & ? & ?). lia.
    - intros ?. exists y. lia. }
  rewrite H1 in A1. rewrite H2 in A2. clear - A1 A2 A3 A4 A5 A6 Ex Ey Hx Hy.
  unfold on_border, in_rect, border_glyph.
  destruct A6 as [[P6 ->]|[N6 ->]]; [clear - P6 Ex Ey Hx Hy; by decides|].
  destruct A5 as [[P5 ->]|[N5 ->]]; [clear - P5 Ex Ey Hx Hy; by decides|].
  destruct A4 as [[P4 ->]|[N4 ->]]; [clear - P4 Ex Ey Hx Hy; by decides|].
  destruct A3 as [[P3 ->]|[N3 ->]]; [clear - P3 Ex Ey Hx Hy; by decides|].
  destruct A2 as [[P2 ->]|[N2 ->]]; [clear - P2 Ex Ey Hx Hy; by decides|].
  destruct A1 as [[[P1 [-> | [Pt ->]]] ->]|[N1 ->]]; [clear - P1 Ex Ey Hx Hy; by decides|clear - P1 Pt Ex Ey Hx Hy; by decides|].
  by rewrite decide_False by lia.
Qed.

(** ** Text *)

(** The code points of a byte string, malformed bytes as replacement characters. *)
Fixpoint decode_all (fuel : nat) (s : list Z) : list Z :=
  match fuel, s with
  | S fuel, _ :: _ => let '(cp, n) := utf8_decode s in cp :: decode_all fuel (drop (Z.to_nat n) s)
  | _, _ => []
  end.
Definition code_points (s : list Z) : list Z := decode_all (length s) s.

Lemma utf8_decode_length s : 1 <= (utf8_decode s).2 <= 4.
Proof. unfold utf8_decode. destruct s as [|b0 s]; cbn [snd]; [lia|]. cbv zeta. tests; cbn [snd]; lia. Qed.

Lemma text_loop_spec fuel f col y s fgc bgc at' written :
  fb_ok f -> 0 <= y < fb_h f -> (length s <= fuel)%nat ->
  let '(g, n) := text_loop fuel f col y s fgc bgc at' written in
  same_front f g /\
  (forall x' y', on_grid f x' y' ->
    at_back g x' y' =
    if decide (y' = y /\ col <= x' < col + Z.of_nat (length (decode_all fuel s)))
    then mkCell (decode_all fuel s !!! Z.to_nat (x' - col)) fgc bgc at'
    else at_back f x' y') /\
  n = written + Z.max 0 (Z.min (fb_w f) (col + Z.of_nat (length (decode_all fuel s))) - Z.max 0 col).
Proof.
  revert f col s written. induction fuel as [|fuel IH]; intros f col s written Hok Hy Hlen.
  { destruct s; [|cbn in Hlen; lia]. cbn [text_loop decode_all length].
    split; [by apply same_front_refl|]. split; [|lia]. intros x' y' _. by rewrite decide_False by lia. }
  cbn [text_loop]. destruct s as [|b s].
  { change (0 <? Z.of_nat (length [])) with false. cbn [andb decode_all length].
    split; [by apply same_front_refl|]. split; [|lia]. intros x' y' _. by rewrite decide_False by lia. }
  replace (0 <? Z.of_nat (length (b :: s))) with true by (symmetry; apply Z.ltb_lt; cbn; lia).
  cbn [andb decode_all]. pose proof (utf8_decode_length (b :: s)) as Hn.
  destruct (utf8_decode (b :: s)) as [cp n]. cbn [snd] in Hn.
  set (rest := drop (Z.to_nat n) (b :: s)).
  assert (length rest <= fuel)%nat as Hrest by (unfold rest; rewrite length_drop; cbn in *; lia).
  clearbody rest. set (cps := decode_all fuel rest) in *.
  destruct (Z.ltb_spec col (fb_w f)) as [Hw|Hw].
  2: { split; [by apply same_front_refl|]. split; [|cbn [length]; lia].
       intros x' y' [? ?]. by rewrite decide_False by lia. }
  assert (forall x', col < x' -> (cp :: cps) !!! Z.to_nat (x' - col) = cps !!! Z.to_nat (x' - (col + 1))) as Hnext.
  { intros x' Hx. replace (Z.to_nat (x' - col)) with (S (Z.to_nat (x' - (col + 1)))) by lia. done. }
  destruct (Z.leb_spec 0 col) as [H0|H0].
  - set (f1 := set_back f _).
    assert (same_front f f1 /\ forall x' y', on_grid f x' y' ->
      at_back f1 x' y' = if decide (x' = col /\ y' = y) then mkCell cp fgc bgc at' else at_back f x' y') as [S1 A1].
    { destruct (put_spec f col y (mkCell cp fgc bgc at') Hok) as [S A]. unfold put in S, A.
      assert (fb_contains f col y = true) as E by (apply fb_contains_spec; split; lia).
      rewrite E in S, A. done. }
    clearbody f1. specialize (IH f1 (col + 1) rest (written + 1) (sf_ok _ _ S1)).
    destruct (text_loop fuel f1 (col + 1) y rest fgc bgc at' (written + 1)) as [g n'].
    pose proof S1 as [Sw Sh _ _]. rewrite Sh, Sw in IH. destruct (IH Hy Hrest) as (S2 & A2 & ->). fold cps in A2 |- *.
    split; [by eapply same_front_trans|]. split; [|cbn [length]; lia].
    intros x' y' Hg. rewrite A2 by (by apply (on_grid_same _ _ _ _ S1)). rewrite A1 by done. cbn [length].
    destruct (decide (y' = y /\ x' = col)) as [[-> ->]|Hne].
    + decides. by rewrite Z.sub_diag.
    + rewrite (decide_False (P := x' = col /\ y' = y)) by lia.
      repeat case_decide; try lia; [by rewrite Hnext by lia|done].
  - specialize (IH f (col + 1) rest written Hok Hy Hrest).
    destruct (text_loop fuel f (col + 1) y rest fgc bgc at' written) as [g n'].
    destruct IH as (S2 & A2 & ->). fold cps in A2 |- *. split; [done|]. split; [|cbn [length]; lia].
    intros x' y' Hg. rewrite A2 by done. cbn [length]. destruct Hg.
    repeat case_decide; try lia; [by rewrite Hnext by lia|done].
Qed.

(** Text lands where it was aimed and nowhere else: code point [i] of the
    string goes to column [x + i] of the row if that column is on the screen,
    starting left of the edge included; all other cells and the front buffer are
    untouched; the result is the number of columns written. *)
Lemma text_exact f x y s fgc bgc at' :
  fb_ok f -> 0 <= y < fb_h f -> 0 < fb_w f ->
  let '(g, n) := text f x y s fgc bgc at' in
  let cps := code_points s in
  same_front f g /\
  (forall x' y', on_grid f x' y' ->
    at_back g x' y' =
    if decide (y' = y /\ x <= x' < x + Z.of_nat (length cps))
    then mkCell (cps !!! Z.to_nat (x' - x)) fgc bgc at' else at_back f x' y') /\
  n = Z.max 0 (Z.min (fb_w f) (x + Z.of_nat (length cps)) - Z.max 0 x).
Proof.
  intros Hok Hy Hw. unfold text, code_points.
  destruct (Z.ltb_spec y 0); [lia|]. destruct (Z.leb_spec (fb_h f) y); [lia|].
  destruct (Z.leb_spec (fb_w f) 0); [lia|]. cbn [orb].
  pose proof (text_loop_spec (length s) f x y s fgc bgc at' 0 Hok Hy ltac:(lia)) as H'.
  by destruct (text_loop (length s) f x y s fgc bgc at' 0).
Qed.

(** ** Sizing and swapping keep the shape *)
Lemma resize_ok f w h : fb_ok f -> fb_ok (resize f w h).1.
Proof.
  intros Hok. unfold resize. destruct (_ || _) eqn:E; [done|]. bprop.
  destruct (kMaxCells <? w * h); [done|]. split; cbn; rewrite ?length_replicate; lia || nia.
Qed.

Lemma new_fb_ok : fb_ok new_fb.
Proof. by split. Qed.

(** A frame boundary hands over the picture: after a swap the front buffer is
    what was drawn, and the back buffer is blank and of the same size. *)
Lemma swap_shows_back f c :
  fb_ok f -> fb_ok (swap f c) /\ front (swap f c) = back f /\
  back (swap f c) = replicate (length (back f)) c /\ fb_w (swap f c) = fb_w f /\ fb_h (swap f c) = fb_h f.
Proof.
  intros [Hd Ha Hb]. unfold swap, set_back, front, back. destruct (front_is_a f); cbn.
  all: assert (forall l : list Cell, (fun _ => c) <$> l = replicate (length l) c) as Hr
    by (intros l; induction l as [|? l IH]; [done|cbn; by f_equal]).
  all: rewrite !Hr; split; [split; cbn; rewrite ?length_replicate; done|].
  all: repeat split; rewrite ?length_replicate; try done; f_equal; lia.
Qed.

Definition demo_fb : Framebuffer := (resize new_fb 6 4).1.
Lemma demo_fb_ok : fb_ok demo_fb.
Proof. apply resize_ok, new_fb_ok. Qed.

(** The framebuffer draws what it was asked to and nothing else.  Filling a
    rectangle, wherever it lies and however far it reaches past the edges,
    paints exactly its part on the screen; a box, also one cell wide or tall,
    puts on each position of its border the glyph of that place and leaves its
    interior alone; text puts code point [i] in column [x + i], where that is on
    the screen, and returns the number of columns written; in all three the
    front buffer and the size of the screen stay as they were.  Swapping then
    makes the drawn picture the front one over a blank back buffer. *)
Theorem drawing_exact f r c style fgc bgc at' x y s :
  fb_ok f -> 0 < rw r -> 0 < rh r -> 0 <= y < fb_h f -> 0 < fb_w f ->
  (same_front f (fill f r c) /\
   forall i j, on_grid f i j ->
     at_back (fill f r c) i j = if decide (in_rect r i j) then c else at_back f i j) /\
  (same_front f (box f r style fgc bgc at') /\
   forall i j, on_grid f i j ->
     at_back (box f r style fgc bgc at') i j =
     if decide (on_border r i j) then mkCell (border_glyph (box_glyphs_for style) r i j) fgc bgc at'
     else at_back f i j) /\
  (let '(g, n) := text f x y s fgc bgc at' in
   let cps := code_points s in
   same_front f g /\
   (forall i j, on_grid f i j ->
      at_back g i j = if decide (j = y /\ x <= i < x + Z.of_nat (length cps))
                      then mkCell (cps !!! Z.to_nat (i - x)) fgc bgc at' else at_back f i j) /\
   n = Z.max 0 (Z.min (fb_w f) (x + Z.of_nat (length cps)) - Z.max 0 x)) /\
  (front (swap f c) = back f /\ back (swap f c) = replicate (length (back f)) c).
Proof.
  intros Hok Hw Hh Hy Hfw. split; [by apply fill_exact|]. split; [by apply box_exact|].
  split; [by apply text_exact|]. by destruct (swap_shows_back f c Hok) as (_ & -> & -> & _).
Qed.

Lemma drawing_exact_witness :
  at_back (fill demo_fb (mkRect 1 1 9 3) (mkCell 35 1 2 0)) 1 3 = mkCell 35 1 2 0 /\
  at_back (box demo_fb (mkRect 1 1 9 3) Heavy 1 2 0) 4 1 = mkCell 0x2501 1 2 0 /\
  at_back (text demo_fb (-1) 2 [97; 0xC3; 0xA9; 98] 1 2 0).1 0 2 = mkCell 0xE9 1 2 0.
Proof.
  assert (0 <= 2 < fb_h demo_fb) as Hy by (vm_compute; intuition congruence).
  destruct (drawing_exact demo_fb (mkRect 1 1 9 3) (mkCell 35 1 2 0) Heavy 1 2 0 (-1) 2 [97; 0xC3; 0xA9; 98]
    demo_fb_ok eq_refl eq_refl Hy eq_refl) as ([_ Hf] & [_ Hb] & Ht & _).
  split; [|split].
  - exact (Hf 1 3 ltac:(vm_compute; intuition congruence)).
  - exact (Hb 4 1 ltac:(vm_compute; intuition congruence)).
  - exact (proj1 (proj2 Ht) 0 2 ltac:(vm_compute; intuition congruence)).
Defined.

(** ** Staying inside an area

    What the panels are promised: a drawing confined to an area leaves the rest
    of the screen, the front buffer and the dimensions alone. *)
Record confined (P : Z -> Z -> Prop) (f g : Framebuffer) : Prop := {
  cf_same : same_front f g;
  cf_rest : forall x y, on_grid f x y -> ~ P x y -> at_back g x y = at_back f x y
}.

Lemma confined_ok P f g : confined P f g -> fb_ok g.
Proof. intros [[_ _ _ ?] _]. done. Qed.
Lemma confined_w P f g : confined P f g -> fb_w g = fb_w f.
Proof. intros [[? _ _ _] _]. done. Qed.
Lemma confined_h P f g : confined P f g -> fb_h g = fb_h f.
Proof. intros [[_ ? _ _] _]. done. Qed.

Lemma confined_refl P f : fb_ok f -> confined P f f.
Proof. split; [by apply same_front_refl|done]. Qed.
Lemma confined_trans P f g h : confined P f g -> confined P g h -> confined P f h.
Proof.
  intros [S1 R1] [S2 R2]. split; [by eapply same_front_trans|]. intros x y Hg Hp.
  rewrite R2; [by apply R1|by apply (on_grid_same _ _ _ _ S1)|done].
Qed.
Lemma confined_mono P Q f g : (forall x y, on_grid f x y -> P x y -> Q x y) -> confined P f g -> confined Q f g.
Proof. intros Hpq [S R]. split; [done|]. intros x y Hg Hq. apply R; [done|]. intros Hp. by apply Hq, Hpq. Qed.

(** Confinement in two steps, the second from whatever the first left. *)
Lemma confined_step P f g h : confined P f g -> (fb_ok g -> confined P g h) -> confined P f h.
Proof. intros Hg Hh. eapply confined_trans; [done|]. apply Hh. by eapply confined_ok. Qed.

Lemma confined_fold {A} P (step : Framebuffer -> A -> Framebuffer) (l : list A) :
  (forall f a, a ∈ l -> fb_ok f -> confined P f (step f a)) ->
  forall f, fb_ok f -> confined P f (foldl step f l).
Proof.
  induction l as [|a l IH]; intros Hs f Hf; [by apply confined_refl|]. cbn [foldl].
  eapply confined_step; [by apply Hs; [left|]|]. intros. apply IH; [|done]. intros. apply Hs; [by right|done].
Qed.

Lemma code_points_length s : (length (code_points s) <= length s)%nat.
Proof.
  unfold code_points. generalize (length s) as n. intros n. revert s.
  induction n as [|n IH]; intros s; [done|]. cbn [decode_all]. destruct s; [cbn; lia|].
  cbv zeta. destruct (utf8_decode _) as [cp adv]. cbn [length]. specialize (IH (drop (Z.to_nat adv) (z :: s))). lia.
Qed.

Lemma confined_put f x y c : fb_ok f -> confined (fun i j => i = x /\ j = y) f (put f x y c).
Proof.
  intros Hok. destruct (put_spec f x y c Hok) as [S A]. split; [done|]. intros i j Hg Hp.
  rewrite A by done. by rewrite decide_False.
Qed.

Lemma confined_fill f r c : fb_ok f -> confined (in_rect r) f (fill f r c).
Proof.
  intros Hok. destruct (fill_exact f r c Hok) as [S A]. split; [done|]. intros i j Hg Hp.
  rewrite A by done. by rewrite decide_False.
Qed.

Lemma confined_box f r style fgc bgc at' : fb_ok f -> confined (in_rect r) f (box f r style fgc bgc at').
Proof.
  intros Hok. destruct (decide (0 < rw r /\ 0 < rh r)) as [[Hw Hh]|Hn].
  - destruct (box_exact f r style fgc bgc at' Hok Hw Hh) as [S A]. split; [done|]. intros i j Hg Hp.
    rewrite A by done. rewrite decide_False; [done|]. by intros [? _].
  - assert (box f r style fgc bgc at' = f) as ->; [|by apply confined_refl]. unfold box.
    destruct (Z.leb_spec (rw r) 0); [done|]. destruct (Z.leb_spec (rh r) 0); [done|]. lia.
Qed.

(** Text covers at most as many columns as the string has bytes. *)
Lemma confined_text f x y s fgc bgc at' :
  fb_ok f -> confined (fun i j => j = y /\ x <= i < x + Z.of_nat (length s)) f (text f x y s fgc bgc at').1.
Proof.
  intros Hok. destruct (decide (0 <= y < fb_h f /\ 0 < fb_w f)) as [[Hy Hw]|Hn].
  - pose proof (text_exact f x y s fgc bgc at' Hok Hy Hw) as Ht. destruct (text f x y s fgc bgc at') as [g n].
    destruct Ht as (S & A & _). cbn [fst]. split; [done|]. intros i j Hg Hp. rewrite A by done.
    rewrite decide_False; [done|]. pose proof (code_points_length s). lia.
  - assert ((text f x y s fgc bgc at').1 = f) as ->; [|by apply confined_refl]. unfold text.
    destruct (Z.ltb_spec y 0); [done|]. destruct (Z.leb_spec (fb_h f) y); [done|].
    destruct (Z.leb_spec (fb_w f) 0); [done|]. lia.
Qed.

Create HintDb drawing.

(** Peel the last drawing operation of a composition, with the lemmas of the
    database, until nothing is left. *)
Ltac drawn :=
  first [ by apply confined_refl
        | by eauto 2 with drawing
        | eapply confined_step; [|intros ?; solve [eauto 2 with drawing]]; drawn ].
