(* ===== verification/Capabilities.v ===== *)
(** * Terminal capabilities (src/src/tui/capabilities.h, capabilities.cpp)

    Colour depth from the environment, the glyph sets, the two colour
    quantisers and the minimum geometry. *)

From Stdlib Require Import String.
From S2P Require Import Prelude Framebuffer.

Inductive ColorMode := TrueColor | Cube256 | Ansi16.
#[export] Instance ColorMode_eq_dec : EqDecision ColorMode.
Proof. solve_decision. Defined.

Definition color_mode_str (m : ColorMode) : list Z :=
  match m with
  | TrueColor => str "truecolor (24-bit)"
  | Cube256 => str "256-colour"
  | Ansi16 => str "16-colour"
  end.

Record GlyphSet := mkGlyphSet {
  gs_full : Z; gs_dark : Z; gs_medium : Z; gs_light : Z; gs_half : Z; gs_box : BoxStyle }.
Record Capabilities := mkCaps { caps_color : ColorMode; caps_unicode : bool }.

Definition glyphs_for (caps : Capabilities) : GlyphSet :=
  if caps_unicode caps then mkGlyphSet 0x2588 0x2593 0x2592 0x2591 0x2580 Rounded
  else mkGlyphSet 35 79 61 46 35 AsciiBox.

Definition kSingleWidth : list Z :=
  [0x2591; 0x2592; 0x2593; 0x2588; 0x2580;
   0x2500; 0x2502; 0x250C; 0x2510; 0x2514; 0x2518;
   0x251C; 0x2524; 0x252C; 0x2534; 0x253C;
   0x2501; 0x2503; 0x250F; 0x2513; 0x2517; 0x251B;
   0x256D; 0x256E; 0x2570; 0x256F].
Definition glyph_is_single_width (g : Z) : bool :=
  if (0x20 <=? g) && (g <=? 0x7e) then true else bool_decide (g ∈ kSingleWidth).

(** C strings that may be null. *)
Definition str_eq (a : option (list Z)) (b : list Z) : bool :=
  match a with Some a => bool_decide (a = b) | None => false end.

(** [strstr]. *)
Fixpoint occurs (hay needle : list Z) : bool :=
  bool_decide (take (List.length needle) hay = needle) ||
  match hay with [] => false | _ :: hay => occurs hay needle end.
Definition contains (hay : option (list Z)) (needle : list Z) : bool :=
  match hay with Some h => occurs h needle | None => false end.

Definition kEight : list (list Z) :=
  str <$> ["linux"; "ansi"; "vt100"; "vt102"; "vt220"; "cons25"; "screen.linux"]%string.
Definition is_known_8_colour (term : option (list Z)) : bool := existsb (str_eq term) kEight.

Definition detect_capabilities (colorterm term : option (list Z)) (force_ascii : bool) : Capabilities :=
  let unicode := negb force_ascii in
  if str_eq colorterm (str "truecolor") || str_eq colorterm (str "24bit") then mkCaps TrueColor unicode
  else if match term with None | Some [] => true | _ => str_eq term (str "dumb") end
  then mkCaps Ansi16 unicode
  else if contains term (str "direct") then mkCaps TrueColor unicode
  else if contains term (str "16color") || is_known_8_colour term then mkCaps Ansi16 unicode
  else mkCaps Cube256 unicode.

(** ** The quantisers *)

Definition kCubeLevels : list Z := [0; 95; 135; 175; 215; 255].

Definition level_dist (l v : Z) : Z := if v <? l then l - v else v - l.

Fixpoint nearest_loop (levels : list Z) (i v best best_d : Z) : Z :=
  match levels with
  | [] => best
  | l :: levels =>
      let d := level_dist l v in
      if d <? best_d then nearest_loop levels (i + 1) v i d
      else nearest_loop levels (i + 1) v best best_d
  end.
Definition nearest_cube_level (v : Z) : Z :=
  nearest_loop [95; 135; 175; 215; 255] 1 v 0 (level_dist 0 v).

Definition dist2 (r1 g1 b1 r2 g2 b2 : Z) : Z :=
  let dr := r1 - r2 in
  let dg := g1 - g2 in
  let db := b1 - b2 in
  dr * dr + dg * dg + db * db.

Definition red (c : Z) : Z := Z.land (Z.shiftr c 16) 0xFF.
Definition green (c : Z) : Z := Z.land (Z.shiftr c 8) 0xFF.
Definition blue (c : Z) : Z := Z.land c 0xFF.
Definition cube_level (i : Z) : Z := kCubeLevels !!! Z.to_nat i.

(** The last comparisons of [rgb_to_cube256], on the channels. *)
Definition cube256_of (r g b : Z) : Z :=
  let ri := nearest_cube_level r in
  let gi := nearest_cube_level g in
  let bi := nearest_cube_level b in
  let cube_err := dist2 r g b (cube_level ri) (cube_level gi) (cube_level bi) in
  let avg := (r + g + b) / 3 in
  let gray_i := if avg <=? 8 then 0 else if 238 <=? avg then 23 else (avg - 3) / 10 in
  let gray_v := 8 + 10 * gray_i in
  let gray_err := dist2 r g b gray_v gray_v gray_v in
  if gray_err <? cube_err then u8 (232 + gray_i) else u8 (16 + 36 * ri + 6 * gi + bi).
Definition rgb_to_cube256 (c : Z) : Z := cube256_of (red c) (green c) (blue c).

Definition kAnsi16 : list Z :=
  [0x00000000; 0x00800000; 0x00008000; 0x00808000;
   0x00000080; 0x00800080; 0x00008080; 0x00C0C0C0;
   0x00808080; 0x00FF0000; 0x0000FF00; 0x00FFFF00;
   0x000000FF; 0x00FF00FF; 0x0000FFFF; 0x00FFFFFF].

Fixpoint ansi_loop (palette : list Z) (i r g b best best_d : Z) : Z :=
  match palette with
  | [] => best
  | p :: palette =>
      let d := dist2 r g b (red p) (green p) (blue p) in
      if (best_d <? 0) || (d <? best_d) then ansi_loop palette (i + 1) r g b i d
      else ansi_loop palette (i + 1) r g b best best_d
  end.
Definition rgb_to_ansi16 (c : Z) : Z :=
  u8 (ansi_loop kAnsi16 0 (red c) (green c) (blue c) 0 (-1)).

Definition kMinUsableWidth : Z := 80.
Definition kMinUsableHeight : Z := 24.
Definition size_is_usable (w h : Z) : bool := (kMinUsableWidth <=? w) && (kMinUsableHeight <=? h).

(** ** Nearest colours *)

(** The reference palettes: the cube and the grey ramp of the 256-colour one. *)
Definition palette_err (j r g b : Z) : Z :=
  if j <? 232 then
    dist2 r g b (cube_level ((j - 16) / 36)) (cube_level ((j - 16) / 6 mod 6)) (cube_level ((j - 16) mod 6))
  else let v := 8 + 10 * (j - 232) in dist2 r g b v v v.

Lemma nearest_level v k :
  0 <= v < 256 -> 0 <= k < 6 ->
  0 <= nearest_cube_level v < 6 /\
  Z.abs (v - cube_level (nearest_cube_level v)) <= Z.abs (v - cube_level k).
Proof.
  intros Hv Hk.
  assert (forallb (fun v => forallb (fun k =>
    (0 <=? nearest_cube_level v) && (nearest_cube_level v <? 6) &&
    (Z.abs (v - cube_level (nearest_cube_level v)) <=? Z.abs (v - cube_level k)))
    (seqZ 0 6)) (seqZ 0 256) = true) as Hall by (by vm_compute).
  rewrite forallb_forall in Hall. specialize (Hall v). rewrite <- list_elem_of_In, elem_of_seqZ in Hall.
  specialize (Hall ltac:(lia)). rewrite forallb_forall in Hall. specialize (Hall k).
  rewrite <- list_elem_of_In, elem_of_seqZ in Hall. specialize (Hall ltac:(lia)). bprop. lia.
Qed.

Lemma square_mono a b : Z.abs a <= Z.abs b -> a * a <= b * b.
Proof. intros. rewrite <- (Z.abs_square a), <- (Z.abs_square b). nia. Qed.

Lemma cube_nearest r g b i j k :
  0 <= r < 256 -> 0 <= g < 256 -> 0 <= b < 256 -> 0 <= i < 6 -> 0 <= j < 6 -> 0 <= k < 6 ->
  dist2 r g b (cube_level (nearest_cube_level r)) (cube_level (nearest_cube_level g))
    (cube_level (nearest_cube_level b)) <= dist2 r g b (cube_level i) (cube_level j) (cube_level k).
Proof.
  intros Hr Hg Hb Hi Hj Hk. unfold dist2.
  destruct (nearest_level r i Hr Hi) as [_ ?%square_mono], (nearest_level g j Hg Hj) as [_ ?%square_mono],
    (nearest_level b k Hb Hk) as [_ ?%square_mono]. lia.
Qed.

Lemma grey_nearest r g b k :
  0 <= r < 256 -> 0 <= g < 256 -> 0 <= b < 256 -> 0 <= k < 24 ->
  let avg := (r + g + b) / 3 in
  let i := if avg <=? 8 then 0 else if 238 <=? avg then 23 else (avg - 3) / 10 in
  0 <= i < 24 /\
  dist2 r g b (8 + 10 * i) (8 + 10 * i) (8 + 10 * i) <= dist2 r g b (8 + 10 * k) (8 + 10 * k) (8 + 10 * k).
Proof.
  intros Hr Hg Hb Hk avg i.
  assert (0 <= i < 24 /\ (i < k -> r + g + b <= 3 * (8 + 10 * i) + 15) /\
    (k < i -> 3 * (8 + 10 * i) - 15 <= r + g + b)) as (Hi & Hup & Hdn).
  { subst i avg. destruct (Z.leb_spec ((r + g + b) / 3) 8); [|destruct (Z.leb_spec 238 ((r + g + b) / 3))];
      Z.div_mod_to_equations; lia. }
  split; [done|]. clearbody i. clear avg.
  assert (dist2 r g b (8 + 10 * k) (8 + 10 * k) (8 + 10 * k) - dist2 r g b (8 + 10 * i) (8 + 10 * i) (8 + 10 * i) =
    (10 * (k - i)) * (3 * (16 + 10 * (k + i)) - 2 * (r + g + b))) as Hd by (unfold dist2; ring).
  enough (0 <= (10 * (k - i)) * (3 * (16 + 10 * (k + i)) - 2 * (r + g + b))) by lia. clear Hd.
  destruct (Z.lt_trichotomy i k) as [H|[->|H]]; [specialize (Hup H)|lia|specialize (Hdn H)].
  - apply Z.mul_nonneg_nonneg; lia.
  - apply Z.mul_nonpos_nonpos; lia.
Qed.

Lemma channel_range c : 0 <= red c < 256 /\ 0 <= green c < 256 /\ 0 <= blue c < 256.
Proof.
  unfold red, green, blue. change 0xFF with (2 ^ 8 - 1). rewrite !land_mask by lia. change (2 ^ 8) with 256.
  repeat split; apply Z.mod_pos_bound || apply Z.mod_pos_bound; lia.
Qed.

Definition ansi_err (r g b i : Z) : Z :=
  let p := kAnsi16 !!! Z.to_nat i in dist2 r g b (red p) (green p) (blue p).

Lemma dist2_nonneg r1 g1 b1 r2 g2 b2 : 0 <= dist2 r1 g1 b1 r2 g2 b2.
Proof. unfold dist2. repeat apply Z.add_nonneg_nonneg; apply Z.square_nonneg. Qed.

(** The loop keeps the best of the entries before [i]. *)
Lemma ansi_loop_spec r g b n i best best_d :
  (i + n = 16)%nat ->
  (i = 0%nat /\ best_d = -1) \/
  (0 <= best < Z.of_nat i /\ best_d = ansi_err r g b best /\
   forall k, 0 <= k < Z.of_nat i -> best_d <= ansi_err r g b k) ->
  let res := ansi_loop (drop i kAnsi16) (Z.of_nat i) r g b best best_d in
  (0 < i + n)%nat -> 0 <= res < 16 /\ forall k, 0 <= k < 16 -> ansi_err r g b res <= ansi_err r g b k.
Proof.
  revert i best best_d. induction n as [|n IH]; intros i best best_d Hin Hinv res _.
  { assert (i = 16%nat) as -> by lia. subst res.
    change (drop 16 kAnsi16) with (@nil Z). cbn [ansi_loop].
    destruct Hinv as [[? _]|(Hb & -> & Hk)]; [lia|]. split; [lia|done]. }
  subst res. destruct (lookup_lt_is_Some_2 kAnsi16 i) as [p Hp]; [change (i < 16)%nat; lia|].
  rewrite (drop_S _ p i Hp). cbn [ansi_loop].
  assert (dist2 r g b (red p) (green p) (blue p) = ansi_err r g b (Z.of_nat i)) as ->.
  { unfold ansi_err. rewrite Nat2Z.id. by rewrite (list_lookup_total_correct _ _ _ Hp). }
  pose proof (dist2_nonneg r g b) as Hnn.
  assert (forall k, 0 <= ansi_err r g b k) as Hpos by (intros; apply Hnn).
  replace (Z.of_nat i + 1) with (Z.of_nat (S i)) by lia.
  destruct ((best_d <? 0) || (ansi_err r g b (Z.of_nat i) <? best_d)) eqn:E.
  - apply IH; [lia| |lia]. right. split; [lia|]. split; [done|]. intros k Hk.
    destruct (decide (k = Z.of_nat i)) as [->|]; [lia|].
    destruct Hinv as [[? _]|(Hb & Hd & Hall)]; [lia|]. specialize (Hall k ltac:(lia)). bprop.
    pose proof (Hpos best). destruct E; bprop; lia.
  - apply IH; [lia| |lia]. right. bprop. destruct Hinv as [[_ ?]|(Hb & Hd & Hall)]; [lia|].
    split; [lia|]. split; [done|]. intros k Hk.
    destruct (decide (k = Z.of_nat i)) as [->|]; [lia|]. apply Hall. lia.
Qed.

(** Colour degradation always picks a nearest colour: no entry of the
    xterm cube or grey ramp is closer, in squared distance, to the requested
    colour than the index returned, and no entry of the ANSI palette is closer
    than the one of the sixteen returned. *)
Theorem quantisers_nearest c j :
  let r := red c in let g := green c in let b := blue c in
  (16 <= j < 256 ->
     16 <= rgb_to_cube256 c < 256 /\ palette_err (rgb_to_cube256 c) r g b <= palette_err j r g b) /\
  (0 <= j < 16 ->
     0 <= rgb_to_ansi16 c < 16 /\ ansi_err r g b (rgb_to_ansi16 c) <= ansi_err r g b j).
Proof.
  intros r g b. destruct (channel_range c) as (Hr & Hg & Hb). fold r g b in Hr, Hg, Hb. split.
  - intros Hj. unfold rgb_to_cube256. fold r g b. unfold cube256_of. cbv zeta.
    destruct (nearest_level r 0 Hr ltac:(lia)) as [Hri _], (nearest_level g 0 Hg ltac:(lia)) as [Hgi _],
      (nearest_level b 0 Hb ltac:(lia)) as [Hbi _].
    pose proof (fun i j k => cube_nearest r g b i j k Hr Hg Hb) as Hcube.
    pose proof (fun k => grey_nearest r g b k Hr Hg Hb) as Hgrey. cbv zeta in Hgrey.
    set (i := if (r + g + b) / 3 <=? 8 then _ else _) in *. clearbody i.
    destruct (Hgrey 0 ltac:(lia)) as [Hi _].
    set (ri := nearest_cube_level r) in *. set (gi := nearest_cube_level g) in *.
    set (bi := nearest_cube_level b) in *. clearbody ri gi bi r g b.
    assert (palette_err (16 + 36 * ri + 6 * gi + bi) r g b = dist2 r g b (cube_level ri) (cube_level gi) (cube_level bi)) as Ec.
    { unfold palette_err. destruct (Z.ltb_spec (16 + 36 * ri + 6 * gi + bi) 232); [|lia].
      f_equal; f_equal; Z.div_mod_to_equations; lia. }
    assert (palette_err (232 + i) r g b = dist2 r g b (8 + 10 * i) (8 + 10 * i) (8 + 10 * i)) as Eg.
    { unfold palette_err. destruct (Z.ltb_spec (232 + i) 232); [lia|]. by replace (232 + i - 232) with i by lia. }
    assert (dist2 r g b (cube_level ri) (cube_level gi) (cube_level bi) <= palette_err j r g b \/
            dist2 r g b (8 + 10 * i) (8 + 10 * i) (8 + 10 * i) <= palette_err j r g b) as Hbest.
    { unfold palette_err. destruct (Z.ltb_spec j 232); [left; apply Hcube|right; apply Hgrey]; Z.div_mod_to_equations; lia. }
    destruct (Z.ltb_spec (dist2 r g b (8 + 10 * i) (8 + 10 * i) (8 + 10 * i))
      (dist2 r g b (cube_level ri) (cube_level gi) (cube_level bi))).
    + rewrite u8_small by ulia. rewrite Eg. split; [lia|]. destruct Hbest; lia.
    + rewrite u8_small by ulia. rewrite Ec. split; [lia|]. destruct Hbest; lia.
  - intros Hj. unfold rgb_to_ansi16. fold r g b.
    destruct (ansi_loop_spec r g b 16 0 0 (-1)) as [Hres Hmin]; [done|by left|lia|].
    change (drop 0 kAnsi16) with kAnsi16 in *. change (Z.of_nat 0) with 0 in *.
    rewrite u8_small by (unfold is_u8; rewrite pow2_8; lia). split; [done|]. by apply Hmin.
Qed.

Lemma quantised_range c : 0 <= rgb_to_cube256 c < 256 /\ 0 <= rgb_to_ansi16 c < 16.
Proof.
  split.
  - unfold rgb_to_cube256, cube256_of. cbv zeta. destruct (_ <? _); apply u8_range.
  - unfold rgb_to_ansi16. destruct (ansi_loop_spec (red c) (green c) (blue c) 16 0 0 (-1)) as [Hres _];
      [done|by left|lia|]. change (drop 0 kAnsi16) with kAnsi16 in *. change (Z.of_nat 0) with 0 in *.
    rewrite u8_small by (unfold is_u8; rewrite pow2_8; lia). done.
Qed.

Lemma quantisers_nearest_witness :
  16 <= rgb_to_cube256 0x336699 < 256 /\
  palette_err (rgb_to_cube256 0x336699) 0x33 0x66 0x99 <= palette_err 67 0x33 0x66 0x99.
Proof. exact (proj1 (quantisers_nearest 0x336699 67) ltac:(lia)). Defined.
