(* ===== verification/Renderer.v ===== *)
(** * The differential renderer (src/src/tui/renderer.h, renderer.cpp)

    Turns the difference of the two buffers into a byte stream for the terminal,
    tracking the cursor and the pen so that unchanged cells, runs of one colour
    and consecutive columns cost nothing; and the write loop that delivers it. *)

From Stdlib Require Import String.
From S2P Require Import Prelude Framebuffer Capabilities.

Definition kFrameOverhead : Z := 32.
Definition kMaxBytesPerCell : Z := 80.

Definition utf8_encode (cp : Z) : list Z :=
  let cp := if (0x10FFFF <? cp) || ((0xD800 <=? cp) && (cp <=? 0xDFFF)) then kReplacement else cp in
  if cp <? 0x80 then [cp]
  else if cp <? 0x800 then
    [Z.lor 0xC0 (Z.shiftr cp 6); Z.lor 0x80 (Z.land cp 0x3F)]
  else if cp <? 0x10000 then
    [Z.lor 0xE0 (Z.shiftr cp 12); Z.lor 0x80 (Z.land (Z.shiftr cp 6) 0x3F);
     Z.lor 0x80 (Z.land cp 0x3F)]
  else
    [Z.lor 0xF0 (Z.shiftr cp 18); Z.lor 0x80 (Z.land (Z.shiftr cp 12) 0x3F);
     Z.lor 0x80 (Z.land (Z.shiftr cp 6) 0x3F); Z.lor 0x80 (Z.land cp 0x3F)].

Record Renderer := mkRenderer {
  rn_out : list Z;
  rn_mode : ColorMode;
  pen_fg : Z;
  pen_bg : Z;
  pen_attrs : Z;
  pen_valid : bool;
  cur_x : Z;
  cur_y : Z;
  cur_valid : bool;
  rn_emitted : Z;
  rn_examined : Z
}.
Definition new_renderer : Renderer := mkRenderer [] TrueColor 0 0 0 false 0 0 false 0 0.

(** Field updates. *)
Definition append (r : Renderer) (s : list Z) : Renderer :=
  mkRenderer (rn_out r ++ s) (rn_mode r) (pen_fg r) (pen_bg r) (pen_attrs r) (pen_valid r)
    (cur_x r) (cur_y r) (cur_valid r) (rn_emitted r) (rn_examined r).
Definition set_pen (r : Renderer) (fgc bgc at' : Z) (v : bool) : Renderer :=
  mkRenderer (rn_out r) (rn_mode r) fgc bgc at' v
    (cur_x r) (cur_y r) (cur_valid r) (rn_emitted r) (rn_examined r).
Definition set_cur (r : Renderer) (x y : Z) (v : bool) : Renderer :=
  mkRenderer (rn_out r) (rn_mode r) (pen_fg r) (pen_bg r) (pen_attrs r) (pen_valid r)
    x y v (rn_emitted r) (rn_examined r).
Definition set_counts (r : Renderer) (em ex : Z) : Renderer :=
  mkRenderer (rn_out r) (rn_mode r) (pen_fg r) (pen_bg r) (pen_attrs r) (pen_valid r)
    (cur_x r) (cur_y r) (cur_valid r) em ex.

Definition ESC : Z := 27.
Definition csi : list Z := [ESC; 91].
Definition append_lit (r : Renderer) (s : list Z) : Renderer := append r s.

(** The digit buffer holds ten characters, enough for 32 bits. *)
Definition put_uint (r : Renderer) (v : Z) : Renderer := append r (dec_string 10 v).
Definition put_utf8 (r : Renderer) (cp : Z) : Renderer := append r (utf8_encode (if cp =? 0 then 32 else cp)).
Definition push (r : Renderer) (c : Z) : Renderer := append r [c].

Definition move_to (r : Renderer) (x y : Z) : Renderer :=
  if cur_valid r && (cur_x r =? x) && (cur_y r =? y) then r
  else
    let r := append_lit r csi in
    let r := put_uint r (u32 (y + 1)) in
    let r := push r 59 in
    let r := put_uint r (u32 (x + 1)) in
    let r := push r 72 in
    set_cur r x y true.

Definition set_color_mode (r : Renderer) (m : ColorMode) : Renderer :=
  mkRenderer (rn_out r) m (pen_fg r) (pen_bg r) (pen_attrs r) false
    (cur_x r) (cur_y r) (cur_valid r) (rn_emitted r) (rn_examined r).

Definition resolve (m : ColorMode) (c : Z) : Z :=
  match m with
  | TrueColor => c
  | Cube256 => rgb_to_cube256 c
  | Ansi16 => rgb_to_ansi16 c
  end.

Definition emit_color (r : Renderer) (foreground : bool) (code : Z) : Renderer :=
  match rn_mode r with
  | TrueColor =>
      let r := append_lit r (csi ++ (if foreground then str "38;2;" else str "48;2;")) in
      let r := put_uint r (red code) in
      let r := push r 59 in
      let r := put_uint r (green code) in
      let r := push r 59 in
      let r := put_uint r (blue code) in
      push r 109
  | Cube256 =>
      let r := append_lit r (csi ++ (if foreground then str "38;5;" else str "48;5;")) in
      let r := put_uint r code in
      push r 109
  | Ansi16 =>
      let r := append_lit r csi in
      let r :=
        if code <? 8 then put_uint r ((if foreground then 30 else 40) + code)
        else put_uint r ((if foreground then 90 else 100) + (code - 8)) in
      push r 109
  end.

(** The lambda [code] of [emit_pen], with its [first] flag. *)
Definition attr_code (at' : Z) (acc : Renderer * bool) (p : Z * Z) : Renderer * bool :=
  let '(r, first) := acc in
  let '(bit, sgr) := p in
  if Z.land at' bit =? 0 then (r, first)
  else
    let r := if negb first then push r 59 else r in
    (append_lit r [sgr], false).

Definition emit_attrs (r : Renderer) (at' : Z) : Renderer :=
  let r := append_lit r (csi ++ str "0m") in
  let r := set_pen r (pen_fg r) (pen_bg r) (pen_attrs r) false in
  let r :=
    if negb (at' =? 0) then
      let r := append_lit r csi in
      let '(r, _) := foldl (attr_code at') (r, true)
        [(kAttrBold, 49); (kAttrDim, 50); (kAttrUnderline, 52); (kAttrReverse, 55)] in
      push r 109
    else r in
  set_pen r (pen_fg r) (pen_bg r) at' (pen_valid r).

Definition emit_pen (r : Renderer) (c : Cell) : Renderer :=
  let r := if negb (pen_valid r) || negb (attrs c =? pen_attrs r) then emit_attrs r (attrs c) else r in
  let fgc := resolve (rn_mode r) (fg c) in
  let bgc := resolve (rn_mode r) (bg c) in
  let r :=
    if negb (pen_valid r) || negb (fgc =? pen_fg r) then
      let r := emit_color r true fgc in set_pen r fgc (pen_bg r) (pen_attrs r) (pen_valid r)
    else r in
  let r :=
    if negb (pen_valid r) || negb (bgc =? pen_bg r) then
      let r := emit_color r false bgc in set_pen r (pen_fg r) bgc (pen_attrs r) (pen_valid r)
    else r in
  set_pen r (pen_fg r) (pen_bg r) (pen_attrs r) true.

(** One turn of the two loops of [render]. *)
Definition render_cell (f : Framebuffer) (full : bool) (r : Renderer) (p : Z * Z) : Renderer :=
  let '(x, y) := p in
  let r := set_counts r (rn_emitted r) (rn_examined r + 1) in
  let now := at_back f x y in
  let before := at_front f x y in
  if negb full && cell_eq now before then r
  else
    let r := move_to r x y in
    let r := emit_pen r now in
    let r := put_utf8 r (glyph now) in
    let r := set_counts r (rn_emitted r + 1) (rn_examined r) in
    let r := set_cur r (cur_x r + 1) (cur_y r) (cur_valid r) in
    if fb_w f <=? cur_x r then set_cur r (cur_x r) (cur_y r) false else r.

(** The positions in the order the loops visit them. *)
Definition positions (f : Framebuffer) : list (Z * Z) :=
  y ← seqZ 0 (fb_h f); (fun x => (x, y)) <$> seqZ 0 (fb_w f).

Definition render (r : Renderer) (f : Framebuffer) (full_repaint : bool) : Renderer * Z :=
  let r := mkRenderer [] (rn_mode r) (pen_fg r) (pen_bg r) (pen_attrs r) false
             (cur_x r) (cur_y r) false 0 0 in
  if fb_empty f then (r, 0)
  else
    let r := foldl (render_cell f full_repaint) r (positions f) in
    let r := match rn_out r with [] => r | _ => append_lit r (csi ++ str "0m") end in
    (r, Z.of_nat (List.length (rn_out r))).

(** ** Delivery

    What [write] answers, call by call: an error number or a count. *)
Inductive WriteReply := WroteErr (errno : Z) | Wrote (n : Z).
Definition EINTR : Z := 4.

(** The bytes accepted by the terminal and the result; [None] while the answers
    run out before the loop ends. *)
Fixpoint flush_loop (answers : list WriteReply) (p sent : list Z) : list Z * option bool :=
  match p with
  | [] => (sent, Some true)
  | _ =>
      match answers with
      | [] => (sent, None)
      | WroteErr e :: answers =>
          if e =? EINTR then flush_loop answers p sent else (sent, Some false)
      | Wrote n :: answers =>
          flush_loop answers (drop (Z.to_nat n) p) (sent ++ take (Z.to_nat n) p)
      end
  end.
Definition flush (r : Renderer) (answers : list WriteReply) : list Z * option bool :=
  flush_loop answers (rn_out r) [].
