(* ===== verification/RendererProofs.v ===== *)
(** * What the terminal shows

    A terminal as a byte-driven state machine (cursor motion, colours and
    attributes, UTF-8 glyphs), and the proof that feeding it the renderer's
    output turns the old picture into the new one, for every colour depth and
    whatever the terminal does after printing in the last column. *)

From Stdlib Require Import String.
From S2P Require Import Prelude Framebuffer Capabilities Renderer.

(** ** The terminal *)

Inductive TColor := TDefault | TRgb (r g b : Z) | TIndex (n : Z).
Record TCell := mkTCell { tc_glyph : Z; tc_fg : TColor; tc_bg : TColor; tc_attrs : Z }.
Record Pen := mkPen { p_fg : TColor; p_bg : TColor; p_attrs : Z }.
Definition plain : Pen := mkPen TDefault TDefault 0.
#[export] Instance TColor_eq_dec : EqDecision TColor.
Proof. solve_decision. Defined.
#[export] Instance Pen_eq_dec : EqDecision Pen.
Proof. solve_decision. Defined.

Inductive Parse := Ground | Escape | Csi (params : list Z) (cur : Z) | More (left : nat) (acc : Z).

Record Term := mkTerm {
  t_screen : Z -> Z -> TCell;
  t_x : Z;
  t_y : Z;
  t_pen : Pen;
  t_parse : Parse
}.

Definition goto_parse (t : Term) (p : Parse) : Term := mkTerm (t_screen t) (t_x t) (t_y t) (t_pen t) p.
Definition goto_xy (t : Term) (x y : Z) : Term := mkTerm (t_screen t) x y (t_pen t) Ground.
Definition with_pen (t : Term) (p : Pen) : Term := mkTerm (t_screen t) (t_x t) (t_y t) p Ground.

(** The attribute and colour codes of one [m] sequence, left to right. *)
Fixpoint sgr (fuel : nat) (ps : list Z) (p : Pen) : Pen :=
  match fuel, ps with
  | S fuel, 0 :: ps => sgr fuel ps plain
  | S fuel, 1 :: ps => sgr fuel ps (mkPen (p_fg p) (p_bg p) (Z.lor (p_attrs p) 1))
  | S fuel, 2 :: ps => sgr fuel ps (mkPen (p_fg p) (p_bg p) (Z.lor (p_attrs p) 2))
  | S fuel, 4 :: ps => sgr fuel ps (mkPen (p_fg p) (p_bg p) (Z.lor (p_attrs p) 4))
  | S fuel, 7 :: ps => sgr fuel ps (mkPen (p_fg p) (p_bg p) (Z.lor (p_attrs p) 8))
  | S fuel, 38 :: 2 :: r :: g :: b :: ps => sgr fuel ps (mkPen (TRgb r g b) (p_bg p) (p_attrs p))
  | S fuel, 48 :: 2 :: r :: g :: b :: ps => sgr fuel ps (mkPen (p_fg p) (TRgb r g b) (p_attrs p))
  | S fuel, 38 :: 5 :: n :: ps => sgr fuel ps (mkPen (TIndex n) (p_bg p) (p_attrs p))
  | S fuel, 48 :: 5 :: n :: ps => sgr fuel ps (mkPen (p_fg p) (TIndex n) (p_attrs p))
  | S fuel, n :: ps =>
      sgr fuel ps
        (if (30 <=? n) && (n <=? 37) then mkPen (TIndex (n - 30)) (p_bg p) (p_attrs p)
         else if (90 <=? n) && (n <=? 97) then mkPen (TIndex (n - 90 + 8)) (p_bg p) (p_attrs p)
         else if (40 <=? n) && (n <=? 47) then mkPen (p_fg p) (TIndex (n - 40)) (p_attrs p)
         else if (100 <=? n) && (n <=? 107) then mkPen (p_fg p) (TIndex (n - 100 + 8)) (p_attrs p)
         else p)
  | _, _ => p
  end.

Section Terminal.
(** [w] columns; [wrap] is where the cursor goes after the last of them.  Every
    code point takes one column, as framebuffer.h assumes of the glyphs it is
    given; delete and the C1 controls print like any other. *)
Context (w : Z) (wrap : Z -> Z * Z).

Definition print (t : Term) (cp : Z) : Term :=
  let x := t_x t in
  let y := t_y t in
  let c := mkTCell cp (p_fg (t_pen t)) (p_bg (t_pen t)) (p_attrs (t_pen t)) in
  let '(x', y') := if x + 1 <? w then (x + 1, y) else wrap y in
  mkTerm (fun i j => if decide (i = x /\ j = y) then c else t_screen t i j) x' y' (t_pen t) Ground.

Definition control (t : Term) (ps : list Z) (final : Z) : Term :=
  if final =? 72 then match ps with [row; col] => goto_xy t (col - 1) (row - 1) | _ => goto_parse t Ground end
  else if final =? 109 then with_pen t (sgr (List.length ps) ps (t_pen t))
  else goto_parse t Ground.

Definition term_step (t : Term) (b : Z) : Term :=
  match t_parse t with
  | Ground =>
      if b =? 27 then goto_parse t Escape
      else if b <? 32 then t
      else if b <? 0x80 then print t b
      else if b <? 0xE0 then goto_parse t (More 1 (b - 0xC0))
      else if b <? 0xF0 then goto_parse t (More 2 (b - 0xE0))
      else goto_parse t (More 3 (b - 0xF0))
  | Escape => if b =? 91 then goto_parse t (Csi [] 0) else goto_parse t Ground
  | Csi ps cur =>
      if is_digit b then goto_parse t (Csi ps (cur * 10 + (b - 48)))
      else if b =? 59 then goto_parse t (Csi (ps ++ [cur]) 0)
      else control t (ps ++ [cur]) b
  | More 0 acc => goto_parse t Ground
  | More 1 acc => print t (acc * 64 + (b - 0x80))
  | More (S n) acc => goto_parse t (More n (acc * 64 + (b - 0x80)))
  end.

Definition feed (t : Term) (bytes : list Z) : Term := foldl term_step t bytes.

Lemma feed_app t l1 l2 : feed t (l1 ++ l2) = feed (feed t l1) l2.
Proof. apply foldl_app. Qed.

(** ** Sequences *)
Lemma feed_digits ps l : Forall (fun c => is_digit c = true) l -> forall t cur,
  t_parse t = Csi ps cur ->
  feed t l = goto_parse t (Csi ps (foldl (fun v c => v * 10 + (c - 48)) cur l)).
Proof.
  induction 1 as [|c l Hc _ IH]; intros t cur Ht; cbn [feed foldl].
  { destruct t. cbn in *. by subst. }
  unfold term_step at 2. rewrite Ht, Hc. unfold feed in IH.
  by rewrite (IH _ (cur * 10 + (c - 48))) by done.
Qed.

Lemma feed_number ps t v :
  t_parse t = Csi ps 0 -> 0 <= v < 10 ^ 10 -> feed t (dec_string 10 v) = goto_parse t (Csi ps v).
Proof.
  intros Ht Hv. rewrite (feed_digits ps _ (dec_string_digits 10 v ltac:(lia)) t 0 Ht).
  by rewrite (dec_string_value 10 v Hv : foldl _ _ _ = _).
Qed.

Lemma feed_csi t : t_parse t = Ground -> feed t csi = goto_parse t (Csi [] 0).
Proof. intros Ht. unfold csi, feed. cbn [foldl]. unfold term_step. by rewrite Ht. Qed.

Lemma feed_semi t ps cur : t_parse t = Csi ps cur -> feed t [59] = goto_parse t (Csi (ps ++ [cur]) 0).
Proof. intros Ht. cbn. unfold term_step. by rewrite Ht. Qed.

Lemma feed_final t ps cur c :
  t_parse t = Csi ps cur -> is_digit c = false -> c <> 59 -> feed t [c] = control t (ps ++ [cur]) c.
Proof.
  intros Ht Hc Hs. cbn. unfold term_step. rewrite Ht, Hc. by destruct (Z.eqb_spec c 59).
Qed.

(** A whole sequence: its numbers separated by semicolons, and the final byte. *)
Fixpoint numbers (vs : list Z) : list Z :=
  match vs with
  | [] => []
  | [v] => dec_string 10 v
  | v :: vs => dec_string 10 v ++ [59] ++ numbers vs
  end.

Lemma feed_numbers vs : vs <> [] -> Forall (fun v => 0 <= v < 10 ^ 10) vs -> forall t ps,
  t_parse t = Csi ps 0 ->
  exists ps' v, feed t (numbers vs) = goto_parse t (Csi ps' v) /\ ps' ++ [v] = ps ++ vs.
Proof.
  intros Hne Hv. induction Hv as [|v vs Hv Hvs IH]; [done|]. intros t ps Ht.
  destruct vs as [|v' vs].
  { exists ps, v. cbn [numbers]. by rewrite (feed_number ps t v Ht Hv). }
  change (numbers (v :: v' :: vs)) with (dec_string 10 v ++ [59] ++ numbers (v' :: vs)).
  rewrite !feed_app, (feed_number ps t v Ht Hv).
  rewrite (feed_semi (goto_parse t (Csi ps v)) ps v eq_refl).
  destruct (IH ltac:(done) (goto_parse (goto_parse t (Csi ps v)) (Csi (ps ++ [v]) 0)) (ps ++ [v]) eq_refl)
    as (ps' & v2 & -> & E).
  exists ps', v2. split; [done|]. by rewrite E, <- app_assoc.
Qed.

Lemma feed_sequence t vs c :
  t_parse t = Ground -> vs <> [] -> Forall (fun v => 0 <= v < 10 ^ 10) vs ->
  is_digit c = false -> c <> 59 ->
  feed t (csi ++ numbers vs ++ [c]) = control t vs c.
Proof.
  intros Ht Hne Hv Hc Hs. rewrite !feed_app, feed_csi by done.
  destruct (feed_numbers vs Hne Hv (goto_parse t (Csi [] 0)) [] eq_refl) as (ps & v & -> & E).
  rewrite (feed_final (goto_parse (goto_parse t (Csi [] 0)) (Csi ps v)) ps v c eq_refl Hc Hs). cbn [app] in E. rewrite E.
  unfold control. by destruct (c =? 72), (c =? 109).
Qed.

(** ** The bytes each step of the renderer adds *)
Lemma append_append r a b : append (append r a) b = append r (a ++ b).
Proof. unfold append. cbn. by rewrite app_assoc. Qed.

Definition move_bytes (x y : Z) : list Z := csi ++ numbers [u32 (y + 1); u32 (x + 1)] ++ [72].

Lemma move_to_bytes r x y :
  move_to r x y = if cur_valid r && (cur_x r =? x) && (cur_y r =? y) then r
                  else set_cur (append r (move_bytes x y)) x y true.
Proof.
  unfold move_to, push, put_uint, append_lit. destruct (_ && _); [done|].
  rewrite !append_append. unfold move_bytes. cbn [numbers]. by rewrite <- !app_assoc.
Qed.

(** The codes that select a colour. *)
Definition color_codes (m : ColorMode) (foreground : bool) (code : Z) : list Z :=
  match m with
  | TrueColor => [if foreground then 38 else 48; 2; red code; green code; blue code]
  | Cube256 => [if foreground then 38 else 48; 5; code]
  | Ansi16 =>
      [if code <? 8 then (if foreground then 30 else 40) + code
       else (if foreground then 90 else 100) + (code - 8)]
  end.
Definition color_bytes (m : ColorMode) (foreground : bool) (code : Z) : list Z :=
  csi ++ numbers (color_codes m foreground code) ++ [109].

Lemma emit_color_bytes r foreground code :
  emit_color r foreground code = append r (color_bytes (rn_mode r) foreground code).
Proof.
  unfold emit_color, push, put_uint, append_lit, color_bytes. destruct (rn_mode r); cbn [color_codes].
  - rewrite !append_append. f_equal. by destruct foreground; cbn [numbers]; rewrite <- !app_assoc.
  - rewrite !append_append. f_equal. by destruct foreground; cbn [numbers]; rewrite <- !app_assoc.
  - destruct (code <? 8); rewrite !append_append; f_equal; cbn [numbers]; by rewrite <- !app_assoc.
Qed.

(** The attribute sequence after a reset. *)
Definition attr_codes (at' : Z) : list Z :=
  filter (fun p => Z.land at' p.1 <> 0) [(1, 1); (2, 2); (4, 4); (8, 7)] ≫= (fun p => [p.2]).
Definition reset_bytes : list Z := csi ++ numbers [0] ++ [109].
Definition attr_bytes (at' : Z) : list Z :=
  if at' =? 0 then [] else csi ++ numbers (attr_codes at') ++ [109].

Lemma attr_code_step at' r first bit c :
  attr_code at' (r, first) (bit, c) =
  if Z.land at' bit =? 0 then (r, first)
  else (append r ((if first then [] else [59]) ++ [c]), false).
Proof.
  unfold attr_code, push, append_lit. destruct (_ =? 0); [done|]. destruct first; cbn [negb app]; [done|].
  by rewrite append_append.
Qed.

Lemma emit_attrs_bytes r at' :
  emit_attrs r at' =
  set_pen (append r (reset_bytes ++ attr_bytes at')) (pen_fg r) (pen_bg r) at' false.
Proof.
  unfold emit_attrs, attr_bytes, append_lit, push. destruct (at' =? 0); cbn [negb].
  { by rewrite app_nil_r. }
  unfold attr_codes. change kAttrBold with 1. change kAttrDim with 2.
  change kAttrUnderline with 4. change kAttrReverse with 8.
  assert (dec_string 10 1 = [49] /\ dec_string 10 2 = [50] /\ dec_string 10 4 = [52] /\
    dec_string 10 7 = [55]) as (E1 & E2 & E4 & E7) by done.
  cbn [foldl]. rewrite !filter_cons, filter_nil. cbn [fst].
  rewrite attr_code_step; destruct (Z.eqb_spec (Z.land at' 1) 0);
  rewrite attr_code_step; destruct (Z.eqb_spec (Z.land at' 2) 0);
  rewrite attr_code_step; destruct (Z.eqb_spec (Z.land at' 4) 0);
  rewrite attr_code_step; destruct (Z.eqb_spec (Z.land at' 8) 0);
    repeat first [rewrite decide_True by done | rewrite decide_False by (intros Hx; by apply Hx)].
  all: cbn [mbind list_bind app numbers snd negb]; rewrite ?E1, ?E2, ?E4, ?E7, ?append_append.
  all: unfold append, set_pen; cbn [rn_out rn_mode pen_fg pen_bg pen_attrs pen_valid cur_x cur_y cur_valid rn_emitted rn_examined].
  all: by rewrite <- !app_assoc.
Qed.

(** ** What they do to the terminal *)

Definition shown_color (m : ColorMode) (code : Z) : TColor :=
  match m with TrueColor => TRgb (red code) (green code) (blue code) | _ => TIndex code end.
Definition code_ok (m : ColorMode) (code : Z) : Prop :=
  match m with TrueColor => True | Cube256 => 0 <= code < 256 | Ansi16 => 0 <= code < 16 end.

Lemma resolve_ok m c : code_ok m (resolve m c).
Proof.
  destruct m; cbn; [done| |].
  - pose proof (quantised_range c) as [? _]. lia.
  - pose proof (quantised_range c) as [_ ?]. lia.
Qed.

Lemma color_codes_range m b code : code_ok m code -> Forall (fun v => 0 <= v < 10 ^ 10) (color_codes m b code).
Proof.
  change (10 ^ 10) with 10000000000. intros Hc. destruct (channel_range code) as (? & ? & ?).
  destruct m, b; cbn in *; repeat constructor; destruct (code <? 8); lia || lia.
Qed.

Lemma sgr_color m (foreground : bool) code p : code_ok m code ->
  sgr (List.length (color_codes m foreground code)) (color_codes m foreground code) p =
  if foreground then mkPen (shown_color m code) (p_bg p) (p_attrs p)
  else mkPen (p_fg p) (shown_color m code) (p_attrs p).
Proof.
  destruct m, foreground; cbn [color_codes code_ok shown_color]; intros Hc; try done.
  all: assert (code ∈ seqZ 0 16) as Hin by (apply elem_of_seqZ; lia); clear Hc; revert code Hin; apply Forall_forall.
  all: repeat constructor.
Qed.

Lemma feed_color t m foreground code :
  t_parse t = Ground -> code_ok m code ->
  feed t (color_bytes m foreground code) =
  with_pen t (if foreground then mkPen (shown_color m code) (p_bg (t_pen t)) (p_attrs (t_pen t))
              else mkPen (p_fg (t_pen t)) (shown_color m code) (p_attrs (t_pen t))).
Proof.
  intros Ht Hc. unfold color_bytes. rewrite feed_sequence; [|done| |by apply color_codes_range|done|done].
  2: { by destruct m. }
  unfold control. cbn [Z.eqb Pos.eqb]. by rewrite sgr_color.
Qed.

Lemma sgr_attrs at' : 0 <= at' < 256 ->
  Forall (fun v => 0 <= v < 10 ^ 10) (attr_codes at') /\
  sgr (List.length (attr_codes at')) (attr_codes at') plain = mkPen TDefault TDefault (Z.land at' 15).
Proof.
  intros Ha. assert (at' ∈ seqZ 0 256) as Hin by (apply elem_of_seqZ; lia). clear Ha.
  revert at' Hin. apply Forall_forall. apply (bool_decide_unpack _). by vm_compute.
Qed.

Lemma feed_attrs t at' :
  t_parse t = Ground -> 0 <= at' < 256 ->
  feed t (reset_bytes ++ attr_bytes at') = with_pen t (mkPen TDefault TDefault (Z.land at' 15)).
Proof.
  intros Ht Ha. destruct (sgr_attrs at' Ha) as [Hr Hs]. rewrite feed_app. unfold reset_bytes.
  rewrite (feed_sequence t [0] 109) by (done || by repeat constructor).
  change (control t [0] 109) with (with_pen t plain).
  unfold attr_bytes. destruct (Z.eqb_spec at' 0) as [->|Hne]; [done|].
  destruct (attr_codes at') as [|c cs] eqn:E.
  - cbn [List.length sgr] in Hs. rewrite <- Hs. cbn [numbers app]. unfold csi. cbn [app].
    unfold feed. cbn [foldl]. by unfold term_step.
  - rewrite feed_sequence by done. unfold control. cbn [Z.eqb Pos.eqb].
    change (t_pen (with_pen t plain)) with plain. by rewrite Hs.
Qed.

(** ** Glyphs *)

(** What a glyph looks like: zero is blank, no code point is the replacement. *)
Definition shown_glyph (g : Z) : Z :=
  let g := if g =? 0 then 32 else g in
  if (0x10FFFF <? g) || ((0xD800 <=? g) && (g <=? 0xDFFF)) then kReplacement else g.

(** A glyph that is not a control character. *)
Definition printable (g : Z) : Prop := g = 0 \/ 32 <= g.

Lemma lor_high h n a : (h = 0x80 /\ n = 64) \/ (h = 0xC0 /\ n = 32) \/ (h = 0xE0 /\ n = 16) \/ (h = 0xF0 /\ n = 8) ->
  0 <= a < n -> Z.lor h a = h + a.
Proof.
  intros Hh Ha. assert (a ∈ seqZ 0 n) as Hin by (apply elem_of_seqZ; lia). clear Ha.
  revert a Hin. apply Forall_forall.
  destruct Hh as [[-> ->]|[[-> ->]|[[-> ->]|[-> ->]]]]; apply (bool_decide_unpack _); by vm_compute.
Qed.

Lemma land_low6 x : Z.land x 0x3F = x mod 64.
Proof. apply (land_mask x 6). lia. Qed.

(** A leading byte and its continuation bytes print one code point. *)
Lemma feed_lead2 t cp : t_parse t = Ground -> 0x80 <= cp < 0x800 ->
  feed t [0xC0 + cp / 64; 0x80 + cp mod 64] = print t cp.
Proof.
  intros Ht Hcp. assert (2 <= cp / 64 < 32) by (Z.div_mod_to_equations; lia).
  unfold feed. cbn [foldl]. unfold term_step at 2. rewrite Ht.
  destruct (Z.eqb_spec (0xC0 + cp / 64) 27); [lia|]. destruct (Z.ltb_spec (0xC0 + cp / 64) 32); [lia|].
  destruct (Z.ltb_spec (0xC0 + cp / 64) 0x80); [lia|]. destruct (Z.ltb_spec (0xC0 + cp / 64) 0xE0); [|lia].
  unfold term_step. cbn [goto_parse t_parse].
  replace ((0xC0 + cp / 64 - 0xC0) * 64 + (0x80 + cp mod 64 - 0x80)) with cp; [done|Z.div_mod_to_equations; lia].
Qed.

Lemma feed_lead3 t cp : t_parse t = Ground -> 0x800 <= cp < 0x10000 ->
  feed t [0xE0 + cp / 4096; 0x80 + cp / 64 mod 64; 0x80 + cp mod 64] = print t cp.
Proof.
  intros Ht Hcp. assert (0 <= cp / 4096 < 16) by (Z.div_mod_to_equations; lia).
  unfold feed. cbn [foldl]. unfold term_step at 3. rewrite Ht.
  destruct (Z.eqb_spec (0xE0 + cp / 4096) 27); [lia|]. destruct (Z.ltb_spec (0xE0 + cp / 4096) 32); [lia|].
  destruct (Z.ltb_spec (0xE0 + cp / 4096) 0x80); [lia|]. destruct (Z.ltb_spec (0xE0 + cp / 4096) 0xE0); [lia|].
  destruct (Z.ltb_spec (0xE0 + cp / 4096) 0xF0); [|lia].
  unfold term_step. cbn [goto_parse t_parse].
  match goal with |- print _ ?e = _ => replace e with cp; [done|Z.div_mod_to_equations; lia] end.
Qed.

Lemma feed_lead4 t cp : t_parse t = Ground -> 0x10000 <= cp <= 0x10FFFF ->
  feed t [0xF0 + cp / 262144; 0x80 + cp / 4096 mod 64; 0x80 + cp / 64 mod 64; 0x80 + cp mod 64] = print t cp.
Proof.
  intros Ht Hcp. assert (0 <= cp / 262144 < 8) by (Z.div_mod_to_equations; lia).
  unfold feed. cbn [foldl]. unfold term_step at 4. rewrite Ht.
  destruct (Z.eqb_spec (0xF0 + cp / 262144) 27); [lia|]. destruct (Z.ltb_spec (0xF0 + cp / 262144) 32); [lia|].
  destruct (Z.ltb_spec (0xF0 + cp / 262144) 0x80); [lia|]. destruct (Z.ltb_spec (0xF0 + cp / 262144) 0xE0); [lia|].
  destruct (Z.ltb_spec (0xF0 + cp / 262144) 0xF0); [lia|].
  unfold term_step. cbn [goto_parse t_parse].
  match goal with |- print _ ?e = _ => replace e with cp; [done|Z.div_mod_to_equations; lia] end.
Qed.

Lemma feed_glyph t g :
  t_parse t = Ground -> printable g ->
  feed t (utf8_encode (if g =? 0 then 32 else g)) = print t (shown_glyph g).
Proof.
  intros Ht Hg. unfold utf8_encode, shown_glyph. cbv zeta.
  set (h := if g =? 0 then 32 else g).
  assert (32 <= h) as Hh by (unfold h; destruct (Z.eqb_spec g 0); destruct Hg; lia).
  set (cp := if (0x10FFFF <? h) || _ then kReplacement else h).
  assert (32 <= cp <= 0x10FFFF) as Hcp.
  { unfold cp. destruct (_ || _) eqn:E; [unfold kReplacement; lia|]. bprop. lia. }
  clearbody cp. clear h Hh Hg.
  rewrite !Z.shiftr_div_pow2, !land_low6 by lia.
  change (2 ^ 6) with 64. change (2 ^ 12) with 4096. change (2 ^ 18) with 262144.
  destruct (Z.ltb_spec cp 0x80).
  { unfold feed. cbn [foldl]. unfold term_step. rewrite Ht.
    destruct (Z.eqb_spec cp 27); [lia|]. destruct (Z.ltb_spec cp 32); [lia|].
    by destruct (Z.ltb_spec cp 0x80); [|lia]. }
  assert (forall x, Z.lor 0x80 (x mod 64) = 0x80 + x mod 64) as Hcont.
  { intros x. apply (lor_high 0x80 64); [lia|]. apply Z.mod_pos_bound. lia. }
  rewrite !Hcont. destruct (Z.ltb_spec cp 0x800); [|destruct (Z.ltb_spec cp 0x10000)].
  - rewrite (lor_high 0xC0 32) by (lia || (Z.div_mod_to_equations; lia)). apply feed_lead2; [done|lia].
  - rewrite (lor_high 0xE0 16) by (lia || (Z.div_mod_to_equations; lia)). apply feed_lead3; [done|lia].
  - rewrite (lor_high 0xF0 8) by (lia || (Z.div_mod_to_equations; lia)). apply feed_lead4; [done|lia].
Qed.

(** ** The renderer drives the terminal *)

Definition shown (m : ColorMode) (c : Cell) : TCell :=
  mkTCell (shown_glyph (glyph c)) (shown_color m (resolve m (fg c))) (shown_color m (resolve m (bg c)))
    (Z.land (attrs c) 15).
Definition shown_pen (m : ColorMode) (c : Cell) : Pen :=
  mkPen (shown_color m (resolve m (fg c))) (shown_color m (resolve m (bg c))) (Z.land (attrs c) 15).

Context (m : ColorMode) (t0 : Term).

(** The terminal after the bytes so far, and what the renderer believes of it. *)
Record sim (r : Renderer) (t : Term) : Prop := {
  sm_feed : feed t0 (rn_out r) = t;
  sm_mode : rn_mode r = m;
  sm_ground : t_parse t = Ground;
  sm_pen : pen_valid r = true ->
    t_pen t = mkPen (shown_color m (pen_fg r)) (shown_color m (pen_bg r)) (Z.land (pen_attrs r) 15);
  sm_cur : cur_valid r = true -> t_x t = cur_x r /\ t_y t = cur_y r
}.

Lemma sim_append r t s : sim r t -> feed t0 (rn_out (append r s)) = feed t s.
Proof. intros [Hf _ _ _ _]. cbn. by rewrite feed_app, Hf. Qed.

Lemma sim_move r t x y :
  sim r t -> 0 <= x < 2 ^ 31 -> 0 <= y < 2 ^ 31 ->
  sim (move_to r x y) (goto_xy t x y) /\ cur_valid (move_to r x y) = true /\
  cur_x (move_to r x y) = x /\ cur_y (move_to r x y) = y.
Proof.
  intros Hsim Hx Hy. rewrite move_to_bytes. destruct (_ && _) eqn:E.
  - bprop. pose proof (sm_cur _ _ Hsim ltac:(done)) as [Ex Ey].
    assert (goto_xy t x y = t) as ->; [|done].
    pose proof (sm_ground _ _ Hsim). destruct t. unfold goto_xy. cbn in *. congruence.
  - split; [|done].
    assert (feed t (move_bytes x y) = goto_xy t x y) as Hb.
    { change (2 ^ 31) with 2147483648 in *. unfold move_bytes. rewrite !u32_small by ulia.
      rewrite feed_sequence; [|apply Hsim|done| |done|done].
      - unfold control. cbn [Z.eqb Pos.eqb]. f_equal; lia.
      - change (10 ^ 10) with 10000000000. repeat constructor; lia. }
    split; cbn [set_cur append rn_out rn_mode pen_valid pen_fg pen_bg pen_attrs cur_valid cur_x cur_y].
    + change (feed t0 (rn_out (append r (move_bytes x y))) = goto_xy t x y). by rewrite (sim_append r t).
    + apply Hsim.
    + done.
    + intros Hv. by apply (sm_pen _ _ Hsim).
    + done.
Qed.

(** One colour of the pen: either it is already right or it is selected. *)
Lemma sim_color r t (foreground : bool) code :
  feed t0 (rn_out r) = t -> rn_mode r = m -> t_parse t = Ground -> code_ok m code ->
  feed t0 (rn_out (emit_color r foreground code)) =
  with_pen t (if foreground then mkPen (shown_color m code) (p_bg (t_pen t)) (p_attrs (t_pen t))
              else mkPen (p_fg (t_pen t)) (shown_color m code) (p_attrs (t_pen t))).
Proof.
  intros Hf Hm Hg Hc. rewrite emit_color_bytes, Hm. cbn [append rn_out]. rewrite feed_app, Hf.
  by apply feed_color.
Qed.

Lemma with_pen_same t p : t_parse t = Ground -> t_pen t = p -> with_pen t p = t.
Proof. destruct t. cbn. by intros -> ->. Qed.

(** The three parts of [emit_pen]. *)
Definition pen_step1 (r : Renderer) (c : Cell) : Renderer :=
  if negb (pen_valid r) || negb (attrs c =? pen_attrs r) then emit_attrs r (attrs c) else r.
Definition pen_step2 (r : Renderer) (fgc : Z) : Renderer :=
  if negb (pen_valid r) || negb (fgc =? pen_fg r) then
    set_pen (emit_color r true fgc) fgc (pen_bg (emit_color r true fgc))
      (pen_attrs (emit_color r true fgc)) (pen_valid (emit_color r true fgc)) else r.
Definition pen_step3 (r : Renderer) (bgc : Z) : Renderer :=
  if negb (pen_valid r) || negb (bgc =? pen_bg r) then
    set_pen (emit_color r false bgc) (pen_fg (emit_color r false bgc)) bgc
      (pen_attrs (emit_color r false bgc)) (pen_valid (emit_color r false bgc)) else r.

Lemma emit_pen_steps r c :
  let r1 := pen_step1 r c in
  let r2 := pen_step2 r1 (resolve (rn_mode r1) (fg c)) in
  let r3 := pen_step3 r2 (resolve (rn_mode r1) (bg c)) in
  emit_pen r c = set_pen r3 (pen_fg r3) (pen_bg r3) (pen_attrs r3) true.
Proof. done. Qed.

(** The cursor fields are none of the pen's business. *)
Definition same_cursor (r r' : Renderer) : Prop :=
  cur_x r' = cur_x r /\ cur_y r' = cur_y r /\ cur_valid r' = cur_valid r /\ rn_mode r' = rn_mode r.

Lemma pen_step1_spec r t c :
  sim r t -> 0 <= attrs c < 256 ->
  let r1 := pen_step1 r c in
  exists t1, feed t0 (rn_out r1) = t1 /\ same_cursor r r1 /\ pen_attrs r1 = attrs c /\
    t1 = with_pen t (t_pen t1) /\ p_attrs (t_pen t1) = Z.land (attrs c) 15 /\
    (pen_valid r1 = true -> p_fg (t_pen t1) = shown_color m (pen_fg r1) /\
       p_bg (t_pen t1) = shown_color m (pen_bg r1)).
Proof.
  intros Hsim Ha. unfold pen_step1. destruct (_ || _) eqn:E.
  - rewrite emit_attrs_bytes. cbv zeta. eexists. split; [done|].
    change (rn_out (set_pen _ _ _ _ _)) with (rn_out (append r (reset_bytes ++ attr_bytes (attrs c)))).
    rewrite (sim_append r t) by done. rewrite feed_attrs by (done || apply Hsim). done.
  - bprop. cbv zeta. exists t. split; [apply Hsim|]. split; [done|]. split; [done|].
    pose proof (sm_pen _ _ Hsim ltac:(done)) as Hp. split; [symmetry; by apply with_pen_same; [apply Hsim|]|].
    rewrite Hp. cbn. split; [congruence|done].
Qed.

Lemma pen_step2_spec r t fgc :
  feed t0 (rn_out r) = t -> rn_mode r = m -> t_parse t = Ground -> code_ok m fgc ->
  (pen_valid r = true -> p_fg (t_pen t) = shown_color m (pen_fg r)) ->
  let r' := pen_step2 r fgc in
  feed t0 (rn_out r') = with_pen t (mkPen (shown_color m fgc) (p_bg (t_pen t)) (p_attrs (t_pen t))) /\
  same_cursor r r' /\ pen_attrs r' = pen_attrs r /\ pen_bg r' = pen_bg r /\ pen_fg r' = fgc /\
  pen_valid r' = pen_valid r.
Proof.
  intros Hf Hm Hg Hc Hv. unfold pen_step2. cbv zeta. destruct (_ || _) eqn:E.
  - split; [by apply (sim_color r t true)|]. rewrite emit_color_bytes. done.
  - bprop. split; [|done]. rewrite Hf. symmetry. apply with_pen_same; [done|].
    specialize (Hv ltac:(done)). destruct (t_pen t). cbn in *. subst. done.
Qed.

Lemma pen_step3_spec r t bgc :
  feed t0 (rn_out r) = t -> rn_mode r = m -> t_parse t = Ground -> code_ok m bgc ->
  (pen_valid r = true -> p_bg (t_pen t) = shown_color m (pen_bg r)) ->
  let r' := pen_step3 r bgc in
  feed t0 (rn_out r') = with_pen t (mkPen (p_fg (t_pen t)) (shown_color m bgc) (p_attrs (t_pen t))) /\
  same_cursor r r' /\ pen_attrs r' = pen_attrs r /\ pen_fg r' = pen_fg r /\ pen_bg r' = bgc.
Proof.
  intros Hf Hm Hg Hc Hv. unfold pen_step3. cbv zeta. destruct (_ || _) eqn:E.
  - split; [by apply (sim_color r t false)|]. rewrite emit_color_bytes. done.
  - bprop. split; [|done]. rewrite Hf. symmetry. apply with_pen_same; [done|].
    specialize (Hv ltac:(done)). destruct (t_pen t). cbn in *. subst. done.
Qed.

Lemma sim_pen_step r t c :
  sim r t -> 0 <= attrs c < 256 ->
  sim (emit_pen r c) (with_pen t (shown_pen m c)) /\ same_cursor r (emit_pen r c).
Proof.
  intros Hsim Ha. rewrite emit_pen_steps. cbv zeta.
  destruct (pen_step1_spec r t c Hsim Ha) as (t1 & Hf1 & (Cx & Cy & Cv & Cm) & Pa & Et1 & At1 & Hv1).
  cbv zeta in *. set (r1 := pen_step1 r c) in *. clearbody r1.
  assert (rn_mode r1 = m) as Hm1 by (rewrite Cm; apply Hsim). rewrite Hm1.
  assert (t_parse t1 = Ground) as Hg1 by (by rewrite Et1).
  destruct (pen_step2_spec r1 t1 (resolve m (fg c)) Hf1 Hm1 Hg1 (resolve_ok m _)
    (fun v => proj1 (Hv1 v))) as (Hf2 & (Dx & Dy & Dv & Dm) & Pa2 & Pb2 & Pf2 & Pv2).
  set (r2 := pen_step2 r1 _) in *. clearbody r2.
  destruct (pen_step3_spec r2 _ (resolve m (bg c)) Hf2 (eq_trans Dm Hm1) eq_refl (resolve_ok m _))
    as (Hf3 & (Ex & Ey & Ev & Em) & Pa3 & Pf3 & Pb3).
  { rewrite Pv2, Pb2. intros v. cbn. by apply Hv1. }
  set (r3 := pen_step3 r2 _) in *. clearbody r3.
  assert (feed t0 (rn_out r3) = with_pen t (shown_pen m c)) as Efin.
  { rewrite Hf3, Et1. unfold with_pen, shown_pen. cbn. by rewrite At1. }
  split; [|unfold same_cursor; cbn; rewrite Ex, Dx, Cx, Ey, Dy, Cy, Ev, Dv, Cv, Em, Dm, Cm; done].
  split; cbn [set_pen rn_out rn_mode pen_valid pen_fg pen_bg pen_attrs cur_valid cur_x cur_y].
  - exact Efin.
  - by rewrite Em, Dm.
  - done.
  - intros _. unfold shown_pen. by rewrite Pf3, Pf2, Pb3, Pa3, Pa2, Pa.
  - rewrite Ev, Dv, Cv, Ex, Dx, Cx, Ey, Dy, Cy. apply Hsim.
Qed.

(** ** One cell *)

Context (f : Framebuffer) (full : bool).
Hypothesis Hw : fb_w f = w.

(** Whether a position is sent. *)
Definition differs (x y : Z) : bool := negb (negb full && cell_eq (at_back f x y) (at_front f x y)).

Lemma sim_cell r t x y :
  sim r t -> 0 <= x < w -> w < 2 ^ 31 -> 0 <= y < 2 ^ 31 ->
  printable (glyph (at_back f x y)) -> 0 <= attrs (at_back f x y) < 256 ->
  exists t', sim (render_cell f full r (x, y)) t' /\
    forall i j, t_screen t' i j =
      if decide (i = x /\ j = y /\ differs x y = true) then shown m (at_back f x y) else t_screen t i j.
Proof.
  intros Hsim Hx Hw31 Hy Hg Ha. unfold render_cell, differs.
  assert (sim (set_counts r (rn_emitted r) (rn_examined r + 1)) t) as Hs0 by (destruct Hsim; by split).
  destruct (negb full && _) eqn:E.
  { exists t. split; [done|]. intros i j. by rewrite decide_False by (by intros (_ & _ & ?)). }
  set (r0 := set_counts r _ _) in *. clearbody r0.
  destruct (sim_move r0 t x y Hs0 ltac:(lia) Hy) as (Hs1 & V1 & X1 & Y1).
  destruct (sim_pen_step _ _ (at_back f x y) Hs1 Ha) as (Hs2 & (X2 & Y2 & V2 & _)).
  set (r2 := emit_pen _ _) in *. clearbody r2.
  set (t2 := with_pen _ _) in *.
  exists (print t2 (shown_glyph (glyph (at_back f x y)))). split.
  - destruct Hs2 as [Hf2 Hm2 Hg2 Hp2 _].
    assert (feed t0 (rn_out (put_utf8 r2 (glyph (at_back f x y)))) =
      print t2 (shown_glyph (glyph (at_back f x y)))) as Hpr.
    { cbn. rewrite feed_app, Hf2. by apply feed_glyph. }
    cbn [set_counts set_cur cur_x cur_y put_utf8 append cur_valid].
    rewrite Hw, X2, X1, Y2, Y1, V2, V1.
    destruct (Z.leb_spec w (x + 1)) as [Hlast|Hmore]; split;
      cbn [set_counts set_cur append rn_out rn_mode pen_valid pen_fg pen_bg pen_attrs cur_valid cur_x cur_y].
    all: try (exact Hpr || exact Hm2 || done).
    all: unfold print; destruct (if t_x t2 + 1 <? w then _ else _) as [x' y'] eqn:Exy; try done.
    intros _. cbn. subst t2. cbn in Exy. destruct (Z.ltb_spec (x + 1) w); [|lia]. by injection Exy as <- <-.
  - intros i j. unfold print. destruct (if t_x t2 + 1 <? w then _ else _) as [x' y'].
    subst t2. cbn. repeat case_decide; try done; intuition.
Qed.

(** ** The whole frame *)

Hypothesis Hw31 : w < 2 ^ 31.
Hypothesis Hh31 : fb_h f < 2 ^ 31.
Hypothesis Hcells : forall x y, on_grid f x y ->
  printable (glyph (at_back f x y)) /\ 0 <= attrs (at_back f x y) < 256.

Lemma sim_cells l r t :
  sim r t -> (forall x y, (x, y) ∈ l -> on_grid f x y) ->
  exists t', sim (foldl (render_cell f full) r l) t' /\
    forall i j, t_screen t' i j =
      if decide ((i, j) ∈ l /\ differs i j = true) then shown m (at_back f i j) else t_screen t i j.
Proof.
  revert r t. induction l as [|[x y] l IH]; intros r t Hsim Hl; cbn [foldl].
  { exists t. split; [done|]. intros i j. rewrite decide_False; [done|]. by intros [?%elem_of_nil _]. }
  pose proof (Hl x y ltac:(left)) as Hon. destruct (Hcells x y Hon) as [Hg Ha].
  destruct Hon as [Hx Hy]. rewrite Hw in Hx.
  destruct (sim_cell r t x y Hsim Hx Hw31 ltac:(lia) Hg Ha) as (t1 & Hs1 & E1).
  destruct (IH _ t1 Hs1) as (t2 & Hs2 & E2); [intros; apply Hl; by right|].
  exists t2. split; [done|]. intros i j. rewrite E2, E1.
  assert ((i, j) ∈ (x, y) :: l <-> (i = x /\ j = y) \/ (i, j) ∈ l) as Hc.
  { rewrite elem_of_cons. split; (intros [H|H]; [left|by right]); [by injection H|by destruct H; subst]. }
  destruct (decide ((i, j) ∈ l /\ differs i j = true)) as [Hd|Hd]; [rewrite decide_True; [done|tauto]|].
  destruct (decide (i = x /\ j = y /\ differs x y = true)) as [(-> & -> & Hd')|Hd'].
  - rewrite decide_True; [done|]. tauto.
  - rewrite decide_False; [done|]. intros [[[-> ->]|?]%Hc ?]; tauto.
Qed.

Lemma elem_of_positions x y : (x, y) ∈ positions f <-> on_grid f x y.
Proof.
  unfold positions, on_grid. rewrite list_elem_of_bind. split.
  - intros (y' & (x' & [= -> ->] & Hx)%list_elem_of_fmap & Hy). apply elem_of_seqZ in Hx, Hy. lia.
  - intros [Hx Hy]. exists y. rewrite elem_of_seqZ. split; [|lia]. apply list_elem_of_fmap.
    exists x. rewrite elem_of_seqZ. split; [done|lia].
Qed.

(** ** What a cell costs *)
Lemma numbers_cons v vs : vs <> [] ->
  List.length (numbers (v :: vs)) = (List.length (dec_string 10 v) + 1 + List.length (numbers vs))%nat.
Proof. intros Hne. destruct vs as [|v' vs]; [done|]. cbn [numbers]. rewrite !length_app. cbn. lia. Qed.

Lemma move_length x y : 0 <= x < kMaxCells -> 0 <= y < kMaxCells -> (List.length (move_bytes x y) <= 18)%nat.
Proof.
  change kMaxCells with 4194304. intros Hx Hy. unfold move_bytes. rewrite !length_app, numbers_cons by done.
  rewrite !u32_small by ulia. cbn [numbers].
  pose proof (dec_string_length_le 10 7 (y + 1) ltac:(lia)) as H1.
  pose proof (dec_string_length_le 10 7 (x + 1) ltac:(lia)) as H2.
  change (10 ^ Z.of_nat 7) with 10000000 in *. specialize (H1 ltac:(lia)). specialize (H2 ltac:(lia)).
  change (List.length csi) with 2%nat. cbn [List.length]. lia.
Qed.

Lemma color_length foreground code : code_ok m code -> (List.length (color_bytes m foreground code) <= 19)%nat.
Proof.
  intros Hc. unfold color_bytes. rewrite !length_app. change (List.length csi) with 2%nat. cbn [List.length].
  assert (forall v, 0 <= v < 1000 -> (List.length (dec_string 10 v) <= 3)%nat) as H3
    by (intros v Hv; apply dec_string_length_le; [lia|exact Hv]).
  destruct (channel_range code) as (Hr & Hg & Hb).
  assert (List.length (dec_string 10 38) = 2%nat /\ List.length (dec_string 10 48) = 2%nat /\
    List.length (dec_string 10 2) = 1%nat /\ List.length (dec_string 10 5) = 1%nat) as (E38 & E48 & E2 & E5) by done.
  destruct m; cbn [color_codes code_ok] in *; rewrite ?numbers_cons by done; cbn [numbers].
  - pose proof (H3 (red code) ltac:(lia)). pose proof (H3 (green code) ltac:(lia)).
    pose proof (H3 (blue code) ltac:(lia)). destruct foreground; rewrite ?E38, ?E48, ?E2; lia.
  - pose proof (H3 code ltac:(lia)). destruct foreground; rewrite ?E38, ?E48, ?E5; lia.
  - assert (forall a, 0 <= a < 1000 -> (2 + (List.length (dec_string 10 a) + 1) <= 19)%nat) as H4
      by (intros a Ha; specialize (H3 a Ha); lia).
    destruct foreground, (code <? 8); apply H4; lia.
Qed.

Lemma attr_length at' : 0 <= at' < 256 -> (List.length (reset_bytes ++ attr_bytes at') <= 14)%nat.
Proof.
  intros Ha. assert (at' ∈ seqZ 0 256) as Hin by (apply elem_of_seqZ; lia). clear Ha.
  revert at' Hin. apply Forall_forall. apply (bool_decide_unpack _). by vm_compute.
Qed.

Lemma glyph_length g : (1 <= List.length (utf8_encode g) <= 4)%nat.
Proof. unfold utf8_encode. cbv zeta. repeat (destruct (_ <? _)); cbn; lia. Qed.

Definition out_len (r : Renderer) : nat := List.length (rn_out r).

Lemma emit_pen_length r c :
  rn_mode r = m -> 0 <= attrs c < 256 ->
  (out_len r <= out_len (emit_pen r c) <= out_len r + 52)%nat.
Proof.
  intros Hm Ha. rewrite emit_pen_steps. cbv zeta.
  assert (out_len r <= out_len (pen_step1 r c) <= out_len r + 14 /\ rn_mode (pen_step1 r c) = m)%nat as [H1 M1].
  { unfold pen_step1. destruct (_ || _); [|split; [lia|done]]. rewrite emit_attrs_bytes.
    unfold out_len. cbn [set_pen append rn_out rn_mode]. rewrite length_app. pose proof (attr_length (attrs c) Ha).
    split; [lia|done]. }
  set (r1 := pen_step1 r c) in *. clearbody r1. rewrite M1.
  assert (out_len r1 <= out_len (pen_step2 r1 (resolve m (fg c))) <= out_len r1 + 19 /\
    rn_mode (pen_step2 r1 (resolve m (fg c))) = m)%nat as [H2 M2].
  { unfold pen_step2. destruct (_ || _); [|split; [lia|done]]. rewrite emit_color_bytes, M1.
    unfold out_len. cbn [set_pen append rn_out rn_mode]. rewrite length_app.
    pose proof (color_length true _ (resolve_ok m (fg c))). split; [lia|done]. }
  set (r2 := pen_step2 r1 _) in *. clearbody r2.
  unfold pen_step3. destruct (_ || _); [|unfold out_len in *; cbn [set_pen rn_out]; lia].
  rewrite emit_color_bytes, M2. unfold out_len in *. cbn [set_pen append rn_out]. rewrite length_app.
  pose proof (color_length false _ (resolve_ok m (bg c))). lia.
Qed.

Lemma cell_cost r x y :
  rn_mode r = m -> 0 <= x < kMaxCells -> 0 <= y < kMaxCells -> 0 <= attrs (at_back f x y) < 256 ->
  let r' := render_cell f full r (x, y) in
  rn_mode r' = m /\
  (if differs x y then out_len r + 1 <= out_len r' <= out_len r + 80 else out_len r' = out_len r)%nat.
Proof.
  intros Hm Hx Hy Ha. unfold render_cell, differs. destruct (negb full && _); cbn [negb]; [done|].
  set (r0 := set_counts r _ _).
  assert (rn_mode (move_to r0 x y) = m /\ out_len r <= out_len (move_to r0 x y) <= out_len r + 18)%nat as [M1 H1].
  { rewrite move_to_bytes. destruct (_ && _); [split; [done|unfold out_len; cbn; lia]|].
    unfold out_len. cbn [set_cur append set_counts r0 rn_out rn_mode]. rewrite length_app.
    pose proof (move_length x y Hx Hy). split; [done|lia]. }
  set (r1 := move_to r0 x y) in *. clearbody r1.
  pose proof (emit_pen_length r1 (at_back f x y) M1 Ha) as H2.
  assert (rn_mode (emit_pen r1 (at_back f x y)) = m) as M2.
  { unfold emit_pen. cbv zeta. repeat (destruct (_ || _)); rewrite ?emit_attrs_bytes, ?emit_color_bytes; done. }
  set (r2 := emit_pen r1 _) in *. clearbody r2. cbv zeta.
  pose proof (glyph_length (if glyph (at_back f x y) =? 0 then 32 else glyph (at_back f x y))) as H3.
  assert (out_len (put_utf8 r2 (glyph (at_back f x y))) = out_len r2 +
    List.length (utf8_encode (if (glyph (at_back f x y) =? 0)%Z then 32 else glyph (at_back f x y))))%nat as H4
    by (unfold out_len, put_utf8; cbn [append rn_out]; by rewrite length_app).
  destruct (_ <=? _); (split; [done|]);
    change (out_len (set_cur _ _ _ _)) with (out_len (put_utf8 r2 (glyph (at_back f x y)))); lia.
Qed.

Lemma cells_cost l r :
  rn_mode r = m -> fb_w f * fb_h f <= kMaxCells -> (forall x y, (x, y) ∈ l -> on_grid f x y) ->
  let r' := foldl (render_cell f full) r l in
  rn_mode r' = m /\ (out_len r <= out_len r' <= out_len r + 80 * List.length l)%nat /\
  (out_len r' = out_len r <-> Forall (fun p => differs p.1 p.2 = false) l).
Proof.
  intros Hm Hmax. revert r Hm. induction l as [|[x y] l IH]; intros r Hm Hl; cbn [foldl].
  { split; [done|]. split; [cbn; lia|]. split; [constructor|done]. }
  pose proof (Hl x y ltac:(left)) as Hon. destruct (Hcells x y Hon) as [_ Ha]. destruct Hon as [Hx Hy].
  destruct (cell_cost r x y Hm ltac:(nia) ltac:(nia) Ha) as [M1 C1].
  destruct (IH (render_cell f full r (x, y)) M1) as (M2 & C2 & C3); [intros; apply Hl; by right|].
  split; [done|]. cbn [List.length]. rewrite Forall_cons. cbn [fst snd].
  destruct (differs x y); (split; [lia|]); rewrite <- C3; split; [lia|by intros [? _]|lia|intros [_ ?]; lia].
Qed.

Lemma positions_length : 0 <= fb_w f -> 0 <= fb_h f ->
  Z.of_nat (List.length (positions f)) = fb_w f * fb_h f.
Proof.
  intros H1 H2. unfold positions.
  assert (forall l : list Z, Z.of_nat (List.length (l ≫= (fun y => (fun x => (x, y)) <$> seqZ 0 (fb_w f)))) =
    fb_w f * Z.of_nat (List.length l)) as H.
  { induction l as [|a l IH]; [cbn; lia|]. rewrite bind_cons, length_app, length_fmap, length_seqZ, Nat2Z.inj_add, IH.
    cbn [List.length]. lia. }
  rewrite H, length_seqZ. lia.
Qed.
End Terminal.

Lemma cell_eq_spec a b : cell_eq a b = true <-> a = b.
Proof.
  unfold cell_eq. rewrite !andb_true_iff, !Z.eqb_eq. destruct a, b; cbn. split; [intros; f_equal; tauto|].
  intros [= -> -> -> ->]. done.
Qed.

(** The state [render] starts its loops from. *)
Definition fresh_renderer (r : Renderer) : Renderer :=
  mkRenderer [] (rn_mode r) (pen_fg r) (pen_bg r) (pen_attrs r) false (cur_x r) (cur_y r) false 0 0.

Lemma render_out r f full : fb_empty f = false ->
  let r' := foldl (render_cell f full) (fresh_renderer r) (positions f) in
  rn_out (render r f full).1 = if decide (rn_out r' = []) then [] else rn_out r' ++ reset_bytes.
Proof.
  intros He. unfold render. rewrite He. cbn [fst]. fold (fresh_renderer r).
  set (r' := foldl _ _ _). clearbody r'. cbv zeta. destruct (rn_out r') eqn:E; [done|].
  rewrite decide_False by done. cbn [append_lit append rn_out]. by rewrite E.
Qed.

(** A framebuffer the renderer can show. *)
Record showable (f : Framebuffer) : Prop := {
  sh_dims : 0 < fb_w f /\ 0 < fb_h f;
  sh_max : fb_w f * fb_h f <= kMaxCells;
  sh_cells : forall x y, on_grid f x y ->
    printable (glyph (at_back f x y)) /\ 0 <= attrs (at_back f x y) < 256
}.

Lemma showable_bounds f : showable f -> fb_w f < 2 ^ 31 /\ fb_h f < 2 ^ 31 /\ fb_empty f = false.
Proof.
  intros [[? ?] Hmax _]. change kMaxCells with 4194304 in Hmax. change (2 ^ 31) with 2147483648.
  split; [nia|]. split; [nia|]. unfold fb_empty.
  destruct (Z.leb_spec (fb_w f) 0); [lia|]. by destruct (Z.leb_spec (fb_h f) 0); [lia|].
Qed.

Lemma render_shows wrap r f full t :
  showable f -> t_parse t = Ground ->
  let out := rn_out (render r f full).1 in
  let t' := feed (fb_w f) wrap t out in
  (forall x y, on_grid f x y ->
     full = true \/ t_screen t x y = shown (rn_mode r) (at_front f x y) ->
     t_screen t' x y = shown (rn_mode r) (at_back f x y)) /\
  (forall x y, ~ on_grid f x y -> t_screen t' x y = t_screen t x y) /\
  t_parse t' = Ground /\ (out <> [] -> t_pen t' = plain).
Proof.
  intros Hsh Ht out t'. destruct (showable_bounds f Hsh) as (Hw & Hh & He).
  destruct (sim_cells (fb_w f) wrap (rn_mode r) t f full eq_refl Hw Hh (sh_cells f Hsh) (positions f)
    (fresh_renderer r) t) as (t1 & Hsim & Hscr).
  { by split. } { intros x y. apply elem_of_positions. }
  assert (t_screen t' = t_screen t1 /\ t_parse t' = Ground /\ (out <> [] -> t_pen t' = plain)) as (Es & Eg & Ep).
  { subst t' out. rewrite render_out by done. cbv zeta. pose proof (sm_feed _ _ _ _ _ _ Hsim) as Hf.
    pose proof (sm_ground _ _ _ _ _ _ Hsim) as Hg. case_decide as Ho.
    - rewrite Ho in Hf. cbn [feed foldl] in Hf. subst t1. done.
    - rewrite feed_app, Hf. unfold reset_bytes.
      rewrite feed_sequence by (done || by repeat constructor). done. }
  rewrite Es. split; [|split; [|done]].
  - intros x y Hon Hbefore. rewrite Hscr. case_decide as Hd; [done|].
    assert (differs f full x y = false) as Hdf.
    { destruct (differs f full x y) eqn:E; [|done]. destruct Hd. split; [by apply elem_of_positions|done]. }
    unfold differs in Hdf. bprop. destruct Hbefore as [-> |Hb]; [done|].
    match goal with H : cell_eq _ _ = true |- _ => apply cell_eq_spec in H; rewrite H end. done.
  - intros x y Hoff. rewrite Hscr, decide_False; [done|]. intros [Hin _]. by apply elem_of_positions in Hin.
Qed.

(** C7: The screen shows the picture.  Feeding a terminal the bytes of a frame
    makes every position show the back buffer's cell, in its glyph, colours (as
    the colour depth quantises them) and attributes, provided the terminal
    showed the front buffer before or the frame is a full repaint; positions
    outside the grid are untouched, no escape sequence is left open and no
    colour or attribute is left set, whatever the terminal does with its cursor
    after the last column. *)
Theorem render_refresh wrap r f full t :
  showable f -> t_parse t = Ground ->
  let out := rn_out (render r f full).1 in
  let t' := feed (fb_w f) wrap t out in
  (forall x y, on_grid f x y ->
     full = true \/ t_screen t x y = shown (rn_mode r) (at_front f x y) ->
     t_screen t' x y = shown (rn_mode r) (at_back f x y)) /\
  (forall x y, ~ on_grid f x y -> t_screen t' x y = t_screen t x y) /\
  t_parse t' = Ground /\ (out <> [] -> t_pen t' = plain).
Proof. apply render_shows. Qed.

(** A frame costs what it must and no more than was reserved: nothing at all
    exactly when no cell changed and no full repaint was asked for, and never
    more bytes than [reserve] set aside, so the output buffer is not grown. *)
Theorem render_cost r f full :
  showable f ->
  let out := rn_out (render r f full).1 in
  (render r f full).2 = Z.of_nat (List.length out) /\
  (out = [] <-> full = false /\ forall x y, on_grid f x y -> at_back f x y = at_front f x y) /\
  Z.of_nat (List.length out) <= fb_w f * fb_h f * kMaxBytesPerCell + kFrameOverhead.
Proof.
  intros Hsh out. destruct (showable_bounds f Hsh) as (Hw & Hh & He).
  split; [unfold out, render; by rewrite He|].
  destruct (cells_cost (fun y => (0, y)) (rn_mode r) f full (sh_cells f Hsh) (positions f) (fresh_renderer r) eq_refl (sh_max f Hsh))
    as (_ & Hlen & Heq).
  { intros x y. apply elem_of_positions. }
  subst out. rewrite render_out by done. cbv zeta in *. unfold out_len in *. cbn [rn_out fresh_renderer List.length] in *.
  set (o := rn_out (foldl _ _ _)) in *. clearbody o.
  pose proof (positions_length f ltac:(apply Z.lt_le_incl, Hsh) ltac:(apply Z.lt_le_incl, Hsh)) as Hpl.
  unfold kMaxBytesPerCell, kFrameOverhead. split.
  - transitivity (o = []); [case_decide as E; [done|split; [by intros [? _]%app_nil|by intros ->]]|].
    transitivity (List.length o = 0%nat); [by destruct o|]. rewrite Heq, Forall_forall. split.
    + intros Hall. split.
      * destruct full; [|done]. destruct (sh_dims f Hsh).
        specialize (Hall (0, 0)). rewrite elem_of_positions in Hall. discriminate Hall. split; lia.
      * intros x y Hon%elem_of_positions. specialize (Hall _ Hon). unfold differs in Hall. cbn in Hall. bprop.
        by apply cell_eq_spec.
    + intros [-> Hsame] [x y] Hon%elem_of_positions. unfold differs. cbn. apply negb_false_iff, cell_eq_spec. by apply Hsame.
  - case_decide; [cbn [List.length]; destruct (sh_dims f Hsh); lia|].
    rewrite length_app. change (List.length reset_bytes) with 4%nat. lia.
Qed.

(** ** Delivering a frame *)

(** What [write] may answer with [n] bytes to write: an error, or between one
    byte and all of them. *)
Fixpoint honest (n : Z) (answers : list WriteReply) : Prop :=
  match answers with
  | [] => True
  | WroteErr _ :: answers => honest n answers
  | Wrote k :: answers => n = 0 \/ (0 < k <= n /\ honest (n - k) answers)
  end.
Fixpoint writes (answers : list WriteReply) : nat :=
  match answers with
  | [] => 0
  | Wrote _ :: answers => S (writes answers)
  | WroteErr _ :: answers => writes answers
  end.
Definition hard_error (a : WriteReply) : Prop :=
  match a with WroteErr e => e <> EINTR | Wrote _ => False end.

Lemma flush_loop_spec answers : forall p sent, honest (Z.of_nat (List.length p)) answers ->
  exists done_ rest, p = done_ ++ rest /\ (flush_loop answers p sent).1 = sent ++ done_ /\
  match (flush_loop answers p sent).2 with
  | Some true => rest = []
  | Some false => rest <> [] /\ Exists hard_error answers
  | None => rest <> [] /\ Forall (fun a => ~ hard_error a) answers /\ (writes answers < List.length p)%nat
  end.
Proof.
  induction answers as [|a answers IH]; intros p sent Hh.
  { exists [], p. destruct p as [|b p]; cbn; rewrite app_nil_r; [done|].
    split; [done|]. split; [done|]. split; [done|]. split; [constructor|lia]. }
  destruct p as [|b p]; [exists [], []; cbn; by rewrite app_nil_r|].
  destruct a as [e|k]; cbn [flush_loop].
  - destruct (Z.eqb_spec e EINTR) as [->|He].
    + destruct (IH (b :: p) sent Hh) as (d & rest & E & Hs & Hr). exists d, rest. repeat split; [done..|].
      destruct (flush_loop _ _ _).2 as [[]|]; [done| |].
      * destruct Hr as [? Hr]. split; [done|by constructor 2].
      * destruct Hr as (? & ? & Hr). split; [done|]. split; [constructor; [|done]; cbn; tauto|exact Hr].
    + exists [], (b :: p). cbn. rewrite app_nil_r. repeat split; try done. by constructor.
  - destruct Hh as [Hh|[Hk Hh]]; [cbn [List.length] in Hh; lia|]. set (q := b :: p) in *.
    assert (Z.of_nat (List.length (drop (Z.to_nat k) q)) = Z.of_nat (List.length q) - k) as Hq
      by (rewrite length_drop; lia).
    rewrite <- Hq in Hh. destruct (IH _ (sent ++ take (Z.to_nat k) q) Hh) as (d & rest & E & Hs & Hr).
    exists (take (Z.to_nat k) q ++ d), rest. rewrite <- app_assoc, <- E, take_drop, Hs, app_assoc. repeat split.
    destruct (flush_loop _ _ _).2 as [[]|]; [done| |].
    + destruct Hr as [? Hr]. split; [done|by constructor 2].
    + destruct Hr as (? & ? & Hr). split; [done|]. split; [constructor; [cbn; tauto|done]|].
      cbn [writes]. lia.
Qed.

(** A frame is delivered in order and once.  Whatever mixture of partial
    writes, interrupted calls and errors [write] answers with, the terminal has
    received a prefix of the frame; all of it exactly when [flush] reports
    success, less than all of it when it reports failure, which takes an error
    other than an interruption; and [flush] does finish: it can only go on
    asking while fewer writes have succeeded than the frame has bytes. *)
Theorem flush_delivers r answers :
  honest (Z.of_nat (List.length (rn_out r))) answers ->
  let '(sent, result) := flush r answers in
  sent `prefix_of` rn_out r /\
  match result with
  | Some true => sent = rn_out r
  | Some false => sent <> rn_out r /\ Exists hard_error answers
  | None => Forall (fun a => ~ hard_error a) answers /\ (writes answers < List.length (rn_out r))%nat
  end.
Proof.
  intros Hh. destruct (flush_loop_spec answers (rn_out r) [] Hh) as (d & rest & E & Hs & Hr).
  unfold flush. destruct (flush_loop answers (rn_out r) []) as [sent result]. cbn [fst snd] in *. subst sent.
  cbn [app]. split; [by exists rest|]. destruct result as [[]|].
  - by rewrite E, Hr, app_nil_r.
  - destruct Hr as [Hr ?]. split; [|done]. rewrite E. intros Eq.
    apply (f_equal List.length) in Eq. rewrite length_app in Eq. destruct rest; [done|]. cbn in Eq. lia.
  - tauto.
Qed.

(** ** Concrete frames *)

(** A six by four screen with a word on it and nothing shown yet. *)
Definition demo_screen : Framebuffer := (text demo_fb 1 2 [104; 105; 0xC3; 0xA9] 0xFF8000 0x0C0C0C 1).1.
Lemma demo_screen_showable : showable demo_screen.
Proof.
  split; [by vm_compute|by vm_compute|]. intros x y [Hx Hy]. change (fb_w demo_screen) with 6 in Hx.
  change (fb_h demo_screen) with 4 in Hy.
  assert (x = 0 \/ x = 1 \/ x = 2 \/ x = 3 \/ x = 4 \/ x = 5) as Cx by lia.
  assert (y = 0 \/ y = 1 \/ y = 2 \/ y = 3) as Cy by lia. clear Hx Hy. unfold printable.
  destruct Cx as [->|[->|[->|[->|[->| ->]]]]]; destruct Cy as [->|[->|[->| ->]]]; vm_compute; intuition congruence.
Qed.
Definition demo_term : Term :=
  mkTerm (fun _ _ => shown Cube256 (mkCell 32 0 0 0)) 0 0 plain Ground.
Definition demo_renderer : Renderer := mkRenderer [] Cube256 7 7 7 true 3 3 true 9 9.

Lemma demo_screen_on : on_grid demo_screen 3 2.
Proof. split; by vm_compute. Qed.
Lemma demo_screen_cell : at_back demo_screen 3 2 = mkCell 0xE9 0xFF8000 0x0C0C0C 1.
Proof. by vm_compute. Qed.

Lemma render_refresh_witness :
  t_screen (feed (fb_w demo_screen) (fun y => (0, y)) demo_term (rn_out (render demo_renderer demo_screen true).1)) 3 2 =
  shown Cube256 (mkCell 0xE9 0xFF8000 0x0C0C0C 1).
Proof.
  rewrite <- demo_screen_cell.
  pose proof (render_refresh (fun y => (0, y)) demo_renderer demo_screen true demo_term demo_screen_showable eq_refl)
    as Hall.
  exact (proj1 Hall 3 2 demo_screen_on (or_introl eq_refl)).
Defined.

Lemma demo_screen_changed : at_back demo_screen 3 2 <> at_front demo_screen 3 2.
Proof. intros E. vm_compute in E. discriminate. Qed.

Lemma render_cost_witness : rn_out (render demo_renderer demo_screen false).1 <> [].
Proof.
  destruct (render_cost demo_renderer demo_screen false demo_screen_showable) as (_ & Hidle & _).
  intros E. apply (demo_screen_changed (proj2 (proj1 Hidle E) 3 2 demo_screen_on)).
Defined.

Lemma flush_delivers_witness :
  let r := mkRenderer [27; 91; 72] TrueColor 0 0 0 false 0 0 false 0 0 in
  flush r [WroteErr 4; Wrote 2; WroteErr 4; Wrote 1] = ([27; 91; 72], Some true) /\
  (flush r [Wrote 2; WroteErr 5]).1 <> [27; 91; 72].
Proof.
  split; [reflexivity|].
  assert (honest 3 [Wrote 2; WroteErr 5]) as Hh by (right; split; [lia|exact I]).
  pose proof (flush_delivers (mkRenderer [27; 91; 72] TrueColor 0 0 0 false 0 0 false 0 0)
    [Wrote 2; WroteErr 5] Hh) as Hf.
  exact (proj1 (proj2 Hf)).
Defined.
