(* ===== verification/Layout.v ===== *)
(** * The screen layout (src/src/tui/layout.h, layout.cpp)

    One function divides the screen among seven areas; the theorem says that it
    is a division: no position is given to two areas and none is left over. *)

From S2P Require Import Prelude Framebuffer.

Record AppLayout := mkLayout {
  l_title : Rect;
  l_address : Rect;
  l_section : Rect;
  l_map : Rect;
  l_inspector : Rect;
  l_metrics : Rect;
  l_footer : Rect;
  l_legend : bool;
  l_panels_stacked : bool
}.
Definition no_layout : AppLayout :=
  mkLayout kNoRect kNoRect kNoRect kNoRect kNoRect kNoRect kNoRect true false.

(** Complete border plus five content rows. *)
Definition panel_h : Z := 7.

(** One of the three header rows: taken while there is room above the footer. *)
Definition header_row (w top bottom : Z) : Rect * Z :=
  if top <? bottom then (mkRect 0 top w 1, top + 1) else (kNoRect, top).

(** The lower panels: the inspector, the metrics and the row above them. *)
Definition lower_panels (w top bottom : Z) (stacked : bool) : Rect * Rect * Z :=
  let available := bottom - top in
  if negb stacked && (panel_h + 4 <=? available) then
    let inspector_w := w * 3 / 5 in
    (mkRect 0 (bottom - panel_h) inspector_w panel_h,
     mkRect inspector_w (bottom - panel_h) (w - inspector_w) panel_h,
     bottom - panel_h)
  else if stacked && (panel_h * 2 + 4 <=? available) then
    (mkRect 0 (bottom - panel_h - panel_h) w panel_h, mkRect 0 (bottom - panel_h) w panel_h,
     bottom - panel_h - panel_h)
  else if panel_h + 4 <=? available then
    (mkRect 0 (bottom - panel_h) w panel_h, kNoRect, bottom - panel_h)
  else (kNoRect, kNoRect, bottom).

Definition solve_layout (w h : Z) : AppLayout :=
  if (w <=? 0) || (h <=? 0) then no_layout
  else
    let bottom := h - 1 in
    let '(title, top) := header_row w 0 bottom in
    let '(address, top) := header_row w top bottom in
    let '(section, top) := header_row w top bottom in
    let legend := 30 <=? h in
    let stacked := w <? 100 in
    let '(inspector, metrics, bottom) := lower_panels w top bottom stacked in
    mkLayout title address section (mkRect 0 top w (Z.max 0 (bottom - top))) inspector metrics
      (mkRect 0 (h - 1) w 1) legend stacked.

(** The seven areas, in the order of the record. *)
Definition areas (l : AppLayout) : list Rect :=
  [l_title l; l_address l; l_section l; l_map l; l_inspector l; l_metrics l; l_footer l].

(** How many of the areas hold a position. *)
Definition holds (r : Rect) (x y : Z) : Z := if decide (in_rect r x y) then 1 else 0.
Definition covers (l : AppLayout) (x y : Z) : Z := sum_by (fun r => holds r x y) (areas l).

(** Rows [a, b) as an indicator; consecutive runs of rows join. *)
Definition rows (a b y : Z) : Z := if decide (a <= y < b) then 1 else 0.

Lemma rows_join a b c y : a <= b <= c -> rows a b y + rows b c y = rows a c y.
Proof. intros. unfold rows. repeat case_decide; lia. Qed.

Lemma holds_band w t n x y : 0 <= x < w -> holds (mkRect 0 t w n) x y = rows t (t + n) y.
Proof. intros. unfold holds, rows, in_rect. cbn. repeat case_decide; lia. Qed.

Lemma holds_none x y : holds kNoRect x y = 0.
Proof. unfold holds, in_rect. cbn. case_decide; lia. Qed.

Lemma header_row_spec w top bottom x y :
  0 <= x < w -> top <= bottom ->
  let '(r, top') := header_row w top bottom in
  top <= top' <= bottom /\ holds r x y = rows top top' y.
Proof.
  intros Hx Ht. unfold header_row. destruct (Z.ltb_spec top bottom).
  - split; [lia|]. by apply holds_band.
  - split; [lia|]. rewrite holds_none. unfold rows. case_decide; lia.
Qed.

Lemma lower_panels_spec w top bottom stacked x y :
  0 <= x < w -> top <= bottom ->
  let '(inspector, metrics, b) := lower_panels w top bottom stacked in
  top <= b <= bottom /\ (0 < rh inspector -> top + 4 <= b) /\ (0 < rh metrics -> 0 < rh inspector) /\
  holds inspector x y + holds metrics x y = rows b bottom y.
Proof.
  intros Hx Ht. unfold lower_panels, panel_h. cbv zeta.
  assert (0 <= w * 3 / 5 <= w) as Hi by (Z.div_mod_to_equations; lia).
  destruct stacked; cbn [negb andb].
  - destruct (Z.leb_spec (7 * 2 + 4) (bottom - top)); [|destruct (Z.leb_spec (7 + 4) (bottom - top))].
    + split; [lia|]. split; [lia|]. split; [done|]. rewrite !holds_band by done.
      rewrite !Z.sub_add. apply rows_join. lia.
    + split; [lia|]. split; [lia|]. split; [done|]. rewrite holds_band, holds_none by done.
      rewrite Z.add_0_r. f_equal; lia.
    + split; [lia|]. split; [done|]. split; [done|]. rewrite !holds_none. unfold rows. case_decide; lia.
  - destruct (Z.leb_spec (7 + 4) (bottom - top)); (split; [lia|]).
    + split; [lia|]. split; [done|]. unfold holds, rows, in_rect. cbn [rx ry rw rh].
      clear Ht. destruct (decide (x < w * 3 / 5)); repeat case_decide; lia.
    + split; [done|]. split; [done|]. rewrite !holds_none. unfold rows. case_decide; lia.
Qed.

Lemma layout_division w h x y :
  0 <= x < w -> 0 <= y < h ->
  let l := solve_layout w h in
  covers l x y = 1 /\
  (0 < rh (l_inspector l) -> 4 <= rh (l_map l)) /\
  (0 < rh (l_metrics l) -> 0 < rh (l_inspector l)).
Proof.
  intros Hx Hy. unfold solve_layout. destruct (Z.leb_spec w 0); [lia|]. destruct (Z.leb_spec h 0); [lia|].
  cbn [orb].
  pose proof (header_row_spec w 0 (h - 1) x y Hx ltac:(lia)) as H1.
  destruct (header_row w 0 (h - 1)) as [title t1]. destruct H1 as [B1 H1].
  pose proof (header_row_spec w t1 (h - 1) x y Hx ltac:(lia)) as H2.
  destruct (header_row w t1 (h - 1)) as [address t2]. destruct H2 as [B2 H2].
  pose proof (header_row_spec w t2 (h - 1) x y Hx ltac:(lia)) as H3.
  destruct (header_row w t2 (h - 1)) as [section t3]. destruct H3 as [B3 H3].
  pose proof (lower_panels_spec w t3 (h - 1) (w <? 100) x y Hx ltac:(lia)) as Hl.
  destruct (lower_panels w t3 (h - 1) (w <? 100)) as [[inspector metrics] b].
  destruct Hl as (Bl & Hfour & Hboth & Hl).
  split; [|cbn [l_inspector l_map l_metrics rh]; split; [intros ?%Hfour; lia|done]].
  unfold covers, areas. cbn [sum_by foldr l_title l_address l_section l_map l_inspector l_metrics l_footer].
  rewrite H1, H2, H3, !holds_band by done.
  assert (rows t3 (t3 + Z.max 0 (b - t3)) y = rows t3 b y) as -> by (f_equal; lia).
  pose proof (rows_join 0 t1 t2 y). pose proof (rows_join 0 t2 t3 y). pose proof (rows_join 0 t3 b y).
  pose proof (rows_join 0 b (h - 1) y). pose proof (rows_join 0 (h - 1) (h - 1 + 1) y).
  assert (rows 0 (h - 1 + 1) y = 1) by (unfold rows; case_decide; lia).
  lia.
Qed.

(** No two areas share a position. *)
Lemma areas_apart w h x y i j r1 r2 : 0 <= x < w -> 0 <= y < h -> (i < j)%nat ->
  areas (solve_layout w h) !! i = Some r1 -> areas (solve_layout w h) !! j = Some r2 ->
  in_rect r1 x y -> ~ in_rect r2 x y.
Proof.
  intros Hx Hy Hij H1 H2 I1 I2. destruct (layout_division w h x y Hx Hy) as [Hc _]. unfold covers in Hc.
  assert (forall l, 0 <= sum_by (fun r => holds r x y) l) as Hnn.
  { intros l. apply sum_by_nonneg. intros r _. unfold holds. case_decide; lia. }
  revert Hc H1 H2. generalize (areas (solve_layout w h)). intros l Hc H1 H2.
  apply list_elem_of_split_length in H1 as (l1 & l2 & -> & Hi). rewrite lookup_app_r in H2 by lia.
  replace (j - length l1)%nat with (S (j - length l1 - 1))%nat in H2 by lia. cbn [lookup list_lookup] in H2.
  apply list_elem_of_split_length in H2 as (l3 & l4 & -> & _).
  rewrite sum_by_app, sum_by_cons, sum_by_app, sum_by_cons in Hc. unfold holds at 2 4 in Hc.
  rewrite !decide_True in Hc by done. pose proof (Hnn l1). pose proof (Hnn l3). pose proof (Hnn l4). lia.
Qed.

(** An area that stays on a screen of [w] by [h] cells. *)
Definition on_screen (w h : Z) (r : Rect) : Prop :=
  0 <= rx r /\ 0 <= ry r /\ 0 <= rw r /\ 0 <= rh r /\ rx r + rw r <= w /\ ry r + rh r <= h.

Lemma no_rect_on_screen w h : 0 <= w -> 0 <= h -> on_screen w h kNoRect.
Proof. unfold on_screen. cbn. lia. Qed.
Lemma band_on_screen w h t n : 0 <= w -> 0 <= t -> 0 <= n -> t + n <= h -> on_screen w h (mkRect 0 t w n).
Proof. unfold on_screen. cbn. lia. Qed.

Lemma header_row_on_screen w h top bottom : 0 <= w -> 0 <= top <= bottom -> bottom <= h ->
  let '(r, top') := header_row w top bottom in on_screen w h r /\ top <= top' <= bottom.
Proof.
  intros Hw Ht Hb. unfold header_row. destruct (Z.ltb_spec top bottom).
  - split; [apply band_on_screen; lia|lia].
  - split; [apply no_rect_on_screen; lia|lia].
Qed.

Lemma lower_panels_on_screen w h top bottom stacked : 0 <= w -> 0 <= top <= bottom -> bottom <= h ->
  let '(inspector, metrics, b) := lower_panels w top bottom stacked in
  on_screen w h inspector /\ on_screen w h metrics /\ top <= b <= bottom.
Proof.
  intros Hw Ht Hb. unfold lower_panels, panel_h. cbv zeta.
  assert (0 <= w * 3 / 5 <= w) as Hi by (Z.div_mod_to_equations; lia).
  assert (on_screen w h kNoRect) as Hn by (apply no_rect_on_screen; lia).
  destruct stacked; cbn [negb andb].
  - destruct (Z.leb_spec (7 * 2 + 4) (bottom - top)); [|destruct (Z.leb_spec (7 + 4) (bottom - top))].
    + split; [apply band_on_screen; lia|]. split; [apply band_on_screen; lia|lia].
    + split; [apply band_on_screen; lia|]. split; [done|lia].
    + split; [done|]. split; [done|lia].
  - destruct (Z.leb_spec (7 + 4) (bottom - top)); (split; [|split; [|lia]]); try done; unfold on_screen; cbn; lia.
Qed.

Lemma solve_layout_on_screen w h : 0 < w -> 0 < h -> Forall (on_screen w h) (areas (solve_layout w h)).
Proof.
  intros Hw Hh. unfold solve_layout. destruct (Z.leb_spec w 0); [lia|]. destruct (Z.leb_spec h 0); [lia|]. cbn [orb].
  pose proof (header_row_on_screen w h 0 (h - 1) ltac:(lia) ltac:(lia) ltac:(lia)) as H1.
  destruct (header_row w 0 (h - 1)) as [title t1]. destruct H1 as [H1 B1].
  pose proof (header_row_on_screen w h t1 (h - 1) ltac:(lia) ltac:(lia) ltac:(lia)) as H2.
  destruct (header_row w t1 (h - 1)) as [address t2]. destruct H2 as [H2 B2].
  pose proof (header_row_on_screen w h t2 (h - 1) ltac:(lia) ltac:(lia) ltac:(lia)) as H3.
  destruct (header_row w t2 (h - 1)) as [section t3]. destruct H3 as [H3 B3].
  pose proof (lower_panels_on_screen w h t3 (h - 1) (w <? 100) ltac:(lia) ltac:(lia) ltac:(lia)) as Hl.
  destruct (lower_panels w t3 (h - 1) (w <? 100)) as [[inspector metrics] b]. destruct Hl as (Hi & Hm & Bl).
  unfold areas. cbn. repeat (apply Forall_cons; split); try done; try apply band_on_screen; lia.
Qed.

(** C26: The layout is a division of the screen.  On every terminal, however
    small, each of the seven areas lies inside the screen, no size of it
    negative, and each position of the screen belongs to exactly one of them,
    so no panel can be overdrawn by another and no row is left unpainted.  The
    lower panels appear only when the map keeps at least four rows, the metrics
    only beside or under the inspector; and on a screen without cells all seven
    areas are the empty one. *)
Theorem layout_tiles w h :
  let l := solve_layout w h in
  (0 < w -> 0 < h -> Forall (on_screen w h) (areas l)) /\
  (forall x y, 0 <= x < w -> 0 <= y < h -> covers l x y = 1) /\
  (0 < rh (l_inspector l) -> 4 <= rh (l_map l)) /\
  (0 < rh (l_metrics l) -> 0 < rh (l_inspector l)) /\
  (w <= 0 \/ h <= 0 -> Forall (eq kNoRect) (areas l)).
Proof.
  cbv zeta. split; [apply solve_layout_on_screen|]. split; [intros x y Hx Hy; by apply layout_division|].
  destruct (decide (w <= 0 \/ h <= 0)) as [Hnone|Hsome].
  - assert (solve_layout w h = no_layout) as ->.
    { unfold solve_layout. destruct (Z.leb_spec w 0); [done|]. destruct (Z.leb_spec h 0); [done|lia]. }
    cbn. split; [lia|]. split; [lia|]. intros _. by repeat constructor.
  - pose proof (layout_division w h 0 0 ltac:(lia) ltac:(lia)) as (_ & Hfour & Hboth). by repeat split.
Qed.

Lemma layout_tiles_witness :
  on_screen 120 40 (l_footer (solve_layout 120 40)) /\ covers (solve_layout 120 40) 72 35 = 1 /\
  4 <= rh (l_map (solve_layout 80 24)) /\ l_map (solve_layout 0 24) = kNoRect.
Proof.
  split; [|split; [|split]].
  - apply (Forall_lookup_1 _ _ 6%nat _ (proj1 (layout_tiles 120 40) ltac:(lia) ltac:(lia))). reflexivity.
  - apply (proj1 (proj2 (layout_tiles 120 40))); lia.
  - apply (proj1 (proj2 (proj2 (layout_tiles 80 24)))). by vm_compute.
  - symmetry. apply (Forall_lookup_1 _ _ 3%nat _ (proj2 (proj2 (proj2 (proj2 (layout_tiles 0 24)))) ltac:(left; lia))). reflexivity.
Defined.
