(* ===== verification/Theme.v ===== *)
(** * Colour themes (src/src/tui/theme.h, theme.cpp)

    The two palettes, their names and the heat palette cut out of one.  The
    WCAG contrast ratio is in [FloatColor]. *)

From Stdlib Require Import String.
From S2P Require Import Prelude.

Inductive ThemeKind := DarkTheme | LightTheme.
#[export] Instance ThemeKind_eq_dec : EqDecision ThemeKind.
Proof. solve_decision. Defined.

Record Theme := mkTheme {
  th_frame : Z;
  th_title : Z;
  th_accent : Z;
  th_malloc : Z;
  th_freed : Z;
  th_active : Z;
  th_overhead : Z;
  th_unalloc : Z;
  th_cursor : Z;
  th_text : Z;
  th_dim : Z;
  th_bg : Z;
  th_danger_text : Z;
  th_leak : Z
}.

Definition dark_theme : Theme :=
  mkTheme 0x00C87828 0x007FE08A 0x00F5A623 0x004EC94E
          0x00E01B24 0x003584E4 0x00F6D32D 0x002A2A2A
          0x0033D7E8 0x00D8D8D8 0x007A7A7A 0x000C0C0C
          0x00F36A72 0x00E57BFF.
Definition light_theme : Theme :=
  mkTheme 0x00834D10 0x001E6B2C 0x00805A00 0x001F7A31
          0x00B51620 0x001E5FAF 0x00805A00 0x00E2E5E7
          0x0000717B 0x001C2228 0x00545D66 0x00FAFAF8
          0x00A40812 0x008A2387.

Definition theme_for (k : ThemeKind) : Theme :=
  match k with LightTheme => light_theme | DarkTheme => dark_theme end.

(** The out-parameter is written only when the name is known. *)
Definition parse_theme (name : list Z) (out : ThemeKind) : ThemeKind * bool :=
  if decide (name = str "dark") then (DarkTheme, true)
  else if decide (name = str "light") then (LightTheme, true)
  else (out, false).

Definition theme_name (k : ThemeKind) : list Z :=
  match k with LightTheme => str "light" | DarkTheme => str "dark" end.

(** From heat_color.h: the five colours the map is drawn from. *)
Record HeatPalette := mkPalette {
  hp_fresh : Z;
  hp_freed : Z;
  hp_settled : Z;
  hp_overhead : Z;
  hp_empty : Z
}.
Definition heat_palette (t : Theme) : HeatPalette :=
  mkPalette (th_malloc t) (th_freed t) (th_active t) (th_overhead t) (th_unalloc t).

(** A theme's name is what selects it, and no other name selects anything. *)
Lemma parse_theme_spec name out :
  parse_theme name out =
  match list_find (fun k => name = theme_name k) [DarkTheme; LightTheme] with
  | Some (_, k) => (k, true)
  | None => (out, false)
  end.
Proof. unfold parse_theme. cbn [list_find theme_name]. repeat case_decide; done. Qed.

Lemma theme_round_trip k out : parse_theme (theme_name k) out = (k, true).
Proof. by destruct k. Qed.
