(* ===== verification/Panel.v ===== *)
(** * Drawing inside a panel (src/src/tui/panel.h, panel.cpp)

    The text primitives the lower panels draw with, clipped to the panel
    instead of the screen, and the decimal counts with separators they print. *)

From S2P Require Import Prelude Framebuffer.

Definition panel_text (f : Framebuffer) (area : Rect) (dx dy : Z) (s : list Z) (fgc bgc at' : Z)
    : Framebuffer * Z :=
  if (rw area <=? 0) || (rh area <=? 0) then (f, 0)
  else if (dx <? 0) || (dy <? 0) || (rw area <=? dx) || (rh area <=? dy) then (f, 0)
  else
    let room := rw area - dx in
    let s := if room <? Z.of_nat (length s) then take (Z.to_nat room) s else s in
    text f (rx area + dx) (ry area + dy) s fgc bgc at'.

Definition panel_text_right (f : Framebuffer) (area : Rect) (dy : Z) (s : list Z) (fgc bgc at' : Z)
    : Framebuffer * Z :=
  if (rw area <=? 0) || (rh area <=? 0) then (f, 0)
  else if (dy <? 0) || (rh area <=? dy) then (f, 0)
  else if rw area <? Z.of_nat (length s) then (f, 0)
  else text f (rx area + (rw area - Z.of_nat (length s))) (ry area + dy) s fgc bgc at'.

(** The characters of a number, and of a hexadecimal one. *)
Definition numeric_char (hexadecimal : bool) (c : Z) : bool :=
  is_digit c || (c =? 44) || (c =? 46) || (c =? 126) ||
  (hexadecimal && ((c =? 120) || ((97 <=? c) && (c <=? 102)) || ((65 <=? c) && (c <=? 70)))).

Definition is_hex (s : list Z) : bool :=
  (2 <? Z.of_nat (length s)) && (default 0 (s !! 0%nat) =? 48) && (default 0 (s !! 1%nat) =? 120).

Definition number_step (x y number bgc : Z) (hexadecimal : bool) (f : Framebuffer) (ic : nat * Z) : Framebuffer :=
  let '(i, c) := ic in
  if numeric_char hexadecimal c then put f (x + Z.of_nat i) y (mkCell c number bgc kAttrNone) else f.

Definition panel_numeric_right (f : Framebuffer) (area : Rect) (dy : Z) (s : list Z) (number dim bgc : Z)
    : Framebuffer * Z :=
  if (rw area <=? 4) || (dy <? 0) || (rh area <=? dy) then (f, 0)
  else if rw area - 4 <? Z.of_nat (length s) then (f, 0)
  else
    let x := rx area + rw area - 2 - Z.of_nat (length s) in
    let '(f, written) := text f x (ry area + dy) s dim bgc kAttrNone in
    (foldl (number_step x (ry area + dy) number bgc (is_hex s)) f (imap pair s), written).

(** The frame of a panel with its name; the title buffer holds 95 characters. *)
Definition panel_rule (f : Framebuffer) (area : Rect) (label : list Z) (frame accent bgc : Z) : Framebuffer :=
  if (rw area <=? 0) || (rh area <=? 0) then f
  else
    let f := box f area Light frame bgc kAttrNone in
    match label with
    | [] => f
    | _ =>
        if rw area <? Z.of_nat (length label) + 6 then f
        else
          let title := (snprintf 96 ([91] ++ label ++ [93])).1 in
          (panel_text f area 2 0 title accent bgc kAttrBold).1
    end.

(** The digits with a separator before each one whose distance from the end is a
    multiple of three; [out] is what is in the buffer so far. *)
Fixpoint count_loop (n d i : Z) (digits out : list Z) : list Z :=
  match digits with
  | [] => out
  | c :: digits =>
      let sep := negb (i =? 0) && ((d - i) mod 3 =? 0) in
      if sep && (n <=? Z.of_nat (length out) + 1) then out
      else
        let out := if sep then out ++ [44] else out in
        if n <=? Z.of_nat (length out) + 1 then out
        else count_loop n d (i + 1) digits (out ++ [c])
  end.

(** The characters written before the NUL; the function returns their number. *)
Definition format_count (n v : Z) : list Z :=
  if n =? 0 then []
  else
    let digits := (snprintf 24 (dec v)).1 in
    count_loop n (Z.of_nat (length digits)) 0 digits [].

(** ** Confinement *)

Ltac cuts := repeat match goal with |- context [if ?b then (?f, _) else _] => destruct b eqn:?; [by apply confined_refl|] end.

Lemma panel_text_confined f area dx dy s fgc bgc at' :
  fb_ok f -> confined (in_rect area) f (panel_text f area dx dy s fgc bgc at').1.
Proof.
  intros Hok. unfold panel_text. cuts. bprop.
  eapply confined_mono; [|by apply confined_text]. intros i j _ [-> Hi]. unfold in_rect.
  destruct (Z.ltb_spec (rw area - dx) (Z.of_nat (length s))); [rewrite length_take in Hi|]; lia.
Qed.

Lemma panel_text_right_confined f area dy s fgc bgc at' :
  fb_ok f -> confined (in_rect area) f (panel_text_right f area dy s fgc bgc at').1.
Proof.
  intros Hok. unfold panel_text_right. cuts. bprop.
  eapply confined_mono; [|by apply confined_text]. intros i j _ [-> Hi]. unfold in_rect. lia.
Qed.

Lemma panel_numeric_right_confined f area dy s number dim bgc :
  fb_ok f -> confined (in_rect area) f (panel_numeric_right f area dy s number dim bgc).1.
Proof.
  intros Hok. unfold panel_numeric_right. cuts. bprop. set (x := rx area + rw area - 2 - Z.of_nat (length s)).
  pose proof (confined_text f x (ry area + dy) s dim bgc kAttrNone Hok) as Ht.
  destruct (text f x (ry area + dy) s dim bgc kAttrNone) as [g n]. cbn [fst] in *.
  assert (forall i j, j = ry area + dy -> x <= i < x + Z.of_nat (length s) -> in_rect area i j) as Hin
    by (unfold in_rect; subst x; lia).
  eapply confined_step; [eapply confined_mono; [|exact Ht]; intros i j _ [? ?]; by apply Hin|].
  intros Hg. apply confined_fold; [|done]. intros f' [i c] Hic Hf'. unfold number_step.
  destruct (numeric_char (is_hex s) c); [|by apply confined_refl].
  eapply confined_mono; [|by apply confined_put]. intros a b _ [-> ->]. apply Hin; [done|].
  apply list_elem_of_lookup in Hic as [k Hk]. rewrite list_lookup_imap in Hk.
  destruct (s !! k) eqn:Es; [|done]. injection Hk as <- _. apply lookup_lt_Some in Es. lia.
Qed.

Lemma panel_rule_confined f area label frame accent bgc :
  fb_ok f -> confined (in_rect area) f (panel_rule f area label frame accent bgc).
Proof.
  intros Hok. unfold panel_rule. destruct (_ || _); [by apply confined_refl|].
  eapply confined_step; [by apply confined_box|]. intros Hg. destruct label; [by apply confined_refl|].
  destruct (_ <? _); [by apply confined_refl|]. by apply panel_text_confined.
Qed.

#[export] Hint Resolve panel_text_confined panel_text_right_confined panel_numeric_right_confined
  panel_rule_confined : drawing.

(** ** Counts *)

(** The text the loop adds when the buffer never fills. *)
Fixpoint grouped (digits : list Z) : list Z :=
  match digits with
  | [] => []
  | c :: ds => (if Z.of_nat (length digits) mod 3 =? 0 then [44] else []) ++ c :: grouped ds
  end.

Lemma grouped_length ds : Z.of_nat (length (grouped ds)) = Z.of_nat (length ds) + Z.of_nat (length ds) / 3.
Proof.
  induction ds as [|c ds IH]; [done|]. cbn [grouped]. rewrite length_app. cbn [length].
  destruct (Z.eqb_spec (Z.of_nat (S (length ds)) mod 3) 0); cbn [length]; Z.div_mod_to_equations; lia.
Qed.

Lemma count_loop_grouped n d ds : forall i out,
  0 < i -> d - i = Z.of_nat (length ds) ->
  Z.of_nat (length out) + Z.of_nat (length (grouped ds)) < n ->
  count_loop n d i ds out = out ++ grouped ds.
Proof.
  induction ds as [|c ds IH]; intros i out Hi Hd Hn; cbn [count_loop grouped]; [by rewrite app_nil_r|].
  rewrite Hd. cbn [grouped length] in Hn. rewrite length_app in Hn. cbn [length] in Hn |- *.
  destruct (Z.eqb_spec i 0); [lia|]. cbn [negb andb].
  destruct (Z.of_nat (S (length ds)) mod 3 =? 0); cbn [andb length app] in *.
  - destruct (Z.leb_spec n (Z.of_nat (length out) + 1)); [lia|]. rewrite length_app. cbn [length].
    destruct (Z.leb_spec n (Z.of_nat (length out + 1) + 1)); [lia|].
    rewrite IH; [by rewrite <- !app_assoc|lia|cbn [length] in Hd; lia|rewrite !length_app; cbn [length]; lia].
  - destruct (Z.leb_spec n (Z.of_nat (length out) + 1)); [lia|].
    rewrite IH; [by rewrite <- app_assoc|lia|cbn [length] in Hd; lia|rewrite !length_app; cbn [length]; lia].
Qed.

Lemma format_count_shape n v : 26 < n ->
  exists c ds, dec v = c :: ds /\ format_count n v = c :: grouped ds.
Proof.
  intros Hn. unfold format_count. destruct (Z.eqb_spec n 0); [lia|].
  pose proof (dec_string_length 20 v) as Hl. pose proof (dec_string_nonempty 19 v) as Hne. fold (dec v) in *.
  unfold snprintf. cbn [fst]. rewrite take_ge by (change (Z.to_nat (24 - 1)) with 23%nat; lia).
  destruct (dec v) as [|c ds]; [done|]. exists c, ds. split; [done|].
  cbn [count_loop length app]. change (negb (0 =? 0)) with false. cbn [andb app length].
  destruct (Z.leb_spec n (Z.of_nat 0 + 1)); [lia|].
  rewrite count_loop_grouped; [done|lia|cbn [length] in *; lia|].
  rewrite grouped_length. cbn [length] in *. Z.div_mod_to_equations; lia.
Qed.

Lemma grouped_digits ds : Forall (fun c => is_digit c = true) ds -> filter (fun c => c <> 44) (grouped ds) = ds.
Proof.
  induction 1 as [|c ds Hc _ IH]; [done|]. cbn [grouped]. rewrite filter_app.
  assert (filter (fun c => c <> 44) (if Z.of_nat (length (c :: ds)) mod 3 =? 0 then [44] else []) = []) as ->
    by (by destruct (_ =? _)).
  cbn [app]. rewrite filter_cons_True; [by rewrite IH|]. intros ->. done.
Qed.

Lemma grouped_commas ds k :
  Forall (fun c => is_digit c = true) ds ->
  reverse (grouped ds) !! k = Some 44 <-> (k < length (grouped ds))%nat /\ (k mod 4 = 3)%nat.
Proof.
  intros Hds. revert k. induction Hds as [|c ds Hc _ IH]; intros k; [cbn; split; [done|lia]|].
  pose proof (grouped_length ds) as Hl. cbn [grouped]. rewrite reverse_app, reverse_cons, !length_app. cbn [length].
  set (r := Z.of_nat (S (length ds)) mod 3 =? 0).
  assert (r = true <-> Z.of_nat (S (length ds)) mod 3 = 0) as Hr by (unfold r; by rewrite Z.eqb_eq).
  destruct (decide (k < length (grouped ds))%nat) as [Hk|Hk].
  { rewrite !lookup_app_l by (rewrite ?length_app, ?length_reverse; cbn [length]; lia). rewrite IH.
    split; intros [? ?]; (split; [lia|done]). }
  destruct (decide (k = length (grouped ds))) as [->|Hk2].
  { rewrite lookup_app_l by (rewrite length_app, length_reverse; cbn [length]; lia).
    rewrite list_lookup_middle by (by rewrite length_reverse).
    split; [intros [= ->]; done|]. intros [_ Hm]. exfalso.
    apply (f_equal Z.of_nat) in Hm. rewrite Nat2Z.inj_mod in Hm. rewrite Hl in Hm.
    destruct r; Z.div_mod_to_equations; lia. }
  rewrite lookup_app_r by (rewrite length_app, length_reverse; cbn [length]; lia).
  rewrite length_app, length_reverse. cbn [length].
  destruct (decide (k = S (length (grouped ds)))) as [->|Hk3].
  - replace (S (length (grouped ds)) - (length (grouped ds) + 1))%nat with 0%nat by lia.
    assert ((S (length (grouped ds)) mod 4 = 3)%nat <-> r = true) as ->.
    { rewrite Hr. split; intros Hm.
      - apply (f_equal Z.of_nat) in Hm. rewrite Nat2Z.inj_mod, Nat2Z.inj_succ, Hl in Hm. Z.div_mod_to_equations; lia.
      - apply Nat2Z.inj. rewrite Nat2Z.inj_mod, Nat2Z.inj_succ, Hl. Z.div_mod_to_equations; lia. }
    destruct r; cbn; [split; [intros _; split; [lia|done]|done]|split; [done|intros [_ ?]; done]].
  - destruct r; cbn [reverse rev_append length].
    + rewrite lookup_ge_None_2 by (cbn [length]; lia). split; [done|lia].
    + rewrite lookup_ge_None_2 by (cbn [length]; lia). split; [done|lia].
Qed.

(** A printed count can be read back.  In a buffer with room for any 64-bit
    value, dropping the separators of [format_count] leaves the decimal digits
    of the value, and, counted from the right, a separator stands exactly in
    every fourth place, so never first.  In any buffer the text leaves room for
    its terminator. *)
Theorem format_count_round_trip n v :
  is_u64 v -> 26 < n ->
  let s := format_count n v in
  dec_value (filter (fun c => c <> 44) s) = v /\
  (forall k, reverse s !! k = Some 44 <-> (k < length s)%nat /\ (k mod 4 = 3)%nat) /\
  head s <> Some 44 /\ Z.of_nat (length s) < n.
Proof.
  intros Hv Hn s. destruct (format_count_shape n v Hn) as (c & ds & Ed & Es). subst s.
  assert (0 <= v < 10 ^ Z.of_nat 20) as Hv' by (unfold is_u64 in Hv; change (10 ^ Z.of_nat 20) with 100000000000000000000; ulia).
  pose proof (dec_string_digits 20 v ltac:(lia)) as Hd. pose proof (dec_string_value 20 v Hv') as Hval.
  pose proof (dec_string_length 20 v) as Hl.
  fold (dec v) in *. rewrite Ed in *. rewrite Es. apply Forall_cons in Hd as [Hc Hds].
  assert (c <> 44) as Hc44 by (intros ->; done).
  pose proof (grouped_length ds) as Hgl. cbn [length] in *.
  split; [rewrite filter_cons_True by done; by rewrite grouped_digits|]. split; [|split].
  - intros k. rewrite reverse_cons. destruct (decide (k < length (grouped ds))%nat) as [Hk|Hk].
    + rewrite lookup_app_l by (by rewrite length_reverse). rewrite grouped_commas by done. split; intros [? ?]; (split; [lia|done]).
    + rewrite lookup_app_r by (rewrite length_reverse; lia). rewrite length_reverse.
      destruct (decide (k = length (grouped ds))) as [->|Hk2].
      * rewrite Nat.sub_diag. change ([c] !! 0%nat) with (Some c). split; [intros [= ?]; done|]. intros [_ Hm]. exfalso.
        apply (f_equal Z.of_nat) in Hm. rewrite Nat2Z.inj_mod, Hgl in Hm. Z.div_mod_to_equations; lia.
      * rewrite lookup_ge_None_2 by (cbn [length]; lia). split; [done|lia].
  - cbn. congruence.
  - cbn [length]. Z.div_mod_to_equations; lia.
Qed.

Lemma format_count_round_trip_witness :
  format_count 48 1234567 = [49; 44; 50; 51; 52; 44; 53; 54; 55] /\
  dec_value (filter (fun c => c <> 44) (format_count 48 1234567)) = 1234567.
Proof.
  split; [reflexivity|]. apply (format_count_round_trip 48 1234567); [by vm_compute|lia].
Defined.
