(* ===== verification/Metrics.v ===== *)
(** * The telemetry panel (src/src/tui/metrics.h, metrics.cpp)

    The figures kept for the lower right panel, the percentage and badge rules,
    and the drawing of its five rows. *)

From Stdlib Require Import String.
From S2P Require Import Prelude Framebuffer Grid Panel Theme.

Definition kMetricsRows : Z := 6.
Definition kMetricsMinCols : Z := 28.
Definition kMetricsWideCols : Z := 44.
Definition kRingWarnPct : Z := 50.
Definition kRingBadPct : Z := 80.
Definition kFragMedPct : Z := 15.
Definition kFragHighPct : Z := 40.
Definition kMetricsValueCol : Z := 14.

Inductive FragBadge := BadgeUnknown | BadgeLow | BadgeMed | BadgeHigh.
#[export] Instance FragBadge_eq_dec : EqDecision FragBadge.
Proof. solve_decision. Defined.

Definition frag_badge (pct : Z) : FragBadge :=
  if pct <? 0 then BadgeUnknown
  else if pct <? kFragMedPct then BadgeLow
  else if pct <? kFragHighPct then BadgeMed
  else BadgeHigh.

Definition frag_badge_str (b : FragBadge) : list Z :=
  match b with
  | BadgeUnknown => []
  | BadgeLow => str "[Low]"
  | BadgeMed => str "[Med]"
  | BadgeHigh => str "[High]"
  end.

Inductive Pressure := Calm | Warn | Bad.
#[export] Instance Pressure_eq_dec : EqDecision Pressure.
Proof. solve_decision. Defined.

Definition metrics_split (total_w other_min_cols : Z) : Z :=
  if (total_w <=? 0) || (other_min_cols <? 0) then 0
  else
    let mw := total_w * 2 / 5 in
    let mw := if mw <? kMetricsMinCols then kMetricsMinCols else mw in
    if total_w - mw <? other_min_cols then 0 else mw.

Definition ring_percent (queued capacity : Z) : Z :=
  if (capacity =? 0) || (queued =? 0) then 0
  else if capacity <=? queued then 100
  else
    let pct := (queued ⊠ 100) / capacity in
    if pct =? 0 then 1 else u32 pct.

Definition ring_pressure (queued capacity : Z) : Pressure :=
  let pct := ring_percent queued capacity in
  if kRingBadPct <=? pct then Bad else if kRingWarnPct <=? pct then Warn else Calm.

Record MetricsSample := mkSample {
  ms_live_chunks : Z;
  ms_live_bytes : Z;
  ms_ring_queued : Z;
  ms_ring_capacity : Z;
  ms_dropped : Z;
  ms_now_ms : Z
}.
Definition no_sample : MetricsSample := mkSample 0 0 0 0 0 0.

Record MetricsStyle := mkMetricsStyle {
  m_ink : Z; m_dim : Z; m_accent : Z; m_frame : Z; m_good : Z; m_warn : Z; m_bad : Z; m_bg : Z
}.
Definition default_metrics_style : MetricsStyle :=
  mkMetricsStyle (th_text dark_theme) (th_dim dark_theme) (th_accent dark_theme) (th_frame dark_theme)
    (th_title dark_theme) (th_accent dark_theme) (th_danger_text dark_theme) (th_bg dark_theme).

Record Metrics := mkMetrics {
  mt_style : MetricsStyle;
  mt_live : MetricsSample;
  mt_total_bytes : Z;
  mt_total_allocs : Z;
  mt_peak_bytes : Z;
  mt_peak_ms : Z;
  mt_largest_gap : Z;
  mt_gap_known : bool;
  mt_cumulative_known : bool;
  mt_frag_pct : Z
}.
Definition new_metrics : Metrics :=
  mkMetrics default_metrics_style no_sample 0 0 0 0 0 false true (-1).

(** ** The setters *)
Definition set_metrics_style (m : Metrics) (s : MetricsStyle) : Metrics :=
  mkMetrics s (mt_live m) (mt_total_bytes m) (mt_total_allocs m) (mt_peak_bytes m) (mt_peak_ms m)
    (mt_largest_gap m) (mt_gap_known m) (mt_cumulative_known m) (mt_frag_pct m).
Definition set_fragmentation (m : Metrics) (pct : Z) : Metrics :=
  mkMetrics (mt_style m) (mt_live m) (mt_total_bytes m) (mt_total_allocs m) (mt_peak_bytes m) (mt_peak_ms m)
    (mt_largest_gap m) (mt_gap_known m) (mt_cumulative_known m) pct.
Definition set_largest_gap (m : Metrics) (bytes : Z) (known : bool) : Metrics :=
  mkMetrics (mt_style m) (mt_live m) (mt_total_bytes m) (mt_total_allocs m) (mt_peak_bytes m) (mt_peak_ms m)
    bytes known (mt_cumulative_known m) (mt_frag_pct m).
Definition set_cumulative_known (m : Metrics) (known : bool) : Metrics :=
  mkMetrics (mt_style m) (mt_live m) (mt_total_bytes m) (mt_total_allocs m) (mt_peak_bytes m) (mt_peak_ms m)
    (mt_largest_gap m) (mt_gap_known m) known (mt_frag_pct m).

(** ** The counters *)
Definition count_alloc (m : Metrics) (usable : Z) : Metrics :=
  mkMetrics (mt_style m) (mt_live m)
    (if UINT64_MAX - usable <? mt_total_bytes m then UINT64_MAX else mt_total_bytes m ⊞ usable)
    (if mt_total_allocs m =? UINT64_MAX then mt_total_allocs m else mt_total_allocs m ⊞ 1)
    (mt_peak_bytes m) (mt_peak_ms m) (mt_largest_gap m) (mt_gap_known m) (mt_cumulative_known m) (mt_frag_pct m).

Definition reset_metrics (m : Metrics) (baseline : MetricsSample) : Metrics :=
  mkMetrics (mt_style m) baseline 0 0 (ms_live_bytes baseline) (ms_now_ms baseline)
    (mt_largest_gap m) (mt_gap_known m) (mt_cumulative_known m) (mt_frag_pct m).

Definition sample_ring_pct (s : MetricsSample) : Z := ring_percent (ms_ring_queued s) (ms_ring_capacity s).

Definition sample (m : Metrics) (s : MetricsSample) : Metrics * bool :=
  let higher := mt_peak_bytes m <? ms_live_bytes s in
  let live := mt_live m in
  let changed := higher in
  let changed :=
    if negb (ms_live_chunks s =? ms_live_chunks live) || negb (ms_live_bytes s =? ms_live_bytes live) ||
       negb (ms_dropped s =? ms_dropped live) || negb (ms_ring_capacity s =? ms_ring_capacity live)
    then true else changed in
  let changed := if negb (sample_ring_pct s =? sample_ring_pct live) then true else changed in
  (mkMetrics (mt_style m) s (mt_total_bytes m) (mt_total_allocs m)
     (if higher then ms_live_bytes s else mt_peak_bytes m)
     (if higher then ms_now_ms s else mt_peak_ms m)
     (mt_largest_gap m) (mt_gap_known m) (mt_cumulative_known m) (mt_frag_pct m), changed).

(** ** Drawing

    The lambda [field], with the frame and the row it draws on as its state. *)
Definition metrics_field (st : MetricsStyle) (area : Rect) (fd : Framebuffer * Z)
    (label value : list Z) (colour : Z) (numeric : bool) : Framebuffer * Z :=
  let '(f, dy) := fd in
  let f := (panel_text f area 2 dy label (m_dim st) (m_bg st) kAttrNone).1 in
  let f := if numeric then (panel_numeric_right f area dy value colour (m_dim st) (m_bg st)).1
           else (panel_text f area kMetricsValueCol dy value colour (m_bg st) kAttrNone).1 in
  (f, dy + 1).

Definition line192 (text : list Z) : list Z := (snprintf 192 text).1.
Definition human32 (bytes : Z) : list Z := (format_byte_size 32 bytes).1.

Definition draw_allocated (m : Metrics) (area : Rect) (wide : bool) (fd : Framebuffer * Z) : Framebuffer * Z :=
  let st := mt_style m in
  if negb (mt_cumulative_known m) then
    metrics_field st area fd (str "Allocated") (str "not observable") (m_dim st) false
  else
    let human := human32 (mt_total_bytes m) in
    let line :=
      if wide then line192 (human ++ str " (" ++ format_count 48 (mt_total_bytes m) ++ str " B)")
      else line192 human in
    metrics_field st area fd (str "Allocated") line (m_ink st) true.

Definition draw_active (m : Metrics) (area : Rect) (fd : Framebuffer * Z) : Framebuffer * Z :=
  let st := mt_style m in
  let line := line192 (format_count 48 (ms_live_chunks (mt_live m)) ++ str " chunks / " ++
                       human32 (ms_live_bytes (mt_live m))) in
  metrics_field st area fd (str "Active") line (m_ink st) true.

Definition draw_peak (m : Metrics) (area : Rect) (wide : bool) (fd : Framebuffer * Z) : Framebuffer * Z :=
  let st := mt_style m in
  let human := human32 (mt_peak_bytes m) in
  let live := ms_live_bytes (mt_live m) in
  let line :=
    if wide && (live <? mt_peak_bytes m)
    then line192 (human ++ str " (now -" ++ human32 (mt_peak_bytes m - live) ++ str ")")
    else line192 human in
  metrics_field st area fd (str "Peak") line (m_ink st) true.

Definition draw_fragmented (m : Metrics) (area : Rect) (fd : Framebuffer * Z) : Framebuffer * Z :=
  let st := mt_style m in
  let badge := frag_badge (mt_frag_pct m) in
  if decide (badge = BadgeUnknown) then
    metrics_field st area fd (str "Fragmented") (str "--") (m_dim st) false
  else
    let colour := match badge with BadgeMed => m_warn st | BadgeHigh => m_bad st | _ => m_good st end in
    let line := line192 (dec (mt_frag_pct m) ++ str "%  " ++ frag_badge_str badge) in
    let '(f, dy) := fd in
    let f := (panel_text f area 2 dy (str "Fragmented") (m_dim st) (m_bg st) kAttrNone).1 in
    let f := (panel_text f area kMetricsValueCol dy line colour (m_bg st) kAttrNone).1 in
    let f :=
      if mt_gap_known m then
        let hole := (snprintf 64 (str "max hole " ++ human32 (mt_largest_gap m) ++ str " ")).1 in
        if kMetricsValueCol + Z.of_nat (List.length line) + 2 + Z.of_nat (List.length hole) <=? rw area
        then (panel_text_right f area dy hole (m_dim st) (m_bg st) kAttrNone).1 else f
      else f in
    (f, dy + 1).

Definition draw_ring (m : Metrics) (area : Rect) (wide : bool) (fd : Framebuffer * Z) : Framebuffer :=
  let st := mt_style m in
  let '(f, dy) := fd in
  let live := mt_live m in
  let text2 f s := (panel_text f area 2 dy s (m_dim st) (m_bg st) kAttrNone).1 in
  if ms_ring_capacity live =? 0 then
    let f := text2 f (str "Sampling") in
    (panel_text f area kMetricsValueCol dy (str "read from target, no event stream")
       (m_dim st) (m_bg st) kAttrNone).1
  else
    let pct := sample_ring_pct live in
    let ring_colour :=
      match ring_pressure (ms_ring_queued live) (ms_ring_capacity live) with
      | Calm => m_good st | Warn => m_warn st | Bad => m_bad st
      end in
    let line :=
      if wide then line192 (dec pct ++ str "% of " ++ format_count 48 (ms_ring_capacity live))
      else line192 (dec pct ++ str "%") in
    let none := ms_dropped live =? 0 in
    let drops :=
      if none then str "0 dropped"
      else (snprintf 80 (str " " ++ format_count 48 (ms_dropped live) ++ str " DROPPED ")).1 in
    let drop_colour := if none then m_dim st else m_bad st in
    let drop_attrs := if none then kAttrNone else kAttrBold in
    if kMetricsValueCol + Z.of_nat (List.length line) + 2 + Z.of_nat (List.length drops) <=? rw area then
      let f := (panel_text f area kMetricsValueCol dy line ring_colour (m_bg st) kAttrNone).1 in
      let f := (panel_text_right f area dy drops drop_colour (m_bg st) drop_attrs).1 in
      text2 f (str "Ring")
    else if negb none then
      let f := text2 f (str "Ring") in
      (panel_text f area kMetricsValueCol dy drops drop_colour (m_bg st) drop_attrs).1
    else
      let f := text2 f (str "Ring") in
      (panel_text f area kMetricsValueCol dy line ring_colour (m_bg st) kAttrNone).1.

Definition draw_metrics (m : Metrics) (f : Framebuffer) (area : Rect) : Framebuffer :=
  if (rw area <? kMetricsMinCols) || (rh area <=? 0) then f
  else
    let st := mt_style m in
    let f := panel_rule f area (str " TELEMETRY METRICS ") (m_frame st) (m_accent st) (m_bg st) in
    let wide := kMetricsWideCols <=? rw area in
    let fd := (f, 1) in
    let fd := draw_allocated m area wide fd in
    let fd := draw_active m area fd in
    let fd := draw_peak m area wide fd in
    let fd := draw_fragmented m area fd in
    draw_ring m area wide fd.

(** ** What the figures mean *)

(** A measurement window: allocations counted and frames sampled, in order. *)
Inductive MetricsOp := OpAlloc (usable : Z) | OpSample (s : MetricsSample).
Definition metrics_step (m : Metrics) (o : MetricsOp) : Metrics :=
  match o with OpAlloc u => count_alloc m u | OpSample s => (sample m s).1 end.
Definition allocs (l : list MetricsOp) : list Z := omap (fun o => match o with OpAlloc u => Some u | _ => None end) l.
Definition samples (l : list MetricsOp) : list MetricsSample :=
  omap (fun o => match o with OpSample s => Some s | _ => None end) l.

(** [p] is the first highest of a list of samples. *)
Definition first_peak (l : list MetricsSample) (bytes ms : Z) : Prop :=
  exists before s after, l = before ++ s :: after /\ ms_live_bytes s = bytes /\ ms_now_ms s = ms /\
    (forall t, t ∈ before -> ms_live_bytes t < bytes) /\ (forall t, t ∈ after -> ms_live_bytes t <= bytes).

Lemma first_peak_snoc l b t s :
  first_peak l b t ->
  first_peak (l ++ [s]) (if b <? ms_live_bytes s then ms_live_bytes s else b)
    (if b <? ms_live_bytes s then ms_now_ms s else t).
Proof.
  intros (l1 & p & l2 & -> & Hb & Ht & H1 & H2). destruct (Z.ltb_spec b (ms_live_bytes s)).
  - exists (l1 ++ p :: l2), s, []. repeat split; [|by intros ? ?%elem_of_nil].
    intros x [Hx|[->|Hx]%elem_of_cons]%elem_of_app; [specialize (H1 x Hx)| |specialize (H2 x Hx)]; lia.
  - exists l1, p, (l2 ++ [s]). rewrite <- app_assoc. repeat split; try done.
    intros x [Hx|Hx%list_elem_of_singleton]%elem_of_app; [by apply H2|subst x; lia].
Qed.

(** The panel's figures are those of the measurement window.  Whatever
    allocations and frames follow a reset: the cumulative figures are the exact
    sum and count of the allocations, pinned at the largest 64-bit value instead
    of wrapping; the peak is the largest live figure any frame showed, the
    baseline included, and its time is that of the first frame that showed it;
    and the live figures are the last frame's. *)
Theorem metrics_window m base ops :
  Forall (fun u => is_u64 u) (allocs ops) ->
  let m' := foldl metrics_step (reset_metrics m base) ops in
  mt_total_bytes m' = Z.min (sum_by id (allocs ops)) UINT64_MAX /\
  mt_total_allocs m' = Z.min (Z.of_nat (List.length (allocs ops))) UINT64_MAX /\
  first_peak (base :: samples ops) (mt_peak_bytes m') (mt_peak_ms m') /\
  last (base :: samples ops) = Some (mt_live m').
Proof.
  induction ops as [|o ops IH] using rev_ind; intros Hu.
  - cbn. repeat split. exists [], base, []. repeat split; by intros ? ?%elem_of_nil.
  - unfold allocs, samples in *. rewrite !omap_app in *. apply Forall_app in Hu as [Hu Hu']. specialize (IH Hu).
    rewrite foldl_app. cbn [foldl]. set (m1 := foldl _ _ ops) in *. clearbody m1. cbv zeta in IH.
    destruct IH as (I1 & I2 & I3 & I4).
    destruct o as [u|s]; cbn [omap list_omap metrics_step] in *; cbn [app] in *.
    + apply Forall_cons in Hu' as [Hu' _]. rewrite app_nil_r, sum_by_snoc, length_app. cbn [List.length].
      unfold count_alloc, UINT64_MAX, id in *. cbn [mt_total_bytes mt_total_allocs mt_peak_bytes mt_peak_ms mt_live].
      pose proof (sum_by_nonneg (fun x : Z => x) (omap (fun o => match o with OpAlloc u => Some u | _ => None end) ops))
        as Hs. rewrite Forall_forall in Hu. assert (forall a, a ∈ omap (fun o => match o with OpAlloc u => Some u | _ => None end) ops -> 0 <= a) as Hpos
        by (intros a Ha; by apply Hu). specialize (Hs Hpos).
      split; [|split; [|done]].
      * destruct (Z.ltb_spec (18446744073709551615 - u) (mt_total_bytes m1)); [ulia|]. rewrite u64_small; ulia.
      * destruct (Z.eqb_spec (mt_total_allocs m1) 18446744073709551615); [ulia|]. rewrite u64_small; ulia.
    + rewrite app_nil_r. cbn [sample fst mt_total_bytes mt_total_allocs mt_peak_bytes mt_peak_ms mt_live].
      split; [done|]. split; [done|]. rewrite app_comm_cons. split; [by apply first_peak_snoc|by rewrite last_snoc].
Qed.

Lemma metrics_window_witness :
  let ops := [OpAlloc 100; OpSample (mkSample 1 100 0 0 0 5); OpAlloc UINT64_MAX; OpSample (mkSample 1 60 0 0 0 9)] in
  let m := foldl metrics_step (reset_metrics new_metrics (mkSample 2 80 0 0 0 1)) ops in
  mt_total_bytes m = UINT64_MAX /\ mt_peak_bytes m = 100 /\ mt_peak_ms m = 5.
Proof.
  split; [|split; reflexivity].
  assert (Forall (fun u => is_u64 u) [100; UINT64_MAX]) as Hu by (repeat constructor; by vm_compute).
  exact (proj1 (metrics_window new_metrics (mkSample 2 80 0 0 0 1)
    [OpAlloc 100; OpSample (mkSample 1 100 0 0 0 5); OpAlloc UINT64_MAX; OpSample (mkSample 1 60 0 0 0 9)] Hu)).
Defined.

(** ** Percentages *)
Lemma ring_percent_range q c : 0 <= q -> 0 <= c -> q < 2 ^ 57 -> 0 <= ring_percent q c <= 100 /\
  (ring_percent q c = 0 <-> q = 0 \/ c = 0) /\ (ring_percent q c = 100 -> c <= q \/ q * 100 / c = 100 \/ c = 0).
Proof.
  intros Hq Hc Hb. unfold ring_percent. change (2 ^ 57) with 144115188075855872 in Hb.
  destruct (Z.eqb_spec c 0); [cbn [orb]; lia|]. destruct (Z.eqb_spec q 0); [cbn [orb]; lia|]. cbn [orb].
  destruct (Z.leb_spec c q); [lia|]. rewrite u64_small by ulia.
  assert (q * 100 / c < 100) by (apply Z.div_lt_upper_bound; lia).
  assert (0 <= q * 100 / c) by (apply Z.div_pos; lia).
  destruct (Z.eqb_spec (q * 100 / c) 0); [lia|]. rewrite u32_small by ulia. lia.
Qed.

(** ** The picture *)
Lemma ring_pressure_pct s t : sample_ring_pct s = sample_ring_pct t ->
  ring_pressure (ms_ring_queued s) (ms_ring_capacity s) = ring_pressure (ms_ring_queued t) (ms_ring_capacity t).
Proof. unfold ring_pressure, sample_ring_pct. by intros ->. Qed.

(** A frame reported as unchanged looks unchanged: when [sample] returns
    false, drawing the panel with the new sample gives, on any framebuffer and
    in any area, the very picture the old one gave; so skipping the repaint
    loses nothing. *)
Theorem quiet_sample_same_picture m s f area :
  (sample m s).2 = false -> draw_metrics (sample m s).1 f area = draw_metrics m f area.
Proof.
  unfold sample. cbn [fst snd].
  destruct (sample_ring_pct s =? sample_ring_pct (mt_live m)) eqn:E1; [|done].
  destruct (_ || _) eqn:E2; [done|]. cbn [negb]. intros ->. bprop. destruct_and?.
  repeat match goal with H : negb _ = false |- _ => apply negb_false_iff, Z.eqb_eq in H end.
  pose proof (ring_pressure_pct s (mt_live m) ltac:(done)) as Hp.
  unfold draw_metrics, draw_allocated, draw_active, draw_peak, draw_fragmented, draw_ring.
  cbn [mt_style mt_live mt_total_bytes mt_peak_bytes mt_largest_gap mt_gap_known mt_cumulative_known mt_frag_pct].
  rewrite Hp. repeat match goal with H : _ s = _ |- _ => rewrite H; clear H end. done.
Qed.

Lemma quiet_sample_same_picture_witness :
  let m := reset_metrics new_metrics (mkSample 2 80 10 4096 0 1) in
  let s := mkSample 2 80 37 4096 0 900 in
  draw_metrics (sample m s).1 demo_fb (mkRect 0 0 40 7) = draw_metrics m demo_fb (mkRect 0 0 40 7).
Proof. apply quiet_sample_same_picture. reflexivity. Defined.

(** ** The panel stays in its area *)
Lemma metrics_field_confined st area f dy label value colour numeric :
  fb_ok f -> confined (in_rect area) f (metrics_field st area (f, dy) label value colour numeric).1.
Proof. intros Hok. unfold metrics_field. cbn [fst]. destruct numeric; drawn. Qed.
#[export] Hint Resolve metrics_field_confined : drawing.

Lemma draw_allocated_confined m area wide f dy :
  fb_ok f -> confined (in_rect area) f (draw_allocated m area wide (f, dy)).1.
Proof. intros Hok. unfold draw_allocated. destruct (negb _); drawn. Qed.
Lemma draw_active_confined m area f dy : fb_ok f -> confined (in_rect area) f (draw_active m area (f, dy)).1.
Proof. intros Hok. unfold draw_active. drawn. Qed.
Lemma draw_peak_confined m area wide f dy : fb_ok f -> confined (in_rect area) f (draw_peak m area wide (f, dy)).1.
Proof. intros Hok. unfold draw_peak. drawn. Qed.
Lemma draw_fragmented_confined m area f dy : fb_ok f -> confined (in_rect area) f (draw_fragmented m area (f, dy)).1.
Proof.
  intros Hok. unfold draw_fragmented. case_decide; [drawn|]. cbn [fst].
  destruct (mt_gap_known m); [destruct (_ <=? _)|]; drawn.
Qed.
Lemma draw_ring_confined m area wide f dy : fb_ok f -> confined (in_rect area) f (draw_ring m area wide (f, dy)).
Proof.
  intros Hok. unfold draw_ring. destruct (_ =? 0); [drawn|]. destruct (_ <=? _); [drawn|]. destruct (negb _); drawn.
Qed.
#[export] Hint Resolve draw_allocated_confined draw_active_confined draw_peak_confined
  draw_fragmented_confined draw_ring_confined : drawing.

Lemma draw_metrics_confined m f area : fb_ok f -> confined (in_rect area) f (draw_metrics m f area).
Proof.
  intros Hok. unfold draw_metrics. destruct (_ || _); [drawn|].
  set (f1 := panel_rule _ _ _ _ _ _). assert (confined (in_rect area) f f1) as H1 by drawn. clearbody f1.
  eapply confined_step; [exact H1|]. intros O1. clear H1.
  pose proof (draw_allocated_confined m area (kMetricsWideCols <=? rw area) f1 1 O1) as H2.
  destruct (draw_allocated _ _ _ _) as [f2 d2]. eapply confined_step; [exact H2|]. intros O2.
  pose proof (draw_active_confined m area f2 d2 O2) as H3.
  destruct (draw_active _ _ _) as [f3 d3]. eapply confined_step; [exact H3|]. intros O3.
  pose proof (draw_peak_confined m area (kMetricsWideCols <=? rw area) f3 d3 O3) as H4.
  destruct (draw_peak _ _ _ _) as [f4 d4]. eapply confined_step; [exact H4|]. intros O4.
  pose proof (draw_fragmented_confined m area f4 d4 O4) as H5.
  destruct (draw_fragmented _ _ _) as [f5 d5]. eapply confined_step; [exact H5|]. intros O5. drawn.
Qed.
#[export] Hint Resolve draw_metrics_confined : drawing.
