(* ===== verification/Snapshot.v ===== *)
(** * Snapshot marks and leak candidates (src/src/tui/snapshot.h, snapshot.cpp)

    A mark in time, and a pass over the chunk table that counts the live chunks
    allocated since it, in total and per cell of the map. *)

From S2P Require Import Prelude ChunkTable HeatMap Grid.

Definition kLeakIntervalMs : Z := 250.
Definition kMarkTimeMax : Z := 16.

Record LeakReport := mkLeak { lr_chunks : Z; lr_bytes : Z; lr_offmap : Z }.
Definition no_leaks : LeakReport := mkLeak 0 0 0.
#[export] Instance LeakReport_eq_dec : EqDecision LeakReport.
Proof. solve_decision. Defined.

Record SnapshotDiff := mkDiff {
  sd_report : LeakReport;
  sd_cells : list Z;
  sd_hot : list Z;
  sd_cells_hash : Z;
  sd_taken_ms : Z;
  sd_last_ms : Z;
  sd_interval_ms : Z;
  sd_taken : bool;
  sd_diff : bool;
  sd_ran : bool;
  sd_taken_at : list Z
}.
Definition new_diff : SnapshotDiff := mkDiff no_leaks [] [] 0 0 0 kLeakIntervalMs false false false [].

(** Zeroes the overlay at [n] cells, its list of highlighted cells and its digest. *)
Definition reset_cells (d : SnapshotDiff) (n : nat) : SnapshotDiff :=
  mkDiff (sd_report d)
    (if decide (length (sd_cells d) <> n) then replicate n 0 else (fun _ => 0) <$> sd_cells d) [] 0
    (sd_taken_ms d) (sd_last_ms d) (sd_interval_ms d) (sd_taken d) (sd_diff d) (sd_ran d) (sd_taken_at d).

Definition set_report (d : SnapshotDiff) (r : LeakReport) : SnapshotDiff :=
  mkDiff r (sd_cells d) (sd_hot d) (sd_cells_hash d) (sd_taken_ms d) (sd_last_ms d) (sd_interval_ms d)
    (sd_taken d) (sd_diff d) (sd_ran d) (sd_taken_at d).
Definition set_ran (d : SnapshotDiff) (b : bool) : SnapshotDiff :=
  mkDiff (sd_report d) (sd_cells d) (sd_hot d) (sd_cells_hash d) (sd_taken_ms d) (sd_last_ms d) (sd_interval_ms d)
    (sd_taken d) (sd_diff d) b (sd_taken_at d).

(** [%02d] *)
Definition two_digits (v : Z) : list Z := if v <? 10 then 48 :: dec v else dec v.
Definition clock_text (t : option (Z * Z * Z)) : list Z :=
  match t with
  | Some (h, m, s) => (snprintf kMarkTimeMax (two_digits h ++ [58] ++ two_digits m ++ [58] ++ two_digits s)).1
  | None => []
  end.

(** [localtime] is what [localtime_r] answers for the wall clock's time. *)
Definition take_mark (d : SnapshotDiff) (localtime : option (Z * Z * Z)) (now_ms : Z) : SnapshotDiff :=
  let d := mkDiff no_leaks (sd_cells d) (sd_hot d) (sd_cells_hash d) now_ms (sd_last_ms d) (sd_interval_ms d)
             true (sd_diff d) (sd_ran d) (clock_text localtime) in
  set_ran (reset_cells d (length (sd_cells d))) false.

Definition clear_mark (d : SnapshotDiff) : SnapshotDiff :=
  let d := mkDiff no_leaks (sd_cells d) (sd_hot d) (sd_cells_hash d) 0 (sd_last_ms d) (sd_interval_ms d)
             false false (sd_ran d) [] in
  set_ran (reset_cells d (length (sd_cells d))) false.

Definition toggle (d : SnapshotDiff) : SnapshotDiff * bool :=
  if negb (sd_taken d) then (d, false)
  else
    let on := negb (sd_diff d) in
    let d := mkDiff (sd_report d) (sd_cells d) (sd_hot d) (sd_cells_hash d) (sd_taken_ms d) (sd_last_ms d)
               (sd_interval_ms d) (sd_taken d) on (sd_ran d) (sd_taken_at d) in
    if on then (set_ran d false, true)
    else (reset_cells (set_report d no_leaks) (length (sd_cells d)), false).

Definition set_leak_interval (d : SnapshotDiff) (ms : Z) : SnapshotDiff :=
  mkDiff (sd_report d) (sd_cells d) (sd_hot d) (sd_cells_hash d) (sd_taken_ms d) (sd_last_ms d) ms
    (sd_taken d) (sd_diff d) (sd_ran d) (sd_taken_at d).

(** ** The pass *)

(** One slot of the table folded into the report, the overlay and the list of
    highlighted cells. *)
Definition leak_step (map : HeatMap) (taken_ms : Z) (st : LeakReport * list Z * list Z) (c : Chunk)
    : LeakReport * list Z * list Z :=
  let '(r, cells, hot) := st in
  if negb (bool_decide (c_state c = kChunkLive)) || (c_key c =? 0) then st
  else if c_alloc_ms c <? taken_ms then st
  else
    let r := mkLeak (lr_chunks r ⊞ 1) (lr_bytes r ⊞ c_usable c) (lr_offmap r) in
    let off := (mkLeak (lr_chunks r) (lr_bytes r) (lr_offmap r ⊞ 1), cells, hot) in
    match coordinate_of map (c_key c) with
    | None => off
    | Some coord =>
        match index_of (hm_grid map) coord with
        | None => off
        | Some idx =>
            match cells !! Z.to_nat idx with
            | None => off
            | Some n => (r, <[Z.to_nat idx := n ⊞₃₂ 1]> cells, if n =? 0 then hot ++ [u32 idx] else hot)
            end
        end
    end.

(** FNV-1a over the overlay. *)
Definition fnv_offset : Z := 1469598103934665603.
Definition fnv_prime : Z := 1099511628211.
Definition overlay_hash (cells : list Z) : Z :=
  foldl (fun h c => Z.lxor h c ⊠ fnv_prime) fnv_offset cells.

Definition leak_due (d : SnapshotDiff) (now_ms : Z) (force : bool) : bool :=
  negb (sd_ran d) || force || (sd_interval_ms d <=? now_ms ⊟₃₂ sd_last_ms d).

Definition analyze_leaks (d : SnapshotDiff) (t : ChunkTable) (map : HeatMap) (now_ms : Z) (force : bool)
    : SnapshotDiff * bool :=
  if negb (sd_diff d) || negb (sd_taken d) then (d, false)
  else if negb (leak_due d now_ms force) then (d, false)
  else
    let prev := sd_report d in
    let prev_hash := sd_cells_hash d in
    let d := reset_cells (set_report d no_leaks) (length (hm_cells map)) in
    let '(r, cells, hot) := foldl (leak_step map (sd_taken_ms d)) (no_leaks, sd_cells d, []) (slots_ t) in
    let h := overlay_hash cells in
    (mkDiff r cells hot h (sd_taken_ms d) now_ms (sd_interval_ms d) (sd_taken d) (sd_diff d) true (sd_taken_at d),
     negb (h =? prev_hash) || negb (lr_chunks r =? lr_chunks prev) || negb (lr_bytes r =? lr_bytes prev) ||
     negb (lr_offmap r =? lr_offmap prev)).

Definition leak_cell_count (d : SnapshotDiff) (i : nat) : Z := default 0 (sd_cells d !! i).

(** ** What a pass counts *)

Definition candidate (taken_ms : Z) (c : Chunk) : Prop :=
  c_state c = kChunkLive /\ c_key c <> 0 /\ taken_ms <= c_alloc_ms c.
#[export] Instance candidate_dec t c : Decision (candidate t c).
Proof. unfold candidate. apply _. Defined.

(** The cell of the overlay a chunk is counted in. *)
Definition overlay_cell (map : HeatMap) (n : nat) (c : Chunk) : option nat :=
  idx ← cell_index map (c_key c); if decide (Z.to_nat idx < n)%nat then Some (Z.to_nat idx) else None.

Section Pass.
Context (map : HeatMap) (taken_ms : Z) (n : nat).

Definition in_cell (i : nat) (c : Chunk) : Prop := candidate taken_ms c /\ overlay_cell map n c = Some i.
#[export] Instance in_cell_dec i c : Decision (in_cell i c).
Proof. unfold in_cell. apply _. Defined.
Definition off_map (c : Chunk) : Prop := candidate taken_ms c /\ overlay_cell map n c = None.
#[export] Instance off_map_dec c : Decision (off_map c).
Proof. unfold off_map. apply _. Defined.

Definition count_in (i : nat) (l : list Chunk) : Z := Z.of_nat (length (filter (in_cell i) l)).

(** The state after a prefix [l] of the table. *)
Record pass_inv (l : list Chunk) (st : LeakReport * list Z * list Z) : Prop := {
  pi_chunks : lr_chunks st.1.1 = u64 (Z.of_nat (length (filter (candidate taken_ms) l)));
  pi_bytes : lr_bytes st.1.1 = u64 (sum_by c_usable (filter (candidate taken_ms) l));
  pi_offmap : lr_offmap st.1.1 = u64 (Z.of_nat (length (filter off_map l)));
  pi_len : length st.1.2 = n;
  pi_cells : forall i, (i < n)%nat -> st.1.2 !! i = Some (u32 (count_in i l));
  pi_hot : NoDup st.2 /\ forall x, x ∈ st.2 <-> exists i, (i < n)%nat /\ x = Z.of_nat i /\ 0 < count_in i l
}.

Lemma count_in_snoc i l c : count_in i (l ++ [c]) = count_in i l + (if decide (in_cell i c) then 1 else 0).
Proof. unfold count_in. rewrite filter_snoc. case_decide; rewrite length_app; cbn [length]; lia. Qed.

Lemma count_in_le i l : 0 <= count_in i l <= Z.of_nat (length l).
Proof. unfold count_in. pose proof (length_filter (in_cell i) l). lia. Qed.

(** What the step does, by the cell the chunk falls in. *)
Lemma leak_step_cases r cells hot c : length cells = n ->
  leak_step map taken_ms (r, cells, hot) c =
  if decide (candidate taken_ms c) then
    let r' := mkLeak (lr_chunks r ⊞ 1) (lr_bytes r ⊞ c_usable c) (lr_offmap r) in
    match overlay_cell map n c with
    | None => (mkLeak (lr_chunks r') (lr_bytes r') (lr_offmap r ⊞ 1), cells, hot)
    | Some i => (r', <[i := (cells !!! i) ⊞₃₂ 1]> cells, if (cells !!! i) =? 0 then hot ++ [u32 (Z.of_nat i)] else hot)
    end
  else (r, cells, hot).
Proof.
  intros Hn. unfold leak_step, overlay_cell, cell_index, candidate.
  destruct (decide (c_state c = kChunkLive)) as [E1|E1].
  2: { rewrite bool_decide_false by done. cbn [negb orb]. rewrite decide_False; [done|tauto]. }
  rewrite bool_decide_true by done. cbn [negb orb].
  destruct (Z.eqb_spec (c_key c) 0) as [E2|E2]; [rewrite decide_False; [done|tauto]|].
  destruct (Z.ltb_spec (c_alloc_ms c) taken_ms) as [E3|E3]; [rewrite decide_False; [done|lia]|].
  rewrite decide_True by (repeat split; done || lia). cbv zeta. cbn [lr_chunks lr_bytes lr_offmap].
  destruct (coordinate_of map (c_key c)) as [coord|]; cbn [mbind option_bind]; [|done].
  destruct (index_of (hm_grid map) coord) as [idx|] eqn:Ei; cbn [mbind option_bind]; [|done].
  pose proof (index_of_nonneg _ _ _ Ei) as Hidx.
  destruct (decide (Z.to_nat idx < n)%nat) as [Hlt|Hge].
  - destruct (lookup_lt_is_Some_2 cells (Z.to_nat idx) ltac:(lia)) as [v Hv]. rewrite Hv.
    rewrite (list_lookup_total_correct _ _ _ Hv). rewrite Z2Nat.id by done. done.
  - rewrite lookup_ge_None_2 by lia. done.
Qed.

Lemma pass_inv_step l st c : Z.of_nat n < 2 ^ 32 -> Z.of_nat (length l) + 1 < 2 ^ 32 ->
  pass_inv l st -> pass_inv (l ++ [c]) (leak_step map taken_ms st c).
Proof.
  destruct st as [[r cells] hot]. intros Hn Hl [I1 I2 I3 I4 I5 I6]. cbn [fst snd] in *.
  rewrite leak_step_cases by done.
  destruct (decide (candidate taken_ms c)) as [Hc|Hc].
  2: { assert (~ off_map c) as Ho by (intros [? _]; done).
       assert (forall i, count_in i (l ++ [c]) = count_in i l) as Hcount.
       { intros i. rewrite count_in_snoc, decide_False; [lia|]. by intros [? _]. }
       split; cbn [fst snd]; try done.
       - by rewrite filter_snoc, decide_False, app_nil_r.
       - by rewrite filter_snoc, decide_False, app_nil_r.
       - by rewrite filter_snoc, decide_False, app_nil_r.
       - intros i Hi. rewrite Hcount. by apply I5.
       - destruct I6 as [? Ihot]. split; [done|]. intros x. rewrite Ihot. by setoid_rewrite Hcount. }
  cbv zeta. destruct (overlay_cell map n c) as [i|] eqn:Eo.
  - assert (i < n)%nat as Hi.
    { unfold overlay_cell in Eo. destruct (cell_index map (c_key c)); [|done]. cbn in Eo. case_decide; by simplify_eq. }
    assert (forall j, count_in j (l ++ [c]) = count_in j l + if decide (j = i) then 1 else 0) as Hcount.
    { intros j. rewrite count_in_snoc. f_equal. apply decide_ext. unfold in_cell. rewrite Eo.
      split; [intros [_ [= ->]]; done|intros ->; done]. }
    assert (cells !!! i = u32 (count_in i l)) as Ev by (apply list_lookup_total_correct, I5, Hi).
    assert (u32 (count_in i l) = count_in i l) as Eu by (apply u32_small; pose proof (count_in_le i l); ulia).
    split; cbn [fst snd lr_chunks lr_bytes lr_offmap].
    + rewrite filter_snoc, decide_True, length_app by done. rewrite I1, u64_add_l. cbn [length]. f_equal. lia.
    + rewrite filter_snoc, decide_True, sum_by_app, sum_by_cons by done. rewrite I2, u64_add_l. cbn. f_equal. lia.
    + rewrite filter_snoc, decide_False, app_nil_r; [done|]. by intros [_ ?]; congruence.
    + by rewrite length_insert.
    + intros j Hj. rewrite Hcount. destruct (decide (j = i)) as [->|Hne].
      * rewrite list_lookup_insert_eq by lia. rewrite Ev. f_equal. unfold u32. apply Zplus_mod_idemp_l.
      * rewrite list_lookup_insert_ne by done. rewrite I5 by done. do 2 f_equal. lia.
    + rewrite Ev, Eu. rewrite u32_small by ulia. destruct I6 as [Hnd Ihot].
      pose proof (count_in_le i l) as Hle.
      destruct (Z.eqb_spec (count_in i l) 0) as [E0|E0].
      * split.
        { apply NoDup_app. split; [done|]. split; [|apply NoDup_singleton]. intros x Hx ->%list_elem_of_singleton.
          apply Ihot in Hx as (k & _ & Ek & ?). assert (k = i) as -> by lia. lia. }
        intros x. rewrite elem_of_app, Ihot, list_elem_of_singleton. split.
        { intros [(k & ? & ? & ?)| ->]; [exists k|exists i]; rewrite Hcount; (split; [done|split; [done|]]);
            repeat case_decide; lia. }
        intros (k & ? & -> & Hk). rewrite Hcount in Hk. destruct (decide (k = i)) as [->|]; [by right|].
        left. exists k. split; [done|]. split; [done|]. lia.
      * split; [done|]. intros x. rewrite Ihot. split; intros (k & ? & ? & Hk); exists k; (split; [done|split; [done|]]).
        { rewrite Hcount. case_decide; lia. }
        { rewrite Hcount in Hk. destruct (decide (k = i)) as [->|]; lia. }
  - assert (forall j, count_in j (l ++ [c]) = count_in j l) as Hcount.
    { intros j. rewrite count_in_snoc, decide_False; [lia|]. unfold in_cell. rewrite Eo. by intros [_ ?]. }
    split; cbn [fst snd lr_chunks lr_bytes lr_offmap].
    + rewrite filter_snoc, decide_True, length_app by done. rewrite I1, u64_add_l. cbn [length]. f_equal. lia.
    + rewrite filter_snoc, decide_True, sum_by_app, sum_by_cons by done. rewrite I2, u64_add_l. cbn. f_equal. lia.
    + rewrite filter_snoc, decide_True, length_app by done. rewrite I3, u64_add_l. cbn [length]. f_equal. lia.
    + done.
    + intros j Hj. rewrite Hcount. by apply I5.
    + destruct I6 as [? Ihot]. split; [done|]. intros x. rewrite Ihot. by setoid_rewrite Hcount.
Qed.

Lemma pass_inv_all l : Z.of_nat n < 2 ^ 32 -> Z.of_nat (length l) < 2 ^ 32 ->
  pass_inv l (foldl (leak_step map taken_ms) (no_leaks, replicate n 0, []) l).
Proof.
  intros Hn. induction l as [|c l IH] using rev_ind; intros Hl.
  - split; cbn [foldl fst snd]; try done.
    + apply length_replicate.
    + intros i Hi. by rewrite lookup_replicate_2.
    + split; [constructor|]. intros x. split; [by intros ?%elem_of_nil|]. intros (i & _ & _ & Hi).
      unfold count_in in Hi. by rewrite filter_nil in Hi.
  - rewrite length_app in Hl. cbn [length] in Hl. rewrite foldl_app. cbn [foldl].
    apply pass_inv_step; [done|lia|]. apply IH. lia.
Qed.
End Pass.

(** Each candidate is either in one cell or off the map. *)
Lemma sum_indicator (n i : nat) : (i < n)%nat -> sum_by (fun j => if decide (j = i) then 1 else 0) (seq 0 n) = 1.
Proof.
  intros Hi. induction n as [|n IH]; [lia|]. rewrite seq_S, sum_by_snoc. cbn [Nat.add].
  destruct (decide (n = i)) as [->|Hne].
  - rewrite sum_by_zero; [done|]. intros a Ha%elem_of_seq. by rewrite decide_False by lia.
  - rewrite IH by lia. lia.
Qed.

Lemma candidates_split map taken_ms n l :
  Z.of_nat (length (filter (candidate taken_ms) l)) =
  sum_by (fun i => count_in map taken_ms n i l) (seq 0 n) + Z.of_nat (length (filter (off_map map taken_ms n) l)).
Proof.
  induction l as [|c l IH] using rev_ind; [by rewrite sum_by_zero|].
  rewrite !filter_snoc, !length_app.
  rewrite (sum_by_ext _ (fun i => count_in map taken_ms n i l + if decide (in_cell map taken_ms n i c) then 1 else 0))
    by (intros; apply count_in_snoc).
  rewrite sum_by_plus. set (S1 := sum_by _ _) in *. set (S2 := sum_by _ _).
  enough (S2 + (if decide (off_map map taken_ms n c) then 1 else 0) = if decide (candidate taken_ms c) then 1 else 0).
  { destruct (decide (off_map map taken_ms n c)), (decide (candidate taken_ms c)); cbn [length] in *; lia. }
  subst S2. clear IH S1.
  assert (exists o, overlay_cell map n c = o) as [o Eo] by eauto.
  destruct (decide (candidate taken_ms c)) as [Hc|Hc].
  - destruct o as [i|].
    + rewrite (decide_False (P := off_map map taken_ms n c)) by (intros [_ ?]; congruence).
      rewrite (sum_by_ext _ (fun j => if decide (j = i) then 1 else 0)).
      * rewrite sum_indicator; [done|]. unfold overlay_cell in Eo.
        destruct (cell_index map (c_key c)); [|done]. cbn in Eo. case_decide; by simplify_eq.
      * intros j _. apply decide_ext. unfold in_cell. rewrite Eo. split; [by intros [_ [= ->]]|by intros ->].
    + rewrite (decide_True (P := off_map map taken_ms n c)) by done.
      rewrite sum_by_zero; [done|]. intros j _. rewrite decide_False; [done|]. intros [_ ?]. congruence.
  - rewrite (decide_False (P := off_map map taken_ms n c)) by (by intros [? _]).
    rewrite sum_by_zero; [done|]. intros j _. rewrite decide_False; [done|]. by intros [? _].
Qed.

Lemma reset_cells_blank d n : sd_cells (reset_cells d n) = replicate n 0.
Proof.
  cbn [reset_cells sd_cells]. case_decide as Hd; [done|]. rewrite <- Hd.
  clear. induction (sd_cells d) as [|a l IH]; [done|]. cbn. by f_equal.
Qed.

(** C33: The leak figures are exact.  On a table of fewer than 2^32 slots and a
    map of fewer than 2^32 cells, a due pass with the mark set reports the
    number and the usable bytes of precisely the live chunks allocated at or
    after the mark; each is counted in the one cell of the overlay its address
    falls in, or off the map, and the two add up to the total; the list the
    overlay is drawn from names each highlighted cell once and no other; and
    the pass reports no change only if totals and digest are those of the last
    one. *)
Theorem leak_pass_exact d t map now force :
  sd_diff d = true -> sd_taken d = true -> leak_due d now force = true ->
  Z.of_nat (length (slots_ t)) < 2 ^ 32 -> Z.of_nat (length (hm_cells map)) < 2 ^ 32 ->
  let n := length (hm_cells map) in
  let cands := filter (candidate (sd_taken_ms d)) (slots_ t) in
  let '(d', changed) := analyze_leaks d t map now force in
  lr_chunks (sd_report d') = Z.of_nat (length cands) /\
  lr_bytes (sd_report d') = u64 (sum_by c_usable cands) /\
  length (sd_cells d') = n /\
  (forall i, (i < n)%nat -> leak_cell_count d' i =
     Z.of_nat (length (filter (fun c => overlay_cell map n c = Some i) cands))) /\
  sum_by (leak_cell_count d') (seq 0 n) + lr_offmap (sd_report d') = lr_chunks (sd_report d') /\
  (NoDup (sd_hot d') /\ forall x, x ∈ sd_hot d' <-> exists i, (i < n)%nat /\ x = Z.of_nat i /\ 0 < leak_cell_count d' i) /\
  (changed = false <-> sd_report d' = sd_report d /\ overlay_hash (sd_cells d') = sd_cells_hash d).
Proof.
  intros Hd Ht Hdue Hs Hn n cands. unfold analyze_leaks. rewrite Hd, Ht, Hdue. cbn [negb orb].
  rewrite reset_cells_blank. cbn [reset_cells set_report sd_taken_ms].
  pose proof (pass_inv_all map (sd_taken_ms d) n (slots_ t) Hn Hs) as Hp. fold n.
  destruct (foldl _ _ _) as [[r cells] hot]. destruct Hp as [I1 I2 I3 I4 I5 I6]. cbn [fst snd] in *.
  assert (forall i, count_in map (sd_taken_ms d) n i (slots_ t) =
    Z.of_nat (length (filter (fun c => overlay_cell map n c = Some i) cands))) as Hcount.
  { intros i. unfold count_in, cands. rewrite list_filter_filter. do 2 f_equal.
    apply list_filter_iff. unfold in_cell. tauto. }
  assert (forall i, (i < n)%nat -> cells !! i = Some (count_in map (sd_taken_ms d) n i (slots_ t))) as Hcells.
  { intros i Hi. rewrite I5 by done. f_equal. apply u32_small.
    pose proof (count_in_le map (sd_taken_ms d) n i (slots_ t)). unfold is_u32. lia. }
  pose proof (candidates_split map (sd_taken_ms d) n (slots_ t)) as Hsplit. fold cands in Hsplit, I1, I2.
  pose proof (length_filter (candidate (sd_taken_ms d)) (slots_ t)) as Hlen. fold cands in Hlen.
  pose proof (length_filter (off_map map (sd_taken_ms d) n) (slots_ t)) as Hlen2.
  rewrite u64_small in I1 by ulia. rewrite u64_small in I3 by ulia.
  unfold leak_cell_count. cbn [sd_report sd_cells sd_hot].
  split; [done|]. split; [done|]. split; [done|]. split; [intros i Hi; rewrite Hcells by done; apply Hcount|].
  split; [|split; [|]].
  - rewrite I1, I3, Hsplit. f_equal. apply sum_by_ext. intros i Hi%elem_of_seq. by rewrite Hcells by lia.
  - destruct I6 as [? Ihot]. split; [done|]. intros x. rewrite Ihot.
    split; intros (i & Hi & ? & ?); exists i; (split; [done|split; [done|]]); [by rewrite Hcells|by rewrite Hcells in *].
  - rewrite !orb_false_iff, !negb_false_iff, !Z.eqb_eq. destruct r, (sd_report d). cbn. intuition congruence.
Qed.

Definition demo_grid : Grid := (Grid.configure 4096 69632 80 20).1.
Definition demo_heat : HeatMap := (HeatMap.configure new_heatmap demo_grid).1.
Definition leak_demo_table : ChunkTable :=
  (insert_live (insert_live (insert_live (new_table 16) 4096 24 32 5 1).1 4160 24 32 9 1).1 999999 8 16 20 1).1.
Definition demo_diff : SnapshotDiff := (toggle (take_mark new_diff (Some (9, 5, 30)) 8)).1.

Lemma leak_pass_exact_witness :
  sd_taken_at demo_diff = [48; 57; 58; 48; 53; 58; 51; 48] /\
  lr_chunks (sd_report (analyze_leaks demo_diff leak_demo_table demo_heat 30 false).1) = 2 /\
  lr_offmap (sd_report (analyze_leaks demo_diff leak_demo_table demo_heat 30 false).1) = 1.
Proof.
  split; [reflexivity|].
  pose proof (leak_pass_exact demo_diff leak_demo_table demo_heat 30 false eq_refl eq_refl eq_refl
    ltac:(by vm_compute) ltac:(by vm_compute)) as Hp. cbv zeta in Hp.
  destruct (analyze_leaks demo_diff leak_demo_table demo_heat 30 false) as [d' changed] eqn:E.
  cbn [fst]. destruct Hp as (Hc & _). split; [rewrite Hc; by vm_compute|].
  replace d' with (analyze_leaks demo_diff leak_demo_table demo_heat 30 false).1 by (by rewrite E). by vm_compute.
Defined.

(** ** The mode *)

Inductive DiffOp :=
  | DoTake (clock : option (Z * Z * Z)) (now_ms : Z)
  | DoClear
  | DoToggle
  | DoInterval (ms : Z)
  | DoAnalyze (t : ChunkTable) (map : HeatMap) (now_ms : Z) (force : bool).

Definition diff_step (d : SnapshotDiff) (o : DiffOp) : SnapshotDiff :=
  match o with
  | DoTake clock now => take_mark d clock now
  | DoClear => clear_mark d
  | DoToggle => (toggle d).1
  | DoInterval ms => set_leak_interval d ms
  | DoAnalyze t map now force => (analyze_leaks d t map now force).1
  end.

(** Nothing is highlighted and nothing reported. *)
Record blank_overlay (d : SnapshotDiff) : Prop := {
  bo_report : sd_report d = no_leaks;
  bo_hot : sd_hot d = [];
  bo_cells : Forall (fun c => c = 0) (sd_cells d)
}.

Lemma reset_cells_overlay d n : sd_report d = no_leaks -> blank_overlay (reset_cells d n).
Proof.
  intros Hr. split; [done|done|]. rewrite reset_cells_blank. by apply Forall_replicate.
Qed.

Lemma blank_set_ran d b : blank_overlay d -> blank_overlay (set_ran d b).
Proof. intros [? ? ?]. by split. Qed.

(** The overlay shows only in its mode.  After any sequence of keys and
    passes, whatever table and map the passes saw: with diff mode off no cell
    is highlighted and no leak reported, diff mode is on only while a mark is
    set, and without a mark the label of its time is empty. *)
Theorem overlay_only_in_mode ops :
  let d := foldl diff_step new_diff ops in
  (sd_diff d = false -> blank_overlay d) /\
  (sd_diff d = true -> sd_taken d = true) /\
  (sd_taken d = false -> sd_taken_at d = [] /\ sd_taken_ms d = 0).
Proof.
  cbv zeta. induction ops as [|o ops IH] using rev_ind.
  { split; [intros _; by split; [| |constructor]|done]. }
  rewrite foldl_app. cbn [foldl]. set (d := foldl _ _ _) in *. clearbody d. destruct IH as (I1 & I2 & I3).
  destruct o as [clock now| | |ms|t map now force]; cbn [diff_step].
  - unfold take_mark. split; [|done]. intros _. by apply blank_set_ran, reset_cells_overlay.
  - unfold clear_mark. split; [|done]. intros _. by apply blank_set_ran, reset_cells_overlay.
  - unfold toggle. destruct (sd_taken d) eqn:Et; cbn [negb fst]; [|by rewrite Et].
    destruct (sd_diff d); cbn [negb fst]; [|done]. split; [|done]. intros _. by apply reset_cells_overlay.
  - split; [|done]. intros Hd. destruct (I1 Hd). by split.
  - unfold analyze_leaks. destruct (sd_diff d) eqn:Ed; cbn [negb orb fst]; [|by rewrite Ed; auto].
    rewrite I2 by done. cbn [negb]. destruct (negb _); [by cbn [fst]; rewrite Ed; auto|].
    destruct (foldl _ _ _) as [[r cells] hot]. cbn [fst reset_cells set_report sd_diff sd_taken]. rewrite Ed, I2 by done. done.
Qed.
