(* ===== verification/HeatColor.v ===== *)
(** * Aging colours (src/src/tui/heat_color.h, heat_color.cpp)

    The windows in which a cell's colour depends on the clock and the order in
    which they take precedence.  The interpolation itself is single-precision
    floating point in the Oklab space; it enters as the operations of a class,
    about which nothing is assumed; [FloatColor] gives its instance. *)

From S2P Require Import Prelude HeatMap Theme.

(** The arithmetic of the .cpp that works on floats: conversion between sRGB and
    Oklab, interpolation at a ratio, the pulse at a ratio, and the quantised
    density with the shade it stands for; and, from map_view.cpp, how many of
    the three density thresholds a cell's fill reaches. *)
Class ColorMath := {
  Oklab : Type;
  srgb_to_oklab : Z -> Oklab;
  oklab_to_srgb : Oklab -> Z;
  lerp_ratio : Oklab -> Oklab -> Z -> Z -> Oklab;
  pulse_ratio : Oklab -> Z -> Z -> Oklab;
  density_step : Z -> Z -> Z;
  lab_for_step : Oklab -> Z -> Oklab;
  density_band : Z -> Z -> Z
}.

Definition age_of (stamp now none : Z) : Z := if stamp =? kNoTime then none else now ⊟₃₂ stamp.

Definition cell_animating (a : CellAggregate) (t : HeatTimings) (now_ms : Z) : bool :=
  (age_of (last_alloc_ms a) now_ms kNoTime <? malloc_pulse_ms t ⊞₃₂ malloc_fade_ms t) ||
  (age_of (last_free_ms a) now_ms kNoTime <? free_flash_ms t ⊞₃₂ free_fade_ms t).

Record HeatRamp := mkRamp { hr_palette : HeatPalette; hr_timings : HeatTimings }.

Section Ramp.
Context `{!ColorMath}.

Definition settled_lab (r : HeatRamp) (a : CellAggregate) (cell_bytes : Z) : Oklab :=
  if n_live a =? 0 then
    srgb_to_oklab (if 0 <? overhead_bytes a then hp_overhead (hr_palette r) else hp_empty (hr_palette r))
  else lab_for_step (srgb_to_oklab (hp_settled (hr_palette r))) (density_step (live_bytes a) cell_bytes).

(** The table of settled colours holds, at each step, its shade converted. *)
Definition settled_lut (r : HeatRamp) (step : Z) : Z :=
  oklab_to_srgb (lab_for_step (srgb_to_oklab (hp_settled (hr_palette r))) step).

Definition settled (r : HeatRamp) (a : CellAggregate) (cell_bytes : Z) : Z :=
  if n_live a =? 0 then
    if 0 <? overhead_bytes a then hp_overhead (hr_palette r) else hp_empty (hr_palette r)
  else settled_lut r (density_step (live_bytes a) cell_bytes).

Definition color (r : HeatRamp) (a : CellAggregate) (cell_bytes now_ms : Z) : Z :=
  let t := hr_timings r in
  let free_span := free_flash_ms t ⊞₃₂ free_fade_ms t in
  let free_age := age_of (last_free_ms a) now_ms free_span in
  if free_age <? free_flash_ms t then hp_freed (hr_palette r)
  else
    let alloc_span := malloc_pulse_ms t ⊞₃₂ malloc_fade_ms t in
    let alloc_age := age_of (last_alloc_ms a) now_ms alloc_span in
    if (alloc_span <=? alloc_age) && (free_span <=? free_age) then settled r a cell_bytes
    else
      let base := settled_lab r a cell_bytes in
      let fresh := srgb_to_oklab (hp_fresh (hr_palette r)) in
      let after_alloc :=
        if alloc_age <? malloc_pulse_ms t then pulse_ratio fresh alloc_age (malloc_pulse_ms t)
        else if (alloc_age <? alloc_span) && (0 <? malloc_fade_ms t)
        then lerp_ratio fresh base (alloc_age ⊟₃₂ malloc_pulse_ms t) (malloc_fade_ms t)
        else base in
      if (free_age <? free_span) && (0 <? free_fade_ms t) then
        oklab_to_srgb (lerp_ratio (srgb_to_oklab (hp_freed (hr_palette r))) after_alloc
                         (free_age ⊟₃₂ free_flash_ms t) (free_fade_ms t))
      else oklab_to_srgb after_alloc.

(** Timings whose windows fit the clock. *)
Definition timings_ok (t : HeatTimings) : Prop :=
  0 <= malloc_pulse_ms t /\ 0 <= malloc_fade_ms t /\ malloc_pulse_ms t + malloc_fade_ms t < 2 ^ 32 /\
  0 <= free_flash_ms t /\ 0 <= free_fade_ms t /\ free_flash_ms t + free_fade_ms t < 2 ^ 32.

(** A stamp of the past, or none. *)
Definition stamped (stamp now : Z) : Prop := stamp = kNoTime \/ 0 <= stamp <= now.

Lemma age_grows stamp now later none : stamped stamp now -> now <= later < 2 ^ 32 ->
  age_of stamp now none <= age_of stamp later none.
Proof.
  unfold age_of. intros Hs Hl. destruct (Z.eqb_spec stamp kNoTime); [lia|].
  destruct Hs as [?|Hs]; [done|]. rewrite !u32_small by ulia. lia.
Qed.

Lemma color_settled r a cell_bytes now :
  timings_ok (hr_timings r) -> cell_animating a (hr_timings r) now = false ->
  color r a cell_bytes now = settled r a cell_bytes.
Proof.
  intros (H1 & H2 & H3 & H4 & H5 & H6). unfold cell_animating, color. rewrite orb_false_iff, !Z.ltb_ge.
  rewrite !u32_small by ulia. intros [Ha Hf]. unfold age_of in *.
  destruct (Z.eqb_spec (last_free_ms a) kNoTime), (Z.eqb_spec (last_alloc_ms a) kNoTime);
    repeat match goal with |- context [?x <? ?y] => destruct (Z.ltb_spec x y); [lia|] end;
    repeat match goal with |- context [?x <=? ?y] => destruct (Z.leb_spec x y); [|lia] end; done.
Qed.

(** A frame may be skipped once nothing on the map moves.  Once a cell is
    in none of its windows, the colour it is drawn with is its settled one and
    stays that for every later time, until a new event touches the cell; while
    the release flash runs, the colour is the palette's, in agreement with the
    cell's state. *)
Theorem colour_rests r a cell_bytes now later :
  timings_ok (hr_timings r) -> stamped (last_alloc_ms a) now -> stamped (last_free_ms a) now ->
  now <= later < 2 ^ 32 ->
  (cell_animating a (hr_timings r) now = false ->
     color r a cell_bytes later = settled r a cell_bytes /\
     cell_animating a (hr_timings r) later = false) /\
  (cell_state a (hr_timings r) now = CsRecentFree -> color r a cell_bytes now = hp_freed (hr_palette r)).
Proof.
  intros Ht Ha Hf Hl. split.
  - intros Hn. assert (cell_animating a (hr_timings r) later = false) as Hn'; [|by rewrite color_settled].
    unfold cell_animating in *. rewrite orb_false_iff, !Z.ltb_ge in *.
    pose proof (age_grows _ _ _ kNoTime Ha Hl). pose proof (age_grows _ _ _ kNoTime Hf Hl). lia.
  - unfold cell_state. destruct (within (last_free_ms a) now (free_flash_ms (hr_timings r))) eqn:Hw.
    + intros _. unfold color. unfold within in Hw. unfold age_of at 1.
      destruct (last_free_ms a =? kNoTime); [done|]. by rewrite Hw.
    + by repeat case_match.
Qed.
End Ramp.

(** Colours as they are, without interpolation, to evaluate on. *)
#[export] Instance plain_colors : ColorMath := {|
  Oklab := Z; srgb_to_oklab := id; oklab_to_srgb := id; lerp_ratio from to _ _ := to;
  pulse_ratio fresh _ _ := fresh; density_step _ _ := 128; lab_for_step c _ := c; density_band live span := live * 4 / span |}.

Lemma colour_rests_witness :
  let r := mkRamp (heat_palette dark_theme) kDefaultTimings in
  let a := HeatMap.mkCell 64 1 0 100 kNoTime in
  color r a 4096 500000 = th_active dark_theme /\ cell_animating a kDefaultTimings 500000 = false.
Proof.
  assert (timings_ok kDefaultTimings) as Ht by by vm_compute.
  assert (stamped 100 1100 /\ stamped kNoTime 1100) as [Ha Hf] by (split; [right; lia|by left]).
  exact (proj1 (colour_rests (mkRamp (heat_palette dark_theme) kDefaultTimings) (HeatMap.mkCell 64 1 0 100 kNoTime) 4096
    1100 500000 Ht Ha Hf ltac:(lia)) eq_refl).
Defined.
