(* ===== verification/MapView.v ===== *)
(** * Drawing the heap map (src/src/tui/map_view.h, map_view.cpp)

    Where legend, gutter and cells land in the area the map was given, the
    drawing of the three, and the two overlays: leak candidates and the cursor. *)

From Stdlib Require Import String.
From S2P Require Import Prelude ChunkTable RegionMap Grid HeatMap Cursor Snapshot.
From S2P Require Import Framebuffer Capabilities Theme HeatColor.

Definition kMinMapCols : Z := 8.

Record MapLayout := mkMapLayout { ml_legend : Rect; ml_cells : Rect; ml_gutter_x : Z; ml_valid : bool }.
Definition no_map_layout : MapLayout := mkMapLayout kNoRect kNoRect (-1) false.

Definition map_layout (area : Rect) (show_legend : bool) : MapLayout :=
  if (rw area <=? 0) || (rh area <=? 0) then no_map_layout
  else
    let legend := show_legend && (2 <=? rh area) in
    let cells_y := ry area + (if legend then 1 else 0) in
    let cells_h := rh area - (if legend then 1 else 0) in
    let gutter_cols := kGutterWidth + 1 in
    let gutter := gutter_cols + kMinMapCols <=? rw area in
    let cells := mkRect (rx area + (if gutter then gutter_cols else 0)) cells_y
                        (rw area - (if gutter then gutter_cols else 0)) cells_h in
    mkMapLayout (if legend then mkRect (rx area) (ry area) (rw area) 1 else kNoRect) cells
      (if gutter then rx area else -1) ((0 <? rw cells) && (0 <? rh cells)).

Definition fit_grid (g : Grid) (area : Rect) (half_block show_legend : bool) : Grid * bool :=
  let l := map_layout area show_legend in
  if negb (ml_valid l) then ((set_viewport g 0 0).1, false)
  else set_viewport g (rw (ml_cells l)) (rh (ml_cells l) * (if half_block then 2 else 1)).

(** The overload without the two flags. *)
Definition fit_grid_plain (g : Grid) (area : Rect) : Grid * bool := fit_grid g area false true.

Record MapStyle := mkMapStyle { v_ink : Z; v_dim : Z; v_warn : Z; v_bg : Z; v_cursor : Z; v_leak : Z }.
Definition default_map_style : MapStyle :=
  mkMapStyle (th_text dark_theme) (th_dim dark_theme) (th_accent dark_theme) (th_bg dark_theme)
    (th_cursor dark_theme) (th_leak dark_theme).

Record MapView := mkView {
  mv_glyphs : GlyphSet;
  mv_ramp : HeatRamp;
  mv_style : MapStyle;
  mv_unicode : bool;
  mv_half_block : bool;
  mv_animations : bool;
  mv_show_legend : bool
}.
Definition mv_palette (v : MapView) : HeatPalette := hr_palette (mv_ramp v).
Definition new_view (caps : Capabilities) (p : HeatPalette) (t : HeatTimings) : MapView :=
  mkView (glyphs_for caps) (mkRamp p t) default_map_style (caps_unicode caps) false true true.

Definition set_view_style (v : MapView) (s : MapStyle) : MapView :=
  mkView (mv_glyphs v) (mv_ramp v) s (mv_unicode v) (mv_half_block v) (mv_animations v) (mv_show_legend v).
Definition set_animations (v : MapView) (b : bool) : MapView :=
  mkView (mv_glyphs v) (mv_ramp v) (mv_style v) (mv_unicode v) (mv_half_block v) b (mv_show_legend v).
Definition set_show_legend (v : MapView) (b : bool) : MapView :=
  mkView (mv_glyphs v) (mv_ramp v) (mv_style v) (mv_unicode v) (mv_half_block v) (mv_animations v) b.
Definition set_half_block (v : MapView) (b : bool) : MapView :=
  mkView (mv_glyphs v) (mv_ramp v) (mv_style v) (mv_unicode v) (b && mv_unicode v) (mv_animations v) (mv_show_legend v).

(** ** The legend's pen: a frame and a column that stops at the right edge *)

Definition pen_text (y limit : Z) (p : Framebuffer * Z) (s : list Z) (fgc bgc : Z) : Framebuffer * Z :=
  let '(f, x) := p in
  if limit <? x + Z.of_nat (List.length s) then (f, limit)
  else let '(f, n) := text f x y s fgc bgc kAttrNone in (f, x + n).

Definition pen_glyph (y limit : Z) (p : Framebuffer * Z) (g fgc bgc : Z) : Framebuffer * Z :=
  let '(f, x) := p in
  if limit <=? x then (f, x) else (put f x y (Framebuffer.mkCell g fgc bgc kAttrNone), x + 1).

Definition pen_room_for (limit : Z) (p : Framebuffer * Z) (cols : Z) : bool := p.2 + cols <=? limit.

Fixpoint draw_swatches (v : MapView) (y limit : Z) (p : Framebuffer * Z) (l : list (Z * list Z)) : Framebuffer * Z :=
  match l with
  | [] => p
  | (colour, label) :: l =>
      if negb (pen_room_for limit p (2 + 1 + Z.of_nat (List.length label))) then p
      else
        let p := pen_text y limit p (str "  ") (v_dim (mv_style v)) (v_bg (mv_style v)) in
        let p := pen_glyph y limit p (gs_full (mv_glyphs v)) colour (v_bg (mv_style v)) in
        let p := pen_text y limit p label (v_dim (mv_style v)) (v_bg (mv_style v)) in
        draw_swatches v y limit p l
  end.

Definition swatches (v : MapView) : list (Z * list Z) :=
  [(hp_settled (mv_palette v), str " live"); (hp_fresh (mv_palette v), str " new");
   (hp_freed (mv_palette v), str " freed"); (hp_overhead (mv_palette v), str " overhead");
   (hp_empty (mv_palette v), str " unused")].

Definition draw_legend (v : MapView) (f : Framebuffer) (r : Rect) (g : Grid) : Framebuffer :=
  if (rw r <=? 0) || (rh r <=? 0) then f
  else
    let st := mv_style v in
    let limit := rx r + rw r in
    let p := (f, rx r) in
    if negb (valid_ g) then (pen_text (ry r) limit p (str "no heap bounds yet") (v_dim st) (v_bg st)).1
    else
      let head := (snprintf 48 (str "1 cell = " ++ (format_byte_size 24 (cell_bytes_ g)).1)).1 in
      let p := pen_text (ry r) limit p head (v_ink st) (v_bg st) in
      let p := draw_swatches v (ry r) limit p (swatches v) in
      if negb (covers_whole_span g)
      then (pen_text (ry r) limit p (str "   top of range not shown") (v_warn st) (v_bg st)).1
      else p.1.

Section Draw.
Context `{!ColorMath}.

Definition glyph_for (v : MapView) (a : CellAggregate) (cell_bytes : Z) : Z :=
  if negb (cell_occupied a) then gs_light (mv_glyphs v)
  else if cell_bytes =? 0 then gs_full (mv_glyphs v)
  else
    let d := density_band (live_bytes a) cell_bytes in
    if 3 <=? d then gs_full (mv_glyphs v)
    else if 2 <=? d then gs_dark (mv_glyphs v)
    else if 1 <=? d then gs_medium (mv_glyphs v)
    else gs_light (mv_glyphs v).

(** Whether any cell is still in a window. *)
Definition animating (map : HeatMap) (now_ms : Z) : bool :=
  existsb (fun a => cell_animating a (hm_timings map) now_ms) (hm_cells map).

Definition shade (v : MapView) (a : CellAggregate) (cell_bytes now_ms : Z) : Z :=
  if mv_animations v then color (mv_ramp v) a cell_bytes now_ms else settled (mv_ramp v) a cell_bytes.

(** What the screen cell over map cell [i] shows. *)
Definition map_cell (v : MapView) (map : HeatMap) (now_ms i : Z) : Cell :=
  let g := hm_grid map in
  let a := at_cell map i in
  let top := shade v a (cell_bytes_ g) now_ms in
  if negb (mv_half_block v) then Framebuffer.mkCell (glyph_for v a (cell_bytes_ g)) top (v_bg (mv_style v)) kAttrNone
  else
    let lower := i ⊞ cols_ g in
    let bottom :=
      if lower <? Z.of_nat (List.length (hm_cells map)) then shade v (at_cell map lower) (cell_bytes_ g) now_ms
      else v_bg (mv_style v) in
    Framebuffer.mkCell (gs_half (mv_glyphs v)) top bottom kAttrNone.

(** The gutter label of a row and its ink. *)
Definition row_label (v : MapView) (map : HeatMap) (logical_row : Z) : list Z * Z :=
  let g := hm_grid map in
  let st := mv_style v in
  let coord := offset_of_row g logical_row in
  let row_bytes := cell_bytes_ g ⊠ cols_ g in
  match hm_regions map with
  | None => ((format_offset (kGutterWidth + 1) coord).1, v_dim st)
  | Some rm =>
      match span_at_flat rm coord with
      | Some sp =>
          ((format_offset (kGutterWidth + 1) (coord ⊟ s_flat sp)).1,
           if (coord <=? s_flat sp) && (s_flat sp <? coord ⊞ row_bytes) then v_warn st else v_dim st)
      | None => ([], v_dim st)
      end
  end.

(** One row of cells; false when the map ran out, which ends the drawing. *)
Fixpoint draw_cols (v : MapView) (map : HeatMap) (now_ms x y base : Z) (n : nat) (col : Z) (f : Framebuffer)
    : Framebuffer * bool :=
  match n with
  | O => (f, true)
  | S n =>
      if Z.of_nat (List.length (hm_cells map)) <=? base + col then (f, false)
      else draw_cols v map now_ms x y base n (col + 1) (put f (x + col) y (map_cell v map now_ms (base + col)))
  end.

Definition logical (v : MapView) (row : Z) : Z := if mv_half_block v then row * 2 else row.

Definition draw_gutter (v : MapView) (l : MapLayout) (map : HeatMap) (row : Z) (f : Framebuffer) : Framebuffer :=
  if 0 <=? ml_gutter_x l then
    let '(label, ink) := row_label v map (logical v row) in
    (text f (ml_gutter_x l) (ry (ml_cells l) + row) label ink (v_bg (mv_style v)) kAttrNone).1
  else f.

Fixpoint draw_rows (v : MapView) (l : MapLayout) (map : HeatMap) (now_ms cols : Z) (n : nat) (row : Z)
    (f : Framebuffer) : Framebuffer :=
  match n with
  | O => f
  | S n =>
      let f := draw_gutter v l map row f in
      let base := logical v row * cols_ (hm_grid map) in
      let '(f, more) := draw_cols v map now_ms (rx (ml_cells l)) (ry (ml_cells l) + row) base (Z.to_nat cols) 0 f in
      if more then draw_rows v l map now_ms cols n (row + 1) f else f
  end.

Definition drawn_rows (v : MapView) (l : MapLayout) (g : Grid) : Z :=
  let display_rows := if mv_half_block v then (rows_ g + 1) / 2 else rows_ g in
  if display_rows <? rh (ml_cells l) then display_rows else rh (ml_cells l).
Definition drawn_cols (l : MapLayout) (g : Grid) : Z :=
  if cols_ g <? rw (ml_cells l) then cols_ g else rw (ml_cells l).

Definition draw_map (v : MapView) (f : Framebuffer) (area : Rect) (map : HeatMap) (now_ms : Z) : Framebuffer :=
  let l := map_layout area (mv_show_legend v) in
  if negb (ml_valid l) then f
  else
    let g := hm_grid map in
    let f := draw_legend v f (ml_legend l) g in
    if negb (valid_ g) then f
    else draw_rows v l map now_ms (drawn_cols l g) (Z.to_nat (drawn_rows v l g)) 0 f.

(** ** The overlays *)

(** The screen position of map cell [i], if the drawn map reaches it. *)
Definition cell_position (v : MapView) (l : MapLayout) (g : Grid) (i : Z) : option (Z * Z) :=
  let logical_row := row_of g i in
  let row := if mv_half_block v then logical_row / 2 else logical_row in
  let col := col_of g i in
  if (rh (ml_cells l) <=? row) || (rw (ml_cells l) <=? col) then None
  else Some (rx (ml_cells l) + col, ry (ml_cells l) + row).

Definition leak_cell (v : MapView) (g : Grid) (i : Z) (c : Cell) : Cell :=
  if mv_half_block v && negb (Z.land (row_of g i) 1 =? 0)
  then Framebuffer.mkCell (glyph c) (fg c) (v_leak (mv_style v)) (attrs c)
  else Framebuffer.mkCell (glyph c) (v_leak (mv_style v)) (bg c) (attrs c).

Definition leak_step_draw (v : MapView) (l : MapLayout) (map : HeatMap) (f : Framebuffer) (i : Z) : Framebuffer :=
  if Z.of_nat (List.length (hm_cells map)) <=? i then f
  else
    match cell_position v l (hm_grid map) i with
    | None => f
    | Some (x, y) =>
        if negb (fb_contains f x y) then f else put f x y (leak_cell v (hm_grid map) i (at_back f x y))
    end.

Definition draw_leaks (v : MapView) (f : Framebuffer) (area : Rect) (map : HeatMap) (d : SnapshotDiff) : Framebuffer :=
  if negb (sd_diff d) then f
  else
    let l := map_layout area (mv_show_legend v) in
    if negb (ml_valid l) then f
    else if negb (valid_ (hm_grid map)) then f
    else if negb (List.length (sd_cells d) =? List.length (hm_cells map))%nat then f
    else foldl (leak_step_draw v l map) f (sd_hot d).

Fixpoint cursor_label (st : MapStyle) (y : Z) (n : nat) (gx : Z) (f : Framebuffer) : Framebuffer :=
  match n with
  | O => f
  | S n =>
      if negb (fb_contains f gx y) then f
      else
        let c := at_back f gx y in
        cursor_label st y n (gx + 1) (put f gx y (Framebuffer.mkCell (glyph c) (v_cursor st) (bg c) (attrs c)))
  end.

Definition draw_cursor (v : MapView) (f : Framebuffer) (area : Rect) (map : HeatMap) (coord : Z) : Framebuffer :=
  let l := map_layout area (mv_show_legend v) in
  if negb (ml_valid l) then f
  else if negb (valid_ (hm_grid map)) then f
  else
    match cell_position v l (hm_grid map) (cursor_index coord (hm_grid map)) with
    | None => f
    | Some (x, y) =>
        if negb (fb_contains f x y) then f
        else
          let c := at_back f x y in
          let f := put f x y (Framebuffer.mkCell (glyph c) (fg c) (v_cursor (mv_style v)) (Z.lor (attrs c) kAttrBold)) in
          if 0 <=? ml_gutter_x l
          then cursor_label (mv_style v) y (Z.to_nat kGutterWidth) (ml_gutter_x l) f else f
    end.
End Draw.
