(* ===== verification/MapViewProofs.v ===== *)
(** * The map's drawing (theorems about MapView)

    Nothing is drawn outside the area; every map cell is drawn at its own row
    and column; cursor and leak overlay recolour exactly the cells they name. *)

From S2P Require Import Prelude ChunkTable RegionMap Grid HeatMap Cursor Snapshot.
From S2P Require Import Framebuffer Capabilities Theme HeatColor MapView.

(** ** The areas *)

Record layout_ok (area : Rect) (l : MapLayout) : Prop := {
  lo_w : 0 < rw (ml_cells l);
  lo_h : 0 < rh (ml_cells l);
  lo_right : rx (ml_cells l) + rw (ml_cells l) = rx area + rw area;
  lo_bottom : ry (ml_cells l) + rh (ml_cells l) = ry area + rh area;
  lo_left : rx area <= rx (ml_cells l);
  lo_top : ry area <= ry (ml_cells l);
  lo_gutter : 0 <= ml_gutter_x l -> ml_gutter_x l = rx area /\ rx (ml_cells l) = rx area + kGutterWidth + 1;
  lo_legend : rw (ml_legend l) <= 0 \/
    (ml_legend l = mkRect (rx area) (ry area) (rw area) 1 /\ ry (ml_cells l) = ry area + 1)
}.

Lemma map_layout_ok area show : ml_valid (map_layout area show) = true -> layout_ok area (map_layout area show).
Proof.
  unfold map_layout. destruct (_ || _) eqn:E; [done|]. bprop. cbn [ml_valid]. intros Hv. bprop.
  set (legend := show && (2 <=? rh area)) in *. set (gutter := kGutterWidth + 1 + kMinMapCols <=? rw area) in *.
  clearbody legend gutter.
  split; cbn [ml_cells ml_legend ml_gutter_x rx ry rw rh] in *; try (destruct legend, gutter; lia).
  - destruct gutter; unfold kGutterWidth; lia.
  - destruct legend; [right; done|left; done].
Qed.

Lemma in_cells area l x y : layout_ok area l -> in_rect (ml_cells l) x y -> in_rect area x y.
Proof. intros [] [? ?]. split; lia. Qed.

(** ** Confinement *)
Lemma text_width f x y s fgc bgc at' : fb_ok f -> 0 <= (text f x y s fgc bgc at').2.
Proof.
  intros Hok. destruct (decide (0 <= y < fb_h f /\ 0 < fb_w f)) as [[Hy Hw]|Hn].
  - pose proof (text_exact f x y s fgc bgc at' Hok Hy Hw) as Ht. destruct (text _ _ _ _ _ _ _) as [g n].
    destruct Ht as (_ & _ & ->). cbn. lia.
  - unfold text. destruct (Z.ltb_spec y 0); [done|]. destruct (Z.leb_spec (fb_h f) y); [done|].
    destruct (Z.leb_spec (fb_w f) 0); [done|]. lia.
Qed.

Record pen_ok (r : Rect) (f : Framebuffer) (p : Framebuffer * Z) : Prop := {
  po_drawn : confined (in_rect r) f p.1;
  po_left : rx r <= p.2
}.

Section Pen.
Context (r : Rect) (f : Framebuffer) (Hh : 0 < rh r) (Hw : 0 <= rw r).

Lemma pen_text_ok p s fgc bgc : pen_ok r f p -> pen_ok r f (pen_text (ry r) (rx r + rw r) p s fgc bgc).
Proof.
  destruct p as [g x]. intros [Hd Hl]. cbn [fst snd] in *. unfold pen_text.
  destruct (Z.ltb_spec (rx r + rw r) (x + Z.of_nat (length s))); [split; [done|cbn; lia]|].
  pose proof (confined_ok _ _ _ Hd) as Hok.
  pose proof (text_width g x (ry r) s fgc bgc kAttrNone Hok) as Hn.
  pose proof (confined_text g x (ry r) s fgc bgc kAttrNone Hok) as Ht.
  destruct (text _ _ _ _ _ _ _) as [g' n]. cbn [fst snd] in *. split; cbn; [|lia].
  eapply confined_trans; [done|]. eapply confined_mono; [|done]. intros i j _ [-> ?]. split; lia.
Qed.

Lemma pen_glyph_ok p g fgc bgc : pen_ok r f p -> pen_ok r f (pen_glyph (ry r) (rx r + rw r) p g fgc bgc).
Proof.
  destruct p as [f' x]. intros [Hd Hl]. cbn [fst snd] in *. unfold pen_glyph.
  destruct (Z.leb_spec (rx r + rw r) x); [done|]. split; cbn; [|lia].
  eapply confined_step; [done|]. intros Hok. eapply confined_mono; [|by apply confined_put].
  intros i j _ [-> ->]. split; lia.
Qed.

Lemma draw_swatches_ok v l p : pen_ok r f p -> pen_ok r f (draw_swatches v (ry r) (rx r + rw r) p l).
Proof.
  revert p. induction l as [|[colour label] l IH]; intros p Hp; [done|]. cbn [draw_swatches].
  destruct (negb _); [done|]. by apply IH, pen_text_ok, pen_glyph_ok, pen_text_ok.
Qed.
End Pen.

Lemma draw_legend_confined v f r g : fb_ok f -> confined (in_rect r) f (draw_legend v f r g).
Proof.
  intros Hok. unfold draw_legend. destruct (Z.leb_spec (rw r) 0); [by apply confined_refl|].
  destruct (Z.leb_spec (rh r) 0); [by apply confined_refl|]. cbn [orb].
  assert (pen_ok r f (f, rx r)) as P0 by (split; [by apply confined_refl|cbn; lia]).
  destruct (negb (valid_ g)); [apply pen_text_ok; [done|lia|done]|].
  set (head := (snprintf 48 _).1).
  pose proof (pen_text_ok r f ltac:(done) ltac:(lia) _ head (v_ink (mv_style v)) (v_bg (mv_style v)) P0) as P1.
  pose proof (draw_swatches_ok r f ltac:(done) ltac:(lia) v (swatches v) _ P1) as P2.
  destruct (negb (covers_whole_span g)); [apply pen_text_ok; [done|lia|exact P2]|apply P2].
Qed.

Section Draw.
Context `{!ColorMath} (v : MapView) (map : HeatMap) (now : Z).

Lemma draw_cols_confined x y base n : forall col f,
  fb_ok f -> confined (fun i j => j = y /\ x + col <= i < x + col + Z.of_nat n) f (draw_cols v map now x y base n col f).1.
Proof.
  induction n as [|n IH]; intros col f Hok; cbn [draw_cols]; [by apply confined_refl|].
  destruct (_ <=? _); [by apply confined_refl|].
  set (g := put f (x + col) y _).
  assert (confined (fun i j => j = y /\ x + col <= i < x + col + Z.of_nat (S n)) f g) as Hp.
  { eapply confined_mono; [|by apply confined_put]. cbn beta. intros i j _ [-> ->]. lia. }
  eapply confined_step; [exact Hp|]. intros Hok'. eapply confined_mono; [|by apply IH]. cbn beta. intros i j _ [-> ?]. lia.
Qed.

Lemma format_offset_width n o : (length (format_offset n o).1 <= 7)%nat.
Proof.
  unfold format_offset. destruct (_ <? _); [cbn; lia|]. unfold snprintf. cbn [fst].
  set (n' := Z.of_nat (length (offset_body o))). assert (0 <= n') by lia.
  change kGutterWidth with 7. rewrite length_app, length_replicate, length_take.
  destruct (Z.ltb_spec 7 n'); lia.
Qed.

Lemma row_label_width row : (length (row_label v map row).1 <= 7)%nat.
Proof.
  unfold row_label. destruct (hm_regions map) as [rm|]; [destruct (span_at_flat rm _)|]; cbn [fst];
    [apply format_offset_width|cbn; lia|apply format_offset_width].
Qed.

Lemma draw_gutter_confined l row f : fb_ok f ->
  confined (fun i j => j = ry (ml_cells l) + row /\ 0 <= ml_gutter_x l /\ ml_gutter_x l <= i < ml_gutter_x l + kGutterWidth) f
    (draw_gutter v l map row f).
Proof.
  intros Hok. unfold draw_gutter. destruct (Z.leb_spec 0 (ml_gutter_x l)); [|by apply confined_refl].
  pose proof (row_label_width (logical v row)) as Hl. destruct (row_label v map (logical v row)) as [label ink].
  cbn [fst] in Hl. eapply confined_mono; [|by apply confined_text]. cbn beta. change kGutterWidth with 7.
  intros i j _ [-> ?]. lia.
Qed.

(** The rows from [row] on touch only their own lines. *)
Lemma draw_rows_confined area l cols n : layout_ok area l -> 0 <= cols <= rw (ml_cells l) -> forall row f,
  0 <= row -> row + Z.of_nat n <= rh (ml_cells l) -> fb_ok f ->
  confined (fun i j => in_rect area i j /\ ry (ml_cells l) + row <= j) f (draw_rows v l map now cols n row f).
Proof.
  intros [] Hc. induction n as [|n IH]; intros row f Hr Hn Hok; cbn [draw_rows]; [by apply confined_refl|].
  set (g1 := draw_gutter v l map row f) in *.
  assert (confined (fun i j => in_rect area i j /\ ry (ml_cells l) + row <= j) f g1) as H1.
  { eapply confined_mono; [|by apply draw_gutter_confined]. cbn beta. intros i j _ (-> & Hg & Hi).
    destruct (lo_gutter0 Hg). change kGutterWidth with 7 in *. split; [split|]; lia. }
  clearbody g1. eapply confined_step; [exact H1|]. intros Hok1.
  pose proof (draw_cols_confined (rx (ml_cells l)) (ry (ml_cells l) + row) (logical v row * cols_ (hm_grid map))
    (Z.to_nat cols) 0 g1 Hok1) as Hcols.
  destruct (draw_cols _ _ _ _ _ _ _ _ _) as [g2 more]. cbn [fst] in Hcols.
  assert (confined (fun i j => in_rect area i j /\ ry (ml_cells l) + row <= j) g1 g2) as H2.
  { eapply confined_mono; [|exact Hcols]. cbn beta. intros i j _ [-> ?]. split; [split|]; lia. }
  destruct more; [|done]. eapply confined_step; [exact H2|]. intros Hok2.
  eapply confined_mono; [|apply IH; [lia|lia|done]]. cbn beta. intros i j _ [? ?]. split; [done|lia].
Qed.

Lemma drawn_bounds l g : 0 <= cols_ g -> 0 <= rows_ g -> 0 < rw (ml_cells l) -> 0 < rh (ml_cells l) ->
  0 <= drawn_cols l g <= rw (ml_cells l) /\ 0 <= drawn_rows v l g <= rh (ml_cells l).
Proof.
  intros. unfold drawn_cols, drawn_rows. split; [destruct (Z.ltb_spec (cols_ g) (rw (ml_cells l))); lia|].
  assert (0 <= (if mv_half_block v then (rows_ g + 1) / 2 else rows_ g)) by (destruct (mv_half_block v); [Z.div_mod_to_equations|]; lia).
  destruct (Z.ltb_spec (if mv_half_block v then (rows_ g + 1) / 2 else rows_ g) (rh (ml_cells l))); lia.
Qed.

Lemma draw_map_confined f area :
  0 <= cols_ (hm_grid map) -> 0 <= rows_ (hm_grid map) -> fb_ok f ->
  confined (in_rect area) f (draw_map v f area map now).
Proof.
  intros Hc Hr Hok. unfold draw_map. destruct (ml_valid (map_layout area (mv_show_legend v))) eqn:Hv; cbn [negb];
    [|by apply confined_refl].
  pose proof (map_layout_ok _ _ Hv) as Hl. set (l := map_layout area (mv_show_legend v)) in *. clearbody l.
  set (g1 := draw_legend v f (ml_legend l) (hm_grid map)).
  assert (confined (in_rect area) f g1) as H1.
  { eapply confined_mono; [|by apply draw_legend_confined]. intros i j _ [Hi Hj].
    destruct (lo_legend _ _ Hl) as [?|[E ?]]; [lia|]. rewrite E in Hi, Hj. cbn in *.
    pose proof (lo_h _ _ Hl). pose proof (lo_bottom _ _ Hl). split; lia. }
  eapply confined_step; [exact H1|]. intros Hok1. destruct (valid_ (hm_grid map)); cbn [negb]; [|by apply confined_refl].
  destruct (drawn_bounds l (hm_grid map) Hc Hr (lo_w _ _ Hl) (lo_h _ _ Hl)) as [Hdc Hdr].
  eapply confined_mono; [|apply (draw_rows_confined area); [done|done|lia|lia|done]]. by intros i j _ [? _].
Qed.
End Draw.

(** ** Exactness *)

Section Exact.
Context `{!ColorMath} (v : MapView) (map : HeatMap) (now : Z).
Local Notation count := (Z.of_nat (length (hm_cells map))).

Lemma put_same f x y c : fb_ok f -> on_grid f x y -> at_back (put f x y c) x y = c.
Proof. intros Hok Hg. destruct (put_spec f x y c Hok) as [_ ->]; [by rewrite decide_True|done]. Qed.

Lemma draw_cols_exact x y base n : forall col f,
  fb_ok f -> base + col + Z.of_nat n <= count ->
  (draw_cols v map now x y base n col f).2 = true /\
  forall c, col <= c < col + Z.of_nat n -> on_grid f (x + c) y ->
    at_back (draw_cols v map now x y base n col f).1 (x + c) y = map_cell v map now (base + c).
Proof.
  induction n as [|n IH]; intros col f Hok Hb; cbn [draw_cols]; [split; [done|lia]|].
  destruct (Z.leb_spec count (base + col)); [lia|].
  set (g := put f (x + col) y (map_cell v map now (base + col))).
  pose proof (confined_put f (x + col) y (map_cell v map now (base + col)) Hok) as Hp. fold g in Hp.
  pose proof (confined_ok _ _ _ Hp) as Hg.
  destruct (IH (col + 1) g Hg ltac:(lia)) as [I1 I2]. split; [done|]. intros c Hc Hon.
  assert (on_grid g (x + c) y) as Hon' by (apply (on_grid_same _ _ _ _ (cf_same _ _ _ Hp)); done).
  destruct (decide (c = col)) as [->|Hne]; [|apply I2; [lia|done]].
  rewrite (cf_rest _ _ _ (draw_cols_confined v map now x y base n (col + 1) g Hg)) by (done || lia).
  by apply put_same.
Qed.

(** The screen cells of a drawn row: label, map cells, and what was there before. *)
Definition row_shows (l : MapLayout) (cols r : Z) (f : Framebuffer) (i : Z) : Cell :=
  let '(label, ink) := row_label v map (logical v r) in
  if decide (0 <= ml_gutter_x l /\ ml_gutter_x l <= i < ml_gutter_x l + Z.of_nat (length (code_points label)))
  then Framebuffer.mkCell (code_points label !!! Z.to_nat (i - ml_gutter_x l)) ink (v_bg (mv_style v)) kAttrNone
  else if decide (rx (ml_cells l) <= i < rx (ml_cells l) + cols)
  then map_cell v map now (logical v r * cols_ (hm_grid map) + (i - rx (ml_cells l)))
  else at_back f i (ry (ml_cells l) + r).

Lemma label_width row : (length (code_points (row_label v map row).1) <= 7)%nat.
Proof. pose proof (code_points_length (row_label v map row).1). pose proof (row_label_width v map row). lia. Qed.

Lemma draw_gutter_exact l row f i : fb_ok f -> on_grid f i (ry (ml_cells l) + row) ->
  at_back (draw_gutter v l map row f) i (ry (ml_cells l) + row) = row_shows l 0 row f i.
Proof.
  intros Hok Hon. unfold draw_gutter, row_shows. destruct (row_label v map (logical v row)) as [label ink].
  destruct (Z.leb_spec 0 (ml_gutter_x l)).
  - pose proof (text_exact f (ml_gutter_x l) (ry (ml_cells l) + row) label ink (v_bg (mv_style v)) kAttrNone Hok) as Ht.
    destruct (text _ _ _ _ _ _ _) as [g m]. destruct Ht as (_ & -> & _); [destruct Hon; lia|destruct Hon; lia| |done].
    cbn [fst]. destruct (decide (ry (ml_cells l) + row = ry (ml_cells l) + row /\ _)).
    + rewrite decide_True by (split; [done|tauto]). done.
    + rewrite decide_False by tauto. rewrite decide_False by lia. done.
  - rewrite !decide_False by lia. done.
Qed.

Lemma draw_rows_exact area l cols n : layout_ok area l -> 0 <= cols <= rw (ml_cells l) -> forall row f,
  0 <= row -> row + Z.of_nat n <= rh (ml_cells l) -> fb_ok f ->
  (forall r, row <= r < row + Z.of_nat n -> logical v r * cols_ (hm_grid map) + cols <= count) ->
  forall r i, row <= r < row + Z.of_nat n -> on_grid f i (ry (ml_cells l) + r) ->
    at_back (draw_rows v l map now cols n row f) i (ry (ml_cells l) + r) = row_shows l cols r f i.
Proof.
  intros Hl Hc. induction n as [|n IH]; intros row f Hr Hn Hok Hcount r i Hrr Hon; [lia|]. cbn [draw_rows].
  pose proof (draw_gutter_confined v map l row f Hok) as Hg.
  pose proof (fun H => draw_gutter_exact l row f i Hok H) as Hge.
  set (g1 := draw_gutter v l map row f) in *. clearbody g1. pose proof (confined_ok _ _ _ Hg) as Hok1.
  apply (on_grid_same _ _ _ _ (cf_same _ _ _ Hg)) in Hon as Hon1.
  set (base := logical v row * cols_ (hm_grid map)) in *.
  pose proof (draw_cols_confined v map now (rx (ml_cells l)) (ry (ml_cells l) + row) base (Z.to_nat cols) 0 g1 Hok1) as Hcf.
  destruct (draw_cols_exact (rx (ml_cells l)) (ry (ml_cells l) + row) base (Z.to_nat cols) 0 g1 Hok1) as [Hmore Hex].
  { specialize (Hcount row ltac:(lia)). subst base. lia. }
  destruct (draw_cols v map now (rx (ml_cells l)) (ry (ml_cells l) + row) base (Z.to_nat cols) 0 g1) as [g2 more].
  cbn [fst snd] in *. subst more. pose proof (confined_ok _ _ _ Hcf) as Hok2.
  apply (on_grid_same _ _ _ _ (cf_same _ _ _ Hcf)) in Hon1 as Hon2.
  destruct (decide (r = row)) as [->|Hne].
  - rewrite (cf_rest _ _ _ (draw_rows_confined v map now area l cols n Hl Hc (row + 1) g2 ltac:(lia) ltac:(lia) Hok2));
      [|done|intros [_ ?]; lia].
    specialize (Hge Hon). pose proof (label_width (logical v row)) as Hlw. unfold row_shows in Hge |- *.
    destruct (row_label v map (logical v row)) as [label ink]. cbn [fst] in Hlw.
    destruct (decide (rx (ml_cells l) <= i < rx (ml_cells l) + cols)) as [Hin|Hout].
    + rewrite decide_False.
      2: { intros [Hgx Hi]. destruct (lo_gutter _ _ Hl Hgx). change kGutterWidth with 7 in *. lia. }
      specialize (Hex (i - rx (ml_cells l)) ltac:(lia)). rewrite Z.add_sub_assoc, Z.add_simpl_l in Hex. by apply Hex.
    + rewrite (cf_rest _ _ _ Hcf) by (done || lia). rewrite Hge. case_decide; [done|]. by rewrite decide_False by lia.
  - rewrite IH; [|lia|lia|done| |lia|done].
    + unfold row_shows. destruct (row_label v map (logical v r)) as [label ink]. case_decide; [done|]. case_decide; [done|].
      rewrite (cf_rest _ _ _ Hcf) by (done || lia). apply (cf_rest _ _ _ Hg); [done|lia].
    + intros r' Hr'. apply Hcount. lia.
Qed.

(** The map cell whose shade is in the upper half of the screen cell over [i]. *)
Definition top_of (i : Z) : Z :=
  let g := hm_grid map in
  logical v (if mv_half_block v then row_of g i / 2 else row_of g i) * cols_ g + col_of g i.

(** *** What a screen cell says *)

(** The density glyphs, from nothing to full; a cell with something in it gets
    the one of the number of thresholds its fill reaches, three at most. *)
Definition density_glyphs : list Z :=
  [gs_light (mv_glyphs v); gs_medium (mv_glyphs v); gs_dark (mv_glyphs v); gs_full (mv_glyphs v)].
Definition fill_shown (a : CellAggregate) (glyph : Z) : Prop :=
  let cell_bytes := cell_bytes_ (hm_grid map) in
  (n_live a = 0 /\ overhead_bytes a = 0 -> glyph = gs_light (mv_glyphs v)) /\
  (n_live a <> 0 \/ overhead_bytes a <> 0 -> cell_bytes <> 0 ->
     density_glyphs !! Z.to_nat (Z.min 3 (density_band (live_bytes a) cell_bytes)) = Some glyph).

(** Milliseconds since a stamp, on the 32-bit clock. *)
Definition elapsed (stamp : Z) : Z := (now - stamp) mod 2 ^ 32.
Definition older_than (stamp window : Z) : Prop := stamp = kNoTime \/ window <= elapsed stamp.

(** The colour of an aggregate: red while a release flashes; once both windows
    are over, or without animations, the colour of what it holds; in between the
    ramp's blend. *)
Definition heat_shown (a : CellAggregate) (colour : Z) : Prop :=
  let p := mv_palette v in
  let t := hr_timings (mv_ramp v) in
  let resting :=
    mv_animations v = false \/
    (older_than (last_free_ms a) (free_flash_ms t + free_fade_ms t) /\
     older_than (last_alloc_ms a) (malloc_pulse_ms t + malloc_fade_ms t)) in
  (mv_animations v = true -> last_free_ms a <> kNoTime -> elapsed (last_free_ms a) < free_flash_ms t ->
     colour = hp_freed p) /\
  (resting -> n_live a = 0 -> overhead_bytes a <= 0 -> colour = hp_empty p) /\
  (resting -> n_live a = 0 -> 0 < overhead_bytes a -> colour = hp_overhead p) /\
  (resting -> n_live a <> 0 ->
     colour = oklab_to_srgb (lab_for_step (srgb_to_oklab (hp_settled p))
                               (density_step (live_bytes a) (cell_bytes_ (hm_grid map))))) /\
  (~ resting -> colour = color (mv_ramp v) a (cell_bytes_ (hm_grid map)) now).

(** The screen cell over map cell [i]. *)
Definition face_of (i : Z) (c : Cell) : Prop :=
  let lower := i + cols_ (hm_grid map) in
  attrs c = kAttrNone /\ heat_shown (hm_cells map !!! Z.to_nat i) (fg c) /\
  if mv_half_block v then
    glyph c = gs_half (mv_glyphs v) /\
    (lower < count -> heat_shown (hm_cells map !!! Z.to_nat lower) (bg c)) /\
    (count <= lower -> bg c = v_bg (mv_style v))
  else fill_shown (hm_cells map !!! Z.to_nat i) (glyph c) /\ bg c = v_bg (mv_style v).

Lemma fill_shown_glyph a :
  fill_shown a (glyph_for v a (cell_bytes_ (hm_grid map))).
Proof.
  unfold fill_shown, glyph_for, cell_occupied. split.
  - intros [-> ->]. done.
  - intros Ho Hb. assert (negb (n_live a =? 0) || negb (overhead_bytes a =? 0) = true) as ->.
    { destruct (Z.eqb_spec (n_live a) 0), (Z.eqb_spec (overhead_bytes a) 0); (done || lia). }
    destruct (Z.eqb_spec (cell_bytes_ (hm_grid map)) 0); [done|]. cbn [negb].
    set (d := density_band _ _) in *. clearbody d.
    destruct (Z.leb_spec 3 d); [by rewrite Z.min_l by lia|]. rewrite Z.min_r by lia.
    destruct (Z.leb_spec 2 d); [by replace d with 2 by lia|]. destruct (Z.leb_spec 1 d); [by replace d with 1 by lia|].
    by replace (Z.to_nat d) with 0%nat by lia.
Qed.

Lemma settled_shown a :
  let c := settled (mv_ramp v) a (cell_bytes_ (hm_grid map)) in
  (n_live a = 0 -> overhead_bytes a <= 0 -> c = hp_empty (mv_palette v)) /\
  (n_live a = 0 -> 0 < overhead_bytes a -> c = hp_overhead (mv_palette v)) /\
  (n_live a <> 0 -> c = oklab_to_srgb (lab_for_step (srgb_to_oklab (hp_settled (mv_palette v)))
                               (density_step (live_bytes a) (cell_bytes_ (hm_grid map))))).
Proof.
  unfold settled, settled_lut, mv_palette. destruct (Z.eqb_spec (n_live a) 0), (Z.ltb_spec 0 (overhead_bytes a));
    by repeat split; intros; (done || lia).
Qed.

Lemma heat_shown_shade a : timings_ok (hr_timings (mv_ramp v)) ->
  heat_shown a (shade v a (cell_bytes_ (hm_grid map)) now).
Proof.
  intros Ht. pose proof (settled_shown a) as (S1 & S2 & S3). unfold heat_shown, shade. cbv zeta.
  destruct (mv_animations v).
  - pose proof (color_settled (mv_ramp v) a (cell_bytes_ (hm_grid map)) now Ht) as Hs.
    assert (older_than (last_free_ms a) (free_flash_ms (hr_timings (mv_ramp v)) + free_fade_ms (hr_timings (mv_ramp v))) /\
      older_than (last_alloc_ms a) (malloc_pulse_ms (hr_timings (mv_ramp v)) + malloc_fade_ms (hr_timings (mv_ramp v))) ->
      cell_animating a (hr_timings (mv_ramp v)) now = false) as Hrest.
    { destruct Ht as (T1 & T2 & T3 & T4 & T5 & T6). unfold cell_animating, older_than, elapsed, age_of.
      rewrite orb_false_iff, !Z.ltb_ge, !u32_small by ulia. intros [Hf Ha].
      destruct (Z.eqb_spec (last_free_ms a) kNoTime), (Z.eqb_spec (last_alloc_ms a) kNoTime);
        try (split; (unfold kNoTime; ulia)); destruct Hf as [?|Hf], Ha as [?|Ha]; try done;
        split; (exact Hf || exact Ha || (unfold kNoTime; ulia)). }
    split; [intros _ Hn He|].
    { unfold color, age_of, elapsed in *. destruct (Z.eqb_spec (last_free_ms a) kNoTime); [done|].
      change ((now - last_free_ms a) mod 2 ^ 32) with (now ⊟₃₂ last_free_ms a) in He.
      by destruct (Z.ltb_spec (now ⊟₃₂ last_free_ms a) (free_flash_ms (hr_timings (mv_ramp v)))); [|lia]. }
    split; [intros [?|Hr] ? ?; [done|]; rewrite Hs by auto; auto|].
    split; [intros [?|Hr] ? ?; [done|]; rewrite Hs by auto; auto|].
    split; [intros [?|Hr] ?; [done|]; rewrite Hs by auto; auto|]. done.
  - split; [done|]. split; [auto|]. split; [auto|]. split; [auto|]. intros Hn. destruct Hn. by left.
Qed.

Lemma at_cell_in i : 0 <= i < count -> at_cell map i = hm_cells map !!! Z.to_nat i.
Proof. intros Hi. unfold at_cell. by destruct (Z.leb_spec count i); [lia|]. Qed.

Lemma face_of_map_cell i : grid_ok (hm_grid map) -> timings_ok (hr_timings (mv_ramp v)) ->
  count = cols_ (hm_grid map) * rows_ (hm_grid map) -> 0 <= i < count -> face_of i (map_cell v map now i).
Proof.
  intros Hg Ht Hcount Hi. unfold face_of, map_cell. rewrite (at_cell_in i Hi).
  destruct (go_dims _ Hg) as [Hc Hr].
  assert (i ⊞ cols_ (hm_grid map) = i + cols_ (hm_grid map)) as ->.
  { apply Z.mod_small. assert (count <= 2 ^ 31 * 2 ^ 31) by (rewrite Hcount; nia). lia. }
  destruct (mv_half_block v); cbn [negb attrs fg bg glyph].
  - split; [done|]. split; [by apply heat_shown_shade|]. split; [done|].
    destruct (Z.ltb_spec (i + cols_ (hm_grid map)) count) as [Hl|Hl].
    + split; [intros _|lia]. rewrite at_cell_in by lia. by apply heat_shown_shade.
    + split; [lia|done].
  - split; [done|]. split; [by apply heat_shown_shade|]. split; [by apply fill_shown_glyph|done].
Qed.

(** *** Where things are: the legend's line, the label column, the cells *)
Definition legend_rows (area : Rect) : Z := if mv_show_legend v && (2 <=? rh area) then 1 else 0.
Definition label_cols (area : Rect) : Z := if 16 <=? rw area then 8 else 0.
Definition cells_left (area : Rect) : Z := rx area + label_cols area.
Definition cells_top (area : Rect) : Z := ry area + legend_rows area.
Definition shown_rows (area : Rect) : Z :=
  Z.min (if mv_half_block v then (rows_ (hm_grid map) + 1) / 2 else rows_ (hm_grid map)) (rh area - legend_rows area).
Definition shown_cols (area : Rect) : Z := Z.min (cols_ (hm_grid map)) (rw area - label_cols area).

Lemma map_layout_places area : 0 < rw area -> 0 < rh area -> 0 <= rx area ->
  let l := map_layout area (mv_show_legend v) in
  ml_valid l = true /\
  ml_cells l = mkRect (cells_left area) (cells_top area) (rw area - label_cols area) (rh area - legend_rows area) /\
  (0 <= ml_gutter_x l <-> label_cols area = 8) /\ (0 <= ml_gutter_x l -> ml_gutter_x l = rx area) /\
  ml_legend l = (if decide (legend_rows area = 1) then mkRect (rx area) (ry area) (rw area) 1 else kNoRect).
Proof.
  intros Hw Hh Hx. unfold map_layout, cells_left, cells_top, label_cols, legend_rows.
  destruct (Z.leb_spec (rw area) 0); [lia|]. destruct (Z.leb_spec (rh area) 0); [lia|].
  cbv zeta. change (kGutterWidth + 1 + kMinMapCols) with 16. change (kGutterWidth + 1) with 8. cbn [orb].
  cbn [ml_valid ml_cells ml_gutter_x ml_legend rw rh].
  destruct (Z.leb_spec 16 (rw area)), (mv_show_legend v), (Z.leb_spec 2 (rh area)); cbn [andb];
    (split; [apply andb_true_iff; rewrite !Z.ltb_lt; lia|]); (split; [done|]); (split; [lia|]); (split; [lia|]); done.
Qed.

Lemma shown_drawn area : 0 < rw area -> 0 < rh area -> 0 <= rx area ->
  let l := map_layout area (mv_show_legend v) in
  drawn_rows v l (hm_grid map) = shown_rows area /\ drawn_cols l (hm_grid map) = shown_cols area.
Proof.
  intros Hw Hh Hx. destruct (map_layout_places area Hw Hh Hx) as (_ & Ec & _). cbv zeta. unfold drawn_rows, drawn_cols.
  rewrite Ec. cbn [rw rh]. unfold shown_rows, shown_cols.
  split; match goal with |- context [?a <? ?b] => destruct (Z.ltb_spec a b) end; lia.
Qed.

(** The rows the map has hold every column. *)
Lemma shown_cells area r : grid_ok (hm_grid map) -> valid_ (hm_grid map) = true ->
  count = cols_ (hm_grid map) * rows_ (hm_grid map) -> 0 <= r < shown_rows area ->
  0 <= logical v r * cols_ (hm_grid map) /\ logical v r * cols_ (hm_grid map) + cols_ (hm_grid map) <= count.
Proof.
  intros Hg Hv Hc Hr. destruct (go_valid _ Hg Hv) as (_ & Hcols & Hrows).
  assert (0 <= logical v r /\ logical v r + 1 <= rows_ (hm_grid map)) as [H1 H2].
  { unfold logical, shown_rows in *. destruct (mv_half_block v); Z.div_mod_to_equations; lia. }
  split; nia.
Qed.

(** The picture of the whole area, row by row. *)
Lemma map_picture f area i j :
  fb_ok f -> 0 < rw area -> 0 < rh area -> 0 <= rx area -> grid_ok (hm_grid map) -> valid_ (hm_grid map) = true ->
  count = cols_ (hm_grid map) * rows_ (hm_grid map) -> on_grid f i j ->
  let l := map_layout area (mv_show_legend v) in
  let f' := draw_legend v f (ml_legend l) (hm_grid map) in
  at_back (draw_map v f area map now) i j =
  if decide (0 <= j - cells_top area < shown_rows area)
  then row_shows l (shown_cols area) (j - cells_top area) f' i else at_back f' i j.
Proof.
  intros Hok Hw Hh Hx Hg Hv Hc Hon l f'. destruct (map_layout_places area Hw Hh Hx) as (Hval & Ec & _ & _ & _).
  pose proof (map_layout_ok _ _ Hval) as Hl. destruct (shown_drawn area Hw Hh Hx) as [Er Ed].
  destruct (go_valid _ Hg Hv) as (_ & Hcols & Hrows).
  destruct (drawn_bounds v (map_layout area (mv_show_legend v)) (hm_grid map) ltac:(lia) ltac:(lia) (lo_w _ _ Hl) (lo_h _ _ Hl))
    as [Hdc Hdr].
  unfold draw_map. rewrite Hval, Hv. cbn [negb]. rewrite Er, Ed in *. fold l in Hl, Ec, Hdc, Hdr |- *. fold f'.
  assert (same_front f f') as Sf by apply (draw_legend_confined v f (ml_legend l) (hm_grid map) Hok).
  pose proof (sf_ok _ _ Sf) as Hok'. apply (on_grid_same _ _ _ _ Sf) in Hon as Hon'.
  assert (ry (ml_cells l) = cells_top area) as Et by (by rewrite Ec).
  case_decide as Hr.
  - replace j with (ry (ml_cells l) + (j - cells_top area)) at 1 by lia.
    apply (draw_rows_exact area); try done; try lia.
    + intros r Hrr. pose proof (shown_cells area r Hg Hv Hc ltac:(lia)). unfold shown_cols. lia.
    + by replace (ry (ml_cells l) + (j - cells_top area)) with j by lia.
  - destruct (decide (ry (ml_cells l) <= j)) as [Hj|Hj].
    + assert (forall n row g, fb_ok g -> on_grid g i j -> 0 <= row -> row + Z.of_nat n <= rh (ml_cells l) ->
        ry (ml_cells l) + row + Z.of_nat n <= j ->
        at_back (draw_rows v l map now (shown_cols area) n row g) i j = at_back g i j) as Hbelow.
      { clear -Hl Hdc. induction n as [|n IH]; intros row g Hok Hon Hr Hn Hj; cbn [draw_rows]; [done|].
        pose proof (draw_gutter_confined v map l row g Hok) as Hgc. set (g1 := draw_gutter v l map row g) in *.
        clearbody g1. pose proof (confined_ok _ _ _ Hgc) as Hok1.
        pose proof (draw_cols_confined v map now (rx (ml_cells l)) (ry (ml_cells l) + row) (logical v row * cols_ (hm_grid map))
          (Z.to_nat (shown_cols area)) 0 g1 Hok1) as Hcc.
        apply (on_grid_same _ _ _ _ (cf_same _ _ _ Hgc)) in Hon as Hon1.
        destruct (draw_cols _ _ _ _ _ _ _ _ _) as [g2 more]. cbn [fst] in Hcc.
        apply (on_grid_same _ _ _ _ (cf_same _ _ _ Hcc)) in Hon1 as Hon2.
        assert (at_back g2 i j = at_back g i j) as E2.
        { rewrite (cf_rest _ _ _ Hcc) by (done || lia). apply (cf_rest _ _ _ Hgc); [done|lia]. }
        destruct more; [|done]. rewrite IH; [done|by apply confined_ok in Hcc|done|lia|lia|lia]. }
      apply Hbelow; try done; lia.
    + apply (cf_rest _ _ _ (draw_rows_confined v map now area l (shown_cols area) (Z.to_nat (shown_rows area)) Hl Hdc 0 f'
        ltac:(lia) ltac:(lia) Hok')); [done|lia].
Qed.

(** C27: The heap map is drawn exactly, position by position.  For a map sized to
    its grid, in an area that is not empty: column [k] of row [r] of the cells
    shows map cell [r * cols + k] (of row [2 * r] with half blocks, the row
    below it in the lower half) as the density glyph its fill reaches and the
    colour of what it holds and when it last changed (while it fades, the
    ramp's blend); left of the cells, where there is room, stands the row's label;
    the line above them is what the legend's own drawing puts there; every other
    position, inside the area and outside it, keeps what it had.  And the position
    the cursor and the leak overlay compute for a map cell is the one that shows
    it. *)
Theorem map_draw_exact f area i j :
  let g := hm_grid map in
  let out := draw_map v f area map now in
  let r := j - cells_top area in
  let k := i - cells_left area in
  let label := code_points (row_label v map (logical v r)).1 in
  fb_ok f -> 0 < rw area -> 0 < rh area -> 0 <= rx area ->
  grid_ok g -> valid_ g = true -> count = cols_ g * rows_ g -> timings_ok (hr_timings (mv_ramp v)) ->
  on_grid f i j ->
  same_front f out /\
  (0 <= r < shown_rows area -> 0 <= k < shown_cols area ->
     0 <= logical v r * cols_ g + k < count /\ face_of (logical v r * cols_ g + k) (at_back out i j)) /\
  (0 <= r < shown_rows area -> rx area <= i < cells_left area ->
     at_back out i j =
     if decide (i < rx area + Z.of_nat (length label))
     then Framebuffer.mkCell (label !!! Z.to_nat (i - rx area)) (row_label v map (logical v r)).2 (v_bg (mv_style v)) kAttrNone
     else at_back f i j) /\
  (legend_rows area = 1 -> j = ry area -> rx area <= i < rx area + rw area ->
     at_back out i j = at_back (draw_legend v f (mkRect (rx area) (ry area) (rw area) 1) g) i j) /\
  (~ (legend_rows area = 1 /\ j = ry area /\ rx area <= i < rx area + rw area) ->
   ~ (0 <= r < shown_rows area /\ rx area <= i < cells_left area + shown_cols area) ->
     at_back out i j = at_back f i j) /\
  (forall n, 0 <= n < count -> cell_position v (map_layout area (mv_show_legend v)) g n = Some (i, j) ->
     0 <= r < shown_rows area /\ 0 <= k < shown_cols area /\ logical v r * cols_ g + k = top_of n).
Proof.
  intros g out r k label Hok Hw Hh Hx Hg Hv Hc Ht Hon.
  destruct (go_valid _ Hg Hv) as (_ & Hcols & Hrows).
  destruct (map_layout_places area Hw Hh Hx) as (Hval & Ec & Hgut & Hgx & Eleg).
  pose proof (map_picture f area i j Hok Hw Hh Hx Hg Hv Hc Hon) as Hp. cbv zeta in Hp. fold out r in Hp.
  set (l := map_layout area (mv_show_legend v)) in *. set (f' := draw_legend v f (ml_legend l) (hm_grid map)) in *.
  pose proof (label_width (logical v r)) as Hlw. unfold row_shows in Hp. subst label.
  destruct (row_label v map (logical v r)) as [label ink]. cbn [fst snd] in *.
  rewrite Ec in Hp. cbn [rx ry] in Hp.
  assert (label_cols area = 8 \/ label_cols area = 0) as Hlc by (unfold label_cols; destruct (16 <=? rw area); auto).
  assert (legend_rows area = 1 \/ legend_rows area = 0) as Hlr by (unfold legend_rows; destruct (_ && _); auto).
  assert (cells_left area = rx area + label_cols area) as El by done.
  assert (cells_top area = ry area + legend_rows area) as Et by done.
  assert (0 <= shown_cols area <= rw area - label_cols area) as Hsc.
  { unfold shown_cols, label_cols. fold g. destruct (Z.leb_spec 16 (rw area)); lia. }
  assert (r = j - cells_top area /\ k = i - cells_left area) as [Er Ek] by done.
  assert (~ (legend_rows area = 1 /\ j = ry area /\ rx area <= i < rx area + rw area) -> at_back f' i j = at_back f i j) as Hf'.
  { intros Hn. apply (cf_rest _ _ _ (draw_legend_confined v f (ml_legend l) (hm_grid map) Hok)); [done|].
    rewrite Eleg. unfold in_rect, kNoRect. destruct (decide (legend_rows area = 1)); cbn; lia. }
  split.
  { apply draw_map_confined; [fold g; lia|fold g; lia|done]. }
  clearbody r k. split; [|split; [|split; [|split]]].
  - intros Hr Hk. pose proof (shown_cells area r Hg Hv Hc Hr) as Hs.
    assert (0 <= logical v r * cols_ g + k < count) as Hi by (unfold shown_cols in Hk; fold g in Hs, Hk; lia).
    split; [done|]. rewrite decide_True in Hp by done. rewrite decide_False in Hp.
    2: { intros [Hgg Hii]. rewrite (Hgx Hgg) in Hii. apply Hgut in Hgg. lia. }
    rewrite decide_True, <- Ek in Hp by lia. rewrite Hp. by apply face_of_map_cell.
  - intros Hr Hi. rewrite decide_True in Hp by done. assert (0 <= ml_gutter_x l) as Hgg by (apply Hgut; lia).
    rewrite (Hgx Hgg) in Hp. destruct (decide (i < rx area + Z.of_nat (length (code_points label)))) as [Hin|Hin].
    + rewrite decide_True in Hp by (split; lia). exact Hp.
    + rewrite decide_False in Hp by lia. rewrite decide_False in Hp by lia. rewrite Hp.
      replace (cells_top area + r) with j by lia. apply Hf'. lia.
  - intros Hone -> Hi. rewrite decide_False in Hp by lia. rewrite Hp. subst f'. rewrite Eleg, decide_True by done. done.
  - intros Hnl Hnr. rewrite Hp. destruct (decide (0 <= r < shown_rows area)) as [Hr|Hr]; [|by apply Hf'].
    rewrite decide_False; [|intros [Hgg Hii]; rewrite (Hgx Hgg) in Hii; apply Hgut in Hgg; lia].
    rewrite decide_False by lia. replace (cells_top area + r) with j by lia. by apply Hf'.
  - intros n Hn Hpos. unfold cell_position, row_of, col_of in Hpos. unfold top_of, row_of, col_of. fold g.
    rewrite Ec in Hpos. cbn [rx ry rw rh] in Hpos. destruct (Z.leb_spec (cols_ g) 0); [fold g in Hcols; lia|].
    assert (0 <= n / cols_ g < rows_ g) as Hrow
      by (split; [apply Z.div_pos; lia|apply Z.div_lt_upper_bound; [done|]; fold g in Hc; lia]).
    pose proof (Z.mod_pos_bound n (cols_ g) Hcols) as Hcol.
    set (row := if mv_half_block v then _ else _) in *.
    assert (0 <= row < (if mv_half_block v then (rows_ g + 1) / 2 else rows_ g)) as Hrow'
      by (subst row; clear Hc Hcol; destruct (mv_half_block v); Z.div_mod_to_equations; lia).
    destruct (Z.leb_spec (rh area - legend_rows area) row); [done|].
    destruct (Z.leb_spec (rw area - label_cols area) (n mod cols_ g)); [done|]. injection Hpos as <- <-.
    unfold shown_rows, shown_cols. fold g. replace r with row by lia. replace k with (n mod cols_ g) by lia.
    split; [lia|]. split; [lia|]. lia.
Qed.
End Exact.

(** ** The cursor *)
Lemma cell_position_cells v l g i x y : 0 <= i ->
  cell_position v l g i = Some (x, y) -> in_rect (ml_cells l) x y.
Proof.
  intros Hi. unfold cell_position, row_of, col_of.
  assert (0 <= (if cols_ g <=? 0 then 0 else i / cols_ g)) by (destruct (Z.leb_spec (cols_ g) 0); [lia|apply Z.div_pos; lia]).
  assert (0 <= (if cols_ g <=? 0 then 0 else i mod cols_ g))
    by (destruct (Z.leb_spec (cols_ g) 0); [lia|apply Z.mod_pos_bound; lia]).
  set (lr := if cols_ g <=? 0 then 0 else i / cols_ g) in *. set (c := if cols_ g <=? 0 then 0 else i mod cols_ g) in *.
  assert (0 <= (if mv_half_block v then lr / 2 else lr)) by (destruct (mv_half_block v); [apply Z.div_pos|]; lia).
  set (r := if mv_half_block v then lr / 2 else lr) in *.
  destruct (Z.leb_spec (rh (ml_cells l)) r); [done|]. destruct (Z.leb_spec (rw (ml_cells l)) c); [done|].
  intros [= <- <-]. split; lia.
Qed.

Lemma cursor_index_nonneg coord g : grid_ok g -> valid_ g = true -> 0 <= cursor_index coord g.
Proof.
  intros Hg Hv. destruct (last_heap_cell_spec g Hg Hv) as [[Hl _] _]. unfold cursor_index. rewrite Hv. cbn [negb].
  destruct (index_of g coord) as [i|] eqn:E.
  - apply index_of_nonneg in E. destruct (_ <? _); lia.
  - destruct (_ <=? _); lia.
Qed.

Definition marked (st : MapStyle) (c : Cell) : Cell :=
  Framebuffer.mkCell (glyph c) (fg c) (v_cursor st) (Z.lor (attrs c) kAttrBold).
Definition inked (st : MapStyle) (c : Cell) : Cell := Framebuffer.mkCell (glyph c) (v_cursor st) (bg c) (attrs c).

Lemma cursor_label_exact st y n : forall gx f, fb_ok f ->
  same_front f (cursor_label st y n gx f) /\
  forall i j, on_grid f i j ->
    at_back (cursor_label st y n gx f) i j =
    if decide (j = y /\ 0 <= gx /\ gx <= i < gx + Z.of_nat n) then inked st (at_back f i j) else at_back f i j.
Proof.
  induction n as [|n IH]; intros gx f Hok; cbn [cursor_label].
  { split; [by apply same_front_refl|]. intros. by rewrite decide_False by lia. }
  destruct (fb_contains f gx y) eqn:E; cbn [negb].
  2: { split; [by apply same_front_refl|]. intros i j Hon. rewrite decide_False; [done|]. intros (-> & Hx & Hi).
       assert (on_grid f gx y) as Hc by (destruct Hon; split; lia). apply fb_contains_spec in Hc. congruence. }
  apply fb_contains_spec in E as Hon.
  destruct (put_spec f gx y (inked st (at_back f gx y)) Hok) as [S1 A1]. unfold inked in S1, A1 at 1.
  destruct (IH (gx + 1) _ (sf_ok _ _ S1)) as [S2 A2]. split; [by eapply same_front_trans|].
  intros i j Hij. rewrite A2 by (by apply (on_grid_same _ _ _ _ S1)). rewrite A1 by done.
  destruct Hon as [Hon _]. destruct (decide (i = gx /\ j = y)) as [[-> ->]|Hne].
  - rewrite decide_False by lia. rewrite decide_True by lia. done.
  - destruct (decide (j = y /\ 0 <= gx + 1 /\ gx + 1 <= i < gx + 1 + Z.of_nat n)).
    + rewrite decide_True by lia. done.
    + rewrite decide_False by lia. done.
Qed.

(** The cursor points without lying.  Drawing it changes the background and
    weight of the one screen cell over the cursor's map cell, keeping the glyph
    and heat colour that say what is there, recolours the gutter label of that
    row, and leaves every other position of the screen as it was. *)
Theorem cursor_marks_one_cell `{!ColorMath} v map f area coord x y :
  let g := hm_grid map in
  let l := map_layout area (mv_show_legend v) in
  fb_ok f -> ml_valid l = true -> grid_ok g -> valid_ g = true ->
  cell_position v l g (cursor_index coord g) = Some (x, y) -> on_grid f x y ->
  forall i j, on_grid f i j ->
    at_back (draw_cursor v f area map coord) i j =
    if decide (i = x /\ j = y) then marked (mv_style v) (at_back f x y)
    else if decide (j = y /\ 0 <= ml_gutter_x l /\ ml_gutter_x l <= i < ml_gutter_x l + kGutterWidth)
    then inked (mv_style v) (at_back f i j)
    else at_back f i j.
Proof.
  intros g l Hok Hv Hgo Hgv Hpos Hon i j Hij.
  pose proof (cell_position_cells v l g _ x y (cursor_index_nonneg coord g Hgo Hgv) Hpos) as [Hleft _].
  unfold draw_cursor. fold l g. rewrite Hv, Hgv, Hpos. cbn [negb].
  assert (fb_contains f x y = true) as -> by (by apply fb_contains_spec). cbn [negb].
  pose proof (map_layout_ok _ _ Hv) as Hl. fold l in Hl.
  destruct (put_spec f x y (marked (mv_style v) (at_back f x y)) Hok) as [S1 A1]. fold (marked (mv_style v) (at_back f x y)).
  set (f1 := put f x y _) in *. clearbody f1.
  destruct (Z.leb_spec 0 (ml_gutter_x l)) as [Hg|Hg].
  - destruct (lo_gutter _ _ Hl Hg) as [Eg Ec].
    destruct (cursor_label_exact (mv_style v) y (Z.to_nat kGutterWidth) (ml_gutter_x l) f1 (sf_ok _ _ S1)) as [_ A2].
    rewrite A2 by (by apply (on_grid_same _ _ _ _ S1)). rewrite A1 by done. change kGutterWidth with 7 in *.
    destruct (decide (i = x /\ j = y)) as [[-> ->]|Hne].
    + by rewrite decide_False by lia.
    + destruct (decide (j = y /\ 0 <= ml_gutter_x l /\ ml_gutter_x l <= i < ml_gutter_x l + 7)).
      * by rewrite decide_True by lia.
      * by rewrite decide_False by lia.
  - rewrite A1 by done. destruct (decide (i = x /\ j = y)); [done|]. by rewrite decide_False by lia.
Qed.

(** ** The leak overlay *)
Lemma draw_leaks_confined `{!ColorMath} v map f area d :
  Forall (fun i => 0 <= i) (sd_hot d) -> fb_ok f -> confined (in_rect area) f (draw_leaks v f area map d).
Proof.
  intros Hhot Hok. unfold draw_leaks. destruct (negb (sd_diff d)); [by apply confined_refl|].
  destruct (ml_valid (map_layout area (mv_show_legend v))) eqn:Hv; cbn [negb]; [|by apply confined_refl].
  destruct (negb (valid_ _)); [by apply confined_refl|]. destruct (negb _); [by apply confined_refl|].
  apply confined_fold; [|done]. intros g i Hi Hg. unfold leak_step_draw.
  destruct (_ <=? i); [by apply confined_refl|].
  destruct (cell_position _ _ _ i) as [[x y]|] eqn:Hp; [|by apply confined_refl].
  destruct (negb (fb_contains g x y)); [by apply confined_refl|].
  eapply confined_mono; [|by apply confined_put]. intros a b _ [-> ->].
  apply (in_cells area _ _ _ (map_layout_ok _ _ Hv)).
  apply (cell_position_cells v _ (hm_grid map) i); [|done]. rewrite Forall_forall in Hhot. by apply Hhot.
Qed.

Lemma draw_cursor_confined `{!ColorMath} v map f area coord :
  grid_ok (hm_grid map) -> fb_ok f -> confined (in_rect area) f (draw_cursor v f area map coord).
Proof.
  intros Hgo Hok. destruct (ml_valid (map_layout area (mv_show_legend v))) eqn:Hv.
  2: { unfold draw_cursor. rewrite Hv. by apply confined_refl. }
  pose proof (map_layout_ok _ _ Hv) as Hl. unfold draw_cursor. rewrite Hv. cbn [negb].
  set (l := map_layout area (mv_show_legend v)) in *.
  destruct (valid_ (hm_grid map)) eqn:Hgv; cbn [negb]; [|by apply confined_refl].
  destruct (cell_position _ _ _ _) as [[x y]|] eqn:Hp; [|by apply confined_refl].
  destruct (negb (fb_contains f x y)); [by apply confined_refl|].
  apply (cell_position_cells v _ _ _ x y (cursor_index_nonneg coord _ Hgo Hgv)) in Hp.
  set (f1 := put f x y _). assert (confined (in_rect area) f f1) as H1.
  { eapply confined_mono; [|by apply confined_put]. intros a b _ [-> ->]. by apply (in_cells area l). }
  clearbody f1. destruct (Z.leb_spec 0 (ml_gutter_x l)) as [Hg|]; [|done].
  eapply confined_step; [exact H1|]. intros Hok1.
  destruct (cursor_label_exact (mv_style v) y (Z.to_nat kGutterWidth) (ml_gutter_x l) f1 Hok1) as [S2 A2].
  split; [done|]. intros i j Hij Hout. rewrite A2 by done. rewrite decide_False; [done|].
  intros (-> & _ & Hi). apply Hout. destruct (lo_gutter _ _ Hl Hg) as [Eg Ec]. destruct Hl, Hp as [Hpx Hpy].
  change kGutterWidth with 7 in *. split; lia.
Qed.

(** ** A concrete screen: a 96 by 24 frame over the demonstration heap *)

Definition wide_fb : Framebuffer := (resize new_fb 96 24).1.
Lemma wide_fb_ok : fb_ok wide_fb.
Proof. apply resize_ok, new_fb_ok. Qed.
Definition demo_view : MapView := new_view (mkCaps TrueColor true) (heat_palette dark_theme) kDefaultTimings.

Lemma wide_on x y : 0 <= x < 96 -> 0 <= y < 24 -> on_grid wide_fb x y.
Proof. intros. by split. Qed.

Lemma map_draw_exact_witness :
  let c := at_back (draw_map demo_view wide_fb (mkRect 0 0 96 24) cursor_demo 2000) 56 2 in
  (glyph c = gs_medium (glyphs_for (mkCaps TrueColor true)) /\ fg c = th_active dark_theme) /\
  at_back (draw_map demo_view wide_fb (mkRect 0 0 96 24) cursor_demo 2000) 90 2 = at_back wide_fb 90 2.
Proof.
  assert (Z.of_nat (length (hm_cells cursor_demo)) = cols_ (hm_grid cursor_demo) * rows_ (hm_grid cursor_demo)) as Hc
    by by vm_compute.
  assert (timings_ok (hr_timings (mv_ramp demo_view))) as Ht by (vm_compute; intuition congruence).
  assert (forall x y, 0 <= x < 96 -> 0 <= y < 24 ->
    (0 <= y - 1 < 20 -> 0 <= x - 8 < 80 ->
       face_of demo_view cursor_demo 2000 ((y - 1) * 80 + (x - 8))
         (at_back (draw_map demo_view wide_fb (mkRect 0 0 96 24) cursor_demo 2000) x y)) /\
    (88 <= x -> 0 < y ->
       at_back (draw_map demo_view wide_fb (mkRect 0 0 96 24) cursor_demo 2000) x y = at_back wide_fb x y)) as H.
  { intros x y Hx Hy.
    destruct (map_draw_exact demo_view cursor_demo 2000 wide_fb (mkRect 0 0 96 24) x y wide_fb_ok
      ltac:(done) ltac:(done) ltac:(done) cursor_demo_ok eq_refl Hc Ht (wide_on x y Hx Hy)) as (_ & Hface & _ & _ & Hrest & _).
    split.
    - intros Hr Hk. by apply Hface.
    - intros Hxx Hyy. apply Hrest; [intros (_ & -> & _); done|]. intros [_ [_ Hn]].
      assert (cells_left (mkRect 0 0 96 24) + shown_cols cursor_demo (mkRect 0 0 96 24) = 88) as E by (vm_compute; reflexivity).
      rewrite E in Hn. lia. }
  split; [|apply (H 90 2); lia].
  destruct (proj1 (H 56 2 ltac:(lia) ltac:(lia)) ltac:(lia) ltac:(lia)) as (_ & Hheat & Hfill & _).
  assert (exists a, hm_cells cursor_demo !!! Z.to_nat ((2 - 1) * 80 + (56 - 8)) = a /\
    a = HeatMap.mkCell 24 1 4 5 kNoTime) as (a & Ea & Eq) by (eexists; split; [reflexivity|vm_compute; reflexivity]).
  rewrite Ea, Eq in *. clear Ea Eq a H.
  revert Hheat Hfill. generalize (at_back (draw_map demo_view wide_fb (mkRect 0 0 96 24) cursor_demo 2000) 56 2).
  intros c Hheat Hfill. split.
  - destruct Hfill as [_ Hf]. specialize (Hf ltac:(by left) ltac:(by vm_compute)). vm_compute in Hf. by injection Hf.
  - destruct Hheat as (_ & _ & _ & Hlive & _). rewrite Hlive; [by vm_compute| |done].
    right. split; [by left|right]. vm_compute. congruence.
Defined.

Lemma cursor_marks_one_cell_witness :
  at_back (draw_cursor demo_view wide_fb (mkRect 0 0 96 24) cursor_demo 12288) 56 2 =
  Framebuffer.mkCell 32 kDefaultFg (th_cursor dark_theme) kAttrBold.
Proof.
  pose proof (cursor_marks_one_cell demo_view cursor_demo wide_fb (mkRect 0 0 96 24) 12288 56 2
    wide_fb_ok eq_refl cursor_demo_ok eq_refl eq_refl (wide_on 56 2 ltac:(lia) ltac:(lia))
    56 2 (wide_on 56 2 ltac:(lia) ltac:(lia))) as Hm.
  rewrite (decide_True _ _ (conj eq_refl eq_refl)) in Hm. rewrite Hm. clear Hm. vm_compute. reflexivity.
Defined.
