(* ===== verification/Inspector.v ===== *)
(** * The chunk inspector (src/src/tui/inspector.h, inspector.cpp)

    The chunks of the cell under the cursor: a bounded list of the largest,
    found by a scan of the chunk table, a selection that survives rescans, and
    the drawing of the panel. *)

From Stdlib Require Import String.
From S2P Require Import Prelude ChunkTable RegionMap Grid HeatMap Cursor.
From S2P Require Import Framebuffer Panel Theme HeatColor.

Definition kInspectorCandidates : Z := 64.
Definition kInspectRefreshMs : Z := 250.
Definition kInspectorRows : Z := 6.
Definition kInspectorMinMapRows : Z := 6.
Definition kInspectorMinCols : Z := 40.
Definition kInspectorValueCol : Z := 12.
Definition kAddressEndCol : Z := kInspectorValueCol + 18.
Definition SIZE_MAX : Z := UINT64_MAX.

Inductive ChunkStatus := Unallocated | Active | Mmapped | Freed.
#[export] Instance ChunkStatus_eq_dec : EqDecision ChunkStatus.
Proof. solve_decision. Defined.

Definition chunk_status_str (s : ChunkStatus) : list Z :=
  match s with
  | Unallocated => str "UNALLOCATED"
  | Active => str "ACTIVE (ptmalloc)"
  | Mmapped => str "MMAPPED"
  | Freed => str "FREED"
  end.

Record ChunkDetail := mkDetail {
  d_addr : Z;
  d_size : Z;
  d_usable : Z;
  d_overhead : Z;
  d_alloc_ms : Z;
  d_free_ms : Z;
  d_tid : Z;
  d_status : ChunkStatus;
  d_exact : bool
}.
Definition kNothing : ChunkDetail := mkDetail 0 0 0 0 0 0 0 Unallocated false.
#[export] Instance ChunkDetail_eq_dec : EqDecision ChunkDetail.
Proof. solve_decision. Defined.
#[export] Instance ChunkDetail_inhabited : Inhabited ChunkDetail := populate kNothing.

Definition chunk_bytes (d : ChunkDetail) : Z := d_size d ⊞ d_overhead d.

Record InspectorStyle := mkInspectorStyle {
  i_ink : Z; i_dim : Z; i_accent : Z; i_frame : Z; i_live : Z; i_freed : Z; i_bg : Z }.
Definition default_inspector_style : InspectorStyle :=
  mkInspectorStyle (th_text dark_theme) (th_dim dark_theme) (th_accent dark_theme) (th_frame dark_theme)
    (th_active dark_theme) (th_danger_text dark_theme) (th_bg dark_theme).

Record ChunkInspector := mkInspector {
  in_style : InspectorStyle;
  in_first_seen : bool;
  in_found : list ChunkDetail;
  in_total : Z;
  in_pos : nat;
  in_cell_ : Z;
  in_last_ms : Z;
  in_selected : Z;
  in_scans : Z
}.
Definition new_inspector : ChunkInspector :=
  mkInspector default_inspector_style false [] 0 0 SIZE_MAX 0 0 0.
Definition set_inspector_style (i : ChunkInspector) (s : InspectorStyle) : ChunkInspector :=
  mkInspector s (in_first_seen i) (in_found i) (in_total i) (in_pos i) (in_cell_ i) (in_last_ms i) (in_selected i) (in_scans i).
Definition set_ages_from_first_sighting (i : ChunkInspector) (b : bool) : ChunkInspector :=
  mkInspector (in_style i) b (in_found i) (in_total i) (in_pos i) (in_cell_ i) (in_last_ms i) (in_selected i) (in_scans i).

Definition current (i : ChunkInspector) : ChunkDetail := default kNothing (in_found i !! in_pos i).

(** ** The scan *)

Definition detail_of (c : Chunk) : ChunkDetail :=
  let exact := negb (Z.land (c_flags c) kChunkFlagRefined =? 0) in
  mkDetail (c_key c) (c_size c) (c_usable c)
    (if exact then c_overhead_exact c else overhead_of (c_size c) (c_usable c))
    (c_alloc_ms c) (c_free_ms c) (c_tid c)
    (if decide (c_state c = kChunkFreed) then Freed
     else if negb (Z.land (c_flags c) kChunkFlagMmapped =? 0) then Mmapped else Active)
    exact.

(** Whether the scan counts a slot. *)
Definition in_this_cell (map : HeatMap) (cell : Z) (c : Chunk) : bool :=
  if bool_decide (c_state c = kChunkEmpty) || (c_key c =? 0) then false
  else
    match coordinate_of map (c_key c) with
    | None => false
    | Some coord =>
        match index_of (hm_grid map) coord with None => false | Some idx => idx =? cell end
    end.

(** [std::min_element] by size: the position of the first smallest. *)
Fixpoint min_from (best : nat) (best_size : Z) (i : nat) (l : list ChunkDetail) : nat :=
  match l with
  | [] => best
  | d :: l => if d_size d <? best_size then min_from i (d_size d) (S i) l else min_from best best_size (S i) l
  end.
Definition min_element (l : list ChunkDetail) : nat :=
  match l with [] => 0%nat | d :: l => min_from 0 (d_size d) 1 l end.

(** A candidate offered to the bounded list. *)
Definition keep_largest (found : list ChunkDetail) (d : ChunkDetail) : list ChunkDetail :=
  if Z.of_nat (List.length found) <? kInspectorCandidates then found ++ [d]
  else
    let i := min_element found in
    match found !! i with
    | Some smallest => if d_size smallest <? d_size d then <[i := d]> found else found
    | None => found
    end.

Definition scan_slot (map : HeatMap) (cell : Z) (st : list ChunkDetail * Z) (c : Chunk) : list ChunkDetail * Z :=
  if in_this_cell map cell c then (keep_largest st.1 (detail_of c), st.2 ⊞ 1) else st.

(** Largest first, ties by address. *)
Definition detail_before (a b : ChunkDetail) : Prop :=
  d_size b < d_size a \/ (d_size a = d_size b /\ d_addr a <= d_addr b).
#[export] Instance detail_before_dec : RelDecision detail_before.
Proof. intros a b. unfold detail_before. apply _. Defined.

Fixpoint find_addr (addr : Z) (l : list ChunkDetail) (i : nat) : option nat :=
  match l with [] => None | d :: l => if d_addr d =? addr then Some i else find_addr addr l (S i) end.

Definition rescan (ins : ChunkInspector) (t : ChunkTable) (map : HeatMap) (cell : Z) : ChunkInspector :=
  let '(found, total) := foldl (scan_slot map cell) ([], 0) (slots_ t) in
  let found := merge_sort detail_before found in
  let pos := if in_selected ins =? 0 then 0%nat else default 0%nat (find_addr (in_selected ins) found 0) in
  let selected := match found with [] => 0 | _ => d_addr (found !!! pos) end in
  mkInspector (in_style ins) (in_first_seen ins) found total pos cell (in_last_ms ins) selected (in_scans ins ⊞ 1).

(** ** Refreshing and cycling *)

Definition was_addr (i : ChunkInspector) : Z :=
  match in_found i with [] => 0 | _ => d_addr (in_found i !!! in_pos i) end.

Definition refresh (ins : ChunkInspector) (t : ChunkTable) (map : HeatMap) (coord now_ms : Z) (dirty : bool)
    : ChunkInspector * bool :=
  let g := hm_grid map in
  if negb (valid_ g) then
    (mkInspector (in_style ins) (in_first_seen ins) [] 0 0 SIZE_MAX (in_last_ms ins) (in_selected ins) (in_scans ins),
     match in_found ins with [] => false | _ => true end)
  else
    let cell := cursor_index coord g in
    let moved := negb (cell =? in_cell_ ins) in
    let due := kInspectRefreshMs <=? now_ms ⊟₃₂ in_last_ms ins in
    if negb moved && negb dirty && negb due then (ins, false)
    else
      let ins := mkInspector (in_style ins) (in_first_seen ins) (in_found ins) (in_total ins) (in_pos ins)
                   (in_cell_ ins) now_ms (in_selected ins) (in_scans ins) in
      let was := was_addr ins in
      let was_total := in_total ins in
      let possible :=
        (cell <? Z.of_nat (List.length (hm_cells map))) &&
        (cell_occupied (at_cell map cell) || cell_animating (at_cell map cell) (hm_timings map) now_ms) in
      if negb possible then
        (mkInspector (in_style ins) (in_first_seen ins) [] 0 0 cell now_ms 0 (in_scans ins),
         negb (was =? 0) || negb (was_total =? 0) || moved)
      else
        let ins := rescan ins t map cell in
        (ins,
         if negb (was =? was_addr ins) || negb (was_total =? in_total ins) || moved then true
         else match in_found ins with [] => false | _ => negb (bool_decide (d_status (current ins) = Freed)) end).

Definition cycle (ins : ChunkInspector) : ChunkInspector * bool :=
  let n := List.length (in_found ins) in
  if (n <? 2)%nat then (ins, false)
  else
    let pos := ((in_pos ins + 1) mod n)%nat in
    (mkInspector (in_style ins) (in_first_seen ins) (in_found ins) (in_total ins) pos (in_cell_ ins) (in_last_ms ins)
       (d_addr (in_found ins !!! pos)) (in_scans ins), true).

(** ** Drawing *)

(** [%.1f] of [ms / 1000.0]: the nearest double of the quotient, as a numerator
    over a power of two, printed rounded half to even. *)
Definition round_half_even (num den : Z) : Z :=
  let q := num / den in
  let r := num mod den in
  if 2 * r <? den then q else if den <? 2 * r then q + 1 else if Z.even q then q else q + 1.
Definition nearest_double (num den : Z) : Z * Z :=
  if num <=? 0 then (0, 0)
  else
    let e := Z.log2 num - Z.log2 den in
    let e := if num * 2 ^ (Z.max 0 (- e)) <? den * 2 ^ (Z.max 0 e) then e - 1 else e in
    let k := 52 - e in
    (round_half_even (num * 2 ^ k) den, k).
Definition seconds_text (ms : Z) : list Z :=
  let '(m, k) := nearest_double ms 1000 in
  let tenths := round_half_even (m * 10) (2 ^ k) in
  dec (tenths / 10) ++ str "." ++ dec (tenths mod 10).

(** [0x%016llx] *)
Definition hex_char (v : Z) : Z := if v <? 10 then 48 + v else 87 + v.
Definition hex16 (v : Z) : list Z :=
  str "0x" ++ ((fun i => hex_char (Z.land (Z.shiftr v (4 * (15 - i))) 15)) <$> seqZ 0 16).

Definition inspector_field (st : InspectorStyle) (area : Rect) (fd : Framebuffer * Z)
    (label value : list Z) (colour : Z) (numeric : bool) : Framebuffer * Z :=
  let '(f, dy) := fd in
  let f := (panel_text f area 2 dy label (i_dim st) (i_bg st) kAttrNone).1 in
  let f := if numeric then (panel_numeric_right f area dy value colour (i_dim st) (i_bg st)).1
           else (panel_text f area kInspectorValueCol dy value colour (i_bg st) kAttrNone).1 in
  (f, dy + 1).

Definition line_192 (text : list Z) : list Z := (snprintf 192 text).1.

Definition lifetime_ms (d : ChunkDetail) (now_ms : Z) : Z :=
  let end_ms := if decide (d_status d = Freed) then d_free_ms d else now_ms in
  if d_alloc_ms d <? end_ms then end_ms ⊟₃₂ d_alloc_ms d else 0.

(** The rows of a chunk, under the address. *)
Definition draw_chunk_rows (ins : ChunkInspector) (area : Rect) (d : ChunkDetail) (now_ms : Z)
    (fd : Framebuffer * Z) : Framebuffer * Z :=
  let st := in_style ins in
  let line := line_192 (format_count 48 (d_size d) ++ str " bytes (" ++ (format_byte_size 32 (d_size d)).1 ++ str ")") in
  let fd := inspector_field st area fd (str "User Size") line (i_ink st) true in
  let line := line_192 (format_count 48 (chunk_bytes d) ++ str " bytes (" ++
                        (if d_exact d then [] else str "~") ++ dec (d_overhead d) ++ str " B overhead" ++
                        (if d_exact d then str ", measured" else str ", inferred") ++ str ")") in
  let fd := inspector_field st area fd (str "Real Size") line (i_ink st) true in
  let fd := inspector_field st area fd (str "Status") (chunk_status_str (d_status d))
              (if decide (d_status d = Freed) then i_freed st else i_live st) false in
  let qualifier := if decide (d_status d = Freed) then str "(lived)"
                   else if in_first_seen ins then str "(since seen)" else str "(so far)" in
  let line := line_192 (seconds_text (lifetime_ms d now_ms) ++ str " s " ++ qualifier) in
  inspector_field st area fd (str "Lifetime") line (i_ink st) true.

(** The count of a shared cell, in the longest form that the width allows. *)
Definition crowd_label (ins : ChunkInspector) (area : Rect) : option (list Z) :=
  if in_total ins <=? 1 then None
  else
    let here := dec (Z.of_nat (in_pos ins) + 1) in
    let n := Z.of_nat (List.length (in_found ins)) in
    let line :=
      if n <? in_total ins
      then line_192 (str " " ++ here ++ str " of " ++ dec (in_total ins) ++ str " here (" ++ dec n ++ str " reachable) - Tab ")
      else line_192 (str " " ++ here ++ str " of " ++ dec (in_total ins) ++ str " in this cell - Tab ") in
    if rw area - Z.of_nat (List.length line) <=? kAddressEndCol then
      let line := line_192 (str " " ++ here ++ str "/" ++ dec (in_total ins) ++ str " Tab ") in
      if rw area - Z.of_nat (List.length line) <=? kAddressEndCol then None else Some line
    else Some line.

(** [regions] is null or the packing that turns the coordinate into an address. *)
Definition draw_inspector (ins : ChunkInspector) (f : Framebuffer) (area : Rect) (g : Grid) (coord : Z)
    (regions : option RegionMap) (now_ms : Z) : Framebuffer :=
  if (rw area <=? 0) || (rh area <=? 0) then f
  else
    let st := in_style ins in
    let f := panel_rule f area (str " CHUNK INSPECTOR ") (i_frame st) (i_accent st) (i_bg st) in
    if negb (valid_ g) then
      (panel_text f area 2 1 (str "waiting for the target's memory map") (i_dim st) (i_bg st) kAttrNone).1
    else
      let addr :=
        match regions with
        | Some m => match spans_ m with [] => coord | _ => default coord (to_addr m coord) end
        | None => coord
        end in
      let d := current ins in
      let have := negb (bool_decide (d_status d = Unallocated)) in
      let fd := (f, 1) in
      let fd := inspector_field st area fd (str "Address") (line_192 (hex16 (if have then d_addr d else addr)))
                  (if have then i_ink st else i_dim st) true in
      if negb have then
        let '(f, dy) := inspector_field st area fd (str "Status") (chunk_status_str Unallocated) (i_dim st) false in
        let f := (panel_text f area 2 dy (str "address space the target has not used") (i_dim st) (i_bg st) kAttrNone).1 in
        (panel_text f area 2 (dy + 1) (str "n / N find the next occupied cell") (i_dim st) (i_bg st) kAttrNone).1
      else
        let '(f, _) := draw_chunk_rows ins area d now_ms fd in
        match crowd_label ins area with
        | Some line => (panel_text_right f area 1 line (i_accent st) (i_bg st) kAttrNone).1
        | None => f
        end.
