(* ===== verification/InspectorProofs.v ===== *)
(** * The inspector's scan and panel (theorems about Inspector)

    The bounded list holds the largest chunks of the cell; the selection
    survives a rescan; the panel stays in its area. *)

From S2P Require Import Prelude ChunkTable RegionMap Grid HeatMap Cursor.
From S2P Require Import Framebuffer Panel Theme HeatColor Inspector.

(** ** The bounded list *)
Lemma min_from_spec l : forall best bs i all,
  (forall k d, l !! k = Some d -> all !! (i + k)%nat = Some d) ->
  (i + length l = length all)%nat -> (best < i)%nat ->
  (exists b, all !! best = Some b /\ d_size b = bs) ->
  (forall k d, (k < i)%nat -> all !! k = Some d -> bs <= d_size d) ->
  exists m, all !! min_from best bs i l = Some m /\ forall k d, all !! k = Some d -> d_size m <= d_size d.
Proof.
  induction l as [|d l IH]; intros best bs i all Hl Hlen Hb (b & Hbb & Hbs) Hmin; cbn [min_from].
  - exists b. split; [done|]. intros k d Hk. rewrite Hbs. apply (Hmin k); [|done]. apply lookup_lt_Some in Hk.
    cbn in Hlen. lia.
  - assert (all !! i = Some d) as Hi by (rewrite <- (Hl 0%nat d eq_refl); f_equal; lia).
    assert (forall k d', l !! k = Some d' -> all !! (S i + k)%nat = Some d') as Hl'
      by (intros k d' Hk; rewrite <- (Hl (S k) d' Hk); f_equal; lia).
    cbn [length] in Hlen. destruct (Z.ltb_spec (d_size d) bs).
    + apply IH; [done|lia|lia|by exists d|]. intros k d' Hk Hkd.
      destruct (decide (k = i)) as [->|]; [by simplify_eq|]. specialize (Hmin k d' ltac:(lia) Hkd). lia.
    + apply IH; [done|lia|lia|by exists b|]. intros k d' Hk Hkd.
      destruct (decide (k = i)) as [->|]; [simplify_eq; lia|]. apply (Hmin k); [lia|done].
Qed.

Lemma min_element_spec l : l <> [] ->
  exists m, l !! min_element l = Some m /\ forall d, d ∈ l -> d_size m <= d_size d.
Proof.
  destruct l as [|d l]; [done|]. intros _. cbn [min_element].
  destruct (min_from_spec l 0 (d_size d) 1 (d :: l)) as (m & Hm & Hall).
  - done.
  - done.
  - lia.
  - by exists d.
  - intros [|k] d' Hk Hd; [cbn in Hd; simplify_eq; lia|lia].
  - exists m. split; [done|]. intros d' [k Hk]%list_elem_of_lookup. by apply (Hall k).
Qed.

(** [found] holds the [K] largest of [all]. *)
Record top_of (all found : list ChunkDetail) : Prop := {
  tp_perm : exists rest, found ++ rest ≡ₚ all /\ forall d r, d ∈ found -> r ∈ rest -> d_size r <= d_size d;
  tp_len : Z.of_nat (length found) = Z.min kInspectorCandidates (Z.of_nat (length all))
}.

Lemma elem_of_insert_inv {A} (l : list A) i (d x : A) : x ∈ <[i := d]> l -> x = d \/ x ∈ l.
Proof.
  intros [k Hk]%list_elem_of_lookup. apply list_lookup_insert_Some in Hk as [(_ & <- & _)|[_ Hk]]; [by left|].
  right. by apply list_elem_of_lookup_2 in Hk.
Qed.

Lemma keep_largest_top all found d : top_of all found -> top_of (all ++ [d]) (keep_largest found d).
Proof.
  intros [(rest & Hp & Hle) Hlen]. pose proof (Permutation_length Hp) as Hpl. rewrite length_app in Hpl.
  unfold keep_largest. unfold kInspectorCandidates in *.
  destruct (Z.ltb_spec (Z.of_nat (length found)) 64) as [Hroom|Hfull].
  - assert (rest = []) as ->.
    { destruct rest; [done|]. cbn [length] in Hpl. lia. }
    cbn [length] in Hpl. split; [|rewrite !length_app; cbn [length]; unfold kInspectorCandidates; lia]. exists []. split; [|by intros ? ? ? ?%elem_of_nil].
    rewrite app_nil_r in *. by rewrite Hp.
  - destruct (min_element_spec found) as (m & Hm & Hmin); [by intros ->|]. rewrite Hm.
    pose proof (insert_perm found (min_element found) m d Hm) as Hswap.
    destruct (Z.ltb_spec (d_size m) (d_size d)) as [Hlt|Hge].
    + split; [|rewrite length_insert, length_app; cbn [length]; unfold kInspectorCandidates; lia]. exists (m :: rest). split.
      * rewrite <- Permutation_middle, app_comm_cons, Hswap, <- Hp. solve_Permutation.
      * intros x r Hx [->|Hr]%elem_of_cons.
        -- apply elem_of_insert_inv in Hx as [->|Hx]; [lia|by apply Hmin].
        -- assert (d_size r <= d_size m) by (apply Hle; [by apply list_elem_of_lookup_2 with (min_element found)|done]).
           apply elem_of_insert_inv in Hx as [->|Hx]; [lia|]. specialize (Hmin x Hx). lia.
    + split; [|rewrite length_app; cbn [length]; unfold kInspectorCandidates; lia]. exists (d :: rest). split.
      * rewrite <- Hp. solve_Permutation.
      * intros x r Hx [->|Hr]%elem_of_cons; [|by apply Hle]. specialize (Hmin x Hx). lia.
Qed.

(** ** The scan *)

Section Scan.
Context (map : HeatMap) (cell : Z).

(** The details of the chunks of the cell, in the order of the table. *)
Definition cell_details (l : list Chunk) : list ChunkDetail :=
  detail_of <$> filter (fun c => in_this_cell map cell c = true) l.

Lemma scan_spec l :
  let st := foldl (scan_slot map cell) ([], 0) l in
  top_of (cell_details l) st.1 /\ st.2 = u64 (Z.of_nat (length (cell_details l))).
Proof.
  cbv zeta. induction l as [|c l [IH1 IH2]] using rev_ind.
  { split; [|done]. split; [exists []; split; [done|by intros ? ? ?%elem_of_nil]|done]. }
  rewrite foldl_app. cbn [foldl]. unfold cell_details. rewrite filter_snoc, fmap_app. fold (cell_details l).
  unfold scan_slot at 1 3. destruct (in_this_cell map cell c) eqn:E.
  - rewrite decide_True by done. cbn [fst snd fmap list_fmap]. split; [by apply keep_largest_top|].
    rewrite IH2, u64_add_l, length_app. cbn [length]. f_equal. lia.
  - rewrite decide_False by congruence. cbn [fmap list_fmap]. rewrite app_nil_r. done.
Qed.
End Scan.

#[export] Instance detail_before_total : Total detail_before.
Proof. intros a b. unfold detail_before. lia. Qed.
#[export] Instance detail_before_trans : Transitive detail_before.
Proof. intros a b c. unfold detail_before. lia. Qed.

Lemma top_of_perm all found found' : found ≡ₚ found' -> top_of all found -> top_of all found'.
Proof.
  intros Hp [(rest & Hr & Hle) Hlen]. split; [|by rewrite <- Hp].
  exists rest. rewrite <- Hp. split; [done|]. intros d r Hd. apply Hle. by rewrite Hp.
Qed.

Lemma find_addr_spec addr l : forall i,
  match find_addr addr l i with
  | Some k => exists d, (i <= k)%nat /\ l !! (k - i)%nat = Some d /\ d_addr d = addr
  | None => forall d, d ∈ l -> d_addr d <> addr
  end.
Proof.
  induction l as [|d l IH]; intros i; cbn [find_addr]; [by intros d ?%elem_of_nil|].
  destruct (Z.eqb_spec (d_addr d) addr).
  - exists d. split; [lia|]. by rewrite Nat.sub_diag.
  - specialize (IH (S i)). destruct (find_addr addr l (S i)) as [k|].
    + destruct IH as (d' & Hk & Hl & Ha). exists d'. split; [lia|]. split; [|done].
      by replace (k - i)%nat with (S (k - S i)) by lia.
    + intros d' [->|Hd]%elem_of_cons; [done|by apply IH].
Qed.

(** The inspector shows the right chunks.  A scan counts exactly the records
    of the table, live or freed, whose address falls in the cell; the list it
    keeps holds the 64 largest of them (all, when there are fewer), largest
    first and equal sizes by address, so what it shows does not depend on the
    order of the hash table; the position is always inside the list; and a
    chunk selected before stays selected while it is in the list. *)
Theorem rescan_exact ins t map cell :
  let ins' := rescan ins t map cell in
  let all := cell_details map cell (slots_ t) in
  in_total ins' = u64 (Z.of_nat (length all)) /\
  top_of all (in_found ins') /\ StronglySorted detail_before (in_found ins') /\
  (in_found ins' <> [] -> (in_pos ins' < length (in_found ins'))%nat /\
     in_selected ins' = d_addr (current ins')) /\
  (forall d, d ∈ in_found ins' -> in_selected ins = d_addr d -> d_addr d <> 0 ->
     d_addr (current ins') = d_addr d).
Proof.
  cbv zeta. unfold rescan. destruct (scan_spec map cell (slots_ t)) as [Htop Htot].
  destruct (foldl _ _ _) as [found total]. cbn [fst snd] in *.
  pose proof (merge_sort_Permutation detail_before found) as Hp. set (l := merge_sort detail_before found) in *.
  assert (StronglySorted detail_before l) as Hs by apply (StronglySorted_merge_sort _).
  unfold current. cbn [in_total in_found in_pos in_selected]. clearbody l.
  set (pos := if in_selected ins =? 0 then 0%nat else default 0%nat (find_addr (in_selected ins) l 0)).
  assert (l <> [] -> (pos < length l)%nat) as Hpos.
  { intros Hl. assert (0 < length l)%nat by (destruct l; [done|cbn; lia]). subst pos.
    destruct (_ =? 0); [done|]. pose proof (find_addr_spec (in_selected ins) l 0) as Hf.
    destruct (find_addr _ l 0) as [k|]; [|done]. destruct Hf as (d & _ & Hk & _). apply lookup_lt_Some in Hk. cbn. lia. }
  split; [done|]. split; [by apply (top_of_perm _ found)|]. split; [done|]. split.
  - intros Hl. specialize (Hpos Hl). split; [done|]. destruct (lookup_lt_is_Some_2 l pos Hpos) as [d Hd].
    rewrite Hd. cbn [default from_option]. rewrite (list_lookup_total_correct _ _ _ Hd). by destruct l.
  - intros d Hd Hsel Hne. subst pos. destruct (Z.eqb_spec (in_selected ins) 0); [congruence|].
    pose proof (find_addr_spec (in_selected ins) l 0) as Hf. destruct (find_addr _ l 0) as [k|].
    + destruct Hf as (d' & _ & Hk & Ha). rewrite Nat.sub_0_r in Hk. change (default 0%nat (Some k)) with k. rewrite Hk. cbn. congruence.
    + exfalso. by apply (Hf d Hd).
Qed.

(** ** The panel *)
Lemma inspector_field_confined st area f dy label value colour numeric :
  fb_ok f -> confined (in_rect area) f (inspector_field st area (f, dy) label value colour numeric).1.
Proof. intros Hok. unfold inspector_field. cbn [fst]. destruct numeric; drawn. Qed.
#[export] Hint Resolve inspector_field_confined : drawing.

Lemma draw_chunk_rows_confined ins area d now f dy :
  fb_ok f -> confined (in_rect area) f (draw_chunk_rows ins area d now (f, dy)).1.
Proof.
  intros Hok. unfold draw_chunk_rows.
  repeat match goal with
  | H : fb_ok ?g |- context [inspector_field ?st ?a (?g, ?k) ?l ?v ?c ?n] =>
      let Hc := fresh in
      pose proof (inspector_field_confined st a g k l v c n H) as Hc;
      destruct (inspector_field st a (g, k) l v c n); cbn [fst] in Hc |- *;
      eapply confined_step; [exact Hc|]; clear Hc H; intros ?
  end.
  by apply confined_refl.
Qed.
#[export] Hint Resolve draw_chunk_rows_confined : drawing.

Lemma draw_inspector_confined ins f area g coord regions now :
  fb_ok f -> confined (in_rect area) f (draw_inspector ins f area g coord regions now).
Proof.
  intros Hok. unfold draw_inspector. destruct (_ || _); [drawn|]. destruct (negb (valid_ g)); [drawn|]. cbv zeta.
  set (f1 := panel_rule _ _ _ _ _ _). assert (confined (in_rect area) f f1) as H1 by drawn. clearbody f1.
  eapply confined_step; [exact H1|]. clear H1 Hok f. intros Hok1.
  match goal with |- context [inspector_field ?s ?a (f1, 1) ?l ?v ?c ?n] =>
    pose proof (inspector_field_confined s a f1 1 l v c n Hok1) as H2; destruct (inspector_field s a (f1, 1) l v c n) as [f2 d2] end.
  eapply confined_step; [exact H2|]. clear H2 Hok1 f1. intros Hok2.
  cbn [fst] in Hok2. destruct (negb (negb _)).
  - match goal with |- context [inspector_field ?s ?a (f2, d2) ?l ?v ?c ?n] =>
      pose proof (inspector_field_confined s a f2 d2 l v c n Hok2) as H3; destruct (inspector_field s a (f2, d2) l v c n) as [f3 d3] end.
    eapply confined_step; [exact H3|]. clear H3 Hok2 f2. cbn [fst]. intros Hok3. drawn.
  - pose proof (draw_chunk_rows_confined ins area (current ins) now f2 d2 Hok2) as H3.
    destruct (draw_chunk_rows _ _ _ _ _) as [f3 d3]. eapply confined_step; [exact H3|]. clear H3 Hok2 f2. cbn [fst]. intros Hok3.
    destruct (crowd_label ins area); drawn.
Qed.
#[export] Hint Resolve draw_inspector_confined : drawing.

(** ** The count and the address share a row *)
Lemma code_points_ascii s : Forall (fun c => 0 <= c < 128) s -> code_points s = s.
Proof.
  unfold code_points. induction 1 as [|c s Hc _ IH]; [done|]. cbn [length decode_all].
  assert (utf8_decode (c :: s) = (c, 1)) as ->.
  { unfold utf8_decode. destruct (Z.ltb_spec c 0x80); [done|lia]. }
  change (drop (Z.to_nat 1) (c :: s)) with s. by rewrite IH.
Qed.

Definition ascii_text (s : list Z) : Prop := Forall (fun c => 0 <= c < 128) s.
#[export] Instance ascii_text_dec s : Decision (ascii_text s).
Proof. unfold ascii_text. apply _. Defined.

Lemma dec_ascii v : 0 <= v -> ascii_text (dec v).
Proof.
  intros Hv. eapply Forall_impl; [by apply dec_string_digits|]. cbn. unfold is_digit. intros c Hc. bprop. lia.
Qed.

(** The label ends in the word the next theorem points at. *)
Definition ends_in_tab (s : list Z) : Prop := exists p, s = p ++ [84; 97; 98; 32] /\ ascii_text p.

Lemma ends_in_tab_app a s : ascii_text a -> ends_in_tab s -> ends_in_tab (a ++ s).
Proof. intros Ha (p & -> & Hp). exists (a ++ p). split; [by rewrite app_assoc|by apply Forall_app]. Qed.

Ltac ascii_lit := apply (bool_decide_unpack _); vm_compute; exact I.

Lemma ends_in_tab_literal s : ascii_text s -> drop (length s - 4) s = [84; 97; 98; 32] -> ends_in_tab s.
Proof. intros Ha Hd. exists (take (length s - 4) s). rewrite <- Hd, take_drop. split; [done|by apply Forall_take]. Qed.

Lemma crowd_label_shape ins area line : crowd_label ins area = Some line ->
  ends_in_tab line /\ kAddressEndCol < rw area - Z.of_nat (length line).
Proof.
  unfold crowd_label. destruct (Z.leb_spec (in_total ins) 1); [done|].
  set (here := dec (Z.of_nat (in_pos ins) + 1)). set (n := Z.of_nat (List.length (in_found ins))).
  pose proof (dec_ascii (Z.of_nat (in_pos ins) + 1) ltac:(lia)) as Ah. pose proof (dec_string_length 20 (Z.of_nat (in_pos ins) + 1)) as Lh.
  pose proof (dec_ascii (in_total ins) ltac:(lia)) as At. pose proof (dec_string_length 20 (in_total ins)) as Lt.
  pose proof (dec_ascii n ltac:(lia)) as An. pose proof (dec_string_length 20 n) as Ln.
  fold (dec (Z.of_nat (in_pos ins) + 1)) (dec (in_total ins)) (dec n) in *. fold here in Ah, Lh.
  set (t := dec (in_total ins)) in *. set (k := dec n) in *. clearbody here t k.
  assert (forall s, ends_in_tab s -> (length s <= 191)%nat -> line_192 s = s) as Hl
    by (intros s _ Hs; unfold line_192, snprintf; cbn [fst]; by rewrite take_ge).
  assert (forall s, ends_in_tab s -> (length s <= 191)%nat ->
    kAddressEndCol < rw area - Z.of_nat (length (line_192 s)) -> Some (line_192 s) = Some line ->
    ends_in_tab line /\ kAddressEndCol < rw area - Z.of_nat (length line)) as Hdone.
  { intros s He Hs Hw [= <-]. rewrite Hl in * by done. done. }
  match goal with |- context [if n <? in_total ins then line_192 ?a else line_192 ?b] =>
    assert (ends_in_tab a /\ (length a <= 191)%nat) as [Ea La];
    [|assert (ends_in_tab b /\ (length b <= 191)%nat) as [Eb Lb]; [|set (wa := a) in *; set (wb := b) in *; clearbody wa wb]] end.
  1,2: split; [|rewrite !length_app; cbn [str length]; str_lengths; lia].
  1,2: repeat first [apply ends_in_tab_app; [first [assumption|ascii_lit]|]].
  1,2: apply ends_in_tab_literal; [ascii_lit|by vm_compute].
  match goal with |- context [line_192 (_ ++ here ++ _ ++ t ++ ?z)] =>
    set (wc := _ ++ here ++ _ ++ t ++ z) end.
  assert (ends_in_tab wc /\ (length wc <= 191)%nat) as [Ec Lc].
  { subst wc. split; [|rewrite !length_app; str_lengths; lia].
    repeat first [apply ends_in_tab_app; [first [assumption|ascii_lit]|]]. apply ends_in_tab_literal; [ascii_lit|by vm_compute]. }
  clearbody wc. destruct (n <? in_total ins).
  1: destruct (Z.leb_spec (rw area - Z.of_nat (length (line_192 wa))) kAddressEndCol); [|by apply Hdone].
  2: destruct (Z.leb_spec (rw area - Z.of_nat (length (line_192 wb))) kAddressEndCol); [|by apply Hdone].
  all: destruct (Z.leb_spec (rw area - Z.of_nat (length (line_192 wc))) kAddressEndCol); [done|by apply Hdone].
Qed.

(** In a crowded cell the panel overwrites its own address.  The address is
    printed right-aligned on the panel's first row, and so is the count of the
    chunks that share the cell: whenever the count is drawn, the T of its Tab
    stands in the column of the address's second last hexadecimal digit. *)
Theorem crowd_count_hides_address ins f area g coord regions now line :
  fb_ok f -> valid_ g = true -> d_status (current ins) <> Unallocated ->
  crowd_label ins area = Some line -> 1 < rh area ->
  on_grid f (rx area + rw area - 4) (ry area + 1) ->
  let addr := hex16 (d_addr (current ins)) in
  (* where [panel_numeric_right] puts character [i] of the address *)
  let column i := rx area + rw area - 2 - Z.of_nat (length addr) + i in
  column 16 = rx area + rw area - 4 /\
  glyph (at_back (draw_inspector ins f area g coord regions now) (column 16) (ry area + 1)) = 84.
Proof.
  intros Hok Hg Hst Hc Hh Hon addr column.
  assert (column 16 = rx area + rw area - 4) as Ecol
    by (unfold column; assert (length addr = 18%nat) as -> by (unfold addr, hex16; by rewrite length_app, length_fmap); lia).
  split; [done|]. rewrite Ecol. destruct (crowd_label_shape _ _ _ Hc) as [(p & El & Hp) Hw].
  assert (0 < rw area) as Hrw by (unfold kAddressEndCol, kInspectorValueCol in Hw; lia).
  unfold draw_inspector. destruct (Z.leb_spec (rw area) 0); [lia|]. destruct (Z.leb_spec (rh area) 0); [lia|].
  cbn [orb]. rewrite Hg, Hc. cbn [negb]. rewrite bool_decide_false by done. cbn [negb].
  set (f1 := panel_rule _ _ _ _ _ _). assert (confined (in_rect area) f f1) as H1 by drawn. clearbody f1.
  match goal with |- context [inspector_field ?s ?a (f1, 1) ?l ?v ?c ?n] =>
    pose proof (inspector_field_confined s a f1 1 l v c n (confined_ok _ _ _ H1)) as H2;
    destruct (inspector_field s a (f1, 1) l v c n) as [f2 d2] end.
  pose proof (draw_chunk_rows_confined ins area (current ins) now f2 d2 (confined_ok _ _ _ H2)) as H3.
  destruct (draw_chunk_rows _ _ _ _ _) as [f3 d3]. cbn [fst] in *.
  pose proof (confined_trans _ _ _ _ H1 (confined_trans _ _ _ _ H2 H3)) as Hcf. clear H1 H2 H3.
  pose proof (confined_ok _ _ _ Hcf) as Hok3. apply (on_grid_same _ _ _ _ (cf_same _ _ _ Hcf)) in Hon. clear Hcf.
  assert (length line = (length p + 4)%nat) as Hll by (rewrite El, length_app; done).
  assert (ascii_text line) as Hal by (rewrite El; apply Forall_app; split; [done|ascii_lit]).
  unfold panel_text_right. destruct (Z.leb_spec (rw area) 0); [lia|]. destruct (Z.leb_spec (rh area) 0); [lia|]. cbn [orb].
  destruct (Z.leb_spec (rh area) 1); [lia|]. change (1 <? 0) with false. cbn [orb].
  unfold kAddressEndCol, kInspectorValueCol in Hw. destruct (Z.ltb_spec (rw area) (Z.of_nat (length line))); [lia|].
  destruct Hon as [Hx Hy]. set (x := rx area + (rw area - Z.of_nat (length line))).
  pose proof (text_exact f3 x (ry area + 1) line (i_accent (in_style ins)) (i_bg (in_style ins)) kAttrNone Hok3 Hy ltac:(lia)) as Ht.
  destruct (text _ _ _ _ _ _ _) as [f4 n4]. destruct Ht as (_ & Hat & _). cbn [fst].
  rewrite Hat by done. rewrite code_points_ascii by done. rewrite decide_True by (subst x; lia). cbn [glyph].
  replace (Z.to_nat (rx area + rw area - 4 - x)) with (length p) by (subst x; lia). rewrite El.
  rewrite list_lookup_total_middle; done.
Qed.

Definition crowded : ChunkInspector :=
  mkInspector default_inspector_style false
    [mkDetail 0x55550000a2c0 64 72 16 5 0 1 Active false; mkDetail 0x55550000a310 24 24 8 9 0 1 Active true]
    2 0 3 0 0x55550000a2c0 1.
Definition panel_fb : Framebuffer := (resize new_fb 96 24).1.
Lemma panel_fb_ok : fb_ok panel_fb.
Proof. apply resize_ok, new_fb_ok. Qed.
Lemma panel_fb_on x y : 0 <= x < 96 -> 0 <= y < 24 -> on_grid panel_fb x y.
Proof. by split. Qed.

Lemma crowd_count_hides_address_witness :
  glyph (at_back (draw_inspector crowded panel_fb (mkRect 0 16 60 7) (Grid.configure 4096 69632 80 20).1 4096 None 50) 56 17) = 84.
Proof.
  assert (crowd_label crowded (mkRect 0 16 60 7) =
    Some [32; 49; 32; 111; 102; 32; 50; 32; 105; 110; 32; 116; 104; 105; 115; 32; 99; 101; 108; 108; 32; 45; 32; 84; 97; 98; 32])
    as Hc by by vm_compute.
  exact (proj2 (crowd_count_hides_address crowded panel_fb (mkRect 0 16 60 7) (Grid.configure 4096 69632 80 20).1 4096 None 50 _
    panel_fb_ok eq_refl ltac:(discriminate) Hc eq_refl (panel_fb_on 56 17 ltac:(lia) ltac:(lia)))).
Defined.
