(* ===== verification/Session.v ===== *)
(** * Attaching to a target (src/src/tui/session.h, session.cpp)

    The consumer's end of the shared ring: polling for a segment, checking its
    header, claiming the read cursor, releasing it; the target's name; and the
    clean-up of the target's last line of output.  System calls enter as what
    they answer.  Launching a target is in Launch.v. *)

From Stdlib Require Import String.
From S2P Require Import Prelude Abi Ring.

Definition kAttachTimeoutMs : Z := 3000.
Definition kProbeTimeoutMs : Z := 500.
Definition kPollIntervalMs : Z := 5.
Definition ESRCH_ : Z := 3.
Definition ECHILD : Z := 10.

Inductive AttachStatus := AtOk | AtNoSegment | AtTargetGone | AtAbiMismatch | AtAlreadyWatched | AtMapFailed.
#[export] Instance AttachStatus_eq_dec : EqDecision AttachStatus.
Proof. solve_decision. Defined.

Definition attach_status_str (s : AttachStatus) : list Z :=
  match s with
  | AtOk => str "attached"
  | AtNoSegment => str "target is not running libheapviz.so"
  | AtTargetGone => str "target exited before it could be attached to"
  | AtAbiMismatch => str "target was built against a different heapviz ABI"
  | AtAlreadyWatched => str "target is already being watched by another heapviz"
  | AtMapFailed => str "could not map the target's shared memory"
  end.

(** [kill(pid, 0)] and [waitpid(pid, WNOHANG)]: an error number, or the answer. *)
Definition process_alive (kill : Z -> option Z) (pid : Z) : bool :=
  if pid <=? 0 then false
  else match kill pid with None => true | Some errno => negb (errno =? ESRCH_) end.

Definition reap_if_exited (waitpid : Z -> Z + Z) (pid : Z) : bool :=
  if pid <=? 0 then false
  else match waitpid pid with inl r => r =? pid | inr errno => errno =? ECHILD end.

(** ** The session *)

(** [ss_ring] is the mapping, null when there is none: the shared ring as it
    stands. *)
Record RingSession := mkSession {
  ss_ring : option Ring;
  ss_bytes : Z;
  ss_pid : Z;
  ss_other_consumer : Z;
  ss_target_abi : Z;
  ss_comm : list Z
}.
Definition new_session : RingSession := mkSession None 0 0 0 0 [].
Definition attached (s : RingSession) : bool := is_some (ss_ring s).

(** A C string ends at the first NUL. *)
Fixpoint c_str (l : list Z) : list Z :=
  match l with [] => [] | c :: l => if c =? 0 then [] else c :: c_str l end.

(** Returns the released ring too, whose mapping is gone. *)
Definition detach (s : RingSession) (me : Z) (spurious : bool) : RingSession * option Ring :=
  match ss_ring s with
  | None => (s, None)
  | Some r => (mkSession None 0 (ss_pid s) (ss_other_consumer s) (ss_target_abi s) [], Some (hv_ring_release r me spurious))
  end.

(** What one turn of the polling loop sees. *)
Inductive Poll :=
  | PollMissing (alive : bool)                 (* no segment; is the process there? *)
  | PollUnmappable                             (* the header cannot be mapped *)
  | PollUnready                                (* the magic is not published yet *)
  | PollReady (hdr : HvRingHeader)             (* a published header, *)
      (full : option Ring)                     (* the whole mapping, if it succeeds, *)
      (spurious : list bool).                  (* and the CAS outcomes of the claim *)

Definition set_abi (s : RingSession) (v : Z) : RingSession :=
  mkSession (ss_ring s) (ss_bytes s) (ss_pid s) (ss_other_consumer s) v (ss_comm s).
Definition set_comm (s : RingSession) (c : list Z) : RingSession :=
  mkSession (ss_ring s) (ss_bytes s) (ss_pid s) (ss_other_consumer s) (ss_target_abi s) c.

(** The part of a turn after the magic has been seen. *)
Definition attach_ready (s : RingSession) (pid me page : Z) (hdr : HvRingHeader) (full : option Ring) (spurious : list bool)
    : RingSession * AttachStatus :=
  if negb (h_abi_version hdr =? HEAPVIZ_ABI_VERSION) || negb (h_event_size hdr =? sizeof_HvEvent)
  then (set_abi s (h_abi_version hdr), AtAbiMismatch)
  else
    let s := set_comm s (c_str (h_comm hdr)) in
    let bytes := hv_mapping_size (h_capacity hdr) page in
    match full with
    | None => (s, AtMapFailed)
    | Some ring =>
        let '(ring, owner) := hv_ring_claim ring me spurious in
        match owner with
        | Some owner =>
            (mkSession (ss_ring s) (ss_bytes s) (ss_pid s) owner (ss_target_abi s) (ss_comm s), AtAlreadyWatched)
        | None => (mkSession (Some ring) bytes pid (ss_other_consumer s) (ss_target_abi s) (ss_comm s), AtOk)
        end
    end.

(** The loop; [polls] lists what each turn will see.  [None] when the list is
    too short to decide; the number counts the turns. *)
Fixpoint attach_loop (s : RingSession) (pid me page timeout waited : Z) (polls : list Poll)
    : option (RingSession * AttachStatus * nat) :=
  match polls with
  | [] => None
  | p :: polls =>
      let again :=
        match attach_loop s pid me page timeout (waited + kPollIntervalMs) polls with
        | Some (s, st, n) => Some (s, st, S n)
        | None => None
        end in
      match p with
      | PollMissing alive =>
          if negb alive then Some (s, AtTargetGone, 1%nat)
          else if timeout <=? waited then Some (s, AtNoSegment, 1%nat)
          else again
      | PollUnmappable => Some (s, AtMapFailed, 1%nat)
      | PollUnready => if timeout <=? waited then Some (s, AtNoSegment, 1%nat) else again
      | PollReady hdr full spurious => let '(s, st) := attach_ready s pid me page hdr full spurious in Some (s, st, 1%nat)
      end
  end.

Definition attach (s : RingSession) (pid me page timeout : Z) (release_fails : bool) (polls : list Poll)
    : option (RingSession * AttachStatus * nat) :=
  attach_loop (detach s me release_fails).1 pid me page timeout 0 polls.

(** [comm] is what the read of /proc/<pid>/comm gave: [None] for a failed open
    or an empty read, at most sixteen bytes otherwise. *)
Fixpoint cut_newline (l : list Z) : list Z :=
  match l with [] => [] | c :: l => if c =? 10 then [] else c :: cut_newline l end.
Definition observe (s : RingSession) (pid : Z) (comm : option (list Z)) : RingSession :=
  mkSession (ss_ring s) (ss_bytes s) pid (ss_other_consumer s) (ss_target_abi s)
    (match comm with None => [] | Some c => c_str (cut_newline (take 16 c)) end).

(** ** Ring telemetry *)
Definition set_ring (s : RingSession) (r : Ring) : RingSession :=
  mkSession (Some r) (ss_bytes s) (ss_pid s) (ss_other_consumer s) (ss_target_abi s) (ss_comm s).
Definition drain (s : RingSession) (max : Z) : RingSession * list HvEvent :=
  match ss_ring s with
  | None => (s, [])
  | Some r =>
      if max =? 0 then (s, [])
      else let '(r, out) := hv_ring_drain r (Z.to_nat max) in (set_ring s r, out)
  end.
Definition session_capacity (s : RingSession) : Z :=
  match ss_ring s with None => 0 | Some r => h_capacity (r_hdr r) end.
Definition session_queued (s : RingSession) : Z :=
  match ss_ring s with None => 0 | Some r => h_head (r_hdr r) ⊟ h_tail (r_hdr r) end.
Definition session_dropped (s : RingSession) : Z :=
  match ss_ring s with None => 0 | Some r => h_dropped (r_hdr r) end.
Definition session_total_events (s : RingSession) : Z :=
  match ss_ring s with None => 0 | Some r => h_total_events (r_hdr r) end.
Definition producer_exited (s : RingSession) : bool :=
  match ss_ring s with None => false | Some r => negb (h_producer_exited (r_hdr r) =? 0) end.

(** ** Where the interceptor is *)

(** What [stat] makes of a path: whether it is a regular file, or nothing. *)
Definition file_exists (stat : list Z -> option bool) (path : list Z) : bool :=
  match path with [] => false | _ => default false (stat path) end.

(** The path up to its last slash. *)
Fixpoint up_to_slash (path : list Z) : option (list Z) :=
  match path with
  | [] => None
  | c :: rest =>
      match up_to_slash rest with
      | Some dir => Some (c :: dir)
      | None => if c =? 47 then Some [] else None
      end
  end.

(** [link]: the path /proc/self/exe points to, of which [readlink] gives at most
    4095 bytes. *)
Definition exe_dir (link : option (list Z)) : list Z :=
  match link with
  | None => []
  | Some target => default [] (up_to_slash (take 4095 target))
  end.

(** The environment variable, the directory of the running binary and which
    files exist. *)
Definition find_preload (env : option (list Z)) (dir : list Z) (file_exists : list Z -> bool) : list Z :=
  match env with
  | Some ((_ :: _) as e) => e
  | _ =>
      match dir with
      | [] => []
      | _ =>
          let beside := dir ++ str "/libheapviz.so" in
          let installed := dir ++ str "/../lib/libheapviz.so" in
          if file_exists beside then beside else if file_exists installed then installed else []
      end
  end.

(** ** The target's last words *)

Definition kMaxOutputLine : Z := 200.
Definition kTail : Z := 4096.

(** [while (back is \n or \r) remove_suffix(1)], on the reversed text. *)
Fixpoint drop_newlines (rev_text : list Z) : list Z :=
  match rev_text with
  | c :: l => if (c =? 10) || (c =? 13) then drop_newlines l else rev_text
  | [] => []
  end.

(** The text after the last newline. *)
Definition last_line (text : list Z) : list Z := reverse (cut_newline (reverse text)).

(** Parameters of a CSI: skipped up to the final byte. *)
Fixpoint skip_params (text : list Z) : list Z :=
  match text with
  | c :: l => if c <? 0x40 then skip_params l else text
  | [] => []
  end.

(** The loop that drops escape sequences and control bytes; [fuel] bounds the
    turns, each of which consumes a byte. *)
Fixpoint strip_loop (fuel : nat) (text : list Z) : list Z :=
  match fuel, text with
  | S fuel, c :: l =>
      if c =? 0x1b then
        match l with
        | b :: l' =>
            if b =? 91 then strip_loop fuel (drop 1 (skip_params l')) else strip_loop fuel l'
        | [] => []
        end
      else if 0x20 <=? c then c :: strip_loop fuel l
      else strip_loop fuel l
  | _, _ => []
  end.

(** [file] is the content of the log, [None] when there is no path or it cannot
    be opened. *)
Definition last_output_line (file : option (list Z)) : list Z :=
  match file with
  | None => []
  | Some content =>
      let text := drop (List.length content - Z.to_nat kTail)%nat content in
      let text := reverse (drop_newlines (reverse text)) in
      let text := last_line text in
      let out := strip_loop (List.length text) text in
      take (Z.to_nat kMaxOutputLine) out
  end.

(** ** Attaching ends, and says what it saw *)

(** A turn that keeps polling. *)
Definition waiting (p : Poll) : Prop := p = PollMissing true \/ p = PollUnready.

(** The status the last turn calls for. *)
Definition verdict (p : Poll) : AttachStatus :=
  match p with
  | PollMissing alive => if alive then AtNoSegment else AtTargetGone
  | PollUnmappable => AtMapFailed
  | PollUnready => AtNoSegment
  | PollReady hdr full _ =>
      if negb (h_abi_version hdr =? HEAPVIZ_ABI_VERSION) || negb (h_event_size hdr =? sizeof_HvEvent) then AtAbiMismatch
      else match full with
           | None => AtMapFailed
           | Some r => if h_consumer_pid (r_hdr r) =? 0 then AtOk else AtAlreadyWatched
           end
  end.

Lemma up_to_slash_name (dir name : list Z) : Forall (fun c => c <> 47) name -> up_to_slash (dir ++ 47 :: name) = Some dir.
Proof.
  intros Hn. assert (up_to_slash name = None) as E.
  { induction Hn as [|c l Hc _ IH]; [done|]. cbn. rewrite IH. by apply Z.eqb_neq in Hc as ->. }
  induction dir as [|c dir IH]; cbn; [by rewrite E|]. by rewrite IH.
Qed.

(** The library is looked for beside the running program, then in the directory
    of libraries next to it, and nowhere else; a directory of that name is not
    taken for it. *)
Theorem preload_beside (stat : list Z -> option bool) (dir name : list Z) :
  Forall (fun c => c <> 47) name -> Z.of_nat (List.length (dir ++ 47 :: name)) <= 4095 -> dir <> [] ->
  let beside := dir ++ str "/libheapviz.so" in
  let installed := dir ++ str "/../lib/libheapviz.so" in
  find_preload None (exe_dir (Some (dir ++ 47 :: name))) (file_exists stat) =
    match stat beside, stat installed with
    | Some true, _ => beside
    | _, Some true => installed
    | _, _ => []
    end.
Proof.
  intros Hn Hl Hd beside installed. unfold exe_dir. rewrite take_ge by lia. rewrite up_to_slash_name by done.
  cbn [default]. destruct dir as [|c dir]; [done|]. unfold find_preload, file_exists. fold beside installed.
  change (id (c :: dir)) with (c :: dir). cbn iota. fold beside installed.
  change (match beside with [] => _ | _ => _ end) with (default false (stat beside)).
  change (match installed with [] => _ | _ => _ end) with (default false (stat installed)).
  by destruct (stat beside) as [[]|], (stat installed) as [[]|].
Qed.

Lemma claim_loop_outcome cur me sps :
  claim_loop cur me sps = if cur =? 0 then (me, None) else (cur, Some cur).
Proof.
  destruct (Z.eqb_spec cur 0) as [->|Hc].
  - induction sps as [|[] sps IH]; cbn; [done|exact IH|done].
  - unfold claim_loop, cas_weak. apply Z.eqb_neq in Hc. destruct sps; rewrite Hc; cbn; [done|]. by rewrite Hc.
Qed.

(** What a session is left as, whatever the outcome. *)
Definition session_of (s s' : RingSession) (st : AttachStatus) (pid me page : Z) (p : Poll) : Prop :=
  match st with
  | AtOk => exists hdr r sp, p = PollReady hdr (Some r) sp /\ h_consumer_pid (r_hdr r) = 0 /\
              ss_ring s' = Some (set_consumer r me) /\ ss_pid s' = pid /\
              ss_bytes s' = hv_mapping_size (h_capacity hdr) page /\ ss_comm s' = c_str (h_comm hdr)
  | AtAbiMismatch => attached s' = false /\ exists hdr full sp, p = PollReady hdr full sp /\ ss_target_abi s' = h_abi_version hdr
  | AtAlreadyWatched => attached s' = false /\
      exists hdr r sp, p = PollReady hdr (Some r) sp /\ ss_other_consumer s' = h_consumer_pid (r_hdr r) /\ ss_other_consumer s' <> 0
  | _ => attached s' = false
  end.

Lemma attached_iff s s' st pid me page p : session_of s s' st pid me page p -> (attached s' = true <-> st = AtOk).
Proof.
  destruct st; cbn.
  - intros (? & ? & ? & _ & _ & Hr & _). unfold attached. by rewrite Hr.
  - intros ->. done.
  - intros ->. done.
  - intros [-> _]. done.
  - intros [-> _]. done.
  - intros ->. done.
Qed.

Lemma attach_ready_spec s pid me page hdr full sp : ss_ring s = None ->
  let '(s', st) := attach_ready s pid me page hdr full sp in
  st = verdict (PollReady hdr full sp) /\ session_of s s' st pid me page (PollReady hdr full sp).
Proof.
  intros Hr. unfold attach_ready, verdict. destruct (_ || _) eqn:E.
  { split; [done|]. split; [by unfold attached, set_abi; cbn; rewrite Hr|]. by exists hdr, full, sp. }
  destruct full as [r|]; [|split; [done|by unfold session_of, attached, set_comm; cbn; rewrite Hr]].
  unfold hv_ring_claim. rewrite claim_loop_outcome. destruct (Z.eqb_spec (h_consumer_pid (r_hdr r)) 0) as [E0|E0].
  - split; [done|]. by exists hdr, r, sp.
  - split; [done|]. split; [by unfold attached; cbn; rewrite Hr|]. by exists hdr, r, sp.
Qed.

Lemma attach_loop_spec s pid me page timeout polls : forall waited,
  ss_ring s = None -> (0 < List.length polls)%nat -> timeout - waited <= kPollIntervalMs * (Z.of_nat (List.length polls) - 1) ->
  exists s' st n p, attach_loop s pid me page timeout waited polls = Some (s', st, n) /\
    polls !! (n - 1)%nat = Some p /\ (0 < n)%nat /\ Forall waiting (take (n - 1) polls) /\
    st = verdict p /\ session_of s s' st pid me page p /\
    (Z.of_nat n <= 1 \/ kPollIntervalMs * (Z.of_nat n - 2) < timeout - waited) /\
    (st = AtNoSegment -> timeout <= waited + kPollIntervalMs * (Z.of_nat n - 1)).
Proof.
  unfold kPollIntervalMs. induction polls as [|p polls IH]; intros waited Hr Hne Ht; [cbn in Hne; lia|].
  assert (forall s' st, st = verdict p -> session_of s s' st pid me page p -> (st = AtNoSegment -> timeout <= waited) ->
    exists s'' st' n q, Some (s', st, 1%nat) = Some (s'', st', n) /\ (p :: polls) !! (n - 1)%nat = Some q /\ (0 < n)%nat /\
    Forall waiting (take (n - 1) (p :: polls)) /\ st' = verdict q /\ session_of s s'' st' pid me page q /\
    (Z.of_nat n <= 1 \/ 5 * (Z.of_nat n - 2) < timeout - waited) /\
    (st' = AtNoSegment -> timeout <= waited + 5 * (Z.of_nat n - 1))) as Hstop.
  { intros s' st Hv Hs Hn. exists s', st, 1%nat, p. split; [done|]. split; [done|]. split; [lia|]. split; [constructor|].
    split; [done|]. split; [done|]. split; [by left|]. intros E. specialize (Hn E). lia. }
  assert (waited < timeout -> waiting p ->
    exists s' st n q, match attach_loop s pid me page timeout (waited + 5) polls with
      | Some (s, st, n) => Some (s, st, S n) | None => None end = Some (s', st, n) /\
    (p :: polls) !! (n - 1)%nat = Some q /\ (0 < n)%nat /\ Forall waiting (take (n - 1) (p :: polls)) /\
    st = verdict q /\ session_of s s' st pid me page q /\
    (Z.of_nat n <= 1 \/ 5 * (Z.of_nat n - 2) < timeout - waited) /\
    (st = AtNoSegment -> timeout <= waited + 5 * (Z.of_nat n - 1))) as Hagain.
  { intros Hlt Hw. cbn [List.length] in *. destruct (IH (waited + 5) Hr ltac:(lia) ltac:(lia)) as (s' & st & n & q & -> & Hq & Hn & Hf & Hv & Hs & Hb & Hno).
    exists s', st, (S n), q. split; [done|]. destruct n as [|n]; [lia|]. cbn [Nat.sub] in *. rewrite Nat.sub_0_r in *.
    split; [done|]. split; [lia|]. split; [cbn [take]; by constructor|]. split; [done|]. split; [done|].
    split; [right; lia|]. intros E. specialize (Hno E). lia. }
  cbn [attach_loop]. destruct p as [[]| | |hdr full sp]; cbn [negb].
  - destruct (Z.leb_spec timeout waited); [apply Hstop; by unfold session_of, attached; rewrite ?Hr|].
    apply Hagain; [done|by left].
  - apply Hstop; by unfold session_of, attached; rewrite ?Hr.
  - apply Hstop; by unfold session_of, attached; rewrite ?Hr.
  - destruct (Z.leb_spec timeout waited); [apply Hstop; by unfold session_of, attached; rewrite ?Hr|].
    apply Hagain; [done|by right].
  - pose proof (attach_ready_spec s pid me page hdr full sp Hr) as H. destruct (attach_ready _ _ _ _ _ _ _) as [s' st].
    destruct H as [Hv Hs]. apply Hstop; [done|done|]. rewrite Hv. cbn. repeat case_match; done.
Qed.

(** Attaching ends in time and says what it saw.  Whatever the system
    answers turn by turn, the loop stops after at most one turn more than the
    polling intervals that fit the timeout; it keeps waiting only while the
    process is alive without a segment or the header is unpublished, and gives
    up on those only once the timeout has run out; the status is the verdict on
    the last turn.  The session is attached exactly on success, and then holds
    the claim on a ring of the right ABI that nobody owned; a refusal names the
    other consumer or the foreign version. *)
Theorem attach_ends s pid me page timeout release_fails polls :
  (0 < List.length polls)%nat -> timeout <= kPollIntervalMs * (Z.of_nat (List.length polls) - 1) ->
  exists s' st n p,
    attach s pid me page timeout release_fails polls = Some (s', st, n) /\
    polls !! (n - 1)%nat = Some p /\ Forall waiting (take (n - 1) polls) /\ st = verdict p /\
    (attached s' = true <-> st = AtOk) /\ session_of s s' st pid me page p /\
    Z.of_nat n <= Z.max 0 ((timeout + 4) / kPollIntervalMs) + 1 /\
    (st = AtNoSegment -> timeout <= kPollIntervalMs * (Z.of_nat n - 1)).
Proof.
  intros Hne Ht. unfold attach.
  assert (ss_ring (detach s me release_fails).1 = None) as Hd by (unfold detach; by destruct (ss_ring s) eqn:E).
  destruct (attach_loop_spec _ pid me page timeout polls 0 Hd Hne ltac:(lia)) as (s' & st & n & p & E & Hp & Hn & Hf & Hv & Hs & Hb & Hno).
  exists s', st, n, p. split; [done|]. split; [done|]. split; [done|]. split; [done|].
  pose proof (attached_iff _ _ _ _ _ _ _ Hs) as Hat.
  split; [done|]. split; [done|]. split; [|intros Es; specialize (Hno Es); lia].
  unfold kPollIntervalMs in *. destruct Hb as [Hb|Hb]; [lia|]. Z.div_mod_to_equations; lia.
Qed.

Definition demo_polls : list Poll :=
  [PollMissing true; PollUnready; PollReady (fresh_header 3) (Some (fresh_ring 3)) [true]; PollUnready].
Lemma attach_ends_witness :
  (0 < List.length demo_polls)%nat /\ 12 <= kPollIntervalMs * (Z.of_nat (List.length demo_polls) - 1) /\
  exists s' st n p, attach new_session 42 7 4096 12 false demo_polls = Some (s', st, n) /\ st = verdict p /\
    (attached s' = true <-> st = AtOk).
Proof.
  assert (0 < List.length demo_polls)%nat as A by (vm_compute; lia).
  assert (12 <= kPollIntervalMs * (Z.of_nat (List.length demo_polls) - 1)) as B by (vm_compute; discriminate).
  split; [exact A|]. split; [exact B|].
  destruct (attach_ends new_session 42 7 4096 12 false demo_polls A B) as (s' & st & n & p & E & _ & _ & Hv & Hat & _).
  exists s', st, n, p. split; [exact E|]. split; [exact Hv|exact Hat].
Defined.

(** ** The last line is safe to print *)

Definition printable (c : Z) : Prop := 0x20 <= c /\ c <> 0x1b.

Lemma strip_loop_printable fuel : forall text, Forall printable (strip_loop fuel text).
Proof.
  induction fuel as [|fuel IH]; intros text; [constructor|]. destruct text as [|c l]; [constructor|]. cbn [strip_loop].
  destruct (Z.eqb_spec c 0x1b); [destruct l as [|b l]; [constructor|]; by case_match|].
  destruct (Z.leb_spec 0x20 c); [|done]. constructor; [by split|done].
Qed.

Lemma skip_params_length l : (List.length (skip_params l) <= List.length l)%nat.
Proof. induction l as [|c l IH]; cbn; [lia|]. destruct (c <? 0x40); cbn; lia. Qed.

(** Text without escapes passes through: only control bytes go. *)
Lemma strip_loop_plain fuel : forall text, (List.length text <= fuel)%nat -> Forall (fun c => c <> 0x1b) text ->
  strip_loop fuel text = List.filter (fun c => 0x20 <=? c) text.
Proof.
  induction fuel as [|fuel IH]; intros text Hl Hf; [destruct text; [done|cbn in Hl; lia]|].
  destruct text as [|c l]; [done|]. apply Forall_cons in Hf as [Hc Hf]. cbn [strip_loop List.filter].
  apply Z.eqb_neq in Hc. rewrite Hc. cbn in Hl. rewrite (IH l) by (done || lia). by case_match.
Qed.

(** The fuel given is enough: more changes nothing. *)
Lemma strip_loop_fuel f1 : forall f2 text, (List.length text <= f1)%nat -> (List.length text <= f2)%nat ->
  strip_loop f1 text = strip_loop f2 text.
Proof.
  induction f1 as [|f1 IH]; intros f2 text H1 H2; [destruct text; [by destruct f2|cbn in H1; lia]|].
  destruct text as [|c l]; [by destruct f2|]. destruct f2 as [|f2]; [cbn in H2; lia|]. cbn [strip_loop]. cbn in H1, H2.
  rewrite (IH f2 l) by lia. destruct (c =? 0x1b); [|done]. destruct l as [|b l]; [done|]. cbn in H1, H2.
  pose proof (skip_params_length l). destruct (b =? 91); apply IH; rewrite ?length_drop; lia.
Qed.

Lemma cut_newline_clean l : Forall (fun c => c <> 10) (cut_newline l).
Proof. induction l as [|c l IH]; cbn; [constructor|]. destruct (Z.eqb_spec c 10); by constructor. Qed.

Lemma cut_newline_sub l : (List.length (cut_newline l) <= List.length l)%nat.
Proof. induction l as [|c l IH]; cbn; [lia|]. case_match; cbn; lia. Qed.

(** The last line of [text]: what follows its last newline. *)
Definition line_of (text line : list Z) : Prop :=
  Forall (fun c => c <> 10) line /\ (line = text \/ exists before, text = before ++ 10 :: line).

Lemma cut_newline_split l : cut_newline l = l \/ exists after, l = cut_newline l ++ 10 :: after.
Proof.
  induction l as [|c l IH]; [by left|]. cbn. destruct (Z.eqb_spec c 10) as [->|]; [right; by exists l|].
  destruct IH as [E|[a E]]; [left; by rewrite E|right; exists a; cbn; by rewrite <- E].
Qed.

Lemma last_line_spec text : line_of text (last_line text).
Proof.
  unfold line_of, last_line. split; [apply Forall_reverse, cut_newline_clean|].
  destruct (cut_newline_split (reverse text)) as [E|[a E]]; [left; by rewrite E, reverse_involutive|].
  right. exists (reverse a). rewrite <- (reverse_involutive text) at 1. rewrite E at 1.
  rewrite reverse_app, reverse_cons. by rewrite <- app_assoc.
Qed.

Lemma drop_newlines_split l : exists nl, l = nl ++ drop_newlines l /\ Forall (fun c => c = 10 \/ c = 13) nl /\
  (forall c, head (drop_newlines l) = Some c -> c <> 10 /\ c <> 13).
Proof.
  induction l as [|c l IH]; [by exists []|]. cbn. destruct (Z.eqb_spec c 10) as [->|H10]; cbn.
  { destruct IH as (nl & E & F & G). exists (10 :: nl). cbn. rewrite <- E. split; [done|]. split; [constructor; [by left|done]|done]. }
  destruct (Z.eqb_spec c 13) as [->|H13].
  { destruct IH as (nl & E & F & G). exists (13 :: nl). cbn. rewrite <- E. split; [done|]. split; [constructor; [by right|done]|done]. }
  exists []. split; [done|]. split; [constructor|]. intros ? [= <-]. done.
Qed.

(** A target's last words cannot reprogram the terminal that reports them.
    Whatever its log holds, the line kept has at most two hundred bytes, none of
    them below the space, so no escape byte; and it is the last line of the
    last four kilobytes that is not blank, cut at two hundred, with only bytes
    below the space missing where the line carries no escape. *)
Theorem last_words_safe content :
  let out := last_output_line (Some content) in
  Forall printable out /\ Z.of_nat (List.length out) <= kMaxOutputLine /\
  exists skipped kept newlines line,
    content = skipped ++ kept ++ newlines /\ Z.of_nat (List.length (kept ++ newlines)) <= kTail /\
    (skipped = [] \/ Z.of_nat (List.length (kept ++ newlines)) = kTail) /\
    Forall (fun c => c = 10 \/ c = 13) newlines /\ line_of kept line /\
    (forall c, last kept = Some c -> c <> 10 /\ c <> 13) /\
    (Forall (fun c => c <> 0x1b) line ->
       out = take (Z.to_nat kMaxOutputLine) (List.filter (fun c => 0x20 <=? c) line)).
Proof.
  cbn zeta. unfold last_output_line.
  set (tail := drop _ content). split; [apply Forall_take, strip_loop_printable|].
  split; [rewrite length_take; unfold kMaxOutputLine; lia|].
  destruct (drop_newlines_split (reverse tail)) as (nl & E & Hnl & Hl).
  set (kept := reverse (drop_newlines (reverse tail))) in *.
  assert (tail = kept ++ reverse nl) as Et.
  { rewrite <- (reverse_involutive tail). rewrite E. by rewrite reverse_app. }
  exists (take (List.length content - Z.to_nat kTail) content), kept, (reverse nl), (last_line kept).
  rewrite <- Et. split; [unfold tail; by rewrite take_drop|]. unfold tail at 1 2. rewrite length_drop. unfold kTail.
  split; [lia|]. split.
  { destruct (decide (List.length content <= 4096)%nat); [left|right; lia].
    replace (List.length content - Z.to_nat 4096)%nat with O by lia. done. }
  split; [by apply Forall_reverse|]. split; [apply last_line_spec|]. split.
  - intros c. unfold kept. rewrite last_reverse. apply Hl.
  - intros Hp. f_equal. by apply strip_loop_plain.
Qed.
