(* ===== verification/HeapApp.v ===== *)
(** * The application (src/src/tui/heap_app.h, heap_app.cpp)

    The composition: events come off a source and are folded into the chunk
    table, the heat map, the scanner and the counters ([apply]); a paused
    application stages them ([drain]); [update] runs the timed passes over the
    result; [key] and [resized] change what is shown.  The source of events is an
    interface, [EventSource], that the ring session implements.  What the system
    answers to one call of [update] is a [World]. *)

From Stdlib Require Import String.
From S2P Require Import Prelude Abi Ring ChunkTable Grid ProcMaps RegionMap HeatMap Cursor.
From S2P Require Import ChunkReader HeapWalker Fragmentation Capabilities Framebuffer Layout Theme Panel.
From S2P Require Import Metrics Snapshot HeatColor MapView Inspector Session.

Definition kMaxEventsPerFrame : Z := 32768.
Definition kEnrichPerPass : Z := 512.
Definition kEnrichIntervalMs : Z := 250.
Definition kInteractiveExitMs : Z := 3000.
Definition kSnapshotIntervalMs : Z := 250.
Definition kSnapshotDutyFactor : Z := 8.

Inductive SessionState := StLive | StExited | StDetached.
#[export] Instance SessionState_eq_dec : EqDecision SessionState.
Proof. solve_decision. Defined.

Definition clamp_u32 (v : Z) : Z := if UINT32_MAX <? v then UINT32_MAX else v.

(** ** Where the events come from *)

Class EventSource (S : Type) := {
  src_attached : S -> bool;
  src_pid : S -> Z;
  src_comm : S -> list Z;
  src_drain : S -> Z -> S * list HvEvent;
  src_capacity : S -> Z;
  src_queued : S -> Z;
  src_dropped : S -> Z;
  src_exited : S -> bool
}.

#[export] Instance session_source : EventSource RingSession := {|
  src_attached := attached;
  src_pid := ss_pid;
  src_comm := ss_comm;
  src_drain := Session.drain;
  src_capacity := session_capacity;
  src_queued := session_queued;
  src_dropped := session_dropped;
  src_exited := producer_exited
|}.

(** ** The state *)

(** What an event is folded into. *)
Record Model := mkModel {
  md_table : ChunkTable;
  md_map : HeatMap;
  md_scanner : MapsScanner;
  md_metrics : Metrics;
  md_live : Z;
  md_live_bytes : Z;
  md_frees_unknown : Z
}.

(** Events taken off the ring while paused; [staged_head_] is the replay cursor. *)
Record Staging := mkStaging { paused_ : bool; staged_ : list HvEvent; staged_head_ : nat }.

(** The enrichment pass. *)
Record Enrichment := mkEnrichment {
  en_reader : ChunkReader;
  en_out : list ChunkInfo;
  en_cursor : nat;
  en_last_ms : Z;
  en_refined : Z;
  en_exact_overhead : Z
}.

(** Snapshot mode. *)
Record Sampling := mkSampling {
  sp_mode : bool;
  sp_walker : option HeapWalker;
  sp_walk : WalkResult;
  sp_last_ms : Z;
  sp_cost_ms : Z;
  sp_interval_ms : Z;
  sp_once : bool
}.

(** What is on screen and how it is derived. *)
Record Display := mkDisplay {
  dp_view : MapView;
  dp_grid : Grid;
  dp_regions : RegionMap;
  dp_bounds : AddrRange;
  dp_cursor : Z;
  dp_inspect : ChunkInspector;
  dp_frag : FragAnalyzer;
  dp_snap : SnapshotDiff;
  dp_layout : AppLayout;
  dp_width : Z;
  dp_height : Z;
  dp_dirty : bool
}.

(** The session's life. *)
Record Life := mkLife {
  lf_state : SessionState;
  lf_origin_ns : Z;
  lf_now_ms : Z;
  lf_exited_ms : Z;
  lf_launch_log : list Z;
  lf_launch_argv0 : list Z;
  lf_exit_note : list Z
}.

(** The keyboard's flags; [kb_quit] is the request [request_quit] leaves. *)
Record Keyboard := mkKeyboard { kb_help : bool; kb_reset_loop : bool; kb_quit : bool }.

Section App.
Context {S : Type} `{!EventSource S}.

Record HeapApp := mkApp {
  ap_session : S;
  ap_caps : Capabilities;
  ap_theme : Theme;
  ap_animations : bool;
  ap_model : Model;
  ap_staging : Staging;
  ap_enrich : Enrichment;
  ap_sampling : Sampling;
  ap_display : Display;
  ap_life : Life;
  ap_keys : Keyboard;
  ap_events : Z;
  ap_dropped_at_attach : Z
}.

Definition set_session (a : HeapApp) (s : S) : HeapApp :=
  mkApp s (ap_caps a) (ap_theme a) (ap_animations a) (ap_model a) (ap_staging a) (ap_enrich a) (ap_sampling a)
    (ap_display a) (ap_life a) (ap_keys a) (ap_events a) (ap_dropped_at_attach a).
Definition set_model (a : HeapApp) (m : Model) : HeapApp :=
  mkApp (ap_session a) (ap_caps a) (ap_theme a) (ap_animations a) m (ap_staging a) (ap_enrich a) (ap_sampling a)
    (ap_display a) (ap_life a) (ap_keys a) (ap_events a) (ap_dropped_at_attach a).
Definition set_staging (a : HeapApp) (s : Staging) : HeapApp :=
  mkApp (ap_session a) (ap_caps a) (ap_theme a) (ap_animations a) (ap_model a) s (ap_enrich a) (ap_sampling a)
    (ap_display a) (ap_life a) (ap_keys a) (ap_events a) (ap_dropped_at_attach a).
Definition set_enrich (a : HeapApp) (e : Enrichment) : HeapApp :=
  mkApp (ap_session a) (ap_caps a) (ap_theme a) (ap_animations a) (ap_model a) (ap_staging a) e (ap_sampling a)
    (ap_display a) (ap_life a) (ap_keys a) (ap_events a) (ap_dropped_at_attach a).
Definition set_sampling (a : HeapApp) (s : Sampling) : HeapApp :=
  mkApp (ap_session a) (ap_caps a) (ap_theme a) (ap_animations a) (ap_model a) (ap_staging a) (ap_enrich a) s
    (ap_display a) (ap_life a) (ap_keys a) (ap_events a) (ap_dropped_at_attach a).
Definition set_display (a : HeapApp) (d : Display) : HeapApp :=
  mkApp (ap_session a) (ap_caps a) (ap_theme a) (ap_animations a) (ap_model a) (ap_staging a) (ap_enrich a)
    (ap_sampling a) d (ap_life a) (ap_keys a) (ap_events a) (ap_dropped_at_attach a).
Definition set_life (a : HeapApp) (l : Life) : HeapApp :=
  mkApp (ap_session a) (ap_caps a) (ap_theme a) (ap_animations a) (ap_model a) (ap_staging a) (ap_enrich a)
    (ap_sampling a) (ap_display a) l (ap_keys a) (ap_events a) (ap_dropped_at_attach a).
Definition set_keys (a : HeapApp) (k : Keyboard) : HeapApp :=
  mkApp (ap_session a) (ap_caps a) (ap_theme a) (ap_animations a) (ap_model a) (ap_staging a) (ap_enrich a)
    (ap_sampling a) (ap_display a) (ap_life a) k (ap_events a) (ap_dropped_at_attach a).
Definition set_events (a : HeapApp) (n dropped_at_attach : Z) : HeapApp :=
  mkApp (ap_session a) (ap_caps a) (ap_theme a) (ap_animations a) (ap_model a) (ap_staging a) (ap_enrich a)
    (ap_sampling a) (ap_display a) (ap_life a) (ap_keys a) n dropped_at_attach.

(** ** Folding events in *)

Definition event_ms (origin_ns timestamp_ns : Z) : Z :=
  if timestamp_ns <=? origin_ns then 0 else clamp_u32 ((timestamp_ns - origin_ns) / 1000000).

Definition apply_free (m : Model) (e : HvEvent) (ms : Z) : Model :=
  match lookup_chunk (md_table m) (ev_ptr e) with
  | Some c =>
      let map :=
        if negb (Z.land (c_flags c) kChunkFlagRefined =? 0)
        then (refine_overhead (md_map m) (ev_ptr e) (c_overhead_exact c) (overhead_of (c_size c) (c_usable c))).1
        else md_map m in
      let '(live, bytes) :=
        if decide (c_state c = kChunkLive)
        then (if negb (md_live m =? 0) then md_live m - 1 else md_live m, sat_sub (md_live_bytes m) (c_usable c))
        else (md_live m, md_live_bytes m) in
      mkModel (mark_freed (md_table m) (ev_ptr e) ms).1 (on_free map (ev_ptr e) (c_size c) (c_usable c) ms)
        (md_scanner m) (md_metrics m) live bytes (md_frees_unknown m)
  | None =>
      mkModel (md_table m) (on_free (md_map m) (ev_ptr e) (ev_usable e) (ev_usable e) ms) (md_scanner m)
        (md_metrics m) (md_live m) (md_live_bytes m) (md_frees_unknown m ⊞ 1)
  end.

Definition apply_alloc (m : Model) (e : HvEvent) (ms : Z) : Model :=
  let size := clamp_u32 (ev_size e) in
  let '(live, bytes) :=
    match lookup_chunk (md_table m) (ev_ptr e) with
    | Some prev =>
        if decide (c_state prev = kChunkLive) then (md_live m, sat_sub (md_live_bytes m) (c_usable prev))
        else (md_live m ⊞ 1, md_live_bytes m)
    | None => (md_live m ⊞ 1, md_live_bytes m)
    end in
  mkModel (insert_live (md_table m) (ev_ptr e) size (ev_usable e) ms (hv_event_get_tid e)).1
    (on_alloc (md_map m) (ev_ptr e) size (ev_usable e) ms) (md_scanner m)
    (count_alloc (md_metrics m) (ev_usable e)) live (bytes ⊞ ev_usable e) (md_frees_unknown m).

Definition is_free (e : HvEvent) : bool := Z.land (ev_op e) HV_OP_MASK =? HV_OP_FREE.

Definition with_scanner (m : Model) (s : MapsScanner) : Model :=
  mkModel (md_table m) (md_map m) s (md_metrics m) (md_live m) (md_live_bytes m) (md_frees_unknown m).

(** One turn of the loop of [apply]. *)
Definition apply_event (origin_ns : Z) (m : Model) (e : HvEvent) : Model :=
  let ms := event_ms origin_ns (ev_timestamp e) in
  let m := with_scanner m (note_address (md_scanner m) (ev_ptr e)) in
  if is_free e then apply_free m e ms else apply_alloc m e ms.

Definition apply (a : HeapApp) (events : list HvEvent) : HeapApp :=
  set_model a (foldl (apply_event (lf_origin_ns (ap_life a))) (ap_model a) events).

(** ** Draining *)

Definition staged_events (s : Staging) : nat := List.length (staged_ s) - staged_head_ s.

(** The replay of what was staged while paused. *)
Definition replay (a : HeapApp) : HeapApp * Z :=
  let s := ap_staging a in
  let waiting := staged_events s in
  if (waiting =? 0)%nat then (a, 0)
  else
    let n := Nat.min waiting (Z.to_nat kMaxEventsPerFrame) in
    let a := apply a (take n (drop (staged_head_ s) (staged_ s))) in
    let head := (staged_head_ s + n)%nat in
    let a := set_staging a (if (head =? List.length (staged_ s))%nat then mkStaging (paused_ s) [] 0
                            else mkStaging (paused_ s) (staged_ s) head) in
    (a, Z.of_nat n).

Definition drain (a : HeapApp) : HeapApp * Z :=
  if negb (src_attached (ap_session a)) then (a, 0)
  else if paused_ (ap_staging a) then
    let '(s, batch) := src_drain (ap_session a) kMaxEventsPerFrame in
    let st := ap_staging a in
    (set_staging (set_session a s) (mkStaging (paused_ st) (staged_ st ++ batch) (staged_head_ st)), 0)
  else
    let '(a, applied) := replay a in
    let '(a, applied) :=
      if (applied <? kMaxEventsPerFrame) && bool_decide (staged_ (ap_staging a) = []) then
        let '(s, batch) := src_drain (ap_session a) (kMaxEventsPerFrame - applied) in
        let a := set_session a s in
        let a := match batch with [] => a | _ => apply a batch end in
        (a, applied + Z.of_nat (List.length batch))
      else (a, applied) in
    (set_events a (ap_events a ⊞ applied) (ap_dropped_at_attach a), applied).

(** ** The timed passes *)

(** What the system answers during one [update]: the clock, the liveness test,
    the maps file, the target's memory, the clock around a walk and the log of a
    launched target. *)
Record World := mkWorld {
  w_now_ns : Z;
  w_kill : Z -> option Z;
  w_maps : ScanStatus * list Z;
  w_read : ReadFn;
  w_began_ns : Z;
  w_ended_ns : Z;
  w_log : option (list Z)
}.

Definition terminal_hint : list Z := str "needs a terminal? run: heapviz --instrument ".

Definition build_exit_note (l : Life) (log : option (list Z)) : Life :=
  let note :=
    match lf_launch_log l with
    | [] => []
    | _ =>
        if negb (lf_exited_ms l =? 0) && (lf_exited_ms l <? kInteractiveExitMs)
        then terminal_hint ++ lf_launch_argv0 l
        else last_output_line log
    end in
  mkLife (lf_state l) (lf_origin_ns l) (lf_now_ms l) (lf_exited_ms l) (lf_launch_log l) (lf_launch_argv0 l) note.

Definition set_now (l : Life) (ms : Z) : Life :=
  mkLife (lf_state l) (lf_origin_ns l) ms (lf_exited_ms l) (lf_launch_log l) (lf_launch_argv0 l) (lf_exit_note l).

(** Noticing that the target is gone. *)
Definition watch (w : World) (a : HeapApp) : HeapApp * bool :=
  let l := ap_life a in
  if decide (lf_state l = StLive) then
    if src_exited (ap_session a) || negb (process_alive (w_kill w) (src_pid (ap_session a))) then
      let l := mkLife StExited (lf_origin_ns l) (lf_now_ms l) (lf_now_ms l) (lf_launch_log l) (lf_launch_argv0 l)
                 (lf_exit_note l) in
      (set_life a (build_exit_note l (w_log w)), true)
    else (a, false)
  else (a, false).

(** The heat map holds a pointer to the region map, so it sees a repacking at
    once where it has been given one. *)
Definition set_map_regions (h : HeatMap) (r : option RegionMap) : HeatMap :=
  mkHeatMap r (hm_grid h) (hm_cells h) (hm_timings h) (hm_total_live_bytes h) (hm_total_live h) (hm_rebuilds h).
Definition follow_regions (h : HeatMap) (r : RegionMap) : HeatMap :=
  if is_some (hm_regions h) then set_map_regions h (Some r) else h.

Definition with_map (m : Model) (h : HeatMap) : Model :=
  mkModel (md_table m) h (md_scanner m) (md_metrics m) (md_live m) (md_live_bytes m) (md_frees_unknown m).
Definition with_table (m : Model) (t : ChunkTable) : Model :=
  mkModel t (md_map m) (md_scanner m) (md_metrics m) (md_live m) (md_live_bytes m) (md_frees_unknown m).
Definition with_metrics (m : Model) (x : Metrics) : Model :=
  mkModel (md_table m) (md_map m) (md_scanner m) x (md_live m) (md_live_bytes m) (md_frees_unknown m).
Definition with_regions (d : Display) (r : RegionMap) (b : AddrRange) (dirty : bool) : Display :=
  mkDisplay (dp_view d) (dp_grid d) r b (dp_cursor d) (dp_inspect d) (dp_frag d) (dp_snap d) (dp_layout d)
    (dp_width d) (dp_height d) dirty.

Definition repack (a : HeapApp) : HeapApp * bool :=
  let d := ap_display a in
  let '(r, moved) := RegionMap.rebuild (dp_regions d) (regions_ (md_scanner (ap_model a))) in
  let bounds := match spans_ r with [] => mkRange 0 0 | _ => mkRange 0 (total_ r) end in
  let a := set_display a (with_regions d r bounds (dp_dirty d)) in
  (set_model a (with_map (ap_model a) (follow_regions (md_map (ap_model a)) r)), moved).

Definition set_dirty (d : Display) (b : bool) : Display := with_regions d (dp_regions d) (dp_bounds d) b.

Definition rescan_maps (w : World) (a : HeapApp) : HeapApp * bool :=
  let now := lf_now_ms (ap_life a) in
  if ProcMaps.due (md_scanner (ap_model a)) now then
    let '(sc, _) := scan (md_scanner (ap_model a)) (w_maps w).1 (w_maps w).2 now in
    let a := set_model a (with_scanner (ap_model a) sc) in
    let '(a, moved) := repack a in
    if moved then (set_display a (set_dirty (ap_display a) true), true) else (a, false)
  else (a, false).

(** *** One snapshot pass *)

(** When heapviz first saw each walked address. *)
Definition first_seen (t : ChunkTable) (now_ms : Z) (c : WalkedChunk) : Z :=
  match lookup_chunk t (wc_user_ptr c) with
  | Some prev => if decide (c_state prev = kChunkLive) then c_alloc_ms prev else now_ms
  | None => now_ms
  end.

(** The re-insertion of one walked chunk. *)
Definition take_walked (m : Model) (c : WalkedChunk * Z) : Model :=
  let usable := clamp_u32 (wc_usable c.1) in
  mkModel (insert_live (md_table m) (wc_user_ptr c.1) usable usable c.2 0).1 (md_map m) (md_scanner m) (md_metrics m)
    (md_live m ⊞ 1) (md_live_bytes m ⊞ wc_usable c.1) (md_frees_unknown m).

(** The model replaced by what a walk found. *)
Definition adopt_walk (m : Model) (now_ms : Z) (walked : list WalkedChunk) : Model :=
  let firsts := first_seen (md_table m) now_ms <$> walked in
  let m := mkModel (ChunkTable.clear (md_table m)) (md_map m) (md_scanner m) (md_metrics m) 0 0 (md_frees_unknown m) in
  let m := foldl take_walked m (zip walked firsts) in
  with_map m (HeatMap.rebuild (md_map m) (md_table m)).

Definition snapshot (w : World) (a : HeapApp) : HeapApp * bool :=
  let s := ap_sampling a in
  let now := lf_now_ms (ap_life a) in
  match sp_walker s with
  | None => (a, false)
  | Some walker =>
      if negb (sp_mode s) then (a, false)
      else if bool_decide (lf_state (ap_life a) <> StLive) || paused_ (ap_staging a) then (a, false)
      else if sp_once s && (now ⊟₃₂ sp_last_ms s <? sp_interval_ms s) then (a, false)
      else
        let '(walker, walked, r) := walk (w_read w) walker (regions_ (md_scanner (ap_model a))) in
        match wr_status r with
        | WsDenied | WsTargetGone =>
            (set_sampling a (mkSampling true (Some walker) r now 0 kSnapshotIntervalMs true), true)
        | _ =>
            let cost := clamp_u32 ((w_ended_ns w ⊟ w_began_ns w) / 1000000) in
            let a := set_model a (adopt_walk (ap_model a) now walked) in
            (set_sampling a (mkSampling true (Some walker) r now cost
                               (Z.max kSnapshotIntervalMs (u32 (cost * kSnapshotDutyFactor))) true), true)
        end
  end.

(** *** Geometry *)

Definition with_grid (d : Display) (g : Grid) (coord : Z) (dirty : bool) : Display :=
  mkDisplay (dp_view d) g (dp_regions d) (dp_bounds d) coord (dp_inspect d) (dp_frag d) (dp_snap d) (dp_layout d)
    (dp_width d) (dp_height d) dirty.

Definition refit (a : HeapApp) : HeapApp :=
  let d := ap_display a in
  let a := set_model a (with_map (ap_model a) (set_map_regions (md_map (ap_model a)) (Some (dp_regions d)))) in
  let '(g, _) := set_bounds (dp_grid d) (ar_base (dp_bounds d)) (ar_end (dp_bounds d)) in
  let '(g, ok) := fit_grid g (l_map (dp_layout d)) (caps_unicode (ap_caps a)) (l_legend (dp_layout d)) in
  if negb ok then set_display a (with_grid d g (dp_cursor d) (dp_dirty d))
  else
    let '(map, changed) := HeatMap.configure (md_map (ap_model a)) g in
    let m := with_map (ap_model a) map in
    let '(m, en) :=
      if changed then
        (with_table (with_map m (HeatMap.rebuild map (md_table m))) (clear_refined (md_table m)),
         let en := ap_enrich a in mkEnrichment (en_reader en) (en_out en) (en_cursor en) (en_last_ms en) 0 0)
      else (m, ap_enrich a) in
    let a := set_enrich (set_model a m) en in
    set_display a (with_grid d g (Cursor.refit (dp_cursor d) g).1 false).

(** *** Enrichment *)

(** The records still to be corrected, from the cursor on, at most one lap. *)
Fixpoint pick (n : nat) (slots : list Chunk) (cursor : nat) (got : list (Z * Z * Z)) : nat * list (Z * Z * Z) :=
  match n with
  | O => (cursor, got)
  | Datatypes.S n =>
      if Z.of_nat (List.length got) <? kEnrichPerPass then
        let c := slots !!! cursor in
        let cursor := ((cursor + 1) mod List.length slots)%nat in
        if bool_decide (c_state c <> kChunkLive) || negb (Z.land (c_flags c) kChunkFlagRefined =? 0) ||
           (c_key c =? 0) || (c_size c =? 0)
        then pick n slots cursor got
        else pick n slots cursor (got ++ [(c_key c, c_size c, overhead_of (c_size c) (c_usable c))])
      else (cursor, got)
  end.

Definition header_flags (i : ChunkInfo) : Z :=
  Z.lor (if mmapped i then kChunkFlagMmapped else 0) (if non_main_arena i then kChunkFlagNonMain else 0).

(** One decoded header folded in: model, refined, exact overhead, changed. *)
Definition fold_info (st : Model * Z * Z * bool) (x : Z * Z * Z * ChunkInfo) : Model * Z * Z * bool :=
  let '(m, refined, exact, changed) := st in
  let '(ptr, _, approx, info) := x in
  if negb (info_valid info) then st
  else
    let '(t, ok) := mark_refined (md_table m) ptr (overhead info) (header_flags info) in
    if negb ok then (with_table m t, refined, exact, changed)
    else
      let '(h, folded) := refine_overhead (md_map m) ptr approx (overhead info) in
      (with_map (with_table m t) h, refined ⊞ 1, exact ⊞ overhead info, changed || folded).

Definition enrich (w : World) (a : HeapApp) : HeapApp * bool :=
  let en := ap_enrich a in
  let now := lf_now_ms (ap_life a) in
  if sp_mode (ap_sampling a) then (a, false)
  else if negb (available (en_reader en)) || bool_decide (lf_state (ap_life a) <> StLive) then (a, false)
  else if now ⊟₃₂ en_last_ms en <? kEnrichIntervalMs then (a, false)
  else
    let en := mkEnrichment (en_reader en) (en_out en) (en_cursor en) now (en_refined en) (en_exact_overhead en) in
    let slots := slots_ (md_table (ap_model a)) in
    if (List.length slots =? 0)%nat then (set_enrich a en, false)
    else
      let '(cursor, got) := pick (List.length slots) slots (en_cursor en) [] in
      let en := mkEnrichment (en_reader en) (en_out en) cursor now (en_refined en) (en_exact_overhead en) in
      match got with
      | [] => (set_enrich a en, false)
      | _ =>
          let '(rd, st, out) := ChunkReader.read (w_read w) (en_reader en) (Some ((fun x => x.1.1) <$> got))
                                  (Some ((fun x => x.1.2) <$> got)) (Some (en_out en)) in
          let out := default [] out in
          match st with
          | RsDenied | RsTargetGone =>
              (set_enrich a (mkEnrichment rd out cursor now (en_refined en) (en_exact_overhead en)), true)
          | _ =>
              let '(m, refined, exact, changed) :=
                foldl fold_info (ap_model a, en_refined en, en_exact_overhead en, false)
                  (zip got (take (List.length got) out)) in
              (set_enrich (set_model a m) (mkEnrichment rd out cursor now refined exact), changed)
          end
      end.

(** *** The frame's passes, in the order [update] runs them *)

Definition measure_frag (a : HeapApp) : HeapApp * bool :=
  let d := ap_display a in
  let '(fa, ran) := analyze (dp_frag d) (md_table (ap_model a)) (dp_regions d) (lf_now_ms (ap_life a)) in
  let a := set_display a (mkDisplay (dp_view d) (dp_grid d) (dp_regions d) (dp_bounds d) (dp_cursor d) (dp_inspect d)
             fa (dp_snap d) (dp_layout d) (dp_width d) (dp_height d) (dp_dirty d)) in
  if ran then
    let r := fa_report fa in
    let x := set_largest_gap (set_fragmentation (md_metrics (ap_model a)) (fr_percent r)) (fr_largest_gap r)
               (fr_largest_gap_known r) in
    (set_model a (with_metrics (ap_model a) x), true)
  else (a, false).

Definition set_snap (d : Display) (s : SnapshotDiff) : Display :=
  mkDisplay (dp_view d) (dp_grid d) (dp_regions d) (dp_bounds d) (dp_cursor d) (dp_inspect d) (dp_frag d) s
    (dp_layout d) (dp_width d) (dp_height d) (dp_dirty d).
Definition set_inspect (d : Display) (coord : Z) (i : ChunkInspector) : Display :=
  mkDisplay (dp_view d) (dp_grid d) (dp_regions d) (dp_bounds d) coord i (dp_frag d) (dp_snap d) (dp_layout d)
    (dp_width d) (dp_height d) (dp_dirty d).

Definition measure_leaks (a : HeapApp) (force : bool) : HeapApp * bool :=
  let '(s, ran) := analyze_leaks (dp_snap (ap_display a)) (md_table (ap_model a)) (md_map (ap_model a))
                     (lf_now_ms (ap_life a)) force in
  (set_display a (set_snap (ap_display a) s), ran).

Definition refresh_inspector (a : HeapApp) (dirty : bool) : HeapApp * bool :=
  let d := ap_display a in
  let '(i, ran) := refresh (dp_inspect d) (md_table (ap_model a)) (md_map (ap_model a)) (dp_cursor d)
                     (lf_now_ms (ap_life a)) dirty in
  (set_display a (set_inspect d (dp_cursor d) i), ran).

Definition sample_of (a : HeapApp) (dropped : Z) : MetricsSample :=
  mkSample (md_live (ap_model a)) (md_live_bytes (ap_model a)) (src_queued (ap_session a)) (src_capacity (ap_session a))
    dropped (lf_now_ms (ap_life a)).

Definition sample_metrics (a : HeapApp) : HeapApp * bool :=
  let '(x, ran) := sample (md_metrics (ap_model a))
                     (sample_of a (src_dropped (ap_session a) ⊟ ap_dropped_at_attach a)) in
  (set_model a (with_metrics (ap_model a) x), ran).

Definition update (w : World) (a : HeapApp) : HeapApp * bool :=
  if paused_ (ap_staging a) then (a, false)
  else
    let l := ap_life a in
    let a := set_life a (set_now l (clamp_u32 ((w_now_ns w ⊟ lf_origin_ns l) / 1000000))) in
    let '(a, c1) := watch w a in
    let '(a, c2) := rescan_maps w a in
    let '(a, c3) := snapshot w a in
    let d := ap_display a in
    let '(a, c4) :=
      if dp_dirty d && negb (range_empty (dp_bounds d)) && (0 <? dp_width d) then (refit a, true) else (a, false) in
    let '(a, c5) := enrich w a in
    let '(a, c6) := measure_frag a in
    let changed := c1 || c2 || c3 || c4 || c5 || c6 in
    let '(a, c7) := measure_leaks a changed in
    let changed := changed || c7 in
    let '(a, c8) := refresh_inspector a changed in
    let '(a, c9) := sample_metrics a in
    (a, changed || c8 || c9).

(** ** Construction and modes *)

(** [now_ns] is the clock at construction. *)
Definition new_app (s : S) (caps : Capabilities) (theme : Theme) (animations : bool) (now_ns : Z) : HeapApp :=
  let view := new_view caps (heat_palette theme) kDefaultTimings in
  let view := set_half_block (set_animations view animations) (caps_unicode caps) in
  let view := set_view_style view (mkMapStyle (th_text theme) (th_dim theme) (th_accent theme) (th_bg theme)
                                     (th_cursor theme) (th_leak theme)) in
  let inspect := set_inspector_style new_inspector
                   (mkInspectorStyle (th_text theme) (th_dim theme) (th_accent theme) (th_frame theme) (th_active theme)
                      (th_danger_text theme) (th_bg theme)) in
  let metrics := set_metrics_style new_metrics
                   (mkMetricsStyle (th_text theme) (th_dim theme) (th_accent theme) (th_frame theme) (th_title theme)
                      (th_accent theme) (th_danger_text theme) (th_bg theme)) in
  let table := (reserve (new_table 1024) (Z.shiftl 1 16)).1 in
  let '(state, dropped) := if src_attached s then (StLive, src_dropped s) else (StDetached, 0) in
  mkApp s caps theme animations
    (mkModel table new_heatmap (new_scanner (src_pid s)) metrics 0 0 0)
    (mkStaging false [] 0)
    (mkEnrichment (new_reader (src_pid s)) (replicate (Z.to_nat kEnrichPerPass) kNoInfo) 0 0 0 0)
    (mkSampling false None new_result 0 0 kSnapshotIntervalMs false)
    (mkDisplay view new_grid new_map (mkRange 0 0) 0 inspect new_analyzer new_diff no_layout 0 0 true)
    (mkLife state now_ns 0 0 [] [] [])
    (mkKeyboard false false false) 0 dropped.

Definition set_launch (a : HeapApp) (output_path argv0 : list Z) : HeapApp :=
  let l := ap_life a in
  set_life a (mkLife (lf_state l) (lf_origin_ns l) (lf_now_ms l) (lf_exited_ms l) output_path argv0 (lf_exit_note l)).

Definition enable_snapshots (a : HeapApp) : HeapApp :=
  let s := ap_sampling a in
  let l := ap_life a in
  let d := ap_display a in
  let a := set_sampling a (mkSampling true (Some (new_walker (src_pid (ap_session a)))) (sp_walk s) (sp_last_ms s)
                             (sp_cost_ms s) (sp_interval_ms s) (sp_once s)) in
  let a := set_life a (mkLife StLive (lf_origin_ns l) (lf_now_ms l) (lf_exited_ms l) (lf_launch_log l)
                         (lf_launch_argv0 l) (lf_exit_note l)) in
  let a := set_model a (with_metrics (ap_model a) (set_cumulative_known (md_metrics (ap_model a)) false)) in
  set_display a (set_inspect d (dp_cursor d) (set_ages_from_first_sighting (dp_inspect d) true)).

(** ** Input *)

Definition reset_stats (a : HeapApp) : HeapApp :=
  let m := ap_model a in
  let m := mkModel (md_table m) (md_map m) (md_scanner m) (reset_metrics (md_metrics m) (sample_of a 0))
             (md_live m) (md_live_bytes m) 0 in
  let k := ap_keys a in
  set_keys (set_model (set_events a 0 (src_dropped (ap_session a))) m) (mkKeyboard (kb_help k) true (kb_quit k)).

(** [localtime] is the wall clock's time for a mark taken now. *)
Definition key (localtime : option (Z * Z * Z)) (a : HeapApp) (byte : Z) : HeapApp * bool :=
  let k := ap_keys a in
  let s := ap_staging a in
  let d := ap_display a in
  let now := lf_now_ms (ap_life a) in
  if byte =? 113 then (set_keys a (mkKeyboard (kb_help k) (kb_reset_loop k) true), false)
  else if byte =? 63 then (set_keys a (mkKeyboard (negb (kb_help k)) (kb_reset_loop k) (kb_quit k)), true)
  else if (byte =? 32) && (bool_decide (lf_state (ap_life a) = StLive) || paused_ s) then
    (set_keys (set_staging a (mkStaging (negb (paused_ s)) (staged_ s) (staged_head_ s)))
       (mkKeyboard false (kb_reset_loop k) (kb_quit k)), true)
  else if (byte =? 114) && bool_decide (lf_state (ap_life a) <> StDetached) then (reset_stats a, true)
  else if kb_help k || paused_ s then (a, false)
  else
    match cursor_move_for_key byte with
    | Some mv =>
        let '(coord, moved) := move (dp_cursor d) (md_map (ap_model a)) mv in
        let a := set_display a (set_inspect d coord (dp_inspect d)) in
        if negb moved then (a, false) else ((refresh_inspector a true).1, true)
    | None =>
        if byte =? 9 then
          let '(i, cycled) := cycle (dp_inspect d) in
          (set_display a (set_inspect d (dp_cursor d) i), cycled)
        else if bool_decide (lf_state (ap_life a) = StLive) then
          if byte =? 115 then (set_display a (set_snap d (take_mark (dp_snap d) localtime now)), true)
          else if byte =? 83 then (set_display a (set_snap d (clear_mark (dp_snap d))), true)
          else if byte =? 100 then
            let '(t, _) := toggle (dp_snap d) in (set_display a (set_snap d t), sd_taken t)
          else (a, false)
        else (a, false)
    end.

Definition animating (a : HeapApp) : bool :=
  ap_animations a && negb (paused_ (ap_staging a)) && MapView.animating (md_map (ap_model a)) (lf_now_ms (ap_life a)).

Definition take_stats_reset (a : HeapApp) : HeapApp * bool :=
  let k := ap_keys a in (set_keys a (mkKeyboard (kb_help k) false (kb_quit k)), kb_reset_loop k).

Definition resized (a : HeapApp) (w h : Z) : HeapApp :=
  let d := ap_display a in
  let l := solve_layout w h in
  let a := set_display a (mkDisplay (set_show_legend (dp_view d) (l_legend l)) (dp_grid d) (dp_regions d) (dp_bounds d)
             (dp_cursor d) (dp_inspect d) (dp_frag d) (dp_snap d) l w h true) in
  if negb (range_empty (dp_bounds d)) then refit a else a.

End App.
Arguments HeapApp : clear implicits.
