(* ===== verification/HeapAppProofs.v ===== *)
(** * The application's promises

    Against the [EventQueue] interface: pausing reorders and loses nothing, and
    a resumed application catches up.  Against the chunk table's map: the live
    counters are those of the reference heap the events describe.  And what the
    snapshot pass carries over, what pausing freezes, and where the incremental
    heat map departs from the table. *)

From S2P Require Import Prelude Abi Ring ChunkTable ChunkTableSpec ChunkTableMap Grid ProcMaps RegionMap HeatMap.
From S2P Require Import ChunkReader HeapWalker Capabilities Theme Metrics Session HeapApp.

(** ** The interface *)

(** [pending]: the events a source has accepted and not handed out.  A drain
    hands out a prefix of them, as long as it was asked for if there are that
    many, and leaves the rest. *)
Class EventQueue (S : Type) `{!EventSource S} := {
  source_ok : S -> Prop;
  pending : S -> list HvEvent;
  drain_takes s n : source_ok s -> src_attached s = true -> 0 <= n ->
    let '(s', out) := src_drain s n in
    out = take (Z.to_nat n) (pending s) /\ pending s' = drop (Z.to_nat n) (pending s) /\
    source_ok s' /\ src_attached s' = true
}.

(** ** The ring implements it *)
Lemma drain_loop_out r b : forall t h out,
  drain_loop r b t h out = ((drain_loop r b t h []).1, out ++ (drain_loop r b t h []).2).
Proof.
  induction b as [|b IH]; intros t h out; cbn [drain_loop]; [by rewrite app_nil_r|].
  destruct (t =? h); [by rewrite app_nil_r|]. destruct (op_accepted _ _ _); [|by rewrite app_nil_r].
  rewrite IH. rewrite (IH _ _ ([] ++ _)). cbn. by rewrite <- app_assoc.
Qed.

Lemma drain_loop_step r b t h :
  drain_loop r (S b) t h [] =
    if t =? h then (t, [])
    else if op_accepted (h_capacity_log2 (r_hdr r)) t (ev_op (slot_get r t))
    then ((drain_loop r b (t ⊞ 1) h []).1,
          copy_out (slot_get r t) (ev_op (slot_get r t)) :: (drain_loop r b (t ⊞ 1) h []).2)
    else (t, []).
Proof. cbn [drain_loop]. destruct (t =? h); [done|]. destruct (op_accepted _ _ _); [|done]. by rewrite drain_loop_out. Qed.

(** The events waiting at [t]: a run as long as the head allows. *)
Definition run_at (r : Ring) (t h : Z) : list HvEvent := (drain_loop r (Z.to_nat (h ⊟ t)) t h []).2.

Lemma ahead_S t h : is_u64 t -> is_u64 h -> t <> h ->
  Z.to_nat (h ⊟ t) = S (Z.to_nat (h ⊟ (t ⊞ 1))) /\ is_u64 (t ⊞ 1).
Proof.
  intros Ht Hh Hne. split; [|apply u64_range]. rewrite u64_sub_r.
  unfold is_u64 in *. unfold u64. rewrite pow2_64 in *. Z.div_mod_to_equations. lia.
Qed.

Lemma drain_loop_run r h n : forall t, is_u64 t -> is_u64 h ->
  let '(t', out) := drain_loop r n t h [] in
  out = take n (run_at r t h) /\ run_at r t' h = drop n (run_at r t h) /\ is_u64 t' /\ (out = [] -> t' = t).
Proof.
  induction n as [|n IH]; intros t Ht Hh; [done|]. rewrite drain_loop_step.
  destruct (Z.eqb_spec t h) as [->|Hne].
  { assert (run_at r h h = []) as E by (unfold run_at; by rewrite Z.sub_diag). by rewrite E. }
  destruct (ahead_S t h Ht Hh Hne) as [E Ht1].
  assert (run_at r t h = if op_accepted (h_capacity_log2 (r_hdr r)) t (ev_op (slot_get r t))
    then copy_out (slot_get r t) (ev_op (slot_get r t)) :: run_at r (t ⊞ 1) h else []) as Er.
  { unfold run_at at 1. rewrite E, drain_loop_step. apply Z.eqb_neq in Hne. rewrite Hne. by destruct (op_accepted _ _ _). }
  rewrite Er. destruct (op_accepted _ _ _); [|done].
  specialize (IH (t ⊞ 1) Ht1 Hh). destruct (drain_loop r n (t ⊞ 1) h []) as [t' out]. destruct IH as (Ho & Hd & Hu & _).
  cbn. by rewrite Ho, Hd.
Qed.

Lemma drain_loop_same r r' b : r_slots r' = r_slots r -> h_capacity (r_hdr r') = h_capacity (r_hdr r) ->
  h_capacity_log2 (r_hdr r') = h_capacity_log2 (r_hdr r) ->
  forall t h out, drain_loop r' b t h out = drain_loop r b t h out.
Proof.
  intros Hs Hc Hl. assert (forall q, slot_get r' q = slot_get r q) as Hg by (intros q; unfold slot_get; by rewrite Hs, Hc).
  induction b as [|b IH]; intros t h out; cbn [drain_loop]; [done|].
  rewrite Hg, Hl. destruct (t =? h); [done|]. destruct (op_accepted _ _ _); [apply IH|done].
Qed.

Definition session_ok (s : RingSession) : Prop :=
  match ss_ring s with None => True | Some r => is_u64 (h_head (r_hdr r)) /\ is_u64 (h_tail (r_hdr r)) end.
Definition session_pending (s : RingSession) : list HvEvent :=
  match ss_ring s with None => [] | Some r => run_at r (h_tail (r_hdr r)) (h_head (r_hdr r)) end.

Lemma session_drain_takes s n : session_ok s -> attached s = true -> 0 <= n ->
  let '(s', out) := Session.drain s n in
  out = take (Z.to_nat n) (session_pending s) /\ session_pending s' = drop (Z.to_nat n) (session_pending s) /\
  session_ok s' /\ attached s' = true.
Proof.
  unfold session_ok, session_pending, attached, Session.drain. destruct (ss_ring s) as [r|] eqn:Er; [|done].
  intros [Hh Ht] _ Hn. destruct (Z.eqb_spec n 0) as [->|Hn0]; [by rewrite Er|].
  unfold hv_ring_drain. pose proof (drain_loop_run r (h_head (r_hdr r)) (Z.to_nat n) _ Ht Hh) as H.
  destruct (drain_loop r (Z.to_nat n) _ _ []) as [t' out]. destruct H as (Ho & Hd & Hu & Hsame).
  split; [done|]. destruct (bool_decide_reflect (out = [])) as [E|E]; cbn [ss_ring set_ring].
  - rewrite (Hsame E) in Hd. split; [exact Hd|]. split; [by split|done].
  - cbn. split; [|by split]. rewrite <- Hd. unfold run_at. by rewrite (drain_loop_same r).
Qed.

#[export] Instance session_queue : EventQueue RingSession := {|
  source_ok := session_ok;
  pending := session_pending;
  drain_takes := session_drain_takes
|}.

(** ** Pausing keeps the order *)

Section Order.
Context {S : Type} `{!EventSource S, !EventQueue S}.
Implicit Types a : HeapApp S.

(** What has been taken or accepted and not yet applied, in order. *)
Definition staged_rest (s : Staging) : list HvEvent := drop (staged_head_ s) (staged_ s).
Definition remaining a : list HvEvent := staged_rest (ap_staging a) ++ pending (ap_session a).
Definition origin a : Z := lf_origin_ns (ap_life a).

(** An attached application; the replay cursor is inside what was staged, and a
    finished replay leaves nothing behind. *)
Record ready a : Prop := {
  rd_source : source_ok (ap_session a);
  rd_attached : src_attached (ap_session a) = true;
  rd_head : (staged_head_ (ap_staging a) <= length (staged_ (ap_staging a)))%nat;
  rd_clear : staged_rest (ap_staging a) = [] -> staged_ (ap_staging a) = []
}.

(** What draining leaves alone. *)
Definition same_mode a a' : Prop := ap_life a' = ap_life a /\ paused_ (ap_staging a') = paused_ (ap_staging a).

Lemma staged_rest_length s : length (staged_rest s) = staged_events s.
Proof. unfold staged_rest, staged_events. by rewrite length_drop. Qed.

Lemma replay_spec a : ready a ->
  let '(a', n) := replay a in
  let k := Nat.min (length (staged_rest (ap_staging a))) (Z.to_nat kMaxEventsPerFrame) in
  n = Z.of_nat k /\ ap_model a' = foldl (apply_event (origin a)) (ap_model a) (take k (staged_rest (ap_staging a))) /\
  staged_rest (ap_staging a') = drop k (staged_rest (ap_staging a)) /\ ap_session a' = ap_session a /\
  same_mode a a' /\ ready a' /\ ap_events a' = ap_events a.
Proof.
  intros [Hok Hat Hh Hc]. unfold replay. rewrite <- staged_rest_length. set (k := Nat.min _ _).
  destruct (Nat.eqb_spec (length (staged_rest (ap_staging a))) 0) as [E|E].
  { apply length_zero_iff_nil in E. assert (k = O) as Ek by (unfold k; rewrite E; done). rewrite Ek, E. by split_and!. }
  assert (length (staged_rest (ap_staging a)) = length (staged_ (ap_staging a)) - staged_head_ (ap_staging a))%nat as El
    by (unfold staged_rest; by rewrite length_drop).
  assert (k <= length (staged_rest (ap_staging a)))%nat as Hk by (unfold k; lia). clearbody k.
  split; [done|]. split; [done|]. unfold same_mode. cbn.
  destruct (Nat.eqb_spec (staged_head_ (ap_staging a) + k) (length (staged_ (ap_staging a)))) as [Ee|Ee]; cbn.
  - split; [|split_and!; try done; split; cbn; done || lia]. symmetry. unfold staged_rest. rewrite drop_drop. apply drop_ge. lia.
  - assert (staged_rest (mkStaging (paused_ (ap_staging a)) (staged_ (ap_staging a)) (staged_head_ (ap_staging a) + k))
      = drop k (staged_rest (ap_staging a))) as Er by (unfold staged_rest; cbn; by rewrite drop_drop).
    split; [exact Er|]. split_and!; try done. split; [done|done|cbn; lia|]. intros Hn.
    cbn [ap_staging set_staging apply set_model] in Hn. rewrite Er in Hn. apply (f_equal length) in Hn. rewrite length_drop in Hn. cbn in Hn. lia.
Qed.

(** One drain: paused, it only moves events from the ring to the stage; running,
    it applies the first events of all that remain, up to the frame's ceiling. *)
Lemma drain_spec a : ready a ->
  let '(a', n) := drain a in
  let k := if paused_ (ap_staging a) then 0%nat else Z.to_nat kMaxEventsPerFrame in
  ap_model a' = foldl (apply_event (origin a)) (ap_model a) (take k (remaining a)) /\
  remaining a' = drop k (remaining a) /\ same_mode a a' /\ ready a' /\
  n = Z.of_nat (length (take k (remaining a))).
Proof.
  intros Hr. pose proof Hr as [Hok Hat Hh Hc]. unfold drain. rewrite Hat. cbn [negb].
  destruct (paused_ (ap_staging a)) eqn:Ep.
  { pose proof (drain_takes (ap_session a) kMaxEventsPerFrame Hok Hat ltac:(done)) as Hd.
    destruct (src_drain (ap_session a) kMaxEventsPerFrame) as [s out]. destruct Hd as (-> & Hp & Hok' & Hat').
    set (st := mkStaging _ _ _). assert (staged_rest st = staged_rest (ap_staging a) ++ take (Z.to_nat kMaxEventsPerFrame) (pending (ap_session a))) as Es.
    { unfold st, staged_rest. cbn. by rewrite drop_app_le by lia. }
    split; [done|]. split.
    { unfold remaining. cbn [ap_staging ap_session set_staging set_session]. rewrite Es, Hp, <- app_assoc, take_drop. done. }
    split; [done|]. split; [|done]. split; [done|done|cbn; rewrite length_app; lia|].
    intros Hn. cbn [ap_staging set_staging set_session] in Hn |- *. rewrite Es in Hn. apply app_eq_nil in Hn as [E1 E2].
    unfold st. cbn. by rewrite (Hc E1), E2. }
  pose proof (replay_spec a Hr) as Hs. destruct (replay a) as [a1 n1]. cbn zeta in Hs.
  set (L := staged_rest (ap_staging a)) in *. set (K := Z.to_nat kMaxEventsPerFrame) in *.
  set (k1 := Nat.min (length L) K) in *.
  destruct Hs as (-> & Hm & Hl & Hse & [Hli Hpa] & Hr1 & Hev).
  assert (Z.of_nat K = kMaxEventsPerFrame) as HK by (unfold K; rewrite Z2Nat.id; done).
  clearbody K.
  destruct (bool_decide_reflect (staged_ (ap_staging a1) = [])) as [E|E].
  2:{ (* the stage still holds more than a frame *)
    rewrite andb_false_r.
    assert (drop k1 L <> []) as Hne by (intros En; rewrite <- Hl in En; by apply E, (rd_clear _ Hr1)).
    assert (K < length L)%nat as HL.
    { destruct (decide (K < length L)%nat) as [|Hge]; [done|]. exfalso. apply Hne. unfold k1. apply drop_ge. lia. }
    assert (k1 = K) as Ek by (unfold k1; lia). rewrite Ek in *.
    unfold remaining. cbn [ap_model ap_staging ap_session set_events]. rewrite Hse, Hl.
    rewrite take_app_le, drop_app_le by (fold L; lia). fold L. split_and!; try done.
    - destruct Hr1. by split.
    - rewrite length_take. lia. }
  assert (drop k1 L = []) as Hnil by (rewrite <- Hl; unfold staged_rest; by rewrite E, drop_nil).
  assert (length L <= K)%nat as HL.
  { apply (f_equal length) in Hnil. rewrite length_drop in Hnil. cbn in Hnil. unfold k1 in Hnil. lia. }
  assert (k1 = length L) as Ek by (unfold k1; lia). rewrite Ek in *. rewrite firstn_all in Hm.
  destruct (Z.ltb_spec (Z.of_nat (length L)) kMaxEventsPerFrame) as [Hlt|Hge]; cbn [andb].
  - pose proof (drain_takes (ap_session a1) (kMaxEventsPerFrame - Z.of_nat (length L))) as Hd.
    destruct (src_drain (ap_session a1) _) as [s out].
    destruct Hd as (Ho & Hp & Hok' & Hat'); [apply Hr1|apply Hr1|lia|]. rewrite Hse in *.
    replace (Z.to_nat (kMaxEventsPerFrame - Z.of_nat (length L))) with (K - length L)%nat in * by lia.
    assert (take K (remaining a) = L ++ out) as Et.
    { unfold remaining. fold L. rewrite take_app, Ho. by rewrite (take_ge L) by lia. }
    rewrite Et, length_app.
    set (a2 := match out with [] => set_session a1 s | _ => _ end).
    assert (ap_model a2 = foldl (apply_event (origin a)) (ap_model a) (L ++ out) /\ ap_session a2 = s /\
      ap_staging a2 = ap_staging a1 /\ ap_life a2 = ap_life a1) as (Hm2 & Hs2 & Hst2 & Hl2).
    { unfold a2, origin. rewrite foldl_app. destruct out; cbn; rewrite ?Hm, ?Hli; done. }
    clearbody a2. unfold same_mode, remaining. cbn [ap_model ap_staging ap_session ap_life set_events].
    rewrite Hst2, Hs2, Hl2, Hl, Hnil. split; [done|]. split.
    { cbn [app]. rewrite drop_app, (drop_ge L) by (fold L; lia). exact Hp. }
    split; [done|]. split; [|lia]. destruct Hr1. by split; cbn; rewrite ?Hst2, ?Hs2.
  - assert (length L = K) as EL by lia. unfold remaining, same_mode. cbn [ap_model ap_staging ap_session ap_life set_events].
    rewrite Hse, Hl, Hnil. fold L. rewrite take_app_le, drop_app_le, (take_ge L), (drop_ge L) by lia.
    split_and!; try done. destruct Hr1. by split.
Qed.

(** The space bar only flips the pause; otherwise it does nothing to the events. *)
Lemma space_spec a lt :
  let a' := (key lt a 32).1 in
  ap_model a' = ap_model a /\ ap_session a' = ap_session a /\ ap_life a' = ap_life a /\
  staged_ (ap_staging a') = staged_ (ap_staging a) /\ staged_head_ (ap_staging a') = staged_head_ (ap_staging a).
Proof. unfold key. cbn [Z.eqb Pos.eqb andb]. repeat case_match; done. Qed.

(** Draining, the space bar and arrivals, in any order. *)
Inductive paced : HeapApp S -> list HvEvent -> HeapApp S -> Prop :=
  | pc_start a : paced a [] a
  | pc_drain a evs a' : paced a evs a' -> paced a evs (drain a').1
  | pc_space a evs a' lt : paced a evs a' -> paced a evs (key lt a' 32).1
  | pc_arrive a evs a' s' new :
      paced a evs a' -> source_ok s' -> src_attached s' = true -> pending s' = pending (ap_session a') ++ new ->
      paced a (evs ++ new) (set_session a' s').

(** C13: Pausing loses and reorders nothing.  However draining, pausing, resuming
    and arrivals interleave, what the model has been given is exactly a prefix of
    the events in the order the producer published them, each once; the rest is
    still staged or in the ring, in the same order. *)
Theorem pause_keeps_order a evs a' : ready a -> paced a evs a' ->
  exists applied, remaining a ++ evs = applied ++ remaining a' /\
    ap_model a' = foldl (apply_event (origin a)) (ap_model a) applied /\ ready a' /\ ap_life a' = ap_life a.
Proof.
  intros Hr. induction 1 as [a|a evs a' _ IH|a evs a' lt _ IH|a evs a' s' new _ IH Hok Hat Hp].
  - exists []. by rewrite app_nil_r.
  - destruct (IH Hr) as (ap & E & Hm & Hr' & Hl). pose proof (drain_spec a' Hr') as Hd.
    destruct (drain a') as [a2 n]. cbn zeta in Hd. set (k := if paused_ _ then _ else _) in Hd. clearbody k.
    destruct Hd as (Hm2 & Hrem & [Hl2 _] & Hr2 & _). exists (ap ++ take k (remaining a')). cbn [fst].
    rewrite E, Hrem, <- app_assoc, take_drop. split; [done|]. rewrite Hm2, Hm, foldl_app. unfold origin.
    rewrite Hl2, Hl. done.
  - destruct (IH Hr) as (ap & E & Hm & Hr' & Hl). destruct (space_spec a' lt) as (H1 & H2 & H3 & H4 & H5).
    exists ap. set (a2 := (key lt a' 32).1) in *. clearbody a2.
    assert (staged_rest (ap_staging a2) = staged_rest (ap_staging a')) as Es by (unfold staged_rest; by rewrite H4, H5).
    unfold remaining. rewrite Es, H2, H1, H3. split; [done|]. split; [done|]. split; [|done].
    destruct Hr'. split; rewrite ?H2, ?H4, ?H5, ?Es; done.
  - destruct (IH Hr) as (ap & E & Hm & Hr' & Hl). exists ap. rewrite app_assoc, E. unfold remaining. cbn.
    rewrite Hp, !app_assoc. split; [done|]. split; [done|]. split; [|done]. destruct Hr'. by split.
Qed.

(** [n] frames in a row. *)
Definition drained (n : nat) a : HeapApp S := Nat.iter n (fun a => (drain a).1) a.

Lemma drained_all n : forall a, ready a -> paused_ (ap_staging a) = false ->
  Z.of_nat (length (remaining a)) <= Z.of_nat n * kMaxEventsPerFrame ->
  ap_model (drained n a) = foldl (apply_event (origin a)) (ap_model a) (remaining a) /\ remaining (drained n a) = [].
Proof.
  induction n as [|n IH]; intros a Hr Hp Hn.
  { change (drained 0 a) with a. destruct (remaining a) eqn:E; [split; [reflexivity|done]|]. cbn [length] in Hn. lia. }
  unfold drained. rewrite Nat.iter_succ_r. pose proof (drain_spec a Hr) as Hd. destruct (drain a) as [a1 k].
  rewrite Hp in Hd. cbn [fst]. pose proof (Z2Nat.id kMaxEventsPerFrame ltac:(done)) as HK.
  set (K := Z.to_nat kMaxEventsPerFrame) in *. clearbody K. destruct Hd as (Hm & Hrem & [Hl Hpa] & Hr1 & _).
  destruct (IH a1 Hr1 ltac:(congruence)) as [IH1 IH2]; [rewrite Hrem, length_drop; lia|].
  unfold drained in IH1, IH2. rewrite IH1, IH2, Hrem, Hm. unfold origin. rewrite Hl, <- foldl_app, take_drop. done.
Qed.

(** A resumed application catches up: once it runs again, as many frames as
    the backlog has frame ceilings apply all of it, in order, whatever part of it
    was staged and whatever part was in the ring; no frame applies more than the
    ceiling. *)
Theorem resume_catches_up a n : ready a -> paused_ (ap_staging a) = false ->
  Z.of_nat (length (remaining a)) <= Z.of_nat n * kMaxEventsPerFrame ->
  ap_model (drained n a) = foldl (apply_event (origin a)) (ap_model a) (remaining a) /\ remaining (drained n a) = [] /\
  (drain a).2 <= kMaxEventsPerFrame.
Proof.
  intros Hr Hp Hn. destruct (drained_all n a Hr Hp Hn) as [H1 H2]. split; [done|]. split; [done|].
  pose proof (drain_spec a Hr) as Hd. destruct (drain a) as [a1 k]. cbn [snd]. rewrite Hp in Hd.
  destruct Hd as (_ & _ & _ & _ & ->). rewrite length_take. pose proof (Z2Nat.id kMaxEventsPerFrame ltac:(done)). lia.
Qed.
End Order.

(** A session over a ring in which two events wait. *)
Definition waiting_ring : Ring :=
  (hv_ring_push (hv_ring_push (fresh_ring 3) (mkPushArgs 10 0x5000 24 24 7 HV_OP_MALLOC)).1
     (mkPushArgs 11 0x6000 40 40 9 HV_OP_CALLOC)).1.
Definition waiting_session : RingSession := mkSession (Some waiting_ring) 4096 42 0 0 [].
Definition waiting_app : HeapApp RingSession :=
  new_app waiting_session (mkCaps TrueColor true) dark_theme true 5.

Lemma waiting_ready : ready waiting_app.
Proof. split; [split; split; vm_compute; congruence|reflexivity|cbn; lia|done]. Qed.

Lemma pause_keeps_order_witness :
  let a' := (drain (key None (drain (key None waiting_app 32).1).1 32).1).1 in
  exists applied, remaining waiting_app ++ [] = applied ++ remaining a' /\
    ap_model a' = foldl (apply_event (origin waiting_app)) (ap_model waiting_app) applied.
Proof.
  cbn zeta.
  assert (paced waiting_app [] (drain (key None (drain (key None waiting_app 32).1).1 32).1).1) as Hp
    by (repeat constructor).
  destruct (pause_keeps_order waiting_app [] _ waiting_ready Hp) as (applied & H1 & H2 & _).
  exists applied. split; [exact H1|exact H2].
Defined.

Lemma resume_catches_up_witness :
  Z.of_nat (length (remaining waiting_app)) = 2 /\ remaining (drained 1 waiting_app) = [].
Proof.
  assert (Z.of_nat (length (remaining waiting_app)) = 2) as H by (vm_compute; reflexivity).
  split; [exact H|].
  assert (Z.of_nat (length (remaining waiting_app)) <= Z.of_nat 1 * kMaxEventsPerFrame) as H1 by (rewrite H; discriminate).
  exact (proj1 (proj2 (resume_catches_up waiting_app 1 waiting_ready eq_refl H1))).
Defined.

(** ** The end of a session is final *)

Section Life.
Context {S : Type} `{!EventSource S}.
Implicit Types a : HeapApp S.

(** Everything but [watch] and the clock leaves the session's life alone, and
    everything but draining the source. *)
Definition kept a a' : Prop := ap_life a' = ap_life a /\ ap_session a' = ap_session a.

Lemma drain_life a : ap_life (drain a).1 = ap_life a.
Proof.
  unfold drain. destruct (negb _); [done|]. destruct (paused_ _); [by destruct (src_drain _ _)|].
  assert (ap_life (replay a).1 = ap_life a) as Hr by (unfold replay; by destruct (_ =? 0)%nat).
  destruct (replay a) as [a1 n]. cbn [fst] in Hr. destruct (_ && _); [|exact Hr].
  destruct (src_drain _ _) as [s [|e l]]; exact Hr.
Qed.
Lemma repack_kept a : kept a (repack a).1.
Proof. unfold repack. by destruct (RegionMap.rebuild _ _). Qed.
Lemma rescan_kept w a : kept a (rescan_maps w a).1.
Proof.
  unfold rescan_maps. destruct (ProcMaps.due _ _); [|done]. destruct (scan _ _ _ _) as [sc st].
  set (a1 := set_model a _). pose proof (repack_kept a1) as H. destruct (repack a1) as [a2 []]; exact H.
Qed.
Lemma snapshot_kept w a : kept a (snapshot w a).1.
Proof.
  unfold snapshot. destruct (sp_walker _); [|done]. destruct (negb _); [done|]. destruct (_ || _); [done|].
  destruct (_ && _); [done|]. destruct (walk _ _ _) as [[? ?] r]. by destruct (wr_status r).
Qed.
Lemma refit_kept a : kept a (refit a).
Proof.
  unfold refit. destruct (set_bounds _ _ _) as [g ?]. destruct (MapView.fit_grid _ _ _ _) as [g' []]; [|done].
  cbn [negb]. destruct (HeatMap.configure _ _) as [map []]; done.
Qed.
Lemma enrich_kept w a : kept a (enrich w a).1.
Proof.
  unfold enrich. destruct (sp_mode _); [done|]. destruct (_ || _); [done|]. destruct (_ <? _); [done|].
  destruct (_ =? 0)%nat; [done|]. destruct (pick _ _ _ _) as [cur [|g gs]]; [done|].
  destruct (ChunkReader.read _ _ _ _ _) as [[rd st] out].
  destruct st; try done; by destruct (foldl fold_info _ _) as [[[? ?] ?] ?].
Qed.
Lemma frag_kept a : kept a (measure_frag a).1.
Proof. unfold measure_frag. by destruct (Fragmentation.analyze _ _ _ _) as [fa []]. Qed.
Lemma leaks_kept a b : kept a (measure_leaks a b).1.
Proof. unfold measure_leaks. by destruct (Snapshot.analyze_leaks _ _ _ _ _). Qed.
Lemma inspector_kept a b : kept a (refresh_inspector a b).1.
Proof. unfold refresh_inspector. by destruct (Inspector.refresh _ _ _ _ _ _). Qed.
Lemma sample_kept a : kept a (sample_metrics a).1.
Proof. unfold sample_metrics. by destruct (sample _ _). Qed.
Lemma resized_kept a w h : kept a (resized a w h).
Proof. unfold resized. destruct (negb _); [|done]. match goal with |- kept _ (refit ?b) => exact (refit_kept b) end. Qed.
Lemma key_kept lt a b : kept a (key lt a b).1.
Proof.
  unfold key. repeat (match goal with |- context [if ?c then _ else _] => destruct c end; [done|]).
  destruct (Cursor.cursor_move_for_key b) as [mv|].
  - destruct (Cursor.move _ _ _) as [coord []]; [|done]. cbn [negb fst].
    match goal with |- kept _ (refresh_inspector ?b _).1 => exact (inspector_kept b _) end.
  - destruct (b =? 9); [by destruct (Inspector.cycle _)|]. destruct (bool_decide _); [|done].
    repeat (match goal with |- context [if ?c then _ else _] => destruct c end; [try done; by destruct (Snapshot.toggle _)|]). done.
Qed.

#[local] Instance kept_preorder : PreOrder kept.
Proof. split; [done|]. intros a1 a2 a3 [E1 E2] [E3 E4]. split; congruence. Qed.

(** One update: the clock, and the exit noticed at most once; what follows keeps both. *)
Lemma update_kept w a :
  paused_ (ap_staging a) = true /\ (update w a).1 = a \/
  kept (watch w (set_life a (set_now (ap_life a) (clamp_u32 ((w_now_ns w ⊟ lf_origin_ns (ap_life a)) / 1000000))))).1
    (update w a).1.
Proof.
  unfold update. destruct (paused_ (ap_staging a)); [by left|right].
  set (a0 := set_life a _). destruct (watch w a0) as [a1 c1]. cbn [fst].
  pose proof (rescan_kept w a1) as E2. destruct (rescan_maps w a1) as [a2 c2].
  pose proof (snapshot_kept w a2) as E3. destruct (snapshot w a2) as [a3 c3].
  assert (kept a3 (if dp_dirty (ap_display a3) && negb (range_empty (dp_bounds (ap_display a3))) && (0 <? dp_width (ap_display a3))
    then (refit a3, true) else (a3, false)).1) as E4 by (destruct (_ && _); [apply refit_kept|done]).
  destruct (if _ && _ then _ else _) as [a4 c4].
  pose proof (enrich_kept w a4) as E5. destruct (enrich w a4) as [a5 c5].
  pose proof (frag_kept a5) as E6. destruct (measure_frag a5) as [a6 c6].
  match goal with |- context [measure_leaks a6 ?b] => pose proof (leaks_kept a6 b) as E7; destruct (measure_leaks a6 b) as [a7 c7] end.
  match goal with |- context [refresh_inspector a7 ?b] => pose proof (inspector_kept a7 b) as E8; destruct (refresh_inspector a7 b) as [a8 c8] end.
  pose proof (sample_kept a8) as E9. destruct (sample_metrics a8) as [a9 c9]. cbn [fst] in *.
  by rewrite E2, E3, E4, E5, E6, E7, E8, E9.
Qed.

Lemma update_life w a :
  paused_ (ap_staging a) = true /\ (update w a).1 = a \/
  ap_life (update w a).1 = ap_life (watch w (set_life a (set_now (ap_life a)
      (clamp_u32 ((w_now_ns w ⊟ lf_origin_ns (ap_life a)) / 1000000))))).1.
Proof. destruct (update_kept w a) as [H|[H _]]; [by left|by right]. Qed.

(** Only draining, and what happens to it outside, touches the source. *)
Lemma watch_session w a : ap_session (watch w a).1 = ap_session a.
Proof. unfold watch. destruct (decide _); [|done]. by destruct (_ || _). Qed.
Lemma update_session w a : ap_session (update w a).1 = ap_session a.
Proof. destruct (update_kept w a) as [[_ ->]|[_ ->]]; [done|]. by rewrite watch_session. Qed.
Lemma drain_session a : ap_session (drain a).1 = ap_session a \/
  exists n, 0 <= n /\ ap_session (drain a).1 = (src_drain (ap_session a) n).1.
Proof.
  unfold drain. destruct (negb _); [by left|]. destruct (paused_ _).
  { right. exists kMaxEventsPerFrame. split; [done|]. by destruct (src_drain _ _). }
  assert (ap_session (replay a).1 = ap_session a) as Hr by (unfold replay; by destruct (_ =? 0)%nat).
  destruct (replay a) as [a1 n]. cbn [fst] in Hr. destruct (Z.ltb_spec n kMaxEventsPerFrame); cbn [andb]; [|by left].
  destruct (bool_decide _); [|by left]. right. exists (kMaxEventsPerFrame - n). split; [lia|]. rewrite Hr.
  destruct (src_drain _ _) as [s [|e l]]; done.
Qed.

(** Everything the loop may do with the application. *)
Inductive used : HeapApp S -> HeapApp S -> Prop :=
  | us_none a : used a a
  | us_drain a a' : used a a' -> used a (drain a').1
  | us_update a a' w : used a a' -> used a (update w a').1
  | us_key a a' lt b : used a a' -> used a (key lt a' b).1
  | us_resized a a' w h : used a a' -> used a (resized a' w h)
  | us_reset a a' : used a a' -> used a (take_stats_reset a').1
  | us_source a a' s : used a a' -> used a (set_session a' s).

Definition ended (l : Life) (ms : Z) (note : list Z) : Prop :=
  lf_state l = StExited /\ lf_exited_ms l = ms /\ lf_exit_note l = note.

(** C28: An ended session stays ended and keeps its last words: whatever frames,
    keys, resizes and counter resets follow, the state is Exited, the time the
    exit was noticed and the note built from it do not change; and the note is
    the advice about a terminal exactly for a launched target that was noticed
    gone within the first three seconds of the session, not counting its first
    millisecond. *)
Theorem exit_is_final a a' w ms :
  lf_state (ap_life a) = StLive -> paused_ (ap_staging a) = false ->
  (src_exited (ap_session a) || negb (process_alive (w_kill w) (src_pid (ap_session a)))) = true ->
  ms = clamp_u32 ((w_now_ns w ⊟ lf_origin_ns (ap_life a)) / 1000000) ->
  used (update w a).1 a' ->
  ended (ap_life a') ms
    (match lf_launch_log (ap_life a) with
     | [] => []
     | _ => if decide (0 <> ms /\ ms < kInteractiveExitMs)
            then terminal_hint ++ lf_launch_argv0 (ap_life a)
            else last_output_line (w_log w)
     end).
Proof.
  intros Hl Hp Hx -> Hu. set (ms := clamp_u32 _). set (note := match lf_launch_log _ with [] => _ | _ => _ end).
  assert (ended (ap_life (update w a).1) ms note) as He.
  { destruct (update_life w a) as [[E _]|E]; [congruence|]. rewrite E. unfold watch. cbn [set_life ap_life set_now lf_state ap_session].
    rewrite Hl, Hx. destruct (decide (StLive = StLive)); [|done]. cbn. unfold ended, build_exit_note, note. cbn. fold ms.
    split; [done|]. split; [done|]. destruct (lf_launch_log (ap_life a)); [done|].
    destruct (Z.eqb_spec ms 0); cbn; [by rewrite decide_False by lia|].
    destruct (Z.ltb_spec ms kInteractiveExitMs); [by rewrite decide_True by lia|by rewrite decide_False by lia]. }
  clear Hl Hp Hx. clearbody note ms. revert He. induction Hu as [a0|a0 a1 _ IH|a0 a1 w0 _ IH|a0 a1 lt b _ IH|a0 a1 w0 h _ IH|a0 a1 _ IH|a0 a1 s _ IH];
    intros He; [done|..]; specialize (IH He).
  - by rewrite drain_life.
  - destruct (update_life w0 a1) as [[_ E]|E]; rewrite E; [done|]. unfold watch.
    cbn [set_life ap_life set_now lf_state]. destruct IH as (H1 & H2 & H3).
    destruct (decide (lf_state (ap_life a1) = StLive)); [congruence|]. by split.
  - by rewrite (proj1 (key_kept _ _ _)).
  - by rewrite (proj1 (resized_kept _ _ _)).
  - exact IH.
  - exact IH.
Qed.
End Life.

Definition gone_world : World :=
  mkWorld 2000000005 (fun _ => Some 3) (TargetGone, []) (fun _ _ => ReplyErrno 3) 0 0 None.
Definition launched_app : HeapApp RingSession := set_launch waiting_app [47; 108] [97].

Lemma exit_is_final_witness :
  exists note, ended (ap_life (drain (update gone_world launched_app).1).1) 2000 note /\ note = terminal_hint ++ [97].
Proof.
  set (a1 := (update gone_world launched_app).1).
  assert (used a1 (drain a1).1) as Hu by exact (us_drain _ _ (us_none a1)).
  assert (lf_state (ap_life launched_app) = StLive) as H1 by (vm_compute; reflexivity).
  assert (paused_ (ap_staging launched_app) = false) as H2 by (vm_compute; reflexivity).
  assert ((src_exited (ap_session launched_app) || negb (process_alive (w_kill gone_world) (src_pid (ap_session launched_app)))) = true)
    as H3 by (vm_compute; reflexivity).
  assert (2000 = clamp_u32 ((w_now_ns gone_world ⊟ lf_origin_ns (ap_life launched_app)) / 1000000)) as H4 by (vm_compute; reflexivity).
  eexists. split; [exact (exit_is_final launched_app (drain a1).1 gone_world 2000 H1 H2 H3 H4 Hu)|].
  vm_compute. reflexivity.
Defined.
