(* ===== verification/LiveSet.v ===== *)
(** * The live set the application reports

    The counters and the table of [HeapApp] against the plain heap the events
    describe: an allocation adds an address with its usable size, or replaces
    one whose release was not seen; a release removes it. *)

From stdpp Require Import fin_maps.
From S2P Require Import Prelude Abi Ring ChunkTable ChunkTableSpec ChunkTableMap Grid ProcMaps RegionMap HeatMap.
From S2P Require Import ChunkReader HeapWalker Capabilities Theme Metrics Session HeapApp.

(** ** The reference *)

Definition heap_step (h : gmap Z Z) (e : HvEvent) : gmap Z Z :=
  if is_free e then delete (ev_ptr e) h else <[ev_ptr e := ev_usable e]> h.
Definition heap_of (es : list HvEvent) : gmap Z Z := foldl heap_step ∅ es.
Definition total (h : gmap Z Z) : Z := map_fold (fun _ v s => v + s) 0 h.

Lemma total_insert h k v : h !! k = None -> total (<[k := v]> h) = v + total h.
Proof. intros Hn. unfold total. rewrite map_fold_insert_L; [done| |done]. intros. lia. Qed.
Lemma total_delete h k v : h !! k = Some v -> total h = v + total (delete k h).
Proof.
  intros Hs. rewrite <- (insert_delete_id h k v Hs) at 1. apply total_insert, lookup_delete_eq.
Qed.
Lemma total_bounds h (b : Z) : 0 <= b -> (forall k v, h !! k = Some v -> 0 <= v <= b) -> 0 <= total h <= b * Z.of_nat (size h).
Proof.
  intros Hb. induction h as [|k v h Hn IH] using map_ind; intros Hv; [unfold total; rewrite map_fold_empty, map_size_empty; lia|].
  rewrite total_insert, map_size_insert_None by done. pose proof (Hv k v (lookup_insert_eq _ _ _)).
  destruct IH; [|lia]. intros k' v' Hk. apply (Hv k'). rewrite lookup_insert_ne; [done|]. congruence.
Qed.

(** ** What the table holds live *)

Definition live_usable (c : Chunk) : option Z := if decide (c_state c = kChunkLive) then Some (c_usable c) else None.
Definition live_of (t : ChunkTable) : gmap Z Z := omap live_usable (abs t).

Lemma live_of_lookup t k : live_of t !! k = abs t !! k ≫= live_usable.
Proof. unfold live_of. by rewrite lookup_omap. Qed.

Lemma live_of_store t t' k c : abs t' = <[k := c]> (abs t) ->
  live_of t' = match live_usable c with Some u => <[k := u]> (live_of t) | None => delete k (live_of t) end.
Proof. intros E. unfold live_of. rewrite E, omap_insert. by destruct (live_usable c). Qed.

Lemma mark_freed_capacity t k ms : capacity (mark_freed t k ms).1 = capacity t.
Proof.
  unfold mark_freed. destruct (ChunkTable.find t k) as [i|]; [|done]. cbn [fst].
  set (t1 := with_slots _ _). destruct (push_freed_same t1 k) as (E & _). unfold capacity. rewrite E. unfold t1. cbn.
  unfold slot_set. by rewrite length_insert.
Qed.

(** ** The model keeps track *)

(** Events of a producer: allocations carry an address, sizes have their widths. *)
Definition event_ok (e : HvEvent) : Prop := is_u32 (ev_usable e) /\ (is_free e = false -> ev_ptr e <> 0).

(** The table's initial capacity. *)
Definition kInitialSlots : Z := 131072.

Record tracks (n : nat) (m : Model) (h : gmap Z Z) : Prop := {
  tk_wf : wf (md_table m);
  tk_nocap : max_entries_ (md_table m) = 0;
  tk_size : size_ (md_table m) <= Z.of_nat n;
  tk_capacity : capacity (md_table m) <= Z.max kInitialSlots (5 * size_ (md_table m));
  tk_live : live_of (md_table m) = h;
  tk_count : md_live m = Z.of_nat (size h);
  tk_few : (size h <= n)%nat;
  tk_bytes : md_live_bytes m = total h;
  tk_widths : forall k v, h !! k = Some v -> 0 <= v <= UINT32_MAX
}.

Section Track.
Context (n : nat) (Hn : Z.of_nat n < 2 ^ 31).

Lemma tracks_total m h : tracks n m h -> 0 <= total h < 2 ^ 63.
Proof.
  intros Ht. pose proof (total_bounds h UINT32_MAX ltac:(done) (tk_widths _ _ _ Ht)). pose proof (tk_few _ _ _ Ht).
  unfold UINT32_MAX in *. change (2 ^ 31) with 2147483648 in Hn. change (2 ^ 63) with 9223372036854775808. nia.
Qed.

Lemma tracks_capacity m h : tracks n m h -> capacity (md_table m) <= 2 ^ 56.
Proof.
  intros Ht. pose proof (tk_capacity _ _ _ Ht). pose proof (tk_size _ _ _ Ht).
  unfold kInitialSlots in *. change (2 ^ 31) with 2147483648 in Hn. change (2 ^ 56) with 72057594037927936. lia.
Qed.

(** Taking one block out of the total. *)
Lemma sat_sub_total (h : gmap Z Z) k v : (forall k v, h !! k = Some v -> 0 <= v <= UINT32_MAX) -> h !! k = Some v ->
  sat_sub (total h) v = total (delete k h).
Proof.
  intros Hw Hk. rewrite (total_delete h k v Hk). unfold sat_sub.
  destruct (total_bounds (delete k h) UINT32_MAX ltac:(done)) as [H0 _].
  { intros k' v' Hl. apply lookup_delete_Some in Hl as [_ Hl]. by apply (Hw k'). }
  destruct (Z.leb_spec v (v + total (delete k h))); lia.
Qed.

Lemma widths_delete (h : gmap Z Z) k : (forall k v, h !! k = Some v -> 0 <= v <= UINT32_MAX) ->
  forall k' v, delete k h !! k' = Some v -> 0 <= v <= UINT32_MAX.
Proof. intros Hw k' v Hl. apply lookup_delete_Some in Hl as [_ Hl]. by apply (Hw k'). Qed.

Lemma apply_free_tracks m h e ms : tracks n m h -> tracks n (apply_free m e ms) (delete (ev_ptr e) h).
Proof.
  intros Ht. pose proof Ht as [Hwf Hcap Hsz Hcp Hl Hc Hf Hb Hw]. unfold apply_free.
  assert (lookup_chunk (md_table m) (ev_ptr e) = abs (md_table m) !! ev_ptr e) as Hlk
    by (apply lookup_chunk_abs, Hwf).
  rewrite Hlk. pose proof (mark_freed_acts (md_table m) (ev_ptr e) ms Hwf) as Ha.
  assert (live_of (md_table m) !! ev_ptr e = abs (md_table m) !! ev_ptr e ≫= live_usable) as Hlive by apply live_of_lookup.
  destruct (abs (md_table m) !! ev_ptr e) as [c|] eqn:Ec.
  - destruct (mark_freed (md_table m) (ev_ptr e) ms) as [t' ok] eqn:Em. destruct Ha as (Hwf' & Hmx & _ & Habs & Hsz').
    assert (capacity t' = capacity (md_table m)) as Hcap'
      by (rewrite <- (mark_freed_capacity (md_table m) (ev_ptr e) ms), Em; done).
    pose proof (live_of_store _ _ _ _ Habs) as Hlo. change (live_usable (free_record c ms)) with (@None Z) in Hlo.
    rewrite Hl in Hlo, Hlive. cbn [mbind option_bind] in Hlive. unfold live_usable in Hlive.
    destruct (decide (c_state c = kChunkLive)) as [Hst|Hst].
    + assert (size h <> 0%nat) as Hne by (intros Hz; apply map_size_empty_iff in Hz; by rewrite Hz, lookup_empty in Hlive).
      split; cbn [md_table md_live md_live_bytes fst]; rewrite ?Hmx, ?Hsz', ?Hcap'; try done.
      * rewrite map_size_delete, Hlive, Hc. cbn. destruct (Z.eqb_spec (Z.of_nat (size h)) 0); cbn; lia.
      * rewrite map_size_delete, Hlive. cbn. lia.
      * rewrite Hb. by apply sat_sub_total.
      * by apply widths_delete.
    + assert (delete (ev_ptr e) h = h) as Hd by (by apply delete_id).
      rewrite Hd in *. split; cbn [md_table md_live md_live_bytes fst]; rewrite ?Hmx, ?Hsz', ?Hcap'; done.
  - rewrite Hl in Hlive. cbn in Hlive. rewrite delete_id by done. by split.
Qed.

Lemma widths_insert (h : gmap Z Z) k u : is_u32 u -> (forall k v, h !! k = Some v -> 0 <= v <= UINT32_MAX) ->
  forall k' v, <[k := u]> h !! k' = Some v -> 0 <= v <= UINT32_MAX.
Proof.
  intros Hu Hw k' v Hl. apply lookup_insert_Some in Hl as [[_ <-]|[_ Hl]]; [|by apply (Hw k')].
  unfold is_u32, UINT32_MAX in *. rewrite pow2_32 in Hu. lia.
Qed.

(** The counters after an allocation: a fresh address adds a block, a known live
    one has its block replaced. *)
Lemma alloc_counts m h e : tracks n m h -> (S (size h) <= n)%nat -> is_u32 (ev_usable e) ->
  let '(live, bytes) :=
    match lookup_chunk (md_table m) (ev_ptr e) with
    | Some prev =>
        if decide (c_state prev = kChunkLive) then (md_live m, sat_sub (md_live_bytes m) (c_usable prev))
        else (md_live m ⊞ 1, md_live_bytes m)
    | None => (md_live m ⊞ 1, md_live_bytes m)
    end in
  live = Z.of_nat (size (<[ev_ptr e := ev_usable e]> h)) /\ (bytes ⊞ ev_usable e) = total (<[ev_ptr e := ev_usable e]> h).
Proof.
  intros Ht Hroom Hu. pose proof (tracks_total m h Ht) as Htot. pose proof Ht as [Hwf Hcap Hsz Hcp Hl Hc Hf Hb Hw].
  rewrite (lookup_chunk_abs _ _ (wf_table _ Hwf)).
  pose proof (live_of_lookup (md_table m) (ev_ptr e)) as Hlive. rewrite Hl in Hlive.
  assert (2 ^ 63 + 2 ^ 32 < 2 ^ 64) as Hp by done. unfold is_u32 in Hu.
  assert (h !! ev_ptr e = None -> md_live m ⊞ 1 = Z.of_nat (size (<[ev_ptr e := ev_usable e]> h)) /\
    (md_live_bytes m ⊞ ev_usable e) = total (<[ev_ptr e := ev_usable e]> h)) as Hfresh.
  { intros Hnone. rewrite map_size_insert_None, total_insert, Hc, Hb by done.
    rewrite !u64_small by (unfold is_u64; rewrite ?pow2_64 in *; change (2 ^ 31) with 2147483648 in Hn; lia). lia. }
  destruct (abs (md_table m) !! ev_ptr e) as [c|] eqn:Ec; cbn [mbind option_bind] in Hlive; [|by apply Hfresh].
  unfold live_usable in Hlive. destruct (decide (c_state c = kChunkLive)) as [Hst|Hst]; [|by apply Hfresh].
  rewrite map_size_insert_Some by (by eexists). split; [done|]. rewrite Hb, (sat_sub_total h _ _ Hw Hlive).
  rewrite <- insert_delete_eq, total_insert by apply lookup_delete_eq.
  pose proof (total_delete h _ _ Hlive). pose proof (Hw _ _ Hlive).
  pose proof (total_bounds (delete (ev_ptr e) h) UINT32_MAX ltac:(done) (widths_delete h _ Hw)).
  rewrite u64_small by (unfold is_u64; lia). lia.
Qed.

Lemma apply_alloc_tracks m h e ms : tracks n m h -> (S (size h) <= n)%nat -> size_ (md_table m) < Z.of_nat n ->
  is_u32 (ev_usable e) -> ev_ptr e <> 0 -> tracks n (apply_alloc m e ms) (<[ev_ptr e := ev_usable e]> h).
Proof.
  intros Ht Hroom Hroom' Hu Hp. pose proof (alloc_counts m h e Ht Hroom Hu) as Hcnt.
  pose proof (tracks_capacity m h Ht) as Hcap56. pose proof Ht as [Hwf Hcap Hsz Hcp Hl Hc Hf Hb Hw].
  unfold apply_alloc. destruct (match lookup_chunk _ _ with Some _ => _ | None => _ end) as [live bytes].
  destruct Hcnt as [Hlive Hbytes]. set (sz := clamp_u32 (ev_size e)). set (tid := hv_event_get_tid e).
  pose proof (insert_live_acts (md_table m) (ev_ptr e) sz (ev_usable e) ms tid Hwf Hcap56) as Ha.
  pose proof (insert_live_grows (md_table m) (ev_ptr e) sz (ev_usable e) ms tid Hwf Hcap56 Hcap) as [Hg1 Hg2].
  destruct (insert_live _ _ _ _ _ _) as [t' ok]. destruct Ha as (Hwf' & Hmx & Ha). cbn [fst] in *.
  apply Z.eqb_neq in Hp. rewrite Hp in Ha.
  assert (live_of t' = <[ev_ptr e := ev_usable e]> h) as Hlo.
  { rewrite <- Hl. destruct (abs (md_table m) !! ev_ptr e) as [c|].
    - destruct Ha as [_ Ha]. apply (live_of_store _ _ _ _ Ha).
    - destruct ok; [|lia]. destruct Ha as (mm & [[_ ->]|[? _]] & Ha); [|lia]. apply (live_of_store _ _ _ _ Ha). }
  split; cbn [md_table md_live md_live_bytes]; try done; [congruence|lia|lia| |by apply widths_insert].
  destruct (h !! ev_ptr e) eqn:E; [rewrite map_size_insert_Some by (by eexists); lia|rewrite map_size_insert_None by done; lia].
Qed.
End Track.

(** Fewer events so far than the bound. *)
Lemma tracks_mono n n' m h : (n <= n')%nat -> tracks n m h -> tracks n' m h.
Proof. intros Hle []. split; try done; lia. Qed.

Lemma apply_event_tracks o n m h e : Z.of_nat (S n) < 2 ^ 31 -> tracks n m h -> event_ok e ->
  tracks (S n) (apply_event o m e) (heap_step h e).
Proof.
  intros Hn Ht [Hu Hp]. unfold apply_event, heap_step.
  set (m1 := with_scanner m _). assert (tracks (S n) m1 h) as Ht1.
  { apply (tracks_mono n); [lia|]. destruct Ht. by split. }
  destruct (is_free e); [by apply apply_free_tracks|].
  apply apply_alloc_tracks; [done|done| | |done|by apply Hp].
  - pose proof (tk_few _ _ _ Ht). lia.
  - pose proof (tk_size _ _ _ Ht). unfold m1. cbn. lia.
Qed.

Lemma apply_all_tracks o es m : tracks 0 m ∅ -> Forall event_ok es -> Z.of_nat (length es) < 2 ^ 31 ->
  tracks (length es) (foldl (apply_event o) m es) (heap_of es).
Proof.
  intros H0 Hok. unfold heap_of. induction es as [|e es IH] using rev_ind; intros Hn; [done|].
  apply Forall_app in Hok as [Hok [He _]%Forall_cons].
  rewrite length_app, Nat.add_1_r in Hn |- *. rewrite !foldl_app. cbn [foldl].
  apply apply_event_tracks; [lia|apply IH; [done|lia]|done].
Qed.

(** The table a new application starts with. *)
Lemma new_app_tracks {S} `{!EventSource S} (s : S) caps theme anim now_ns :
  tracks 0 (ap_model (new_app s caps theme anim now_ns)) ∅.
Proof.
  unfold new_app. destruct (if src_attached s then _ else _) as [state dropped]. cbn [ap_model].
  destruct (new_table_wf 1024 ltac:(done)) as [Hwf Hab].
  pose proof (reserve_acts (new_table 1024) (Z.shiftl 1 16) Hwf ltac:(done)) as Hr.
  assert (capacity (reserve (new_table 1024) (Z.shiftl 1 16)).1 = kInitialSlots) as Hcap by (vm_compute; reflexivity).
  destruct (reserve (new_table 1024) (Z.shiftl 1 16)) as [t ok]. destruct Hr as (_ & Hwf' & Hm & Ha & _). cbn [fst] in *.
  assert (size_ t = 0) as Hs by (by rewrite (abs_size t Hwf'), Ha, Hab, map_size_empty).
  split; cbn [md_table md_live md_live_bytes]; rewrite ?Hs, ?Hcap, ?map_size_empty; try done.
  unfold live_of. by rewrite Ha, Hab, omap_empty.
Qed.

Lemma live_set_tracks {S} `{!EventSource S} (s : S) caps theme anim now_ns es :
  Forall event_ok es -> Z.of_nat (length es) < 2 ^ 31 ->
  let m := foldl (apply_event now_ns) (ap_model (new_app s caps theme anim now_ns)) es in
  live_of (md_table m) = heap_of es /\ md_live m = Z.of_nat (size (heap_of es)) /\ md_live_bytes m = total (heap_of es).
Proof.
  intros Hok Hn. cbn zeta.
  pose proof (apply_all_tracks now_ns es _ (new_app_tracks s caps theme anim now_ns) Hok Hn) as [].
  done.
Qed.

(** C12: The live set is the one the events describe.  After any sequence of
    events (fewer than 2^31), the addresses the table holds live, each with its
    usable size, are those of the plain heap in which an allocation sets an
    address and a release removes it, whatever was already there; the live count
    is its size and the live bytes its total, unwrapped. *)
Theorem live_set_refines {S} `{!EventSource S} (s : S) caps theme anim now_ns es :
  Forall event_ok es -> Z.of_nat (length es) < 2 ^ 31 ->
  let m := foldl (apply_event now_ns) (ap_model (new_app s caps theme anim now_ns)) es in
  live_of (md_table m) = heap_of es /\ md_live m = Z.of_nat (size (heap_of es)) /\ md_live_bytes m = total (heap_of es).
Proof. apply live_set_tracks. Qed.

Definition ev (op ptr size usable ms : Z) : HvEvent := mkHvEvent (1000000 * ms) ptr size usable 0 0 0 op.
Definition demo_events : list HvEvent :=
  [ev HV_OP_MALLOC 4096 20 24 1; ev HV_OP_MALLOC 4128 40 40 2; ev HV_OP_FREE 4096 0 24 3; ev HV_OP_FREE 9999 0 8 4;
   ev HV_OP_REALLOC 4128 50 56 5].

Lemma live_set_refines_witness :
  let m := foldl (apply_event 0) (ap_model (new_app new_session (mkCaps TrueColor true) dark_theme true 0)) demo_events in
  md_live m = 1 /\ md_live_bytes m = 56.
Proof.
  assert (Forall event_ok demo_events) as H1.
  { unfold demo_events. repeat constructor; vm_compute; congruence. }
  assert (Z.of_nat (length demo_events) < 2 ^ 31) as H2 by (vm_compute; reflexivity).
  assert (Z.of_nat (size (heap_of demo_events)) = 1) as E1 by (vm_compute; reflexivity).
  assert (total (heap_of demo_events) = 56) as E2 by (vm_compute; reflexivity).
  pose proof (live_set_refines new_session (mkCaps TrueColor true) dark_theme true 0 demo_events H1 H2) as [_ [H3 H4]].
  split; [rewrite H3; exact E1|rewrite H4; exact E2].
Defined.

(** ** A snapshot pass replaces the live set and keeps its ages *)

Definition walked_record (c : WalkedChunk * Z) : Z * Chunk :=
  let usable := clamp_u32 (wc_usable c.1) in
  (wc_user_ptr c.1, live_record (wc_user_ptr c.1) usable usable c.2 0).
Definition walked_ok (c : WalkedChunk) : Prop := wc_user_ptr c <> 0 /\ 0 <= wc_usable c.
Definition walked_bytes (l : list WalkedChunk) : Z := sum_by wc_usable l.

Lemma walked_keys l : (walked_record <$> l).*1 = wc_user_ptr <$> l.*1.
Proof. rewrite <- !list_fmap_compose. by apply list_fmap_ext. Qed.

Record adopted (m : Model) (l : list (WalkedChunk * Z)) : Prop := {
  ad_wf : wf (md_table m);
  ad_nocap : max_entries_ (md_table m) = 0;
  ad_size : size_ (md_table m) <= Z.of_nat (length l);
  ad_capacity : capacity (md_table m) <= 2 ^ 40;
  ad_records : abs (md_table m) = list_to_map (walked_record <$> l);
  ad_live : md_live m = Z.of_nat (length l);
  ad_bytes : md_live_bytes m = walked_bytes (l.*1)
}.

Lemma walked_bytes_nonneg l : Forall walked_ok l -> 0 <= walked_bytes l.
Proof. intros Hf. apply sum_by_nonneg. intros c Hc. rewrite Forall_forall in Hf. by apply (Hf c). Qed.

Lemma take_walked_adopts m l c : adopted m l -> Z.of_nat (S (length l)) < 2 ^ 31 ->
  wc_user_ptr c.1 ∉ wc_user_ptr <$> l.*1 -> Forall walked_ok (l.*1) -> walked_ok c.1 ->
  walked_bytes (l.*1) + wc_usable c.1 < 2 ^ 64 -> adopted (take_walked m c) (l ++ [c]).
Proof.
  intros [Hwf Hmax Hsz Hcap Hrec Hl Hb] Hn Hfresh Hok [Hp Hu] Hbytes.
  pose proof (walked_bytes_nonneg _ Hok) as Hnn. change (2 ^ 31) with 2147483648 in Hn.
  assert (2 ^ 40 = 1099511627776) as E40 by done. assert (2 ^ 56 = 72057594037927936) as E56 by done.
  unfold take_walked. set (u := clamp_u32 _).
  pose proof (insert_live_acts (md_table m) (wc_user_ptr c.1) u u c.2 0 Hwf ltac:(lia)) as Ha.
  pose proof (insert_live_grows (md_table m) (wc_user_ptr c.1) u u c.2 0 Hwf ltac:(lia) Hmax) as [Hg1 Hg2].
  destruct (insert_live _ _ _ _ _ _) as [t' ok]. destruct Ha as (Hwf' & Hmx & Ha). cbn [fst] in Hg1, Hg2.
  apply Z.eqb_neq in Hp. rewrite Hp in Ha.
  assert (abs (md_table m) !! wc_user_ptr c.1 = None) as Hnone.
  { rewrite Hrec. apply not_elem_of_list_to_map. by rewrite walked_keys. }
  rewrite Hnone in Ha. destruct ok; [|lia]. destruct Ha as (mm & [[_ ->]|[? _]] & Ha); [|lia].
  split; cbn [md_table md_live md_live_bytes fst]; rewrite ?length_app; cbn [length]; [done|congruence|lia|lia| | |].
  - rewrite Ha, Hrec, fmap_app. cbn [fmap list_fmap]. unfold walked_record at 3. fold u.
    rewrite list_to_map_snoc; [done|]. by rewrite walked_keys.
  - rewrite Hl. rewrite u64_small by (unfold is_u64; rewrite pow2_64; lia). lia.
  - rewrite fmap_app. unfold walked_bytes. cbn [fmap list_fmap]. rewrite sum_by_snoc, Hb.
    apply u64_small. unfold is_u64. unfold walked_bytes in *. lia.
Qed.

Lemma adopt_all l : forall m, adopted m [] -> NoDup (wc_user_ptr <$> l.*1) -> Forall walked_ok (l.*1) ->
  Z.of_nat (length l) < 2 ^ 31 -> walked_bytes (l.*1) < 2 ^ 64 -> adopted (foldl take_walked m l) l.
Proof.
  induction l as [|c l IH] using rev_ind; intros m H0 Hnd Hok Hn Hb; [done|].
  rewrite (fmap_app fst) in Hnd, Hok, Hb. rewrite (fmap_app wc_user_ptr) in Hnd. unfold walked_bytes in Hb.
  cbn [fmap list_fmap] in *.
  rewrite sum_by_snoc in Hb. apply NoDup_app in Hnd as (Hnd & Hdis & _). apply Forall_app in Hok as [Hok [Hc _]%Forall_cons].
  rewrite length_app in Hn. cbn [length] in Hn. pose proof (walked_bytes_nonneg _ Hok). destruct Hc as [Hc1 Hc2].
  rewrite foldl_app. cbn [foldl]. apply take_walked_adopts; [apply IH; try done| |..]; unfold walked_bytes in *; try lia; try done.
  intros Hin. apply (Hdis _ Hin). by left.
Qed.

(** C18: A snapshot pass replaces the live set with exactly what the walk found
    and keeps what is known of its past: the table afterwards holds one live
    record per walked chunk and nothing else; a chunk that was live before keeps
    the time it was first seen, any other is new now; the counters are the number
    of chunks and their bytes; the heat map is rebuilt from that table. *)
Theorem adopt_walk_exact m now walked :
  wf (md_table m) -> max_entries_ (md_table m) = 0 -> capacity (md_table m) <= 2 ^ 40 ->
  NoDup (wc_user_ptr <$> walked) -> Forall walked_ok walked -> Z.of_nat (length walked) < 2 ^ 31 ->
  walked_bytes walked < 2 ^ 64 ->
  let m' := adopt_walk m now walked in
  wf (md_table m') /\
  abs (md_table m') = list_to_map (walked_record <$> zip walked (first_seen (md_table m) now <$> walked)) /\
  md_live m' = Z.of_nat (length walked) /\ md_live_bytes m' = walked_bytes walked /\
  md_map m' = HeatMap.rebuild (md_map m) (md_table m').
Proof.
  intros Hwf Hmax Hcap Hnd Hok Hn Hb. cbn zeta. unfold adopt_walk.
  set (firsts := first_seen (md_table m) now <$> walked).
  assert ((zip walked firsts).*1 = walked) as Ez by (apply fst_zip; unfold firsts; by rewrite length_fmap).
  assert (length (zip walked firsts) = length walked) as El by (rewrite <- Ez at 2; by rewrite length_fmap).
  set (m0 := mkModel (ChunkTable.clear (md_table m)) _ _ _ _ _ _).
  assert (md_map m0 = md_map m) as Hmap by done.
  assert (adopted m0 []) as H0.
  { destruct (clear_acts (md_table m) Hwf) as (Hwf' & Ha & Hrest).
    split; cbn [md_table md_live md_live_bytes m0]; try done; unfold capacity in *; cbn; rewrite ?length_fmap; done. }
  pose proof (adopt_all (zip walked firsts) m0 H0) as Had. rewrite Ez, El in Had. specialize (Had Hnd Hok Hn Hb).
  assert (forall l m1, md_map (foldl take_walked m1 l) = md_map m1) as Hkeep.
  { induction l as [|x l IH]; intros m1; [done|]. cbn [foldl]. by rewrite IH. }
  specialize (Hkeep (zip walked firsts) m0). rewrite Hmap in Hkeep.
  destruct Had as [A1 A2 A3 A4 A5 A6 A7]. rewrite Ez in A7. rewrite El in A6. cbn [with_map md_table md_live md_live_bytes md_map].
  by rewrite Hkeep.
Qed.

Definition plain_model (h : HeatMap) : Model := mkModel (new_table 16) h (new_scanner 1) new_metrics 0 0 0.
Definition demo_walked : list WalkedChunk := [mkWalked 4096 32 24; mkWalked 4160 48 40].

Lemma adopt_walk_exact_witness :
  let m := apply_event 0 (plain_model new_heatmap) (ev HV_OP_MALLOC 4160 40 40 7) in
  md_live (adopt_walk m 90 demo_walked) = 2 /\
  (c_alloc_ms <$> abs (md_table (adopt_walk m 90 demo_walked)) !! 4160) = Some 7.
Proof.
  cbn zeta. set (m := apply_event 0 (plain_model new_heatmap) (ev HV_OP_MALLOC 4160 40 40 7)).
  assert (tracks 0 (plain_model new_heatmap) ∅) as T0.
  { destruct (new_table_wf 16 ltac:(done)) as [Hwf Hab]. by split. }
  assert (event_ok (ev HV_OP_MALLOC 4160 40 40 7)) as Hev by (split; [split; vm_compute; congruence|done]).
  pose proof (apply_event_tracks 0 0 _ _ _ ltac:(done) T0 Hev) as T1. fold m in T1.
  assert (max_entries_ (md_table m) = 0) as H2 by apply T1.
  assert (capacity (md_table m) <= 2 ^ 40) as H3 by (vm_compute; discriminate).
  assert (NoDup (wc_user_ptr <$> demo_walked)) as H4
    by (cbn; repeat constructor; set_solver).
  assert (Forall walked_ok demo_walked) as H5 by (by repeat constructor).
  assert (Z.of_nat (length demo_walked) < 2 ^ 31) as H6 by (vm_compute; reflexivity).
  assert (walked_bytes demo_walked < 2 ^ 64) as H7 by (vm_compute; reflexivity).
  pose proof (adopt_walk_exact m 90 demo_walked (tk_wf _ _ _ T1) H2 H3 H4 H5 H6 H7) as (_ & Ha & Hl & _).
  split; [exact Hl|]. rewrite Ha. vm_compute. reflexivity.
Defined.

(** ** Where the cells depart from the table *)

(** The cell of the two addresses below, in a map of 64-byte cells. *)
Definition cell_map : HeatMap := (HeatMap.configure new_heatmap (Grid.configure 4096 69632 80 20).1).1.
Definition refined_model (m : Model) : Model :=
  (fold_info (m, 0, 0, false) (4096, 20, 4, mkInfo 4096 32 12 false false true true)).1.1.1.

(** Two histories after which a cell no longer says what the table holds,
    until the next rebuild.  A second release of an address whose record is still
    kept as freed (its reuse was lost with a dropped event) is taken off another
    chunk's count: a cell that holds a live chunk reads empty.  And a record that
    was measured keeps its mark when its address is reused, so the second release
    undoes a correction that was never made, at the cost of its neighbour's
    overhead. *)
Theorem cells_drift :
  let malloc p ms := ev HV_OP_MALLOC p 20 24 ms in
  let free p ms := ev HV_OP_FREE p 0 24 ms in
  let both := foldl (apply_event 0) (plain_model cell_map) [malloc 4096 1; malloc 4128 2] in
  let twice := foldl (apply_event 0) both [free 4096 3; free 4096 4] in
  let again := foldl (apply_event 0) (refined_model both) [free 4096 3; malloc 4096 4; free 4096 5] in
  live_of (md_table twice) = {[4128 := 24]} /\ md_live twice = 1 /\
  n_live (at_cell (md_map twice) 0) = 0 /\ n_live (at_cell (HeatMap.rebuild (md_map twice) (md_table twice)) 0) = 1 /\
  live_of (md_table again) = {[4128 := 24]} /\
  overhead_bytes (at_cell (md_map again) 0) = 0 /\
  overhead_bytes (at_cell (HeatMap.rebuild (md_map again) (md_table again)) 0) = 4.
Proof. by vm_compute. Qed.
