(* ===== verification/Watching.v ===== *)
(** * What watching leaves alone

    The timed passes, the keys and a new size of the screen change how the heap
    is shown, never which blocks are live: outside snapshot mode [update], [key]
    and [resized] keep every statement [tracks] makes of the model, and what is
    staged and the source as well. *)

From S2P Require Import Prelude Abi Ring ChunkTable ChunkTableProofs ChunkTableSpec ChunkTableMap Grid ProcMaps RegionMap HeatMap.
From S2P Require Import ChunkReader HeapWalker Metrics Session HeapApp HeapAppProofs LiveSet.

(** ** Tables and models with the same live set *)

Record table_like (t t' : ChunkTable) : Prop := {
  tl_wf : wf t -> wf t' /\ live_of t' = live_of t;
  tl_cap : max_entries_ t' = max_entries_ t;
  tl_size : size_ t' = size_ t;
  tl_capacity : capacity t' = capacity t
}.
#[export] Instance table_like_preorder : PreOrder table_like.
Proof.
  split; [by split|]. intros t1 t2 t3 [W1 M1 S1 C1] [W2 M2 S2 C2]. split; [|congruence..].
  intros H. destruct (W1 H) as [H2 E2]. destruct (W2 H2) as [H3 E3]. split; [done|congruence].
Qed.

Lemma mark_refined_like t key exact flags : table_like t (mark_refined t key exact flags).1.
Proof.
  assert (max_entries_ (mark_refined t key exact flags).1 = max_entries_ t /\ size_ (mark_refined t key exact flags).1 = size_ t /\
    capacity (mark_refined t key exact flags).1 = capacity t) as (Em & Es & Ec).
  { unfold mark_refined. destruct (_ <? _); [done|]. destruct (ChunkTable.find t key); [|done]. cbn [fst]. split; [done|]. split; [done|].
    unfold capacity. cbn. by rewrite slot_set_length. }
  split; try done. intros Hwf. pose proof (mark_refined_acts t key exact flags Hwf) as Ha.
  destruct (mark_refined t key exact flags) as [t' ok]. cbn [fst] in *. destruct Ha as (Hwf' & _ & Ha). split; [done|].
  destruct (abs t !! key) as [c|] eqn:E; [|by destruct Ha as [_ ->]].
  destruct (exact <=? UINT16_MAX); [|by destruct Ha as [_ ->]]. destruct Ha as [_ Ha]. rewrite (live_of_store _ _ _ _ Ha).
  change (live_usable (refine_record c exact flags)) with (live_usable c).
  pose proof (live_of_lookup t key) as Hl. rewrite E in Hl. cbn in Hl. destruct (live_usable c); [by apply insert_id|by apply delete_id].
Qed.

Lemma clear_refined_like t : table_like t (clear_refined t).
Proof.
  split; [|done|done|unfold capacity; cbn; by rewrite length_fmap].
  intros Hwf. destruct (clear_refined_acts t Hwf) as (Hwf' & Ha & _). split; [done|].
  apply map_eq. intros k. rewrite !live_of_lookup, Ha, lookup_fmap. by destruct (abs t !! k).
Qed.

Definition model_like (m m' : Model) : Prop :=
  table_like (md_table m) (md_table m') /\ md_live m' = md_live m /\ md_live_bytes m' = md_live_bytes m.
#[export] Instance model_like_preorder : PreOrder model_like.
Proof.
  split; [intros m; by split|]. intros m1 m2 m3 (T1 & L1 & B1) (T2 & L2 & B2).
  split; [by etransitivity|]. split; congruence.
Qed.

Lemma tracks_like n m m' h : model_like m m' -> tracks n m h -> tracks n m' h.
Proof.
  intros ([W M S C] & Hl & Hb) [Hwf Hcap Hsz Hcp Hlo Hc Hf Hby Hw]. destruct (W Hwf) as [Hwf' Elo].
  split; rewrite ?M, ?S, ?C, ?Elo, ?Hl, ?Hb; done.
Qed.

Lemma fold_info_like xs : forall st, model_like st.1.1.1 (foldl fold_info st xs).1.1.1.
Proof.
  induction xs as [|x xs IH]; intros st; [done|]. cbn [foldl]. etransitivity; [|apply IH]. clear IH.
  destruct st as [[[m refined] exact] changed], x as [[[ptr sz] approx] info]. cbn [fold_info fst].
  destruct (negb (info_valid info)); [done|].
  pose proof (mark_refined_like (md_table m) ptr (overhead info) (header_flags info)) as Hl.
  destruct (mark_refined _ _ _ _) as [t ok]. cbn [fst] in Hl. destruct (negb ok); [by split|].
  destruct (refine_overhead _ _ _ _) as [hm folded]. by split.
Qed.

(** ** The passes *)

Section Passes.
Context {S : Type} `{!EventSource S}.
Implicit Types a : HeapApp S.

Definition steady a a' : Prop :=
  model_like (ap_model a) (ap_model a') /\ ap_staging a' = ap_staging a /\ ap_sampling a' = ap_sampling a /\
  ap_session a' = ap_session a.
#[export] Instance steady_preorder : PreOrder steady.
Proof.
  split; [intros a; by split|]. intros a1 a2 a3 (M1 & S1 & P1 & E1) (M2 & S2 & P2 & E2).
  split; [by etransitivity|]. split_and!; congruence.
Qed.

Ltac same := split; [by split|done].

Lemma watch_steady w a : steady a (watch w a).1.
Proof. unfold watch. destruct (decide _); [|done]. destruct (_ || _); [same|done]. Qed.
Lemma rescan_steady w a : steady a (rescan_maps w a).1.
Proof.
  unfold rescan_maps. destruct (ProcMaps.due _ _); [|done]. destruct (scan _ _ _ _) as [sc st]. unfold repack.
  destruct (RegionMap.rebuild _ _) as [r []]; same.
Qed.
Lemma snapshot_steady w a : sp_mode (ap_sampling a) = false -> steady a (snapshot w a).1.
Proof. intros E. unfold snapshot. destruct (sp_walker _); [|done]. by rewrite E. Qed.
Lemma refit_steady a : steady a (refit a).
Proof.
  unfold refit. destruct (set_bounds _ _ _) as [g b]. destruct (MapView.fit_grid _ _ _ _) as [g' ok]. destruct (negb ok); [same|].
  destruct (HeatMap.configure _ _) as [map []]; [|same]. split; [|done]. split; [|done]. apply clear_refined_like.
Qed.
Lemma enrich_steady w a : steady a (enrich w a).1.
Proof.
  unfold enrich. cbv zeta. destruct (sp_mode _); [done|]. destruct (_ || _); [done|]. destruct (_ <? _); [done|].
  destruct (_ =? 0)%nat; [same|]. destruct (pick _ _ _ _) as [cursor [|x got]]; [same|].
  destruct (ChunkReader.read _ _ _ _ _) as [[rd st] out].
  destruct st; try same;
    match goal with |- context [foldl fold_info ?st ?xs] =>
      pose proof (fold_info_like xs st) as Hl; destruct (foldl fold_info st xs) as [[[m refined] exact] changed] end;
    by split.
Qed.
Lemma frag_steady a : steady a (measure_frag a).1.
Proof. unfold measure_frag. destruct (Fragmentation.analyze _ _ _ _) as [fa []]; same. Qed.
Lemma leaks_steady a b : steady a (measure_leaks a b).1.
Proof. unfold measure_leaks. destruct (Snapshot.analyze_leaks _ _ _ _ _). same. Qed.
Lemma inspector_steady a b : steady a (refresh_inspector a b).1.
Proof. unfold refresh_inspector. destruct (Inspector.refresh _ _ _ _ _ _). same. Qed.
Lemma sample_steady a : steady a (sample_metrics a).1.
Proof. unfold sample_metrics. destruct (sample _ _). same. Qed.

(** A frame's passes, outside snapshot mode. *)
Lemma update_steady w a : sp_mode (ap_sampling a) = false -> steady a (update w a).1.
Proof.
  intros Hm. unfold update. destruct (paused_ _); [done|]. set (a0 := set_life a _). assert (steady a a0) as E0 by same.
  pose proof (watch_steady w a0) as E1. destruct (watch w a0) as [a1 c1].
  pose proof (rescan_steady w a1) as E2. destruct (rescan_maps w a1) as [a2 c2]. cbn [fst] in *.
  assert (steady a a2) as E02 by (by rewrite E0, E1). pose proof E02 as (_ & _ & Ep & _).
  pose proof (snapshot_steady w a2 ltac:(by rewrite Ep)) as E3. destruct (snapshot w a2) as [a3 c3].
  assert (steady a3 (if dp_dirty (ap_display a3) && negb (range_empty (dp_bounds (ap_display a3))) && (0 <? dp_width (ap_display a3))
    then (refit a3, true) else (a3, false)).1) as E4 by (destruct (_ && _); [apply refit_steady|done]).
  destruct (if _ && _ then _ else _) as [a4 c4].
  pose proof (enrich_steady w a4) as E5. destruct (enrich w a4) as [a5 c5].
  pose proof (frag_steady a5) as E6. destruct (measure_frag a5) as [a6 c6].
  match goal with |- context [measure_leaks a6 ?b] => pose proof (leaks_steady a6 b) as E7; destruct (measure_leaks a6 b) as [a7 c7] end.
  match goal with |- context [refresh_inspector a7 ?b] => pose proof (inspector_steady a7 b) as E8; destruct (refresh_inspector a7 b) as [a8 c8] end.
  pose proof (sample_steady a8) as E9. destruct (sample_metrics a8) as [a9 c9]. cbn [fst] in *.
  by rewrite E02, E3, E4, E5, E6, E7, E8.
Qed.

Lemma resized_steady a w h : steady a (resized a w h).
Proof.
  unfold resized. destruct (negb _); [|same].
  match goal with |- steady _ (refit ?b) => etransitivity; [|apply (refit_steady b)]; same end.
Qed.
Lemma reset_steady a : steady a (reset_stats a).
Proof. same. Qed.
Lemma stats_reset_steady a : steady a (take_stats_reset a).1.
Proof. same. Qed.

(** A key: all but the pause. *)
Definition kept_but_pause a a' : Prop :=
  model_like (ap_model a) (ap_model a') /\ staged_ (ap_staging a') = staged_ (ap_staging a) /\
  staged_head_ (ap_staging a') = staged_head_ (ap_staging a) /\ ap_sampling a' = ap_sampling a /\ ap_session a' = ap_session a.
Lemma steady_kept a a' : steady a a' -> kept_but_pause a a'.
Proof. intros (M & E1 & E2 & E3). split; [done|]. rewrite E1, E2, E3. done. Qed.

Lemma key_kept_live lt a b : kept_but_pause a (key lt a b).1.
Proof.
  unfold key. destruct (b =? 113); [by split; [split|]|]. destruct (b =? 63); [by split; [split|]|].
  destruct (_ && _); [by split; [split|]|]. destruct (_ && _); [by split; [split|]|]. destruct (_ || _); [by split; [split|]|].
  apply steady_kept. destruct (Cursor.cursor_move_for_key b) as [mv|].
  - destruct (Cursor.move _ _ _) as [coord []]; [|same]. cbn [negb fst].
    match goal with |- steady _ (refresh_inspector ?b _).1 => etransitivity; [|apply (inspector_steady b)]; same end.
  - destruct (b =? 9); [destruct (Inspector.cycle _); same|]. destruct (bool_decide _); [|done].
    destruct (b =? 115); [same|]. destruct (b =? 83); [same|]. destruct (b =? 100); [|done]. destruct (Snapshot.toggle _). same.
Qed.

(** Draining leaves the mode alone. *)
Lemma drain_sampling a : ap_sampling (drain a).1 = ap_sampling a.
Proof.
  unfold drain. destruct (negb _); [done|]. destruct (paused_ _); [by destruct (src_drain _ _)|].
  assert (ap_sampling (replay a).1 = ap_sampling a) as Hr by (unfold replay; by destruct (_ =? 0)%nat).
  destruct (replay a) as [a1 n]. cbn [fst] in Hr. destruct (_ && _); [|exact Hr].
  destruct (src_drain _ _) as [s [|e l]]; exact Hr.
Qed.
End Passes.

(** More events on top of those tracked. *)
Lemma apply_more_tracks o es : forall n m h, tracks n m h -> Forall event_ok es -> Z.of_nat (n + length es) < 2 ^ 31 ->
  tracks (n + length es) (foldl (apply_event o) m es) (foldl heap_step h es).
Proof.
  induction es as [|e es IH]; intros n m h Ht Hok Hn; cbn [foldl length] in *; [by rewrite Nat.add_0_r|].
  apply Forall_cons in Hok as [He Hok]. replace (n + S (length es))%nat with (S n + length es)%nat in * by lia.
  apply IH; [|done|done]. apply apply_event_tracks; [|done|done].
  change (2 ^ 31) with 2147483648 in *. lia.
Qed.
