(* ===== verification/HeapDraw.v ===== *)
(** * The application's frame (src/src/tui/heap_app.cpp: draw, draw_help)

    The header rows, the map with its overlays, the two panels, the footer and
    the modal help, composed in the order the code draws them. *)

From Stdlib Require Import String.
From S2P Require Import Prelude Abi Ring ChunkTable Grid ProcMaps RegionMap HeatMap Cursor.
From S2P Require Import ChunkReader HeapWalker Fragmentation Capabilities Framebuffer Layout Theme Panel.
From S2P Require Import Metrics Snapshot HeatColor MapView Inspector Session HeapApp.

Section Draw.
Context {S : Type} `{!EventSource S, !ColorMath}.
Implicit Types a : HeapApp S.

(** The line buffer holds 256 characters with the terminator. *)
Definition line256 (text : list Z) : list Z := (snprintf 256 text).1.
Definition len (s : list Z) : Z := Z.of_nat (List.length s).

(** [%d] *)
Definition dec_int (v : Z) : list Z := if v <? 0 then 45 :: dec (- v) else dec v.

(** [0x%012llx]: at least twelve digits, more only for a wider value. *)
Fixpoint drop_zeros (n : nat) (digits : list Z) : list Z :=
  match n, digits with
  | Datatypes.S n, c :: l => if c =? 48 then drop_zeros n l else digits
  | _, _ => digits
  end.
Definition hex12 (v : Z) : list Z := str "0x" ++ drop_zeros 4 (drop 2 (hex16 v)).

(** ** Row 0 *)

Definition title_line a : list Z :=
  let comm := src_comm (ap_session a) in
  line256 (str " heapviz v0.1   [PID: " ++ dec_int (src_pid (ap_session a)) ++
           (match comm with [] => [] | _ => str " - " ++ comm end) ++ str "]" ++
           (if sp_mode (ap_sampling a) then str "   SNAPSHOT - sampled, no events" else [])).

Definition banner_line (s : SnapshotDiff) : list Z :=
  let r := sd_report s in
  let head := str " [DIFF] " ++ format_count 24 (lr_chunks r) ++ str " chunks / " ++ (format_byte_size 32 (lr_bytes r)).1 ++
              str " leaked since " ++ sd_taken_at s in
  line256 (if negb (lr_offmap r =? 0) then head ++ str " (" ++ format_count 24 (lr_offmap r) ++ str " off map) "
           else head ++ str " ").

(** [fps] is the frame rate as [%.0f] prints it. *)
Definition draw_title a (f : Framebuffer) (fps : list Z) : Framebuffer :=
  let th := ap_theme a in
  let w := fb_w f in
  let f := (text f 0 0 (title_line a) (th_title th) (th_bg th) kAttrBold).1 in
  let rate := line256 (fps ++ str " fps ") in
  let rlen := len rate in
  let f := if rlen <? w then (text f (w - rlen) 0 rate (th_dim th) (th_bg th) kAttrNone).1 else f in
  let snap := dp_snap (ap_display a) in
  if sd_diff snap then
    let line := banner_line snap in
    let blen := len line in
    if rlen + blen <? w then (text f (w - rlen - blen) 0 line (th_leak th) (th_bg th) kAttrBold).1 else f
  else f.

(** ** Row 1 *)

Definition address_line a : list Z :=
  let d := ap_display a in
  let sc := md_scanner (ap_model a) in
  let arena := (format_arena_label kArenaLabelMax (main_arena_ sc) (thread_arenas_ sc)).1 in
  if range_empty (dp_bounds d) then line256 (str " Heap Address Range: (not yet known) | Active Arena: " ++ arena)
  else
    let lo := match spans_ (dp_regions d) with s :: _ => s_start s | [] => 0 end in
    let hi := match last (spans_ (dp_regions d)) with Some s => s_end s | None => 0 end in
    line256 (str " Heap Address Range: " ++ hex12 lo ++ str " - " ++ hex12 hi ++ str " | Active Arena: " ++ arena ++
             str " | " ++ (format_byte_size 32 (total_ (dp_regions d))).1 ++ str " mapped | 1 cell = " ++
             (format_byte_size 32 (cell_bytes_ (dp_grid d))).1).

Definition draw_address a (f : Framebuffer) : Framebuffer :=
  let th := ap_theme a in
  let w := fb_w f in
  let f := (text f 0 1 (address_line a) (th_text th) (th_bg th) kAttrNone).1 in
  let n := Z.of_nat (List.length (spans_ (dp_regions (ap_display a)))) in
  if 1 <? n then
    let line := line256 (str " " ++ dec n ++ str " regions packed ") in
    if len line <? w then (text f (w - len line) 1 line (th_accent th) (th_bg th) kAttrNone).1 else f
  else f.

(** ** Row 2 *)

Definition overhead_line a : list Z :=
  let sp := ap_sampling a in
  let en := ap_enrich a in
  if sp_mode sp then
    match sp_walker sp ≫= walker_hint with
    | Some h => line256 (str " snapshot: " ++ h ++ str " ")
    | None => line256 (str " snapshot: " ++ (format_byte_size 32 (wr_opaque_bytes (sp_walk sp))).1 ++ str " not readable" ++
                       (if wr_truncated (sp_walk sp) then str ", truncated" else []) ++ str " ")
    end
  else
    match hint (en_reader en) with
    | Some why => line256 (str " overhead: " ++ why ++ str " ")
    | None =>
        if negb (en_refined en =? 0)
        then line256 (str " overhead: " ++ dec (en_exact_overhead en) ++ str " B exact over " ++ dec (en_refined en) ++ str " chunks ")
        else []
    end.

Definition section_label : list Z := str " SPATIAL HEAP MAP ".

Definition draw_section a (f : Framebuffer) : Framebuffer :=
  let th := ap_theme a in
  let w := fb_w f in
  let f :=
    if len section_label <=? w then
      let f := hline f 0 2 w (if caps_unicode (ap_caps a) then 0x2500 else 45) (th_frame th) (th_bg th) kAttrNone in
      (text f (Z.quot (w - len section_label) 2) 2 section_label (th_accent th) (th_bg th) kAttrBold).1
    else f in
  let dropped := src_dropped (ap_session a) ⊟ ap_dropped_at_attach a in
  let line := overhead_line a in
  let f :=
    match line with
    | [] => f
    | _ => if (len line <? w) && (dropped =? 0) then (text f (w - len line) 2 line (th_dim th) (th_bg th) kAttrNone).1 else f
    end in
  if negb (dropped =? 0) then
    let line := line256 (str " " ++ dec dropped ++ str " events DROPPED - display is incomplete ") in
    if len line <? w then (text f (w - len line) 2 line (th_danger_text th) (th_bg th) kAttrBold).1 else f
  else f.

Definition draw_header a (f : Framebuffer) (fps : list Z) : Framebuffer :=
  draw_section a (draw_address a (draw_title a f fps)).

(** ** The model, the panels and the footer *)

Definition draw_model a (f : Framebuffer) : Framebuffer :=
  let d := ap_display a in
  let area := l_map (dp_layout d) in
  let map := md_map (ap_model a) in
  let f := draw_map (dp_view d) f area map (lf_now_ms (ap_life a)) in
  let f := draw_leaks (dp_view d) f area map (dp_snap d) in
  draw_cursor (dp_view d) f area map (dp_cursor d).

Definition draw_inspector_panel a (f : Framebuffer) : Framebuffer :=
  let d := ap_display a in
  let panel := l_inspector (dp_layout d) in
  if 0 <? rh panel
  then draw_inspector (dp_inspect d) f panel (dp_grid d) (dp_cursor d) (Some (dp_regions d)) (lf_now_ms (ap_life a))
  else f.

Definition draw_metrics_panel a (f : Framebuffer) : Framebuffer :=
  let panel := l_metrics (dp_layout (ap_display a)) in
  if 0 <? rw panel then draw_metrics (md_metrics (ap_model a)) f panel else f.

Definition footer_note a : list Z * Z :=
  let th := ap_theme a in
  let st := ap_staging a in
  let snap := dp_snap (ap_display a) in
  let l := ap_life a in
  if kb_help (ap_keys a) then
    (if paused_ st then str " HELP   q quit   ? close   r reset   Space resume"
     else match lf_state l with
          | StLive => str " HELP   q quit   ? close   r reset   Space pause"
          | StExited => str " HELP   q quit   ? close   r reset"
          | StDetached => str " HELP   q quit   ? close"
          end, th_title th)
  else if paused_ st then
    (line256 (str " PAUSED   q quit   ? help   Space resume   r reset   " ++ dec (Z.of_nat (staged_events st)) ++
              str " events staged"), th_accent th)
  else
    match lf_state l with
    | StLive =>
        (line256 (str " " ++ (if sd_diff snap then str "DIFF " else []) ++
                  str " q quit  ? help  Space pause  r reset  hjkl/HJKL move  g/G ends  n/N chunk  s snap" ++
                  (if sd_taken snap then str "  d diff  S drop" else [])),
         if sd_diff snap then th_leak th else th_dim th)
    | StExited =>
        (match lf_exit_note l with
         | [] => line256 (str " TARGET EXITED   q quit  ? help  r reset  hjkl/HJKL move  g/G ends  n/N chunk")
         | note => line256 (str " TARGET EXITED: " ++ note ++ str "   q quit")
         end, th_accent th)
    | StDetached => (str " NOT ATTACHED   q quit  ? help", th_dim th)
    end.

Definition draw_footer a (f : Framebuffer) : Framebuffer :=
  let '(note, colour) := footer_note a in
  (text f 0 (fb_h f - 1) note colour (th_bg (ap_theme a)) kAttrNone).1.

(** ** The modal help *)

Definition help_box (w h : Z) : Rect :=
  let box_w := Z.min 68 (Z.max 4 (w - 4)) in
  let box_h := Z.min 17 (Z.max 3 (h - 4)) in
  mkRect (Z.quot (w - box_w) 2) (Z.quot (h - box_h) 2) box_w box_h.

Definition help_lines a : list (list Z * Z * Z) :=
  let th := ap_theme a in
  let plain s := (s, th_text th, kAttrNone) in
  [(str "KEYBOARD HELP", th_title th, kAttrBold); plain [];
   plain (str "q          quit"); plain (str "?          close this help");
   plain (str "Space      pause / resume (live target)");
   plain (str "r          reset counters, peaks, drops, and frame stats"); plain [];
   plain (str "h j k l    move cursor       H J K L    move x10");
   plain (str "g / G      first / last cell"); plain (str "n / N      next / previous occupied cell");
   plain (str "Tab        cycle chunks in the selected cell"); plain [];
   plain (str "s          take snapshot     d          toggle diff"); plain (str "S          clear snapshot")] ++
  (if paused_ (ap_staging a)
   then [(str "Display paused; ring events are still being drained.", th_accent th, kAttrNone)] else []).

(** The lambda [line], which counts its rows. *)
Definition help_line (box : Rect) (bgc : Z) (fr : Framebuffer * Z) (l : list Z * Z * Z) : Framebuffer * Z :=
  let '(f, row) := fr in
  let '(s, colour, at') := l in
  ((panel_text f box 2 row s colour bgc at').1, row + 1).

Definition draw_help a (f : Framebuffer) : Framebuffer :=
  let th := ap_theme a in
  let b := help_box (fb_w f) (fb_h f) in
  let f := fill f b (Framebuffer.mkCell 32 (th_text th) (th_bg th) 0) in
  let f := box f b (if caps_unicode (ap_caps a) then Rounded else AsciiBox) (th_title th) (th_bg th) kAttrNone in
  (foldl (help_line b (th_bg th)) (f, 1) (help_lines a)).1.

(** ** The frame *)

Definition draw a (f : Framebuffer) (fps : list Z) : Framebuffer :=
  let th := ap_theme a in
  let f := Framebuffer.clear f (Framebuffer.mkCell 32 (th_text th) (th_bg th) 0) in
  let f := draw_header a f fps in
  let f := draw_model a f in
  let f := draw_inspector_panel a f in
  let f := draw_metrics_panel a f in
  let f := draw_footer a f in
  if kb_help (ap_keys a) then draw_help a f else f.

End Draw.
