(* ===== verification/HeapDrawProofs.v ===== *)
(** * The frame keeps its parts apart

    Each part of the frame is confined to the area the layout gave it, so what a
    part drew is what the frame shows there; and the title row shows the
    target's own name byte for byte. *)

From S2P Require Import Prelude Abi Ring ChunkTable Grid ProcMaps RegionMap HeatMap Cursor.
From S2P Require Import Capabilities Framebuffer Layout Theme Panel Metrics Snapshot HeatColor MapView MapViewProofs.
From S2P Require Import Inspector InspectorProofs Session HeapApp HeapDraw Renderer.

Section Parts.
Context {S : Type} `{!EventSource S, !ColorMath}.
Implicit Types a : HeapApp S.

(** Rows. *)
Definition on_row (r : Z) (x y : Z) : Prop := y = r.

Lemma text_on_row f x y s fgc bgc at' : fb_ok f -> confined (on_row y) f (text f x y s fgc bgc at').1.
Proof. intros Hok. eapply confined_mono; [|by apply confined_text]. by intros i j _ [-> _]. Qed.
Lemma hline_on_row f x y n g fgc bgc at' : fb_ok f -> confined (on_row y) f (hline f x y n g fgc bgc at').
Proof.
  intros Hok. eapply confined_mono; [|by apply confined_fill]. intros i j _ [_ Hj]. cbn in Hj. unfold on_row. lia.
Qed.
#[local] Hint Resolve text_on_row hline_on_row confined_refl : drawing.

(** What is drawn of the model needs a grid that is one. *)
Record drawable a : Prop := {
  da_grid : grid_ok (hm_grid (md_map (ap_model a)));
  da_hot : Forall (fun i => 0 <= i) (sd_hot (dp_snap (ap_display a)))
}.

Lemma draw_model_confined a f : drawable a -> fb_ok f ->
  confined (in_rect (l_map (dp_layout (ap_display a)))) f (draw_model a f).
Proof.
  intros [Hg Hh] Hok. unfold draw_model.
  eapply confined_step; [eapply confined_step|].
  - apply draw_map_confined; [apply Hg..|done].
  - intros Ok1. by apply draw_leaks_confined.
  - intros Ok2. by apply draw_cursor_confined.
Qed.

Lemma draw_inspector_panel_confined a f : fb_ok f ->
  confined (in_rect (l_inspector (dp_layout (ap_display a)))) f (draw_inspector_panel a f).
Proof. intros Hok. unfold draw_inspector_panel. destruct (0 <? _); [by apply draw_inspector_confined|by apply confined_refl]. Qed.

Lemma draw_metrics_panel_confined a f : fb_ok f ->
  confined (in_rect (l_metrics (dp_layout (ap_display a)))) f (draw_metrics_panel a f).
Proof. intros Hok. unfold draw_metrics_panel. destruct (0 <? _); [by apply draw_metrics_confined|by apply confined_refl]. Qed.

Lemma draw_footer_confined a f : fb_ok f -> confined (on_row (fb_h f - 1)) f (draw_footer a f).
Proof. intros Hok. unfold draw_footer. destruct (footer_note a) as [note colour]. by apply text_on_row. Qed.

Lemma draw_help_confined a f : fb_ok f -> confined (in_rect (help_box (fb_w f) (fb_h f))) f (draw_help a f).
Proof.
  intros Hok. unfold draw_help. set (b := help_box _ _). clearbody b.
  assert (forall l g r, fb_ok g -> confined (in_rect b) g (foldl (help_line b (th_bg (ap_theme a))) (g, r) l).1) as Hl.
  { induction l as [|[[s colour] at'] l IH]; intros g r Hg; [by apply confined_refl|]. cbn [foldl help_line].
    eapply confined_step; [by apply panel_text_confined|]. intros. by apply IH. }
  eapply confined_step; [eapply confined_step|].
  - by apply confined_fill.
  - intros. by apply confined_box.
  - intros. by apply Hl.
Qed.

(** The three header rows. *)
Definition header_rows (x y : Z) : Prop := 0 <= y <= 2.
Lemma text_in_header f x y s fgc bgc at' : 0 <= y <= 2 -> fb_ok f -> confined header_rows f (text f x y s fgc bgc at').1.
Proof. intros Hy Hok. eapply confined_mono; [|by apply text_on_row]. intros i j _ ->. exact Hy. Qed.

Lemma header_text f g x y s fgc bgc at' : confined header_rows f g -> 0 <= y <= 2 ->
  confined header_rows f (text g x y s fgc bgc at').1.
Proof. intros Hg Hy. eapply confined_step; [exact Hg|]. by apply text_in_header. Qed.
Lemma header_maybe (b : bool) f g x y s fgc bgc at' : confined header_rows f g -> 0 <= y <= 2 ->
  confined header_rows f (if b then (text g x y s fgc bgc at').1 else g).
Proof. intros Hg Hy. destruct b; [by apply header_text|done]. Qed.

Lemma draw_title_confined a f fps : fb_ok f -> confined header_rows f (draw_title a f fps).
Proof.
  intros Hok. unfold draw_title. cbv zeta.
  destruct (sd_diff _); repeat (apply header_maybe; [|lia]); (apply header_text; [by apply confined_refl|lia]).
Qed.

Lemma draw_address_confined a f : fb_ok f -> confined header_rows f (draw_address a f).
Proof.
  intros Hok. unfold draw_address. cbv zeta.
  destruct (1 <? _); repeat (apply header_maybe; [|lia]); (apply header_text; [by apply confined_refl|lia]).
Qed.

Lemma draw_section_confined a f : fb_ok f -> confined header_rows f (draw_section a f).
Proof.
  intros Hok. unfold draw_section. cbv zeta.
  match goal with |- context [if ?b then (text (hline ?g ?x0 ?y0 ?n ?gl ?c1 ?c2 ?c3) ?x ?y ?s ?d1 ?d2 ?d3).1 else f] =>
    assert (confined header_rows f (if b then (text (hline g x0 y0 n gl c1 c2 c3) x y s d1 d2 d3).1 else f)) as H2;
    [|set (f2 := if b then (text (hline g x0 y0 n gl c1 c2 c3) x y s d1 d2 d3).1 else f) in *; clearbody f2] end.
  { destruct (_ <=? _); [|by apply confined_refl]. apply header_text; [|lia].
    eapply confined_mono; [|by apply hline_on_row]. intros i j _ ->. unfold header_rows. lia. }
  destruct (overhead_line a); (destruct (negb _); repeat (apply header_maybe; [|lia]); exact H2).
Qed.

Lemma draw_header_confined a f fps : fb_ok f -> confined header_rows f (draw_header a f fps).
Proof.
  intros Hok. unfold draw_header. eapply confined_step; [eapply confined_step|].
  - by apply draw_title_confined.
  - intros. by apply draw_address_confined.
  - intros. by apply draw_section_confined.
Qed.

Lemma clear_same_front f c : fb_ok f -> same_front f (Framebuffer.clear f c).
Proof. intros Hok. apply same_front_set_back; [done|]. by rewrite length_fmap. Qed.

(** The frame after each part. *)
Definition headed a f fps : Framebuffer :=
  draw_header a (Framebuffer.clear f (Framebuffer.mkCell 32 (th_text (ap_theme a)) (th_bg (ap_theme a)) 0)) fps.
Definition mapped a f fps : Framebuffer := draw_model a (headed a f fps).
Definition inspected a f fps : Framebuffer := draw_inspector_panel a (mapped a f fps).
Definition measured a f fps : Framebuffer := draw_metrics_panel a (inspected a f fps).
Definition footed a f fps : Framebuffer := draw_footer a (measured a f fps).

Lemma help_clears_footer w h x : 4 <= h -> ~ in_rect (help_box w h) x (h - 1).
Proof.
  intros Hh [_ Hy]. unfold help_box in Hy. cbn in Hy. rewrite Z.quot_div_nonneg in Hy by lia.
  Z.div_mod_to_equations. lia.
Qed.

(** The footer's row belongs to the footer. *)
Lemma footer_row w h x y : 0 <= x < w -> 0 <= y < h -> y = h - 1 -> in_rect (l_footer (solve_layout w h)) x y.
Proof.
  intros Hx Hy Hr. unfold solve_layout. destruct (Z.leb_spec w 0); [lia|]. destruct (Z.leb_spec h 0); [lia|].
  cbn [orb]. repeat case_match. cbn. unfold in_rect. cbn. lia.
Qed.

(** What each part leaves alone, stage by stage. *)
Record staged_frame a f fps (x y : Z) : Prop := {
  sf_same : same_front f (footed a f fps);
  sf_map : ~ in_rect (l_map (dp_layout (ap_display a))) x y -> at_back (mapped a f fps) x y = at_back (headed a f fps) x y;
  sf_inspector : ~ in_rect (l_inspector (dp_layout (ap_display a))) x y ->
    at_back (inspected a f fps) x y = at_back (mapped a f fps) x y;
  sf_metrics : ~ in_rect (l_metrics (dp_layout (ap_display a))) x y ->
    at_back (measured a f fps) x y = at_back (inspected a f fps) x y;
  sf_footer : y <> fb_h f - 1 -> at_back (footed a f fps) x y = at_back (measured a f fps) x y
}.

Lemma frame_stages a f fps x y : fb_ok f -> drawable a -> on_grid f x y -> staged_frame a f fps x y.
Proof.
  intros Hok Hd Hg. set (c := Framebuffer.mkCell 32 (th_text (ap_theme a)) (th_bg (ap_theme a)) 0).
  pose proof (clear_same_front f c Hok) as S0.
  assert (confined header_rows (Framebuffer.clear f c) (headed a f fps)) as C1 by (apply draw_header_confined, S0).
  pose proof (draw_model_confined a (headed a f fps) Hd (confined_ok _ _ _ C1)) as C2. fold (mapped a f fps) in C2.
  pose proof (draw_inspector_panel_confined a (mapped a f fps) (confined_ok _ _ _ C2)) as C3. fold (inspected a f fps) in C3.
  pose proof (draw_metrics_panel_confined a (inspected a f fps) (confined_ok _ _ _ C3)) as C4. fold (measured a f fps) in C4.
  pose proof (draw_footer_confined a (measured a f fps) (confined_ok _ _ _ C4)) as C5. fold (footed a f fps) in C5.
  pose proof (same_front_trans _ _ _ S0 (cf_same _ _ _ C1)) as S1.
  pose proof (same_front_trans _ _ _ S1 (cf_same _ _ _ C2)) as S2.
  pose proof (same_front_trans _ _ _ S2 (cf_same _ _ _ C3)) as S3.
  pose proof (same_front_trans _ _ _ S3 (cf_same _ _ _ C4)) as S4.
  split.
  - exact (same_front_trans _ _ _ S4 (cf_same _ _ _ C5)).
  - apply (cf_rest _ _ _ C2), (on_grid_same _ _ x y S1), Hg.
  - apply (cf_rest _ _ _ C3), (on_grid_same _ _ x y S2), Hg.
  - apply (cf_rest _ _ _ C4), (on_grid_same _ _ x y S3), Hg.
  - rewrite <- (sf_h _ _ S4). apply (cf_rest _ _ _ C5), (on_grid_same _ _ x y S4), Hg.
Qed.

(** The help, where it is shown, leaves the rest of the frame alone. *)
Lemma help_stage a f fps x y : fb_ok f -> drawable a -> on_grid f x y ->
  same_front f (draw a f fps) /\
  (kb_help (ap_keys a) = false \/ ~ in_rect (help_box (fb_w f) (fb_h f)) x y ->
   at_back (draw a f fps) x y = at_back (footed a f fps) x y).
Proof.
  intros Hok Hd Hg. pose proof (sf_same _ _ _ _ _ (frame_stages a f fps x y Hok Hd Hg)) as S5.
  assert (draw a f fps = if kb_help (ap_keys a) then draw_help a (footed a f fps) else footed a f fps) as -> by done.
  pose proof (draw_help_confined a (footed a f fps) (sf_ok _ _ S5)) as C6.
  rewrite (sf_w _ _ S5), (sf_h _ _ S5) in C6. destruct (kb_help _); [|by split].
  split; [exact (same_front_trans _ _ _ S5 (cf_same _ _ _ C6))|]. intros [?|Hn]; [done|].
  apply (cf_rest _ _ _ C6); [by apply (on_grid_same _ _ _ _ S5)|done].
Qed.

(** C25: What a part of the frame drew is what the frame shows.  With the layout
    of the terminal's size, at every position of the map, the inspector, the
    metrics, the footer or the header rows, the finished frame holds what it held
    right after that part was drawn, so none is overdrawn by a later one; the
    help covers only its box, which leaves the footer visible on any terminal of
    four rows or more. *)
Theorem frame_keeps_parts a f fps x y :
  fb_ok f -> drawable a -> dp_layout (ap_display a) = solve_layout (fb_w f) (fb_h f) -> on_grid f x y ->
  let l := dp_layout (ap_display a) in
  let g := draw a f fps in
  same_front f g /\
  (kb_help (ap_keys a) = false \/ ~ in_rect (help_box (fb_w f) (fb_h f)) x y ->
     (in_rect (l_title l) x y \/ in_rect (l_address l) x y \/ in_rect (l_section l) x y ->
        at_back g x y = at_back (headed a f fps) x y) /\
     (in_rect (l_map l) x y -> at_back g x y = at_back (mapped a f fps) x y) /\
     (in_rect (l_inspector l) x y -> at_back g x y = at_back (inspected a f fps) x y) /\
     (in_rect (l_metrics l) x y -> at_back g x y = at_back (measured a f fps) x y) /\
     (y = fb_h f - 1 -> at_back g x y = at_back (footed a f fps) x y)) /\
  (4 <= fb_h f -> ~ in_rect (help_box (fb_w f) (fb_h f)) x (fb_h f - 1)).
Proof.
  intros Hok Hd Hl Hg. cbv zeta. pose proof Hg as [Hgx Hgy].
  destruct (help_stage a f fps x y Hok Hd Hg) as [HS E6]. split; [done|]. split; [|apply help_clears_footer].
  intros Hhelp. rewrite (E6 Hhelp). destruct (frame_stages a f fps x y Hok Hd Hg) as [_ R2 R3 R4 R5].
  rewrite Hl in *. set (L := solve_layout (fb_w f) (fb_h f)) in *.
  pose proof (fun i j r1 r2 => areas_apart (fb_w f) (fb_h f) x y i j r1 r2 Hgx Hgy) as Hap. fold L in Hap.
  assert (forall i r, (i < 6)%nat -> areas L !! i = Some r -> in_rect r x y -> y <> fb_h f - 1) as Hfoot.
  { intros i r Hi Hr Hin Hrow. apply (Hap i 6%nat r (l_footer L) Hi Hr eq_refl Hin). by apply footer_row. }
  split; [|split; [|split; [|split]]]; [..|done].
  - intros Hin. assert (exists i r, (i < 3)%nat /\ areas L !! i = Some r /\ in_rect r x y) as (i & r & Hi & Hr & Hir).
    { destruct Hin as [?|[?|?]]; [exists 0%nat, (l_title L)|exists 1%nat, (l_address L)|exists 2%nat, (l_section L)]; (split; [lia|done]). }
    rewrite R5, R4, R3, R2; [done|apply (Hap i 3%nat r)|apply (Hap i 4%nat r)|apply (Hap i 5%nat r)|apply (Hfoot i r)]; done || lia.
  - intros Hin. rewrite R5, R4, R3; [done|apply (Hap 3%nat 4%nat (l_map L))|apply (Hap 3%nat 5%nat (l_map L))|apply (Hfoot 3%nat (l_map L))]; done || lia.
  - intros Hin. rewrite R5, R4; [done|apply (Hap 4%nat 5%nat (l_inspector L))|apply (Hfoot 4%nat (l_inspector L))]; done || lia.
  - intros Hin. rewrite R5; [done|]. apply (Hfoot 5%nat (l_metrics L)); done || lia.
Qed.
End Parts.

(** A target whose name holds an escape sequence: [ESC c] resets a terminal. *)
Definition named_session : RingSession := mkSession (Some (fresh_ring 3)) 4096 42 0 0 [27; 99].
Definition named_app : HeapApp RingSession := resized (new_app named_session (mkCaps TrueColor true) dark_theme true 0) 100 30.
Definition blank_fb : Framebuffer := (resize new_fb 100 30).1.

Lemma frame_keeps_parts_witness :
  at_back (draw named_app blank_fb [54; 48]) 70 24 = at_back (measured named_app blank_fb [54; 48]) 70 24.
Proof.
  assert (fb_ok blank_fb) as H1 by apply resize_ok, new_fb_ok.
  assert (drawable named_app) as H2 by (split; [apply new_grid_ok|constructor]).
  assert (dp_layout (ap_display named_app) = solve_layout (fb_w blank_fb) (fb_h blank_fb)) as H3 by (vm_compute; reflexivity).
  assert (on_grid blank_fb 70 24) as H4 by (vm_compute; intuition congruence).
  assert (kb_help (ap_keys named_app) = false) as H5 by (vm_compute; reflexivity).
  assert (in_rect (l_metrics (dp_layout (ap_display named_app))) 70 24) as H6 by (vm_compute; intuition congruence).
  pose proof (frame_keeps_parts named_app blank_fb [54; 48] 70 24 H1 H2 H3 H4) as (_ & Hp & _).
  exact (proj1 (proj2 (proj2 (proj2 (Hp (or_introl H5))))) H6).
Defined.

(** The target's name reaches the terminal as it is.  The last line of the
    target's output is stripped of control bytes before it is shown; its name,
    which the target sets too, is not: a name holding an escape sequence is put
    into the title row and the renderer sends those bytes, so a watched process
    can reset the terminal it is watched on. *)
Theorem name_reaches_terminal :
  let frame := draw named_app blank_fb [54; 48] in
  let sent := rn_out (render new_renderer frame true).1 in
  last_output_line (Some (src_comm named_session)) = [] /\
  glyph (at_back frame 27 0) = 27 /\ glyph (at_back frame 28 0) = 99 /\
  Capabilities.occurs sent [27; 99] = true.
Proof. vm_compute. auto. Qed.
