(* ===== verification/EventLoop.v ===== *)
(** * The event loop (src/src/tui/event_loop.h, event_loop.cpp)

    One frame after another: resize at the frame boundary, drain, update, draw
    and write only when something is dirty, wait for the deadline while serving
    the keyboard.  The application is an interface, [LoopApp].  What the system
    answers during one frame is a [Frame]: the clock, the signals' flags, the
    terminal's size, the writes and the polls. *)

From Stdlib Require Import String.
From S2P Require Import Prelude Framebuffer Capabilities Renderer.

Definition kNsPerSec : Z := 1000 * 1000 * 1000.
Definition kInputChunk : Z := 64.
Definition kFpsSamples : nat := 30.

(** [clock_gettime]'s seconds and nanoseconds. *)
Definition monotonic_ns (sec nsec : Z) : Z := sec ⊠ kNsPerSec ⊞ nsec.

(** The answer of [ioctl(TIOCGWINSZ)]: columns and rows. *)
Definition terminal_size (answer : option (Z * Z)) : option (Z * Z) :=
  match answer with
  | None => None
  | Some (col, row) => if (col =? 0) || (row =? 0) then None else Some (col, row)
  end.

Inductive LoopExit := Quit | FrameLimit | TooSmall | WriteFailed | ResizeFailed.
#[export] Instance LoopExit_eq_dec : EqDecision LoopExit.
Proof. solve_decision. Defined.

Definition loop_exit_str (e : LoopExit) : list Z :=
  match e with
  | Quit => str "quit"
  | FrameLimit => str "frame limit reached"
  | TooSmall => str "terminal is too small"
  | WriteFailed => str "the terminal went away"
  | ResizeFailed => str "could not allocate for the new size"
  end.

Record FrameTiming := mkTiming { tm_drain : Z; tm_update : Z; tm_draw : Z; tm_diff : Z; tm_write : Z; tm_total : Z }.
Definition no_timing : FrameTiming := mkTiming 0 0 0 0 0 0.

(** [ls_fps] is the quotient the double is computed from. *)
Record LoopStats := mkLoopStats {
  ls_frames : Z;
  ls_drawn : Z;
  ls_skipped : Z;
  ls_repaints : Z;
  ls_writes : Z;
  ls_bytes_written : Z;
  ls_events : Z;
  ls_overruns : Z;
  ls_last : FrameTiming;
  ls_worst : FrameTiming;
  ls_fps : Z * Z
}.
Definition no_stats : LoopStats := mkLoopStats 0 0 0 0 0 0 0 0 no_timing no_timing (0, 1).

(** [la_quit]: the application has called [request_quit]. *)
Class LoopApp (A : Type) := {
  la_drain : A -> A * Z;
  la_update : A -> Z -> A * bool;
  la_key : A -> Z -> A * bool;
  la_animating : A -> bool;
  la_take_stats_reset : A -> A * bool;
  la_resized : A -> Z -> Z -> A;
  la_draw : A -> Framebuffer -> LoopStats -> A * Framebuffer;
  la_quit : A -> bool
}.

Record LoopConfig := mkLoopConfig {
  lc_target_fps : Z;
  lc_color : ColorMode;
  lc_min_width : Z;
  lc_min_height : Z;
  lc_max_frames : Z
}.
Definition default_config : LoopConfig := mkLoopConfig 60 TrueColor 20 6 0.

Record EventLoop := mkLoop {
  el_cfg : LoopConfig;
  el_fb : Framebuffer;
  el_r : Renderer;
  el_stats : LoopStats;
  el_period_ns : Z;
  el_samples : list (Z * Z);
  el_fps_next : nat;
  el_fps_count : nat;
  el_input_open : bool;
  el_exit : LoopExit
}.

Definition new_loop (cfg : LoopConfig) : EventLoop :=
  let fps := if lc_target_fps cfg =? 0 then 1 else lc_target_fps cfg in
  mkLoop cfg new_fb (set_color_mode new_renderer (lc_color cfg)) no_stats (kNsPerSec / fps)
    (replicate kFpsSamples (0, 0)) 0 0 true Quit.

Definition set_screen (l : EventLoop) (f : Framebuffer) (r : Renderer) : EventLoop :=
  mkLoop (el_cfg l) f r (el_stats l) (el_period_ns l) (el_samples l) (el_fps_next l) (el_fps_count l)
    (el_input_open l) (el_exit l).
Definition set_stats (l : EventLoop) (s : LoopStats) : EventLoop :=
  mkLoop (el_cfg l) (el_fb l) (el_r l) s (el_period_ns l) (el_samples l) (el_fps_next l) (el_fps_count l)
    (el_input_open l) (el_exit l).
Definition set_samples (l : EventLoop) (s : list (Z * Z)) (next count : nat) : EventLoop :=
  mkLoop (el_cfg l) (el_fb l) (el_r l) (el_stats l) (el_period_ns l) s next count (el_input_open l) (el_exit l).
Definition set_input (l : EventLoop) (b : bool) : EventLoop :=
  mkLoop (el_cfg l) (el_fb l) (el_r l) (el_stats l) (el_period_ns l) (el_samples l) (el_fps_next l) (el_fps_count l)
    b (el_exit l).
Definition set_exit (l : EventLoop) (e : LoopExit) : EventLoop :=
  mkLoop (el_cfg l) (el_fb l) (el_r l) (el_stats l) (el_period_ns l) (el_samples l) (el_fps_next l) (el_fps_count l)
    (el_input_open l) e.

(** [EventLoop::resize]; reserving the renderer's buffer has no other effect. *)
Definition loop_resize (l : EventLoop) (w h : Z) : EventLoop * bool :=
  let '(f, ok) := resize (el_fb l) w h in
  if negb ok then (l, false) else (set_screen l f (el_r l), true).

(** ** Waiting for the deadline *)

Inductive ReadInput := Bytes (l : list Z) | Eof | ReadFailed (errno : Z).
Inductive PollAnswer :=
  | PollFailed (errno : Z)
  | PollTimedOut
  | PollInput (r : ReadInput)
  | PollHangup
  | PollOther.
Definition EAGAIN : Z := 11.

(** One turn of the loop: the quit flag as its top sees it, the clock, what
    [poll] answers, and the quit flag after the keys. *)
Record Turn := mkTurn { tn_quit : bool; tn_now : Z; tn_poll : PollAnswer; tn_quit_after : bool }.

Section Loop.
Context {A : Type} `{!LoopApp A}.

Definition press (st : A * bool) (byte : Z) : A * bool :=
  let '(a, dirty) := st in
  let '(a, changed) := la_key a byte in (a, dirty || changed).

(** What ended the wait: the deadline, a quit, or the end of the listed turns. *)
Inductive WaitEnd := WaitOver | WaitQuit | WaitStuck.

Fixpoint wait_for_deadline (turns : list Turn) (l : EventLoop) (a : A) (deadline : Z) (dirty : bool)
    : EventLoop * A * bool * WaitEnd :=
  match turns with
  | [] => (l, a, dirty, WaitStuck)
  | t :: turns =>
      if tn_quit t || la_quit a then (set_exit l Quit, a, dirty, WaitQuit)
      else if deadline <=? tn_now t then (l, a, dirty, WaitOver)
      else if negb (el_input_open l) then (l, a, dirty, WaitOver)
      else
        match tn_poll t with
        | PollFailed e =>
            if e =? EINTR then (l, a, dirty, WaitOver)
            else wait_for_deadline turns (set_input l false) a deadline dirty
        | PollTimedOut => (l, a, dirty, WaitOver)
        | PollInput (Bytes bytes) =>
            let '(a, dirty) := foldl press (a, dirty) bytes in
            if tn_quit_after t || la_quit a then (set_exit l Quit, a, dirty, WaitQuit)
            else wait_for_deadline turns l a deadline dirty
        | PollInput Eof => wait_for_deadline turns (set_input l false) a deadline dirty
        | PollInput (ReadFailed e) =>
            wait_for_deadline turns (if negb (e =? EINTR) && negb (e =? EAGAIN) then set_input l false else l)
              a deadline dirty
        | PollHangup => wait_for_deadline turns (set_input l false) a deadline dirty
        | PollOther => wait_for_deadline turns l a deadline dirty
        end
  end.

(** ** One frame *)

Record Clock := mkClock {
  ck_start : Z; ck_drained : Z; ck_updated : Z; ck_drawn : Z; ck_diffed : Z; ck_written : Z; ck_end : Z }.

(** [fr_resize]: a resize request is pending; [fr_size]: what the measurement
    answers. *)
Record Frame := mkFrame {
  fr_quit : bool;
  fr_resize : bool;
  fr_size : option (Z * Z);
  fr_clock : Clock;
  fr_writes : list WriteReply;
  fr_turns : list Turn
}.

(** What reaches the terminal, in order; a history variable. *)
Inductive Output := OutResize (w h : Z) | OutBytes (sent : list Z).

Record Running := mkRunning {
  rn_loop : EventLoop; rn_app : A; rn_dirty : bool; rn_full : bool; rn_trace : list Output }.

(** How a frame ends. *)
Inductive FrameEnd := NextFrame | LoopEnds (e : LoopExit) | FrameStuck.

(** [[r]]: the diagnostics start afresh. *)
Definition reset_diagnostics (s : Running) : Running :=
  let '(a, reset) := la_take_stats_reset (rn_app s) in
  if reset then
    mkRunning (set_samples (set_stats (rn_loop s) no_stats) (replicate kFpsSamples (0, 0)) 0 0) a true (rn_full s)
      (rn_trace s)
  else mkRunning (rn_loop s) a (rn_dirty s) (rn_full s) (rn_trace s).

Definition count_frame (s : LoopStats) : LoopStats :=
  mkLoopStats (ls_frames s ⊞ 1) (ls_drawn s) (ls_skipped s) (ls_repaints s) (ls_writes s) (ls_bytes_written s)
    (ls_events s) (ls_overruns s) (ls_last s) (ls_worst s) (ls_fps s).
Definition count_repaint (s : LoopStats) : LoopStats :=
  mkLoopStats (ls_frames s) (ls_drawn s) (ls_skipped s) (ls_repaints s ⊞ 1) (ls_writes s) (ls_bytes_written s)
    (ls_events s) (ls_overruns s) (ls_last s) (ls_worst s) (ls_fps s).
Definition count_events (s : LoopStats) (n : Z) : LoopStats :=
  mkLoopStats (ls_frames s) (ls_drawn s) (ls_skipped s) (ls_repaints s) (ls_writes s) (ls_bytes_written s)
    (ls_events s ⊞ n) (ls_overruns s) (ls_last s) (ls_worst s) (ls_fps s).
Definition count_write (s : LoopStats) (bytes : Z) : LoopStats :=
  mkLoopStats (ls_frames s) (ls_drawn s) (ls_skipped s) (ls_repaints s) (ls_writes s ⊞ 1) (ls_bytes_written s ⊞ bytes)
    (ls_events s) (ls_overruns s) (ls_last s) (ls_worst s) (ls_fps s).
Definition count_drawn (s : LoopStats) : LoopStats :=
  mkLoopStats (ls_frames s) (ls_drawn s ⊞ 1) (ls_skipped s) (ls_repaints s) (ls_writes s) (ls_bytes_written s)
    (ls_events s) (ls_overruns s) (ls_last s) (ls_worst s) (ls_fps s).
Definition count_skipped (s : LoopStats) : LoopStats :=
  mkLoopStats (ls_frames s) (ls_drawn s) (ls_skipped s ⊞ 1) (ls_repaints s) (ls_writes s) (ls_bytes_written s)
    (ls_events s) (ls_overruns s) (ls_last s) (ls_worst s) (ls_fps s).

(** The resize at the frame boundary. *)
Definition apply_resize (fr : Frame) (s : Running) : Running + LoopExit :=
  let l := rn_loop s in
  if negb (fr_resize fr) then inl s
  else
    let '(w, h) :=
      match terminal_size (fr_size fr) with
      | Some size => size
      | None => if fb_empty (el_fb l) then (80, 24) else (fb_w (el_fb l), fb_h (el_fb l))
      end in
    if (w <? lc_min_width (el_cfg l)) || (h <? lc_min_height (el_cfg l)) then inr TooSmall
    else if negb (w =? fb_w (el_fb l)) || negb (h =? fb_h (el_fb l)) then
      let '(l, ok) := loop_resize l w h in
      if negb ok then inr ResizeFailed
      else inl (mkRunning (set_stats l (count_repaint (el_stats l))) (la_resized (rn_app s) w h) true true
                  (rn_trace s ++ [OutResize w h]))
    else inl s.

(** Drain and update. *)
Definition advance (fr : Frame) (s : Running) : Running :=
  let '(a, n) := la_drain (rn_app s) in
  let l := set_stats (rn_loop s) (count_events (el_stats (rn_loop s)) n) in
  let '(a, changed) := la_update a (ck_drained (fr_clock fr)) in
  mkRunning l a (rn_dirty s || negb (n =? 0) || changed || la_animating a) (rn_full s) (rn_trace s).

(** Draw, diff, write and swap; [None] while the write replies run out. *)
Definition paint (fr : Frame) (s : Running) : option (Running + LoopExit) :=
  let l := rn_loop s in
  let '(a, f) := la_draw (rn_app s) (el_fb l) (el_stats l) in
  let '(r, bytes) := render (el_r l) f (rn_full s) in
  let '(sent, delivered) := if bytes =? 0 then ([], Some true) else flush r (fr_writes fr) in
  match delivered with
  | None => None
  | Some false => Some (inr WriteFailed)
  | Some true =>
      let st := if bytes =? 0 then el_stats l else count_write (el_stats l) bytes in
      Some (inl (mkRunning (set_stats (set_screen l (swap f empty_cell) r) (count_drawn st)) a false false
                  (rn_trace s ++ [OutBytes sent])))
  end.

(** The timings of the frame; the phases of a skipped draw stay zero. *)
Definition frame_timing (c : Clock) (painted : bool) : FrameTiming :=
  mkTiming (ck_drained c ⊟ ck_start c) (ck_updated c ⊟ ck_drained c)
    (if painted then ck_drawn c ⊟ ck_updated c else 0) (if painted then ck_diffed c ⊟ ck_drawn c else 0)
    (if painted then ck_written c ⊟ ck_diffed c else 0) (ck_end c ⊟ ck_start c).

Definition note_timing (l : EventLoop) (t : FrameTiming) : EventLoop :=
  let s := el_stats l in
  set_stats l (mkLoopStats (ls_frames s) (ls_drawn s) (ls_skipped s) (ls_repaints s) (ls_writes s) (ls_bytes_written s)
    (ls_events s) (if el_period_ns l <? tm_total t then ls_overruns s ⊞ 1 else ls_overruns s) t
    (if tm_total (ls_worst s) <? tm_total t then t else ls_worst s) (ls_fps s)).

(** The rate over the last samples. *)
Definition note_rate (l : EventLoop) (updated : Z) : EventLoop :=
  let s := el_stats l in
  let samples := <[el_fps_next l := (updated, ls_drawn s)]> (el_samples l) in
  let next := ((el_fps_next l + 1) mod kFpsSamples)%nat in
  let count := if (el_fps_count l <? kFpsSamples)%nat then Datatypes.S (el_fps_count l) else el_fps_count l in
  let l := set_samples l samples next count in
  if (2 <=? count)%nat then
    let oldest := ((next + kFpsSamples - count) mod kFpsSamples)%nat in
    let '(ns, drawn) := samples !!! oldest in
    let elapsed := updated ⊟ ns in
    let fps := if elapsed =? 0 then (0, 1) else ((ls_drawn s ⊟ drawn) * kNsPerSec, elapsed) in
    set_stats l (mkLoopStats (ls_frames s) (ls_drawn s) (ls_skipped s) (ls_repaints s) (ls_writes s)
      (ls_bytes_written s) (ls_events s) (ls_overruns s) (ls_last s) (ls_worst s) fps)
  else l.

(** What follows the drawing. *)
Definition finish (fr : Frame) (painted : bool) (s : Running) : Running * FrameEnd :=
  let c := fr_clock fr in
  let l := note_rate (note_timing (rn_loop s) (frame_timing c painted)) (ck_updated c) in
  let '(l, a, dirty, e) := wait_for_deadline (fr_turns fr) l (rn_app s) (ck_start c ⊞ el_period_ns l) (rn_dirty s) in
  let s := mkRunning l a dirty (rn_full s) (rn_trace s) in
  (s, match e with WaitOver => NextFrame | WaitQuit => LoopEnds (el_exit l) | WaitStuck => FrameStuck end).

Definition frame (fr : Frame) (s : Running) : Running * FrameEnd :=
  if fr_quit fr || la_quit (rn_app s) then (s, LoopEnds Quit)
  else
    let s := reset_diagnostics s in
    let l := rn_loop s in
    if negb (lc_max_frames (el_cfg l) =? 0) && (lc_max_frames (el_cfg l) <=? ls_frames (el_stats l))
    then (s, LoopEnds FrameLimit)
    else
      let s := mkRunning (set_stats l (count_frame (el_stats l))) (rn_app s) (rn_dirty s) (rn_full s) (rn_trace s) in
      match apply_resize fr s with
      | inr e => (s, LoopEnds e)
      | inl s =>
          let s := advance fr s in
          if rn_dirty s then
            match paint fr s with
            | None => (s, FrameStuck)
            | Some (inr e) => (s, LoopEnds e)
            | Some (inl s) => finish fr true s
            end
          else
            finish fr false (mkRunning (set_stats (rn_loop s) (count_skipped (el_stats (rn_loop s)))) (rn_app s)
                               (rn_dirty s) (rn_full s) (rn_trace s))
      end.

(** [run]: frames until one ends the loop; [None] while they last.  The first
    frame has a resize request pending. *)
Fixpoint frames (frs : list Frame) (s : Running) : Running * option LoopExit :=
  match frs with
  | [] => (s, None)
  | fr :: frs =>
      match frame fr s with
      | (s, NextFrame) => frames frs s
      | (s, LoopEnds e) => (s, Some e)
      | (s, FrameStuck) => (s, None)
      end
  end.

Definition first_request (fr : Frame) : Frame :=
  mkFrame (fr_quit fr) true (fr_size fr) (fr_clock fr) (fr_writes fr) (fr_turns fr).

Definition run (l : EventLoop) (a : A) (frs : list Frame) : Running * option LoopExit :=
  let l := set_samples l (replicate kFpsSamples (0, 0)) 0 0 in
  let s := mkRunning l a true true [] in
  match frs with
  | [] => (s, None)
  | fr :: frs => frames (first_request fr :: frs) s
  end.

End Loop.
Arguments Running : clear implicits.
