(* ===== verification/EventLoopProofs.v ===== *)
(** * What the loop guarantees

    The terminal shows the front buffer after every frame, through resizes and
    skipped frames; every frame is accounted for; and the wait for the deadline
    ends. *)

From S2P Require Import Prelude Framebuffer Capabilities Renderer RendererProofs EventLoop.

(** ** What the application keeps *)

Section Keeps.
Context {A : Type} `{!LoopApp A} (Q : A -> Prop).

(** Everything the loop does with an application keeps [Q]. *)
Record loop_keeps : Prop := {
  lk_drain : forall a, Q a -> Q (la_drain a).1;
  lk_update : forall a now, Q a -> Q (la_update a now).1;
  lk_key : forall a b, Q a -> Q (la_key a b).1;
  lk_reset : forall a, Q a -> Q (la_take_stats_reset a).1;
  lk_resized : forall a w h, Q a -> Q (la_resized a w h);
  lk_draw : forall a f st, Q a -> Q (la_draw a f st).1
}.
Context (HQ : loop_keeps).

Lemma press_keeps bytes : forall st, Q st.1 -> Q (foldl press st bytes).1.
Proof.
  induction bytes as [|b bytes IH]; intros [a d] Ha; [done|]. cbn [foldl]. apply IH. unfold press.
  pose proof (lk_key HQ a b Ha). by destruct (la_key a b).
Qed.

Lemma wait_keeps turns : forall l a d b, Q a -> Q (wait_for_deadline turns l a d b).1.1.2.
Proof.
  induction turns as [|t turns IH]; intros l a d b Ha; [done|]. cbn [wait_for_deadline].
  destruct (_ || _); [done|]. destruct (_ <=? _); [done|]. destruct (negb _); [done|].
  destruct (tn_poll t) as [e| |[bytes| |e]| |]; try done; try by apply IH.
  - destruct (e =? EINTR); [done|by apply IH].
  - pose proof (press_keeps bytes (a, b) Ha) as Hp. destruct (foldl press _ _) as [a' b']. destruct (_ || _); [done|by apply IH].
Qed.

Lemma reset_keeps s : Q (rn_app s) -> Q (rn_app (reset_diagnostics s)).
Proof. intros Hs. unfold reset_diagnostics. pose proof (lk_reset HQ _ Hs). by destruct (la_take_stats_reset _) as [a []]. Qed.

Lemma resize_keeps fr s s' : Q (rn_app s) -> apply_resize fr s = inl s' -> Q (rn_app s').
Proof.
  intros Hs. unfold apply_resize. destruct (negb (fr_resize fr)); [by intros [= <-]|].
  destruct (match terminal_size _ with Some _ => _ | None => _ end) as [w h]. destruct (_ || _); [done|].
  destruct (_ || _); [|by intros [= <-]]. destruct (loop_resize _ _ _) as [l []]; [|done]. intros [= <-].
  by apply (lk_resized HQ).
Qed.

Lemma advance_keeps fr s : Q (rn_app s) -> Q (rn_app (advance fr s)).
Proof.
  intros Hs. unfold advance. pose proof (lk_drain HQ _ Hs) as Hd. destruct (la_drain _) as [a n]. cbn [fst] in Hd.
  pose proof (lk_update HQ _ (ck_drained (fr_clock fr)) Hd). by destruct (la_update _ _).
Qed.

Lemma paint_keeps fr s s' : Q (rn_app s) -> paint fr s = Some (inl s') -> Q (rn_app s').
Proof.
  intros Hs. unfold paint. pose proof (lk_draw HQ (rn_app s) (el_fb (rn_loop s)) (el_stats (rn_loop s)) Hs) as Hd.
  destruct (la_draw _ _ _) as [a f]. destruct (render _ _ _) as [r bytes].
  destruct (if bytes =? 0 then _ else _) as [sent [[]|]]; [|done|done]. by intros [= <-].
Qed.

Lemma finish_keeps fr b s : Q (rn_app s) -> Q (rn_app (finish fr b s).1).
Proof.
  intros Hs. unfold finish. set (l := note_rate _ _).
  pose proof (wait_keeps (fr_turns fr) l (rn_app s) (ck_start (fr_clock fr) ⊞ el_period_ns l) (rn_dirty s) Hs).
  by destruct (wait_for_deadline _ _ _ _ _) as [[[? ?] ?] ?].
Qed.

Lemma frame_keeps fr s : Q (rn_app s) -> Q (rn_app (frame fr s).1).
Proof.
  intros Hs. unfold frame. destruct (_ || _); [done|]. apply reset_keeps in Hs.
  set (s1 := reset_diagnostics s) in *. clearbody s1. destruct (_ && _); [done|]. set (s2 := mkRunning _ _ _ _ _).
  pose proof (fun s3 => resize_keeps fr s2 s3 Hs) as H3. destruct (apply_resize fr s2) as [s3|e]; [|done].
  pose proof (advance_keeps fr s3 (H3 s3 eq_refl)) as H4. set (s4 := advance fr s3) in *. clearbody s4.
  destruct (rn_dirty s4); [|by apply finish_keeps].
  pose proof (fun s5 => paint_keeps fr s4 s5 H4) as H5.
  destruct (paint fr s4) as [[s5|e]|]; [by apply finish_keeps, H5|done|done].
Qed.

Lemma frames_keeps frs : forall s, Q (rn_app s) -> Q (rn_app (frames frs s).1).
Proof.
  induction frs as [|fr frs IH]; intros s Hs; [done|]. cbn [frames]. pose proof (frame_keeps fr s Hs) as Hf.
  destruct (frame fr s) as [s1 [|e|]]; [by apply IH|done|done].
Qed.

Lemma run_keeps l a frs : Q a -> Q (rn_app (run l a frs).1).
Proof. intros Ha. unfold run. destruct frs as [|fr frs]; [done|]. by apply frames_keeps. Qed.
End Keeps.

(** ** What the terminal shows *)

Section Loop.
Context {A : Type} `{!LoopApp A} (Q : A -> Prop).

(** What an application promises when it draws, in any state [Q] it keeps: the
    buffer's shape and front are left alone, and the cells can be shown. *)
Definition draws_well : Prop := forall (a : A) f st, Q a -> fb_ok f ->
  let g := (la_draw a f st).2 in
  same_front f g /\
  (forall x y, on_grid g x y -> RendererProofs.printable (glyph (at_back g x y)) /\ 0 <= attrs (at_back g x y) < 256).

Context (HQ : loop_keeps Q) (Hdraw : draws_well).

(** The terminal: [wrap] is what its cursor does after the last column, and
    [reflow] what it makes of its contents when its size changes. *)
Context (wrap : Z -> Z * Z) (reflow : Term -> Z -> Z -> Z -> Z -> TCell) (t0 : Term).
Context (Hterm : t_parse t0 = Ground).

Definition receive (tw : Term * Z) (o : Output) : Term * Z :=
  let '(t, w) := tw in
  match o with
  | OutResize w h => (mkTerm (reflow t w h) (t_x t) (t_y t) (t_pen t) (t_parse t), w)
  | OutBytes sent => (feed w wrap t sent, w)
  end.
Definition terminal (tr : list Output) : Term * Z := foldl receive (t0, 0) tr.

(** The screen of a running loop shows its front buffer. *)
Definition shows (s : Running A) : Prop :=
  forall x y, on_grid (el_fb (rn_loop s)) x y ->
    t_screen (terminal (rn_trace s)).1 x y = shown (rn_mode (el_r (rn_loop s))) (at_front (el_fb (rn_loop s)) x y).

Record sized (s : Running A) : Prop := {
  sz_ok : fb_ok (el_fb (rn_loop s));
  sz_dims : 0 < fb_w (el_fb (rn_loop s)) /\ 0 < fb_h (el_fb (rn_loop s));
  sz_max : fb_w (el_fb (rn_loop s)) * fb_h (el_fb (rn_loop s)) <= kMaxCells;
  sz_width : (terminal (rn_trace s)).2 = fb_w (el_fb (rn_loop s));
  sz_ground : t_parse (terminal (rn_trace s)).1 = Ground
}.
(** Before the first frame, between frames, and inside one. *)
Definition started (s : Running A) : Prop :=
  fb_ok (el_fb (rn_loop s)) /\ fb_empty (el_fb (rn_loop s)) = true /\ rn_full s = true /\ rn_dirty s = true /\
  rn_trace s = [].
Definition current (s : Running A) : Prop := sized s /\ rn_full s = false /\ shows s.
Definition inside (s : Running A) : Prop :=
  sized s /\ (rn_full s = true /\ rn_dirty s = true \/ rn_full s = false /\ shows s).

(** Only the loop's screen, its trace and the repaint flag matter. *)
Definition same_screen (s s' : Running A) : Prop :=
  el_fb (rn_loop s') = el_fb (rn_loop s) /\ el_r (rn_loop s') = el_r (rn_loop s) /\
  rn_trace s' = rn_trace s /\ rn_full s' = rn_full s.

Lemma same_sized s s' : same_screen s s' -> sized s -> sized s'.
Proof. intros (E1 & E2 & E3 & E4) []. split; rewrite ?E1, ?E3; done. Qed.
Lemma same_shows s s' : same_screen s s' -> shows s -> shows s'.
Proof. intros (E1 & E2 & E3 & E4) Hs. unfold shows. by rewrite E1, E2, E3. Qed.
Lemma same_current s s' : same_screen s s' -> current s -> current s'.
Proof.
  intros Hss (H1 & H2 & H3). split; [by eapply same_sized|]. split; [|by eapply same_shows].
  destruct Hss as (_ & _ & _ & ->). done.
Qed.

(** ** The steps of a frame *)
Lemma terminal_snoc tr o : terminal (tr ++ [o]) = receive (terminal tr) o.
Proof. unfold terminal. by rewrite foldl_app. Qed.

Lemma reset_screen (s : Running A) : same_screen s (reset_diagnostics s).
Proof. unfold reset_diagnostics. destruct (la_take_stats_reset _) as [a []]; done. Qed.
Lemma reset_started s : started s -> started (reset_diagnostics s).
Proof. unfold started, reset_diagnostics. destruct (la_take_stats_reset _) as [a []]; cbn; tauto. Qed.

Lemma resize_dims f w h : (resize f w h).2 = true ->
  fb_w (resize f w h).1 = w /\ fb_h (resize f w h).1 = h /\ 0 < w /\ 0 < h /\ w * h <= kMaxCells.
Proof.
  unfold resize. destruct (Z.leb_spec w 0); [done|]. destruct (Z.leb_spec h 0); [done|]. cbn [orb].
  destruct (Z.ltb_spec kMaxCells (w * h)); [done|]. cbn. lia.
Qed.

(** A measured size, or the default, is never zero. *)
Lemma measured_nonzero fr (f : Framebuffer) size :
  match terminal_size (fr_size fr) with
  | Some size => size
  | None => if fb_empty f then (80, 24) else (fb_w f, fb_h f)
  end = size -> fb_empty f = true -> size.1 <> 0 /\ size.2 <> 0.
Proof.
  intros <- ->. unfold terminal_size. destruct (fr_size fr) as [[c r]|]; [|done].
  destruct (Z.eqb_spec c 0), (Z.eqb_spec r 0); cbn; done.
Qed.

Lemma resize_inside fr s s' : current s \/ started s /\ fr_resize fr = true ->
  apply_resize fr s = inl s' -> inside s'.
Proof.
  intros Hs. unfold apply_resize. destruct (fr_resize fr) eqn:Er; cbn [negb].
  2: { destruct Hs as [(H1 & H2 & H3)|[_ ?]]; [|done]. intros [= <-]. split; [done|]. by right. }
  pose proof (measured_nonzero fr (el_fb (rn_loop s)) _ eq_refl) as Hnz.
  destruct (match terminal_size (fr_size fr) with Some size => size | None => _ end) as [w h]. destruct (_ || _); [done|].
  destruct (negb (w =? _) || negb (h =? _)) eqn:Ene.
  - unfold loop_resize. pose proof (resize_dims (el_fb (rn_loop s)) w h) as Hd.
    assert (fb_ok (el_fb (rn_loop s))) as Hok by (destruct Hs as [[[] _]|[[] _]]; done).
    pose proof (resize_ok _ w h Hok) as Hok'. destruct (resize _ w h) as [f ok]. destruct ok; [|done]. cbn [negb].
    intros [= <-]. destruct (Hd eq_refl) as (E1 & E2 & Hw & Hh & Hm). cbn [fst] in *. split; [|by left].
    assert (t_parse (terminal (rn_trace s)).1 = Ground) as Hg by (destruct Hs as [[[] _]|[(_ & _ & _ & _ & ->) _]]; done).
    split; cbn [rn_loop rn_trace el_fb set_stats set_screen]; rewrite ?terminal_snoc, ?E1, ?E2; try done;
      by destruct (terminal (rn_trace s)).
  - intros [= <-]. destruct Hs as [(H1 & H2 & H3)|[(Hok & He & _) _]]; [split; [done|by right]|].
    exfalso. destruct (Hnz He) as [Hw Hh]. cbn [fst snd] in *. bprop. destruct Hok as [[Hw0 Hh0] _ _].
    unfold fb_empty in He. bprop. lia.
Qed.

Lemma advance_inside fr s : inside s -> inside (advance fr s).
Proof.
  intros [Hz Hc]. unfold advance. destruct (la_drain _) as [a n]. destruct (la_update _ _) as [a' c].
  split; [by eapply same_sized; [|exact Hz]|].
  destruct Hc as [[Hf Hd]|[Hf Hs]]; [left|right]; cbn; [by rewrite Hd|]. split; [done|].
  by eapply same_shows; [|exact Hs].
Qed.

Lemma render_keeps_mode r f full : showable f -> rn_mode (render r f full).1 = rn_mode r.
Proof.
  intros Hsh. destruct (showable_bounds f Hsh) as (_ & _ & He). unfold render. rewrite He. cbn [fst].
  fold (fresh_renderer r).
  pose proof (cells_cost (fun y => (0, y)) (rn_mode r) f full (sh_cells f Hsh) (positions f) (fresh_renderer r) eq_refl
    (sh_max f Hsh) (fun x y => proj1 (elem_of_positions f x y))) as [Hm _].
  destruct (rn_out _); exact Hm.
Qed.

Lemma render_count r f full : showable f -> (render r f full).2 = Z.of_nat (length (rn_out (render r f full).1)).
Proof. intros Hsh. destruct (showable_bounds f Hsh) as (_ & _ & He). unfold render. by rewrite He. Qed.

Lemma flush_loop_whole answers : forall p sent s, flush_loop answers p sent = (s, Some true) -> s = sent ++ p.
Proof.
  induction answers as [|a answers IH]; intros p sent s; destruct p as [|b p]; cbn [flush_loop];
    try (intros [= <-]; by rewrite app_nil_r); try done.
  destruct a as [e|n]; [destruct (e =? EINTR); [apply IH|done]|].
  intros H. apply IH in H. rewrite H, <- app_assoc, take_drop. done.
Qed.

Lemma paint_current fr s s' : Q (rn_app s) -> inside s -> paint fr s = Some (inl s') -> current s'.
Proof.
  intros Ha [Hz Hc]. unfold paint. pose proof (Hdraw (rn_app s) (el_fb (rn_loop s)) (el_stats (rn_loop s)) Ha (sz_ok _ Hz)) as [Hsf Hcells].
  destruct (la_draw _ _ _) as [a f]. cbn [snd] in *. pose proof Hsf as [Ew Eh Ef Hok].
  assert (showable f) as Hsh by (split; [rewrite Ew, Eh; apply Hz|rewrite Ew, Eh; apply Hz|exact Hcells]).
  pose proof (render_shows wrap (el_r (rn_loop s)) f (rn_full s) (terminal (rn_trace s)).1 Hsh (sz_ground _ Hz)) as Hr.
  pose proof (render_keeps_mode (el_r (rn_loop s)) f (rn_full s) Hsh) as Hmode.
  pose proof (render_count (el_r (rn_loop s)) f (rn_full s) Hsh) as Hcount.
  destruct (render _ _ _) as [r bytes]. cbn [fst snd] in *. destruct Hr as (Hshow & _ & Hground & _).
  destruct (if bytes =? 0 then _ else _) as [sent delivered] eqn:Esent.
  destruct delivered as [[]|]; [|done|done]. intros [= <-].
  assert (sent = rn_out r) as ->.
  { destruct (Z.eqb_spec bytes 0) as [E0|E0]; [|by apply flush_loop_whole in Esent].
    injection Esent as <-. destruct (rn_out r); [done|]. cbn in Hcount. lia. }
  destruct (swap_shows_back f empty_cell Hok) as (Hok' & Efr & _ & Ew' & Eh').
  assert (terminal (rn_trace s ++ [OutBytes (rn_out r)]) = (feed (fb_w f) wrap (terminal (rn_trace s)).1 (rn_out r), fb_w f)) as Et.
  { rewrite terminal_snoc. pose proof (sz_width _ Hz) as Hwd. destruct (terminal (rn_trace s)) as [t w]. cbn in *. by rewrite Hwd, Ew. }
  split; [|split; [done|]].
  - split; cbn [rn_loop rn_trace el_fb set_stats set_screen]; rewrite ?Ew', ?Eh', ?Et; rewrite ?Ew, ?Eh; try apply Hz; try done.
    cbn. by rewrite <- Ew.
  - intros x y Hg. cbn [rn_loop rn_trace el_fb el_r set_stats set_screen] in *. rewrite Et. cbn [fst].
    assert (on_grid f x y) as Hgf by (unfold on_grid in *; by rewrite Ew', Eh' in Hg).
    rewrite (Hshow x y Hgf), Hmode; [|destruct Hc as [[Hf _]|[_ Hs]]; [by left|right]].
    + unfold at_front, at_back, fb_index. by rewrite Efr, Ew'.
    + rewrite (Hs x y) by (by apply (on_grid_same _ _ _ _ Hsf)). unfold at_front, fb_index. by rewrite Ef, Ew.
Qed.

Lemma paint_fails fr s e : paint fr s = Some (inr e) -> e = WriteFailed.
Proof.
  unfold paint. destruct (la_draw _ _ _) as [a f]. destruct (render _ _ _) as [r bytes].
  destruct (if bytes =? 0 then _ else _) as [sent [[]|]]; [done|by intros [= <-]|done].
Qed.

Lemma wait_screen turns : forall l (a : A) d b,
  el_fb (wait_for_deadline turns l a d b).1.1.1 = el_fb l /\ el_r (wait_for_deadline turns l a d b).1.1.1 = el_r l.
Proof.
  induction turns as [|t turns IH]; intros l a d b; [done|]. cbn [wait_for_deadline].
  destruct (_ || _); [done|]. destruct (_ <=? _); [done|]. destruct (negb _); [done|].
  destruct (tn_poll t) as [e| |[bytes| |e]| |]; [|done| | | | |apply IH].
  - destruct (e =? EINTR); [done|]. apply (IH (set_input l false)).
  - destruct (foldl press _ _) as [a' b']. destruct (_ || _); [done|apply IH].
  - apply (IH (set_input l false)).
  - destruct (_ && _); [apply (IH (set_input l false))|apply IH].
  - apply (IH (set_input l false)).
Qed.

Lemma note_screen l c b u : el_fb (note_rate (note_timing l (frame_timing c b)) u) = el_fb l /\
  el_r (note_rate (note_timing l (frame_timing c b)) u) = el_r l.
Proof. unfold note_rate. destruct (2 <=? _)%nat; [|done]. by destruct (_ !!! _). Qed.

Lemma finish_screen fr b s : same_screen s (finish fr b s).1.
Proof.
  unfold finish. destruct (note_screen (rn_loop s) (fr_clock fr) b (ck_updated (fr_clock fr))) as [E1 E2].
  set (l := note_rate _ _) in *.
  destruct (wait_screen (fr_turns fr) l (rn_app s) (ck_start (fr_clock fr) ⊞ el_period_ns l) (rn_dirty s)) as [E3 E4].
  destruct (wait_for_deadline _ _ _ _ _) as [[[l' a] d] e]. cbn in *. repeat split; cbn; congruence.
Qed.

(** ** Frames *)

(** Nothing was written yet, or the screen is current. *)
Definition honest_screen (s : Running A) : Prop := rn_trace s = [] \/ current s.

Lemma begun_honest fr s : current s \/ started s /\ fr_resize fr = true -> honest_screen s.
Proof. intros [?|[(_ & _ & _ & _ & ?) _]]; [by right|by left]. Qed.

Lemma frame_current fr s : Q (rn_app s) -> current s \/ started s /\ fr_resize fr = true ->
  let '(s', e) := frame fr s in
  (e = NextFrame -> current s') /\ (forall x, e = LoopEnds x -> x <> WriteFailed -> honest_screen s').
Proof.
  intros Ha Hs. unfold frame. pose proof (begun_honest fr s Hs) as Hw.
  destruct (fr_quit fr || _); [by split|]. apply (reset_keeps Q HQ) in Ha.
  assert (current (reset_diagnostics s) \/ started (reset_diagnostics s) /\ fr_resize fr = true) as Hs1
    by (destruct Hs as [?|[? ?]];
        [left; eapply same_current; [apply reset_screen|done]|right; split; [by apply reset_started|done]]).
  pose proof (begun_honest fr _ Hs1) as Hw1. set (s1 := reset_diagnostics s) in *. clearbody s1. clear Hs Hw s.
  destruct (_ && _); [by split|].
  set (s2 := mkRunning _ _ _ _ _).
  assert (same_screen s1 s2) as E12 by done.
  assert (current s2 \/ started s2 /\ fr_resize fr = true) as Hs2
    by (destruct Hs1 as [?|[? ?]]; [left; by eapply same_current|right; split; done]).
  pose proof (begun_honest fr s2 Hs2) as Hw2.
  pose proof (resize_inside fr s2) as Hri. pose proof (fun s3 => resize_keeps Q HQ fr s2 s3 Ha) as Ha3.
  destruct (apply_resize fr s2) as [s3|e]; [|by split].
  pose proof (advance_inside fr s3 (Hri s3 Hs2 eq_refl)) as [Hz Hc]. pose proof (advance_keeps Q HQ fr s3 (Ha3 s3 eq_refl)) as Ha4. set (s4 := advance fr s3) in *. clearbody s4.
  assert (forall b s5, current s5 -> let '(s', e) := finish fr b s5 in
    (e = NextFrame -> current s') /\ (forall x, e = LoopEnds x -> x <> WriteFailed -> honest_screen s')) as Hfin.
  { intros b s5 H5. pose proof (finish_screen fr b s5) as Hf. destruct (finish fr b s5) as [s6 e].
    assert (current s6) by (by eapply same_current). split; [done|by right]. }
  destruct (rn_dirty s4) eqn:Ed.
  - pose proof (paint_current fr s4) as Hp. pose proof (paint_fails fr s4) as Hpf.
    destruct (paint fr s4) as [[s5|e]|]; [|rewrite (Hpf e eq_refl); split; [done|by intros ? [= <-]]|by split].
    apply Hfin, Hp; [done|by split; [|destruct Hc; [left|right]; tauto]|done].
  - apply Hfin. destruct Hc as [[_ ?]|[Hf Hsh]]; [congruence|]. eapply same_current; [|split; [exact Hz|done]]. done.
Qed.

Lemma frames_current frs : forall s, Q (rn_app s) -> current s \/ started s /\ (forall fr, head frs = Some fr -> fr_resize fr = true) ->
  forall s' e, frames frs s = (s', Some e) -> e <> WriteFailed -> honest_screen s'.
Proof.
  induction frs as [|fr frs IH]; intros s Ha Hs s' e; cbn [frames]; [done|].
  pose proof (frame_keeps Q HQ fr s Ha) as Ha1.
  assert (current s \/ started s /\ fr_resize fr = true) as Hs1
    by (destruct Hs as [?|[? Hr]]; [by left|right; split; [done|by apply Hr]]).
  pose proof (frame_current fr s Ha Hs1) as Hf. destruct (frame fr s) as [s1 [|e1|]]; destruct Hf as [Hn Hf]; [| |done].
  - apply IH; [done|]. left. by apply Hn.
  - intros [= <- <-]. by apply Hf.
Qed.

Lemma run_current cfg (a : A) frs s e :
  Q a -> run (new_loop cfg) a frs = (s, Some e) -> e <> WriteFailed -> rn_trace s = [] \/ current s.
Proof.
  intros Ha. unfold run. destruct frs as [|fr frs]; [done|]. apply (frames_current (first_request fr :: frs)); [done|].
  right. split; [|by intros ? [= <-]]. repeat split; cbn; try done; lia.
Qed.

(** C8: Whenever the loop is left, by a quit, the frame limit, a terminal that
    became too small or a resize that could not be allocated, but not by a
    write that failed, the user is looking at what the application last drew,
    provided the application draws well in the states it can be in:
    either nothing was ever written, or the terminal, fed every byte the loop
    sent it and resized in between as it was, shows the front buffer cell for
    cell.  No skipped frame, no frame that found nothing to draw and no resize
    in between leaves the two apart. *)
Theorem loop_shows_front cfg (a : A) frs s e :
  Q a -> run (new_loop cfg) a frs = (s, Some e) -> e <> WriteFailed -> rn_trace s = [] \/ current s.
Proof. apply run_current. Qed.
End Loop.

(** ** What the shown cells hold *)

Section Fronts.
Context {A : Type} `{!LoopApp A} (Q : A -> Prop) (HQ : loop_keeps Q).
Context (P : Z -> Prop) (Hdraw : forall (a : A) f st, Q a -> fb_ok f ->
  let g := (la_draw a f st).2 in same_front f g /\ forall x y, on_grid g x y -> P (glyph (at_back g x y))).

(** Unless the next frame repaints it whole, the front holds glyphs of [P]. *)
Definition fronted (s : Running A) : Prop :=
  let f := el_fb (rn_loop s) in fb_ok f /\ (rn_full s = true \/ forall x y, on_grid f x y -> P (glyph (at_front f x y))).

Lemma same_fronted s s' : same_screen s s' -> fronted s -> fronted s'.
Proof. intros (E1 & _ & _ & E4). unfold fronted. by rewrite E1, E4. Qed.

Lemma resize_fronted fr s s' : fronted s -> apply_resize fr s = inl s' -> fronted s'.
Proof.
  intros Hs. unfold apply_resize. destruct (negb (fr_resize fr)); [by intros [= <-]|].
  destruct (match terminal_size _ with Some _ => _ | None => _ end) as [w h]. destruct (_ || _); [done|].
  destruct (_ || _); [|by intros [= <-]]. unfold loop_resize. pose proof (resize_ok _ w h (proj1 Hs)) as Hok.
  destruct (resize _ w h) as [f []]; [|done]. intros [= <-]. split; [exact Hok|by left].
Qed.

Lemma paint_fronted fr s s' : Q (rn_app s) -> fronted s -> paint fr s = Some (inl s') -> fronted s'.
Proof.
  intros Ha [Hok _]. unfold paint. destruct (Hdraw (rn_app s) _ (el_stats (rn_loop s)) Ha Hok) as [[Ew Eh Ef Hok2] HP].
  destruct (la_draw _ _ _) as [a f]. cbn [snd] in *. destruct (render _ _ _) as [r bytes].
  destruct (if bytes =? 0 then _ else _) as [sent [[]|]]; [|done|done]. intros [= <-].
  destruct (swap_shows_back f empty_cell Hok2) as (Hok3 & Efr & _ & Ew' & Eh'). split; [exact Hok3|]. right. intros x y Hg.
  cbn [rn_loop el_fb set_stats set_screen] in *. unfold at_front, fb_index. rewrite Efr, Ew'. apply HP.
  unfold on_grid in *. by rewrite Ew', Eh' in Hg.
Qed.

Lemma frame_fronted fr s : Q (rn_app s) -> fronted s -> fronted (frame fr s).1.
Proof.
  intros Ha Hs. unfold frame. destruct (_ || _); [done|]. apply (reset_keeps Q HQ) in Ha.
  apply (same_fronted _ _ (reset_screen s)) in Hs. set (s1 := reset_diagnostics s) in *. clearbody s1.
  destruct (_ && _); [done|]. set (s2 := mkRunning _ _ _ _ _). assert (fronted s2) as H2 by (by apply (same_fronted s1)).
  pose proof (fun s3 => resize_fronted fr s2 s3 H2) as H3. pose proof (fun s3 => resize_keeps Q HQ fr s2 s3 Ha) as Ha3.
  destruct (apply_resize fr s2) as [s3|e]; [|done]. specialize (H3 s3 eq_refl). specialize (Ha3 s3 eq_refl).
  pose proof (advance_keeps Q HQ fr s3 Ha3) as Ha4. assert (fronted (advance fr s3)) as H4.
  { destruct H3 as [Hok Hf]. unfold advance. destruct (la_drain _). destruct (la_update _ _). by split. }
  set (s4 := advance fr s3) in *. clearbody s4.
  destruct (rn_dirty s4); [|by apply (same_fronted _ _ (finish_screen fr false _))].
  pose proof (fun s5 => paint_fronted fr s4 s5 Ha4 H4) as H5.
  destruct (paint fr s4) as [[s5|e]|]; [by eapply same_fronted, H5; [apply finish_screen|]|done|done].
Qed.

Lemma frames_fronted frs : forall s, Q (rn_app s) -> fronted s -> fronted (frames frs s).1.
Proof.
  induction frs as [|fr frs IH]; intros s Ha Hs; [done|]. cbn [frames]. pose proof (frame_fronted fr s Ha Hs) as Hf.
  pose proof (frame_keeps Q HQ fr s Ha) as Hk. destruct (frame fr s) as [s1 [|e|]]; [by apply IH|done|done].
Qed.

Lemma run_fronted cfg (a : A) frs : Q a -> fronted (run (new_loop cfg) a frs).1.
Proof.
  intros Ha. unfold run. assert (forall l, el_fb l = new_fb -> fronted (mkRunning l a true true [])) as H0
    by (intros l E; split; [cbn; rewrite E; repeat split; cbn; try done; lia|by left]).
  destruct frs as [|fr frs]; [by apply H0|]. apply frames_fronted; [done|by apply H0].
Qed.
End Fronts.

(** ** Waiting *)

Section Wait.
Context {A : Type} `{!LoopApp A}.

(** The keys one turn delivers. *)
Definition turn_keys (t : Turn) : list Z :=
  match tn_poll t with PollInput (Bytes bytes) => bytes | _ => [] end.

(** What the keys of the turns [ts] make of the application and the dirty flag. *)
Definition typed (st : A * bool) (ts : list Turn) : A * bool := foldl press st (concat (turn_keys <$> ts)).

(** A turn after which standard input is still polled. *)
Definition keeps_input (t : Turn) : bool :=
  match tn_poll t with
  | PollFailed _ | PollHangup | PollInput Eof => false
  | PollInput (ReadFailed e) => (e =? EINTR) || (e =? EAGAIN)
  | _ => true
  end.
Definition still_open (opened : bool) (ts : list Turn) : bool := opened && forallb keeps_input ts.

(** Why a turn is the wait's last, given the application as it stands and whether
    input is still polled: a quit asked for before the turn, the deadline, no
    input left to poll, a poll with nothing to report, a quit among its keys. *)
Inductive LastTurn := QuitBefore | Deadline | NoInput | Idle | QuitKeys.
Definition last_turn (deadline : Z) (opened : bool) (st : A * bool) (t : Turn) : option LastTurn :=
  if tn_quit t || la_quit st.1 then Some QuitBefore
  else if deadline <=? tn_now t then Some Deadline
  else if negb opened then Some NoInput
  else
    match tn_poll t with
    | PollTimedOut => Some Idle
    | PollFailed e => if e =? EINTR then Some Idle else None
    | PollInput (Bytes _) => if tn_quit_after t || la_quit (typed st [t]).1 then Some QuitKeys else None
    | _ => None
    end.
(** The turns whose keys are read, the wait's last being number [n]. *)
Definition served (n : nat) (why : LastTurn) (turns : list Turn) : list Turn :=
  take (match why with QuitKeys => S n | _ => n end) turns.

Lemma typed_cons st t ts : typed st (t :: ts) = typed (typed st [t]) ts.
Proof. unfold typed. cbn [fmap list_fmap concat]. by rewrite app_nil_r, foldl_app. Qed.
Lemma still_open_cons o t ts : still_open o (t :: ts) = still_open (o && keeps_input t) ts.
Proof. unfold still_open. cbn. by rewrite andb_assoc. Qed.

(** One turn: it is the last, or its keys are pressed and the wait goes on. *)
Lemma wait_turn t turns l (a : A) deadline dirty :
  wait_for_deadline (t :: turns) l a deadline dirty =
  match last_turn deadline (el_input_open l) (a, dirty) t with
  | Some QuitBefore => (set_exit l Quit, a, dirty, WaitQuit)
  | Some QuitKeys => (set_exit l Quit, (typed (a, dirty) [t]).1, (typed (a, dirty) [t]).2, WaitQuit)
  | Some _ => (l, a, dirty, WaitOver)
  | None => wait_for_deadline turns (if keeps_input t then l else set_input l false) (typed (a, dirty) [t]).1 deadline (typed (a, dirty) [t]).2
  end.
Proof.
  cbn [wait_for_deadline]. unfold last_turn, typed, keeps_input. cbn [fst fmap list_fmap concat]. rewrite app_nil_r. unfold turn_keys.
  destruct (tn_quit t || la_quit a); [done|]. destruct (_ <=? _); [done|]. destruct (negb _); [done|].
  destruct (tn_poll t) as [e| |[bytes| |e]| |]; try done.
  - by destruct (e =? EINTR).
  - destruct (foldl press (a, dirty) bytes) as [a1 d1]. cbn [fst snd]. by destruct (_ || _).
  - by destruct (e =? EINTR), (e =? EAGAIN).
Qed.

(** C22: The wait between frames ends, reads what it should and loses nothing.
    Whatever the polls and reads answer (a dead terminal, an error, an endless
    stream of keys), it is over no later than the first turn whose clock has
    reached the deadline, so a key held down cannot starve the frames.  Its last
    turn is the first one that has a reason to be: a quit asked for, the deadline,
    no input left to poll, a poll with nothing to report, or a quit among the
    turn's own keys; the keys of all turns before it, and in the last case its
    own, reached the application, each once and in the order they were read, the
    frame is dirty if it was or if a key said so, input that ended or failed is
    polled no more, and the loop is told to quit exactly on a quit. *)
Theorem wait_ends turns l (a : A) deadline dirty l' a' dirty' e :
  Exists (fun t => deadline <= tn_now t) turns ->
  wait_for_deadline turns l a deadline dirty = (l', a', dirty', e) ->
  exists n t why, turns !! n = Some t /\
    last_turn deadline (still_open (el_input_open l) (take n turns)) (typed (a, dirty) (take n turns)) t = Some why /\
    (forall i u, (i < n)%nat -> turns !! i = Some u ->
       last_turn deadline (still_open (el_input_open l) (take i turns)) (typed (a, dirty) (take i turns)) u = None) /\
    (a', dirty') = typed (a, dirty) (served n why turns) /\
    el_input_open l' = still_open (el_input_open l) (served n why turns) /\
    e = match why with QuitBefore | QuitKeys => WaitQuit | _ => WaitOver end /\ (e = WaitQuit -> el_exit l' = Quit).
Proof.
  revert l a dirty. induction turns as [|t turns IH]; intros l a d Hex; [by apply Exists_nil in Hex|]. rewrite wait_turn.
  destruct (last_turn deadline (el_input_open l) (a, d) t) as [why|] eqn:Ew.
  - intros H. exists 0%nat, t, why. split; [done|]. split; [unfold still_open; cbn; by rewrite andb_true_r|]. split; [lia|].
    assert (el_input_open l = still_open (el_input_open l) []) as E0 by (unfold still_open; cbn; by rewrite andb_true_r).
    destruct why; injection H as <- <- <- <-; try done.
    split; [exact (eq_sym (surjective_pairing (typed (a, d) [t])))|]. split; [|done].
    change (el_input_open l = still_open (el_input_open l) [t]). rewrite still_open_cons. unfold still_open. cbn [forallb]. rewrite andb_true_r.
    revert Ew. unfold last_turn, keeps_input. destruct (_ || _); [done|]. destruct (_ <=? _); [done|]. destruct (negb _); [done|].
    destruct (tn_poll t) as [x| |[bytes| |x]| |]; try done; first [by rewrite andb_true_r|by destruct (x =? EINTR)].
  - intros H. apply Exists_cons in Hex as [Hd|Hex].
    { exfalso. revert Ew. unfold last_turn. destruct (_ || _); [done|]. by destruct (Z.leb_spec deadline (tn_now t)); [|lia]. }
    assert (el_input_open (if keeps_input t then l else set_input l false) = el_input_open l && keeps_input t) as Eo
      by (destruct (keeps_input t); [by rewrite andb_true_r|by rewrite andb_false_r]).
    pose proof (IH _ _ _ Hex H) as (n & u & why & H1 & H2 & H3 & H4 & H5 & H6). rewrite Eo, <- !surjective_pairing in *.
    exists (S n), u, why. split; [done|]. split; [by rewrite firstn_cons, still_open_cons, typed_cons|]. split.
    { intros [|i] v Hi Hv; [injection Hv as <-; unfold still_open; cbn; by rewrite andb_true_r|].
      rewrite firstn_cons, still_open_cons, typed_cons. by apply H3; [lia|]. }
    assert (served (S n) why (t :: turns) = t :: served n why turns) as -> by (unfold served; by destruct why).
    rewrite typed_cons, still_open_cons. by split.
Qed.

End Wait.

(** ** The accounts *)

Section Accounts.
Context {A : Type} `{!LoopApp A}.

Definition painted (o : Output) : bool := match o with OutBytes _ => true | OutResize _ _ => false end.
Definition wrote (o : Output) : bool := match o with OutBytes (_ :: _) => true | _ => false end.
Definition sent_bytes (o : Output) : Z := match o with OutBytes l => Z.of_nat (length l) | OutResize _ _ => 0 end.
Definition count_of (p : Output -> bool) (tr : list Output) : Z := Z.of_nat (length (filter (fun o => p o = true) tr)).
Definition total_sent (tr : list Output) : Z := foldr Z.add 0 (sent_bytes <$> tr).

(** Where the counters last started: the length of the terminal's history at the
    last frame that found an [[r]] waiting, and the number of frames begun since.
    A frame is begun unless the session is ending or the frame limit is met. *)
Fixpoint last_start (frs : list Frame) (s : Running A) (start : nat) (begun : Z) : nat * Z :=
  match frs with
  | [] => (start, begun)
  | fr :: frs =>
      if fr_quit fr || la_quit (rn_app s) then (start, begun)
      else
        let '(start, begun) :=
          if (la_take_stats_reset (rn_app s)).2 then (length (rn_trace s), 0) else (start, begun) in
        if negb (lc_max_frames (el_cfg (rn_loop s)) =? 0) && (lc_max_frames (el_cfg (rn_loop s)) <=? u64 begun)
        then (start, begun)
        else match frame fr s with
             | (s, NextFrame) => last_start frs s start (begun + 1)
             | _ => (start, begun + 1)
             end
  end.

(** The same for a session: nothing is shown, no frame begun, at its start. *)
Definition session_start (l : EventLoop) (a : A) (frs : list Frame) : nat * Z :=
  match frs with
  | [] => (0%nat, 0)
  | fr :: frs =>
      last_start (first_request fr :: frs)
        (mkRunning (set_samples l (replicate kFpsSamples (0, 0)) 0 0) a true true []) 0 0
  end.

(** What the counters say of the terminal's history since they started. *)
Record tallied (s : LoopStats) (since : list Output) : Prop := {
  ty_drawn : ls_drawn s = u64 (count_of painted since);
  ty_repaints : ls_repaints s = u64 (count_of (negb ∘ painted) since);
  ty_writes : ls_writes s = u64 (count_of wrote since);
  ty_bytes : ls_bytes_written s = u64 (total_sent since)
}.

(** The frames begun, less those drawn and those skipped: the one still under way. *)
Definition accounted (s : LoopStats) (open : Z) : Prop := ls_frames s = u64 (ls_drawn s + ls_skipped s + open).

Definition books (start : nat) (begun open : Z) (s : Running A) : Prop :=
  ls_frames (el_stats (rn_loop s)) = u64 begun /\ accounted (el_stats (rn_loop s)) open /\
  (start <= length (rn_trace s))%nat /\ tallied (el_stats (rn_loop s)) (drop start (rn_trace s)).

Lemma count_snoc p tr o : count_of p (tr ++ [o]) = count_of p tr + (if p o then 1 else 0).
Proof.
  unfold count_of. rewrite filter_app, length_app. destruct (p o) eqn:E.
  - rewrite filter_cons_True by done. cbn. lia.
  - rewrite filter_cons_False by congruence. cbn. lia.
Qed.
Lemma total_snoc tr o : total_sent (tr ++ [o]) = total_sent tr + sent_bytes o.
Proof. unfold total_sent. rewrite fmap_app, foldr_app. cbn. induction (sent_bytes <$> tr); cbn; lia. Qed.

(** Steps that touch neither the counters of the books nor the trace. *)
Lemma books_same k n open s s' : rn_trace s' = rn_trace s ->
  ls_frames (el_stats (rn_loop s')) = ls_frames (el_stats (rn_loop s)) ->
  ls_drawn (el_stats (rn_loop s')) = ls_drawn (el_stats (rn_loop s)) ->
  ls_skipped (el_stats (rn_loop s')) = ls_skipped (el_stats (rn_loop s)) ->
  ls_repaints (el_stats (rn_loop s')) = ls_repaints (el_stats (rn_loop s)) ->
  ls_writes (el_stats (rn_loop s')) = ls_writes (el_stats (rn_loop s)) ->
  ls_bytes_written (el_stats (rn_loop s')) = ls_bytes_written (el_stats (rn_loop s)) ->
  books k n open s -> books k n open s'.
Proof.
  intros E1 E2 E3 E4 E5 E6 E7 (Hf & Ha & Hk & []). unfold books, accounted in *. rewrite E1.
  split; [congruence|]. split; [congruence|]. split; [done|]. split; congruence.
Qed.

Lemma no_books (s : Running A) : el_stats (rn_loop s) = no_stats -> books (length (rn_trace s)) 0 0 s.
Proof. intros E. unfold books. rewrite E, drop_all. by repeat split. Qed.

Lemma books_reset k n s : books k n 0 s ->
  let '(k', n') := if (la_take_stats_reset (rn_app s)).2 then (length (rn_trace s), 0) else (k, n) in
  books k' n' 0 (reset_diagnostics s).
Proof.
  unfold reset_diagnostics. destruct (la_take_stats_reset _) as [a []]; cbn [snd].
  - intros _. by apply (no_books (mkRunning _ a true (rn_full s) (rn_trace s))).
  - by apply books_same.
Qed.

(** Something more reaches the terminal. *)
Lemma drop_snoc {B} k (tr : list B) o : (k <= length tr)%nat -> drop k (tr ++ [o]) = drop k tr ++ [o].
Proof. intros Hk. by rewrite drop_app_le. Qed.

Lemma books_resize fr k n s s' : books k n 1 s -> apply_resize fr s = inl s' -> books k n 1 s'.
Proof.
  unfold apply_resize. destruct (negb (fr_resize fr)); [by intros ? [= <-]|].
  destruct (match terminal_size _ with Some _ => _ | None => _ end) as [w h].
  destruct (_ || _); [done|]. destruct (_ || _); [|by intros ? [= <-]].
  unfold loop_resize. destruct (resize _ _ _) as [f []]; [|done]. cbn [negb].
  intros (Hf & Ha & Hk & [T1 T2 T3 T4]) [= <-]. unfold books. cbn [rn_trace]. rewrite drop_snoc, length_app by done.
  split; [done|]. split; [done|]. split; [lia|].
  split; cbn; rewrite ?count_snoc, ?total_snoc; cbn; rewrite ?Z.add_0_r; try done. by rewrite T2, u64_add_l.
Qed.

Lemma books_advance fr k n s : books k n 1 s -> books k n 1 (advance fr s).
Proof. unfold advance. destruct (la_drain _). destruct (la_update _ _). by apply books_same. Qed.

Lemma books_paint fr k n s s' : books k n 1 s -> paint fr s = Some (inl s') -> books k n 0 s'.
Proof.
  unfold paint. destruct (la_draw _ _ _) as [a f]. destruct (render _ _ _) as [r bytes] eqn:Er.
  destruct (if bytes =? 0 then _ else _) as [sent [[]|]] eqn:Es; [|done|done].
  intros (Hf & Ha & Hk & [T1 T2 T3 T4]) [= <-].
  assert (bytes = Z.of_nat (length sent)) as Eb.
  { destruct (Z.eqb_spec bytes 0) as [->|Hne]; [by injection Es as <-|].
    apply flush_loop_whole in Es. subst sent. cbn [app]. unfold render in Er. destruct (fb_empty f); by injection Er as <- <-. }
  assert (ls_skipped (if bytes =? 0 then el_stats (rn_loop s) else count_write (el_stats (rn_loop s)) bytes) =
    ls_skipped (el_stats (rn_loop s)) /\
    ls_frames (if bytes =? 0 then el_stats (rn_loop s) else count_write (el_stats (rn_loop s)) bytes) =
    ls_frames (el_stats (rn_loop s)) /\
    ls_drawn (if bytes =? 0 then el_stats (rn_loop s) else count_write (el_stats (rn_loop s)) bytes) =
    ls_drawn (el_stats (rn_loop s))) as (S1 & S2 & S3) by (by destruct (bytes =? 0)).
  unfold books. cbn [rn_trace]. rewrite drop_snoc, length_app by done. split; [|split; [|split; [lia|]]].
  - cbn. by rewrite S2.
  - unfold accounted in *. cbn. rewrite S1, S2, S3, Ha, Z.add_0_r, u64_add_l. f_equal. lia.
  - split; cbn; rewrite ?count_snoc, ?total_snoc; cbn; rewrite ?Z.add_0_r.
    + by rewrite S3, T1, u64_add_l.
    + by destruct (bytes =? 0).
    + destruct (Z.eqb_spec bytes 0) as [E0|E0]; destruct sent; cbn in *; try lia; rewrite ?Z.add_0_r; [done|].
      by rewrite T3, u64_add_l.
    + destruct (Z.eqb_spec bytes 0) as [E0|E0]; cbn; [by rewrite <- Eb, E0, Z.add_0_r|by rewrite T4, u64_add_l, Eb].
Qed.

Lemma wait_stats turns : forall l (a : A) d b, el_stats (wait_for_deadline turns l a d b).1.1.1 = el_stats l.
Proof.
  induction turns as [|t turns IH]; intros l a d b; [done|]. cbn [wait_for_deadline].
  destruct (_ || _); [done|]. destruct (_ <=? _); [done|]. destruct (negb _); [done|].
  destruct (tn_poll t) as [e| |[bytes| |e]| |]; try done; try apply (IH (set_input l false)); try apply IH.
  - destruct (e =? EINTR); [done|]. apply (IH (set_input l false)).
  - destruct (foldl press _ _) as [a' b']. destruct (_ || _); [done|apply IH].
  - destruct (_ && _); [apply (IH (set_input l false))|apply IH].
Qed.

Lemma books_finish fr b k n s : books k n 0 s -> books k n 0 (finish fr b s).1.
Proof.
  unfold finish. set (l := note_rate _ _).
  assert (exists o w f x, el_stats l = mkLoopStats (ls_frames (el_stats (rn_loop s))) (ls_drawn (el_stats (rn_loop s)))
    (ls_skipped (el_stats (rn_loop s))) (ls_repaints (el_stats (rn_loop s))) (ls_writes (el_stats (rn_loop s)))
    (ls_bytes_written (el_stats (rn_loop s))) (ls_events (el_stats (rn_loop s))) o x w f) as (o & w & q & x & El).
  { unfold l, note_rate. destruct (2 <=? _)%nat; [destruct (_ !!! _)|]; by repeat eexists. }
  clearbody l. pose proof (wait_stats (fr_turns fr) l (rn_app s) (ck_start (fr_clock fr) ⊞ el_period_ns l) (rn_dirty s)) as Ew.
  destruct (wait_for_deadline _ _ _ _ _) as [[[l' a] d] e]. cbn [fst] in *.
  apply books_same; cbn; rewrite ?Ew, ?El; done.
Qed.

(** A frame under way: from the resize to the wait. *)
Definition work (fr : Frame) (s : Running A) : Running A * FrameEnd :=
  match apply_resize fr s with
  | inr e => (s, LoopEnds e)
  | inl s =>
      let s := advance fr s in
      if rn_dirty s then
        match paint fr s with
        | None => (s, FrameStuck)
        | Some (inr e) => (s, LoopEnds e)
        | Some (inl s) => finish fr true s
        end
      else
        finish fr false (mkRunning (set_stats (rn_loop s) (count_skipped (el_stats (rn_loop s)))) (rn_app s)
                           (rn_dirty s) (rn_full s) (rn_trace s))
  end.
Definition begun_frame (s : Running A) : Running A :=
  mkRunning (set_stats (rn_loop s) (count_frame (el_stats (rn_loop s)))) (rn_app s) (rn_dirty s) (rn_full s) (rn_trace s).

Lemma frame_work fr s : frame fr s =
  if fr_quit fr || la_quit (rn_app s) then (s, LoopEnds Quit)
  else
    let s1 := reset_diagnostics s in
    if negb (lc_max_frames (el_cfg (rn_loop s1)) =? 0) && (lc_max_frames (el_cfg (rn_loop s1)) <=? ls_frames (el_stats (rn_loop s1)))
    then (s1, LoopEnds FrameLimit)
    else work fr (begun_frame s1).
Proof. reflexivity. Qed.

Lemma work_books fr k n s : books k n 1 s ->
  let '(s', e) := work fr s in
  books k n 0 s' \/ books k n 1 s' /\ e <> NextFrame /\ e <> LoopEnds Quit /\ e <> LoopEnds FrameLimit.
Proof.
  intros Hb. unfold work. pose proof (books_resize fr k n s) as Hr.
  assert (forall e, apply_resize fr s = inr e -> e = TooSmall \/ e = ResizeFailed) as Hre.
  { intros e. unfold apply_resize. destruct (negb _); [done|].
    destruct (match terminal_size _ with Some _ => _ | None => _ end) as [w h]. destruct (_ || _); [intros [= <-]; by left|].
    destruct (_ || _); [|done]. unfold loop_resize. destruct (resize _ _ _) as [f []]; cbn [negb]; [done|].
    intros [= <-]. by right. }
  destruct (apply_resize fr s) as [s3|e]; [|right; split; [done|]; by destruct (Hre e eq_refl) as [->| ->]].
  pose proof (books_advance fr k n s3 (Hr s3 Hb eq_refl)) as Hb4. cbv zeta. set (s4 := advance fr s3) in *. clearbody s4.
  assert (forall b s5, books k n 0 s5 -> let '(s', e) := finish fr b s5 in
    books k n 0 s' \/ books k n 1 s' /\ e <> NextFrame /\ e <> LoopEnds Quit /\ e <> LoopEnds FrameLimit) as Hfin.
  { intros b s5 H5. pose proof (books_finish fr b k n s5 H5). destruct (finish fr b s5) as [s6 e]. by left. }
  destruct (rn_dirty s4) eqn:Ed.
  - pose proof (books_paint fr k n s4) as Hp. pose proof (paint_fails fr s4) as Hpf.
    destruct (paint fr s4) as [[s5|e]|]; [by apply Hfin, Hp|right; split; [done|]; by rewrite (Hpf e eq_refl)|by right].
  - apply Hfin. destruct Hb4 as (Hf & Ha & Hk & []). split; [done|]. split; [|by split].
    unfold accounted in *. cbn. rewrite Ha, Z.add_0_r, u64_add_r. f_equal. lia.
Qed.

Lemma reset_config s : el_cfg (rn_loop (reset_diagnostics s)) = el_cfg (rn_loop s).
Proof. unfold reset_diagnostics. by destruct (la_take_stats_reset _) as [a []]. Qed.

Lemma frames_books frs : forall k n s, books k n 0 s ->
  let '(s', e) := frames frs s in
  let '(k', n') := last_start frs s k n in
  books k' n' 0 s' \/ books k' n' 1 s' /\ e <> Some Quit /\ e <> Some FrameLimit.
Proof.
  induction frs as [|fr frs IH]; intros k n s Hb; [by left|]. cbn [frames last_start].
  rewrite frame_work. destruct (fr_quit fr || _); [by left|].
  pose proof (books_reset k n s Hb) as Hb1. pose proof (reset_config s) as Ec. cbv zeta.
  destruct (if _ : bool then (length (rn_trace s), 0) else (k, n)) as [k1 n1].
  rewrite <- Ec. set (s1 := reset_diagnostics s) in *. clearbody s1. rewrite (proj1 Hb1).
  destruct (_ && _); [by left|].
  assert (books k1 (n1 + 1) 1 (begun_frame s1)) as Hb2.
  { destruct Hb1 as (Hf & Ha & Hk & []). split; [|split; [|by split]].
    - cbn. by rewrite Hf, u64_add_l.
    - unfold accounted in *. cbn. rewrite Ha, u64_add_l. f_equal. lia. }
  pose proof (work_books fr _ _ _ Hb2) as Hw. destruct (work fr (begun_frame s1)) as [s' [|e|]].
  - destruct Hw as [Hw|(_ & Hf & _)]; [by apply IH|done].
  - destruct Hw as [Hw|(Hw & _ & Hq & Hl)]; [by left|right]. split; [done|]. split; intros [= ->]; done.
  - destruct Hw as [Hw|(Hw & _)]; [by left|by right].
Qed.

(** C23: The diagnostics are the truth about the terminal.  Take any number of
    frames, with any resizes, skipped frames, partial writes and [[r]] resets,
    and the history of the terminal since the last frame that found an [[r]]
    waiting (the whole session when none did): [drawn] counts the frames
    presented in it, [repaints] the resizes, [writes] the frames that sent at
    least one byte, [bytes_written] the bytes of those frames, and [frames] the
    frames begun since, all modulo 2^64.  Every frame begun was either drawn or
    skipped, except that the last one is neither when the loop ended in it, or
    stopped, for another reason than a quit or the frame limit: a screen too
    small, a resize or a write that failed, a write that never returned. *)
Theorem loop_accounts cfg (a : A) frs :
  let '(s, e) := run (new_loop cfg) a frs in
  let '(start, begun) := session_start (new_loop cfg) a frs in
  let st := el_stats (rn_loop s) in
  tallied st (drop start (rn_trace s)) /\ ls_frames st = u64 begun /\
  (accounted st 0 \/ accounted st 1 /\ e <> Some Quit /\ e <> Some FrameLimit).
Proof.
  unfold run, session_start. destruct frs as [|fr frs]; [by repeat split; left|].
  match goal with |- context [frames ?l ?s] => pose proof (frames_books l 0 0 s (no_books s eq_refl)) as H end.
  destruct (frames _ _) as [s e]. destruct (last_start _ _ _ _) as [k n].
  destruct H as [(H1 & H2 & _ & H3)|[(H1 & H2 & _ & H3) H4]]; (split; [done|]; split; [done|]); [by left|by right].
Qed.
End Accounts.

(** ** A small application

    It paints the whole buffer with one letter, the next one after every key,
    and quits on [q]. *)

#[export] Instance letter_app : LoopApp (Z * bool) := {|
  la_drain a := (a, 0);
  la_update a _ := (a, false);
  la_key a byte := if byte =? 113 then ((a.1, true), false) else (((a.1 + 1) mod 26, a.2), true);
  la_animating _ := false;
  la_take_stats_reset a := (a, false);
  la_resized a _ _ := a;
  la_draw a f _ := (a, clear f (mkCell (65 + a.1 mod 26) 0xFFFFFF 0 0));
  la_quit := snd
|}.

Lemma letter_keeps : loop_keeps (A := Z * bool) (fun _ => True).
Proof. done. Qed.
Lemma letter_draws_well : draws_well (A := Z * bool) (fun _ => True).
Proof.
  intros a f st _ Hok. cbn. split.
  - apply same_front_set_back; [done|apply length_fmap].
  - intros x y Hg. apply (on_grid_same f) in Hg; [|apply same_front_set_back; [done|apply length_fmap]]. unfold clear. rewrite at_back_set_back.
    pose proof (index_lt f x y Hok Hg) as Hi.
    rewrite (list_lookup_total_fmap _ _ _ Hi). cbn. split; [right|lia].
    pose proof (Z.mod_pos_bound a.1 26). lia.
Qed.

Definition demo_clock (n : Z) : Clock := mkClock n n n n n n n.
Definition key_turn (now : Z) (k : Z) : Turn := mkTurn false now (PollInput (Bytes [k])) false.
Definition idle_turn (now : Z) : Turn := mkTurn false now PollTimedOut false.
Definition demo_frames : list Frame :=
  [ mkFrame false false (Some (4, 2)) (demo_clock 100) [WroteErr EINTR; Wrote 10; Wrote 500] [key_turn 200 98; idle_turn 300];
    mkFrame false true (Some (3, 2)) (demo_clock 400) [Wrote 500] [idle_turn 500];
    mkFrame false false None (demo_clock 600) [] [key_turn 700 113] ].
Definition demo_loop : EventLoop := new_loop (mkLoopConfig 60 TrueColor 2 1 0).

Lemma demo_run_quits : exists s, run demo_loop (0, false) demo_frames = (s, Some Quit) /\ rn_trace s <> [].
Proof.
  assert ((run demo_loop (0, false) demo_frames).2 = Some Quit) as E by (vm_compute; reflexivity).
  assert (length (rn_trace (run demo_loop (0, false) demo_frames).1) = 4%nat) as Ht by (vm_compute; reflexivity).
  destruct (run demo_loop (0, false) demo_frames) as [s e]. cbn [fst snd] in *. subst e. exists s. split; [done|].
  intros E. rewrite E in Ht. discriminate.
Qed.

Lemma loop_shows_front_witness : exists s,
  run demo_loop (0, false) demo_frames = (s, Some Quit) /\
  current (fun y => (0, y)) (fun t _ _ => t_screen t) demo_term s.
Proof.
  destruct demo_run_quits as (s & E & Hne). exists s. split; [exact E|].
  destruct (loop_shows_front _ letter_keeps letter_draws_well (fun y => (0, y)) (fun t _ _ => t_screen t) demo_term eq_refl
    _ _ _ _ _ I E) as [H|H]; [discriminate|destruct (Hne H)|exact H].
Defined.

Lemma wait_ends_witness :
  let turns := [key_turn 200 98; key_turn 250 99; idle_turn 300] in
  (wait_for_deadline turns (new_loop default_config) (0, false) 260 false).1.1.2 = (2, false) /\
  exists n why, last_turn 260 true (typed ((0, false), false) (take n turns)) (idle_turn 300) = Some why /\
    served n why turns = take 2 turns.
Proof.
  cbv zeta. set (turns := [key_turn 200 98; key_turn 250 99; idle_turn 300]).
  assert ((wait_for_deadline turns (new_loop default_config) (0, false) 260 false).1.1.2 = (2, false)) as E by (vm_compute; reflexivity).
  split; [exact E|].
  destruct (wait_for_deadline turns (new_loop default_config) (0, false) 260 false) as [[[l a] d] e] eqn:Hw.
  assert (Exists (fun t => 260 <= tn_now t) turns) as Hex by (apply Exists_cons_tl, Exists_cons_tl, Exists_cons_hd; vm_compute; discriminate).
  destruct (wait_ends turns (new_loop default_config) (0, false) 260 false l a d e Hex Hw)
    as (n & t & why & H1 & H2 & H3 & _).
  unfold turns in H1, H2. destruct n as [|[|[|n]]]; cbn in H1; try discriminate H1; injection H1 as <-; vm_compute in H2; try discriminate H2.
  injection H2 as <-. exists 2%nat, Deadline. split; [vm_compute; reflexivity|reflexivity].
Defined.
