(* ===== verification/AppLoop.v ===== *)
(** * The application in its loop

    [HeapApp] is an application of the event loop.  What becomes of its source
    between two drains, what the system answers to an update at a given time, the
    wall clock and the text of the frame rate are parameters.  While the user has paused it and touches nothing, the loop
    writes nothing and still takes the events off the ring. *)

From S2P Require Import Prelude Abi Ring Framebuffer Capabilities Renderer HeatColor Session HeapApp HeapDraw.
From S2P Require Import Theme HeapAppProofs EventLoop EventLoopProofs.

Section AppLoop.
Context {S : Type} `{!EventSource S, !ColorMath}.
(** [outside n]: what the target does to the source before the [n]th drain; the
    application is paired with the number of its next one. *)
Context (outside : nat -> S -> S) (world : Z -> World) (localtime : option (Z * Z * Z)) (fps_text : LoopStats -> list Z).
Implicit Types a : HeapApp S.

Definition drain_outside (an : HeapApp S * nat) : (HeapApp S * nat) * Z :=
  let '(a, n) := an in
  let '(a, count) := HeapApp.drain (set_session a (outside n (ap_session a))) in ((a, Datatypes.S n), count).

#[local] Instance heap_app_loop : LoopApp (HeapApp S * nat) := {|
  la_drain := drain_outside;
  la_update an now := let '(a, changed) := update (world now) an.1 in ((a, an.2), changed);
  la_key an byte := let '(a, changed) := key localtime an.1 byte in ((a, an.2), changed);
  la_animating an := animating an.1;
  la_take_stats_reset an := let '(a, reset) := take_stats_reset an.1 in ((a, an.2), reset);
  la_resized an w h := (resized an.1 w h, an.2);
  la_draw an f st := (an, draw an.1 f (fps_text st));
  la_quit an := kb_quit (ap_keys an.1)
|}.

(** The keyboard is left alone. *)
Definition hands_off (fr : Frame) : Prop :=
  fr_resize fr = false /\ Forall (fun t => turn_keys t = []) (fr_turns fr).

Lemma wait_hands_off turns : forall l (a : HeapApp S * nat) d b, Forall (fun t => turn_keys t = []) turns ->
  (wait_for_deadline turns l a d b).1.1.2 = a /\ (wait_for_deadline turns l a d b).1.2 = b.
Proof.
  induction turns as [|t turns IH]; intros l a d b; cbn [wait_for_deadline]; [done|].
  intros [Ht Hr]%Forall_cons.
  destruct (_ || _); [done|]. destruct (_ <=? _); [done|]. destruct (negb _); [done|].
  unfold turn_keys in Ht. destruct (tn_poll t) as [e| |[bytes| |e]| |]; try done; try by apply IH.
  - destruct (e =? EINTR); [done|by apply IH].
  - subst bytes. cbn [foldl]. destruct (_ || _); [done|by apply IH].
Qed.

(** C29: Pause freezes the picture and nothing else.  In a frame of a paused
    application whose last frame was drawn and whose user does nothing, not a
    byte reaches the terminal and neither the heap nor what is displayed of it
    changes, whatever the clock, the target or the system does meanwhile; but
    the events the target published were taken off the ring and appended, in
    order, to those staged for replay. *)
Theorem paused_frame_frozen fr s :
  paused_ (ap_staging (rn_app s).1) = true -> kb_reset_loop (ap_keys (rn_app s).1) = false ->
  rn_dirty s = false -> hands_off fr ->
  let '(s', e) := frame fr s in
  let a := (rn_app s).1 in
  let a' := (rn_app s').1 in
  let source := outside (rn_app s).2 (ap_session a) in
  rn_trace s' = rn_trace s /\ ap_model a' = ap_model a /\ ap_display a' = ap_display a /\
  (e = NextFrame -> src_attached source = true ->
   let '(session, batch) := src_drain source kMaxEventsPerFrame in
   ap_session a' = session /\ rn_dirty s' = false /\ staged_ (ap_staging a') = staged_ (ap_staging a) ++ batch).
Proof.
  intros Hp Hk Hd [Hrs Hkeys]. unfold frame. destruct (_ || _); [by repeat split|].
  unfold reset_diagnostics. cbn [la_take_stats_reset heap_app_loop]. unfold take_stats_reset. rewrite Hk.
  destruct (rn_app s) as [a n] eqn:Ea. cbn [fst snd] in *.
  cbv zeta. set (a1 := set_keys _ _). cbn [rn_loop rn_app rn_dirty rn_trace rn_full].
  destruct (_ && _); [by repeat split|].
  unfold apply_resize. rewrite Hrs. cbn [negb]. unfold advance. cbn [rn_loop rn_app rn_dirty rn_trace rn_full].
  cbn [la_drain la_update la_animating heap_app_loop]. unfold drain_outside.
  set (a0 := set_session a1 _). set (source := outside n (ap_session a)).
  assert (exists session batch, (if src_attached source
      then src_drain source kMaxEventsPerFrame = (session, batch) else session = source /\ batch = []) /\
    let a2 := (HeapApp.drain a0).1 in (HeapApp.drain a0).2 = 0 /\ ap_session a2 = session /\ ap_model a2 = ap_model a /\
      ap_display a2 = ap_display a /\ paused_ (ap_staging a2) = true /\
      staged_ (ap_staging a2) = staged_ (ap_staging a) ++ batch) as (session & batch & Hb & Hdr).
  { unfold HeapApp.drain. change (ap_session a0) with source. change (ap_staging a0) with (ap_staging a). rewrite Hp.
    destruct (src_attached source); cbn [negb].
    - destruct (src_drain source _) as [session batch]. exists session, batch. split; [done|]. by cbn.
    - exists source, []. split; [done|]. cbn. rewrite app_nil_r. by repeat split. }
  destruct (HeapApp.drain a0) as [a2 k]. cbn [fst snd] in Hdr. destruct Hdr as (-> & Es & Em & Ed & Ep & Est).
  unfold update. cbn [fst snd]. rewrite Ep. unfold animating. cbn [fst snd]. rewrite Ep. cbn [rn_dirty negb Z.eqb]. rewrite Hd.
  cbn [negb orb andb]. rewrite andb_false_r. cbn [andb orb].
  unfold finish. cbn [rn_loop rn_app rn_dirty rn_full rn_trace]. set (l := note_rate _ _).
  destruct (wait_hands_off (fr_turns fr) l (a2, Datatypes.S n) (ck_start (fr_clock fr) ⊞ el_period_ns l) false Hkeys) as [Ew Eb].
  destruct (wait_for_deadline _ _ _ _ _) as [[[l' an] d] e]. cbn [fst snd rn_app rn_trace rn_dirty] in *. subst an d. cbn [fst].
  rewrite Em, Ed. repeat split. intros _ Hat. rewrite Hat in Hb. rewrite Hb. rewrite Est. by repeat split.
Qed.
End AppLoop.

(** The application with two events waiting, paused and drawn; the target
    publishes a third and dies meanwhile. *)
Definition paused_app : HeapApp RingSession := (key None waiting_app 32).1.
Definition paused_loop : Running (HeapApp RingSession * nat) := mkRunning demo_loop (paused_app, O) false false [].
Definition quiet_frame : Frame := mkFrame false false None (demo_clock 100) [] [idle_turn 200].
Definition push_one (n : nat) (s : RingSession) : RingSession :=
  match ss_ring s with
  | None => s
  | Some r => set_ring s (hv_ring_push r (mkPushArgs 12 0x7000 8 24 7 HV_OP_MALLOC)).1
  end.
#[local] Instance paused_loop_app : LoopApp (HeapApp RingSession * nat) :=
  heap_app_loop push_one (fun _ => gone_world) None (fun _ => [54; 48]).

Lemma paused_step : exists s', frame quiet_frame paused_loop = (s', NextFrame).
Proof.
  assert ((frame quiet_frame paused_loop).2 = NextFrame) as E by (vm_compute; reflexivity).
  destruct (frame quiet_frame paused_loop) as [s' e]. cbn [snd] in E. subst e. by exists s'.
Qed.

Lemma paused_frame_frozen_witness : exists s',
  frame quiet_frame paused_loop = (s', NextFrame) /\ rn_trace s' = [] /\
  length (staged_ (ap_staging (rn_app s').1)) = 3%nat.
Proof.
  assert (paused_ (ap_staging paused_app) = true) as H1 by (vm_compute; reflexivity).
  assert (kb_reset_loop (ap_keys paused_app) = false) as H2 by (vm_compute; reflexivity).
  assert (hands_off quiet_frame) as H3 by (split; [reflexivity|repeat constructor]).
  pose proof (paused_frame_frozen push_one (fun _ => gone_world) None (fun _ => [54; 48]) quiet_frame paused_loop H1 H2 eq_refl H3) as H.
  destruct paused_step as [s' E]. exists s'. split; [exact E|].
  change (heap_app_loop _ _ _ _) with paused_loop_app in H. rewrite E in H. cbv zeta in H.
  destruct H as (Ht & _ & _ & Hn). split; [exact Ht|].
  assert (src_attached (push_one 0 (ap_session paused_app)) = true) as Ha by (vm_compute; reflexivity).
  assert (length (src_drain (push_one 0 (ap_session paused_app)) kMaxEventsPerFrame).2 = 3%nat) as Hl by (vm_compute; reflexivity).
  assert (staged_ (ap_staging paused_app) = []) as Hs by (vm_compute; reflexivity).
  specialize (Hn eq_refl Ha). change (rn_app paused_loop) with (paused_app, O) in Hn. cbn [fst snd] in Hn.
  destruct (src_drain _ _) as [session batch]. destruct Hn as (_ & _ & ->). rewrite Hs. exact Hl.
Defined.
