(* ===== verification/Printf.v ===== *)
(** * Printed doubles and padded fields

    The doubles the program computes from counters, as the fractions they are,
    and what [printf] makes of them: [%.0f] and [%.1f], right-justified and
    left-justified fields. *)

From Stdlib Require Import String.
From S2P Require Import Prelude ChunkTable Inspector EventLoop.

(** ** Doubles *)

(** The double nearest to [num / den], ties to even, as a fraction; the
    quotients of counters are far from the ends of the range. *)
Definition round53 (num den : Z) : Z * Z :=
  if num <=? 0 then (0, 1)
  else
    let e := Z.log2 num - Z.log2 den in
    let e := if num * 2 ^ Z.max 0 (- e) <? den * 2 ^ Z.max 0 e then e - 1 else e in
    let k := 52 - e in
    (round_half_even (num * 2 ^ Z.max 0 k) (den * 2 ^ Z.max 0 (- k)) * 2 ^ Z.max 0 (- k), 2 ^ Z.max 0 k).

Definition of_u64 (v : Z) : Z * Z := round53 v 1.
Definition div_double (a b : Z * Z) : Z * Z := round53 (a.1 * b.2) (a.2 * b.1).

(** [us]: nanoseconds as microseconds. *)
Definition us (ns : Z) : Z * Z := div_double (of_u64 ns) (1000, 1).
(** [1024.0 * 1024.0] divides exactly. *)
Definition mib (bytes : Z) : Z * Z := div_double (of_u64 bytes) (1024 * 1024, 1).
(** [stats.fps], from the quotient the loop keeps. *)
Definition fps_double (s : LoopStats) : Z * Z := div_double (of_u64 (ls_fps s).1) (of_u64 (ls_fps s).2).

(** The share of the table's slots in use. *)
Definition load_factor (t : ChunkTable) : Z * Z :=
  match slots_ t with [] => (0, 1) | _ => div_double (of_u64 (size_ t)) (of_u64 (capacity t)) end.

(** ** Fields *)

Definition pad_left (width : nat) (s : list Z) : list Z := replicate (width - List.length s) 32 ++ s.
Definition pad_right (width : nat) (s : list Z) : list Z := s ++ replicate (width - List.length s) 32.

(** [%.0f] and [%.1f] of a double that is not negative. *)
Definition fixed0 (x : Z * Z) : list Z := dec_string 40 (round_half_even x.1 x.2).
Definition fixed1 (x : Z * Z) : list Z :=
  let t := round_half_even (x.1 * 10) x.2 in
  dec_string 40 (t / 10) ++ str "." ++ dec (t mod 10).

(** ** What they denote *)
Lemma round_half_even_near num den : 0 < den -> 2 * Z.abs (round_half_even num den * den - num) <= den.
Proof.
  intros Hd. unfold round_half_even. pose proof (Z.div_mod num den ltac:(lia)) as Hq.
  pose proof (Z.mod_pos_bound num den Hd) as Hr. set (q := num / den) in *. set (r := num mod den) in *. clearbody q r.
  tests; nia.
Qed.

Lemma round_half_even_exact q den : 0 < den -> round_half_even (q * den) den = q.
Proof.
  intros Hd. unfold round_half_even. rewrite Z.div_mul, Z.mod_mul by lia.
  destruct (Z.ltb_spec (2 * 0) den); [done|lia].
Qed.

(** A counter below [2 ^ 53] is its own double. *)
Lemma of_u64_exact v : 0 <= v < 2 ^ 53 -> (of_u64 v).1 = v * (of_u64 v).2 /\ 0 < (of_u64 v).2.
Proof.
  intros Hv. unfold of_u64, round53. destruct (Z.leb_spec v 0); [cbn [fst snd]; lia|].
  change (Z.log2 1) with 0. rewrite Z.sub_0_r. pose proof (Z.log2_spec v ltac:(lia)) as [Hl Hu].
  pose proof (Z.log2_nonneg v) as Hn. assert (Z.log2 v < 53) as Hs by (apply Z.log2_lt_pow2; lia).
  rewrite (Z.max_l 0 (- Z.log2 v)), (Z.max_r 0 (Z.log2 v)), Z.pow_0_r by lia.
  destruct (Z.ltb_spec (v * 1) (1 * 2 ^ Z.log2 v)); [lia|]. cbn [fst snd].
  rewrite (Z.max_r 0 (52 - Z.log2 v)), (Z.max_l 0 (- (52 - Z.log2 v))), Z.pow_0_r by lia.
  replace (round_half_even _ (1 * 1)) with (v * 2 ^ (52 - Z.log2 v))
    by (symmetry; rewrite <- (Z.mul_1_r (v * _)) at 1; by apply round_half_even_exact).
  split; [lia|apply Z.pow_pos_nonneg; lia].
Qed.
