(* ===== verification/Clean.v ===== *)
(** * What may be drawn

    The cells a frame may hold if the terminal is to show it, glyphs every
    terminal gives one column and attributes that are a byte, and that every
    drawing operation keeps to them when the text it is given does. *)

From Stdlib Require Import String.
From S2P Require Import Prelude Grid RegionMap HeatMap Cursor Snapshot Framebuffer Capabilities Renderer RendererProofs.
From S2P Require Import Panel HeatColor MapView Metrics Inspector InspectorProofs Printf.

(** ** Printable ASCII *)

Definition plain (s : list Z) : Prop := Forall (fun b => 32 <= b < 127) s.
Definition plain_bool (s : list Z) : bool := forallb (fun b => (32 <=? b) && (b <? 127)) s.

Lemma plain_bool_ok s : plain_bool s = true -> plain s.
Proof. unfold plain_bool, plain. rewrite forallb_forall, Forall_forall. intros H b Hb. apply list_elem_of_In, H in Hb. bprop. lia. Qed.

Lemma plain_nil : plain [].
Proof. constructor. Qed.
Lemma plain_app s t : plain s -> plain t -> plain (s ++ t).
Proof. intros. by apply Forall_app. Qed.
Lemma plain_cons c s : 32 <= c < 127 -> plain s -> plain (c :: s).
Proof. by constructor. Qed.
Lemma plain_take n s : plain s -> plain (take n s).
Proof. apply Forall_take. Qed.
Lemma plain_drop n s : plain s -> plain (drop n s).
Proof. apply Forall_drop. Qed.
Lemma plain_snprintf n s : plain s -> plain (snprintf n s).1.
Proof. apply plain_take. Qed.
Lemma plain_blanks n : plain (replicate n 32).
Proof. apply Forall_replicate. lia. Qed.
Lemma plain_dec_string fuel v : plain (dec_string fuel v).
Proof.
  unfold plain, dec_string. rewrite Forall_reverse. revert v. induction fuel as [|fuel IH]; intros v; cbn [dec_loop]; [constructor|].
  constructor; [pose proof (Z.mod_pos_bound v 10); lia|]. destruct (_ =? 0); [constructor|apply IH].
Qed.
Lemma plain_dec v : plain (dec v).
Proof. apply plain_dec_string. Qed.

Create HintDb plain discriminated.
#[export] Hint Constants Opaque : plain.
#[export] Hint Resolve plain_nil plain_blanks plain_dec_string plain_dec : plain.

(** Take a text apart; what is left are its leaves, which the database knows. *)
Ltac plain :=
  match goal with
  | H : plain ?s |- plain ?s => exact H
  | |- plain (_ ++ _) => apply plain_app; plain
  | |- plain (_ :: _) => apply plain_cons; [lia|plain]
  | |- plain (take _ _) => apply plain_take; plain
  | |- plain (drop _ _) => apply plain_drop; plain
  | |- plain (snprintf _ _).1 => apply plain_snprintf; plain
  | |- plain (str _) => apply plain_bool_ok; vm_compute; reflexivity
  | |- plain (match ?b with _ => _ end) => destruct b; plain
  | |- _ => solve [eauto 2 with plain]
  end.

Lemma plain_count_loop n d ds : forall i out, plain ds -> plain out -> plain (count_loop n d i ds out).
Proof.
  induction ds as [|c ds IH]; intros i out Hds Hout; cbn [count_loop]; [done|].
  apply Forall_cons in Hds as [Hc Hds]. destruct (_ && _); [done|]. destruct (_ <=? _); [plain|].
  apply IH; [done|]. plain.
Qed.
Lemma plain_format_count n v : plain (format_count n v).
Proof. unfold format_count. destruct (n =? 0); [apply plain_nil|]. apply plain_count_loop; plain. Qed.

Lemma plain_unit u : plain (unit_name u).
Proof.
  unfold unit_name. rewrite list_lookup_total_alt. destruct (kUnits !! _) as [s|] eqn:E; cbn [default from_option]; [|apply plain_nil].
  assert (Forall plain kUnits) as Hu by (apply (bool_decide_unpack _); by vm_compute). by apply (Forall_lookup_1 _ _ _ _ Hu) in E.
Qed.
#[export] Hint Resolve plain_format_count plain_unit : plain.

Lemma plain_byte_size n b : plain (format_byte_size n b).1.
Proof.
  unfold format_byte_size. destruct (n =? 0); [apply plain_nil|]. destruct (scale_bytes b) as [[whole tenths] unit].
  plain.
Qed.
Lemma plain_offset n o : plain (format_offset n o).1.
Proof.
  unfold format_offset. destruct (_ <? _); [apply plain_nil|].
  assert (plain (offset_body o)) as Hb.
  { unfold offset_body. destruct (scale_bytes o) as [[whole tenths] unit]. plain. }
  apply (plain_snprintf 32) in Hb. destruct (snprintf 32 _) as [body len]. cbn [fst]. plain.
Qed.
Lemma plain_hex16 v : plain (Inspector.hex16 v).
Proof.
  unfold Inspector.hex16. apply plain_app; [plain|]. apply Forall_fmap, Forall_forall. intros i _. cbn.
  unfold hex_char. rewrite (land_mask _ 4 ltac:(lia) : Z.land _ 15 = _). pose proof (Z.mod_pos_bound (Z.shiftr v (4 * (15 - i))) (2 ^ 4) ltac:(done)). change (2 ^ 4) with 16 in *. tests; lia.
Qed.
Lemma plain_seconds v : plain (seconds_text v).
Proof. unfold seconds_text. destruct (nearest_double v 1000). plain. Qed.
Lemma plain_pad_left w s : plain s -> plain (pad_left w s).
Proof. intros. unfold pad_left. plain. Qed.
Lemma plain_pad_right w s : plain s -> plain (pad_right w s).
Proof. intros. unfold pad_right. plain. Qed.
Lemma plain_fixed0 x : plain (fixed0 x).
Proof. unfold fixed0. plain. Qed.
Lemma plain_fixed1 x : plain (fixed1 x).
Proof. unfold fixed1. plain. Qed.
#[export] Hint Resolve plain_byte_size plain_offset plain_hex16 plain_seconds plain_pad_left plain_pad_right plain_fixed0 plain_fixed1 : plain.

(** ** Cells that can be shown *)

(** Code points every terminal gives exactly one column: printable ASCII and the
    blocks Box Drawing and Block Elements of Unicode. *)
Definition narrow (g : Z) : Prop := 32 <= g < 127 \/ 0x2500 <= g <= 0x259F.
Ltac narrow := unfold narrow; cbn; lia.
(** A zero glyph is sent as a space. *)
Definition one_column (g : Z) : Prop := g = 0 \/ narrow g.
Lemma one_column_printable g : one_column g -> printable g.
Proof. unfold one_column, narrow, printable. lia. Qed.

Definition can_show (c : Cell) : Prop := one_column (glyph c) /\ 0 <= attrs c < 256.
Definition clean (f : Framebuffer) : Prop := Forall can_show (back f).

Lemma clean_shows f x y : fb_ok f -> clean f -> on_grid f x y -> can_show (at_back f x y).
Proof.
  intros Hok Hc Hg. pose proof (index_lt f x y Hok Hg) as Hi. unfold at_back.
  destruct (lookup_lt_is_Some_2 _ _ Hi) as [c Ec]. rewrite (list_lookup_total_correct _ _ _ Ec).
  by apply (Forall_lookup_1 _ _ _ _ Hc) in Ec.
Qed.

(** Out of range a cell is the empty one. *)
Lemma inhabitant_shows : can_show inhabitant.
Proof. vm_compute. intuition congruence. Qed.
Lemma clean_at f x y : clean f -> can_show (at_back f x y).
Proof.
  intros Hc. unfold at_back. rewrite list_lookup_total_alt. destruct (back f !! _) as [c|] eqn:E; [|apply inhabitant_shows].
  by apply (Forall_lookup_1 _ _ _ _ Hc) in E.
Qed.

Lemma back_set_back f l : back (set_back f l) = l.
Proof. by destruct f as [a b [] w h]. Qed.

Lemma clean_set_back f l : Forall can_show l -> clean (set_back f l).
Proof. unfold clean. by rewrite back_set_back. Qed.

Lemma clean_clear f c : can_show c -> clean (Framebuffer.clear f c).
Proof. intros Hc. apply clean_set_back, Forall_fmap, Forall_forall. by intros. Qed.
Lemma clean_put f x y c : can_show c -> clean f -> clean (put f x y c).
Proof. intros Hc Hf. unfold put. destruct (negb _); [done|]. by apply clean_set_back, Forall_insert. Qed.

Lemma decode_plain s : plain s -> (0 <? Z.of_nat (length s)) = true -> narrow (utf8_decode s).1.
Proof.
  intros Hs Hl. destruct s as [|b0 s]; [done|]. apply Forall_inv in Hs. unfold utf8_decode. cbv zeta.
  destruct (Z.ltb_spec b0 0x80) as [H0|H0]; [cbn [fst]; narrow|lia].
Qed.

Lemma text_loop_clean fuel : forall f col y s fgc bgc at' n, plain s -> 0 <= at' < 256 -> clean f ->
  clean (text_loop fuel f col y s fgc bgc at' n).1.
Proof.
  induction fuel as [|fuel IH]; intros f col y s fgc bgc at' n Hs Ha Hf; cbn [text_loop]; [done|].
  destruct (_ && _) eqn:Hg; [|done]. apply andb_true_iff in Hg as [Hg _]. pose proof (decode_plain s Hs Hg) as Hd. destruct (utf8_decode s) as [cp k]. cbn [fst] in Hd.
  destruct (0 <=? col); apply IH; try done; try by apply plain_drop. apply clean_set_back, Forall_insert; [done|]. by split; [right|].
Qed.
Lemma clean_text f x y s fgc bgc at' : plain s -> 0 <= at' < 256 -> clean f -> clean (text f x y s fgc bgc at').1.
Proof. intros. unfold text. destruct (_ || _); [done|]. by apply text_loop_clean. Qed.

Lemma clean_foldl {B} (step : Framebuffer -> B -> Framebuffer) l :
  (forall f b, clean f -> clean (step f b)) -> forall f, clean f -> clean (foldl step f l).
Proof. intros Hs. induction l as [|b l IH]; intros f Hf; [done|]. apply IH, Hs, Hf. Qed.

Lemma clean_fill f r c : can_show c -> clean f -> clean (fill f r c).
Proof.
  intros Hc Hf. unfold fill. destruct (clip_rect _ _ _) as [q|]; [|done]. apply clean_foldl; [|done]. clear f Hf.
  intros f y Hf. apply clean_set_back. unfold fill_row. apply Forall_app. split; [by apply Forall_take|].
  apply Forall_app. split; [by apply Forall_replicate|by apply Forall_drop].
Qed.
Lemma clean_hline f x y n g fgc bgc at' : narrow g -> 0 <= at' < 256 -> clean f -> clean (hline f x y n g fgc bgc at').
Proof. intros. apply clean_fill; [|done]. split; [by right|done]. Qed.

Lemma clean_put_if (b : bool) f x y c : can_show c -> clean f -> clean (put_if b f x y c).
Proof. destruct b; [apply clean_put|done]. Qed.
Lemma clean_box f r style fgc bgc at' : 0 <= at' < 256 -> clean f -> clean (box f r style fgc bgc at').
Proof.
  intros Ha Hf. unfold box. destruct (_ || _); [done|].
  assert (forall g, narrow g -> can_show (mkCell g fgc bgc at')) as Hc by (intros; by split; [right|]).
  assert (narrow (g_h (box_glyphs_for style)) /\ narrow (g_v (box_glyphs_for style)) /\ narrow (g_tl (box_glyphs_for style)) /\
    narrow (g_tr (box_glyphs_for style)) /\ narrow (g_bl (box_glyphs_for style)) /\ narrow (g_br (box_glyphs_for style)))
    as (? & ? & ? & ? & ? & ?) by (destruct style; narrow).
  repeat (apply clean_put_if; [by apply Hc|]). apply clean_put; [by apply Hc|].
  repeat (apply clean_foldl; [intros ? ? ?; apply clean_put_if, clean_put; [by apply Hc..|done]|]). done.
Qed.

Create HintDb clean discriminated.
#[export] Hint Constants Opaque : clean.

(** A cell of a glyph that is no control character and an attribute of the
    program. *)
Lemma glyph_shows g fgc bgc at' : narrow g -> 0 <= at' < 256 -> can_show (mkCell g fgc bgc at').
Proof. intros. by split; [right|]. Qed.
Lemma recolour_shows c fgc bgc : can_show c -> can_show (mkCell (glyph c) fgc bgc (attrs c)).
Proof. done. Qed.
Lemma bold_shows c fgc bgc : can_show c -> can_show (mkCell (glyph c) fgc bgc (Z.lor (attrs c) kAttrBold)).
Proof.
  intros [Hg Ha]. split; [done|]. cbn [attrs]. change kAttrBold with 1. pose proof (Z.add_lor_land (attrs c) 1) as H.
  rewrite (land_mask (attrs c) 1 ltac:(lia) : Z.land (attrs c) 1 = _) in H. Z.div_mod_to_equations. lia.
Qed.

#[export] Hint Resolve clean_text clean_fill clean_hline clean_box clean_put clean_at glyph_shows recolour_shows bold_shows : clean.
#[export] Hint Extern 1 (plain _) => plain : clean.
#[export] Hint Extern 1 (0 <= _ < 256) => by vm_compute : clean.
#[export] Hint Extern 1 (narrow _) => narrow : clean.

(** ** Panels *)
Lemma clean_panel_text f area dx dy s fgc bgc at' : plain s -> 0 <= at' < 256 -> clean f ->
  clean (panel_text f area dx dy s fgc bgc at').1.
Proof. intros. unfold panel_text. repeat (destruct (_ || _); [done|]). apply clean_text; [|done..]. plain. Qed.
Lemma clean_panel_text_right f area dy s fgc bgc at' : plain s -> 0 <= at' < 256 -> clean f ->
  clean (panel_text_right f area dy s fgc bgc at').1.
Proof. intros. unfold panel_text_right. repeat (destruct (_ || _); [done|]). destruct (_ <? _); [done|]. by apply clean_text. Qed.

Lemma numeric_plain b c : numeric_char b c = true -> narrow c.
Proof. unfold numeric_char, is_digit, narrow. lia. Qed.

Lemma clean_panel_numeric f area dy s number dim bgc : plain s -> clean f ->
  clean (panel_numeric_right f area dy s number dim bgc).1.
Proof.
  intros Hs Hf. unfold panel_numeric_right. destruct (_ || _); [done|]. destruct (_ <? _); [done|].
  pose proof (clean_text f (rx area + rw area - 2 - Z.of_nat (List.length s)) (ry area + dy) s dim bgc kAttrNone Hs ltac:(done) Hf) as Ht.
  destruct (text f _ _ s dim bgc kAttrNone) as [g n]. cbn [fst] in *. apply clean_foldl; [|done]. clear.
  intros f [i c] Hf. unfold number_step. destruct (numeric_char _ c) eqn:E; [|done]. apply numeric_plain in E.
  apply clean_put; [by apply glyph_shows|done].
Qed.
Lemma clean_panel_rule f area label frame accent bgc : plain label -> clean f -> clean (panel_rule f area label frame accent bgc).
Proof.
  intros Hl Hf. unfold panel_rule. destruct (_ || _); [done|]. pose proof (clean_box f area Light frame bgc kAttrNone ltac:(done) Hf) as Hb.
  destruct label as [|c label]; [done|]. destruct (_ <? _); [done|]. apply clean_panel_text; [|by vm_compute|done]. plain.
Qed.
#[export] Hint Resolve clean_panel_text clean_panel_text_right clean_panel_numeric clean_panel_rule : clean.

(** Take a drawing apart. *)
Ltac clean :=
  match goal with
  | H : clean ?f |- clean ?f => exact H
  | |- clean (match ?b with _ => _ end) => destruct b; clean
  | |- clean (text _ _ _ _ _ _ _).1 => apply clean_text; [plain|by vm_compute|clean]
  | |- clean (panel_text _ _ _ _ _ _ _ _).1 => apply clean_panel_text; [plain|(by vm_compute) || (repeat case_match; by vm_compute)|clean]
  | |- clean (panel_text_right _ _ _ _ _ _ _).1 => apply clean_panel_text_right; [plain|(by vm_compute) || (repeat case_match; by vm_compute)|clean]
  | |- clean (panel_numeric_right _ _ _ _ _ _ _).1 => apply clean_panel_numeric; [plain|clean]
  | |- clean (panel_rule _ _ _ _ _ _) => apply clean_panel_rule; [plain|clean]
  | |- clean (hline _ _ _ _ _ _ _ _) => apply clean_hline; [repeat case_match; narrow|by vm_compute|clean]
  | |- clean (fill _ _ _) => apply clean_fill; [apply glyph_shows; [narrow|by vm_compute]|clean]
  | |- clean (box _ _ _ _ _ _) => apply clean_box; [by vm_compute|clean]
  | |- _ => solve [eauto 3 with clean]
  end.

(** ** The map *)

(** Glyphs a map is drawn with. *)
Record glyphs_show (v : MapView) : Prop := {
  gv_full : narrow (gs_full (mv_glyphs v));
  gv_dark : narrow (gs_dark (mv_glyphs v));
  gv_medium : narrow (gs_medium (mv_glyphs v));
  gv_light : narrow (gs_light (mv_glyphs v));
  gv_half : narrow (gs_half (mv_glyphs v))
}.
Lemma glyphs_for_show caps : let g := glyphs_for caps in
  narrow (gs_full g) /\ narrow (gs_dark g) /\ narrow (gs_medium g) /\ narrow (gs_light g) /\ narrow (gs_half g).
Proof. cbv zeta. unfold glyphs_for. destruct (caps_unicode caps); cbn; unfold narrow; lia. Qed.

Section Map.
Context `{!ColorMath} (v : MapView) (Hv : glyphs_show v).

Lemma clean_pen_text y limit p s fgc bgc : plain s -> clean p.1 -> clean (pen_text y limit p s fgc bgc).1.
Proof.
  destruct p as [f x]. intros Hs Hf. unfold pen_text. destruct (_ <? _); [done|].
  pose proof (clean_text f x y s fgc bgc kAttrNone Hs ltac:(done) Hf) as Ht. by destruct (text f x y s fgc bgc kAttrNone).
Qed.
Lemma clean_pen_glyph y limit p g fgc bgc : narrow g -> clean p.1 -> clean (pen_glyph y limit p g fgc bgc).1.
Proof.
  destruct p as [f x]. intros Hg Hf. unfold pen_glyph. destruct (_ <=? _); [done|]. apply clean_put; [by apply glyph_shows|done].
Qed.

Lemma clean_swatches y limit l : forall p, Forall (fun s => plain s.2) l -> clean p.1 -> clean (draw_swatches v y limit p l).1.
Proof.
  induction l as [|[colour label] l IH]; intros p Hl Hp; [done|]. apply Forall_cons in Hl as [Hs Hl]. cbn [draw_swatches].
  destruct (negb _); [done|]. apply IH; [done|]. apply clean_pen_text; [done|]. apply clean_pen_glyph; [apply Hv|].
  apply clean_pen_text; [plain|done].
Qed.

Lemma clean_legend f r g : clean f -> clean (draw_legend v f r g).
Proof.
  intros Hf. unfold draw_legend. destruct (_ || _); [done|]. destruct (negb (valid_ g)); [apply clean_pen_text; [plain|done]|].
  assert (forall p s c, clean p.1 -> plain s -> clean (draw_swatches v (ry r) (rx r + rw r) (pen_text (ry r) (rx r + rw r) p s c (v_bg (mv_style v))) (swatches v)).1) as Hs.
  { intros p s c Hp Hps. apply clean_swatches; [|by apply clean_pen_text]. repeat (apply Forall_cons; split; [cbn [snd]; plain|]). apply Forall_nil. done. }
  destruct (negb _); [apply clean_pen_text; [plain|]|]; apply Hs; try done; plain.
Qed.

Lemma map_cell_shows map now_ms i : can_show (map_cell v map now_ms i).
Proof.
  unfold map_cell. cbv zeta. destruct (negb (mv_half_block v)); apply glyph_shows; try done; [|apply Hv].
  unfold glyph_for. repeat case_match; apply Hv.
Qed.

Lemma clean_cols map now_ms x y base n : forall col f, clean f -> clean (draw_cols v map now_ms x y base n col f).1.
Proof.
  induction n as [|n IH]; intros col f Hf; [done|]. cbn [draw_cols]. destruct (_ <=? _); [done|]. apply IH.
  apply clean_put; [apply map_cell_shows|done].
Qed.

Lemma plain_row_label map row : plain (row_label v map row).1.
Proof. unfold row_label. destruct (hm_regions map) as [rm|]; [destruct (span_at_flat _ _)|]; cbn [fst]; plain. Qed.

Lemma clean_gutter l map row f : clean f -> clean (draw_gutter v l map row f).
Proof.
  intros Hf. unfold draw_gutter. destruct (0 <=? _); [|done]. pose proof (plain_row_label map (logical v row)) as Hl.
  destruct (row_label v map (logical v row)) as [label ink]. cbn [fst] in Hl. clean.
Qed.

Lemma clean_rows l map now_ms cols n : forall row f, clean f -> clean (draw_rows v l map now_ms cols n row f).
Proof.
  induction n as [|n IH]; intros row f Hf; [done|]. cbn [draw_rows]. cbv zeta.
  pose proof (clean_cols map now_ms (rx (ml_cells l)) (ry (ml_cells l) + row) (logical v row * cols_ (hm_grid map))
    (Z.to_nat cols) 0 _ (clean_gutter l map row f Hf)) as Hc.
  destruct (draw_cols _ _ _ _ _ _ _ _ _) as [g []]; [by apply IH|done].
Qed.

Lemma clean_map f area map now_ms : clean f -> clean (draw_map v f area map now_ms).
Proof.
  intros Hf. unfold draw_map. destruct (negb _); [done|]. cbv zeta. destruct (negb _); [by apply clean_legend|].
  by apply clean_rows, clean_legend.
Qed.

Lemma clean_leaks f area map d : clean f -> clean (draw_leaks v f area map d).
Proof.
  intros Hf. unfold draw_leaks. repeat (destruct (negb _); [done|]). apply clean_foldl; [|done]. clear f Hf.
  intros f i Hf. unfold leak_step_draw. destruct (_ <=? _); [done|]. destruct (cell_position _ _ _ _) as [[x y]|]; [|done].
  destruct (negb _); [done|]. apply clean_put; [|done]. unfold leak_cell. destruct (_ && _); by apply recolour_shows, clean_at.
Qed.

Lemma clean_cursor_label st y n : forall gx f, clean f -> clean (cursor_label st y n gx f).
Proof.
  induction n as [|n IH]; intros gx f Hf; [done|]. cbn [cursor_label]. destruct (negb _); [done|]. cbv zeta. apply IH.
  apply clean_put; [|done]. by apply recolour_shows, clean_at.
Qed.

Lemma clean_cursor f area map coord : clean f -> clean (draw_cursor v f area map coord).
Proof.
  intros Hf. unfold draw_cursor. repeat (destruct (negb _); [done|]). destruct (cell_position _ _ _ _) as [[x y]|]; [|done].
  destruct (negb _); [done|]. cbv zeta.
  assert (forall g, clean (put f x y (mkCell (glyph (at_back f x y)) g (v_cursor (mv_style v)) (Z.lor (attrs (at_back f x y)) kAttrBold)))) as Hp
    by (intros; apply clean_put; [by apply bold_shows, clean_at|done]).
  destruct (0 <=? _); [apply clean_cursor_label|]; apply Hp.
Qed.
End Map.

(** ** The shape and the front stay

    Whatever the grid, drawing the map writes single cells of the back buffer. *)
Lemma front_put f x y c : fb_ok f -> same_front f (put f x y c).
Proof. intros Hf. apply (confined_put f x y c Hf). Qed.
Lemma front_text f x y s fgc bgc at' : fb_ok f -> same_front f (text f x y s fgc bgc at').1.
Proof. intros Hf. apply (confined_text f x y s fgc bgc at' Hf). Qed.
Lemma front_step f g h : same_front f g -> (fb_ok g -> same_front g h) -> same_front f h.
Proof. intros Hg Hh. eapply same_front_trans; [exact Hg|]. apply Hh. by destruct Hg. Qed.
Lemma front_foldl {B} (step : Framebuffer -> B -> Framebuffer) l :
  (forall f b, fb_ok f -> same_front f (step f b)) -> forall f, fb_ok f -> same_front f (foldl step f l).
Proof.
  intros Hs. induction l as [|b l IH]; intros f Hf; [by apply same_front_refl|]. cbn [foldl].
  eapply front_step; [by apply Hs|apply IH].
Qed.

Section Front.
Context `{!ColorMath} (v : MapView).

Lemma front_pen_text f0 y limit p s fgc bgc : same_front f0 p.1 -> same_front f0 (pen_text y limit p s fgc bgc).1.
Proof.
  destruct p as [f x]. intros Hf. unfold pen_text. destruct (_ <? _); [done|].
  pose proof (front_text f x y s fgc bgc kAttrNone (sf_ok _ _ Hf)) as Ht. destruct (text f x y s fgc bgc kAttrNone).
  by eapply same_front_trans.
Qed.
Lemma front_pen_glyph f0 y limit p g fgc bgc : same_front f0 p.1 -> same_front f0 (pen_glyph y limit p g fgc bgc).1.
Proof.
  destruct p as [f x]. intros Hf. unfold pen_glyph. destruct (_ <=? _); [done|].
  eapply front_step; [exact Hf|]. apply front_put.
Qed.
Lemma front_swatches f0 y limit l : forall p, same_front f0 p.1 -> same_front f0 (draw_swatches v y limit p l).1.
Proof.
  induction l as [|[colour label] l IH]; intros p Hp; [done|]. cbn [draw_swatches]. destruct (negb _); [done|].
  by apply IH, front_pen_text, front_pen_glyph, front_pen_text.
Qed.

Lemma front_legend f r g : fb_ok f -> same_front f (draw_legend v f r g).
Proof.
  intros Hf%same_front_refl. unfold draw_legend. destruct (_ || _); [done|].
  destruct (negb (valid_ g)); [by apply front_pen_text|].
  destruct (negb _); [apply front_pen_text|]; by apply front_swatches, front_pen_text.
Qed.
Lemma front_cols map now_ms x y base n : forall col f, fb_ok f -> same_front f (draw_cols v map now_ms x y base n col f).1.
Proof.
  induction n as [|n IH]; intros col f Hf; [by apply same_front_refl|]. cbn [draw_cols].
  destruct (_ <=? _); [by apply same_front_refl|]. eapply front_step; [by apply front_put|apply IH].
Qed.
Lemma front_gutter l map row f : fb_ok f -> same_front f (draw_gutter v l map row f).
Proof.
  intros Hf. unfold draw_gutter. destruct (0 <=? _); [|by apply same_front_refl].
  destruct (row_label v map (logical v row)). by apply front_text.
Qed.
Lemma front_rows l map now_ms cols n : forall row f, fb_ok f -> same_front f (draw_rows v l map now_ms cols n row f).
Proof.
  induction n as [|n IH]; intros row f Hf; [by apply same_front_refl|]. cbn [draw_rows]. cbv zeta.
  pose proof (front_gutter l map row f Hf) as Hg.
  pose proof (front_cols map now_ms (rx (ml_cells l)) (ry (ml_cells l) + row) (logical v row * cols_ (hm_grid map))
    (Z.to_nat cols) 0 _ (sf_ok _ _ Hg)) as Hc.
  destruct (draw_cols _ _ _ _ _ _ _ _ _) as [g more]. cbn [fst] in Hc.
  assert (same_front f g) as Hfg by by eapply same_front_trans. destruct more; [|done]. eapply front_step; [exact Hfg|apply IH].
Qed.
Lemma front_map f area map now_ms : fb_ok f -> same_front f (draw_map v f area map now_ms).
Proof.
  intros Hf. unfold draw_map. destruct (negb _); [by apply same_front_refl|]. cbv zeta. destruct (negb _); [by apply front_legend|].
  eapply front_step; [by apply front_legend|apply front_rows].
Qed.
Lemma front_leaks f area map d : fb_ok f -> same_front f (draw_leaks v f area map d).
Proof.
  intros Hf. unfold draw_leaks. cbv zeta. repeat (destruct (negb _); [by apply same_front_refl|]). apply front_foldl; [|done]. clear f Hf.
  intros f i Hf. unfold leak_step_draw. destruct (_ <=? _); [by apply same_front_refl|].
  destruct (cell_position _ _ _ _) as [[x y]|]; [|by apply same_front_refl].
  destruct (negb _); [by apply same_front_refl|by apply front_put].
Qed.
Lemma front_cursor_label st y n : forall gx f, fb_ok f -> same_front f (cursor_label st y n gx f).
Proof.
  induction n as [|n IH]; intros gx f Hf; [by apply same_front_refl|]. cbn [cursor_label].
  destruct (negb _); [by apply same_front_refl|]. eapply front_step; [by apply front_put|apply IH].
Qed.
Lemma front_cursor f area map coord : fb_ok f -> same_front f (draw_cursor v f area map coord).
Proof.
  intros Hf. unfold draw_cursor. cbv zeta. repeat (destruct (negb _); [by apply same_front_refl|]).
  destruct (cell_position _ _ _ _) as [[x y]|]; [|by apply same_front_refl].
  destruct (negb _); [by apply same_front_refl|].
  destruct (0 <=? _); [eapply front_step; [by apply front_put|apply front_cursor_label]|by apply front_put].
Qed.
End Front.
#[export] Hint Resolve front_put front_text front_map front_leaks front_cursor same_front_refl : drawing.

(** ** The two lower panels *)
Lemma clean_field st area f dy label value colour numeric : plain label -> plain value -> clean f ->
  clean (metrics_field st area (f, dy) label value colour numeric).1.
Proof. intros. unfold metrics_field. cbn [fst]. destruct numeric; clean. Qed.

(** A panel's rows pass the frame and the row on; only the frame matters. *)
Lemma clean_metrics_rows m area wide (fd : Framebuffer * Z) : clean fd.1 ->
  clean (draw_allocated m area wide fd).1 /\ clean (draw_active m area fd).1 /\ clean (draw_peak m area wide fd).1 /\
  clean (draw_fragmented m area fd).1 /\ clean (draw_ring m area wide fd).
Proof.
  destruct fd as [f dy]. intros Hf. cbn [fst] in Hf. unfold draw_allocated, draw_active, draw_peak, draw_fragmented, draw_ring, line192, human32.
  cbv zeta. split_and!.
  - destruct (negb _); apply clean_field; try done; plain.
  - apply clean_field; try done; plain.
  - apply clean_field; try done; plain.
  - destruct (decide _); [apply clean_field; try done; plain|]. cbn [fst]. unfold frag_badge_str. clean.
  - clean.
Qed.

Lemma clean_metrics m f area : clean f -> clean (draw_metrics m f area).
Proof.
  intros Hf. unfold draw_metrics. destruct (_ || _); [done|]. cbv zeta.
  repeat apply (clean_metrics_rows m area (kMetricsWideCols <=? rw area)). cbn [fst]. clean.
Qed.

Lemma clean_inspector_field st area f dy label value colour numeric : plain label -> plain value -> clean f ->
  clean (inspector_field st area (f, dy) label value colour numeric).1.
Proof. intros. unfold inspector_field. cbn [fst]. destruct numeric; clean. Qed.

Lemma plain_status s : plain (chunk_status_str s).
Proof. destruct s; cbn [chunk_status_str]; plain. Qed.
#[export] Hint Resolve plain_status : plain.

Lemma clean_chunk_rows ins area d now_ms fd : clean fd.1 -> clean (draw_chunk_rows ins area d now_ms fd).1.
Proof.
  intros Hf. unfold draw_chunk_rows, line_192. cbv zeta.
  repeat match goal with
  | |- clean (inspector_field ?st ?a ?fd ?l ?v ?c ?n).1 =>
      rewrite (surjective_pairing fd); apply clean_inspector_field; [plain|plain|]
  end. done.
Qed.

Lemma plain_crowd ins area line : crowd_label ins area = Some line -> plain line.
Proof.
  unfold crowd_label, line_192. destruct (_ <=? 1); [done|]. cbv zeta.
  set (l1 := if _ <? in_total ins then _ else _). assert (plain l1) as H1 by (unfold l1; plain). clearbody l1.
  destruct (_ <=? kAddressEndCol); [|by intros [= <-]]. set (l2 := (snprintf _ _).1).
  assert (plain l2) as H2 by (unfold l2; plain). clearbody l2. destruct (_ <=? kAddressEndCol); [done|by intros [= <-]].
Qed.

Lemma clean_inspector ins f area g coord regions now_ms : clean f -> clean (draw_inspector ins f area g coord regions now_ms).
Proof.
  intros Hf. unfold draw_inspector. destruct (_ || _); [done|]. cbv zeta. destruct (negb (valid_ g)); [clean|].
  set (addr := match regions with Some m => _ | None => _ end). clearbody addr. set (fd := inspector_field _ _ (panel_rule _ _ _ _ _ _, 1) _ _ _ _).
  assert (clean fd.1) as Hfd by (unfold fd, line_192; apply clean_inspector_field; [plain|plain|clean]). clearbody fd.
  destruct (negb (negb _)).
  - set (fe := inspector_field _ _ _ _ _ _ _).
    assert (clean fe.1) as Hfe by (unfold fe; rewrite (surjective_pairing fd); apply clean_inspector_field; [plain|plain|done]).
    clearbody fe. destruct fe as [h dy]. cbn [fst] in Hfe. clean.
  - pose proof (clean_chunk_rows ins area (current ins) now_ms fd Hfd) as Hc. destruct (draw_chunk_rows _ _ _ _ _) as [h dy].
    cbn [fst] in Hc. destruct (crowd_label ins area) as [line|] eqn:E; [apply plain_crowd in E; clean|done].
Qed.

(** ** Both promises together

    A frame that began as [f] and can be shown so far. *)
Definition drawn_well (f g : Framebuffer) : Prop := same_front f g /\ clean g.

Lemma well_step f g h : drawn_well f g -> (fb_ok g -> same_front g h) -> (clean g -> clean h) -> drawn_well f h.
Proof. intros [H1 H2] Hf Hc. split; [by eapply front_step|by apply Hc]. Qed.
Lemma well_shows f g : drawn_well f g -> forall x y, on_grid g x y -> can_show (at_back g x y).
Proof. intros [Hs Hc] x y. apply clean_shows; [by destruct Hs|done]. Qed.

Lemma well_clear f c : fb_ok f -> can_show c -> drawn_well f (Framebuffer.clear f c).
Proof. intros Hf Hc. split; [apply same_front_set_back; [done|apply length_fmap]|by apply clean_clear]. Qed.
Lemma well_text f g x y s fgc bgc at' : drawn_well f g -> plain s -> 0 <= at' < 256 -> drawn_well f (text g x y s fgc bgc at').1.
Proof. intros Hg Hs Ha. eapply well_step; [exact Hg|apply front_text|by apply clean_text]. Qed.
Lemma well_put f g x y c : drawn_well f g -> can_show c -> drawn_well f (put g x y c).
Proof. intros Hg Hc. eapply well_step; [exact Hg|apply front_put|by apply clean_put]. Qed.
Lemma well_box f g r style fgc bgc at' : drawn_well f g -> 0 <= at' < 256 -> drawn_well f (box g r style fgc bgc at').
Proof. intros Hg Ha. eapply well_step; [exact Hg|intros; by apply (confined_box g)|by apply clean_box]. Qed.
Lemma well_fill f g r c : drawn_well f g -> can_show c -> drawn_well f (fill g r c).
Proof. intros Hg Hc. eapply well_step; [exact Hg|intros; by apply (confined_fill g)|by apply clean_fill]. Qed.
Lemma well_panel_text f g area dx dy s fgc bgc at' : drawn_well f g -> plain s -> 0 <= at' < 256 ->
  drawn_well f (panel_text g area dx dy s fgc bgc at').1.
Proof.
  intros Hg Hs Ha. eapply well_step; [exact Hg|intros; by apply (panel_text_confined g)|by apply clean_panel_text].
Qed.
Lemma well_foldl {B} f (step : Framebuffer -> B -> Framebuffer) l :
  (forall g b, drawn_well f g -> drawn_well f (step g b)) -> forall g, drawn_well f g -> drawn_well f (foldl step g l).
Proof. intros Hs. induction l as [|b l IH]; intros g Hg; [done|]. apply IH, Hs, Hg. Qed.

Lemma well_map `{!ColorMath} v f g area map now_ms : glyphs_show v -> drawn_well f g -> drawn_well f (draw_map v g area map now_ms).
Proof. intros Hv Hg. eapply well_step; [exact Hg|apply front_map|by apply clean_map]. Qed.
Lemma well_leaks v f g area map d : drawn_well f g -> drawn_well f (draw_leaks v g area map d).
Proof. intros Hg. eapply well_step; [exact Hg|apply front_leaks|by apply clean_leaks]. Qed.
Lemma well_cursor v f g area map coord : drawn_well f g -> drawn_well f (draw_cursor v g area map coord).
Proof. intros Hg. eapply well_step; [exact Hg|apply front_cursor|by apply clean_cursor]. Qed.
Lemma well_metrics m f g area : drawn_well f g -> drawn_well f (draw_metrics m g area).
Proof. intros Hg. eapply well_step; [exact Hg|intros; by apply draw_metrics_confined|by apply clean_metrics]. Qed.
Lemma well_inspector ins f g area gr coord regions now_ms : drawn_well f g ->
  drawn_well f (draw_inspector ins g area gr coord regions now_ms).
Proof. intros Hg. eapply well_step; [exact Hg|intros; by apply draw_inspector_confined|by apply clean_inspector]. Qed.
