(* ===== verification/HeapShows.v ===== *)
(** * What the program shows of a well-named target

    The texts of the frame that come from outside the program are the target's
    name, the command line it was launched with, the last line of its output and
    the clock.  When the first two are printable ASCII and the output is ASCII,
    every cell of every frame holds a glyph of one column, so the loop's guarantee
    holds of the whole application and of a real terminal: it shows what was
    drawn.  Output beyond ASCII reaches the screen too, and may not. *)

From Stdlib Require Import String.
From S2P Require Import Prelude Abi Ring ChunkTable Grid ProcMaps RegionMap HeatMap Cursor ChunkReader HeapWalker Fragmentation.
From S2P Require Import Capabilities Framebuffer Layout Theme Panel Metrics Snapshot HeatColor MapView Inspector InspectorProofs Session.
From S2P Require Import HeapApp HeapDraw HeapDrawProofs HeapAppProofs Renderer RendererProofs EventLoop EventLoopProofs AppLoop Printf Clean.

(** Draining does not rename the target. *)
Class KeepsName S `{!EventSource S} : Prop := drain_name : forall s n, src_comm (src_drain s n).1 = src_comm s.
#[export] Instance session_keeps_name : KeepsName RingSession.
Proof.
  intros s n. cbn. unfold Session.drain. destruct (ss_ring s) as [r|]; [|done]. destruct (n =? 0); [done|].
  by destruct (hv_ring_drain _ _).
Qed.

Section Shows.
Context {S : Type} `{!EventSource S, !KeepsName S, !ColorMath}.
Context (outside : nat -> S -> S) (world : Z -> World) (localtime : option (Z * Z * Z)) (fps_text : LoopStats -> list Z).
Context (Houtside : forall n s, src_comm (outside n s) = src_comm s) (Hfps : forall st, plain (fps_text st)).
(** The launched target's output. *)
Definition ascii_log (log : option (list Z)) : Prop := match log with Some l => Forall (fun b => b < 127) l | None => True end.
Context (Hlog : forall now, ascii_log (w_log (world now))).
Implicit Types a : HeapApp S.

#[local] Existing Instance heap_app_loop.
Notation app := (heap_app_loop outside world localtime fps_text).

(** The texts that come from outside, and the glyphs. *)
Record texts := mkTexts { tx_comm : list Z; tx_argv0 : list Z; tx_note : list Z; tx_mark : list Z; tx_glyphs : GlyphSet }.
Definition texts_of a : texts :=
  mkTexts (src_comm (ap_session a)) (lf_launch_argv0 (ap_life a)) (lf_exit_note (ap_life a))
    (sd_taken_at (dp_snap (ap_display a))) (mv_glyphs (dp_view (ap_display a))).
Record readable (t : texts) : Prop := {
  rd_comm : plain (tx_comm t);
  rd_argv0 : plain (tx_argv0 t);
  rd_note : plain (tx_note t);
  rd_mark : plain (tx_mark t);
  rd_glyphs : exists caps, tx_glyphs t = glyphs_for caps
}.
Definition good a : Prop := readable (texts_of a).

Lemma same_good a a' : texts_of a' = texts_of a -> good a -> good a'.
Proof. unfold good. by intros ->. Qed.

(** ** The passes that leave the texts alone *)
Lemma replay_texts a : texts_of (replay a).1 = texts_of a.
Proof. unfold replay. destruct (_ =? 0)%nat; [done|]. by destruct (_ =? _)%nat. Qed.
Lemma drain_texts a : texts_of (HeapApp.drain a).1 = texts_of a.
Proof.
  unfold HeapApp.drain. destruct (negb _); [done|]. destruct (paused_ _).
  - pose proof (drain_name (ap_session a) kMaxEventsPerFrame) as Hn. destruct (src_drain _ _) as [s batch]. cbn [fst] in *.
    unfold texts_of. cbn. by rewrite Hn.
  - pose proof (replay_texts a) as Hr. destruct (replay a) as [a1 n]. cbn [fst] in Hr. destruct (_ && _); [|exact Hr].
    pose proof (drain_name (ap_session a1) (kMaxEventsPerFrame - n)) as Hn. destruct (src_drain _ _) as [s batch]. cbn [fst] in *.
    rewrite <- Hr. unfold texts_of. by destruct batch; cbn; rewrite Hn.
Qed.
Lemma rescan_texts w a : texts_of (rescan_maps w a).1 = texts_of a.
Proof.
  unfold rescan_maps. destruct (ProcMaps.due _ _); [|done]. destruct (scan _ _ _ _) as [sc st]. unfold repack.
  destruct (RegionMap.rebuild _ _) as [r moved]. by destruct moved.
Qed.
Lemma snapshot_texts w a : texts_of (snapshot w a).1 = texts_of a.
Proof.
  unfold snapshot. destruct (sp_walker _) as [walker|]; [|done]. destruct (negb _); [done|]. destruct (_ || _); [done|].
  destruct (_ && _); [done|]. destruct (walk _ _ _) as [[walker' walked] r]. by destruct (wr_status r).
Qed.
Lemma refit_texts a : texts_of (refit a) = texts_of a.
Proof.
  unfold refit. destruct (set_bounds _ _ _) as [g b]. destruct (fit_grid _ _ _ _) as [g' ok]. destruct (negb ok); [done|].
  destruct (HeatMap.configure _ _) as [map changed]. by destruct changed.
Qed.
Lemma enrich_texts w a : texts_of (enrich w a).1 = texts_of a.
Proof.
  unfold enrich. cbv zeta. destruct (sp_mode _); [done|]. destruct (_ || _); [done|]. destruct (_ <? _); [done|].
  destruct (_ =? 0)%nat; [done|]. destruct (pick _ _ _ _) as [cursor got]. destruct got as [|x got]; [done|].
  destruct (ChunkReader.read _ _ _ _ _) as [[rd st] out].
  destruct st; try done; by destruct (foldl fold_info _ _) as [[[m refined] exact] changed].
Qed.
Lemma frag_texts a : texts_of (measure_frag a).1 = texts_of a.
Proof. unfold measure_frag. destruct (analyze _ _ _ _) as [fa ran]. by destruct ran. Qed.
Lemma leaks_taken d t map now force : sd_taken_at (analyze_leaks d t map now force).1 = sd_taken_at d.
Proof.
  unfold analyze_leaks. destruct (_ || _); [done|]. destruct (negb _); [done|]. cbv zeta. by destruct (foldl _ _ _) as [[r cells] hot].
Qed.
Lemma leaks_texts a force : texts_of (measure_leaks a force).1 = texts_of a.
Proof.
  unfold measure_leaks. pose proof (leaks_taken (dp_snap (ap_display a)) (md_table (ap_model a)) (md_map (ap_model a))
    (lf_now_ms (ap_life a)) force) as Hl. destruct (analyze_leaks _ _ _ _ _) as [s ran]. cbn [fst] in *.
  unfold texts_of. cbn. by rewrite Hl.
Qed.
Lemma inspector_texts a dirty : texts_of (refresh_inspector a dirty).1 = texts_of a.
Proof. unfold refresh_inspector. by destruct (refresh _ _ _ _ _ _). Qed.
Lemma metrics_texts a : texts_of (sample_metrics a).1 = texts_of a.
Proof. unfold sample_metrics. by destruct (sample _ _). Qed.

(** ** The two that do not *)
Lemma drop_newlines_all (R : Z -> Prop) l : Forall R l -> Forall R (drop_newlines l).
Proof. induction 1 as [|c l Hc Hl IH]; cbn [drop_newlines]; [done|]. destruct (_ || _); [done|by constructor]. Qed.
Lemma cut_newline_all (R : Z -> Prop) l : Forall R l -> Forall R (cut_newline l).
Proof. induction 1 as [|c l Hc Hl IH]; cbn [cut_newline]; [done|]. destruct (_ =? _); [done|by constructor]. Qed.
Lemma skip_params_all (R : Z -> Prop) l : Forall R l -> Forall R (skip_params l).
Proof. induction 1 as [|c l Hc Hl IH]; cbn [skip_params]; [done|]. destruct (_ <? _); [done|by constructor]. Qed.

Lemma strip_plain n : forall s, Forall (fun b => b < 127) s -> plain (strip_loop n s).
Proof.
  induction n as [|n IH]; intros s Hs; cbn [strip_loop]; [apply plain_nil|]. destruct s as [|c s]; [apply plain_nil|].
  apply Forall_cons in Hs as [Hc Hs]. destruct (c =? _).
  - destruct s as [|b s]; [apply plain_nil|]. apply Forall_cons in Hs as [_ Hs]. destruct (b =? 91); apply IH; [|done].
    by apply Forall_drop, skip_params_all.
  - destruct (Z.leb_spec 0x20 c); [|by apply IH]. apply plain_cons; [lia|by apply IH].
Qed.
Lemma last_line_plain log : ascii_log log -> plain (last_output_line log).
Proof.
  intros Hl. unfold last_output_line. destruct log as [l|]; [|apply plain_nil]. apply plain_take, strip_plain.
  unfold last_line. apply Forall_reverse, cut_newline_all. rewrite reverse_involutive.
  by apply drop_newlines_all, Forall_reverse, Forall_drop.
Qed.

Lemma life_good a l : lf_launch_argv0 l = lf_launch_argv0 (ap_life a) -> plain (lf_exit_note l) -> good a -> good (set_life a l).
Proof. intros El Hl [H1 H2 H3 H4 H5]. split; try done. change (plain (lf_launch_argv0 l)). by rewrite El. Qed.
Lemma note_plain l log : plain (lf_launch_argv0 l) -> ascii_log log -> plain (lf_exit_note (build_exit_note l log)).
Proof.
  intros Hl Hg. unfold build_exit_note. cbn [lf_exit_note]. destruct (lf_launch_log l); [apply plain_nil|].
  destruct (_ && _); [|by apply last_line_plain]. apply plain_app; [|done]. unfold terminal_hint. plain.
Qed.

Lemma watch_good w a : ascii_log (w_log w) -> good a -> good (watch w a).1.
Proof.
  intros Hw Ha. unfold watch. destruct (decide _); [|done]. destruct (_ || _); [|done]. cbn [fst].
  apply life_good; [done|apply note_plain; [apply Ha|done]|done].
Qed.

Lemma clock_plain t : plain (clock_text t).
Proof. unfold clock_text, two_digits. destruct t as [[[h m] s]|]; plain. Qed.

Lemma update_good w a : ascii_log (w_log w) -> good a -> good (HeapApp.update w a).1.
Proof.
  intros Hw Ha. unfold HeapApp.update. destruct (paused_ _); [done|]. cbv zeta. set (a0 := set_life a _).
  assert (good a0) as H0 by exact (same_good a a0 eq_refl Ha). clearbody a0. pose proof (watch_good w a0 Hw H0) as H1.
  destruct (watch w a0) as [a1 c1]. cbn [fst] in H1. clear H0 Ha a a0. revert H1.
  pose proof (rescan_texts w a1) as T2. destruct (rescan_maps w a1) as [a2 c2]. cbn [fst] in T2.
  pose proof (snapshot_texts w a2) as T3. destruct (snapshot w a2) as [a3 c3]. cbn [fst] in T3.
  set (r4 := if dp_dirty (ap_display a3) && _ && _ then (refit a3, true) else (a3, false)).
  assert (texts_of r4.1 = texts_of a3) as T4 by (unfold r4; destruct (_ && _); [apply refit_texts|done]).
  clearbody r4. destruct r4 as [a4 c4]. cbn [fst] in T4.
  pose proof (enrich_texts w a4) as T5. destruct (enrich w a4) as [a5 c5]. cbn [fst] in T5.
  pose proof (frag_texts a5) as T6. destruct (measure_frag a5) as [a6 c6]. cbn [fst] in T6.
  pose proof (fun b => leaks_texts a6 b) as T7. destruct (measure_leaks a6 _) as [a7 c7] eqn:E7.
  specialize (T7 (c1 || c2 || c3 || c4 || c5 || c6)). rewrite E7 in T7. cbn [fst] in T7.
  pose proof (inspector_texts a7 (c1 || c2 || c3 || c4 || c5 || c6 || c7)) as T8. destruct (refresh_inspector a7 _) as [a8 c8]. cbn [fst] in T8.
  pose proof (metrics_texts a8) as T9. destruct (sample_metrics a8) as [a9 c9]. cbn [fst] in T9 |- *.
  apply same_good. congruence.
Qed.

Lemma mark_good a s : plain (sd_taken_at s) -> good a -> good (set_display a (set_snap (ap_display a) s)).
Proof. intros Hs [H1 H2 H3 H4 H5]. by split. Qed.

Lemma key_good a byte : good a -> good (HeapApp.key localtime a byte).1.
Proof.
  intros Ha. unfold HeapApp.key. cbv zeta. destruct (byte =? 113); [done|]. destruct (byte =? 63); [done|].
  destruct (_ && _); [done|]. destruct (_ && _); [done|]. destruct (_ || _); [done|].
  destruct (cursor_move_for_key byte) as [mv|].
  - destruct (move _ _ _) as [coord moved]. set (a1 := set_display a _). assert (good a1) as H1 by exact (same_good a a1 eq_refl Ha).
    clearbody a1. destruct (negb moved); [done|]. cbn [fst]. eapply same_good; [apply inspector_texts|done].
  - destruct (byte =? 9); [by destruct (cycle _)|]. destruct (bool_decide _); [|done].
    destruct (byte =? 115); [apply mark_good; [apply clock_plain|done]|].
    destruct (byte =? 83); [apply mark_good; [apply plain_nil|done]|]. destruct (byte =? 100); [|done].
    assert (plain (sd_taken_at (toggle (dp_snap (ap_display a))).1)) as Ht.
    { assert (sd_taken_at (toggle (dp_snap (ap_display a))).1 = sd_taken_at (dp_snap (ap_display a))) as ->; [|apply Ha].
      unfold toggle. destruct (negb _); [done|]. cbv zeta. by destruct (negb _). }
    destruct (toggle _) as [t b]. by apply mark_good.
Qed.

Definition app_good (an : HeapApp S * nat) : Prop := good an.1.

Lemma app_keeps : loop_keeps (LoopApp0 := app) app_good.
Proof.
  split; unfold app_good; cbn.
  - intros [a n] Ha. unfold drain_outside. set (a1 := set_session a _).
    assert (texts_of a1 = texts_of a) as H1 by (unfold texts_of, a1; cbn; by rewrite Houtside).
    pose proof (drain_texts a1) as Hd. destruct (HeapApp.drain a1) as [a2 k]. cbn [fst] in *.
    eapply same_good; [|exact Ha]. congruence.
  - intros [a n] now Ha. cbn [fst snd]. pose proof (update_good (world now) a (Hlog now) Ha). by destruct (HeapApp.update _ _).
  - intros [a n] b Ha. cbn [fst snd]. pose proof (key_good a b Ha). by destruct (HeapApp.key _ _ _).
  - intros [a n] Ha. exact Ha.
  - intros [a n] w h Ha. cbn [fst snd]. unfold resized. destruct (negb _); [|done].
    eapply same_good; [apply refit_texts|done].
  - done.
Qed.
(** ** The frame *)
Lemma plain_dec_int v : plain (dec_int v).
Proof. unfold dec_int. plain. Qed.
Lemma plain_drop_zeros n : forall l, plain l -> plain (drop_zeros n l).
Proof. induction n as [|n IH]; intros [|c l] Hl; cbn [drop_zeros]; try done. destruct (c =? 48); [|done]. apply IH. by inversion Hl. Qed.
Lemma plain_hex12 v : plain (hex12 v).
Proof. unfold hex12. apply plain_app; [plain|]. apply plain_drop_zeros, plain_drop, plain_hex16. Qed.
#[local] Hint Resolve plain_dec_int plain_hex12 : plain.

Lemma title_plain a : good a -> plain (title_line a).
Proof.
  intros Ha. pose proof (rd_comm _ Ha) as Hc. cbn [texts_of tx_comm] in Hc. unfold title_line, line256. cbv zeta.
  destruct (src_comm (ap_session a)) as [|c l]; plain.
Qed.
Lemma banner_plain s : plain (sd_taken_at s) -> plain (banner_line s).
Proof. intros Hs. unfold banner_line, line256. cbv zeta. plain. Qed.
Lemma arena_plain n m t : plain (format_arena_label n m t).1.
Proof.
  unfold format_arena_label. destruct (n =? 0); [apply plain_nil|].
  assert (plain (snprintf n (arena_label_text m t)).1) as Hp by (unfold arena_label_text; cbv zeta; plain).
  destruct (snprintf _ _) as [text len]. by destruct (_ <=? _); [apply plain_nil|].
Qed.
Lemma address_plain a : plain (address_line a).
Proof.
  unfold address_line, line256. cbv zeta. pose proof (arena_plain kArenaLabelMax (main_arena_ (md_scanner (ap_model a)))
    (thread_arenas_ (md_scanner (ap_model a)))) as Hl. set (arena := (format_arena_label _ _ _).1) in *. clearbody arena.
  destruct (range_empty _); plain.
Qed.
Lemma walker_hint_plain w h : walker_hint w = Some h -> plain h.
Proof. unfold walker_hint. destruct (hw_denied w); [intros [= <-]; plain|]. destruct (hw_gone w); [intros [= <-]; plain|done]. Qed.
Lemma hint_plain rd h : hint rd = Some h -> plain h.
Proof. unfold hint. destruct (cr_denied rd); [intros [= <-]; plain|]. destruct (cr_gone rd); [intros [= <-]; plain|done]. Qed.
Lemma overhead_plain a : plain (overhead_line a).
Proof.
  unfold overhead_line, line256. cbv zeta. destruct (sp_mode _).
  - destruct (sp_walker _ ≫= walker_hint) as [h|] eqn:E; [|plain]. apply bind_Some in E as (w & _ & E).
    apply walker_hint_plain in E. plain.
  - destruct (hint _) as [h|] eqn:E; [apply hint_plain in E|]; plain.
Qed.

Lemma well_title a f g fps : good a -> plain fps -> drawn_well f g -> drawn_well f (draw_title a g fps).
Proof.
  intros Ha Hf Hg. pose proof (rd_mark _ Ha) as Hm. cbn [texts_of tx_mark] in Hm. unfold draw_title. cbv zeta.
  set (g1 := (text g 0 0 _ _ _ _).1). assert (drawn_well f g1) as H1 by (apply well_text; [done|by apply title_plain|by vm_compute]).
  clearbody g1. set (g2 := if _ <? _ then _ else g1).
  assert (drawn_well f g2) as H2 by (unfold g2; destruct (_ <? _); [apply well_text; [done|unfold line256; plain|by vm_compute]|done]).
  clearbody g2. destruct (sd_diff _); [|done]. destruct (_ <? _); [|done].
  apply well_text; [done|by apply banner_plain|by vm_compute].
Qed.
Lemma well_address a f g : drawn_well f g -> drawn_well f (draw_address a g).
Proof.
  intros Hg. unfold draw_address. cbv zeta. set (g1 := (text g 0 1 _ _ _ _).1).
  assert (drawn_well f g1) as H1 by (apply well_text; [done|apply address_plain|by vm_compute]). clearbody g1.
  destruct (1 <? _); [|done]. destruct (_ <? _); [|done]. apply well_text; [done|unfold line256; plain|by vm_compute].
Qed.
Lemma well_section a f g : drawn_well f g -> drawn_well f (draw_section a g).
Proof.
  intros Hg. unfold draw_section. cbv zeta. pose proof (overhead_plain a) as Ho.
  set (g1 := if len section_label <=? fb_w g then _ else g). assert (drawn_well f g1) as H1.
  { unfold g1. destruct (_ <=? _); [|done]. apply well_text; [|unfold section_label; plain|by vm_compute].
    eapply well_step; [exact Hg|intros; by apply (confined_fill g)|]. apply clean_hline; [destruct (caps_unicode _); narrow|by vm_compute]. }
  clearbody g1. destruct (overhead_line a) as [|c l].
  - destruct (negb _); [|done]. destruct (_ <? _); [|done]. apply well_text; [done|unfold line256; plain|by vm_compute].
  - set (g2 := if _ && _ then _ else g1).
    assert (drawn_well f g2) as H2 by (unfold g2; destruct (_ && _); [by apply well_text|done]). clearbody g2.
    destruct (negb _); [|done]. destruct (_ <? _); [|done]. apply well_text; [done|unfold line256; plain|by vm_compute].
Qed.

Lemma well_help a f g : drawn_well f g -> drawn_well f (draw_help a g).
Proof.
  intros Hg. unfold draw_help. cbv zeta. set (b := help_box _ _). clearbody b.
  assert (forall l g r, Forall (fun x => plain x.1.1 /\ 0 <= x.2 < 256) l -> drawn_well f g ->
    drawn_well f (foldl (help_line b (th_bg (ap_theme a))) (g, r) l).1) as Hl.
  { induction l as [|[[s colour] at'] l IH]; intros h r Hs Hh; [done|]. apply Forall_cons in Hs as [[H1 H2] Hs].
    cbn [foldl help_line]. apply IH; [done|]. by apply well_panel_text. }
  apply Hl.
  - unfold help_lines. cbv zeta. apply Forall_app. split; [|destruct (paused_ _); [|apply Forall_nil; done]];
      repeat (apply Forall_cons; split; [split; [cbn [fst]; plain|by vm_compute]|]); by apply Forall_nil.
  - apply well_box; [|by vm_compute]. apply well_fill; [done|apply glyph_shows; [narrow|done]].
Qed.

Lemma footer_plain a : good a -> plain (footer_note a).1.
Proof.
  intros Ha. pose proof (rd_note _ Ha) as Hn. cbn [texts_of tx_note] in Hn. unfold footer_note, line256. cbv zeta.
  destruct (kb_help _); [destruct (paused_ _); [|destruct (lf_state _)]; cbn [fst]; plain|].
  destruct (paused_ _); [cbn [fst]; plain|].
  destruct (lf_state _); cbn [fst]; [plain| |plain]. destruct (lf_exit_note (ap_life a)) as [|c l]; plain.
Qed.

Lemma good_view a : good a -> glyphs_show (dp_view (ap_display a)).
Proof.
  intros Ha. destruct (rd_glyphs _ Ha) as [caps E]. cbn [texts_of tx_glyphs] in E.
  pose proof (glyphs_for_show caps) as (H1 & H2 & H3 & H4 & H5). by split; rewrite E.
Qed.

Lemma draw_well a f fps : good a -> plain fps -> fb_ok f -> drawn_well f (HeapDraw.draw a f fps).
Proof.
  intros Ha Hp Hf. unfold HeapDraw.draw. cbv zeta.
  pose proof (well_clear f (Framebuffer.mkCell 32 (th_text (ap_theme a)) (th_bg (ap_theme a)) 0) Hf ltac:(apply glyph_shows; [narrow|done])) as H0.
  set (g0 := Framebuffer.clear _ _) in *. clearbody g0.
  set (g1 := draw_footer a _). assert (drawn_well f g1) as H1; [|clearbody g1; destruct (kb_help _); [by apply well_help|done]].
  unfold g1, draw_footer. pose proof (footer_plain a Ha) as Hn. destruct (footer_note a) as [note colour]. cbn [fst] in Hn.
  apply well_text; [|done|by vm_compute]. unfold draw_metrics_panel, draw_inspector_panel, draw_model, draw_header.
  set (g2 := if 0 <? rh _ then _ else _). assert (drawn_well f g2) as H2; [|clearbody g2; destruct (0 <? _); [by apply well_metrics|done]].
  unfold g2. clear g1 g2. set (g3 := draw_cursor _ _ _ _ _). assert (drawn_well f g3) as H3.
  { apply well_cursor, well_leaks, well_map; [by apply good_view|]. apply well_section, well_address. by apply well_title. }
  clearbody g3. destruct (0 <? _); [by apply well_inspector|done].
Qed.

Lemma app_draws (an : HeapApp S * nat) f st : app_good an -> fb_ok f ->
  let g := (la_draw (LoopApp := app) an f st).2 in same_front f g /\ forall x y, on_grid g x y -> can_show (at_back g x y).
Proof.
  destruct an as [a n]. intros Ha Hf. cbn [la_draw]. pose proof (draw_well a f (fps_text st) Ha (Hfps st) Hf) as Hw.
  split; [by destruct Hw|by apply (well_shows f)].
Qed.
Lemma app_draws_well : draws_well (LoopApp0 := app) app_good.
Proof.
  intros an f st Ha Hf. destruct (app_draws an f st Ha Hf) as [Hs Hc]. split; [exact Hs|]. intros x y Hg.
  destruct (Hc x y Hg) as [H1 H2]. split; [by apply one_column_printable|done].
Qed.

Context (wrap : Z -> Z * Z) (reflow : Term -> Z -> Z -> Z -> Z -> TCell) (t0 : Term).
Context (Hterm : t_parse t0 = Ground).

(** C10: The user sees what the program drew.  For a target whose name, and a
    command line whose first word, are printable ASCII, and whose output is ASCII
    without the delete character: whatever the target allocates, prints or does to
    the ring, whatever the system answers and whatever is typed, when the loop over
    the application ends other than by a failed write, the terminal shows the last
    frame cell for cell.  Every glyph shown is blank, printable ASCII or from the
    Box Drawing and Block Elements blocks, which take one column each as the
    terminal of the statement gives them, and the texts that come from outside are
    printable ASCII still. *)
Theorem heap_app_shows cfg (s0 : S) caps theme animations now_ns output_path argv0 frs s e :
  plain (src_comm s0) -> plain argv0 ->
  run (LoopApp0 := app) (new_loop cfg) (set_launch (new_app s0 caps theme animations now_ns) output_path argv0, O) frs
    = (s, Some e) -> e <> WriteFailed ->
  (rn_trace s = [] \/
   current wrap reflow t0 s /\
   let f := el_fb (rn_loop s) in forall x y, on_grid f x y -> one_column (glyph (at_front f x y))) /\
  readable (texts_of (rn_app s).1).
Proof.
  intros Hc Ha0 Hrun He. set (an := (_, O)) in Hrun. assert (app_good an) as Ha.
  { unfold an, app_good, good, new_app. destruct (if src_attached s0 then _ else _) as [st dropped].
    split; try done; [apply plain_nil..|]. by exists caps. }
  assert (forall an f st, app_good an -> fb_ok f -> let g := (la_draw (LoopApp := app) an f st).2 in
    same_front f g /\ forall x y, on_grid g x y -> one_column (glyph (at_back g x y))) as Hdraw
    by (intros b f st Hb Hf; destruct (app_draws b f st Hb Hf) as [H1 H2]; split; [exact H1|intros x y Hg; apply (H2 x y Hg)]).
  pose proof (run_fronted app_good app_keeps one_column Hdraw cfg an frs Ha) as [_ Hf]. rewrite Hrun in Hf. split.
  - destruct (run_current _ app_keeps app_draws_well wrap reflow t0 Hterm cfg _ frs s e Ha Hrun He) as [Ht|Hcur]; [by left|].
    right. split; [exact Hcur|]. destruct Hf as [Hf|Hf]; [|exact Hf]. destruct Hcur as (_ & Hfull & _). cbn [fst] in Hf. congruence.
  - pose proof (run_keeps _ app_keeps (new_loop cfg) _ frs Ha) as Hk. rewrite Hrun in Hk. exact Hk.
Qed.
End Shows.

(** Output beyond ASCII does reach the screen: a wide character of the last line
    is drawn into a single cell, although no terminal shows it in one column. *)
Definition wide_line : list Z := [0xE6; 0x97; 0xA5].
Lemma wide_output_drawn w f : w_log w = Some wide_line -> fb_ok f -> on_grid f 0 0 ->
  glyph (at_back (text f 0 0 (last_output_line (w_log w)) 0 0 kAttrNone).1 0 0) = 0x65E5 /\
  (text f 0 0 (last_output_line (w_log w)) 0 0 kAttrNone).2 = 1 /\ ~ one_column 0x65E5.
Proof.
  intros Hw Hf Hg. assert (last_output_line (w_log w) = wide_line) as -> by (rewrite Hw; by vm_compute).
  pose proof Hg as [Hx Hy]. pose proof (text_exact f 0 0 wide_line 0 0 kAttrNone Hf ltac:(lia) ltac:(lia)) as Ht.
  destruct (text f 0 0 wide_line 0 0 kAttrNone) as [g n]. destruct Ht as (_ & Hb & Hn).
  change (code_points wide_line) with [0x65E5] in *. cbn [fst snd]. rewrite (Hb 0 0 Hg), decide_True by (cbn; lia).
  split; [done|]. split; [rewrite Hn; cbn; lia|unfold one_column, narrow; lia].
Qed.

(** ** A run *)

Definition watched : RingSession := mkSession (Some (fresh_ring 3)) 4096 42 0 0 (str "a.out").
Definition watched_fps (st : LoopStats) : list Z := fixed0 (fps_double st).
#[local] Instance watched_loop_app : LoopApp (HeapApp RingSession * nat) :=
  heap_app_loop push_one (fun _ => gone_world) None watched_fps.
Definition watched_frames : list Frame :=
  [ mkFrame false false (Some (40, 8)) (demo_clock 100) [Wrote 100000] [key_turn 200 63; idle_turn 20000000];
    mkFrame false true (Some (41, 9)) (demo_clock 20000000) [WroteErr EINTR; Wrote 100000] [idle_turn 40000000];
    mkFrame false false None (demo_clock 40000000) [Wrote 100000] [key_turn 40000001 113] ].

Notation watched_start :=
  (set_launch (new_app watched (mkCaps TrueColor true) dark_theme true 0) (str "/tmp/log") (str "a.out"), O).
Lemma watched_quits : exists s, run demo_loop watched_start watched_frames = (s, Some Quit) /\ rn_trace s <> [].
Proof.
  assert ((run demo_loop watched_start watched_frames).2 = Some Quit) as E by (by vm_compute).
  assert (List.length (rn_trace (run demo_loop watched_start watched_frames).1) = 5%nat) as Ht by (by vm_compute).
  destruct (run _ _ watched_frames) as [s e]. cbn [fst snd] in *. subst e. exists s. split; [done|]. intros E. by rewrite E in Ht.
Qed.

Lemma push_keeps_name n s : src_comm (push_one n s) = src_comm s.
Proof. unfold push_one. by destruct (ss_ring s). Qed.
Lemma watched_fps_plain st : plain (watched_fps st).
Proof. apply plain_fixed0. Qed.
Lemma gone_log_ascii (now : Z) : ascii_log (w_log gone_world).
Proof. done. Qed.

Lemma heap_app_shows_witness : exists s,
  run demo_loop watched_start watched_frames = (s, Some Quit) /\
  current (fun y => (0, y)) (fun t _ _ => t_screen t) demo_term s /\
  forall x y, on_grid (el_fb (rn_loop s)) x y -> one_column (glyph (at_front (el_fb (rn_loop s)) x y)).
Proof.
  destruct watched_quits as (s & E & Hne). exists s. split; [exact E|].
  assert (plain (src_comm watched)) as H1 by (by apply plain_bool_ok).
  assert (plain (str "a.out")) as H2 by (by apply plain_bool_ok).
  destruct (heap_app_shows push_one (fun _ => gone_world) None watched_fps push_keeps_name watched_fps_plain
    gone_log_ascii (fun y => (0, y)) (fun t _ _ => t_screen t) demo_term eq_refl _ _ _ _ _ _ _ _ _ s Quit H1 H2 E ltac:(discriminate))
    as [[H|H] _]; [destruct (Hne H)|exact H].
Defined.
