(* ===== verification/DemoHeap.v ===== *)
(** * A synthetic heap (src/src/tui/demo_heap.h, demo_heap.cpp)

    The heap that drives the map of the terminal check: a pseudo-random churn of
    allocations and releases over four mebibytes, through the grid and the heat
    map of the program.  The list of live chunks never outgrows its reserve, and
    what the map shows is that list. *)

From S2P Require Import Prelude Grid ProcMaps RegionMap HeatMap HeatMapProofs Framebuffer MapView.

Definition kBase : Z := 0x55A0000000.
Definition kSpan : Z := Z.shiftl 4 20.
Definition kMaxLive : nat := Z.to_nat 4096.

Record Live := mkLive { lv_addr : Z; lv_size : Z; lv_usable : Z }.
#[export] Instance Live_inhabited : Inhabited Live := populate (mkLive 0 0 0).

Record DemoHeap := mkDemo { dh_grid : Grid; dh_map : HeatMap; dh_live : list Live; dh_rng : Z; dh_now_ms : Z }.
Definition new_demo : DemoHeap :=
  mkDemo (set_bounds new_grid kBase (kBase + kSpan)).1 new_heatmap [] 0x243F6A8885A308D3 0.

(** splitmix64 *)
Definition next (rng : Z) : Z * Z :=
  let rng := rng ⊞ 0x9E3779B97F4A7C15 in
  let z := Z.lxor rng (Z.shiftr rng 30) ⊠ 0xBF58476D1CE4E5B9 in
  let z := Z.lxor z (Z.shiftr z 27) ⊠ 0x94D049BB133111EB in
  (rng, Z.lxor z (Z.shiftr z 31)).

Definition add_live (now : Z) (m : HeatMap) (c : Live) : HeatMap := on_alloc m (lv_addr c) (lv_size c) (lv_usable c) now.

Definition fit (d : DemoHeap) (area : Rect) (half_block : bool) : DemoHeap :=
  let g := (fit_grid (dh_grid d) area half_block true).1 in
  let m := (HeatMap.configure (dh_map d) g).1 in
  mkDemo g (foldl (add_live (dh_now_ms d)) m (dh_live d)) (dh_live d) (dh_rng d) (dh_now_ms d).

(** Its last element moved into slot [k], and one shorter. *)
Definition swap_remove (l : list Live) (k : nat) : list Live := removelast (<[k := l !!! (length l - 1)%nat]> l).

(** One turn of the loop of [churn]. *)
Definition churn_one (d : DemoHeap) : DemoHeap :=
  let n := length (dh_live d) in
  let '(rng, freeing) :=
    if (n =? 0)%nat then (dh_rng d, false)
    else if (kMaxLive <=? n)%nat then (dh_rng d, true)
    else let '(rng, v) := next (dh_rng d) in (rng, Z.land v 3 =? 0) in
  if freeing then
    let '(rng, v) := next rng in
    let k := Z.to_nat (v mod Z.of_nat n) in
    let c := dh_live d !!! k in
    mkDemo (dh_grid d) (on_free (dh_map d) (lv_addr c) (lv_size c) (lv_usable c) (dh_now_ms d)) (swap_remove (dh_live d) k)
      rng (dh_now_ms d)
  else
    let '(rng, v) := next rng in
    let size := u32 (32 + v mod 2000) in
    let usable := Z.land (size ⊞₃₂ 31) (u32 (Z.lnot 31)) in
    let '(rng, v) := next rng in
    let addr := kBase ⊞ Z.land (v mod (kSpan ⊟ usable)) (u64 (Z.lnot 15)) in
    let c := mkLive addr size usable in
    mkDemo (dh_grid d) (add_live (dh_now_ms d) (dh_map d) c) (dh_live d ++ [c]) rng (dh_now_ms d).

Fixpoint churn_loop (ops : nat) (d : DemoHeap) : DemoHeap :=
  match ops with O => d | S ops => churn_loop ops (churn_one d) end.
Definition churn (d : DemoHeap) (now_ms : Z) (ops : nat) : DemoHeap * bool :=
  (churn_loop ops (mkDemo (dh_grid d) (dh_map d) (dh_live d) (dh_rng d) now_ms), negb (ops =? 0)%nat).
Definition seed (d : DemoHeap) (n : nat) : DemoHeap := (churn d 0 n).1.
Definition live_count (d : DemoHeap) : nat := length (dh_live d).

(** ** The chunks *)

Definition chunk_ok (c : Live) : Prop :=
  kBase <= lv_addr c /\ lv_addr c + lv_usable c < kBase + kSpan /\ lv_addr c mod 16 = 0 /\
  32 <= lv_size c <= lv_usable c /\ lv_usable c <= 2048.

Lemma next_range rng : is_u64 (next rng).1 /\ 0 <= (next rng).2.
Proof.
  unfold next. cbn [fst snd]. split; [apply u64_range|]. apply Z.lxor_nonneg.
  rewrite Z.shiftr_nonneg. done.
Qed.

Lemma land_high x k w : 0 <= k <= w -> 0 <= x < 2 ^ w -> Z.land x (Z.lnot (2 ^ k - 1) mod 2 ^ w) = 2 ^ k * (x / 2 ^ k).
Proof.
  intros Hk Hx. rewrite <- Z.land_ones by lia.
  rewrite (Z.land_comm (Z.lnot _)), Z.land_assoc, Z.land_ones, Z.mod_small by lia.
  rewrite <- Z.ldiff_land, Z.sub_1_r, <- Z.ones_equiv, Z.ldiff_ones_r, Z.shiftr_div_pow2, Z.shiftl_mul_pow2 by lia. lia.
Qed.

Lemma made_ok v w : 0 <= v -> 0 <= w ->
  let size := u32 (32 + v mod 2000) in
  let usable := Z.land (size ⊞₃₂ 31) (u32 (Z.lnot 31)) in
  chunk_ok (mkLive (kBase ⊞ Z.land (w mod (kSpan ⊟ usable)) (u64 (Z.lnot 15))) size usable).
Proof.
  intros Hv Hw size usable. change kSpan with 4194304 in *. change kBase with 367756574720 in *.
  pose proof (Z.mod_pos_bound v 2000 ltac:(lia)) as Hs.
  assert (size = 32 + v mod 2000) as Es by (unfold size; apply u32_small; unfold is_u32; lia).
  assert (usable = 32 * ((size + 31) / 32)) as Eu.
  { unfold usable. rewrite (u32_small (size + 31)) by (unfold is_u32; lia). unfold u32. apply (land_high _ 5 32); lia. }
  clearbody size usable. assert (32 <= size <= usable /\ usable <= 2048) as Hu by (Z.div_mod_to_equations; lia).
  rewrite (u64_small (4194304 - usable)) by (unfold is_u64; lia).
  pose proof (Z.mod_pos_bound w (4194304 - usable) ltac:(lia)) as Ha.
  set (o := w mod (4194304 - usable)) in *. clearbody o.
  assert (Z.land o (u64 (Z.lnot 15)) = 16 * (o / 16)) as -> by (unfold u64; apply (land_high _ 4 64); lia).
  assert (0 <= 16 * (o / 16) <= o) as Ho by (Z.div_mod_to_equations; lia).
  rewrite u64_small by (unfold is_u64; lia). unfold chunk_ok. cbn [lv_addr lv_size lv_usable].
  change kBase with 367756574720. change kSpan with 4194304. split_and!; try lia.
  Z.div_mod_to_equations; lia.
Qed.

(** ** The list *)
Lemma swap_remove_perm l k c : l !! k = Some c -> l ≡ₚ c :: swap_remove l k.
Proof.
  intros Hk. unfold swap_remove. destruct (exists_last (l := l)) as (l0 & z & ->); [by intros ->|].
  assert ((l0 ++ [z]) !!! (length (l0 ++ [z]) - 1)%nat = z) as ->.
  { apply list_lookup_total_correct. rewrite length_app, lookup_app_r by (cbn; lia). cbn.
    by replace (length l0 + 1 - 1 - length l0)%nat with O by lia. }
  destruct (decide (k < length l0)%nat) as [Hlt|Hge].
  - rewrite insert_app_l, removelast_last by done. rewrite lookup_app_l in Hk by done.
    rewrite <- (take_drop_middle _ _ _ Hk) at 1. rewrite insert_take_drop by done. solve_Permutation.
  - assert (k = length l0) as -> by (apply lookup_lt_Some in Hk; rewrite length_app in Hk; cbn in Hk; lia).
    rewrite insert_app_r_alt by lia. rewrite Nat.sub_diag. cbn [insert list_insert]. rewrite removelast_last.
    rewrite lookup_app_r, Nat.sub_diag in Hk by lia. injection Hk as ->. solve_Permutation.
Qed.

(** ** What the map shows *)

Definition sum_if (d : Live -> bool) (f : Live -> Z) (l : list Live) : Z := sum_by (fun c => if d c then f c else 0) l.
Definition on (h : HeatMap) (i : nat) (c : Live) : bool := bool_decide (cell_for h (lv_addr c) = Some i).
Definition mapped (h : HeatMap) (c : Live) : bool := is_some (cell_for h (lv_addr c)).
Definition one (_ : Live) : Z := 1.
Definition overhead (c : Live) : Z := overhead_of (lv_size c) (lv_usable c).

(** The counters of every cell, and the totals, are those of the chunks in it. *)
Record shows_live (h : HeatMap) (l : list Live) : Prop := {
  sl_cells : forall i cell, hm_cells h !! i = Some cell ->
    n_live cell = sum_if (on h i) one l /\ live_bytes cell = sum_if (on h i) lv_usable l /\
    overhead_bytes cell = sum_if (on h i) overhead l;
  sl_live : hm_total_live h = sum_if (mapped h) one l;
  sl_bytes : hm_total_live_bytes h = sum_if (mapped h) lv_usable l
}.

Lemma sum_if_cons d f c l : sum_if d f (c :: l) = (if d c then f c else 0) + sum_if d f l.
Proof. apply sum_by_cons. Qed.

Lemma overhead_exact c : chunk_ok c -> overhead c = lv_usable c - lv_size c /\ 0 <= overhead c <= 2048.
Proof.
  intros (_ & _ & _ & H1 & H2). unfold overhead, overhead_of. destruct (Z.ltb_spec (lv_size c) (lv_usable c)); [|lia].
  rewrite u32_small by (unfold is_u32; lia). lia.
Qed.

Lemma sum_if_bound d f l : (forall c, chunk_ok c -> 0 <= f c <= 2048) -> Forall chunk_ok l ->
  0 <= sum_if d f l <= 2048 * Z.of_nat (length l).
Proof.
  intros Hf. induction 1 as [|c l Hc _ IH]; [done|]. rewrite sum_if_cons. cbn [length]. specialize (Hf c Hc). destruct (d c); lia.
Qed.

Lemma sums_fit d l : Forall chunk_ok l -> (length l <= kMaxLive)%nat ->
  0 <= sum_if d one l <= 2 ^ 23 /\ 0 <= sum_if d lv_usable l <= 2 ^ 23 /\ 0 <= sum_if d overhead l <= 2 ^ 23.
Proof.
  intros Hl Hn. pose proof (Z2Nat.id 4096 ltac:(lia)) as Hk. fold kMaxLive in Hk. set (m := kMaxLive) in *. clearbody m.
  pose proof (sum_if_bound d one l ltac:(intros; unfold one; lia) Hl).
  pose proof (sum_if_bound d lv_usable l ltac:(intros ? (_ & _ & _ & ? & ?); lia) Hl).
  pose proof (sum_if_bound d overhead l ltac:(intros ? Hc; apply (overhead_exact _ Hc)) Hl).
  change (2 ^ 23) with (2048 * 4096). lia.
Qed.

#[export] Instance sum_if_perm d f : Proper ((≡ₚ) ==> (=)) (sum_if d f).
Proof. apply sum_by_perm. Qed.
Lemma shows_perm h l l' : l ≡ₚ l' -> shows_live h l -> shows_live h l'.
Proof. intros Hp [H1 H2 H3]. split; [intros i cell Hi; rewrite <- !Hp; by apply H1|by rewrite <- Hp..]. Qed.

(** Where a chunk lands does not depend on what the cells hold. *)
Lemma cell_for_alter h g i b n a : cell_for (with_cells h (alter g i (hm_cells h)) b n) a = cell_for h a.
Proof. unfold cell_for, cell_index, coordinate_of. cbn. by rewrite length_alter. Qed.
Lemma cell_for_insert h c i b n a : cell_for (with_cells h (<[i := c]> (hm_cells h)) b n) a = cell_for h a.
Proof. unfold cell_for, cell_index, coordinate_of. cbn. by rewrite length_insert. Qed.

Lemma shows_same h h' l : (forall a, cell_for h' a = cell_for h a) -> hm_cells h' = hm_cells h ->
  hm_total_live h' = hm_total_live h -> hm_total_live_bytes h' = hm_total_live_bytes h -> shows_live h l -> shows_live h' l.
Proof.
  intros Hc E1 E2 E3 [H1 H2 H3].
  assert (forall i f, sum_if (on h' i) f l = sum_if (on h i) f l) as Ho by (intros; apply sum_by_ext; intros c _; unfold on; by rewrite Hc).
  assert (forall f, sum_if (mapped h') f l = sum_if (mapped h) f l) as Hm by (intros; apply sum_by_ext; intros c _; unfold mapped; by rewrite Hc).
  split; [intros i cell; rewrite E1, !Ho; apply H1|by rewrite E2, Hm|by rewrite E3, Hm].
Qed.

Lemma alloc_shows h l c now : shows_live h l -> Forall chunk_ok (c :: l) -> (length (c :: l) <= kMaxLive)%nat ->
  shows_live (add_live now h c) (c :: l).
Proof.
  intros [H1 H2 H3] Hok Hn. pose proof (Forall_inv Hok) as Hc. unfold add_live, on_alloc.
  destruct (cell_for h (lv_addr c)) as [j|] eqn:Ej.
  - set (h' := with_cells h _ _ _).
    assert (forall i f, sum_if (on h' i) f (c :: l) = sum_if (on h i) f (c :: l)) as Ho
      by (intros; apply sum_by_ext; intros; unfold on, h'; by rewrite cell_for_alter).
    assert (forall f, sum_if (mapped h') f (c :: l) = sum_if (mapped h) f (c :: l)) as Hm
      by (intros; apply sum_by_ext; intros; unfold mapped, h'; by rewrite cell_for_alter).
    assert (mapped h c = true) as Em by (unfold mapped; by rewrite Ej).
    split.
    + intros i cell Hi. rewrite !Ho. unfold h' in Hi. cbn [with_cells hm_cells] in Hi.
      pose proof (sums_fit (on h i) _ Hok Hn) as Hf.
      destruct (decide (j = i)) as [->|Hij].
      * rewrite list_lookup_alter_eq in Hi. destruct (hm_cells h !! i) as [cell0|] eqn:E0; [|done]. injection Hi as <-.
        cbn [n_live live_bytes overhead_bytes]. destruct (H1 _ _ E0) as (-> & -> & ->).
        assert (on h i c = true) as Ec by (unfold on; by apply bool_decide_eq_true).
        rewrite !sum_if_cons, Ec in *. fold (overhead c). change (one c) with 1 in *.
        rewrite (u32_small (_ + 1)), u64_small, u32_small by (unfold is_u32, is_u64; lia). lia.
      * rewrite list_lookup_alter_ne in Hi by done. destruct (H1 _ _ Hi) as (-> & -> & ->).
        assert (on h i c = false) as Ec by (unfold on; apply bool_decide_eq_false; congruence). by rewrite !sum_if_cons, Ec.
    + rewrite Hm. pose proof (sums_fit (mapped h) _ Hok Hn) as Hf. rewrite !sum_if_cons, Em in *. cbn [h' with_cells hm_total_live].
      rewrite H2. change (one c) with 1 in *. rewrite u64_small by (unfold is_u64; lia). lia.
    + rewrite Hm. pose proof (sums_fit (mapped h) _ Hok Hn) as Hf. rewrite !sum_if_cons, Em in *. cbn [h' with_cells hm_total_live_bytes].
      rewrite H3. rewrite u64_small by (unfold is_u64; lia). lia.
  - assert (mapped h c = false) as Em by (unfold mapped; by rewrite Ej).
    split; [|by rewrite sum_if_cons, Em..]. intros i cell Hi.
    assert (on h i c = false) as Ec by (unfold on; apply bool_decide_eq_false; congruence). rewrite !sum_if_cons, Ec. by apply H1.
Qed.

Lemma free_shows h l c now : shows_live h (c :: l) -> Forall chunk_ok (c :: l) -> (length (c :: l) <= kMaxLive)%nat ->
  shows_live (on_free h (lv_addr c) (lv_size c) (lv_usable c) now) l.
Proof.
  intros [H1 H2 H3] Hok Hn. pose proof (Forall_inv Hok) as Hc. unfold on_free.
  assert (Forall chunk_ok l /\ (length l <= kMaxLive)%nat) as [Hl Hn'] by (split; [by apply Forall_inv_tail in Hok|cbn [length] in Hn; lia]).
  destruct (cell_for h (lv_addr c)) as [j|] eqn:Ej.
  - assert (j < length (hm_cells h))%nat as Hj.
    { unfold cell_for, cell_index in Ej. destruct (coordinate_of h (lv_addr c)); [|done].
      destruct (index_of (hm_grid h) _) as [k|] eqn:Ek; [|done]. apply index_of_nonneg in Ek.
      destruct (Z.leb_spec (Z.of_nat (length (hm_cells h))) k); [done|]. injection Ej as <-. lia. }
    destruct (lookup_lt_is_Some_2 _ _ Hj) as [cell0 E0]. rewrite (list_lookup_total_correct _ _ _ E0).
    assert (on h j c = true /\ mapped h c = true) as [Ec Em] by (unfold on, mapped; rewrite Ej; by rewrite bool_decide_true).
    destruct (H1 _ _ E0) as (N & B & O). pose proof (sums_fit (on h j) l Hl Hn') as Hf. pose proof (sums_fit (mapped h) l Hl Hn') as Hg.
    rewrite !sum_if_cons in N, B, O, H2, H3. rewrite Ec in N, B, O. rewrite Em in H2, H3. change (one c) with 1 in *.
    destruct (Z.ltb_spec 0 (n_live cell0)); [|lia]. cbn [n_live live_bytes overhead_bytes last_alloc_ms last_free_ms].
    destruct (Z.ltb_spec 0 (hm_total_live h)); [|lia]. set (h' := with_cells h _ _ _).
    assert (forall i f, sum_if (on h' i) f l = sum_if (on h i) f l) as Ho
      by (intros; apply sum_by_ext; intros; unfold on, h'; by rewrite cell_for_insert).
    assert (forall f, sum_if (mapped h') f l = sum_if (mapped h) f l) as Hm
      by (intros; apply sum_by_ext; intros; unfold mapped, h'; by rewrite cell_for_insert).
    pose proof (overhead_exact c Hc) as [_ Hov]. destruct Hc as (_ & _ & _ & Hu & _).
    split; [|rewrite Hm; cbn [h' with_cells hm_total_live]; lia|].
    + intros i cell Hi. rewrite !Ho. unfold h' in Hi. cbn [with_cells hm_cells] in Hi.
      destruct (decide (j = i)) as [->|Hij].
      * rewrite list_lookup_insert_eq in Hi by done. injection Hi as <-. cbn [n_live live_bytes overhead_bytes].
        rewrite N, B, O. fold (overhead c). rewrite !(Z.add_comm _ (sum_if _ _ l)), !sat_sub_exact by lia. lia.
      * rewrite list_lookup_insert_ne in Hi by done. destruct (H1 _ _ Hi) as (-> & -> & ->).
        assert (on h i c = false) as Ec' by (unfold on; apply bool_decide_eq_false; congruence). by rewrite !sum_if_cons, Ec'.
    + rewrite Hm. cbn [h' with_cells hm_total_live_bytes]. rewrite H3, Z.add_comm, sat_sub_exact by lia. done.
  - assert (mapped h c = false) as Em by (unfold mapped; by rewrite Ej). rewrite !sum_if_cons, Em in H2, H3.
    split; [|done..]. intros i cell Hi. destruct (H1 _ _ Hi) as (-> & -> & ->).
    assert (on h i c = false) as Ec by (unfold on; apply bool_decide_eq_false; congruence). by rewrite !sum_if_cons, Ec.
Qed.

(** ** Any sequence of resizes and churns *)

Inductive DemoOp := Fit (area : Rect) (half_block : bool) | Churn (now_ms : Z) (ops : nat).
Definition demo_step (d : DemoHeap) (op : DemoOp) : DemoHeap :=
  match op with Fit area hb => fit d area hb | Churn now n => (churn d now n).1 end.

(** The calls of [fit] the claim is about: an area of the screen that changes the
    map's geometry, or one in which nothing can be shown.  A resize that leaves the
    geometry alone replays the live chunks over the cells that already count them
    ([TermCheckProofs.replayed_twice]). *)
Definition small_area (a : Rect) : Prop := rw a < 2 ^ 29 /\ rh a < 2 ^ 29.
Definition refits (d : DemoHeap) (op : DemoOp) : Prop :=
  match op with
  | Fit area hb => small_area area /\
      (valid_ (hm_grid (dh_map d)) = true -> (HeatMap.configure (dh_map d) (fit_grid (dh_grid d) area hb true).1).2 = true)
  | Churn _ _ => True
  end.

(** A grid over the demonstration's span. *)
Definition over_span (g : Grid) : Prop := exists c r, c < 2 ^ 31 /\ r < 2 ^ 31 /\ g = (Grid.configure kBase (kBase + kSpan) c r).1.

Record demo_ok (d : DemoHeap) : Prop := {
  dk_grid : over_span (dh_grid d);
  dk_map : hm_regions (dh_map d) = None /\ (dh_map d = new_heatmap \/ over_span (hm_grid (dh_map d)) /\ shaped (dh_map d));
  dk_chunks : Forall chunk_ok (dh_live d);
  dk_count : (length (dh_live d) <= kMaxLive)%nat;
  dk_shows : shows_live (dh_map d) (dh_live d)
}.

Lemma new_demo_ok : demo_ok new_demo.
Proof.
  split; [exists 0, 0; split; [lia|]; split; [lia|done]|split; [done|by left]|constructor|cbn; lia|].
  split; [|done..]. intros i cell Hi. by destruct i.
Qed.

Lemma fit_grid_span g area hb : over_span g -> small_area area -> over_span (fit_grid g area hb true).1.
Proof.
  intros (c & r & _ & _ & ->) [Hw Hh]. unfold fit_grid, set_viewport.
  assert (forall c' r', c' < 2 ^ 31 -> r' < 2 ^ 31 ->
    over_span (Grid.configure (base_ (Grid.configure kBase (kBase + kSpan) c r).1) (end_ (Grid.configure kBase (kBase + kSpan) c r).1) c' r').1) as H.
  { intros c' r' Hc Hr. exists c', r'. split; [done|]. split; [done|]. f_equal.
    unfold Grid.configure at 2 3. by destruct (_ || _). }
  destruct (ml_valid (map_layout area true)) eqn:Ev; cbn [negb fst]; [|by apply H].
  unfold map_layout in *. change (2 ^ 29) with 536870912 in *. change (2 ^ 31) with 2147483648 in *.
  destruct (_ || _); [done|]. cbn [ml_cells rw rh]. unfold kGutterWidth, kMinMapCols in *. apply H; repeat case_match; lia.
Qed.

(** Nothing is drawn of a chunk without cells. *)
Lemma invalid_cell h a : hm_regions h = None -> valid_ (hm_grid h) = false -> cell_for h a = None.
Proof. intros Hr Hv. unfold cell_for, cell_index, coordinate_of, index_of. by rewrite Hr, Hv. Qed.

Lemma fresh_shows g h : shows_live (mkHeatMap (hm_regions h) g (replicate (Z.to_nat (cell_count g)) kEmptyAggregate) (hm_timings h) 0 0 (hm_rebuilds h)) [].
Proof. split; [|done..]. intros i cell [-> _]%lookup_replicate. done. Qed.

Lemma replay_shows now l : forall h done_, shows_live h done_ -> Forall chunk_ok (l ++ done_) -> (length (l ++ done_) <= kMaxLive)%nat ->
  shows_live (foldl (add_live now) h l) (l ++ done_).
Proof.
  induction l as [|c l IH]; intros h done_ Hs Hok Hn; [done|]. cbn [foldl app] in *.
  apply (shows_perm _ (l ++ c :: done_)); [solve_Permutation|]. apply IH.
  - apply alloc_shows; [done| |].
    + constructor; [by apply Forall_inv in Hok|]. apply Forall_inv_tail, Forall_app in Hok. by destruct Hok.
    + cbn [length] in *. rewrite length_app in Hn. lia.
  - rewrite Forall_app, !Forall_cons in *. rewrite Forall_app in Hok. tauto.
  - rewrite length_app in *. cbn [length] in *. rewrite length_app in Hn. lia.
Qed.

Lemma add_shape now h c : hm_regions (add_live now h c) = hm_regions h /\ hm_grid (add_live now h c) = hm_grid h /\
  length (hm_cells (add_live now h c)) = length (hm_cells h).
Proof. unfold add_live, on_alloc. destruct (cell_for h _); [|done]. cbn. by rewrite length_alter. Qed.
Lemma replay_shape now l : forall h, hm_regions (foldl (add_live now) h l) = hm_regions h /\
  hm_grid (foldl (add_live now) h l) = hm_grid h /\ length (hm_cells (foldl (add_live now) h l)) = length (hm_cells h).
Proof.
  induction l as [|c l IH]; intros h; [done|]. cbn [foldl]. destruct (IH (add_live now h c)) as (-> & -> & ->). apply add_shape.
Qed.
Lemma unmapped_add now h c : cell_for h (lv_addr c) = None -> add_live now h c = h.
Proof. unfold add_live, on_alloc. by intros ->. Qed.

Lemma fit_ok d area hb : demo_ok d -> refits d (Fit area hb) -> demo_ok (fit d area hb).
Proof.
  intros [Hg [Hr Hm] Hc Hn Hs] [Ha Hf]. pose proof (fit_grid_span _ _ hb Hg Ha) as Hg'.
  unfold fit. set (g := (fit_grid (dh_grid d) area hb true).1) in *. set (m := (HeatMap.configure (dh_map d) g).1).
  assert (shaped m /\ hm_regions m = None /\ (m = new_heatmap \/ over_span (hm_grid m)) /\
    ((m = dh_map d /\ valid_ (hm_grid m) = false) \/ shows_live m [])) as (Hsh & Hrm & Hgm & Hcase).
  { unfold m. unfold HeatMap.configure in *. destruct (_ && _) eqn:Eq; cbn [fst snd] in *.
    - apply andb_true_iff in Eq as [Eg El]. apply Z.eqb_eq in El.
      assert (cell_count g = cell_count (hm_grid (dh_map d))) as Ecc.
      { unfold same_geometry in Eg. rewrite !andb_true_iff, !Z.eqb_eq in Eg. destruct Eg as [[_ Hcols] Hrows].
        unfold cell_count. by rewrite Hcols, Hrows. }
      split; [unfold shaped; lia|]. split; [done|]. split; [tauto|]. left. split; [done|].
      destruct (valid_ (hm_grid (dh_map d))); [by specialize (Hf eq_refl)|done].
    - split; [|split; [done|]; split; [by right|right; apply fresh_shows]].
      unfold shaped. cbn. rewrite length_replicate. apply Z2Nat.id. destruct Hg' as (c & r & Hc' & Hr' & ->).
      pose proof (configure_ok kBase (kBase + kSpan) c r ltac:(by vm_compute) ltac:(by vm_compute) Hc' Hr') as Hok.
      rewrite cell_count_exact by done. destruct (go_dims _ Hok). nia. }
  clearbody m. destruct (replay_shape (dh_now_ms d) (dh_live d) m) as (E1 & E2 & E3).
  split; cbn [dh_grid dh_map dh_live]; try done.
  - split; [by rewrite E1|]. destruct Hgm as [->|Hgm].
    + left. clear. induction (dh_live d) as [|c l IH]; [done|]. cbn [foldl]. by rewrite unmapped_add.
    + right. unfold shaped. by rewrite E2, E3.
  - destruct Hcase as [[-> Hv]|Hm0].
    + assert (forall l, foldl (add_live (dh_now_ms d)) (dh_map d) l = dh_map d) as ->; [|done].
      induction l as [|c l IH]; [done|]. cbn [foldl]. by rewrite unmapped_add by by apply invalid_cell.
    + pose proof (replay_shows (dh_now_ms d) (dh_live d) m [] Hm0) as H. rewrite app_nil_r in H. by apply H.
Qed.

Lemma free_shape h a s u now : hm_regions (on_free h a s u now) = hm_regions h /\ hm_grid (on_free h a s u now) = hm_grid h /\
  length (hm_cells (on_free h a s u now)) = length (hm_cells h).
Proof. unfold on_free. destruct (cell_for h a); [|done]. destruct (0 <? _); cbn; by rewrite length_insert. Qed.

Lemma churn_one_ok d : demo_ok d -> demo_ok (churn_one d).
Proof.
  intros [Hg [Hr Hm] Hc Hn Hs]. unfold churn_one.
  destruct (if (length (dh_live d) =? 0)%nat then _ else _) as [rng freeing] eqn:Ef.
  assert (forall m, hm_regions m = hm_regions (dh_map d) -> hm_grid m = hm_grid (dh_map d) ->
    length (hm_cells m) = length (hm_cells (dh_map d)) -> (dh_map d = new_heatmap -> m = new_heatmap) ->
    hm_regions m = None /\ (m = new_heatmap \/ over_span (hm_grid m) /\ shaped m)) as Hmap.
  { intros m E1 E2 E3 E4. split; [congruence|]. destruct Hm as [Hm|[H1 H2]]; [left; auto|right]. unfold shaped in *. by rewrite E2, E3. }
  destruct freeing.
  - destruct (next rng) as [rng' v] eqn:Ev. set (k := Z.to_nat _). assert (length (dh_live d) <> O) as Hne.
    { destruct (dh_live d); [|done]. cbn in Ef. congruence. }
    assert (k < length (dh_live d))%nat as Hk.
    { pose proof (Z.mod_pos_bound v (Z.of_nat (length (dh_live d))) ltac:(lia)). unfold k. lia. }
    clearbody k. destruct (lookup_lt_is_Some_2 _ _ Hk) as [c Ec]. rewrite (list_lookup_total_correct _ _ _ Ec).
    pose proof (swap_remove_perm _ _ _ Ec) as Hp.
    assert (Forall chunk_ok (c :: swap_remove (dh_live d) k)) as Hc' by by rewrite <- Hp.
    assert (length (c :: swap_remove (dh_live d) k) <= kMaxLive)%nat as Hn' by by rewrite <- Hp.
    destruct (free_shape (dh_map d) (lv_addr c) (lv_size c) (lv_usable c) (dh_now_ms d)) as (E1 & E2 & E3).
    split; cbn [dh_grid dh_map dh_live]; try done.
    + apply Hmap; try done. by intros ->.
    + by apply Forall_inv_tail in Hc'.
    + cbn [length] in Hn'. lia.
    + apply free_shows; [by apply (shows_perm _ _ _ Hp)|done|done].
  - destruct (next rng) as [rng1 v] eqn:Ev. cbv zeta. set (size := u32 (32 + v mod 2000)). set (usable := Z.land (size ⊞₃₂ 31) _).
    destruct (next rng1) as [rng2 w] eqn:Ew. set (c := mkLive _ size usable).
    assert (chunk_ok c) as Hcc.
    { apply made_ok; [by pose proof (next_range rng) as [_ H]; rewrite Ev in H|by pose proof (next_range rng1) as [_ H]; rewrite Ew in H]. }
    assert (length (dh_live d) < kMaxLive)%nat as Hlt.
    { destruct (Nat.eqb_spec (length (dh_live d)) 0) as [->|Hz]; [unfold kMaxLive; lia|].
      destruct (Nat.leb_spec kMaxLive (length (dh_live d))); [congruence|done]. }
    clearbody c. destruct (add_shape (dh_now_ms d) (dh_map d) c) as (E1 & E2 & E3).
    split; cbn [dh_grid dh_map dh_live]; try done.
    + apply Hmap; try done. by intros ->.
    + apply Forall_app. split; [done|]. by constructor.
    + rewrite length_app. cbn [length]. lia.
    + apply (shows_perm _ (c :: dh_live d)); [solve_Permutation|]. apply alloc_shows; [done|by constructor|cbn [length]; lia].
Qed.

Lemma demo_step_ok d op : demo_ok d -> refits d op -> demo_ok (demo_step d op).
Proof.
  destruct op as [area hb|now n]; cbn [demo_step]; [apply fit_ok|]. intros Hd _. unfold churn. cbn [fst].
  assert (demo_ok (mkDemo (dh_grid d) (dh_map d) (dh_live d) (dh_rng d) now)) as H by by destruct Hd; split.
  revert H. generalize (mkDemo (dh_grid d) (dh_map d) (dh_live d) (dh_rng d) now). clear.
  induction n as [|n IH]; intros d H; [done|]. cbn [churn_loop]. apply IH. by apply churn_one_ok.
Qed.

Lemma all_mapped d : demo_ok d -> valid_ (hm_grid (dh_map d)) = true -> Forall (fun c => mapped (dh_map d) c = true) (dh_live d).
Proof.
  intros [_ [Hr Hm] Hc _ _] Hv. destruct Hm as [Hm|[(c & r & Hc' & Hr' & Eg) Hsh]]; [by rewrite Hm in Hv|].
  rewrite Eg in Hv. pose proof (configure_ok kBase (kBase + kSpan) c r ltac:(by vm_compute) ltac:(by vm_compute) Hc' Hr') as Hok.
  destruct (covers_whole_span_spec kBase (kBase + kSpan) c r ltac:(by vm_compute) ltac:(by vm_compute) Hc' Hr' Hv) as (_ & Hcov & Hall & _).
  eapply Forall_impl; [exact Hc|]. intros x (H1 & H2 & _ & [H3 H4] & _). unfold mapped.
  destruct (Hcov) with (addr := lv_addr x) as [i Hi].
  { apply Hall. destruct (go_valid _ Hok Hv) as (_ & Hc0 & Hr0). revert Hc0 Hr0.
    generalize (cols_ (Grid.configure kBase (kBase + kSpan) c r).1), (rows_ (Grid.configure kBase (kBase + kSpan) c r).1).
    clear. intros a b Ha Hb. replace (kBase + kSpan - kBase) with 4194304 by (by vm_compute).
    change (2 ^ 30) with 1073741824. nia. }
  { lia. }
  destruct (cell_for_shaped (dh_map d) (lv_addr x) i Hsh) as [-> _]; [|by apply index_of_nonneg in Hi|done].
  unfold cell_index, coordinate_of. by rewrite Hr, Eg.
Qed.

Lemma sum_all (p : Live -> bool) l : Forall (fun c => p c = true) l -> sum_if p one l = Z.of_nat (length l).
Proof.
  induction 1 as [|c l Hc _ IH]; [done|]. rewrite sum_if_cons, Hc, IH. change (one c) with 1. cbn [length]. lia.
Qed.

Inductive demo_run : DemoHeap -> Prop :=
  | run_new : demo_run new_demo
  | run_op d op : demo_run d -> refits d op -> demo_run (demo_step d op).

(** The demonstration shows what it holds.  However it is churned and
    resized, the synthetic heap never outgrows the room it reserved, its chunks
    are aligned and lie inside its span, every cell of the map counts exactly
    the chunks, bytes and overhead of the live ones in it, and when there is a
    map at all every live chunk is on it. *)
Theorem demo_shows_heap d : demo_run d ->
  (live_count d <= kMaxLive)%nat /\ Forall chunk_ok (dh_live d) /\ shows_live (dh_map d) (dh_live d) /\
  (valid_ (hm_grid (dh_map d)) = true -> hm_total_live (dh_map d) = Z.of_nat (live_count d)).
Proof.
  intros Hrun. assert (demo_ok d) as Hd by (induction Hrun; [apply new_demo_ok|by apply demo_step_ok]).
  pose proof Hd as [_ _ Hc Hn Hs]. split; [done|]. split; [done|]. split; [done|]. intros Hv.
  rewrite (sl_live _ _ Hs). pose proof (all_mapped d Hd Hv) as Hm. unfold live_count.
  by apply sum_all.
Qed.

Lemma demo_shows_heap_witness :
  let d := demo_step (demo_step (demo_step new_demo (Churn 0 40)) (Fit (mkRect 3 19 74 20) true)) (Churn 120 30) in
  (live_count d <= kMaxLive)%nat /\ Forall chunk_ok (dh_live d) /\ shows_live (dh_map d) (dh_live d) /\
  (valid_ (hm_grid (dh_map d)) = true -> hm_total_live (dh_map d) = Z.of_nat (live_count d)).
Proof.
  intros d. apply demo_shows_heap. unfold d. apply run_op; [|exact I]. apply run_op; [|split; [by split|by vm_compute]].
  apply run_op; [apply run_new|exact I].
Defined.

(** The run of the witness has a map, and chunks on it. *)
Example demo_not_empty :
  let d := demo_step (demo_step (demo_step new_demo (Churn 0 40)) (Fit (mkRect 3 19 74 20) true)) (Churn 120 30) in
  valid_ (hm_grid (dh_map d)) = true /\ (0 < live_count d)%nat.
Proof. vm_compute. split; [done|lia]. Qed.
