(* ===== verification/TermCheck.v ===== *)
(** * The hand-check of the terminal (src/src/tui/main.cpp: TermCheckApp)

    An application of the event loop that draws a test frame: colour sweep,
    density ramp, key log, aging ramps, timing overlay and the map of a
    synthetic heap. *)

From Stdlib Require Import String.
From S2P Require Import Prelude Grid HeatMap Cursor Framebuffer Capabilities Theme HeatColor MapView.
From S2P Require Import EventLoop Printf DemoHeap.

Definition kInk : Z := 0x00D8D8D8.
Definition kMuted : Z := 0x00707880.
Definition kPanel : Z := 0x00101418.
Definition kAccent : Z := 0x0058C7F3.
Definition kWarn : Z := 0x00F3B158.

(** [tc_quit]: [request_quit] was called. *)
Record TermCheckApp := mkTermCheck {
  tc_caps : Capabilities;
  tc_glyphs : GlyphSet;
  tc_view : MapView;
  tc_cursor : Z;
  tc_heap : DemoHeap;
  tc_keys : list Z;
  tc_start_ns : Z;
  tc_now_ms : Z;
  tc_animate : bool;
  tc_animations : bool;
  tc_timing : bool;
  tc_quit : bool
}.

Definition new_term_check (timing : bool) (caps : Capabilities) (theme : Theme) (animations : bool) : TermCheckApp :=
  mkTermCheck caps (glyphs_for caps)
    (set_half_block (set_animations (new_view caps (heat_palette theme) kDefaultTimings) animations) (caps_unicode caps))
    0 (seed new_demo 600) [] 0 0 false animations timing false.

Definition with_heap (a : TermCheckApp) (heap : DemoHeap) (cursor : Z) : TermCheckApp :=
  mkTermCheck (tc_caps a) (tc_glyphs a) (tc_view a) cursor heap (tc_keys a) (tc_start_ns a) (tc_now_ms a)
    (tc_animate a) (tc_animations a) (tc_timing a) (tc_quit a).
Definition with_keys (a : TermCheckApp) (keys : list Z) : TermCheckApp :=
  mkTermCheck (tc_caps a) (tc_glyphs a) (tc_view a) (tc_cursor a) (tc_heap a) keys (tc_start_ns a) (tc_now_ms a)
    (tc_animate a) (tc_animations a) (tc_timing a) (tc_quit a).
Definition with_switches (a : TermCheckApp) (animate timing quit : bool) : TermCheckApp :=
  mkTermCheck (tc_caps a) (tc_glyphs a) (tc_view a) (tc_cursor a) (tc_heap a) (tc_keys a) (tc_start_ns a) (tc_now_ms a)
    animate (tc_animations a) timing quit.
Definition with_time (a : TermCheckApp) (start_ns now_ms : Z) (heap : DemoHeap) : TermCheckApp :=
  mkTermCheck (tc_caps a) (tc_glyphs a) (tc_view a) (tc_cursor a) heap (tc_keys a) start_ns now_ms
    (tc_animate a) (tc_animations a) (tc_timing a) (tc_quit a).

(** ** Keys, size and time *)

Definition check_key (a : TermCheckApp) (c : Z) : TermCheckApp * bool :=
  if c =? 113 then (with_switches a (tc_animate a) (tc_timing a) true, false)
  else if (c =? 97) && tc_animations a then (with_switches a (negb (tc_animate a)) (tc_timing a) (tc_quit a), true)
  else if c =? 116 then (with_switches a (tc_animate a) (negb (tc_timing a)) (tc_quit a), true)
  else
    match cursor_move_for_key c with
    | Some m =>
        let '(coord, moved) := move (tc_cursor a) (dh_map (tc_heap a)) m in (with_heap a (tc_heap a) coord, moved)
    | None =>
        if (32 <=? c) && (c <? 127) && (List.length (tc_keys a) <? 32)%nat
        then (with_keys a (tc_keys a ++ [c]), true) else (a, true)
    end.

Definition kTop : Z := 19.
Definition map_area (w h : Z) : Rect := mkRect 3 kTop (w - 6) (h - 3 - kTop).

Definition check_resized (a : TermCheckApp) (w h : Z) : TermCheckApp :=
  let heap := fit (tc_heap a) (map_area w h) (caps_unicode (tc_caps a)) in
  with_heap a heap (Cursor.refit (tc_cursor a) (hm_grid (dh_map heap))).1.

Definition check_update (a : TermCheckApp) (now_ns : Z) : TermCheckApp * bool :=
  let start := if tc_start_ns a =? 0 then now_ns else tc_start_ns a in
  let now_ms := u32 ((now_ns ⊟ start) / 1000000) in
  if tc_animate a then
    let '(heap, moved) := churn (tc_heap a) now_ms (Z.to_nat 60) in (with_time a start now_ms heap, moved)
  else (with_time a start now_ms (tc_heap a), false).

Definition check_animating (a : TermCheckApp) : bool :=
  tc_animations a && (tc_animate a || MapView.animating (dh_map (tc_heap a)) (tc_now_ms a)).

(** ** The frame *)

Definition put_text (f : Framebuffer) (x y : Z) (s : list Z) (colour : Z) : Framebuffer :=
  (text f x y s colour kPanel kAttrNone).1.

(** The sweep's colour at column [x]; 32-bit arithmetic. *)
Definition sweep_color (w x : Z) : Z :=
  let t := u32 (Z.quot (x * 255) (if 6 <? w then w - 6 else 1)) in
  Z.lor (Z.lor (u32 (Z.shiftl t 16)) (Z.shiftl 0x80 8)) (255 ⊟₃₂ t).
Definition sweep_step (a : TermCheckApp) (w : Z) (f : Framebuffer) (x : Z) : Framebuffer :=
  put f x 6 (Framebuffer.mkCell (gs_full (tc_glyphs a)) (sweep_color w x) kPanel 0).

(** Up to six cells of one glyph; the column goes on to the next one. *)
Fixpoint ramp_run (n : nat) (w glyph : Z) (fg : Framebuffer * Z) : Framebuffer * Z :=
  match n with
  | O => fg
  | S n =>
      let '(f, gx) := fg in
      if gx <? w - 4 then ramp_run n w glyph (put f gx 7 (Framebuffer.mkCell glyph kAccent kPanel 0), gx + 1) else fg
  end.
Definition draw_density (a : TermCheckApp) (w : Z) (f : Framebuffer) : Framebuffer * Z :=
  let g := tc_glyphs a in
  foldl (fun fg glyph => ramp_run 6 w glyph fg) (f, 3) [gs_full g; gs_dark g; gs_medium g; gs_light g].

Section Draw.
Context `{!ColorMath}.

Definition kLabel : Z := 16.
Definition live_sample : CellAggregate := HeatMap.mkCell 2048 1 0 0 kNoTime.
Definition gone_sample : CellAggregate := HeatMap.mkCell 0 0 0 kNoTime 0.

Definition kDefaultPalette : HeatPalette := heat_palette dark_theme.
Definition aging_step (a : TermCheckApp) (steps : Z) (f : Framebuffer) (x : Z) : Framebuffer :=
  let t := kDefaultTimings in
  let r := mkRamp kDefaultPalette t in
  let cell sample span :=
    Framebuffer.mkCell (gs_full (tc_glyphs a)) (color r sample 4096 (u32 (span * x) / steps)) kPanel 0 in
  let f := put f (kLabel + x) 9 (cell live_sample (malloc_pulse_ms t ⊞₃₂ malloc_fade_ms t)) in
  put f (kLabel + x) 10 (cell gone_sample (free_flash_ms t ⊞₃₂ free_fade_ms t)).

Definition draw_aging_ramps (a : TermCheckApp) (f : Framebuffer) (w : Z) : Framebuffer :=
  let span := w - kLabel - 3 in
  if span <? 8 then f
  else
    let f := put_text f 3 9 (str "malloc  1.0s") kMuted in
    let f := put_text f 3 10 (str "free    2.3s") kMuted in
    foldl (aging_step a span) f (seqZ 0 span).

(** ** The timing overlay *)

Definition count8 (v : Z) : list Z := pad_right 8 (dec v).
Definition timing_line (head : list Z) (t : FrameTiming) : list Z :=
  let f5 v := pad_left 5 (fixed0 (us v)) in
  (snprintf 160 (head ++ str "drain " ++ f5 (tm_drain t) ++ str "us update " ++ f5 (tm_update t) ++ str "us draw " ++
     f5 (tm_draw t) ++ str "us diff " ++ f5 (tm_diff t) ++ str "us write " ++ f5 (tm_write t) ++ str "us  = " ++
     pad_left 6 (fixed0 (us (tm_total t))) ++ str "us")).1.
Definition rate_line (s : LoopStats) : list Z :=
  (snprintf 160 (pad_left 6 (fixed1 (fps_double s)) ++ str " fps   frames " ++ count8 (ls_frames s) ++ str " drawn " ++
     count8 (ls_drawn s) ++ str " skipped " ++ count8 (ls_skipped s) ++ str " repaints " ++ dec (ls_repaints s))).1.
Definition write_line (s : LoopStats) : list Z :=
  (snprintf 160 (str "writes " ++ count8 (ls_writes s) ++ str " bytes " ++ pad_right 10 (dec (ls_bytes_written s)) ++
     str " overruns " ++ dec (ls_overruns s))).1.

Definition draw_timing (f : Framebuffer) (s : LoopStats) : Framebuffer :=
  let f := put_text f 3 15 (rate_line s) kInk in
  let f := put_text f 3 16 (timing_line (str "last  ") (ls_last s)) kMuted in
  let f := put_text f 3 17 (timing_line (str "worst ") (ls_worst s)) kMuted in
  put_text f 3 18 (write_line s) (if negb (ls_overruns s =? 0) then kWarn else kMuted).

Definition caps_line (a : TermCheckApp) : list Z :=
  (snprintf 96 (str "  " ++ color_mode_str (caps_color (tc_caps a)) ++ str ", " ++
     (if caps_unicode (tc_caps a) then str "Unicode" else str "ASCII") ++ str " glyphs")).1.

(** The rows above the ramps. *)
Definition draw_top (a : TermCheckApp) (f : Framebuffer) : Framebuffer :=
  let w := fb_w f in
  let f := box f (mkRect 0 0 w (fb_h f)) (gs_box (tc_glyphs a)) kAccent kPanel kAttrNone in
  let f := (text f 3 0 (str " heapviz terminal check ") kAccent kPanel kAttrBold).1 in
  let f := put_text f 3 2 (str "Raw mode is on: keys arrive unbuffered, unechoed.") kInk in
  let f := put_text f 3 3 (str "ISIG is kept, so Ctrl-C exits the same way q does.") kInk in
  let f := put_text f 3 4 (str "Resize the window: the frame follows without tearing.") kInk in
  let f := foldl (sweep_step a w) f (seqZ 3 (w - 6)) in
  let '(f, gx) := draw_density a w f in
  let f := put_text f gx 7 (caps_line a) kMuted in
  let f := put_text f 3 8 (str "Keys seen: ") kInk in
  (text f 14 8 (tc_keys a) kAccent kPanel kAttrBold).1.

Definition check_draw (a : TermCheckApp) (f : Framebuffer) (s : LoopStats) : Framebuffer :=
  let w := fb_w f in
  let h := fb_h f in
  let f := Framebuffer.clear f (Framebuffer.mkCell 32 kInk kPanel 0) in
  let f := draw_top a f in
  let f := draw_aging_ramps a f w in
  let f := put_text f 3 12 (if tc_animate a then str "a: animation ON  - every frame redraws"
                            else str "a: animation off - idle frames are skipped") (if tc_animate a then kWarn else kMuted) in
  let f := put_text f 3 13 (str "t: toggle the timing overlay") kMuted in
  let f := if tc_timing a then draw_timing f s else f in
  let area := map_area w h in
  let f := draw_map (tc_view a) f area (dh_map (tc_heap a)) (tc_now_ms a) in
  let f := draw_cursor (tc_view a) f area (dh_map (tc_heap a)) (tc_cursor a) in
  put_text f 3 (h - 2) (str "q or Ctrl-C to leave. hjkl/HJKL move the cursor, g/G the ends, n/N the next chunk.") kInk.

#[export] Instance term_check_app : LoopApp TermCheckApp := {|
  la_drain a := (a, 0);
  la_update := check_update;
  la_key := check_key;
  la_animating := check_animating;
  la_take_stats_reset a := (a, false);
  la_resized := check_resized;
  la_draw a f st := (a, check_draw a f st);
  la_quit := tc_quit
|}.
End Draw.
