(* ===== verification/TermCheckProofs.v ===== *)
(** * What the hand-check shows

    Its frames can be shown whatever was typed, however the window was resized
    and whatever the loop measured, so the loop's guarantee holds of it; and two
    slips of the code: the colour sweep overflows at its right end, and a resize
    that leaves the map's geometry alone counts the synthetic heap twice. *)

From Stdlib Require Import String.
From S2P Require Import Prelude Grid HeatMap Cursor Framebuffer Capabilities Renderer RendererProofs Theme HeatColor MapView.
From S2P Require Import EventLoop EventLoopProofs Printf Clean DemoHeap TermCheck.

Section Shows.
Context `{!ColorMath}.

(** What the application keeps: printable keys and the glyphs it began with. *)
Record check_good (a : TermCheckApp) : Prop := {
  cg_keys : plain (tc_keys a);
  cg_glyphs : tc_glyphs a = glyphs_for (tc_caps a);
  cg_view : mv_glyphs (tc_view a) = glyphs_for (tc_caps a)
}.

Lemma new_check_good timing caps theme animations : check_good (new_term_check timing caps theme animations).
Proof. split; [constructor|done|done]. Qed.

Lemma check_keeps : loop_keeps (A := TermCheckApp) check_good.
Proof.
  split; cbn -[check_key check_update check_resized]; try done.
  - intros a now [H1 H2 H3]. unfold check_update. destruct (tc_animate a); [|done]. by destruct (churn _ _ _).
  - intros a c [H1 H2 H3]. unfold check_key. destruct (c =? 113); [done|]. destruct (_ && _); [done|].
    destruct (c =? 116); [done|]. destruct (cursor_move_for_key c) as [m|]; [by destruct (move _ _ _)|].
    destruct (_ && _) eqn:E; [|done]. split; try done. apply plain_app; [done|]. apply plain_cons; [bprop; lia|apply plain_nil].
  - intros a w h [H1 H2 H3]. done.
Qed.

Lemma good_glyphs a : check_good a -> narrow (gs_full (tc_glyphs a)) /\ narrow (gs_dark (tc_glyphs a)) /\
  narrow (gs_medium (tc_glyphs a)) /\ narrow (gs_light (tc_glyphs a)) /\ glyphs_show (tc_view a).
Proof.
  intros [_ Hg Hv]. pose proof (glyphs_for_show (tc_caps a)) as (H1 & H2 & H3 & H4 & H5). rewrite Hg.
  split_and!; try done. by split; rewrite Hv.
Qed.

Lemma well_line f g x y s colour : drawn_well f g -> plain s -> drawn_well f (put_text g x y s colour).
Proof. intros Hg Hs. by apply well_text. Qed.

Lemma well_ramp f n w gl : narrow gl -> forall fg, drawn_well f fg.1 -> drawn_well f (ramp_run n w gl fg).1.
Proof.
  intros Hl. induction n as [|n IH]; intros [g gx] Hg; [done|]. cbn [ramp_run]. destruct (_ <? _); [|done].
  apply IH. apply well_put; [done|by apply glyph_shows].
Qed.

Lemma well_top a f g : check_good a -> drawn_well f g -> drawn_well f (draw_top a g).
Proof.
  intros Ha Hg. destruct (good_glyphs a Ha) as (H1 & H2 & H3 & H4 & _). unfold draw_top. cbv zeta.
  set (g1 := foldl (sweep_step a _) _ _). assert (drawn_well f g1) as Hg1.
  { apply well_foldl; [intros; apply well_put; [done|by apply glyph_shows]|]. repeat (apply well_line; [|plain]). apply well_text; [|plain|by vm_compute].
    by apply well_box. }
  clearbody g1. assert (drawn_well f (draw_density a (fb_w g) g1).1) as Hd.
  { unfold draw_density. cbn [foldl]. by repeat (apply well_ramp; [done|]). }
  destruct (draw_density a (fb_w g) g1) as [g2 gx]. cbn [fst] in Hd. apply well_text; [|apply Ha|by vm_compute].
  apply well_line; [|plain]. apply well_line; [done|]. unfold caps_line, color_mode_str. plain.
Qed.

Lemma well_aging a f g w : check_good a -> drawn_well f g -> drawn_well f (draw_aging_ramps a g w).
Proof.
  intros Ha Hg. destruct (good_glyphs a Ha) as (H1 & _). unfold draw_aging_ramps. destruct (_ <? 8); [done|].
  apply well_foldl; [intros h x Hh; by do 2 (apply well_put; [|by apply glyph_shows])|]. repeat (apply well_line; [|plain]). done.
Qed.

Lemma well_timing f g s : drawn_well f g -> drawn_well f (draw_timing g s).
Proof.
  intros Hg. unfold draw_timing. repeat (apply well_line; [|unfold write_line, timing_line, rate_line, count8; plain]). done.
Qed.

Lemma check_draws_well : draws_well (A := TermCheckApp) check_good.
Proof.
  intros a f st Ha Hf. cbn -[check_draw]. assert (drawn_well f (check_draw a f st)) as Hw;
    [|split; [by destruct Hw|intros x y Hg; destruct (well_shows f _ Hw x y Hg); split; [by apply one_column_printable|done]]].
  destruct (good_glyphs a Ha) as (_ & _ & _ & _ & Hv). unfold check_draw. cbv zeta.
  pose proof (well_clear f (mkCell 32 kInk kPanel 0) Hf ltac:(apply glyph_shows; [narrow|done])) as H0.
  set (g0 := Framebuffer.clear _ _) in *. clearbody g0. apply well_line; [|plain]. apply well_cursor, well_map; [done|].
  set (g1 := put_text _ 3 13 _ _). assert (drawn_well f g1) as H1.
  { apply well_line; [|plain]. apply well_line; [|plain]. by apply well_aging, well_top. }
  clearbody g1. destruct (tc_timing a); [by apply well_timing|done].
Qed.

Context (wrap : Z -> Z * Z) (reflow : Term -> Z -> Z -> Z -> Z -> TCell) (t0 : Term).
Context (Hterm : t_parse t0 = Ground).

(** The hand-check shows what it draws.  Whatever was typed, however the
    window was resized, whatever the loop measured and the overlay printed, and
    whatever the colour arithmetic answers: when [--term-check] ends its loop
    other than by a failed write, the terminal shows its last frame cell for
    cell, and the frame holds no control character. *)
Theorem term_check_shows cfg timing caps theme animations frs s e :
  run (new_loop cfg) (new_term_check timing caps theme animations) frs = (s, Some e) -> e <> WriteFailed ->
  (rn_trace s = [] \/ current wrap reflow t0 s) /\ plain (tc_keys (rn_app s)).
Proof.
  intros Hrun He. pose proof (new_check_good timing caps theme animations) as Ha. split.
  - exact (run_current _ check_keeps check_draws_well wrap reflow t0 Hterm cfg _ frs s e Ha Hrun He).
  - pose proof (run_keeps _ check_keeps (new_loop cfg) _ frs Ha) as Hk. rewrite Hrun in Hk. apply Hk.
Qed.
End Shows.

(** ** Two slips *)

(** The sweep's position is scaled by the width of the sweep but counted from
    the edge of the screen: at its right end it passes 255, the red channel
    wraps into the byte above and the blue one below zero. *)
Lemma sweep_overflows w : 21 <= w <= 516 ->
  255 < u32 (Z.quot ((w - 4) * 255) (w - 6)) /\ In (w - 4) (seqZ 3 (w - 6)).
Proof.
  intros Hw. rewrite Z.quot_div_nonneg by lia. split.
  - assert (256 <= ((w - 4) * 255) / (w - 6) < 2 ^ 31) as H.
    { split; [apply Z.div_le_lower_bound; lia|]. change (2 ^ 31) with 2147483648.
      apply Z.div_lt_upper_bound; nia. }
    generalize dependent ((w - 4) * 255 / (w - 6)). intros v Hv. rewrite u32_small; unfold is_u32; lia.
  - apply list_elem_of_In, elem_of_seqZ. lia.
Qed.

Example sweep_overflows_80 : sweep_color 80 76 = 0xFFFFFFFA.
Proof. by vm_compute. Qed.

(** A terminal of twenty-four rows leaves two rows for the map, the legend and
    one of cells; one row less leaves the cells alone.  The geometry is the same,
    the map is not cleared, and the heap is replayed into it again. *)
Definition check_24 : TermCheckApp := check_resized (new_term_check false (mkCaps TrueColor true) dark_theme true) 80 24.
Definition check_23 : TermCheckApp := check_resized check_24 80 23.
Lemma replayed_twice :
  hm_total_live (dh_map (tc_heap check_24)) = Z.of_nat (live_count (tc_heap check_24)) /\
  live_count (tc_heap check_23) = live_count (tc_heap check_24) /\ (0 < live_count (tc_heap check_24))%nat /\
  hm_total_live (dh_map (tc_heap check_23)) = 2 * Z.of_nat (live_count (tc_heap check_23)).
Proof. vm_compute. split_and!; try done. lia. Qed.

(** ** The hand-check at work *)

Definition check_frames : list Frame :=
  [ mkFrame false false (Some (30, 24)) (demo_clock 100) [Wrote 100000] [key_turn 200 116; key_turn 250 120; idle_turn 20000000];
    mkFrame false true (Some (31, 25)) (demo_clock 20000000) [WroteErr EINTR; Wrote 100000] [idle_turn 40000000];
    mkFrame false false None (demo_clock 40000000) [Wrote 100000] [key_turn 40000001 113] ].
Definition check_loop : EventLoop := new_loop default_config.

Lemma check_quits : exists s,
  run check_loop (new_term_check false (mkCaps TrueColor true) dark_theme true) check_frames = (s, Some Quit) /\ rn_trace s <> [].
Proof.
  assert ((run check_loop (new_term_check false (mkCaps TrueColor true) dark_theme true) check_frames).2 = Some Quit) as E by (by vm_compute).
  assert (length (rn_trace (run check_loop (new_term_check false (mkCaps TrueColor true) dark_theme true) check_frames).1) = 5%nat) as Ht by (by vm_compute).
  destruct (run _ _ check_frames) as [s e]. cbn [fst snd] in *. subst e. exists s. split; [done|]. intros E. by rewrite E in Ht.
Qed.

Lemma term_check_shows_witness : exists s,
  run check_loop (new_term_check false (mkCaps TrueColor true) dark_theme true) check_frames = (s, Some Quit) /\
  current (fun y => (0, y)) (fun t _ _ => t_screen t) demo_term s.
Proof.
  destruct check_quits as (s & E & Hne). exists s. split; [exact E|].
  destruct (term_check_shows (fun y => (0, y)) (fun t _ _ => t_screen t) demo_term eq_refl default_config false
    (mkCaps TrueColor true) dark_theme true check_frames s Quit E ltac:(discriminate)) as [[H|H] _]; [destruct (Hne H)|exact H].
Defined.
