(* ===== verification/Terminal.v ===== *)
(** * The terminal's state (src/src/tui/terminal.h, terminal.cpp)

    The guard that puts the terminal into raw mode and on the alternate screen,
    and the one path that puts it back.  The guard's code is kept as the sequence
    of its accesses and system calls ([Instr]), because a signal may arrive
    between any two of them: a process is a stack of such sequences, the bottom
    one the program, the ones above it the calls and the handlers that
    interrupted it.  The terminal itself is its attributes and a reader of the
    bytes written to it that follows the modes the guard sets.  There is one
    descriptor, so [g_fd] is left out. *)

From Stdlib Require Import String.
From S2P Require Import Prelude.

(** ** Attributes *)

Record Termios := mkTermios { c_iflag : Z; c_oflag : Z; c_cflag : Z; c_lflag : Z; c_cc : list Z }.
Definition BRKINT : Z := 0x2.
Definition INPCK : Z := 0x10.
Definition ISTRIP : Z := 0x20.
Definition INLCR : Z := 0x40.
Definition IGNCR : Z := 0x80.
Definition ICRNL : Z := 0x100.
Definition IXON : Z := 0x400.
Definition OPOST : Z := 0x1.
Definition ISIG : Z := 0x1.
Definition ICANON : Z := 0x2.
Definition ECHO : Z := 0x8.
Definition IEXTEN : Z := 0x8000.
Definition VTIME : nat := 5.
Definition VMIN : nat := 6.

Definition clear_flags (word flags : Z) : Z := Z.land word (u32 (Z.lnot flags)).
Definition raw_of (t : Termios) : Termios :=
  mkTermios
    (clear_flags (c_iflag t) (Z.lor IXON (Z.lor ICRNL (Z.lor INLCR (Z.lor IGNCR (Z.lor ISTRIP (Z.lor INPCK BRKINT)))))))
    (clear_flags (c_oflag t) OPOST) (c_cflag t)
    (clear_flags (c_lflag t) (Z.lor ICANON (Z.lor ECHO IEXTEN)))
    (<[VTIME := 0]> (<[VMIN := 0]> (c_cc t))).

(** ** What the bytes do *)

Definition ESC : Z := 0x1b.
Definition kEnter : list Z := (ESC :: str "[?1049h") ++ (ESC :: str "[?25l") ++ (ESC :: str "[2J") ++ (ESC :: str "[H").
Definition kRestore : list Z := (ESC :: str "[0m") ++ (ESC :: str "[?25h") ++ (ESC :: str "[?1049l").

(** The reader of control sequences; an escape starts one afresh wherever it
    comes. *)
Inductive Reading := Ground | Escaped | Csi (params : list Z).
Record Screen := mkScreen { sc_reading : Reading; sc_alt : bool; sc_cursor : bool; sc_plain : bool }.

(** A complete sequence: the modes the guard sets, and the pen. *)
Definition control (s : Screen) (params : list Z) (final : Z) : Screen :=
  if bool_decide (params = str "?1049") && (final =? 104) then mkScreen Ground true (sc_cursor s) (sc_plain s)
  else if bool_decide (params = str "?1049") && (final =? 108) then mkScreen Ground false (sc_cursor s) (sc_plain s)
  else if bool_decide (params = str "?25") && (final =? 104) then mkScreen Ground (sc_alt s) true (sc_plain s)
  else if bool_decide (params = str "?25") && (final =? 108) then mkScreen Ground (sc_alt s) false (sc_plain s)
  else if final =? 109 then mkScreen Ground (sc_alt s) (sc_cursor s) (bool_decide (params = str "0"))
  else mkScreen Ground (sc_alt s) (sc_cursor s) (sc_plain s).
Definition read_byte (s : Screen) (b : Z) : Screen :=
  let goto r := mkScreen r (sc_alt s) (sc_cursor s) (sc_plain s) in
  if b =? ESC then goto Escaped
  else match sc_reading s with
       | Ground => s
       | Escaped => goto (if b =? 91 then Csi [] else Ground)
       | Csi ps => if (0x40 <=? b) && (b <=? 0x7e) then control s ps b else goto (Csi (ps ++ [b]))
       end.
Definition read_bytes (s : Screen) (l : list Z) : Screen := foldl read_byte s l.

(** The terminal: attributes and screen. *)
Record Device := mkDevice { dv_attr : Termios; dv_screen : Screen }.

(** ** The guard's code *)

Inductive TermStatus := TsOk | TsNotATty | TsTcGetAttrFailed | TsTcSetAttrFailed | TsAlreadyActive.
#[export] Instance TermStatus_eq_dec : EqDecision TermStatus.
Proof. solve_decision. Defined.
Definition term_status_str (s : TermStatus) : list Z :=
  match s with
  | TsOk => str "ok"
  | TsNotATty => str "stdout is not a terminal"
  | TsTcGetAttrFailed => str "could not read terminal attributes"
  | TsTcSetAttrFailed => str "could not set terminal attributes"
  | TsAlreadyActive => str "terminal already in raw mode"
  end.

(** [SigOther] stands for every signal the program installs nothing for and whose
    default is to end it: SIGQUIT, SIGKILL and the rest. *)
Inductive Signal := SIGINT | SIGTERM | SIGHUP | SIGWINCH | SIGSEGV | SIGABRT | SIGBUS | SIGFPE | SIGILL | SigOther.
#[export] Instance Signal_eq_dec : EqDecision Signal.
Proof. solve_decision. Defined.
Definition fatal (g : Signal) : bool :=
  match g with SIGSEGV | SIGABRT | SIGBUS | SIGFPE | SIGILL => true | _ => false end.
Definition graceful (g : Signal) : bool := match g with SIGINT | SIGTERM | SIGHUP => true | _ => false end.

Inductive Instr :=
  | ITestActive                      (* enter: one guard at a time *)
  | IIsATty
  | IGetAttr
  | ITestHandlers                    (* install_handlers: once *)
  | IInstall (g : Signal)
  | IAtExit                          (* std::atexit, std::set_terminate *)
  | ISetActive
  | ISetRaw
  | IWrite (l : list Z)              (* raw_write: what is left of it *)
  | IReturn (s : TermStatus)         (* out of enter *)
  | ITestRestore                     (* restore_now: idempotent *)
  | IClearActive
  | ISetSaved
  | ISetQuit
  | ISetWinch
  | IRaise (g : Signal)
  | ICall (f : list Instr)
  | IEntered                         (* the caller's test of what enter returned *)
  | ISession
  | IExit
  | IEnd.

Definition restore_now : list Instr := [ITestRestore; IClearActive; IWrite kRestore; ISetSaved].
Definition install_handlers : list Instr :=
  [ITestHandlers; IInstall SIGINT; IInstall SIGTERM; IInstall SIGHUP; IInstall SIGWINCH;
   IInstall SIGSEGV; IInstall SIGABRT; IInstall SIGBUS; IInstall SIGFPE; IInstall SIGILL; IAtExit].
Definition enter : list Instr :=
  [ITestActive; IIsATty; IGetAttr; ICall install_handlers; ISetActive; ISetRaw; IWrite kEnter; IReturn TsOk].
Definition hv_graceful_handler : list Instr := [ISetQuit].
Definition hv_winch_handler : list Instr := [ISetWinch].
Definition hv_fatal_handler (g : Signal) : list Instr := [ICall restore_now; IRaise g].
(** A signal raised in its own handler waits for the handler to return, which it
    then does at once: [IRaise] of a blocked signal ends the process.
    [std::abort] raises SIGABRT, and again by default if a handler returns. *)
Definition terminate_restore : list Instr := [ICall restore_now; IRaise SIGABRT].
(** The program around the guard: refused, it returns through the guard's
    destructor; otherwise the session, the restore, the destructor, and the
    hook that [exit] runs. *)
Definition refused_code : list Instr := [ICall restore_now; IExit].
Definition main_code : list Instr := [ICall enter; IEntered; ISession; ICall restore_now; ICall restore_now; IExit].

(** ** The process *)

Inductive Fate := Alive | Exited | KilledBy (g : Signal).
#[export] Instance Fate_eq_dec : EqDecision Fate.
Proof. solve_decision. Defined.
(** A running sequence, and the signal whose handler it is. *)
Record Activation := mkAct { at_sig : option Signal; at_code : list Instr }.
Record Proc := mkProc {
  g_saved : Termios;
  g_active : bool;
  g_quit : bool;
  g_winch : bool;
  g_handlers : bool;
  pr_installed : list Signal;        (* the dispositions that are not the default *)
  pr_atexit : bool;
  pr_status : TermStatus;            (* what enter returned last *)
  pr_stack : list Activation;        (* the running one first *)
  pr_device : Device;
  pr_fate : Fate
}.

(** What happens next: the running code goes on, a system call answering
    [fails] or having written [n] bytes; the session writes, ends, throws or
    calls [exit]; or a signal is delivered. *)
Inductive Label :=
  | LStep (fails : bool) (n : nat)
  | LDraw (l : list Z)
  | LLeave
  | LThrow
  | LExitCall
  | LSignal (g : Signal).

Definition with_stack (p : Proc) (k : list Activation) : Proc :=
  mkProc (g_saved p) (g_active p) (g_quit p) (g_winch p) (g_handlers p) (pr_installed p) (pr_atexit p) (pr_status p) k
    (pr_device p) (pr_fate p).
Definition with_active (p : Proc) (b : bool) : Proc :=
  mkProc (g_saved p) b (g_quit p) (g_winch p) (g_handlers p) (pr_installed p) (pr_atexit p) (pr_status p) (pr_stack p)
    (pr_device p) (pr_fate p).
Definition with_saved (p : Proc) (t : Termios) : Proc :=
  mkProc t (g_active p) (g_quit p) (g_winch p) (g_handlers p) (pr_installed p) (pr_atexit p) (pr_status p) (pr_stack p)
    (pr_device p) (pr_fate p).
Definition with_flags (p : Proc) (quit winch : bool) : Proc :=
  mkProc (g_saved p) (g_active p) quit winch (g_handlers p) (pr_installed p) (pr_atexit p) (pr_status p) (pr_stack p)
    (pr_device p) (pr_fate p).
Definition with_handlers (p : Proc) (once : bool) (l : list Signal) (hook : bool) : Proc :=
  mkProc (g_saved p) (g_active p) (g_quit p) (g_winch p) once l hook (pr_status p) (pr_stack p) (pr_device p) (pr_fate p).
Definition with_status (p : Proc) (s : TermStatus) : Proc :=
  mkProc (g_saved p) (g_active p) (g_quit p) (g_winch p) (g_handlers p) (pr_installed p) (pr_atexit p) s (pr_stack p)
    (pr_device p) (pr_fate p).
Definition with_device (p : Proc) (d : Device) : Proc :=
  mkProc (g_saved p) (g_active p) (g_quit p) (g_winch p) (g_handlers p) (pr_installed p) (pr_atexit p) (pr_status p)
    (pr_stack p) d (pr_fate p).
Definition with_fate (p : Proc) (f : Fate) : Proc :=
  mkProc (g_saved p) (g_active p) (g_quit p) (g_winch p) (g_handlers p) (pr_installed p) (pr_atexit p) (pr_status p)
    (pr_stack p) (pr_device p) f.
Definition write_device (p : Proc) (l : list Z) : Proc :=
  with_device p (mkDevice (dv_attr (pr_device p)) (read_bytes (dv_screen (pr_device p)) l)).
Definition set_attr (p : Proc) (t : Termios) : Proc := with_device p (mkDevice t (dv_screen (pr_device p))).

Definition blocked (p : Proc) (g : Signal) : bool := existsb (fun a => bool_decide (at_sig a = Some g)) (pr_stack p).

(** A signal that is not blocked: its handler runs on top, once when the
    disposition was SA_RESETHAND, or its default is taken. *)
Definition deliver (p : Proc) (g : Signal) : Proc :=
  if bool_decide (g ∈ pr_installed p) then
    if graceful g then with_stack p (mkAct (Some g) hv_graceful_handler :: pr_stack p)
    else if bool_decide (g = SIGWINCH) then with_stack p (mkAct (Some g) hv_winch_handler :: pr_stack p)
    else with_handlers (with_stack p (mkAct (Some g) (hv_fatal_handler g) :: pr_stack p)) (g_handlers p)
           (List.filter (fun h => negb (bool_decide (h = g))) (pr_installed p)) (pr_atexit p)
  else if bool_decide (g = SIGWINCH) then p else with_fate p (KilledBy g).

(** One instruction of the running sequence, whose rest is [code]; [sig] and
    [below] are its activation's signal and the stack under it. *)
Definition exec (p : Proc) (i : Instr) (sig : option Signal) (code : list Instr) (below : list Activation) (fails : bool) (n : nat)
    : option Proc :=
  let next p := Some (with_stack p (mkAct sig code :: below)) in
  let return_ p := Some (with_stack p below) in
  let refuse p s := Some (with_status (with_stack p below) s) in
  match i with
  | ITestActive => if g_active p then refuse p TsAlreadyActive else next p
  | IIsATty => if fails then refuse p TsNotATty else next p
  | IGetAttr => if fails then refuse p TsTcGetAttrFailed else next (with_saved p (dv_attr (pr_device p)))
  | ITestHandlers => if g_handlers p then return_ p else next (with_handlers p true (pr_installed p) (pr_atexit p))
  | IInstall g => next (with_handlers p (g_handlers p) (g :: pr_installed p) (pr_atexit p))
  | IAtExit => next (with_handlers p (g_handlers p) (pr_installed p) true)
  | ISetActive => next (with_active p true)
  | ISetRaw =>
      if fails then Some (with_stack p (mkAct sig [IClearActive; IReturn TsTcSetAttrFailed] :: below))
      else next (set_attr p (raw_of (g_saved p)))
  | IWrite [] => next p
  | IWrite (b :: l) =>
      if fails then next p
      else Some (with_stack (write_device p (take n (b :: l))) (mkAct sig (IWrite (drop n (b :: l)) :: code) :: below))
  | IReturn s => refuse p s
  | ITestRestore => if g_active p then next p else return_ p
  | IClearActive => next (with_active p false)
  | ISetSaved => next (if fails then p else set_attr p (g_saved p))
  | ISetQuit => next (with_flags p true (g_winch p))
  | ISetWinch => next (with_flags p (g_quit p) true)
  | IRaise g =>
      if bool_decide (g ∈ pr_installed p) && negb (blocked p g)
      then Some (deliver (with_stack p (mkAct sig (IRaise g :: code) :: below)) g)
      else Some (with_fate p (KilledBy g))
  | ICall f => Some (with_stack p (mkAct None f :: mkAct sig code :: below))
  | IEntered => Some (with_stack p (mkAct sig (if decide (pr_status p = TsOk) then code else refused_code) :: below))
  | ISession => None
  | IExit => Some (with_stack p (mkAct sig ((if pr_atexit p then [ICall restore_now] else []) ++ [IEnd]) :: below))
  | IEnd => Some (with_fate p Exited)
  end.

Definition tstep (lb : Label) (p : Proc) : option Proc :=
  match pr_fate p with
  | Alive =>
      match lb, pr_stack p with
      | LSignal g, _ => if blocked p g then None else Some (deliver p g)
      | LStep fails n, mkAct sig (i :: code) :: below => exec p i sig code below fails n
      | LStep _ _, mkAct _ [] :: below => Some (with_stack p below)
      | LDraw l, mkAct _ (ISession :: _) :: _ => Some (write_device p l)
      | LLeave, mkAct sig (ISession :: code) :: below => Some (with_stack p (mkAct sig code :: below))
      | LThrow, mkAct sig (ISession :: _) :: below => Some (with_stack p (mkAct sig terminate_restore :: below))
      | LExitCall, mkAct sig (ISession :: _) :: below => Some (with_stack p (mkAct sig [IExit] :: below))
      | _, _ => None
      end
  | _ => None
  end.

Fixpoint trun (ls : list Label) (p : Proc) : option Proc :=
  match ls with [] => Some p | lb :: ls => p ← tstep lb p; trun ls p end.

(** The program at its start, before a terminal. *)
Definition start (attr : Termios) (saved : Termios) : Proc :=
  mkProc saved false false false false [] false TsOk [mkAct None main_code]
    (mkDevice attr (mkScreen Ground false true true)) Alive.

(** ** The flags the loop reads *)
Definition quit_requested (p : Proc) : bool := g_quit p.
Definition request_quit (p : Proc) : Proc := with_flags p true (g_winch p).
Definition take_resize_request (p : Proc) : Proc * bool := (with_flags p (g_quit p) false, g_winch p).
Definition request_resize (p : Proc) : Proc := with_flags p (g_quit p) true.
Definition guard_active (p : Proc) : bool := g_active p.
