(* ===== verification/TerminalProofs.v ===== *)
(** * The terminal is given back

    Whatever interrupts the program, wherever it does: the invariant gives every
    sequence on the stack the phase it runs in, and what lies under a crash
    handler is never run again. *)

From S2P Require Import Prelude Terminal.

Section Given.
Context (attr : Termios).

Definition normal (s : Screen) : Prop := sc_alt s = false /\ sc_cursor s = true /\ sc_plain s = true.
(** As the user left it. *)
Definition clean (d : Device) : Prop := dv_attr d = attr /\ normal (dv_screen d).

(** The restore puts the screen right wherever the output was cut off. *)
Lemma restore_any s : normal (read_bytes s kRestore).
Proof. destruct s as [[| |ps] a c b]; vm_compute; by split_and!. Qed.

(** ** Phases *)

Inductive Phase := Before | Armed | Raising | Up | Going (l : list Z).

(** Every signal the program answers for has its handler, is a crash already being
    handled, or has its handler yet to be installed. *)
Definition cared (p : Proc) (g : Signal) : Prop := g ∈ pr_installed p \/ (fatal g = true /\ blocked p g = true).
Definition guarded (p : Proc) (ahead : list Instr) : Prop :=
  forall g, fatal g || graceful g = true -> cared p g \/ IInstall g ∈ ahead.

Definition holds (f : Phase) (p : Proc) : Prop :=
  match f with
  | Before => g_active p = false /\ clean (pr_device p)
  | Armed => g_active p = false /\ clean (pr_device p) /\ g_saved p = attr
  | Raising => g_active p = true /\ clean (pr_device p) /\ g_saved p = attr /\ guarded p [] /\ pr_atexit p = true
  | Up => g_active p = true /\ g_saved p = attr /\ guarded p [] /\ pr_atexit p = true
  | Going l => g_active p = false /\ g_saved p = attr /\ normal (read_bytes (dv_screen (pr_device p)) l) /\ guarded p []
  end.

Definition session_code : list Instr := [ISession; ICall restore_now; ICall restore_now; IExit].
Definition after_active : list Instr := [ISetActive; ISetRaw; IWrite kEnter; IReturn TsOk].

(** What the program's own sequence may have left, with no call in progress. *)
Inductive main_ok (p : Proc) : Phase -> list Instr -> Prop :=
  | main_start : g_handlers p = false -> main_ok p Before main_code
  | main_entered : pr_status p = TsOk -> main_ok p Up (IEntered :: session_code)
  | main_refused f : pr_status p <> TsOk -> f = Before \/ f = Armed -> main_ok p f (IEntered :: session_code)
  | main_session : main_ok p Up session_code
  | main_closing f n : f = Before \/ f = Up -> main_ok p f (List.repeat (ICall restore_now) (S n) ++ [IExit])
  | main_exit f : f = Before \/ f = Up -> main_ok p f [IExit]
  | main_hook f : f = Before \/ f = Up -> main_ok p f [ICall restore_now; IEnd]
  | main_end : main_ok p Before [IEnd]
  | main_throw f : f = Before \/ f = Up -> main_ok p f terminate_restore
  | main_abort : main_ok p Before [IRaise SIGABRT].

(** Entering, above the caller's test. *)
Inductive enter_ok (p : Proc) : Phase -> list Instr -> Prop :=
  | enter_start : g_handlers p = false -> enter_ok p Before enter
  | enter_tty : g_handlers p = false -> enter_ok p Before (drop 1 enter)
  | enter_attr : g_handlers p = false -> enter_ok p Before (drop 2 enter)
  | enter_install : g_handlers p = false -> enter_ok p Armed (drop 3 enter)
  | enter_active : guarded p [] -> pr_atexit p = true -> enter_ok p Armed after_active
  | enter_raw : enter_ok p Raising (drop 1 after_active)
  | enter_write l : enter_ok p Up [IWrite l; IReturn TsOk]
  | enter_return : enter_ok p Up [IReturn TsOk]
  | enter_failed : enter_ok p Raising [IClearActive; IReturn TsTcSetAttrFailed]
  | enter_fails : enter_ok p Before [IReturn TsTcSetAttrFailed].

Inductive install_ok (p : Proc) : list Instr -> Prop :=
  | install_start : g_handlers p = false -> install_ok p install_handlers
  | install_some n : (1 <= n <= 10)%nat -> guarded p (drop n install_handlers) -> install_ok p (drop n install_handlers)
  | install_done : guarded p [] -> pr_atexit p = true -> install_ok p [].

(** Restoring, on top of what runs afterwards in the phase [Before]. *)
Inductive restore_ok : Phase -> list Instr -> Prop :=
  | restore_test f : (forall l, f <> Going l) -> restore_ok f restore_now
  | restore_clear f : f = Raising \/ f = Up -> restore_ok f (drop 1 restore_now)
  | restore_write l : restore_ok (Going l) [IWrite l; ISetSaved]
  | restore_saved : restore_ok (Going []) [ISetSaved]
  | restore_over : restore_ok Before [].

Definition light (code : list Instr) : Prop := code = [ISetQuit] \/ code = [ISetWinch] \/ code = [].

Inductive stack_ok (p : Proc) : Phase -> list Activation -> Prop :=
  | ok_main f code : main_ok p f code -> stack_ok p f [mkAct None code]
  | ok_enter f code : enter_ok p f code -> stack_ok p f [mkAct None code; mkAct None (IEntered :: session_code)]
  | ok_install code : install_ok p code ->
      stack_ok p Armed [mkAct None code; mkAct None after_active; mkAct None (IEntered :: session_code)]
  | ok_restore f code k : restore_ok f code -> stack_ok p Before k -> stack_ok p f (mkAct None code :: k)
  | ok_light f g code k : fatal g = false -> light code -> stack_ok p f k -> stack_ok p f (mkAct (Some g) code :: k)
  | ok_crash f g k : fatal g = true -> (forall l, f <> Going l) -> stack_ok p f (mkAct (Some g) (hv_fatal_handler g) :: k)
  | ok_raise g k : fatal g = true -> stack_ok p Before (mkAct (Some g) [IRaise g] :: k).

Definition Inv (p : Proc) : Prop :=
  match pr_fate p with
  | Alive => exists f, holds f p /\ stack_ok p f (pr_stack p)
  | _ => clean (pr_device p)
  end.

(** ** What a step must not disturb *)

Definition keeps (p p' : Proc) : Prop :=
  g_handlers p' = g_handlers p /\ pr_status p' = pr_status p /\ pr_atexit p' = pr_atexit p /\
  forall g, cared p g -> cared p' g.

Lemma keeps_guarded p p' ahead : keeps p p' -> guarded p ahead -> guarded p' ahead.
Proof. intros (_ & _ & _ & Hc) Hg g Hf. destruct (Hg g Hf) as [H|H]; [left; by apply Hc|by right]. Qed.

Lemma keeps_stack p p' f k : keeps p p' -> stack_ok p f k -> stack_ok p' f k.
Proof.
  intros Hk. pose proof Hk as (Hh & Hs & Ha & _). induction 1 as [f code H|f code H|code H|f code k H _ IH|f g code k Hf Hl _ IH|f g k Hf Hn|g k Hf].
  - apply ok_main. destruct H; constructor; try done; congruence.
  - apply ok_enter. destruct H; constructor; try congruence. by eapply keeps_guarded.
  - apply ok_install. destruct H; econstructor; try done; try congruence; by eapply keeps_guarded.
  - by apply ok_restore.
  - by apply ok_light.
  - by apply ok_crash.
  - by apply ok_raise.
Qed.

Lemma keeps_holds p p' f : keeps p p' -> g_active p' = g_active p -> g_saved p' = g_saved p -> pr_device p' = pr_device p ->
  holds f p -> holds f p'.
Proof.
  intros Hk Ea Es Ed. pose proof Hk as (_ & _ & Hx & _).
  destruct f; cbn [holds]; rewrite Ea, ?Es, ?Ed; rewrite ?Hx; intuition; by eapply keeps_guarded.
Qed.

(** Replacing the running code, pushing and popping what is not a crash handler. *)
Lemma keeps_swap p a code k : pr_stack p = a :: k -> keeps p (with_stack p (mkAct (at_sig a) code :: k)).
Proof.
  intros E. repeat split; try done. unfold cared, blocked. intros g H. rewrite E in H. by cbn in *.
Qed.
Lemma keeps_push p a : keeps p (with_stack p (a :: pr_stack p)).
Proof. repeat split; try done. unfold cared, blocked. cbn. intros g [H|[H ->]]; [by left|right]. split; [done|]. apply orb_true_r. Qed.
Lemma keeps_pop p a k : pr_stack p = a :: k -> (forall g, at_sig a = Some g -> fatal g = false) -> keeps p (with_stack p k).
Proof.
  intros E Ha. repeat split; try done. unfold cared, blocked. intros g H. rewrite E in H. cbn in *.
  destruct (bool_decide (at_sig a = Some g)) eqn:Eb; [|done]. apply bool_decide_eq_true in Eb. rewrite (Ha g Eb) in *. by destruct H as [H|[H _]]; [left|].
Qed.

(** ** Signals *)

Definition restoring (p : Proc) : bool :=
  existsb (fun a => match at_code a with [IWrite _; ISetSaved] | [ISetSaved] => true | _ => false end) (pr_stack p).

Lemma going_restoring p f k l : stack_ok p f k -> f = Going l ->
  existsb (fun a => match at_code a with [IWrite _; ISetSaved] | [ISetSaved] => true | _ => false end) k = true.
Proof.
  induction 1 as [f code H|f code H|code H|f code k H _ _|f g code k Hf Hl _ IH|f g k Hf Hn|g k Hf]; intros Ef; try discriminate Ef; subst f.
  - inversion H; subst; intuition congruence.
  - inversion H.
  - inversion H as [? Hn|? Hn|?| |]; subst; try done; [by destruct (Hn l)|intuition congruence].
  - cbn. rewrite IH by done. apply orb_true_r.
  - by destruct (Hn l).
Qed.

(** The program is not killed out of hand while it restores, and nobody sends it
    a signal it can do nothing about; the terminal takes what is written. *)
Definition considerate (p : Proc) (lb : Label) : Prop :=
  match lb with
  | LStep fails _ =>
      match pr_stack p with
      | mkAct _ (IWrite _ :: _) :: _ | mkAct _ (ISetSaved :: _) :: _ => fails = false
      | _ => True
      end
  | LSignal SigOther => False
  | LSignal g => fatal g = true -> restoring p = false
  | _ => True
  end.

Lemma deliver_inv p g f : pr_fate p = Alive -> holds f p -> stack_ok p f (pr_stack p) ->
  g <> SigOther -> (fatal g = true -> restoring p = false) -> blocked p g = false -> Inv (deliver p g).
Proof.
  intros Hal Hh Hs Ho Hr Hb. unfold deliver.
  assert (forall c, fatal g = false -> light c -> Inv (with_stack p (mkAct (Some g) c :: pr_stack p))) as Hlight.
  { intros c Hf Hc. unfold Inv. cbn. rewrite Hal. exists f. split; [by eapply keeps_holds; [apply keeps_push|..]|].
    apply ok_light; [done|done|]. by eapply keeps_stack; [apply keeps_push|]. }
  assert (fatal g || graceful g = true -> g ∉ pr_installed p -> (fatal g = true -> forall l, f <> Going l) ->
    Inv (with_fate p (KilledBy g))) as Hkill.
  { intros Hc Hi Hn. unfold Inv. cbn.
    assert (~ guarded p []) as Hg.
    { intros Hg. destruct (Hg g Hc) as [[H|[_ H]]|H]; [done|congruence|]. by apply not_elem_of_nil in H. }
    destruct f; cbn in Hh; try (by apply Hh); destruct Hg; by apply Hh. }
  destruct (fatal g) eqn:Hf.
  - assert (forall l, f <> Going l) as Hn.
    { intros l ->. pose proof (going_restoring _ _ _ l Hs eq_refl) as H. unfold restoring in Hr. rewrite Hr in H; done. }
    case_bool_decide as Hi.
    + assert (graceful g = false /\ bool_decide (g = SIGWINCH) = false) as [-> ->] by by destruct g.
      unfold Inv. cbn. rewrite Hal. exists f. split; [|by apply ok_crash].
      apply (keeps_holds p); try done. repeat split; try done. intros g' [H|[Hf' H]]; unfold cared, blocked; cbn.
      * destruct (decide (g' = g)) as [->|Hg]; [right; split; [done|by rewrite bool_decide_true]|left].
        apply list_elem_of_In, filter_In. split; [by apply list_elem_of_In|]. by rewrite bool_decide_false.
      * right. split; [done|]. unfold blocked in H. rewrite H. apply orb_true_r.
    + assert (bool_decide (g = SIGWINCH) = false) as -> by by destruct g.
      apply Hkill; [done|done|done].
  - case_bool_decide as Hi.
    + destruct (graceful g) eqn:Hgr; [apply Hlight; [done|by left]|].
      assert (g = SIGWINCH) as -> by by destruct g. rewrite bool_decide_true by done. apply Hlight; [done|by right; left].
    + case_bool_decide; [unfold Inv; rewrite Hal; by exists f|]. apply Hkill; [by destruct g|done|done].
Qed.

(** ** One step of the running code *)

(** The same device and flags, another stack. *)
Lemma inv_stack p f k : pr_fate p = Alive -> keeps p (with_stack p k) -> holds f p -> stack_ok p f k -> Inv (with_stack p k).
Proof.
  intros Hal Hk Hh Hs. unfold Inv. cbn. rewrite Hal. exists f. split; [by apply (keeps_holds p)|by apply (keeps_stack p)].
Qed.
Lemma inv_before f p : (f = Before \/ f = Armed) -> holds f p -> holds Before p.
Proof. intros [->| ->]; [done|]. by intros (? & ? & _). Qed.

(** The same stack, another state, with what is called kept. *)
Lemma keeps_top p p' code below : pr_stack p = mkAct None code :: below -> (exists code', pr_stack p' = mkAct None code' :: below \/ pr_stack p' = below) ->
  g_handlers p' = g_handlers p -> pr_status p' = pr_status p -> pr_atexit p' = pr_atexit p -> pr_installed p' = pr_installed p ->
  keeps p p'.
Proof.
  intros E (code' & E') H1 H2 H3 H4. split_and!; try done. unfold cared, blocked. intros g. rewrite H4, E.
  destruct E' as [-> | ->]; cbn; done.
Qed.

Lemma restore_step p f i code k fails n p' : pr_fate p = Alive -> holds f p -> restore_ok f (i :: code) -> stack_ok p Before k ->
  pr_stack p = mkAct None (i :: code) :: k -> considerate p (LStep fails n) ->
  exec p i None code k fails n = Some p' -> Inv p'.
Proof.
  intros Hal Hh Hr Hk E Hc He. unfold considerate in Hc. rewrite E in Hc.
  assert (forall p1 code', pr_stack p1 = mkAct None code' :: k -> g_handlers p1 = g_handlers p -> pr_status p1 = pr_status p ->
    pr_atexit p1 = pr_atexit p -> pr_installed p1 = pr_installed p -> keeps p p1) as Hkeep.
  { intros p1 code' E1 ????. by apply (keeps_top _ _ _ _ E); [exists code'; left|..]. }
  inversion Hr as [? Hn|? Hf|l| |]; subst; cbn [exec] in He.
  - destruct (g_active p) eqn:Ea.
    + injection He as <-. assert (f = Raising \/ f = Up) as Hf by (destruct f; cbn in Hh; try (left; done); try (right; done); intuition congruence).
      apply (inv_stack _ f); [done|by apply (keeps_top _ _ _ _ E); [eexists; by left|..]|done|]. by apply ok_restore; [apply restore_clear|].
    + injection He as <-. apply (inv_stack _ Before); [done|by apply (keeps_top _ _ _ _ E); [exists []; by right|..]| |done].
      destruct f as [| | | |l]; cbn in Hh; try (by destruct (Hn l)); try (exfalso; destruct Hh; congruence); split; try done; by apply Hh.
  - injection He as <-. unfold Inv. cbn. rewrite Hal. exists (Going kRestore).
    assert (keeps p (with_stack (with_active p false) (mkAct None [IWrite kRestore; ISetSaved] :: k))) as Hp by by apply (Hkeep _ [IWrite kRestore; ISetSaved]).
    split; [|by apply ok_restore; [constructor|apply (keeps_stack p)]]. cbn [holds]. cbn. split; [done|].
    split; [by destruct Hf as [->| ->]; apply Hh|]. split; [apply restore_any|].
    apply (keeps_guarded p); [done|]. by destruct Hf as [->| ->]; apply Hh.
  - destruct l as [|b l].
    + injection He as <-. apply (inv_stack _ (Going [])); [done|by apply (Hkeep _ [ISetSaved])|done|]. by apply ok_restore; [constructor|].
    + rewrite Hc in He. injection He as <-. unfold Inv. cbn -[take drop]. rewrite Hal. exists (Going (drop n (b :: l))).
      split; [|apply ok_restore; [constructor|]; eapply keeps_stack; [|exact Hk]; by eapply Hkeep].
      destruct Hh as (H1 & H2 & H3 & H4). cbn -[take drop]. split; [done|]. split; [done|]. split; [|eapply keeps_guarded; [|exact H4]; by eapply Hkeep].
      unfold read_bytes. by rewrite <- foldl_app, take_drop.
  - rewrite Hc in He. injection He as <-. unfold Inv. cbn. rewrite Hal. exists Before.
    split; [|apply ok_restore; [constructor|]; eapply keeps_stack; [|exact Hk]; by eapply Hkeep].
    destruct Hh as (H1 & H2 & H3 & H4). cbn. split; [done|]. by split.
Qed.

Lemma guarded_same p p' ahead : pr_installed p' = pr_installed p -> (forall g, blocked p g = true -> blocked p' g = true) ->
  guarded p ahead -> guarded p' ahead.
Proof.
  intros Ei Hb Hg g Hf. destruct (Hg g Hf) as [[H|[H1 H2]]|H]; [left; left; by rewrite Ei|left; right; auto|by right].
Qed.

Lemma enter_step p f i code fails n p' : pr_fate p = Alive -> holds f p -> enter_ok p f (i :: code) ->
  pr_stack p = [mkAct None (i :: code); mkAct None (IEntered :: session_code)] -> considerate p (LStep fails n) ->
  exec p i None code [mkAct None (IEntered :: session_code)] fails n = Some p' -> Inv p'.
Proof.
  intros Hal Hh He E Hc Hx. unfold considerate in Hc. rewrite E in Hc.
  assert (forall p1, pr_installed p1 = pr_installed p -> guarded p [] -> guarded p1 []) as Hg.
  { intros p1 Ei. apply guarded_same; [done|]. unfold blocked. by rewrite E. }
  assert (forall p1, pr_fate p1 = Alive -> pr_stack p1 = [mkAct None (IEntered :: session_code)] -> pr_status p1 <> TsOk ->
    holds Before p1 -> Inv p1) as Hrefuse.
  { intros p1 H1 H2 H3 H4. unfold Inv. rewrite H1, H2. exists Before. split; [done|]. apply ok_main, main_refused; auto. }
  unfold Inv. inversion He as [Hf|Hf|Hf|Hf|Hf Hf2| |l| | |]; subst; cbn [exec] in Hx.
  - destruct Hh as [Ha Hcl]. rewrite Ha in Hx. injection Hx as <-. cbn. rewrite Hal. exists Before. split; [done|by apply ok_enter, enter_tty].
  - destruct fails; injection Hx as <-; [by apply Hrefuse|]. cbn. rewrite Hal. exists Before. split; [done|by apply ok_enter, enter_attr].
  - destruct Hh as [Ha Hcl]. destruct fails; injection Hx as <-; [by apply Hrefuse|]. cbn. rewrite Hal. exists Armed.
    split; [split_and!; [done|done|apply Hcl]|by apply ok_enter, enter_install].
  - injection Hx as <-. cbn. rewrite Hal. exists Armed. split; [done|by apply ok_install, install_start].
  - injection Hx as <-. cbn. rewrite Hal. exists Raising. split; [|by apply ok_enter, enter_raw].
    destruct Hh as (H1 & H2 & H3). cbn. split_and!; try done. by apply Hg.
  - destruct Hh as (H1 & H2 & H3 & H4 & H5). destruct fails; injection Hx as <-; cbn; rewrite Hal.
    + exists Raising. split; [|by apply ok_enter, enter_failed]. cbn. split_and!; try done; try apply H2. by apply Hg.
    + exists Up. split; [|by apply ok_enter, enter_write]. cbn. split_and!; try done. by apply Hg.
  - destruct Hh as (H1 & H2 & H3 & H4). destruct l as [|b l]; [|rewrite Hc in Hx]; injection Hx as <-; cbn -[take drop]; rewrite Hal; exists Up;
      (split; [|apply ok_enter; constructor]); cbn -[take drop]; split_and!; try done; (by apply Hg).
  - injection Hx as <-. cbn. rewrite Hal. exists Up. split; [|by apply ok_main, main_entered].
    destruct Hh as (H1 & H2 & H3 & H4). cbn. split_and!; try done. by apply Hg.
  - injection Hx as <-. cbn. rewrite Hal. exists Before. split; [|by apply ok_enter, enter_fails]. cbn. split; [done|apply Hh].
  - injection Hx as <-. by apply Hrefuse.
Qed.

Lemma install_next m i code : (1 <= m <= 10)%nat -> drop m install_handlers = i :: code ->
  (exists g, i = IInstall g /\ (m < 10)%nat /\ code = drop (S m) install_handlers) \/ (i = IAtExit /\ code = []).
Proof.
  intros Hm Ed. assert (code = drop (S m) install_handlers) as Hc by (by rewrite <- Nat.add_1_r, <- drop_drop, Ed).
  destruct m as [|m]; [lia|]. do 9 (destruct m as [|m]; [injection Ed as <- _; left; eexists; split; [done|]; split; [lia|done]|]).
  destruct m; [|lia]. injection Ed as <- <-. by right.
Qed.

Lemma install_step p i code fails n p' : pr_fate p = Alive -> holds Armed p -> install_ok p (i :: code) ->
  let below := [mkAct None after_active; mkAct None (IEntered :: session_code)] in
  pr_stack p = mkAct None (i :: code) :: below -> exec p i None code below fails n = Some p' -> Inv p'.
Proof.
  intros Hal Hh He below E Hx. inversion He as [Hn|m Hm Hg Ed|]; subst.
  - cbn [exec] in Hx. rewrite Hn in Hx. injection Hx as <-. unfold Inv. cbn. rewrite Hal. exists Armed. split; [done|].
    apply ok_install, (install_some _ 1); [lia|]. intros [] Hf; try discriminate Hf; right; cbn [install_handlers drop]; set_solver.
  - assert (forall p1 c, pr_fate p1 = Alive -> pr_stack p1 = mkAct None c :: below -> holds Armed p1 -> install_ok p1 c -> Inv p1) as Hin.
    { intros p1 c H1 H2 H3 H4. unfold Inv. rewrite H1, H2. exists Armed. split; [done|by apply ok_install]. }
    assert (forall p1 ahead g, pr_installed p1 = g :: pr_installed p -> pr_stack p1 = mkAct None ahead :: below -> guarded p (IInstall g :: ahead) ->
      guarded p1 ahead) as Hone.
    { intros p1 ahead g Ei Es H g' Hf. destruct (H g' Hf) as [[H1|[H1 H2]]|H1].
      - left; left. rewrite Ei. by right.
      - left; right. split; [done|]. unfold blocked in *. rewrite Es. by rewrite E in H2.
      - apply elem_of_cons in H1 as [[= ->]|H1]; [left; left; rewrite Ei; by left|by right]. }
    destruct (install_next m i code Hm Ed) as [(g & -> & Hlt & ->)|(-> & ->)]; cbn [exec] in Hx; injection Hx as <-.
    { apply (Hin _ (drop (S m) install_handlers)); [done|done|done|]. apply (install_some _ (S m)); [lia|].
      apply (Hone _ _ g); [done|done|]. by rewrite <- Ed. }
    rewrite Ed in Hg.
    eapply Hin; [done|reflexivity|done|]. apply install_done; [|done]. intros g Hf. destruct (Hg g Hf) as [H|H]; [left|].
    + destruct H as [H|[H1 H2]]; [by left|right]. split; [done|]. unfold blocked in *. cbn. by rewrite E in H2.
    + cbn in H. set_solver.
Qed.

Lemma main_step p f i code fails n p' : pr_fate p = Alive -> holds f p -> main_ok p f (i :: code) ->
  pr_stack p = [mkAct None (i :: code)] -> exec p i None code [] fails n = Some p' -> Inv p'.
Proof.
  intros Hal Hh Hm E Hx.
  assert (forall f k, keeps p (with_stack p k) -> holds f p -> stack_ok p f k -> Inv (with_stack p k)) as Hgo
    by (intros; by eapply inv_stack).
  assert (forall k, (forall g, existsb (fun a => bool_decide (at_sig a = Some g)) k = false) -> keeps p (with_stack p k)) as Hk.
  { intros k _. split_and!; try done. unfold cared, blocked. intros g. rewrite E. cbn. by intros [H|[_ H]]; [left|]. }
  assert (forall f code', (f = Before \/ f = Up) -> holds f p -> main_ok p Before code' ->
    Inv (with_stack p [mkAct None restore_now; mkAct None code'])) as Hcall.
  { intros f' code' Hf Hh' Hc. apply (Hgo f'); [by apply Hk|done|]. apply ok_restore; [apply restore_test; by destruct Hf as [->| ->]|by apply ok_main]. }
  inversion Hm as [Hs|Hs|? Hs Hf| |? m Hf|? Hf|? Hf| |? Hf|]; subst; cbn [exec] in Hx.
  - injection Hx as <-. apply (Hgo Before); [by apply Hk|done|]. by apply ok_enter, enter_start.
  - rewrite decide_True in Hx by done. injection Hx as <-. apply (Hgo Up); [by apply Hk|done|]. apply ok_main, main_session.
  - rewrite decide_False in Hx by done. injection Hx as <-. apply (Hgo Before); [by apply Hk|by eapply inv_before|].
    apply ok_main, (main_closing _ Before 0). by left.
  - done.
  - injection Hx as <-. apply (Hcall f); [done|done|].
    destruct m as [|m]; [by apply main_exit; left|by apply (main_closing _ Before m); left].
  - injection Hx as <-. destruct (pr_atexit p) eqn:Ea; cbn [app].
    + apply (Hgo f); [by apply Hk|done|]. by apply ok_main, main_hook.
    + destruct Hf as [->| ->]; [|by destruct Hh as (_ & _ & _ & Hh); congruence]. apply (Hgo Before); [by apply Hk|done|]. apply ok_main, main_end.
  - injection Hx as <-. apply (Hcall f); [done|done|apply main_end].
  - injection Hx as <-. unfold Inv. cbn. by destruct Hh.
  - injection Hx as <-. apply (Hcall f); [done|done|apply main_abort].
  - destruct (_ && _) eqn:Ec; injection Hx as <-; [|unfold Inv; cbn; by destruct Hh]. apply andb_true_iff in Ec as [_ Eb].
    assert (with_stack p [mkAct None [IRaise SIGABRT]] = p) as -> by (destruct p; cbn in E; by subst).
    apply (deliver_inv p SIGABRT Before); try done; [rewrite E; apply ok_main, main_abort| |by apply negb_true_iff].
    intros _. unfold restoring. by rewrite E.
Qed.

(** ** Every step *)
Lemma with_stack_same p : with_stack p (pr_stack p) = p.
Proof. by destruct p. Qed.

Lemma light_step p f g i code k fails n p' : pr_fate p = Alive -> holds f p -> fatal g = false -> light (i :: code) -> stack_ok p f k ->
  pr_stack p = mkAct (Some g) (i :: code) :: k -> exec p i (Some g) code k fails n = Some p' -> Inv p'.
Proof.
  intros Hal Hh Hf Hl Hk E Hx.
  assert (forall q w, keeps p (with_stack (with_flags p q w) (mkAct (Some g) [] :: k))) as Hp.
  { intros q w. split_and!; try done. unfold cared, blocked. intros h. rewrite E. done. }
  destruct Hl as [[= -> ->]|[[= -> ->]|[=]]]; cbn [exec] in Hx; injection Hx as <-; unfold Inv; cbn; rewrite Hal; exists f;
    (split; [by eapply keeps_holds; [apply Hp|..]|apply ok_light; [done|by right; right|by eapply keeps_stack; [apply Hp|]]]).
Qed.

Lemma crash_step p f g i code k fails n p' : pr_fate p = Alive -> holds f p -> fatal g = true -> stack_ok p f (mkAct (Some g) (i :: code) :: k) ->
  pr_stack p = mkAct (Some g) (i :: code) :: k -> exec p i (Some g) code k fails n = Some p' -> Inv p'.
Proof.
  intros Hal Hh Hf Hs E Hx. inversion Hs as [| | | |? ? ? ? Hf'|? ? ? _ Hn|]; subst; [congruence| |]; cbn [exec] in Hx.
  - injection Hx as <-. apply (inv_stack _ f); [done| |done|].
    + split_and!; try done. unfold cared, blocked. intros h. by rewrite E.
    + apply ok_restore; [by apply restore_test|by apply ok_raise].
  - assert (blocked p g = true) as Hb by (unfold blocked; rewrite E; cbn; by rewrite bool_decide_true).
    rewrite Hb, andb_false_r in Hx. injection Hx as <-. unfold Inv. cbn. by destruct Hh.
Qed.

(** Only the program itself is ever in its session. *)
Lemma session_top p f sig code k : stack_ok p f (mkAct sig (ISession :: code) :: k) ->
  f = Up /\ sig = None /\ code = drop 1 session_code /\ k = [].
Proof.
  intros Hs. inversion Hs as [? ? Hm|? ? Hm|? Hm|? ? ? Hm|? ? ? ? _ Hm|? ? ? Hm|]; subst.
  - by inversion Hm.
  - inversion Hm.
  - inversion Hm as [|m Hm' ? Hd|]. by destruct (install_next _ _ _ Hm' Hd) as [(? & [=] & _)|([=] & _)].
  - inversion Hm.
  - by destruct Hm as [?|[?|?]].
Qed.

Lemma tstep_inv p lb p' : Inv p -> considerate p lb -> tstep lb p = Some p' -> Inv p'.
Proof.
  unfold Inv at 1, tstep. destruct (pr_fate p) eqn:Hal; [|done..]. intros (f & Hh & Hs) Hc Hx.
  destruct lb as [fails n|l| | | |g].
  - destruct (pr_stack p) as [|[sig [|i code]] k] eqn:E; [done| |].
    + injection Hx as <-. inversion Hs as [? ? Hm|? ? Hm|? Hm|? ? ? Hm Hk|? ? ? ? Hf _ Hk|? ? ? Hf|]; subst.
      * inversion Hm.
      * inversion Hm.
      * apply (inv_stack _ Armed); [done|by apply (keeps_pop _ _ _ E)|done|]. apply ok_enter. inversion Hm as [|m Hm' ? Hd|]; [|by apply enter_active].
        exfalso. apply (f_equal length) in Hd. rewrite length_drop in Hd. cbn in Hd. lia.
      * inversion Hm; subst. apply (inv_stack _ Before); [done|by apply (keeps_pop _ _ _ E)|done|done].
      * apply (inv_stack _ f); [done| |done|done]. apply (keeps_pop _ _ _ E). by intros ? [= <-].
    + inversion Hs as [? ? Hm|? ? Hm|? Hm|? ? ? Hm Hk|? ? ? ? Hf Hl Hk|? ? ? Hf|]; subst.
      * by eapply main_step.
      * by eapply enter_step.
      * by eapply install_step.
      * by eapply restore_step.
      * by eapply light_step.
      * by eapply crash_step.
      * by eapply crash_step.
  - destruct (pr_stack p) as [|[sig [|[] code]] k] eqn:E; try done. injection Hx as <-.
    destruct (session_top _ _ _ _ _ Hs) as (-> & -> & -> & ->). unfold Inv. cbn. rewrite Hal, E. exists Up.
    assert (keeps p (write_device p l)) as Hp by (split_and!; try done; unfold cared, blocked; cbn; intros g; by rewrite E).
    split; [|by apply (keeps_stack p)]. destruct Hh as (H1 & H2 & H3 & H4). by split_and!.
  - destruct (pr_stack p) as [|[sig [|[] code]] k] eqn:E; try done. injection Hx as <-.
    destruct (session_top _ _ _ _ _ Hs) as (-> & -> & -> & ->). apply (inv_stack _ Up); [done|by apply (keeps_swap _ _ _ _ E)|done|].
    apply ok_main, (main_closing _ Up 1). by right.
  - destruct (pr_stack p) as [|[sig [|[] code]] k] eqn:E; try done. injection Hx as <-.
    destruct (session_top _ _ _ _ _ Hs) as (-> & -> & -> & ->). apply (inv_stack _ Up); [done|by apply (keeps_swap _ _ _ _ E)|done|].
    apply ok_main, main_throw. by right.
  - destruct (pr_stack p) as [|[sig [|[] code]] k] eqn:E; try done. injection Hx as <-.
    destruct (session_top _ _ _ _ _ Hs) as (-> & -> & -> & ->). apply (inv_stack _ Up); [done|by apply (keeps_swap _ _ _ _ E)|done|].
    apply ok_main, main_exit. by right.
  - destruct (blocked p g) eqn:Hb; [done|]. injection Hx as <-. destruct (decide (g = SigOther)) as [->|Ho]; [done|].
    apply (deliver_inv p g f); try done. by destruct g.
Qed.

(** A crash is never returned from: its handler stays on the stack until a signal
    ends the process. *)
Lemma crash_stays p lb p' g : Inv p -> fatal g = true -> blocked p g = true -> tstep lb p = Some p' ->
  pr_fate p' <> Exited /\ (pr_fate p' = Alive -> blocked p' g = true).
Proof.
  unfold Inv, tstep. destruct (pr_fate p) eqn:Hal; [|done..]. intros (f & _ & Hs) Hf Hb Hx.
  assert (forall p1 a, pr_stack p1 = a :: pr_stack p -> blocked p1 g = true) as Hpush.
  { intros p1 a E. unfold blocked in *. rewrite E. cbn. rewrite Hb. apply orb_true_r. }
  assert (forall h, pr_fate (deliver p h) <> Exited /\ (pr_fate (deliver p h) = Alive -> blocked (deliver p h) g = true)) as Hdel.
  { intros h. unfold deliver.
    assert (forall p1 a, pr_fate p1 = Alive -> pr_stack p1 = a :: pr_stack p ->
      pr_fate p1 <> Exited /\ (pr_fate p1 = Alive -> blocked p1 g = true)) as Hon by (intros p1 a -> E; split; [done|intros _; by eapply Hpush]).
    destruct (bool_decide (h ∈ pr_installed p)); [|by destruct (bool_decide (h = SIGWINCH)); [rewrite Hal|]].
    destruct (graceful h); [by eapply Hon|]. destruct (bool_decide (h = SIGWINCH)); by eapply Hon. }
  destruct lb as [fails n|l| | | |h]; [|by (destruct (pr_stack p) as [|[sig [|[] code]] k] eqn:E; try done;
    destruct (session_top _ _ _ _ _ Hs) as (-> & -> & -> & ->); unfold blocked in Hb; rewrite E in Hb)..|].
  - destruct (pr_stack p) as [|[sig [|i code]] k] eqn:E; [done| |].
    + injection Hx as <-. cbn. rewrite Hal. split; [done|intros _]. unfold blocked in *. rewrite E in Hb. cbn in Hb.
      inversion Hs as [? ? Hm|? ? Hm|? Hm|? ? ? Hm Hk|? ? ? ? Hf' _ Hk|? ? ? Hf'|]; subst; try done.
      destruct (bool_decide _) eqn:Eb; [|done]. apply bool_decide_eq_true in Eb. congruence.
    + unfold blocked in Hb. rewrite E in Hb. cbn in Hb.
      inversion Hs as [? ? Hm|? ? Hm|? Hm|? ? ? Hm Hk|? ? ? ? Hf' Hl Hk|? ? ? Hf'|]; subst; try done.
      * assert (forall p1, pr_fate p1 = Alive -> pr_stack p1 = k \/ (exists c, pr_stack p1 = mkAct None c :: k) ->
          pr_fate p1 <> Exited /\ (pr_fate p1 = Alive -> blocked p1 g = true)) as Hgo.
        { intros p1 -> Es. split; [done|intros _]. unfold blocked. by destruct Es as [-> |[c ->]]. }
        inversion Hm; subst; cbn [exec] in Hx; repeat case_match; injection Hx as <-;
          (apply Hgo; [done|]); cbn; first [by left|by right; eexists].
      * destruct Hl as [[= -> ->]|[[= -> ->]|[=]]]; cbn [exec] in Hx; injection Hx as <-; cbn; by rewrite Hal.
      * cbn [exec] in Hx. injection Hx as <-. cbn. by rewrite Hal.
      * cbn [exec] in Hx. destruct (_ && _) eqn:Ec; injection Hx as <-; [|done].
        apply andb_true_iff in Ec as [_ Ec]. unfold blocked in Ec. rewrite E in Ec. cbn in Ec. by rewrite bool_decide_true in Ec.
  - destruct (blocked p h); [done|]. injection Hx as <-. apply Hdel.
Qed.

Lemma deliver_crash p g : fatal g = true -> g <> SigOther -> pr_fate p = Alive ->
  pr_fate (deliver p g) <> Exited /\ (pr_fate (deliver p g) = Alive -> blocked (deliver p g) g = true).
Proof.
  intros Hf Ho Hal. unfold deliver. assert (graceful g = false /\ bool_decide (g = SIGWINCH) = false) as [-> ->] by by destruct g.
  case_bool_decide; cbn; [|done]. rewrite Hal. split; [done|intros _]. unfold blocked. cbn. by rewrite bool_decide_true.
Qed.
End Given.

(** Every label is considerate where it is taken. *)
Fixpoint considerate_run (p : Proc) (ls : list Label) : Prop :=
  match ls with
  | [] => True
  | lb :: ls => considerate p lb /\ match tstep lb p with Some p' => considerate_run p' ls | None => True end
  end.

Lemma trun_inv attr ls : forall p p', Inv attr p -> considerate_run p ls -> trun ls p = Some p' -> Inv attr p'.
Proof.
  induction ls as [|lb ls IH]; cbn [trun considerate_run]; [by intros p p' H _ [= <-]|].
  intros p p' Hi [Hc Hr]. destruct (tstep lb p) as [q|] eqn:E; [|done]. cbn. apply IH; [|done]. by eapply tstep_inv.
Qed.

Lemma trun_dead ls p p' : pr_fate p <> Alive -> trun ls p = Some p' -> p' = p.
Proof. destruct ls as [|lb ls]; cbn; [by intros _ [= <-]|]. unfold tstep. by destruct (pr_fate p). Qed.

Lemma trun_crash attr g ls : fatal g = true -> forall p p', Inv attr p -> considerate_run p ls -> trun ls p = Some p' ->
  (LSignal g ∈ ls \/ (pr_fate p <> Exited /\ (pr_fate p = Alive -> blocked p g = true))) ->
  pr_fate p' <> Exited /\ (pr_fate p' = Alive -> blocked p' g = true).
Proof.
  intros Hf. induction ls as [|lb ls IH]; cbn [trun considerate_run]; [intros p p' _ _ [= <-] [H|H]; [by apply not_elem_of_nil in H|done]|].
  intros p p' Hi [Hc Hr] Hx Hg. destruct (tstep lb p) as [q|] eqn:E; [|done]. cbn in Hx.
  assert (Inv attr q) as Hq by by eapply tstep_inv. assert (pr_fate p = Alive) as Hal by (unfold tstep in E; by destruct (pr_fate p)).
  apply (IH q p'); try done. rewrite elem_of_cons in Hg. destruct Hg as [[Hg|Hg]|[_ Hg]]; [|by left|right; apply (crash_stays attr p lb q g); auto].
  right. subst lb. unfold tstep in E. rewrite Hal in E. destruct (blocked p g); [done|]. injection E as <-.
  apply deliver_crash; [done|by destruct g|done].
Qed.

(** C9: The terminal is given back.  However the program ends, through the end of
    its session, a refusal to start, an exception, [exit], a request to stop or a
    crash signal, wherever any of these arrives, even between two accesses of the
    guard's own code and in the middle of a sequence being drawn, the terminal's
    attributes are those it had and its screen is back with the cursor shown and
    the pen plain; and a program a crash signal hit dies of a signal, it is never
    turned into an exit.  What is excluded: a crash signal during the restore
    itself, a signal the program installs nothing for, and a terminal that does
    not take what is written. *)
Theorem terminal_given_back attr saved ls p :
  considerate_run (start attr saved) ls -> trun ls (start attr saved) = Some p -> pr_fate p <> Alive ->
  dv_attr (pr_device p) = attr /\ normal (dv_screen (pr_device p)) /\
  (forall g, fatal g = true -> LSignal g ∈ ls -> pr_fate p <> Exited).
Proof.
  intros Hc Hx Hd. assert (Inv attr (start attr saved)) as Hi.
  { unfold Inv. cbn. exists Before. split; [by split|]. by apply ok_main, main_start. }
  pose proof (trun_inv attr ls _ _ Hi Hc Hx) as H. unfold Inv in H.
  assert (clean attr (pr_device p)) as [H1 H2] by by destruct (pr_fate p).
  split; [done|]. split; [done|]. intros g Hf Hg. exact (proj1 (trun_crash attr g ls Hf _ _ Hi Hc Hx (or_introl Hg))).
Qed.

Lemma tstep_exec p sig i code k fails n : pr_fate p = Alive -> pr_stack p = mkAct sig (i :: code) :: k ->
  tstep (LStep fails n) p = exec p i sig code k fails n.
Proof. intros Hal E. unfold tstep. by rewrite Hal, E. Qed.

Lemma write_all p sig l code k n : pr_fate p = Alive -> pr_stack p = mkAct sig (IWrite l :: code) :: k -> l <> [] -> (length l <= n)%nat ->
  tstep (LStep false n) p = Some (with_stack (write_device p l) (mkAct sig (IWrite [] :: code) :: k)).
Proof.
  intros Hal E Hl Hn. rewrite (tstep_exec _ _ _ _ _ _ _ Hal E). destruct l as [|b l]; [done|]. cbn [exec].
  by rewrite take_ge, drop_ge by done.
Qed.

(** C24: A crash gets the terminal back in eight steps.  Whatever the program was
    doing with the guard up, a crash signal that no other interrupts restores
    the attributes the guard saved and the screen, and then kills the process by
    that same signal, at its default. *)
Theorem crash_restores p g : pr_fate p = Alive -> g_active p = true -> fatal g = true -> g ∈ pr_installed p -> blocked p g = false ->
  exists p', trun (LSignal g :: List.repeat (LStep false 64) 8) p = Some p' /\ pr_fate p' = KilledBy g /\
    dv_attr (pr_device p') = g_saved p /\ normal (dv_screen (pr_device p')).
Proof.
  intros Hal Ha Hf Hi Hb.
  set (rest := List.filter (fun h => negb (bool_decide (h = g))) (pr_installed p)).
  assert (bool_decide (g ∈ rest) = false) as Hr.
  { apply bool_decide_eq_false. intros H%list_elem_of_In. apply filter_In in H as [_ H]. by rewrite bool_decide_true in H. }
  set (p1 := with_handlers (with_stack p (mkAct (Some g) (hv_fatal_handler g) :: pr_stack p)) (g_handlers p) rest (pr_atexit p)).
  assert (tstep (LSignal g) p = Some p1) as E1.
  { unfold tstep. rewrite Hal, Hb. unfold deliver. rewrite bool_decide_true by done. by destruct g. }
  cbn [List.repeat trun]. rewrite E1. cbn [mbind option_bind].
  rewrite (tstep_exec p1 (Some g) (ICall restore_now) [IRaise g] (pr_stack p)) by (exact Hal || reflexivity). cbn [exec mbind option_bind].
  set (p2 := with_stack p1 _). rewrite (tstep_exec p2 None ITestRestore (drop 1 restore_now) (tail (pr_stack p2))) by (exact Hal || reflexivity). cbn [exec].
  replace (g_active p2) with true by (symmetry; exact Ha). cbn [mbind option_bind].
  set (p3 := with_stack p2 _). rewrite (tstep_exec p3 None IClearActive (drop 2 restore_now) (tail (pr_stack p2))) by (exact Hal || reflexivity). cbn [exec mbind option_bind].
  set (p4 := with_stack (with_active p3 false) _).
  rewrite (write_all p4 None kRestore [ISetSaved] (tail (pr_stack p2))) by (exact Hal || reflexivity || discriminate || (vm_compute; lia)). cbn [mbind option_bind].
  set (p5 := with_stack (write_device p4 kRestore) _).
  rewrite (tstep_exec p5 None (IWrite []) [ISetSaved] (tail (pr_stack p2))) by (exact Hal || reflexivity). cbn [exec mbind option_bind].
  set (p6 := with_stack p5 _). rewrite (tstep_exec p6 None ISetSaved [] (tail (pr_stack p2))) by (exact Hal || reflexivity). cbn [exec mbind option_bind].
  set (p7 := with_stack (set_attr p6 _) _).
  assert (tstep (LStep false 64) p7 = Some (with_stack p7 (tail (pr_stack p2)))) as -> by (unfold tstep; replace (pr_fate p7) with Alive by (symmetry; exact Hal); reflexivity). cbn [mbind option_bind].
  set (p8 := with_stack p7 _). rewrite (tstep_exec p8 (Some g) (IRaise g) [] (pr_stack p)) by (exact Hal || reflexivity). cbn [exec].
  replace (pr_installed p8) with rest by done. rewrite Hr. cbn [andb mbind option_bind]. eexists. split; [reflexivity|].
  split; [done|]. split; [done|]. apply restore_any.
Qed.

(** ** Runs *)

Definition user_attr : Termios :=
  mkTermios 0x4500 0x5 0xbf 0x8a3b [3; 28; 127; 21; 4; 0; 1; 0; 17; 19; 26; 255; 18; 15; 23; 22; 255; 0; 0].
Definition no_attr : Termios := mkTermios 0 0 0 0 [].
(** In, with a write cut in two; half a sequence drawn; a request to stop; then a
    crash. *)
Definition enter_run : list Label := List.repeat (LStep false 10) 25.
Definition crash_run : list Label :=
  enter_run ++ [LDraw [0x1b; 91; 51]; LSignal SIGTERM; LStep false 0; LStep false 0; LDraw [56; 59; 53]; LSignal SIGSEGV] ++ List.repeat (LStep false 7) 10.
(** And out through the end of the session, the destructor and the exit hook. *)
Definition leave_run : list Label := enter_run ++ [LDraw [0x1b; 91; 51]; LLeave] ++ List.repeat (LStep false 64) 13.

Lemma crash_run_ends : exists p, trun crash_run (start user_attr no_attr) = Some p /\ pr_fate p = KilledBy SIGSEGV.
Proof. eexists. split; vm_compute; reflexivity. Qed.
Lemma leave_run_ends : exists p, trun leave_run (start user_attr no_attr) = Some p /\ pr_fate p = Exited.
Proof. eexists. split; vm_compute; reflexivity. Qed.
Lemma crash_run_considerate : considerate_run (start user_attr no_attr) crash_run.
Proof. vm_compute. repeat split; done. Qed.

Lemma terminal_given_back_witness : exists p,
  trun crash_run (start user_attr no_attr) = Some p /\ dv_attr (pr_device p) = user_attr.
Proof.
  destruct crash_run_ends as (p & E & Hk). exists p. split; [exact E|].
  assert (pr_fate p <> Alive) as Hd by (rewrite Hk; discriminate).
  exact (proj1 (terminal_given_back user_attr no_attr crash_run p crash_run_considerate E Hd)).
Defined.

(** In the session. *)
Definition drawing : Proc :=
  match trun (enter_run ++ [LDraw [0x1b; 91; 51]]) (start user_attr no_attr) with Some p => p | None => start user_attr no_attr end.
Lemma drawing_up : g_active drawing = true /\ pr_fate drawing = Alive /\ SIGBUS ∈ pr_installed drawing /\ blocked drawing SIGBUS = false /\
  g_saved drawing = user_attr /\ dv_attr (pr_device drawing) <> user_attr.
Proof.
  split_and!; [by vm_compute|by vm_compute|by apply (bool_decide_unpack _); vm_compute|by vm_compute|by vm_compute|].
  intros E. apply (f_equal c_oflag) in E. by vm_compute in E.
Qed.
Lemma crash_restores_witness : exists p', pr_fate p' = KilledBy SIGBUS /\ dv_attr (pr_device p') = user_attr.
Proof.
  destruct drawing_up as (H1 & H2 & H3 & H4 & H5 & _).
  destruct (crash_restores drawing SIGBUS H2 H1 eq_refl H3 H4) as (p' & _ & Hk & Ha & _). exists p'. split; [exact Hk|]. congruence.
Defined.

(** A crash signal that arrives once [restore_now] has cleared its flag finds
    nothing to do, and the default it raises ends the process with the terminal
    still raw. *)
Definition interrupted_run : list Label := enter_run ++ [LLeave] ++ List.repeat (LStep false 64) 3 ++ [LSignal SIGSEGV] ++ List.repeat (LStep false 64) 3.
Lemma restore_interrupted : exists p, trun interrupted_run (start user_attr no_attr) = Some p /\
  pr_fate p = KilledBy SIGSEGV /\ dv_attr (pr_device p) = raw_of user_attr.
Proof. eexists. split; [vm_compute; reflexivity|]. split; vm_compute; reflexivity. Qed.

(** Ctrl-\ is SIGQUIT, for which nothing is installed: it strands the terminal in
    raw mode on the alternate screen. *)
Lemma quit_strands : exists p, trun (enter_run ++ [LSignal SigOther]) (start user_attr no_attr) = Some p /\
  pr_fate p = KilledBy SigOther /\ dv_attr (pr_device p) = raw_of user_attr /\ sc_alt (dv_screen (pr_device p)) = true /\
  Z.land (c_lflag (raw_of user_attr)) ISIG = ISIG.
Proof. eexists. split; [vm_compute; reflexivity|]. split_and!; vm_compute; reflexivity. Qed.
