(* ===== verification/FloatColor.v ===== *)
(** * The colour arithmetic (src/src/tui/heat_color.cpp, theme.cpp, map_view.cpp)

    Conversion between sRGB and Oklab, interpolation, the pulse and the density
    steps in IEEE single precision, every operation rounded to nearest on its
    own, and the contrast ratio of theme.cpp in double precision.  [pow] and
    [cbrt] of the C library, whose results no standard fixes, are operations of a
    class. *)

From Stdlib Require Import Floats.SpecFloat.
From S2P Require Import Prelude Theme HeatMap HeatColor.

(** ** Single precision *)

Notation f32 := spec_float.
#[export] Instance spec_float_inhabited : Inhabited spec_float := populate S754_nan.

Definition add32 : f32 -> f32 -> f32 := SFadd 24 128.
Definition sub32 : f32 -> f32 -> f32 := SFsub 24 128.
Definition mul32 : f32 -> f32 -> f32 := SFmul 24 128.
Definition div32 : f32 -> f32 -> f32 := SFdiv 24 128.
Definition sqrt32 : f32 -> f32 := SFsqrt 24 128.
(** An unsigned integer converted, and a decimal literal [n / d]. *)
Definition of_int (v : Z) : f32 := binary_normalize 24 128 v 0 false.
Definition lit (n d : positive) : f32 := div32 (S754_finite false n 0) (S754_finite false d 0).

Declare Scope f32_scope.
Delimit Scope f32_scope with f.
Infix "+" := add32 : f32_scope.
Infix "-" := sub32 : f32_scope.
Infix "*" := mul32 : f32_scope.
Infix "/" := div32 : f32_scope.
Infix "<?" := SFltb : f32_scope.
Infix "<=?" := SFleb : f32_scope.

(** [static_cast] of a float that is not negative to an unsigned integer. *)
Definition truncate (x : f32) : Z :=
  match x with
  | S754_finite false m e => if 0 <=? e then Z.shiftl (Zpos m) e else Z.shiftr (Zpos m) (- e)
  | _ => 0
  end.

Definition zero32 : f32 := S754_zero false.
Definition one32 : f32 := of_int 1.
Definition two32 : f32 := of_int 2.
Definition half32 : f32 := lit 5 10.

Class LibM := { powf : f32 -> f32 -> f32; cbrtf : f32 -> f32; pow64 : spec_float -> spec_float -> spec_float }.

(** ** The transfer function *)

Definition clamp01 (v : f32) : f32 := if (v <? zero32)%f then zero32 else if (one32 <? v)%f then one32 else v.

Definition kEncodeSize : nat := Z.to_nat 255.
Definition kGuessBins : Z := 1024.

Section Color.
Context `{!LibM}.

Definition srgb_to_linear (v : f32) : f32 :=
  if (v <=? lit 4045 100000)%f then (v / lit 1292 100)%f
  else powf ((v + lit 55 1000) / lit 1055 1000)%f (lit 24 10).

(** The value halfway between output codes [i] and [i + 1]. *)
Definition threshold (i : Z) : f32 := srgb_to_linear ((of_int i + half32) / of_int 255)%f.
Definition kEncode : list f32 := threshold <$> seqZ 0 255.

(** [while (code < size && linear >= kEncode[code]) ++code;] *)
Fixpoint walk_up (fuel : nat) (t : list f32) (linear : f32) (code : nat) : nat :=
  match fuel with
  | O => code
  | S fuel => if (code <? length t)%nat && (t !!! code <=? linear)%f then walk_up fuel t linear (S code) else code
  end.
(** [while (code > 0 && linear < kEncode[code - 1]) --code;] *)
Fixpoint walk_down (t : list f32) (linear : f32) (code : nat) : nat :=
  match code with
  | O => O
  | S c => if (linear <? t !!! c)%f then walk_down t linear c else code
  end.

Definition guess_at (j : Z) : nat :=
  let root := (of_int j / of_int kGuessBins)%f in walk_up kEncodeSize kEncode (root * root)%f O.
Definition kGuess : list nat := guess_at <$> seqZ 0 (kGuessBins + 1).

Definition encode_channel (linear : f32) : Z :=
  if negb (zero32 <? linear)%f then 0
  else if (one32 <=? linear)%f then 255
  else
    let bin := truncate (sqrt32 linear * of_int kGuessBins)%f in
    let code := kGuess !!! Z.to_nat bin in
    let code := walk_up kEncodeSize kEncode linear code in
    Z.of_nat (walk_down kEncode linear code).

Definition channel (c shift : Z) : f32 := (of_int (Z.land (Z.shiftr c shift) 0xFF) / of_int 255)%f.

(** ** Oklab *)

Record Lab := mkLab { lab_L : f32; lab_a : f32; lab_b : f32 }.

Definition scaled (c : Lab) (factor : f32) : Lab := mkLab (clamp01 (lab_L c * factor)%f) (lab_a c) (lab_b c).

Definition to_oklab (c : Z) : Lab :=
  let r := srgb_to_linear (channel c 16) in
  let g := srgb_to_linear (channel c 8) in
  let b := srgb_to_linear (channel c 0) in
  let l := (lit 4122214708 10000000000 * r + lit 5363325363 10000000000 * g + lit 514459929 10000000000 * b)%f in
  let m := (lit 2119034982 10000000000 * r + lit 6806995451 10000000000 * g + lit 1073969566 10000000000 * b)%f in
  let s := (lit 883024619 10000000000 * r + lit 2817188376 10000000000 * g + lit 6299787005 10000000000 * b)%f in
  let l_ := cbrtf l in
  let m_ := cbrtf m in
  let s_ := cbrtf s in
  mkLab (lit 2104542553 10000000000 * l_ + lit 7936177850 10000000000 * m_ - lit 40720468 10000000000 * s_)%f
        (lit 19779984951 10000000000 * l_ - lit 24285922050 10000000000 * m_ + lit 4505937099 10000000000 * s_)%f
        (lit 259040371 10000000000 * l_ + lit 7827717662 10000000000 * m_ - lit 8086757660 10000000000 * s_)%f.

Definition cubed (x : f32) : f32 := (x * x * x)%f.

Definition from_oklab (c : Lab) : Z :=
  let l := cubed (lab_L c + lit 3963377774 10000000000 * lab_a c + lit 2158037573 10000000000 * lab_b c)%f in
  let m := cubed (lab_L c - lit 1055613458 10000000000 * lab_a c - lit 638541728 10000000000 * lab_b c)%f in
  let s := cubed (lab_L c - lit 894841775 10000000000 * lab_a c - lit 12914855480 10000000000 * lab_b c)%f in
  let r := (lit 40767416621 10000000000 * l - lit 33077115913 10000000000 * m + lit 2309699292 10000000000 * s)%f in
  let g := (SFopp (lit 12684380046 10000000000) * l + lit 26097574011 10000000000 * m - lit 3413193965 10000000000 * s)%f in
  let b := (SFopp (lit 41960863 10000000000) * l - lit 7034186147 10000000000 * m + lit 17076147010 10000000000 * s)%f in
  Z.lor (Z.lor (Z.shiftl (encode_channel r) 16) (Z.shiftl (encode_channel g) 8)) (encode_channel b).

Definition lerp (from to : Lab) (t : f32) : Lab :=
  let u := clamp01 t in
  let mix x y := (x + (y - x) * u)%f in
  mkLab (mix (lab_L from) (lab_L to)) (mix (lab_a from) (lab_a to)) (mix (lab_b from) (lab_b to)).

Definition lerp_oklab (from to : Z) (t : f32) : Z := from_oklab (lerp (to_oklab from) (to_oklab to) t).

Definition pulse_wave (u : f32) : f32 :=
  let x := clamp01 u in
  let t := if (x <=? half32)%f then (x * two32)%f else ((one32 - x) * two32)%f in
  let inv := (one32 - t)%f in
  (one32 - inv * inv * inv)%f.

Definition kPulsePeak : f32 := lit 35 100.
Definition kDensityFloor : f32 := lit 65 100.
Definition kDensitySteps : Z := 128.

Definition quantised_density (live_bytes cell_bytes : Z) : Z :=
  if cell_bytes =? 0 then kDensitySteps
  else truncate (clamp01 (of_int live_bytes / of_int cell_bytes) * of_int kDensitySteps + half32)%f.

Definition shade_for_step (settled : Lab) (step : Z) : Lab :=
  scaled settled (kDensityFloor + (one32 - kDensityFloor) * (of_int step / of_int kDensitySteps))%f.

Definition ratio (num den : Z) : f32 := (of_int num / of_int den)%f.

(** The three thresholds of map_view.cpp. *)
Definition band (live_bytes cell_bytes : Z) : Z :=
  let d := ratio live_bytes cell_bytes in
  if (lit 66 100 <=? d)%f then 3 else if (lit 45 100 <=? d)%f then 2 else if (lit 18 100 <=? d)%f then 1 else 0.

#[export] Instance float_colors : ColorMath := {|
  Oklab := Lab;
  srgb_to_oklab := to_oklab;
  oklab_to_srgb := from_oklab;
  lerp_ratio from to num den := lerp from to (ratio num den);
  pulse_ratio fresh num den := scaled fresh (one32 + kPulsePeak * pulse_wave (ratio num den))%f;
  density_step := quantised_density;
  lab_for_step := shade_for_step;
  density_band := band
|}.

(** ** Contrast, in double precision *)

Definition f64_of (v : Z) : spec_float := binary_normalize 53 1024 v 0 false.
Definition lit64 (n d : positive) : spec_float := SFdiv 53 1024 (S754_finite false n 0) (S754_finite false d 0).
Definition add64 := SFadd 53 1024.
Definition mul64 := SFmul 53 1024.
Definition div64 := SFdiv 53 1024.

Definition linear64 (value : Z) : spec_float :=
  let s := div64 (f64_of value) (f64_of 255) in
  if SFleb s (lit64 4045 100000) then div64 s (lit64 1292 100)
  else pow64 (div64 (add64 s (lit64 55 1000)) (lit64 1055 1000)) (lit64 24 10).
Definition luminance (c : Z) : spec_float :=
  add64 (add64 (mul64 (lit64 2126 10000) (linear64 (Z.land (Z.shiftr c 16) 0xFF)))
               (mul64 (lit64 7152 10000) (linear64 (Z.land (Z.shiftr c 8) 0xFF))))
        (mul64 (lit64 722 10000) (linear64 (Z.land c 0xFF))).
Definition max64 (a b : spec_float) : spec_float := if SFltb a b then b else a.
Definition min64 (a b : spec_float) : spec_float := if SFltb b a then b else a.
Definition contrast_ratio (foreground background : Z) : spec_float :=
  let a := luminance foreground in
  let b := luminance background in
  div64 (add64 (max64 a b) (lit64 5 100)) (add64 (min64 a b) (lit64 5 100)).
Definition readable_text (foreground background : Z) : bool := SFleb (lit64 45 10) (contrast_ratio foreground background).

End Color.
