(* ===== verification/FloatBounds.v ===== *)
(** * Bounds through rounding

    An operation rounded to nearest never passes a number of its format that the
    exact result does not pass.  So a quantised density indexes the table of
    shades inside it, and the square root of an intensity the table of guesses. *)

From Stdlib Require Import Floats.SpecFloat.
From S2P Require Import Prelude Theme HeatMap HeatColor FloatColor.

(** ** [v * 2 ^ e <= b * 2 ^ g] *)

Definition le_at (v e b g : Z) : Prop := v * 2 ^ Z.max 0 (e - g) <= b * 2 ^ Z.max 0 (g - e).

Lemma le_at_scaled v e b g k : 0 <= e + k -> 0 <= g + k -> le_at v e b g <-> v * 2 ^ (e + k) <= b * 2 ^ (g + k).
Proof.
  intros He Hg. unfold le_at. set (d := Z.min e g + k).
  assert (e + k = Z.max 0 (e - g) + d) as -> by (unfold d; lia).
  assert (g + k = Z.max 0 (g - e) + d) as -> by (unfold d; lia).
  assert (0 < 2 ^ d) by (apply Z.pow_pos_nonneg; unfold d; lia). rewrite !Z.pow_add_r by (unfold d; lia). nia.
Qed.
Lemma le_at_mono v w e b g : v <= w -> le_at w e b g -> le_at v e b g.
Proof. unfold le_at. intros Hv H. assert (0 < 2 ^ Z.max 0 (e - g)) by (apply Z.pow_pos_nonneg; lia). nia. Qed.

(** ** Shifting right *)

(** The mantissa rounded up. *)
Definition up (r : shr_record) : Z := shr_m r + (if shr_r r || shr_s r then 1 else 0).
Definition up_loc (l : location) : Z := match l with loc_Exact => 0 | _ => 1 end.

Lemma shr_1_spec r : 0 <= shr_m r -> shr_m (shr_1 r) = shr_m r / 2 /\ 2 * up (shr_1 r) <= up r + 1.
Proof.
  destruct r as [m r s]. cbn [shr_m]. intros Hm. destruct m as [|[p|p|]|]; cbn; try lia; unfold up; cbn [shr_m shr_r shr_s].
  - split; [done|]. by destruct r, s.
  - split; [|destruct r, s; cbn; lia]. rewrite Pos2Z.inj_xI. Z.div_mod_to_equations. lia.
  - split; [|destruct r, s; cbn; lia]. rewrite Pos2Z.inj_xO. Z.div_mod_to_equations. lia.
  - split; [done|]. by destruct r, s.
Qed.

Lemma iter_pos_nat {A} (f : A -> A) p : forall x, SpecFloat.iter_pos f p x = Nat.iter (Pos.to_nat p) f x.
Proof.
  induction p as [p IH|p IH|]; intros x; cbn [SpecFloat.iter_pos]; [| |done]; rewrite !IH, <- Nat.iter_add.
  - rewrite <- Nat.iter_succ_r. f_equal. lia.
  - f_equal. lia.
Qed.

Lemma shr_n_spec n r : 0 <= shr_m r ->
  shr_m (Nat.iter n shr_1 r) = shr_m r / 2 ^ Z.of_nat n /\
  up (Nat.iter n shr_1 r) * 2 ^ Z.of_nat n <= up r + 2 ^ Z.of_nat n - 1.
Proof.
  intros Hr. induction n as [|n [IHm IHu]]; [cbn [Nat.iter nat_rect]; change (2 ^ Z.of_nat 0) with 1; rewrite Z.div_1_r; lia|].
  cbn [Nat.iter nat_rect]. change (nat_rect _ _ _ _) with (Nat.iter n shr_1 r).
  assert (0 < 2 ^ Z.of_nat n) by (apply Z.pow_pos_nonneg; lia).
  assert (0 <= shr_m (Nat.iter n shr_1 r)) as Hn by (rewrite IHm; apply Z.div_pos; lia).
  destruct (shr_1_spec _ Hn) as [-> Hu]. rewrite Nat2Z.inj_succ, Z.pow_succ_r by lia. split.
  - rewrite IHm, Z.div_div by lia. f_equal. lia.
  - nia.
Qed.

Lemma round_up r : round_nearest_even (shr_m r) (loc_of_shr_record r) <= up r.
Proof. destruct r as [m [] []]; unfold up; cbn; try lia. destruct (Z.even m); lia. Qed.
Lemma round_down r : shr_m r <= round_nearest_even (shr_m r) (loc_of_shr_record r).
Proof. destruct r as [m [] []]; cbn; try lia. destruct (Z.even m); lia. Qed.

(** ** Digits *)
Lemma digits_spec p : 2 ^ (Z.pos (digits2_pos p) - 1) <= Z.pos p < 2 ^ Z.pos (digits2_pos p).
Proof.
  assert (forall q lo hi, 2 ^ (Z.pos q - 1) = lo -> 2 ^ Z.pos q = hi ->
    2 ^ (Z.pos (Pos.succ q) - 1) = 2 * lo /\ 2 ^ Z.pos (Pos.succ q) = 2 * hi) as Hs.
  { intros q lo hi <- <-. rewrite Pos2Z.inj_succ. split; [|apply Z.pow_succ_r; lia].
    rewrite <- Z.pow_succ_r by lia. f_equal. lia. }
  induction p as [p IH|p IH|]; cbn [digits2_pos]; [| |done]; destruct (Hs (digits2_pos p) _ _ eq_refl eq_refl) as [-> ->];
    revert IH; generalize (2 ^ (Z.pos (digits2_pos p) - 1)) (2 ^ Z.pos (digits2_pos p)); intros lo hi IH; lia.
Qed.
Lemma digits_le m k : 0 <= k -> 0 <= m < 2 ^ k -> Zdigits2 m <= k.
Proof.
  intros Hk Hm. destruct m as [|p|p]; cbn; [lia| |lia]. pose proof (digits_spec p) as [Hd _].
  assert (Z.pos (digits2_pos p) - 1 < k); [|lia]. apply (Z.pow_lt_mono_r_iff 2); lia.
Qed.

(** ** Rounding *)

Definition fits (x : f32) : Prop := match x with S754_finite _ m _ => Z.pos m < 2 ^ 24 | _ => True end.
(** Not below zero and at most [b * 2 ^ g], or not a number. *)
Definition within (b g : Z) (x : f32) : Prop :=
  match x with
  | S754_finite false m e => le_at (Z.pos m) e b g
  | S754_zero _ | S754_nan => True
  | _ => False
  end.

Lemma up_record m l : up (shr_record_of_loc m l) = m + up_loc l /\ shr_m (shr_record_of_loc m l) = m.
Proof. destruct l as [|[]]; cbn; split; try done; unfold up; cbn; lia. Qed.

Lemma shr_nat r e n : 0 <= n -> shr r e n = (Nat.iter (Z.to_nat n) shr_1 r, e + n).
Proof. intros Hn. destruct n as [|p|p]; cbn; [by rewrite Z.add_0_r|by rewrite iter_pos_nat|lia]. Qed.
Lemma shr_neg r e n : n <= 0 -> shr r e n = (r, e).
Proof. by destruct n. Qed.

Lemma shr_fexp_bound m e l b g : 0 <= m -> 0 < b < 2 ^ 24 -> -149 <= g -> le_at (m + up_loc l) e b g ->
  let '(r, e') := shr_fexp 24 128 m e l in 0 <= shr_m r < 2 ^ 24 /\ le_at (up r) e' b g.
Proof.
  intros Hm Hb Hg Hle. destruct (up_record m l) as [Eu Em]. unfold shr_fexp.
  set (n := fexp 24 128 (Zdigits2 m + e) - e).
  assert (fexp 24 128 (Zdigits2 m + e) = Z.max (Zdigits2 m + e - 24) (-149)) as Ef by done.
  assert (0 <= up_loc l) as Hul by by destruct l.
  assert (le_at m e b g) as Hle' by (eapply le_at_mono; [|exact Hle]; lia).
  destruct (Z.le_gt_cases n 0) as [Hn|Hn].
  - rewrite shr_neg by done. rewrite Em, Eu. split; [|done]. split; [done|].
    destruct m as [|p|p]; [done| |lia]. pose proof (digits_spec p) as [_ Hd]. cbn [Zdigits2] in *.
    assert (2 ^ Z.pos (digits2_pos p) <= 2 ^ 24); [|lia]. apply Z.pow_le_mono_r; lia.
  - rewrite shr_nat by lia.
    assert (e + n <= g) as Heg.
    { assert (Zdigits2 m + e - 24 <= g) as Hd; [|lia]. unfold le_at in Hle'. destruct (Z.le_gt_cases e g) as [Hge|Hge].
      - rewrite (Z.max_l 0 (e - g)), (Z.max_r 0 (g - e)) in Hle' by lia. rewrite Z.pow_0_r, Z.mul_1_r in Hle'.
        pose proof (digits_le m (24 + (g - e)) ltac:(lia)) as Hd. rewrite Z.pow_add_r in Hd by lia.
        assert (0 < 2 ^ (g - e)) by (apply Z.pow_pos_nonneg; lia). specialize (Hd ltac:(nia)). lia.
      - rewrite (Z.max_r 0 (e - g)), (Z.max_l 0 (g - e)), Z.pow_0_r, Z.mul_1_r in Hle' by lia.
        assert (0 < 2 ^ (e - g)) by (apply Z.pow_pos_nonneg; lia).
        pose proof (digits_le m 24 ltac:(lia) ltac:(nia)) as Hd. lia. }
    destruct (shr_n_spec (Z.to_nat n) (shr_record_of_loc m l) ltac:(lia)) as [-> Hup].
    rewrite Em, Eu, Z2Nat.id in * by lia. split.
    + split; [apply Z.div_pos; [lia|apply Z.pow_pos_nonneg; lia]|]. apply Z.div_lt_upper_bound; [apply Z.pow_pos_nonneg; lia|].
      rewrite <- Z.pow_add_r by lia. destruct m as [|p|p]; [apply Z.pow_pos_nonneg; lia| |lia].
      pose proof (digits_spec p) as [_ Hd]. cbn [Zdigits2] in *. eapply Z.lt_le_trans; [exact Hd|]. apply Z.pow_le_mono_r; lia.
    + unfold le_at in *. rewrite (Z.max_l 0 (e + n - g)), (Z.max_r 0 (g - (e + n))), Z.pow_0_r, Z.mul_1_r by lia.
      rewrite (Z.max_l 0 (e - g)), (Z.max_r 0 (g - e)), Z.pow_0_r, Z.mul_1_r in Hle by lia.
      replace (g - e) with (n + (g - (e + n))) in Hle by lia. rewrite Z.pow_add_r in Hle by lia.
      assert (0 < 2 ^ n) by (apply Z.pow_pos_nonneg; lia). set (u := up (Nat.iter _ _ _)) in *. set (c := 2 ^ (g - (e + n))) in *.
      clearbody u c. set (d := 2 ^ n) in *. clearbody d. apply Z.le_ngt. intros Hbad.
      assert ((b * c + 1) * d <= u * d) by (apply Z.mul_le_mono_nonneg_r; lia). lia.
Qed.

Lemma round_aux_within m e l b g s : 0 <= m -> 0 < b < 2 ^ 24 -> -149 <= g <= 0 -> le_at (m + up_loc l) e b g ->
  within b g (binary_round_aux 24 128 s m e l) \/ s = true.
Proof.
  intros Hm Hb Hg Hle. destruct s; [by right|left]. unfold binary_round_aux.
  pose proof (shr_fexp_bound m e l b g Hm Hb ltac:(lia) Hle) as H1. destruct (shr_fexp 24 128 m e l) as [r1 e1].
  destruct H1 as [Hr1 H1]. pose proof (round_up r1) as Hu. pose proof (round_down r1) as Hd.
  set (m1 := round_nearest_even _ _) in *.
  pose proof (shr_fexp_bound m1 e1 loc_Exact b g ltac:(lia) Hb ltac:(lia)) as H2. cbn [up_loc] in H2. rewrite Z.add_0_r in H2.
  specialize (H2 ltac:(by eapply le_at_mono)). destruct (shr_fexp 24 128 m1 e1 loc_Exact) as [r2 e2]. destruct H2 as [Hr2 H2].
  assert (le_at (shr_m r2) e2 b g) as H3 by (eapply le_at_mono; [|exact H2]; unfold up; destruct (_ || _); lia).
  destruct (shr_m r2) as [|p|p]; [done| |done]. destruct (Z.leb_spec e2 (128 - 24)); [exact H3|].
  exfalso. unfold le_at in H3. rewrite (Z.max_r 0 (e2 - g)), (Z.max_l 0 (g - e2)) in H3 by lia.
  assert (2 ^ 24 <= 2 ^ (e2 - g)) by (apply Z.pow_le_mono_r; lia). change (2 ^ 0) with 1 in H3. nia.
Qed.

Lemma shr_fexp_fits m e l : 0 <= m -> let '(r, e') := shr_fexp 24 128 m e l in 0 <= shr_m r < 2 ^ 24.
Proof.
  intros Hm. destruct (up_record m l) as [_ Em]. unfold shr_fexp. set (n := fexp 24 128 (Zdigits2 m + e) - e).
  assert (Zdigits2 m - 24 <= n) as Hn by (unfold n, fexp; lia).
  assert (m < 2 ^ Z.max 24 (Zdigits2 m)) as Hd.
  { destruct m as [|p|p]; [by apply Z.pow_pos_nonneg| |lia]. pose proof (digits_spec p) as [_ Hd]. cbn [Zdigits2] in *.
    eapply Z.lt_le_trans; [exact Hd|]. apply Z.pow_le_mono_r; lia. }
  destruct (Z.le_gt_cases n 0) as [Hn0|Hn0].
  - rewrite shr_neg by done. rewrite Em. rewrite Z.max_l in Hd by lia. done.
  - rewrite shr_nat by lia. destruct (shr_n_spec (Z.to_nat n) (shr_record_of_loc m l) ltac:(lia)) as [-> _].
    rewrite Em, Z2Nat.id by lia. split; [apply Z.div_pos; [lia|apply Z.pow_pos_nonneg; lia]|].
    apply Z.div_lt_upper_bound; [apply Z.pow_pos_nonneg; lia|]. rewrite <- Z.pow_add_r by lia.
    eapply Z.lt_le_trans; [exact Hd|]. apply Z.pow_le_mono_r; lia.
Qed.

Lemma round_aux_fits s m e l : 0 <= m -> fits (binary_round_aux 24 128 s m e l).
Proof.
  intros Hm. unfold binary_round_aux. pose proof (shr_fexp_fits m e l Hm) as H1. destruct (shr_fexp 24 128 m e l) as [r1 e1].
  pose proof (round_down r1) as Hd. set (m1 := round_nearest_even _ _) in *.
  pose proof (shr_fexp_fits m1 e1 loc_Exact ltac:(lia)) as H2. destruct (shr_fexp 24 128 m1 e1 loc_Exact) as [r2 e2].
  destruct (shr_m r2) as [|p|p]; [done| |done]. destruct (e2 <=? 128 - 24); [|done]. cbn. lia.
Qed.

(** ** The operations *)
Lemma fits_mul x y : fits (x * y)%f.
Proof. unfold mul32, SFmul. destruct x, y; try done. by apply round_aux_fits. Qed.
Lemma fits_div x y : fits (x / y)%f.
Proof.
  unfold div32, SFdiv. destruct x as [| | |sx mx ex], y as [| | |sy my ey]; try done.
  unfold SFdiv_core_binary. cbv zeta. set (m' := match _ with Z0 => _ | Zpos _ => _ | Zneg _ => _ end).
  assert (0 <= m') as Hm'.
  { subst m'. destruct (_ - _ - _)%Z; try done. apply Z.shiftl_nonneg. lia. }
  clearbody m'. pose proof (Z_div_mod m' (Z.pos my) ltac:(lia)) as Hdiv. destruct (Z.div_eucl m' (Z.pos my)) as [q r].
  apply round_aux_fits. nia.
Qed.

Lemma xO_iter d m : Z.pos (Pos.iter xO m d) = Z.pos m * 2 ^ Z.pos d.
Proof.
  induction d as [|d IH] using Pos.peano_ind; [cbn; lia|].
  rewrite Pos.iter_succ, Pos2Z.inj_xO, IH, Pos2Z.inj_succ, Z.pow_succ_r by lia. lia.
Qed.
Lemma shl_align_at m e e' b g : le_at (Z.pos m) e b g ->
  let '(m', e'') := shl_align m e e' in le_at (Z.pos m') e'' b g.
Proof.
  unfold shl_align. destruct (e' - e) as [|d|d] eqn:E; try done. intros H. rewrite xO_iter.
  set (k := Z.max 0 (- e) + Z.max 0 (- g) + Z.pos d).
  apply (le_at_scaled _ _ _ _ k); [unfold k; lia..|]. rewrite (le_at_scaled _ _ _ _ k) in H by (unfold k; lia).
  replace (e + k) with (Z.pos d + (e' + k)) in H by lia. rewrite Z.pow_add_r in H by (unfold k; lia). lia.
Qed.
Lemma shl_align_fst m e e' : e' <= e -> Z.pos (fst (shl_align m e e')) = Z.pos m * 2 ^ (e - e').
Proof.
  intros He. unfold shl_align. destruct (e' - e) as [|d|d] eqn:E; [|lia|].
  - replace (e - e') with 0 by lia. by rewrite Z.mul_1_r.
  - cbn [fst]. rewrite xO_iter. f_equal. f_equal. lia.
Qed.

Lemma round_within m e b g : 0 < b < 2 ^ 24 -> -149 <= g <= 0 -> le_at (Z.pos m) e b g ->
  within b g (binary_round 24 128 false m e).
Proof.
  intros Hb Hg H. unfold binary_round. pose proof (shl_align_at m e (fexp 24 128 (Z.pos (digits2_pos m) + e)) b g H) as Ha.
  destruct (shl_align _ _ _) as [m' e']. destruct (round_aux_within (Z.pos m') e' loc_Exact b g false) as [Hw|?]; done.
Qed.

Lemma clamp_within v : fits v -> within 1 0 (clamp01 v) /\ fits (clamp01 v).
Proof.
  intros Hv. unfold clamp01. assert (one32 = S754_finite false 8388608 (-23)) as E by (by vm_compute).
  assert (within 1 0 one32 /\ fits one32) as Hone by (rewrite E; by split).
  destruct v as [s|[]| |[] m e]; try done; unfold SFltb, zero32; cbn [SFcompare].
  rewrite E. cbn [SFcompare]. destruct (Z.compare_spec (-23) e) as [<-|He|He].
  - change (Pos.compare_cont Eq 8388608 m) with (8388608 ?= m)%positive. destruct (Pos.compare_spec 8388608 m) as [<-|Hm|Hm]; try done.
    split; [|done]. change (Z.pos m * 1 <= 1 * 8388608). rewrite !Z.mul_1_r, Z.mul_1_l. by apply Z.lt_le_incl.
  - rewrite <- E. exact Hone.
  - split; [|exact Hv]. unfold within, le_at. rewrite (Z.max_l 0 (e - 0)), (Z.max_r 0 (0 - e)) by lia. cbn [fits] in Hv.
    assert (2 ^ 24 <= 2 ^ (0 - e)) by (apply Z.pow_le_mono_r; lia). change (2 ^ 0) with 1. lia.
Qed.

Lemma times_within x c e : within 1 0 x -> of_int c = S754_finite false 8388608 e -> 2 ^ 23 * 2 ^ (e + 23) = c * 2 ^ 23 ->
  0 < c < 2 ^ 24 -> -23 <= e <= 0 -> within c 0 (x * of_int c)%f.
Proof.
  intros Hx -> Ec Hc He. unfold mul32, SFmul. destruct x as [s|s| |[] m e0]; try done. cbn [xorb].
  destruct (round_aux_within (Z.pos (m * 8388608)) (e0 + e) loc_Exact c 0 false) as [Hw|?]; try done.
  rewrite Z.add_0_r. cbn [within] in Hx. set (k := Z.max 0 (- e0) + 23).
  rewrite (le_at_scaled _ _ _ _ k) in Hx by (unfold k; lia). apply (le_at_scaled _ _ _ _ (k + 23)); [unfold k; lia..|].
  rewrite Pos2Z.inj_mul. change (Z.pos 8388608) with (2 ^ 23).
  assert (2 ^ (e0 + e + (k + 23)) = 2 ^ (e0 + k) * 2 ^ (e + 23)) as ->
    by (rewrite <- Z.pow_add_r by (unfold k; lia); f_equal; lia).
  assert (2 ^ (0 + (k + 23)) = 2 ^ (0 + k) * 2 ^ 23) as -> by (rewrite <- Z.pow_add_r by (unfold k; lia); f_equal; lia).
  set (a := Z.pos m) in *. set (A := 2 ^ (e0 + k)) in *. set (B := 2 ^ (0 + k)) in *. set (C := 2 ^ (e + 23)) in *.
  replace (a * 2 ^ 23 * (A * C)) with (a * A * (2 ^ 23 * C)) by ring.
  replace (c * (B * 2 ^ 23)) with (1 * B * (2 ^ 23 * C)) by (rewrite Ec; ring).
  apply Z.mul_le_mono_nonneg_r; [|exact Hx]. rewrite Ec. apply Z.mul_nonneg_nonneg; [lia|done].
Qed.

Lemma plus_half_within x : within 128 0 x -> within 257 (-1) (x + half32)%f.
Proof.
  intros Hx. assert (half32 = S754_finite false 8388608 (-24)) as E by (by vm_compute). unfold add32, SFadd. rewrite E.
  destruct x as [s|s| |[] m e]; try done. cbv zeta. cbn [cond_Zopp]. set (ez := Z.min e (-24)). rewrite !shl_align_fst by lia.
  cbn [within] in Hx.
  assert (le_at (Z.pos m * 2 ^ (e - ez) + 8388608 * 2 ^ (-24 - ez)) ez 257 (-1)) as Hle.
  { set (k := 1 - ez). rewrite (le_at_scaled _ _ _ _ k) in Hx by (unfold k; lia). apply (le_at_scaled _ _ _ _ k); [unfold k; lia..|].
    rewrite Z.mul_add_distr_r, <- !Z.mul_assoc, <- !Z.pow_add_r by (unfold k; lia).
    replace (e - ez + (ez + k)) with (e + k) by lia. replace (-24 - ez + (ez + k)) with (-24 + k) by lia.
    assert (2 ^ (0 + k) = 2 * 2 ^ (-1 + k)) as E2
      by (change 2 with (2 ^ 1) at 2; rewrite <- Z.pow_add_r by (unfold k; lia); f_equal; lia).
    rewrite E2 in Hx.
    assert (8388608 * 2 ^ (-24 + k) = 2 ^ (-1 + k)) as ->; [|lia]. change 8388608 with (2 ^ 23).
    rewrite <- Z.pow_add_r by (unfold k; lia). f_equal. lia. }
  assert (0 < 2 ^ (e - ez)) by (apply Z.pow_pos_nonneg; lia). assert (0 < 2 ^ (-24 - ez)) by (apply Z.pow_pos_nonneg; lia).
  destruct (Z.pos m * 2 ^ (e - ez) + 8388608 * 2 ^ (-24 - ez)) as [|p|p] eqn:Es; [lia| |lia].
  by apply round_within.
Qed.

Lemma truncate_within x b g : within b g x -> 0 <= b -> g <= 0 -> 0 <= truncate x <= b / 2 ^ (- g).
Proof.
  intros Hx Hb Hg. assert (0 < 2 ^ (- g)) by (apply Z.pow_pos_nonneg; lia).
  assert (0 <= b / 2 ^ (- g)) by (apply Z.div_pos; lia). destruct x as [s|s| |[] m e]; cbn [truncate]; try lia.
  cbn [within] in Hx. destruct (Z.leb_spec 0 e).
  - rewrite Z.shiftl_mul_pow2 by lia. split; [apply Z.mul_nonneg_nonneg; [lia|apply Z.pow_nonneg; lia]|].
    apply Z.div_le_lower_bound; [lia|]. rewrite (le_at_scaled _ _ _ _ (- g)) in Hx by lia.
    rewrite Z.pow_add_r in Hx by lia. replace (g + - g) with 0 in Hx by lia. change (2 ^ 0) with 1 in Hx. lia.
  - rewrite Z.shiftr_div_pow2 by lia. assert (0 < 2 ^ (- e)) by (apply Z.pow_pos_nonneg; lia).
    split; [apply Z.div_pos; lia|]. apply Z.div_le_lower_bound; [lia|].
    rewrite (le_at_scaled _ _ _ _ (- g - e)) in Hx by lia. replace (e + (- g - e)) with (- g) in Hx by lia.
    replace (g + (- g - e)) with (- e) in Hx by lia.
    pose proof (Z.mul_div_le (Z.pos m) (2 ^ (- e)) ltac:(lia)). pose proof (Z.div_pos (Z.pos m) (2 ^ (- e)) ltac:(lia) ltac:(lia)).
    assert (2 ^ (- g) * (Z.pos m / 2 ^ (- e)) * 2 ^ (- e) <= b * 2 ^ (- e)); [|nia].
    transitivity (Z.pos m * 2 ^ (- g)); [|lia].
    replace (2 ^ (- g) * (Z.pos m / 2 ^ (- e)) * 2 ^ (- e)) with (2 ^ (- g) * (2 ^ (- e) * (Z.pos m / 2 ^ (- e)))) by ring. nia.
Qed.

(** ** The tables *)

(** The step a cell's fill is quantised to is one the table of settled shades has,
    whatever the counts are. *)
Theorem density_in_table live_bytes cell_bytes : 0 <= quantised_density live_bytes cell_bytes <= kDensitySteps.
Proof.
  unfold quantised_density, kDensitySteps. destruct (cell_bytes =? 0); [lia|].
  destruct (clamp_within _ (fits_div (of_int live_bytes) (of_int cell_bytes))) as [Hc _].
  apply (times_within _ 128 (-16)) in Hc; try done.
  apply plus_half_within, truncate_within in Hc; [|lia..]. exact Hc.
Qed.

Lemma sqrt_within x : fits x -> SFltb zero32 x = true -> SFleb one32 x = false -> within 1 0 (sqrt32 x).
Proof.
  intros Hf H0 H1. unfold sqrt32, SFsqrt. destruct x as [s|[]| |[] m e]; try done.
  assert (one32 = S754_finite false 8388608 (-23)) as E by (by vm_compute). rewrite E in H1.
  assert (Z.pos m * 2 ^ Z.max 0 e < 2 ^ Z.max 0 (- e) /\ e < 0) as [Hlt He].
  { unfold SFleb in H1. cbn [SFcompare] in H1. cbn [fits] in Hf. destruct (Z.compare_spec (-23) e) as [<-|He|He]; try done.
    - change (Pos.compare_cont Eq 8388608 m) with (8388608 ?= m)%positive in H1. destruct (Pos.compare_spec 8388608 m) as [|?|Hm]; try done.
      split; [|done]. change (Z.pos m * 1 < 8388608). by rewrite Z.mul_1_r.
    - rewrite (Z.max_l 0 e), (Z.max_r 0 (- e)) by lia. assert (2 ^ 24 <= 2 ^ (- e)) by (apply Z.pow_le_mono_r; lia).
      change (2 ^ 0) with 1. lia. }
  rewrite (Z.max_l 0 e), (Z.max_r 0 (- e)), Z.pow_0_r, Z.mul_1_r in Hlt by lia.
  unfold SFsqrt_core_binary. cbv zeta. set (e' := Z.min _ _).
  assert (e' <= Z.div2 e) as He' by (unfold e'; lia). rewrite Z.div2_div in He'.
  assert (2 * e' <= e) as Hee by (Z.div_mod_to_equations; lia).
  set (m' := match _ with Z0 => _ | Zpos _ => _ | Zneg _ => _ end).
  assert (m' = Z.pos m * 2 ^ (e - 2 * e')) as Em'.
  { subst m'. destruct (e - 2 * e') as [|p|p] eqn:Ed; [lia|by rewrite Z.shiftl_mul_pow2|lia]. }
  clearbody m'. assert (0 <= m') as Hm' by (rewrite Em'; apply Z.mul_nonneg_nonneg; [lia|apply Z.pow_nonneg; lia]).
  pose proof (Z.sqrtrem_spec m' Hm') as Hsq. destruct (Z.sqrtrem m') as [q r]. destruct Hsq as [Eq Hr].
  set (l := if r =? 0 then _ else _). assert (0 <= q) as Hq by nia.
  assert (m' < 2 ^ (- e') * 2 ^ (- e')) as Hm2.
  { rewrite Em', <- Z.pow_add_r by lia. replace (- e' + - e') with (- e + (e - 2 * e')) by lia. rewrite Z.pow_add_r by lia.
    apply Z.mul_lt_mono_pos_r; [apply Z.pow_pos_nonneg; lia|done]. }
  assert (q < 2 ^ (- e')) as Hq2 by nia.
  destruct (round_aux_within q e' l 1 0 false) as [Hw|?]; try done.
  unfold le_at. rewrite (Z.max_l 0 (e' - 0)), (Z.max_r 0 (0 - e')) by (Z.div_mod_to_equations; lia).
  replace (0 - e') with (- e') by lia. change (2 ^ 0) with 1. assert (up_loc l <= 1) by (by destruct l). lia.
Qed.

(** The index at which the table of guesses is read is inside it. *)
Theorem guess_in_table x : fits x -> SFltb zero32 x = true -> SFleb one32 x = false ->
  0 <= truncate (sqrt32 x * of_int kGuessBins)%f <= kGuessBins.
Proof.
  intros Hf H0 H1. pose proof (sqrt_within x Hf H0 H1) as Hs. unfold kGuessBins.
  apply (times_within _ 1024 (-13)) in Hs; try done. apply truncate_within in Hs; [|lia..]. exact Hs.
Qed.
