(* ===== verification/FloatColorProofs.v ===== *)
(** * Encoding a channel is exact

    The code an intensity gets is the number of thresholds at or below it,
    whatever the table of guesses answers; the table only shortens the walk.
    Every colour is a colour, even of an intensity that is not a number. *)

From Stdlib Require Import Floats.SpecFloat Sorted.
From S2P Require Import Prelude Theme HeatMap HeatColor FloatColor FloatBounds.

(** ** The order of floats *)

Definition not_nan (x : f32) : Prop := x <> S754_nan.

Lemma le_nan x y : SFleb x y = true -> not_nan x /\ not_nan y.
Proof. unfold SFleb, not_nan. by destruct x, y. Qed.
Lemma lt_nan x y : SFltb x y = true -> not_nan x /\ not_nan y.
Proof. unfold SFltb, not_nan. by destruct x, y. Qed.

Lemma compare_antisym x y : SFcompare y x = CompOpp <$> SFcompare x y.
Proof.
  destruct x as [sx|sx| |sx mx ex], y as [sy|sy| |sy my ey]; try done; try (by destruct sx); try (by destruct sy); try (by destruct sx, sy).
  cbn. rewrite (Z.compare_antisym ex ey). change (Pos.compare_cont Eq my mx) with (Pos.compare my mx).
  change (Pos.compare_cont Eq mx my) with (Pos.compare mx my). rewrite (Pos.compare_antisym mx my).
  destruct sx, sy; try done; destruct (ex ?= ey); try done; by destruct (mx ?= my)%positive.
Qed.

(** Of two numbers one is below the other or it is not. *)
Lemma lt_negb_le x y : not_nan x -> not_nan y -> SFltb x y = negb (SFleb y x).
Proof.
  intros Hx Hy. unfold SFltb, SFleb. rewrite (compare_antisym x y).
  assert (SFcompare x y <> None) as Hc by by destruct x, y.
  destruct (SFcompare x y) as [[]|]; done.
Qed.

Lemma compare_lex (e1 e2 e3 : Z) (m1 m2 m3 : positive) :
  match e1 ?= e2 with Eq => (m1 ?= m2)%positive | c => c end <> Gt ->
  match e2 ?= e3 with Eq => (m2 ?= m3)%positive | c => c end <> Gt ->
  match e1 ?= e3 with Eq => (m1 ?= m3)%positive | c => c end <> Gt.
Proof.
  destruct (Z.compare_spec e1 e2), (Z.compare_spec e2 e3), (Z.compare_spec e1 e3); try lia; try done;
    destruct (Pos.compare_spec m1 m2), (Pos.compare_spec m2 m3), (Pos.compare_spec m1 m3); try lia; done.
Qed.
Lemma compare_lex_opp (e1 e2 e3 : Z) (m1 m2 m3 : positive) :
  match e1 ?= e2 with Eq => CompOpp (m1 ?= m2)%positive | Lt => Gt | Gt => Lt end <> Gt ->
  match e2 ?= e3 with Eq => CompOpp (m2 ?= m3)%positive | Lt => Gt | Gt => Lt end <> Gt ->
  match e1 ?= e3 with Eq => CompOpp (m1 ?= m3)%positive | Lt => Gt | Gt => Lt end <> Gt.
Proof.
  destruct (Z.compare_spec e1 e2), (Z.compare_spec e2 e3), (Z.compare_spec e1 e3); try lia; try done;
    destruct (Pos.compare_spec m1 m2), (Pos.compare_spec m2 m3), (Pos.compare_spec m1 m3); try lia; done.
Qed.

Lemma le_compare x y : SFleb x y = true <-> exists c, SFcompare x y = Some c /\ c <> Gt.
Proof. unfold SFleb. destruct (SFcompare x y) as [[]|]; split; try done; try (intros (? & [= <-] & ?); done); eauto. Qed.

Lemma le_trans x y z : SFleb x y = true -> SFleb y z = true -> SFleb x z = true.
Proof.
  rewrite !le_compare. intros (c1 & E1 & H1) (c2 & E2 & H2).
  destruct x as [sx|sx| |sx mx ex], y as [sy|sy| |sy my ey], z as [sz|sz| |sz mz ez]; try done; cbn in *;
    repeat match goal with H : bool |- _ => destruct H end; simplify_eq; eauto;
    try (eexists; split; [done|done]).
  - eexists. split; [done|]. by apply (compare_lex_opp ex ey ez mx my mz).
  - eexists. split; [done|]. by apply (compare_lex ex ey ez mx my mz).
Qed.

(** ** The walk *)

Section Walk.
Context (t : list f32) (x : f32) (Hx : not_nan x).
Context (Ht : StronglySorted (fun a b => SFleb a b = true) t) (Hnan : Forall not_nan t).

Definition below (c : nat) : bool := SFleb (t !!! c) x.

(** How many thresholds are at or below [x]. *)
Definition count_below (l : list f32) : nat := length (filter (fun a => SFleb a x = true) l).

Lemma below_prefix : (count_below t <= length t)%nat /\
  forall c, (c < length t)%nat -> below c = (c <? count_below t)%nat.
Proof.
  unfold below. clear Hnan. induction Ht as [|a l Hl IH Ha]; [split; [done|cbn; lia]|].
  specialize (IH Hl) as [Hn IH]. unfold count_below in *. rewrite filter_cons. destruct (decide (SFleb a x = true)) as [Hax|Hax].
  - cbn [length]. split; [lia|]. intros [|c] Hc; [done|]. cbn [lookup_total list_lookup_total]. rewrite IH by (cbn in Hc; lia). done.
  - assert (forall b, b ∈ l -> SFleb b x = false) as Hall.
    { intros b Hb. apply not_true_is_false. intros Hbx. apply Hax. rewrite Forall_forall in Ha. by eapply le_trans; [apply Ha|]. }
    assert (filter (fun a => SFleb a x = true) l = []) as ->.
    { clear - Hall. induction l as [|b l IH]; [done|]. rewrite filter_cons_False by (rewrite Hall by left; done). apply IH. intros. apply Hall. by right. }
    split; [cbn; lia|]. intros [|c] Hc.
    + by apply not_true_is_false.
    + change ((a :: l) !!! S c) with (l !!! c). cbn [length]. destruct (lookup_lt_is_Some_2 l c ltac:(cbn in Hc; lia)) as [b Eb]. rewrite (list_lookup_total_correct _ _ _ Eb).
      apply Hall. by eapply list_elem_of_lookup_2.
Qed.

Lemma walk_up_spec fuel : forall c, (c <= length t)%nat -> (length t <= c + fuel)%nat ->
  walk_up fuel t x c = Nat.max c (count_below t).
Proof.
  destruct below_prefix as [Hn Hb]. induction fuel as [|fuel IH]; intros c Hc Hf; cbn [walk_up]; [lia|].
  destruct (Nat.ltb_spec c (length t)) as [Hlt|Hge]; cbn [andb]; [|lia].
  fold (below c). rewrite Hb by done. destruct (Nat.ltb_spec c (count_below t)); [|lia]. rewrite IH by lia. lia.
Qed.

Lemma walk_down_spec c : (c <= length t)%nat -> (count_below t <= c)%nat -> walk_down t x c = count_below t.
Proof.
  destruct below_prefix as [Hn Hb]. induction c as [|c IH]; intros Hc Hle; cbn [walk_down]; [lia|].
  destruct (lookup_lt_is_Some_2 t c ltac:(lia)) as [b Eb].
  assert (not_nan (t !!! c)) as Hbn by (rewrite (list_lookup_total_correct _ _ _ Eb); by eapply Forall_lookup_1 in Hnan).
  rewrite lt_negb_le by done. fold (below c). rewrite Hb by lia.
  destruct (Nat.ltb_spec c (count_below t)); cbn [negb]; [lia|]. apply IH; lia.
Qed.
End Walk.

(** The walks stay in the table, whatever they compare. *)
Lemma walk_up_range fuel t x : forall c, (c <= length t)%nat -> (walk_up fuel t x c <= length t)%nat.
Proof.
  induction fuel as [|fuel IH]; intros c Hc; cbn [walk_up]; [done|].
  destruct (Nat.ltb_spec c (length t)); cbn [andb]; [|done]. destruct (SFleb _ _); [|done]. apply IH. lia.
Qed.
Lemma walk_down_range t x c : (walk_down t x c <= c)%nat.
Proof. induction c as [|c IH]; cbn [walk_down]; [done|]. destruct (SFltb _ _); lia. Qed.

Section Encode.
Context `{!LibM}.

Lemma kEncode_length : length kEncode = kEncodeSize.
Proof. unfold kEncode. by rewrite length_fmap, length_seqZ. Qed.

Lemma guess_range j : (kGuess !!! j <= kEncodeSize)%nat.
Proof.
  rewrite list_lookup_total_alt. destruct (kGuess !! j) as [g|] eqn:E; [|cbn; lia]. cbn. unfold kGuess in E.
  rewrite list_lookup_fmap in E. destruct (seqZ _ _ !! j) as [i|]; [|done]. injection E as <-.
  unfold guess_at. rewrite <- kEncode_length at 2. apply walk_up_range. lia.
Qed.

Lemma encode_channel_range x : 0 <= encode_channel x <= 255.
Proof.
  unfold encode_channel. destruct (negb _); [lia|]. destruct (SFleb one32 x); [lia|]. cbv zeta.
  set (g := kGuess !!! _). assert (g <= length kEncode)%nat as Hg by (rewrite kEncode_length; apply guess_range).
  pose proof (walk_up_range kEncodeSize kEncode x g Hg) as Hu. pose proof (walk_down_range kEncode x (walk_up kEncodeSize kEncode x g)) as Hd.
  rewrite kEncode_length in Hu. unfold kEncodeSize in *. lia.
Qed.

(** C38: A colour is encoded exactly and is always a colour.  Where the table of
    thresholds is sorted, the code of an intensity strictly between black and
    white is the number of thresholds at or below it, whatever the guessing table
    holds at the index computed, and that index is inside the table; and whatever the intensities are, not a number
    and infinities included, the packed result is a colour of 24 bits. *)
Theorem encode_exact (x : f32) (c : Lab) :
  StronglySorted (fun a b => SFleb a b = true) kEncode -> Forall not_nan kEncode ->
  (SFltb zero32 x = true -> SFleb one32 x = false -> encode_channel x = Z.of_nat (count_below x kEncode) /\
    (fits x -> 0 <= truncate (sqrt32 x * of_int kGuessBins)%f < Z.of_nat (length kGuess))) /\
  (not_nan x -> SFleb x zero32 = true -> encode_channel x = 0) /\
  (SFleb one32 x = true -> encode_channel x = 255) /\
  0 <= from_oklab c < 2 ^ 24.
Proof.
  intros Hs Hn. split; [|split; [|split]].
  - intros H0 H1. split.
    2: { intros Hf. pose proof (guess_in_table x Hf H0 H1). unfold kGuess. rewrite length_fmap, length_seqZ. unfold kGuessBins in *. lia. }
    unfold encode_channel. rewrite H0, H1. cbn [negb]. cbv zeta. f_equal. apply lt_nan in H0 as [_ Hx].
    assert (kGuess !!! Z.to_nat (truncate (sqrt32 x * of_int kGuessBins)%f) <= length kEncode)%nat as Hg
      by (rewrite kEncode_length; apply guess_range).
    destruct (below_prefix kEncode x Hs) as [Hb _].
    rewrite walk_up_spec by (try done; rewrite kEncode_length; lia). apply walk_down_spec; try done; lia.
  - intros Hx H0. unfold encode_channel. by rewrite (lt_negb_le zero32 x), H0.
  - intros H1. unfold encode_channel. rewrite H1.
    assert (SFltb zero32 x = true) as ->; [|done].
    rewrite lt_negb_le by (done || apply (le_nan _ _ H1)). apply eq_true_not_negb. intros H0.
    pose proof (le_trans _ _ _ H1 H0) as Hbad. by vm_compute in Hbad.
  - unfold from_oklab. cbv zeta.
    match goal with |- context [Z.lor (Z.lor (Z.shiftl (encode_channel ?r) 16) (Z.shiftl (encode_channel ?g) 8)) (encode_channel ?b)] =>
      pose proof (encode_channel_range r); pose proof (encode_channel_range g); pose proof (encode_channel_range b);
      generalize dependent (encode_channel r); generalize dependent (encode_channel g); generalize dependent (encode_channel b) end.
    intros b Hb g Hg r Hr.
    assert (forall a k n, 0 <= k -> 0 <= n -> 0 <= a < 2 ^ k -> 0 <= Z.shiftl a n < 2 ^ (k + n)) as Hsh.
    { intros a k n Hk Hn' Ha. rewrite Z.shiftl_mul_pow2, Z.pow_add_r by lia. nia. }
    pose proof (Hsh r 8 16 ltac:(lia) ltac:(lia) ltac:(lia)). pose proof (Hsh g 8 8 ltac:(lia) ltac:(lia) ltac:(lia)).
    assert (forall a b k, 0 <= k -> 0 <= a < 2 ^ k -> 0 <= b < 2 ^ k -> 0 <= Z.lor a b < 2 ^ k) as Hlor.
    { intros a a' k Hk Ha Ha'. split; [apply Z.lor_nonneg; lia|]. assert (Z.shiftr (Z.lor a a') k = 0) as Hz
        by (rewrite Z.shiftr_lor, !Z.shiftr_div_pow2, !Z.div_small by lia; done).
      generalize dependent (Z.lor a a'). intros z Hz. rewrite Z.shiftr_div_pow2 in Hz by lia.
      pose proof (Z.div_mod z (2 ^ k) ltac:(lia)). pose proof (Z.mod_pos_bound z (2 ^ k) ltac:(lia)). nia. }
    apply Hlor; [lia|apply Hlor; lia|lia].
Qed.
End Encode.

(** ** A transfer function to evaluate on

    Squares and identities in place of the C library's functions: enough to have
    a sorted table. *)
#[local] Instance square_lib : LibM := {| powf x _ := mul32 x x; cbrtf := id; pow64 x _ := SFmul 53 1024 x x |}.

Fixpoint ascending (l : list f32) : bool :=
  match l with a :: l => match l with b :: _ => SFleb a b && ascending l | [] => true end | [] => true end.
Lemma ascending_sorted l : ascending l = true -> StronglySorted (fun a b => SFleb a b = true) l.
Proof.
  intros Ha. apply Sorted_StronglySorted; [intros a b c; apply le_trans|].
  induction l as [|a l IH]; [constructor|]. constructor; [apply IH|]; destruct l as [|b l]; try done; try (by constructor);
    cbn in Ha; apply andb_true_iff in Ha as [H1 H2]; [done|by constructor].
Qed.

Definition numbers (l : list f32) : bool := forallb (fun x => match x with S754_nan => false | _ => true end) l.
Lemma numbers_not_nan l : numbers l = true -> Forall not_nan l.
Proof. unfold numbers. rewrite forallb_forall, Forall_forall. intros Hl x Hx ->. by specialize (Hl _ (proj1 (list_elem_of_In _ _) Hx)). Qed.

Lemma encode_exact_witness :
  encode_channel (lit 3 10) = Z.of_nat (count_below (lit 3 10) kEncode) /\ 0 <= from_oklab (to_oklab 0x4EC94E) < 2 ^ 24.
Proof.
  assert (ascending kEncode = true) as H1 by (by vm_compute).
  assert (numbers kEncode = true) as H2 by (by vm_compute).
  assert (SFltb zero32 (lit 3 10) = true) as H3 by (by vm_compute).
  assert (SFleb one32 (lit 3 10) = false) as H4 by (by vm_compute).
  destruct (encode_exact (lit 3 10) (to_oklab 0x4EC94E) (ascending_sorted _ H1) (numbers_not_nan _ H2)) as (E & _ & _ & Hr).
  exact (conj (proj1 (E H3 H4)) Hr).
Defined.
