(* ===== verification/Preload.v ===== *)
(** * The interposed allocator (src/src/preload/preload.c)

    The library loaded into the target: the bootstrap arena that serves the
    requests [dlsym] makes before the real allocator is known, the resolution of
    the real functions, the hooks, and the life of the shared segment.  The C
    library's allocator is an interface, [Libc]; [dlsym] enters as the calls it
    makes into the hooks and whether it finds the symbol.  One thread is
    modelled here; its memory is a map from addresses to bytes.  [None] is a
    process that has called [_exit]. *)

From Stdlib Require Import String.
From stdpp Require Import gmap.
From S2P Require Import Prelude Abi Ring.

Definition HV_BOOTSTRAP_BYTES : Z := 64 * 1024.
Definition HV_BOOTSTRAP_MAGIC : Z := 0x484F4F5453545250.
Definition sizeof_HvBootHeader : Z := 16.
Definition ENOMEM : Z := 12.
Definition EEXIST : Z := 17.

(** The real allocator; a null pointer is 0.  [lc_posix_memalign] gives the
    return code and what the pointer's cell holds afterwards. *)
Class Libc (L : Type) := {
  lc_malloc : L -> Z -> L * Z;
  lc_free : L -> Z -> L;
  lc_calloc : L -> Z -> Z -> L * Z;
  lc_realloc : L -> Z -> Z -> L * Z;
  lc_posix_memalign : L -> Z -> Z -> Z -> L * (Z * Z);
  lc_aligned_alloc : L -> Z -> Z -> L * Z;
  lc_memalign : L -> Z -> Z -> L * Z;
  lc_valloc : L -> Z -> L * Z;
  lc_pvalloc : L -> Z -> L * Z;
  lc_usable_size : L -> Z -> Z
}.

(** The symbols, in the order they are looked up. *)
Inductive Sym :=
  | SMalloc | SFree | SCalloc | SRealloc | SPosixMemalign | SAlignedAlloc | SMemalign | SValloc | SPvalloc | SUsable.
#[export] Instance Sym_eq_dec : EqDecision Sym.
Proof. solve_decision. Defined.
Definition lookups : list Sym :=
  [SMalloc; SFree; SCalloc; SRealloc; SPosixMemalign; SAlignedAlloc; SMemalign; SValloc; SPvalloc; SUsable].

(** ** Memory *)

Definition byte_at (m : gmap Z Z) (a : Z) : Z := default 0 (m !! a).
Fixpoint store_le (n : nat) (m : gmap Z Z) (a v : Z) : gmap Z Z :=
  match n with O => m | Datatypes.S n => store_le n (<[a := v mod 256]> m) (a + 1) (v / 256) end.
Fixpoint load_le (n : nat) (m : gmap Z Z) (a : Z) : Z :=
  match n with O => 0 | Datatypes.S n => byte_at m a + 256 * load_le n m (a + 1) end.
Fixpoint memset0 (n : nat) (m : gmap Z Z) (a : Z) : gmap Z Z :=
  match n with O => m | Datatypes.S n => memset0 n (<[a := 0]> m) (a + 1) end.
Fixpoint memcpy (n : nat) (m : gmap Z Z) (dst src : Z) : gmap Z Z :=
  match n with O => m | Datatypes.S n => memcpy n (<[dst := byte_at m src]> m) (dst + 1) (src + 1) end.

(** ** The state *)

Record Preload (L : Type) := mkPreload {
  pl_syms : list Sym;          (* the [g_real_] pointers that are set *)
  pl_ready : bool;
  pl_resolving : bool;
  pl_used : Z;
  pl_mem : gmap Z Z;
  pl_ring : option Ring;
  pl_in_hook : bool;
  pl_tid : Z;
  pl_errno : Z;
  pl_ticks : nat;              (* clock readings so far *)
  pl_libc : L;
  pl_log : list (PushArgs * Z) (* every push and its answer; a history variable *)
}.
Arguments mkPreload {L}.
Arguments pl_syms {L}. Arguments pl_ready {L}. Arguments pl_resolving {L}. Arguments pl_used {L}.
Arguments pl_mem {L}. Arguments pl_ring {L}. Arguments pl_in_hook {L}. Arguments pl_tid {L}.
Arguments pl_errno {L}. Arguments pl_ticks {L}. Arguments pl_libc {L}. Arguments pl_log {L}.

Definition fresh_preload {L} (l : L) : Preload L := mkPreload [] false false 0 ∅ None false 0 0 0 l [].

Inductive Call :=
  | CMalloc (n : Z) | CFree (p : Z) | CCalloc (nmemb size : Z) | CRealloc (p n : Z)
  | CPosixMemalign (old alignment n : Z) | CAlignedAlloc (alignment n : Z) | CMemalign (alignment n : Z)
  | CValloc (n : Z) | CPvalloc (n : Z).

(** What one [dlsym] does: its calls into the hooks, then its answer. *)
Record Lookup := mkLookup { lk_calls : list Call; lk_found : bool }.

Section Preload.
Context {L : Type} `{!Libc L}.
(** The address of [g_bootstrap], the thread's id, the clock's readings as
    seconds and nanoseconds, and the answers of [dlsym]. *)
Context (base tid : Z) (clock : nat -> Z * Z) (dl : list Lookup).
Notation P := (Preload L).
Implicit Types s : P.

Definition set_syms s (l : list Sym) (ready resolving : bool) : P :=
  mkPreload l ready resolving (pl_used s) (pl_mem s) (pl_ring s) (pl_in_hook s) (pl_tid s) (pl_errno s) (pl_ticks s)
    (pl_libc s) (pl_log s).
Definition set_arena s (used : Z) (m : gmap Z Z) : P :=
  mkPreload (pl_syms s) (pl_ready s) (pl_resolving s) used m (pl_ring s) (pl_in_hook s) (pl_tid s) (pl_errno s)
    (pl_ticks s) (pl_libc s) (pl_log s).
Definition set_mem s (m : gmap Z Z) : P := set_arena s (pl_used s) m.
Definition set_ring s (r : option Ring) : P :=
  mkPreload (pl_syms s) (pl_ready s) (pl_resolving s) (pl_used s) (pl_mem s) r (pl_in_hook s) (pl_tid s) (pl_errno s)
    (pl_ticks s) (pl_libc s) (pl_log s).
Definition set_hook s (b : bool) : P :=
  mkPreload (pl_syms s) (pl_ready s) (pl_resolving s) (pl_used s) (pl_mem s) (pl_ring s) b (pl_tid s) (pl_errno s)
    (pl_ticks s) (pl_libc s) (pl_log s).
Definition set_errno s (e : Z) : P :=
  mkPreload (pl_syms s) (pl_ready s) (pl_resolving s) (pl_used s) (pl_mem s) (pl_ring s) (pl_in_hook s) (pl_tid s) e
    (pl_ticks s) (pl_libc s) (pl_log s).
Definition set_libc s (l : L) : P :=
  mkPreload (pl_syms s) (pl_ready s) (pl_resolving s) (pl_used s) (pl_mem s) (pl_ring s) (pl_in_hook s) (pl_tid s)
    (pl_errno s) (pl_ticks s) l (pl_log s).
Definition resolved s (x : Sym) : bool := bool_decide (x ∈ pl_syms s).

(** ** The bootstrap arena *)

Definition hv_is_bootstrap_ptr (p : Z) : bool := (base <=? p) && (p <? base + HV_BOOTSTRAP_BYTES).

Definition hv_bootstrap_alloc s (n : Z) : option (P * Z) :=
  let payload := Z.land (n ⊞ 15) (Z.lnot 15) in
  let need := sizeof_HvBootHeader ⊞ payload in
  if payload <? n then Some (s, 0)
  else
    let off := pl_used s in
    if HV_BOOTSTRAP_BYTES <? off ⊞ need then None
    else
      let m := store_le 8 (pl_mem s) (base + off) n in
      let m := store_le 8 m (base + off + 8) HV_BOOTSTRAP_MAGIC in
      Some (set_arena s (off ⊞ need) m, base + off + sizeof_HvBootHeader).

Definition hv_bootstrap_size s (p : Z) : Z :=
  let hdr := p - sizeof_HvBootHeader in
  if load_le 8 (pl_mem s) (hdr + 8) =? HV_BOOTSTRAP_MAGIC then load_le 8 (pl_mem s) hdr else 0.

(** ** Events *)

Definition hv_tid s : P * Z :=
  if pl_tid s =? 0
  then (mkPreload (pl_syms s) (pl_ready s) (pl_resolving s) (pl_used s) (pl_mem s) (pl_ring s) (pl_in_hook s)
          (u32 tid) (pl_errno s) (pl_ticks s) (pl_libc s) (pl_log s), u32 tid)
  else (s, pl_tid s).

Definition hv_now_ns s : P * Z :=
  let '(sec, nsec) := clock (pl_ticks s) in
  (mkPreload (pl_syms s) (pl_ready s) (pl_resolving s) (pl_used s) (pl_mem s) (pl_ring s) (pl_in_hook s)
     (pl_tid s) (pl_errno s) (Datatypes.S (pl_ticks s)) (pl_libc s) (pl_log s),
   sec ⊠ 1000000000 ⊞ nsec).

Definition hv_usable s (p : Z) : Z :=
  if (p =? 0) || negb (resolved s SUsable) then 0
  else
    let u := lc_usable_size (pl_libc s) p in
    if UINT32_MAX <? u then UINT32_MAX else u.

Definition hv_emit s (op ptr size usable : Z) : P :=
  match pl_ring s with
  | None => s
  | Some r =>
      let '(s, now) := hv_now_ns s in
      let '(s, t) := hv_tid s in
      let a := mkPushArgs now ptr size usable t op in
      let '(r, ok) := hv_ring_push r a in
      mkPreload (pl_syms s) (pl_ready s) (pl_resolving s) (pl_used s) (pl_mem s) (Some r) (pl_in_hook s) (pl_tid s)
        (pl_errno s) (pl_ticks s) (pl_libc s) (pl_log s ++ [(a, ok)])
  end.

(** [if (!g_in_hook) { g_in_hook = 1; hv_emit(op, p, size, hv_usable(p)); g_in_hook = 0; }] *)
Definition report s (op p size : Z) : P :=
  if pl_in_hook s then s
  else
    let s := set_hook s true in
    set_hook (hv_emit s op p size (hv_usable s p)) false.

(** ** The hooks, over the resolution of the symbols *)

Section Hooks.
Context (resolve : P -> option P).

(** [if (g_real_x == NULL) hv_resolve_symbols();] *)
Definition ensure (x : Sym) s : option P := if resolved s x then Some s else resolve s.

Definition malloc s (n : Z) : option (P * Z) :=
  s ← ensure SMalloc s;
  if negb (resolved s SMalloc) then hv_bootstrap_alloc s n
  else
    let '(l, p) := lc_malloc (pl_libc s) n in
    let s := set_libc s l in
    Some (if p =? 0 then s else report s HV_OP_MALLOC p n, p).

Definition free s (p : Z) : option P :=
  if p =? 0 then Some s
  else if hv_is_bootstrap_ptr p then Some s
  else
    s ← ensure SFree s;
    if negb (resolved s SFree) then Some s
    else
      let s := report s HV_OP_FREE p 0 in
      Some (set_libc s (lc_free (pl_libc s) p)).

Definition mul_overflow (a b : Z) : bool := 2 ^ 64 <=? a * b.

Definition calloc s (nmemb size : Z) : option (P * Z) :=
  s ← ensure SCalloc s;
  if negb (resolved s SCalloc) then
    if mul_overflow nmemb size then Some (s, 0)
    else
      '(s, p) ← hv_bootstrap_alloc s (nmemb * size);
      Some (if p =? 0 then s else set_mem s (memset0 (Z.to_nat (nmemb * size)) (pl_mem s) p), p)
  else
    let '(l, p) := lc_calloc (pl_libc s) nmemb size in
    let s := set_libc s l in
    let total := if mul_overflow nmemb size then 0 else nmemb * size in
    Some (if p =? 0 then s else report s HV_OP_CALLOC p total, p).

Definition realloc s (ptr n : Z) : option (P * Z) :=
  s ← ensure SRealloc s;
  if negb (resolved s SRealloc) then Some (s, 0)
  else if ptr =? 0 then malloc s n
  else if hv_is_bootstrap_ptr ptr then
    let old := hv_bootstrap_size s ptr in
    '(s, p) ← malloc s n;
    Some (if p =? 0 then s else set_mem s (memcpy (Z.to_nat (if old <? n then old else n)) (pl_mem s) p ptr), p)
  else
    let s := report s HV_OP_FREE ptr 0 in
    let '(l, p) := lc_realloc (pl_libc s) ptr n in
    let s := set_libc s l in
    Some (report s HV_OP_REALLOC (if p =? 0 then ptr else p) n, p).

(** The return code and what the pointer's cell holds, [old] before. *)
Definition posix_memalign s (old alignment n : Z) : option (P * (Z * Z)) :=
  s ← ensure SPosixMemalign s;
  if negb (resolved s SPosixMemalign) then Some (s, (ENOMEM, old))
  else
    let '(l, (rc, p)) := lc_posix_memalign (pl_libc s) old alignment n in
    let s := set_libc s l in
    Some (if (rc =? 0) && negb (p =? 0) then report s HV_OP_MEMALIGN p n else s, (rc, p)).

(** [HV_ALIGNED_HOOK] *)
Definition aligned_hook (x : Sym) (real : L -> L * Z) s (n : Z) : option (P * Z) :=
  s ← ensure x s;
  if negb (resolved s x) then Some (set_errno s ENOMEM, 0)
  else
    let '(l, p) := real (pl_libc s) in
    let s := set_libc s l in
    Some (if p =? 0 then s else report s HV_OP_MEMALIGN p n, p).

Definition aligned_alloc s (alignment n : Z) := aligned_hook SAlignedAlloc (fun l => lc_aligned_alloc l alignment n) s n.
Definition memalign s (alignment n : Z) := aligned_hook SMemalign (fun l => lc_memalign l alignment n) s n.
Definition valloc s (n : Z) := aligned_hook SValloc (fun l => lc_valloc l n) s n.
Definition pvalloc s (n : Z) := aligned_hook SPvalloc (fun l => lc_pvalloc l n) s n.

(** A call of the target; the value it gets back, for [posix_memalign] the
    return code and the cell. *)
Definition call s (c : Call) : option (P * (Z * Z)) :=
  let one (r : option (P * Z)) := '(s, p) ← r; Some (s, (p, 0)) in
  match c with
  | CMalloc n => one (malloc s n)
  | CFree p => s ← free s p; Some (s, (0, 0))
  | CCalloc a b => one (calloc s a b)
  | CRealloc p n => one (realloc s p n)
  | CPosixMemalign old al n => posix_memalign s old al n
  | CAlignedAlloc al n => one (aligned_alloc s al n)
  | CMemalign al n => one (memalign s al n)
  | CValloc n => one (valloc s n)
  | CPvalloc n => one (pvalloc s n)
  end.
End Hooks.

(** ** Resolution *)

(** Inside [dlsym] the flag is set, so a hook's own attempt returns at once. *)
Definition resolve_inside s : option P := Some s.

Fixpoint run_calls (resolve : P -> option P) (l : list Call) s : option P :=
  match l with
  | [] => Some s
  | c :: l => '(s, _) ← call resolve s c; run_calls resolve l s
  end.

Definition dlsym (x : Sym) (k : Lookup) s : option P :=
  s ← run_calls resolve_inside (lk_calls k) s;
  Some (if lk_found k then set_syms s (x :: pl_syms s) (pl_ready s) (pl_resolving s) else s).

Fixpoint lookup_all (l : list (Sym * Lookup)) s : option P :=
  match l with
  | [] => Some s
  | (x, k) :: l => s ← dlsym x k s; lookup_all l s
  end.

Definition hv_resolve_symbols s : option P :=
  if pl_ready s then Some s
  else if pl_resolving s then Some s
  else
    s ← lookup_all (zip lookups dl) (set_syms s (pl_syms s) (pl_ready s) true);
    let s := set_syms s (pl_syms s) (pl_ready s) false in
    if negb (resolved s SMalloc) || negb (resolved s SFree) then None
    else Some (set_syms s (pl_syms s) true false).

(** ** Version and fork *)

Definition heapviz_preload_abi_version : Z := HEAPVIZ_ABI_VERSION.

Definition hv_atfork_child s : P :=
  mkPreload (pl_syms s) (pl_ready s) (pl_resolving s) (pl_used s) (pl_mem s) None false 0 (pl_errno s) (pl_ticks s)
    (pl_libc s) (pl_log s).

End Preload.

(** ** The environment *)

Definition is_space (c : Z) : bool := (c =? 32) || ((9 <=? c) && (c <=? 13)).
Definition is_digit (c : Z) : bool := (48 <=? c) && (c <=? 57).
Fixpoint skip_spaces (l : list Z) : list Z :=
  match l with c :: l' => if is_space c then skip_spaces l' else l | [] => [] end.
Fixpoint digits (l : list Z) (v : Z) : Z * list Z :=
  match l with
  | c :: l' => if is_digit c then digits l' (10 * v + (c - 48)) else (v, l)
  | [] => (v, [])
  end.

(** The magnitude [strtoull] and [strtol] read in base ten, its sign, and the
    rest; the whole text when there is no digit. *)
Definition parse_number (raw : list Z) : Z * bool * list Z :=
  let l := skip_spaces raw in
  let '(neg, l) := match l with c :: l' => if c =? 45 then (true, l') else if c =? 43 then (false, l') else (false, l)
                   | [] => (false, []) end in
  match l with
  | c :: _ => if is_digit c then let '(v, rest) := digits l 0 in (v, neg, rest) else (0, false, raw)
  | [] => (0, false, raw)
  end.
Definition strtoull (raw : list Z) : Z * list Z :=
  let '(v, neg, rest) := parse_number raw in
  ((if 2 ^ 64 <=? v then 2 ^ 64 - 1 else if neg then u64 (- v) else v), rest).
Definition strtol (raw : list Z) : Z * list Z :=
  let '(v, neg, rest) := parse_number raw in
  ((if neg then Z.max (- v) (- 2 ^ 63) else Z.min v (2 ^ 63 - 1)), rest).

Definition hv_env_capacity (raw : option (list Z)) : Z :=
  match raw with
  | None | Some [] => HV_DEFAULT_CAPACITY
  | Some raw =>
      let '(v, stop) := strtoull raw in
      if negb (bool_decide (stop = [])) || negb (hv_is_pow2 v) || (v <? 1024) then HV_DEFAULT_CAPACITY else v
  end.

(** The sixteen bytes of the name: what [read] gave, cut at the newline. *)
Fixpoint cut_line (l : list Z) : list Z :=
  match l with [] => [] | c :: l => if c =? 10 then 0 :: l else c :: cut_line l end.
Definition hv_read_comm (outlen : nat) (file : option (list Z)) : list Z :=
  match file with
  | None => replicate outlen 0
  | Some text =>
      let got := take (outlen - 1) text in
      let out := cut_line got ++ replicate (outlen - List.length got) 0 in
      <[(outlen - 1)%nat := 0]> out
  end.

(** ** Standard error *)

(** The text up to its terminating zero, and the loop over what [write] takes of
    it: [answers] are its results, [None] when there are too few of them. *)
Fixpoint c_string (msg : list Z) : list Z :=
  match msg with [] => [] | c :: msg => if c =? 0 then [] else c :: c_string msg end.
Fixpoint write_err_loop (answers : list Z) (rest : list Z) : option (list Z) :=
  match rest with
  | [] => Some []
  | _ =>
      match answers with
      | [] => None
      | n :: answers =>
          if n <=? 0 then Some []
          else app (take (Z.to_nat n) rest) <$> write_err_loop answers (drop (Z.to_nat n) rest)
      end
  end.
Definition hv_write_err (answers : list Z) (msg : list Z) : option (list Z) := write_err_loop answers (c_string msg).

(** ** The segment *)

(** The names in use, what the calls answer, and the slots the mapping holds. *)
Record Kernel := mkKernel {
  kn_capacity : option (list Z);      (* getenv("HEAPVIZ_CAPACITY") *)
  kn_page : Z;
  kn_pid : Z;
  kn_open_fails : bool;               (* for a reason other than an existing name *)
  kn_truncates : bool;
  kn_map : option (list HvEvent);
  kn_now : Z * Z;
  kn_comm : option (list Z)
}.

Record Segment := mkSegment { sg_names : list (list Z); sg_bytes : Z; sg_name : list Z }.

Definition unlink (names : list (list Z)) (name : list Z) : list (list Z) :=
  List.filter (fun n => negb (bool_decide (n = name))) names.

(** [shm_open] with [O_CREAT | O_EXCL]: the names, or an error number. *)
Definition shm_create (k : Kernel) (names : list (list Z)) (name : list Z) : list (list Z) + Z :=
  if kn_open_fails k then inr ENOMEM
  else if bool_decide (name ∈ names) then inr EEXIST
  else inl (name :: names).

Definition hv_ring_header (k : Kernel) (capacity : Z) : HvRingHeader :=
  mkHvRingHeader HEAPVIZ_ABI_MAGIC HEAPVIZ_ABI_VERSION sizeof_HvEvent capacity (kn_pid k) 0
    ((kn_now k).1 ⊠ 1000000000 ⊞ (kn_now k).2) (hv_read_comm 16 (kn_comm k)) (hv_log2_pow2 capacity) 0 0 0 0 0 0 0.

(** Also the mapped ring, null when telemetry is off. *)
Definition hv_ring_setup (k : Kernel) (g : Segment) : Segment * option Ring :=
  let capacity := hv_env_capacity (kn_capacity k) in
  let bytes := hv_mapping_size capacity (kn_page k) in
  let name := (hv_shm_name HV_SHM_NAME_MAX (kn_pid k)).1 in
  let '(names, fd) :=
    match shm_create k (sg_names g) name with
    | inl names => (names, true)
    | inr e =>
        if e =? EEXIST then
          let names := unlink (sg_names g) name in
          match shm_create k names name with inl names => (names, true) | inr _ => (names, false) end
        else (sg_names g, false)
    end in
  if negb fd then (mkSegment names bytes name, None)
  else if negb (kn_truncates k) then (mkSegment (unlink names name) bytes name, None)
  else
    match kn_map k with
    | None => (mkSegment (unlink names name) bytes name, None)
    | Some slots => (mkSegment names bytes name, Some (mkRing (hv_ring_header k capacity) slots))
    end.

(** How the startup handshake ends. *)
Inductive Handshake := NotAsked | Arrived | GaveUp | Waiting.

(** [seen]: the consumer's pid as each poll sees it; the number of sleeps. *)
Fixpoint wait_loop (budget : Z) (seen : list Z) (slept : nat) : Handshake * nat :=
  if budget <=? 0 then (GaveUp, slept)
  else
    match seen with
    | [] => (Waiting, slept)
    | c :: seen => if negb (c =? 0) then (Arrived, slept) else wait_loop (budget - 1) seen (Datatypes.S slept)
    end.
Definition kHandshakeSleepUs : Z := 500.

Definition hv_wait_for_consumer (raw : option (list Z)) (seen : list Z) : Handshake * nat :=
  match raw with
  | None | Some [] => (NotAsked, 0%nat)
  | Some raw =>
      let '(budget_ms, stop) := strtol raw in
      if negb (bool_decide (stop = [])) || (budget_ms <=? 0) then (NotAsked, 0%nat) else wait_loop budget_ms seen 0
  end.

Definition set_exited (r : Ring) (v : Z) : Ring :=
  let h := r_hdr r in
  mkRing (mkHvRingHeader (h_magic h) (h_abi_version h) (h_event_size h)
            (h_capacity h) (h_pid h) (h_flags h) (h_start_time_ns h) (h_comm h)
            (h_capacity_log2 h) (h_reserved0 h) (h_head h) (h_tail h) (h_dropped h)
            (h_total_events h) v (h_consumer_pid h)) (r_slots r).

(** Also the ring as its consumer is left with it. *)
Definition hv_ring_teardown {L} (s : Preload L) (g : Segment) : Preload L * Segment * option Ring :=
  match pl_ring s with
  | None => (s, g, None)
  | Some r => (set_ring s None, mkSegment (unlink (sg_names g) (sg_name g)) (sg_bytes g) (sg_name g), Some (set_exited r 1))
  end.

(** The constructor: disabled, the process dead, or the library set up; and the
    destructor. *)
Definition hv_preload_init {L} `{!Libc L} (base tid : Z) (clock : nat -> Z * Z) (dl : list Lookup)
    (disable wait : option (list Z)) (seen : list Z) (k : Kernel) (s : Preload L) (g : Segment)
    : option (Preload L * Segment * Handshake) :=
  match disable with
  | Some (49 :: _) => Some (s, g, NotAsked)
  | _ =>
      s ← hv_resolve_symbols base tid clock dl s;
      let '(g, ring) := hv_ring_setup k g in
      let s := match ring with None => s | Some _ => set_ring s ring end in
      let hs := match pl_ring s with None => NotAsked | Some _ => (hv_wait_for_consumer wait seen).1 end in
      Some (s, g, hs)
  end.
Definition hv_preload_fini {L} (s : Preload L) (g : Segment) : Preload L * Segment * option Ring := hv_ring_teardown s g.
