(* ===== verification/PreloadProofs.v ===== *)
(** * What the hooks report

    Once the symbols are resolved the hooks are transparent, and the events they
    push reconstruct the real heap: composed with the application's live set,
    what is shown is what the target holds.  The allocator is known through its
    documented behaviour, [Allocator].  Then the arena, the exception the
    reports have, and the segment a consumer attaches to. *)

From stdpp Require Import fin_maps gmap.
From S2P Require Import Prelude Abi Ring Capabilities Theme Session HeapApp LiveSet Preload.

#[local] Arguments hv_ring_push : simpl never.

(** ** The allocator's documented behaviour *)

Class Allocator (L : Type) `{!Libc L} (base : Z) := {
  (** The live blocks and their usable sizes. *)
  blocks : L -> gmap Z Z;
  usable_law l p u : blocks l !! p = Some u -> lc_usable_size l p = u /\ 0 <= u /\ p <> 0 /\ hv_is_bootstrap_ptr base p = false;
  (** Null with nothing changed, or a new block. *)
  malloc_law l n : let '(l', p) := lc_malloc l n in
    p = 0 /\ blocks l' = blocks l \/ blocks l !! p = None /\ exists u, blocks l' = <[p := u]> (blocks l);
  calloc_law l a b : let '(l', p) := lc_calloc l a b in
    p = 0 /\ blocks l' = blocks l \/ blocks l !! p = None /\ exists u, blocks l' = <[p := u]> (blocks l);
  aligned_law l a n : let '(l', p) := lc_aligned_alloc l a n in
    p = 0 /\ blocks l' = blocks l \/ blocks l !! p = None /\ exists u, blocks l' = <[p := u]> (blocks l);
  memalign_law l a n : let '(l', p) := lc_memalign l a n in
    p = 0 /\ blocks l' = blocks l \/ blocks l !! p = None /\ exists u, blocks l' = <[p := u]> (blocks l);
  valloc_law l n : let '(l', p) := lc_valloc l n in
    p = 0 /\ blocks l' = blocks l \/ blocks l !! p = None /\ exists u, blocks l' = <[p := u]> (blocks l);
  pvalloc_law l n : let '(l', p) := lc_pvalloc l n in
    p = 0 /\ blocks l' = blocks l \/ blocks l !! p = None /\ exists u, blocks l' = <[p := u]> (blocks l);
  (** A failure leaves the cell alone; a success stores null or a new block. *)
  posix_law l old a n : let '(l', (rc, p)) := lc_posix_memalign l old a n in
    (rc <> 0 \/ p = 0) /\ blocks l' = blocks l \/
    rc = 0 /\ blocks l !! p = None /\ exists u, blocks l' = <[p := u]> (blocks l);
  free_law l p : is_Some (blocks l !! p) -> blocks (lc_free l p) = delete p (blocks l);
  (** For a size that is not zero: null with the block as it was, or the block
      moved or kept in place. *)
  realloc_law l p n : is_Some (blocks l !! p) -> n <> 0 -> let '(l', q) := lc_realloc l p n in
    q = 0 /\ blocks l' = blocks l \/ delete p (blocks l) !! q = None /\ exists u, blocks l' = <[q := u]> (delete p (blocks l))
}.

Section Hooked.
Context {L : Type} `{!Libc L} (base tid : Z) (clock : nat -> Z * Z) (dl : list Lookup).
Notation P := (Preload L).
Notation resolve := (hv_resolve_symbols base tid clock dl).
Notation hook := (call base tid clock resolve).
Implicit Types s : P.

(** The target's call as the real allocator alone would serve it; a block of the
    arena is never given to it. *)
Definition direct (l : L) (c : Call) : L * (Z * Z) :=
  let one (r : L * Z) := (r.1, (r.2, 0)) in
  match c with
  | CMalloc n => one (lc_malloc l n)
  | CFree p => (if (p =? 0) || hv_is_bootstrap_ptr base p then l else lc_free l p, (0, 0))
  | CCalloc a b => one (lc_calloc l a b)
  | CRealloc p n => one (if (p =? 0) || hv_is_bootstrap_ptr base p then lc_malloc l n else lc_realloc l p n)
  | CPosixMemalign old a n => lc_posix_memalign l old a n
  | CAlignedAlloc a n => one (lc_aligned_alloc l a n)
  | CMemalign a n => one (lc_memalign l a n)
  | CValloc n => one (lc_valloc l n)
  | CPvalloc n => one (lc_pvalloc l n)
  end.

(** Set up: every symbol found and no hook running. *)
Record hooked s : Prop := {
  hk_syms : forall x, x ∈ pl_syms s;
  hk_idle : pl_in_hook s = false
}.

(** What a report does. *)
Lemma report_spec s op p n : hooked s ->
  let s' := report tid clock s op p n in
  hooked s' /\ pl_libc s' = pl_libc s /\ pl_mem s' = pl_mem s /\
  (pl_ring s = None -> pl_ring s' = None /\ pl_log s' = pl_log s) /\
  (forall r, pl_ring s = Some r -> exists a r' ok, hv_ring_push r a = (r', ok) /\ pl_ring s' = Some r' /\
     pl_log s' = pl_log s ++ [(a, ok)] /\ a_ptr a = p /\ a_size a = n /\ a_usable a = hv_usable s p /\ a_opcode a = op).
Proof.
  intros [Hs Hi]. unfold report. rewrite Hi. unfold hv_emit. cbn [pl_ring set_hook].
  destruct (pl_ring s) as [r|] eqn:Er.
  - unfold hv_now_ns. cbn [pl_ticks set_hook]. destruct (clock (pl_ticks s)) as [sec nsec]. unfold hv_tid. cbn.
    destruct (pl_tid s =? 0); cbn;
      (match goal with |- context [hv_ring_push r ?a] => destruct (hv_ring_push r a) as [r' ok] eqn:E end; cbn; split; [by split|]; split; [done|]; split; [done|];
       split; [done|]; intros r0 [= <-]; eexists _, _, _; split; [exact E|by repeat split]).
  - cbn. repeat split; done.
Qed.

Lemma report_libc s op p n : pl_libc (report tid clock s op p n) = pl_libc s.
Proof.
  unfold report, hv_emit, hv_now_ns, hv_tid. destruct (pl_in_hook s); [done|]. cbn. destruct (pl_ring s); [|done].
  destruct (clock _). cbn. destruct (_ =? _); cbn; by destruct (hv_ring_push _ _).
Qed.

Lemma ensure_hooked x s : hooked s -> ensure resolve x s = Some s.
Proof. intros [Hs _]. unfold ensure, resolved. by rewrite bool_decide_true by apply Hs. Qed.
Lemma resolved_hooked x s : hooked s -> resolved s x = true.
Proof. intros [Hs _]. unfold resolved. by rewrite bool_decide_true by apply Hs. Qed.
Lemma hooked_libc s l : hooked s -> hooked (set_libc s l).
Proof. by intros []. Qed.
Lemma hooked_mem s m : hooked s -> hooked (set_mem s m).
Proof. by intros []. Qed.
Lemma report_hooked s op p n : hooked s -> hooked (report tid clock s op p n).
Proof. intros Hs. by apply report_spec. Qed.

(** The state after an allocation that gave [lp]. *)
Definition allocated s (lp : L * Z) (op n : Z) : P :=
  if lp.2 =? 0 then set_libc s lp.1 else report tid clock (set_libc s lp.1) op lp.2 n.

Lemma alloc_reported s lp op n : hooked s ->
  pl_libc (allocated s lp op n) = lp.1 /\ hooked (allocated s lp op n).
Proof.
  intros Hs. unfold allocated. destruct (lp.2 =? 0); [split; [done|by apply hooked_libc]|].
  rewrite report_libc. split; [done|]. by apply report_hooked, hooked_libc.
Qed.

Lemma malloc_hooked s n : hooked s ->
  malloc base tid clock resolve s n =
    Some (allocated s (lc_malloc (pl_libc s) n) HV_OP_MALLOC n, (lc_malloc (pl_libc s) n).2).
Proof.
  intros Hs. unfold malloc. rewrite ensure_hooked by done. cbn. rewrite resolved_hooked by done. cbn.
  unfold allocated. by destruct (lc_malloc _ _).
Qed.
Lemma aligned_hooked x real s n : hooked s ->
  aligned_hook tid clock resolve x real s n =
    Some (allocated s (real (pl_libc s)) HV_OP_MEMALIGN n, (real (pl_libc s)).2).
Proof.
  intros Hs. unfold aligned_hook. rewrite ensure_hooked by done. cbn. rewrite resolved_hooked by done. cbn.
  unfold allocated. by destruct (real _).
Qed.

Lemma call_direct s c : hooked s -> exists s',
  hook s c = Some (s', (direct (pl_libc s) c).2) /\ pl_libc s' = (direct (pl_libc s) c).1 /\ hooked s'.
Proof.
  intros Hs. unfold call. destruct c as [n|p|a b|p n|old al n|al n|al n|n|n].
  - rewrite malloc_hooked by done. cbn. eexists. split; [done|]. by apply alloc_reported.
  - unfold free, direct. destruct (Z.eqb_spec p 0); cbn [orb]; [by eexists|].
    destruct (hv_is_bootstrap_ptr base p); [by eexists|]. rewrite ensure_hooked by done. cbn.
    rewrite resolved_hooked by done. cbn. eexists. split; [done|]. cbn. rewrite report_libc.
    split; [done|]. by apply hooked_libc, report_hooked.
  - unfold calloc. rewrite ensure_hooked by done. cbn. rewrite resolved_hooked by done. cbn.
    destruct (lc_calloc (pl_libc s) a b) as [l p] eqn:E. cbn. eexists. split; [done|].
    apply (alloc_reported s (l, p) HV_OP_CALLOC _ Hs).
  - unfold realloc. rewrite ensure_hooked by done. cbn. rewrite resolved_hooked by done. cbn.
    destruct (p =? 0); cbn [orb].
    { rewrite malloc_hooked by done. cbn. eexists. split; [done|]. by apply alloc_reported. }
    destruct (hv_is_bootstrap_ptr base p).
    + rewrite malloc_hooked by done. cbn. eexists. split; [done|].
      destruct (alloc_reported s (lc_malloc (pl_libc s) n) HV_OP_MALLOC n Hs) as [E H].
      destruct (_ =? 0); [done|]. cbn. split; [done|]. by apply hooked_mem.
    + rewrite report_libc. destruct (lc_realloc _ _ _) as [l q] eqn:E. cbn. eexists. split; [done|].
      rewrite report_libc. split; [done|]. by apply report_hooked, hooked_libc, report_hooked.
  - unfold posix_memalign. rewrite ensure_hooked by done. cbn. rewrite resolved_hooked by done. cbn.
    destruct (lc_posix_memalign _ _ _ _) as [l [rc p]] eqn:E. cbn. eexists. split; [done|].
    destruct (_ && _); [rewrite report_libc; split; [done|]; by apply report_hooked, hooked_libc|].
    split; [done|]. by apply hooked_libc.
  - unfold aligned_alloc. rewrite aligned_hooked by done. cbn. eexists. split; [done|]. by apply alloc_reported.
  - unfold memalign. rewrite aligned_hooked by done. cbn. eexists. split; [done|]. by apply alloc_reported.
  - unfold valloc. rewrite aligned_hooked by done. cbn. eexists. split; [done|]. by apply alloc_reported.
  - unfold pvalloc. rewrite aligned_hooked by done. cbn. eexists. split; [done|]. by apply alloc_reported.
Qed.
(** C14: Watching changes nothing the target can see.  Once the symbols are
    resolved, every call of the target returns, and returns what the real
    allocator would have returned; the allocator is left as that call alone
    would have left it, whatever became of the event (no ring, a full ring); a
    block of the bootstrap arena is never handed to it, neither released nor
    resized, but moved; and the next call finds the hooks the same way. *)
Theorem hooks_transparent s c : hooked s -> exists s',
  hook s c = Some (s', (direct (pl_libc s) c).2) /\ pl_libc s' = (direct (pl_libc s) c).1 /\ hooked s'.
Proof. apply call_direct. Qed.
End Hooked.

(** ** The reports reconstruct the heap *)

(** The blocks as an event can carry them: sizes saturate at 32 bits. *)
Definition seen (h : gmap Z Z) : gmap Z Z := (fun u => Z.min u UINT32_MAX) <$> h.
Definition events (log : list (PushArgs * Z)) : list HvEvent := (fun x => event_of x.1) <$> log.
Definition refused (log : list (PushArgs * Z)) : Z := Z.of_nat (length (filter (fun x => x.2 = 0) log)).

(** From one state of the allocator and the ring to the next, through a log. *)
Record told (h h' : gmap Z Z) (log : list (PushArgs * Z)) (r r' : Ring) : Prop := {
  td_heap : foldl heap_step (seen h) (events log) = seen h';
  td_events : Forall event_ok (events log);
  td_dropped : u64 (h_dropped (r_hdr r')) = u64 (h_dropped (r_hdr r) + refused log)
}.

Lemma told_nil h h' r : seen h' = seen h -> told h h' [] r r.
Proof. intros E. split; [by symmetry|constructor|]. unfold refused. cbn. f_equal. lia. Qed.

Lemma told_trans h h1 h2 a b r r1 r2 : told h h1 a r r1 -> told h1 h2 b r1 r2 -> told h h2 (a ++ b) r r2.
Proof.
  intros [A1 A2 A3] [B1 B2 B3]. unfold events in *. split; unfold events.
  - by rewrite fmap_app, foldl_app, A1.
  - rewrite fmap_app. by apply Forall_app.
  - rewrite B3, <- u64_add_l, A3, u64_add_l. f_equal. unfold refused. rewrite filter_app, length_app. lia.
Qed.

Lemma push_dropped r a r' ok : hv_ring_push r a = (r', ok) ->
  u64 (h_dropped (r_hdr r')) = u64 (h_dropped (r_hdr r) + refused [(a, ok)]).
Proof.
  unfold hv_ring_push. destruct (ring_full _ _ _); intros [= <- <-].
  - change (refused [(a, 0)]) with 1. cbn. by rewrite u64_u64.
  - change (refused [(a, 1)]) with 0. cbn. f_equal. lia.
Qed.

Lemma event_free a : is_free (event_of a) = (Z.land (a_opcode a) HV_OP_MASK =? HV_OP_FREE).
Proof. unfold is_free, event_of. cbn. by rewrite <- Z.land_assoc, Z.land_diag. Qed.

Lemma told_one h h' a ok r r' : hv_ring_push r a = (r', ok) -> event_ok (event_of a) ->
  heap_step (seen h) (event_of a) = seen h' -> told h h' [(a, ok)] r r'.
Proof. intros Hp He Hh. split; [exact Hh|by apply Forall_singleton|by apply push_dropped]. Qed.

Section Reports.
Context {L : Type} `{!Libc L} (base tid : Z) `{!Allocator L base} (clock : nat -> Z * Z) (dl : list Lookup).
Notation P := (Preload L).
Notation resolve := (hv_resolve_symbols base tid clock dl).
Notation hook := (call base tid clock resolve).
Notation hooked := (@hooked L).
Implicit Types s : P.

(** A call a correct program makes: it gives back what it holds.  Resizing to
    zero is excluded, see [resize_to_zero]. *)
Definition fair (l : L) (c : Call) : Prop :=
  match c with
  | CFree p => p = 0 \/ hv_is_bootstrap_ptr base p = true \/ is_Some (blocks l !! p)
  | CRealloc p n => p = 0 \/ hv_is_bootstrap_ptr base p = true \/ is_Some (blocks l !! p) /\ n <> 0
  | _ => True
  end.
Fixpoint fair_run (l : L) (cs : list Call) : Prop :=
  match cs with [] => True | c :: cs => fair l c /\ fair_run (direct base l c).1 cs end.

Lemma usable_seen s p u : hooked s -> blocks (pl_libc s) !! p = Some u -> hv_usable s p = Z.min u UINT32_MAX.
Proof.
  intros Hs Hb. destruct (usable_law _ _ _ Hb) as (E & _ & Hp & _). unfold hv_usable. rewrite resolved_hooked by done.
  apply Z.eqb_neq in Hp. rewrite Hp, E. cbn. destruct (Z.ltb_spec UINT32_MAX u); lia.
Qed.

(** One report: of an allocation, the block it has just made; of a release, one
    still there. *)
Lemma report_tells s op p n r h u : hooked s -> pl_ring s = Some r -> blocks (pl_libc s) !! p = Some u ->
  (if Z.land op HV_OP_MASK =? HV_OP_FREE then h = blocks (pl_libc s) else blocks (pl_libc s) = <[p := u]> h) ->
  let s' := report tid clock s op p n in
  exists new r', pl_ring s' = Some r' /\ pl_log s' = pl_log s ++ new /\
    told h (if Z.land op HV_OP_MASK =? HV_OP_FREE then delete p h else blocks (pl_libc s)) new r r'.
Proof.
  intros Hs Hr Hb Hh s'. destruct (report_spec tid clock s op p n Hs) as (_ & _ & _ & _ & Hrep).
  destruct (Hrep r Hr) as (a & r' & ok & Hpush & Hr' & Hlog & Hp & _ & Hu & Ho).
  exists [(a, ok)], r'. split; [done|]. split; [done|]. destruct (usable_law _ _ _ Hb) as (_ & Hpos & Hnz & _).
  rewrite (usable_seen s p u Hs Hb) in Hu. apply told_one; [done| |].
  - unfold event_ok. rewrite event_free, Ho. cbn. rewrite Hu, Hp. split; [|done].
    unfold is_u32, UINT32_MAX. rewrite pow2_32. lia.
  - unfold heap_step. rewrite event_free, Ho. change (ev_ptr (event_of a)) with (a_ptr a).
    change (ev_usable (event_of a)) with (a_usable a). rewrite Hp, Hu.
    destruct (Z.land op HV_OP_MASK =? HV_OP_FREE); unfold seen; [by rewrite fmap_delete|by rewrite Hh, fmap_insert].
Qed.

(** An allocation through the hook. *)
Lemma allocated_tells s lp op n r : hooked s -> pl_ring s = Some r -> Z.land op HV_OP_MASK <> HV_OP_FREE ->
  (lp.2 = 0 /\ blocks lp.1 = blocks (pl_libc s) \/
   blocks (pl_libc s) !! lp.2 = None /\ exists u, blocks lp.1 = <[lp.2 := u]> (blocks (pl_libc s))) ->
  let s' := allocated tid clock s lp op n in
  exists new r', pl_ring s' = Some r' /\ pl_log s' = pl_log s ++ new /\ told (blocks (pl_libc s)) (blocks lp.1) new r r'.
Proof.
  intros Hs Hr Hop Hlaw. unfold allocated. apply Z.eqb_neq in Hop.
  destruct Hlaw as [[E0 Eb]|[Hfresh [u Eb]]].
  - rewrite E0, Z.eqb_refl. exists [], r. split; [done|]. split; [by rewrite app_nil_r|]. apply told_nil. by rewrite Eb.
  - assert (blocks lp.1 !! lp.2 = Some u) as Hl by (rewrite Eb; apply lookup_insert_eq).
    destruct (usable_law _ _ _ Hl) as (_ & _ & Hnz & _). apply Z.eqb_neq in Hnz. rewrite Hnz.
    destruct (report_tells (set_libc s lp.1) op lp.2 n r (blocks (pl_libc s)) u) as (new & r' & H1 & H2 & H3);
      [by apply hooked_libc|done|done|by rewrite Hop|].
    rewrite Hop in H3. by exists new, r'.
Qed.

Lemma call_tells s c r : hooked s -> pl_ring s = Some r -> fair (pl_libc s) c ->
  exists s' res new r', hook s c = Some (s', res) /\ hooked s' /\ pl_libc s' = (direct base (pl_libc s) c).1 /\
    pl_ring s' = Some r' /\ pl_log s' = pl_log s ++ new /\ told (blocks (pl_libc s)) (blocks (pl_libc s')) new r r'.
Proof.
  intros Hs Hr Hf. destruct (call_direct base tid clock dl s c Hs) as (s' & E & El & Hs'). exists s', (direct base (pl_libc s) c).2.
  enough (exists new r', pl_ring s' = Some r' /\ pl_log s' = pl_log s ++ new /\
    told (blocks (pl_libc s)) (blocks (pl_libc s')) new r r') as (new & r' & H1 & H2 & H3).
  { exists new, r'. by split_and!. }
  assert (forall s1, s1 = s -> exists new r', pl_ring s1 = Some r' /\ pl_log s1 = pl_log s ++ new /\
    told (blocks (pl_libc s)) (blocks (pl_libc s1)) new r r') as Hnone.
  { intros s1 ->. exists [], r. split; [done|]. split; [by rewrite app_nil_r|]. by apply told_nil. }
  assert (forall lp op n s1, s1 = allocated tid clock s lp op n -> Z.land op HV_OP_MASK <> HV_OP_FREE ->
    (lp.2 = 0 /\ blocks lp.1 = blocks (pl_libc s) \/
     blocks (pl_libc s) !! lp.2 = None /\ exists u, blocks lp.1 = <[lp.2 := u]> (blocks (pl_libc s))) ->
    exists new r', pl_ring s1 = Some r' /\ pl_log s1 = pl_log s ++ new /\
      told (blocks (pl_libc s)) (blocks (pl_libc s1)) new r r') as Halloc.
  { intros lp op n s1 -> Hop Hlaw. destruct (allocated_tells s lp op n r Hs Hr Hop Hlaw) as (new & r' & H1 & H2 & H3).
    exists new, r'. destruct (alloc_reported tid clock s lp op n Hs) as [-> _]. by split_and!. }
  clear El. revert E. unfold call. destruct c as [n|p|a b|p n|old al n|al n|al n|n|n]; cbn [fair] in Hf.
  - rewrite malloc_hooked by done. cbn. intros [= <-]. apply (Halloc _ _ _ _ eq_refl); [done|].
    pose proof (malloc_law (pl_libc s) n) as H. by destruct (lc_malloc _ _).
  - unfold free. destruct (Z.eqb_spec p 0); [cbn; intros [= <-]; by apply Hnone|].
    destruct (hv_is_bootstrap_ptr base p); [cbn; intros [= <-]; by apply Hnone|].
    destruct Hf as [?|[?|[u Hu]]]; [done|done|]. rewrite ensure_hooked by done. cbn. rewrite resolved_hooked by done. cbn.
    intros [= <-]. destruct (report_tells s HV_OP_FREE p 0 r (blocks (pl_libc s)) u Hs Hr Hu eq_refl) as (new & r' & H1 & H2 & H3).
    exists new, r'. split; [done|]. split; [done|]. cbn [pl_libc set_libc]. rewrite report_libc, free_law by (by eexists). exact H3.
  - unfold calloc. rewrite ensure_hooked by done. cbn. rewrite resolved_hooked by done. cbn.
    pose proof (calloc_law (pl_libc s) a b) as H. destruct (lc_calloc (pl_libc s) a b) as [l p] eqn:Ec. cbn. intros [= <-].
    apply (Halloc (l, p) _ _ _ eq_refl); [done|exact H].
  - unfold realloc. rewrite ensure_hooked by done. cbn. rewrite resolved_hooked by done. cbn.
    destruct (Z.eqb_spec p 0).
    { rewrite malloc_hooked by done. cbn. intros [= <-]. apply (Halloc _ _ _ _ eq_refl); [done|].
      pose proof (malloc_law (pl_libc s) n) as H. by destruct (lc_malloc _ _). }
    destruct (hv_is_bootstrap_ptr base p).
    { rewrite malloc_hooked by done. cbn. intros [= <-].
      pose proof (malloc_law (pl_libc s) n) as H. destruct (lc_malloc (pl_libc s) n) as [l q] eqn:Em. cbn [fst snd].
      destruct (Halloc (l, q) HV_OP_MALLOC n _ eq_refl) as (new & r' & H1 & H2 & H3); [done|exact H|].
      exists new, r'. by destruct (q =? 0). }
    destruct Hf as [?|[?|[[u Hu] Hn]]]; [done|done|]. rewrite report_libc.
    pose proof (realloc_law (pl_libc s) p n ltac:(by eexists) Hn) as H.
    destruct (lc_realloc (pl_libc s) p n) as [l q] eqn:Er. cbn. intros [= <-].
    set (s1 := report tid clock s HV_OP_FREE p 0). assert (hooked s1) as Hs1 by (by apply report_hooked).
    destruct (report_tells s HV_OP_FREE p 0 r _ u Hs Hr Hu eq_refl) as (new1 & r1 & Hr1 & Hl1 & H1).
    fold s1 in Hr1, Hl1. cbn in H1.
    assert (exists v, blocks l = <[(if q =? 0 then p else q) := v]> (delete p (blocks (pl_libc s)))) as [v Hv].
    { destruct H as [[-> Hb]|[_ [v Hb]]].
      - exists u. cbn. by rewrite Hb, insert_delete_id.
      - assert (q <> 0) as Hq by (apply (usable_law l q v); rewrite Hb; apply lookup_insert_eq).
        apply Z.eqb_neq in Hq. rewrite Hq. by exists v. }
    destruct (report_tells (set_libc s1 l) HV_OP_REALLOC (if q =? 0 then p else q) n r1 (delete p (blocks (pl_libc s))) v)
      as (new2 & r2 & Hr2 & Hl2 & H2); [by apply hooked_libc|done|cbn; rewrite Hv; apply lookup_insert_eq|exact Hv|].
    exists (new1 ++ new2), r2. split; [done|]. split; [rewrite Hl2; cbn; by rewrite Hl1, app_assoc|].
    rewrite report_libc. apply (told_trans _ _ _ _ _ _ _ _ H1 H2).
  - unfold posix_memalign. rewrite ensure_hooked by done. cbn. rewrite resolved_hooked by done. cbn.
    pose proof (posix_law (pl_libc s) old al n) as H.
    destruct (lc_posix_memalign _ _ _ _) as [l [rc p]] eqn:Ec. cbn. intros [= <-].
    cbv beta iota in H. destruct H as [[H1 H2]|(-> & H2 & u & H3)].
    + assert ((rc =? 0) && negb (p =? 0) = false) as Hc.
      { destruct (Z.eqb_spec rc 0), (Z.eqb_spec p 0); tauto. }
      rewrite Hc. exists [], r. split; [done|]. split; [by rewrite app_nil_r|]. apply told_nil. cbn. by rewrite H2.
    + apply (Halloc (l, p) HV_OP_MEMALIGN n); [unfold allocated; cbn; by destruct (p =? 0)|done|right; split; [done|by exists u]].
  - unfold aligned_alloc. rewrite aligned_hooked by done. cbn. intros [= <-]. apply (Halloc _ _ _ _ eq_refl); [done|].
    pose proof (aligned_law (pl_libc s) al n) as H. by destruct (lc_aligned_alloc _ _ _).
  - unfold memalign. rewrite aligned_hooked by done. cbn. intros [= <-]. apply (Halloc _ _ _ _ eq_refl); [done|].
    pose proof (memalign_law (pl_libc s) al n) as H. by destruct (lc_memalign _ _ _).
  - unfold valloc. rewrite aligned_hooked by done. cbn. intros [= <-]. apply (Halloc _ _ _ _ eq_refl); [done|].
    pose proof (valloc_law (pl_libc s) n) as H. by destruct (lc_valloc _ _).
  - unfold pvalloc. rewrite aligned_hooked by done. cbn. intros [= <-]. apply (Halloc _ _ _ _ eq_refl); [done|].
    pose proof (pvalloc_law (pl_libc s) n) as H. by destruct (lc_pvalloc _ _).
Qed.

Lemma run_tells cs : forall s r, hooked s -> pl_ring s = Some r -> fair_run (pl_libc s) cs ->
  exists s' new r', run_calls base tid clock resolve cs s = Some s' /\ hooked s' /\
    pl_libc s' = foldl (fun l c => (direct base l c).1) (pl_libc s) cs /\
    pl_ring s' = Some r' /\ pl_log s' = pl_log s ++ new /\ told (blocks (pl_libc s)) (blocks (pl_libc s')) new r r'.
Proof.
  induction cs as [|c cs IH]; intros s r Hs Hr Hf; cbn [run_calls foldl].
  - exists s, [], r. split_and!; [done..|by rewrite app_nil_r|by apply told_nil].
  - destruct Hf as [Hf Hfs]. destruct (call_tells s c r Hs Hr Hf) as (s1 & res & new & r1 & E & Hs1 & El & Hr1 & Hlog & Ht).
    rewrite E. cbn. rewrite <- El in Hfs |- *. destruct (IH s1 r1 Hs1 Hr1 Hfs) as (s2 & new2 & r2 & E2 & Hs2 & El2 & Hr2 & Hlog2 & Ht2).
    exists s2, (new ++ new2), r2. split_and!; try done; [by rewrite Hlog2, Hlog, app_assoc|by eapply told_trans].
Qed.

(** C5: What heapviz shows is what the target holds.  Let a target whose heap is
    empty make any sequence of fair calls through the hooks.  None of them
    stops it; and the events they push, folded by the application, leave it with
    a live set that is exactly the allocator's blocks with their usable sizes
    (saturated at 32 bits), a live count that is their number and live bytes that
    are their total.  What a full ring refused, and only that, is in the drop
    counter, so a counter that did not move means no event is missing. *)
Theorem shown_is_held {S} `{!EventSource S} (src : S) caps theme anim now_ns cs s r :
  hooked s -> pl_ring s = Some r -> fair_run (pl_libc s) cs -> blocks (pl_libc s) = ∅ ->
  exists s' new r', run_calls base tid clock resolve cs s = Some s' /\ pl_ring s' = Some r' /\
    pl_log s' = pl_log s ++ new /\
    u64 (h_dropped (r_hdr r')) = u64 (h_dropped (r_hdr r) + refused new) /\
    (Z.of_nat (length new) < 2 ^ 31 ->
     let m := foldl (apply_event now_ns) (ap_model (new_app src caps theme anim now_ns)) (events new) in
     let held := seen (blocks (pl_libc s')) in
     live_of (md_table m) = held /\ md_live m = Z.of_nat (size held) /\ md_live_bytes m = total held).
Proof.
  intros Hs Hr Hf He. destruct (run_tells cs s r Hs Hr Hf) as (s' & new & r' & E & _ & _ & Hr' & Hlog & [T1 T2 T3]).
  exists s', new, r'. split_and!; try done. intros Hn. cbv zeta.
  assert (length (events new) = length new) as El by (unfold events; by rewrite length_fmap).
  rewrite <- El in Hn. destruct (live_set_tracks src caps theme anim now_ns (events new) T2 Hn) as (H1 & H2 & H3).
  assert (heap_of (events new) = seen (blocks (pl_libc s'))) as Eh by (rewrite He in T1; exact T1).
  by rewrite <- Eh.
Qed.
End Reports.

(** ** A concrete allocator

    Blocks are handed out upwards and never reused; the smallest is 24 bytes.
    As glibc does, it releases the block when it is resized to zero. *)

Record Bump := mkBump { bp_next : Z; bp_live : gmap Z Z }.
Definition kFloor : Z := 1048576.
Definition kArena : Z := 65536.
Definition sound_block (b : Z * Z) : Prop := kFloor <= b.1 /\ 0 <= b.2.

Definition bump_take (l : Bump) (n : Z) : Bump * Z :=
  let p := bp_next l in
  let u := Z.max 24 (n + 8) in
  if (p <? kFloor) || is_some (bp_live l !! p) then (l, 0) else (mkBump (p + u + 8) (<[p := u]> (bp_live l)), p).
Definition bump_drop (l : Bump) (p : Z) : Bump := mkBump (bp_next l) (delete p (bp_live l)).
Definition bump_realloc (l : Bump) (p n : Z) : Bump * Z :=
  if n =? 0 then (bump_drop l p, 0)
  else if is_some (bp_live (bump_drop l p) !! bp_next l) || (bp_next l <? kFloor) then (l, 0) else bump_take (bump_drop l p) n.

#[export] Instance bump_libc : Libc Bump := {|
  lc_malloc := bump_take;
  lc_free := bump_drop;
  lc_calloc l a b := if 2 ^ 64 <=? a * b then (l, 0) else bump_take l (a * b);
  lc_realloc := bump_realloc;
  lc_posix_memalign l old a n := let '(l', p) := bump_take l n in if p =? 0 then (l', (ENOMEM, old)) else (l', (0, p));
  lc_aligned_alloc l a n := bump_take l n;
  lc_memalign l a n := bump_take l n;
  lc_valloc := bump_take;
  lc_pvalloc := bump_take;
  lc_usable_size l p := default 0 (bp_live l !! p)
|}.

Definition bump_blocks (l : Bump) : gmap Z Z := filter sound_block (bp_live l).

Lemma bump_take_law l n : let '(l', p) := bump_take l n in
  p = 0 /\ bump_blocks l' = bump_blocks l \/ bump_blocks l !! p = None /\ exists u, bump_blocks l' = <[p := u]> (bump_blocks l).
Proof.
  unfold bump_take, bump_blocks. destruct (Z.ltb_spec (bp_next l) kFloor); cbn [orb]; [by left|].
  destruct (bp_live l !! bp_next l) eqn:E; cbn [is_some]; [by left|]. right. cbn [bp_live].
  split; [apply map_lookup_filter_None; left; done|]. eexists. apply map_filter_insert_True. split; cbn; lia.
Qed.

Lemma bump_drop_law l p : bump_blocks (bump_drop l p) = delete p (bump_blocks l).
Proof. unfold bump_blocks, bump_drop. cbn. apply map_filter_delete. Qed.

#[export] Program Instance bump_allocator : Allocator Bump kArena := {| blocks := bump_blocks |}.
Next Obligation.
  intros l p u [Hl [Hp Hu]]%map_lookup_filter_Some. cbn in *. rewrite Hl. unfold kFloor, kArena, hv_is_bootstrap_ptr, HV_BOOTSTRAP_BYTES in *.
  split; [done|]. split; [lia|]. split; [lia|]. apply andb_false_iff. right. apply Z.ltb_ge. lia.
Qed.
Next Obligation. apply bump_take_law. Qed.
Next Obligation. intros l a b. cbn. destruct (_ <=? _); [by left|apply bump_take_law]. Qed.
Next Obligation. intros l a n. apply bump_take_law. Qed.
Next Obligation. intros l a n. apply bump_take_law. Qed.
Next Obligation. apply bump_take_law. Qed.
Next Obligation. apply bump_take_law. Qed.
Next Obligation.
  intros l old a n. cbn. pose proof (bump_take_law l n) as H. destruct (bump_take l n) as [l' p] eqn:E.
  destruct (Z.eqb_spec p 0) as [->|Hp].
  - cbv beta iota in H. destruct H as [[_ H]|[H [u Hu]]]; [left; split; [by left|done]|]. exfalso. unfold bump_take in E.
    destruct (Z.ltb_spec (bp_next l) kFloor) as [|Hf]; cbn [orb] in E; [injection E as <-|].
    + assert (bump_blocks l !! 0 = Some u) as Hbad by (rewrite Hu at 1; apply lookup_insert_eq). congruence.
    + destruct (is_some _); [|injection E as _ E; unfold kFloor in Hf; lia]. injection E as <-.
      assert (bump_blocks l !! 0 = Some u) as Hbad by (rewrite Hu at 1; apply lookup_insert_eq). congruence.
  - destruct H as [[? _]|H]; [done|]. right. by split.
Qed.
Next Obligation. intros l p _. apply bump_drop_law. Qed.
Next Obligation.
  intros l p n [u Hu] Hn. cbn. unfold bump_realloc. apply Z.eqb_neq in Hn. rewrite Hn.
  destruct (_ || _) eqn:E; [by left|]. apply orb_false_iff in E as [E1 E2].
  unfold bump_take. cbn [bump_drop bp_next] in *. change (bp_live _ !! _) with (bp_live (bump_drop l p) !! bp_next l) at 1.
  rewrite E2, E1. cbn [orb]. right. rewrite <- (bump_drop_law l p). unfold bump_blocks at 1 2 3. cbn [bp_live].
  assert (bp_live (bump_drop l p) !! bp_next l = None) as Hnone by (by destruct (bp_live (bump_drop l p) !! bp_next l)).
  split; [apply map_lookup_filter_None; by left|]. eexists. apply map_filter_insert_True.
  apply Z.ltb_ge in E2. split; cbn; lia.
Qed.

Definition empty_bump : Bump := mkBump kFloor ∅.
Definition all_found : list Lookup := (fun _ => mkLookup [] true) <$> lookups.
Definition demo_time (n : nat) : Z * Z := (7, Z.of_nat n).
Definition watched : Preload Bump :=
  set_ring (default (fresh_preload empty_bump)
    (hv_resolve_symbols kArena 42 demo_time (mkLookup [CCalloc 1 32] true :: drop 1 all_found) (fresh_preload empty_bump)))
    (Some (fresh_ring 10)).

Lemma watched_hooked : hooked watched.
Proof.
  assert (pl_syms watched = reverse lookups) as E by (vm_compute; reflexivity).
  assert (pl_in_hook watched = false) as Ei by (vm_compute; reflexivity).
  split; [|exact Ei]. intros x. rewrite E. apply elem_of_reverse. apply (bool_decide_unpack _). by destruct x.
Qed.

Lemma hooks_transparent_witness : exists s',
  call kArena 42 demo_time (hv_resolve_symbols kArena 42 demo_time all_found) watched (CRealloc (kArena + 16) 40) =
    Some (s', (kFloor, 0)) /\ pl_libc s' = (bump_take empty_bump 40).1 /\ hooked s'.
Proof.
  destruct (hooks_transparent kArena 42 demo_time all_found watched (CRealloc (kArena + 16) 40) watched_hooked) as (s' & E & El & H).
  assert ((direct kArena (pl_libc watched) (CRealloc (kArena + 16) 40)).2 = (kFloor, 0)) as E2 by (vm_compute; reflexivity).
  assert ((direct kArena (pl_libc watched) (CRealloc (kArena + 16) 40)).1 = (bump_take empty_bump 40).1) as E1
    by (vm_compute; reflexivity).
  exists s'. rewrite E2 in E. rewrite E1 in El. split; [exact E|]. split; [exact El|exact H].
Defined.

(** A run of the watched target: three blocks, one grown, one released. *)
Definition demo_calls : list Call :=
  [CMalloc 100; CCalloc 4 8; CRealloc kFloor 300; CPosixMemalign 0 64 10; CFree (kFloor + 116); CRealloc 0 5].
Lemma demo_calls_fair : fair_run kArena (pl_libc watched) demo_calls.
Proof.
  cbn [fair_run demo_calls fair]. repeat match goal with |- _ /\ _ => split end; try exact I.
  - right. right. split; [|discriminate]. vm_compute. by eexists.
  - right. right. vm_compute. by eexists.
  - by left.
Qed.

Lemma shown_is_held_witness : exists new,
  let m := foldl (apply_event 0) (ap_model (new_app new_session (mkCaps TrueColor true) dark_theme true 0)) (events new) in
  (Z.of_nat (length new) < 2 ^ 31 -> md_live m = 3).
Proof.
  assert (pl_ring watched = Some (fresh_ring 10)) as H1 by reflexivity.
  assert (blocks (pl_libc watched) = ∅) as H2 by (vm_compute; reflexivity).
  destruct (shown_is_held kArena 42 demo_time all_found new_session (mkCaps TrueColor true) dark_theme true 0 demo_calls watched
    (fresh_ring 10) watched_hooked H1 demo_calls_fair H2) as (s' & new & r' & E & _ & _ & _ & H).
  exists new. intros m Hn. destruct (H Hn) as (_ & Hl & _). fold m in Hl. rewrite Hl. clear Hl H m Hn.
  assert ((fun s => Z.of_nat (size (seen (blocks (pl_libc s))))) <$>
    run_calls kArena 42 demo_time (hv_resolve_symbols kArena 42 demo_time all_found) demo_calls watched = Some 3) as Ec
    by (vm_compute; reflexivity).
  rewrite E in Ec. by injection Ec.
Defined.

(** The one call whose report is wrong.  Where resizing a block to zero
    releases it and returns null, as glibc's does, the hook takes the null for a
    failure: it reports the block live again, with a size asked of a block that
    has been released.  The target holds nothing; one live block is shown until
    its address is used again. *)
Theorem resize_to_zero :
  let run cs := run_calls kArena 42 demo_time (hv_resolve_symbols kArena 42 demo_time all_found) cs watched in
  exists s, run [CMalloc 100; CRealloc kFloor 0] = Some s /\ blocks (pl_libc s) = ∅ /\
    heap_of (events (pl_log s)) = {[kFloor := 0]} /\
    md_live (foldl (apply_event 0) (ap_model (new_app new_session (mkCaps TrueColor true) dark_theme true 0))
      (events (pl_log s))) = 1.
Proof. cbv zeta. eexists. split; [vm_compute; reflexivity|]. split_and!; vm_compute; reflexivity. Qed.

(** ** Standard error *)

(** A message is written from its start, without a byte twice or out of order,
    and whole unless a write fails; every write takes at least a byte, so as many
    answers as the message has bytes are enough for the loop to end. *)
Theorem err_written answers msg : (List.length (c_string msg) <= List.length answers)%nat ->
  exists out, hv_write_err answers msg = Some out /\ out `prefix_of` c_string msg /\
    (Forall (fun n => 0 < n) answers -> out = c_string msg).
Proof.
  unfold hv_write_err. generalize (c_string msg) as rest. clear msg. intros rest. revert rest.
  induction answers as [|n answers IH]; intros rest Hl.
  - destruct rest; [|cbn in Hl; lia]. by exists [].
  - destruct rest as [|c rest]; [by exists []|]. cbn [write_err_loop].
    destruct (Z.leb_spec n 0) as [Hn|Hn].
    { exists []. split; [done|]. split; [apply prefix_nil|]. intros [? _]%Forall_cons. lia. }
    destruct (IH (drop (Z.to_nat n) (c :: rest))) as (out & -> & Hp & Ha).
    { rewrite length_drop. cbn [List.length] in *. lia. }
    exists (take (Z.to_nat n) (c :: rest) ++ out). split; [done|]. split.
    + rewrite <- (take_drop (Z.to_nat n) (c :: rest)) at 2. by apply prefix_app.
    + intros [_ Hf]%Forall_cons. by rewrite Ha, take_drop by done.
Qed.

(** ** The bootstrap arena *)

Section Arena.
Context {L : Type} `{!Libc L} (base : Z) (Hbase : 0 <= base /\ (16 | base) /\ base + HV_BOOTSTRAP_BYTES < 2 ^ 64).
Implicit Types s : Preload L.

Lemma store_le_other n : forall m a v x, x < a \/ a + Z.of_nat n <= x -> byte_at (store_le n m a v) x = byte_at m x.
Proof.
  induction n as [|n IH]; intros m a v x Hx; [done|]. cbn [store_le]. rewrite IH by lia.
  unfold byte_at. rewrite lookup_insert_ne by lia. done.
Qed.
Lemma load_le_ext n : forall m m' a, (forall x, a <= x < a + Z.of_nat n -> byte_at m x = byte_at m' x) -> load_le n m a = load_le n m' a.
Proof.
  induction n as [|n IH]; intros m m' a H; [done|]. cbn [load_le]. rewrite (H a) by lia. f_equal. f_equal.
  apply IH. intros x Hx. apply H. lia.
Qed.
Lemma load_store_le n : forall m a v, 0 <= v -> load_le n (store_le n m a v) a = v mod 256 ^ Z.of_nat n.
Proof.
  induction n as [|n IH]; intros m a v Hv; [cbn; by rewrite Z.mod_1_r|]. cbn [load_le store_le].
  rewrite store_le_other by lia. unfold byte_at. rewrite lookup_insert_eq. cbn [default].
  rewrite IH by (apply Z.div_pos; lia). rewrite Nat2Z.inj_succ, Z.pow_succ_r by lia.
  rewrite Z.rem_mul_r by (try apply Z.pow_nonzero; try apply Z.pow_pos_nonneg; lia). done.
Qed.

(** The payload: the size rounded up to sixteen. *)
Lemma payload_spec n : 0 <= n <= 2 ^ 64 - 16 -> Z.land (n ⊞ 15) (Z.lnot 15) = (n + 15) / 16 * 16.
Proof.
  intros Hn. rewrite pow2_64 in Hn. rewrite u64_small by (unfold is_u64; rewrite pow2_64; lia).
  rewrite <- Z.ldiff_land. change 15 with (Z.ones 4) at 2. rewrite Z.ldiff_ones_r by lia.
  by rewrite Z.shiftl_mul_pow2, Z.shiftr_div_pow2 by lia.
Qed.

Record arena_ok s : Prop := { ar_used : 0 <= pl_used s <= HV_BOOTSTRAP_BYTES; ar_even : (16 | pl_used s) }.

(** C32: The arena serves what [dlsym] asks for before there is an allocator.  A
    request of at most 2^63 bytes gets the next sixteen-aligned block inside the
    arena, behind everything handed out before, none of whose bytes is touched;
    the header in front of it remembers its size; and the arena stays so.  Only
    when it does not fit does the process stop.  The block's pointer is
    recognized as the arena's, except that of an empty block at the arena's very
    end.  (Above 2^63 the bound is checked on a sum that can wrap:
    [bootstrap_wraps].) *)
Theorem bootstrap_exact s n : arena_ok s -> 0 <= n <= 2 ^ 63 ->
  let rounded := (n + 15) / 16 * 16 in
  if HV_BOOTSTRAP_BYTES <? pl_used s + sizeof_HvBootHeader + rounded then hv_bootstrap_alloc base s n = None
  else exists s' p, hv_bootstrap_alloc base s n = Some (s', p) /\ arena_ok s' /\
    p = base + pl_used s + sizeof_HvBootHeader /\ (16 | p) /\ p + n <= base + HV_BOOTSTRAP_BYTES /\
    base + pl_used s' = p + rounded /\ hv_bootstrap_size s' p = n /\
    (hv_is_bootstrap_ptr base p = true <-> p < base + HV_BOOTSTRAP_BYTES) /\
    (forall x, ~ (base + pl_used s <= x < p) -> byte_at (pl_mem s') x = byte_at (pl_mem s) x).
Proof.
  intros [Hu He] Hn rounded. unfold HV_BOOTSTRAP_BYTES, sizeof_HvBootHeader in *. change (64 * 1024) with 65536 in *.
  destruct Hbase as (Hb0 & Hb16 & Hb1). change (64 * 1024) with 65536 in Hb1.
  assert (n <= rounded < n + 16 /\ (16 | rounded)) as [Hr Hr16].
  { subst rounded. pose proof (Z.div_mod (n + 15) 16). pose proof (Z.mod_pos_bound (n + 15) 16).
    split; [lia|]. apply Z.divide_factor_r. }
  unfold hv_bootstrap_alloc. rewrite payload_spec by lia. fold rounded. unfold HV_BOOTSTRAP_BYTES, sizeof_HvBootHeader.
  change (64 * 1024) with 65536.
  rewrite (u64_small (16 + rounded)) by (unfold is_u64; rewrite pow2_64 in *; lia).
  rewrite (proj2 (Z.ltb_ge rounded n)) by lia.
  rewrite (u64_small (pl_used s + _)) by (unfold is_u64; rewrite pow2_64 in *; lia). rewrite !Z.add_assoc.
  destruct (Z.ltb_spec 65536 (pl_used s + 16 + rounded)) as [Hfull|Hfit]; [done|].
  eexists _, _. split; [reflexivity|]. set (m1 := store_le 8 (pl_mem s) (base + pl_used s) n).
  cbn [pl_used pl_mem set_arena]. unfold hv_bootstrap_size, hv_is_bootstrap_ptr, sizeof_HvBootHeader, HV_BOOTSTRAP_BYTES.
  cbn [pl_mem set_arena]. change (64 * 1024) with 65536.
  replace (base + pl_used s + 16 - 16) with (base + pl_used s) by lia.
  assert (load_le 8 (store_le 8 m1 (base + pl_used s + 8) HV_BOOTSTRAP_MAGIC) (base + pl_used s + 8) = HV_BOOTSTRAP_MAGIC) as Emagic
    by (rewrite load_store_le by done; vm_compute; reflexivity).
  assert (load_le 8 (store_le 8 m1 (base + pl_used s + 8) HV_BOOTSTRAP_MAGIC) (base + pl_used s) = n) as Esize.
  { rewrite (load_le_ext 8 _ m1) by (intros x Hx; apply store_le_other; lia). unfold m1.
    rewrite load_store_le by lia. change (256 ^ Z.of_nat 8) with (2 ^ 64). apply Z.mod_small. rewrite pow2_64 in *. lia. }
  split.
  { split; cbn; [unfold HV_BOOTSTRAP_BYTES; lia|]. apply Z.divide_add_r; [apply Z.divide_add_r; [done|by exists 1]|done]. }
  split; [done|]. split; [apply Z.divide_add_r; [by apply Z.divide_add_r|by exists 1]|]. split; [lia|]. split; [lia|].
  split; [by rewrite Emagic, Esize|]. split; [rewrite andb_true_iff, Z.leb_le, Z.ltb_lt; lia|].
  intros x Hx. rewrite store_le_other by lia. apply store_le_other. lia.
Qed.
End Arena.

(** The arena after one request of sixteen bytes. *)
Definition one_block : Preload Bump := default (fresh_preload empty_bump)
  (fst <$> hv_bootstrap_alloc kArena (fresh_preload empty_bump) 16).

Lemma bootstrap_exact_witness : exists s' p,
  hv_bootstrap_alloc kArena one_block 20 = Some (s', p) /\ p = kArena + 48 /\ hv_bootstrap_size s' p = 20.
Proof.
  assert (0 <= kArena /\ (16 | kArena) /\ kArena + HV_BOOTSTRAP_BYTES < 2 ^ 64) as Hb
    by (split_and!; [discriminate|by exists 4096|reflexivity]).
  assert (pl_used one_block = 32) as Hu by (vm_compute; reflexivity).
  assert (arena_ok one_block) as Ha by (split; rewrite Hu; [split; discriminate|by exists 2]).
  pose proof (bootstrap_exact kArena Hb one_block 20 Ha ltac:(split; discriminate)) as H. cbv zeta in H.
  rewrite Hu in H. destruct H as (s' & p & E & _ & Hp & _ & _ & _ & Hs & _). exists s', p.
  split; [exact E|]. split; [rewrite Hp; reflexivity|exact Hs].
Defined.

(** The arena's bound is checked on a sum that wraps.  A request near the top
    of the address space, which should stop the process, passes instead and
    moves the arena backwards: the block it gets cannot hold it, and the next
    request is given memory inside the first block, whose contents its header
    overwrites.  And an empty block that ends the arena exactly is not recognized
    as the arena's, so releasing it hands the real allocator a foreign pointer. *)
Theorem bootstrap_wraps :
  let s1 := one_block in                                    (* a block of 16 at kArena + 16 *)
  (exists s2 p2 s3 p3,
    hv_bootstrap_alloc kArena s1 (2 ^ 64 - 32) = Some (s2, p2) /\ p2 = kArena + 48 /\ pl_used s2 = 16 /\
    hv_bootstrap_alloc kArena s2 16 = Some (s3, p3) /\ p3 = kArena + 32 /\
    byte_at (pl_mem s1) (kArena + 24) = 0 /\ byte_at (pl_mem s3) (kArena + 24) <> 0) /\
  (exists s2 s3 p3,
    hv_bootstrap_alloc kArena (fresh_preload empty_bump) (HV_BOOTSTRAP_BYTES - 32) = Some (s2, kArena + 16) /\
    hv_bootstrap_alloc kArena s2 0 = Some (s3, p3) /\ hv_is_bootstrap_ptr kArena p3 = false).
Proof.
  cbv zeta. split.
  - eexists _, _, _, _. split; [vm_compute; reflexivity|]. split; [vm_compute; reflexivity|]. split; [vm_compute; reflexivity|].
    split; [vm_compute; reflexivity|]. split_and!; vm_compute; congruence.
  - eexists _, _, _. split; [vm_compute; reflexivity|]. split; vm_compute; reflexivity.
Qed.

(** ** The segment *)
Lemma digits_nonneg l : forall v, 0 <= v -> 0 <= (digits l v).1.
Proof.
  induction l as [|c l IH]; intros v Hv; cbn [digits]; [done|]. destruct (is_digit c) eqn:E; [|done].
  apply IH. unfold is_digit in E. bprop. lia.
Qed.

Lemma parse_number_nonneg raw : 0 <= (parse_number raw).1.1.
Proof.
  unfold parse_number. destruct (match skip_spaces raw with [] => _ | _ => _ end) as [neg l].
  destruct l as [|c l]; [done|]. destruct (is_digit c); [|done].
  pose proof (digits_nonneg (c :: l) 0 ltac:(done)) as H. by destruct (digits (c :: l) 0).
Qed.

Lemma strtoull_u64 raw : is_u64 (strtoull raw).1.
Proof.
  unfold strtoull. pose proof (parse_number_nonneg raw) as H. destruct (parse_number raw) as [[v neg] rest]. cbn in *.
  unfold is_u64 in *. destruct (Z.leb_spec (2 ^ 64) v); [done|]. destruct neg; [apply u64_range|]. lia.
Qed.

(** Whatever the variable holds, the capacity is a power of two of at least 1024. *)
Lemma env_capacity_pow2 raw : exists j, 10 <= j < 64 /\ hv_env_capacity raw = 2 ^ j.
Proof.
  assert (exists j, 10 <= j < 64 /\ HV_DEFAULT_CAPACITY = 2 ^ j) as Hd by (exists 20; split; [lia|done]).
  unfold hv_env_capacity. destruct raw as [[|c raw]|]; [done| |done].
  pose proof (strtoull_u64 (c :: raw)) as Hu. destruct (strtoull (c :: raw)) as [v stop]. cbn in Hu.
  destruct (negb _ || _ || _) eqn:E; [done|]. apply orb_false_iff in E as [E E3]. apply orb_false_iff in E as [_ E2].
  apply negb_false_iff in E2. apply hv_is_pow2_spec in E2 as (j & Hj & ->); [|done]. exists j. split; [|done].
  split; [|lia]. apply Z.ltb_ge in E3. apply (Z.pow_le_mono_r_iff 2); [lia..|]. exact E3.
Qed.

Lemma cut_line_c_str l n : c_str (cut_line l ++ replicate n 0) = c_str (cut_newline l).
Proof.
  induction l as [|c l IH]; cbn [cut_line cut_newline]; [by destruct n|].
  destruct (Z.eqb_spec c 10); cbn; [done|]. by rewrite IH.
Qed.
Lemma comm_line_length l : length (cut_line l) = length l.
Proof. induction l as [|c l IH]; cbn; [done|]. destruct (c =? 10); cbn; lia. Qed.

Lemma read_comm_name file : c_str (hv_read_comm 16 file) =
  match file with None => [] | Some text => c_str (cut_newline (take 15 text)) end.
Proof.
  unfold hv_read_comm. destruct file as [text|]; [|done]. change (16 - 1)%nat with 15%nat.
  assert (length (take 15 text) <= 15)%nat as Hl by (rewrite length_take; lia). set (got := take 15 text) in *. clearbody got.
  rewrite list_insert_id; [apply cut_line_c_str|]. rewrite lookup_app_r by (rewrite comm_line_length; lia).
  apply lookup_replicate. rewrite comm_line_length. lia.
Qed.

Lemma unlink_gone names name : name ∉ unlink names name.
Proof.
  unfold unlink. rewrite list_elem_of_In, filter_In. intros [_ H]. by rewrite bool_decide_true in H.
Qed.

(** The name of the process's segment. *)
Definition segment_name (k : Kernel) : list Z := (hv_shm_name HV_SHM_NAME_MAX (kn_pid k)).1.

(** C31: What the library sets up is what a consumer accepts.  A stale segment of
    the same pid is replaced; the ring is empty, unclaimed, of a power-of-two
    capacity with its logarithm, mapped large enough for every slot when its size
    fits 64 bits; and the session's check of a published header takes it, claims
    it and reads the process's name, cut at the newline.  When a step fails the
    telemetry is off and no segment stays behind; and at exit the name is gone
    and the ring says so. *)
Theorem setup_attaches k g me j : kn_open_fails k = false -> kn_page k = 2 ^ j -> 0 <= j < 63 ->
  let '(g', ring) := hv_ring_setup k g in
  match ring with
  | None => (kn_truncates k = false \/ kn_map k = None) /\ segment_name k ∉ sg_names g'
  | Some r =>
      exists c, 10 <= c < 64 /\ h_capacity (r_hdr r) = 2 ^ c /\ h_capacity_log2 (r_hdr r) = c /\
      hv_ring_used r = 0 /\ Some (r_slots r) = kn_map k /\ segment_name k ∈ sg_names g' /\
      (sizeof_HvRingHeader + 2 ^ c * sizeof_HvEvent + 2 ^ j <= 2 ^ 64 ->
         sizeof_HvRingHeader + 2 ^ c * sizeof_HvEvent <= sg_bytes g') /\
      (let '(s, st) := attach_ready new_session (kn_pid k) me (kn_page k) (r_hdr r) (Some r) [] in
       st = AtOk /\ ss_bytes s = sg_bytes g' /\ producer_exited s = false /\
       ss_comm s = match kn_comm k with None => [] | Some text => c_str (cut_newline (take 15 text)) end) /\
      (forall L (p : Preload L), pl_ring p = Some r ->
       let '(p', g'', last) := hv_preload_fini p g' in
       pl_ring p' = None /\ segment_name k ∉ sg_names g'' /\ (h_producer_exited ∘ r_hdr <$> last) = Some 1)
  end.
Proof.
  intros Hopen Hpage Hj. unfold hv_ring_setup. fold (segment_name k).
  destruct (env_capacity_pow2 (kn_capacity k)) as (c & Hc & Ecap). rewrite Ecap.
  assert (exists names, segment_name k ∈ names /\
    match shm_create k (sg_names g) (segment_name k) with
    | inl names => (names, true)
    | inr e => if e =? EEXIST then
        match shm_create k (unlink (sg_names g) (segment_name k)) (segment_name k) with
        | inl names => (names, true) | inr _ => (unlink (sg_names g) (segment_name k), false) end
      else (sg_names g, false)
    end = (names, true)) as (names & Hin & ->).
  { unfold shm_create. rewrite Hopen. destruct (bool_decide_reflect (segment_name k ∈ sg_names g)).
    - cbn. rewrite bool_decide_false by apply unlink_gone. eexists. split; [by left|done].
    - eexists. split; [by left|done]. }
  cbn [negb]. destruct (kn_truncates k); cbn [negb]; [|split; [by left|apply unlink_gone]].
  destruct (kn_map k) as [slots|]; [|split; [by right|apply unlink_gone]].
  exists c. split; [done|]. split; [done|]. split; [apply hv_log2_pow2_spec; lia|]. split; [done|]. split; [done|]. split; [done|].
  cbn [sg_bytes sg_names r_hdr].
  split. { intros Hfit. rewrite Hpage. apply hv_mapping_size_spec; [lia|apply Z.pow_nonneg; lia|exact Hfit]. }
  split.
  - unfold attach_ready. cbn [h_abi_version h_event_size hv_ring_header]. rewrite !Z.eqb_refl. cbn [negb orb].
    unfold hv_ring_claim. rewrite claim_loop_outcome. cbn. split; [done|]. split; [done|]. split; [done|]. apply read_comm_name.
  - intros L p Hp. unfold hv_preload_fini, hv_ring_teardown. rewrite Hp. cbn. split; [done|]. split; [apply unlink_gone|done].
Qed.

Definition demo_kernel (capacity : option (list Z)) : Kernel :=
  mkKernel capacity 4096 42 false true (Some (replicate 8 zero_event)) (1, 5) (Some [97; 98; 10]).
Definition stale_segment : Segment := mkSegment [segment_name (demo_kernel None)] 0 [].

Lemma setup_attaches_witness :
  h_capacity_log2 <$> (r_hdr <$> (hv_ring_setup (demo_kernel (Some [32; 50; 48; 52; 56])) stale_segment).2) = Some 11 /\
  (hv_ring_setup (demo_kernel (Some [32; 50; 48; 52; 56])) stale_segment).2 <> None.
Proof.
  set (k := demo_kernel (Some [32; 50; 48; 52; 56])).
  assert (h_capacity_log2 <$> (r_hdr <$> (hv_ring_setup k stale_segment).2) = Some 11) as E by (vm_compute; reflexivity).
  split; [exact E|]. pose proof (setup_attaches k stale_segment 7 12 eq_refl eq_refl ltac:(lia)) as H.
  destruct (hv_ring_setup k stale_segment) as [g' [r|]]; [discriminate|].
  destruct H as [[H|H] _]; discriminate H.
Defined.

(** The capacity the environment asks for is checked to be a power of two but
    not to be mappable.  With 2^63 slots the size of the mapping wraps to one
    page, which every call accepts; the slot of the hundred and twenty-first
    event lies just past it, so the target dies at its first allocations. *)
Theorem capacity_unmapped :
  let k := demo_kernel (Some [57; 50; 50; 51; 51; 55; 50; 48; 51; 54; 56; 53; 52; 55; 55; 53; 56; 48; 56]) in
  exists g r, hv_ring_setup k (mkSegment [] 0 []) = (g, Some r) /\ h_capacity (r_hdr r) = 2 ^ 63 /\
    sg_bytes g = 4096 /\ ring_full 120 0 (h_capacity (r_hdr r)) = false /\
    sizeof_HvRingHeader + sizeof_HvEvent * hv_ring_slot (h_capacity (r_hdr r)) 120 = sg_bytes g.
Proof. cbv zeta. eexists _, _. split; [vm_compute; reflexivity|]. split_and!; vm_compute; reflexivity. Qed.

(** The handshake ends, after one poll per millisecond asked for; at half a
    millisecond per poll that is half the time. *)
Lemma wait_loop_spec seen : forall budget slept, budget <= Z.of_nat (length seen) ->
  exists n, Forall (fun c => c = 0) (take n seen) /\ Z.of_nat n <= Z.max 0 budget /\
    (wait_loop budget seen slept = (GaveUp, (slept + n)%nat) /\ Z.of_nat n = Z.max 0 budget \/
     wait_loop budget seen slept = (Arrived, (slept + n)%nat) /\ exists c, seen !! n = Some c /\ c <> 0).
Proof.
  induction seen as [|c seen IH]; intros budget slept Hb; cbn [wait_loop length] in *.
  { destruct (Z.leb_spec budget 0); [|lia]. exists 0%nat. split; [constructor|]. split; [lia|]. left. split; [f_equal; lia|lia]. }
  destruct (Z.leb_spec budget 0).
  { exists 0%nat. split; [constructor|]. split; [lia|]. left. split; [f_equal; lia|lia]. }
  destruct (Z.eqb_spec c 0) as [->|Hc]; cbn [negb].
  - destruct (IH (budget - 1) (S slept) ltac:(lia)) as (n & Hf & Hn & [[E Eb]|[E Ex]]); exists (S n); cbn [take].
    + split; [by constructor|]. split; [lia|]. left. rewrite E. split; [f_equal; lia|lia].
    + split; [by constructor|]. split; [lia|]. right. rewrite E. split; [f_equal; lia|done].
  - exists 0%nat. split; [constructor|]. split; [lia|]. right. split; [f_equal; lia|by exists c].
Qed.

Lemma handshake_half_time :
  hv_wait_for_consumer (Some [49; 48; 48]) (replicate 200 0) = (GaveUp, 100%nat) /\
  Z.of_nat 100 * kHandshakeSleepUs = 50 * 1000.
Proof. by vm_compute. Qed.
