(* ===== verification/HookConc.v ===== *)
(** * The hooks under concurrency

    Every thread of the target runs the hooks of [Preload], cut here at their
    accesses to what the threads share: the call of the real allocator and the
    push of an event are separate steps, in the order the hooks make them.  A
    release is reported before it is made, an allocation after: so in any
    interleaving the stream of events is a history of the heap. *)

From stdpp Require Import fin_maps gmap.
From S2P Require Import Prelude Abi Ring Session HeapApp LiveSet Preload PreloadProofs.

(** Where a thread is inside a hook: about to report a block, to release one, or
    to resize one. *)
Inductive HookPc := Report (op p n : Z) | Release (p : Z) | Resize (p n : Z).
Definition held_by (pc : HookPc) : Z := match pc with Report _ p _ | Release p | Resize p _ => p end.

(** [cc_events]: what the pushes have put in the stream so far. *)
Record Conc (L : Type) := mkConc { cc_libc : L; cc_events : list HvEvent; cc_threads : gmap nat HookPc }.
Arguments mkConc {L}. Arguments cc_libc {L}. Arguments cc_events {L}. Arguments cc_threads {L}.

(** A thread enters a hook, or takes its next step; the stamp is the time and the
    thread's id as a push reads them. *)
Inductive HookLabel := Enter (t : nat) (stamp : Z * Z) (c : Call) | Go (t : nat) (stamp : Z * Z).

Section Conc.
Context {L : Type} `{!Libc L} (base : Z).

Definition usable_of (l : L) (p : Z) : Z :=
  let u := lc_usable_size l p in if UINT32_MAX <? u then UINT32_MAX else u.
Definition push (s : Conc L) (stamp : Z * Z) (op p n : Z) (threads : gmap nat HookPc) : Conc L :=
  mkConc (cc_libc s) (cc_events s ++ [event_of (mkPushArgs stamp.1 p n (usable_of (cc_libc s) p) stamp.2 op)]) threads.

(** What an allocating call reports: its opcode and size. *)
Definition reported_as (c : Call) : Z * Z :=
  match c with
  | CMalloc n | CRealloc _ n => (HV_OP_MALLOC, n)
  | CFree _ => (HV_OP_FREE, 0)
  | CCalloc a b => (HV_OP_CALLOC, if mul_overflow a b then 0 else a * b)
  | CPosixMemalign _ _ n | CAlignedAlloc _ n | CMemalign _ n | CValloc n | CPvalloc n => (HV_OP_MEMALIGN, n)
  end.
(** The block an allocating call got, null when it failed. *)
Definition block_got (c : Call) (res : Z * Z) : Z :=
  match c with CPosixMemalign _ _ _ => if res.1 =? 0 then res.2 else 0 | _ => res.1 end.

Definition allocate (s : Conc L) (t : nat) (c : Call) : Conc L :=
  let '(l, res) := direct base (cc_libc s) c in
  let p := block_got c res in
  mkConc l (cc_events s)
    (if p =? 0 then cc_threads s else <[t := Report (reported_as c).1 p (reported_as c).2]> (cc_threads s)).

Definition enter (s : Conc L) (t : nat) (stamp : Z * Z) (c : Call) : Conc L :=
  match c with
  | CFree p =>
      if (p =? 0) || hv_is_bootstrap_ptr base p then s
      else push s stamp HV_OP_FREE p 0 (<[t := Release p]> (cc_threads s))
  | CRealloc p n =>
      if (p =? 0) || hv_is_bootstrap_ptr base p then allocate s t c
      else push s stamp HV_OP_FREE p 0 (<[t := Resize p n]> (cc_threads s))
  | _ => allocate s t c
  end.

Definition go (s : Conc L) (t : nat) (stamp : Z * Z) (pc : HookPc) : Conc L :=
  match pc with
  | Report op p n => push s stamp op p n (delete t (cc_threads s))
  | Release p => mkConc (lc_free (cc_libc s) p) (cc_events s) (delete t (cc_threads s))
  | Resize p n =>
      let '(l, q) := lc_realloc (cc_libc s) p n in
      mkConc l (cc_events s) (<[t := Report HV_OP_REALLOC (if q =? 0 then p else q) n]> (cc_threads s))
  end.

Definition hook_step (lb : HookLabel) (s : Conc L) : option (Conc L) :=
  match lb with
  | Enter t stamp c => match cc_threads s !! t with None => Some (enter s t stamp c) | Some _ => None end
  | Go t stamp => go s t stamp <$> cc_threads s !! t
  end.

Fixpoint hook_steps (ls : list HookLabel) (s : Conc L) : option (Conc L) :=
  match ls with [] => Some s | lb :: ls => s ← hook_step lb s; hook_steps ls s end.

Context `{!Allocator L base}.

(** A block some thread is about to report, release or resize. *)
Definition in_transit (th : gmap nat HookPc) (p : Z) : Prop := exists t pc, th !! t = Some pc /\ held_by pc = p.

(** A correct target: what it gives back it holds, alone. *)
Definition fair_label (lb : HookLabel) (s : Conc L) : Prop :=
  match lb with
  | Enter t _ c => fair base (cc_libc s) c /\
      match c with CFree p | CRealloc p _ => ~ in_transit (cc_threads s) p | _ => True end
  | Go _ _ => True
  end.

Inductive hook_reachable (s0 : Conc L) : Conc L -> Prop :=
  | hr_start : hook_reachable s0 s0
  | hr_step s lb s' : hook_reachable s0 s -> fair_label lb s -> hook_step lb s = Some s' -> hook_reachable s0 s'.

(** A stream that is a history of a heap: an allocation is of a new address, a
    release of a live one, with the size it has. *)
Fixpoint history (h : gmap Z Z) (es : list HvEvent) : Prop :=
  match es with
  | [] => True
  | e :: es => (if is_free e then h !! ev_ptr e = Some (ev_usable e) else h !! ev_ptr e = None) /\ history (heap_step h e) es
  end.

(** The allocator's blocks, the heap the stream describes and the threads. *)
Record core (B H : gmap Z Z) (th : gmap nat HookPc) : Prop := {
  co_apart : forall t1 t2 pc1 pc2, th !! t1 = Some pc1 -> th !! t2 = Some pc2 -> held_by pc1 = held_by pc2 -> t1 = t2;
  co_held : forall p, in_transit th p -> is_Some (B !! p);
  co_shown : forall p, ~ in_transit th p -> H !! p = seen B !! p;
  co_hidden : forall p, in_transit th p -> H !! p = None
}.

Lemma transit_insert th t pc p : th !! t = None -> in_transit (<[t := pc]> th) p <-> p = held_by pc \/ in_transit th p.
Proof.
  intros Ht. split.
  - intros (t' & pc' & [[<- <-]|[Hne H]]%lookup_insert_Some & E); [by left|]. right. by exists t', pc'.
  - intros [->|(t' & pc' & H & E)]; [exists t, pc; by rewrite lookup_insert_eq|].
    exists t', pc'. rewrite lookup_insert_ne by congruence. done.
Qed.

Lemma transit_delete B H th t pc p : core B H th -> th !! t = Some pc ->
  in_transit (delete t th) p <-> in_transit th p /\ p <> held_by pc.
Proof.
  intros Hc Ht. split.
  - intros (t' & pc' & [Hne Hl]%lookup_delete_Some & E). split; [by exists t', pc'|]. intros Ep.
    apply Hne. apply (co_apart _ _ _ Hc t t' pc pc' Ht Hl). congruence.
  - intros [(t' & pc' & Hl & E) Hne]. exists t', pc'. split; [|done]. apply lookup_delete_Some. split; [congruence|done].
Qed.

Lemma seen_lookup (B : gmap Z Z) p : seen B !! p = (fun u => Z.min u UINT32_MAX) <$> B !! p.
Proof. apply lookup_fmap. Qed.

(** A new block, held by the thread that got it. *)
Lemma core_acquire B H th t pc u : core B H th -> th !! t = None -> B !! held_by pc = None ->
  core (<[held_by pc := u]> B) H (<[t := pc]> th).
Proof.
  intros Hc Ht Hb. assert (~ in_transit th (held_by pc)) as Hn.
  { intros Hin. destruct (co_held _ _ _ Hc _ Hin). congruence. }
  assert (H !! held_by pc = None) as Hh by (rewrite (co_shown _ _ _ Hc _ Hn), seen_lookup, Hb; done).
  split.
  - intros t1 t2 pc1 pc2 H1 H2 E. apply lookup_insert_Some in H1, H2.
    destruct H1 as [[<- <-]|[? H1]], H2 as [[<- <-]|[? H2]]; [done| | |by eapply (co_apart _ _ _ Hc)];
      exfalso; apply Hn; [exists t2, pc2|exists t1, pc1]; by split.
  - intros p [->|Hp]%transit_insert; [rewrite lookup_insert_eq; by eexists| |done].
    destruct (decide (p = held_by pc)) as [->|]; [rewrite lookup_insert_eq; by eexists|].
    rewrite lookup_insert_ne by done. by apply (co_held _ _ _ Hc).
  - intros p Hp. rewrite transit_insert in Hp by done. rewrite seen_lookup, lookup_insert_ne by (intros E; apply Hp; by left).
    rewrite <- seen_lookup. apply (co_shown _ _ _ Hc). tauto.
  - intros p [->|Hp]%transit_insert; [done|by apply (co_hidden _ _ _ Hc)|done].
Qed.

(** A held block is reported. *)
Lemma core_publish B H th t pc u : core B H th -> th !! t = Some pc -> B !! held_by pc = Some u ->
  H !! held_by pc = None /\ core B (<[held_by pc := Z.min u UINT32_MAX]> H) (delete t th).
Proof.
  intros Hc Ht Hb. assert (in_transit th (held_by pc)) as Hin by (by exists t, pc).
  split; [by apply (co_hidden _ _ _ Hc)|]. split.
  - intros t1 t2 pc1 pc2 [_ H1]%lookup_delete_Some [_ H2]%lookup_delete_Some. by apply (co_apart _ _ _ Hc).
  - intros p [Hp _]%(transit_delete B H th t pc); [by apply (co_held _ _ _ Hc)|done|done].
  - intros p Hp. rewrite (transit_delete B H) in Hp by done. destruct (decide (p = held_by pc)) as [->|Hne].
    + by rewrite lookup_insert_eq, seen_lookup, Hb.
    + rewrite lookup_insert_ne by done. apply (co_shown _ _ _ Hc). tauto.
  - intros p [Hp Hne]%(transit_delete B H th t pc); [|done|done]. rewrite lookup_insert_ne by done. by apply (co_hidden _ _ _ Hc).
Qed.

(** A block is reported released, and held until it is. *)
Lemma core_retire B H th t pc u : core B H th -> th !! t = None -> B !! held_by pc = Some u -> ~ in_transit th (held_by pc) ->
  H !! held_by pc = Some (Z.min u UINT32_MAX) /\ core B (delete (held_by pc) H) (<[t := pc]> th).
Proof.
  intros Hc Ht Hb Hn. split; [by rewrite (co_shown _ _ _ Hc _ Hn), seen_lookup, Hb|]. split.
  - intros t1 t2 pc1 pc2 H1 H2 E. apply lookup_insert_Some in H1, H2.
    destruct H1 as [[<- <-]|[? H1]], H2 as [[<- <-]|[? H2]]; [done| | |by eapply (co_apart _ _ _ Hc)];
      exfalso; apply Hn; [exists t2, pc2|exists t1, pc1]; by split.
  - intros p [->|Hp]%transit_insert; [by eexists|by apply (co_held _ _ _ Hc)|done].
  - intros p Hp. rewrite transit_insert in Hp by done. rewrite lookup_delete_ne by (intros E; apply Hp; by left).
    apply (co_shown _ _ _ Hc). tauto.
  - intros p Hp. destruct (decide (p = held_by pc)) as [->|Hne]; [apply lookup_delete_eq|].
    rewrite lookup_delete_ne by done. apply (co_hidden _ _ _ Hc). apply transit_insert in Hp as [?|?]; done.
Qed.

(** A held block is released. *)
Lemma core_drop B H th t pc : core B H th -> th !! t = Some pc -> core (delete (held_by pc) B) H (delete t th).
Proof.
  intros Hc Ht. assert (in_transit th (held_by pc)) as Hin by (by exists t, pc). split.
  - intros t1 t2 pc1 pc2 [_ H1]%lookup_delete_Some [_ H2]%lookup_delete_Some. by apply (co_apart _ _ _ Hc).
  - intros p [Hp Hne]%(transit_delete B H th t pc); [|done|done]. rewrite lookup_delete_ne by done. by apply (co_held _ _ _ Hc).
  - intros p Hp. rewrite (transit_delete B H) in Hp by done. rewrite seen_lookup. destruct (decide (p = held_by pc)) as [->|Hne].
    + rewrite lookup_delete_eq. by apply (co_hidden _ _ _ Hc).
    + rewrite lookup_delete_ne, <- seen_lookup by done. apply (co_shown _ _ _ Hc). tauto.
  - intros p [Hp Hne]%(transit_delete B H th t pc); [|done|done]. by apply (co_hidden _ _ _ Hc).
Qed.

(** A thread goes on holding its block. *)
Lemma core_keep B H th t pc pc' : core B H th -> th !! t = Some pc -> held_by pc' = held_by pc -> core B H (<[t := pc']> th).
Proof.
  intros Hc Ht E. assert (forall p, in_transit (<[t := pc']> th) p <-> in_transit th p) as Htr.
  { intros p. rewrite <- insert_delete_eq, transit_insert by apply lookup_delete_eq.
    rewrite (transit_delete B H th t pc p Hc Ht), E. split; [intros [->|[? _]]; [by exists t, pc|done]|].
    intros Hp. destruct (decide (p = held_by pc)); [by left|by right]. }
  split.
  - assert (forall t0 pc0, <[t := pc']> th !! t0 = Some pc0 -> exists pc1, th !! t0 = Some pc1 /\ held_by pc1 = held_by pc0) as Hold.
    { intros t0 pc0 [[<- <-]|[_ ?]]%lookup_insert_Some; [by exists pc|by exists pc0]. }
    intros t1 t2 pc1 pc2 (pc3 & H1 & E1)%Hold (pc4 & H2 & E2)%Hold Eh.
    apply (co_apart _ _ _ Hc _ _ _ _ H1 H2). congruence.
  - intros p Hp%Htr. by apply (co_held _ _ _ Hc).
  - intros p Hp. apply (co_shown _ _ _ Hc). by rewrite <- Htr.
  - intros p Hp%Htr. by apply (co_hidden _ _ _ Hc).
Qed.

Lemma history_snoc es e : forall h, history h es ->
  (if is_free e then foldl heap_step h es !! ev_ptr e = Some (ev_usable e) else foldl heap_step h es !! ev_ptr e = None) ->
  history h (es ++ [e]).
Proof.
  induction es as [|e0 es IH]; intros h Hh He; cbn in *; [by split|]. destruct Hh as [H0 Hh]. split; [done|]. by apply IH.
Qed.
Lemma heap_of_snoc es e : heap_of (es ++ [e]) = heap_step (heap_of es) e.
Proof. unfold heap_of. by rewrite foldl_app. Qed.

Record hooks_inv (s : Conc L) : Prop := {
  hi_core : core (blocks (cc_libc s)) (heap_of (cc_events s)) (cc_threads s);
  hi_report : forall t op p n, cc_threads s !! t = Some (Report op p n) -> Z.land op HV_OP_MASK <> HV_OP_FREE;
  hi_resize : forall t p n, cc_threads s !! t = Some (Resize p n) -> n <> 0;
  hi_history : history ∅ (cc_events s)
}.

Lemma usable_of_block l p u : blocks l !! p = Some u -> usable_of l p = Z.min u UINT32_MAX.
Proof. intros Hb. destruct (usable_law _ _ _ Hb) as (E & _). unfold usable_of. rewrite E. destruct (Z.ltb_spec UINT32_MAX u); lia. Qed.

(** A release is reported. *)
Lemma push_release s t stamp p n pc u : hooks_inv s -> cc_threads s !! t = None -> held_by pc = p ->
  blocks (cc_libc s) !! p = Some u -> ~ in_transit (cc_threads s) p ->
  (forall op p n, pc <> Report op p n) -> (forall p n, pc = Resize p n -> n <> 0) ->
  hooks_inv (push s stamp HV_OP_FREE p n (<[t := pc]> (cc_threads s))).
Proof.
  intros [Hc Hr Hz Hh] Ht <- Hb Hn Hnr Hnz. destruct (core_retire _ _ _ _ pc u Hc Ht Hb Hn) as [Hl Hc'].
  unfold push. set (e := event_of _).
  assert (is_free e = true) as He by (unfold e; by rewrite event_free).
  split; cbn [cc_libc cc_events cc_threads].
  - rewrite heap_of_snoc. unfold heap_step. rewrite He. exact Hc'.
  - intros t' op p n' [[_ E]|[_ ?]]%lookup_insert_Some; [by apply Hnr in E|by eapply Hr].
  - intros t' p n' [[_ E]|[_ ?]]%lookup_insert_Some; [by apply (Hnz p)|by eapply Hz].
  - apply history_snoc; [done|]. rewrite He. fold (heap_of (cc_events s)). change (ev_ptr e) with (held_by pc).
    change (ev_usable e) with (usable_of (cc_libc s) (held_by pc)). by rewrite (usable_of_block _ _ _ Hb).
Qed.

Lemma go_inv s t stamp pc : hooks_inv s -> cc_threads s !! t = Some pc -> hooks_inv (go s t stamp pc).
Proof.
  intros [Hc Hr Hz Hh] Ht. assert (is_Some (blocks (cc_libc s) !! held_by pc)) as [u Hb]
    by (apply (co_held _ _ _ Hc); by exists t, pc).
  assert (forall t' op p n, delete t (cc_threads s) !! t' = Some (Report op p n) -> Z.land op HV_OP_MASK <> HV_OP_FREE) as Hr'
    by (intros t' op p n [_ ?]%lookup_delete_Some; by eapply Hr).
  assert (forall t' p n, delete t (cc_threads s) !! t' = Some (Resize p n) -> n <> 0) as Hz'
    by (intros t' p n [_ ?]%lookup_delete_Some; by eapply Hz).
  destruct pc as [op p n|p|p n]; cbn [go held_by] in *.
  - destruct (core_publish _ _ _ _ _ u Hc Ht Hb) as [Hnone Hc']. cbn [held_by] in *. pose proof (Hr _ _ _ _ Ht) as Hop.
    apply Z.eqb_neq in Hop. unfold push. set (e := event_of _).
    assert (is_free e = false) as He by (unfold e; by rewrite event_free).
    assert (ev_usable e = Z.min u UINT32_MAX) as Hu by (apply (usable_of_block _ _ _ Hb)).
    split; cbn [cc_libc cc_events cc_threads]; [|done|done|].
    + rewrite heap_of_snoc. unfold heap_step. rewrite He, Hu. exact Hc'.
    + apply history_snoc; [done|]. by rewrite He.
  - split; cbn [cc_libc cc_events cc_threads]; [|done|done|done]. rewrite free_law by (by eexists).
    apply (core_drop _ _ _ _ _ Hc Ht).
  - pose proof (realloc_law (cc_libc s) p n ltac:(by eexists) (Hz _ _ _ Ht)) as Hlaw.
    destruct (lc_realloc (cc_libc s) p n) as [l q]. set (pc' := Report HV_OP_REALLOC (if q =? 0 then p else q) n).
    assert (core (blocks l) (heap_of (cc_events s)) (<[t := pc']> (cc_threads s))) as Hc'.
    { destruct Hlaw as [[-> ->]|[Hfresh [v Hv]]]; [by eapply core_keep|].
      assert (q <> 0) as Hq by (apply (usable_law l q v); rewrite Hv; apply lookup_insert_eq).
      apply Z.eqb_neq in Hq. unfold pc' in *. rewrite Hq in *. rewrite Hv, <- (insert_delete_eq (cc_threads s)).
      apply (core_acquire _ _ _ t (Report HV_OP_REALLOC q n)); [apply (core_drop _ _ _ _ _ Hc Ht)|apply lookup_delete_eq|exact Hfresh]. }
    split; cbn [cc_libc cc_events cc_threads]; [done| | |done].
    + intros t' op p' n' [[_ E]|[_ ?]]%lookup_insert_Some; [by injection E as <- _ _|by eapply Hr].
    + intros t' p' n' [[_ E]|[_ ?]]%lookup_insert_Some; [done|by eapply Hz].
Qed.

(** Every allocating call obeys the allocator's law. *)
Lemma direct_law l c : (forall p, c <> CFree p) ->
  (forall p n, c = CRealloc p n -> (p =? 0) || hv_is_bootstrap_ptr base p = true) ->
  let '(l', res) := direct base l c in
  let p := block_got c res in
  blocks l' = blocks l /\ p = 0 \/ blocks l !! p = None /\ exists u, blocks l' = <[p := u]> (blocks l).
Proof.
  intros Hf Hr. assert (forall (lp : L * Z) (f : Z * Z -> Z), f (lp.2, 0) = lp.2 ->
    (let '(l', p) := lp in p = 0 /\ blocks l' = blocks l \/ blocks l !! p = None /\ exists u, blocks l' = <[p := u]> (blocks l)) ->
    blocks (lp.1, (lp.2, 0)).1 = blocks l /\ f (lp.1, (lp.2, 0)).2 = 0 \/
    blocks l !! f (lp.1, (lp.2, 0)).2 = None /\ exists u, blocks (lp.1, (lp.2, 0)).1 = <[f (lp.1, (lp.2, 0)).2 := u]> (blocks l)) as Hone.
  { intros [l' p] f E Hl. cbn in *. rewrite E. tauto. }
  destruct c as [n|p|a b|p n|old a n|a n|a n|n|n]; cbn [direct].
  - apply (Hone _ (block_got (CMalloc n))); [done|apply malloc_law].
  - by destruct (Hf p).
  - apply (Hone _ (block_got (CCalloc a b))); [done|apply calloc_law].
  - rewrite (Hr p n eq_refl). apply (Hone _ (block_got (CRealloc p n))); [done|apply malloc_law].
  - pose proof (posix_law l old a n) as Hl. destruct (lc_posix_memalign l old a n) as [l' [rc p]]. cbn.
    destruct Hl as [[[Hrc|Hp] E]|(-> & Hfresh & Hu)]; [apply Z.eqb_neq in Hrc; rewrite Hrc; by left| |right; by split].
    left. split; [done|]. by destruct (rc =? 0).
  - apply (Hone _ (block_got (CAlignedAlloc a n))); [done|apply aligned_law].
  - apply (Hone _ (block_got (CMemalign a n))); [done|apply memalign_law].
  - apply (Hone _ (block_got (CValloc n))); [done|apply valloc_law].
  - apply (Hone _ (block_got (CPvalloc n))); [done|apply pvalloc_law].
Qed.

Lemma allocate_inv s t c : hooks_inv s -> cc_threads s !! t = None -> (forall p, c <> CFree p) ->
  (forall p n, c = CRealloc p n -> (p =? 0) || hv_is_bootstrap_ptr base p = true) -> hooks_inv (allocate s t c).
Proof.
  intros [Hc Hr Hz Hh] Ht Hf Hre. unfold allocate. pose proof (direct_law (cc_libc s) c Hf Hre) as Hl.
  destruct (direct base (cc_libc s) c) as [l res]. cbv zeta in *. set (p := block_got c res) in *.
  destruct Hl as [[Eb Ep]|[Hfresh [u Hu]]].
  - rewrite Ep, Z.eqb_refl. split; cbn [cc_libc cc_events cc_threads]; [by rewrite Eb|done|done|done].
  - assert (p <> 0) as Hp by (apply (usable_law l p u); rewrite Hu; apply lookup_insert_eq). apply Z.eqb_neq in Hp. rewrite Hp.
    split; cbn [cc_libc cc_events cc_threads]; [| | |done].
    + rewrite Hu. apply (core_acquire _ _ _ t (Report (reported_as c).1 p (reported_as c).2)); done.
    + intros t' op p' n' [[_ E]|[_ ?]]%lookup_insert_Some; [|by eapply Hr]. injection E as <- _ _.
      destruct c; try done. by destruct (Hf p0).
    + intros t' p' n' [[_ E]|[_ ?]]%lookup_insert_Some; [done|by eapply Hz].
Qed.

Lemma enter_inv s t stamp c : hooks_inv s -> cc_threads s !! t = None -> fair_label (Enter t stamp c) s ->
  hooks_inv (enter s t stamp c).
Proof.
  intros Hi Ht [Hf Hn]. destruct c as [n|p|a b|p n|old a n|a n|a n|n|n]; cbn [enter fair] in *; try by apply allocate_inv.
  - destruct (Z.eqb_spec p 0); [done|]. cbn [orb]. destruct (hv_is_bootstrap_ptr base p); [done|].
    destruct Hf as [?|[?|[u Hu]]]; [done|done|]. by apply (push_release s t stamp p 0 (Release p) u).
  - destruct (_ || _) eqn:E; [apply allocate_inv; [done|done|done|]; by intros p0 n0 [= <- <-]|].
    apply orb_false_iff in E as [E1 E2]. apply Z.eqb_neq in E1.
    destruct Hf as [?|[?|[[u Hu] Hnz]]]; [done|congruence|].
    apply (push_release s t stamp p 0 (Resize p n) u); try done. by intros ? ? [= _ <-].
Qed.

Lemma hooks_always s0 s : hooks_inv s0 -> hook_reachable s0 s -> hooks_inv s.
Proof.
  intros H0. induction 1 as [|s lb s' _ IH Hf Hs]; [done|]. destruct lb as [t stamp c|t stamp]; cbn [hook_step] in Hs.
  - destruct (cc_threads s !! t) eqn:E; [done|]. injection Hs as <-. by apply enter_inv.
  - destruct (cc_threads s !! t) as [pc|] eqn:E; [|done]. cbn in Hs. injection Hs as <-. by apply go_inv.
Qed.

(** No thread inside a hook, an empty heap and stream. *)
Lemma hooks_start l : blocks l = ∅ -> hooks_inv (mkConc l [] ∅).
Proof.
  intros Hb. split; cbn [cc_libc cc_events cc_threads]; [|by intros ? ? ? ?|by intros ? ? ?|done]. split.
  - by intros ? ? ? ?.
  - by intros p (t & pc & H & _).
  - intros p _. by rewrite seen_lookup, Hb.
  - by intros p (t & pc & H & _).
Qed.

(** Every event bears the address of a block and a 32-bit size. *)
Lemma push_event_ok s stamp op p n threads : is_Some (blocks (cc_libc s) !! p) -> Forall event_ok (cc_events s) ->
  Forall event_ok (cc_events (push s stamp op p n threads)).
Proof.
  intros [u Hu] Hok. apply Forall_app. split; [done|]. apply Forall_singleton.
  destruct (usable_law _ _ _ Hu) as (_ & Hpos & Hnz & _). split; [|done]. cbn. rewrite (usable_of_block _ _ _ Hu).
  unfold is_u32, UINT32_MAX. rewrite pow2_32. lia.
Qed.
Lemma allocate_events s t c : cc_events (allocate s t c) = cc_events s.
Proof. unfold allocate. by destruct (direct base (cc_libc s) c). Qed.

Lemma step_events_ok s lb s' : hooks_inv s -> fair_label lb s -> hook_step lb s = Some s' ->
  Forall event_ok (cc_events s) -> Forall event_ok (cc_events s').
Proof.
  intros Hi Hf Hs Hok. destruct lb as [t stamp c|t stamp]; cbn [hook_step] in Hs.
  - destruct (cc_threads s !! t); [done|]. injection Hs as <-. destruct Hf as [Hf _].
    destruct c as [n|p|a b|p n|old a n|a n|a n|n|n]; cbn [enter fair] in *; rewrite ?allocate_events; try done.
    + destruct (Z.eqb_spec p 0); [done|]. cbn [orb]. destruct (hv_is_bootstrap_ptr base p); [done|].
      apply push_event_ok; [|done]. by destruct Hf as [?|[?|?]].
    + destruct (Z.eqb_spec p 0); cbn [orb]; [by rewrite allocate_events|].
      destruct (hv_is_bootstrap_ptr base p); [by rewrite allocate_events|].
      apply push_event_ok; [|done]. by destruct Hf as [?|[?|[? _]]].
  - destruct (cc_threads s !! t) as [pc|] eqn:Ht; [|done]. cbn in Hs. injection Hs as <-.
    assert (is_Some (blocks (cc_libc s) !! held_by pc)) as Hb by (apply (co_held _ _ _ (hi_core _ Hi)); by exists t, pc).
    destruct pc as [op p n|p|p n]; cbn [go held_by] in *; [by apply push_event_ok|done|].
    by destruct (lc_realloc (cc_libc s) p n).
Qed.

Lemma hook_events_ok s0 s : hooks_inv s0 -> Forall event_ok (cc_events s0) -> hook_reachable s0 s -> Forall event_ok (cc_events s).
Proof.
  intros H0 Hok. induction 1 as [|s lb s' Hr IH Hf Hs]; [done|]. eapply step_events_ok; [by eapply hooks_always|done|done|done].
Qed.

(** With no thread inside a hook the stream describes the heap. *)
Lemma quiet_heap s : hooks_inv s -> cc_threads s = ∅ -> heap_of (cc_events s) = seen (blocks (cc_libc s)).
Proof.
  intros [Hc _ _ _] Et. apply map_eq. intros p. apply (co_shown _ _ _ Hc). rewrite Et. by intros (t & pc & H & _).
Qed.

(** What it describes is a part of the heap; what is missing is in transit. *)
Lemma described_part s : hooks_inv s -> heap_of (cc_events s) ⊆ seen (blocks (cc_libc s)).
Proof.
  intros [Hc _ _ _]. apply map_subseteq_spec. intros p v Hp. rewrite <- (co_shown _ _ _ Hc); [done|].
  intros Hin. rewrite (co_hidden _ _ _ Hc p Hin) in Hp. done.
Qed.

(** C6: Reporting a release before it is made and an allocation after it is what
    keeps the stream a history.  Whatever the interleaving of the threads'
    hooks, a fair target's events never allocate an address twice nor release
    one that is not live, each release bears the size of its block, and at every
    moment what they describe is a part of what is really held: a block is
    missing only while the thread that has it is inside its hook.  With no thread
    inside a hook the two are the same. *)
Theorem stream_is_history l s : blocks l = ∅ -> hook_reachable (mkConc l [] ∅) s ->
  history ∅ (cc_events s) /\ heap_of (cc_events s) ⊆ seen (blocks (cc_libc s)) /\
  (forall p, heap_of (cc_events s) !! p <> seen (blocks (cc_libc s)) !! p -> in_transit (cc_threads s) p) /\
  (cc_threads s = ∅ -> heap_of (cc_events s) = seen (blocks (cc_libc s))).
Proof.
  intros Hb Hr. pose proof (hooks_always _ _ (hooks_start l Hb) Hr) as Hi. pose proof Hi as [Hc _ _ Hh]. split; [done|].
  pose proof (described_part s Hi) as Hsub. rewrite map_subseteq_spec in Hsub.
  assert (forall p, heap_of (cc_events s) !! p <> seen (blocks (cc_libc s)) !! p -> in_transit (cc_threads s) p) as Hmiss.
  { intros p Hne. destruct (blocks (cc_libc s) !! p) as [u|] eqn:E.
    - destruct (decide (map_Exists (fun _ pc => held_by pc = p) (cc_threads s))) as [Hin|Hin]; [exact Hin|].
      by destruct Hne; apply (co_shown _ _ _ Hc).
    - exfalso. apply Hne. rewrite seen_lookup, E. cbn. destruct (heap_of (cc_events s) !! p) as [v|] eqn:Ev; [|done].
      apply Hsub in Ev. rewrite seen_lookup, E in Ev. done. }
  split; [by apply map_subseteq_spec|]. split; [done|]. by apply quiet_heap.
Qed.
End Conc.

(** ** One thread alone *)

Section Alone.
Context {L : Type} `{!Libc L} (base tid : Z) (clock : nat -> Z * Z) (dl : list Lookup).
Notation P := (Preload L).
Notation resolve := (hv_resolve_symbols base tid clock dl).
Notation hook := (call base tid clock resolve).
Notation alone l es := (mkConc l es ∅).
Implicit Types s : P.

(** From one state of the hooks to another, in steps of thread [t]. *)
Definition unrolls (t : nat) s s' : Prop := exists new r', pl_ring s' = Some r' /\ pl_log s' = pl_log s ++ new /\
  forall es, exists ls, (length ls <= 3)%nat /\
    hook_steps base ls (alone (pl_libc s) es) = Some (alone (pl_libc s') (es ++ events new)).

Lemma report_push s op p n r : hooked s -> pl_ring s = Some r -> p <> 0 ->
  let s' := report tid clock s op p n in
  exists stamp r' ok, let a := mkPushArgs stamp.1 p n (usable_of (pl_libc s) p) stamp.2 op in
    pl_ring s' = Some r' /\ pl_log s' = pl_log s ++ [(a, ok)] /\ pl_libc s' = pl_libc s /\ hooked s'.
Proof.
  intros Hs Hr Hp s'. destruct (report_spec tid clock s op p n Hs) as (Hs' & El & _ & _ & Hrep).
  destruct (Hrep r Hr) as (a & r' & ok & _ & Hr' & Hlog & E1 & E2 & E3 & E4).
  exists (a_timestamp a, a_tid a), r', ok. cbn [fst snd]. split; [done|]. split; [|by split].
  subst s'. cbv zeta in Hlog. rewrite Hlog. destruct a as [ts p1 n1 u1 t1 o1]. cbn in *. subst. do 3 f_equal. f_equal.
  unfold hv_usable. rewrite (resolved_hooked SUsable s Hs). apply Z.eqb_neq in Hp. by rewrite Hp.
Qed.

Lemma step_enter t st c ls l es :
  hook_steps base (Enter t st c :: ls) (alone l es) = hook_steps base ls (enter base (alone l es) t st c).
Proof. cbn [hook_steps hook_step cc_threads]. by rewrite lookup_empty. Qed.
Lemma step_go t st ls l es pc :
  hook_steps base (Go t st :: ls) (mkConc l es {[t := pc]}) = hook_steps base ls (go (mkConc l es {[t := pc]}) t st pc).
Proof. cbn [hook_steps hook_step cc_threads]. by rewrite lookup_singleton_eq. Qed.
Lemma alone_delete t (pc : HookPc) : delete t ({[t := pc]} : gmap nat HookPc) = ∅.
Proof. by apply delete_singleton_eq. Qed.
Lemma alone_insert t (pc pc' : HookPc) : <[t := pc']> ({[t := pc]} : gmap nat HookPc) = {[t := pc']}.
Proof. by apply insert_singleton_eq. Qed.

Lemma unrolls_alloc t s r l c res op n s' : hooked s -> pl_ring s = Some r ->
  direct base (pl_libc s) c = (l, res) -> reported_as c = (op, n) ->
  (forall (s0 : Conc L) st, enter base s0 t st c = allocate base s0 t c) ->
  s' = (if block_got c res =? 0 then set_libc s l else report tid clock (set_libc s l) op (block_got c res) n) ->
  unrolls t s s'.
Proof.
  intros Hs Hr Ed Eo Een ->. unfold unrolls. destruct (Z.eqb_spec (block_got c res) 0) as [E0|E0].
  - exists [], r. split; [done|]. split; [by rewrite app_nil_r|]. intros es. exists [Enter t (0, 0) c]. split; [cbn; lia|].
    rewrite step_enter, Een. unfold allocate. cbn [cc_libc cc_events cc_threads]. rewrite Ed, E0. cbn. by rewrite app_nil_r.
  - destruct (report_push (set_libc s l) op (block_got c res) n r) as (stamp & r' & ok & Hr' & Hlog & El & _);
      [by apply hooked_libc|done|done|].
    eexists _, r'. split; [exact Hr'|]. split; [exact Hlog|]. intros es. exists [Enter t (0, 0) c; Go t stamp]. split; [cbn; lia|].
    rewrite step_enter, Een. unfold allocate. cbn [cc_libc cc_events cc_threads]. rewrite Ed, Eo. apply Z.eqb_neq in E0.
    rewrite E0. rewrite insert_empty, step_go. cbn [go push cc_libc cc_events cc_threads fst snd]. rewrite El, alone_delete. done.
Qed.

(** A hook that runs without interference takes at most three of these steps and
    does what the code does: the same allocator, the same events. *)
Lemma hook_alone t s r c : hooked s -> pl_ring s = Some r -> exists s' res, hook s c = Some (s', res) /\ unrolls t s s'.
Proof.
  intros Hs Hr. destruct (call_direct base tid clock dl s c Hs) as (s' & E & _ & _). exists s', (direct base (pl_libc s) c).2.
  split; [exact E|]. assert (forall s1, s1 = s -> (forall (s0 : Conc L) st, enter base s0 t st c = s0) -> unrolls t s s1) as Hnone.
  { intros s1 -> Hen. exists [], r. split; [done|]. split; [by rewrite app_nil_r|]. intros es.
    exists [Enter t (0, 0) c]. split; [cbn; lia|]. cbn. by rewrite Hen, app_nil_r. }
  revert E. unfold call. destruct c as [n|p|a b|p n|old al n|al n|al n|n|n].
  - rewrite malloc_hooked by done. cbn. intros [= <-].
    apply (unrolls_alloc t s r (lc_malloc (pl_libc s) n).1 (CMalloc n) _ _ _ _ Hs Hr eq_refl eq_refl (fun _ _ => eq_refl) eq_refl).
  - unfold free. destruct (Z.eqb_spec p 0) as [->|Hp]; [cbn; intros [= <-]; by apply Hnone|].
    destruct (hv_is_bootstrap_ptr base p) eqn:Eb.
    { cbn. intros [= <-]. apply Hnone; [done|]. intros s0 st. cbn. by rewrite Eb, orb_true_r. }
    rewrite ensure_hooked by done. cbn. rewrite resolved_hooked by done. cbn. intros [= <-].
    destruct (report_push s HV_OP_FREE p 0 r Hs Hr Hp) as (stamp & r' & ok & Hr' & Hlog & El & _).
    eexists _, r'. split; [exact Hr'|]. split; [exact Hlog|]. intros es. exists [Enter t stamp (CFree p); Go t (0, 0)].
    split; [cbn; lia|]. apply Z.eqb_neq in Hp. rewrite step_enter. cbn [enter]. rewrite Hp, Eb. cbn [orb].
    unfold push. cbn [cc_threads cc_libc cc_events]. rewrite insert_empty, step_go. cbn [go cc_threads cc_libc cc_events].
    rewrite alone_delete. cbn [pl_libc set_libc]. by rewrite El.
  - unfold calloc. rewrite ensure_hooked by done. cbn. rewrite resolved_hooked by done. cbn.
    destruct (lc_calloc (pl_libc s) a b) as [l p] eqn:Ec. cbn. intros [= <-].
    apply (unrolls_alloc t s r l (CCalloc a b) (p, 0) HV_OP_CALLOC (if mul_overflow a b then 0 else a * b) _ Hs Hr); try done.
    cbn. by rewrite Ec.
  - unfold realloc. rewrite ensure_hooked by done. cbn. rewrite resolved_hooked by done. cbn.
    destruct (Z.eqb_spec p 0) as [->|Hp].
    { rewrite malloc_hooked by done. cbn. intros [= <-].
      apply (unrolls_alloc t s r (lc_malloc (pl_libc s) n).1 (CRealloc 0 n) _ _ _ _ Hs Hr eq_refl eq_refl (fun _ _ => eq_refl) eq_refl). }
    pose proof (proj2 (Z.eqb_neq p 0) Hp) as Hp'. destruct (hv_is_bootstrap_ptr base p) eqn:Eb.
    { rewrite malloc_hooked by done. cbn. intros [= <-].
      assert (unrolls t s (allocated tid clock s (lc_malloc (pl_libc s) n) HV_OP_MALLOC n)) as Hu.
      { apply (unrolls_alloc t s r (lc_malloc (pl_libc s) n).1 (CRealloc p n) ((lc_malloc (pl_libc s) n).2, 0) HV_OP_MALLOC n); try done.
        - cbn. by rewrite Hp', Eb.
        - intros s0 st. cbn. by rewrite Hp', Eb. }
      destruct ((lc_malloc (pl_libc s) n).2 =? 0); [exact Hu|]. destruct Hu as (new & r' & Hu). by exists new, r'. }
    destruct (report_push s HV_OP_FREE p 0 r Hs Hr Hp) as (st1 & r1 & ok1 & Hr1 & Hl1 & El1 & Hs1).
    set (s1 := report tid clock s HV_OP_FREE p 0) in *. rewrite El1.
    destruct (lc_realloc (pl_libc s) p n) as [l q] eqn:Eq. cbn. intros [= <-].
    destruct (report_push (set_libc s1 l) HV_OP_REALLOC (if q =? 0 then p else q) n r1) as (st2 & r2 & ok2 & Hr2 & Hl2 & El2 & _);
      [by apply hooked_libc|done|by destruct (Z.eqb_spec q 0)|].
    eexists ([_] ++ [_]), r2. split; [exact Hr2|]. split; [rewrite Hl2; cbn [pl_log set_libc]; rewrite Hl1, <- app_assoc; reflexivity|].
    intros es. exists [Enter t st1 (CRealloc p n); Go t (0, 0); Go t st2]. split; [cbn; lia|].
    rewrite step_enter. cbn [enter]. rewrite Hp', Eb. cbn [orb]. unfold push. cbn [cc_threads cc_libc cc_events].
    rewrite insert_empty, step_go. cbn [go cc_threads cc_libc cc_events]. rewrite Eq. rewrite alone_insert, step_go.
    cbn [go push cc_threads cc_libc cc_events fst snd]. rewrite alone_delete, El2. unfold push. cbn [cc_libc cc_events hook_steps]. by rewrite <- app_assoc.
  - unfold posix_memalign. rewrite ensure_hooked by done. cbn. rewrite resolved_hooked by done. cbn.
    destruct (lc_posix_memalign _ _ _ _) as [l [rc p]] eqn:Ec. cbn. intros [= <-].
    apply (unrolls_alloc t s r l (CPosixMemalign old al n) (rc, p) HV_OP_MEMALIGN n _ Hs Hr); try done.
    cbn. by destruct (rc =? 0), (p =? 0).
  - unfold aligned_alloc. rewrite aligned_hooked by done. cbn. intros [= <-].
    apply (unrolls_alloc t s r _ (CAlignedAlloc al n) _ _ _ _ Hs Hr eq_refl eq_refl (fun _ _ => eq_refl) eq_refl).
  - unfold memalign. rewrite aligned_hooked by done. cbn. intros [= <-].
    apply (unrolls_alloc t s r _ (CMemalign al n) _ _ _ _ Hs Hr eq_refl eq_refl (fun _ _ => eq_refl) eq_refl).
  - unfold valloc. rewrite aligned_hooked by done. cbn. intros [= <-].
    apply (unrolls_alloc t s r _ (CValloc n) _ _ _ _ Hs Hr eq_refl eq_refl (fun _ _ => eq_refl) eq_refl).
  - unfold pvalloc. rewrite aligned_hooked by done. cbn. intros [= <-].
    apply (unrolls_alloc t s r _ (CPvalloc n) _ _ _ _ Hs Hr eq_refl eq_refl (fun _ _ => eq_refl) eq_refl).
Qed.
End Alone.

(** ** An interleaving

    Two threads allocate; the second gets its block while the first has not
    reported its own; the first gives its block back while the second resizes. *)

Section Runs.
Context {L : Type} `{!Libc L} (base : Z) `{!Allocator L base}.
Fixpoint fair_steps (ls : list HookLabel) (s : Conc L) : Prop :=
  match ls with
  | [] => True
  | lb :: ls => fair_label base lb s /\ match hook_step base lb s with Some s' => fair_steps ls s' | None => True end
  end.
Lemma steps_reachable s0 ls : forall s s', hook_reachable base s0 s -> fair_steps ls s -> hook_steps base ls s = Some s' ->
  hook_reachable base s0 s'.
Proof.
  induction ls as [|lb ls IH]; intros s s' Hr Hf Hs; cbn in *; [by injection Hs as <-|]. destruct Hf as [Hf Hfs].
  destruct (hook_step base lb s) as [s1|] eqn:E; [|done]. cbn in Hs. by apply (IH s1); [eapply hr_step| |].
Qed.
End Runs.

Lemma not_in_transit th p : bool_decide (map_Exists (fun _ pc => held_by pc = p) th) = false -> ~ in_transit th p.
Proof. intros H Hin. apply bool_decide_eq_false in H. by apply H. Qed.

Definition demo_labels : list HookLabel :=
  [Enter 1 (5, 1) (CMalloc 100); Enter 2 (6, 2) (CMalloc 40); Go 2 (7, 2); Go 1 (8, 1);
   Enter 2 (9, 2) (CRealloc (kFloor + 116) 300); Enter 1 (10, 1) (CFree kFloor); Go 2 (11, 2); Go 1 (12, 1); Go 2 (13, 2)].

Lemma demo_labels_fair : fair_steps kArena demo_labels (mkConc empty_bump [] ∅).
Proof.
  unfold demo_labels. repeat match goal with
  | |- fair_steps _ [] _ => exact I
  | |- fair_steps _ (?lb :: _) _ =>
      split; [cbn [fair_label fair];
              first [exact I | by split |
                split; [right; right; vm_compute; first [by eexists|split; [by eexists|discriminate]]|
                        apply not_in_transit; vm_compute; reflexivity]]|];
      match goal with |- context [hook_step ?b ?l ?s] =>
        let r := eval vm_compute in (hook_step b l s) in change (hook_step b l s) with r end; cbv iota
  end.
Qed.

Lemma stream_is_history_witness : exists s,
  hook_steps kArena demo_labels (mkConc empty_bump [] ∅) = Some s /\ length (cc_events s) = 5%nat /\
  history ∅ (cc_events s) /\ heap_of (cc_events s) ⊆ seen (blocks (cc_libc s)).
Proof.
  assert (length ∘ cc_events <$> hook_steps kArena demo_labels (mkConc empty_bump [] ∅) = Some 5%nat) as El
    by (vm_compute; reflexivity).
  destruct (hook_steps kArena demo_labels (mkConc empty_bump [] ∅)) as [s|] eqn:E; [|discriminate El].
  exists s. split; [reflexivity|]. split; [by injection El|].
  assert (blocks empty_bump = ∅) as Hb by (vm_compute; reflexivity).
  destruct (stream_is_history kArena empty_bump s Hb (steps_reachable kArena _ demo_labels _ _ (hr_start _ _) demo_labels_fair E))
    as (H1 & H2 & _).
  split; [exact H1|exact H2].
Defined.
