(* ===== verification/ResolveConc.v ===== *)
(** * The first calls, with several threads (src/src/preload/preload.c)

    Before the real allocator's functions are known the hooks look them up, and
    the lookups allocate, through the hooks.  Any number of threads may be there
    at once.  A thread is the sequence of its accesses to what the threads share
    ([Access]): the function pointers, the flag that says they are all set, the
    arena's counter and the arena's memory.  [g_resolving] is the thread's own.
    Interleavings are sequentially consistent; what [dlsym] calls and what the
    real allocator returns come with the step. *)

From stdpp Require Import fin_maps gmap sets.
From S2P Require Import Prelude Abi Preload PreloadProofs.

(** The symbol a hook stands for. *)
Definition symbol_of (c : Call) : Sym :=
  match c with
  | CMalloc _ => SMalloc | CFree _ => SFree | CCalloc _ _ => SCalloc | CRealloc _ _ => SRealloc
  | CPosixMemalign _ _ _ => SPosixMemalign | CAlignedAlloc _ _ => SAlignedAlloc | CMemalign _ _ => SMemalign
  | CValloc _ => SValloc | CPvalloc _ => SPvalloc
  end.

(** A block of the arena: where its header is and the size asked for. *)
Notation Block := (Z * Z)%type.
Definition payload_of (n : Z) : Z := Z.land (n ⊞ 15) (Z.lnot 15).
Definition boot_need (n : Z) : Z := sizeof_HvBootHeader ⊞ payload_of n.

(** [k]: the arena block, and its size, that [realloc] copies into what [malloc] gives. *)
Inductive Access :=
  | ATest (c : Call) (k : option (Z * Z))   (* if (g_real_x == NULL) *)
  | AReady                                  (* hv_resolve_symbols up to g_resolving = 1 *)
  | ALookup (x : Sym)                       (* dlsym(RTLD_NEXT, x) *)
  | AStore (x : Sym)                        (* g_real_x = *)
  | ALeave                                  (* g_resolving = 0 *)
  | AVerify                                 (* g_real_malloc == NULL || g_real_free == NULL *)
  | ADone                                   (* g_symbols_ready = 1 *)
  | AServe (c : Call) (k : option (Z * Z))  (* the second test, and the call *)
  | AHeader (b : Block) (zero : bool) (k : option (Z * Z))  (* hdr->size *)
  | AMagic (b : Block) (zero : bool) (k : option (Z * Z))   (* hdr->magic *)
  | AZero (a n : Z)                         (* calloc's memset *)
  | ACopy (dst src n : Z)                   (* realloc's memcpy *)
  | APublish                                (* hv_preload_init goes on to the ring *)
  | ADie (exhausted : bool).                (* hv_die *)

Record Thread := mkThread { th_resolving : bool; th_todo : list Access }.
Definition idle : Thread := mkThread false [].

(** History variables: the blocks claimed and those handed out, how the hooks'
    calls were served (whether inside [dlsym], whether by the real function),
    and the threads that found the arena exhausted. *)
Record Start := mkStart {
  st_syms : list Sym;
  st_ready : bool;
  st_used : Z;
  st_mem : gmap Z Z;
  st_published : bool;
  st_dead : option bool;
  st_threads : gmap nat Thread;
  st_claimed : list Block;
  st_given : list Block;
  st_served : list (Call * bool * bool);
  st_dying : gset nat
}.

Inductive StartLabel :=
  | LEnter (t : nat) (c : Call)
  | LInit (t : nat)
  | LStep (t : nat) (res : Z) (calls : list Call)
  | LPoke (a v : Z).

Definition lookup_steps : list Access := concat ((fun x => [ALookup x; AStore x]) <$> lookups) ++ [ALeave; AVerify; ADone].

Section Start.
(** The arena's address, what the C library has, and how many threads there are. *)
Context (base : Z) (found : Sym -> bool) (nthreads : nat).
Implicit Types s : Start.

Definition thread s (t : nat) : Thread := default idle (st_threads s !! t).
Definition known s (x : Sym) : bool := bool_decide (x ∈ st_syms s).
Definition start : Start := mkStart [] false 0 ∅ false None ∅ [] [] [] ∅.

Definition go_on s (t : nat) (r : bool) (l : list Access) : Start :=
  mkStart (st_syms s) (st_ready s) (st_used s) (st_mem s) (st_published s) (st_dead s)
    (<[t := mkThread r l]> (st_threads s)) (st_claimed s) (st_given s) (st_served s) (st_dying s).
Definition set_known s (l : list Sym) (ready published : bool) : Start :=
  mkStart l ready (st_used s) (st_mem s) published (st_dead s) (st_threads s) (st_claimed s) (st_given s)
    (st_served s) (st_dying s).
Definition write_mem s (m : gmap Z Z) : Start :=
  mkStart (st_syms s) (st_ready s) (st_used s) m (st_published s) (st_dead s) (st_threads s) (st_claimed s)
    (st_given s) (st_served s) (st_dying s).
Definition serve_log s (c : Call) (inside real : bool) : Start :=
  mkStart (st_syms s) (st_ready s) (st_used s) (st_mem s) (st_published s) (st_dead s) (st_threads s) (st_claimed s)
    (st_given s) (st_served s ++ [(c, inside, real)]) (st_dying s).
Definition claim_block s (used : Z) (b : list Block) (dying : gset nat) : Start :=
  mkStart (st_syms s) (st_ready s) used (st_mem s) (st_published s) (st_dead s) (st_threads s) (st_claimed s ++ b)
    (st_given s) (st_served s) dying.
Definition give s (b : Block) : Start :=
  mkStart (st_syms s) (st_ready s) (st_used s) (st_mem s) (st_published s) (st_dead s) (st_threads s) (st_claimed s)
    (st_given s ++ [b]) (st_served s) (st_dying s).
Definition exit_now s (exhausted : bool) : Start :=
  mkStart (st_syms s) (st_ready s) (st_used s) (st_mem s) (st_published s) (Some exhausted) (st_threads s)
    (st_claimed s) (st_given s) (st_served s) (st_dying s).

(** [hv_bootstrap_size] of the shared memory. *)
Definition boot_size (m : gmap Z Z) (p : Z) : Z := hv_bootstrap_size (set_mem (fresh_preload tt) m) p.

(** What [realloc] does with the block it asked for. *)
Definition copy_into (p n : Z) (k : option (Z * Z)) : list Access :=
  match k with
  | Some (src, old) => if p =? 0 then [] else [ACopy p src (if old <? n then old else n)]
  | None => []
  end.

(** [hv_bootstrap_alloc] up to the arena's counter. *)
Definition arena s (t : nat) (r : bool) (n : Z) (zero : bool) k (l : list Access) : Start :=
  if payload_of n <? n then go_on s t r l
  else
    let off := st_used s in
    let used := off ⊞ boot_need n in
    if HV_BOOTSTRAP_BYTES <? used then go_on (claim_block s used [] ({[t]} ∪ st_dying s)) t r [ADie true]
    else go_on (claim_block s used [(off, n)] (st_dying s)) t r (AHeader (off, n) zero k :: l).

Definition serve s (t : nat) (r : bool) (c : Call) k (res : Z) (l : list Access) : Start :=
  let s := serve_log s c r (known s (symbol_of c)) in
  if known s (symbol_of c) then
    match c with
    | CMalloc n => go_on s t r (copy_into res n k ++ l)
    | CRealloc p n =>
        if p =? 0 then go_on s t r (ATest (CMalloc n) None :: l)
        else if hv_is_bootstrap_ptr base p then go_on s t r (ATest (CMalloc n) (Some (p, boot_size (st_mem s) p)) :: l)
        else go_on s t r l
    | _ => go_on s t r l
    end
  else
    match c with
    | CMalloc n => arena s t r n false k l
    | CCalloc a b => if mul_overflow a b then go_on s t r l else arena s t r (a * b) true None l
    | _ => go_on s t r l
    end.

Definition access s (t : nat) (res : Z) (calls : list Call) (r : bool) (i : Access) (l : list Access) : Start :=
  match i with
  | ATest c k =>
      if match c with CFree p => (p =? 0) || hv_is_bootstrap_ptr base p | _ => false end then go_on s t r l
      else if known s (symbol_of c) then go_on s t r (AServe c k :: l)
      else go_on s t r (AReady :: AServe c k :: l)
  | AReady => if st_ready s || r then go_on s t r l else go_on s t true (lookup_steps ++ l)
  | ALookup _ => go_on s t r (((fun c => ATest c None) <$> calls) ++ l)
  | AStore x =>
      go_on (set_known s (if found x then x :: st_syms s else filter (fun y => y <> x) (st_syms s)) (st_ready s)
        (st_published s)) t r l
  | ALeave => go_on s t false l
  | AVerify => if negb (known s SMalloc) || negb (known s SFree) then go_on s t r [ADie false] else go_on s t r l
  | ADone => go_on (set_known s (st_syms s) true (st_published s)) t r l
  | AServe c k => serve s t r c k res l
  | AHeader b zero k => go_on (write_mem s (store_le 8 (st_mem s) (base + b.1) b.2)) t r (AMagic b zero k :: l)
  | AMagic b zero k =>
      let p := base + b.1 + sizeof_HvBootHeader in
      go_on (give (write_mem s (store_le 8 (st_mem s) (base + b.1 + 8) HV_BOOTSTRAP_MAGIC)) b) t r
        ((if zero then [AZero p b.2] else copy_into p b.2 k) ++ l)
  | AZero a n => go_on (write_mem s (memset0 (Z.to_nat n) (st_mem s) a)) t r l
  | ACopy dst src n => go_on (write_mem s (memcpy (Z.to_nat n) (st_mem s) dst src)) t r l
  | APublish => go_on (set_known s (st_syms s) (st_ready s) true) t r l
  | ADie e => exit_now s e
  end.

Definition start_step (lb : StartLabel) s : option Start :=
  if st_dead s then None
  else
    match lb with
    | LEnter t c =>
        match th_todo (thread s t) with [] => Some (go_on s t (th_resolving (thread s t)) [ATest c None]) | _ => None end
    | LInit t =>
        match th_todo (thread s t) with [] => Some (go_on s t (th_resolving (thread s t)) [AReady; APublish]) | _ => None end
    | LStep t res calls =>
        match th_todo (thread s t) with [] => None | i :: l => Some (access s t res calls (th_resolving (thread s t)) i l) end
    | LPoke a v => Some (write_mem s (<[a := v]> (st_mem s)))
    end.

(** ** What is asked of the environment *)

Definition kRequest : Z := 2 ^ 31.
Definition block_end (b : Block) : Z := b.1 + boot_need b.2.
Definition outside (a n : Z) : Prop := a + n <= base \/ base + HV_BOOTSTRAP_BYTES <= a.
Definition inside_block (b : Block) (a n : Z) : Prop := base + b.1 + sizeof_HvBootHeader <= a /\ a + n <= base + block_end b.

(** No request is of two gigabytes or more. *)
Definition modest (c : Call) : Prop :=
  match c with
  | CMalloc n | CRealloc _ n => 0 <= n < kRequest
  | CCalloc a b => 0 <= a * b /\ (mul_overflow a b = false -> a * b < kRequest)
  | _ => True
  end.

(** The real allocator's memory is not the arena's; a block is written only by
    whom it was handed to, inside it. *)
Definition fair_start s (lb : StartLabel) : Prop :=
  match lb with
  | LEnter t c => (t < nthreads)%nat /\ modest c
  | LInit t => (t < nthreads)%nat
  | LStep t res calls => Forall modest calls /\
      match th_todo (thread s t) with
      | AServe (CMalloc n) _ :: _ => known s SMalloc = true -> outside res n
      | _ => True
      end
  | LPoke a _ => outside a 1 \/ exists b, b ∈ st_given s /\ inside_block b a 1
  end.

Inductive start_reachable : Start -> Prop :=
  | sr_start : start_reachable start
  | sr_step s lb s' : start_reachable s -> fair_start s lb -> start_step lb s = Some s' -> start_reachable s'.

(** ** What every thread's sequence says *)

Definition all_found (K : list Sym) : Prop := forall x, found x = true -> x ∈ K.

(** [K]: the symbols that will be set when this point of the sequence is reached,
    those the C library lacks aside; [r]: [g_resolving] there. *)
Fixpoint well (K : list Sym) (r : bool) (l : list Access) : Prop :=
  match l with
  | [] => r = false
  | AReady :: l => well (if r then K else lookups) r l
  | ALookup _ :: l => r = true /\ well K r l
  | AStore x :: l => r = true /\ well (x :: K) r l
  | ALeave :: l => r = true /\ well K false l
  | (AVerify | ADone | APublish) :: l => all_found K /\ well K r l
  | AServe c _ :: l => (r = true \/ (found (symbol_of c) = true -> symbol_of c ∈ K)) /\ well K r l
  | ADie _ :: _ => True
  | _ :: l => well K r l
  end.

Lemma well_mono l : forall K K' r, (forall x, found x = true -> x ∈ K -> x ∈ K') -> well K r l -> well K' r l.
Proof.
  induction l as [|i l IH]; intros K K' r HK H; [done|].
  destruct i; cbn [well] in *; unfold all_found in *; repeat match goal with H : _ /\ _ |- _ => destruct H end;
    repeat split; try (eapply IH; [|eassumption]); auto.
  - by destruct r.
  - intros y Hy [->|Hin]%elem_of_cons; apply elem_of_cons; auto.
  - destruct H as [H|H]; [by left|right]; auto.
Qed.

Lemma lookups_all x : x ∈ lookups.
Proof. apply (bool_decide_unpack _). by destruct x. Qed.

Lemma well_steps K l : well lookups false l -> well K true (lookup_steps ++ l).
Proof.
  intros H. cbn. assert (all_found (rev lookups ++ K)) as Ha.
  { intros x _. apply elem_of_app. left. apply list_elem_of_In, in_rev. rewrite rev_involutive. apply list_elem_of_In, lookups_all. }
  repeat (split; [reflexivity|]). do 2 (split; [exact Ha|]). eapply well_mono; [|exact H]. intros x Hx _. by apply (Ha x).
Qed.

Lemma well_tests K r calls l : well K r l -> well K r (((fun c => ATest c None) <$> calls) ++ l).
Proof. intros H. by induction calls. Qed.
Lemma well_copy K r p n k l : well K r l -> well K r (copy_into p n k ++ l).
Proof. intros H. unfold copy_into. by repeat case_match. Qed.

(** ** The arena *)

Definition safe s (a n : Z) : Prop := n <= 0 \/ outside a n \/ exists b, b ∈ st_claimed s /\ inside_block b a n.
Definition size_kept (m : gmap Z Z) (b : Block) : Prop := load_le 8 m (base + b.1) = b.2.
Definition magic_kept (m : gmap Z Z) (b : Block) : Prop := load_le 8 m (base + b.1 + 8) = HV_BOOTSTRAP_MAGIC.

Definition access_ok s (t : nat) (i : Access) : Prop :=
  match i with
  | ATest c k => modest c
  | AServe c k => modest c
  | AHeader b _ _ => b ∈ st_claimed s
  | AMagic b _ _ => b ∈ st_claimed s /\ size_kept (st_mem s) b
  | AZero a n => safe s a n
  | ACopy dst _ n => safe s dst n
  | ADie true => HV_BOOTSTRAP_BYTES < st_used s
  | ADie false => found SMalloc = false \/ found SFree = false
  | _ => True
  end.

Definition block_ok s (b : Block) : Prop :=
  0 <= b.1 /\ (16 | b.1) /\ 0 <= b.2 < kRequest /\ block_end b <= st_used s /\ block_end b <= HV_BOOTSTRAP_BYTES.
Definition ordered (l : list Block) : Prop :=
  forall i j b b', (i < j)%nat -> l !! i = Some b -> l !! j = Some b' -> block_end b <= b'.1.

(** The invariant, of all threads but the one that is about to move on. *)
Record Inv (ex : option nat) s : Prop := {
  i_well : forall t, ex <> Some t -> well (st_syms s) (th_resolving (thread s t)) (th_todo (thread s t));
  i_ok : forall t, ex <> Some t -> Forall (access_ok s t) (th_todo (thread s t));
  i_dying : forall t, ex <> Some t -> t ∈ st_dying s -> th_todo (thread s t) = [ADie true];
  i_threads : forall t, th_todo (thread s t) <> [] -> (t < nthreads)%nat;
  i_size : forall t, t ∈ st_dying s -> (t < nthreads)%nat;
  i_syms : forall x, x ∈ st_syms s -> found x = true;
  i_ready : st_ready s = true -> all_found (st_syms s);
  i_published : st_published s = true -> all_found (st_syms s);
  i_used : 0 <= st_used s <= HV_BOOTSTRAP_BYTES + Z.of_nat (size (st_dying s)) * 2 ^ 32;
  i_even : (16 | st_used s);
  i_blocks : Forall (block_ok s) (st_claimed s);
  i_order : ordered (st_claimed s);
  i_given : forall b, b ∈ st_given s -> b ∈ st_claimed s /\ size_kept (st_mem s) b /\ magic_kept (st_mem s) b;
  i_served : forall c inside real, (c, inside, real) ∈ st_served s -> inside = true \/ real = found (symbol_of c);
  i_dead : match st_dead s with
           | Some true => HV_BOOTSTRAP_BYTES < st_used s
           | Some false => found SMalloc = false \/ found SFree = false
           | None => True
           end
}.

Context (Hbase : 0 <= base) (Hthreads : Z.of_nat nthreads <= 2 ^ 30).

Lemma inv_start : Inv None start.
Proof.
  assert (forall t, thread start t = idle) as Hi by done.
  split; intros *; rewrite ?Hi; cbn; try done; try (by intros []%not_elem_of_nil); try set_solver.
  by exists 0.
Qed.

Lemma inv_but t s : Inv None s -> Inv (Some t) s.
Proof. intros []. split; auto. Qed.

Lemma thread_go s t r l t' : thread (go_on s t r l) t' = if decide (t' = t) then mkThread r l else thread s t'.
Proof. unfold thread. cbn. case_decide as E; [subst; by rewrite lookup_insert_eq|by rewrite lookup_insert_ne]. Qed.

Lemma inv_go s t r l : Inv (Some t) s -> (t < nthreads)%nat -> well (st_syms s) r l -> Forall (access_ok s t) l ->
  (t ∈ st_dying s -> l = [ADie true]) -> Inv None (go_on s t r l).
Proof.
  intros [] Ht Hw Ha Hd. split; try done; intros *; rewrite ?thread_go; case_decide as E; subst; cbn; auto.
  - intros _. apply i_well0. congruence.
  - intros _. apply i_ok0. congruence.
  - intros _. apply i_dying0. congruence.
Qed.

(** A change of what the threads share, which the sequences of the others allow. *)
Lemma inv_syms s t x ready pub : Inv (Some t) s ->
  let syms := if found x then x :: st_syms s else filter (fun y => y <> x) (st_syms s) in
  (ready = true -> st_ready s = true) -> (pub = true -> st_published s = true) ->
  Inv (Some t) (set_known s syms ready pub) /\ (forall y, found y = true -> y ∈ x :: st_syms s -> y ∈ syms).
Proof.
  intros [] syms Hr Hp.
  assert (forall y, found y = true -> y ∈ x :: st_syms s -> y ∈ syms) as Hsub.
  { intros y Hy. unfold syms. destruct (found x) eqn:Ex; [done|]. intros [->|Hin]%elem_of_cons; [congruence|].
    apply list_elem_of_filter. split; [congruence|done]. }
  split; [|done]. split; try done; cbn.
  - intros t' Ht'. eapply well_mono; [|by apply i_well0]. intros y Hy Hin. apply Hsub; [done|]. by right.
  - intros y. unfold syms. destruct (found x) eqn:Ex; [by intros [->|Hin]%elem_of_cons; auto|].
    intros [_ Hin]%list_elem_of_filter. auto.
  - intros E%Hr y Hy. apply Hsub; [done|]. right. by apply i_ready0.
  - intros E%Hp y Hy. apply Hsub; [done|]. right. by apply i_published0.
Qed.

Lemma inv_flags s t ready pub : Inv (Some t) s -> all_found (st_syms s) -> Inv (Some t) (set_known s (st_syms s) ready pub).
Proof. intros [] Ha. by split. Qed.

Lemma inv_log s t c inside real : Inv (Some t) s -> inside = true \/ real = found (symbol_of c) ->
  Inv (Some t) (serve_log s c inside real).
Proof.
  intros [] H. split; try done. cbn. intros c' i' r' [Hin|[= -> -> ->]%list_elem_of_singleton]%elem_of_app; eauto.
Qed.

(** ** Memory *)
Lemma boot_need_spec n : 0 <= n < kRequest -> payload_of n = (n + 15) / 16 * 16 /\ boot_need n = 16 + (n + 15) / 16 * 16 /\
  n <= payload_of n < n + 16.
Proof.
  unfold kRequest. intros Hn. assert (payload_of n = (n + 15) / 16 * 16) as E by (apply payload_spec; lia).
  assert (n <= payload_of n < n + 16) by (rewrite E; Z.div_mod_to_equations; lia).
  split; [done|]. split; [|done]. unfold boot_need, sizeof_HvBootHeader. rewrite u64_small, E; [done|].
  unfold is_u64. rewrite pow2_64. lia.
Qed.

Lemma blocks_apart s ex b b' : Inv ex s -> b ∈ st_claimed s -> b' ∈ st_claimed s ->
  b = b' \/ block_end b <= b'.1 \/ block_end b' <= b.1.
Proof.
  intros [] [i Hi]%list_elem_of_lookup [j Hj]%list_elem_of_lookup.
  destruct (lt_eq_lt_dec i j) as [[Hlt|<-]|Hlt]; [right; left|left; congruence|right; right]; by eapply i_order0.
Qed.

Lemma block_claimed s ex b : Inv ex s -> b ∈ st_claimed s -> block_ok s b.
Proof. intros [] Hin. by eapply Forall_forall in i_blocks0. Qed.

Lemma block_room s b : block_ok s b -> b.1 + 16 <= block_end b.
Proof. intros (_ & _ & Hn & _). unfold block_end. destruct (boot_need_spec _ Hn) as (_ & -> & Hp). Z.div_mod_to_equations. lia. Qed.

(** Writing where no header is. *)
Definition spares s (m : gmap Z Z) : Prop :=
  forall b x, b ∈ st_claimed s -> base + b.1 <= x < base + b.1 + 16 -> byte_at m x = byte_at (st_mem s) x.

Lemma spares_kept s m b : spares s m -> b ∈ st_claimed s ->
  (size_kept (st_mem s) b -> size_kept m b) /\ (magic_kept (st_mem s) b -> magic_kept m b).
Proof.
  intros Hs Hb. unfold size_kept, magic_kept.
  rewrite !(load_le_ext 8 m (st_mem s)) by (intros x Hx; apply (Hs b); [done|lia]). done.
Qed.

Lemma safe_apart s ex a n b x : Inv ex s -> safe s a n -> b ∈ st_claimed s -> base + b.1 <= x < base + b.1 + 16 -> x < a \/ a + n <= x.
Proof.
  intros Hi Hs Hb Hx. pose proof (block_room _ _ (block_claimed _ _ _ Hi Hb)).
  destruct (block_claimed _ _ _ Hi Hb) as (H0 & _ & _ & _ & Hend). unfold HV_BOOTSTRAP_BYTES, outside, inside_block in *.
  destruct Hs as [?|[Ho|(b' & Hb' & Hin)]]; [lia|unfold outside, HV_BOOTSTRAP_BYTES in Ho; lia|].
  unfold inside_block, sizeof_HvBootHeader in Hin. destruct (blocks_apart _ _ _ _ Hi Hb Hb') as [<-|[?|?]]; lia.
Qed.

Lemma memset0_other n : forall m a x, x < a \/ a + Z.of_nat n <= x -> byte_at (memset0 n m a) x = byte_at m x.
Proof.
  induction n as [|n IH]; intros m a x Hx; [done|]. cbn [memset0]. rewrite IH by lia.
  unfold byte_at. by rewrite lookup_insert_ne by lia.
Qed.
Lemma memcpy_other n : forall m d r x, x < d \/ d + Z.of_nat n <= x -> byte_at (memcpy n m d r) x = byte_at m x.
Proof.
  induction n as [|n IH]; intros m d r x Hx; [done|]. cbn [memcpy]. rewrite IH by lia.
  unfold byte_at. by rewrite lookup_insert_ne by lia.
Qed.

Definition keeps_headers s (m : gmap Z Z) : Prop :=
  forall b, b ∈ st_claimed s -> (size_kept (st_mem s) b -> size_kept m b) /\ (magic_kept (st_mem s) b -> magic_kept m b).

Lemma inv_write s ex m : Inv ex s -> keeps_headers s m -> Inv ex (write_mem s m).
Proof.
  intros Hi Hm. pose proof Hi as []. split; try done; cbn.
  - intros t' Ht'. eapply Forall_impl; [by apply i_ok0|]. intros [] Hok; try done. destruct Hok as [Hb Hk].
    split; [done|]. by apply Hm.
  - intros b Hb. destruct (i_given0 b Hb) as (Hc & Hs & Hg). split; [done|]. by split; apply Hm.
Qed.

Lemma store_kept s t b b' a v : Inv (Some t) s -> b ∈ st_claimed s -> b' ∈ st_claimed s -> b <> b' ->
  base + b.1 <= a <= base + b.1 + 8 ->
  (size_kept (st_mem s) b' -> size_kept (store_le 8 (st_mem s) a v) b') /\
  (magic_kept (st_mem s) b' -> magic_kept (store_le 8 (st_mem s) a v) b').
Proof.
  intros Hi Hb Hb' Hne Ha. pose proof (block_room _ _ (block_claimed _ _ _ Hi Hb)).
  pose proof (block_room _ _ (block_claimed _ _ _ Hi Hb')).
  destruct (blocks_apart _ _ _ _ Hi Hb Hb') as [<-|Hap]; [done|]. unfold size_kept, magic_kept.
  rewrite !(load_le_ext 8 (store_le _ _ _ _) (st_mem s)); [done| |]; intros x Hx; apply store_le_other; lia.
Qed.

(** A header's two words. *)
Lemma size_write s t b : Inv (Some t) s -> b ∈ st_claimed s ->
  let m := store_le 8 (st_mem s) (base + b.1) b.2 in keeps_headers s m /\ size_kept m b.
Proof.
  intros Hi Hb m. destruct (block_claimed _ _ _ Hi Hb) as (_ & _ & Hn & _). unfold kRequest in Hn.
  assert (size_kept m b) as Hsz.
  { unfold size_kept, m. rewrite load_store_le by lia. apply Z.mod_small.
    change (256 ^ Z.of_nat 8) with 18446744073709551616. lia. }
  split; [|done]. intros b' Hb'. destruct (decide (b = b')) as [<-|Hne].
  - split; [done|]. unfold magic_kept, m. rewrite (load_le_ext 8 (store_le _ _ _ _) (st_mem s)); [done|].
    intros x Hx. apply store_le_other. lia.
  - apply (store_kept s t b); try done. lia.
Qed.

Lemma magic_write s t b : Inv (Some t) s -> b ∈ st_claimed s ->
  let m := store_le 8 (st_mem s) (base + b.1 + 8) HV_BOOTSTRAP_MAGIC in keeps_headers s m /\ magic_kept m b.
Proof.
  intros Hi Hb m. assert (magic_kept m b) as Hmg by (unfold magic_kept, m; by rewrite load_store_le).
  split; [|done]. intros b' Hb'. destruct (decide (b = b')) as [<-|Hne].
  - split; [|done]. unfold size_kept, m. rewrite (load_le_ext 8 (store_le _ _ _ _) (st_mem s)); [done|].
    intros x Hx. apply store_le_other. lia.
  - apply (store_kept s t b); try done. lia.
Qed.

Lemma safe_shrink s a n m : m <= n -> safe s a n -> safe s a m.
Proof.
  intros Hm [H|[[H|H]|(b & Hb & H)]]; unfold safe, outside, inside_block in *; [left; lia|right; left; lia..|].
  right. right. exists b. split; [done|lia].
Qed.

Lemma copy_ok s t p n k : safe s p n -> Forall (access_ok s t) (copy_into p n k).
Proof.
  intros Hs. unfold copy_into. destruct k as [[src old]|]; [|constructor]. case_match; constructor; [|constructor].
  cbn. eapply safe_shrink; [|done]. destruct (old <? n) eqn:E; [apply Z.ltb_lt in E; lia|lia].
Qed.

Lemma inv_give s t b : Inv (Some t) s -> b ∈ st_claimed s -> size_kept (st_mem s) b -> magic_kept (st_mem s) b ->
  Inv (Some t) (give s b).
Proof. intros [] Hb Hs Hm. split; try done. cbn. intros b' [Hin| ->%list_elem_of_singleton]%elem_of_app; auto. Qed.

(** A write inside a block, or outside the arena. *)
Lemma safe_write s ex m a n : Inv ex s -> safe s a n ->
  (forall x, x < a \/ a + Z.max 0 n <= x -> byte_at m x = byte_at (st_mem s) x) -> keeps_headers s m.
Proof.
  intros Hi Hs Hm. intros b Hb. apply spares_kept; [|done]. intros b' x Hb' Hx. apply Hm.
  destruct (Z.le_gt_cases n 0); [lia|]. destruct (safe_apart _ _ _ _ _ _ Hi Hs Hb' Hx); lia.
Qed.

(** ** A claim of arena memory *)
Lemma dying_bound s ex : Inv ex s -> (size (st_dying s) <= nthreads)%nat.
Proof.
  intros []. rewrite <- (size_set_seq (C := gset nat) 0 nthreads). apply subseteq_size. intros t Ht.
  apply elem_of_set_seq. apply i_size0 in Ht. lia.
Qed.

Lemma used_next s ex n : Inv ex s -> 0 <= n < kRequest ->
  st_used s ⊞ boot_need n = st_used s + boot_need n /\ 16 <= boot_need n <= 2 ^ 31 + 32 /\ (16 | boot_need n).
Proof.
  intros Hi Hn. pose proof (dying_bound _ _ Hi). destruct Hi. destruct (boot_need_spec _ Hn) as (E1 & E & Hp).
  unfold HV_BOOTSTRAP_BYTES, kRequest in *.
  assert (16 <= boot_need n <= 2 ^ 31 + 32) by (rewrite E; Z.div_mod_to_equations; lia).
  split; [|split; [done|]].
  - apply u64_small. unfold is_u64. rewrite pow2_64. lia.
  - rewrite E. apply Z.divide_add_r; [by exists 1|]. apply Z.divide_factor_r.
Qed.

(** The claim holds more blocks and a larger counter; the rest is unchanged. *)
Lemma ok_claim s used bs dy t l : st_used s <= used -> Forall (access_ok s t) l ->
  Forall (access_ok (claim_block s used bs dy) t) l.
Proof.
  intros Hu H. eapply Forall_impl; [exact H|]. intros i Hi.
  assert (forall a n, safe s a n -> safe (claim_block s used bs dy) a n) as Hsafe.
  { intros a n [?|[?|(b & Hb & ?)]]; [by left|by right; left|right; right]. exists b. cbn. by rewrite elem_of_app; auto. }
  destruct i as [| | | | | | | | | | | | |[]]; cbn in *; auto; [|destruct Hi|lia]; rewrite elem_of_app; auto.
Qed.

Lemma start_inv_claim s t n : Inv (Some t) s -> 0 <= n < kRequest -> st_used s + boot_need n <= HV_BOOTSTRAP_BYTES ->
  Inv (Some t) (claim_block s (st_used s + boot_need n) [(st_used s, n)] (st_dying s)).
Proof.
  intros Hi Hn Hfit. destruct (used_next _ _ _ Hi Hn) as (_ & Hb & He). destruct Hi.
  split; cbn; try done; auto.
  - intros t' Ht'. apply ok_claim; [lia|by apply i_ok0].
  - lia.
  - by apply Z.divide_add_r.
  - apply Forall_app. split.
    + eapply Forall_impl; [exact i_blocks0|]. intros b (? & ? & ? & ? & ?). unfold block_ok. cbn. split_and!; try done; lia.
    + constructor; [|constructor]. unfold block_ok, block_end. cbn. split_and!; try done; lia.
  - intros i j b b' Hij Hb1 Hb2. destruct (decide (j < length (st_claimed s))%nat) as [Hj|Hj].
    + rewrite !lookup_app_l in * by lia. by apply (i_order0 i j).
    + rewrite (lookup_app_r _ _ j) in Hb2 by lia. apply list_lookup_singleton_Some in Hb2 as [Hj0 <-].
      rewrite lookup_app_l in Hb1 by lia. apply list_elem_of_lookup_2 in Hb1.
      eapply Forall_forall in i_blocks0 as (_ & _ & _ & ? & _); [|done]. done.
  - intros b Hb1. destruct (i_given0 b Hb1) as (? & ? & ?). split_and!; try done. apply elem_of_app. by left.
  - destruct (st_dead s) as [[]|]; try done. lia.
Qed.

Lemma inv_overflow s t n : Inv (Some t) s -> (t < nthreads)%nat -> t ∉ st_dying s -> 0 <= n < kRequest ->
  Inv (Some t) (claim_block s (st_used s + boot_need n) [] ({[t]} ∪ st_dying s)).
Proof.
  intros Hi Ht Hnew Hn. destruct (used_next _ _ _ Hi Hn) as (_ & Hb & He). destruct Hi.
  split; cbn; rewrite ?app_nil_r; try done; auto.
  - intros t' Ht'. apply ok_claim; [lia|by apply i_ok0].
  - intros t' Ht'. rewrite elem_of_union, elem_of_singleton. intros [->|Hin]; [done|]. by apply i_dying0.
  - intros t'. rewrite elem_of_union, elem_of_singleton. intros [->|Hin]; auto.
  - rewrite size_union, size_singleton by set_solver. lia.
  - by apply Z.divide_add_r.
  - eapply Forall_impl; [exact i_blocks0|]. intros b (? & ? & ? & ? & ?). unfold block_ok. cbn. split_and!; try done; lia.
  - destruct (st_dead s) as [[]|]; try done. lia.
Qed.

(** ** The steps *)
Lemma ok_write s t m l : keeps_headers s m -> Forall (access_ok s t) l -> Forall (access_ok (write_mem s m) t) l.
Proof. intros Hm H. eapply Forall_impl; [exact H|]. intros [] Hok; try done. destruct Hok as [Hb Hk]. split; [done|]. by apply Hm. Qed.

(** What is known of a thread that is about to move on. *)
Record moving s (t : nat) (r : bool) (l : list Access) : Prop := {
  m_inv : Inv (Some t) s;
  m_thread : (t < nthreads)%nat;
  m_alive : t ∉ st_dying s;
  m_well : well (st_syms s) r l;
  m_ok : Forall (access_ok s t) l
}.

Lemma move_on s t r l : moving s t r l -> Inv None (go_on s t r l).
Proof. intros []. by apply inv_go. Qed.
Lemma move_to s t r l l' : moving s t r l -> well (st_syms s) r (l' ++ l) -> Forall (access_ok s t) l' -> Inv None (go_on s t r (l' ++ l)).
Proof. intros [] Hw Ha. apply inv_go; try done. by apply Forall_app. Qed.

Lemma inv_arena s t r n zero k l : moving s t r l -> 0 <= n < kRequest -> Inv None (arena s t r n zero k l).
Proof.
  intros Hm Hn. pose proof Hm as [Hi Ht Hd Hw Ha]. destruct (used_next _ _ _ Hi Hn) as (E & Hb & _).
  destruct (boot_need_spec _ Hn) as (_ & _ & Hp). unfold arena. rewrite E.
  destruct (payload_of n <? n) eqn:Ep; [apply Z.ltb_lt in Ep; lia|].
  destruct (HV_BOOTSTRAP_BYTES <? st_used s + boot_need n) eqn:Eo.
  - apply Z.ltb_lt in Eo. apply inv_go; try done; [by apply inv_overflow|]. constructor; [exact Eo|constructor].
  - apply Z.ltb_ge in Eo. apply inv_go; try done; [by apply start_inv_claim|].
    constructor; [|apply ok_claim; [lia|done]]. cbn. apply elem_of_app. right. by apply list_elem_of_singleton.
Qed.

Lemma inv_serve s t r c k res l : moving s t r l -> modest c ->
  r = true \/ (found (symbol_of c) = true -> symbol_of c ∈ st_syms s) ->
  (forall n, c = CMalloc n -> known s SMalloc = true -> outside res n) ->
  Inv None (serve s t r c k res l).
Proof.
  intros Hm Hc Hk Hres. unfold serve.
  assert (moving (serve_log s c r (known s (symbol_of c))) t r l) as Hm'.
  { pose proof Hm as [Hi Ht Hd Hw Ha]. split; try done. apply inv_log; [done|]. destruct Hk as [?|Hk]; [by left|right].
    unfold known. destruct (found (symbol_of c)) eqn:Ef; [apply bool_decide_eq_true; auto|].
    apply bool_decide_eq_false. intros Hin%(i_syms _ _ Hi). congruence. }
  clear Hm. cbn zeta. set (s' := serve_log s c r (known s (symbol_of c))) in *. change (known s') with (known s).
  pose proof (move_on _ _ _ _ Hm') as Hgo. pose proof (m_well _ _ _ _ Hm') as Hw.
  assert (forall n k, 0 <= n < kRequest -> Inv None (go_on s' t r (ATest (CMalloc n) k :: l))) as Hnest.
  { intros n k' Hn. apply (move_to _ _ _ _ [_]); [done|exact Hw|]. by constructor. }
  destruct (known s (symbol_of c)) eqn:Ek.
  - destruct c as [n| | |p n| | | | |]; try done.
    + apply move_to; [done|by apply well_copy|]. apply copy_ok. right. left. by apply (Hres n).
    + destruct (p =? 0); [by apply Hnest|]. destruct (hv_is_bootstrap_ptr base p); [by apply Hnest|done].
  - destruct c as [n| |a b| | | | | |]; try done; [by apply inv_arena|].
    destruct Hc as [H0 Hc]. destruct (mul_overflow a b) eqn:Eo; [done|]. apply inv_arena; [done|]. auto.
Qed.

Lemma inv_access s t res calls r i l : Inv None s -> th_resolving (thread s t) = r -> th_todo (thread s t) = i :: l ->
  st_dead s = None -> Forall modest calls ->
  match i with AServe (CMalloc n) _ => known s SMalloc = true -> outside res n | _ => True end ->
  Inv None (access s t res calls r i l).
Proof.
  intros Hi Er El Hdead Hcalls Hres.
  assert (well (st_syms s) r (i :: l)) as Hw by (rewrite <- Er, <- El; by apply (i_well _ _ Hi)).
  assert (Forall (access_ok s t) (i :: l)) as Ha by (rewrite <- El; by apply (i_ok _ _ Hi)).
  inversion_clear Ha as [|? ? Ha1 Ha2].
  assert ((t < nthreads)%nat) as Ht by (apply (i_threads _ _ Hi); by rewrite El).
  assert (i = ADie true \/ t ∉ st_dying s) as Hnd.
  { destruct (decide (t ∈ st_dying s)) as [Hin|]; [left|by right]. apply (i_dying _ _ Hi) in Hin; [|done]. rewrite El in Hin. congruence. }
  pose proof (inv_but t s Hi) as Hb.
  assert (t ∉ st_dying s -> well (st_syms s) r l -> moving s t r l) as Hmove by (intros; by split).
  destruct i as [c k| |x|x| | | |c k|b z k|b z k|a n|dst src n| |e]; cbn [access well access_ok] in *;
    try (destruct Hnd as [?|Hnd]; [done|]).
  - specialize (Hmove Hnd Hw). destruct (match c with CFree p => _ | _ => _ end); [by apply move_on|].
    destruct (known s (symbol_of c)) eqn:Ek.
    + apply (move_to _ _ _ _ [_]); [done|split; [|exact Hw]|by constructor]. right. intros _. by apply bool_decide_eq_true in Ek.
    + apply (move_to _ _ _ _ [_; _]); [done| |by repeat constructor]. cbn. split.
      * destruct r; [by left|right]. intros _. apply lookups_all.
      * destruct r; [done|]. eapply well_mono; [|exact Hw]. intros; apply lookups_all.
  - destruct (st_ready s) eqn:Ey; [|destruct r]; cbn [orb].
    + apply move_on, Hmove; [done|]. destruct r; [done|]. eapply well_mono; [|exact Hw]. intros y Hy _. by apply (i_ready _ _ Hi).
    + by apply move_on, Hmove.
    + apply inv_go; try done; [by apply well_steps|]. apply Forall_app. split; [|done]. by repeat constructor.
  - destruct Hw as [-> Hw]. apply move_to; [by apply Hmove|by apply well_tests|]. apply Forall_fmap. exact Hcalls.
  - destruct Hw as [-> Hw]. destruct (inv_syms s t x (st_ready s) (st_published s) Hb) as [Hi' Hsub]; [done..|].
    apply inv_go; try done. by eapply well_mono.
  - destruct Hw as [-> Hw]. by apply inv_go.
  - destruct Hw as [Hall Hw]. specialize (Hmove Hnd Hw).
    destruct (negb (known s SMalloc) || negb (known s SFree)) eqn:E; [|by apply move_on].
    apply inv_go; try done. constructor; [|constructor]. cbn.
    apply orb_true_iff in E as [E|E]; apply negb_true_iff, bool_decide_eq_false in E; [left|right];
      by apply not_true_iff_false; intros ?%Hall.
  - destruct Hw as [Hall Hw]. apply inv_go; try done. by apply inv_flags.
  - destruct Hw as [Hk Hw]. apply inv_serve; auto. by intros n ->.
  - destruct (size_write s t b Hb Ha1) as [Hkeep Hsz].
    apply inv_go; try done; [by apply inv_write|]. constructor; [by split|by apply ok_write].
  - destruct Ha1 as [Hin Hsz]. destruct (magic_write s t b Hb Hin) as [Hkeep Hmg].
    pose proof (block_claimed _ _ _ Hb Hin) as Hbk.
    assert (safe s (base + b.1 + sizeof_HvBootHeader) b.2) as Hsafe.
    { right. right. exists b. split; [done|]. unfold inside_block, block_end. destruct Hbk as (_ & _ & Hn & _).
      destruct (boot_need_spec _ Hn) as (E1 & E2 & E3). unfold sizeof_HvBootHeader. lia. }
    apply inv_go; try done.
    + apply inv_give; [by apply inv_write|done|by apply Hkeep|done].
    + destruct z; [done|by apply well_copy].
    + apply Forall_app. split; [|by apply (ok_write s t)]. destruct z; [by constructor|by apply (copy_ok (give _ b))].
  - assert (keeps_headers s (memset0 (Z.to_nat n) (st_mem s) a)) as Hkeep
      by (apply (safe_write _ _ _ _ _ Hb Ha1); intros x Hx; apply memset0_other; lia).
    apply inv_go; try done; [by apply inv_write|by apply ok_write].
  - assert (keeps_headers s (memcpy (Z.to_nat n) (st_mem s) dst src)) as Hkeep
      by (apply (safe_write _ _ _ _ _ Hb Ha1); intros x Hx; apply memcpy_other; lia).
    apply inv_go; try done; [by apply inv_write|by apply ok_write].
  - destruct Hw as [Hall Hw]. apply inv_go; try done. by apply inv_flags.
  - destruct Hi. split; try done.
Qed.

Lemma start_inv_step s lb s' : Inv None s -> fair_start s lb -> start_step lb s = Some s' -> Inv None s'.
Proof.
  intros Hi Hf. unfold start_step. destruct (st_dead s) eqn:Hdead; [done|].
  assert (forall t l, (t < nthreads)%nat -> th_todo (thread s t) = [] -> Forall (access_ok s t) l ->
    well (st_syms s) false l -> Inv None (go_on s t (th_resolving (thread s t)) l)) as Henter.
  { intros t l Ht Hl Ha Hw. pose proof (i_well _ _ Hi t ltac:(done)) as Hr. rewrite Hl in Hr. cbn in Hr. rewrite Hr.
    apply inv_go; try done; [by apply inv_but|]. intros Hin%(i_dying _ _ Hi); [congruence|done]. }
  destruct lb as [t c|t|t res calls|a v]; cbn [fair_start] in Hf.
  - destruct (th_todo (thread s t)) eqn:El; [|done]. intros [= <-]. destruct Hf. apply Henter; try done. by constructor.
  - destruct (th_todo (thread s t)) eqn:El; [|done]. intros [= <-]. apply Henter; try done; [by repeat constructor|].
    cbn. split; [|done]. intros x _. apply lookups_all.
  - destruct (th_todo (thread s t)) as [|i l] eqn:El; [done|]. intros [= <-]. destruct Hf as [Hc Hres].
    apply inv_access; try done.
  - intros [= <-]. assert (safe s a 1) as Hsafe.
    { destruct Hf as [?|(b & Hb & Hin)]; [by right; left|right; right]. exists b. split; [|done]. by apply (i_given _ _ Hi). }
    apply inv_write; [done|]. apply (safe_write _ _ _ _ _ Hi Hsafe). intros x Hx. unfold byte_at.
    by rewrite lookup_insert_ne by lia.
Qed.

Lemma reachable_start_inv s : start_reachable s -> Inv None s.
Proof. induction 1; [apply inv_start|by eapply start_inv_step]. Qed.

(** C30: However the first calls of any number of threads interleave, with the
    lookups' own requests and with each other: a call the program makes outside
    [dlsym] is served by the real allocator exactly when the C library has that
    function, so only [dlsym]'s own requests live in the arena; the ready flag,
    and the ring, are set only when every function there is has been found; the
    arena's blocks are aligned, inside it and apart, and each handed out keeps the
    size its header remembers, whatever is written into the blocks; and the
    process is stopped only when the arena is full or the C library has no
    [malloc] or [free].  Assumed are requests below two gigabytes. *)
Theorem first_calls_safe s : start_reachable s ->
  (forall c real, (c, false, real) ∈ st_served s -> real = found (symbol_of c)) /\
  (st_ready s = true \/ st_published s = true -> forall x, found x = true -> known s x = true) /\
  (forall i j b b', (i < j)%nat -> st_claimed s !! i = Some b -> st_claimed s !! j = Some b' ->
    b.1 + sizeof_HvBootHeader + b.2 <= b'.1) /\
  (forall b, b ∈ st_claimed s -> 0 <= b.1 /\ (16 | b.1) /\ b.1 + sizeof_HvBootHeader + b.2 <= HV_BOOTSTRAP_BYTES) /\
  (forall b, b ∈ st_given s -> b ∈ st_claimed s /\ boot_size (st_mem s) (base + b.1 + sizeof_HvBootHeader) = b.2) /\
  match st_dead s with
  | Some true => HV_BOOTSTRAP_BYTES < st_used s
  | Some false => found SMalloc = false \/ found SFree = false
  | None => True
  end.
Proof.
  intros Hr. pose proof (reachable_start_inv s Hr) as Hi. pose proof Hi as [].
  assert (forall b, b ∈ st_claimed s -> b.1 + sizeof_HvBootHeader + b.2 <= block_end b) as Hend.
  { intros b Hb. destruct (block_claimed _ _ _ Hi Hb) as (_ & _ & Hn & _). unfold block_end, sizeof_HvBootHeader.
    destruct (boot_need_spec _ Hn) as (E1 & E2 & E3). lia. }
  split_and!; try done.
  - intros c real Hin. by destruct (i_served0 _ _ _ Hin).
  - intros [Hy|Hy] x Hx; apply bool_decide_eq_true; auto.
    + by apply i_ready0.
    + by apply i_published0.
  - intros i j b b' Hij Hb Hb'. transitivity (block_end b); [|by eapply i_order0].
    apply Hend. by eapply list_elem_of_lookup_2.
  - intros b Hb. destruct (block_claimed _ _ _ Hi Hb) as (? & ? & _ & _ & ?). specialize (Hend b Hb). split_and!; try done; lia.
  - intros b Hb. destruct (i_given0 b Hb) as (Hc & Hs & Hm). split; [done|].
    unfold boot_size, hv_bootstrap_size. cbn [pl_mem set_mem set_arena].
    replace (base + b.1 + sizeof_HvBootHeader - sizeof_HvBootHeader) with (base + b.1) by lia.
    unfold magic_kept, size_kept in *. by rewrite Hm, Hs.
Qed.

(** ** Running an interleaving *)

Definition modest_bool (c : Call) : bool :=
  match c with
  | CMalloc n | CRealloc _ n => (0 <=? n) && (n <? kRequest)
  | CCalloc a b => (0 <=? a * b) && (a * b <? kRequest)
  | _ => true
  end.
Definition fair_bool s (lb : StartLabel) : bool :=
  match lb with
  | LEnter t c => (t <? nthreads)%nat && modest_bool c
  | LInit t => (t <? nthreads)%nat
  | LStep t res calls => forallb modest_bool calls &&
      match th_todo (thread s t) with AServe (CMalloc n) _ :: _ => base + HV_BOOTSTRAP_BYTES <=? res | _ => true end
  | LPoke _ _ => false
  end.
Fixpoint start_run (ls : list StartLabel) s : option Start :=
  match ls with
  | [] => Some s
  | lb :: ls => if fair_bool s lb then s ← start_step lb s; start_run ls s else None
  end.

Lemma modest_bool_ok c : modest_bool c = true -> modest c.
Proof. destruct c; cbn; intros H; bprop; try done; lia. Qed.
Lemma fair_bool_ok s lb : fair_bool s lb = true -> fair_start s lb.
Proof.
  destruct lb as [t c|t|t res calls|]; cbn [fair_bool fair_start]; try done.
  - intros [H1%Nat.ltb_lt H2]%andb_true_iff. split; [done|by apply modest_bool_ok].
  - apply Nat.ltb_lt.
  - intros [H1 H2]%andb_true_iff. split.
    + apply Forall_forall. intros c Hc. rewrite forallb_forall in H1. by apply modest_bool_ok, H1, list_elem_of_In.
    + repeat case_match; try done. intros _. right. by apply Z.leb_le.
Qed.
Lemma start_run_reach ls : forall s s', start_reachable s -> start_run ls s = Some s' -> start_reachable s'.
Proof.
  induction ls as [|lb ls IH]; intros s s' Hr; [by intros [= <-]|]. cbn [start_run].
  destruct (fair_bool s lb) eqn:Ef; [|done]. destruct (start_step lb s) as [s1|] eqn:E; [|done]. cbn. apply IH.
  apply (sr_step s lb); [done|by apply fair_bool_ok|done].
Qed.
End Start.

(** Two threads ask for memory at once; the first lookup of the first asks for
    memory itself, and the other thread looks everything up as well. *)
Definition has_all (x : Sym) : bool := bool_decide (x <> SPvalloc).
Definition heap_at (t : nat) : Z := kFloor + 4096 * Z.of_nat t.
Definition two_starts : list StartLabel :=
  let go t := LStep t (heap_at t) [] in
  [LEnter 0 (CMalloc 100); go 0%nat; go 0%nat; LStep 0 0 [CCalloc 1 32]; LEnter 1 (CMalloc 200); go 1%nat;
   go 0%nat; go 0%nat; go 1%nat; go 0%nat; go 0%nat; go 1%nat; go 0%nat] ++
  replicate 23 (go 1%nat) ++ replicate 24 (go 0%nat).

Lemma first_calls_safe_witness : exists s, start_run kArena has_all 2 two_starts start = Some s /\
  st_served s = [(CCalloc 1 32, true, false); (CMalloc 200, false, true); (CMalloc 100, false, true)] /\
  st_given s = [(0, 32)] /\ known s SPvalloc = false /\
  boot_size (st_mem s) (kArena + sizeof_HvBootHeader) = 32 /\ known s SUsable = true.
Proof.
  destruct (start_run kArena has_all 2 two_starts start) as [s|] eqn:E; [|vm_compute in E; discriminate].
  assert (start_reachable kArena has_all 2 s) as Hr by (eapply start_run_reach; [apply sr_start|exact E]).
  destruct (first_calls_safe kArena has_all 2 ltac:(discriminate) ltac:(discriminate) s Hr) as (_ & Hk & _ & _ & Hg & _).
  assert (st_given s = [(0, 32)] /\ st_ready s = true /\ known s SPvalloc = false /\
    st_served s = [(CCalloc 1 32, true, false); (CMalloc 200, false, true); (CMalloc 100, false, true)]) as (E1 & E2 & E3 & E4)
    by (vm_compute in E; injection E as <-; split_and!; vm_compute; reflexivity).
  exists s. split; [reflexivity|]. split; [exact E4|]. split; [exact E1|]. split; [exact E3|]. split.
  - refine (proj2 (Hg (0, 32) _)). rewrite E1. by apply list_elem_of_singleton.
  - apply Hk; [by left|reflexivity].
Defined.
