(* ===== verification/Workload.v ===== *)
(** * Programs that allocate

    A target as the sequence of its calls of the allocator: each call is given
    its answer, and what comes next may depend on it.  A weakest precondition
    over the set of blocks the program owns says that it only gives back and
    resizes what is its own.  Several such programs share the hooks and the
    allocator as threads: whatever the interleaving, they are then a correct
    target in the sense of [HookConc], and when all have ended with nothing
    owned nothing is held. *)

From stdpp Require Import fin_maps fin_sets gmap.
From S2P Require Import Prelude Abi Ring LiveSet Preload PreloadProofs HookConc.

(** ** Programs *)

(** The answer of a call: its value, and for [posix_memalign] the pointer's cell. *)
Inductive Prog (A : Type) := Ret (a : A) | Ask (c : Call) (k : Z * Z -> Prog A).
Arguments Ret {A}. Arguments Ask {A}.

#[export] Instance Prog_ret : MRet Prog := @Ret.
#[export] Instance Prog_bind : MBind Prog := fun A B f =>
  fix go p := match p with Ret a => f a | Ask c k => Ask c (fun r => go (k r)) end.

Definition ask (c : Call) : Prog Z := Ask c (fun r => Ret r.1).

(** ** Ownership *)

Section Wp.
Context {A : Type}.

(** [O]: the blocks the program owns; [Q]: what holds at the end. *)
Fixpoint wp (p : Prog A) (O : gset Z) (Q : A -> gset Z -> Prop) : Prop :=
  let given k O := wp (k (0, 0)) O Q /\ forall q, q <> 0 -> q ∉ O -> wp (k (q, 0)) ({[q]} ∪ O) Q in
  match p with
  | Ret a => Q a O
  | Ask c k =>
      match c with
      | CFree x => x = 0 /\ wp (k (0, 0)) O Q \/ x <> 0 /\ x ∈ O /\ wp (k (0, 0)) (O ∖ {[x]}) Q
      | CRealloc x n =>
          x = 0 /\ given k O \/
          x <> 0 /\ x ∈ O /\ n <> 0 /\ wp (k (0, 0)) O Q /\
            forall q, q <> 0 -> q ∉ O ∖ {[x]} -> wp (k (q, 0)) ({[q]} ∪ O ∖ {[x]}) Q
      | CPosixMemalign _ _ _ =>
          (forall rc q, rc <> 0 \/ q = 0 -> wp (k (rc, q)) O Q) /\
          forall q, q <> 0 -> q ∉ O -> wp (k (0, q)) ({[q]} ∪ O) Q
      | _ => given k O
      end
  end.

Lemma wp_mono (p : Prog A) : forall O (Q R : A -> gset Z -> Prop), (forall a O, Q a O -> R a O) -> wp p O Q -> wp p O R.
Proof.
  induction p as [a|c k IH]; intros O Q R HQ; cbn [wp]; [apply HQ|].
  assert (forall r O, wp (k r) O Q -> wp (k r) O R) as Hk by (intros; by eapply IH).
  destruct c; naive_solver.
Qed.
End Wp.

Lemma wp_bind {A B} (p : Prog A) (f : A -> Prog B) : forall O Q, wp p O (fun a O => wp (f a) O Q) -> wp (p ≫= f) O Q.
Proof.
  induction p as [a|c k IH]; intros O Q; [done|].
  change (Ask c k ≫= f) with (Ask c (fun r => k r ≫= f)). cbn [wp].
  destruct c; naive_solver.
Qed.

(** A rule for each call a program makes through [ask]. *)
Lemma wp_alloc c (O : gset Z) (Q : Z -> gset Z -> Prop) :
  match c with CMalloc _ | CCalloc _ _ => True | _ => False end ->
  Q 0 O -> (forall q, q <> 0 -> q ∉ O -> Q q ({[q]} ∪ O)) -> wp (ask c) O Q.
Proof. by destruct c. Qed.
Lemma wp_free x (O : gset Z) (Q : Z -> gset Z -> Prop) : x <> 0 -> x ∈ O -> Q 0 (O ∖ {[x]}) -> wp (ask (CFree x)) O Q.
Proof. intros. by right. Qed.
Lemma wp_realloc x n (O : gset Z) (Q : Z -> gset Z -> Prop) : x <> 0 -> x ∈ O -> n <> 0 -> Q 0 O ->
  (forall q, q <> 0 -> q ∉ O ∖ {[x]} -> Q q ({[q]} ∪ O ∖ {[x]})) -> wp (ask (CRealloc x n)) O Q.
Proof. intros. by right. Qed.

(** ** Threads *)

Section Pool.
Context {L : Type} `{!Libc L} (base : Z).

(** What is left of each thread's program; one that waits for a resized block has
    not moved on yet. *)
Record Pool := mkPool { po_conc : Conc L; po_progs : gmap nat (Prog Z) }.

(** What a call is answered when the hook is entered; a block to be resized is
    reported released first. *)
Definition answered (l : L) (c : Call) : option (Z * Z) :=
  match c with
  | CRealloc p _ => if (p =? 0) || hv_is_bootstrap_ptr base p then Some (direct base l c).2 else None
  | CFree _ => Some (0, 0)
  | _ => Some (direct base l c).2
  end.

(** A thread takes its next step. *)
Definition pool_step (t : nat) (stamp : Z * Z) (s : Pool) : option (Pool * HookLabel) :=
  let l := cc_libc (po_conc s) in
  match cc_threads (po_conc s) !! t, po_progs s !! t with
  | None, Some (Ask c k) =>
      let progs := match answered l c with Some r => <[t := k r]> (po_progs s) | None => po_progs s end in
      Some (mkPool (enter base (po_conc s) t stamp c) progs, Enter t stamp c)
  | Some (Resize p n as pc), Some (Ask _ k) =>
      Some (mkPool (go (po_conc s) t stamp pc) (<[t := k ((lc_realloc l p n).2, 0)]> (po_progs s)), Go t stamp)
  | Some pc, _ => Some (mkPool (go (po_conc s) t stamp pc) (po_progs s), Go t stamp)
  | _, _ => None
  end.

Inductive pool_reachable (s0 : Pool) : Pool -> Prop :=
  | pr_start : pool_reachable s0 s0
  | pr_step s t stamp s' lb : pool_reachable s0 s -> pool_step t stamp s = Some (s', lb) -> pool_reachable s0 s'.

(** Every program run to its end, with a result in [R]. *)
Definition pool_done (R : Z -> Prop) (s : Pool) : Prop :=
  cc_threads (po_conc s) = ∅ /\ forall t p, po_progs s !! t = Some p -> exists a, R a /\ p = Ret a.

(** The step is the hooks'. *)
Lemma pool_step_hook t stamp s s' lb : pool_step t stamp s = Some (s', lb) -> hook_step base lb (po_conc s) = Some (po_conc s').
Proof.
  unfold pool_step. destruct (cc_threads (po_conc s) !! t) as [pc|] eqn:Et.
  - destruct pc, (po_progs s !! t) as [[]|]; intros [= <- <-]; cbn [hook_step po_conc]; by rewrite Et.
  - destruct (po_progs s !! t) as [[|c k]|]; try done. intros [= <- <-]. cbn [hook_step po_conc]. by rewrite Et.
Qed.

(** ** Ownership is enough

    [Q]: what a program's result says of the blocks it still owns. *)

Context `{!Allocator L base} (Q : Z -> gset Z -> Prop).

Notation thr s := (cc_threads (po_conc s)).
Notation heap s := (blocks (cc_libc (po_conc s))).

(** The blocks thread [t] owns, by the owner each block has. *)
Definition owned (own : gmap Z nat) (t : nat) : gset Z := dom (filter (fun xt => xt.2 = t) own).

Lemma elem_of_owned own t x : x ∈ owned own t <-> own !! x = Some t.
Proof.
  unfold owned. rewrite elem_of_dom. split.
  - intros [t' [H E]%map_lookup_filter_Some]. cbn in E. by subst.
  - intros H. exists t. by apply map_lookup_filter_Some.
Qed.
Lemma owned_insert own t x : own !! x = None -> owned (<[x := t]> own) t = {[x]} ∪ owned own t.
Proof.
  intros Hx. apply set_eq. intros y. rewrite elem_of_union, elem_of_singleton, !elem_of_owned, lookup_insert_Some. naive_solver.
Qed.
Lemma owned_insert_ne own t t' x : own !! x = None -> t' <> t -> owned (<[x := t]> own) t' = owned own t'.
Proof. intros Hx Ht. apply set_eq. intros y. rewrite !elem_of_owned, lookup_insert_Some. naive_solver. Qed.
Lemma owned_delete own t x : owned (delete x own) t = owned own t ∖ {[x]}.
Proof.
  apply set_eq. intros y. rewrite elem_of_difference, elem_of_singleton, !elem_of_owned, lookup_delete_Some. naive_solver.
Qed.
Lemma owned_delete_ne own t t' x : own !! x = Some t -> t' <> t -> owned (delete x own) t' = owned own t'.
Proof.
  intros Hx Ht. rewrite owned_delete. apply set_eq. intros y. rewrite elem_of_difference, elem_of_singleton, !elem_of_owned. naive_solver.
Qed.

(** A block of the allocator is owned by one thread, or on its way back by the
    thread that gives it back. *)
Record pool_inv (own : gmap Z nat) (s : Pool) : Prop := {
  pi_hooks : hooks_inv base (po_conc s);
  pi_wp : forall t p, po_progs s !! t = Some p -> wp p (owned own t) Q;
  pi_known : forall x t, own !! x = Some t -> is_Some (po_progs s !! t);
  pi_held : forall x, is_Some (heap s !! x) <-> is_Some (own !! x) \/ exists t, thr s !! t = Some (Release x);
  pi_released : forall t x, thr s !! t = Some (Release x) -> own !! x = None;
  pi_reported : forall t op x n, thr s !! t = Some (Report op x n) -> own !! x = Some t;
  pi_resized : forall t x n, thr s !! t = Some (Resize x n) ->
    own !! x = Some t /\ x <> 0 /\ exists k, po_progs s !! t = Some (Ask (CRealloc x n) k)
}.

Definition allocates (c : Call) : Prop := match c with CFree _ => False | CRealloc p _ => p = 0 | _ => True end.
#[export] Instance allocates_dec c : Decision (allocates c).
Proof. destruct c; cbn; apply _. Defined.

(** The answer of an allocating call is one its rule covers. *)
Lemma allocates_wp l c k O : allocates c -> wp (Ask c k) O Q ->
  let r := (direct base l c).2 in
  (block_got c r = 0 -> wp (k r) O Q) /\ (block_got c r <> 0 -> block_got c r ∉ O -> wp (k r) ({[block_got c r]} ∪ O) Q).
Proof.
  intros Hc Hw r. subst r. destruct c as [n|p|a b|p n|old a n|a n|a n|n|n]; cbn [allocates] in Hc; try done;
    cbn [wp direct block_got fst snd] in *.
  4: { destruct Hw as [H0 H1]. destruct (lc_posix_memalign l old a n) as [l' [rc q]]. cbn [fst snd].
       destruct (Z.eqb_spec rc 0) as [->|Hrc]; split; intros; try done; auto. }
  3: { subst p. cbn. destruct Hw as [[_ Hw]|[? _]]; [|done]. destruct (lc_malloc l n) as [l' q]. cbn. split; [intros ->|]; naive_solver. }
  all: match goal with |- context [?f.2] => destruct f as [l' q] end; cbn; split; [intros ->|]; naive_solver.
Qed.

Lemma answered_allocates l c : allocates c -> answered l c = Some (direct base l c).2.
Proof. destruct c; try done. cbn. by intros ->. Qed.
Lemma enter_allocates (s : Conc L) t stamp c : allocates c -> enter base s t stamp c = allocate base s t c.
Proof. destruct c; try done. cbn. by intros ->. Qed.

Lemma null_quiet (s : Conc L) : hooks_inv base s -> ~ in_transit (cc_threads s) 0.
Proof.
  intros Hi Hin. destruct (co_held _ _ _ (hi_core _ _ Hi) _ Hin) as [u Hu]. by destruct (usable_law _ _ _ Hu) as (_ & _ & ? & _).
Qed.
Lemma allocates_fair (s : Conc L) t stamp c : hooks_inv base s -> allocates c -> fair_label base (Enter t stamp c) s.
Proof.
  intros Hi Hc. split; [destruct c; try done; by left|]. destruct c as [| | |p n| | | | |]; try done. cbn in Hc. subst p.
  by apply null_quiet.
Qed.

Lemma own_block own s t x : pool_inv own s -> own !! x = Some t ->
  is_Some (heap s !! x) /\ x <> 0 /\ hv_is_bootstrap_ptr base x = false.
Proof.
  intros Hi Hx. assert (is_Some (heap s !! x)) as [u Hu] by (apply (pi_held _ _ Hi); left; by eexists).
  split; [by eexists|]. destruct (usable_law _ _ _ Hu) as (_ & _ & ? & ?). done.
Qed.

(** What a thread owns while it is in no hook, no hook has. *)
Lemma own_quiet own s t x : pool_inv own s -> thr s !! t = None -> own !! x = Some t -> ~ in_transit (thr s) x.
Proof.
  intros Hi Ht Hx (t' & pc & Hpc & E). destruct pc as [op p n|p|p n]; cbn in E; subst p.
  - apply (pi_reported _ _ Hi) in Hpc as Hx'. congruence.
  - apply (pi_released _ _ Hi) in Hpc as Hx'. congruence.
  - pose proof (pi_resized _ _ Hi _ _ _ Hpc) as [Hx' _]. congruence.
Qed.

(** A thread that is in no hook moves on. *)
Lemma resized_move own s t p : pool_inv own s -> thr s !! t = None -> forall t' x n, thr s !! t' = Some (Resize x n) ->
  own !! x = Some t' /\ x <> 0 /\ exists k, <[t := p]> (po_progs s) !! t' = Some (Ask (CRealloc x n) k).
Proof.
  intros Hi Ht t' x n Hx. destruct (pi_resized _ _ Hi _ _ _ Hx) as (? & ? & k' & Hk). split; [done|]. split; [done|].
  exists k'. by rewrite lookup_insert_ne by congruence.
Qed.
Lemma known_move own s t p : pool_inv own s -> forall x t', own !! x = Some t' -> is_Some (<[t := p]> (po_progs s) !! t').
Proof. intros Hi x t' Hx. apply (pi_known _ _ Hi) in Hx. rewrite lookup_insert_is_Some'. by right. Qed.

Lemma pool_allocates own s t stamp c k : pool_inv own s -> thr s !! t = None -> po_progs s !! t = Some (Ask c k) ->
  allocates c -> exists own', pool_inv own'
    (mkPool (enter base (po_conc s) t stamp c) (<[t := k (direct base (cc_libc (po_conc s)) c).2]> (po_progs s))).
Proof.
  intros Hi Ht Hp Hc. pose proof (pi_wp _ _ Hi _ _ Hp) as Hw.
  assert (hooks_inv base (enter base (po_conc s) t stamp c)) as Hh.
  { apply enter_inv; [apply Hi|done|]. apply allocates_fair; [apply Hi|done]. }
  destruct (allocates_wp (cc_libc (po_conc s)) c k _ Hc Hw) as [Hw0 Hw1]. revert Hh. rewrite enter_allocates by done.
  unfold allocate. assert (forall p, c <> CFree p) as Hnf by (intros ? ->; exact Hc).
  assert (forall p n, c = CRealloc p n -> (p =? 0) || hv_is_bootstrap_ptr base p = true) as Hnr
    by (intros p0 n0 ->; cbn in Hc; by rewrite Hc).
  pose proof (direct_law base (cc_libc (po_conc s)) c Hnf Hnr) as Hlaw.
  destruct (direct base (cc_libc (po_conc s)) c) as [l' r]. cbn [snd] in *. set (q := block_got c r) in *.
  set (p' := k r) in *. destruct Hlaw as [[Eb Eq]|[Hfresh [u Hu]]].
  - rewrite Eq, Z.eqb_refl. intros Hh. exists own.
    split; cbn; [done| |by apply known_move| |apply Hi|apply Hi|by apply resized_move].
    + intros t' p0 [[<- <-]|[_ ?]]%lookup_insert_Some; [by apply Hw0|by apply Hi].
    + intros x. rewrite Eb. apply Hi.
  - assert (q <> 0) as Hq by (apply (usable_law l' q u); rewrite Hu; apply lookup_insert_eq).
    rewrite (proj2 (Z.eqb_neq q 0) Hq). intros Hh.
    assert (own !! q = None) as Hnew.
    { apply eq_None_not_Some. intros Hin. assert (is_Some (heap s !! q)) as [v Hv] by (apply (pi_held _ _ Hi); by left). congruence. }
    exists (<[q := t]> own). split; cbn; [done| | | | | |].
    + intros t' p0 [[<- <-]|[? ?]]%lookup_insert_Some.
      * rewrite owned_insert by done. apply Hw1; [done|]. rewrite elem_of_owned, Hnew. done.
      * rewrite owned_insert_ne by done. by apply Hi.
    + intros x t' [[<- <-]|[? ?]]%lookup_insert_Some; [rewrite lookup_insert_eq; by eexists|by eapply known_move].
    + intros x. rewrite Hu, !lookup_insert_is_Some', (pi_held _ _ Hi). split.
      * intros [?|[?|[t' Hr]]]; [by left; left|by left; right|]. right. exists t'. rewrite lookup_insert_ne by congruence. done.
      * intros [[?|?]|[t' [[_ ?]|[_ ?]]%lookup_insert_Some]]; [by left|by right; left|done|right; right; by exists t'].
    + intros t' x [[_ ?]|[_ Hr]]%lookup_insert_Some; [done|]. rewrite lookup_insert_ne; [by apply (pi_released _ _ Hi) in Hr|].
      intros <-. assert (is_Some (heap s !! q)) as [v Hv] by (apply (pi_held _ _ Hi); right; by exists t'). congruence.
    + intros t' op x n [[<- [= _ <- _]]|[_ Hr]]%lookup_insert_Some; [by rewrite lookup_insert_eq|].
      apply (pi_reported _ _ Hi) in Hr. rewrite lookup_insert_ne by congruence. done.
    + intros t' x n [[_ ?]|[_ Hr]]%lookup_insert_Some; [done|]. pose proof (resized_move _ _ _ p' Hi Ht _ _ _ Hr) as (Ho & Hrest).
      split; [|done]. rewrite lookup_insert_ne by congruence. done.
Qed.

Lemma free_fair own s t stamp x k : pool_inv own s -> thr s !! t = None -> po_progs s !! t = Some (Ask (CFree x) k) ->
  fair_label base (Enter t stamp (CFree x)) (po_conc s).
Proof.
  intros Hi Ht Hp. destruct (pi_wp _ _ Hi _ _ Hp) as [[-> _]|(_ & Hin & _)].
  - split; [by left|]. apply null_quiet, Hi.
  - apply elem_of_owned in Hin. split; [right; right; by apply (own_block own s t)|]. by apply (own_quiet own s t).
Qed.

Lemma pool_frees own s t stamp x k : pool_inv own s -> thr s !! t = None -> po_progs s !! t = Some (Ask (CFree x) k) ->
  exists own', pool_inv own' (mkPool (enter base (po_conc s) t stamp (CFree x)) (<[t := k (0, 0)]> (po_progs s))).
Proof.
  intros Hi Ht Hp. destruct (pi_wp _ _ Hi _ _ Hp) as [[-> Hw]|(Hx & Hin & Hw)].
  - exists own. cbn [enter]. rewrite Z.eqb_refl. cbn [orb].
    split; cbn; [apply Hi| |by apply known_move|apply Hi|apply Hi|apply Hi|by apply resized_move].
    intros t' p0 [[<- <-]|[_ ?]]%lookup_insert_Some; [done|by apply Hi].
  - apply elem_of_owned in Hin. destruct (own_block _ _ _ _ Hi Hin) as ([u Hu] & _ & Harena).
    assert (hooks_inv base (enter base (po_conc s) t stamp (CFree x))) as Hh.
    { apply enter_inv; [apply Hi|done|by apply (free_fair own s t stamp x k)]. }
    revert Hh. cbn [enter]. rewrite (proj2 (Z.eqb_neq x 0) Hx), Harena. cbn [orb]. intros Hh.
    exists (delete x own). split; cbn; [done| | | | | |].
    + intros t' p0 [[<- <-]|[? ?]]%lookup_insert_Some; [by rewrite owned_delete|].
      rewrite (owned_delete_ne _ t) by done. by apply Hi.
    + intros y t' [_ Hy]%lookup_delete_Some. by eapply known_move.
    + intros y. rewrite (pi_held _ _ Hi). destruct (decide (y = x)) as [->|Hne].
      * split; intros _; [right; exists t; apply lookup_insert_eq|left; by eexists].
      * rewrite lookup_delete_ne by done. split; (intros [?|[t' Hr]]; [by left|right]).
        -- exists t'. rewrite lookup_insert_ne by congruence. done.
        -- exists t'. apply lookup_insert_Some in Hr as [[_ ?]|[_ ?]]; congruence.
    + intros t' y [[_ [= <-]]|[_ Hr]]%lookup_insert_Some; [apply lookup_delete_eq|].
      apply lookup_delete_None. right. by apply (pi_released _ _ Hi) in Hr.
    + intros t' op y n [[_ ?]|[? Hr]]%lookup_insert_Some; [done|]. apply (pi_reported _ _ Hi) in Hr.
      rewrite lookup_delete_ne by congruence. done.
    + intros t' y n [[_ ?]|[? Hr]]%lookup_insert_Some; [done|]. pose proof (resized_move _ _ _ (k (0, 0)) Hi Ht _ _ _ Hr) as (Ho & Hrest).
      split; [|done]. rewrite lookup_delete_ne by congruence. done.
Qed.

(** A block to be resized is reported released; it stays owned meanwhile. *)
Lemma pool_resizes own s t stamp x n k : pool_inv own s -> thr s !! t = None -> po_progs s !! t = Some (Ask (CRealloc x n) k) ->
  x <> 0 -> fair_label base (Enter t stamp (CRealloc x n)) (po_conc s) /\
  pool_step t stamp s = Some (mkPool (enter base (po_conc s) t stamp (CRealloc x n)) (po_progs s), Enter t stamp (CRealloc x n)) /\
  pool_inv own (mkPool (enter base (po_conc s) t stamp (CRealloc x n)) (po_progs s)).
Proof.
  intros Hi Ht Hp Hx. destruct (pi_wp _ _ Hi _ _ Hp) as [[? _]|(_ & Hin & Hn & _)]; [done|]. apply elem_of_owned in Hin.
  destruct (own_block _ _ _ _ Hi Hin) as (Hb & _ & Harena). pose proof (proj2 (Z.eqb_neq x 0) Hx) as Hx'.
  assert (fair_label base (Enter t stamp (CRealloc x n)) (po_conc s)) as Hf.
  { split; [right; right; done|]. by apply (own_quiet own s t). }
  assert (hooks_inv base (enter base (po_conc s) t stamp (CRealloc x n))) as Hh by (apply enter_inv; [apply Hi|done|done]).
  split; [done|]. split; [unfold pool_step; rewrite Ht, Hp; cbn [answered]; by rewrite Hx', Harena|].
  revert Hh. cbn [enter]. rewrite Hx', Harena. cbn [orb]. intros Hh.
  split; cbn; [done|apply Hi|apply Hi| | | |].
  - intros y. rewrite (pi_held _ _ Hi). split; (intros [?|[t' Hr]]; [by left|right; exists t']).
    + rewrite lookup_insert_ne by congruence. done.
    + apply lookup_insert_Some in Hr as [[_ ?]|[_ ?]]; congruence.
  - intros t' y [[_ ?]|[_ Hr]]%lookup_insert_Some; [done|]. by apply (pi_released _ _ Hi) in Hr.
  - intros t' op y n' [[_ ?]|[_ Hr]]%lookup_insert_Some; [done|]. by apply (pi_reported _ _ Hi) in Hr.
  - intros t' y n' [[<- [= <- <-]]|[_ Hr]]%lookup_insert_Some; [|by apply (pi_resized _ _ Hi) in Hr].
    split; [done|]. split; [done|]. by exists k.
Qed.

(** A report made, or a block given back. *)
Lemma pool_reports own s t stamp op x n : pool_inv own s -> thr s !! t = Some (Report op x n) ->
  pool_inv own (mkPool (go (po_conc s) t stamp (Report op x n)) (po_progs s)).
Proof.
  intros Hi Ht. pose proof (go_inv base _ t stamp _ (pi_hooks _ _ Hi) Ht) as Hh.
  split; cbn; [done|apply Hi|apply Hi| | | |].
  - intros y. rewrite (pi_held _ _ Hi). split; (intros [?|[t' Hr]]; [by left|right; exists t']).
    + rewrite lookup_delete_ne by congruence. done.
    + by apply lookup_delete_Some in Hr as [_ ?].
  - intros t' y [_ Hr]%lookup_delete_Some. by apply (pi_released _ _ Hi) in Hr.
  - intros t' op' y n' [_ Hr]%lookup_delete_Some. by apply (pi_reported _ _ Hi) in Hr.
  - intros t' y n' [_ Hr]%lookup_delete_Some. by apply (pi_resized _ _ Hi) in Hr.
Qed.

Lemma pool_releases own s t stamp x : pool_inv own s -> thr s !! t = Some (Release x) ->
  pool_inv own (mkPool (go (po_conc s) t stamp (Release x)) (po_progs s)).
Proof.
  intros Hi Ht. pose proof (go_inv base _ t stamp _ (pi_hooks _ _ Hi) Ht) as Hh.
  assert (is_Some (heap s !! x)) as Hb by (apply (pi_held _ _ Hi); right; by exists t).
  split; cbn; [done|apply Hi|apply Hi| | | |].
  - intros y. rewrite free_law by done. rewrite lookup_delete_is_Some, (pi_held _ _ Hi). split.
    + intros [Hne [?|[t' Hr]]]; [by left|right; exists t']. rewrite lookup_delete_ne by congruence. done.
    + intros [Ho|[t' [Hne Hr]%lookup_delete_Some]].
      * split; [|by left]. intros <-. rewrite (pi_released _ _ Hi _ _ Ht) in Ho. by destruct Ho.
      * split; [|right; by exists t']. intros <-. apply Hne.
        by apply (co_apart _ _ _ (hi_core _ _ (pi_hooks _ _ Hi)) _ _ _ _ Ht Hr).
  - intros t' y [_ Hr]%lookup_delete_Some. by apply (pi_released _ _ Hi) in Hr.
  - intros t' op' y n' [_ Hr]%lookup_delete_Some. by apply (pi_reported _ _ Hi) in Hr.
  - intros t' y n' [_ Hr]%lookup_delete_Some. by apply (pi_resized _ _ Hi) in Hr.
Qed.

(** The allocator's answer to a resize. *)
Lemma pool_resized own s t stamp x n k : pool_inv own s -> thr s !! t = Some (Resize x n) ->
  po_progs s !! t = Some (Ask (CRealloc x n) k) -> exists own', pool_inv own'
    (mkPool (go (po_conc s) t stamp (Resize x n)) (<[t := k ((lc_realloc (cc_libc (po_conc s)) x n).2, 0)]> (po_progs s))).
Proof.
  intros Hi Ht Hp. pose proof (go_inv base _ t stamp _ (pi_hooks _ _ Hi) Ht) as Hh.
  destruct (pi_resized _ _ Hi _ _ _ Ht) as (Ho & Hx & _).
  destruct (own_block _ _ _ _ Hi Ho) as (Hb & _ & _).
  destruct (pi_wp _ _ Hi _ _ Hp) as [[? _]|(_ & _ & Hn & Hw0 & Hw1)]; [done|].
  pose proof (realloc_law (cc_libc (po_conc s)) x n Hb Hn) as Hlaw. revert Hh. cbn [go].
  destruct (lc_realloc (cc_libc (po_conc s)) x n) as [l q]. cbn [snd].
  assert (forall t' y n', thr s !! t' = Some (Resize y n') -> t' <> t -> forall p, own !! y = Some t' /\ y <> 0 /\
    exists k', <[t := p]> (po_progs s) !! t' = Some (Ask (CRealloc y n') k')) as Hothers.
  { intros t' y n' Hr Hne p. destruct (pi_resized _ _ Hi _ _ _ Hr) as (? & ? & k' & ?). split; [done|]. split; [done|].
    exists k'. by rewrite lookup_insert_ne by done. }
  destruct Hlaw as [[-> Eb]|[Hfresh [u Hu]]]; intros Hh.
  - exists own. cbn [Z.eqb] in *. split; cbn; [done| |by apply known_move| | | |].
    + intros t' p0 [[<- <-]|[_ ?]]%lookup_insert_Some; [done|by apply Hi].
    + intros y. rewrite Eb, (pi_held _ _ Hi). split; (intros [?|[t' Hr]]; [by left|right; exists t']).
      * rewrite lookup_insert_ne by congruence. done.
      * apply lookup_insert_Some in Hr as [[_ ?]|[_ ?]]; congruence.
    + intros t' y [[_ ?]|[_ Hr]]%lookup_insert_Some; [done|]. by apply (pi_released _ _ Hi) in Hr.
    + intros t' op y n' [[<- [= _ <- _]]|[_ Hr]]%lookup_insert_Some; [done|]. by apply (pi_reported _ _ Hi) in Hr.
    + intros t' y n' [[_ ?]|[? Hr]]%lookup_insert_Some; [done|]. by apply Hothers.
  - assert (q <> 0) as Hq by (apply (usable_law l q u); rewrite Hu; apply lookup_insert_eq).
    rewrite (proj2 (Z.eqb_neq q 0) Hq) in Hh |- *.
    assert (forall y, delete x own !! y = None \/ is_Some (delete x (heap s) !! y)) as Hsub.
    { intros y. destruct (decide (y = x)) as [->|Hne]; [left; apply lookup_delete_eq|]. rewrite !lookup_delete_ne by done.
      destruct (own !! y) eqn:E; [right|by left]. apply (pi_held _ _ Hi). left. by eexists. }
    assert (delete x own !! q = None) as Hnew by (destruct (Hsub q) as [|[? ?]]; [done|congruence]).
    assert (forall y t', own !! y = Some t' -> t' <> t -> <[q := t]> (delete x own) !! y = Some t') as Hkeep.
    { intros y t' Hy Hne. assert (y <> x) by congruence. assert (y <> q).
      { intros ->. rewrite lookup_delete_ne in Hnew by congruence. congruence. }
      rewrite lookup_insert_ne, lookup_delete_ne by congruence. done. }
    exists (<[q := t]> (delete x own)). split; cbn; [done| | | | | |].
    + intros t' p0 [[<- <-]|[? ?]]%lookup_insert_Some.
      * rewrite owned_insert, owned_delete by done. apply Hw1; [done|]. rewrite <- owned_delete, elem_of_owned, Hnew. done.
      * rewrite owned_insert_ne, (owned_delete_ne _ t) by done. by apply Hi.
    + intros y t' [[<- <-]|[? [_ Hy]%lookup_delete_Some]]%lookup_insert_Some;
        [rewrite lookup_insert_eq; by eexists|by eapply known_move].
    + intros y. rewrite Hu, !lookup_insert_is_Some', !lookup_delete_is_Some, (pi_held _ _ Hi). split.
      * intros [?|[Hne [?|[t' Hr]]]]; [by left; left|by left; right|]. right. exists t'. rewrite lookup_insert_ne by congruence. done.
      * intros [[?|[? ?]]|[t' [[_ ?]|[_ Hr]]%lookup_insert_Some]]; [by left|right; split; [done|by left]|done|right].
        split; [intros <-; rewrite (pi_released _ _ Hi _ _ Hr) in Ho; done|right; by exists t'].
    + intros t' y [[_ ?]|[Hne Hr]]%lookup_insert_Some; [done|]. rewrite lookup_insert_ne.
      * apply lookup_delete_None. right. by apply (pi_released _ _ Hi) in Hr.
      * intros <-. assert (is_Some (heap s !! q)) as [v Hv] by (apply (pi_held _ _ Hi); right; by exists t').
        rewrite lookup_delete_ne in Hfresh; [congruence|]. intros <-. by rewrite (pi_released _ _ Hi _ _ Hr) in Ho.
    + intros t' op y n' [[<- [= _ <- _]]|[? Hr]]%lookup_insert_Some; [by rewrite lookup_insert_eq|].
      apply Hkeep; [by apply (pi_reported _ _ Hi) in Hr|congruence].
    + intros t' y n' [[_ ?]|[Hne Hr]]%lookup_insert_Some; [done|].
      destruct (Hothers _ _ _ Hr ltac:(congruence) (k (q, 0))) as (? & ? & ?).
      split; [apply Hkeep; [done|congruence]|done].
Qed.

(** A step of a pool whose programs keep to what they own. *)
Lemma pool_step_inv own s t stamp s' lb : pool_inv own s -> pool_step t stamp s = Some (s', lb) ->
  fair_label base lb (po_conc s) /\ exists own', pool_inv own' s'.
Proof.
  intros Hi. unfold pool_step. destruct (thr s !! t) as [pc|] eqn:Ht.
  - destruct pc as [op x n|x|x n].
    + destruct (po_progs s !! t) as [[|]|]; intros [= <- <-]; (split; [done|]; exists own; by apply pool_reports).
    + destruct (po_progs s !! t) as [[|]|]; intros [= <- <-]; (split; [done|]; exists own; by apply (pool_releases own s t stamp x)).
    + destruct (pi_resized _ _ Hi _ _ _ Ht) as (_ & _ & k & Hp). rewrite Hp. intros [= <- <-]. split; [done|].
      by apply (pool_resized own s t stamp x n k).
  - destruct (po_progs s !! t) as [[|c k]|] eqn:Hp; [done| |done].
    destruct (decide (allocates c)) as [Hc|Hc].
    + rewrite answered_allocates by done. intros [= <- <-]. split; [apply (allocates_fair _ t stamp); [apply Hi|done]|by apply (pool_allocates own s t stamp)].
    + destruct c as [|x| |x n| | | | |]; try (by exfalso; apply Hc).
      * cbn [answered]. intros [= <- <-]. split; [by apply (free_fair own s t stamp x k)|by apply (pool_frees own s t stamp x k)].
      * destruct (pool_resizes own s t stamp x n k Hi Ht Hp Hc) as (Hf & Hs & Hi'). unfold pool_step in Hs. rewrite Ht, Hp in Hs.
        rewrite Hs. intros [= <- <-]. split; [done|by exists own].
Qed.

(** Programs that keep to what they own, from a heap with nothing in it. *)
Definition pool_start (s : Pool) : Prop :=
  blocks (cc_libc (po_conc s)) = ∅ /\ po_conc s = mkConc (cc_libc (po_conc s)) [] ∅ /\
  forall t p, po_progs s !! t = Some p -> wp p ∅ Q.

Lemma pool_start_inv s : pool_start s -> pool_inv ∅ s.
Proof.
  intros (Hb & Ec & Hw). assert (hooks_inv base (po_conc s)) as Hh by (rewrite Ec; by apply hooks_start).
  split; try done.
  - intros x. rewrite Hb, lookup_empty. rewrite Ec. cbn. split; [by intros []|]. intros [[]|[t Ht]]; [done|].
    by rewrite lookup_empty in Ht.
  - intros t op x n. rewrite Ec. cbn. by rewrite lookup_empty.
  - intros t x n. rewrite Ec. cbn. by rewrite lookup_empty.
Qed.

Lemma pool_always s0 s : pool_start s0 -> pool_reachable s0 s ->
  hook_reachable base (po_conc s0) (po_conc s) /\ exists own, pool_inv own s.
Proof.
  intros H0. induction 1 as [|s t stamp s' lb _ [IHr [own IH]] Hs]; [split; [constructor|exists ∅; by apply pool_start_inv]|].
  destruct (pool_step_inv _ _ _ _ _ _ IH Hs) as [Hf Hi]. split; [|done]. apply (hr_step _ _ _ lb _ IHr Hf). by eapply pool_step_hook.
Qed.

(** Nothing is held when every program has ended with a result that says so. *)
Lemma pool_ends_empty R own s : (forall a O, R a -> Q a O -> O = ∅) -> pool_inv own s -> pool_done R s -> heap s = ∅.
Proof.
  intros HQ Hi [Ht Hp]. apply map_eq. intros x. rewrite lookup_empty. apply eq_None_not_Some. intros Hx.
  apply (pi_held _ _ Hi) in Hx as [[t Ho]|[t Hr]]; [|by rewrite Ht, lookup_empty in Hr].
  destruct (pi_known _ _ Hi _ _ Ho) as [p Hpt]. pose proof (pi_wp _ _ Hi _ _ Hpt) as Hw. destruct (Hp _ _ Hpt) as (a & Ha & ->). cbn in Hw.
  apply elem_of_owned in Ho. rewrite (HQ _ _ Ha Hw) in Ho. by apply elem_of_empty in Ho.
Qed.
End Pool.

(** ** A schedule, executed *)

Section Schedule.
Context {L : Type} `{!Libc L} (base : Z).

(** Round after round, every thread of [ts] that can takes a step. *)
Fixpoint pool_turn (ts : list nat) (s : Pool) : Pool :=
  match ts with
  | [] => s
  | t :: ts => pool_turn ts (match pool_step base t (0, Z.of_nat t) s with Some (s', _) => s' | None => s end)
  end.
Definition pool_run (n : nat) (ts : list nat) (s : Pool) : Pool := Nat.iter n (pool_turn ts) s.

Lemma pool_turn_reachable s0 ts : forall s, pool_reachable base s0 s -> pool_reachable base s0 (pool_turn ts s).
Proof.
  induction ts as [|t ts IH]; intros s Hr; [done|]. cbn [pool_turn]. apply IH.
  destruct (pool_step base t (0, Z.of_nat t) s) as [[s' lb]|] eqn:E; [|done]. by eapply pr_step.
Qed.
Lemma pool_run_reachable s0 n ts : pool_reachable base s0 (pool_run n ts s0).
Proof. induction n as [|n IH]; [constructor|]. by apply pool_turn_reachable. Qed.

(** Whether every thread has ended with 0. *)
Definition all_zero (s : Pool (L := L)) : bool :=
  bool_decide (cc_threads (po_conc s) = ∅) &&
  forallb (fun tp => match tp.2 with Ret a => a =? 0 | Ask _ _ => false end) (map_to_list (po_progs s)).
Lemma all_zero_done s : all_zero s = true -> pool_done (fun a => a = 0) s.
Proof.
  intros [Ht%bool_decide_eq_true_1 Hp]%andb_true_iff. split; [done|]. intros t p Hl.
  rewrite forallb_forall in Hp. specialize (Hp (t, p)). cbn in Hp.
  assert (match p with Ret a => a =? 0 | Ask _ _ => false end = true) as Hz
    by (apply Hp, list_elem_of_In, elem_of_map_to_list, Hl).
  destruct p as [a|c k]; [|done]. exists a. split; [by apply Z.eqb_eq|done].
Qed.
End Schedule.
