(* ===== verification/Pipeline.v ===== *)
(** * The whole pipeline

    The target's threads in their hooks, the shared ring cut at its accesses and
    the application that drains it, as one system: the hooks of [HookConc] with
    every push a run of the ring's machine of [Ring] ([PPush] is one access of
    one thread), the consumer's drain likewise ([PRead]) with what it hands over
    folded by the code of [HeapApp].  The claim of a slot is the moment an event
    exists: a push that has not claimed yet is, for the hooks of [HookConc], still
    to come, so every run of the pipeline in which nothing is refused is a run of
    those hooks, and what the application shows follows from theirs. *)

From stdpp Require Import fin_maps gmap.
From S2P Require Import Prelude Abi Ring RingConc Capabilities Theme Session HeapApp HeapAppProofs ChunkTable LiveSet Watching.
From S2P Require Import Preload PreloadProofs HookConc.

(** ** The application's side of the ring *)

(** One drain of the application, given the events the ring's drain handed out;
    how many it asked for is noted. *)
Record Batch := mkBatch { bt_session : RingSession; bt_events : list HvEvent; bt_asked : option Z }.

#[export] Instance batch_source : EventSource Batch := {|
  src_attached b := attached (bt_session b);
  src_pid b := ss_pid (bt_session b);
  src_comm b := ss_comm (bt_session b);
  src_drain b n := (mkBatch (bt_session b) (drop (Z.to_nat n) (bt_events b)) (Some n), take (Z.to_nat n) (bt_events b));
  src_capacity b := session_capacity (bt_session b);
  src_queued b := session_queued (bt_session b);
  src_dropped b := session_dropped (bt_session b);
  src_exited b := producer_exited (bt_session b)
|}.

Lemma batch_drain_takes (b : Batch) n : True -> src_attached b = true -> 0 <= n ->
  let '(b', out) := src_drain b n in
  out = take (Z.to_nat n) (bt_events b) /\ bt_events b' = drop (Z.to_nat n) (bt_events b) /\ True /\ src_attached b' = true.
Proof. done. Qed.
#[export] Instance batch_queue : EventQueue Batch := {| source_ok _ := True; pending := bt_events; drain_takes := batch_drain_takes |}.

Notation App := (HeapApp Batch).
Definition with_batch (a : App) (out : list HvEvent) : App :=
  set_session a (mkBatch (bt_session (ap_session a)) out None).
(** How many events the application's next drain asks the ring for, if it does. *)
Definition asks (a : App) : option Z := bt_asked (ap_session (HeapApp.drain (with_batch a [])).1).
(** The drain, handed [out]. *)
Definition feed (a : App) (out : list HvEvent) : App := (HeapApp.drain (with_batch a out)).1.

(** ** The system *)

(** A thread inside a hook: between two pushes, or pushing; [after] is where it
    goes on from. *)
Inductive Inside := At (pc : HookPc) | Pushing (a : PushArgs) (after : option HookPc).
(** The block the thread is busy with. *)
Definition busy_with (i : Inside) : Z := match i with At pc => held_by pc | Pushing a _ => a_ptr a end.

(** [pp_refused] counts the pushes a full ring refused. *)
Record Pipe (L : Type) := mkPipe {
  pp_libc : L;
  pp_threads : gmap nat Inside;
  pp_ring : Sys;
  pp_app : App;
  pp_refused : nat
}.
Arguments mkPipe {L}. Arguments pp_libc {L}. Arguments pp_threads {L}. Arguments pp_ring {L}.
Arguments pp_app {L}. Arguments pp_refused {L}.

(** A thread enters a hook; takes a step outside the ring; makes an access of the
    ring.  The application starts a frame's drain; makes an access of the ring;
    is updated, gets a key or a new size, or has its request to start the counters
    over taken. *)
Inductive PipeLabel :=
  | PEnter (t : nat) (stamp : Z * Z) (c : Call)
  | PGo (t : nat) (stamp : Z * Z)
  | PPush (t : nat) (spurious : bool)
  | PFrame
  | PRead
  | PUpdate (w : World)
  | PKey (localtime : option (Z * Z * Z)) (byte : Z)
  | PResized (w h : Z)
  | PReset.

Section Pipe.
Context {L : Type} `{!Libc L} (base : Z).
Implicit Types s : Pipe L.

Definition set_threads s (th : gmap nat Inside) : Pipe L := mkPipe (pp_libc s) th (pp_ring s) (pp_app s) (pp_refused s).
Definition set_app s (a : App) : Pipe L := mkPipe (pp_libc s) (pp_threads s) (pp_ring s) a (pp_refused s).
Definition set_sys s (r : Sys) : Pipe L := mkPipe (pp_libc s) (pp_threads s) r (pp_app s) (pp_refused s).

(** The thread reads the size of its block and the clock and enters the push. *)
Definition start_push s (t : nat) (stamp : Z * Z) (op p n : Z) (after : option HookPc) : option (Pipe L) :=
  let a := mkPushArgs stamp.1 p n (usable_of (pp_libc s) p) stamp.2 op in
  r ← step (LPush t a) (pp_ring s);
  Some (set_sys (set_threads s (<[t := Pushing a after]> (pp_threads s))) r).

Definition pipe_allocate s (t : nat) (c : Call) : Pipe L :=
  let '(l, res) := direct base (pp_libc s) c in
  let p := block_got c res in
  mkPipe l (if p =? 0 then pp_threads s
            else <[t := At (Report (reported_as c).1 p (reported_as c).2)]> (pp_threads s))
    (pp_ring s) (pp_app s) (pp_refused s).

Definition pipe_enter s (t : nat) (stamp : Z * Z) (c : Call) : option (Pipe L) :=
  match c with
  | CFree p =>
      if (p =? 0) || hv_is_bootstrap_ptr base p then Some s
      else start_push s t stamp HV_OP_FREE p 0 (Some (Release p))
  | CRealloc p n =>
      if (p =? 0) || hv_is_bootstrap_ptr base p then Some (pipe_allocate s t c)
      else start_push s t stamp HV_OP_FREE p 0 (Some (Resize p n))
  | _ => Some (pipe_allocate s t c)
  end.

Definition pipe_go s (t : nat) (stamp : Z * Z) (i : Inside) : option (Pipe L) :=
  match i with
  | At (Report op p n) => start_push s t stamp op p n None
  | At (Release p) =>
      Some (mkPipe (lc_free (pp_libc s) p) (delete t (pp_threads s)) (pp_ring s) (pp_app s) (pp_refused s))
  | At (Resize p n) =>
      let '(l, q) := lc_realloc (pp_libc s) p n in
      Some (mkPipe l (<[t := At (Report HV_OP_REALLOC (if q =? 0 then p else q) n)]> (pp_threads s))
              (pp_ring s) (pp_app s) (pp_refused s))
  | Pushing _ after =>
      (* the push has returned *)
      match s_prod (pp_ring s) !! t with
      | Some _ => None
      | None => Some (set_threads s (match after with
                                     | Some pc => <[t := At pc]> (pp_threads s)
                                     | None => delete t (pp_threads s)
                                     end))
      end
  end.

(** The access that finds the ring full ends the push without its event. *)
Definition refuses_push (r : Sys) (pc : ProducerPc) : bool :=
  match pc with PCheck _ head tail => ring_full head tail (h_capacity (r_hdr (s_ring r))) | _ => false end.

(** The application between two drains. *)
Definition use s (f : App -> App) : option (Pipe L) :=
  match s_cons (pp_ring s) with CIdle => Some (set_app s (f (pp_app s))) | _ => None end.

Definition pipe_step (lb : PipeLabel) s : option (Pipe L) :=
  match lb with
  | PEnter t stamp c => match pp_threads s !! t with None => pipe_enter s t stamp c | Some _ => None end
  | PGo t stamp => i ← pp_threads s !! t; pipe_go s t stamp i
  | PPush t sp =>
      pc ← s_prod (pp_ring s) !! t;
      r ← step (LProd t sp) (pp_ring s);
      Some (mkPipe (pp_libc s) (pp_threads s) r (pp_app s)
              (if refuses_push (pp_ring s) pc then S (pp_refused s) else pp_refused s))
  | PFrame =>
      match s_cons (pp_ring s), asks (pp_app s) with
      | CIdle, Some n => r ← step (LDrain (Z.to_nat n)) (pp_ring s); Some (set_sys s r)
      | CIdle, None => Some (set_app s (feed (pp_app s) []))
      | _, _ => None
      end
  | PRead =>
      r ← step LCons (pp_ring s);
      Some (set_app (set_sys s r)
        (match s_cons r with
         | CIdle => feed (pp_app s) (drop (length (delivered (pp_ring s))) (delivered r))
         | _ => pp_app s
         end))
  | PUpdate w => use s (fun a => (HeapApp.update w a).1)
  | PKey lt byte => use s (fun a => (HeapApp.key lt a byte).1)
  | PResized w h => use s (fun a => HeapApp.resized a w h)
  | PReset => use s (fun a => (HeapApp.take_stats_reset a).1)
  end.

Fixpoint pipe_steps (ls : list PipeLabel) s : option (Pipe L) :=
  match ls with [] => Some s | lb :: ls => s' ← pipe_step lb s; pipe_steps ls s' end.

(** The target attached to and nothing allocated yet. *)
Definition pipe_start (l : L) (k : Z) (a : App) : Pipe L := mkPipe l ∅ (init k) a 0.

(** What the application has not folded yet: what it staged while paused and
    what the ring holds. *)
Definition backlog s : list HvEvent :=
  staged_rest (ap_staging (pp_app s)) ++
  (event_of <$> drop (length (delivered (pp_ring s))) (claimed (pp_ring s))).
Definition pipe_events s : list HvEvent := event_of <$> claimed (pp_ring s).

(** ** Runs of a correct target *)

Context `{!Allocator L base}.

Definition busy (th : gmap nat Inside) (p : Z) : Prop := exists t i, th !! t = Some i /\ busy_with i = p.
(** What a thread gives back or resizes is a block no thread is busy with. *)
Definition pipe_fair (lb : PipeLabel) s : Prop :=
  match lb with
  | PEnter _ _ c => fair base (pp_libc s) c /\
      match c with CFree p | CRealloc p _ => ~ busy (pp_threads s) p | _ => True end
  | _ => True
  end.

Inductive pipe_reachable (s0 : Pipe L) : Pipe L -> Prop :=
  | pp_start : pipe_reachable s0 s0
  | pp_step s lb s' : pipe_reachable s0 s -> pipe_fair lb s -> pipe_step lb s = Some s' -> pipe_reachable s0 s'.

(** ** The hooks behind the pipeline *)

(** A push that has not claimed its slot. *)
Definition unclaimed (o : option ProducerPc) : bool :=
  match o with Some (PTail _ _ | PCheck _ _ _ | PRetry _) => true | _ => false end.
(** Where the thread is in terms of the hooks: a release that is not in the
    stream yet has not begun. *)
Definition shown_as (o : option ProducerPc) (i : Inside) : option HookPc :=
  match i with
  | At pc => Some pc
  | Pushing a after =>
      if unclaimed o then match after with None => Some (Report (a_opcode a) (a_ptr a) (a_size a)) | Some _ => None end
      else after
  end.
Definition hooks_threads s : gmap nat HookPc := map_imap (fun t i => shown_as (s_prod (pp_ring s) !! t) i) (pp_threads s).
Definition hooks_of s : Conc L := mkConc (pp_libc s) (pipe_events s) (hooks_threads s).

Lemma hooks_threads_lookup s t : hooks_threads s !! t = pp_threads s !! t ≫= shown_as (s_prod (pp_ring s) !! t).
Proof. unfold hooks_threads. by rewrite map_lookup_imap. Qed.

(** A step of thread [t] leaves the others as they are. *)
Lemma hooks_threads_at s s' t :
  (forall t', t' <> t -> pp_threads s' !! t' = pp_threads s !! t' /\ s_prod (pp_ring s') !! t' = s_prod (pp_ring s) !! t') ->
  hooks_threads s' = partial_alter (fun _ => hooks_threads s' !! t) t (hooks_threads s).
Proof.
  intros Ho. apply map_eq. intros t'. destruct (decide (t' = t)) as [->|Hne]; [by rewrite lookup_partial_alter_eq|].
  rewrite lookup_partial_alter_ne by done. rewrite !hooks_threads_lookup. by destruct (Ho t' Hne) as [-> ->].
Qed.
Lemma same_threads_at s s' t :
  (forall t', t' <> t -> pp_threads s' !! t' = pp_threads s !! t' /\ s_prod (pp_ring s') !! t' = s_prod (pp_ring s) !! t') ->
  hooks_threads s' !! t = hooks_threads s !! t -> hooks_threads s' = hooks_threads s.
Proof.
  intros Ho E. rewrite (hooks_threads_at s s' t Ho), E. apply map_eq. intros t'.
  destruct (decide (t' = t)) as [->|]; [by rewrite lookup_partial_alter_eq|by rewrite lookup_partial_alter_ne].
Qed.

(** ** What a thread is doing is sound *)

Definition args_of (pc : ProducerPc) : option PushArgs :=
  match pc with PTail a _ | PCheck a _ _ | PWrite a _ _ | PRetry a => Some a | PCount => None end.
(** What comes after the report of a release. *)
Definition continues (a : PushArgs) (pc : HookPc) : Prop :=
  a_opcode a = HV_OP_FREE /\ a_size a = 0 /\ held_by pc = a_ptr a /\
  match pc with Report _ _ _ => False | Release _ => True | Resize _ n => n <> 0 end.
(** [o]: where the thread is inside the push. *)
Definition sound (l : L) (o : option ProducerPc) (i : Inside) : Prop :=
  exists u, blocks l !! busy_with i = Some u /\
  match i with
  | At _ => o = None
  | Pushing a after =>
      (forall pc, o = Some pc -> args_of pc = Some a \/ pc = PCount) /\ a_usable a = Z.min u UINT32_MAX /\
      forall pc, after = Some pc -> continues a pc
  end.

Record threads_ok s : Prop := {
  to_sound : forall t i, pp_threads s !! t = Some i -> sound (pp_libc s) (s_prod (pp_ring s) !! t) i;
  to_idle : forall t, pp_threads s !! t = None -> s_prod (pp_ring s) !! t = None;
  to_apart : forall t1 t2 i1 i2, pp_threads s !! t1 = Some i1 -> pp_threads s !! t2 = Some i2 ->
    busy_with i1 = busy_with i2 -> t1 = t2
}.

(** The block another thread is busy with is not touched. *)
Definition spares s (t : nat) (l' : L) : Prop :=
  forall t' i, t' <> t -> pp_threads s !! t' = Some i -> blocks l' !! busy_with i = blocks (pp_libc s) !! busy_with i.

Lemma threads_ok_change s s' t : threads_ok s ->
  (forall t', t' <> t -> pp_threads s' !! t' = pp_threads s !! t' /\ s_prod (pp_ring s') !! t' = s_prod (pp_ring s) !! t') ->
  spares s t (pp_libc s') ->
  match pp_threads s' !! t with
  | None => s_prod (pp_ring s') !! t = None
  | Some i => sound (pp_libc s') (s_prod (pp_ring s') !! t) i /\
      forall t' i', t' <> t -> pp_threads s !! t' = Some i' -> busy_with i' <> busy_with i
  end -> threads_ok s'.
Proof.
  intros [Hs Hi Ha] Ho Hsp Ht. split.
  - intros t' i Hl. destruct (decide (t' = t)) as [->|Hne]; [rewrite Hl in Ht; by destruct Ht|].
    destruct (Ho t' Hne) as [E1 E2]. rewrite E1 in Hl. rewrite E2. destruct (Hs _ _ Hl) as (u & Hu & Hrest).
    exists u. split; [by rewrite (Hsp t' i)|done].
  - intros t' Hl. destruct (decide (t' = t)) as [->|Hne]; [by rewrite Hl in Ht|].
    destruct (Ho t' Hne) as [E1 E2]. rewrite E1 in Hl. rewrite E2. by apply Hi.
  - intros t1 t2 i1 i2 H1 H2 E. destruct (decide (t1 = t)) as [->|N1], (decide (t2 = t)) as [->|N2]; [done| | |].
    + rewrite H1 in Ht. destruct (Ho t2 N2) as [E2 _]. rewrite E2 in H2. destruct Ht as [_ Ht]. by destruct (Ht _ _ N2 H2).
    + rewrite H2 in Ht. destruct (Ho t1 N1) as [E1 _]. rewrite E1 in H1. destruct Ht as [_ Ht]. by destruct (Ht _ _ N1 H1).
    + destruct (Ho t1 N1) as [E1 _], (Ho t2 N2) as [E2 _]. rewrite E1 in H1. rewrite E2 in H2. by eapply Ha.
Qed.

(** The simulation: a step of the pipeline is one of the hooks, or none. *)
Definition simulated s s' : Prop :=
  hooks_of s' = hooks_of s \/
  exists lb, fair_label base lb (hooks_of s) /\ hook_step base lb (hooks_of s) = Some (hooks_of s').

Lemma start_push_sim s t stamp op p n after s' u : threads_ok s -> start_push s t stamp op p n after = Some s' ->
  blocks (pp_libc s) !! p = Some u ->
  (forall t' i', t' <> t -> pp_threads s !! t' = Some i' -> busy_with i' <> p) ->
  hooks_threads s !! t = match after with None => Some (Report op p n) | Some _ => None end ->
  (forall pc, after = Some pc -> op = HV_OP_FREE /\ n = 0 /\ held_by pc = p /\
    match pc with Report _ _ _ => False | Release _ => True | Resize _ n => n <> 0 end) ->
  simulated s s' /\ threads_ok s'.
Proof.
  intros Hok Hs Hu Hap Hsh Haf. unfold start_push in Hs. cbn [step] in Hs. set (a := mkPushArgs _ _ _ _ _ _) in *.
  destruct (s_prod (pp_ring s) !! t) eqn:Ep; [done|]. cbn in Hs. injection Hs as <-.
  assert (forall t', t' <> t -> <[t:=Pushing a after]> (pp_threads s) !! t' = pp_threads s !! t' /\
    <[t:=PTail a (h_head (r_hdr (s_ring (pp_ring s))))]> (s_prod (pp_ring s)) !! t' = s_prod (pp_ring s) !! t') as Ho
    by (intros t' Hne; by rewrite !lookup_insert_ne).
  split.
  - left. unfold hooks_of, pipe_events. cbn [pp_libc pp_ring set_sys set_threads with_prod claimed]. f_equal.
    apply (same_threads_at _ _ t); [exact Ho|]. rewrite hooks_threads_lookup. cbn.
    rewrite !lookup_insert_eq, Hsh. cbn. by destruct after.
  - apply (threads_ok_change s _ t Hok); [exact Ho|by intros ? ?|]. cbn. rewrite !lookup_insert_eq. split; [|exact Hap].
    exists u. split; [exact Hu|]. split; [intros pc [= <-]; by left|]. split; [by apply (usable_of_block base)|]. exact Haf.
Qed.

Lemma shown_busy s t pc : threads_ok s -> hooks_threads s !! t = Some pc ->
  exists i, pp_threads s !! t = Some i /\ busy_with i = held_by pc.
Proof.
  intros Hok Hl. rewrite hooks_threads_lookup in Hl. destruct (pp_threads s !! t) as [i|] eqn:E; [|done].
  exists i. split; [done|]. cbn in Hl. destruct (to_sound _ Hok _ _ E) as (u & _ & Hrest).
  destruct i as [pc'|a after]; cbn in *; [by injection Hl as <-|].
  destruct Hrest as (_ & _ & Haf). destruct (unclaimed _); [destruct after; [done|by injection Hl as <-]|].
  by destruct (Haf _ Hl) as (_ & _ & -> & _).
Qed.
Lemma transit_busy s p : threads_ok s -> in_transit (hooks_threads s) p -> busy (pp_threads s) p.
Proof. intros Hok (t & pc & Hl & <-). destruct (shown_busy s t pc Hok Hl) as (i & Hi & E). by exists t, i. Qed.

Lemma allocate_sim s t stamp c : threads_ok s -> pp_threads s !! t = None -> pipe_fair (PEnter t stamp c) s ->
  (forall p, c <> CFree p) -> (forall p n, c = CRealloc p n -> (p =? 0) || hv_is_bootstrap_ptr base p = true) ->
  simulated s (pipe_allocate s t c) /\ threads_ok (pipe_allocate s t c).
Proof.
  intros Hok Ht [Hf Hb] Hnf Hnr. assert (hooks_threads s !! t = None) as Hht by (by rewrite hooks_threads_lookup, Ht).
  assert (enter base (hooks_of s) t stamp c = allocate base (hooks_of s) t c) as Een.
  { destruct c; try done; [by destruct (Hnf p)|]. cbn [enter]. by rewrite (Hnr _ _ eq_refl). }
  pose proof (direct_law base (pp_libc s) c Hnf Hnr) as Hlaw.
  assert (fair_label base (Enter t stamp c) (hooks_of s)) as Hfl.
  { split; [done|]. destruct c; try done; intros Hin; by apply Hb, transit_busy. }
  unfold simulated. cbn [hook_step hooks_of cc_threads]. revert Hlaw Een.
  unfold pipe_allocate, allocate. cbn [hooks_of cc_libc cc_events cc_threads].
  destruct (direct base (pp_libc s) c) as [l res]. cbv zeta. set (q := block_got c res). intros Hlaw Een.
  destruct (Z.eqb_spec q 0) as [Eq|Hq].
  - destruct Hlaw as [[Eb _]|[_ [u Hu]]].
    2:{ exfalso. by apply (usable_law l q u); [rewrite Hu; apply lookup_insert_eq|]. }
    split.
    + right. exists (Enter t stamp c). split; [exact Hfl|]. cbn [hook_step]. change (cc_threads (hooks_of s)) with (hooks_threads s). rewrite Hht, Een. done.
    + apply (threads_ok_change s _ t Hok); [done|intros ? ? _ _; cbn; by rewrite Eb|]. cbn. rewrite Ht. by apply (to_idle _ Hok).
  - destruct Hlaw as [[_ ?]|[Hfresh [u Hu]]]; [done|].
    set (i := At (Report (reported_as c).1 q (reported_as c).2)).
    assert (forall t', t' <> t -> <[t:=i]> (pp_threads s) !! t' = pp_threads s !! t' /\
      s_prod (pp_ring s) !! t' = s_prod (pp_ring s) !! t') as Ho by (intros t' Hne; by rewrite !lookup_insert_ne).
    assert (forall t' i', pp_threads s !! t' = Some i' -> busy_with i' <> q) as Hne.
    { intros t' i' Hl E. destruct (to_sound _ Hok _ _ Hl) as (v & Hv & _). congruence. }
    split.
    + right. exists (Enter t stamp c). split; [exact Hfl|]. cbn [hook_step]. change (cc_threads (hooks_of s)) with (hooks_threads s). rewrite Hht, Een.
      unfold hooks_of. do 2 f_equal. symmetry. etransitivity; [apply (hooks_threads_at s _ t); exact Ho|]. rewrite hooks_threads_lookup. cbn.
      by rewrite lookup_insert_eq.
    + apply (threads_ok_change s _ t Hok); [exact Ho| |].
      * intros t' i' _ Hl. cbn. rewrite Hu, lookup_insert_ne; [done|]. apply not_eq_sym. by eapply Hne.
      * cbn. rewrite lookup_insert_eq. split; [|by intros t' i' _ Hl; apply (Hne t')].
        exists u. rewrite Hu. split; [apply lookup_insert_eq|by apply (to_idle _ Hok)].
Qed.

(** A thread enters a hook. *)
Lemma enter_sim s t stamp c s' : threads_ok s -> pp_threads s !! t = None -> pipe_fair (PEnter t stamp c) s ->
  pipe_enter s t stamp c = Some s' -> simulated s s' /\ threads_ok s'.
Proof.
  intros Hok Ht Hpf Hs. pose proof Hpf as [Hf Hb].
  assert (hooks_threads s !! t = None) as Hht by (by rewrite hooks_threads_lookup, Ht).
  assert (forall p, ~ busy (pp_threads s) p -> forall t' i', t' <> t -> pp_threads s !! t' = Some i' -> busy_with i' <> p) as Hnb
    by (intros p Hn t' i' _ Hl E; apply Hn; by exists t', i').
  destruct c as [n|p|a b|p n|old a n|a n|a n|n|n]; cbn [pipe_enter fair] in *;
    try (injection Hs as <-; by apply (allocate_sim s t stamp)).
  - destruct (_ || _) eqn:E; [injection Hs as <-; split; [by left|done]|]. apply orb_false_iff in E as [E1 E2].
    apply Z.eqb_neq in E1. destruct Hf as [?|[?|[u Hu]]]; [done|congruence|].
    apply (start_push_sim _ _ _ _ _ _ _ _ u Hok Hs Hu); [by apply Hnb|done|]. by intros pc [= <-].
  - destruct (_ || _) eqn:E.
    { injection Hs as <-. apply (allocate_sim s t stamp); try done. by intros p0 n0 [= <- <-]. }
    apply orb_false_iff in E as [E1 E2].
    apply Z.eqb_neq in E1. destruct Hf as [?|[?|[[u Hu] Hn]]]; [done|congruence|].
    apply (start_push_sim _ _ _ _ _ _ _ _ u Hok Hs Hu); [by apply Hnb|done|]. by intros pc [= <-].
Qed.

Lemma apart_others s t i : threads_ok s -> pp_threads s !! t = Some i ->
  forall t' i', t' <> t -> pp_threads s !! t' = Some i' -> busy_with i' <> busy_with i.
Proof. intros Hok Ht t' i' Hne Hl E. apply Hne. by apply (to_apart _ Hok t' t i' i). Qed.

(** A thread steps outside the ring. *)
Lemma go_sim s t stamp i s' : hooks_inv base (hooks_of s) -> threads_ok s -> pp_threads s !! t = Some i ->
  pipe_go s t stamp i = Some s' -> simulated s s' /\ threads_ok s'.
Proof.
  intros Hh Hok Ht Hs. destruct (to_sound _ Hok _ _ Ht) as (u & Hu & Hrest). pose proof (apart_others s t i Hok Ht) as Hap.
  pose proof (hooks_threads_lookup s t) as Hht. rewrite Ht in Hht. cbn [mbind option_bind] in Hht.
  destruct i as [[op p n|p|p n]|a after]; cbn [pipe_go busy_with held_by shown_as] in *.
  - apply (start_push_sim _ _ _ _ _ _ _ _ u Hok Hs Hu); [exact Hap|exact Hht|done].
  - injection Hs as <-. assert (forall t', t' <> t -> delete t (pp_threads s) !! t' = pp_threads s !! t' /\
      s_prod (pp_ring s) !! t' = s_prod (pp_ring s) !! t') as Ho by (intros t' Hne; by rewrite lookup_delete_ne).
    split.
    + right. exists (Go t stamp). split; [done|]. cbn [hook_step hooks_of cc_threads]. rewrite Hht. cbn. unfold hooks_of. do 2 f_equal.
      symmetry. etransitivity; [apply (hooks_threads_at s _ t); exact Ho|]. rewrite hooks_threads_lookup. cbn. by rewrite lookup_delete_eq.
    + apply (threads_ok_change s _ t Hok); [exact Ho| |cbn; by rewrite lookup_delete_eq].
      intros t' i' Hne Hl. cbn. rewrite free_law by (by eexists). rewrite lookup_delete_ne; [done|]. apply not_eq_sym. by eapply Hap.
  - assert (n <> 0) as Hn by (by apply (hi_resize _ _ Hh t p)).
    pose proof (realloc_law (pp_libc s) p n ltac:(by eexists) Hn) as Hlaw. destruct (lc_realloc (pp_libc s) p n) as [l q] eqn:Er.
    injection Hs as <-. set (i := At _). assert (forall t', t' <> t -> <[t:=i]> (pp_threads s) !! t' = pp_threads s !! t' /\
      s_prod (pp_ring s) !! t' = s_prod (pp_ring s) !! t') as Ho by (intros t' Hne; by rewrite lookup_insert_ne).
    split.
    + right. exists (Go t stamp). split; [done|]. cbn [hook_step hooks_of cc_threads]. rewrite Hht. cbn. rewrite Er. unfold hooks_of. do 2 f_equal.
      symmetry. etransitivity; [apply (hooks_threads_at s _ t); exact Ho|]. rewrite hooks_threads_lookup. cbn. by rewrite lookup_insert_eq.
    + destruct Hlaw as [[-> Eb]|[Hfresh [v Hv]]].
      * apply (threads_ok_change s _ t Hok); [exact Ho|intros ? ? _ _; cbn; by rewrite Eb|].
        cbn. rewrite lookup_insert_eq. split; [|exact Hap]. exists u. by rewrite Eb.
      * assert (q <> 0) as Hq by (apply (usable_law l q v); rewrite Hv; apply lookup_insert_eq).
        assert (forall t' i', t' <> t -> pp_threads s !! t' = Some i' -> busy_with i' <> q) as Hnq.
        { intros t' i' Hne Hl E. destruct (to_sound _ Hok _ _ Hl) as (w & Hw & _).
          rewrite lookup_delete_ne in Hfresh; [congruence|]. rewrite <- E. apply not_eq_sym. by eapply Hap. }
        apply (threads_ok_change s _ t Hok); [exact Ho| |].
        -- intros t' i' Hne Hl. cbn. rewrite Hv, lookup_insert_ne, lookup_delete_ne; [done|apply not_eq_sym; by eapply Hap|].
           apply not_eq_sym. by eapply Hnq.
        -- cbn. rewrite lookup_insert_eq. unfold i. cbn [busy_with held_by]. rewrite (proj2 (Z.eqb_neq q 0) Hq).
           split; [|exact Hnq]. exists v. rewrite Hv. split; [apply lookup_insert_eq|done].
  - destruct (s_prod (pp_ring s) !! t) eqn:Ep; [done|]. injection Hs as <-. destruct Hrest as (_ & _ & Haf). cbn [unclaimed] in Hht.
    set (th := match after with Some pc => _ | None => _ end).
    assert (forall t', t' <> t -> th !! t' = pp_threads s !! t' /\ s_prod (pp_ring s) !! t' = s_prod (pp_ring s) !! t') as Ho.
    { intros t' Hne. unfold th. by destruct after; rewrite ?lookup_insert_ne, ?lookup_delete_ne. }
    split.
    + left. unfold hooks_of. f_equal. apply (same_threads_at _ _ t); [exact Ho|]. rewrite hooks_threads_lookup, Hht. cbn. unfold th.
      by destruct after; rewrite ?lookup_insert_eq, ?lookup_delete_eq.
    + apply (threads_ok_change s _ t Hok); [exact Ho|by intros ? ?|]. cbn. unfold th.
      destruct after as [pc|]; [|by rewrite lookup_delete_eq]. rewrite lookup_insert_eq.
      destruct (Haf _ eq_refl) as (_ & _ & Eh & _). unfold sound. cbn [busy_with]. rewrite Eh. split; [|exact Hap]. by exists u.
Qed.

(** An access of the ring that is not refused: it claims the slot, or the push
    stays on its side of the claim. *)
Lemma prod_step_view (r : Sys) t pc sp : refuses_push r pc = false ->
  exists o cl, s_prod (prod_step r t pc sp) = partial_alter (fun _ => o) t (s_prod r) /\
    claimed (prod_step r t pc sp) = claimed r ++ cl /\
    (forall pc', o = Some pc' -> args_of pc' = args_of pc \/ pc' = PCount) /\
    (cl = [] /\ unclaimed o = unclaimed (Some pc) \/ exists a, args_of pc = Some a /\ cl = [a] /\ unclaimed (Some pc) = true /\ unclaimed o = false).
Proof.
  intros Hr. destruct pc as [a h|a h tl|a q j| |a]; cbn [prod_step refuses_push] in *.
  - exists (Some (PCheck a h (h_tail (r_hdr (s_ring r))))), []. cbn. rewrite app_nil_r. split_and!; try done; [by intros ? [= <-]; left|by left].
  - rewrite Hr. unfold cas_weak. destruct (_ && _).
    + exists (Some (PWrite a h 0)), [a]. cbn. split_and!; try done; [by intros ? [= <-]; left|]. right. by exists a.
    + exists (Some (PRetry a)), []. cbn. rewrite app_nil_r. split_and!; try done; [by intros ? [= <-]; left|by left].
  - destruct (Nat.ltb j 5).
    + exists (Some (PWrite a q (S j))), []. cbn. rewrite app_nil_r. split_and!; try done; [by intros ? [= <-]; left|by left].
    + exists (Some PCount), []. cbn. rewrite app_nil_r. split_and!; try done; [by intros ? [= <-]; right|by left].
  - exists None, []. cbn. rewrite app_nil_r. split_and!; try done. by left.
  - exists (Some (PTail a (h_head (r_hdr (s_ring r))))), []. cbn. rewrite app_nil_r. split_and!; try done; [by intros ? [= <-]; left|by left].
Qed.

Lemma pushing s t pc : threads_ok s -> s_prod (pp_ring s) !! t = Some pc -> exists a after, pp_threads s !! t = Some (Pushing a after).
Proof.
  intros Hok Hp. destruct (pp_threads s !! t) as [i|] eqn:E; [|by rewrite (to_idle _ Hok _ E) in Hp].
  destruct (to_sound _ Hok _ _ E) as (u & _ & Hrest). destruct i as [pc'|a after]; [congruence|]. by exists a, after.
Qed.

(** The claim of a slot is the hooks' push. *)
Lemma claim_sim s s' t a after u : hooks_of s' = mkConc (pp_libc s) (pipe_events s ++ [event_of a]) 
    (partial_alter (fun _ => after) t (hooks_threads s)) ->
  threads_ok s -> pp_threads s !! t = Some (Pushing a after) -> unclaimed (s_prod (pp_ring s) !! t) = true ->
  blocks (pp_libc s) !! a_ptr a = Some u -> a_usable a = Z.min u UINT32_MAX ->
  (forall pc, after = Some pc -> continues a pc) -> simulated s s'.
Proof.
  intros E Hok Ht Hun Hu Hus Haf. right. pose proof (hooks_threads_lookup s t) as Hht. rewrite Ht in Hht. cbn in Hht. rewrite Hun in Hht.
  destruct (usable_law _ _ _ Hu) as (_ & _ & Hp & Harena). apply Z.eqb_neq in Hp.
  assert (usable_of (pp_libc s) (a_ptr a) = a_usable a) as Eus by (rewrite Hus; by apply (usable_of_block base)).
  assert (forall op n threads, a_opcode a = op -> a_size a = n ->
    push (hooks_of s) (a_timestamp a, a_tid a) op (a_ptr a) n threads = mkConc (pp_libc s) (pipe_events s ++ [event_of a]) threads) as Epush.
  { intros op n threads <- <-. unfold push. cbn [hooks_of cc_libc cc_events fst snd]. rewrite Eus. by destruct a. }
  destruct after as [pc|].
  - destruct (Haf _ eq_refl) as (Hop & Hn & Hh & Hpc).
    assert (~ in_transit (cc_threads (hooks_of s)) (a_ptr a)) as Hnt.
    { intros (t' & pc' & Hl & Eh). destruct (decide (t' = t)) as [->|Hne]; [cbn in Hl; congruence|].
      destruct (shown_busy s t' pc' Hok Hl) as (i' & Hi & Eb).
      apply Hne. apply (to_apart _ Hok t' t i' (Pushing a (Some pc)) Hi Ht). cbn. congruence. }
    destruct pc as [|p|p n]; [done| |]; cbn in Hh; subst p.
    + exists (Enter t (a_timestamp a, a_tid a) (CFree (a_ptr a))). split; [split; [right; right; by eexists|exact Hnt]|].
      cbn [hook_step]. change (cc_threads (hooks_of s)) with (hooks_threads s). rewrite Hht, E. cbn [enter].
      rewrite Hp, Harena. cbn [orb]. by rewrite Epush.
    + exists (Enter t (a_timestamp a, a_tid a) (CRealloc (a_ptr a) n)). split; [split; [right; right; split; [by eexists|exact Hpc]|exact Hnt]|].
      cbn [hook_step]. change (cc_threads (hooks_of s)) with (hooks_threads s). rewrite Hht, E. cbn [enter].
      rewrite Hp, Harena. cbn [orb]. by rewrite Epush.
  - exists (Go t (a_timestamp a, a_tid a)). split; [done|]. cbn [hook_step]. change (cc_threads (hooks_of s)) with (hooks_threads s).
    rewrite Hht, E. cbn. by rewrite Epush.
Qed.

(** An access of the ring. *)
Lemma push_sim s t pc sp r a0 n : threads_ok s -> s_prod (pp_ring s) !! t = Some pc -> refuses_push (pp_ring s) pc = false ->
  r = prod_step (pp_ring s) t pc sp ->
  let s' := mkPipe (pp_libc s) (pp_threads s) r a0 n in simulated s s' /\ threads_ok s'.
Proof.
  intros Hok Hp Href -> s'. destruct (pushing s t pc Hok Hp) as (a & after & Ht).
  destruct (to_sound _ Hok _ _ Ht) as (u & Hu & Hargs & Hus & Haf).
  destruct (prod_step_view (pp_ring s) t pc sp Href) as (o & cl & Eo & Ec & Hno & Hcl).
  assert (forall t', t' <> t -> pp_threads s' !! t' = pp_threads s !! t' /\ s_prod (pp_ring s') !! t' = s_prod (pp_ring s) !! t') as Ho
    by (intros t' Hne; cbn [s' pp_ring]; by rewrite Eo, lookup_partial_alter_ne).
  assert (s_prod (pp_ring s') !! t = o) as Est by (cbn [s' pp_ring]; by rewrite Eo, lookup_partial_alter_eq).
  assert (threads_ok s') as Hok'.
  { apply (threads_ok_change s _ t Hok Ho); [by intros ? ?|]. cbn [s' pp_threads]. rewrite Ht, Est. split; [|by eapply apart_others].
    exists u. split; [exact Hu|]. split; [|done]. intros pc' E. destruct (Hno _ E) as [Ea|]; [|by right].
    destruct (Hargs _ Hp) as [Ha| ->]; [left; congruence|]. destruct pc'; try done. by right. }
  split; [|exact Hok']. assert (pipe_events s' = pipe_events s ++ (event_of <$> cl)) as Eev
    by (unfold pipe_events; cbn [s' pp_ring]; by rewrite Ec, fmap_app).
  assert (hooks_threads s' !! t = shown_as o (Pushing a after)) as Esh
    by (rewrite hooks_threads_lookup; cbn [s' pp_threads]; by rewrite Ht, Est).
  destruct Hcl as [[-> Hu']|(a' & Ea & -> & Hun & Hcl)].
  - left. unfold hooks_of. rewrite Eev. cbn [fmap list_fmap]. rewrite app_nil_r. f_equal. apply (same_threads_at _ _ t Ho).
    rewrite Esh, hooks_threads_lookup, Ht. cbn. by rewrite Hu', Hp.
  - destruct (Hargs _ Hp) as [Ha| ->]; [|done]. assert (a' = a) as -> by congruence.
    apply (claim_sim s s' t a after u); try done; [|by rewrite Hp].
    unfold hooks_of. rewrite Eev. f_equal. rewrite (hooks_threads_at s s' t Ho), Esh. cbn [shown_as]. by rewrite Hcl.
Qed.

(** What the consumer does is no concern of the hooks'. *)
Lemma consumer_sim s r a n : threads_ok s -> s_prod r = s_prod (pp_ring s) -> claimed r = claimed (pp_ring s) ->
  let s' := mkPipe (pp_libc s) (pp_threads s) r a n in simulated s s' /\ threads_ok s'.
Proof.
  intros Hok Ep Ec s'. split.
  - left. unfold hooks_of, pipe_events, hooks_threads. cbn [s' pp_ring pp_threads pp_libc]. by rewrite Ep, Ec.
  - destruct Hok as [H1 H2 H3]. split; cbn [s' pp_ring pp_threads pp_libc]; rewrite ?Ep; done.
Qed.

Lemma use_sim s s' f : threads_ok s -> use s f = Some s' -> simulated s s' /\ threads_ok s'.
Proof. intros Hok Hs. unfold use in Hs. destruct (s_cons (pp_ring s)); try done. injection Hs as <-. by apply consumer_sim. Qed.

Lemma cons_step_view (r r' : Sys) : cons_step r = Some r' -> s_prod r' = s_prod r /\ claimed r' = claimed r.
Proof. unfold cons_step. intros E. repeat case_match; try done; by injection E as <-. Qed.

(** ** Every step *)
Lemma pipe_step_sim s lb s' : hooks_inv base (hooks_of s) -> threads_ok s -> pipe_fair lb s -> pipe_step lb s = Some s' ->
  pp_refused s' = pp_refused s -> simulated s s' /\ threads_ok s'.
Proof.
  intros Hh Hok Hf Hs Hr. destruct lb as [t stamp c|t stamp|t sp| | |w|lt b|w h|]; cbn [pipe_step] in Hs.
  - destruct (pp_threads s !! t) eqn:E; [done|]. by eapply enter_sim.
  - destruct (pp_threads s !! t) as [i|] eqn:E; [|done]. by eapply go_sim.
  - destruct (s_prod (pp_ring s) !! t) as [pc|] eqn:E; [|done]. cbn [mbind option_bind step] in Hs. rewrite E in Hs. cbn in Hs.
    injection Hs as <-. cbn [pp_refused] in Hr. destruct (refuses_push (pp_ring s) pc) eqn:Er; [lia|]. by apply (push_sim s t pc sp).
  - destruct (s_cons (pp_ring s)) eqn:Ec; try done. destruct (asks (pp_app s)) as [n|].
    + cbn [mbind option_bind step] in Hs. rewrite Ec in Hs. injection Hs as <-. by apply consumer_sim.
    + injection Hs as <-. by apply consumer_sim.
  - cbn [step] in Hs. destruct (cons_step (pp_ring s)) as [r|] eqn:E; [|done]. injection Hs as <-.
    destruct (cons_step_view _ _ E) as [Ep Ec]. exact (consumer_sim s r _ (pp_refused s) Hok Ep Ec).
  - by apply (use_sim s s' _ Hok Hs).
  - by apply (use_sim s s' _ Hok Hs).
  - by apply (use_sim s s' _ Hok Hs).
  - by apply (use_sim s s' _ Hok Hs).
Qed.

(** ** The ring and its counter of refusals *)

Definition h_dropped_of s : Z := h_dropped (r_hdr (s_ring (pp_ring s))).

Lemma prod_step_dropped (r : Sys) t pc sp :
  h_dropped (r_hdr (s_ring (prod_step r t pc sp))) =
    if refuses_push r pc then h_dropped (r_hdr (s_ring r)) ⊞ 1 else h_dropped (r_hdr (s_ring r)).
Proof.
  destruct pc as [a h|a h tl|a q j| |a]; cbn [prod_step refuses_push]; try done.
  - destruct (ring_full _ _ _); [done|]. unfold cas_weak. by destruct (_ && _).
  - by destruct (Nat.ltb j 5).
Qed.

(** A step of the pipeline is at most one of the ring's. *)
Lemma pipe_step_ring lb s s' : pipe_step lb s = Some s' ->
  (pp_ring s' = pp_ring s \/ exists l, step l (pp_ring s) = Some (pp_ring s')) /\
  (pp_refused s' = pp_refused s /\ h_dropped_of s' = h_dropped_of s \/
   pp_refused s' = S (pp_refused s) /\ h_dropped_of s' = (h_dropped_of s ⊞ 1)).
Proof.
  assert (forall t stamp op p n after, start_push s t stamp op p n after = Some s' ->
    (pp_ring s' = pp_ring s \/ exists l, step l (pp_ring s) = Some (pp_ring s')) /\
    (pp_refused s' = pp_refused s /\ h_dropped_of s' = h_dropped_of s \/
     pp_refused s' = S (pp_refused s) /\ h_dropped_of s' = (h_dropped_of s ⊞ 1))) as Hstart.
  { intros t stamp op p n after Hs. unfold start_push in Hs. set (a := mkPushArgs _ _ _ _ _ _) in *.
    destruct (step (LPush t a) (pp_ring s)) as [r|] eqn:E; [|done]. injection Hs as <-. split; [right; by exists (LPush t a)|].
    left. split; [done|]. cbn [step] in E. destruct (s_prod (pp_ring s) !! t); [done|]. by injection E as <-. }
  assert (forall f, use s f = Some s' -> (pp_ring s' = pp_ring s \/ exists l, step l (pp_ring s) = Some (pp_ring s')) /\
    (pp_refused s' = pp_refused s /\ h_dropped_of s' = h_dropped_of s \/
     pp_refused s' = S (pp_refused s) /\ h_dropped_of s' = (h_dropped_of s ⊞ 1))) as Huse.
  { intros f Hs. unfold use in Hs. destruct (s_cons (pp_ring s)); try done. injection Hs as <-. split; by left. }
  assert (forall t c, pp_ring (pipe_allocate s t c) = pp_ring s /\ pp_refused (pipe_allocate s t c) = pp_refused s) as Hal.
  { intros t c. unfold pipe_allocate. by destruct (direct base (pp_libc s) c). }
  destruct lb as [t stamp c|t stamp|t sp| | |w|lt b|w h|]; cbn [pipe_step]; intros Hs.
  - destruct (pp_threads s !! t); [done|]. unfold h_dropped_of.
    destruct c as [n|p|a b|p n|old a n|a n|a n|n|n]; cbn [pipe_enter] in Hs;
      repeat match goal with H : (if ?b then _ else _) = Some _ |- _ => destruct b end;
      try (by eapply Hstart); injection Hs as <-; try (split; [by left|by left]);
      match goal with |- context [pipe_allocate s t ?c] => destruct (Hal t c) as [-> ->] end; split; by left.
  - destruct (pp_threads s !! t) as [[[op p n|p|p n]|a after]|]; [| | | |done]; cbn in Hs; [by eapply Hstart| | |].
    + injection Hs as <-. split; by left.
    + destruct (lc_realloc (pp_libc s) p n). injection Hs as <-. split; by left.
    + destruct (s_prod (pp_ring s) !! t); [done|]. injection Hs as <-. split; by left.
  - destruct (s_prod (pp_ring s) !! t) as [pc|] eqn:E; [|done].
    cbn [mbind option_bind step] in Hs. rewrite E in Hs. cbn [mbind option_bind] in Hs. injection Hs as <-. cbn [pp_ring pp_refused].
    split; [right; exists (LProd t sp); cbn [step]; by rewrite E|]. unfold h_dropped_of. cbn [pp_ring]. rewrite prod_step_dropped.
    destruct (refuses_push _ _); [by right|by left].
  - destruct (s_cons (pp_ring s)) eqn:Ec; try done. destruct (asks (pp_app s)) as [n|].
    + destruct (step (LDrain (Z.to_nat n)) (pp_ring s)) as [r|] eqn:E; [|done]. injection Hs as <-.
      split; [right; by exists (LDrain (Z.to_nat n))|left]. split; [done|]. cbn [step] in E. rewrite Ec in E. by injection E as <-.
    + injection Hs as <-. split; by left.
  - destruct (step LCons (pp_ring s)) as [r|] eqn:E; [|done]. injection Hs as <-. split; [right; by exists LCons|left].
    split; [done|]. unfold h_dropped_of. cbn [set_app set_sys pp_ring]. cbn [step] in E. unfold cons_step in E.
    repeat case_match; try done; by injection E as <-.
  - by apply (Huse _ Hs).
  - by apply (Huse _ Hs).
  - by apply (Huse _ Hs).
  - by apply (Huse _ Hs).
Qed.

Lemma pipe_ring_reachable s0 s : pipe_reachable s0 s -> reachable (pp_ring s0) (pp_ring s).
Proof.
  induction 1 as [|s lb s' _ IH _ Hs]; [constructor|]. destruct (pipe_step_ring _ _ _ Hs) as [[->|[l E]] _]; [done|].
  by eapply reach_step.
Qed.
Lemma pipe_refused s0 s : h_dropped_of s0 = u64 (Z.of_nat (pp_refused s0)) -> pipe_reachable s0 s ->
  h_dropped_of s = u64 (Z.of_nat (pp_refused s)).
Proof.
  intros H0. induction 1 as [|s lb s' _ IH _ Hs]; [done|].
  destruct (pipe_step_ring _ _ _ Hs) as [_ [[-> ->]|[-> ->]]]; [done|]. rewrite IH, Nat2Z.inj_succ. by rewrite u64_add_l.
Qed.

(** ** The application's side *)

Record app_ready (a : App) : Prop := {
  ar_attached : attached (bt_session (ap_session a)) = true;
  ar_head : (staged_head_ (ap_staging a) <= length (staged_ (ap_staging a)))%nat;
  ar_clear : staged_rest (ap_staging a) = [] -> staged_ (ap_staging a) = []
}.
Lemma app_ready_batch a out : app_ready a -> ready (with_batch a out).
Proof. intros []. by split. Qed.

(** How many events a drain asks for: a frame's ceiling, less what it replays. *)
Definition quota (a : App) : option Z :=
  let waiting := Z.of_nat (length (staged_rest (ap_staging a))) in
  if paused_ (ap_staging a) then Some kMaxEventsPerFrame
  else if waiting <? kMaxEventsPerFrame then Some (kMaxEventsPerFrame - waiting) else None.

Lemma drain_batch a out : app_ready a -> ap_session (HeapApp.drain (with_batch a out)).1 =
  match quota a with
  | Some n => mkBatch (bt_session (ap_session a)) (drop (Z.to_nat n) out) (Some n)
  | None => mkBatch (bt_session (ap_session a)) out None
  end.
Proof.
  intros Ha. pose proof (app_ready_batch a out Ha) as Hr. unfold HeapApp.drain. rewrite (rd_attached _ Hr). cbn [negb].
  unfold quota. change (ap_staging (with_batch a out)) with (ap_staging a).
  destruct (paused_ (ap_staging a)) eqn:Ep; [done|].
  pose proof (replay_spec _ Hr) as Hs. change (ap_staging (with_batch a out)) with (ap_staging a) in Hs.
  destruct (replay (with_batch a out)) as [a1 n1].
  cbv zeta in Hs. destruct Hs as (-> & _ & Hl & Hse & _ & Hr1 & _). set (w := length (staged_rest (ap_staging a))) in *.
  pose proof (Z2Nat.id kMaxEventsPerFrame ltac:(done)) as HK. set (K := Z.to_nat kMaxEventsPerFrame) in *. clearbody K.
  destruct (Z.ltb_spec (Z.of_nat w) kMaxEventsPerFrame) as [Hlt|Hge].
  - replace (w `min` K)%nat with w in * by lia. rewrite (proj2 (Z.ltb_lt _ _) Hlt).
    assert (staged_ (ap_staging a1) = []) as E by (apply (rd_clear _ Hr1); rewrite Hl; apply drop_ge; unfold w; lia).
    rewrite bool_decide_eq_true_2 by exact E. cbn [andb]. rewrite Hse. cbn [src_drain batch_source with_batch set_session ap_session].
    by case_match.
  - replace (w `min` K)%nat with K in * by lia. rewrite (proj2 (Z.ltb_ge (Z.of_nat K) _)) by lia. cbn [andb fst]. exact Hse.
Qed.

Lemma asks_quota a : app_ready a -> asks a = quota a.
Proof. intros Ha. unfold asks. rewrite drain_batch by done. by destruct (quota a). Qed.
Lemma quota_pos a n : quota a = Some n -> 0 < n <= kMaxEventsPerFrame.
Proof. unfold quota. destruct (paused_ _); [by intros [= <-]|]. case_match eqn:E; [|done]. apply Z.ltb_lt in E. intros [= <-]. lia. Qed.

(** What a drain that is handed [out] does. *)
Lemma feed_spec a out : app_ready a ->
  (match quota a with Some n => Z.of_nat (length out) <= n | None => out = [] end) ->
  let k := if paused_ (ap_staging a) then 0%nat else Z.to_nat kMaxEventsPerFrame in
  let a' := feed a out in
  ap_model a' = foldl (apply_event (origin a)) (ap_model a) (take k (staged_rest (ap_staging a) ++ out)) /\
  staged_rest (ap_staging a') = drop k (staged_rest (ap_staging a) ++ out) /\
  ap_sampling a' = ap_sampling a /\ paused_ (ap_staging a') = paused_ (ap_staging a) /\ app_ready a'.
Proof.
  intros Ha Hn k a'. pose proof (drain_spec _ (app_ready_batch a out Ha)) as Hd.
  pose proof (drain_batch a out Ha) as Hse. pose proof (drain_sampling (with_batch a out)) as Hsa. unfold feed in a'. fold a' in Hse.
  destruct (HeapApp.drain (with_batch a out)) as [a1 n1] eqn:E. cbn [fst] in a', Hse, Hsa. subst a'. cbv zeta in Hd.
  destruct Hd as (Hm & Hrem & [Hli Hpa] & Hr1 & _).
  assert (pending (ap_session a1) = [] /\ attached (bt_session (ap_session a1)) = true) as [Hpe Hat].
  { rewrite Hse. revert Hn. destruct (quota a); cbn; (split; [|apply (ar_attached _ Ha)]); [apply drop_ge; lia|done]. }
  split; [exact Hm|]. split; [unfold remaining in Hrem; rewrite Hpe, app_nil_r in Hrem; exact Hrem|].
  split; [exact Hsa|]. split; [exact Hpa|]. destruct Hr1. by split.
Qed.

(** The ring's drain keeps to what it was asked for. *)
Definition reads_ok (q : option Z) (c : ConsumerPc) : Prop :=
  match c with
  | CIdle => True
  | CHead max _ => q = Some (Z.of_nat max)
  | CLoop max _ _ out => q = Some (Z.of_nat max) /\ (length out <= max)%nat
  | CCopy max _ _ out _ => q = Some (Z.of_nat max) /\ (length out < max)%nat
  | CStore _ out => exists max, q = Some (Z.of_nat max) /\ (length out <= max)%nat
  end.

(** What the application has taken and staged is what the ring has handed out,
    and its model keeps track of what it has taken. *)
Record follows s : Prop := {
  fo_ready : app_ready (pp_app s);
  fo_mode : sp_mode (ap_sampling (pp_app s)) = false;
  fo_taken : exists taken, delivered (pp_ring s) = taken ++ staged_rest (ap_staging (pp_app s)) /\
    (Forall event_ok taken -> Z.of_nat (length taken) < 2 ^ 31 -> tracks (length taken) (ap_model (pp_app s)) (heap_of taken));
  fo_reads : reads_ok (quota (pp_app s)) (s_cons (pp_ring s))
}.

Lemma follows_same s s' : follows s -> pp_app s' = pp_app s -> delivered (pp_ring s') = delivered (pp_ring s) ->
  reads_ok (quota (pp_app s)) (s_cons (pp_ring s')) -> follows s'.
Proof. intros [H1 H2 H3 H4] Ea Ed Hc. split; rewrite ?Ea, ?Ed; done. Qed.

Lemma follows_feed s s' out : follows s -> pp_app s' = feed (pp_app s) out ->
  delivered (pp_ring s') = delivered (pp_ring s) ++ out -> s_cons (pp_ring s') = CIdle ->
  (match quota (pp_app s) with Some n => Z.of_nat (length out) <= n | None => out = [] end) -> follows s'.
Proof.
  intros [H1 H2 (taken & Hd & Ht) _] Ea Ed Ec Hq. destruct (feed_spec (pp_app s) out H1 Hq) as (Hm' & Hs' & Ho' & _ & Hr').
  rewrite <- Ea in *. set (k := if paused_ _ then _ else _) in *. split; [done|congruence| |by rewrite Ec].
  set (new := take k (staged_rest (ap_staging (pp_app s)) ++ out)) in *. exists (taken ++ new).
  rewrite Hm', Hs'. split; [by rewrite Ed, Hd, <- !app_assoc; unfold new; rewrite take_drop|].
  intros [Hok Hnew]%Forall_app Hn. rewrite length_app in Hn |- *. unfold heap_of. rewrite foldl_app.
  apply apply_more_tracks; [|done|done]. apply Ht; [done|]. change (2 ^ 31) with 2147483648 in *. lia.
Qed.

(** What else is done with the application leaves what it follows. *)
Lemma follows_use s f s' : follows s -> use s f = Some s' ->
  (sp_mode (ap_sampling (pp_app s)) = false -> kept_but_pause (pp_app s) (f (pp_app s))) -> follows s'.
Proof.
  intros [[H1 H2 H3] Hmode (taken & Hd & Ht) _] Hs Hk. destruct (Hk Hmode) as (Hm & E4 & E5 & E3 & E2). unfold use in Hs.
  destruct (s_cons (pp_ring s)) eqn:Ec; try done. injection Hs as <-.
  set (a' := f (pp_app s)) in *. clearbody a'.
  assert (staged_rest (ap_staging a') = staged_rest (ap_staging (pp_app s))) as Es by (unfold staged_rest; by rewrite E4, E5).
  split; cbn [set_app pp_app pp_ring].
  - split; rewrite ?E2, ?E4, ?E5, ?Es; done.
  - by rewrite E3.
  - exists taken. rewrite Es. split; [done|]. intros Hok Hn. by apply (tracks_like _ _ _ _ Hm), Ht.
  - by rewrite Ec.
Qed.

Lemma follows_read s r : follows s -> cons_step (pp_ring s) = Some r ->
  follows (set_app (set_sys s r) (match s_cons r with
    | CIdle => feed (pp_app s) (drop (length (delivered (pp_ring s))) (delivered r))
    | _ => pp_app s end)).
Proof.
  intros Hf Hs. pose proof (fo_reads _ Hf) as Hc. unfold cons_step in Hs.
  assert (forall r : Sys, s_cons r <> CIdle -> delivered r = delivered (pp_ring s) -> reads_ok (quota (pp_app s)) (s_cons r) ->
    follows (set_app (set_sys s r) (match s_cons r with
      | CIdle => feed (pp_app s) (drop (length (delivered (pp_ring s))) (delivered r)) | _ => pp_app s end))) as Hstay.
  { intros r0 Hn Hd Hq. destruct (s_cons r0) eqn:E; [done|..]; (apply (follows_same s); try done; cbn; by rewrite E). }
  destruct (s_cons (pp_ring s)) as [|m t|m t h out|m t h out op|t out] eqn:Ec; [done| | | |]; cbn [reads_ok] in Hc.
  - injection Hs as <-. apply Hstay; [done|done|]. cbn. split; [done|lia].
  - destruct Hc as [Hq Hl]. destruct (Nat.ltb_spec (length out) m) as [Hlt|Hge]; cbn [andb] in Hs.
    + destruct (negb (t =? h)); [destruct (op_accepted _ _ _); [injection Hs as <-; by apply Hstay|]|].
      all: destruct (bool_decide (out = [])) eqn:Eo; injection Hs as <-; [|apply Hstay; [done|done|by exists m]].
      all: cbn [s_cons delivered]; rewrite drop_all; apply (follows_feed s _ []); cbn; rewrite ?app_nil_r; try done.
      all: rewrite Hq; cbn; lia.
    + destruct (bool_decide (out = [])) eqn:Eo; injection Hs as <-; [|apply Hstay; [done|done|by exists m]].
      cbn [s_cons delivered]. rewrite drop_all. apply (follows_feed s _ []); cbn; rewrite ?app_nil_r; try done. rewrite Hq. cbn. lia.
  - injection Hs as <-. apply Hstay; [done|done|]. cbn. destruct Hc. split; [done|]. rewrite length_app. cbn. lia.
  - injection Hs as <-. cbn [s_cons delivered]. rewrite drop_app_length.
    destruct Hc as (m & Hq & Hl). apply (follows_feed s _ out); cbn; try done. rewrite Hq. lia.
Qed.

(** A step of a thread is no concern of the consumer's. *)
Lemma thread_step_view lb s s' : pipe_step lb s = Some s' -> (match lb with PEnter _ _ _ | PGo _ _ | PPush _ _ => True | _ => False end) ->
  pp_app s' = pp_app s /\ delivered (pp_ring s') = delivered (pp_ring s) /\ s_cons (pp_ring s') = s_cons (pp_ring s).
Proof.
  assert (forall t stamp op p n after, start_push s t stamp op p n after = Some s' ->
    pp_app s' = pp_app s /\ delivered (pp_ring s') = delivered (pp_ring s) /\ s_cons (pp_ring s') = s_cons (pp_ring s)) as Hstart.
  { intros t stamp op p n after Hs. unfold start_push in Hs. cbn [step] in Hs. destruct (s_prod (pp_ring s) !! t); [done|].
    by injection Hs as <-. }
  assert (forall t c, let s' := pipe_allocate s t c in
    pp_app s' = pp_app s /\ delivered (pp_ring s') = delivered (pp_ring s) /\ s_cons (pp_ring s') = s_cons (pp_ring s)) as Hal.
  { intros t c. unfold pipe_allocate. by destruct (direct base (pp_libc s) c). }
  destruct lb as [t stamp c|t stamp|t sp| | |w|lt b|w h|]; cbn [pipe_step]; intros Hs []; try done.
  - destruct (pp_threads s !! t); [done|].
    destruct c as [n|p|a b|p n|old a n|a n|a n|n|n]; cbn [pipe_enter] in Hs;
      repeat match goal with H : (if ?b then _ else _) = Some _ |- _ => destruct b end;
      try (by eapply Hstart); injection Hs as <-; try done; apply Hal.
  - destruct (pp_threads s !! t) as [[[op p n|p|p n]|a after]|]; [| | | |done]; cbn in Hs; [by eapply Hstart| | |].
    + by injection Hs as <-.
    + destruct (lc_realloc (pp_libc s) p n). by injection Hs as <-.
    + destruct (s_prod (pp_ring s) !! t); [done|]. by injection Hs as <-.
  - destruct (s_prod (pp_ring s) !! t) as [pc|] eqn:E; [|done]. cbn [mbind option_bind step] in Hs. rewrite E in Hs. cbn [mbind option_bind] in Hs.
    injection Hs as <-. cbn [pp_app pp_ring]. unfold prod_step. destruct pc; try done; [destruct (ring_full _ _ _); [done|]; by destruct (cas_weak _ _ _ _) as [[? ?] []]|by destruct (Nat.ltb _ _)].
Qed.

Lemma follows_step lb s s' : follows s -> pipe_step lb s = Some s' -> follows s'.
Proof.
  intros Hf Hs. destruct lb as [t stamp c|t stamp|t sp| | |w|lt b|w h|].
  1-3: destruct (thread_step_view _ _ _ Hs I) as (Ea & Ed & Ec); apply (follows_same s); try done; rewrite Ec; apply Hf.
  - cbn [pipe_step] in Hs. destruct (s_cons (pp_ring s)) eqn:Ec; try done. rewrite (asks_quota _ (fo_ready _ Hf)) in Hs.
    destruct (quota (pp_app s)) as [n|] eqn:Eq.
    + cbn [mbind option_bind step] in Hs. rewrite Ec in Hs. injection Hs as <-. apply (follows_same s); try done. cbn.
      rewrite Eq, Z2Nat.id; [done|]. apply quota_pos in Eq. lia.
    + injection Hs as <-. apply (follows_feed s _ []); cbn; rewrite ?app_nil_r, ?Eq; done.
  - cbn [pipe_step step] in Hs. destruct (cons_step (pp_ring s)) as [r|] eqn:E; [|done]. injection Hs as <-. by apply follows_read.
  - apply (follows_use s _ s' Hf Hs). intros Hm. by apply steady_kept, update_steady.
  - apply (follows_use s _ s' Hf Hs). intros _. apply key_kept_live.
  - apply (follows_use s _ s' Hf Hs). intros _. apply steady_kept, resized_steady.
  - apply (follows_use s _ s' Hf Hs). intros _. apply steady_kept, stats_reset_steady.
Qed.

(** ** Invariants of every run *)

(** Nothing has been refused so far. *)
Record unrefused (s0 s : Pipe L) : Prop := {
  un_hooks : hook_reachable base (hooks_of s0) (hooks_of s);
  un_inv : hooks_inv base (hooks_of s);
  un_threads : threads_ok s
}.

Lemma unrefused_always s0 s : hooks_inv base (hooks_of s0) -> threads_ok s0 -> pipe_reachable s0 s ->
  pp_refused s = O -> unrefused s0 s.
Proof.
  intros Hh Hok. induction 1 as [|s lb s' Hr IH Hf Hs]; intros H0; [by split; [constructor| |]|].
  destruct (pipe_step_ring _ _ _ Hs) as [_ Hd].
  assert (pp_refused s = O /\ pp_refused s' = pp_refused s) as [Er Ee] by (destruct Hd as [[? _]|[? _]]; lia).
  destruct (IH Er) as [H1 H2 H3]. destruct (pipe_step_sim s lb s' H2 H3 Hf Hs Ee) as [[E|(hl & Hfl & Hst)] H3'].
  - split; [by rewrite E|by rewrite E|done].
  - assert (hook_reachable base (hooks_of s0) (hooks_of s')) as Hr' by (by eapply hr_step).
    split; [done| |done]. by apply (hooks_always base _ _ Hh).
Qed.

Lemma follows_always s0 s : follows s0 -> pipe_reachable s0 s -> follows s.
Proof. intros H0. induction 1 as [|s lb s' _ IH _ Hs]; [done|]. by eapply follows_step. Qed.

Section Start.
Context (k : Z) (Hk : 0 <= k < 64) (l : L) (Hl : blocks l = ∅) (a0 : App).
Context (Ha : app_ready a0) (Hs0 : staged_ (ap_staging a0) = []) (Hm0 : sp_mode (ap_sampling a0) = false).
Context (Ht0 : tracks 0 (ap_model a0) ∅).
Notation start := (pipe_start l k a0).

Lemma start_hooks : hooks_inv base (hooks_of start) /\ threads_ok start.
Proof.
  assert (hooks_of start = mkConc l [] ∅) as -> by done.
  split; [by apply hooks_start|]. split; cbn; intros *; rewrite ?lookup_empty; done.
Qed.

Lemma start_follows : follows start.
Proof. split; [done|done| |done]. exists []. cbn. unfold staged_rest. by rewrite Hs0, drop_nil. Qed.

(** What the start leaves true for ever. *)
Lemma start_always s : pipe_reachable start s -> Z.of_nat (length (claimed (pp_ring s)) + pp_refused s) < 2 ^ 31 ->
  h_dropped_of s = 0 -> unrefused start s /\ follows s /\ Inv k (pp_ring s).
Proof.
  intros Hr Hn Hd. assert (2 ^ 31 < 2 ^ 64) as H31 by done. destruct start_hooks as [Hh Hok].
  pose proof (pipe_refused start s eq_refl Hr) as Href. rewrite Hd, u64_small in Href by (unfold is_u64; lia).
  split; [apply unrefused_always; try done; lia|]. split; [by apply (follows_always start); [apply start_follows|]|].
  apply reachable_inv; [done|exact (pipe_ring_reachable start s Hr)|lia].
Qed.

(** The events are those taken and those still waiting. *)
Lemma taken_backlog s : follows s -> Inv k (pp_ring s) -> exists taken, pipe_events s = taken ++ backlog s /\
  (Forall event_ok taken -> Z.of_nat (length taken) < 2 ^ 31 -> tracks (length taken) (ap_model (pp_app s)) (heap_of taken)).
Proof.
  intros Hf Hi. destruct (fo_taken _ Hf) as (taken & Hd & Ht). exists taken. split; [|done].
  unfold backlog, pipe_events. rewrite app_assoc, <- Hd. rewrite (inv_delivered k _ Hi) at 1. by rewrite <- fmap_app, take_drop.
Qed.

(** With no thread in a hook the events describe the heap. *)
Lemma quiet_pipe s : unrefused start s -> pp_threads s = ∅ -> heap_of (pipe_events s) = seen (blocks (pp_libc s)).
Proof.
  intros Hu Ht. apply (quiet_heap base (hooks_of s) (un_inv _ _ Hu)). apply map_eq. intros t.
  cbn [hooks_of cc_threads]. by rewrite hooks_threads_lookup, Ht, !lookup_empty.
Qed.

Lemma pipe_events_ok s : unrefused start s -> Forall event_ok (pipe_events s).
Proof. intros Hu. apply (hook_events_ok base _ _ (proj1 start_hooks) (Forall_nil_2 _) (un_hooks _ _ Hu)). Qed.

(** ** A frame, with the threads at rest *)
Lemma cons_step_delivers (r r' : Sys) : cons_step r = Some r' -> s_cons r' <> CIdle -> delivered r' = delivered r.
Proof. unfold cons_step. intros E Hn. repeat case_match; try done; by injection E as <-. Qed.

(** The reads of a drain, and the application fed at their end. *)
Lemma reads_run n : forall s r, run (replicate (S n) LCons) (pp_ring s) = Some r -> s_cons r = CIdle ->
  pipe_steps (replicate (S n) PRead) s =
    Some (set_app (set_sys s r) (feed (pp_app s) (drop (length (delivered (pp_ring s))) (delivered r)))).
Proof.
  induction n as [|n IH]; intros s r Hr Hc.
  - cbn [replicate run pipe_steps pipe_step] in *. destruct (step LCons (pp_ring s)) as [r1|] eqn:E; [|done]. injection Hr as <-.
    cbn [mbind option_bind]. by rewrite Hc.
  - change (replicate (S (S n)) LCons) with (LCons :: replicate (S n) LCons) in Hr.
    change (replicate (S (S n)) PRead) with (PRead :: replicate (S n) PRead).
    cbn [run pipe_steps pipe_step] in *. destruct (step LCons (pp_ring s)) as [r1|] eqn:E; [|done].
    cbn [mbind option_bind] in *. assert (s_cons r1 <> CIdle) as Hn1 by (intros E1; cbn [replicate run step] in Hr; unfold cons_step at 1 in Hr; by rewrite E1 in Hr).
    pose proof (cons_step_delivers _ _ E Hn1) as Ed. set (s1 := set_app (set_sys s r1) _).
    assert (pp_app s1 = pp_app s) as Ea by (unfold s1; cbn; by destruct (s_cons r1)).
    assert (pp_ring s1 = r1) as Er by done. rewrite (IH s1 r) by (by rewrite ?Er). rewrite Ea, Er, Ed. done.
Qed.

(** What a frame leaves of the backlog, [out] being what it got of the ring. *)
Lemma backlog_fed s s' out : follows s -> paused_ (ap_staging (pp_app s)) = false -> pp_app s' = feed (pp_app s) out ->
  claimed (pp_ring s') = claimed (pp_ring s) -> delivered (pp_ring s') = delivered (pp_ring s) ++ out ->
  out = match quota (pp_app s) with
        | Some q => take (Z.to_nat q) (event_of <$> drop (length (delivered (pp_ring s))) (claimed (pp_ring s)))
        | None => [] end ->
  backlog s' = drop (Z.to_nat kMaxEventsPerFrame) (backlog s) /\ paused_ (ap_staging (pp_app s')) = false.
Proof.
  intros Hf Hpa Ea Ec Ed Eo. pose proof (fo_ready _ Hf) as Hr.
  destruct (feed_spec (pp_app s) out Hr) as (_ & Hst & _ & Hpa' & _).
  { rewrite Eo. destruct (quota (pp_app s)) as [q|] eqn:Eq; [|done]. apply quota_pos in Eq. rewrite length_take. lia. }
  rewrite Ea. split; [|congruence]. unfold backlog. rewrite Ea, Hst, Hpa, Ec, Ed.
  rewrite length_app, <- drop_drop, !fmap_drop. rewrite fmap_drop in Eo.
  set (pend := drop (length (delivered (pp_ring s))) (event_of <$> claimed (pp_ring s))) in *.
  set (st := staged_rest (ap_staging (pp_app s))) in *.
  unfold quota in Eo. rewrite Hpa in Eo. fold st in Eo.
  pose proof (Z2Nat.id kMaxEventsPerFrame ltac:(done)) as HK. set (K := Z.to_nat kMaxEventsPerFrame) in *. clearbody K.
  destruct (Z.ltb_spec (Z.of_nat (length st)) kMaxEventsPerFrame) as [Hlt|Hge].
  - replace (Z.to_nat (kMaxEventsPerFrame - Z.of_nat (length st))) with (K - length st)%nat in Eo by lia.
    assert (length out = (K - length st) `min` length pend)%nat as El by (rewrite Eo; apply length_take).
    rewrite drop_ge by (rewrite length_app; lia). rewrite drop_app, (drop_ge st) by lia. cbn [app]. rewrite El.
    destruct (Nat.le_ge_cases (K - length st) (length pend)).
    + by rewrite Nat.min_l.
    + rewrite Nat.min_r, drop_all, drop_ge by lia. done.
  - rewrite Eo, app_nil_r. cbn [length]. rewrite drop_0. by rewrite drop_app_le by lia.
Qed.

(** A frame takes what it may of the backlog, and changes nothing else. *)
Lemma frame_takes s : follows s -> Inv k (pp_ring s) -> Z.of_nat (length (claimed (pp_ring s))) < 2 ^ 64 ->
  s_prod (pp_ring s) = ∅ -> s_cons (pp_ring s) = CIdle -> paused_ (ap_staging (pp_app s)) = false ->
  exists n s', pipe_steps (PFrame :: replicate n PRead) s = Some s' /\
    pp_libc s' = pp_libc s /\ pp_threads s' = pp_threads s /\ pp_refused s' = pp_refused s /\ h_dropped_of s' = h_dropped_of s /\
    claimed (pp_ring s') = claimed (pp_ring s) /\ s_cons (pp_ring s') = CIdle /\
    backlog s' = drop (Z.to_nat kMaxEventsPerFrame) (backlog s) /\ paused_ (ap_staging (pp_app s')) = false.
Proof.
  intros Hf Hi Hbig Hp Hc Hpa. pose proof (fo_ready _ Hf) as Hr. pose proof (backlog_fed s) as Hb.
  cbn [pipe_steps pipe_step]. rewrite Hc, (asks_quota _ Hr). destruct (quota (pp_app s)) as [q|].
  - destruct (drain_alone (pp_ring s) (Z.to_nat q) Hc) as (n & Hn & Hrun). rewrite (drain_quiet k) in Hrun by done.
    cbn [run] in Hrun. destruct (step (LDrain (Z.to_nat q)) (pp_ring s)) as [r1|] eqn:E1; [|done]. cbn [mbind option_bind] in *.
    set (out := event_of <$> _) in Hrun. set (r := drain_end _ _ _) in Hrun.
    destruct n as [|n]; [lia|]. exists (S n). rewrite (reads_run n (set_sys s r1) r Hrun eq_refl).
    assert (delivered r1 = delivered (pp_ring s)) as Ed by (cbn [step] in E1; rewrite Hc in E1; by injection E1 as <-).
    set (s' := set_app _ _). exists s'. split; [reflexivity|].
    assert (pp_app s' = feed (pp_app s) out) as Ea by (unfold s'; cbn; by rewrite Ed, drop_app_length).
    destruct (Hb s' out Hf Hpa Ea eq_refl eq_refl) as [Hback Hpa'].
    { unfold out. rewrite <- length_drop, <- take_take, firstn_all. apply fmap_take. }
    split_and!; try done. unfold h_dropped_of, s', r, drain_end. cbn. by destruct (bool_decide _).
  - exists 0%nat. set (s' := set_app _ _). exists s'. split; [reflexivity|].
    destruct (Hb s' [] Hf Hpa eq_refl eq_refl) as [Hback Hpa']; [by rewrite app_nil_r|done|]. by split_and!.
Qed.

Lemma frame_reachable s n s' s0 : pipe_reachable s0 s -> pipe_steps (PFrame :: replicate n PRead) s = Some s' -> pipe_reachable s0 s'.
Proof.
  assert (forall ls s, pipe_reachable s0 s -> Forall (fun lb => forall s, pipe_fair lb s) ls -> pipe_steps ls s = Some s' -> pipe_reachable s0 s') as Hall.
  { induction ls as [|lb ls IH]; intros s1 Hr Hf Hs; [by injection Hs as <-|]. apply Forall_cons in Hf as [Hf Hfs]. cbn [pipe_steps] in Hs.
    destruct (pipe_step lb s1) as [s2|] eqn:E; [|done]. apply (IH s2); [by eapply pp_step|done|done]. }
  intros Hr. apply Hall; [done|]. constructor; [done|]. by apply Forall_replicate.
Qed.

(** Frames in a row, with the reads each takes. *)
Definition frames (ns : list nat) : list PipeLabel := ns ≫= fun n => PFrame :: replicate n PRead.

Lemma pipe_steps_app ls1 ls2 s s1 : pipe_steps ls1 s = Some s1 -> pipe_steps (ls1 ++ ls2) s = pipe_steps ls2 s1.
Proof.
  revert s. induction ls1 as [|lb ls1 IH]; intros s Hs; cbn [app pipe_steps] in *; [by injection Hs as ->|].
  destruct (pipe_step lb s) as [s2|]; [|done]. cbn [mbind option_bind] in *. by apply IH.
Qed.

(** As many frames as the backlog has ceilings empty it. *)
Lemma frames_catch_up f : forall s, pipe_reachable start s -> Z.of_nat (length (claimed (pp_ring s)) + pp_refused s) < 2 ^ 31 ->
  h_dropped_of s = 0 -> pp_threads s = ∅ -> s_cons (pp_ring s) = CIdle -> paused_ (ap_staging (pp_app s)) = false ->
  Z.of_nat (length (backlog s)) <= Z.of_nat f * kMaxEventsPerFrame ->
  exists ns s', length ns = f /\ pipe_steps (frames ns) s = Some s' /\ pipe_reachable start s' /\
    pp_libc s' = pp_libc s /\ pp_threads s' = ∅ /\ pipe_events s' = pipe_events s /\ pp_refused s' = pp_refused s /\
    h_dropped_of s' = 0 /\ backlog s' = [].
Proof.
  induction f as [|f IH]; intros s Hr Hn Hd Ht Hc Hpa Hb.
  - exists [], s. split_and!; try done. apply length_zero_iff_nil. lia.
  - destruct (start_always s Hr Hn Hd) as (Hu & Hf & Hi). assert (2 ^ 31 < 2 ^ 64) as H31 by done.
    assert (s_prod (pp_ring s) = ∅) as Hp.
    { apply map_eq. intros t. rewrite lookup_empty. apply (to_idle _ (un_threads _ _ Hu)). by rewrite Ht. }
    destruct (frame_takes s Hf Hi ltac:(lia) Hp Hc Hpa) as (n & s1 & Hs1 & El & Eth & Er & Ed & Ec & Hc1 & Eb & Hpa1).
    pose proof (frame_reachable s n s1 _ Hr Hs1) as Hr1. pose proof (Z2Nat.id kMaxEventsPerFrame ltac:(done)) as HK.
    destruct (IH s1 Hr1) as (ns & s' & Hns & Hs' & Hr' & El' & Eth' & Eev' & Er' & Ed' & Eb'); try congruence.
    { rewrite Eb, length_drop. lia. }
    exists (n :: ns), s'. split; [cbn; congruence|]. split.
    { change (frames (n :: ns)) with ((PFrame :: replicate n PRead) ++ frames ns). by rewrite (pipe_steps_app _ _ _ s1). }
    split; [exact Hr'|]. split; [congruence|]. split; [exact Eth'|]. split; [|split; [congruence|by split]].
    rewrite Eev'. unfold pipe_events. by rewrite Ec.
Qed.
End Start.

(** ** What the application shows *)

(** The live set, its size and its bytes. *)
Definition shows (m : Model) (h : gmap Z Z) : Prop :=
  live_of (md_table m) = h /\ md_live m = Z.of_nat (size h) /\ md_live_bytes m = total h.

Section Shows.
Context (k : Z) (Hk : 0 <= k < 64) (l : L) (Hl : blocks l = ∅) (ss : RingSession) (Hss : attached ss = true).
Context (caps : Capabilities) (theme : Theme) (anim : bool) (now_ns : Z).
Notation app0 := (new_app (mkBatch ss [] None) caps theme anim now_ns).
Notation start := (pipe_start l k app0).

Lemma new_app_ready : app_ready app0 /\ staged_ (ap_staging app0) = [] /\ sp_mode (ap_sampling app0) = false.
Proof.
  unfold new_app. cbn [src_attached batch_source bt_session]. rewrite Hss. split; [|done]. by split.
Qed.

Lemma taken_shown s : pipe_reachable start s -> Z.of_nat (length (claimed (pp_ring s)) + pp_refused s) < 2 ^ 31 ->
  h_dropped_of s = 0 -> unrefused start s /\ exists taken, pipe_events s = taken ++ backlog s /\
    shows (ap_model (pp_app s)) (heap_of taken) /\
    (pp_threads s = ∅ -> backlog s = [] -> heap_of taken = seen (blocks (pp_libc s))).
Proof.
  intros Hr Hn Hd. destruct new_app_ready as (Ha & Hs0 & Hm).
  pose proof (new_app_tracks (mkBatch ss [] None) caps theme anim now_ns) as Ht0.
  destruct (start_always k Hk l Hl app0 Ha Hs0 Hm Ht0 s Hr Hn Hd) as (Hu & Hf & Hi). split; [exact Hu|].
  destruct (taken_backlog k s Hf Hi) as (taken & Ht & Htr). exists taken. split; [exact Ht|].
  pose proof (pipe_events_ok _ _ Hl _ _ Hu) as Hok. rewrite Ht in Hok. apply Forall_app in Hok as [Hok _].
  split.
  - destruct (Htr Hok) as []; [|done]. apply (f_equal length) in Ht. unfold pipe_events in Ht.
    rewrite length_fmap, length_app in Ht. lia.
  - intros Hq Hb. rewrite Hb, app_nil_r in Ht. rewrite <- Ht. by eapply quiet_pipe.
Qed.
End Shows.

(** C2: The pipeline end to end.  Let threads of a correct target, any number of
    them, run their hooks in any interleaving, each push cut at its accesses of
    the ring, while the application drains the ring access by access and between
    drains is paused and resumed, updated, sent keys and resized at will (outside
    snapshot mode), whatever the system answers.  As long as the ring's drop
    counter reads zero (and fewer than 2^31 pushes were made) the slots claimed so
    far, in order, are a history of the heap; what the application shows is
    exactly the heap a prefix of them describes, the rest being what it has staged
    and what the ring still holds; and with no thread inside a hook and nothing
    left over, it shows the allocator's blocks with their usable sizes. *)
Theorem pipeline_shows_heap k l ss caps theme anim now_ns s :
  0 <= k < 64 -> blocks l = ∅ -> attached ss = true ->
  pipe_reachable (pipe_start l k (new_app (mkBatch ss [] None) caps theme anim now_ns)) s ->
  Z.of_nat (length (claimed (pp_ring s)) + pp_refused s) < 2 ^ 31 -> h_dropped (r_hdr (s_ring (pp_ring s))) = 0 ->
  history ∅ (pipe_events s) /\ heap_of (pipe_events s) ⊆ seen (blocks (pp_libc s)) /\
  exists taken, pipe_events s = taken ++ backlog s /\ shows (ap_model (pp_app s)) (heap_of taken) /\
    (pp_threads s = ∅ -> backlog s = [] -> heap_of taken = seen (blocks (pp_libc s))).
Proof.
  intros Hk Hl Hss Hr Hn Hd. destruct (taken_shown k Hk l Hl ss Hss caps theme anim now_ns s Hr Hn Hd) as [Hu Ht].
  split; [apply (hi_history _ _ (un_inv _ _ Hu))|]. split; [|exact Ht].
  apply (described_part base (hooks_of s) (un_inv _ _ Hu)).
Qed.

(** Frames enough for the backlog. *)
Lemma catch_up k l ss caps theme anim now_ns s f :
  0 <= k < 64 -> blocks l = ∅ -> attached ss = true ->
  pipe_reachable (pipe_start l k (new_app (mkBatch ss [] None) caps theme anim now_ns)) s ->
  Z.of_nat (length (claimed (pp_ring s)) + pp_refused s) < 2 ^ 31 -> h_dropped (r_hdr (s_ring (pp_ring s))) = 0 ->
  pp_threads s = ∅ -> s_cons (pp_ring s) = CIdle -> paused_ (ap_staging (pp_app s)) = false ->
  Z.of_nat (length (backlog s)) <= Z.of_nat f * kMaxEventsPerFrame ->
  exists ns s', length ns = f /\ pipe_steps (frames ns) s = Some s' /\ pp_libc s' = pp_libc s /\
    shows (ap_model (pp_app s')) (seen (blocks (pp_libc s))).
Proof.
  intros Hk Hl Hss Hr Hn Hd Ht Hc Hpa Hb. destruct (new_app_ready ss Hss caps theme anim now_ns) as (Ha & Hs0 & Hm).
  pose proof (new_app_tracks (mkBatch ss [] None) caps theme anim now_ns) as Ht0.
  destruct (frames_catch_up k Hk l Hl _ Ha Hs0 Hm Ht0 f s Hr Hn Hd Ht Hc Hpa Hb)
    as (ns & s' & Hns & Hs' & Hr' & El & Eth & Eev & Er & Ed & Eb).
  exists ns, s'. split; [exact Hns|]. split; [exact Hs'|]. split; [exact El|].
  assert (length (claimed (pp_ring s')) = length (claimed (pp_ring s))) as Ecl
    by (apply (f_equal length) in Eev; unfold pipe_events in Eev; by rewrite !length_fmap in Eev).
  destruct (taken_shown k Hk l Hl ss Hss caps theme anim now_ns s' Hr' ltac:(by rewrite Ecl, Er) Ed) as (_ & taken & _ & Hsh & Hq).
  by rewrite <- El, <- (Hq Eth Eb).
Qed.

(** C3: The display catches up.  Once the threads have left their hooks, and with
    nothing refused, a running application needs only as many frames as the
    backlog has frame ceilings of 32768 events: each frame's drain of the ring
    ends by itself, and after them the application shows the allocator's blocks,
    which no frame touches. *)
Theorem pipeline_catches_up k l ss caps theme anim now_ns s f :
  0 <= k < 64 -> blocks l = ∅ -> attached ss = true ->
  pipe_reachable (pipe_start l k (new_app (mkBatch ss [] None) caps theme anim now_ns)) s ->
  Z.of_nat (length (claimed (pp_ring s)) + pp_refused s) < 2 ^ 31 -> h_dropped (r_hdr (s_ring (pp_ring s))) = 0 ->
  pp_threads s = ∅ -> s_cons (pp_ring s) = CIdle -> paused_ (ap_staging (pp_app s)) = false ->
  Z.of_nat (length (backlog s)) <= Z.of_nat f * kMaxEventsPerFrame ->
  exists ns s', length ns = f /\ pipe_steps (frames ns) s = Some s' /\ pp_libc s' = pp_libc s /\
    shows (ap_model (pp_app s')) (seen (blocks (pp_libc s))).
Proof. apply catch_up. Qed.
End Pipe.

(** ** A run *)

Section Runs.
Context {L : Type} `{!Libc L} (base : Z) `{!Allocator L base}.

#[local] Instance fair_dec (l : L) c : Decision (fair base l c).
Proof. destruct c; cbn; apply _. Defined.
#[local] Instance busy_dec th p : Decision (busy th p).
Proof. change (Decision (map_Exists (fun _ i => busy_with i = p) th)). apply _. Defined.
#[local] Instance pipe_fair_dec lb (s : Pipe L) : Decision (pipe_fair base lb s).
Proof. destruct lb as [t stamp c| | | | | | | |]; cbn; [|apply _..]. destruct c; apply _. Defined.

Fixpoint fair_steps (ls : list PipeLabel) (s : Pipe L) : option (Pipe L) :=
  match ls with
  | [] => Some s
  | lb :: ls => if decide (pipe_fair base lb s) then s' ← pipe_step base lb s; fair_steps ls s' else None
  end.
Lemma fair_steps_reachable s0 ls : forall s s', pipe_reachable base s0 s -> fair_steps ls s = Some s' -> pipe_reachable base s0 s'.
Proof.
  induction ls as [|lb ls IH]; intros s s' Hr Hs; cbn [fair_steps] in Hs; [by injection Hs as <-|].
  destruct (decide _); [|done]. destruct (pipe_step base lb s) as [s1|] eqn:E; [|done]. by apply (IH s1); [eapply pp_step|].
Qed.
End Runs.

(** Two threads whose pushes overlap, the second overtaking the first; the
    application drains in between, is paused and resumed, resized and updated
    after the target is gone; one block's release is reported. *)
Definition demo_pipe_labels : list PipeLabel :=
  [PEnter 1 (5, 1) (CMalloc 100); PEnter 2 (6, 2) (CMalloc 40); PGo 1 (7, 1); PGo 2 (8, 2); PPush 1 false]
  ++ replicate 9 (PPush 2 false) ++ [PGo 2 (0, 0); PFrame; PRead; PPush 1 false; PRead; PRead; PRead; PRead]
  ++ replicate 9 (PPush 1 false) ++ [PKey None 32; PPush 1 false; PFrame; PGo 1 (0, 0); PRead; PRead]
  ++ [PEnter 2 (9, 2) (CFree (kFloor + 116))] ++ replicate 3 PRead ++ replicate 9 (PPush 2 false) ++ [PGo 2 (0, 0); PKey None 32; PResized 80 24; PUpdate gone_world; PReset].
Definition demo_session : RingSession := mkSession (Some (fresh_ring 3)) 4096 42 0 0 [].
Definition demo_start : Pipe Bump :=
  pipe_start empty_bump 3 (new_app (mkBatch demo_session [] None) (mkCaps TrueColor true) dark_theme true 0).

(** What can be read off a state: claims, backlog, refusals, the drop counter, and
    whether threads, consumer and application are at rest. *)
Definition glance (s : Pipe Bump) : nat * nat * nat * Z * (bool * bool * bool) :=
  (length (claimed (pp_ring s)), length (backlog s), pp_refused s, h_dropped (r_hdr (s_ring (pp_ring s))),
   (bool_decide (pp_threads s = ∅), match s_cons (pp_ring s) with CIdle => true | _ => false end, negb (paused_ (ap_staging (pp_app s))))).

Lemma pipeline_shows_heap_witness :
  exists s, fair_steps kArena demo_pipe_labels demo_start = Some s /\ length (pipe_events s) = 3%nat /\ length (backlog s) = 2%nat /\
    history ∅ (pipe_events s) /\ exists taken, pipe_events s = taken ++ backlog s /\ shows (ap_model (pp_app s)) (heap_of taken).
Proof.
  assert (glance <$> fair_steps kArena demo_pipe_labels demo_start = Some (3, 2, 0, 0%Z, (false, true, true))%nat) as F
    by (vm_compute; reflexivity).
  destruct (fair_steps kArena demo_pipe_labels demo_start) as [s|] eqn:E; [|discriminate F].
  injection F as F1 F2 F3 F4 _ _ _. exists s. split; [reflexivity|].
  split; [unfold pipe_events; rewrite length_fmap; exact F1|]. split; [exact F2|].
  assert (0 <= 3 < 64) as Hk by lia. assert (blocks empty_bump = ∅) as Hb by (vm_compute; reflexivity).
  assert (Z.of_nat (length (claimed (pp_ring s)) + pp_refused s) < 2 ^ 31) as Hn by (rewrite F1, F3; reflexivity).
  destruct (pipeline_shows_heap kArena 3 empty_bump demo_session (mkCaps TrueColor true) dark_theme true 0 s Hk Hb eq_refl
    (fair_steps_reachable kArena demo_start _ _ _ (pp_start _ _) E) Hn F4) as (H1 & _ & taken & H2 & H3 & _).
  split; [exact H1|]. exists taken. split; [exact H2|exact H3].
Defined.

Lemma pipeline_catches_up_witness :
  exists s ns s', fair_steps kArena (demo_pipe_labels ++ [PGo 2 (0, 0)]) demo_start = Some s /\
    pipe_steps kArena (frames ns) s = Some s' /\ length ns = 1%nat /\
    shows (ap_model (pp_app s')) (seen (blocks (pp_libc s))).
Proof.
  assert (glance <$> fair_steps kArena (demo_pipe_labels ++ [PGo 2 (0, 0)]) demo_start = Some (3, 2, 0, 0%Z, (true, true, true))%nat) as F
    by (vm_compute; reflexivity).
  destruct (fair_steps kArena (demo_pipe_labels ++ [PGo 2 (0, 0)]) demo_start) as [s|] eqn:E; [|discriminate F].
  injection F as F1 F2 F3 F4 Ft Fc Fp. exists s.
  assert (pp_threads s = ∅) as Ht by (apply (bool_decide_eq_true_1 _ Ft)).
  assert (s_cons (pp_ring s) = CIdle) as Hc by (by destruct (s_cons (pp_ring s))).
  assert (paused_ (ap_staging (pp_app s)) = false) as Hp by (by destruct (paused_ (ap_staging (pp_app s)))).
  assert (0 <= 3 < 64) as Hk by lia. assert (blocks empty_bump = ∅) as Hb by (vm_compute; reflexivity).
  assert (Z.of_nat (length (claimed (pp_ring s)) + pp_refused s) < 2 ^ 31) as Hn by (rewrite F1, F3; reflexivity).
  assert (Z.of_nat (length (backlog s)) <= Z.of_nat 1 * kMaxEventsPerFrame) as Hl by (rewrite F2; discriminate).
  destruct (pipeline_catches_up kArena 3 empty_bump demo_session (mkCaps TrueColor true) dark_theme true 0 s 1 Hk Hb eq_refl
    (fair_steps_reachable kArena demo_start _ _ _ (pp_start _ _) E) Hn F4 Ht Hc Hp Hl) as (ns & s' & H1 & H2 & _ & H3).
  exists ns, s'. split; [reflexivity|]. split; [exact H2|]. split; [exact H1|exact H3].
Defined.
