(* ===== verification/Launch.v ===== *)
(** * Launching a target (src/src/tui/session.cpp: launch_target,
      exec_instrumented_target)

    The environment a target is given, its descriptors, the log its output goes
    to, and the pipe a failed exec reports through.  The parent's descriptors and
    the files on disk are state; the system calls enter as what they answer, and
    [setenv] is taken to succeed. *)

From Stdlib Require Import String.
From S2P Require Import Prelude Session.

Inductive LaunchStatus := LsOk | LsNoPreload | LsIoFailed | LsForkFailed | LsExecFailed.
#[export] Instance LaunchStatus_eq_dec : EqDecision LaunchStatus.
Proof. solve_decision. Defined.
Definition launch_status_str (s : LaunchStatus) : list Z :=
  match s with
  | LsOk => str "launched"
  | LsNoPreload => str "could not find libheapviz.so to inject"
  | LsIoFailed => str "could not isolate target input/output"
  | LsForkFailed => str "could not fork"
  | LsExecFailed => str "could not run the command"
  end.
Inductive TargetIo := Inherit | Isolate.

Record Launch := mkLaunch { ln_status : LaunchStatus; ln_pid : Z; ln_err : Z; ln_output : list Z; ln_argv0 : list Z }.
Definition EINVAL : Z := 22.

Inductive Fd := FdLog | FdNull | FdPipeRead | FdPipeWrite.
Definition fd_eqb (f g : Fd) : bool :=
  match f, g with
  | FdLog, FdLog | FdNull, FdNull | FdPipeRead, FdPipeRead | FdPipeWrite, FdPipeWrite => true
  | _, _ => false
  end.

(** What this process has open, and the files it has made. *)
Record Parent := mkParent { pa_open : list Fd; pa_files : list (list Z) }.
Definition close_fd (p : Parent) (f : Fd) : Parent :=
  mkParent (List.filter (fun g => negb (fd_eqb g f)) (pa_open p)) (pa_files p).
Definition open_fd (p : Parent) (f : Fd) : Parent := mkParent (f :: pa_open p) (pa_files p).
Definition unlink_file (p : Parent) (name : list Z) : Parent :=
  mkParent (pa_open p) (List.filter (fun n => negb (bool_decide (n = name))) (pa_files p)).

(** The system's answers: [None] is success where only an error matters. *)
Record LaunchSys := mkLaunchSys {
  sy_ld_preload : option (list Z);
  sy_wait_ms : option (list Z);
  sy_mkstemp : list Z + Z;
  sy_null : option Z;
  sy_pipe : option Z;
  sy_fork : Z + Z;
  sy_dup : option Z;
  sy_exec : option Z;
  sy_rename : bool;
  sy_read : bool                    (* the report, if there is one, arrives whole *)
}.

(** What the child became: the target with this environment and, when isolated,
    its descriptors elsewhere; or a report. *)
Record ChildEnv := mkChildEnv { ce_preload : list Z; ce_wait : option (list Z); ce_isolated : bool }.
Inductive Child := NoChild | Target (env : ChildEnv) | Reports (errno : Z).

(** A user's own LD_PRELOAD is appended, not replaced. *)
Definition preload_value (preload : list Z) (existing : option (list Z)) : list Z :=
  match existing with Some ((_ :: _) as e) => preload ++ [58] ++ e | _ => preload end.
Definition dec_signed (v : Z) : list Z := if v <? 0 then 45 :: dec (- v) else dec v.
Definition wait_value (wait_ms : Z) (existing : option (list Z)) : option (list Z) :=
  if (0 <? wait_ms) && negb (is_some existing) then Some (snprintf 16 (dec_signed wait_ms)).1 else existing.

Definition child_run (s : LaunchSys) (preload : list Z) (wait_ms : Z) (io : TargetIo) : Child :=
  match match io with Isolate => sy_dup s | Inherit => None end with
  | Some e => Reports e
  | None =>
      match sy_exec s with
      | Some e => Reports e
      | None => Target (mkChildEnv (preload_value preload (sy_ld_preload s)) (wait_value wait_ms (sy_wait_ms s))
                          match io with Isolate => true | Inherit => false end)
      end
  end.

Definition log_name (child : Z) : list Z := (snprintf 96 (str "/tmp/heapviz-target-" ++ dec_signed child ++ str ".log")).1.

(** The log and the null device, when the target is isolated. *)
Definition open_io (s : LaunchSys) (io : TargetIo) (argv0 : list Z) (p : Parent) : Parent * Launch + Parent * list Z :=
  match io with
  | Inherit => inr (p, [])
  | Isolate =>
      match sy_mkstemp s with
      | inr e => inl (p, mkLaunch LsIoFailed (-1) e [] argv0)
      | inl log =>
          let p := open_fd (mkParent (pa_open p) (log :: pa_files p)) FdLog in
          match sy_null s with
          | Some e => inl (unlink_file (close_fd p FdLog) log, mkLaunch LsIoFailed (-1) e [] argv0)
          | None => inr (open_fd p FdNull, log)
          end
      end
  end.

(** [if (target_log >= 0) { close; unlink; } if (target_input >= 0) close;] *)
Definition drop_io (io : TargetIo) (log : list Z) (p : Parent) : Parent :=
  match io with Inherit => p | Isolate => close_fd (unlink_file (close_fd p FdLog) log) FdNull end.
Definition close_io (io : TargetIo) (p : Parent) : Parent :=
  match io with Inherit => p | Isolate => close_fd (close_fd p FdNull) FdLog end.
Definition rename_log (s : LaunchSys) (io : TargetIo) (child : Z) (log : list Z) (p : Parent) : Parent * list Z :=
  match io with
  | Inherit => (p, log)
  | Isolate =>
      if sy_rename s
      then (mkParent (pa_open p) (log_name child :: pa_files (unlink_file p log)), log_name child) else (p, log)
  end.

Definition launch_target (s : LaunchSys) (argv : list (list Z)) (preload : list Z) (wait_ms : Z) (io : TargetIo) (p : Parent)
    : Parent * Launch * Child :=
  match argv, preload with
  | [], _ | _, [] => (p, mkLaunch LsNoPreload (-1) 0 [] [], NoChild)
  | argv0 :: _, _ =>
      match open_io s io argv0 p with
      | inl (p, l) => (p, l, NoChild)
      | inr (p, log) =>
          match sy_pipe s with
          | Some e => (drop_io io log p, mkLaunch LsForkFailed (-1) e log argv0, NoChild)
          | None =>
              let p := open_fd (open_fd p FdPipeRead) FdPipeWrite in
              match sy_fork s with
              | inr e =>
                  (drop_io io log (close_fd (close_fd p FdPipeRead) FdPipeWrite), mkLaunch LsForkFailed (-1) e log argv0, NoChild)
              | inl child =>
                  let c := child_run s preload wait_ms io in
                  let p := close_io io (close_fd p FdPipeWrite) in
                  let '(p, log) := rename_log s io child log p in
                  let p := close_fd p FdPipeRead in
                  match c, sy_read s with
                  | Reports e, true =>
                      let p := match log with [] => p | _ => unlink_file p log end in
                      (p, mkLaunch LsExecFailed (-1) e [] argv0, c)
                  | _, _ => (p, mkLaunch LsOk child 0 log argv0, c)
                  end
              end
          end
      end
  end.

(** The process becomes the target, or the error number. *)
Definition exec_instrumented_target (s : LaunchSys) (argv : list (list Z)) (preload : list Z) (wait_ms : Z) : Child * Z :=
  match argv, preload with
  | [], _ | _, [] => (NoChild, EINVAL)
  | _, _ =>
      match sy_exec s with
      | Some e => (NoChild, e)
      | None => (Target (mkChildEnv (preload_value preload (sy_ld_preload s)) (wait_value wait_ms (sy_wait_ms s)) false), 0)
      end
  end.

(** ** What a launch leaves behind *)

(** No file of this process's own is left, or only the target's log. *)
Definition clean_start : Parent := mkParent [] [].

(** What a target's environment promises: the interceptor first, the user's own
    preload behind it; the wait the user had set, or else ours in decimal. *)
Definition fair_env (s : LaunchSys) (preload : list Z) (wait_ms : Z) (io : TargetIo) (env : ChildEnv) : Prop :=
  ce_isolated env = (match io with Isolate => true | Inherit => false end) /\
  ce_preload env = preload ++ (match sy_ld_preload s with Some (c :: mine) => 58 :: c :: mine | _ => [] end) /\
  (forall w, sy_wait_ms s = Some w -> ce_wait env = Some w) /\
  (sy_wait_ms s = None -> 0 < wait_ms -> ce_wait env = Some (dec wait_ms)) /\
  (sy_wait_ms s = None -> wait_ms <= 0 -> ce_wait env = None).

Lemma wait_text wait_ms : 0 < wait_ms < 2 ^ 31 -> (snprintf 16 (dec_signed wait_ms)).1 = dec wait_ms.
Proof.
  intros Hw. unfold snprintf, dec_signed. destruct (Z.ltb_spec wait_ms 0); [lia|]. cbn [fst].
  pose proof (dec_length wait_ms 10 ltac:(lia)) as Hl. apply take_ge.
  change (10 ^ Z.of_nat 10) with 10000000000 in Hl. change (2 ^ 31) with 2147483648 in Hw.
  change (Z.to_nat (16 - 1)) with 15%nat. lia.
Qed.

Lemma child_env s preload wait_ms io env : wait_ms < 2 ^ 31 ->
  child_run s preload wait_ms io = Target env -> fair_env s preload wait_ms io env.
Proof.
  intros Hw. unfold child_run. destruct (match io with Isolate => sy_dup s | Inherit => None end); [done|].
  destruct (sy_exec s); [done|]. intros [= <-]. unfold fair_env. cbn. split; [by destruct io|]. split; [|split; [|split]].
  - unfold preload_value. destruct (sy_ld_preload s) as [[|m mine]|]; by rewrite ?app_nil_r.
  - intros w ->. unfold wait_value. by rewrite andb_false_r.
  - intros -> Hp. unfold wait_value. destruct (Z.ltb_spec 0 wait_ms); [|lia]. cbn [is_some negb andb].
    by rewrite wait_text.
  - intros -> Hp. unfold wait_value. by destruct (Z.ltb_spec 0 wait_ms); [lia|].
Qed.
Lemma child_runs s preload wait_ms io : child_run s preload wait_ms io <> NoChild.
Proof. unfold child_run. repeat case_match; done. Qed.

(** The steps of a launch in order: the status its failure has and the error, if
    it fails.  What the child runs into is known only if its report arrives. *)
Definition launch_steps (s : LaunchSys) (io : TargetIo) : list (LaunchStatus * option Z) :=
  (match io with
   | Isolate => [(LsIoFailed, match sy_mkstemp s with inr e => Some e | inl _ => None end); (LsIoFailed, sy_null s)]
   | Inherit => []
   end)
  ++ [(LsForkFailed, sy_pipe s); (LsForkFailed, match sy_fork s with inr e => Some e | inl _ => None end)]
  ++ (if sy_read s
      then (match io with Isolate => [(LsExecFailed, sy_dup s)] | Inherit => [] end) ++ [(LsExecFailed, sy_exec s)]
      else []).
Fixpoint first_failure (steps : list (LaunchStatus * option Z)) : option (LaunchStatus * Z) :=
  match steps with
  | [] => None
  | (st, Some e) :: _ => Some (st, e)
  | (_, None) :: steps => first_failure steps
  end.
(** Why a launch fails, if it does. *)
Definition launch_failure (s : LaunchSys) (argv : list (list Z)) (preload : list Z) (io : TargetIo) : option (LaunchStatus * Z) :=
  match argv, preload with
  | [], _ | _, [] => Some (LsNoPreload, 0)
  | _, _ => first_failure (launch_steps s io)
  end.

(** What a launch leaves, from why it failed, or after it succeeded. *)
Definition leaves (s : LaunchSys) (preload : list Z) (wait_ms : Z) (io : TargetIo) (failure : option (LaunchStatus * Z))
    (r : Parent * Launch * Child) : Prop :=
  let '(p, l, c) := r in
  pa_open p = [] /\
  match failure with
  | Some (st, e) =>
      ln_status l = st /\ ln_err l = e /\ ln_pid l = -1 /\ pa_files p = [] /\ forall env, c <> Target env
  | None =>
      ln_status l = LsOk /\ ln_err l = 0 /\ sy_fork s = inl (ln_pid l) /\
      pa_files p = (match io with Isolate => [ln_output l] | Inherit => [] end) /\
      ((exists env, c = Target env /\ fair_env s preload wait_ms io env) \/ (sy_read s = false /\ exists e, c = Reports e))
  end.

Lemma log_named child : log_name child <> [].
Proof. unfold log_name, snprintf. cbn [fst]. by change (Z.to_nat (96 - 1)) with 95%nat. Qed.

Lemma unlink_only f name : pa_files (unlink_file (mkParent f [name]) name) = [].
Proof. cbn. by rewrite bool_decide_true. Qed.

(** How the child's steps end. *)
Lemma child_failure s preload wait_ms io : sy_read s = true ->
  first_failure ((match io with Isolate => [(LsExecFailed, sy_dup s)] | Inherit => [] end) ++ [(LsExecFailed, sy_exec s)]) =
  match child_run s preload wait_ms io with Reports e => Some (LsExecFailed, e) | _ => None end.
Proof. intros _. unfold child_run. destruct io; cbn; [by destruct (sy_exec s)|]. destruct (sy_dup s); [done|]. by destruct (sy_exec s). Qed.

(** The parent's side after the fork, with its descriptors closed but the pipe's. *)
Lemma launch_ends s preload wait_ms io child argv0 log files failure : sy_fork s = inl child -> wait_ms < 2 ^ 31 ->
  files = (match io with Isolate => [log] | Inherit => [] end) -> (io = Isolate -> log <> []) ->
  failure = first_failure (if sy_read s
    then (match io with Isolate => [(LsExecFailed, sy_dup s)] | Inherit => [] end) ++ [(LsExecFailed, sy_exec s)] else []) ->
  leaves s preload wait_ms io failure
    (match child_run s preload wait_ms io, sy_read s with
     | Reports e, true => (match log with [] => mkParent [] files | _ => unlink_file (mkParent [] files) log end,
                           mkLaunch LsExecFailed (-1) e [] argv0, child_run s preload wait_ms io)
     | _, _ => (mkParent [] files, mkLaunch LsOk child 0 log argv0, child_run s preload wait_ms io)
     end).
Proof.
  intros Hf Hw -> Hlog ->. pose proof (child_runs s preload wait_ms io) as Hno.
  pose proof (fun env => child_env s preload wait_ms io env Hw) as Henv.
  pose proof (child_failure s preload wait_ms io) as Hwhy.
  destruct (sy_read s) eqn:Er; [rewrite Hwhy by done|]; destruct (child_run s preload wait_ms io) as [|env|e]; try done.
  - split; [done|]. repeat (split; [done|]). left. exists env. split; [done|]. by apply Henv.
  - split; [by destruct log|]. repeat (split; [done|]). split; [|done]. destruct io; [by destruct log|].
    destruct log; [by destruct (Hlog eq_refl)|]. apply unlink_only.
  - split; [done|]. repeat (split; [done|]). left. exists env. split; [done|]. by apply Henv.
  - split; [done|]. repeat (split; [done|]). right. split; [exact Er|]. by exists e.
Qed.

(** C37: A launch leaves nothing behind.  The first of its steps that fails, in
    the order no command or library, log, null device, pipe, fork, and, if the
    child's report arrives, descriptors and exec, gives the caller that step's
    status and error number, and then every descriptor the launch opened is
    closed again, no log file stays on disk and no process id is told.  When
    none fails, the descriptors are closed too, the process id is the child's
    and its output is in the one file named in the result (none when it
    inherits); the target's LD_PRELOAD is the interceptor followed by the
    user's own; its HEAPVIZ_WAIT_MS is the one the user had set, else the wait
    asked for when that is positive.  Only a report that does not arrive whole
    leaves the caller with a process that is not the target. *)
Theorem launch_leaves_nothing s argv preload wait_ms io :
  (forall log, sy_mkstemp s = inl log -> log <> []) -> wait_ms < 2 ^ 31 ->
  leaves s preload wait_ms io (launch_failure s argv preload io) (launch_target s argv preload wait_ms io clean_start).
Proof.
  intros Hlog Hw. unfold launch_target, launch_failure. destruct argv as [|argv0 argv]; [done|]. destruct preload as [|c0 preload]; [done|].
  set (lib := c0 :: preload). clearbody lib. unfold launch_steps. destruct io; cbn [open_io app first_failure].
  - destruct (sy_pipe s); [done|]. destruct (sy_fork s) as [child|e] eqn:Ef; [|done].
    by apply (launch_ends s lib wait_ms Inherit child argv0 [] [] _ Ef).
  - destruct (sy_mkstemp s) as [log|e] eqn:Em; [|done]. specialize (Hlog log eq_refl).
    destruct (sy_null s); [by repeat split; try apply unlink_only|].
    destruct (sy_pipe s); [by repeat split; try apply (unlink_only [])|].
    destruct (sy_fork s) as [child|e] eqn:Ef; [|by repeat split; try apply (unlink_only [])].
    cbn [rename_log]. pose proof (log_named child) as Hname. set (name := log_name child) in *. clearbody name.
    destruct (sy_rename s).
    + cbn. rewrite bool_decide_true by done. cbn.
      by apply (launch_ends s lib wait_ms Isolate child argv0 name [name] _ Ef).
    + by apply (launch_ends s lib wait_ms Isolate child argv0 log [log] _ Ef).
Qed.

Definition demo_launch (exec : option Z) : LaunchSys :=
  mkLaunchSys (Some [97; 46; 115; 111]) None (inl (str "/tmp/heapviz-target-aB3dEf")) None None (inl 77) None exec true true.
Lemma launch_leaves_nothing_witness :
  let failed := launch_target (demo_launch (Some 2)) [[120]] [108] 3000 Isolate clean_start in
  let ran := launch_target (demo_launch None) [[120]] [108] 3000 Isolate clean_start in
  (pa_files failed.1.1 = [] /\ ln_status failed.1.2 = LsExecFailed /\ ln_err failed.1.2 = 2) /\
  (pa_files ran.1.1 = [ln_output ran.1.2] /\
   exists env, ran.2 = Target env /\ ce_wait env = Some (str "3000") /\ ce_preload env = str "l:a.so").
Proof.
  assert (forall e log, sy_mkstemp (demo_launch e) = inl log -> log <> []) as Hl by (intros e log E; injection E as <-; discriminate).
  pose proof (launch_leaves_nothing (demo_launch (Some 2)) [[120]] [108] 3000 Isolate (Hl _) ltac:(done)) as H1.
  pose proof (launch_leaves_nothing (demo_launch None) [[120]] [108] 3000 Isolate (Hl _) ltac:(done)) as H2.
  cbv zeta. destruct (launch_target (demo_launch (Some 2)) _ _ _ _ _) as [[p1 l1] c1].
  destruct (launch_target (demo_launch None) _ _ _ _ _) as [[p2 l2] c2].
  destruct H1 as (_ & E1 & E2 & _ & E3 & _). destruct H2 as (_ & _ & _ & _ & E4 & E5). split; [by split|].
  split; [done|]. destruct E5 as [(env & -> & _ & Hp & _ & Hwait & _)|[E _]]; [|discriminate E].
  exists env. split; [done|]. split; [rewrite (Hwait eq_refl ltac:(done)); reflexivity|rewrite Hp; reflexivity].
Defined.
