(* ===== verification/Report.v ===== *)
(** * What the program prints outside its screen

    From main.cpp the version, the usage and the report of [--cleanup]; from
    capabilities.cpp the refusal of a terminal that is too small. *)

From Stdlib Require Import String.
From S2P Require Import Prelude Abi ShmCleanup Capabilities Renderer HeapDraw Printf.

Definition text_lines (l : list String.string) : list Z := concat ((fun s => str s ++ [10]) <$> l).

Definition kVersion : list Z := str "0.1.0-dev".
Definition version_text : list Z :=
  str "heapviz " ++ kVersion ++ str " (ABI v" ++ dec HEAPVIZ_ABI_VERSION ++ str ", " ++ dec sizeof_HvEvent ++
  str "-byte events, " ++ dec sizeof_HvRingHeader ++ str "-byte ring header)" ++ [10].

Definition usage_text : list Z := text_lines
  ["heapviz - live heap allocation visualiser";
   "";
   "usage:";
   "  heapviz <cmd> [args...]      launch and instrument a program";
   "  heapviz <pid>                attach to an instrumented target";
   "  heapviz -- <cmd> [args...]   launch when the command starts with '-'";
   "  heapviz --pid <pid>          explicit attach form";
   "  heapviz --instrument <cmd>   run an interactive target for attachment";
   "  heapviz --version            print version and ABI details";
   "  heapviz --help               this message";
   "";
   "  heapviz --cleanup            remove rings left by killed targets";
   "";
   "options:";
   "  --no-unicode                 ASCII glyphs, for terminals whose font";
   "                               has no block-drawing characters";
   "  --theme dark|light           select the semantic colour theme";
   "  --no-animation               disable allocation/free pulse animation";
   "";
   "development aids:";
   "  heapviz --term-check         run the terminal engine on a test frame";
   "  heapviz --term-check --debug-timing";
   "                               ...with the per-phase frame budget shown";
   "";
   "Colour depth is detected from COLORTERM and TERM. To see a fallback,";
   "run e.g. `COLORTERM= TERM=linux heapviz --term-check`.";
   "";
   "A program that allocates from several threads has its memory spread";
   "across several arenas; heapviz shows one at a time and says how many";
   "it is not showing (ROADMAP.md M2.4)."]%string.

(** The path of the running binary, from [readlink] into 4095 bytes. *)
Definition this_binary (link : option (list Z)) : list Z :=
  match link with
  | Some path => match take 4095 path with [] => str "heapviz" | p => p end
  | None => str "heapviz"
  end.

(** The terminal that is too small: at most 255 bytes, and the writes that take
    them. *)
Definition too_small_text (w h : Z) : list Z :=
  (snprintf 256 (str "heapviz: terminal is " ++ dec_int w ++ str "x" ++ dec_int h ++ str "; at least " ++
     dec kMinUsableWidth ++ str "x" ++ dec kMinUsableHeight ++ str " is needed." ++ [10] ++
     str "heapviz: resize the window and try again." ++ [10])).1.
Definition report_too_small (answers : list WriteReply) (w h : Z) : list Z :=
  (flush_loop answers (too_small_text w h) []).1.

(** ** The cleanup report *)

(** The file system and the processes as the listing finds them, and as the
    reaping that follows does. *)
Record ShmWorld := mkShmWorld { sw_sys : System; sw_dir : option (list (list Z)) }.

Definition keeping_line (s : StaleSegment) : list Z :=
  str "  keeping " ++ pad_right 28 (seg_name s) ++ str " pid " ++ pad_right 7 (dec_int (seg_pid s)) ++ str " " ++
  pad_left 6 (fixed1 (mib (seg_bytes s))) ++ str " MiB  (still running)" ++ [10].

(** The files left, the number removed and the text. *)
Definition cleanup (listing reaping : ShmWorld) : option (list (list Z)) * Z * list Z :=
  match list_segments (sw_sys listing) (sw_dir listing) with
  | [] => (sw_dir reaping, 0, str "heapviz: no segments found" ++ [10])
  | segments =>
      let live := filter (fun s => seg_owner_alive s = true) segments in
      let '(files, removed, freed) := reap_stale_segments (sw_sys reaping) false (sw_dir reaping) (Some 0) in
      ((fun _ => files) <$> sw_dir reaping, removed,
       concat (keeping_line <$> live) ++
       str "heapviz: removed " ++ dec_int removed ++ str " stale segment" ++ (if removed =? 1 then [] else str "s") ++
       str " (" ++ fixed1 (mib (default 0 freed)) ++ str " MiB), kept " ++ dec_int (Z.of_nat (List.length live)) ++
       str " live" ++ [10])
  end.

(** Nothing is lost track of: when the directory did not change in between,
    the segments kept because their producer runs and those removed are distinct
    files, and every other one is a stale segment that could not be unlinked. *)
Lemma cleanup_accounts sys names :
  let segments := list_segments sys (Some names) in
  let '(_, removed, _) := reap_stale_segments sys false (Some names) (Some 0) in
  Z.of_nat (List.length (filter (fun s => seg_owner_alive s = true) segments)) + removed +
  Z.of_nat (List.length (filter (fun s => seg_owner_alive s = false /\ sys_unlink sys (seg_name s) = false) segments))
  = Z.of_nat (List.length segments).
Proof.
  cbv zeta. unfold reap_stale_segments. cbn [default from_option].
  enough (forall segs files r freed,
    Z.of_nat (List.length (filter (fun s => seg_owner_alive s = true) segs)) +
    (foldl (reap_step sys false) (files, r, freed) segs).1.2 +
    Z.of_nat (List.length (filter (fun s => seg_owner_alive s = false /\ sys_unlink sys (seg_name s) = false) segs))
    = Z.of_nat (List.length segs) + r) as H.
  { specialize (H (list_segments sys (Some names)) names 0 0). destruct (foldl _ _ _) as [[files removed] freed]. cbn [fst snd] in H. lia. }
  induction segs as [|s segs IH]; intros files r freed; [cbn; lia|]. cbn [foldl]. unfold reap_step at 2.
  rewrite !filter_cons. destruct (seg_owner_alive s) eqn:Ea; destruct (sys_unlink sys (seg_name s)) eqn:Eu;
    repeat case_decide; try (exfalso; intuition congruence); cbn [List.length];
    match goal with |- context [foldl _ (?x, ?y, ?z) segs] => specialize (IH x y z) end; lia.
Qed.

(** The refusal fits its buffer whatever the size reported, so it is complete. *)
Lemma too_small_complete w h : - 2 ^ 31 <= w < 2 ^ 31 -> - 2 ^ 31 <= h < 2 ^ 31 ->
  exists head, too_small_text w h = head ++ str "heapviz: resize the window and try again." ++ [10].
Proof.
  intros Hw Hh. unfold too_small_text, snprintf. cbn [fst].
  assert (forall v, - 2 ^ 31 <= v < 2 ^ 31 -> (List.length (dec_int v) <= 11)%nat) as Hd.
  { intros v Hv. unfold dec_int. destruct (Z.ltb_spec v 0).
    - pose proof (dec_length (- v) 10 ltac:(lia) ltac:(lia)). cbn [List.length]. lia.
    - pose proof (dec_length v 10 ltac:(lia) ltac:(lia)). lia. }
  specialize (Hd w Hw) as Hdw. specialize (Hd h Hh) as Hdh. change (Z.to_nat (256 - 1)) with 255%nat.
  rewrite take_ge; [|rewrite !length_app; str_lengths; pose proof (dec_length kMinUsableWidth 3 ltac:(lia) ltac:(done)); pose proof (dec_length kMinUsableHeight 3 ltac:(lia) ltac:(done)); cbn [List.length]; lia].
  exists (str "heapviz: terminal is " ++ dec_int w ++ str "x" ++ dec_int h ++ str "; at least " ++
    dec kMinUsableWidth ++ str "x" ++ dec kMinUsableHeight ++ str " is needed." ++ [10]).
  by rewrite <- !app_assoc.
Qed.

(** Every long option the parser knows is in the usage. *)
Example usage_lists_options :
  Forall (fun o => occurs usage_text (str o) = true)
    ["--version"; "--help"; "--cleanup"; "--no-unicode"; "--theme"; "--no-animation"; "--term-check";
     "--debug-timing"; "--pid"; "--instrument"; "heapviz -- "]%string.
Proof. apply (bool_decide_unpack _). by vm_compute. Qed.
