(* ===== verification/Program.v ===== *)
(** * The program (src/src/tui/main.cpp)

    The command line and the ways in: attaching to a process, launching one,
    running one for a second terminal.  [attach_and_run] is the whole session:
    attach, or fall back to snapshots, set up the application, run the loop, give
    the ring back, report.  What is printed is kept as the call and its
    arguments; the version, the usage, the refusal of a small terminal and the
    cleanup report have their text in [Report]. *)

From Stdlib Require Import String.
From S2P Require Import Prelude Abi Ring ShmCleanup Capabilities Framebuffer Renderer Theme HeapWalker HeatColor.
From S2P Require Import Session Launch HeapApp EventLoop AppLoop Printf Report TermCheck.

Record RunOptions := mkOptions { op_timing : bool; op_force_ascii : bool; op_animations : bool; op_theme : ThemeKind }.
Definition default_options : RunOptions := mkOptions false false true DarkTheme.

(** ** The command line *)

Inductive Action := ActNone | ActVersion | ActHelp | ActTermCheck | ActCleanup | ActPid | ActLaunch | ActInstrument.
#[export] Instance Action_eq_dec : EqDecision Action.
Proof. solve_decision. Defined.

(** What is printed, by the place that prints it. *)
Inductive Message :=
  | DashNeedsCommand | ThemeNeedsName | UnknownTheme (name : list Z) | InstrumentNeedsCommand
  | PidNeedsId | NotAPid (text : list Z) | UnknownOption (text : list Z) | TryHelp
  | VersionText (text : list Z) | UsageText (text : list Z)
  | AttachFailed (s : AttachStatus) (pid : Z) | OtherConsumer (pid : Z) | AbiSpoken (target mine : Z)
  | TooSmallText (text : list Z) | TermFailed (text : list Z)
  | SnapshotSummary (ended : list Z) (pid chunks opaque frames drawn : Z)
  | PacingNote (cost interval : Z) | DeniedNote (pid : Z)
  | EventSummary (ended : list Z) (events pid frames drawn : Z)
  | LastOutput (line : list Z) | FullOutput (path : list Z) | NeedsTerminal (ms : Z) (argv0 : list Z)
  | NoPreloadFound | LaunchFailed (s : LaunchStatus) (cmd : list Z) (err : Z) | LaunchNote (path : list Z)
  | InstrumentNote (pid : Z) | ExecFailed (cmd : list Z) (err : Z)
  | CleanupReport (text : list Z)
  | CheckSummary (ended : list Z) (frames drawn skipped overruns : Z) (worst_us : list Z).

Record Parsed := mkParsed { ps_action : Action; ps_pid : Z; ps_command : list (list Z); ps_opts : RunOptions }.
Definition nothing_parsed : Parsed := mkParsed ActNone 0 [] default_options.

Definition is_digit (c : Z) : bool := (48 <=? c) && (c <=? 57).
Definition is_blank (c : Z) : bool := (c =? 32) || ((9 <=? c) && (c <=? 13)).
Fixpoint read_digits (l : list Z) (v : Z) : Z * list Z :=
  match l with
  | c :: l' => if is_digit c then read_digits l' (10 * v + (c - 48)) else (v, l)
  | [] => (v, [])
  end.
Fixpoint skip_blanks (l : list Z) : list Z :=
  match l with c :: l' => if is_blank c then skip_blanks l' else l | [] => [] end.

(** The low 32 bits, signed. *)
Definition to_int (v : Z) : Z := let w := u32 v in if w <? 2 ^ 31 then w else w - 2 ^ 32.

(** [atoi]: [strtol] in base ten, saturating, cut to an [int]. *)
Definition atoi (l : list Z) : Z :=
  let l := skip_blanks l in
  let '(neg, l) := match l with c :: l' => if c =? 45 then (true, l') else if c =? 43 then (false, l') else (false, l)
                   | [] => (false, []) end in
  let v := (read_digits l 0).1 in
  to_int (if neg then Z.max (- v) (- 2 ^ 63) else Z.min v (2 ^ 63 - 1)).

(** [from_chars] to an [int]: the value and the rest, if it parses and fits. *)
Definition from_chars (l : list Z) : option (Z * list Z) :=
  let '(neg, l) := match l with c :: l' => if c =? 45 then (true, l') else (false, l) | [] => (false, []) end in
  match l with
  | c :: _ =>
      if is_digit c then
        let '(v, rest) := read_digits l 0 in
        let v := if neg then - v else v in
        if (- 2 ^ 31 <=? v) && (v <=? 2 ^ 31 - 1) then Some (v, rest) else None
      else None
  | [] => None
  end.

Definition with_action (p : Parsed) (a : Action) : Parsed := mkParsed a (ps_pid p) (ps_command p) (ps_opts p).
Definition with_command (p : Parsed) (a : Action) (cmd : list (list Z)) : Parsed := mkParsed a (ps_pid p) cmd (ps_opts p).
Definition with_pid (p : Parsed) (pid : Z) : Parsed := mkParsed ActPid pid (ps_command p) (ps_opts p).
Definition with_opts (p : Parsed) (o : RunOptions) : Parsed := mkParsed (ps_action p) (ps_pid p) (ps_command p) o.
Definition set_theme (o : RunOptions) (t : ThemeKind) : RunOptions :=
  mkOptions (op_timing o) (op_force_ascii o) (op_animations o) t.

(** The positional forms: a process id, or the start of a command. *)
Definition positional_pid (a : list Z) : option Z :=
  match from_chars a with Some (v, []) => if 0 <? v then Some v else None | _ => None end.

(** The loop over the arguments; a refusal exits with 2 and these messages. *)
Fixpoint parse_args (args : list (list Z)) (p : Parsed) : Parsed + list Message :=
  match args with
  | [] => inl p
  | a :: rest =>
      let o := ps_opts p in
      if bool_decide (a = str "--") then
        match rest with [] => inr [DashNeedsCommand] | _ => inl (with_command p ActLaunch rest) end
      else if bool_decide (a = str "--debug-timing") then
        parse_args rest (with_opts p (mkOptions true (op_force_ascii o) (op_animations o) (op_theme o)))
      else if bool_decide (a = str "--no-unicode") then
        parse_args rest (with_opts p (mkOptions (op_timing o) true (op_animations o) (op_theme o)))
      else if bool_decide (a = str "--no-animation") then
        parse_args rest (with_opts p (mkOptions (op_timing o) (op_force_ascii o) false (op_theme o)))
      else if bool_decide (a = str "--theme") then
        match rest with
        | [] => inr [ThemeNeedsName]
        | name :: rest =>
            let '(t, ok) := parse_theme name (op_theme o) in
            if ok then parse_args rest (with_opts p (set_theme o t)) else inr [ThemeNeedsName]
        end
      else if bool_decide (take 8 a = str "--theme=") then
        let '(t, ok) := parse_theme (drop 8 a) (op_theme o) in
        if ok then parse_args rest (with_opts p (set_theme o t)) else inr [UnknownTheme (drop 8 a)]
      else if bool_decide (a = str "--version") || bool_decide (a = str "-V") then parse_args rest (with_action p ActVersion)
      else if bool_decide (a = str "--help") || bool_decide (a = str "-h") then parse_args rest (with_action p ActHelp)
      else if bool_decide (a = str "--term-check") then parse_args rest (with_action p ActTermCheck)
      else if bool_decide (a = str "--cleanup") then parse_args rest (with_action p ActCleanup)
      else if bool_decide (a = str "--instrument") then
        match rest with [] => inr [InstrumentNeedsCommand] | _ => inl (with_command p ActInstrument rest) end
      else if bool_decide (a = str "--pid") then
        match rest with
        | [] => inr [PidNeedsId]
        | text :: rest => let pid := atoi text in if pid <=? 0 then inr [NotAPid text] else parse_args rest (with_pid p pid)
        end
      else if match a with c :: _ => c =? 45 | [] => false end then inr [UnknownOption a; TryHelp]
      else
        match positional_pid a with
        | Some pid => parse_args rest (with_pid p pid)
        | None => inl (with_command p ActLaunch args)
        end
  end.

(** ** One session *)

(** What the world answers to [attach_and_run], in the order it is asked. *)
Record Outside := mkOutside {
  ou_me : Z;                          (* our process id *)
  ou_page : Z;
  ou_polls : list Poll;
  ou_comm : option (list Z);          (* /proc/<pid>/comm *)
  ou_colorterm : option (list Z);
  ou_term : option (list Z);
  ou_size : option (Z * Z);           (* the terminal's size *)
  ou_enter : option (list Z);         (* why raw mode was refused *)
  ou_now_ns : Z;                      (* the clock when the application is made *)
  ou_target : nat -> RingSession -> RingSession; (* what the target publishes before a drain *)
  ou_world : Z -> World;
  ou_localtime : option (Z * Z * Z);
  ou_frames : list Frame;
  ou_cas_fails : bool;                (* the weak exchange of the release *)
  ou_log : option (list Z)            (* the target's log, read at the end *)
}.

(** The exit code, what was printed, and the ring as we leave it. *)
Record Ended := mkEnded { en_code : Z; en_messages : list Message; en_ring : option Ring }.

Section Run.
Context `{!ColorMath}.

(** [%.0f] of the frame rate. *)
Definition rate_text (s : LoopStats) : list Z := fixed0 (fps_double s).

Definition app_loop (o : Outside) : LoopApp (HeapApp RingSession * nat) :=
  heap_app_loop (ou_target o) (ou_world o) (ou_localtime o) rate_text.

Definition loop_config (caps : Capabilities) : LoopConfig :=
  mkLoopConfig (lc_target_fps default_config) (caps_color caps) (lc_min_width default_config)
    (lc_min_height default_config) (lc_max_frames default_config).

Definition make_app (o : Outside) (s : RingSession) (caps : Capabilities) (opts : RunOptions) (snapshot : bool)
    (launch : option Launch) : HeapApp RingSession :=
  let a := new_app s caps (theme_for (op_theme opts)) (op_animations opts) (ou_now_ns o) in
  let a := if snapshot then enable_snapshots a else a in
  match launch with Some l => set_launch a (ln_output l) (ln_argv0 l) | None => a end.

(** The last lines, after the terminal is given back. *)
Definition summary (o : Outside) (pid : Z) (launch : option Launch) (snapshot : bool) (why : LoopExit)
    (a : HeapApp RingSession) (st : LoopStats) : list Message :=
  let ended := if decide (lf_state (ap_life a) = StExited) then str "target exited" else loop_exit_str why in
  let wr := sp_walk (ap_sampling a) in
  (if snapshot then
     SnapshotSummary ended pid (wr_chunks wr) (wr_opaque_bytes wr) (ls_frames st) (ls_drawn st)
     :: (if kSnapshotIntervalMs <? sp_interval_ms (ap_sampling a)
         then [PacingNote (sp_cost_ms (ap_sampling a)) (sp_interval_ms (ap_sampling a))] else [])
     ++ match wr_status wr with WsDenied => [DeniedNote pid] | _ => [] end
   else [EventSummary ended (ap_events a) pid (ls_frames st) (ls_drawn st)])
  ++ match launch with
     | Some l =>
         if decide (lf_state (ap_life a) = StExited) then
           match last_output_line (match ln_output l with [] => None | _ => ou_log o end) with [] => [] | line => [LastOutput line] end
           ++ [FullOutput (ln_output l)]
           ++ (if negb (lf_exited_ms (ap_life a) =? 0) && (lf_exited_ms (ap_life a) <? kInteractiveExitMs)
               then [NeedsTerminal (lf_exited_ms (ap_life a)) (ln_argv0 l)] else [])
         else []
     | None => []
     end.

(** A size the terminal reports and the program refuses. *)
Definition refused_size (o : Outside) : option (Z * Z) :=
  match terminal_size (ou_size o) with
  | Some (w, h) => if size_is_usable w h then None else Some (w, h)
  | None => None
  end.

(** Once attached or observing; the session is released on every way out. *)
Definition run_session (o : Outside) (pid : Z) (launch : option Launch) (opts : RunOptions) (snapshot : bool) (s : RingSession)
    : option Ended :=
  let leave code messages s := Some (mkEnded code messages (detach s (ou_me o) (ou_cas_fails o)).2) in
  let caps := detect_capabilities (ou_colorterm o) (ou_term o) (op_force_ascii opts) in
  match refused_size o with
  | Some (w, h) => leave 1 [TooSmallText (too_small_text w h)] s
  | None =>
      match ou_enter o with
      | Some text => leave 1 [TermFailed text] s
      | None =>
          let a := make_app o s caps opts snapshot launch in
          match run (LoopApp0 := app_loop o) (new_loop (loop_config caps)) (a, O) (ou_frames o) with
          | (_, None) => None
          | (r, Some why) =>
              let a := (rn_app r).1 in
              leave (match why with Quit | FrameLimit => 0 | _ => 1 end)
                (summary o pid launch snapshot why a (el_stats (rn_loop r))) (ap_session a)
          end
      end
  end.

(** [None] while the attach or the loop goes on. *)
Definition attach_and_run (o : Outside) (pid : Z) (launch : option Launch) (opts : RunOptions) : option Ended :=
  let timeout := match launch with Some _ => kAttachTimeoutMs | None => kProbeTimeoutMs end in
  match attach new_session pid (ou_me o) (ou_page o) timeout (ou_cas_fails o) (ou_polls o) with
  | None => None
  | Some (s, st, _) =>
      let snapshot := bool_decide (st = AtNoSegment) in
      let s := if snapshot then observe s pid (ou_comm o) else s in
      if negb (bool_decide (st = AtOk)) && negb snapshot then
        Some (mkEnded 1 (AttachFailed st pid
                :: match st with
                   | AtAlreadyWatched => [OtherConsumer (ss_other_consumer s)]
                   | AtAbiMismatch => [AbiSpoken (ss_target_abi s) HEAPVIZ_ABI_VERSION]
                   | _ => []
                   end) (detach s (ou_me o) (ou_cas_fails o)).2)
      else run_session o pid launch opts snapshot s
  end.

(** Also what is printed before the session. *)
Definition say (before : list Message) (e : option Ended) : option Ended :=
  match e with Some e => Some (mkEnded (en_code e) (before ++ en_messages e) (en_ring e)) | None => None end.
Definition leave (code : Z) (messages : list Message) : option Ended := Some (mkEnded code messages None).

Definition launch_and_run (o : Outside) (ls : LaunchSys) (preload : list Z) (cmd : list (list Z)) (opts : RunOptions)
    : option Ended :=
  match preload with
  | [] => leave 1 [NoPreloadFound]
  | _ =>
      let '(_, l, _) := launch_target ls cmd preload kAttachTimeoutMs Isolate clean_start in
      if negb (bool_decide (ln_status l = LsOk)) then leave 1 [LaunchFailed (ln_status l) (default [] (head cmd)) (ln_err l)]
      else say [LaunchNote (ln_output l)] (attach_and_run o (ln_pid l) (Some l) opts)
  end.

Definition kInteractiveWaitMs : Z := 60000.
(** [None] when the process has become the target. *)
Definition instrument_and_exec (o : Outside) (ls : LaunchSys) (preload : list Z) (cmd : list (list Z)) : option Ended :=
  match preload with
  | [] => leave 1 [NoPreloadFound]
  | _ =>
      match exec_instrumented_target ls cmd preload kInteractiveWaitMs with
      | (Target _, _) => None
      | (_, err) => leave 1 [InstrumentNote (ou_me o); ExecFailed (default [] (head cmd)) err]
      end
  end.

(** [term_check]: [None] while its loop goes on. *)
Definition term_check (o : Outside) (opts : RunOptions) : option Ended :=
  let caps := detect_capabilities (ou_colorterm o) (ou_term o) (op_force_ascii opts) in
  match refused_size o with
  | Some (w, h) => leave 1 [TooSmallText (too_small_text w h)]
  | None =>
      match ou_enter o with
      | Some text => leave 1 [TermFailed text]
      | None =>
          let a := new_term_check (op_timing opts) caps (theme_for (op_theme opts)) (op_animations opts) in
          match run (new_loop (loop_config caps)) a (ou_frames o) with
          | (_, None) => None
          | (r, Some why) =>
              let s := el_stats (rn_loop r) in
              leave (match why with Quit | FrameLimit => 0 | _ => 1 end)
                [CheckSummary (loop_exit_str why) (ls_frames s) (ls_drawn s) (ls_skipped s) (ls_overruns s)
                   (fixed0 (us (tm_total (ls_worst s))))]
          end
      end
  end.

(** [main]; [shm] is what [--cleanup] finds, when it lists and when it reaps. *)
Definition main (o : Outside) (ls : LaunchSys) (preload : list Z) (shm : ShmWorld * ShmWorld) (args : list (list Z))
    : option Ended :=
  match parse_args args nothing_parsed with
  | inr messages => leave 2 messages
  | inl p =>
      match ps_action p with
      | ActVersion => leave 0 [VersionText version_text]
      | ActHelp | ActNone => leave 0 [UsageText usage_text]
      | ActTermCheck => term_check o (ps_opts p)
      | ActCleanup => leave 0 [CleanupReport (cleanup shm.1 shm.2).2]
      | ActPid => attach_and_run o (ps_pid p) None (ps_opts p)
      | ActLaunch => launch_and_run o ls preload (ps_command p) (ps_opts p)
      | ActInstrument => instrument_and_exec o ls preload (ps_command p)
      end
  end.
End Run.
