(* ===== verification/ProgramProofs.v ===== *)
(** * What the program promises

    Whatever way a session ends, the ring is given back; and the arguments of a
    command are the target's alone. *)

From Stdlib Require Import String.
From S2P Require Import Prelude Abi Ring Capabilities Framebuffer Renderer Theme HeatColor Metrics.
From S2P Require Import Session Launch HeapApp HeapAppProofs EventLoop EventLoopProofs AppLoop Program.

(** ** The claim is given back *)

Section Claim.
Context `{!ColorMath} (o : Outside).

(** The target only publishes: it neither maps the ring for us nor writes the
    consumer's claim. *)
Definition only_publishes : Prop := forall n s,
  match ss_ring s with
  | Some r => exists r', ss_ring (ou_target o n s) = Some r' /\ h_consumer_pid (r_hdr r') = h_consumer_pid (r_hdr r)
  | None => ss_ring (ou_target o n s) = None
  end.
Context (Htarget : only_publishes).

(** We hold the ring's claim, or no ring at all. *)
Definition holds (yes : bool) (s : RingSession) : Prop :=
  if yes then exists r, ss_ring s = Some r /\ h_consumer_pid (r_hdr r) = ou_me o else ss_ring s = None.

Lemma drain_keeps_claim yes s n : holds yes s -> holds yes (Session.drain s n).1.
Proof.
  unfold holds, Session.drain. destruct yes.
  - intros (r & Er & Hc). rewrite Er. destruct (n =? 0); cbn [fst]; [by exists r|]. unfold hv_ring_drain.
    destruct (drain_loop _ _ _ _ _) as [t out]. cbn [fst set_ring ss_ring]. eexists. split; [done|]. by case_bool_decide.
  - intros Hn. by rewrite Hn.
Qed.

Lemma target_keeps_claim yes n s : holds yes s -> holds yes (ou_target o n s).
Proof.
  unfold holds. pose proof (Htarget n s) as Ht. destruct yes.
  - intros (r & Hr & Hc). rewrite Hr in Ht. destruct Ht as (r' & Hr' & E). exists r'. split; [done|congruence].
  - intros Hn. by rewrite Hn in Ht.
Qed.

#[local] Existing Instance app_loop.
Lemma app_keeps_claim yes : loop_keeps (LoopApp0 := app_loop o)
  (fun an : HeapApp RingSession * nat => holds yes (ap_session an.1)).
Proof.
  split; cbn.
  - intros [a n] Hq. unfold drain_outside. cbn [fst] in Hq. set (a0 := set_session a _).
    assert (holds yes (ap_session a0)) as H0 by (by apply target_keeps_claim).
    destruct (drain_session a0) as [E|(k & _ & E)]; destruct (HeapApp.drain a0) as [a1 c]; cbn [fst] in *; rewrite E; [done|].
    by apply drain_keeps_claim.
  - intros [a n] now Hq. pose proof (update_session (ou_world o now) a) as E. cbn [fst] in *.
    destruct (update _ a) as [a1 c]. cbn [fst] in *. by rewrite E.
  - intros [a n] b Hq. pose proof (key_kept (ou_localtime o) a b) as [_ E]. cbn [fst] in *.
    destruct (key _ a b) as [a1 c]. cbn [fst] in *. by rewrite E.
  - by intros [a n].
  - intros [a n] w h Hq. destruct (resized_kept a w h) as [_ E]. cbn [fst] in *. by rewrite E.
  - by intros [a n].
Qed.

Lemma made_holds yes s caps opts snapshot launch : holds yes s ->
  holds yes (ap_session (make_app o s caps opts snapshot launch)).
Proof.
  intros Hs. unfold make_app. assert (ap_session (new_app s caps (theme_for (op_theme opts)) (op_animations opts) (ou_now_ns o)) = s) as E.
  { unfold new_app. by destruct (if src_attached s then _ else _). }
  set (a := new_app _ _ _ _ _) in *. clearbody a. subst s. by destruct snapshot, launch.
Qed.

(** The release of what we hold: one weak exchange, so either nobody is left
    watching or, when it failed spuriously, we are. *)
Definition released (yes : bool) (ring : option Ring) : Prop :=
  if yes then exists r, ring = Some r /\ h_consumer_pid (r_hdr r) = (if ou_cas_fails o then ou_me o else 0) else ring = None.
Lemma detach_releases yes s : holds yes s -> released yes (detach s (ou_me o) (ou_cas_fails o)).2.
Proof.
  unfold holds, released, detach. destruct yes; [|by intros ->]. intros (r & -> & Hc). eexists. split; [done|].
  unfold hv_ring_release, cas_weak. rewrite Hc, Z.eqb_refl. by destruct (ou_cas_fails o).
Qed.

Lemma session_releases yes pid launch opts snapshot s e : holds yes s ->
  run_session o pid launch opts snapshot s = Some e -> released yes (en_ring e).
Proof.
  intros Hs. unfold run_session. destruct (refused_size o) as [[w h]|]; [intros [= <-]; by apply detach_releases|].
  destruct (ou_enter o); [intros [= <-]; by apply detach_releases|]. set (caps := detect_capabilities _ _ _).
  pose proof (run_keeps (LoopApp0 := app_loop o) _ (app_keeps_claim yes) (new_loop (loop_config caps))
    (make_app o s caps opts snapshot launch, O) (ou_frames o) (made_holds yes s caps opts snapshot launch Hs)) as Hrun.
  destruct (run _ _ _) as [r [why|]]; [|done]. intros [= <-]. by apply detach_releases.
Qed.

(** The loop of this session, over the application made for it: how it ended. *)
Definition own_loop (opts : RunOptions) (launch : option Launch) (snapshot : bool) (s : RingSession) : option LoopExit :=
  let caps := detect_capabilities (ou_colorterm o) (ou_term o) (op_force_ascii opts) in
  (run (LoopApp0 := app_loop o) (new_loop (loop_config caps)) (make_app o s caps opts snapshot launch, O) (ou_frames o)).2.

(** The session came as far as its loop, which the user or the frame limit ended. *)
Definition ended_well (opts : RunOptions) (launch : option Launch) (snapshot : bool) (s : RingSession) : Prop :=
  refused_size o = None /\ ou_enter o = None /\
  (own_loop opts launch snapshot s = Some Quit \/ own_loop opts launch snapshot s = Some FrameLimit).

Lemma session_code pid launch opts snapshot s e :
  run_session o pid launch opts snapshot s = Some e ->
  (en_code e = 0 \/ en_code e = 1) /\ (en_code e = 0 <-> ended_well opts launch snapshot s).
Proof.
  unfold run_session, ended_well, own_loop.
  destruct (refused_size o) as [[w h]|]; [intros [= <-]; split; [by right|split; [done|by intros []]]|].
  destruct (ou_enter o); [intros [= <-]; split; [by right|split; [done|by intros (_ & ? & _)]]|].
  destruct (run _ _ _) as [r [why|]]; [|done]. intros [= <-]. cbn [en_code snd].
  destruct why; (split; [auto|]); (split; [intros E; try discriminate E; auto|]); try done;
    by intros (_ & _ & [E|E]).
Qed.

(** Attaching holds the claim exactly on success. *)
Lemma attach_loop_holds pid page timeout polls : forall s waited s' st n, ss_ring s = None ->
  attach_loop s pid (ou_me o) page timeout waited polls = Some (s', st, n) -> holds (bool_decide (st = AtOk)) s'.
Proof.
  induction polls as [|p polls IH]; intros s waited s' st n Hs; cbn [attach_loop]; [done|].
  assert (match attach_loop s pid (ou_me o) page timeout (waited + kPollIntervalMs) polls with
    | Some (s, st, n) => Some (s, st, Datatypes.S n) | None => None end = Some (s', st, n) -> holds (bool_decide (st = AtOk)) s') as Hagain.
  { destruct (attach_loop _ _ _ _ _ _ _) as [[[s1 st1] n1]|] eqn:E; [|done]. intros [= <- <- _]. by eapply IH. }
  destruct p as [[]| | |hdr full sp]; cbn [negb].
  - destruct (timeout <=? waited); [by intros [= <- <- _]|done].
  - by intros [= <- <- _].
  - by intros [= <- <- _].
  - destruct (timeout <=? waited); [by intros [= <- <- _]|done].
  - pose proof (attach_ready_spec s pid (ou_me o) page hdr full sp Hs) as Hspec.
    destruct (attach_ready _ _ _ _ _ _ _) as [s1 st1]. destruct Hspec as [_ Hof]. intros [= <- <- _].
    assert (forall s2, attached s2 = false -> ss_ring s2 = None) as Hno by (unfold attached; intros s2; by destruct (ss_ring s2)).
    destruct st1; cbn in *; try (by apply Hno); try (by apply Hno, Hof).
    destruct Hof as (h & r & sps & _ & _ & Hr & _). exists (set_consumer r (ou_me o)). by split.
Qed.

(** What the session works on: the ring it claimed, or the process observed
    when there is no segment. *)
Definition worked_on (pid : Z) (st : AttachStatus) (s : RingSession) : RingSession :=
  if bool_decide (st = AtNoSegment) then observe s pid (ou_comm o) else s.

(** C36: A session gives the ring back.  However it ends, by the user, by the
    target's exit, by a terminal that went away or was refused, or by a loop
    that could not go on, the session ends with a ring exactly if it attached,
    and that ring is released by one weak compare-exchange: it is left without
    a consumer, so the next heapviz can attach, unless that exchange failed
    spuriously, and then it is still claimed by this process.  The exit code is
    0 exactly when the session attached, or found no segment and took
    snapshots, the terminal was accepted and this session's own loop was ended
    by the user or by the frame limit; it is 1 otherwise.  The target is taken
    to publish only: it does not write the consumer's claim. *)
Theorem claim_given_back pid launch opts e :
  attach_and_run o pid launch opts = Some e ->
  exists s st n,
    attach new_session pid (ou_me o) (ou_page o)
      (match launch with Some _ => kAttachTimeoutMs | None => kProbeTimeoutMs end) (ou_cas_fails o) (ou_polls o)
      = Some (s, st, n) /\
    (is_some (en_ring e) = true <-> st = AtOk) /\
    (forall r, en_ring e = Some r -> h_consumer_pid (r_hdr r) = if ou_cas_fails o then ou_me o else 0) /\
    (en_code e = 0 \/ en_code e = 1) /\
    (en_code e = 0 <->
       (st = AtOk \/ st = AtNoSegment) /\
       ended_well opts launch (bool_decide (st = AtNoSegment)) (worked_on pid st s)).
Proof.
  unfold attach_and_run. set (timeout := match launch with Some _ => _ | None => _ end).
  destruct (attach _ _ _ _ _ _ _) as [[[s st] n]|] eqn:Ea; [|done]. intros He. exists s, st, n. split; [done|].
  assert (holds (bool_decide (st = AtOk)) s) as Hs by (unfold attach in Ea; by eapply attach_loop_holds; [|exact Ea]).
  cbv zeta in He. fold (worked_on pid st s) in He. set (s0 := worked_on pid st s) in *.
  assert (holds (bool_decide (st = AtOk)) s0) as Hs0.
  { unfold s0, worked_on. destruct (bool_decide (st = AtNoSegment)); exact Hs. }
  clearbody s0.
  assert (released (bool_decide (st = AtOk)) (en_ring e) /\ (en_code e = 0 \/ en_code e = 1) /\
    (en_code e = 0 <-> (st = AtOk \/ st = AtNoSegment) /\ ended_well opts launch (bool_decide (st = AtNoSegment)) s0))
    as (Hrel & Hcode & Hzero).
  { destruct (negb _ && _) eqn:Eno.
    - injection He as <-. split; [exact (detach_releases _ _ Hs0)|]. split; [by right|]. split; [done|].
      intros [Hst _]. by destruct Hst as [-> | ->].
    - split; [exact (session_releases _ _ _ _ _ _ _ Hs0 He)|].
      destruct (session_code _ _ _ _ _ _ He) as [Hc Hz]. split; [done|]. rewrite Hz. split; [|by intros [_ ?]].
      intros Hw. split; [|done]. destruct (decide (st = AtOk)); [by left|]. destruct (decide (st = AtNoSegment)); [by right|].
      by rewrite !bool_decide_false in Eno by done. }
  unfold released in Hrel. split; [|split; [|done]].
  - destruct (decide (st = AtOk)) as [Hst|Hst].
    + rewrite bool_decide_true in Hrel by done. by destruct Hrel as (r & -> & _).
    + rewrite bool_decide_false in Hrel by done. by rewrite Hrel.
  - intros r Hr. destruct (bool_decide _); [|congruence]. destruct Hrel as (r' & E & Hc). congruence.
Qed.
End Claim.

(** ** The target's arguments are the target's *)

(** [q]'s command is a proper suffix of the arguments, and nothing of it but its
    first word is looked at. *)
Definition own_arguments (args : list (list Z)) (p q : Parsed) : Prop :=
  exists pre c rest, args = pre ++ c :: rest /\ ps_command q = c :: rest /\
    forall rest', parse_args (pre ++ c :: rest') p = inl (with_command q (ps_action q) (c :: rest')).

Lemma own_cons a args p p' q : (forall args', args' <> [] -> parse_args (a :: args') p = parse_args args' p') ->
  own_arguments args p' q -> own_arguments (a :: args) p q.
Proof.
  intros H (pre & c & rest & -> & Hc & Hr). exists (a :: pre), c, rest. split; [done|]. split; [done|].
  intros rest'. cbn [app]. rewrite H by (by destruct pre). apply Hr.
Qed.
Lemma own_cons2 a b args p p' q : (forall args', parse_args (a :: b :: args') p = parse_args args' p') ->
  own_arguments args p' q -> own_arguments (a :: b :: args) p q.
Proof.
  intros H (pre & c & rest & -> & Hc & Hr). exists (a :: b :: pre), c, rest. split; [done|]. split; [done|].
  intros rest'. cbn [app]. rewrite H. apply Hr.
Qed.

Definition runs (q : Parsed) : bool := match ps_action q with ActLaunch | ActInstrument => true | _ => false end.

(** What one argument does, whatever follows it. *)
Inductive ArgStep (p : Parsed) (a : list Z) : Prop :=
  | StepFlag p' (_ : runs p' = false) (_ : forall l, parse_args (a :: l) p = parse_args l p')
  | StepValue (f : list Z -> Parsed + list Message) m (_ : forall b p', f b = inl p' -> runs p' = false)
      (_ : parse_args [a] p = inr m)
      (_ : forall b l, parse_args (a :: b :: l) p = match f b with inl p' => parse_args l p' | inr m => inr m end)
  | StepSep act m (_ : parse_args [a] p = inr m)
      (_ : forall b l, parse_args (a :: b :: l) p = inl (with_command p act (b :: l)))
  | StepCommand (_ : forall l, parse_args (a :: l) p = inl (with_command p ActLaunch (a :: l)))
  | StepRefused m (_ : forall l, parse_args (a :: l) p = inr m).

(** The tests already made decide the chain. *)
Local Ltac decided := intros; cbn [parse_args]; repeat match goal with E : ?c = _ |- context [?c] => rewrite E end; try done.
Local Ltac flag Hp := eapply StepFlag; [|by decided]; first [exact Hp|done].

Lemma arg_step p a : runs p = false -> ArgStep p a.
Proof.
  intros Hp.
  destruct (bool_decide (a = str "--")) eqn:E1; [by apply (StepSep _ _ ActLaunch [DashNeedsCommand]); decided|].
  destruct (bool_decide (a = str "--debug-timing")) eqn:E2; [flag Hp|].
  destruct (bool_decide (a = str "--no-unicode")) eqn:E3; [flag Hp|].
  destruct (bool_decide (a = str "--no-animation")) eqn:E4; [flag Hp|].
  destruct (bool_decide (a = str "--theme")) eqn:E5.
  { apply (StepValue _ _ (fun b => let '(t, ok) := parse_theme b (op_theme (ps_opts p)) in
      if ok then inl (with_opts p (set_theme (ps_opts p) t)) else inr [ThemeNeedsName]) [ThemeNeedsName]).
    - intros b p'. destruct (parse_theme _ _) as [t []]; [|done]. intros [= <-]. exact Hp.
    - by decided.
    - decided. by destruct (parse_theme _ _) as [t []]. }
  destruct (bool_decide (take 8 a = str "--theme=")) eqn:E6.
  { destruct (parse_theme (drop 8 a) (op_theme (ps_opts p))) as [t []] eqn:Et; [flag Hp|eapply StepRefused; by decided]. }
  destruct (bool_decide (a = str "--version") || bool_decide (a = str "-V")) eqn:E7; [flag Hp|].
  destruct (bool_decide (a = str "--help") || bool_decide (a = str "-h")) eqn:E8; [flag Hp|].
  destruct (bool_decide (a = str "--term-check")) eqn:E9; [flag Hp|].
  destruct (bool_decide (a = str "--cleanup")) eqn:E10; [flag Hp|].
  destruct (bool_decide (a = str "--instrument")) eqn:E11; [by apply (StepSep _ _ ActInstrument [InstrumentNeedsCommand]); decided|].
  destruct (bool_decide (a = str "--pid")) eqn:E12.
  { apply (StepValue _ _ (fun b => if atoi b <=? 0 then inr [NotAPid b] else inl (with_pid p (atoi b))) [PidNeedsId]).
    - intros b p'. destruct (atoi b <=? 0); [done|]. by intros [= <-].
    - by decided.
    - decided. by destruct (atoi b <=? 0). }
  destruct (match a with c :: _ => c =? 45 | [] => false end) eqn:E13; [eapply StepRefused; by decided|].
  destruct (positional_pid a) as [pid|] eqn:E14; [flag Hp|apply StepCommand; by decided].
Qed.

Lemma command_suffix n : forall args p q, (List.length args <= n)%nat -> runs p = false ->
  parse_args args p = inl q -> runs q = true -> own_arguments args p q.
Proof.
  induction n as [|n IH]; intros [|a rest] p q Hn Hp Hq Hr; try (injection Hq as <-; congruence); cbn [List.length] in Hn; [lia|].
  destruct (arg_step p a Hp) as [p' Hp' E|f m Hf E1 E|act m E1 E|E|m E].
  - rewrite E in Hq. apply (own_cons _ _ _ p'); [by intros|]. apply IH; [lia|done|done|done].
  - destruct rest as [|b l]; [congruence|]. rewrite E in Hq. destruct (f b) as [p'|] eqn:Ef; [|done].
    apply (own_cons2 _ _ _ _ p'); [intros; by rewrite E, Ef|]. cbn [List.length] in Hn. apply IH; [lia|by eapply Hf|done|done].
  - destruct rest as [|b l]; [congruence|]. rewrite E in Hq. injection Hq as <-. exists [a], b, l. split; [done|]. split; [done|].
    intros rest'. cbn [app]. by rewrite E.
  - rewrite E in Hq. injection Hq as <-. exists [], a, rest. split; [done|]. split; [done|]. intros rest'. cbn [app]. by rewrite E.
  - congruence.
Qed.

(** A command's arguments are the command's.  When the command line asks
    for a command to be run, by [--], by [--instrument] or by its first
    positional word, the command is a suffix of the arguments, none of it is
    taken for an option of heapviz, and the options, the theme and the action
    would be the same whatever followed its first word. *)
Theorem command_untouched args q :
  parse_args args nothing_parsed = inl q -> runs q = true ->
  exists pre c rest, args = pre ++ c :: rest /\ ps_command q = c :: rest /\
    forall rest', parse_args (pre ++ c :: rest') nothing_parsed = inl (with_command q (ps_action q) (c :: rest')).
Proof. intros Hq Hr. by apply (command_suffix (List.length args) args nothing_parsed q). Qed.

(** [heapviz --theme light -- ./app --no-unicode] *)
Lemma command_untouched_witness : exists q,
  parse_args [str "--theme"; str "light"; str "--"; str "./app"; str "--no-unicode"] nothing_parsed = inl q /\
  op_force_ascii (ps_opts q) = false /\ ps_command q = [str "./app"; str "--no-unicode"] /\
  exists pre c rest, [str "--theme"; str "light"; str "--"; str "./app"; str "--no-unicode"] = pre ++ c :: rest /\ ps_command q = c :: rest.
Proof.
  eexists. split; [vm_compute; reflexivity|]. split; [reflexivity|]. split; [reflexivity|].
  destruct (command_untouched [str "--theme"; str "light"; str "--"; str "./app"; str "--no-unicode"] _
    ltac:(vm_compute; reflexivity) eq_refl) as (pre & c & rest & H1 & H2 & _).
  exists pre, c, rest. split; [exact H1|exact H2].
Defined.

(** [--pid 4294967338] is the process 42: [atoi] wraps. *)
Lemma pid_wraps : atoi (str "4294967338") = 42 /\ from_chars (str "4294967338") = None.
Proof. split; vm_compute; reflexivity. Qed.

(** ** A session, from the attach to the user's [q] *)

Definition demo_target (n : nat) (s : RingSession) : RingSession := push_one n s.
Definition demo_outside : Outside :=
  mkOutside 7 4096 (demo_polls ++ List.repeat PollUnready 200) None None None (Some (80, 24)) None 5 demo_target
    (fun _ => gone_world) None
    [mkFrame false false (Some (80, 24)) (demo_clock 100) [Wrote 60000] [idle_turn 200];
     mkFrame false false None (demo_clock 300) [Wrote 60000] [key_turn 400 113]]
    false None.

Lemma demo_target_publishes : only_publishes demo_outside.
Proof.
  intros n s. cbn [ou_target demo_outside]. unfold demo_target, push_one. destruct (ss_ring s) as [r|] eqn:E; [|exact E].
  exists (hv_ring_push r (mkPushArgs 12 0x7000 8 24 7 HV_OP_MALLOC)).1. split; [done|].
  unfold hv_ring_push. by destruct (ring_full _ _ _).
Qed.

Lemma demo_ends : exists e, attach_and_run demo_outside 42 None default_options = Some e /\ en_code e = 0.
Proof.
  assert (match attach_and_run demo_outside 42 None default_options with Some e => en_code e = 0 | None => False end) as E
    by (vm_compute; reflexivity).
  destruct (attach_and_run _ _ _ _) as [e|]; [|done]. by exists e.
Qed.

Lemma claim_given_back_witness : exists e,
  attach_and_run demo_outside 42 None default_options = Some e /\ en_code e = 0 /\
  (forall r, en_ring e = Some r -> h_consumer_pid (r_hdr r) = 0).
Proof.
  destruct demo_ends as (e & E & Hc). exists e. split; [exact E|]. split; [exact Hc|].
  destruct (claim_given_back demo_outside demo_target_publishes 42 None default_options e E) as (s & st & n & _ & _ & H & _).
  exact H.
Defined.
