(* ===== verification/Churn.v ===== *)
(** * The example targets (src/examples/churn.c, hello_alloc.c)

    Two programs to watch, as their calls of the allocator.  What they write into
    their blocks, what they print and how long they sleep is left out, and so is
    what the C library allocates on their behalf (output buffers, threads) and a
    thread that cannot be started; how often a worker of churn goes round before
    its time is up, or [g_stop] is set, is an argument. *)

From Stdlib Require Import String.
From stdpp Require Import fin_maps fin_sets gmap.
From S2P Require Import Program.
From S2P Require Import Prelude Abi Ring ChunkTable Capabilities Theme Session HeapApp LiveSet.
From S2P Require Import Preload PreloadProofs HookConc Workload.

(** ** churn *)

Definition MAX_THREADS : Z := 32.
Definition LIVE_SLOTS : nat := Z.to_nat 512.
Definition MMAP_BYTES : Z := 256 * 1024.
Definition sizeof_Slot : Z := 16.

Inductive Mode := M_STEADY | M_BURSTY | M_FRAGMENT | M_MMAP | M_MIXED.

Definition xrand (x : Z) : Z :=
  let x := Z.lxor x (u32 (Z.shiftl x 13)) in
  let x := Z.lxor x (Z.shiftr x 17) in
  Z.lxor x (u32 (Z.shiftl x 5)).

Record Slot := mkSlot { sl_ptr : Z; sl_size : Z }.
#[export] Instance Slot_inhabited : Inhabited Slot := populate (mkSlot 0 0).
(** What a worker keeps: its slots, its generator and its count of calls. *)
Record Worker := mkWorker { wk_live : list Slot; wk_seed : Z; wk_ops : Z }.

Definition slot_ptr (w : Worker) (i : nat) : Z := sl_ptr (wk_live w !!! i).
Definition set_slot (w : Worker) (i : nat) (s : Slot) : Worker := mkWorker (<[i := s]> (wk_live w)) (wk_seed w) (wk_ops w).
Definition clear_slot (w : Worker) (i : nat) : Worker := set_slot w i (mkSlot 0 (sl_size (wk_live w !!! i))).
Definition with_seed (w : Worker) (seed : Z) : Worker := mkWorker (wk_live w) seed (wk_ops w).
Definition count_ops (w : Worker) (n : Z) : Worker := mkWorker (wk_live w) (wk_seed w) (wk_ops w + n).

(** A loop over indices. *)
Fixpoint for_each {A} (ixs : list nat) (f : nat -> A -> Prog A) (a : A) : Prog A :=
  match ixs with [] => mret a | i :: ixs => a ← f i a; for_each ixs f a end.

(** [if (live[i].ptr != NULL) { free(live[i].ptr); live[i].ptr = NULL; }] *)
Definition release_slot (w : Worker) (i : nat) : Prog Worker :=
  if slot_ptr w i =? 0 then mret w else _ ← ask (CFree (slot_ptr w i)); mret (clear_slot w i).

Definition do_steady (w : Worker) : Prog Worker :=
  let r := xrand (wk_seed w) in
  let idx := Z.to_nat (r mod Z.of_nat LIVE_SLOTS) in
  let r' := xrand r in
  let sz := 16 + r' mod 4096 in
  w ← release_slot (with_seed w r') idx;
  p ← ask (CMalloc sz);
  mret (count_ops (set_slot w idx (mkSlot p sz)) 2).

Definition do_bursty (w : Worker) : Prog Worker := for_each (seq 0 64) (fun _ => do_steady) w.

Definition fill_slot (i : nat) (w : Worker) : Prog Worker :=
  if slot_ptr w i =? 0 then
    let r := xrand (wk_seed w) in
    let sz := 32 + r mod 512 in
    p ← ask (CMalloc sz);
    mret (count_ops (set_slot (with_seed w r) i (mkSlot p sz)) 1)
  else mret w.
Definition empty_slot (i : nat) (w : Worker) : Prog Worker :=
  if slot_ptr w i =? 0 then mret w else w ← release_slot w i; mret (count_ops w 1).
Definition do_fragment (w : Worker) : Prog Worker :=
  w ← for_each (seq 0 LIVE_SLOTS) fill_slot w;
  for_each (Nat.mul 2 <$> seq 0 (LIVE_SLOTS / 2)) empty_slot w.

Definition do_mmap (w : Worker) : Prog Worker :=
  let r := xrand (wk_seed w) in
  p ← ask (CCalloc 1 (MMAP_BYTES + r mod MMAP_BYTES));
  _ ← (if p =? 0 then mret 0 else ask (CFree p));
  mret (count_ops (with_seed w r) 2).

(** The chain's loop: [n] resizes to go, [p] of [sz] bytes. *)
Fixpoint chain_loop (n : nat) (p sz : Z) (w : Worker) : Prog (Z * Worker) :=
  match n with
  | O => mret (p, w)
  | S n =>
      let sz := sz ⊠ 2 in
      next ← ask (CRealloc p sz);
      if next =? 0 then mret (p, w) else chain_loop n next sz (count_ops w 1)
  end.
Definition do_realloc_chain (w : Worker) : Prog Worker :=
  let r := xrand (wk_seed w) in
  let w := with_seed w r in
  let sz := 32 + r mod 64 in
  p ← ask (CMalloc sz);
  if p =? 0 then mret w
  else
    '(p, w) ← chain_loop 10 p sz (count_ops w 1);
    _ ← ask (CFree p);
    mret (count_ops w 1).

(** One round of the worker's loop. *)
Definition round (m : Mode) (w : Worker) : Prog Worker :=
  match m with
  | M_STEADY => do_steady w
  | M_BURSTY => do_bursty w
  | M_FRAGMENT => do_fragment w
  | M_MMAP => do_mmap w
  | M_MIXED =>
      let r := xrand (wk_seed w) in
      let w := with_seed w r in
      let d := r mod 10 in
      if d <=? 1 then do_fragment w
      else if d =? 2 then do_mmap w
      else if d =? 3 then do_realloc_chain w
      else if d =? 4 then do_bursty w
      else do_steady w
  end.
Fixpoint rounds (n : nat) (m : Mode) (w : Worker) : Prog Worker :=
  match n with O => mret w | S n => w ← round m w; rounds n m w end.

Definition first_seed (tid : Z) : Z := Z.lxor 0x9E3779B9 (u32 (u32 (tid + 1) * 2654435761)).

(** The thread's function, the loop's test holding [n] times. *)
Definition worker (m : Mode) (n : nat) (tid : Z) : Prog Z :=
  live ← ask (CCalloc (Z.of_nat LIVE_SLOTS) sizeof_Slot);
  if live =? 0 then mret 0
  else
    w ← rounds n m (mkWorker (replicate LIVE_SLOTS (mkSlot 0 0)) (first_seed tid) 0);
    _ ← for_each (seq 0 LIVE_SLOTS) (fun i w => _ ← ask (CFree (slot_ptr w i)); mret w) w;
    _ ← ask (CFree live);
    mret 0.

(** ** churn's command line *)

(** [--seconds] is a double nothing but the clock is compared with: its text. *)
Record Options := mkOptions { g_mode : Mode; g_threads : Z; g_seconds : list Z; g_rate : Z }.
Definition default_options : Options := mkOptions M_MIXED 1 (str "5.0") 20000.

Definition parse_mode (s : list Z) : Mode :=
  if bool_decide (s = str "steady") then M_STEADY
  else if bool_decide (s = str "bursty") then M_BURSTY
  else if bool_decide (s = str "fragment") then M_FRAGMENT
  else if bool_decide (s = str "mmap") then M_MMAP
  else M_MIXED.

(** [None]: the usage is printed and the program ends with 2. *)
Fixpoint parse_options (args : list (list Z)) (o : Options) : option Options :=
  match args with
  | [] => Some o
  | a :: v :: rest =>
      if bool_decide (a = str "--mode") then parse_options rest (mkOptions (parse_mode v) (g_threads o) (g_seconds o) (g_rate o))
      else if bool_decide (a = str "--threads") then parse_options rest (mkOptions (g_mode o) (atoi v) (g_seconds o) (g_rate o))
      else if bool_decide (a = str "--seconds") then parse_options rest (mkOptions (g_mode o) (g_threads o) v (g_rate o))
      else if bool_decide (a = str "--rate") then
        parse_options rest (mkOptions (g_mode o) (g_threads o) (g_seconds o) (strtol v).1)
      else None
  | [_] => None
  end.
Definition thread_count (o : Options) : Z :=
  let n := if g_threads o <? 1 then 1 else g_threads o in
  if MAX_THREADS <? n then MAX_THREADS else n.

(** The threads [main] starts; [turns]: how often each goes round. *)
Definition churn (o : Options) (turns : nat -> nat) : gmap nat (Prog Z) :=
  list_to_map ((fun t => (t, worker (g_mode o) (turns t) (Z.of_nat t))) <$> seq 0 (Z.to_nat (thread_count o))).

(** ** hello_alloc *)

Definition SMALL_COUNT : nat := 64.
Definition HELLO_MMAP_BYTES : Z := 512 * 1024.

(** The small blocks, [None] when one is refused. *)
Fixpoint fill_small (ixs : list nat) (got : list Z) : Prog (option (list Z)) :=
  match ixs with
  | [] => mret (Some got)
  | i :: ixs =>
      p ← ask (CMalloc (Z.of_nat (i + 1) * 24));
      if p =? 0 then mret None else fill_small ixs (got ++ [p])
  end.
Definition free_small (ixs : list nat) (small : list Z) : Prog unit :=
  for_each ixs (fun i _ => _ ← ask (CFree (small !!! i)); mret ()) ().

(** The chain: the block and its size, [None] after a refusal, which gives the
    block back. *)
Fixpoint grow_loop (n : nat) (grow len : Z) : Prog (option (Z * Z)) :=
  match n with
  | O => mret (Some (grow, len))
  | S n =>
      let len := len ⊠ 2 in
      next ← ask (CRealloc grow len);
      if next =? 0 then _ ← ask (CFree grow); mret None else grow_loop n next len
  end.

(** One iteration: the length the next one starts its chain with, [None] when the
    program returns 1. *)
Definition hello_iteration (grow_len : Z) : Prog (option Z) :=
  small ← fill_small (seq 0 SMALL_COUNT) [];
  match small with
  | None => mret None
  | Some small =>
      _ ← free_small (Nat.mul 2 <$> seq 0 (SMALL_COUNT / 2)) small;
      _ ← free_small ((fun i => 2 * i + 1)%nat <$> seq 0 (SMALL_COUNT / 2)) small;
      big ← ask (CCalloc 1 HELLO_MMAP_BYTES);
      if big =? 0 then mret None
      else
        _ ← ask (CFree big);
        grow ← ask (CMalloc grow_len);
        if grow =? 0 then mret None
        else
          r ← grow_loop 12 grow grow_len;
          match r with
          | None => mret None
          | Some (grow, len) => _ ← ask (CFree grow); mret (Some len)
          end
  end.
Fixpoint hello_loop (n : nat) (grow_len : Z) : Prog Z :=
  match n with
  | O => mret 0
  | S n => r ← hello_iteration grow_len; match r with Some len => hello_loop n len | None => mret 1 end
  end.
Definition hello_iterations (arg : option (list Z)) : Z :=
  match arg with None => 4 | Some a => let n := (strtol a).1 in if n <? 1 then 1 else n end.
Definition hello_alloc (arg : option (list Z)) : Prog Z := hello_loop (Z.to_nat (hello_iterations arg)) 16.

(** ** What the workers own *)
Lemma wp_for_each {A} (f : nat -> A -> Prog A) (I : A -> gset Z -> Prop) ixs : forall a O,
  (forall i a O, i ∈ ixs -> I a O -> wp (f i a) O I) -> I a O -> wp (for_each ixs f a) O I.
Proof.
  induction ixs as [|i ixs IH]; intros a O Hf Ha; [done|]. cbn [for_each]. apply wp_bind.
  eapply wp_mono; [|by apply Hf; [left|]]. intros a' O' Ha'. apply IH; [|done]. intros j b P Hj. apply Hf. by right.
Qed.

(** [O] is [F] and the blocks of the slots from [k] on, each in one of them. *)
Record owns (k : nat) (F : gset Z) (w : Worker) (O : gset Z) : Prop := {
  ow_slots : length (wk_live w) = LIVE_SLOTS;
  ow_all : forall x, x ∈ O <-> x ∈ F \/ x <> 0 /\ exists i, (k <= i < LIVE_SLOTS)%nat /\ slot_ptr w i = x;
  ow_once : forall i j, (k <= i < LIVE_SLOTS)%nat -> (k <= j < LIVE_SLOTS)%nat -> slot_ptr w i <> 0 ->
    slot_ptr w i = slot_ptr w j -> i = j;
  ow_apart : forall i, (k <= i < LIVE_SLOTS)%nat -> slot_ptr w i <> 0 -> slot_ptr w i ∉ F
}.

Lemma slot_ptr_set w i j s : length (wk_live w) = LIVE_SLOTS -> (i < LIVE_SLOTS)%nat ->
  slot_ptr (set_slot w i s) j = if decide (i = j) then sl_ptr s else slot_ptr w j.
Proof.
  intros Hl Hi. unfold slot_ptr, set_slot. cbn [wk_live]. case_decide as E.
  - subst j. by rewrite list_lookup_total_insert_eq by lia.
  - by rewrite list_lookup_total_insert_ne.
Qed.

Lemma owns_seed k F w O seed : owns k F w O -> owns k F (with_seed w seed) O.
Proof. by intros []. Qed.
Lemma owns_count k F w O n : owns k F w O -> owns k F (count_ops w n) O.
Proof. by intros []. Qed.
#[local] Hint Resolve owns_seed owns_count : core.

(** A slot given back. *)
Lemma owns_clear F w O i : owns 0 F w O -> (i < LIVE_SLOTS)%nat -> slot_ptr w i <> 0 ->
  owns 0 F (clear_slot w i) (O ∖ {[slot_ptr w i]}).
Proof.
  intros [Hl Ha Ho Hp] Hi Hx. split.
  - unfold clear_slot, set_slot. cbn. by rewrite length_insert.
  - intros x. rewrite elem_of_difference, elem_of_singleton, Ha. split.
    + intros [[?|[Hx0 (j & Hj & <-)]] Hne]; [by left|right]. split; [done|]. exists j. split; [done|].
      unfold clear_slot. rewrite slot_ptr_set by done. case_decide; congruence.
    + intros [Hf|[Hx0 (j & Hj & E)]].
      * split; [by left|]. intros ->. by apply (Hp i); [lia|done|].
      * unfold clear_slot in E. rewrite slot_ptr_set in E by done. case_decide; cbn in E; [congruence|].
        split; [right; split; [done|]; by exists j|]. intros ->. assert (i = j); [|done]. apply Ho; [lia|lia|done|done].
  - intros a b Ha' Hb' Hn E. revert Hn E. unfold clear_slot. rewrite !slot_ptr_set by done. cbn [sl_ptr]. do 2 case_decide; try congruence.
    by apply Ho.
  - intros a Ha' Hn. revert Hn. unfold clear_slot. rewrite slot_ptr_set by done. cbn [sl_ptr]. case_decide; [congruence|by apply Hp].
Qed.

(** A new block in an empty slot, or none. *)
Lemma owns_fill F w O i q sz : owns 0 F w O -> (i < LIVE_SLOTS)%nat -> slot_ptr w i = 0 -> q ∉ O \/ q = 0 ->
  owns 0 F (set_slot w i (mkSlot q sz)) (if decide (q = 0) then O else {[q]} ∪ O).
Proof.
  intros [Hl Ha Ho Hp] Hi Hz Hq. assert (forall j, slot_ptr (set_slot w i (mkSlot q sz)) j = if decide (i = j) then q else slot_ptr w j) as Es
    by (intros j; by rewrite slot_ptr_set).
  assert (q <> 0 -> q ∉ O) as Hnew by tauto. clear Hq.
  assert (forall j, (j < LIVE_SLOTS)%nat -> q <> 0 -> slot_ptr w j <> q) as Hno.
  { intros j Hj Hq E. apply (Hnew Hq), Ha. right. split; [done|]. exists j. split; [lia|done]. }
  split.
  - unfold set_slot. cbn. by rewrite length_insert.
  - intros x. assert (x ∈ (if decide (q = 0) then O else {[q]} ∪ O) <-> (q <> 0 /\ x = q) \/ x ∈ O) as ->
      by (case_decide; rewrite ?elem_of_union, ?elem_of_singleton; tauto).
    rewrite Ha. split.
    + intros [[Hq ->]|[?|[Hx (j & Hj & E)]]]; [right|by left|right]; (split; [done|]).
      * exists i. rewrite Es. split; [lia|by rewrite decide_True].
      * exists j. rewrite Es. split; [done|]. case_decide; congruence.
    + intros [?|[Hx (j & Hj & E)]]; [by right; left|]. rewrite Es in E. case_decide; [left; split; congruence|].
      right. right. split; [done|]. by exists j.
  - intros a b Ha' Hb'. rewrite !Es. do 2 case_decide; try congruence.
    + intros Hn E. by destruct (Hno b); [lia|congruence|].
    + intros Hn E. by destruct (Hno a); [lia|congruence|].
    + by apply Ho.
  - intros a Ha'. rewrite Es. case_decide; [|by apply Hp]. intros Hq Hf. apply (Hnew Hq), Ha. by left.
Qed.

Lemma wp_release_slot F w O i : owns 0 F w O -> (i < LIVE_SLOTS)%nat ->
  wp (release_slot w i) O (fun w' O' => owns 0 F w' O' /\ slot_ptr w' i = 0).
Proof.
  intros Ho Hi. unfold release_slot. destruct (Z.eqb_spec (slot_ptr w i) 0) as [E|E]; [done|].
  apply wp_bind, wp_free; [done|apply (ow_all _ _ _ _ Ho); right; split; [done|]; exists i; split; [lia|done]|].
  split; [by apply owns_clear|]. unfold clear_slot. rewrite slot_ptr_set by (done || apply Ho). by rewrite decide_True.
Qed.

Lemma wp_fill F w O i sz (k : Z -> Prog Worker) Q : owns 0 F w O -> (i < LIVE_SLOTS)%nat -> slot_ptr w i = 0 ->
  (forall p O', owns 0 F (set_slot w i (mkSlot p sz)) O' -> wp (k p) O' Q) -> wp (ask (CMalloc sz) ≫= k) O Q.
Proof.
  intros Ho Hi Hz Hk. apply wp_bind, wp_alloc; [done| |].
  - apply Hk. pose proof (owns_fill F w O i 0 sz Ho Hi Hz ltac:(by right)) as H. by rewrite decide_True in H.
  - intros q Hq Hn. apply Hk. pose proof (owns_fill F w O i q sz Ho Hi Hz ltac:(by left)) as H. by rewrite decide_False in H.
Qed.

Notation keeps F p O := (wp p O (owns 0 F)).

Lemma keeps_steady F w O : owns 0 F w O -> keeps F (do_steady w) O.
Proof.
  intros Ho. unfold do_steady. cbv zeta. set (i := Z.to_nat _). assert (i < LIVE_SLOTS)%nat as Hi.
  { unfold i. pose proof (Z.mod_pos_bound (xrand (wk_seed w)) (Z.of_nat LIVE_SLOTS) ltac:(done)). lia. }
  apply wp_bind. eapply wp_mono; [|apply (wp_release_slot F); [by auto|done]]. intros w' O' [Ho' Hz].
  apply (wp_fill F w' O' i); try done. intros p O2 H2. cbn. auto.
Qed.

Lemma keeps_bursty F w O : owns 0 F w O -> keeps F (do_bursty w) O.
Proof. intros Ho. apply wp_for_each; [|done]. intros _ w' O' _. apply keeps_steady. Qed.

Lemma keeps_fragment F w O : owns 0 F w O -> keeps F (do_fragment w) O.
Proof.
  intros Ho. unfold do_fragment. apply wp_bind. eapply (wp_mono _ _ (owns 0 F)).
  - intros w' O' Ho'. apply wp_for_each; [|done]. intros i w2 O2 Hi H2. unfold empty_slot.
    destruct (slot_ptr w2 i =? 0); [done|]. apply wp_bind. eapply wp_mono; [|apply (wp_release_slot F); [done|]].
    + intros w3 O3 [H3 _]. cbn. auto.
    + apply list_elem_of_fmap in Hi as (j & -> & Hj%elem_of_seq). change (LIVE_SLOTS / 2)%nat with (Z.to_nat 256) in Hj.
      unfold LIVE_SLOTS. lia.
  - apply wp_for_each; [|done]. intros i w2 O2 Hi%elem_of_seq H2. unfold fill_slot.
    destruct (Z.eqb_spec (slot_ptr w2 i) 0) as [E|E]; [|done]. cbv zeta.
    apply (wp_fill F (with_seed w2 (xrand (wk_seed w2))) O2 i); [by auto|lia|exact E|]. intros p O3 H3. cbn. auto.
Qed.

(** A block taken and given back on the way changes nothing. *)
Lemma keeps_mmap F w O : owns 0 F w O -> keeps F (do_mmap w) O.
Proof.
  intros Ho. unfold do_mmap. cbv zeta. apply wp_bind, wp_alloc; [done|cbn; by auto|]. intros q Hq Hn.
  rewrite (proj2 (Z.eqb_neq q 0) Hq). apply wp_bind, wp_free; [done|set_solver|]. cbn.
  replace (({[q]} ∪ O) ∖ {[q]}) with O by set_solver. auto.
Qed.

Lemma doubled sz n : 0 < sz -> sz * 2 ^ Z.of_nat (S n) < 2 ^ 64 -> sz ⊠ 2 = sz * 2 /\ 0 < sz * 2 /\ sz * 2 * 2 ^ Z.of_nat n < 2 ^ 64.
Proof.
  intros Hs Hn. rewrite Nat2Z.inj_succ, Z.pow_succ_r in Hn by lia.
  assert (0 < 2 ^ Z.of_nat n) by (apply Z.pow_pos_nonneg; lia). rewrite u64_small; [nia|]. unfold is_u64. nia.
Qed.

Lemma wp_chain F n : forall p sz w O P, owns 0 F w P -> p <> 0 -> p ∉ P -> O = {[p]} ∪ P -> 0 < sz -> sz * 2 ^ Z.of_nat n < 2 ^ 64 ->
  wp (chain_loop n p sz w) O (fun '(q, w') O' => owns 0 F w' P /\ q <> 0 /\ q ∉ P /\ O' = {[q]} ∪ P).
Proof.
  induction n as [|n IH]; intros p sz w O P Ho Hp Hn -> Hs Hb; [done|]. cbn [chain_loop]. cbv zeta.
  destruct (doubled sz n Hs Hb) as (-> & Hs' & Hb'). apply wp_bind, wp_realloc; [done|set_solver|lia|done|].
  intros q Hq Hqn. rewrite (proj2 (Z.eqb_neq q 0) Hq). assert (({[p]} ∪ P) ∖ {[p]} = P) as E by set_solver.
  rewrite E in *. apply (IH _ _ _ _ P); auto.
Qed.

Lemma keeps_chain F w O : owns 0 F w O -> keeps F (do_realloc_chain w) O.
Proof.
  intros Ho. unfold do_realloc_chain. cbv zeta. apply wp_bind, wp_alloc; [done|cbn; by auto|]. intros p Hp Hn.
  rewrite (proj2 (Z.eqb_neq p 0) Hp). pose proof (Z.mod_pos_bound (xrand (wk_seed w)) 64 ltac:(done)).
  apply wp_bind. eapply wp_mono; [|apply (wp_chain F 10 _ _ _ _ O); [by auto|done|done|done|lia|]].
  - intros [q w'] O' (Ho' & Hq & Hqn & ->). apply wp_bind, wp_free; [done|set_solver|]. cbn.
    replace (({[q]} ∪ O) ∖ {[q]}) with O by set_solver. auto.
  - change (2 ^ Z.of_nat 10) with 1024. rewrite pow2_64. lia.
Qed.

Lemma keeps_round F m w O : owns 0 F w O -> keeps F (round m w) O.
Proof.
  intros Ho. destruct m; cbn [round]; cbv zeta;
    [by apply keeps_steady|by apply keeps_bursty|by apply keeps_fragment|by apply keeps_mmap|].
  repeat case_match; [apply keeps_fragment|apply keeps_mmap|apply keeps_chain|apply keeps_bursty|apply keeps_steady]; auto.
Qed.
Lemma keeps_rounds F n m : forall w O, owns 0 F w O -> keeps F (rounds n m w) O.
Proof.
  induction n as [|n IH]; intros w O Ho; [done|]. cbn [rounds]. apply wp_bind. eapply wp_mono; [|by apply (keeps_round F)]. apply IH.
Qed.

(** The frees at the end. *)
Lemma owns_next k F w O : owns k F w O -> (k < LIVE_SLOTS)%nat ->
  owns (S k) F w (if decide (slot_ptr w k = 0) then O else O ∖ {[slot_ptr w k]}).
Proof.
  intros [Hl Ha Ho Hp] Hk. split; [done| | |].
  - intros x. assert (x ∈ (if decide (slot_ptr w k = 0) then O else O ∖ {[slot_ptr w k]}) <->
      x ∈ O /\ ~ (slot_ptr w k <> 0 /\ x = slot_ptr w k)) as ->
      by (case_decide; rewrite ?elem_of_difference, ?elem_of_singleton; tauto).
    rewrite Ha. split.
    + intros [[?|[Hx (i & Hi & E)]] Hne]; [by left|right]. split; [done|]. exists i. split; [|done].
      destruct (decide (i = k)) as [->|]; [|lia]. exfalso. apply Hne. rewrite E. by split.
    + intros [Hf|[Hx (i & Hi & E)]].
      * split; [by left|]. intros [Hn ->]. by apply (Hp k); [lia|done|].
      * split; [right; split; [done|]; exists i; split; [lia|done]|]. intros [Hn Ex].
        assert (k = i); [|lia]. apply Ho; [lia|lia|done|congruence].
  - intros i j Hi Hj. apply Ho; lia.
  - intros i Hi. apply Hp. lia.
Qed.

Lemma wp_free_any x (O : gset Z) (Q : Z -> gset Z -> Prop) : (x <> 0 -> x ∈ O) ->
  Q 0 (if decide (x = 0) then O else O ∖ {[x]}) -> wp (ask (CFree x)) O Q.
Proof. intros Hx HQ. case_decide; [by left|right]. auto. Qed.

Lemma wp_free_all F n : forall k w O, (k + n)%nat = LIVE_SLOTS -> owns k F w O ->
  wp (for_each (seq k n) (fun i w => _ ← ask (CFree (slot_ptr w i)); mret w) w) O (fun _ O' => O' = F).
Proof.
  induction n as [|n IH]; intros k w O Hk Ho.
  - cbn. apply set_eq. intros x. rewrite (ow_all _ _ _ _ Ho). split; [intros [?|[_ (i & Hi & _)]]; [done|lia]|by left].
  - cbn [seq for_each]. apply wp_bind, wp_bind, wp_free_any.
    + intros Hx. apply (ow_all _ _ _ _ Ho). right. split; [done|]. exists k. split; [lia|done].
    + apply IH; [lia|]. apply owns_next; [done|lia].
Qed.

(** A worker gives back everything it was given, and nothing twice. *)
Lemma worker_clean m n tid : wp (worker m n tid) ∅ (fun a O => a = 0 /\ O = ∅).
Proof.
  unfold worker. apply wp_bind, wp_alloc; [done|done|]. intros p Hp _. rewrite (proj2 (Z.eqb_neq p 0) Hp).
  replace ({[p]} ∪ ∅ : gset Z) with ({[p]} : gset Z) by set_solver.
  assert (forall i, slot_ptr (mkWorker (replicate LIVE_SLOTS (mkSlot 0 0)) (first_seed tid) 0) i = 0) as Hz.
  { intros i. unfold slot_ptr. cbn [wk_live]. rewrite list_lookup_total_alt.
    destruct (replicate LIVE_SLOTS (mkSlot 0 0) !! i) as [s|] eqn:E; [|done]. by apply lookup_replicate in E as [-> _]. }
  apply wp_bind. eapply wp_mono; [|apply (keeps_rounds {[p]})].
  - intros w O Ho. apply wp_bind. eapply wp_mono; [|by apply (wp_free_all {[p]} LIVE_SLOTS 0)].
    intros _ O' ->. apply wp_bind, wp_free; [done|set_solver|]. split; [done|set_solver].
  - split.
    + apply length_replicate.
    + intros x. split; [by left|]. intros [?|[Hx (i & _ & E)]]; [done|]. by rewrite Hz in E.
    + intros i j _ _ Hn. by rewrite Hz in Hn.
    + intros i _ Hn. by rewrite Hz in Hn.
Qed.

(** ** hello_alloc *)

(** The small blocks got so far: distinct, and all there is. *)
Definition smalls (got : list Z) (O : gset Z) : Prop := O = list_to_set got /\ NoDup got /\ 0 ∉ got.

Lemma wp_fill_small ixs : forall got O, smalls got O ->
  wp (fill_small ixs got) O (fun r O' => match r with Some l => smalls l O' /\ length l = (length got + length ixs)%nat | None => True end).
Proof.
  induction ixs as [|i ixs IH]; intros got O Hs; [cbn; split; [done|lia]|]. cbn [fill_small].
  apply wp_bind, wp_alloc; [done|done|]. intros q Hq Hn. rewrite (proj2 (Z.eqb_neq q 0) Hq).
  destruct Hs as (-> & Hd & Hz). eapply wp_mono; [|apply IH].
  - intros [l|] O'; [|done]. intros [H E]. split; [done|]. rewrite E, length_app. cbn. lia.
  - rewrite elem_of_list_to_set in Hn. split; [|split].
    + rewrite list_to_set_app_L. cbn. set_solver.
    + apply NoDup_app. split; [done|]. split; [|apply NoDup_singleton]. intros x Hx ->%list_elem_of_singleton. done.
    + rewrite elem_of_app, list_elem_of_singleton. naive_solver.
Qed.

Lemma wp_free_small small P ixs : NoDup small -> 0 ∉ small -> NoDup ixs -> (forall i, i ∈ ixs -> (i < length small)%nat) ->
  (forall i, i ∈ ixs -> small !!! i ∉ P) ->
  wp (free_small ixs small) (P ∪ list_to_set ((fun i => small !!! i) <$> ixs)) (fun _ O => O = P).
Proof.
  intros Hd Hz. unfold free_small. induction ixs as [|i ixs IH]; intros Hi Hl Hp; [cbn; set_solver|].
  apply NoDup_cons in Hi as [Hni Hi]. cbn [for_each fmap list_fmap list_to_set].
  assert (small !! i = Some (small !!! i)) as Ei by (apply list_lookup_lookup_total_lt, Hl; by left).
  assert (small !!! i ∉ (list_to_set ((fun i => small !!! i) <$> ixs) : gset Z)) as Hnew.
  { rewrite elem_of_list_to_set, list_elem_of_fmap. intros (j & E & Hj).
    assert (small !! j = Some (small !!! j)) as Ej by (apply list_lookup_lookup_total_lt, Hl; by right).
    rewrite <- E in Ej. by rewrite (NoDup_lookup _ _ _ _ Hd Ei Ej) in Hni. }
  apply wp_bind, wp_bind, wp_free.
  - intros E. apply Hz. rewrite <- E. by eapply list_elem_of_lookup_2.
  - set_solver.
  - cbn. replace ((P ∪ ({[small !!! i]} ∪ list_to_set ((fun i => small !!! i) <$> ixs))) ∖ {[small !!! i]})
      with (P ∪ list_to_set ((fun i => small !!! i) <$> ixs)).
    + apply IH; [done|intros; apply Hl; by right|intros; apply Hp; by right].
    + assert (small !!! i ∉ P) by (apply Hp; by left). set_solver.
Qed.

Lemma wp_grow n : forall p len O P, p <> 0 -> p ∉ P -> O = {[p]} ∪ P -> 0 < len -> len * 2 ^ Z.of_nat n < 2 ^ 64 ->
  wp (grow_loop n p len) O (fun r O' => match r with
    | Some (q, len') => q <> 0 /\ q ∉ P /\ O' = {[q]} ∪ P /\ len' = len * 2 ^ Z.of_nat n
    | None => O' = P end).
Proof.
  induction n as [|n IH]; intros p len O P Hp Hn -> Hs Hb; [cbn; split_and!; try done; lia|]. cbn [grow_loop]. cbv zeta.
  destruct (doubled len n Hs Hb) as (-> & Hs' & Hb'). apply wp_bind, wp_realloc; [done|set_solver|lia| |].
  - cbn [Z.eqb]. apply wp_bind, wp_free; [done|set_solver|]. cbn. set_solver.
  - intros q Hq Hqn. rewrite (proj2 (Z.eqb_neq q 0) Hq). assert (({[p]} ∪ P) ∖ {[p]} = P) as E by set_solver.
    rewrite E in *. eapply wp_mono; [|by apply (IH _ _ _ P)]. intros [[r len']|] O'; [|done].
    intros (? & ? & ? & ->). split_and!; try done. rewrite Nat2Z.inj_succ, Z.pow_succ_r by lia. lia.
Qed.

Lemma parity_cover (small : list Z) : length small = SMALL_COUNT ->
  (list_to_set small : gset Z) =
    (∅ ∪ list_to_set ((fun i => small !!! i) <$> ((fun i => 2 * i + 1)%nat <$> seq 0 (SMALL_COUNT / 2)))) ∪
    list_to_set ((fun i => small !!! i) <$> (Nat.mul 2 <$> seq 0 (SMALL_COUNT / 2))).
Proof.
  intros Hl. change (SMALL_COUNT / 2)%nat with 32%nat. unfold SMALL_COUNT in Hl. apply set_eq. intros x.
  rewrite union_empty_l_L, elem_of_union, !elem_of_list_to_set, !list_elem_of_fmap.
  split.
  - intros [i Hi]%list_elem_of_lookup. pose proof (lookup_lt_Some _ _ _ Hi) as Hlt.
    destruct (Nat.Even_or_Odd i) as [[j ->]|[j ->]]; [right|left]; eexists; (split; [symmetry; by apply list_lookup_total_correct|]);
      apply list_elem_of_fmap; exists j; (split; [done|]); apply elem_of_seq; lia.
  - intros [(i & -> & (j & -> & Hj%elem_of_seq)%list_elem_of_fmap)|(i & -> & (j & -> & Hj%elem_of_seq)%list_elem_of_fmap)];
      apply list_elem_of_lookup_total_2; lia.
Qed.

Lemma wp_iteration len : 0 < len -> len * 2 ^ 12 < 2 ^ 64 ->
  wp (hello_iteration len) ∅ (fun r O => match r with Some len' => O = ∅ /\ len' = len * 2 ^ 12 | None => True end).
Proof.
  intros Hs Hb. unfold hello_iteration. apply wp_bind. eapply wp_mono; [|apply (wp_fill_small _ [] ∅)].
  2: { split; [done|]. split; [apply NoDup_nil_2|by apply not_elem_of_nil]. }
  intros [small|] O; [|done]. intros [(-> & Hd & Hz) Hl]. cbn [length] in Hl. rewrite length_seq in Hl.
  rewrite (parity_cover small Hl).
  assert (forall i j, (i < SMALL_COUNT)%nat -> (j < SMALL_COUNT)%nat -> small !!! i = small !!! j -> i = j) as Hinj.
  { intros i j Hi Hj E. eapply (NoDup_lookup _ i j (small !!! i) Hd); [apply list_lookup_lookup_total_lt; lia|].
    rewrite E. apply list_lookup_lookup_total_lt. lia. }
  change (SMALL_COUNT / 2)%nat with 32%nat in *. unfold SMALL_COUNT in *.
  apply wp_bind. eapply wp_mono; [|apply wp_free_small; try done].
  - intros _ O ->. apply wp_bind. eapply wp_mono; [|apply wp_free_small; try done].
    + intros _ O ->. apply wp_bind, wp_alloc; [done|done|]. intros b Hb0 _. rewrite (proj2 (Z.eqb_neq b 0) Hb0).
      replace ({[b]} ∪ ∅ : gset Z) with ({[b]} : gset Z) by set_solver.
      apply wp_bind, wp_free; [done|set_solver|]. replace ({[b]} ∖ {[b]} : gset Z) with (∅ : gset Z) by set_solver.
      apply wp_bind, wp_alloc; [done|done|]. intros g Hg _. rewrite (proj2 (Z.eqb_neq g 0) Hg).
      apply wp_bind. eapply wp_mono; [|by apply (wp_grow 12 g len _ ∅)].
      intros [[q len']|] O; [|done]. intros (Hq & _ & -> & ->). apply wp_bind, wp_free; [done|set_solver|].
      cbn. split; [set_solver|done].
    + apply NoDup_fmap; [intros ? ? ?; lia|apply NoDup_seq].
    + intros i (j & -> & Hj%elem_of_seq)%list_elem_of_fmap. lia.
  - apply NoDup_fmap; [intros ? ? ?; lia|apply NoDup_seq].
  - intros i (j & -> & Hj%elem_of_seq)%list_elem_of_fmap. lia.
  - intros i (j & -> & Hj%elem_of_seq)%list_elem_of_fmap.
    rewrite union_empty_l_L, elem_of_list_to_set, list_elem_of_fmap. intros (i & E & (j' & -> & Hj'%elem_of_seq)%list_elem_of_fmap).
    apply Hinj in E; lia.
Qed.

(** A run that returns 0 has given everything back, as long as the length of the
    chain, which goes on growing from one iteration to the next, fits. *)
Lemma hello_clean n : forall len, 0 < len -> len * 2 ^ (12 * Z.of_nat n) < 2 ^ 64 ->
  wp (hello_loop n len) ∅ (fun code O => code = 1 \/ code = 0 /\ O = ∅).
Proof.
  induction n as [|n IH]; intros len Hs Hb; [by right|]. cbn [hello_loop].
  replace (12 * Z.of_nat (S n)) with (12 + 12 * Z.of_nat n) in Hb by lia. rewrite Z.pow_add_r in Hb by lia.
  assert (0 < 2 ^ (12 * Z.of_nat n)) by (apply Z.pow_pos_nonneg; lia). change (2 ^ 12) with 4096 in Hb.
  apply wp_bind. eapply wp_mono; [|apply wp_iteration; [done|change (2 ^ 12) with 4096; nia]].
  intros [len'|] O; [|by left]. intros [-> ->]. apply IH; change (2 ^ 12) with 4096; nia.
Qed.

(** ** What the chain of hello_alloc asks for *)

(** A run against the answers [f] gives, the [i]-th call first: the result and
    the number of the next call. *)
Fixpoint run_with {A} (f : nat -> Call -> Z * Z) (p : Prog A) (i : nat) : A * nat :=
  match p with Ret a => (a, i) | Ask c k => run_with f (k (f i c)) (S i) end.

Lemma run_bind {A B} f (p : Prog A) (k : A -> Prog B) : forall i,
  run_with f (p ≫= k) i = let '(a, j) := run_with f p i in run_with f (k a) j.
Proof. induction p as [a|c k0 IH]; intros i; [done|]. apply IH. Qed.

(** An allocator that has no room for a block of more than [room] bytes. *)
Definition refuses (room : Z) (f : nat -> Call -> Z * Z) : Prop := forall i p n, room < n -> (f i (CRealloc p n)).1 = 0.

Lemma grow_run room f n : refuses room f -> forall p len i q len', 0 < len -> len * 2 ^ Z.of_nat n < 2 ^ 64 ->
  (run_with f (grow_loop n p len) i).1 = Some (q, len') -> len' = len * 2 ^ Z.of_nat n /\ (n <> O -> len' <= room).
Proof.
  intros Hf. induction n as [|n IH]; intros p len i q len' Hs Hb; [cbn; intros [= _ <-]; split; [lia|done]|].
  cbn [grow_loop]. cbv zeta. destruct (doubled len n Hs Hb) as (-> & Hs' & Hb').
  unfold ask. change (Ask ?c ?k0 ≫= ?k) with (Ask c (fun r => Ret r.1 ≫= k)). cbn [run_with mbind Prog_bind].
  destruct (Z.eqb_spec (f i (CRealloc p (len * 2))).1 0) as [E|E]; [done|].
  intros H. destruct (IH _ _ _ _ _ Hs' Hb' H) as [-> Hroom].
  assert (len * 2 <= room) by (destruct (Z.le_gt_cases (len * 2) room); [done|by destruct E; apply Hf]).
  rewrite Nat2Z.inj_succ, Z.pow_succ_r by lia. split; [lia|]. intros _. destruct n; [cbn in *; lia|]. by apply Hroom.
Qed.

Lemma iteration_run room f len i len' : refuses room f -> 0 < len -> len * 2 ^ 12 < 2 ^ 64 ->
  (run_with f (hello_iteration len) i).1 = Some len' -> len' = len * 2 ^ 12 /\ len' <= room.
Proof.
  intros Hf Hs Hb. unfold hello_iteration. rewrite run_bind. destruct (run_with _ (fill_small _ _) i) as [[small|] i1]; [|done].
  rewrite run_bind. destruct (run_with _ (free_small _ _) i1) as [_ i2].
  rewrite run_bind. destruct (run_with _ (free_small _ _) i2) as [_ i3].
  rewrite run_bind. destruct (run_with _ (ask _) i3) as [big i4]. destruct (big =? 0); [done|].
  rewrite run_bind. destruct (run_with _ (ask _) i4) as [_ i5].
  rewrite run_bind. destruct (run_with _ (ask _) i5) as [g i6]. destruct (g =? 0); [done|].
  rewrite run_bind. destruct (run_with f (grow_loop 12 g len) i6) as [[[q l]|] i7] eqn:E; [|done].
  rewrite run_bind. destruct (run_with _ (ask _) i7) as [_ i8]. intros [= <-].
  destruct (grow_run room f 12 Hf g len i6 q l Hs Hb) as [-> Hr]; [by rewrite E|]. split; [done|by apply Hr].
Qed.

Lemma hello_run room f n : refuses room f -> forall len i, 0 < len -> len * 2 ^ (12 * Z.of_nat n) < 2 ^ 64 ->
  forall m, (run_with f (hello_loop (n + m) len) i).1 = 0 -> n = O \/ len * 2 ^ (12 * Z.of_nat n) <= room.
Proof.
  intros Hf. induction n as [|n IH]; intros len i Hs Hb m H; [by left|right]. cbn [Nat.add hello_loop] in H.
  replace (12 * Z.of_nat (S n)) with (12 + 12 * Z.of_nat n) in * by lia. rewrite Z.pow_add_r in * by lia.
  assert (0 < 2 ^ (12 * Z.of_nat n)) by (apply Z.pow_pos_nonneg; lia). change (2 ^ 12) with 4096 in *.
  rewrite run_bind in H. destruct (run_with f (hello_iteration len) i) as [[l|] j] eqn:E; [|done].
  destruct (iteration_run room f len i l Hf Hs) as [-> Hr]; [change (2 ^ 12) with 4096; nia|by rewrite E|].
  change (2 ^ 12) with 4096 in *.
  destruct (IH (len * 4096) j ltac:(lia) ltac:(nia) m H) as [->|?]; [cbn; lia|nia].
Qed.

(** ** What is left when churn has ended *)
Lemma thread_count_bounds o : 1 <= thread_count o <= MAX_THREADS.
Proof.
  unfold thread_count, MAX_THREADS. destruct (Z.ltb_spec (g_threads o) 1);
    [by cbn|destruct (Z.ltb_spec 32 (g_threads o)); lia].
Qed.

Lemma churn_lookup o turns t p : churn o turns !! t = Some p -> p = worker (g_mode o) (turns t) (Z.of_nat t).
Proof.
  unfold churn. intros H%elem_of_list_to_map_2. by apply list_elem_of_fmap in H as (? & [= -> ->] & _).
Qed.

Section Left.
Context {L : Type} `{!Libc L} (base : Z) `{!Allocator L base}.

(** What a worker's result says of the blocks it owns. *)
Definition gave_all_back (a : Z) (O : gset Z) : Prop := a = 0 /\ O = ∅.

Lemma churn_start l o turns : blocks l = ∅ -> pool_start base gave_all_back (mkPool (mkConc l [] ∅) (churn o turns)).
Proof. intros Hb. split; [done|]. split; [done|]. intros t p ->%churn_lookup. apply worker_clean. Qed.

(** The workload is a fair target and leaves nothing behind.  However many
    threads churn is asked for, between 1 and 32 are started; and whatever mode
    they run in, however often each goes round, whatever the allocator answers
    and however the threads' hooks interleave, no thread gives back or resizes a
    block that is not its own, so the events are a history of the heap.  When
    every thread has ended the allocator holds nothing, and an application that
    has folded all the events, fewer than 2^31, shows an empty heap. *)
Theorem churn_leaves_nothing {S} `{!EventSource S} (src : S) caps theme anim now_ns l o turns s :
  blocks l = ∅ -> pool_reachable base (mkPool (mkConc l [] ∅) (churn o turns)) s ->
  1 <= thread_count o <= MAX_THREADS /\
  hook_reachable base (mkConc l [] ∅) (po_conc s) /\ history ∅ (cc_events (po_conc s)) /\
  (pool_done (fun a => a = 0) s ->
   blocks (cc_libc (po_conc s)) = ∅ /\
   (Z.of_nat (length (cc_events (po_conc s))) < 2 ^ 31 ->
    let m := foldl (apply_event now_ns) (ap_model (new_app src caps theme anim now_ns)) (cc_events (po_conc s)) in
    live_of (md_table m) = ∅ /\ md_live m = 0 /\ md_live_bytes m = 0)).
Proof.
  intros Hb Hr. destruct (pool_always base gave_all_back _ _ (churn_start l o turns Hb) Hr) as [Hh [own Hi]].
  pose proof (pi_hooks _ _ _ _ Hi) as Hk. split; [apply thread_count_bounds|]. split; [exact Hh|].
  split; [apply (hi_history _ _ Hk)|]. intros Hd.
  assert (blocks (cc_libc (po_conc s)) = ∅) as He
    by (apply (pool_ends_empty base gave_all_back (fun a => a = 0) own s); [by intros ? ? _ [_ ?]|done|done]).
  split; [done|]. intros Hn. pose proof (hook_events_ok base _ _ (hooks_start base l Hb) (Forall_nil_2 _) Hh) as Hok.
  pose proof (quiet_heap base _ Hk (proj1 Hd)) as Hq. rewrite He in Hq. unfold seen in Hq. rewrite fmap_empty in Hq.
  destruct (live_set_tracks src caps theme anim now_ns _ Hok Hn) as (H1 & H2 & H3). rewrite Hq in *. by split_and!.
Qed.
End Left.

Definition two_threads : Options := mkOptions M_STEADY 2 (str "1") 0.
Definition churn_run : Pool :=
  pool_run kArena 1600 [0; 1]%nat (mkPool (mkConc empty_bump [] ∅) (churn two_threads (fun _ => 3%nat))).

Lemma churn_leaves_nothing_witness :
  let s := churn_run in
  length (cc_events (po_conc s)) = 16%nat /\ blocks (cc_libc (po_conc s)) = ∅.
Proof.
  cbv zeta. assert (length (cc_events (po_conc churn_run)) = 16%nat) as E by (vm_compute; reflexivity). split; [exact E|].
  assert (blocks empty_bump = ∅) as Hb by (vm_compute; reflexivity).
  assert (all_zero churn_run = true) as Hz by (vm_compute; reflexivity).
  exact (proj1 (proj2 (proj2 (proj2 (churn_leaves_nothing kArena new_session (mkCaps TrueColor true) dark_theme true 0 empty_bump
    two_threads (fun _ => 3%nat) churn_run Hb (pool_run_reachable kArena _ 1600 [0; 1]%nat)))) (all_zero_done _ Hz))).
Defined.

(** hello_alloc run as it is by default, or longer, cannot end well: the length
    its chain starts from is carried from one iteration to the next, so the
    fourth ends with a block of 2^52 bytes, beyond any address space of 2^47. *)
Theorem hello_default_fails f arg : refuses (2 ^ 47) f -> 4 <= hello_iterations arg ->
  (run_with f (hello_alloc arg) 0).1 <> 0.
Proof.
  intros Hf Hn H. unfold hello_alloc in H.
  replace (Z.to_nat (hello_iterations arg)) with (4 + (Z.to_nat (hello_iterations arg) - 4))%nat in H by lia.
  destruct (hello_run (2 ^ 47) f 4 Hf 16 0 ltac:(done) ltac:(done) _ H) as [?|Hle]; [done|]. by vm_compute in Hle.
Qed.

(** An allocator that always gives the same address to what fits. *)
Definition generous (i : nat) (c : Call) : Z * Z :=
  match c with CRealloc _ n => (if 2 ^ 47 <? n then 0 else 4096, 0) | _ => (4096, 0) end.
Lemma hello_default_fails_witness : (run_with generous (hello_alloc None) 0).1 <> 0.
Proof.
  apply (hello_default_fails generous None); [|by vm_compute].
  intros i p n Hn. cbn [generous]. by rewrite (proj2 (Z.ltb_lt _ _) Hn).
Defined.
