(* ===== verification/Watched.v ===== *)
(** * A workload under the pipeline

    Programs of [Workload] run by the threads of [Pipeline].  Seen as already
    reported where a release's push has begun, and as still to be reported where
    an allocation's push has not returned, the threads are a pool of the programs:
    so a workload that keeps to what it owns is a correct target for the pipeline,
    whether the ring refuses events or not. *)

From stdpp Require Import fin_maps fin_sets gmap.
From S2P Require Import Prelude Abi Ring Capabilities Theme Session HeapApp HeapAppProofs ChunkTable LiveSet.
From S2P Require Import Preload PreloadProofs HookConc Workload Pipeline Churn.

Section Run.
Context {L : Type} `{!Libc L} (base : Z).

(** The pipeline and what is left of each thread's program. *)
Record Run := mkRun { rn_pipe : Pipe L; rn_progs : gmap nat (Prog Z) }.

(** A thread makes its program's next call; anything else that happens. *)
Inductive RunLabel := RCall (t : nat) (stamp : Z * Z) | RPipe (lb : PipeLabel).

Definition run_step (lb : RunLabel) (r : Run) : option Run :=
  let s := rn_pipe r in
  let progs := rn_progs r in
  match lb with
  | RCall t stamp =>
      match progs !! t with
      | Some (Ask c k) =>
          s' ← pipe_step base (PEnter t stamp c) s;
          Some (mkRun s' (match answered base (pp_libc s) c with Some res => <[t := k res]> progs | None => progs end))
      | _ => None
      end
  | RPipe (PEnter _ _ _) => None
  | RPipe (PGo t stamp as lb) =>
      s' ← pipe_step base lb s;
      Some (mkRun s' (match pp_threads s !! t, progs !! t with
                      | Some (At (Resize p n)), Some (Ask _ k) => <[t := k ((lc_realloc (pp_libc s) p n).2, 0)]> progs
                      | _, _ => progs
                      end))
  | RPipe lb => s' ← pipe_step base lb s; Some (mkRun s' progs)
  end.

Inductive run_reachable (r0 : Run) : Run -> Prop :=
  | rr_start : run_reachable r0 r0
  | rr_step r lb r' : run_reachable r0 r -> run_step lb r = Some r' -> run_reachable r0 r'.

(** ** The pool behind the pipeline *)

Definition pooled_as (i : Inside) : HookPc :=
  match i with
  | At pc => pc
  | Pushing a None => Report (a_opcode a) (a_ptr a) (a_size a)
  | Pushing _ (Some pc) => pc
  end.
Definition pooled (s : Pipe L) (es : list HvEvent) : Conc L := mkConc (pp_libc s) es (pooled_as <$> pp_threads s).
Definition pool_of (r : Run) (es : list HvEvent) : Pool := mkPool (pooled (rn_pipe r) es) (rn_progs r).

(** A release under report is of the block its thread goes on with. *)
Definition same_block (s : Pipe L) : Prop :=
  forall t a pc, pp_threads s !! t = Some (Pushing a (Some pc)) -> held_by pc = a_ptr a.

Lemma start_push_pooled (s s' : Pipe L) t stamp op p n after : start_push s t stamp op p n after = Some s' ->
  (forall pc, after = Some pc -> held_by pc = p) -> same_block s ->
  pp_libc s' = pp_libc s /\ same_block s' /\
  pooled_as <$> pp_threads s' = <[t := match after with Some pc => pc | None => Report op p n end]> (pooled_as <$> pp_threads s).
Proof.
  intros Hs Ha Hb. unfold start_push in Hs. destruct (step _ _) as [r|]; [|done]. injection Hs as <-.
  split; [done|]. split.
  - intros t' a pc. cbn. intros [[_ [= <- ->]]|[_ Hl]]%lookup_insert_Some; [by apply Ha|by apply (Hb t')].
  - cbn [set_sys set_threads pp_threads]. rewrite fmap_insert. by destruct after.
Qed.

Lemma allocate_pooled (s : Pipe L) t c es : same_block s ->
  same_block (pipe_allocate base s t c) /\ allocate base (pooled s es) t c = pooled (pipe_allocate base s t c) es.
Proof.
  intros Hb. unfold pipe_allocate, allocate, pooled. cbn [cc_libc cc_events cc_threads].
  destruct (direct base (pp_libc s) c) as [l res]. cbv zeta.
  destruct (block_got c res =? 0); [by split|]. cbn. rewrite fmap_insert. split; [|done].
  intros t' a pc. cbn. intros [[_ ?]|[_ Hl]]%lookup_insert_Some; [done|by apply (Hb t')].
Qed.

(** A thread enters a hook as the pool's does. *)
Lemma enter_pooled (s s' : Pipe L) t stamp c es : same_block s -> pipe_enter base s t stamp c = Some s' ->
  same_block s' /\ exists es', enter base (pooled s es) t stamp c = pooled s' es'.
Proof.
  intros Hb Hs.
  assert (forall c, same_block (pipe_allocate base s t c) /\ exists es', allocate base (pooled s es) t c = pooled (pipe_allocate base s t c) es') as Hal
    by (intros c0; destruct (allocate_pooled s t c0 es Hb); split; [done|by exists es]).
  assert (forall after, (forall pc, after = Some pc -> held_by pc = match c with CFree p | CRealloc p _ => p | _ => 0 end) ->
    start_push s t stamp HV_OP_FREE (match c with CFree p | CRealloc p _ => p | _ => 0 end) 0 after = Some s' ->
    same_block s' /\ exists es', push (pooled s es) stamp HV_OP_FREE (match c with CFree p | CRealloc p _ => p | _ => 0 end) 0
      (<[t := match after with Some pc => pc | None => Report HV_OP_FREE (match c with CFree p | CRealloc p _ => p | _ => 0 end) 0 end]>
         (pooled_as <$> pp_threads s)) = pooled s' es') as Hpush.
  { intros after Ha Hp. destruct (start_push_pooled _ _ _ _ _ _ _ _ Hp Ha Hb) as (El & Hb' & Eth). split; [exact Hb'|].
    eexists. unfold push, pooled. cbn [cc_libc cc_events cc_threads]. rewrite El, Eth. reflexivity. }
  destruct c as [n|p|a b|p n|old a n|a n|a n|n|n]; cbn [pipe_enter enter] in *; try (injection Hs as <-; apply Hal).
  - destruct (_ || _); [injection Hs as <-; split; [done|by exists es]|]. apply (Hpush (Some (Release p))); [by intros pc [= <-]|done].
  - destruct (_ || _); [injection Hs as <-; apply Hal|]. apply (Hpush (Some (Resize p n))); [by intros pc [= <-]|done].
Qed.

(** Any other step of a thread is the pool's, or none of its. *)
Lemma go_pooled (s s' : Pipe L) t stamp i es : same_block s -> pp_threads s !! t = Some i -> pipe_go s t stamp i = Some s' ->
  same_block s' /\
  (pooled s' es = pooled s es /\ (forall p n, i <> At (Resize p n)) \/
   exists es', go (pooled s es) t stamp (pooled_as i) = pooled s' es' /\ (forall p n, pooled_as i = Resize p n -> i = At (Resize p n))).
Proof.
  intros Hb Ht Hs. assert (forall s1 : Pipe L, pp_threads s1 = delete t (pp_threads s) -> same_block s1) as Hdel
    by (intros s1 E t' a pc; rewrite E; intros [_ Hl]%lookup_delete_Some; by apply (Hb t')).
  assert (forall (s1 : Pipe L) pc, pp_threads s1 = <[t := At pc]> (pp_threads s) -> same_block s1) as Hat
    by (intros s1 pc0 E t' a pc; rewrite E; intros [[_ ?]|[_ Hl]]%lookup_insert_Some; [done|by apply (Hb t')]).
  destruct i as [[op p n|p|p n]|a [pc|]]; cbn [pipe_go pooled_as] in *.
  - destruct (start_push_pooled _ _ _ _ _ _ _ _ Hs ltac:(done) Hb) as (El & Hb' & Eth). split; [exact Hb'|]. left. split; [|intros; congruence].
    unfold pooled. rewrite El, Eth, insert_id; [done|]. by rewrite lookup_fmap, Ht.
  - injection Hs as <-. split; [by apply Hdel|]. right. exists es. split; [|intros; congruence]. unfold pooled. cbn. by rewrite fmap_delete.
  - destruct (lc_realloc (pp_libc s) p n) as [l q] eqn:Er. injection Hs as <-. split; [by eapply Hat|]. right. exists es.
    split; [|intros; congruence]. unfold pooled. cbn. rewrite Er, fmap_insert. done.
  - destruct (s_prod (pp_ring s) !! t); [done|]. injection Hs as <-. split; [by eapply Hat|]. left. split; [|intros; congruence].
    unfold pooled. cbn. rewrite fmap_insert, insert_id; [done|]. by rewrite lookup_fmap, Ht.
  - destruct (s_prod (pp_ring s) !! t); [done|]. injection Hs as <-. split; [by apply Hdel|]. right. eexists. split; [|intros; congruence].
    unfold pooled, push. cbn. by rewrite fmap_delete.
Qed.

(** What is not a thread's step outside the ring leaves the threads and the
    allocator alone. *)
Lemma ring_step_threads lb (s s' : Pipe L) : pipe_step base lb s = Some s' -> (match lb with PEnter _ _ _ | PGo _ _ => False | _ => True end) ->
  pp_libc s' = pp_libc s /\ pp_threads s' = pp_threads s.
Proof.
  assert (forall f, use s f = Some s' -> pp_libc s' = pp_libc s /\ pp_threads s' = pp_threads s) as Huse
    by (unfold use; intros f Hs; destruct (s_cons (pp_ring s)); try done; by injection Hs as <-).
  intros Hs Hlb. destruct lb as [t stamp c|t stamp|t sp| | |w|lt b|w h|]; try done; cbn [pipe_step] in Hs; try (by eapply Huse).
  - destruct (s_prod (pp_ring s) !! t) as [pc|]; [|done]. cbn [mbind option_bind] in Hs.
    destruct (step (LProd t sp) (pp_ring s)) as [r|]; [|done]. by injection Hs as <-.
  - destruct (s_cons (pp_ring s)), (asks (pp_app s)) as [n|]; try done; [|by injection Hs as <-].
    destruct (step (LDrain (Z.to_nat n)) (pp_ring s)) as [r|]; [|done]. by injection Hs as <-.
  - destruct (step LCons (pp_ring s)) as [r|]; [|done]. by injection Hs as <-.
Qed.

Lemma run_step_pooled lb r r' es : same_block (rn_pipe r) -> run_step lb r = Some r' -> same_block (rn_pipe r') /\
  exists es', pool_of r' es' = pool_of r es \/ exists t stamp lb', pool_step base t stamp (pool_of r es) = Some (pool_of r' es', lb').
Proof.
  intros Hb Hs. destruct r as [s progs], lb as [t stamp|lb]; cbn [run_step rn_pipe rn_progs] in *.
  - destruct (progs !! t) as [[|c k]|] eqn:Hp; try done. cbn [pipe_step] in Hs. destruct (pp_threads s !! t) eqn:Ht; [done|].
    destruct (pipe_enter base s t stamp c) as [s'|] eqn:E; [|done]. injection Hs as <-.
    destruct (enter_pooled s s' t stamp c es Hb E) as [Hb' [es' Ee]]. split; [exact Hb'|]. exists es'. right. exists t, stamp, (Enter t stamp c).
    unfold pool_step, pool_of. cbn [po_conc po_progs rn_pipe rn_progs]. rewrite <- Ee. cbn [pooled cc_threads cc_libc]. by rewrite lookup_fmap, Ht, Hp.
  - destruct lb as [t stamp c|t stamp|t sp| | |w|lt b|w h|]; [done| |..];
      [|match type of Hs with context [pipe_step base ?lb s] => destruct (pipe_step base lb s) as [s'|] eqn:E; [|done]; injection Hs as <-;
          destruct (ring_step_threads _ _ _ E I) as [El Et] end;
        split; [intros t' a pc; cbn; rewrite Et; apply Hb|]; exists es; left; unfold pool_of, pooled; cbn; by rewrite El, Et..].
    destruct (pipe_step base (PGo t stamp) s) as [s'|] eqn:E; [|done]. injection Hs as <-. cbn [pipe_step] in E.
    destruct (pp_threads s !! t) as [i|] eqn:Ht; [|done]. cbn [mbind option_bind] in E.
    destruct (go_pooled s s' t stamp i es Hb Ht E) as [Hb' Hgo]. split; [exact Hb'|].
    destruct Hgo as [[Ep Hn]|(es' & Eg & Hr)].
    + exists es. left. unfold pool_of. cbn [rn_pipe rn_progs]. rewrite Ep. f_equal. by destruct i as [[| |p n]|]; [..|destruct (Hn p n)|].
    + exists es'. right. exists t, stamp, (Go t stamp). unfold pool_step, pool_of. cbn [po_conc po_progs rn_pipe rn_progs]. rewrite <- Eg.
      cbn [pooled cc_threads cc_libc]. rewrite lookup_fmap, Ht. cbn [fmap option_fmap option_map].
      destruct (pooled_as i) as [op p n|p|p n] eqn:Ei.
      * by destruct i as [[]|]; [..|done|]; destruct (progs !! t) as [[]|].
      * by destruct i as [[]|]; [..|done|]; destruct (progs !! t) as [[]|].
      * rewrite (Hr p n eq_refl). by destruct (progs !! t) as [[]|].
Qed.

(** ** A workload that keeps to what it owns *)

Context `{!Allocator L base} (Q : Z -> gset Z -> Prop).

Lemma busy_pooled (s : Pipe L) p : same_block s -> busy (pp_threads s) p -> in_transit (pooled_as <$> pp_threads s) p.
Proof.
  intros Hb (t & i & Hl & <-). exists t, (pooled_as i). rewrite lookup_fmap, Hl. split; [done|].
  destruct i as [pc|a [pc|]]; [done|by apply (Hb t)|done].
Qed.

(** Its calls are those of a correct target. *)
Lemma call_fair own r es t stamp c k : same_block (rn_pipe r) -> pool_inv base Q own (pool_of r es) ->
  pp_threads (rn_pipe r) !! t = None -> rn_progs r !! t = Some (Ask c k) -> pipe_fair base (PEnter t stamp c) (rn_pipe r).
Proof.
  intros Hb Hi Ht Hp.
  assert (exists s', pool_step base t stamp (pool_of r es) = Some (s', Enter t stamp c)) as [s' Hs].
  { unfold pool_step. cbn [pool_of po_conc po_progs pooled cc_threads]. rewrite lookup_fmap, Ht, Hp. by eexists. }
  destruct (pool_step_inv base Q own _ _ _ _ _ Hi Hs) as [[Hf Hn] _]. split; [exact Hf|].
  destruct c; try done; intros Hbusy; by apply Hn, busy_pooled.
Qed.

Lemma run_always r0 r : pool_start base Q (pool_of r0 []) -> same_block (rn_pipe r0) -> run_reachable r0 r ->
  pipe_reachable base (rn_pipe r0) (rn_pipe r) /\ same_block (rn_pipe r) /\ exists es own, pool_inv base Q own (pool_of r es).
Proof.
  intros H0 Hb0. induction 1 as [|r lb r' _ (IHr & IHb & es & own & IH) Hs].
  { split; [constructor|]. split; [done|]. exists [], ∅. by apply pool_start_inv. }
  destruct (run_step_pooled lb r r' es IHb Hs) as (Hb' & es' & Hpool).
  split; [|split; [exact Hb'|exists es'; destruct Hpool as [->|(t & stamp & lb' & Hp)]; [by exists own|by apply (pool_step_inv base Q own _ _ _ _ _ IH Hp)]]].
  destruct r as [s progs], lb as [t stamp|lb]; cbn [run_step rn_pipe rn_progs] in *.
  - destruct (progs !! t) as [[|c k]|] eqn:Hp; try done. destruct (pipe_step base (PEnter t stamp c) s) as [s'|] eqn:E; [|done].
    injection Hs as <-. assert (pp_threads s !! t = None) as Ht by (cbn [pipe_step] in E; by destruct (pp_threads s !! t)).
    eapply pp_step; [exact IHr| |exact E]. by apply (call_fair own (mkRun s progs) es t stamp c k).
  - assert (pipe_fair base lb s /\ pipe_step base lb s = Some (rn_pipe r')) as [Hf E].
    { destruct lb; try done; split; try done; destruct (pipe_step base _ s) as [s'|]; try done; by injection Hs as <-. }
    by eapply pp_step.
Qed.

Definition run_done (R : Z -> Prop) (r : Run) : Prop :=
  pp_threads (rn_pipe r) = ∅ /\ forall t p, rn_progs r !! t = Some p -> exists a, R a /\ p = Ret a.

Lemma run_ends_empty R own r es : (forall a O, R a -> Q a O -> O = ∅) -> pool_inv base Q own (pool_of r es) -> run_done R r ->
  blocks (pp_libc (rn_pipe r)) = ∅.
Proof.
  intros HQ Hi [Ht Hp]. apply (pool_ends_empty base Q R own (pool_of r es) HQ Hi). split; [|exact Hp].
  cbn. by rewrite Ht, fmap_empty.
Qed.
End Run.

(** ** churn, watched *)

Section Churned.
Context {L : Type} `{!Libc L} (base : Z) `{!Allocator L base}.
Context (k : Z) (l : L) (Hl : blocks l = ∅) (a0 : App) (o : Options) (turns : nat -> nat).
#[local] Notation start := (mkRun (pipe_start l k a0) (churn o turns)).

Lemma churn_pipes r : run_reachable base start r -> pipe_reachable base (pipe_start l k a0) (rn_pipe r) /\
  (run_done (fun a => a = 0) r -> blocks (pp_libc (rn_pipe r)) = ∅).
Proof.
  intros Hr. destruct (run_always base gave_all_back start r) as (Hp & _ & es & own & Hi); [|by intros t a pc|done|].
  - unfold pool_of, pooled. cbn [rn_pipe rn_progs pipe_start pp_libc pp_threads]. rewrite fmap_empty. by apply churn_start.
  - split; [exact Hp|]. intros Hd. by apply (run_ends_empty base gave_all_back (fun a => a = 0) own r es); [intros ? ? _ [_ ?]|..].
Qed.
End Churned.

(** C40: The example target under the whole pipeline.  However many threads churn is
    asked for, between 1 and 32 are started; whatever mode they run in and however
    often each goes round, with every push cut at its accesses of the ring, the
    application draining alongside and the ring refusing what it has no room for,
    no thread gives back or resizes a block that is not its own: every run of churn
    is one of the pipeline with a correct target.  When all threads have ended the
    allocator holds nothing; and if the ring refused nothing (and fewer than 2^31
    pushes were made), a running application needs only as many frames as the
    backlog has frame ceilings to end up showing an empty heap. *)
Theorem churn_watched {L} `{!Libc L} base `{!Allocator L base} k l ss caps theme anim now_ns o turns r :
  0 <= k < 64 -> blocks l = ∅ -> attached ss = true ->
  let start := pipe_start l k (new_app (mkBatch ss [] None) caps theme anim now_ns) in
  let s := rn_pipe r in
  run_reachable base (mkRun start (churn o turns)) r ->
  1 <= thread_count o <= MAX_THREADS /\ pipe_reachable base start s /\
  (run_done (fun a => a = 0) r ->
   blocks (pp_libc s) = ∅ /\ forall f,
   Z.of_nat (length (claimed (pp_ring s)) + pp_refused s) < 2 ^ 31 -> h_dropped (r_hdr (s_ring (pp_ring s))) = 0 ->
   s_cons (pp_ring s) = CIdle -> paused_ (ap_staging (pp_app s)) = false ->
   Z.of_nat (length (backlog s)) <= Z.of_nat f * kMaxEventsPerFrame ->
   exists ns s', length ns = f /\ pipe_steps base (frames ns) s = Some s' /\ shows (ap_model (pp_app s')) ∅).
Proof.
  cbv zeta. intros Hk Hl Hss Hr. destruct (churn_pipes base k l Hl _ o turns r Hr) as [Hp Hd].
  split; [apply thread_count_bounds|]. split; [exact Hp|]. intros Hdone. specialize (Hd Hdone). split; [exact Hd|].
  intros f Hn Hdr Hc Hpa Hb.
  destruct (catch_up base k l ss caps theme anim now_ns (rn_pipe r) f Hk Hl Hss Hp Hn Hdr (proj1 Hdone) Hc Hpa Hb)
    as (ns & s' & Hns & Hs' & _ & Hsh).
  exists ns, s'. split; [exact Hns|]. split; [exact Hs'|]. rewrite Hd in Hsh. unfold seen in Hsh. by rewrite fmap_empty in Hsh.
Qed.

(** ** A schedule, executed *)

Section Schedule.
Context {L : Type} `{!Libc L} (base : Z).

(** What the thread does next. *)
Definition next_label (t : nat) (r : Run (L := L)) : RunLabel :=
  let stamp := (0, Z.of_nat t) in
  match pp_threads (rn_pipe r) !! t with
  | None => RCall t stamp
  | Some (At _) => RPipe (PGo t stamp)
  | Some (Pushing _ _) => match s_prod (pp_ring (rn_pipe r)) !! t with Some _ => RPipe (PPush t false) | None => RPipe (PGo t stamp) end
  end.
Definition attempt (lb : RunLabel) (r : Run (L := L)) : Run := match run_step base lb r with Some r' => r' | None => r end.
(** Round after round, every thread of [ts] and the application take a step. *)
Definition run_turn (ts : list nat) (r : Run (L := L)) : Run :=
  let r := foldl (fun r t => attempt (next_label t r) r) r ts in
  attempt (RPipe match s_cons (pp_ring (rn_pipe r)) with CIdle => PFrame | _ => PRead end) r.
Definition run_turns (n : nat) (ts : list nat) (r : Run (L := L)) : Run := Nat.iter n (run_turn ts) r.

Lemma run_turns_reachable r0 n ts : forall r, run_reachable base r0 r -> run_reachable base r0 (run_turns n ts r).
Proof.
  assert (forall ts r, run_reachable base r0 r -> run_reachable base r0 (run_turn ts r)) as Hturn.
  { assert (forall lb r, run_reachable base r0 r -> run_reachable base r0 (attempt lb r)) as Hat
      by (intros lb r Hr; unfold attempt; destruct (run_step base lb r) as [r'|] eqn:E; [by eapply rr_step|done]).
    clear ts. intros ts r Hr. apply Hat. revert r Hr. induction ts as [|t ts IH]; intros r Hr; [done|]. by apply IH, Hat. }
  intros r Hr. induction n as [|n IH]; [done|]. by apply Hturn.
Qed.
End Schedule.

Definition watched_start : Run (L := Bump) :=
  mkRun (pipe_start empty_bump 5 (new_app (mkBatch demo_session [] None) (mkCaps TrueColor true) dark_theme true 0))
    (churn two_threads (fun _ => 3%nat)).
Definition watched_run : Run := run_turns kArena 630 [0; 1]%nat watched_start.
(** Whether every program has ended with 0. *)
Definition all_ended (r : Run (L := Bump)) : bool :=
  forallb (fun tp => match tp.2 with Ret a => a =? 0 | Ask _ _ => false end) (map_to_list (rn_progs r)).
Lemma all_ended_done r : pp_threads (rn_pipe r) = ∅ -> all_ended r = true -> run_done (fun a => a = 0) r.
Proof.
  intros Ht Ha. split; [done|]. apply (all_zero_done (pool_of r [])). unfold all_zero, pool_of. cbn [po_conc po_progs pooled cc_threads].
  rewrite Ht, fmap_empty. exact Ha.
Qed.

Lemma churn_watched_witness :
  exists r, run_reachable kArena watched_start r /\ length (claimed (pp_ring (rn_pipe r))) = 16%nat /\ blocks (pp_libc (rn_pipe r)) = ∅ /\
    exists ns s', length ns = 1%nat /\ pipe_steps kArena (frames ns) (rn_pipe r) = Some s' /\ shows (ap_model (pp_app s')) ∅.
Proof.
  assert ((glance (rn_pipe watched_run), all_ended watched_run) = (16, 0, 0, 0%Z, (true, true, true), true)%nat) as F by (vm_compute; reflexivity).
  pose proof (run_turns_reachable kArena watched_start 630 [0; 1]%nat watched_start (rr_start _ _) : run_reachable kArena watched_start watched_run) as Hr.
  generalize dependent watched_run. intros [s progs] F Hr. injection F as F1 F2 F3 F4 Ft Fc Fp Fe. exists (mkRun s progs). split; [exact Hr|]. split; [exact F1|].
  assert (s_cons (pp_ring s) = CIdle) as Hc by (by destruct (s_cons (pp_ring s))).
  assert (paused_ (ap_staging (pp_app s)) = false) as Hp by (by destruct (paused_ (ap_staging (pp_app s)))).
  assert (0 <= 5 < 64) as Hk by lia. assert (blocks empty_bump = ∅) as Hb by (vm_compute; reflexivity).
  assert (Z.of_nat (length (claimed (pp_ring s)) + pp_refused s) < 2 ^ 31) as Hn by (rewrite F1, F3; reflexivity).
  assert (Z.of_nat (length (backlog s)) <= Z.of_nat 1 * kMaxEventsPerFrame) as Hl by (rewrite F2; discriminate).
  assert (run_done (fun a => a = 0) (mkRun s progs)) as Hdone by (apply (all_ended_done (mkRun s progs)); [apply (bool_decide_eq_true_1 _ Ft)|exact Fe]).
  destruct (churn_watched kArena 5 empty_bump demo_session (mkCaps TrueColor true) dark_theme true 0 two_threads (fun _ => 3%nat)
    (mkRun s progs) Hk Hb eq_refl Hr) as (_ & _ & Hd).
  destruct (Hd Hdone) as [He Hall]. split; [exact He|]. exact (Hall 1%nat Hn F4 Hc Hp Hl).
Defined.
